(* ===== verification/_CoqProject ===== *)
-Q . S2P
Prelude.v
BTree.v
SequenceBuffer.v
Wire.v
History.v
AckManager.v
AckInvariant.v
AckRecv.v
AckSend.v
AckLiveness.v
Dedup.v
DedupPackets.v
Link.v
LinkSystem.v
MeshLink.v
TransportWitness.v
Retention.v
Driver.v
DriverRun.v
Commands.v
Validation.v
Seen.v
Reorder.v
Directive.v
SyncGeneration.v
TurnRing.v
RateLimit.v
Law.v
Presence.v
PresenceMesh.v
SideChannel.v
Lobby.v
Provisional.v
ProvisionalBounds.v
DropHold.v
Gate.v
Clock.v
Lead.v
Phase.v
Delivery.v
Votes.v
SyncTurns.v
SyncTracker.v
SyncMaker.v
StateHashes.v
ControlStream.v
Slot.v
Maker.v
ClientEdge.v
Departure.v
LeaveFinality.v
LeaveSeal.v
LeaveAgreement.v
F64.v
Buffer.v
BufferInv.v
BufferLaw.v
BufferSafety.v
Registry.v
PairRtts.v
Placement.v
PlacementSound.v
Outbox.v
EvidenceHistory.v
Setup.v
SetupInv.v
SetupRun.v
SetupWitness.v
EvidenceRun.v
Lifecycle.v
LifecycleOps.v
LifecycleInv.v
LifecycleTrack.v
LifecycleStuck.v
LifecycleQueues.v
LifecycleEmpty.v
Ledger.v
Fleet.v
FleetSafe.v
FleetLaws.v
