(* ===== verification/Prelude.v ===== *)
(** * rally-point2: a verification library (root file)

    rally-point2 carries the turns of a lockstep game between players through
    relays.  A client numbers its turns and sends them to its home relay in
    QUIC datagrams; the relay validates them and fans them out to its own
    clients and, over mesh links, to the other relays of the session.  A
    datagram may be lost, so every packet re-carries turns not acknowledged
    yet, and receivers drop copies.  A turn too wide for a datagram rides a
    reliable control stream instead.  Reconnects and moves to another relay
    keep the numbering, so no turn may be lost or played twice across them.

    ** Layout

    - [Prelude]: machine widths, [Result] and its notation, tactics, hint
      database, list lemmas.  [BTree]: ordered maps and sets as sorted lists,
      under an order class ([std::collections]).
    - [SequenceBuffer] ([transport/src/sequence_buffer.rs]): the ring keyed by
      sequence number; a failed assertion or index is [None].
    - [Wire] (messages of [proto/proto/wire.proto]): the fields the models use;
      encoded sizes are the class [Prost] with the laws [ProstLaws], and
      [prost_sizes] is an instance that satisfies them.
    - [History], [AckManager] ([transport/src/ack_manager/]): the receive
      history, the carry policy, and the whole ack manager.  [AckInvariant],
      [AckRecv], [AckSend], [AckLiveness] prove its invariant, its receive half,
      its send half, that flushes starve nobody, and that every state the driver
      can reach satisfies the invariant ([step] is one driver operation).
    - [Dedup], [DedupPackets] ([transport/src/link/dedup.rs]): receive windows
      and the transactional packet filter.
    - [Link] ([transport/src/link/mod.rs]): one connection; the live datagram
      size and the answer of [send_datagram] are arguments.  [LinkSystem]: two
      links over a network that may lose, copy and reorder packets, with
      reconnects, ack beacons and stream deliveries, as a step relation.
    - [MeshLink] ([transport/src/mesh_link/]): many sessions
      and tenants over one relay-to-relay connection.
    - [TransportWitness]: the ack manager, links and mesh links on concrete
      states.
    - [Retention] ([client/src/driver/retention.rs], [send.rs]): the ring of
      sent turns, the two resume paths and their anchors.
    - [Commands] ([proto/src/commands.rs]), [Validation]
      ([relay/src/validation.rs]): lengths of game commands, and the validator
      of untrusted turns.
    - [Seen] ([relay/src/mesh/seen.rs]): the gate that forwards each turn once.
    - [Driver] ([client/src/phase.rs], [client/src/driver/{session,
      outbound,teardown,run,reconnect,backoff}.rs], [leave_announcer.rs]): the
      phase delay and the steps of a client's driver, its own turns and its
      leave, over connections that fail; [DriverRun] proves what holds along
      its runs.
    - [ClientEdge] ([client/src/leave/mod.rs], [driver/connectivity.rs],
      [driver/{backoff,reconnect}.rs]): leaves handed to the game, the display of
      other members' connections, and the redial loop with its escalation.
    - [Reorder] ([client/src/driver/reorder.rs], [inbound.rs]), [Directive]
      ([client/src/directive.rs]), [SyncGeneration]
      ([client/src/sync_generation.rs]): what the game is handed and when.
    - [TurnRing] ([relay/src/session/turn_ring/mod.rs]), [RateLimit]
      ([relay/src/rate_limit.rs]), [Law] ([relay/src/consensus/law.rs]): the
      relay's replay ring, admission caps, and the control law's windows.
    - [SyncTurns] ([relay/src/consensus/sync/turns.rs]), [SyncTracker]
      ([sync/mod.rs], [sync/tracker.rs]), [SyncMaker] ([maker/sync.rs] and the
      lines of [homing.rs], [departure.rs] and [authority.rs] that touch the
      comparator): checksums put in order per origin, compared across players,
      and the observer that drives both.  [StateHashes] ([sync/hashes.rs]): the
      comparator of a rollback session's state hashes.  [Votes]: the tally and
      strict majority both comparators share.
    - [Presence] ([relay/src/session/presence.rs], [mesh/join.rs]): which relay
      decides a session's buffer.  [PresenceMesh]: the relays of a session and
      the link drivers between them as a transition system whose steps may
      interleave, report late, lose links and redial.
    - [DropHold] ([relay/src/session/drop_hold/mod.rs]): holds on dropped slots,
      request caps, and the timer of an abandoned session, with its tasks.
    - [Gate] ([relay/src/session/gate.rs]): the ingress gate of a session as a
      step relation over threads, locks and gate instances.
    - [Clock] ([relay/src/consensus/clock.rs]): a relay's copy of a rollback
      session's clock, and merging.  [Lead] ([consensus/lead.rs]): how late each
      slot's turns arrive against it.
    - [ControlStream] ([proto/src/control_stream/mod.rs],
      [transport/src/control_framing.rs]): length-prefixed control frames.
    - [SideChannel] ([relay/src/session/side_channel/]): which members lobby and
      chat traffic reaches, and its replay to late ones.  [Lobby]
      ([client/src/driver/lobby.rs]): the client's side, its history of commands
      and the pacer of its writes.
    - [Provisional], [ProvisionalBounds] ([session/provisional_turns/mod.rs]):
      the journal of turns of slots whose session is not known yet.
    - [Phase] ([consensus/phase/]): the controller that aligns send phases.
      [Delivery] ([consensus/delivery.rs]): how far each relay has received.
      [Slot] ([consensus/slot.rs]): per-slot link
      measurements, loss counters and the credit of an outage.
    - [Maker] ([consensus/maker/mod.rs]): the decision maker's state;
      [Departure] ([maker/{departure,leave,homing,authority,connection,eviction}.rs]): every way a
      player leaves, returns, moves or is decided out.  [LeaveFinality],
      [LeaveSeal], [LeaveAgreement] prove what becomes of leaves over every
      sequence of those operations.
    - [F64]: binary64 arithmetic on [SpecFloat], for the law's quotients.
      [Buffer] ([maker/{buffer,session_start,phase}.rs]): the latency
      buffer law.  [BufferInv] and [BufferLaw] give its invariant over the
      maker's whole step relation, [BufferSafety] what the law guarantees.
    - The coordinator, which places sessions on relays and follows them.
      [Registry] ([coordinator/src/registry/mod.rs]): enrolled relays and their
      generations.  [PairRtts] ([pair_rtts/mod.rs]): the backbone table.
      [Placement], [PlacementSound] ([session/placement.rs]): which relay homes
      which slot.  [Outbox] ([descriptors/mod.rs]): what each relay is told.
      [EvidenceHistory] ([session/evidence_history.rs]): which process may
      report on a slot after it moved.  [Setup]
      ([session/{setup,create,rehome,descriptor,gate}.rs]): sessions created,
      moved, settled and retired; [SetupInv] its invariant, [SetupRun] and
      [EvidenceRun] what holds over every sequence of operations,
      [SetupWitness] concrete ones.
    - [Lifecycle] ([lifecycle/{mod,sessions,close,reaps,relays,heartbeat}.rs]):
      a session from registration to its [sessionClosed] webhook, with the
      timers as tasks that may wake late and run after an abort.
      [LifecycleOps] ([lifecycle/{notices,persist,evidence}.rs], [notify/],
      [api/sessions.rs], [api/control_enroll.rs]): the handlers that join it
      with the setup, and the step relation of the whole coordinator.
      [LifecycleInv], [LifecycleTrack], [LifecycleQueues], [LifecycleEmpty] and
      [LifecycleStuck] prove what holds along its runs, and run it.
    - [Ledger] ([coordinator/src/ledger/]): the rows of provisioned relays, the
      minting of ids and tokens, and which enroll they authorize.  [Fleet]
      ([coordinator/src/provision/], [api/control_enroll.rs]): the reconcile
      loop that launches and drains relays, a program in which other operations
      of the coordinator run between any two of its calls; what the substrate
      answers, which statements fail and what runs meanwhile are the class
      [World].  [FleetSafe] gives its invariant and what a drain guarantees,
      [FleetLaws] launches, ages and the pacing of coverage, and runs it.

    ** What the theorems show

    Delivery: [link_no_loss_exactly_once] is the end-to-end guarantee, every
    payload a side sent is unacked or delivered and none is handed over twice;
    it rests on the exactness of ack handling ([handle_incoming_exact]), of the
    packet filter ([retain_fresh_exact], [dedup_exactly_once]) and of the
    receive history ([history_exact]), and [flushes_cover_window] says the
    unacked payloads are all re-carried.  [rehome_promise_kept] and
    [same_relay_anchor_covers] carry it across a resume, [replay_covers_missed]
    across a reconnect.  Mesh: [mesh_sessions_independent] makes a shared
    connection as good as one per session.  Bounds: packets within datagrams
    ([build_outgoing_bounded], [payload_fits_send_agree],
    [mesh_fits_send_agree]), memory ([dedup_memory_bounded],
    [turn_ring_bounded], [retention_bounded]), admission ([token_bucket_bound],
    [control_frame_capped]).  Trust: [validate_turn_exact] and
    [validate_turn_safe].  Desync detection: [honest_session_never_desyncs] is
    the guarantee to players, [verdicts_are_justified], [verdict_exact] and
    [drain_is_complete] say what a verdict means and that none is missed,
    [turn_order_immaterial], [honest_generation_recovered] and
    [paced_stream_never_fails] that the ordinals compared are the players' own.
    For state hashes [hash_verdicts_justified] says whom a verdict may name,
    [reported_never_missing] that a report in time is enough, and
    [early_verdict_stands] that a verdict is not given too early.
    Session authority: [presence_single_authority] makes all relays agree on one
    decider once reports settle, [presence_all_empty_exact] on when a session is
    empty; [refused_activation_no_authority] is a history outside the first
    theorem's hypothesis, where no relay decides.  Removal of players:
    [drop_hold_sustained], [hold_claimed_once] and [abandon_fires_exactly].
    Retirement: [retired_session_admits_nothing], [gate_sections_exclusive]; the
    unlocked [discard], meant for sessions no retirement will come for, is a step
    of the relation and excluded by their hypotheses.  Time:
    [final_deadline_never_moves], [clock_merge_order_free], [clock_resumes_now],
    [stops_never_flip_a_reading], and for reports [lead_report_exact],
    [lead_marks_exact], [lead_tracker_well_formed].
    Out of a client: [client_turns_in_order] says no failure loses, repeats or
    reorders a turn it produced, [leave_follows_turns] that its leave comes
    last, except from the flush of a resumed session, where
    [flush_announces_too_early] is a run of the contrary; [slew_is_gentle]
    bounds the delay a relay can command, [redial_escalates_gently] how often an
    outage asks the coordinator.  [counted_leave_on_its_turn] makes a leave hit
    every game at the same turn, [fence_follows_lifecycle] keeps a member's
    display from going back.  Lobby commands:
    [paced_lobby_never_refused], [lobby_resend_completes] and
    [lobby_handed_once] together with the relay's [lobby_members_agree].
    Order and agreement at the game: [game_order],
    [release_complete], [directive_agreement], [directive_on_frame],
    [sync_tags_true].  Optimised structures against references:
    [ring_refines_bounded_map], [rtt_window_max], [bucketed_max_window].
    Departures: [decided_leave_final], [one_departure_notice],
    [ended_generation_never_returns], [sealed_drop_stays_out],
    [return_restores_progress]; agreement of relays on a leave:
    [handoff_directive_agrees], [promotion_decides_exactly],
    [leave_frame_reachable]; counts: [dropped_counts_proven],
    [finalized_count_emitted], [outage_losses_never_priced].  Turns of slots
    not yet known: [journal_exact].  Buffer law: [authored_directives_reach],
    [raise_is_immediate], [shrink_is_earned], [target_formula],
    [relay_follows_clients], [authority_reaffirms], [start_depth_agrees] and
    [sessions_never_fail].
    Coordinator: [placement_sound], [one_live_session_per_id],
    [rehome_answers_true] and [retired_session_gone] say what a create, a move
    and a retirement guarantee, [evidence_authority_unique] and
    [moved_identity_still_reports] who may report on a slot,
    [backbone_table_tracks] that the table follows its reports.
    [lifecycle_tracks_setup] says the lifecycle's serving sets are the
    assigned ones; it excludes one operation, the eviction of a cohort, and
    [evicted_session_never_ends] shows what happens after that one.
    [session_closed_last] gives the order and bounds of webhooks,
    [empty_reap_is_earned] that an empty session is ended on proof only.
    Relays: [id_binds_one_certificate] and [enrolled_relays_are_bound] say who
    may enroll under an id, [drained_relay_never_serves] that a drain is final
    whatever runs meanwhile, [drain_leaves_region_served] that it leaves a
    region served, [scale_up_launches_missing] that launches are neither too
    many nor lost, [coverage_retries_back_off] how a region without
    measurements is tried, [age_limit_near] when a relay is too old;
    [spared_relay_loses_its_own_mark] is a case where a relay that asked to
    drain is given new sessions.

    ** Conventions, bounds and fuel

    Unsigned integers are [Z] with their widths in hypotheses where they
    matter; wrap-around and saturation are written out.  A Rust panic is
    [None] of an [option] and the theorems prove it away; a panic under the
    driver is a mode that ends it.  Loops that are not
    structural take fuel: [validate_loop] and [stamp_loop] one more than the
    bytes left, [absorb_loop] and [collapse_loop] the size of the set they
    empty, [release_slot] one more than the turns held, [read_frames] one more
    than the bytes, [evaluate_ready] one more than the ordinals below the
    frontier, [drain_loop] two more than the turns held, [sweep_loop] one more
    than the pending steps, [trim_loop] the judged ones, [launch_missing] the
    relays missing; the theorems show that much is always enough.  Durations are
    nanoseconds.  Where the order of a hash map's iteration matters it is an
    argument.

    ** Not modelled

    The QUIC library, TLS and the asynchronous tasks around the state machines;
    the protobuf encoder (sizes and round trips are laws of a class); logging
    and metrics; HTTP and websocket handlers, tenants, stored sessions and the
    cloud and process substrates of the coordinator, its rate limits and
    presence store, the bodies and retries of webhooks and the evidence samples
    they report; the load generator and the deployment files.  The maker's
    silence watch and evidence collection are left out, and the wall-clock start
    time a peer announces. *)

From Stdlib Require Import ZArith Lia.
From stdpp Require Import gmap sorting list.

Open Scope Z_scope.

(** ** Machine integers

    Rust's fixed-width integers are [Z] with their range written out.  The
    64-bit target is assumed for [usize]. *)

Definition u8_max : Z := 2 ^ 8 - 1.
Definition u32_max : Z := 2 ^ 32 - 1.
Definition u64_max : Z := 2 ^ 64 - 1.
Definition usize_max : Z := u64_max.

Definition is_u8 (x : Z) : Prop := 0 <= x <= u8_max.
Definition is_u32 (x : Z) : Prop := 0 <= x <= u32_max.
Definition is_u64 (x : Z) : Prop := 0 <= x <= u64_max.

(** [checked_add] at a width given by its maximum. *)
Definition checked_add (max a b : Z) : option Z :=
  if a + b <=? max then Some (a + b) else None.

(** [checked_sub] on an unsigned type. *)
Definition checked_sub (a b : Z) : option Z :=
  if b <=? a then Some (a - b) else None.

Definition saturating_add (max a b : Z) : Z := Z.min max (a + b).
Definition saturating_sub (a b : Z) : Z := Z.max 0 (a - b).

(** [u8::try_from(x).ok()] for an unsigned [x]. *)
Definition u8_try_from (x : Z) : option Z :=
  if x <=? u8_max then Some x else None.

(** ** Fallible code: Rust's [Result] *)

Inductive result (A E : Type) : Type :=
| Ok (a : A)
| Err (e : E).
Arguments Ok {A E} a.
Arguments Err {A E} e.

Declare Scope rust_scope.
Delimit Scope rust_scope with rust.

(** The [?] operator, threading a [Result]. *)
Definition result_bind {A B E} (r : result A E) (k : A -> result B E) : result B E :=
  match r with Ok a => k a | Err e => Err e end.

Notation "'let?' x ':=' e 'in' k" := (result_bind e (fun x => k))
  (at level 10, x name, e at level 100, k at level 200) : rust_scope.

(** ** Automation *)

Create HintDb rust discriminated.
#[export] Hint Constants Opaque : rust.

(** Unfold the width constants and decide with [lia]. *)
Ltac unfold_widths :=
  unfold is_u8, is_u32, is_u64, usize_max, u8_max, u32_max, u64_max,
    checked_add, checked_sub, saturating_add, saturating_sub in *.
Ltac width_lia := unfold_widths; lia.

(** Case analysis on every boolean comparison of the goal (or a hypothesis),
    leaving the arithmetic fact in the context. *)
Ltac zcase :=
  match goal with
  | |- context [?a <=? ?b] => destruct (Z.leb_spec a b)
  | |- context [?a <? ?b] => destruct (Z.ltb_spec a b)
  | |- context [?a =? ?b] => destruct (Z.eqb_spec a b)
  | H : context [?a <=? ?b] |- _ => destruct (Z.leb_spec a b)
  | H : context [?a <? ?b] |- _ => destruct (Z.ltb_spec a b)
  | H : context [?a =? ?b] |- _ => destruct (Z.eqb_spec a b)
  end.

(** ** Lemmas the components share *)

Lemma checked_add_Some max a b c :
  checked_add max a b = Some c <-> c = a + b /\ a + b <= max.
Proof. unfold checked_add. zcase; (split; [intros [= <-]; lia || done|intros [-> ?]; done || lia]). Qed.

Lemma checked_sub_Some a b c :
  checked_sub a b = Some c <-> c = a - b /\ b <= a.
Proof. unfold checked_sub. zcase; (split; [intros [= <-]; lia || done|intros [-> ?]; done || lia]). Qed.

Lemma u8_try_from_Some x y :
  u8_try_from x = Some y <-> y = x /\ x <= u8_max.
Proof. unfold u8_try_from. zcase; (split; [intros [= <-]; lia || done|intros [-> ?]; done || lia]). Qed.

(** Sum of a list of sizes. *)
Fixpoint sumz {A} (f : A -> Z) (l : list A) : Z :=
  match l with
  | [] => 0
  | x :: l => f x + sumz f l
  end.

Lemma sumz_app {A} (f : A -> Z) l1 l2 : sumz f (l1 ++ l2) = sumz f l1 + sumz f l2.
Proof. induction l1 as [|x l1 IH]; cbn; lia. Qed.

Lemma sumz_nonneg {A} (f : A -> Z) l : (forall x, x ∈ l -> 0 <= f x) -> 0 <= sumz f l.
Proof.
  induction l as [|x l IH]; cbn; intros Hf; [lia|].
  assert (0 <= f x) by (apply Hf; left).
  assert (0 <= sumz f l) by (apply IH; intros; apply Hf; by right). lia.
Qed.

Lemma sumz_filter_le {A} (f : A -> Z) (P : A -> Prop) `{!forall x, Decision (P x)} l :
  (forall x, x ∈ l -> 0 <= f x) -> sumz f (filter P l) <= sumz f l.
Proof.
  induction l as [|x l IH]; intros Hf; [done|].
  assert (0 <= f x) by (apply Hf; left).
  assert (sumz f (filter P l) <= sumz f l) by (apply IH; intros; apply Hf; by right).
  rewrite filter_cons. case_decide; cbn; lia.
Qed.

Lemma sumz_elem_le {A} (f : A -> Z) x l :
  (forall y, y ∈ l -> 0 <= f y) -> x ∈ l -> f x <= sumz f l.
Proof.
  induction l as [|y l IH]; intros Hf Hx; [set_solver|]. cbn.
  assert (0 <= f y) by (apply Hf; left).
  assert (0 <= sumz f l) by (apply sumz_nonneg; intros; apply Hf; by right).
  apply elem_of_cons in Hx as [->|Hx]; [lia|].
  assert (f x <= sumz f l) by (apply IH; [intros; apply Hf; by right|done]). lia.
Qed.

Lemma sumz_map {A B} (f : B -> Z) (g : A -> B) l :
  sumz f (map g l) = sumz (fun x => f (g x)) l.
Proof. induction l; cbn; lia. Qed.

Lemma Forall_filter_sub {A} (Q P : A -> Prop) `{!forall x, Decision (P x)} l :
  Forall Q l -> Forall Q (filter P l).
Proof. rewrite !Forall_forall. intros HQ x [_ Hx]%list_elem_of_filter. auto. Qed.

Lemma StronglySorted_filter {A} (R : relation A) (P : A -> Prop)
  `{!forall x, Decision (P x)} l :
  StronglySorted R l -> StronglySorted R (filter P l).
Proof.
  induction l as [|x l IH]; [done|].
  intros [Hs Hall]%StronglySorted_inv. rewrite filter_cons.
  case_decide; [|auto]. constructor; [auto|]. by apply Forall_filter_sub.
Qed.

(** Two integers closer than [m] with the same residue are equal. *)
Lemma mod_window_inj m a b : a mod m = b mod m -> Z.abs (a - b) < m -> a = b.
Proof.
  intros Hmod Habs. assert (m <> 0) by lia.
  pose proof (Z.div_mod a m). pose proof (Z.div_mod b m).
  assert (a - b = m * (a / m - b / m)) by lia.
  assert (a / m - b / m = 0) by nia. lia.
Qed.

Lemma filter_ext_elem {A} (P Q : A -> Prop) `{!forall x, Decision (P x)}
  `{!forall x, Decision (Q x)} (l : list A) :
  (forall x, x ∈ l -> P x <-> Q x) -> filter P l = filter Q l.
Proof.
  induction l as [|x l IH]; intros HPQ; [done|].
  rewrite !filter_cons, IH by (intros; apply HPQ; by right).
  pose proof (HPQ x ltac:(left)). repeat case_decide; tauto.
Qed.

Lemma filter_all {A} (P : A -> Prop) `{!forall x, Decision (P x)} (l : list A) :
  (forall x, x ∈ l -> P x) -> filter P l = l.
Proof.
  induction l as [|x l IH]; intros HP; [done|]. rewrite filter_cons, decide_True by (apply HP; left).
  rewrite IH; [done|]. intros. apply HP. by right.
Qed.

(** ** Sums over a finite map *)

Definition msum {A} (f : A -> Z) (m : gmap Z A) : Z := map_fold (fun _ x t => f x + t) 0 m.

Lemma msum_empty {A} (f : A -> Z) : msum f ∅ = 0.
Proof. apply map_fold_empty. Qed.

Lemma msum_insert_new {A} (f : A -> Z) (m : gmap Z A) k x : m !! k = None -> msum f (<[k := x]> m) = f x + msum f m.
Proof. intros Hk. unfold msum. rewrite map_fold_insert_L; [done| |done]. intros. lia. Qed.

Lemma msum_delete {A} (f : A -> Z) (m : gmap Z A) k :
  msum f (delete k m) = msum f m - match m !! k with Some x => f x | None => 0 end.
Proof.
  destruct (m !! k) as [x|] eqn:Hk.
  - rewrite <-(insert_delete_id m k x Hk) at 2. rewrite msum_insert_new; [lia|]. apply lookup_delete_eq.
  - rewrite delete_id by done. lia.
Qed.

Lemma msum_insert {A} (f : A -> Z) (m : gmap Z A) k x :
  msum f (<[k := x]> m) = msum f m - match m !! k with Some y => f y | None => 0 end + f x.
Proof.
  rewrite <-insert_delete_eq, msum_insert_new, msum_delete; [lia|]. apply lookup_delete_eq.
Qed.

Lemma msum_nonneg {A} (f : A -> Z) (m : gmap Z A) : (forall x, 0 <= f x) -> 0 <= msum f m.
Proof.
  intros Hf. induction m as [|k x m Hk IH] using map_ind; [by rewrite msum_empty|].
  rewrite msum_insert_new by done. specialize (Hf x). lia.
Qed.

(** ** Single bits *)

Lemma land_bit_zero b n : 0 <= n -> (Z.land b (Z.shiftl 1 n) =? 0) = negb (Z.testbit b n).
Proof.
  intros Hn. rewrite Z.shiftl_1_l. destruct (Z.testbit b n) eqn:Hb; cbn.
  - apply Z.eqb_neq. intros Hz. assert (Z.testbit (Z.land b (2 ^ n)) n = true) as Ht.
    { rewrite Z.land_spec, Hb, Z.pow2_bits_true by lia. done. }
    by rewrite Hz, Z.bits_0 in Ht.
  - apply Z.eqb_eq. apply Z.bits_inj'. intros k Hk.
    rewrite Z.land_spec, Z.bits_0, Z.pow2_bits_eqb by lia.
    destruct (Z.eqb_spec n k) as [<-|]; [by rewrite Hb|by rewrite andb_false_r].
Qed.

(** ** Counting over an integer interval *)

(** The number of [x] with [a <= x < b] satisfying [P]. *)
Definition count_in (P : Z -> bool) (a b : Z) : Z :=
  Z.of_nat (length (filter (fun x => P x = true) (seqZ a (b - a)))).

Lemma count_in_empty P a b : b <= a -> count_in P a b = 0.
Proof. intros. unfold count_in. by rewrite seqZ_nil by lia. Qed.

Lemma count_in_split P a b c : a <= b <= c ->
  count_in P a c = count_in P a b + count_in P b c.
Proof.
  intros. unfold count_in. replace (c - a) with ((b - a) + (c - b)) by lia.
  rewrite seqZ_app by lia. rewrite filter_app, length_app.
  replace (a + (b - a)) with b by lia. lia.
Qed.

Lemma count_in_succ P a b : a <= b ->
  count_in P a (b + 1) = count_in P a b + if P b then 1 else 0.
Proof.
  intros. rewrite (count_in_split P a b) by lia. f_equal. unfold count_in.
  replace (b + 1 - b) with 1 by lia. rewrite seqZ_cons by lia.
  rewrite seqZ_nil by lia. rewrite filter_cons, filter_nil.
  destruct (P b); case_decide; done.
Qed.

Lemma count_in_ext P Q a b : (forall x, a <= x < b -> P x = Q x) ->
  count_in P a b = count_in Q a b.
Proof.
  intros HPQ. unfold count_in. do 2 f_equal. apply filter_ext_elem.
  intros x Hx%elem_of_seqZ. rewrite HPQ by lia. done.
Qed.

Lemma count_in_all P a b : a <= b -> (forall x, a <= x < b -> P x = true) ->
  count_in P a b = b - a.
Proof.
  intros Hle HP. rewrite (count_in_ext P (fun _ => true)) by done. unfold count_in.
  rewrite filter_all by done. rewrite length_seqZ. lia.
Qed.

Lemma count_in_bound P a b : a <= b -> 0 <= count_in P a b <= b - a.
Proof.
  intros. unfold count_in.
  pose proof (length_filter (fun x => P x = true) (seqZ a (b - a))).
  rewrite length_seqZ in *. lia.
Qed.

Lemma filter_length_mono {A} (P Q : A -> Prop) `{!forall x, Decision (P x)}
  `{!forall x, Decision (Q x)} (l : list A) :
  (forall x, x ∈ l -> Q x -> P x) -> (length (filter Q l) <= length (filter P l))%nat.
Proof.
  induction l as [|x l IH]; intros HQP; [done|].
  pose proof (HQP x ltac:(left)). specialize (IH ltac:(intros; apply HQP; [by right|done])).
  rewrite !filter_cons. repeat case_decide; cbn; tauto || lia.
Qed.

Lemma filter_length_strict {A} (P Q : A -> Prop) `{!forall x, Decision (P x)}
  `{!forall x, Decision (Q x)} (l : list A) x :
  (forall x, x ∈ l -> Q x -> P x) -> x ∈ l -> P x -> ~ Q x ->
  (length (filter Q l) < length (filter P l))%nat.
Proof.
  intros HQP Hx HP HQ. apply list_elem_of_split in Hx as (l1 & l2 & ->).
  rewrite !filter_app, !filter_cons, decide_False, decide_True by done.
  rewrite !length_app. cbn.
  pose proof (filter_length_mono P Q l1). pose proof (filter_length_mono P Q l2).
  assert (forall x, x ∈ l1 -> Q x -> P x) by (intros; apply HQP; set_solver).
  assert (forall x, x ∈ l2 -> Q x -> P x) by (intros; apply HQP; set_solver). intuition lia.
Qed.

Lemma filter_none {A} (P : A -> Prop) `{!forall x, Decision (P x)} (l : list A) :
  (forall x, x ∈ l -> ~ P x) -> filter P l = [].
Proof.
  induction l as [|x l IH]; intros HP; [done|].
  rewrite filter_cons, decide_False by (apply HP; left). apply IH. intros. apply HP. by right.
Qed.
