(* ===== verification/BTree.v ===== *)
(** * The ordered collections of the Rust standard library

    [BTreeMap] and [BTreeSet] as strictly sorted lists, so that iteration
    order (ascending by key) is the list's order.  [BTreeMap] is generic in a
    key order given by the class [Ord]; the program keys its maps by
    [(SlotId, u64)] and by [u64].  Only the operations the program calls are
    here, each with the lemmas its callers use. *)

From Stdlib Require Import ZArith Lia.
From stdpp Require Import gmap sorting list.
From S2P Require Import Prelude.

Open Scope Z_scope.

(** ** Key orders *)

Class Ord (K : Type) : Type := klt : K -> K -> Prop.
#[global] Typeclasses Opaque klt.
Class OrdLaws (K : Type) `{!Ord K} : Prop := {
  klt_irrefl : forall k, ~ klt k k;
  klt_trans : forall a b c, klt a b -> klt b c -> klt a c;
  klt_total : forall a b, klt a b \/ a = b \/ klt b a;
}.

#[export] Instance Z_ord : Ord Z := Z.lt.
#[export] Instance Z_ord_laws : OrdLaws Z.
Proof. split; unfold klt, Z_ord; lia. Qed.

(** Lexicographic order of pairs, as [derive(Ord)] on a Rust tuple. *)
#[export] Instance pair_ord {A B} `{!Ord A, !Ord B} : Ord (A * B) :=
  fun p q => klt p.1 q.1 \/ (p.1 = q.1 /\ klt p.2 q.2).

#[export] Instance pair_ord_laws {A B} `{!Ord A, !Ord B, !OrdLaws A, !OrdLaws B} :
  OrdLaws (A * B).
Proof.
  split; unfold klt, pair_ord.
  - intros k [H|[_ H]]; by apply klt_irrefl in H.
  - intros a b c [H1|[E1 H1]] [H2|[E2 H2]].
    + left. by eapply klt_trans.
    + left. by rewrite <- E2.
    + left. by rewrite E1.
    + right. split; [congruence|by eapply klt_trans].
  - intros [a1 a2] [b1 b2]; cbn.
    destruct (klt_total a1 b1) as [?|[->|?]]; [tauto| |tauto].
    destruct (klt_total a2 b2) as [?|[->|?]]; tauto.
Qed.

#[export] Instance Z_klt_dec : forall a b : Z, Decision (klt a b) := Z_lt_dec.
#[export] Instance pair_klt_dec {A B} `{!Ord A, !Ord B, !EqDecision A}
  `{Ha : !forall x y : A, Decision (klt x y)} `{Hb : !forall x y : B, Decision (klt x y)} :
  forall p q : A * B, Decision (klt p q).
Proof. intros p q. unfold klt, pair_ord. apply _. Defined.

(** ** [BTreeMap] *)

Module BTreeMap.
Section btree_map.
Context {K V : Type} `{!Ord K, !OrdLaws K, !EqDecision K}.
Context {Hdec : forall a b : K, Decision (klt a b)}.

Definition t : Type := list (K * V).
Definition empty : list (K * V) := [].

(** The representation invariant: keys strictly ascending. *)
Definition wf (m : list (K * V)) : Prop := StronglySorted (fun p q => klt p.1 q.1) m.

Fixpoint get (m : list (K * V)) (k : K) : option V :=
  match m with
  | [] => None
  | (k', v) :: m => if decide (k = k') then Some v else get m k
  end.

Fixpoint insert (k : K) (v : V) (m : list (K * V)) : list (K * V) :=
  match m with
  | [] => [(k, v)]
  | (k', v') :: m' =>
      if decide (k = k') then (k, v) :: m'
      else if decide (klt k k') then (k, v) :: m
      else (k', v') :: insert k v m'
  end.

(** [retain], which also gives [range] (a filtered view) and [remove]. *)
Definition retain (P : K -> Prop) `{!forall k, Decision (P k)} (m : list (K * V)) :
  list (K * V) := filter (fun p => P p.1) m.
Definition remove (k : K) (m : list (K * V)) : list (K * V) :=
  retain (fun k' => k' <> k) m.
Definition values (m : list (K * V)) : list V := map snd m.
Definition keys (m : list (K * V)) : list K := map fst m.

(** [for v in m.values_mut() { *v = f(v) }]. *)
Definition map_values (f : V -> V) (m : list (K * V)) : list (K * V) :=
  map (fun p => (p.1, f p.2)) m.

(** [if let Some(v) = m.get_mut(&k) { *v = f(v) }]. *)
Definition update (k : K) (f : V -> V) (m : list (K * V)) : list (K * V) :=
  map (fun p => if decide (p.1 = k) then (p.1, f p.2) else p) m.

(** *** Lookup *)

Lemma get_insert_eq k v m : get (insert k v m) k = Some v.
Proof.
  induction m as [|[k' v'] m IH]; cbn; [by rewrite decide_True|].
  case_decide; [subst; cbn; by rewrite decide_True|].
  case_decide; cbn; [by rewrite decide_True|by rewrite decide_False].
Qed.

Lemma get_insert_ne k k' v m : k <> k' -> get (insert k v m) k' = get m k'.
Proof.
  intros Hne. induction m as [|[k1 v1] m IH]; cbn; [by rewrite decide_False|].
  case_decide as Hk; [subst; cbn; by rewrite !decide_False by done|].
  case_decide; cbn; [by rewrite decide_False by done|by rewrite IH].
Qed.

Lemma get_insert k k' v m :
  get (insert k v m) k' = if decide (k = k') then Some v else get m k'.
Proof. case_decide; subst; auto using get_insert_eq, get_insert_ne. Qed.

Lemma get_retain P `{!forall k, Decision (P k)} m k :
  get (retain P m) k = if decide (P k) then get m k else None.
Proof.
  unfold retain. induction m as [|[k' v'] m IH]; [by case_decide|].
  rewrite filter_cons. cbn [fst]. destruct (decide (P k')); cbn [get];
    repeat case_decide; subst; done.
Qed.

Lemma get_remove k k' m :
  get (remove k m) k' = if decide (k' = k) then None else get m k'.
Proof. unfold remove. rewrite get_retain. repeat case_decide; done. Qed.

Lemma get_map_values f m k : get (map_values f m) k = f <$> get m k.
Proof.
  unfold map_values. induction m as [|[k' v'] m IH]; cbn; [done|]. by case_decide.
Qed.

Lemma get_update k f m k' :
  get (update k f m) k' = if decide (k' = k) then f <$> get m k' else get m k'.
Proof.
  unfold update. induction m as [|[k1 v1] m IH]; cbn; [by case_decide|].
  destruct (decide (k1 = k)) as [->|]; cbn; repeat case_decide; subst; cbn; congruence.
Qed.

Lemma elem_of_get m k v : get m k = Some v -> (k, v) ∈ m.
Proof.
  induction m as [|[k' v'] m IH]; cbn; [done|].
  case_decide; intros; simplify_eq; [left|right; auto].
Qed.

Lemma get_elem_of m k v : wf m -> (k, v) ∈ m -> get m k = Some v.
Proof.
  induction m as [|[k' v'] m IH]; [set_solver|]. cbn.
  intros [Hs Hall]%StronglySorted_inv [Heq|Hin]%elem_of_cons; simplify_eq/=.
  { by rewrite decide_True. }
  rewrite Forall_forall in Hall. specialize (Hall _ Hin). cbn in Hall.
  rewrite decide_False; [by apply IH|]. intros ->. by apply klt_irrefl in Hall.
Qed.

Lemma elem_of_values m v : v ∈ values m <-> exists k, (k, v) ∈ m.
Proof.
  unfold values. rewrite list_elem_of_fmap. split.
  - intros ([k v'] & -> & ?). eauto.
  - intros [k ?]. by exists (k, v).
Qed.

(** *** The invariant *)

Lemma insert_forall (P : K * V -> Prop) k v m :
  P (k, v) -> Forall P m -> Forall P (insert k v m).
Proof.
  intros Hp. induction 1 as [|[k' v'] m ? ? IH]; cbn; [by constructor|].
  repeat case_decide; constructor; auto.
Qed.

Lemma wf_empty : wf empty.
Proof. constructor. Qed.

Lemma wf_insert k v m : wf m -> wf (insert k v m).
Proof.
  unfold wf. induction m as [|[k' v'] m IH]; cbn; [repeat constructor|].
  intros [Hs Hall]%StronglySorted_inv. cbn in *.
  case_decide; subst; [by constructor|]. case_decide as Hlt.
  - constructor; [by constructor|]. constructor; [done|].
    eapply Forall_impl; [exact Hall|]. cbn. intros. by eapply klt_trans.
  - constructor; [by auto|]. apply insert_forall; [cbn|done].
    destruct (klt_total k k') as [?|[?|?]]; done.
Qed.

Lemma wf_retain P `{!forall k, Decision (P k)} m : wf m -> wf (retain P m).
Proof. apply StronglySorted_filter. Qed.

Lemma wf_remove k m : wf m -> wf (remove k m).
Proof. apply wf_retain. Qed.

Lemma wf_same_keys (g : K * V -> K * V) m :
  (forall p, (g p).1 = p.1) -> wf m -> wf (map g m).
Proof.
  intros Hg. unfold wf. induction m as [|p m IH]; cbn; [done|].
  intros [Hs Hall]%StronglySorted_inv. constructor; [auto|].
  apply Forall_fmap. eapply Forall_impl; [exact Hall|]. cbn. intros. by rewrite !Hg.
Qed.

Lemma wf_map_values f m : wf m -> wf (map_values f m).
Proof. by apply wf_same_keys. Qed.

Lemma wf_update k f m : wf m -> wf (update k f m).
Proof. apply wf_same_keys. intros p. by case_decide. Qed.

Lemma wf_NoDup m : wf m -> NoDup (keys m).
Proof.
  unfold wf, keys. induction m as [|p m IH]; cbn; [constructor|].
  intros [Hs Hall]%StronglySorted_inv. constructor; [|auto].
  rewrite list_elem_of_fmap. intros (q & Hq & Hin).
  rewrite Forall_forall in Hall. specialize (Hall _ Hin). rewrite Hq in Hall.
  by apply klt_irrefl in Hall.
Qed.

(** *** Sums over the values (the aggregate sizes the program caches) *)

Lemma sumz_values_cons (f : V -> Z) k v m :
  sumz f (values ((k, v) :: m)) = f v + sumz f (values m).
Proof. done. Qed.

Lemma sumz_insert (f : V -> Z) k v m :
  wf m ->
  sumz f (values (insert k v m)) =
    sumz f (values m) + f v - match get m k with Some v' => f v' | None => 0 end.
Proof.
  induction m as [|[k' v'] m IH]; [cbn; lia|].
  intros [Hs Hall]%StronglySorted_inv. cbn [insert get].
  case_decide; [rewrite !sumz_values_cons; lia|].
  case_decide as Hlt; rewrite !sumz_values_cons; [|rewrite IH by done; lia].
  destruct (get m k) as [v1|] eqn:Hg; [|lia]. exfalso.
  apply elem_of_get in Hg. rewrite Forall_forall in Hall. apply Hall in Hg. cbn in Hg.
  eapply klt_irrefl. by eapply klt_trans.
Qed.

Lemma sumz_remove (f : V -> Z) k m :
  wf m ->
  sumz f (values (remove k m)) =
    sumz f (values m) - match get m k with Some v' => f v' | None => 0 end.
Proof.
  unfold remove, retain. induction m as [|[k' v'] m IH]; [done|].
  intros [Hs Hall]%StronglySorted_inv. rewrite filter_cons. cbn [fst]. simpl get.
  destruct (decide (k = k')) as [->|Hne].
  - rewrite decide_False by tauto. rewrite IH by done. rewrite sumz_values_cons.
    destruct (get m k') as [v1|] eqn:Hg; [|lia]. exfalso.
    apply elem_of_get in Hg. rewrite Forall_forall in Hall. apply Hall in Hg. cbn in Hg.
    by eapply klt_irrefl.
  - rewrite decide_True by congruence.
    rewrite !sumz_values_cons, IH by done. lia.
Qed.

Lemma length_insert_le k v m : (length (insert k v m) <= S (length m))%nat.
Proof.
  induction m as [|[k' v'] m IH]; cbn [insert length]; [done|].
  repeat case_decide; cbn [length]; lia.
Qed.

Lemma length_insert_new k v m : get m k = None -> length (insert k v m) = S (length m).
Proof.
  induction m as [|[k' v'] m IH]; cbn [get insert length]; [done|].
  repeat case_decide; cbn [length]; intros; [done..|]. by rewrite IH.
Qed.

Lemma elem_of_map_insert k v p m : p ∈ insert k v m -> p = (k, v) \/ p ∈ m.
Proof.
  induction m as [|[k' v'] m IH]; cbn [insert]; [set_solver|].
  repeat case_decide; set_solver.
Qed.

End btree_map.
End BTreeMap.

Arguments BTreeMap.get : simpl never.
Arguments BTreeMap.insert : simpl never.

Create HintDb btree discriminated.
#[export] Hint Resolve BTreeMap.wf_empty BTreeMap.wf_insert BTreeMap.wf_remove
  BTreeMap.wf_retain BTreeMap.wf_map_values BTreeMap.wf_update : btree.

(** ** [BTreeSet<u64>] *)

Module BTreeSet.

Definition wf (s : list Z) : Prop := StronglySorted Z.lt s.

Fixpoint insert (x : Z) (s : list Z) : list Z :=
  match s with
  | [] => [x]
  | y :: s' => if x =? y then s else if x <? y then x :: s else y :: insert x s'
  end.

Definition contains (x : Z) (s : list Z) : bool := bool_decide (x ∈ s).
Definition remove (x : Z) (s : list Z) : list Z := filter (fun y => y <> x) s.
(** [self.split_off(&k)] keeps the returned upper part, [>= k]. *)
Definition split_off (k : Z) (s : list Z) : list Z := filter (fun y => k <= y) s.

Lemma elem_of_insert x y s : y ∈ insert x s <-> y = x \/ y ∈ s.
Proof.
  induction s as [|z s IH]; cbn; [set_solver|].
  repeat zcase; subst; rewrite ?elem_of_cons in *; try rewrite IH; naive_solver.
Qed.

Lemma elem_of_remove x y s : y ∈ remove x s <-> y <> x /\ y ∈ s.
Proof. unfold remove. by rewrite list_elem_of_filter. Qed.

Lemma elem_of_split_off k y s : y ∈ split_off k s <-> k <= y /\ y ∈ s.
Proof. unfold split_off. by rewrite list_elem_of_filter. Qed.

Lemma wf_filter (P : Z -> Prop) `{!forall x, Decision (P x)} s : wf s -> wf (filter P s).
Proof. apply StronglySorted_filter. Qed.

Lemma wf_set_insert x s : wf s -> wf (insert x s).
Proof.
  unfold wf. induction s as [|y s IH]; cbn; [repeat constructor|].
  intros Hsy. assert (Hsy' := Hsy). apply StronglySorted_inv in Hsy' as [Hs Hall].
  destruct (Z.eqb_spec x y); [done|]. destruct (Z.ltb_spec x y).
  - constructor; [done|]. constructor; [done|].
    eapply Forall_impl; [exact Hall|]. intros; lia.
  - constructor; [auto|]. rewrite Forall_forall in *. intros z.
    rewrite elem_of_insert. intros [->|Hz]; [lia|auto].
Qed.

Lemma wf_set_remove x s : wf s -> wf (remove x s).
Proof. apply wf_filter. Qed.

Lemma wf_tail x s : wf (x :: s) -> wf s.
Proof. by intros [? _]%StronglySorted_inv. Qed.

Lemma wf_head x s y : wf (x :: s) -> y ∈ s -> x < y.
Proof. intros [_ Hall]%StronglySorted_inv. rewrite Forall_forall in Hall. auto. Qed.

Lemma length_insert x s : x ∉ s -> length (insert x s) = S (length s).
Proof.
  induction s as [|y s IH]; cbn; [done|]. intros Hx.
  destruct (Z.eqb_spec x y); [set_solver|]. destruct (Z.ltb_spec x y); cbn; [done|].
  rewrite IH; [done|set_solver].
Qed.

Lemma length_filter_le (P : Z -> Prop) `{!forall x, Decision (P x)} s :
  (length (filter P s) <= length s)%nat.
Proof. apply length_filter. Qed.

(** A well-formed set of integers within an interval is no larger than it. *)
Lemma length_bound s lo hi :
  wf s -> (forall x, x ∈ s -> lo <= x < hi) -> lo <= hi ->
  Z.of_nat (length s) <= hi - lo.
Proof.
  revert lo. induction s as [|x s IH]; cbn; intros lo Hwf Hin Hle; [lia|].
  assert (Hx : lo <= x < hi) by (apply Hin; left).
  assert (Z.of_nat (length s) <= hi - (x + 1)); [|lia].
  apply IH; [by eapply wf_tail| |lia]. intros y Hy.
  pose proof (wf_head _ _ _ Hwf Hy). assert (lo <= y < hi) by (apply Hin; by right). lia.
Qed.

End BTreeSet.

#[export] Hint Resolve BTreeSet.wf_set_insert BTreeSet.wf_set_remove BTreeSet.wf_filter : btree.
