(* ===== verification/SequenceBuffer.v ===== *)
(** * The packet ring ([transport/src/sequence_buffer.rs])

    A ring of [len] cells indexed by [sequence % len].  A cell holds an entry
    and the sequence number it was stored under, or [-1] when empty.  Every
    public operation asserts that its sequence number leaves the sign bit
    clear; a failed assertion, an out-of-range index and a division by zero
    are panics, modelled as [None].

    The second half gives the ring's contract as a finite map with a cursor
    and proves that the ring refines it on every sequence of operations. *)

From Stdlib Require Import ZArith Lia.
From stdpp Require Import gmap sorting list.
From S2P Require Import Prelude.

Open Scope Z_scope.

(** Rust's [Default]. *)
Class Default (T : Type) : Type := dflt : T.

Definition SIGN_BIT : Z := 0x8000000000000000.

(** [x as i64] for a [u64] value. *)
Definition as_i64 (x : Z) : Z := if x <? SIGN_BIT then x else x - 2 ^ 64.

(** [assert!]: [None] is the panic. *)
Definition assert (b : bool) : option unit := if b then Some () else None.

Record SequenceBuffer (T : Type) : Type := mkSequenceBuffer {
  entries : list T;
  entry_sequences : list Z;
  sequence : Z;
}.
Arguments mkSequenceBuffer {T} _ _ _.
Arguments entries {T} _.
Arguments entry_sequences {T} _.
Arguments sequence {T} _.

Section sequence_buffer.
Context {T : Type} `{!Default T}.
Implicit Types (b : SequenceBuffer T) (s : Z).

Definition with_capacity (size : nat) : SequenceBuffer T :=
  mkSequenceBuffer (replicate size dflt) (replicate size (-1)) 0.

(** Index of a sequence number; panics on a set sign bit and on an empty ring. *)
Definition index b s : option nat :=
  _ ← assert (Z.land s SIGN_BIT =? 0);
  _ ← assert (negb (Nat.eqb (length b.(entries)) 0));
  mret (Z.to_nat (s mod Z.of_nat (length b.(entries)))).

Definition exists_seq b s : option bool :=
  i ← index b s;
  e ← b.(entry_sequences) !! i;
  mret (e =? as_i64 s).

Definition get b s : option (option T) :=
  i ← index b s;
  e ← b.(entry_sequences) !! i;
  if e =? as_i64 s
  then v ← b.(entries) !! i; mret (Some v)
  else mret None.

(** [get_mut], with the caller's mutation of the borrowed entry as [f]. *)
Definition get_mut b s (f : T -> T) : option (bool * SequenceBuffer T) :=
  i ← index b s;
  e ← b.(entry_sequences) !! i;
  if e =? as_i64 s
  then v ← b.(entries) !! i;
       mret (true, mkSequenceBuffer (<[i := f v]> b.(entries)) b.(entry_sequences) b.(sequence))
  else mret (false, b).

(** Writing one cell: both slices are indexed, so both must be in range. *)
Definition set_cell b (i : nat) (q : Z) (v : T) : option (SequenceBuffer T) :=
  _ ← b.(entry_sequences) !! i;
  _ ← b.(entries) !! i;
  mret (mkSequenceBuffer (<[i := v]> b.(entries)) (<[i := q]> b.(entry_sequences)) b.(sequence)).

Definition remove b s : option (option T * SequenceBuffer T) :=
  _ ← assert (Z.land s SIGN_BIT =? 0);
  i ← index b s;
  e ← b.(entry_sequences) !! i;
  if e =? as_i64 s
  then v ← b.(entries) !! i;
       b' ← set_cell b i (-1) dflt;
       mret (Some v, b')
  else mret (None, b).

(** [for sequence in first..=last { self.remove(sequence); }], [n] rounds left. *)
Fixpoint remove_run b (first : Z) (n : nat) : option (SequenceBuffer T) :=
  match n with
  | O => mret b
  | S n => r ← remove b first; remove_run r.2 (first + 1) n
  end.

(** [for index in 0..self.entry_sequences.len() { clear the cell }]. *)
Fixpoint clear_run b (from : nat) (n : nat) : option (SequenceBuffer T) :=
  match n with
  | O => mret b
  | S n => b' ← set_cell b from (-1) dflt; clear_run b' (S from) n
  end.

Definition remove_entries_inclusive b (first_sequence last_sequence : Z) :
  option (SequenceBuffer T) :=
  _ ← assert (Z.land first_sequence SIGN_BIT =? 0);
  _ ← assert (Z.land last_sequence SIGN_BIT =? 0);
  if last_sequence <? first_sequence then mret b
  else if Z.of_nat (length b.(entries)) <=? last_sequence - first_sequence
  then clear_run b 0 (length b.(entry_sequences))
  else remove_run b first_sequence (Z.to_nat (last_sequence - first_sequence + 1)).

Definition advance_to b s : option (SequenceBuffer T) :=
  _ ← assert (Z.land (s + 1) SIGN_BIT =? 0);
  if b.(sequence) <? s + 1
  then b' ← remove_entries_inclusive b b.(sequence) s;
       mret (mkSequenceBuffer b'.(entries) b'.(entry_sequences) (s + 1))
  else mret b.

(** [true] when the entry was stored ([Some(&mut _)] in the source). *)
Definition insert b s (entry : T) : option (bool * SequenceBuffer T) :=
  _ ← assert (Z.land s SIGN_BIT =? 0);
  if (s <? b.(sequence)) && (Z.of_nat (length b.(entry_sequences)) <=? b.(sequence) - s)
  then mret (false, b)
  else
    b1 ← advance_to b s;
    i ← index b1 s;
    b2 ← set_cell b1 i (as_i64 s) entry;
    mret (true, b2).

(** ** The invariant *)

Definition is_seq (s : Z) : Prop := 0 <= s < SIGN_BIT.

Record wf (cap : nat) b : Prop := {
  wf_cap : (0 < cap)%nat;
  wf_entries : length b.(entries) = cap;
  wf_seqs : length b.(entry_sequences) = cap;
  wf_sequence : is_seq b.(sequence);
  wf_cells : forall i e, b.(entry_sequences) !! i = Some e ->
    e = -1 \/ (0 <= e < b.(sequence) /\ Z.to_nat (e mod Z.of_nat cap) = i);
}.

Lemma land_sign_bit s : is_seq s -> (Z.land s SIGN_BIT =? 0) = true.
Proof.
  intros Hs. apply Z.eqb_eq. unfold is_seq in Hs. change SIGN_BIT with (2 ^ 63) in *.
  apply Z.bits_inj'. intros n Hn. rewrite Z.land_spec, Z.bits_0, Z.pow2_bits_eqb by lia.
  destruct (Z.eqb_spec 63 n) as [<-|]; [|by rewrite andb_false_r].
  rewrite andb_true_r. apply Z.bounded_iff_bits_nonneg with (k := 63); lia.
Qed.

Lemma as_i64_id s : is_seq s -> as_i64 s = s.
Proof. unfold is_seq, as_i64. intros. zcase; lia. Qed.

(** The cell a sequence number lives in. *)
Definition cell (cap : nat) (s : Z) : nat := Z.to_nat (s mod Z.of_nat cap).

Lemma cell_lt cap s : (0 < cap)%nat -> (cell cap s < cap)%nat.
Proof. intros. unfold cell. pose proof (Z.mod_pos_bound s (Z.of_nat cap)). lia. Qed.

Lemma cell_eq cap s1 s2 : (0 < cap)%nat ->
  cell cap s1 = cell cap s2 <-> s1 mod Z.of_nat cap = s2 mod Z.of_nat cap.
Proof.
  intros. unfold cell. pose proof (Z.mod_pos_bound s1 (Z.of_nat cap)).
  pose proof (Z.mod_pos_bound s2 (Z.of_nat cap)). split; [lia|intros ->; done].
Qed.

Lemma index_wf cap b s : wf cap b -> is_seq s -> index b s = Some (cell cap s).
Proof.
  intros Hwf Hs. pose proof (wf_cap _ _ Hwf). unfold index.
  rewrite (land_sign_bit s Hs), (wf_entries _ _ Hwf).
  destruct (Nat.eqb_spec cap 0); [lia|]. done.
Qed.

Lemma cells_wf cap b s : wf cap b ->
  exists e v, b.(entry_sequences) !! cell cap s = Some e /\ b.(entries) !! cell cap s = Some v.
Proof.
  intros Hwf. pose proof (cell_lt cap s (wf_cap _ _ Hwf)).
  destruct (lookup_lt_is_Some_2 b.(entry_sequences) (cell cap s)) as [e He];
    [by rewrite (wf_seqs _ _ Hwf)|].
  destruct (lookup_lt_is_Some_2 b.(entries) (cell cap s)) as [v Hv];
    [by rewrite (wf_entries _ _ Hwf)|]. eauto.
Qed.

(** What the ring holds, as a partial map. *)
Definition view (cap : nat) b (s : Z) : option T :=
  e ← b.(entry_sequences) !! cell cap s;
  if e =? s then b.(entries) !! cell cap s else None.

Lemma get_wf cap b s : wf cap b -> is_seq s -> get b s = Some (view cap b s).
Proof.
  intros Hwf Hs. destruct (cells_wf cap b s Hwf) as (e & v & He & Hv).
  unfold get, view. rewrite (index_wf cap) by done. cbn. rewrite He. cbn.
  rewrite as_i64_id by done. destruct (e =? s); [|done]. by rewrite Hv.
Qed.

Lemma exists_wf cap b s : wf cap b -> is_seq s ->
  exists_seq b s = Some (bool_decide (is_Some (view cap b s))).
Proof.
  intros Hwf Hs. destruct (cells_wf cap b s Hwf) as (e & v & He & Hv).
  unfold exists_seq, view. rewrite (index_wf cap) by done. cbn. rewrite He. cbn.
  rewrite as_i64_id by done. f_equal. symmetry. destruct (e =? s); [|done].
  apply bool_decide_eq_true_2. by rewrite Hv.
Qed.

Lemma set_cell_wf cap b s q v : wf cap b ->
  set_cell b (cell cap s) q v =
    Some (mkSequenceBuffer (<[cell cap s := v]> b.(entries))
            (<[cell cap s := q]> b.(entry_sequences)) b.(sequence)).
Proof.
  intros Hwf. destruct (cells_wf cap b s Hwf) as (e & v' & He & Hv).
  unfold set_cell. by rewrite He, Hv.
Qed.

(** Overwriting a cell with a valid number keeps the invariant. *)
Lemma wf_set cap b s q v : wf cap b ->
  q = -1 \/ (0 <= q < b.(sequence) /\ cell cap q = cell cap s) ->
  wf cap (mkSequenceBuffer (<[cell cap s := v]> b.(entries))
            (<[cell cap s := q]> b.(entry_sequences)) b.(sequence)).
Proof.
  intros Hwf Hq. destruct Hwf as [Hc He Hs Hn Hcells]. split; cbn; rewrite ?length_insert; try done.
  intros i e. rewrite list_lookup_insert. case_decide as Hi; [|by apply Hcells].
  destruct Hi as [<- _]. intros [= <-]. done.
Qed.

Lemma view_set cap b s q v s' : wf cap b -> is_seq s' ->
  view cap (mkSequenceBuffer (<[cell cap s := v]> b.(entries))
            (<[cell cap s := q]> b.(entry_sequences)) b.(sequence)) s' =
  if decide (cell cap s' = cell cap s) then if q =? s' then Some v else None
  else view cap b s'.
Proof.
  intros Hwf Hs'. unfold view. cbn. pose proof (cell_lt cap s (wf_cap _ _ Hwf)).
  case_decide as Hcell.
  - rewrite Hcell, !list_lookup_insert_eq
      by (rewrite ?(wf_entries _ _ Hwf), ?(wf_seqs _ _ Hwf); done). done.
  - by rewrite !list_lookup_insert_ne.
Qed.

Lemma view_lt cap b s v : wf cap b -> view cap b s = Some v -> is_seq s -> s < b.(sequence).
Proof.
  intros Hwf Hv Hs. unfold view in Hv.
  destruct (b.(entry_sequences) !! cell cap s) as [e|] eqn:He; [|done]. cbn in Hv.
  destruct (Z.eqb_spec e s); [subst|done].
  destruct (wf_cells _ _ Hwf _ _ He); unfold is_seq in *; lia.
Qed.

(** ** Every operation on a well-formed ring *)

Lemma remove_wf cap b s : wf cap b -> is_seq s ->
  exists b', remove b s = Some (view cap b s, b') /\ wf cap b' /\
    b'.(sequence) = b.(sequence) /\
    forall s', is_seq s' -> view cap b' s' = if decide (s' = s) then None else view cap b s'.
Proof.
  intros Hwf Hs. destruct (cells_wf cap b s Hwf) as (e & v & He & Hv).
  unfold remove. rewrite (land_sign_bit s Hs), (index_wf cap) by done. cbn.
  rewrite He. cbn. rewrite as_i64_id by done. unfold view at 1. rewrite He. cbn.
  destruct (Z.eqb_spec e s) as [->|Hne].
  - rewrite Hv, set_cell_wf by done. cbn. eexists; split_and!; [done|by apply wf_set; auto|done|].
    intros s' Hs'. rewrite view_set by done. case_decide as Hcell.
    + destruct (Z.eqb_spec (-1) s'); [unfold is_seq in *; lia|].
      case_decide; [done|]. unfold view. rewrite Hcell, He. cbn.
      by destruct (Z.eqb_spec s s').
    + case_decide; [by subst|done].
  - exists b; split_and!; try done. intros s' Hs'. case_decide; [subst s'|done].
    unfold view. rewrite He. cbn. by destruct (Z.eqb_spec e s).
Qed.

(** Numbers at or past the cursor are never stored, so the clearing loop of
    [advance_to] finds nothing to remove. *)
Lemma remove_run_noop cap b first n : wf cap b ->
  b.(sequence) <= first -> first + Z.of_nat n <= SIGN_BIT -> remove_run b first n = Some b.
Proof.
  intros Hwf. revert first. induction n as [|n IH]; intros first Hle Hlt; [done|].
  assert (Hf : is_seq first) by (pose proof (wf_sequence _ _ Hwf); unfold is_seq in *; lia).
  cbn. destruct (cells_wf cap b first Hwf) as (e & v & He & Hv).
  unfold remove. rewrite (land_sign_bit first Hf), (index_wf cap) by done. cbn.
  rewrite He. cbn. rewrite as_i64_id by done. destruct (Z.eqb_spec e first) as [->|].
  - destruct (wf_cells _ _ Hwf _ _ He); unfold is_seq in *; lia.
  - cbn. apply IH; lia.
Qed.

Lemma clear_run_spec b from n :
  length b.(entries) = length b.(entry_sequences) ->
  (from + n <= length b.(entries))%nat ->
  exists b', clear_run b from n = Some b' /\
    length b'.(entries) = length b.(entries) /\
    length b'.(entry_sequences) = length b.(entry_sequences) /\
    b'.(sequence) = b.(sequence) /\
    forall i, b'.(entry_sequences) !! i =
      if decide (from <= i < from + n)%nat then Some (-1) else b.(entry_sequences) !! i.
Proof.
  revert b from. induction n as [|n IH]; intros b from Hl Hn.
  - exists b. split_and!; try done. intros i. case_decide; [lia|done].
  - cbn. unfold set_cell.
    destruct (lookup_lt_is_Some_2 b.(entry_sequences) from) as [e He]; [lia|].
    destruct (lookup_lt_is_Some_2 b.(entries) from) as [v Hv]; [lia|].
    rewrite He, Hv. cbn.
    destruct (IH (mkSequenceBuffer (<[from:=dflt]> b.(entries))
      (<[from:=-1]> b.(entry_sequences)) b.(sequence)) (S from)) as (b' & -> & Hl1 & Hl2 & Hs & Hi);
      cbn in *; rewrite ?length_insert in *; try lia.
    exists b'. split_and!; try done. intros i. rewrite Hi, list_lookup_insert.
    repeat case_decide; try done; lia.
Qed.

Lemma clear_all_wf cap b : wf cap b ->
  exists b', clear_run b 0 (length b.(entry_sequences)) = Some b' /\ wf cap b' /\
    b'.(sequence) = b.(sequence) /\ forall s', is_seq s' -> view cap b' s' = None.
Proof.
  intros Hwf. destruct Hwf as [Hc He Hs Hn Hcells].
  destruct (clear_run_spec b 0 (length b.(entry_sequences))) as (b' & -> & Hl1 & Hl2 & Hq & Hi);
    [congruence|lia|].
  assert (Hcell : forall i e, b'.(entry_sequences) !! i = Some e -> e = -1).
  { intros i e Hie. pose proof (lookup_lt_Some _ _ _ Hie). rewrite Hi in Hie.
    rewrite decide_True in Hie by lia. congruence. }
  exists b'. split_and!; try done.
  - split; try congruence; try lia. eauto.
  - intros s' Hs'. unfold view.
    destruct (b'.(entry_sequences) !! cell cap s') as [e|] eqn:Hes; [|done]. cbn.
    apply Hcell in Hes as ->. destruct (Z.eqb_spec (-1) s'); [unfold is_seq in *; lia|done].
Qed.

(** Advancing the cursor to [s + 1] drops everything after a full rotation
    and nothing otherwise. *)
Lemma advance_to_wf cap b s : wf cap b -> is_seq s -> is_seq (s + 1) ->
  exists b', advance_to b s = Some b' /\ wf cap b' /\
    b'.(sequence) = Z.max b.(sequence) (s + 1) /\
    forall s', is_seq s' ->
      view cap b' s' = if Z.of_nat cap <=? s - b.(sequence) then None else view cap b s'.
Proof.
  intros Hwf Hs Hs1. pose proof (wf_sequence _ _ Hwf) as Hq. unfold advance_to.
  rewrite land_sign_bit by done. cbn. destruct (Z.ltb_spec b.(sequence) (s + 1)).
  - unfold remove_entries_inclusive. rewrite !land_sign_bit by done. cbn.
    destruct (Z.ltb_spec s b.(sequence)); [lia|]. rewrite (wf_entries _ _ Hwf).
    destruct (Z.leb_spec (Z.of_nat cap) (s - b.(sequence))) as [Hrot|Hrot].
    + destruct (clear_all_wf cap b Hwf) as (b' & -> & Hwf' & Hq' & Hv). cbn.
      eexists; split_and!; [done| |cbn; lia|exact Hv].
      destruct Hwf' as [? ? ? ? Hc']. split; cbn; try done.
      intros i e Hie. destruct (Hc' _ _ Hie); [by left|right; unfold is_seq in *; lia].
    + rewrite (remove_run_noop cap) by (unfold is_seq in *; lia || done). cbn.
      eexists; split_and!; [done| |cbn; lia|done].
      destruct Hwf as [? ? ? ? Hc']. split; cbn; try done.
      intros i e Hie. destruct (Hc' _ _ Hie); [by left|right; unfold is_seq in *; lia].
  - exists b. pose proof (wf_cap _ _ Hwf). split_and!; try done; [lia|].
    intros. by zcase; [lia|].
Qed.

(** The numbers a ring at cursor [next] refuses as old. *)
Definition too_old (cap : nat) (next s : Z) : bool :=
  (s <? next) && (Z.of_nat cap <=? next - s).

Lemma insert_wf cap b s v : wf cap b -> is_seq s -> is_seq (s + 1) ->
  too_old cap b.(sequence) s = false ->
  exists b', insert b s v = Some (true, b') /\ wf cap b' /\
    b'.(sequence) = Z.max b.(sequence) (s + 1) /\
    forall s', is_seq s' ->
      view cap b' s' =
        if decide (s' = s) then Some v
        else if decide (cell cap s' = cell cap s) then None
        else if Z.of_nat cap <=? s - b.(sequence) then None else view cap b s'.
Proof.
  intros Hwf Hs Hs1 Hold. unfold insert. rewrite land_sign_bit by done. cbn.
  rewrite (wf_seqs _ _ Hwf). fold (too_old cap b.(sequence) s). rewrite Hold.
  destruct (advance_to_wf cap b s Hwf Hs Hs1) as (b1 & -> & Hwf1 & Hq & Hv). cbn.
  rewrite (index_wf cap) by done. cbn. rewrite set_cell_wf by done. cbn.
  rewrite as_i64_id by done. eexists; split_and!; [done| |done|].
  - apply wf_set; [done|]. right. unfold is_seq in *; lia.
  - intros s' Hs'. rewrite view_set by done.
    destruct (decide (s' = s)) as [->|]; [by rewrite decide_True, Z.eqb_refl|].
    case_decide; [by destruct (Z.eqb_spec s s')|]. by rewrite Hv.
Qed.

Lemma insert_old cap b s v : wf cap b -> is_seq s ->
  too_old cap b.(sequence) s = true -> insert b s v = Some (false, b).
Proof.
  intros Hwf Hs Hold. unfold insert. rewrite land_sign_bit by done. cbn.
  rewrite (wf_seqs _ _ Hwf). fold (too_old cap b.(sequence) s). by rewrite Hold.
Qed.

Lemma with_capacity_wf cap : (0 < cap)%nat -> wf cap (with_capacity cap).
Proof.
  intros. split; cbn; rewrite ?length_replicate; try (unfold is_seq, SIGN_BIT; done).
  intros i e [-> _]%lookup_replicate_1. by left.
Qed.

Lemma with_capacity_view cap s : is_seq s -> view cap (with_capacity cap) s = None.
Proof.
  intros Hs. unfold view. cbn. destruct (replicate cap (-1) !! cell cap s) as [e|] eqn:He; [|done].
  apply lookup_replicate_1 in He as [-> _]. unfold mbind, option_bind.
  destruct (Z.eqb_spec (-1) s); [unfold is_seq in *; lia|done].
Qed.

(** ** The contract: a finite map behind a cursor *)

Inductive op : Type :=
| OpInsert (s : Z) (v : T)
| OpRemove (s : Z)
| OpGet (s : Z)
| OpExists (s : Z).

Inductive obs : Type :=
| Stored (b : bool)
| Entry (o : option T)
| Present (b : bool).

Definition run_op b (o : op) : option (obs * SequenceBuffer T) :=
  match o with
  | OpInsert s v => r ← insert b s v; mret (Stored r.1, r.2)
  | OpRemove s => r ← remove b s; mret (Entry r.1, r.2)
  | OpGet s => r ← get b s; mret (Entry r, b)
  | OpExists s => r ← exists_seq b s; mret (Present r, b)
  end.

Fixpoint run b (os : list op) : option (list obs * SequenceBuffer T) :=
  match os with
  | [] => mret ([], b)
  | o :: os => r ← run_op b o; rs ← run r.2 os; mret (r.1 :: rs.1, rs.2)
  end.

Record spec : Type := mkSpec { spec_map : gmap Z T; spec_next : Z }.

(** Storing [s] evicts the numbers sharing its cell; skipping a whole
    capacity past the cursor evicts everything. *)
Definition spec_insert (cap : nat) (m : spec) (s : Z) (v : T) : bool * spec :=
  if too_old cap m.(spec_next) s then (false, m)
  else
    let kept := if Z.of_nat cap <=? s - m.(spec_next) then ∅ else m.(spec_map) in
    (true, mkSpec (<[s := v]> (filter (fun kv => cell cap kv.1 <> cell cap s) kept))
             (Z.max m.(spec_next) (s + 1))).

Definition spec_op (cap : nat) (m : spec) (o : op) : obs * spec :=
  match o with
  | OpInsert s v => let r := spec_insert cap m s v in (Stored r.1, r.2)
  | OpRemove s => (Entry (m.(spec_map) !! s), mkSpec (delete s m.(spec_map)) m.(spec_next))
  | OpGet s => (Entry (m.(spec_map) !! s), m)
  | OpExists s => (Present (bool_decide (is_Some (m.(spec_map) !! s))), m)
  end.

Fixpoint spec_run (cap : nat) (m : spec) (os : list op) : list obs * spec :=
  match os with
  | [] => ([], m)
  | o :: os => let r := spec_op cap m o in let rs := spec_run cap r.2 os in (r.1 :: rs.1, rs.2)
  end.

(** Sequence numbers the wire can produce: the packet numbers are [u32]. *)
Definition valid_op (o : op) : Prop :=
  match o with
  | OpInsert s _ => is_seq s /\ is_seq (s + 1)
  | OpRemove s | OpGet s | OpExists s => is_seq s
  end.

Definition refines (cap : nat) b (m : spec) : Prop :=
  wf cap b /\ b.(sequence) = m.(spec_next) /\
  forall s, is_seq s -> view cap b s = m.(spec_map) !! s.

Lemma insert_refines cap b m s v : refines cap b m -> is_seq s -> is_seq (s + 1) ->
  exists b', insert b s v = Some ((spec_insert cap m s v).1, b') /\
    refines cap b' (spec_insert cap m s v).2.
Proof.
  intros (Hwf & Hn & Hv) Hs Hs1. unfold spec_insert. rewrite <- Hn.
  destruct (too_old cap b.(sequence) s) eqn:Hold.
  { exists b. by rewrite (insert_old cap) by done. }
  destruct (insert_wf cap b s v Hwf Hs Hs1 Hold) as (b' & -> & Hwf' & Hn' & Hv').
  exists b'. split; [done|]. split_and!; [done|done|]. intros s' Hs'. cbn.
  rewrite Hv' by done. destruct (decide (s' = s)) as [->|Hne].
  { by rewrite lookup_insert_eq. }
  rewrite lookup_insert_ne, map_lookup_filter by congruence. case_decide as Hcell.
  - destruct (_ !! s'); cbn; [|done]. rewrite option_guard_False; [done|tauto].
  - destruct (_ <=? _); [by rewrite lookup_empty|]. rewrite Hv by done.
    destruct (m.(spec_map) !! s'); cbn; [|done]. by rewrite option_guard_True.
Qed.

Lemma op_refines cap b m o : refines cap b m -> valid_op o ->
  exists b', run_op b o = Some ((spec_op cap m o).1, b') /\ refines cap b' (spec_op cap m o).2.
Proof.
  intros Hr Ho. destruct o as [s v|s|s|s]; cbn in Ho |- *.
  - destruct (insert_refines cap b m s v Hr) as (b' & -> & Hr'); [naive_solver..|]. by exists b'.
  - destruct Hr as (Hwf & Hn & Hv).
    destruct (remove_wf cap b s Hwf Ho) as (b' & -> & Hwf' & Hn' & Hv'). cbn.
    rewrite Hv by done. exists b'. split; [done|]. split_and!; cbn; [done|congruence|].
    intros s' Hs'. rewrite Hv', lookup_delete, Hv by done. repeat case_decide; congruence.
  - destruct Hr as (Hwf & Hn & Hv). rewrite (get_wf cap) by done. cbn. rewrite Hv by done.
    by exists b.
  - destruct Hr as (Hwf & Hn & Hv). rewrite (exists_wf cap) by done. cbn. rewrite Hv by done.
    by exists b.
Qed.

Lemma run_refines cap b m os : refines cap b m -> Forall valid_op os ->
  exists b', run b os = Some ((spec_run cap m os).1, b') /\ refines cap b' (spec_run cap m os).2.
Proof.
  intros Hr Hos. revert b m Hr. induction Hos as [|o os Ho Hos IH]; intros b m Hr; [by exists b|].
  cbn. destruct (op_refines cap b m o Hr Ho) as (b1 & -> & Hr1). cbn.
  destruct (IH _ _ Hr1) as (b2 & -> & Hr2). by exists b2.
Qed.

Lemma empty_refines cap : (0 < cap)%nat -> refines cap (with_capacity cap) (mkSpec ∅ 0).
Proof.
  intros. split_and!; [by apply with_capacity_wf|done|].
  intros s Hs. cbn. by rewrite with_capacity_view, lookup_empty.
Qed.

End sequence_buffer.

Arguments op : clear implicits.
Arguments obs : clear implicits.
Arguments spec : clear implicits.

(** ** Properties *)

(** C38 A ring of positive capacity never panics on sequence numbers below
    the sign bit, and on every sequence of inserts, removes, lookups and
    membership tests it answers exactly as the finite-map contract does. *)
Theorem ring_refines_bounded_map {T} `{!Default T} (cap : nat) (os : list (op T)) :
  (0 < cap)%nat -> Forall valid_op os ->
  exists b, run (with_capacity cap) os = Some ((spec_run cap (mkSpec ∅ 0) os).1, b).
Proof.
  intros Hc Hos.
  destruct (run_refines cap _ _ os (empty_refines cap Hc) Hos) as (b & Hrun & _). eauto.
Qed.

#[local] Instance Z_default : Default Z := 0.

Lemma ring_refines_bounded_map_witness :
  exists b, run (with_capacity 4) [OpInsert 2 20; OpInsert 6 60; OpGet 2; OpRemove 6; OpExists 6]
    = Some ([Stored true; Stored true; Entry None; Entry (Some 60); Present false], b).
Proof.
  apply (ring_refines_bounded_map 4
    [OpInsert 2 20; OpInsert 6 60; OpGet 2; OpRemove 6; OpExists 6]);
    [lia|repeat constructor; unfold is_seq, SIGN_BIT; cbn; lia].
Defined.

(** The newest [cap] numbers stay readable: storing [s] keeps every other
    stored number within one capacity of the new cursor. *)
Lemma insert_keeps_window {T} `{!Default T} (cap : nat) (b b' : SequenceBuffer T)
  (s s' : Z) (v w : T) :
  wf cap b -> is_seq s -> is_seq (s + 1) -> is_seq s' -> s' <> s ->
  insert b s v = Some (true, b') -> get b s' = Some (Some w) ->
  b'.(sequence) - s' <= Z.of_nat cap ->
  get b' s' = Some (Some w).
Proof.
  intros Hwf Hs Hs1 Hs' Hne Hins Hget Hwin.
  destruct (too_old cap b.(sequence) s) eqn:Hold.
  { rewrite (insert_old cap) in Hins by done. done. }
  destruct (insert_wf cap b s v Hwf Hs Hs1 Hold) as (b1 & Heq & Hwf1 & Hn & Hv).
  rewrite Hins in Heq. injection Heq as <-. rewrite (get_wf cap) in Hget |- * by done.
  injection Hget as Hget. pose proof (view_lt _ _ _ _ Hwf Hget Hs').
  pose proof (wf_cap _ _ Hwf). rewrite Hv, decide_False by done.
  unfold too_old in Hold. apply andb_false_iff in Hold.
  rewrite decide_False.
  - destruct (Z.leb_spec (Z.of_nat cap) (s - b.(sequence))); [lia|by rewrite Hget].
  - rewrite cell_eq by done. intros Hmod. apply Hne. apply (mod_window_inj (Z.of_nat cap)); lia.
Qed.


(** Advancing the cursor by less than a full rotation clears nothing: an
    entry that has fallen a whole capacity (or more) behind the new cursor is
    still reported present unless the new entry landed in its very cell. *)
Theorem partial_rotation_keeps_stale {T} `{!Default T} (cap : nat)
  (b b' : SequenceBuffer T) (s s' : Z) (v w : T) :
  wf cap b -> is_seq s -> is_seq (s + 1) -> is_seq s' ->
  b.(sequence) <= s < b.(sequence) + Z.of_nat cap ->
  insert b s v = Some (true, b') -> get b s' = Some (Some w) ->
  s' mod Z.of_nat cap <> s mod Z.of_nat cap ->
  exists_seq b' s' = Some true.
Proof.
  intros Hwf Hs Hs1 Hs' Hrange Hins Hget Hcell.
  assert (Hold : too_old cap b.(sequence) s = false).
  { unfold too_old. destruct (Z.ltb_spec s b.(sequence)); [lia|done]. }
  destruct (insert_wf cap b s v Hwf Hs Hs1 Hold) as (b1 & Heq & Hwf1 & Hn & Hv).
  rewrite Hins in Heq. injection Heq as <-. rewrite (exists_wf cap) by done.
  rewrite (get_wf cap) in Hget by done. injection Hget as Hget.
  rewrite <- (cell_eq cap) in Hcell by apply (wf_cap _ _ Hwf).
  f_equal. apply bool_decide_eq_true_2. rewrite Hv by done.
  repeat case_decide; subst; try done. zcase; [lia|by rewrite Hget].
Qed.

(** Capacity 4 holding 0 to 3: storing 5 leaves 0 present, although the cursor
    is then 6 and a fresh insert of 0 is refused as too old. *)
Lemma partial_rotation_keeps_stale_witness :
  exists_seq (mkSequenceBuffer [0; 50; 20; 30] [0; 5; 2; 3] 6) 0 = Some true /\
  insert (mkSequenceBuffer [0; 50; 20; 30] [0; 5; 2; 3] 6) 0 7
    = Some (false, mkSequenceBuffer [0; 50; 20; 30] [0; 5; 2; 3] 6).
Proof.
  split; [|reflexivity].
  apply (partial_rotation_keeps_stale 4 (mkSequenceBuffer [0; 10; 20; 30] [0; 1; 2; 3] 4) _ 5 0 50 0);
    try (unfold is_seq, SIGN_BIT; cbn; lia); try reflexivity; [|done].
  split; try (unfold is_seq, SIGN_BIT; cbn; lia); try reflexivity.
  intros i e Hi. do 4 (destruct i as [|i]; [cbn in Hi; injection Hi as <-; (by left) || (right; done)|]).
  done.
Defined.
