(* ===== verification/Wire.v ===== *)
(** * The data-plane messages ([proto/proto/wire.proto])

    The turn [Payload] and the per-datagram [Packet], field for field.  Their
    Rust types and their [encoded_len] are generated by [prost] at build time,
    so the encoded sizes are parameters of the model: the class [Prost] names
    them and [ProstLaws] states what the program relies on, which is the
    protobuf size arithmetic.  [prost_sizes] is a concrete instance (the
    protobuf wire format's sizes), used by the witnesses. *)

From Stdlib Require Import ZArith Lia.
From stdpp Require Import gmap sorting list.
From S2P Require Import Prelude.

Open Scope Z_scope.

(** ** Messages *)

Record BufferDirective : Type := mkBufferDirective {
  buffer_turns : Z;
  apply_at_frame : Z;
  decision_seq : Z;
  authority_relay_id : option Z;
}.

Record StateHashReport : Type := mkStateHashReport { step : Z; hash : Z }.

Record Payload : Type := mkPayload {
  seq : Z;
  slot : Z;
  commands : list Z;
  game_frame_count : option Z;
  sync_generation : option Z;
  buffer_directive : option BufferDirective;
  state_hash : option StateHashReport;
}.

Record Packet : Type := mkPacket {
  packet_seq_of : Z;
  ack : option Z;
  ack_bits : Z;
  payloads : list Payload;
  turns_complete : option Z;
}.

#[export] Instance BufferDirective_eq_dec : EqDecision BufferDirective.
Proof. solve_decision. Defined.
#[export] Instance StateHashReport_eq_dec : EqDecision StateHashReport.
Proof. solve_decision. Defined.
#[export] Instance Payload_eq_dec : EqDecision Payload.
Proof. solve_decision. Defined.

(** A payload's origin identity. *)
Definition origin (p : Payload) : Z * Z := (slot p, seq p).

Definition with_payloads (p : Packet) (ps : list Payload) : Packet :=
  mkPacket (packet_seq_of p) (ack p) (ack_bits p) ps (turns_complete p).

Definition header (p : Packet) : Packet := with_payloads p [].

(** Field values the wire types can hold. *)
Definition wire_header (p : Packet) : Prop :=
  is_u32 (packet_seq_of p) /\ (forall a, ack p = Some a -> is_u32 a) /\
  is_u32 (ack_bits p) /\ (forall c, turns_complete p = Some c -> is_u64 c).

(** The widest header: the one [lone_packet_len] measures. *)
Definition max_header : Packet := mkPacket u32_max (Some u32_max) u32_max [] (Some u64_max).

(** ** Encoded sizes *)

Class Prost : Type := {
  encoded_len_varint : Z -> Z;
  payload_encoded_len : Payload -> Z;
  packet_encoded_len : Packet -> Z;
}.

Class ProstLaws `{!Prost} : Prop := {
  encoded_len_varint_pos : forall x, 0 <= x -> 1 <= encoded_len_varint x;
  payload_encoded_len_nonneg : forall p, 0 <= payload_encoded_len p;
  packet_encoded_len_nonneg : forall p, 0 <= packet_encoded_len p;
  (** each element of the repeated field costs its tag, its length delimiter
      and its body, and nothing else of the packet changes *)
  packet_encoded_len_app : forall p ps q,
    packet_encoded_len (with_payloads p (ps ++ [q])) =
      packet_encoded_len (with_payloads p ps) +
      (1 + encoded_len_varint (payload_encoded_len q) + payload_encoded_len q);
  (** varints grow with their value *)
  header_le_max : forall p, wire_header p ->
    packet_encoded_len (header p) <= packet_encoded_len max_header;
}.

(** ** A concrete instance: the protobuf sizes *)

Module ProstSizes.

Definition varint (x : Z) : Z := 1 + Z.log2 (Z.max 1 x) / 7.

Definition field (x : Z) : Z := 1 + varint x.
Definition implicit_uint (x : Z) : Z := if x =? 0 then 0 else field x.
Definition optional_uint (o : option Z) : Z :=
  match o with Some x => field x | None => 0 end.
Definition delimited (len : Z) : Z := 1 + varint len + len.

Definition directive_len (d : BufferDirective) : Z :=
  implicit_uint (buffer_turns d) + implicit_uint (apply_at_frame d) +
  implicit_uint (decision_seq d) + optional_uint (authority_relay_id d).

Definition hash_len (h : StateHashReport) : Z :=
  implicit_uint (step h) + (if hash h =? 0 then 0 else 9).

Definition payload_len (p : Payload) : Z :=
  implicit_uint (seq p) + implicit_uint (slot p) +
  (match commands p with [] => 0 | c => delimited (Z.of_nat (length c)) end) +
  optional_uint (game_frame_count p) + optional_uint (sync_generation p) +
  (match buffer_directive p with Some d => delimited (directive_len d) | None => 0 end) +
  (match state_hash p with Some h => delimited (hash_len h) | None => 0 end).

Definition packet_len (p : Packet) : Z :=
  implicit_uint (packet_seq_of p) + optional_uint (ack p) +
  (if ack_bits p =? 0 then 0 else 5) + optional_uint (turns_complete p) +
  sumz (fun q => delimited (payload_len q)) (payloads p).

Lemma varint_pos x : 1 <= varint x.
Proof. unfold varint. pose proof (Z.log2_nonneg (Z.max 1 x)). pose proof (Z.div_pos (Z.log2 (Z.max 1 x)) 7). lia. Qed.

Lemma varint_mono x y : x <= y -> varint x <= varint y.
Proof.
  intros. unfold varint. apply Z.add_le_mono_l, Z.div_le_mono; [lia|].
  apply Z.log2_le_mono. lia.
Qed.

Lemma implicit_uint_le x y : 0 < y -> x <= y -> 0 <= implicit_uint x <= implicit_uint y.
Proof.
  intros. unfold implicit_uint, field. pose proof (varint_mono x y). pose proof (varint_pos x).
  pose proof (varint_pos y). repeat zcase; lia.
Qed.

Lemma optional_uint_le o y : (forall x, o = Some x -> x <= y) ->
  0 <= optional_uint o <= optional_uint (Some y).
Proof.
  intros Ho. pose proof (varint_pos y). unfold optional_uint, field. destruct o as [x|]; [|lia].
  pose proof (varint_mono x y (Ho x eq_refl)). pose proof (varint_pos x). lia.
Qed.

Lemma optional_uint_nonneg o : 0 <= optional_uint o.
Proof. unfold optional_uint, field. destruct o as [x|]; [pose proof (varint_pos x)|]; lia. Qed.

Lemma implicit_uint_nonneg x : 0 <= implicit_uint x.
Proof. unfold implicit_uint, field. pose proof (varint_pos x). zcase; lia. Qed.

Lemma directive_len_nonneg d : 0 <= directive_len d.
Proof.
  unfold directive_len. pose proof (implicit_uint_nonneg (buffer_turns d)).
  pose proof (implicit_uint_nonneg (apply_at_frame d)).
  pose proof (implicit_uint_nonneg (decision_seq d)).
  pose proof (optional_uint_nonneg (authority_relay_id d)). lia.
Qed.

Lemma hash_len_nonneg h : 0 <= hash_len h.
Proof. unfold hash_len. pose proof (implicit_uint_nonneg (step h)). zcase; lia. Qed.

Lemma delimited_nonneg len : 0 <= len -> 0 <= delimited len.
Proof. unfold delimited. pose proof (varint_pos len). lia. Qed.

Lemma payload_len_nonneg p : 0 <= payload_len p.
Proof.
  unfold payload_len. pose proof (implicit_uint_nonneg (seq p)).
  pose proof (implicit_uint_nonneg (slot p)).
  pose proof (optional_uint_nonneg (game_frame_count p)).
  pose proof (optional_uint_nonneg (sync_generation p)).
  assert (0 <= match commands p with [] => 0 | c => delimited (Z.of_nat (length c)) end)
    by (destruct (commands p); [lia|apply delimited_nonneg; lia]).
  assert (0 <= match buffer_directive p with Some d => delimited (directive_len d) | None => 0 end)
    by (destruct (buffer_directive p); [apply delimited_nonneg, directive_len_nonneg|lia]).
  assert (0 <= match state_hash p with Some h => delimited (hash_len h) | None => 0 end)
    by (destruct (state_hash p); [apply delimited_nonneg, hash_len_nonneg|lia]).
  lia.
Qed.

Lemma packet_len_nonneg p : 0 <= packet_len p.
Proof.
  unfold packet_len. pose proof (implicit_uint_nonneg (packet_seq_of p)).
  pose proof (optional_uint_nonneg (ack p)). pose proof (optional_uint_nonneg (turns_complete p)).
  assert (0 <= sumz (fun q => delimited (payload_len q)) (payloads p))
    by (apply sumz_nonneg; intros; apply delimited_nonneg, payload_len_nonneg).
  zcase; lia.
Qed.

End ProstSizes.

Definition prost_sizes : Prost :=
  {| encoded_len_varint := ProstSizes.varint;
     payload_encoded_len := ProstSizes.payload_len;
     packet_encoded_len := ProstSizes.packet_len |}.

Lemma prost_sizes_laws : @ProstLaws prost_sizes.
Proof.
  split; cbn.
  - intros x _. apply ProstSizes.varint_pos.
  - apply ProstSizes.payload_len_nonneg.
  - apply ProstSizes.packet_len_nonneg.
  - intros p ps q. unfold ProstSizes.packet_len. cbn. rewrite sumz_app. cbn.
    unfold ProstSizes.delimited. lia.
  - intros p (Hs & Ha & Hb & Ht). unfold ProstSizes.packet_len. cbn [header with_payloads
      packet_seq_of ack ack_bits turns_complete payloads max_header sumz].
    destruct (ProstSizes.implicit_uint_le (packet_seq_of p) u32_max); [by vm_compute|apply Hs|].
    destruct (ProstSizes.optional_uint_le (ack p) u32_max); [intros; by apply Ha|].
    destruct (ProstSizes.optional_uint_le (turns_complete p) u64_max); [intros; by apply Ht|].
    replace (u32_max =? 0) with false by done. zcase; lia.
Qed.
