(* ===== verification/History.v ===== *)
(** * The peer's received-packet history ([transport/src/ack_manager/history.rs])

    The [ack] / [ack_bits] pair kept in wire form, and the cumulative count of
    peer packets that left the 32-packet window unreceived.  The contract is
    stated on the set of accepted packet numbers: bit [n] of [ack_bits] says
    whether [most_recent - (n + 1)] was accepted, and [lost] counts exactly
    the numbers between the first packet and the window's tail that were not. *)

From Stdlib Require Import ZArith Lia.
From stdpp Require Import gmap sorting list.
From S2P Require Import Prelude.

Open Scope Z_scope.

Record ReceivedPacketHistory : Type := mkHistory {
  most_recent : option Z;
  rh_ack_bits : Z;
  lost : Z;
  first : option Z;
}.

Definition default_history : ReceivedPacketHistory := mkHistory None 0 0 None.

(** [u32::checked_shl(x, n).unwrap_or(0)]. *)
Definition checked_shl_or_zero (x n : Z) : Z :=
  if n <? 32 then Z.shiftl x n mod 2 ^ 32 else 0.

(** One round of the departure loop: [age] leaves the window. *)
Definition departed_unset (h : ReceivedPacketHistory) (fst most : Z) (unset age : Z) : Z :=
  match checked_sub most (age + 1) with
  | None => unset
  | Some departing =>
      if (fst <=? departing) && (Z.land h.(rh_ack_bits) (Z.shiftl 1 age) =? 0)
      then unset + 1 else unset
  end.

Definition note_departed (h : ReceivedPacketHistory) (most advanced : Z) :
  ReceivedPacketHistory :=
  match h.(first) with
  | None => h
  | Some fst =>
      let tracked := Z.min advanced 32 in
      let unset := foldl (departed_unset h fst most) 0 (seqZ (32 - tracked) tracked) in
      let never_tracked := saturating_sub advanced 33 in
      mkHistory h.(most_recent) h.(rh_ack_bits)
        (saturating_add u64_max (saturating_add u64_max h.(lost) unset) never_tracked)
        h.(first)
  end.

Definition record (h : ReceivedPacketHistory) (s : Z) : ReceivedPacketHistory :=
  match h.(most_recent) with
  | None => mkHistory (Some s) h.(rh_ack_bits) h.(lost) (Some s)
  | Some most =>
      match s ?= most with
      | Gt =>
          let advanced := s - most in
          let h1 := note_departed h most advanced in
          let bits :=
            if advanced <=? 32
            then Z.lor (checked_shl_or_zero h1.(rh_ack_bits) advanced) (Z.shiftl 1 (advanced - 1))
            else 0 in
          mkHistory (Some s) bits h1.(lost) h1.(first)
      | Lt =>
          let behind := most - s in
          if behind <? 32
          then mkHistory h.(most_recent) (Z.lor h.(rh_ack_bits) (Z.shiftl 1 (behind - 1)))
                 h.(lost) h.(first)
          else h
      | Eq => h
      end
  end.

(** ** The contract *)

(** What has been accepted so far: the first and the newest number, and the
    set of numbers taken in.  A packet 32 or more behind the newest is not. *)
Record spec : Type := mkSpec { s_first : Z; s_newest : Z; s_set : gset Z }.

Definition spec_record (o : option spec) (s : Z) : option spec :=
  Some match o with
  | None => mkSpec s s {[s]}
  | Some m =>
      if s_newest m <? s then mkSpec (s_first m) s ({[s]} ∪ s_set m)
      else if s_newest m - s <? 32 then mkSpec (s_first m) (s_newest m) ({[s]} ∪ s_set m)
      else m
  end.

Definition missing (m : spec) (x : Z) : bool := negb (bool_decide (x ∈ s_set m)).

Record represents (h : ReceivedPacketHistory) (m : spec) : Prop := {
  rep_recent : h.(most_recent) = Some (s_newest m);
  rep_first : h.(first) = Some (s_first m);
  rep_u32 : 0 <= h.(rh_ack_bits) < 2 ^ 32;
  rep_bits : forall n, 0 <= n < 32 ->
    Z.testbit h.(rh_ack_bits) n = bool_decide (s_newest m - (n + 1) ∈ s_set m);
  rep_lost : h.(lost) = count_in (missing m) (s_first m) (s_newest m - 32);
  rep_newest : s_newest m ∈ s_set m;
  rep_le : forall x, x ∈ s_set m -> 0 <= x <= s_newest m;
  rep_order : 0 <= s_first m <= s_newest m;
  rep_range : is_u32 (s_newest m);
}.

(** The departure loop over the [t] oldest window positions counts the
    missing numbers among the [t] oldest window members. *)
Lemma departure_loop h m t acc : represents h m -> 0 <= t <= 32 ->
  foldl (departed_unset h (s_first m) (s_newest m)) acc (seqZ (32 - t) t) =
  acc + count_in (missing m) (Z.max (s_first m) (s_newest m - 32)) (s_newest m - 32 + t).
Proof.
  intros Hr Ht. destruct (Z_of_nat_complete t) as [n ->]; [lia|]. revert acc Ht.
  induction n as [|n IH]; intros acc Ht.
  - rewrite seqZ_nil, count_in_empty by lia. cbn [foldl]. lia.
  - rewrite seqZ_cons by lia. cbn [foldl].
    replace (Z.succ (32 - Z.of_nat (S n))) with (32 - Z.of_nat n) by lia.
    replace (Z.pred (Z.of_nat (S n))) with (Z.of_nat n) by lia.
    rewrite IH by lia. unfold departed_unset, checked_sub.
    pose proof (rep_order _ _ Hr). set (x := s_newest m - 32 + Z.of_nat n).
    replace (s_newest m - 32 + Z.of_nat (S n)) with (x + 1) by lia.
    rewrite land_bit_zero, (rep_bits _ _ Hr) by lia.
    replace (s_newest m - (32 - Z.of_nat (S n) + 1)) with x by lia. fold (missing m x).
    destruct (Z.leb_spec (s_first m) x).
    + rewrite count_in_succ by lia. zcase; [|lia].
      rewrite (proj2 (Z.leb_le _ _)) by lia. destruct (missing m x); cbn [andb]; lia.
    + rewrite !count_in_empty by lia. zcase; [|lia].
      rewrite (proj2 (Z.leb_gt _ _)) by lia. cbn [andb]. lia.
Qed.

Lemma note_departed_lost h m s : represents h m -> s_newest m < s -> is_u32 s ->
  (note_departed h (s_newest m) (s - s_newest m)).(lost) =
    count_in (missing m) (s_first m) (Z.min (s - 32) (s_newest m)) +
    Z.max 0 (s - s_newest m - 33).
Proof.
  intros Hr Hlt Hs. unfold note_departed. rewrite (rep_first _ _ Hr). cbn.
  rewrite departure_loop, (rep_lost _ _ Hr) by (done || lia).
  pose proof (rep_order _ _ Hr). set (f := s_first m) in *. set (N := s_newest m) in *.
  set (t := Z.min (s - N) 32).
  assert (Hsum : count_in (missing m) f (N - 32) + count_in (missing m) (Z.max f (N - 32)) (N - 32 + t)
    = count_in (missing m) f (Z.min (s - 32) N)).
  { replace (Z.min (s - 32) N) with (N - 32 + t) by lia. destruct (Z.le_gt_cases f (N - 32)).
    - rewrite Z.max_r by lia. by rewrite <- count_in_split by lia.
    - rewrite Z.max_l by lia. rewrite (count_in_empty _ f (N - 32)) by lia. lia. }
  assert (0 <= count_in (missing m) f (Z.min (s - 32) N) <= N).
  { destruct (Z.le_gt_cases f (Z.min (s - 32) N)).
    - pose proof (count_in_bound (missing m) f (Z.min (s - 32) N)). lia.
    - rewrite count_in_empty by lia. lia. }
  width_lia.
Qed.

(** ** [record] implements the contract *)

Lemma testbit_shl_window b n k : 0 <= n -> 0 <= k < 32 ->
  Z.testbit (checked_shl_or_zero b n) k = (n <=? k) && Z.testbit b (k - n).
Proof.
  intros Hn Hk. unfold checked_shl_or_zero. destruct (Z.ltb_spec n 32).
  - rewrite Z.mod_pow2_bits_low, Z.shiftl_spec by lia. destruct (Z.leb_spec n k); [done|].
    by rewrite Z.testbit_neg_r by lia.
  - rewrite Z.bits_0. destruct (Z.leb_spec n k); [lia|done].
Qed.

Lemma lor_u32 a b : 0 <= a < 2 ^ 32 -> 0 <= b < 2 ^ 32 -> 0 <= Z.lor a b < 2 ^ 32.
Proof.
  intros Ha Hb. assert (0 <= Z.lor a b) by (apply Z.lor_nonneg; lia). split; [done|].
  apply Z.bounded_iff_bits_nonneg; [lia|done|]. intros l Hl. rewrite Z.lor_spec.
  assert (Hbit : forall x, 0 <= x < 2 ^ 32 -> Z.testbit x l = false).
  { intros x Hx. apply (Z.bounded_iff_bits_nonneg 32 x); lia. }
  by rewrite !Hbit.
Qed.

Lemma one_bit_u32 n : 0 <= n < 32 -> 0 <= Z.shiftl 1 n < 2 ^ 32.
Proof.
  intros. rewrite Z.shiftl_1_l. split; [by apply Z.pow_nonneg|]. apply Z.pow_lt_mono_r; lia.
Qed.

Lemma checked_shl_u32 b n : 0 <= checked_shl_or_zero b n < 2 ^ 32.
Proof.
  unfold checked_shl_or_zero. zcase; [apply Z.mod_pos_bound; lia|lia].
Qed.

Lemma represents_newer h m s : represents h m -> s_newest m < s -> is_u32 s ->
  represents (record h s) (mkSpec (s_first m) s ({[s]} ∪ s_set m)).
Proof.
  intros Hr Hlt Hs. pose proof (rep_order _ _ Hr) as Hord. pose proof (rep_newest _ _ Hr) as Hnew.
  unfold record. rewrite (rep_recent _ _ Hr), (proj2 (Z.compare_gt_iff _ _) Hlt).
  assert (Hb : (note_departed h (s_newest m) (s - s_newest m)).(rh_ack_bits) = h.(rh_ack_bits) /\
    (note_departed h (s_newest m) (s - s_newest m)).(first) = h.(first)).
  { unfold note_departed. destruct (first h) eqn:?; cbn [rh_ack_bits first]; auto. }
  destruct Hb as [Hb1 Hb2]. split; cbn [most_recent first rh_ack_bits lost s_first s_newest s_set].
  - done.
  - rewrite Hb2. apply (rep_first _ _ Hr).
  - zcase; [|lia]. apply lor_u32; [apply checked_shl_u32|apply one_bit_u32; lia].
  - intros n Hn. rewrite Hb1. set (adv := s - s_newest m).
    destruct (Z.leb_spec adv 32).
    + rewrite Z.lor_spec, testbit_shl_window, Z.shiftl_1_l, Z.pow2_bits_eqb by lia.
      destruct (Z.leb_spec adv n).
      * rewrite (rep_bits _ _ Hr) by lia. cbn. destruct (Z.eqb_spec (adv - 1) n); [lia|].
        rewrite orb_false_r. replace (s_newest m - (n - adv + 1)) with (s - (n + 1)) by lia.
        apply bool_decide_ext. rewrite elem_of_union, elem_of_singleton. intuition lia.
      * cbn. destruct (Z.eqb_spec (adv - 1) n) as [Heq|Hne]; symmetry.
        -- apply bool_decide_eq_true_2. replace (s - (n + 1)) with (s_newest m) by lia. set_solver.
        -- apply bool_decide_eq_false_2. rewrite elem_of_union, elem_of_singleton.
           intros [?|Hin]; [lia|]. apply (rep_le _ _ Hr) in Hin. lia.
    + rewrite Z.bits_0. symmetry. apply bool_decide_eq_false_2.
      rewrite elem_of_union, elem_of_singleton. intros [?|Hin]; [lia|].
      apply (rep_le _ _ Hr) in Hin. lia.
  - rewrite note_departed_lost by done.
    set (m' := mkSpec (s_first m) s ({[s]} ∪ s_set m)).
    assert (Hsame : forall x, x < s -> missing m' x = missing m x).
    { intros x Hx. unfold missing. f_equal. apply bool_decide_ext. cbn. set_solver by lia. }
    assert (Hgap : forall x, s_newest m < x < s -> missing m x = true).
    { intros x Hx. unfold missing. rewrite bool_decide_eq_false_2; [done|].
      intros Hin%(rep_le _ _ Hr). lia. }
    rewrite (count_in_ext (missing m') (missing m)) by (intros; apply Hsame; lia).
    destruct (Z.le_gt_cases (s - 32) (s_newest m)).
    + rewrite Z.min_l by lia. lia.
    + rewrite Z.min_r by lia. rewrite (count_in_split _ _ (s_newest m) (s - 32)) by lia.
      rewrite (count_in_split _ (s_newest m) (s_newest m + 1) (s - 32)) by lia.
      rewrite (count_in_succ _ (s_newest m)), (count_in_empty _ (s_newest m)) by lia.
      rewrite (count_in_all _ (s_newest m + 1)) by (intros; try apply Hgap; lia).
      replace (missing m (s_newest m)) with false; [lia|].
      unfold missing. by rewrite bool_decide_eq_true_2.
  - set_solver.
  - intros x. rewrite elem_of_union, elem_of_singleton. intros [->|Hin]; [unfold is_u32 in *; lia|].
    apply (rep_le _ _ Hr) in Hin. lia.
  - lia.
  - done.
Qed.

Lemma represents_late h m s : represents h m -> 0 <= s < s_newest m -> s_newest m - s < 32 ->
  represents (record h s) (mkSpec (s_first m) (s_newest m) ({[s]} ∪ s_set m)).
Proof.
  intros Hr Hlt Hb. pose proof (rep_order _ _ Hr) as Hord. pose proof (rep_newest _ _ Hr) as Hnew.
  unfold record. rewrite (rep_recent _ _ Hr), (proj2 (Z.compare_lt_iff _ _)) by lia.
  destruct (Z.ltb_spec (s_newest m - s) 32); [|lia].
  destruct Hr as [H1 H2 H3 H4 H5 H6 H7 H8 H9].
  split; cbn [most_recent first rh_ack_bits lost s_first s_newest s_set]; try done.
  - apply lor_u32; [done|apply one_bit_u32; lia].
  - intros n Hn. rewrite Z.lor_spec, Z.shiftl_1_l, Z.pow2_bits_eqb, H4 by lia.
    destruct (Z.eqb_spec (s_newest m - s - 1) n).
    + rewrite orb_true_r. symmetry. apply bool_decide_eq_true_2.
      replace (s_newest m - (n + 1)) with s by lia. set_solver.
    + rewrite orb_false_r. apply bool_decide_ext.
      rewrite elem_of_union, elem_of_singleton. intuition lia.
  - rewrite H5. apply count_in_ext. intros x Hx. unfold missing. f_equal. apply bool_decide_ext.
    cbn. rewrite elem_of_union, elem_of_singleton. intuition lia.
  - set_solver.
  - intros x. rewrite elem_of_union, elem_of_singleton. intros [->|Hin]; [lia|auto].
Qed.

Lemma represents_first s : is_u32 s ->
  represents (record default_history s) (mkSpec s s {[s]}).
Proof.
  intros Hs. split; cbn; try done; try set_solver.
  - intros n Hn. rewrite Z.bits_0. symmetry. apply bool_decide_eq_false_2.
    rewrite elem_of_singleton. lia.
  - rewrite count_in_empty by lia. done.
  - intros x ->%elem_of_singleton. unfold is_u32 in *. lia.
  - unfold is_u32 in *. lia.
Qed.

Lemma represents_record h m s : represents h m -> is_u32 s ->
  exists m', spec_record (Some m) s = Some m' /\ represents (record h s) m'.
Proof.
  intros Hr Hs. unfold spec_record. destruct (Z.ltb_spec (s_newest m) s).
  { eexists; split; [done|]. by apply represents_newer. }
  destruct (Z.ltb_spec (s_newest m - s) 32); eexists; (split; [done|]).
  - destruct (decide (s = s_newest m)) as [->|].
    + unfold record. rewrite (rep_recent _ _ Hr), Z.compare_refl.
      replace ({[s_newest m]} ∪ s_set m) with (s_set m); [by destruct m|].
      pose proof (rep_newest _ _ Hr). set_solver.
    + apply represents_late; unfold is_u32 in *; (done || lia).
  - unfold record. rewrite (rep_recent _ _ Hr), (proj2 (Z.compare_lt_iff _ _)) by lia.
    destruct (Z.ltb_spec (s_newest m - s) 32); [lia|done].
Qed.

Lemma represents_run h m ss : represents h m -> Forall is_u32 ss ->
  exists m', foldl spec_record (Some m) ss = Some m' /\ represents (foldl record h ss) m'.
Proof.
  intros Hr Hss. revert h m Hr. induction Hss as [|s ss Hs Hss IH]; intros h m Hr; [eauto|].
  destruct (represents_record h m s Hr Hs) as (m' & Hm' & Hr'). cbn [foldl]. rewrite Hm'. eauto.
Qed.

(** Only received numbers are ever in the accepted set. *)
Lemma spec_record_set o s m :
  spec_record o s = Some m ->
  forall x, x ∈ s_set m -> x = s \/ exists m0, o = Some m0 /\ x ∈ s_set m0.
Proof.
  unfold spec_record. intros [= <-] x Hx. destruct o as [m0|]; [|set_solver].
  repeat zcase; set_solver.
Qed.

(** The history of a connection either is empty or represents a set. *)
Definition tracks (h : ReceivedPacketHistory) (o : option spec) : Prop :=
  match o with
  | None => h = default_history
  | Some m => represents h m
  end.

Lemma tracks_record h o s : tracks h o -> is_u32 s -> tracks (record h s) (spec_record o s).
Proof.
  intros Ht Hs. destruct o as [m|]; cbn in Ht.
  - destruct (represents_record h m s Ht Hs) as (m' & -> & Hr). done.
  - subst h. cbn. by apply represents_first.
Qed.

(** ** Properties *)

(** On every sequence of received packet numbers, the rolling ack state is
    exact: [ack] is the newest number, bit [n] of [ack_bits] is set exactly
    when the number [n + 1] below it was accepted, and [lost] is exactly the
    count of numbers, from the first one received up to those 33 behind the
    newest, that were never accepted. *)
Theorem history_exact (s : Z) (ss : list Z) :
  Forall is_u32 (s :: ss) ->
  exists m, foldl spec_record None (s :: ss) = Some m /\
    let h := foldl record default_history (s :: ss) in
    h.(most_recent) = Some (s_newest m) /\
    (forall n, 0 <= n < 32 ->
       Z.testbit h.(rh_ack_bits) n = bool_decide (s_newest m - (n + 1) ∈ s_set m)) /\
    0 <= h.(rh_ack_bits) < 2 ^ 32 /\
    h.(lost) = count_in (fun x => negb (bool_decide (x ∈ s_set m))) (s_first m) (s_newest m - 32).
Proof.
  intros [Hs Hss]%Forall_cons. cbn [foldl].
  destruct (represents_run _ _ ss (represents_first s Hs) Hss) as (m & Hm & Hr).
  exists m. split; [done|]. cbv zeta. split_and!; apply Hr.
Qed.

Lemma history_exact_witness :
  exists m, foldl spec_record None [10; 11; 13; 60; 58] = Some m /\
    (foldl record default_history [10; 11; 13; 60; 58]).(lost) =
      count_in (fun x => negb (bool_decide (x ∈ s_set m))) (s_first m) (s_newest m - 32).
Proof.
  destruct (history_exact 10 [11; 13; 60; 58]) as (m & Hm & _ & _ & _ & Hl).
  - repeat constructor; unfold is_u32, u32_max; lia.
  - exists m. split; [exact Hm|exact Hl].
Defined.
