(* ===== verification/AckManager.v ===== *)
(** * Per-link send and ack bookkeeping ([transport/src/ack_manager/])

    One [AckManager] runs at each end of a link.  [build_outgoing] packs a
    fresh payload with still-unacked ones under the re-carry policy
    ([policy.rs], [send.rs]); [record_sent] books what reached the wire;
    [handle_incoming] folds a peer packet's acks ([recv.rs]);
    [retire_payloads_through] is the cumulative cursor of the beacon stream.

    The map of unacked payloads is a [BTreeMap] keyed by the origin identity
    [(slot, seq)]; the ring of sent packets can panic, so the operations that
    touch it return [option] (and are proved never to return [None]). *)

From Stdlib Require Import ZArith Lia.
From stdpp Require Import gmap sorting list.
From S2P Require Import Prelude BTree SequenceBuffer Wire History.

Open Scope Z_scope.

Abbreviation key := (Z * Z)%type.

(** ** Policy ([policy.rs]) *)

Record CarrySpacing : Type := mkCarrySpacing { dense_carries : Z; max_spacing : Z }.

Record RecarryPolicy : Type := mkRecarryPolicy {
  redundancy_byte_budget : option Z;
  spacing : option CarrySpacing;
}.

Definition unbounded_policy : RecarryPolicy := mkRecarryPolicy None None.
Definition default_policy : RecarryPolicy := mkRecarryPolicy (Some 384) (Some (mkCarrySpacing 2 8)).

Definition required_gap (c : CarrySpacing) (send_count : Z) : Z :=
  if send_count <=? dense_carries c then 1
  else
    let doublings := Z.min (send_count - dense_carries c) 30 in
    Z.min (Z.shiftl 1 doublings) (Z.max (max_spacing c) 1).

(** ** What was sent ([sent.rs]) *)

Record SentPacket : Type := mkSentPacket { payload_slots_seqs : list key }.
#[export] Instance SentPacket_default : Default SentPacket := mkSentPacket [].

Record SentPayload : Type := mkSentPayload {
  send_count : Z;
  last_carried_packet_seq : option Z;
  registered_at_packet_seq : Z;
  wire_len : Z;
  payload : Payload;
}.

Definition is_due (p : SentPayload) (sp : option CarrySpacing) (building_seq : Z) : bool :=
  match sp with
  | None => true
  | Some c =>
      match last_carried_packet_seq p with
      | None => true
      | Some last => required_gap c (send_count p) <=? saturating_sub building_seq last
      end
  end.

Definition waiting_age (p : SentPayload) (building_seq : Z) : Z :=
  saturating_sub building_seq
    (default (registered_at_packet_seq p) (last_carried_packet_seq p)).

Definition GUARANTEED_DATAGRAM_BUDGET : Z := 1024.

Section sizes.
Context `{!Prost}.

Definition payload_element_len (payload_len : Z) : Z :=
  1 + encoded_len_varint payload_len + payload_len.

Definition element_len (p : Payload) : Z := payload_element_len (payload_encoded_len p).

Definition lone_packet_len (p : Payload) : Z :=
  packet_encoded_len max_header + payload_element_len (payload_encoded_len p).

Definition fits_guaranteed_datagram (p : Payload) : bool :=
  lone_packet_len p <=? GUARANTEED_DATAGRAM_BUDGET.

End sizes.

Inductive PacketSeqExhausted : Type := PacketSeqExhaustedError.

Inductive AckError : Type :=
| AckAheadOfSent (ack sent : Z)
| AckBitsWithoutAck
| AckBitsOutOfRange (ack ack_bits : Z).

(** ** The manager ([mod.rs]) *)

Definition SENT_PACKETS_SIZE : nat := 256.

Record AckManager : Type := mkAckManager {
  packet_seq : Z;
  sent_packets : SequenceBuffer SentPacket;
  unacked_payloads : list (key * SentPayload);
  unacked_payload_wire_len : option Z;
  received_packets : ReceivedPacketHistory;
  policy : RecarryPolicy;
  am_turns_complete : option Z;
}.

Definition with_policy (p : RecarryPolicy) : AckManager :=
  mkAckManager 0 (with_capacity SENT_PACKETS_SIZE) BTreeMap.empty (Some 0) default_history p None.

Definition new : AckManager := with_policy default_policy.

Definition set_turns_complete (a : AckManager) (count : option Z) : AckManager :=
  mkAckManager (packet_seq a) (sent_packets a) (unacked_payloads a) (unacked_payload_wire_len a)
    (received_packets a) (policy a) count.

(** A surviving payload starts the new connection uncovered. *)
Definition reset_coverage (p : SentPayload) : SentPayload :=
  mkSentPayload 0 None 0 (wire_len p) (payload p).

Definition reset_connection (a : AckManager) : AckManager :=
  mkAckManager 0 (with_capacity SENT_PACKETS_SIZE)
    (BTreeMap.map_values reset_coverage (unacked_payloads a)) (unacked_payload_wire_len a)
    default_history (policy a) (am_turns_complete a).

Definition last_seen_remote (a : AckManager) : option Z := most_recent (received_packets a).
Definition payloads_in_flight (a : AckManager) : nat := length (unacked_payloads a).
Definition next_packet_seq (a : AckManager) : Z := packet_seq a.
Definition upstream_lost_packets (a : AckManager) : Z := lost (received_packets a).

(** The unacked sequence numbers of one slot, ascending: the [range] of the
    map over that slot. *)
Definition slot_seqs (a : AckManager) (s : Z) : list Z :=
  map (fun e => e.1.2) (BTreeMap.retain (fun k => k.1 = s) (unacked_payloads a)).

Definition oldest_replayable_seq (a : AckManager) (s : Z) : option Z := head (slot_seqs a s).

(** The descending walk below [front], stopping at the first hole. *)
Fixpoint anchor_walk (anchor : Z) (descending : list Z) : Z :=
  match descending with
  | [] => anchor
  | q :: rest => if q + 1 =? anchor then anchor_walk q rest else anchor
  end.

Definition contiguous_replayable_anchor (a : AckManager) (s front : Z) : Z :=
  anchor_walk front (reverse (filter (fun q => q < front) (slot_seqs a s))).

(** The complete wire cost of the window, refreshing an invalidated cache. *)
Definition window_wire_len (a : AckManager) : Z * AckManager :=
  match unacked_payload_wire_len a with
  | Some total => (total, a)
  | None =>
      let total := foldl (fun t p => saturating_add usize_max t (wire_len p)) 0
                     (BTreeMap.values (unacked_payloads a)) in
      (total, mkAckManager (packet_seq a) (sent_packets a) (unacked_payloads a) (Some total)
                (received_packets a) (policy a) (am_turns_complete a))
  end.

Definition set_unacked (a : AckManager) (m : list (key * SentPayload)) (total : option Z) :
  AckManager :=
  mkAckManager (packet_seq a) (sent_packets a) m total
    (received_packets a) (policy a) (am_turns_complete a).

(** ** Receive half ([recv.rs]) *)

Definition remove_unacked (a : AckManager) (k : key) : AckManager :=
  match BTreeMap.get (unacked_payloads a) k with
  | None => a
  | Some removed =>
      set_unacked a (BTreeMap.remove k (unacked_payloads a))
        ((fun total => saturating_sub total (wire_len removed)) <$> unacked_payload_wire_len a)
  end.

Definition set_sent (a : AckManager) (b : SequenceBuffer SentPacket) : AckManager :=
  mkAckManager (packet_seq a) b (unacked_payloads a) (unacked_payload_wire_len a)
    (received_packets a) (policy a) (am_turns_complete a).

Definition retire_packet (a : AckManager) (q : Z) : option AckManager :=
  r ← SequenceBuffer.remove (sent_packets a) q;
  let a' := set_sent a r.2 in
  mret match r.1 with
       | Some packet => foldl remove_unacked a' (payload_slots_seqs packet)
       | None => a'
       end.

(** [for i in 1..=32], [n] rounds left, [bits] already shifted. *)
Fixpoint retire_bits (a : AckManager) (ack bits i : Z) (n : nat) : option AckManager :=
  match n with
  | O => mret a
  | S n =>
      if ack <? i then mret a
      else
        a' ← (if Z.land bits 1 =? 1 then retire_packet a (ack - i) else mret a);
        retire_bits a' ack (Z.shiftr bits 1) (i + 1) n
  end.

Definition record_received (a : AckManager) (q : Z) : AckManager :=
  mkAckManager (packet_seq a) (sent_packets a) (unacked_payloads a) (unacked_payload_wire_len a)
    (History.record (received_packets a) q) (policy a) (am_turns_complete a).

(** The consistency checks a peer packet must pass before it is folded in. *)
Definition check_acks (a : AckManager) (incoming : Packet) : result unit AckError :=
  match ack incoming with
  | Some k =>
      if packet_seq a <=? k then Err (AckAheadOfSent k (packet_seq a))
      else if (k <? 32) && negb (Z.shiftr (ack_bits incoming) k =? 0)
      then Err (AckBitsOutOfRange k (ack_bits incoming))
      else Ok tt
  | None => if negb (ack_bits incoming =? 0) then Err AckBitsWithoutAck else Ok tt
  end.

Definition handle_incoming (a : AckManager) (incoming : Packet) :
  option (result unit AckError * AckManager) :=
  match check_acks a incoming with
  | Err e => mret (Err e, a)
  | Ok _ =>
      let a1 := record_received a (packet_seq_of incoming) in
      match ack incoming with
      | None => mret (Ok tt, a1)
      | Some k =>
          a2 ← retire_packet a1 k;
          a3 ← retire_bits a2 k (ack_bits incoming) 1 32;
          mret (Ok tt, a3)
      end
  end.

Definition retire_payloads_through (a : AckManager) (s through : Z) : nat * AckManager :=
  let kept := BTreeMap.retain (fun k => k.1 <> s \/ through < k.2) (unacked_payloads a) in
  let retired := (length (unacked_payloads a) - length kept)%nat in
  (retired,
   set_unacked a kept (if (0 <? retired)%nat then None else unacked_payload_wire_len a)).

(** ** Send half ([send.rs]) *)

Definition insert_unacked (a : AckManager) (k : key) (sent : SentPayload) : AckManager :=
  let t1 :=
    match BTreeMap.get (unacked_payloads a) k with
    | Some previous =>
        (fun total => saturating_sub total (wire_len previous)) <$> unacked_payload_wire_len a
    | None => unacked_payload_wire_len a
    end in
  set_unacked a (BTreeMap.insert k sent (unacked_payloads a))
    ((fun total => saturating_add usize_max total (wire_len sent)) <$> t1).

(** Stable sort by descending waiting age ([sort_by_key] on [Reverse]). *)
Fixpoint insert_by_age (b : Z) (x : SentPayload) (l : list SentPayload) : list SentPayload :=
  match l with
  | [] => [x]
  | y :: l' => if waiting_age y b <=? waiting_age x b then x :: l else y :: insert_by_age b x l'
  end.

Definition sort_by_age (b : Z) (l : list SentPayload) : list SentPayload :=
  foldr (insert_by_age b) [] l.

(** The constrained refill: the first candidate is bounded by the datagram
    alone and blocks the packet when it does not fit; later ones are bounded
    by the redundancy cap and skipped when they do not fit. *)
Fixpoint pack_constrained (max_packet_len redundancy_cap used : Z) (packed : bool)
  (candidates : list SentPayload) : list Payload :=
  match candidates with
  | [] => []
  | c :: rest =>
      if negb packed then
        if max_packet_len <? used + wire_len c then []
        else payload c :: pack_constrained max_packet_len redundancy_cap (used + wire_len c) true rest
      else if redundancy_cap <? used + wire_len c
      then pack_constrained max_packet_len redundancy_cap used packed rest
      else payload c :: pack_constrained max_packet_len redundancy_cap (used + wire_len c) true rest
  end.

Section send.
Context `{!Prost}.

(** The redundant payloads a packet carries after [used] bytes are spent. *)
Definition redundancy (window : list SentPayload) (window_len : Z) (pol : RecarryPolicy)
  (has_fresh : bool) (building_seq max_packet_len used : Z) : list Payload :=
  let redundancy_cap :=
    match redundancy_byte_budget pol with
    | Some budget => Z.min max_packet_len (saturating_add usize_max used budget)
    | None => max_packet_len
    end in
  let sp := if has_fresh then spacing pol else None in
  let fits (len : Z) : bool :=
    match checked_sub redundancy_cap used with
    | Some remaining => len <=? remaining
    | None => false
    end in
  if (match sp with None => true | Some _ => false end) && fits window_len
  then map payload window
  else
    let due := filter (fun p => is_due p sp building_seq = true) window in
    if fits (sumz wire_len due)
    then map payload due
    else pack_constrained max_packet_len redundancy_cap used false (sort_by_age building_seq due).

(** The fresh payload, refused when its slot does not fit a [SlotId]. *)
Definition fresh_of (p : option Payload) : option (Z * Payload) :=
  p ← p; raw ← u8_try_from (slot p); mret (raw, p).

Definition build_outgoing (a : AckManager) (p : option Payload) (max_packet_len : Z) :
  result Packet PacketSeqExhausted * AckManager :=
  match checked_add u32_max (packet_seq a) 1 with
  | None => (Err PacketSeqExhaustedError, a)
  | Some advanced =>
      let head := mkPacket (packet_seq a) (last_seen_remote a) (rh_ack_bits (received_packets a))
                    [] (am_turns_complete a) in
      let a1 := mkAckManager advanced (sent_packets a) (unacked_payloads a)
                  (unacked_payload_wire_len a) (received_packets a) (policy a)
                  (am_turns_complete a) in
      let fresh := fresh_of p in
      let used := packet_encoded_len head +
                  match fresh with Some f => element_len f.2 | None => 0 end in
      let '(window_len, a2) := window_wire_len a1 in
      let red := redundancy (BTreeMap.values (unacked_payloads a2)) window_len (policy a2)
                   (match fresh with Some _ => true | None => false end)
                   (packet_seq a) max_packet_len used in
      let packet := with_payloads head
                      (match fresh with Some f => [f.2] | None => [] end ++ red) in
      let a3 :=
        match fresh with
        | Some f =>
            insert_unacked a2 (f.1, seq f.2)
              (mkSentPayload 0 None (packet_seq a) (element_len f.2) f.2)
        | None => a2
        end in
      (Ok packet, a3)
  end.

(** One carried payload: its coverage advances and its key is remembered. *)
Definition credit_carry (q : Z) (st : list (key * SentPayload) * list key) (p : Payload) :
  list (key * SentPayload) * list key :=
  match u8_try_from (slot p) with
  | None => st
  | Some raw =>
      let k := (raw, seq p) in
      (BTreeMap.update k
         (fun s => mkSentPayload ((send_count s + 1) mod 2 ^ 32) (Some q)
                     (registered_at_packet_seq s) (wire_len s) (payload s)) st.1,
       st.2 ++ [k])
  end.

Definition record_sent (a : AckManager) (p : Packet) : option AckManager :=
  let '(m, keys) := foldl (credit_carry (packet_seq_of p)) (unacked_payloads a, []) (payloads p) in
  r ← SequenceBuffer.insert (sent_packets a) (packet_seq_of p) (mkSentPacket keys);
  mret (set_unacked (set_sent a r.2) m (unacked_payload_wire_len a)).

Definition reinject_unacked (a : AckManager) (p : Payload) : AckManager :=
  match u8_try_from (slot p) with
  | None => a
  | Some raw =>
      let k := (raw, seq p) in
      match BTreeMap.get (unacked_payloads a) k with
      | Some _ => a
      | None => insert_unacked a k (mkSentPayload 0 None (packet_seq a) (element_len p) p)
      end
  end.

End send.
