(* ===== verification/AckInvariant.v ===== *)
(** * The ack manager's invariant

    What holds of an [AckManager] in every state its driver can reach: the
    unacked map is ordered and keyed by origin identity, the cached aggregate
    wire size is exact, the ring of sent packets is well formed and never
    ahead of the packet counter, and the receive history represents a set.
    Each operation preserves it and never panics. *)

From Stdlib Require Import ZArith Lia.
From stdpp Require Import gmap sorting list.
From S2P Require Import Prelude BTree SequenceBuffer Wire History AckManager.

Open Scope Z_scope.

Section invariant.
Context `{!Prost, !ProstLaws}.
Implicit Types (a : AckManager) (p : Payload) (k : key).

(** Payload fields the wire types can hold. *)
Definition wire_payload p : Prop := is_u32 (slot p) /\ is_u64 (seq p).

Definition window a : list SentPayload := BTreeMap.values (unacked_payloads a).
Definition window_bytes a : Z := sumz wire_len (window a).

(** An unacked entry: keyed by its payload's identity, with its exact size. *)
Definition entry_ok k (sp : SentPayload) : Prop :=
  k = origin (payload sp) /\ is_u8 k.1 /\ is_u64 k.2 /\ wire_len sp = element_len (payload sp).

Record inv a : Prop := {
  inv_wf : BTreeMap.wf (unacked_payloads a);
  inv_entries : forall k sp, BTreeMap.get (unacked_payloads a) k = Some sp -> entry_ok k sp;
  inv_cache : forall t, unacked_payload_wire_len a = Some t -> t = window_bytes a;
  inv_small : window_bytes a <= usize_max;
  inv_seq : is_u32 (packet_seq a);
  inv_ring : SequenceBuffer.wf SENT_PACKETS_SIZE (sent_packets a);
  inv_ring_next : sequence (sent_packets a) <= packet_seq a;
  inv_hist : exists o, tracks (received_packets a) o;
  inv_turns : forall c, am_turns_complete a = Some c -> is_u64 c;
}.

Lemma element_len_pos p : 0 < element_len p.
Proof.
  unfold element_len, payload_element_len. pose proof (payload_encoded_len_nonneg p).
  pose proof (encoded_len_varint_pos (payload_encoded_len p)). lia.
Qed.

Lemma window_elem a sp : inv a -> sp ∈ window a ->
  exists k, BTreeMap.get (unacked_payloads a) k = Some sp /\ entry_ok k sp.
Proof.
  intros Ha (k & Hk)%BTreeMap.elem_of_values. exists k.
  assert (BTreeMap.get (unacked_payloads a) k = Some sp)
    by (apply BTreeMap.get_elem_of; [apply Ha|done]).
  split; [done|]. by apply (inv_entries _ Ha).
Qed.

Lemma window_elem_pos a sp : inv a -> sp ∈ window a -> 0 < wire_len sp.
Proof.
  intros Ha (k & _ & _ & _ & _ & ->)%window_elem; [|done]. apply element_len_pos.
Qed.

Lemma window_bytes_nonneg a : inv a -> 0 <= window_bytes a.
Proof. intros Ha. apply sumz_nonneg. intros sp Hsp%window_elem_pos; [lia|done]. Qed.

Lemma packet_seq_is_seq s : is_u32 s -> is_seq s /\ is_seq (s + 1).
Proof. unfold is_u32, u32_max, is_seq, SIGN_BIT. lia. Qed.

(** *** Inserting and removing one entry *)

Lemma inv_set_unacked a m t : inv a -> BTreeMap.wf m ->
  (forall k sp, BTreeMap.get m k = Some sp -> entry_ok k sp) ->
  (forall t', t = Some t' -> t' = sumz wire_len (BTreeMap.values m)) ->
  sumz wire_len (BTreeMap.values m) <= usize_max ->
  inv (set_unacked a m t).
Proof. intros [] ????. by split. Qed.

Lemma get_wire_len_le a k sp : inv a -> BTreeMap.get (unacked_payloads a) k = Some sp ->
  0 < wire_len sp <= window_bytes a.
Proof.
  intros Ha Hk. assert (Hin : sp ∈ window a).
  { apply BTreeMap.elem_of_values. exists k. by apply BTreeMap.elem_of_get. }
  split; [by apply (window_elem_pos a)|]. apply sumz_elem_le; [|done].
  intros y Hy%window_elem_pos; [lia|done].
Qed.

Lemma inv_remove_unacked a k : inv a -> inv (remove_unacked a k).
Proof.
  intros Ha. unfold remove_unacked.
  destruct (BTreeMap.get (unacked_payloads a) k) as [sp|] eqn:Hk; [|done].
  pose proof (get_wire_len_le a k sp Ha Hk). pose proof (inv_small _ Ha).
  pose proof (BTreeMap.sumz_remove wire_len k _ (inv_wf _ Ha)) as Hsum. rewrite Hk in Hsum.
  fold (window a) in Hsum. fold (window_bytes a) in Hsum.
  apply inv_set_unacked; [done|by apply BTreeMap.wf_remove, Ha| | |lia].
  - intros k' sp'. rewrite BTreeMap.get_remove. case_decide; [done|]. apply Ha.
  - intros t'. destruct (unacked_payload_wire_len a) as [t|] eqn:Ht; [|done]. cbn.
    intros [= <-]. apply (inv_cache _ Ha) in Ht. width_lia.
Qed.

Lemma inv_insert_unacked a k sp : inv a -> entry_ok k sp ->
  window_bytes a + wire_len sp <= usize_max -> inv (insert_unacked a k sp).
Proof.
  intros Ha Hok Hroom. unfold insert_unacked.
  pose proof (BTreeMap.sumz_insert wire_len k sp _ (inv_wf _ Ha)) as Hsum.
  fold (window a) in Hsum. fold (window_bytes a) in Hsum.
  pose proof (window_bytes_nonneg a Ha).
  assert (0 < wire_len sp) by (destruct Hok as (_ & _ & _ & ->); apply element_len_pos).
  apply inv_set_unacked; [done|by apply BTreeMap.wf_insert, Ha| | |].
  - intros k' sp'. rewrite BTreeMap.get_insert. case_decide as Hkk; [subst; by intros [= <-]|]. apply Ha.
  - intros t'. rewrite Hsum. destruct (unacked_payload_wire_len a) as [t|] eqn:Ht;
      destruct (BTreeMap.get (unacked_payloads a) k) as [old|] eqn:Hk; cbn; try done;
      intros [= <-]; apply (inv_cache _ Ha) in Ht.
    + pose proof (get_wire_len_le a k old Ha Hk). width_lia.
    + width_lia.
  - rewrite Hsum. destruct (BTreeMap.get (unacked_payloads a) k) as [old|] eqn:Hk; [|lia].
    pose proof (get_wire_len_le a k old Ha Hk). lia.
Qed.

(** The refreshed aggregate is exact, and refreshing changes nothing else. *)
Lemma foldl_saturating l t : 0 <= t -> (forall sp, sp ∈ l -> 0 <= wire_len sp) ->
  t + sumz wire_len l <= usize_max ->
  foldl (fun t sp => saturating_add usize_max t (wire_len sp)) t l = t + sumz wire_len l.
Proof.
  revert t. induction l as [|sp l IH]; intros t Ht Hl Hsum; cbn in *; [lia|].
  assert (0 <= wire_len sp) by (apply Hl; left).
  assert (0 <= sumz wire_len l) by (apply sumz_nonneg; intros; apply Hl; by right).
  replace (saturating_add usize_max t (wire_len sp)) with (t + wire_len sp) by width_lia.
  rewrite IH; [lia|lia|intros; apply Hl; by right|lia].
Qed.

Lemma window_wire_len_spec a : inv a ->
  (window_wire_len a).1 = window_bytes a /\
  (window_wire_len a).2 = set_unacked a (unacked_payloads a) (Some (window_bytes a)).
Proof.
  intros Ha. unfold window_wire_len. destruct (unacked_payload_wire_len a) as [t|] eqn:Ht; cbn.
  - pose proof (inv_cache _ Ha _ Ht) as ->. split; [done|]. destruct a; cbn in *. by subst.
  - fold (window a). rewrite foldl_saturating; [|lia| |].
    + rewrite Z.add_0_l. done.
    + intros sp Hsp%window_elem_pos; [lia|done].
    + apply Ha.
Qed.

(** *** Construction, reset and configuration *)

Lemma inv_with_policy pol : inv (with_policy pol).
Proof.
  split; cbn; try done; try (unfold is_u32; done).
  - apply BTreeMap.wf_empty.
  - intros t [= <-]. done.
  - apply with_capacity_wf. unfold SENT_PACKETS_SIZE. lia.
  - by exists None.
Qed.

Lemma values_map_values f a :
  BTreeMap.values (BTreeMap.map_values f (unacked_payloads a)) = map f (window a).
Proof. unfold BTreeMap.values, BTreeMap.map_values, window, BTreeMap.values. by rewrite !map_map. Qed.

Lemma inv_reset_connection a : inv a -> inv (reset_connection a).
Proof.
  intros Ha. assert (Hb : window_bytes (reset_connection a) = window_bytes a).
  { unfold window_bytes.
    change (window (reset_connection a)) with
      (BTreeMap.values (BTreeMap.map_values reset_coverage (unacked_payloads a))).
    by rewrite values_map_values, sumz_map. }
  destruct Ha as [H1 H2 H3 H4 H5 H6 H7 H8 H9]. split; rewrite ?Hb; try done.
  - by apply BTreeMap.wf_map_values.
  - intros k sp. cbn [reset_connection unacked_payloads]. rewrite BTreeMap.get_map_values.
    destruct (BTreeMap.get (unacked_payloads a) k) as [sp0|] eqn:Hk; [|done].
    intros [= <-]. by apply H2 in Hk.
  - apply with_capacity_wf. unfold SENT_PACKETS_SIZE. lia.
  - by exists None.
Qed.

Lemma inv_set_turns_complete a c : inv a -> (forall x, c = Some x -> is_u64 x) ->
  inv (set_turns_complete a c).
Proof. intros []. by split. Qed.

(** *** The receive half *)

Lemma inv_set_sent a b : inv a -> SequenceBuffer.wf SENT_PACKETS_SIZE b ->
  sequence b <= packet_seq a -> inv (set_sent a b).
Proof. intros []. by split. Qed.

Lemma inv_foldl_remove a ks : inv a -> inv (foldl remove_unacked a ks).
Proof. revert a. induction ks; cbn; auto using inv_remove_unacked. Qed.

Lemma inv_record_received a q : inv a -> is_u32 q -> inv (record_received a q).
Proof.
  intros [? ? ? ? ? ? ? [o Ho] ?] Hq. split; try done. exists (spec_record o q).
  by apply tracks_record.
Qed.

End invariant.

#[export] Hint Resolve inv_remove_unacked inv_reset_connection inv_foldl_remove
  inv_record_received inv_with_policy : rust.
