(* ===== verification/AckRecv.v ===== *)
(** * Retirement ([recv.rs]): which payloads an ack or a cursor clears

    The receive half only ever shrinks the unacked window.  [retires a a' Q]
    says that [a'] is [a] with exactly the sent packets named by [Q] retired:
    the payloads they carried are gone, everything else is untouched. *)

From Stdlib Require Import ZArith Lia.
From stdpp Require Import gmap sorting list.
From S2P Require Import Prelude BTree SequenceBuffer Wire History AckManager AckInvariant.

Open Scope Z_scope.

Section recv.
Context `{!Prost, !ProstLaws}.
Implicit Types (a : AckManager) (k : key) (q : Z).

(** What the ring remembers of sent packet [q]. *)
Definition sent_view a q : option SentPacket := view SENT_PACKETS_SIZE (sent_packets a) q.

(** Sent packet [q], still remembered, carried payload [k]. *)
Definition carried a q k : Prop :=
  is_seq q /\ exists sp, sent_view a q = Some sp /\ k ∈ payload_slots_seqs sp.

Definition same_frame a a' : Prop :=
  packet_seq a' = packet_seq a /\ received_packets a' = received_packets a /\
  policy a' = policy a /\ am_turns_complete a' = am_turns_complete a.

Record retires a a' (Q : Z -> Prop) : Prop := {
  ret_inv : inv a';
  ret_frame : same_frame a a';
  ret_unacked : forall k sp, BTreeMap.get (unacked_payloads a') k = Some sp <->
    BTreeMap.get (unacked_payloads a) k = Some sp /\ ~ (exists q, Q q /\ carried a q k);
  ret_sent : forall q sp, is_seq q ->
    sent_view a' q = Some sp <-> sent_view a q = Some sp /\ ~ Q q;
}.

Lemma carried_retired a a' Q q k : retires a a' Q -> carried a' q k <-> carried a q k /\ ~ Q q.
Proof.
  intros Hr. unfold carried. split.
  - intros (Hq & sp & Hs & Hk). apply (ret_sent _ _ _ Hr) in Hs as [Hs HQ]; [|done]. eauto.
  - intros [(Hq & sp & Hs & Hk) HQ]. split; [done|]. exists sp. split; [|done].
    by apply (ret_sent _ _ _ Hr).
Qed.

Lemma retires_refl a : inv a -> retires a a (fun _ => False).
Proof. intros Ha. split; [done|by split_and!| |]; naive_solver. Qed.

Lemma retires_trans a1 a2 a3 Q1 Q2 : retires a1 a2 Q1 -> retires a2 a3 Q2 ->
  retires a1 a3 (fun q => Q1 q \/ Q2 q).
Proof.
  intros H1 H2. split.
  - apply H2.
  - destruct (ret_frame _ _ _ H1) as (?&?&?&?), (ret_frame _ _ _ H2) as (?&?&?&?).
    split_and!; congruence.
  - intros k sp. rewrite (ret_unacked _ _ _ H2), (ret_unacked _ _ _ H1).
    setoid_rewrite (carried_retired _ _ _ _ _ H1). naive_solver.
  - intros q sp Hq. rewrite (ret_sent _ _ _ H2), (ret_sent _ _ _ H1) by done. naive_solver.
Qed.

Lemma retires_iff a a' Q Q' : retires a a' Q -> (forall q, is_seq q -> Q q <-> Q' q) ->
  retires a a' Q'.
Proof.
  intros [H1 H2 H3 H4] HQ. split; try done.
  - intros k sp. rewrite H3. apply and_iff_compat_l. apply not_iff_compat.
    unfold carried. split; intros (q & Hq & Hs & ?); exists q; split; auto; by apply HQ.
  - intros q sp Hq. rewrite H4, HQ by done. done.
Qed.

Lemma get_foldl_remove a ks k :
  BTreeMap.get (unacked_payloads (foldl remove_unacked a ks)) k =
    if decide (k ∈ ks) then None else BTreeMap.get (unacked_payloads a) k.
Proof.
  revert a. induction ks as [|k0 ks IH]; intros a; cbn [foldl]; [by case_decide; [set_solver|]|].
  rewrite IH.
  assert (Hrem : BTreeMap.get (unacked_payloads (remove_unacked a k0)) k =
    if decide (k = k0) then None else BTreeMap.get (unacked_payloads a) k).
  { unfold remove_unacked. destruct (BTreeMap.get (unacked_payloads a) k0) eqn:Hk0; cbn.
    - apply BTreeMap.get_remove.
    - by destruct (decide (k = k0)) as [->|]. }
  rewrite Hrem. repeat case_decide; set_solver.
Qed.

Lemma frame_foldl_remove a ks :
  same_frame a (foldl remove_unacked a ks) /\
  sent_packets (foldl remove_unacked a ks) = sent_packets a.
Proof.
  revert a. induction ks as [|k0 ks IH]; intros a; cbn; [done|].
  destruct (IH (remove_unacked a k0)) as [(?&?&?&?) ?].
  unfold remove_unacked in *. destruct (BTreeMap.get _ k0); cbn in *; by split_and!.
Qed.

Lemma retire_packet_spec a q : inv a -> is_seq q ->
  exists a', retire_packet a q = Some a' /\ retires a a' (fun q' => q' = q).
Proof.
  intros Ha Hq. unfold retire_packet.
  destruct (remove_wf SENT_PACKETS_SIZE (sent_packets a) q) as (b & -> & Hwf & Hn & Hv);
    [apply Ha|done|]. cbn.
  assert (Hi : inv (set_sent a b)).
  { apply inv_set_sent; [done|done|]. rewrite Hn. apply Ha. }
  fold (sent_view a q). destruct (sent_view a q) as [sp|] eqn:Hs; eexists; (split; [done|]).
  - destruct (frame_foldl_remove (set_sent a b) (payload_slots_seqs sp)) as [Hf Hsent].
    split.
    + by apply inv_foldl_remove.
    + done.
    + intros k e. rewrite get_foldl_remove. cbn. case_decide as Hk.
      * split; [done|]. intros [_ Hno]. destruct Hno. exists q. split; [done|].
        split; [done|]. eauto.
      * split; [|by intros [? _]]. intros He. split; [done|].
        intros (q' & -> & _ & sp' & Hs' & Hk'). by simplify_eq.
    + intros q' e Hq'. unfold sent_view. rewrite Hsent. cbn. rewrite Hv by done.
      case_decide; subst; naive_solver.
  - split; [done|by split_and!| |].
    + intros k e. cbn. split; [|by intros [? _]]. intros He. split; [done|].
      intros (q' & -> & _ & sp' & Hs' & Hk'). by simplify_eq.
    + intros q' e Hq'. unfold sent_view. cbn. rewrite Hv by done.
      case_decide; subst; naive_solver.
Qed.

(** The numbers the shifted bit field names from round [i] on. *)
Definition bit_acked (c bits i : Z) (n : nat) q : Prop :=
  exists j, i <= j < i + Z.of_nat n /\ j <= c /\ Z.testbit bits (j - i) = true /\ q = c - j.

Lemma retire_bits_spec a c bits i n : inv a -> is_seq c -> 1 <= i ->
  exists a', retire_bits a c bits i n = Some a' /\ retires a a' (bit_acked c bits i n).
Proof.
  intros Ha Hc0. revert a bits i Ha. induction n as [|n IH]; intros a bits i Ha Hi.
  { exists a. split; [done|]. eapply retires_iff; [by apply retires_refl|].
    intros q _. unfold bit_acked. split; [done|]. intros (j & ? & _). lia. }
  cbn [retire_bits]. destruct (Z.ltb_spec c i).
  { exists a. split; [done|]. eapply retires_iff; [by apply retires_refl|].
    intros q _. unfold bit_acked. split; [done|]. intros (j & ? & ? & _). lia. }
  assert (Hbit : (Z.land bits 1 =? 1) = Z.testbit bits 0).
  { change (Z.land bits 1) with (Z.land bits (Z.ones 1)).
    rewrite Z.land_ones, Z.pow_1_r, <- Z.bit0_mod by lia. by destruct (Z.testbit bits 0). }
  rewrite Hbit.
  assert (Hfirst : exists a1, (if Z.testbit bits 0 then retire_packet a (c - i) else Some a) = Some a1 /\
    retires a a1 (fun q => Z.testbit bits 0 = true /\ q = c - i)).
  { destruct (Z.testbit bits 0).
    - destruct (retire_packet_spec a (c - i)) as (a1 & -> & Hr); [done|unfold is_seq in *; lia|].
      exists a1. split; [done|]. eapply retires_iff; [done|]. naive_solver.
    - exists a. split; [done|]. eapply retires_iff; [by apply retires_refl|]. naive_solver. }
  destruct Hfirst as (a1 & Hfirst & Hr1).
  change (mret a) with (Some a). rewrite Hfirst. cbn [mbind option_bind].
  destruct (IH a1 (Z.shiftr bits 1) (i + 1)) as (a2 & -> & Hr2); [apply Hr1|lia|].
  exists a2. split; [done|]. eapply retires_iff; [by eapply retires_trans|].
  intros q _. unfold bit_acked. split.
  - intros [[Hb ->]|(j & Hj & Hjc & Hb & ->)].
    + exists i. rewrite Z.sub_diag. split_and!; try done; lia.
    + exists j. rewrite Z.shiftr_spec in Hb by lia.
      replace (j - (i + 1) + 1) with (j - i) in Hb by lia. split_and!; try done; lia.
  - intros (j & Hj & Hjc & Hb & ->). destruct (decide (j = i)) as [->|].
    + left. by rewrite Z.sub_diag in Hb.
    + right. exists j. rewrite Z.shiftr_spec by lia.
      replace (j - (i + 1) + 1) with (j - i) by lia. split_and!; try done; lia.
Qed.

(** The packet numbers an incoming packet acknowledges: [ack], and
    [ack - (n + 1)] for each set bit [n]. *)
Definition acknowledges (incoming : Packet) q : Prop :=
  exists c, ack incoming = Some c /\
    (q = c \/ exists n, 0 <= n < 32 /\ Z.testbit (ack_bits incoming) n = true /\
                        q = c - (n + 1) /\ 0 <= q).

Lemma handle_incoming_ok a incoming : inv a -> wire_header incoming ->
  check_acks a incoming = Ok tt ->
  exists a', handle_incoming a incoming = Some (Ok tt, a') /\
    retires (record_received a (packet_seq_of incoming)) a' (acknowledges incoming).
Proof.
  intros Ha (Hs & Hc0 & _ & _) Hc. unfold handle_incoming. rewrite Hc.
  pose proof (inv_record_received a _ Ha Hs) as Hr0. set (a1 := record_received a _) in *.
  unfold acknowledges. destruct (ack incoming) as [c|] eqn:Hack.
  - specialize (Hc0 c eq_refl). destruct (packet_seq_is_seq c Hc0) as [Hcs _].
    destruct (retire_packet_spec a1 c Hr0 Hcs) as (a2 & -> & Hr1). cbn [mbind option_bind].
    destruct (retire_bits_spec a2 c (ack_bits incoming) 1 32) as (a3 & -> & Hr2);
      [apply Hr1|done|lia|].
    cbn [mbind option_bind]. exists a3. split; [done|].
    eapply retires_iff; [by eapply retires_trans|]. intros q Hq. unfold bit_acked. split.
    + intros [->|(j & Hj & Hjc & Hb & ->)]; exists c; (split; [done|]); [by left|right].
      exists (j - 1). split_and!; try done; lia.
    + intros (c' & [= <-] & [->|(n & Hn & Hb & -> & Hq0)]); [by left|right].
      exists (n + 1). replace (n + 1 - 1) with n by lia. split_and!; try done; lia.
  - exists a1. split; [done|]. eapply retires_iff; [by apply retires_refl|]. naive_solver.
Qed.

Lemma handle_incoming_err a incoming e : check_acks a incoming = Err e ->
  handle_incoming a incoming = Some (Err e, a).
Proof. intros Hc. unfold handle_incoming. by rewrite Hc. Qed.

(** *** The cumulative cursor *)

Lemma get_retire_through a s through k :
  BTreeMap.get (unacked_payloads (retire_payloads_through a s through).2) k =
    if decide (k.1 <> s \/ through < k.2) then BTreeMap.get (unacked_payloads a) k else None.
Proof. unfold retire_payloads_through. cbn [snd unacked_payloads set_unacked]. by rewrite BTreeMap.get_retain. Qed.

Lemma retain_same_length {V} (P : key -> Prop) `{!forall k, Decision (P k)}
  (m : list (key * V)) :
  length (BTreeMap.retain P m) = length m -> BTreeMap.retain P m = m.
Proof.
  unfold BTreeMap.retain. induction m as [|e m IH]; [done|].
  rewrite filter_cons. case_decide; cbn; intros Hl; [by rewrite IH by lia|].
  pose proof (length_filter (fun e => P e.1) m). lia.
Qed.

Lemma inv_retire_through a s through : inv a -> inv (retire_payloads_through a s through).2.
Proof.
  intros Ha. unfold retire_payloads_through. cbn [snd].
  set (P := fun k : key => k.1 <> s \/ through < k.2).
  set (kept := BTreeMap.retain P (unacked_payloads a)).
  assert (Hsum : sumz wire_len (BTreeMap.values kept) <= window_bytes a).
  { unfold kept, BTreeMap.retain, BTreeMap.values, window_bytes, window, BTreeMap.values.
    rewrite !sumz_map. apply sumz_filter_le. intros [k sp] Hin. cbn.
    assert (sp ∈ window a) by (apply BTreeMap.elem_of_values; eauto).
    pose proof (window_elem_pos a sp Ha). naive_solver lia. }
  apply inv_set_unacked; [done|by apply BTreeMap.wf_retain, Ha| | |].
  - intros k sp. unfold kept. rewrite BTreeMap.get_retain. case_decide; [apply Ha|done].
  - intros t. destruct (Nat.ltb_spec 0 (length (unacked_payloads a) - length kept)); [done|].
    intros Ht. apply (inv_cache _ Ha) in Ht. rewrite Ht. unfold kept.
    pose proof (length_filter (fun e => P e.1) (unacked_payloads a)) as Hle.
    rewrite (retain_same_length P); [done|]. unfold kept, BTreeMap.retain in *. lia.
  - pose proof (inv_small _ Ha). lia.
Qed.

(** *** Consistency of a peer packet's acks *)

(** The acks a peer may legally send: about packets we sent, and no bit
    without an [ack] or before packet 0. *)
Definition consistent_acks a (incoming : Packet) : Prop :=
  match ack incoming with
  | Some c => c < packet_seq a /\
      forall n, 0 <= n -> Z.testbit (ack_bits incoming) n = true -> n < c
  | None => ack_bits incoming = 0
  end.

Lemma shiftr_zero_bits b c : 0 <= b -> 0 <= c ->
  Z.shiftr b c = 0 <-> forall n, 0 <= n -> Z.testbit b n = true -> n < c.
Proof.
  intros Hb Hc. split.
  - intros Hz n Hn Hbit. destruct (Z.le_gt_cases c n); [|done].
    assert (Z.testbit (Z.shiftr b c) (n - c) = true) as Ht.
    { rewrite Z.shiftr_spec by lia. by replace (n - c + c) with n by lia. }
    by rewrite Hz, Z.bits_0 in Ht.
  - intros Hlt. apply Z.bits_inj'. intros n Hn. rewrite Z.shiftr_spec, Z.bits_0 by lia.
    destruct (Z.testbit b (n + c)) eqn:Hbit; [|done]. apply Hlt in Hbit; lia.
Qed.

Lemma check_acks_spec a incoming : wire_header incoming ->
  check_acks a incoming = Ok tt <-> consistent_acks a incoming.
Proof.
  intros (_ & Hk & Hb & _). unfold check_acks, consistent_acks.
  destruct (ack incoming) as [c|] eqn:Hack.
  - specialize (Hk c eq_refl). destruct (Z.leb_spec (packet_seq a) c); [split; [done|lia]|].
    unfold is_u32 in *. pose proof (shiftr_zero_bits (ack_bits incoming) c) as Hsh.
    destruct (Z.ltb_spec c 32); cbn [andb].
    + destruct (Z.eqb_spec (Z.shiftr (ack_bits incoming) c) 0); cbn [negb]; naive_solver lia.
    + split; [|done]. intros _. split; [done|]. intros n Hn Hbit.
      destruct (Z.le_gt_cases 32 n); [|lia].
      assert (Z.testbit (ack_bits incoming) n = false); [|congruence].
      apply (Z.bounded_iff_bits_nonneg 32); width_lia.
  - destruct (Z.eqb_spec (ack_bits incoming) 0); cbn [negb]; naive_solver.
Qed.

(** *** The re-home anchor *)

Lemma elem_of_slot_seqs a s q : inv a ->
  q ∈ slot_seqs a s <-> is_Some (BTreeMap.get (unacked_payloads a) (s, q)).
Proof.
  intros Ha. unfold slot_seqs, BTreeMap.retain. rewrite list_elem_of_fmap. split.
  - intros ([[s' q'] sp] & Hq & [Hs Hin]%list_elem_of_filter). cbn in *; subst.
    exists sp. apply BTreeMap.get_elem_of; [apply Ha|done].
  - intros [sp Hg%BTreeMap.elem_of_get]. exists ((s, q), sp). split; [done|].
    by apply list_elem_of_filter.
Qed.

Lemma slot_seqs_sorted a s : inv a -> StronglySorted Z.lt (slot_seqs a s).
Proof.
  intros Ha. unfold slot_seqs. pose proof (BTreeMap.wf_retain (fun k => k.1 = s) _ (inv_wf _ Ha)) as Hwf.
  assert (Hs : Forall (fun e => e.1.1 = s) (BTreeMap.retain (fun k => k.1 = s) (unacked_payloads a))).
  { apply Forall_forall. intros e [He _]%list_elem_of_filter. done. }
  revert Hs. unfold BTreeMap.wf in Hwf. induction Hwf as [|e m Hwf IH Hall]; intros Hs; cbn; [constructor|].
  apply Forall_cons in Hs as [He Hs]. constructor; [auto|]. apply Forall_fmap.
  apply Forall_forall. intros e' He'. rewrite Forall_forall in Hall, Hs. specialize (Hall _ He').
  specialize (Hs _ He'). cbn in *. unfold klt, pair_ord, klt, Z_ord in Hall. lia.
Qed.

Lemma anchor_walk_spec anchor l :
  StronglySorted (fun x y => y < x) l -> (forall q, q ∈ l -> q < anchor) ->
  anchor_walk anchor l <= anchor /\
  (forall q, anchor_walk anchor l <= q < anchor -> q ∈ l) /\ anchor_walk anchor l - 1 ∉ l.
Proof.
  intros Hs. revert anchor. induction Hs as [|x l Hs IH Hall]; intros anchor Hlt; cbn.
  { split_and!; [lia|lia|set_solver]. }
  rewrite Forall_forall in Hall. assert (x < anchor) by (apply Hlt; left).
  destruct (Z.eqb_spec (x + 1) anchor).
  - destruct (IH x) as (Hle & Hsub & Hno); [done|]. split_and!; [lia| |].
    + intros q Hq. destruct (decide (q = x)) as [->|]; [left|right; apply Hsub; lia].
    + rewrite elem_of_cons. intros [Heq|Hin]; [lia|done].
  - split_and!; [lia|lia|]. rewrite elem_of_cons. intros [Heq|Hin]; [lia|].
    apply Hall in Hin. lia.
Qed.

Lemma StronglySorted_rev (R : relation Z) l :
  StronglySorted R l -> StronglySorted (flip R) (reverse l).
Proof.
  induction 1 as [|x l Hs IH Hall]; [constructor|]. rewrite reverse_cons.
  apply StronglySorted_app_2; [|done|].
  - rewrite Forall_forall in Hall. intros y z Hy Hz.
    apply list_elem_of_singleton in Hz as ->. apply Hall.
    by rewrite elem_of_reverse in Hy.
  - repeat constructor.
Qed.

End recv.

(** ** Properties *)

(** Folding in a peer packet never panics.  A packet whose acks are
    inconsistent (an unsent packet, bits before packet 0, bits without an
    ack) is refused with the state untouched; a consistent one retires
    exactly the payloads carried by the packets it acknowledges. *)
Theorem handle_incoming_exact `{!Prost, !ProstLaws} (a : AckManager) (incoming : Packet) :
  inv a -> wire_header incoming ->
  exists r a', handle_incoming a incoming = Some (r, a') /\ inv a' /\
    match r with
    | Err _ => ~ consistent_acks a incoming /\ a' = a
    | Ok _ => consistent_acks a incoming /\
        forall k sp, BTreeMap.get (unacked_payloads a') k = Some sp <->
          BTreeMap.get (unacked_payloads a) k = Some sp /\
          ~ exists q, acknowledges incoming q /\ carried a q k
    end.
Proof.
  intros Ha Hw. pose proof (check_acks_spec a incoming Hw) as Hc.
  destruct (check_acks a incoming) as [[]|e] eqn:Hch.
  - destruct (handle_incoming_ok a incoming Ha Hw Hch) as (a' & -> & Hr).
    exists (Ok tt), a'. split; [done|]. split; [apply Hr|]. split; [by apply Hc|].
    apply (ret_unacked _ _ _ Hr).
  - rewrite (handle_incoming_err _ _ _ Hch). exists (Err e), a. naive_solver.
Qed.

Lemma contiguous_anchor_spec `{!Prost, !ProstLaws} (a : AckManager) (s front : Z) :
  inv a ->
  let r := contiguous_replayable_anchor a s front in
  r <= front /\
  (forall q, r <= q < front -> is_Some (BTreeMap.get (unacked_payloads a) (s, q))) /\
  BTreeMap.get (unacked_payloads a) (s, r - 1) = None.
Proof.
  intros Ha. unfold contiguous_replayable_anchor.
  set (l := filter (fun q => q < front) (slot_seqs a s)).
  assert (Hin : forall q, q ∈ reverse l <-> q < front /\ is_Some (BTreeMap.get (unacked_payloads a) (s, q))).
  { intros q. rewrite elem_of_reverse. unfold l.
    by rewrite list_elem_of_filter, (elem_of_slot_seqs a) by done. }
  destruct (anchor_walk_spec front (reverse l)) as (Hle & Hsub & Hno).
  - apply (StronglySorted_rev Z.lt), StronglySorted_filter. by apply slot_seqs_sorted.
  - intros q [Hq _]%Hin. done.
  - cbv zeta. split_and!; [done| |].
    + intros q Hq. by apply (Hin q), Hsub.
    + rewrite Hin in Hno. apply eq_None_not_Some. intros Hs. apply Hno. split; [lia|done].
Qed.

(** The beacon cursor retires exactly one slot's payloads up to it, and
    returns how many it dropped. *)
Theorem retire_through_exact `{!Prost, !ProstLaws} (a : AckManager) (s through : Z) :
  inv a ->
  let '(n, a') := retire_payloads_through a s through in
  inv a' /\ length (unacked_payloads a) = (n + length (unacked_payloads a'))%nat /\
  forall k sp, BTreeMap.get (unacked_payloads a') k = Some sp <->
    BTreeMap.get (unacked_payloads a) k = Some sp /\ ~ (k.1 = s /\ k.2 <= through).
Proof.
  intros Ha. pose proof (inv_retire_through a s through Ha) as Hinv.
  pose proof (get_retire_through a s through) as Hget.
  destruct (retire_payloads_through a s through) as [n a'] eqn:Hr. cbn [snd] in *.
  split; [done|]. split.
  - unfold retire_payloads_through in Hr. injection Hr as <- <-.
    cbn [unacked_payloads set_unacked]. unfold BTreeMap.retain.
    match goal with |- context [filter ?P ?m] => pose proof (length_filter P m) end. lia.
  - intros k sp. rewrite Hget. case_decide as Hd.
    + split; [|by intros []]. intros Hs. split; [done|]. destruct Hd; [tauto|lia].
    + split; [done|]. intros [_ Hno]. destruct Hno. split; [|lia]. destruct (decide (k.1 = s)); tauto.
Qed.

(** The re-home anchor descends from the retention front exactly through
    the contiguous unacked run: everything from the anchor up to the front is
    still replayable and the number just below the anchor is not. *)
Theorem contiguous_anchor_exact `{!Prost, !ProstLaws} (a : AckManager) (s front : Z) :
  inv a ->
  let r := contiguous_replayable_anchor a s front in
  r <= front /\
  (forall q, r <= q < front -> is_Some (BTreeMap.get (unacked_payloads a) (s, q))) /\
  BTreeMap.get (unacked_payloads a) (s, r - 1) = None.
Proof. apply contiguous_anchor_spec. Qed.
