(* ===== verification/AckSend.v ===== *)
(** * Packing ([send.rs]): what an outgoing packet carries

    [picks] is [redundancy] before the payloads are extracted: the entries of
    the unacked window a packet re-carries.  The lemmas bound their size,
    relate them to the window and show that the longest-waiting entry is
    served whenever it fits. *)

From Stdlib Require Import ZArith Lia.
From stdpp Require Import gmap sorting list.
From S2P Require Import Prelude BTree SequenceBuffer Wire History AckManager AckInvariant AckRecv.

Open Scope Z_scope.

(** ** The stable sort by waiting age *)

Section sort.
Implicit Types (x y : SentPayload) (l : list SentPayload).

Lemma insert_by_age_perm b x l : insert_by_age b x l ≡ₚ x :: l.
Proof.
  induction l as [|y l IH]; cbn; [done|]. destruct (_ <=? _); [done|].
  rewrite IH. constructor.
Qed.

Lemma sort_by_age_perm b l : sort_by_age b l ≡ₚ l.
Proof. induction l as [|x l IH]; cbn; [done|]. by rewrite insert_by_age_perm, IH. Qed.

Definition older b x y : Prop := waiting_age y b <= waiting_age x b.

Lemma insert_by_age_sorted b x l :
  StronglySorted (older b) l -> StronglySorted (older b) (insert_by_age b x l).
Proof.
  unfold older. induction 1 as [|y l Hs IH Hall]; cbn; [repeat constructor|].
  destruct (Z.leb_spec (waiting_age y b) (waiting_age x b)).
  - constructor; [by constructor|]. constructor; [done|].
    eapply Forall_impl; [exact Hall|]. cbn. intros. lia.
  - constructor; [done|]. rewrite Forall_forall in *. intros z.
    rewrite insert_by_age_perm, elem_of_cons. intros [->|Hz]; [lia|auto].
Qed.

Lemma sort_by_age_sorted b l : StronglySorted (older b) (sort_by_age b l).
Proof. induction l; cbn; [constructor|by apply insert_by_age_sorted]. Qed.

Lemma sort_by_age_head b l x l' : sort_by_age b l = x :: l' ->
  x ∈ l /\ forall y, y ∈ l -> waiting_age y b <= waiting_age x b.
Proof.
  intros Hs. pose proof (sort_by_age_sorted b l) as Hsort. rewrite Hs in Hsort.
  apply StronglySorted_inv in Hsort as [_ Hall]. rewrite Forall_forall in Hall.
  pose proof (sort_by_age_perm b l) as Hp. rewrite Hs in Hp.
  split; [rewrite <- Hp; left|]. intros y. rewrite <- Hp, elem_of_cons.
  intros [->|Hy]; [lia|]. by apply Hall.
Qed.

End sort.

(** ** The picked entries *)

Fixpoint pick_constrained (max_packet_len redundancy_cap used : Z) (packed : bool)
  (candidates : list SentPayload) : list SentPayload :=
  match candidates with
  | [] => []
  | c :: rest =>
      if negb packed then
        if max_packet_len <? used + wire_len c then []
        else c :: pick_constrained max_packet_len redundancy_cap (used + wire_len c) true rest
      else if redundancy_cap <? used + wire_len c
      then pick_constrained max_packet_len redundancy_cap used packed rest
      else c :: pick_constrained max_packet_len redundancy_cap (used + wire_len c) true rest
  end.

Section picks.
Context (W : list SentPayload) (pol : RecarryPolicy) (has_fresh : bool).
Context (building_seq max_packet_len used : Z).

Definition cap : Z :=
  match redundancy_byte_budget pol with
  | Some budget => Z.min max_packet_len (saturating_add usize_max used budget)
  | None => max_packet_len
  end.
Definition gate : option CarrySpacing := if has_fresh then spacing pol else None.
Definition due : list SentPayload := filter (fun p => is_due p gate building_seq = true) W.
Definition room (len : Z) : bool :=
  match checked_sub cap used with Some remaining => len <=? remaining | None => false end.

Definition picks : list SentPayload :=
  if (match gate with None => true | Some _ => false end) && room (sumz wire_len W) then W
  else if room (sumz wire_len due) then due
  else pick_constrained max_packet_len cap used false (sort_by_age building_seq due).

Lemma pack_constrained_picks b u l :
  pack_constrained max_packet_len cap u b l = map payload (pick_constrained max_packet_len cap u b l).
Proof.
  revert b u. induction l as [|c l IH]; intros b u; cbn; [done|].
  destruct (negb b), (max_packet_len <? u + wire_len c), (cap <? u + wire_len c); cbn;
    by rewrite ?IH.
Qed.

Lemma redundancy_picks :
  redundancy W (sumz wire_len W) pol has_fresh building_seq max_packet_len used = map payload picks.
Proof.
  unfold redundancy, picks. fold cap. fold gate. fold (room (sumz wire_len W)). fold due.
  fold (room (sumz wire_len due)).
  destruct (_ && _); [done|]. destruct (room (sumz wire_len due)); [done|].
  apply pack_constrained_picks.
Qed.

Lemma room_le len : room len = true -> used + len <= cap.
Proof.
  unfold room. destruct (checked_sub cap used) as [r|] eqn:Hr; [|done].
  apply checked_sub_Some in Hr as [-> ?]. intros Hle%Z.leb_le. lia.
Qed.

Lemma cap_le_max : cap <= max_packet_len.
Proof. unfold cap. destruct (redundancy_byte_budget pol); lia. Qed.

(** *** The picks come from the window, each entry at most once *)

Lemma pick_constrained_sub u b l : pick_constrained max_packet_len cap u b l `sublist_of` l.
Proof.
  revert u b. induction l as [|c l IH]; intros u b; cbn; [done|].
  destruct (negb b).
  - destruct (_ <? _); [apply sublist_nil_l|by constructor].
  - destruct (_ <? _); by constructor.
Qed.

Lemma picks_submseteq : picks ⊆+ W.
Proof.
  unfold picks. destruct (_ && _); [done|].
  assert (due ⊆+ W) by (unfold due; apply sublist_submseteq, sublist_filter).
  destruct (room _); [done|]. etrans; [apply sublist_submseteq, pick_constrained_sub|].
  by rewrite sort_by_age_perm.
Qed.

(** *** Sizes *)

Lemma pick_constrained_size u b l : (forall c, c ∈ l -> 0 <= wire_len c) ->
  (b = true -> u <= max_packet_len) ->
  u + sumz wire_len (pick_constrained max_packet_len cap u b l) <= Z.max u max_packet_len.
Proof.
  pose proof cap_le_max. revert u b. induction l as [|c l IH]; intros u b Hl Hb; cbn; [lia|].
  assert (forall c, c ∈ l -> 0 <= wire_len c) by (intros; apply Hl; by right).
  destruct b; cbn.
  - destruct (Z.ltb_spec cap (u + wire_len c)); cbn; [by apply IH|].
    assert (0 <= wire_len c) by (apply Hl; left).
    specialize (IH (u + wire_len c) true ltac:(done) ltac:(lia)). lia.
  - destruct (Z.ltb_spec max_packet_len (u + wire_len c)); cbn; [lia|].
    assert (0 <= wire_len c) by (apply Hl; left).
    specialize (IH (u + wire_len c) true ltac:(done) ltac:(lia)). lia.
Qed.

Lemma picks_size : (forall c, c ∈ W -> 0 <= wire_len c) ->
  used + sumz wire_len picks <= Z.max used max_packet_len.
Proof.
  intros HW. pose proof cap_le_max. unfold picks.
  destruct (_ && room (sumz wire_len W)) eqn:Hall.
  { apply andb_true_iff in Hall as [_ Hr%room_le]. lia. }
  destruct (room (sumz wire_len due)) eqn:Hr; [apply room_le in Hr; lia|].
  apply pick_constrained_size; [|done]. intros c. rewrite sort_by_age_perm.
  intros [_ Hc]%list_elem_of_filter. auto.
Qed.

(** After the first element, everything added stays under the cap. *)
Lemma pick_constrained_cap u l : (forall c, c ∈ l -> 0 <= wire_len c) ->
  u + sumz wire_len (pick_constrained max_packet_len cap u true l) <= Z.max u cap.
Proof.
  revert u. induction l as [|c l IH]; intros u Hl; cbn; [lia|].
  assert (forall c, c ∈ l -> 0 <= wire_len c) by (intros; apply Hl; by right).
  assert (0 <= wire_len c) by (apply Hl; left).
  destruct (Z.ltb_spec cap (u + wire_len c)); cbn; [by apply IH|].
  specialize (IH (u + wire_len c) ltac:(done)). lia.
Qed.

Lemma picks_budget budget : redundancy_byte_budget pol = Some budget -> 0 <= budget ->
  0 <= used -> (forall c, c ∈ W -> 0 <= wire_len c) ->
  sumz wire_len picks <= Z.max budget (match picks with [] => 0 | c :: _ => wire_len c end).
Proof.
  intros Hb Hb0 Hu HW. assert (Hcap : cap <= used + budget).
  { unfold cap. rewrite Hb. unfold saturating_add. lia. }
  unfold picks. destruct (_ && room (sumz wire_len W)) eqn:Hall.
  { apply andb_true_iff in Hall as [_ Hr%room_le]. lia. }
  destruct (room (sumz wire_len due)) eqn:Hr; [apply room_le in Hr; lia|].
  assert (Hs : forall c, c ∈ sort_by_age building_seq due -> 0 <= wire_len c).
  { intros c. rewrite sort_by_age_perm. intros [_ Hc]%list_elem_of_filter. auto. }
  destruct (sort_by_age building_seq due) as [|c l]; cbn; [lia|].
  destruct (_ <? _); cbn; [lia|].
  pose proof (pick_constrained_cap (used + wire_len c) l). assert (0 <= wire_len c) by (apply Hs; left).
  assert (forall c, c ∈ l -> 0 <= wire_len c) by (intros; apply Hs; by right). intuition lia.
Qed.

(** *** The longest-waiting due entry is served *)

Lemma picks_oldest : W <> [] -> gate = None ->
  (forall c, c ∈ W -> used + wire_len c <= max_packet_len) ->
  exists c, c ∈ picks /\ forall c', c' ∈ W -> waiting_age c' building_seq <= waiting_age c building_seq.
Proof.
  intros Hne Hg Hfit. unfold picks, due. rewrite Hg. cbn [is_due andb].
  rewrite (filter_all _ W) by done.
  destruct (sort_by_age building_seq W) as [|c l] eqn:Hs.
  { pose proof (sort_by_age_perm building_seq W) as Hp. rewrite Hs in Hp.
    by apply Permutation_nil_l in Hp. }
  destruct (sort_by_age_head _ _ _ _ Hs) as [Hin Hmax]. exists c. split; [|done].
  destruct (room (sumz wire_len W)); [done|]. cbn.
  destruct (Z.ltb_spec max_packet_len (used + wire_len c)); [by apply Hfit in Hin; lia|]. left.
Qed.

End picks.

(** ** [build_outgoing] and [record_sent] in closed form *)

Section build.
Context `{!Prost, !ProstLaws}.
Implicit Types (a : AckManager) (p : Payload) (k : key).

Definition head_of a : Packet :=
  mkPacket (packet_seq a) (last_seen_remote a) (rh_ack_bits (received_packets a)) []
    (am_turns_complete a).
Definition fresh_payloads (o : option Payload) : list Payload :=
  match fresh_of o with Some f => [f.2] | None => [] end.
Definition used_by a (o : option Payload) : Z :=
  packet_encoded_len (head_of a) + sumz element_len (fresh_payloads o).
Definition picks_of a (o : option Payload) (max_len : Z) : list SentPayload :=
  picks (window a) (policy a) (match fresh_of o with Some _ => true | None => false end)
    (packet_seq a) max_len (used_by a o).

Definition advanced a : AckManager :=
  mkAckManager (packet_seq a + 1) (sent_packets a) (unacked_payloads a) (Some (window_bytes a))
    (received_packets a) (policy a) (am_turns_complete a).
Definition after_build a (o : option Payload) : AckManager :=
  match fresh_of o with
  | Some f => insert_unacked (advanced a) (f.1, seq f.2)
                (mkSentPayload 0 None (packet_seq a) (element_len f.2) f.2)
  | None => advanced a
  end.

Lemma build_outgoing_exhausted a o max_len : packet_seq a = u32_max ->
  build_outgoing a o max_len = (Err PacketSeqExhaustedError, a).
Proof. intros Hs. unfold build_outgoing, checked_add. rewrite Hs. zcase; [width_lia|done]. Qed.

Lemma build_outgoing_ok a o max_len : inv a -> packet_seq a < u32_max ->
  build_outgoing a o max_len =
    (Ok (with_payloads (head_of a) (fresh_payloads o ++ map payload (picks_of a o max_len))),
     after_build a o).
Proof.
  intros Ha Hlt. unfold build_outgoing, checked_add.
  destruct (Z.leb_spec (packet_seq a + 1) u32_max); [|lia].
  set (a1 := mkAckManager (packet_seq a + 1) _ _ _ _ _ _).
  assert (Ha1 : inv a1).
  { destruct Ha. split; try done; unfold is_u32 in *; cbn; lia. }
  pose proof (window_wire_len_spec a1 Ha1) as [Hlen Hst].
  destruct (window_wire_len a1) as [len a2]. cbn [fst snd] in Hlen, Hst. subst len a2.
  unfold after_build, picks_of, used_by, fresh_payloads.
  change (window_bytes a1) with (sumz wire_len (window a)).
  destruct (fresh_of o) as [f|]; cbn [sumz]; rewrite ?Z.add_0_r; rewrite <- redundancy_picks; done.
Qed.

Lemma packet_encoded_len_payloads h ps :
  packet_encoded_len (with_payloads h ps) = packet_encoded_len (header h) + sumz element_len ps.
Proof.
  induction ps as [|q ps IH] using rev_ind; [cbn; unfold header; lia|].
  rewrite packet_encoded_len_app, IH, sumz_app. cbn [sumz].
  unfold element_len, payload_element_len. lia.
Qed.

Lemma picks_window a o max_len c : c ∈ picks_of a o max_len -> c ∈ window a.
Proof. intros Hc. eapply elem_of_submseteq; [exact Hc|apply picks_submseteq]. Qed.

Lemma sumz_element_len a l : inv a -> (forall c, c ∈ l -> c ∈ window a) ->
  sumz element_len (map payload l) = sumz wire_len l.
Proof.
  intros Ha. induction l as [|c l IH]; intros Hl; [done|]. cbn [map sumz].
  rewrite IH by (intros; apply Hl; by right).
  destruct (window_elem a c Ha) as (k & _ & _ & _ & _ & ->); [apply Hl; left|done].
Qed.

Lemma built_len a o max_len : inv a ->
  packet_encoded_len
    (with_payloads (head_of a) (fresh_payloads o ++ map payload (picks_of a o max_len))) =
  used_by a o + sumz wire_len (picks_of a o max_len).
Proof.
  intros Ha. rewrite packet_encoded_len_payloads, sumz_app.
  rewrite (sumz_element_len a) by (done || (intros; by eapply picks_window)).
  unfold used_by. change (header (head_of a)) with (head_of a). lia.
Qed.

(** What a fresh payload must satisfy to be taken in: wire-typed fields, and
    a window that still fits the address space. *)
Definition admissible a (o : option Payload) : Prop :=
  forall p, o = Some p -> wire_payload p /\ window_bytes a + element_len p <= usize_max.

Lemma fresh_of_Some o r p : fresh_of o = Some (r, p) -> o = Some p /\ r = slot p /\ slot p <= u8_max.
Proof.
  unfold fresh_of. destruct o as [p'|]; [|done]. cbn.
  destruct (u8_try_from (slot p')) as [raw|] eqn:Hr; [|done]. cbn. intros [= <- <-].
  apply u8_try_from_Some in Hr as [-> ?]. done.
Qed.

Lemma inv_after_build a o : inv a -> packet_seq a < u32_max -> admissible a o ->
  inv (after_build a o).
Proof.
  intros Ha Hlt Hadm. assert (Hadv : inv (advanced a)).
  { destruct Ha. split; try done; unfold is_u32 in *; cbn; try lia. by intros t [= <-]. }
  unfold after_build. destruct (fresh_of o) as [[r p]|] eqn:Hf; [|done].
  apply fresh_of_Some in Hf as (-> & -> & Hu8). destruct (Hadm p eq_refl) as [[Hs Hq] Hroom].
  apply inv_insert_unacked; [done| |done]. split_and!; try done. unfold is_u8, is_u32 in *. cbn. lia.
Qed.

(** *** Recording a sent packet *)

Definition credit (q : Z) (s : SentPayload) : SentPayload :=
  mkSentPayload ((send_count s + 1) mod 2 ^ 32) (Some q) (registered_at_packet_seq s)
    (wire_len s) (payload s).

(** The keys a packet's payloads are booked under. *)
Definition carried_keys (ps : list Payload) : list key :=
  omap (fun p => raw ← u8_try_from (slot p); Some (raw, seq p)) ps.

Lemma credit_run q ps m ks :
  BTreeMap.wf m ->
  let r := foldl (credit_carry q) (m, ks) ps in
  BTreeMap.wf r.1 /\ r.2 = ks ++ carried_keys ps /\
  sumz wire_len (BTreeMap.values r.1) = sumz wire_len (BTreeMap.values m) /\
  forall k, match BTreeMap.get m k with
    | None => BTreeMap.get r.1 k = None
    | Some s => exists s', BTreeMap.get r.1 k = Some s' /\
        wire_len s' = wire_len s /\ payload s' = payload s /\
        registered_at_packet_seq s' = registered_at_packet_seq s /\
        (if decide (k ∈ carried_keys ps) then last_carried_packet_seq s' = Some q else s' = s)
    end.
Proof.
  revert m ks. induction ps as [|p ps IH]; intros m ks Hwf.
  { cbn. rewrite app_nil_r. split_and!; try done. intros k. destruct (BTreeMap.get m k); naive_solver. }
  cbn [foldl]. unfold carried_keys. cbn [omap list_omap]. fold (carried_keys ps).
  destruct (u8_try_from (slot p)) as [raw|] eqn:Hraw; cbn [mbind option_bind].
  - set (m1 := BTreeMap.update (raw, seq p) (credit q) m).
    assert (Hc : credit_carry q (m, ks) p = (m1, ks ++ [(raw, seq p)]))
      by (unfold credit_carry; by rewrite Hraw).
    rewrite Hc. cbv zeta.
    destruct (IH m1 (ks ++ [(raw, seq p)])) as (Hw & Hk & Hsum & Hg); [by apply BTreeMap.wf_update|].
    split_and!; [done|by rewrite Hk, <- app_assoc| |].
    + rewrite Hsum. unfold m1, BTreeMap.update, BTreeMap.values. rewrite map_map, !sumz_map.
      clear. induction m as [|e m IH]; cbn; [done|]. rewrite IH. by case_decide.
    + intros k. specialize (Hg k).
      pose proof (BTreeMap.get_update (raw, seq p) (credit q) m k) as Hm1. fold m1 in Hm1.
      rewrite Hm1 in Hg.
      destruct (BTreeMap.get m k) as [s|] eqn:Hmk.
      * destruct (decide (k = (raw, seq p))) as [->|Hne]; cbn in Hg.
        -- destruct Hg as (s' & -> & ? & ? & ? & Hlast). exists s'. split_and!; try done.
           rewrite decide_True by left. case_decide; [done|]. by rewrite Hlast.
        -- destruct Hg as (s' & -> & ? & ? & ? & Hlast). exists s'. split_and!; try done.
           repeat case_decide; try done; set_solver.
      * case_decide; cbn in Hg; done.
  - assert (Hc : credit_carry q (m, ks) p = (m, ks)) by (unfold credit_carry; by rewrite Hraw).
    rewrite Hc. by apply IH.
Qed.

Lemma record_sent_spec a pkt : inv a -> 0 <= packet_seq_of pkt < packet_seq a ->
  exists a', record_sent a pkt = Some a' /\ inv a' /\ same_frame a a' /\
    unacked_payloads a' = (foldl (credit_carry (packet_seq_of pkt)) (unacked_payloads a, []) (payloads pkt)).1 /\
    (forall q sp, is_seq q -> sent_view a' q = Some sp ->
      sent_view a q = Some sp \/
      (q = packet_seq_of pkt /\ sp = mkSentPacket (carried_keys (payloads pkt)))).
Proof.
  intros Ha Hlt. unfold record_sent.
  destruct (credit_run (packet_seq_of pkt) (payloads pkt) (unacked_payloads a) [] (inv_wf _ Ha))
    as (Hwf & Hks & Hsum & Hg).
  destruct (foldl _ _ _) as [m keys]. cbn [fst snd] in *. rewrite app_nil_l in Hks. subst keys.
  pose proof (inv_seq _ Ha) as Hseq. assert (Hu : is_u32 (packet_seq_of pkt)) by (unfold is_u32 in *; lia).
  destruct (packet_seq_is_seq _ Hu) as [Hq Hq1].
  assert (Hm : forall b, SequenceBuffer.wf SENT_PACKETS_SIZE b -> sequence b <= packet_seq a ->
    inv (set_unacked (set_sent a b) m (unacked_payload_wire_len a))).
  { intros b Hb Hle. apply inv_set_unacked; [by apply inv_set_sent|done| | |].
    - intros k sp Hk. specialize (Hg k).
      destruct (BTreeMap.get (unacked_payloads a) k) as [s|] eqn:Hak; [|congruence].
      destruct Hg as (s' & Hs' & Hw & Hp & _). simplify_eq.
      apply (inv_entries _ Ha) in Hak as (?&?&?&?). split_and!; congruence.
    - intros t Ht. apply (inv_cache _ Ha) in Ht. rewrite Hsum. done.
    - rewrite Hsum. apply Ha. }
  destruct (too_old SENT_PACKETS_SIZE (sequence (sent_packets a)) (packet_seq_of pkt)) eqn:Hold.
  - rewrite (insert_old SENT_PACKETS_SIZE) by (apply Ha || done). eexists. split; [done|].
    split_and!; [apply Hm; apply Ha|done..|]. by left.
  - destruct (insert_wf SENT_PACKETS_SIZE (sent_packets a) (packet_seq_of pkt)
      (mkSentPacket (carried_keys (payloads pkt))) (inv_ring _ Ha) Hq Hq1 Hold)
      as (b & -> & Hwb & Hnb & Hvb). eexists. split; [done|].
    pose proof (inv_ring_next _ Ha). split_and!; [apply Hm; cbn [snd]; [done|lia]|done..|].
    intros q sp Hqs. unfold sent_view. cbn [sent_packets set_unacked set_sent]. rewrite Hvb by done.
    repeat case_decide; subst; try done; [intros [= <-]; by right|]. zcase; [done|]. by left.
Qed.

End build.
