(* ===== verification/AckLiveness.v ===== *)
(** * No payload starves: the flush rotation

    With a constrained budget a packet cannot carry the whole window.  The
    refill ranks candidates by how long they have waited, so repeated
    maintenance flushes rotate through the window: with [n] payloads in
    flight, [n + 1] recorded flushes carry every one of them. *)

From Stdlib Require Import ZArith Lia.
From stdpp Require Import gmap sorting list.
From S2P Require Import Prelude BTree SequenceBuffer Wire History AckManager AckInvariant AckRecv AckSend.

Open Scope Z_scope.

Section liveness.
Context `{!Prost, !ProstLaws}.
Implicit Types (a : AckManager) (k : key) (sp : SentPayload).

(** The packet number an entry's waiting age is counted from. *)
Definition stamp sp : Z := default (registered_at_packet_seq sp) (last_carried_packet_seq sp).

(** Stamps never run ahead of the packet counter. *)
Definition stamped a : Prop :=
  forall k sp, BTreeMap.get (unacked_payloads a) k = Some sp -> 0 <= stamp sp <= packet_seq a.

(** Every payload in flight fits a packet of [max_len] bytes alone, under
    any header: what admission against the guaranteed budget ensures. *)
Definition window_fits a (max_len : Z) : Prop :=
  forall k sp, BTreeMap.get (unacked_payloads a) k = Some sp -> lone_packet_len (payload sp) <= max_len.

(** A maintenance flush the transport accepts: build without a fresh
    payload, then record. *)
Definition flush a (max_len : Z) : option (Packet * AckManager) :=
  match build_outgoing a None max_len with
  | (Ok pkt, a1) => a2 ← record_sent a1 pkt; mret (pkt, a2)
  | (Err _, _) => None
  end.

Fixpoint flushes a (max_len : Z) (n : nat) : option (list Packet * AckManager) :=
  match n with
  | O => mret ([], a)
  | S n => r ← flush a max_len; rs ← flushes r.2 max_len n; mret (r.1 :: rs.1, rs.2)
  end.

Definition carries (pkt : Packet) k : Prop := k ∈ map origin (payloads pkt).

Lemma head_of_wire a : inv a -> wire_header (head_of a).
Proof.
  intros Ha. destruct (inv_hist _ Ha) as [o Ho]. split_and!; cbn; try apply Ha.
  - intros c. unfold last_seen_remote. destruct o as [m|]; cbn in Ho; [|by rewrite Ho].
    rewrite (rep_recent _ _ Ho). intros [= <-]. apply Ho.
  - destruct o as [m|]; cbn in Ho; [pose proof (rep_u32 _ _ Ho); width_lia|].
    rewrite Ho. cbn. width_lia.
Qed.

Lemma carried_keys_origin ps :
  (forall p, p ∈ ps -> is_u8 (slot p)) -> carried_keys ps = map origin ps.
Proof.
  induction ps as [|p ps IH]; intros Hu; [done|]. unfold carried_keys. cbn [omap list_omap].
  rewrite (proj2 (u8_try_from_Some (slot p) (slot p))) by (split; [done|apply Hu; left]).
  cbn. fold (carried_keys ps). rewrite IH; [done|]. intros. apply Hu. by right.
Qed.

Lemma entry_key a k sp : inv a -> BTreeMap.get (unacked_payloads a) k = Some sp ->
  k = origin (payload sp) /\ is_u8 (slot (payload sp)).
Proof. intros Ha Hk. apply (inv_entries _ Ha) in Hk as (-> & ? & _). done. Qed.

(** One flush serves an entry of maximal waiting age; an entry's stamp moves
    to the flush's packet number exactly when the packet carries it. *)
Lemma flush_spec a max_len : inv a -> stamped a -> window_fits a max_len ->
  unacked_payloads a <> [] -> packet_seq a < u32_max ->
  exists pkt a', flush a max_len = Some (pkt, a') /\ inv a' /\
    packet_seq a' = packet_seq a + 1 /\ received_packets a' = received_packets a /\
    am_turns_complete a' = am_turns_complete a /\
    (forall k, match BTreeMap.get (unacked_payloads a) k with
       | None => BTreeMap.get (unacked_payloads a') k = None
       | Some sp => exists sp', BTreeMap.get (unacked_payloads a') k = Some sp' /\
           payload sp' = payload sp /\
           (if decide (k ∈ map origin (payloads pkt)) then stamp sp' = packet_seq a else sp' = sp)
       end) /\
    (exists k sp, BTreeMap.get (unacked_payloads a) k = Some sp /\ carries pkt k /\
       forall k' sp', BTreeMap.get (unacked_payloads a) k' = Some sp' -> stamp sp <= stamp sp').
Proof.
  intros Ha Hst Hfit Hne Hlt. unfold flush. rewrite build_outgoing_ok by done.
  set (pkt := with_payloads (head_of a) _).
  assert (Hinv1 : inv (after_build a None)) by (by apply inv_after_build).
  destruct (record_sent_spec (after_build a None) pkt) as (a' & -> & Hinv & Hfr & Hun & _);
    [done|cbn; pose proof (inv_seq _ Ha); unfold is_u32 in *; lia|].
  change (unacked_payloads (after_build a None)) with (unacked_payloads a) in Hun.
  change (packet_seq_of pkt) with (packet_seq a) in Hun.
  destruct (credit_run (packet_seq a) (payloads pkt) (unacked_payloads a) [] (inv_wf _ Ha))
    as (_ & _ & _ & Hg). rewrite <- Hun in Hg.
  assert (Hpick : forall c, c ∈ picks_of a None max_len -> exists k,
    BTreeMap.get (unacked_payloads a) k = Some c /\ k = origin (payload c) /\ is_u8 (slot (payload c))).
  { intros c Hc. destruct (window_elem a c Ha) as (k & Hk & _); [by eapply picks_window|].
    destruct (entry_key a k c Ha Hk). eauto. }
  rewrite carried_keys_origin in Hg.
  2:{ intros p. unfold pkt. cbn. rewrite list_elem_of_fmap. intros (c & -> & Hc).
      destruct (Hpick c Hc) as (k & _ & _ & ?). done. }
  exists pkt, a'. destruct Hfr as (Hf1 & Hf2 & Hf3 & Hf4).
  split_and!; [done|done|by rewrite Hf1|by rewrite Hf2|by rewrite Hf4| |].
  - intros k. specialize (Hg k). destruct (BTreeMap.get (unacked_payloads a) k); [|done].
    destruct Hg as (s' & ? & _ & ? & _ & Hlast). exists s'. split_and!; [done..|].
    case_decide; [|done]. unfold stamp. by rewrite Hlast.
  - destruct (picks_oldest (window a) (policy a) false (packet_seq a) max_len (used_by a None))
      as (c & Hc & Hmax); [|done| |].
    + unfold window, BTreeMap.values. by destruct (unacked_payloads a).
    + intros c Hc. destruct (window_elem a c Ha Hc) as (k & Hk & _ & _ & _ & ->).
      specialize (Hfit k c Hk). unfold used_by, lone_packet_len in *. cbn.
      pose proof (header_le_max (head_of a) (head_of_wire a Ha)).
      change (header (head_of a)) with (head_of a) in *. unfold element_len. lia.
    + destruct (Hpick c Hc) as (k & Hk & -> & _). exists (origin (payload c)), c. split_and!; [done| |].
      * unfold carries, pkt. cbn. apply list_elem_of_fmap. exists (payload c). split; [done|].
        apply list_elem_of_fmap. by exists c.
      * intros k' sp' Hk'. assert (Hin : sp' ∈ window a).
        { apply BTreeMap.elem_of_values. exists k'. by apply BTreeMap.elem_of_get. }
        specialize (Hmax sp' Hin). unfold waiting_age in Hmax.
        change (default _ (last_carried_packet_seq sp')) with (stamp sp') in Hmax.
        change (default _ (last_carried_packet_seq c)) with (stamp c) in Hmax.
        pose proof (Hst _ _ Hk'). pose proof (Hst _ _ Hk). width_lia.
Qed.

(** The keys of [K] whose entry was last served at or before [q0]. *)
Definition low a (q0 : Z) k : Prop :=
  match BTreeMap.get (unacked_payloads a) k with Some sp => stamp sp <= q0 | None => False end.
#[local] Instance low_dec a q0 k : Decision (low a q0 k).
Proof. unfold low. destruct (BTreeMap.get _ k); apply _. Defined.

Lemma nonempty_get a k sp : BTreeMap.get (unacked_payloads a) k = Some sp -> unacked_payloads a <> [].
Proof. intros Hk Hn. by rewrite Hn in Hk. Qed.

Lemma flushes_rotate n : forall a max_len q0 (K : list key),
  inv a -> stamped a -> window_fits a max_len -> unacked_payloads a <> [] ->
  packet_seq a + Z.of_nat n <= u32_max -> q0 < packet_seq a ->
  (forall k, is_Some (BTreeMap.get (unacked_payloads a) k) -> k ∈ K) ->
  (length (filter (low a q0) K) <= n)%nat ->
  exists pkts a', flushes a max_len n = Some (pkts, a') /\
    forall k, low a q0 k -> exists pkt, pkt ∈ pkts /\ carries pkt k.
Proof.
  induction n as [|n IH]; intros a max_len q0 K Ha Hst Hfit Hne Hsp Hq HK Hlow.
  { exists [], a. split; [done|]. intros k Hk. exfalso.
    assert (k ∈ filter (low a q0) K) as Hin.
    { apply list_elem_of_filter. split; [done|]. apply HK. unfold low in Hk.
      by destruct (BTreeMap.get _ k). }
    destruct (filter _ K); cbn in *; [set_solver|lia]. }
  destruct (flush_spec a max_len Ha Hst Hfit Hne) as (pkt & a1 & Hf & Ha1 & Hs1 & _ & _ & Hget & Hold);
    [lia|].
  assert (Hback : forall k sp', BTreeMap.get (unacked_payloads a1) k = Some sp' ->
    exists sp, BTreeMap.get (unacked_payloads a) k = Some sp /\ payload sp' = payload sp /\
      (stamp sp' = packet_seq a \/ (sp' = sp /\ ~ carries pkt k))).
  { intros k sp' Hk'. specialize (Hget k). destruct (BTreeMap.get (unacked_payloads a) k) as [sp|];
      [|congruence]. destruct Hget as (sp1 & Hs & Hp & Hd). simplify_eq. exists sp.
    split_and!; [done..|]. case_decide; [by left|by right]. }
  assert (Hmono : forall k, low a1 q0 k -> low a q0 k /\ ~ carries pkt k).
  { intros k Hk. unfold low in Hk. destruct (BTreeMap.get (unacked_payloads a1) k) as [sp'|] eqn:Hk'; [|done].
    destruct (Hback k sp' Hk') as (sp & Hks & _ & [?|[-> ?]]); [lia|]. unfold low. by rewrite Hks. }
  destruct (IH a1 max_len q0 K) as (pkts & a' & Hrun & Hcov); [done|..|].
  - intros k sp' Hk'. destruct (Hback k sp' Hk') as (sp & Hks & _ & [->|[-> _]]).
    + pose proof (inv_seq _ Ha). unfold is_u32 in *. lia.
    + specialize (Hst _ _ Hks). lia.
  - intros k sp' Hk'. destruct (Hback k sp' Hk') as (sp & Hks & -> & _). by eapply Hfit.
  - destruct Hold as (k & sp & Hk & _). specialize (Hget k). rewrite Hk in Hget.
    destruct Hget as (sp' & Hk' & _). by eapply nonempty_get.
  - lia.
  - lia.
  - intros k [sp' Hk']. destruct (Hback k sp' Hk') as (sp & Hks & _). apply HK. eauto.
  - destruct Hold as (k & sp & Hk & Hck & Hmin).
    destruct (decide (stamp sp <= q0)) as [Hsl|Hsl].
    + assert (length (filter (low a1 q0) K) < length (filter (low a q0) K))%nat; [|lia].
      apply (filter_length_strict _ _ _ k).
      * intros x _ Hx. by apply Hmono.
      * apply HK. eauto.
      * unfold low. by rewrite Hk.
      * intros Hl. by apply Hmono in Hl as [_ ?].
    + rewrite filter_none; [cbn; lia|]. intros x _ [Hx _]%Hmono. unfold low in Hx.
      destruct (BTreeMap.get (unacked_payloads a) x) as [sx|] eqn:Hsx; [|done].
      specialize (Hmin _ _ Hsx). lia.
  - exists (pkt :: pkts), a'. cbn [flushes]. rewrite Hf. cbn. rewrite Hrun. cbn. split; [done|].
    intros k Hk. destruct (decide (k ∈ map origin (payloads pkt))) as [Hc|Hc].
    { exists pkt. split; [left|done]. }
    destruct (Hcov k) as (pkt' & Hin & Hc'); [|exists pkt'; split; [by right|done]].
    unfold low in Hk |- *. specialize (Hget k).
    destruct (BTreeMap.get (unacked_payloads a) k) as [sp|]; [|done].
    destruct Hget as (sp' & -> & _ & Hd). rewrite decide_False in Hd by done. by subst.
Qed.

End liveness.

(** ** Properties *)


(** ** Reachable ack managers

    The driver's calls on an [AckManager] as a step relation: sends (accepted
    or refused by the transport), incoming packets, beacon cursors, re-injected
    turns, the [turns_complete] stamp and connection resets.  The invariant
    and the stamp order hold in every reachable state, no call panics there,
    and the properties of packet building are stated on it. *)

Section reach.
Context `{!Prost, !ProstLaws}.
Implicit Types (a : AckManager) (k : key) (sp : SentPayload).

Inductive step : AckManager -> AckManager -> Prop :=
| step_send a o max_len pkt a1 a2 :
    admissible a o -> build_outgoing a o max_len = (Ok pkt, a1) ->
    record_sent a1 pkt = Some a2 -> step a a2
| step_send_refused a o max_len pkt a1 :
    admissible a o -> build_outgoing a o max_len = (Ok pkt, a1) -> step a a1
| step_incoming a incoming r a1 :
    wire_header incoming -> handle_incoming a incoming = Some (r, a1) -> step a a1
| step_cursor a s through :
    step a (retire_payloads_through a s through).2
| step_reinject a p :
    admissible a (Some p) -> step a (reinject_unacked a p)
| step_turns a c :
    (forall x, c = Some x -> is_u64 x) -> step a (set_turns_complete a c)
| step_reset a : step a (reset_connection a).

Definition reachable a : Prop := exists pol, rtc step (with_policy pol) a.

Definition good a : Prop := inv a /\ stamped a.

Lemma good_shrink a a' : stamped a -> packet_seq a' = packet_seq a ->
  (forall k sp, BTreeMap.get (unacked_payloads a') k = Some sp ->
     BTreeMap.get (unacked_payloads a) k = Some sp) -> stamped a'.
Proof. intros Hst Hs Hsub k sp Hk. rewrite Hs. by apply (Hst k), Hsub. Qed.

Lemma stamped_insert a k sp : stamped a -> 0 <= stamp sp <= packet_seq a ->
  stamped (insert_unacked a k sp).
Proof.
  intros Hst Hs k' sp'. cbn [insert_unacked set_unacked unacked_payloads packet_seq].
  rewrite BTreeMap.get_insert. case_decide; [by intros [= <-]|]. apply Hst.
Qed.

Lemma build_result a o max_len pkt a1 : inv a -> build_outgoing a o max_len = (Ok pkt, a1) ->
  packet_seq a < u32_max /\ a1 = after_build a o /\
  pkt = with_payloads (head_of a) (fresh_payloads o ++ map payload (picks_of a o max_len)).
Proof.
  intros Ha Hb. pose proof (inv_seq _ Ha). destruct (decide (packet_seq a = u32_max)) as [He|].
  { by rewrite build_outgoing_exhausted in Hb. }
  assert (packet_seq a < u32_max) by (unfold is_u32 in *; lia).
  rewrite build_outgoing_ok in Hb by done. by injection Hb as <- <-.
Qed.

Lemma good_after_build a o : good a -> packet_seq a < u32_max -> admissible a o ->
  good (after_build a o) /\ packet_seq (after_build a o) = packet_seq a + 1.
Proof.
  intros [Ha Hst] Hlt Hadm. assert (Hadv : stamped (advanced a)).
  { intros k sp Hk. cbn in *. specialize (Hst _ _ Hk). lia. }
  split; [split; [by apply inv_after_build|]|].
  - unfold after_build. destruct (fresh_of o) as [f|]; [|done]. apply stamped_insert; [done|].
    cbn. pose proof (inv_seq _ Ha). unfold is_u32 in *. lia.
  - unfold after_build. by destruct (fresh_of o).
Qed.

Lemma good_record_sent a pkt a2 : good a -> 0 <= packet_seq_of pkt < packet_seq a ->
  record_sent a pkt = Some a2 -> good a2.
Proof.
  intros [Ha Hst] Hlt Hr.
  destruct (record_sent_spec a pkt Ha Hlt) as (a' & Heq & Ha' & (Hs & _) & Hun & _).
  rewrite Hr in Heq. injection Heq as <-. split; [done|]. intros k sp Hk. rewrite Hs, Hun in *.
  destruct (credit_run (packet_seq_of pkt) (payloads pkt) (unacked_payloads a) [] (inv_wf _ Ha))
    as (_ & _ & _ & Hg). specialize (Hg k).
  destruct (BTreeMap.get (unacked_payloads a) k) as [s0|] eqn:Hk0; [|congruence].
  destruct Hg as (s' & Hs' & _ & _ & _ & Hl). simplify_eq. case_decide; [|subst; by apply (Hst k)].
  unfold stamp. rewrite Hl. cbn. lia.
Qed.

Lemma good_reinject a p : good a -> admissible a (Some p) -> good (reinject_unacked a p).
Proof.
  intros [Ha Hst] Hadm. unfold reinject_unacked.
  destruct (u8_try_from (slot p)) as [raw|] eqn:Hr; [|done].
  apply u8_try_from_Some in Hr as [-> ?].
  destruct (BTreeMap.get _ _); [done|]. destruct (Hadm p eq_refl) as [[Hs Hq] Hroom].
  split.
  - apply inv_insert_unacked; [done| |done]. split_and!; try done. unfold is_u8, is_u32 in *. cbn. lia.
  - apply stamped_insert; [done|]. cbn. pose proof (inv_seq _ Ha). unfold is_u32 in *. lia.
Qed.

Lemma good_handle_incoming a incoming r a1 : good a -> wire_header incoming ->
  handle_incoming a incoming = Some (r, a1) -> good a1.
Proof.
  intros [Ha Hst] Hw Hh. destruct (check_acks a incoming) as [[]|e] eqn:Hc.
  - destruct (handle_incoming_ok a incoming Ha Hw Hc) as (a' & Heq & Hr). simplify_eq.
    split; [apply Hr|]. destruct (ret_frame _ _ _ Hr) as (Hs & _).
    apply (good_shrink a); [done|done|]. intros k sp Hk. by apply (ret_unacked _ _ _ Hr) in Hk as [? _].
  - rewrite (handle_incoming_err _ _ _ Hc) in Hh. by simplify_eq.
Qed.

Lemma good_step a a' : good a -> step a a' -> good a'.
Proof.
  intros Hg Hstep. destruct Hstep as [a o m pkt a1 a2 Hadm Hb Hr|a o m pkt a1 Hadm Hb
    |a inc r a1 Hw Hh|a s t|a p Hadm|a c Hc|a].
  - destruct (build_result _ _ _ _ _ (proj1 Hg) Hb) as (Hlt & -> & ->).
    destruct (good_after_build a o Hg Hlt Hadm) as [Hg1 Hs1].
    eapply good_record_sent; [done| |done]. cbn. destruct Hg as [Ha _].
    pose proof (inv_seq _ Ha). unfold is_u32 in *. lia.
  - destruct (build_result _ _ _ _ _ (proj1 Hg) Hb) as (Hlt & -> & _). by apply good_after_build.
  - by eapply good_handle_incoming.
  - destruct Hg as [Ha Hst]. split; [by apply inv_retire_through|].
    apply (good_shrink a); [done|done|]. intros k sp. rewrite get_retire_through. by case_decide.
  - by apply good_reinject.
  - destruct Hg as [Ha Hst]. split; [by apply inv_set_turns_complete|done].
  - destruct Hg as [Ha Hst]. split; [by apply inv_reset_connection|].
    intros k sp. cbn [reset_connection unacked_payloads packet_seq]. rewrite BTreeMap.get_map_values.
    destruct (BTreeMap.get _ k); [|done]. cbn. intros [= <-]. done.
Qed.

(** Distinct window entries have distinct origins. *)
Lemma NoDup_origins a l : inv a -> l ⊆+ window a -> NoDup (map (fun sp => origin (payload sp)) l).
Proof.
  intros Ha (l' & Hl)%submseteq_Permutation.
  assert (Hn : NoDup (map (fun sp => origin (payload sp)) (window a))).
  { replace (map _ (window a)) with (BTreeMap.keys (unacked_payloads a)); [by apply BTreeMap.wf_NoDup, Ha|].
    unfold window, BTreeMap.values, BTreeMap.keys. rewrite map_map. apply map_ext_in.
    intros [k sp] Hin%list_elem_of_In. cbn.
    by destruct (inv_entries _ Ha k sp) as [? _]; [apply BTreeMap.get_elem_of; [apply Ha|done]|]. }
  rewrite Hl, map_app in Hn. by apply NoDup_app in Hn as [? _].
Qed.

Lemma good_new pol : good (with_policy pol).
Proof. split; [apply inv_with_policy|]. by intros k sp. Qed.

Lemma reachable_good a : reachable a -> good a.
Proof.
  intros [pol Hr]. revert Hr. generalize (good_new pol). generalize (with_policy pol) as a0.
  intros a0 Hg Hr. induction Hr as [|a0 a1 a2 Hs _ IH]; [done|]. apply IH. by eapply good_step.
Qed.

End reach.

(** ** Properties *)

(** In every state the driver can reach, the unacked window is ordered and
    keyed by origin identity, the cached aggregate size is the exact sum of
    the window's element sizes, and every waiting-age stamp is at or below
    the packet counter; and there no operation panics. *)
Theorem reachable_invariant `{!Prost, !ProstLaws} (a : AckManager) :
  reachable a ->
  BTreeMap.wf (unacked_payloads a) /\
  (forall k sp, BTreeMap.get (unacked_payloads a) k = Some sp ->
     k = origin (payload sp) /\ wire_len sp = element_len (payload sp)) /\
  (forall t, unacked_payload_wire_len a = Some t -> t = window_bytes a) /\
  stamped a /\
  (forall incoming, wire_header incoming -> is_Some (handle_incoming a incoming)) /\
  (forall o max_len pkt a1, admissible a o -> build_outgoing a o max_len = (Ok pkt, a1) ->
     is_Some (record_sent a1 pkt)).
Proof.
  intros [Ha Hst]%reachable_good. split_and!; [apply Ha| |apply Ha|done| |].
  - intros k sp Hk. by apply (inv_entries _ Ha) in Hk as (? & _ & _ & ?).
  - intros incoming Hw. destruct (check_acks a incoming) as [[]|e] eqn:Hc.
    + destruct (handle_incoming_ok a incoming Ha Hw Hc) as (a' & -> & _). eauto.
    + rewrite (handle_incoming_err _ _ _ Hc). eauto.
  - intros o max_len pkt a1 Hadm Hb. destruct (build_result _ _ _ _ _ Ha Hb) as (Hlt & -> & ->).
    destruct (good_after_build a o (conj Ha Hst) Hlt Hadm) as [[Ha1 _] Hs1].
    edestruct (record_sent_spec (after_build a o)) as (a' & -> & _); [done| |eauto].
    rewrite Hs1. cbn. pose proof (inv_seq _ Ha). unfold is_u32 in *. lia.
Qed.

(** A built packet stays within the datagram budget unless the fresh
    payload alone exceeds it, and its redundancy within the policy budget
    unless its single first element exceeds that. *)
Theorem build_outgoing_bounded `{!Prost, !ProstLaws} (a : AckManager) (o : option Payload)
  (max_len : Z) (pkt : Packet) (a1 : AckManager) :
  reachable a -> build_outgoing a o max_len = (Ok pkt, a1) ->
  let fresh := sumz element_len (fresh_payloads o) in
  let spent := packet_encoded_len (header pkt) + fresh in
  packet_encoded_len pkt <= Z.max spent max_len /\
  forall budget, redundancy_byte_budget (policy a) = Some budget -> 0 <= budget ->
    packet_encoded_len pkt <= spent + Z.max budget
      (match drop (length (fresh_payloads o)) (payloads pkt) with
       | [] => 0 | p :: _ => element_len p end).
Proof.
  intros [Ha _]%reachable_good Hb. destruct (build_result _ _ _ _ _ Ha Hb) as (Hlt & _ & ->).
  cbv zeta. change (header (with_payloads (head_of a) _)) with (head_of a).
  rewrite built_len by done. fold (used_by a o).
  assert (Hpos : forall c, c ∈ window a -> 0 <= wire_len c)
    by (intros c Hc%window_elem_pos; [lia|done]).
  split; [by apply picks_size|]. intros budget Hbud Hb0. cbn [with_payloads payloads].
  rewrite drop_app_length.
  assert (Hused : 0 <= used_by a o).
  { unfold used_by. pose proof (packet_encoded_len_nonneg (head_of a)).
    assert (0 <= sumz element_len (fresh_payloads o)); [|lia].
    apply sumz_nonneg. intros p _. pose proof (element_len_pos p). lia. }
  pose proof (picks_budget (window a) (policy a) (match fresh_of o with Some _ => true | None => false end)
    (packet_seq a) max_len (used_by a o) budget Hbud Hb0 Hused Hpos) as Hle.
  fold (picks_of a o max_len) in Hle. destruct (picks_of a o max_len) as [|c l] eqn:Hp; cbn [map]; [lia|].
  destruct (window_elem a c Ha) as (k & _ & _ & _ & _ & <-); [|lia].
  apply (picks_window a o max_len). rewrite Hp. left.
Qed.

(** What a packet carries: the fresh payload first, then entries of the
    unacked window, no payload twice; building registers the fresh payload
    and changes no other entry; an exhausted packet counter is refused with
    the state unchanged. *)
Theorem build_outgoing_content `{!Prost, !ProstLaws} (a : AckManager) (o : option Payload)
  (max_len : Z) :
  reachable a -> admissible a o ->
  (forall p, o = Some p -> is_u8 (slot p) /\ BTreeMap.get (unacked_payloads a) (origin p) = None) ->
  match build_outgoing a o max_len with
  | (Err _, a') => packet_seq a = u32_max /\ a' = a
  | (Ok pkt, a') =>
      (exists red, payloads pkt = option_list o ++ red /\
         forall p, p ∈ red -> exists sp, payload sp = p /\
           BTreeMap.get (unacked_payloads a) (origin p) = Some sp) /\
      NoDup (map origin (payloads pkt)) /\
      packet_seq_of pkt = packet_seq a /\ packet_seq a' = packet_seq a + 1 /\
      forall k, payload <$> BTreeMap.get (unacked_payloads a') k =
        if decide (Some k = origin <$> o) then o
        else payload <$> BTreeMap.get (unacked_payloads a) k
  end.
Proof.
  intros [Ha Hst]%reachable_good Hadm Hfresh. pose proof (inv_seq _ Ha) as Hseq.
  destruct (decide (packet_seq a = u32_max)) as [He|].
  { by rewrite build_outgoing_exhausted. }
  assert (Hlt : packet_seq a < u32_max) by (unfold is_u32 in *; lia).
  rewrite build_outgoing_ok by done.
  assert (Hfo : forall p, o = Some p -> fresh_of o = Some (slot p, p)).
  { intros p ->. destruct (Hfresh p eq_refl) as [Hu _]. unfold fresh_of. cbn.
    rewrite (proj2 (u8_try_from_Some (slot p) (slot p))); [done|]. split; [done|apply Hu]. }
  assert (Hfp : fresh_payloads o = option_list o).
  { unfold fresh_payloads. destruct o as [p|]; [by rewrite (Hfo p)|done]. }
  assert (Hred : forall p, p ∈ map payload (picks_of a o max_len) -> exists sp, payload sp = p /\
    BTreeMap.get (unacked_payloads a) (origin p) = Some sp).
  { intros p (c & -> & Hc)%list_elem_of_fmap. exists c. split; [done|].
    destruct (window_elem a c Ha) as (k & Hk & -> & _); [by eapply picks_window|done]. }
  rewrite Hfp. split_and!.
  - eexists. split; [done|exact Hred].
  - cbn [with_payloads payloads]. rewrite map_app. apply NoDup_app. split_and!.
    + destruct o; cbn; repeat constructor. set_solver.
    + intros k Hk (p & -> & Hp)%list_elem_of_fmap. destruct (Hred p Hp) as (sp & _ & Hg).
      destruct o as [p0|]; cbn in Hk; [|set_solver]. apply list_elem_of_singleton in Hk.
      destruct (Hfresh p0 eq_refl) as [_ Hn]. congruence.
    + rewrite map_map. apply (NoDup_origins a); [done|apply picks_submseteq].
  - done.
  - by apply good_after_build.
  - intros k. unfold after_build. destruct o as [p|]; [|by rewrite decide_False].
    rewrite (Hfo p eq_refl). cbn [insert_unacked set_unacked unacked_payloads advanced fst snd].
    rewrite BTreeMap.get_insert. change (slot p, seq p) with (origin p). cbn [fmap option_fmap option_map].
    repeat case_decide; try done; naive_solver.
Qed.
