(* ===== verification/Dedup.v ===== *)
(** * Receive-side payload dedup ([transport/src/link/dedup.rs])

    Per slot, the top of the contiguous delivered prefix plus the set of
    delivered sequence numbers above it.  A strict dedup refuses a number a
    full window past the prefix; a collapsing one (mesh links) slides the
    prefix forward instead.  [retain_fresh_payloads] filters a whole packet
    transactionally. *)

From Stdlib Require Import ZArith Lia.
From stdpp Require Import gmap sorting list.
From S2P Require Import Prelude BTree Wire AckManager.

Open Scope Z_scope.

(** A send or receive on a link failed ([link/mod.rs]).  The errors of the
    QUIC library and of the protobuf decoder are wrapped by the source; their
    contents play no part here. *)
Inductive LinkError : Type :=
| DatagramsUnsupported
| ConnectionLost
| SendFailed
| PayloadTooLarge (needed budget : Z)
| DecodeFailed
| PayloadOutOfWindow (slot seq : Z)
| MalformedSlot (slot : Z)
| LinkAck (e : AckError)
| LinkPacketSeqExhausted.

Definition RECEIVE_WINDOW : Z := 4096.

Inductive Delivery : Type := New | Duplicate | OutOfWindow.

Record SlotDedup : Type := mkSlotDedup {
  delivered_through : option Z;
  ahead : list Z;
}.

Record Dedup : Type := mkDedup {
  slots : gmap Z SlotDedup;
  retired_through : gmap Z Z;
  window : Z;
  forward_collapse : bool;
}.

Definition empty_slot : SlotDedup := mkSlotDedup None [].

(** ** One slot *)

(** [while self.ahead.remove(&next)]; each round removes an element, so the
    set's size bounds the rounds. *)
Fixpoint absorb_loop (fuel : nat) (s : SlotDedup) (next : Z) : SlotDedup :=
  match fuel with
  | O => s
  | S fuel =>
      if BTreeSet.contains next (ahead s) then
        let s' := mkSlotDedup (Some next) (BTreeSet.remove next (ahead s)) in
        match checked_add u64_max next 1 with
        | None => s'
        | Some after => absorb_loop fuel s' after
        end
      else s
  end.

Definition absorb_contiguous_run (s : SlotDedup) : SlotDedup :=
  match delivered_through s with
  | Some top =>
      match checked_add u64_max top 1 with
      | Some next => absorb_loop (length (ahead s)) s next
      | None => s
      end
  | None => absorb_loop (length (ahead s)) s 0
  end.

Definition advance_contiguous (s : SlotDedup) (q : Z) : SlotDedup :=
  absorb_contiguous_run (mkSlotDedup (Some q) (ahead s)).

(** [while self.ahead.first().is_some_and(|seq| *seq <= through) { pop_first }]. *)
Fixpoint pop_through (through : Z) (l : list Z) : list Z :=
  match l with
  | [] => []
  | x :: l' => if x <=? through then pop_through through l' else l
  end.

Definition collapse_forward_until_fits (s : SlotDedup) (q w : Z) : SlotDedup :=
  let through := q - w in
  absorb_contiguous_run (mkSlotDedup (Some through) (pop_through through (ahead s))).

(** ** The dedup *)

Definition with_window (w : Z) : Dedup := mkDedup ∅ ∅ w false.
Definition new_dedup : Dedup := with_window RECEIVE_WINDOW.
Definition with_forward_collapse : Dedup := mkDedup ∅ ∅ RECEIVE_WINDOW true.

Definition set_slot (d : Dedup) (s : Z) (st : SlotDedup) : Dedup :=
  mkDedup (<[s := st]> (slots d)) (retired_through d) (window d) (forward_collapse d).

(** [self.slots.entry(slot).or_insert_with(...)]. *)
Definition slot_entry (d : Dedup) (s : Z) : SlotDedup := default empty_slot (slots d !! s).

Definition dedup_delivered_through (d : Dedup) (s : Z) : option Z :=
  st ← slots d !! s; delivered_through st.

Definition delivered_through_all (d : Dedup) : list (Z * Z) :=
  omap (fun e => c ← delivered_through e.2; Some (e.1, c)) (map_to_list (slots d)).

(** The state change and verdict of one offered number, for one slot. *)
Definition accept_slot (w : Z) (collapse : bool) (st : SlotDedup) (q : Z) : Delivery * SlotDedup :=
  if (match delivered_through st with Some t => q <=? t | None => false end) then (Duplicate, st)
  else
    let base := match delivered_through st with Some t => t + 1 | None => 0 end in
    if negb (w =? 0) && (q =? base) then (New, advance_contiguous st q)
    else if (w <=? q - base) && negb collapse then (OutOfWindow, st)
    else
      let st1 := if w <=? q - base then collapse_forward_until_fits st q w else st in
      if BTreeSet.contains q (ahead st1) then (Duplicate, st1)
      else (New, absorb_contiguous_run
                   (mkSlotDedup (delivered_through st1) (BTreeSet.insert q (ahead st1)))).

Definition accept (d : Dedup) (s q : Z) : Delivery * Dedup :=
  let r := accept_slot (window d) (forward_collapse d) (slot_entry d s) q in
  (r.1, set_slot d s r.2).

(** ** Seeding and anchoring *)

Definition mark_delivered (d : Dedup) (s q : Z) : Dedup :=
  let st := slot_entry d s in
  set_slot d s
    match delivered_through st with
    | Some top =>
        if q <=? top then st
        else if q =? top + 1 then advance_contiguous st q
        else mkSlotDedup (delivered_through st) (BTreeSet.insert q (ahead st))
    | None =>
        if q =? 0 then advance_contiguous st 0
        else mkSlotDedup (delivered_through st) (BTreeSet.insert q (ahead st))
    end.

Definition mark_delivered_through (d : Dedup) (s through : Z) : Dedup :=
  let st := slot_entry d s in
  let dt :=
    match delivered_through st with
    | Some top => if top <? through then Some through else Some top
    | None => Some through
    end in
  let rest :=
    match checked_add u64_max through 1 with
    | Some above => BTreeSet.split_off above (ahead st)
    | None => []
    end in
  set_slot d s (absorb_contiguous_run (mkSlotDedup dt rest)).

Definition anchor (d : Dedup) (s a : Z) : Dedup :=
  match checked_sub a 1 with
  | None => d
  | Some prefix_top =>
      let st := slot_entry d s in
      set_slot d s
        match delivered_through st, ahead st with
        | None, [] => mkSlotDedup (Some prefix_top) []
        | _, _ => st
        end
  end.

Definition advance_retired_through (d : Dedup) (s through : Z) : bool * Dedup :=
  if (match retired_through d !! s with Some prev => through <=? prev | None => false end)
  then (false, d)
  else (true, mkDedup (slots d) (<[s := through]> (retired_through d)) (window d)
                (forward_collapse d)).

(** ** Whole packets *)

(** Stable sort by [(slot, seq)]. *)
Definition key_le (p q : Payload) : bool :=
  (slot p <? slot q) || ((slot p =? slot q) && (seq p <=? seq q)).

Fixpoint insert_payload (p : Payload) (l : list Payload) : list Payload :=
  match l with
  | [] => [p]
  | q :: l' => if key_le p q then p :: l else q :: insert_payload p l'
  end.

Definition sort_payloads (l : list Payload) : list Payload := foldr insert_payload [] l.

(** One entry per adjacent group of a valid slot. *)
Fixpoint snapshot_sorted_payload_slots (d : Dedup) (previous : option Z) (ps : list Payload) :
  list (Z * option SlotDedup) :=
  match ps with
  | [] => []
  | p :: ps =>
      match u8_try_from (slot p) with
      | None => snapshot_sorted_payload_slots d previous ps
      | Some s =>
          if bool_decide (previous = Some s) then snapshot_sorted_payload_slots d previous ps
          else (s, slots d !! s) :: snapshot_sorted_payload_slots d (Some s) ps
      end
  end.

Definition restore (d : Dedup) (snapshot : list (Z * option SlotDedup)) : Dedup :=
  mkDedup
    (foldl (fun m e => match e.2 with Some st => <[e.1 := st]> m | None => delete e.1 m end)
       (slots d) snapshot)
    (retired_through d) (window d) (forward_collapse d).

(** The [retain] closure: the first failure stops every further change. *)
Fixpoint retain_loop (d : Dedup) (ps : list Payload) : Dedup * list Payload * option LinkError :=
  match ps with
  | [] => (d, [], None)
  | p :: ps =>
      match u8_try_from (slot p) with
      | None => (d, [], Some (MalformedSlot (slot p)))
      | Some s =>
          match accept d s (seq p) with
          | (New, d') => let '(d2, kept, f) := retain_loop d' ps in (d2, p :: kept, f)
          | (Duplicate, d') => retain_loop d' ps
          | (OutOfWindow, d') => (d', [], Some (PayloadOutOfWindow s (seq p)))
          end
      end
  end.

Definition retain_fresh_payloads (d : Dedup) (ps : list Payload) :
  result (list Payload) LinkError * Dedup :=
  let sorted := sort_payloads ps in
  let snapshot := snapshot_sorted_payload_slots d None sorted in
  let '(d', kept, failure) := retain_loop d sorted in
  match failure with
  | Some e => (Err e, restore d' snapshot)
  | None => (Ok kept, d')
  end.


(** ** The invariant of one slot *)

Implicit Types (st : SlotDedup) (d : Dedup).

(** The lowest number not in the contiguous delivered prefix. *)
Definition base st : Z := match delivered_through st with Some t => t + 1 | None => 0 end.

(** What the slot remembers as delivered. *)
Definition delivered st (q : Z) : Prop := q < base st \/ q ∈ ahead st.

Record slot_inv st : Prop := {
  si_wf : BTreeSet.wf (ahead st);
  si_base : 0 <= base st <= u64_max + 1;
  si_ahead : forall x, x ∈ ahead st -> base st < x <= u64_max;
}.

(** The out-of-order entries stay within the receive window. *)
Definition windowed (w : Z) st : Prop := forall x, x ∈ ahead st -> x < base st + w.

#[export] Instance delivered_dec st q : Decision (delivered st q).
Proof. unfold delivered. apply _. Defined.

Lemma slot_inv_empty : slot_inv empty_slot.
Proof. split; [constructor|unfold base; cbn; width_lia|set_solver]. Qed.

Lemma windowed_empty w : windowed w empty_slot.
Proof. intros x Hx. set_solver. Qed.

(** [st'] remembers the same numbers as [st], with no new out-of-order entry
    and a base no lower. *)
Record folds st st' : Prop := {
  fo_delivered : forall q, 0 <= q -> delivered st' q <-> delivered st q;
  fo_ahead : forall x, x ∈ ahead st' -> x ∈ ahead st;
  fo_base : base st <= base st';
}.

#[export] Instance folds_refl : Reflexive folds.
Proof. by split. Qed.

#[export] Instance folds_trans : Transitive folds.
Proof.
  intros st1 st2 st3 [H12 ? ?] [H23 ? ?]. split; [|auto|lia].
  intros q Hq. by rewrite H23, H12.
Qed.

Lemma folds_windowed w st st' : folds st st' -> windowed w st -> windowed w st'.
Proof. intros [_ Ha Hb] Hw x Hx. specialize (Hw x (Ha x Hx)). lia. Qed.

(** One round: the base was waiting in the set. *)
Lemma absorb_round st next :
  base st = next -> 0 <= next -> next ∈ ahead st ->
  folds st (mkSlotDedup (Some next) (BTreeSet.remove next (ahead st))).
Proof.
  intros Hbase Hnext Hmem. split; cbn [ahead]; unfold delivered; rewrite ?Hbase; unfold base; cbn [delivered_through ahead].
  - intros q Hq. rewrite BTreeSet.elem_of_remove.
    destruct (decide (q = next)) as [->|]; [split; [by right|left; lia]|].
    split; (intros [?|?]; [left; lia|tauto]).
  - intros x Hx. by apply BTreeSet.elem_of_remove in Hx as [_ ?].
  - lia.
Qed.

Lemma length_remove_lt x (l : list Z) : x ∈ l -> (length (BTreeSet.remove x l) < length l)%nat.
Proof.
  intros Hx. unfold BTreeSet.remove. rewrite <- (filter_all (fun _ => True) l) at 2 by done.
  apply (filter_length_strict _ _ _ x); naive_solver.
Qed.

Lemma absorb_loop_folds fuel st next :
  (length (ahead st) <= fuel)%nat -> BTreeSet.wf (ahead st) -> base st = next ->
  0 <= next <= u64_max -> (forall x, x ∈ ahead st -> next <= x <= u64_max) ->
  folds st (absorb_loop fuel st next) /\ slot_inv (absorb_loop fuel st next).
Proof.
  revert st next. induction fuel as [|fuel IH]; intros st next Hlen Hwf Hbase Hnext Hin; cbn [absorb_loop].
  { split; [done|]. assert (ahead st = []) as Hnil by (destruct (ahead st); [done|cbn in *; lia]).
    split; rewrite ?Hnil; [constructor|lia|set_solver]. }
  unfold BTreeSet.contains. destruct (bool_decide_reflect (next ∈ ahead st)) as [Hmem|Hmem].
  2: { split; [done|]. split; [done|lia|]. intros x Hx. specialize (Hin x Hx).
       assert (x <> next) by congruence. lia. }
  pose proof (absorb_round st next Hbase ltac:(lia) Hmem) as Hround.
  pose proof (length_remove_lt next (ahead st) Hmem) as Hlt.
  assert (Hin' : forall x, x ∈ BTreeSet.remove next (ahead st) -> next + 1 <= x <= u64_max).
  { intros x [Hne Hx]%BTreeSet.elem_of_remove. specialize (Hin x Hx). lia. }
  pose proof (BTreeSet.wf_set_remove next _ Hwf) as Hwf'.
  destruct (checked_add u64_max next 1) as [after|] eqn:Hadd.
  - apply checked_add_Some in Hadd as [-> Hle].
    destruct (IH (mkSlotDedup (Some next) (BTreeSet.remove next (ahead st))) (next + 1))
      as [Hf Hi]; [cbn [ahead]; lia|done|done|lia|done|]. split; [by etrans|exact Hi].
  - split; [done|]. assert (next = u64_max) as Hmax
      by (unfold checked_add in Hadd; revert Hadd; zcase; [done|lia]).
    split; cbn [ahead]; unfold base; cbn [delivered_through]; [done|lia|].
    intros x Hx. specialize (Hin' x Hx). lia.
Qed.

(** Folding restores the invariant from its weak form, where the base itself
    may still wait in the set. *)
Lemma absorb_folds st :
  BTreeSet.wf (ahead st) -> 0 <= base st <= u64_max + 1 ->
  (forall x, x ∈ ahead st -> base st <= x <= u64_max) ->
  folds st (absorb_contiguous_run st) /\ slot_inv (absorb_contiguous_run st).
Proof.
  intros Hwf Hb Hin. unfold absorb_contiguous_run.
  destruct (delivered_through st) as [top|] eqn:Hdt.
  - assert (base st = top + 1) as Hbase by (unfold base; by rewrite Hdt).
    destruct (checked_add u64_max top 1) as [next|] eqn:Hadd.
    + apply checked_add_Some in Hadd as [-> Hle].
      apply absorb_loop_folds; [lia|done|done|lia|]. intros x Hx. specialize (Hin x Hx). lia.
    + split; [done|]. split; [done|done|]. intros x Hx. specialize (Hin x Hx).
      unfold checked_add in Hadd. revert Hadd. zcase; [done|lia].
  - assert (base st = 0) as Hbase by (unfold base; by rewrite Hdt).
    apply absorb_loop_folds; [lia|done|done|width_lia|].
    intros x Hx. specialize (Hin x Hx). lia.
Qed.

(** The folded prefix ends at the old top or at a number that waited. *)
Lemma absorb_loop_top fuel st next :
  delivered_through (absorb_loop fuel st next) = delivered_through st \/
  exists x, x ∈ ahead st /\ delivered_through (absorb_loop fuel st next) = Some x.
Proof.
  revert st next. induction fuel as [|fuel IH]; intros st next; cbn [absorb_loop]; [by left|].
  unfold BTreeSet.contains. case_bool_decide as Hin; [right|by left].
  destruct (checked_add u64_max next 1) as [after|]; [|by exists next].
  destruct (IH (mkSlotDedup (Some next) (BTreeSet.remove next (ahead st))) after) as [->|(x & Hx & ->)];
    [by exists next|]. exists x. split; [|done]. by apply BTreeSet.elem_of_remove in Hx as [_ ?].
Qed.

Lemma absorb_top st :
  delivered_through (absorb_contiguous_run st) = delivered_through st \/
  exists x, x ∈ ahead st /\ delivered_through (absorb_contiguous_run st) = Some x.
Proof.
  unfold absorb_contiguous_run. destruct (delivered_through st) as [top|] eqn:Hdt; [|rewrite <- Hdt; apply absorb_loop_top].
  destruct (checked_add u64_max top 1); [rewrite <- Hdt; apply absorb_loop_top|by left].
Qed.

Lemma absorb_loop_length fuel st next :
  (length (ahead (absorb_loop fuel st next)) <= length (ahead st))%nat.
Proof.
  revert st next. induction fuel as [|fuel IH]; intros st next; cbn [absorb_loop]; [done|].
  destruct (BTreeSet.contains next (ahead st)); [|done].
  assert (length (BTreeSet.remove next (ahead st)) <= length (ahead st))%nat
    by apply BTreeSet.length_filter_le.
  destruct (checked_add u64_max next 1); [|done]. etrans; [apply IH|done].
Qed.

Lemma absorb_length st : (length (ahead (absorb_contiguous_run st)) <= length (ahead st))%nat.
Proof.
  unfold absorb_contiguous_run. destruct (delivered_through st); [|apply absorb_loop_length].
  destruct (checked_add u64_max z 1); [apply absorb_loop_length|done].
Qed.

(** ** Offering one number *)

(** Insertion followed by folding delivers exactly one more number. *)
Lemma insert_absorb st q :
  slot_inv st -> base st <= q <= u64_max ->
  let st' := absorb_contiguous_run
               (mkSlotDedup (delivered_through st) (BTreeSet.insert q (ahead st))) in
  slot_inv st' /\ base st <= base st' /\
  (forall x, 0 <= x -> delivered st' x <-> delivered st x \/ x = q) /\
  (forall x, x ∈ ahead st' -> x = q \/ x ∈ ahead st).
Proof.
  intros [Hwf Hb Hin] Hq. cbn zeta.
  set (st1 := mkSlotDedup (delivered_through st) (BTreeSet.insert q (ahead st))).
  destruct (absorb_folds st1) as [[Hd Ha Hbase] Hi].
  { by apply BTreeSet.wf_set_insert. }
  { exact Hb. }
  { intros x [->|Hx]%BTreeSet.elem_of_insert; [exact Hq|]. specialize (Hin x Hx).
    change (base st1) with (base st). lia. }
  split; [done|]. split; [exact Hbase|]. split.
  - intros x Hx. rewrite Hd by done. unfold delivered. cbn [ahead st1].
    rewrite BTreeSet.elem_of_insert. change (base st1) with (base st). tauto.
  - intros x Hx%Ha. by apply BTreeSet.elem_of_insert in Hx.
Qed.

(** The in-order shortcut does what insertion and folding would. *)
Lemma advance_spec st q :
  slot_inv st -> base st = q -> q <= u64_max ->
  slot_inv (advance_contiguous st q) /\ base st <= base (advance_contiguous st q) /\
  (forall x, 0 <= x -> delivered (advance_contiguous st q) x <-> delivered st x \/ x = q) /\
  (forall x, x ∈ ahead (advance_contiguous st q) -> x ∈ ahead st).
Proof.
  intros [Hwf Hb Hin] Hq Hmax. unfold advance_contiguous.
  destruct (absorb_folds (mkSlotDedup (Some q) (ahead st))) as [[Hd Ha Hbase] Hi].
  { done. }
  { change (0 <= q + 1 <= u64_max + 1). lia. }
  { intros x Hx. specialize (Hin x Hx). change (q + 1 <= x <= u64_max). lia. }
  change (q + 1 <= base (absorb_contiguous_run (mkSlotDedup (Some q) (ahead st)))) in Hbase.
  split; [done|]. split; [lia|]. split; [|done].
  intros x Hx. rewrite Hd by done. unfold delivered. cbn [ahead].
  change (base (mkSlotDedup _ _)) with (q + 1).
  split; [intros [?|?]; [destruct (decide (x = q)); [by right|left; left; lia]|tauto]|].
  intros [[?|?]| ->]; [left; lia|by right|left; lia].
Qed.

Lemma elem_of_pop_through t x l :
  BTreeSet.wf l -> x ∈ pop_through t l <-> x ∈ l /\ t < x.
Proof.
  induction l as [|y l IH]; cbn [pop_through]; intros Hwf; [set_solver|].
  pose proof (BTreeSet.wf_tail _ _ Hwf). destruct (Z.leb_spec y t).
  - rewrite IH by done. rewrite elem_of_cons. split; [tauto|]. intros [[->|?] ?]; [lia|done].
  - split; [|tauto]. intros Hx. split; [done|].
    apply elem_of_cons in Hx as [->|Hx]; [done|]. pose proof (BTreeSet.wf_head _ _ _ Hwf Hx). lia.
Qed.

Lemma wf_pop_through t l : BTreeSet.wf l -> BTreeSet.wf (pop_through t l).
Proof.
  induction l as [|y l IH]; cbn [pop_through]; intros Hwf; [done|].
  zcase; [|done]. apply IH. by eapply BTreeSet.wf_tail.
Qed.

(** Collapsing forgets nothing and adds exactly the numbers a window or more
    below the offered one. *)
Lemma collapse_spec st q w :
  slot_inv st -> 1 <= w -> base st + w <= q <= u64_max ->
  let st' := collapse_forward_until_fits st q w in
  slot_inv st' /\ base st <= base st' /\ q - w < base st' /\
  (forall x, 0 <= x -> delivered st' x <-> delivered st x \/ x <= q - w) /\
  (forall x, x ∈ ahead st' -> x ∈ ahead st).
Proof.
  intros [Hwf Hb Hin] Hw Hq. cbn zeta. unfold collapse_forward_until_fits.
  set (st1 := mkSlotDedup (Some (q - w)) (pop_through (q - w) (ahead st))).
  assert (Hbase1 : base st1 = q - w + 1) by done.
  destruct (absorb_folds st1) as [[Hd Ha Hbase] Hi].
  { by apply wf_pop_through. }
  { lia. }
  { intros x Hx%elem_of_pop_through; [|done]. destruct Hx as [Hx ?]. specialize (Hin x Hx). lia. }
  split; [done|]. split; [lia|]. split; [lia|]. split.
  - intros x Hx. rewrite Hd by done. unfold delivered. rewrite Hbase1. cbn [ahead st1].
    rewrite elem_of_pop_through by done. split.
    + intros [?|[? ?]]; [right; lia|tauto].
    + intros [[?|?]|?]; [left; lia| |left; lia].
      destruct (decide (x <= q - w)); [left; lia|right; split; [done|lia]].
  - intros x Hx%Ha. by apply elem_of_pop_through in Hx as [? _].
Qed.

(** What an offer does to the slot, for every verdict.  [grown] is the set the
    slot remembers afterwards. *)
Definition grown (w : Z) (collapse : bool) st (q x : Z) : Prop :=
  delivered st x \/ x = q \/ (collapse = true /\ base st + w <= q /\ x <= q - w).

Record offered (w : Z) (collapse : bool) st (q : Z) (r : Delivery * SlotDedup) : Prop := {
  of_inv : slot_inv r.2;
  of_base : base st <= base r.2;
  of_windowed : windowed w st -> windowed w r.2;
  of_verdict :
    match r.1 with
    | New => ~ delivered st q /\ (collapse = false -> q < base st + w) /\
             forall x, 0 <= x -> delivered r.2 x <-> grown w collapse st q x
    | Duplicate => delivered st q /\ r.2 = st
    | OutOfWindow => collapse = false /\ base st + w <= q /\ r.2 = st
    end;
}.

(** A number beyond the window of a collapsing slot is new: the window slides
    up to it and it joins the out-of-order set. *)
Lemma offered_collapse w st q :
  slot_inv st -> 1 <= w -> base st + w <= q <= u64_max -> windowed w st ->
  let st1 := collapse_forward_until_fits st q w in
  offered w true st q
    (if BTreeSet.contains q (ahead st1) then (Duplicate, st1)
     else (New, absorb_contiguous_run
                  (mkSlotDedup (delivered_through st1) (BTreeSet.insert q (ahead st1))))).
Proof.
  intros Hi Hw Hq Hwin. pose proof (si_base _ Hi) as Hb0.
  destruct (collapse_spec st q w) as (Hi2 & Hb2 & Hb2' & Hd2 & Ha2); [done..|].
  cbn zeta in *. set (st1 := collapse_forward_until_fits st q w) in *.
  assert (Hnot : ~ delivered st q) by (intros [?|Hx]; [lia|specialize (Hwin q Hx); lia]).
  assert (Hnot1 : ~ delivered st1 q) by (rewrite Hd2 by lia; intros [?|?]; [done|lia]).
  unfold BTreeSet.contains. rewrite bool_decide_false by (intros ?; apply Hnot1; by right).
  destruct (insert_absorb st1 q) as (Hi3 & Hb3 & Hd3 & Ha3); [done| |].
  { split; [|lia]. destruct (decide (base st1 <= q)); [done|]. exfalso. apply Hnot1. left. lia. }
  cbn zeta in *. split; cbn [fst snd]; [done|lia| |].
  - intros Hwn x Hx. destruct (Ha3 x Hx) as [->|Hx1]; [lia|].
    specialize (Hwn x (Ha2 x Hx1)). lia.
  - split; [done|]. split; [done|]. intros x Hx. rewrite Hd3, Hd2 by done.
    unfold grown. split; [|intros [?|[?|(_ & _ & ?)]]; tauto].
    intros [[?|?]|?]; [tauto| |tauto]. right. right. split; [done|]. lia.
Qed.

Lemma accept_slot_spec w collapse st q :
  slot_inv st -> 1 <= w -> is_u64 q -> (collapse = true -> windowed w st) ->
  offered w collapse st q (accept_slot w collapse st q).
Proof.
  intros Hi Hw Hq Hwin. assert (Hi' := Hi). destruct Hi' as [Hwf Hb Hin].
  unfold accept_slot. destruct (match delivered_through st with Some t => q <=? t | None => false end) eqn:Hdup.
  { split; cbn [fst snd]; [done|lia|done|]. split; [|done]. left. unfold base.
    destruct (delivered_through st); [lia|done]. }
  assert (Hge : base st <= q).
  { unfold base. destruct (delivered_through st); [lia|]. width_lia. }
  change (match delivered_through st with Some t => t + 1 | None => 0 end) with (base st).
  cbn zeta. destruct (Z.eqb_spec w 0); [lia|]. cbn [negb andb].
  assert (Hfresh : q ∉ ahead st -> ~ delivered st q) by (intros ? [?|?]; [lia|done]).
  destruct (Z.eqb_spec q (base st)) as [Heq|Hne].
  { destruct (advance_spec st q) as (Hi2 & Hb2 & Hd2 & Ha2); [done|done|width_lia|].
    split; cbn [fst snd]; [done|done| |].
    - intros Hwn x Hx. specialize (Hwn x (Ha2 x Hx)). lia.
    - split; [|split; [lia|]].
      + apply Hfresh. intros Hx. specialize (Hin q Hx). lia.
      + intros x Hx. rewrite Hd2 by done. unfold grown.
        split; [tauto|]. intros [?|[?|(_ & ? & ?)]]; [tauto|tauto|lia]. }
  destruct (Z.leb_spec w (q - base st)) as [Hbeyond|Hwithin]; cbn [andb negb].
  - destruct collapse; cbn [negb].
    + apply offered_collapse; [done|done|width_lia|auto].
    + split; cbn [fst snd]; [done|lia|done|]. split; [done|]. split; [lia|done].
  - unfold BTreeSet.contains. destruct (bool_decide_reflect (q ∈ ahead st)) as [Hx|Hx].
    + split; cbn [fst snd]; [done|lia|done|]. split; [by right|done].
    + destruct (insert_absorb st q) as (Hi3 & Hb3 & Hd3 & Ha3); [done|width_lia|].
      cbn zeta in *. split; cbn [fst snd]; [done|done| |].
      * intros Hwn x Hy. destruct (Ha3 x Hy) as [->|Hx1]; [lia|]. specialize (Hwn x Hx1). lia.
      * split; [by apply Hfresh|]. split; [lia|]. intros x Hy. rewrite Hd3 by done. unfold grown.
        split; [tauto|]. intros [?|[?|(_ & ? & ?)]]; [tauto|tauto|lia].
Qed.
