(* ===== verification/DedupPackets.v ===== *)
(** * Whole packets through the dedup ([transport/src/link/dedup.rs])

    The file's stated invariant, "a payload the caller never received is never
    remembered as delivered", and its counterpart, "a payload is handed on only
    the first time", for every sequence of packets, external deliveries, seeds
    and anchors, failed packets included. *)

From Stdlib Require Import ZArith Lia.
From stdpp Require Import gmap sorting list.
From S2P Require Import Prelude BTree Wire AckManager Dedup.

Open Scope Z_scope.

Implicit Types (d : Dedup) (st : SlotDedup) (p : Payload) (ps : list Payload).

(** ** The invariant of the whole dedup *)

Record dedup_inv d : Prop := {
  di_window : 1 <= window d;
  di_slot : forall s, slot_inv (slot_entry d s);
  di_windowed : forward_collapse d = true -> forall s, windowed (window d) (slot_entry d s);
}.

Definition delivered_at d (s q : Z) : Prop := delivered (slot_entry d s) q.

(** [d'] is a later state of the same dedup. *)
Record extends d d' : Prop := {
  ex_window : window d' = window d;
  ex_collapse : forward_collapse d' = forward_collapse d;
  ex_retired : retired_through d' = retired_through d;
  ex_base : forall s, base (slot_entry d s) <= base (slot_entry d' s);
  ex_delivered : forall s q, 0 <= q -> delivered_at d s q -> delivered_at d' s q;
}.

#[export] Instance extends_refl : Reflexive extends.
Proof. by split. Qed.

#[export] Instance extends_trans : Transitive extends.
Proof.
  intros d1 d2 d3 [] []. split; try congruence; [|auto].
  intros s. etrans; [|eauto]. eauto.
Qed.

Lemma slot_entry_set d s s' st :
  slot_entry (set_slot d s st) s' = if decide (s = s') then st else slot_entry d s'.
Proof.
  unfold slot_entry, set_slot. cbn [slots]. case_decide; subst.
  - by rewrite lookup_insert_eq.
  - by rewrite lookup_insert_ne.
Qed.

Lemma delivered_at_set d s st s' q :
  delivered_at (set_slot d s st) s' q <->
  if decide (s = s') then delivered st q else delivered_at d s' q.
Proof. unfold delivered_at. rewrite slot_entry_set. by case_decide. Qed.

Lemma dedup_inv_empty w b : 1 <= w -> dedup_inv (mkDedup ∅ ∅ w b).
Proof.
  intros Hw. split; [done|..]; intros; unfold slot_entry; cbn [slots];
    rewrite lookup_empty; [apply slot_inv_empty|apply windowed_empty].
Qed.

(** Replacing one slot by a later, invariant-keeping state of it. *)
Lemma set_slot_later d s st :
  dedup_inv d -> slot_inv st -> base (slot_entry d s) <= base st ->
  (forward_collapse d = true -> windowed (window d) st) ->
  (forall q, 0 <= q -> delivered (slot_entry d s) q -> delivered st q) ->
  dedup_inv (set_slot d s st) /\ extends d (set_slot d s st).
Proof.
  intros [Hw Hs Hwin] Hi Hb Hwst Hd. split; split; cbn [window forward_collapse retired_through set_slot]; try done.
  - intros s'. rewrite slot_entry_set. case_decide; auto.
  - intros Hfc s'. rewrite slot_entry_set. case_decide; auto.
  - intros s'. rewrite slot_entry_set. case_decide; subst; [done|lia].
  - intros s' q Hq. unfold delivered_at. rewrite slot_entry_set. case_decide; subst; auto.
Qed.

Lemma accept_offered d s q :
  dedup_inv d -> is_u64 q ->
  offered (window d) (forward_collapse d) (slot_entry d s) q
    (accept_slot (window d) (forward_collapse d) (slot_entry d s) q).
Proof. intros [Hw Hs Hwin] Hq. apply accept_slot_spec; auto. Qed.

(** One offer against the whole dedup. *)
Lemma accept_spec d s q :
  dedup_inv d -> is_u64 q ->
  let r := accept d s q in
  dedup_inv r.2 /\ extends d r.2 /\
  (forall s', s' <> s -> slots r.2 !! s' = slots d !! s') /\
  match r.1 with
  | New => ~ delivered_at d s q /\ delivered_at r.2 s q /\
           (forward_collapse d = false -> forall s' q', 0 <= q' ->
              delivered_at r.2 s' q' <-> delivered_at d s' q' \/ (s' = s /\ q' = q))
  | Duplicate => delivered_at d s q /\ forall s' q', delivered_at r.2 s' q' <-> delivered_at d s' q'
  | OutOfWindow =>
      base (slot_entry d s) + window d <= q /\
      forall s' q', delivered_at r.2 s' q' <-> delivered_at d s' q'
  end.
Proof.
  intros Hi Hq. destruct (accept_offered d s q Hi Hq) as [Ho1 Ho2 Ho3 Ho4].
  assert (Hq0 : 0 <= q) by width_lia.
  unfold accept. cbn zeta. set (r := accept_slot _ _ _ _) in *. cbn [fst snd].
  assert (Hmono : forall q', 0 <= q' -> delivered (slot_entry d s) q' -> delivered r.2 q').
  { intros q' Hq' Hd. destruct r.1; [|by destruct Ho4 as [_ ->]|by destruct Ho4 as (_ & _ & ->)].
    apply Ho4; [done|]. by left. }
  destruct (set_slot_later d s r.2) as [Hi2 He2];
    [done|done|done|intros ?; apply Ho3, di_windowed; done|done|].
  split; [done|]. split; [done|]. split; [intros; cbn; by rewrite lookup_insert_ne|].
  destruct r.1.
  - destruct Ho4 as (Hn & _ & Hgrow). split; [done|]. split.
    { rewrite delivered_at_set, decide_True by done. apply Hgrow; [done|]. right. by left. }
    intros Hfc s' q' Hq'. rewrite delivered_at_set. case_decide; subst.
    + rewrite Hgrow by done. unfold grown, delivered_at. rewrite Hfc. naive_solver.
    + naive_solver.
  - destruct Ho4 as [Hd ->]. split; [done|]. intros s' q'. rewrite delivered_at_set. by case_decide; subst.
  - destruct Ho4 as (_ & Hb & ->). split; [done|]. intros s' q'. rewrite delivered_at_set.
    by case_decide; subst.
Qed.

(** ** The retain loop *)

(** Payload fields a decoded message can hold. *)
Definition recv_payload p : Prop := 0 <= slot p /\ is_u64 (seq p).

(** What a (possibly cut short) pass over a packet did. *)
Record passed d ps d' (kept : list Payload) (failure : option LinkError) : Prop := {
  pa_inv : dedup_inv d';
  pa_extends : extends d d';
  pa_frame : forall s, (forall p, p ∈ ps -> slot p = s -> u8_max < s) -> slots d' !! s = slots d !! s;
  pa_kept : sublist kept ps;
  pa_fresh : forall p, p ∈ kept ->
    slot p <= u8_max /\ ~ delivered_at d (slot p) (seq p) /\ delivered_at d' (slot p) (seq p);
  pa_once : NoDup (map origin kept);
  pa_complete : failure = None -> forall p, p ∈ ps ->
    slot p <= u8_max /\ delivered_at d' (slot p) (seq p);
  pa_exact : forward_collapse d = false -> forall s q, 0 <= q ->
    delivered_at d' s q <-> delivered_at d s q \/ (s, q) ∈ map origin kept;
}.

Lemma passed_failed d ps e d' :
  dedup_inv d' -> extends d d' ->
  (forall s, (forall p, p ∈ ps -> slot p = s -> u8_max < s) -> slots d' !! s = slots d !! s) ->
  (forall s q, 0 <= q -> delivered_at d' s q <-> delivered_at d s q) ->
  passed d ps d' [] (Some e).
Proof.
  intros Hi He Hf Hd. split; [done|done|done|apply sublist_nil_l|set_solver|constructor|done|].
  intros _ s q Hq. rewrite Hd by done. cbn. set_solver.
Qed.

(** A duplicate at the head of the packet changes nothing that matters. *)
Lemma passed_duplicate d d1 p ps d' kept f :
  extends d d1 -> slot p <= u8_max ->
  (forall s, s <> slot p -> slots d1 !! s = slots d !! s) ->
  0 <= seq p -> delivered_at d (slot p) (seq p) ->
  (forall s q, delivered_at d1 s q <-> delivered_at d s q) ->
  passed d1 ps d' kept f -> passed d (p :: ps) d' kept f.
Proof.
  intros He Hs Hfr Hq Hdel Hsame [Hi He' Hf Hk Hfresh Hon Hco Hex]. split; [done|by etrans| | | |done| |].
  - intros s Hn. rewrite Hf; [|intros p' Hp'; apply Hn; by right].
    apply Hfr. intros ->. specialize (Hn p ltac:(left) eq_refl). lia.
  - by apply sublist_cons.
  - intros p' Hp'. destruct (Hfresh p' Hp') as (? & Hn & ?). split; [done|]. split; [|done].
    by rewrite <- Hsame.
  - intros Hnone p' [->|Hp']%elem_of_cons; [|by apply Hco]. split; [done|].
    apply (ex_delivered _ _ He'); [done|]. by rewrite Hsame.
  - intros Hfc s q Hq'. rewrite Hex, Hsame by (done || by rewrite (ex_collapse _ _ He)). done.
Qed.

(** A new payload at the head of the packet is kept. *)
Lemma passed_new d d1 p ps d' kept f :
  extends d d1 -> slot p <= u8_max ->
  (forall s, s <> slot p -> slots d1 !! s = slots d !! s) ->
  0 <= seq p -> (forall p', p' ∈ ps -> 0 <= seq p') ->
  ~ delivered_at d (slot p) (seq p) -> delivered_at d1 (slot p) (seq p) ->
  (forward_collapse d = false -> forall s q, 0 <= q ->
     delivered_at d1 s q <-> delivered_at d s q \/ (s = slot p /\ q = seq p)) ->
  passed d1 ps d' kept f -> passed d (p :: ps) d' (p :: kept) f.
Proof.
  intros He Hs Hfr Hq Hqs Hnot Hdel Hgrow [Hi He' Hf Hk Hfresh Hon Hco Hex].
  assert (Hsub : forall p', p' ∈ kept -> p' ∈ ps) by (intros ? ?; by eapply elem_of_sublist).
  split; [done|by etrans| | | | | |].
  - intros s Hn. rewrite Hf; [|intros p' Hp'; apply Hn; by right].
    apply Hfr. intros ->. specialize (Hn p ltac:(left) eq_refl). lia.
  - by apply sublist_skip.
  - intros p' [->|Hp']%elem_of_cons.
    + split; [done|]. split; [done|]. by apply (ex_delivered _ _ He').
    + destruct (Hfresh p' Hp') as (? & Hn & ?). split; [done|]. split; [|done].
      intros Hd. apply Hn. apply (ex_delivered _ _ He); auto.
  - cbn. constructor; [|done]. rewrite list_elem_of_fmap. intros (p' & Heq & Hp').
    destruct (Hfresh p' Hp') as (_ & Hn & _). injection Heq as Hs' Hq'. apply Hn. by rewrite <- Hs', <- Hq'.
  - intros Hnone p' [->|Hp']%elem_of_cons; [|by apply Hco]. split; [done|].
    by apply (ex_delivered _ _ He').
  - intros Hfc s q Hq'. rewrite Hex by (done || by rewrite (ex_collapse _ _ He)).
    rewrite Hgrow by done. cbn. rewrite elem_of_cons. unfold origin at 2. split.
    + intros [[?|[-> ->]]|?]; tauto.
    + intros [?|[[= -> ->]|?]]; tauto.
Qed.

Lemma retain_loop_passed d ps :
  dedup_inv d -> Forall recv_payload ps ->
  let r := retain_loop d ps in passed d ps r.1.1 r.1.2 r.2.
Proof.
  intros Hi Hps. revert d Hi. induction Hps as [|p ps [Hs0 Hq] Hps IH]; intros d Hi; cbn [retain_loop].
  { split; [done|done|done|done|set_solver|constructor|set_solver|]. cbn. set_solver. }
  assert (Hq0 : 0 <= seq p) by width_lia.
  destruct (u8_try_from (slot p)) as [s|] eqn:Hu8.
  2: { cbn. apply passed_failed; done. }
  apply u8_try_from_Some in Hu8 as [-> Hs].
  destruct (accept_spec d (slot p) (seq p) Hi Hq) as (Hi1 & He1 & Hfr & Hv).
  destruct (accept d (slot p) (seq p)) as [[| |] d1]; cbn [fst snd] in *.
  - specialize (IH d1 Hi1). destruct (retain_loop d1 ps) as [[d2 kept] f]. cbn [fst snd] in *.
    destruct Hv as (Hn & Hd1 & Hgrow). eapply passed_new; eauto.
    intros p' Hp'. rewrite Forall_forall in Hps. destruct (Hps p' Hp'). width_lia.
  - specialize (IH d1 Hi1). destruct Hv as [Hd Hsame]. by eapply passed_duplicate; eauto.
  - destruct Hv as [Hb Hsame]. apply passed_failed; [done|done| |auto].
    intros s Hn. apply Hfr. intros ->. specialize (Hn p ltac:(left) eq_refl). lia.
Qed.

(** The loop cannot fail when every payload starts within its slot's window:
    the window only moves up while the packet is processed. *)
Lemma retain_loop_succeeds d ps :
  dedup_inv d -> Forall recv_payload ps ->
  (forall p, p ∈ ps -> slot p <= u8_max /\
     (forward_collapse d = false -> seq p < base (slot_entry d (slot p)) + window d)) ->
  (retain_loop d ps).2 = None.
Proof.
  intros Hi Hps. revert d Hi. induction Hps as [|p ps [Hs0 Hq] Hps IH]; intros d Hi Hin; cbn [retain_loop]; [done|].
  destruct (Hin p ltac:(left)) as [Hs Hw]. unfold u8_try_from.
  rewrite (proj2 (Z.leb_le _ _) Hs).
  destruct (accept_spec d (slot p) (seq p) Hi Hq) as (Hi1 & He1 & Hfr & Hv).
  pose proof (of_verdict _ _ _ _ _ (accept_offered d (slot p) (seq p) Hi Hq)) as Hv'.
  unfold accept in *. destruct (accept_slot _ _ _ _) as [v st1]. cbn [fst snd] in *.
  assert (IH' : (retain_loop (set_slot d (slot p) st1) ps).2 = None).
  { apply IH; [done|]. intros p' Hp'. destruct (Hin p' ltac:(by right)) as [? Hw']. split; [done|].
    intros Hfc. specialize (Hw' Hfc). pose proof (ex_base _ _ He1 (slot p')).
    change (window (set_slot _ _ _)) with (window d). lia. }
  destruct v; [|done|destruct Hv' as (Hfc & ? & _); specialize (Hw Hfc); lia].
  destruct (retain_loop (set_slot d (slot p) st1) ps) as [[d2 kept] f]. done.
Qed.

(** ** Sorting *)

Definition key_leP p1 p2 : Prop := key_le p1 p2 = true.

Lemma key_leP_iff p1 p2 :
  key_leP p1 p2 <-> slot p1 < slot p2 \/ (slot p1 = slot p2 /\ seq p1 <= seq p2).
Proof.
  unfold key_leP, key_le. rewrite orb_true_iff, andb_true_iff, Z.ltb_lt, Z.eqb_eq, Z.leb_le. done.
Qed.

Lemma insert_payload_Permutation p ps : insert_payload p ps ≡ₚ p :: ps.
Proof.
  induction ps as [|q ps IH]; cbn; [done|]. destruct (key_le p q); [done|].
  rewrite IH. apply Permutation_swap.
Qed.

Lemma sort_payloads_Permutation ps : sort_payloads ps ≡ₚ ps.
Proof.
  induction ps as [|p ps IH]; cbn; [done|]. rewrite insert_payload_Permutation. by rewrite IH.
Qed.

Lemma insert_payload_sorted p ps :
  StronglySorted key_leP ps -> StronglySorted key_leP (insert_payload p ps).
Proof.
  induction ps as [|q ps IH]; cbn; [repeat constructor|].
  intros Hsq. assert (Hs := Hsq). apply StronglySorted_inv in Hs as [Hs Hall].
  destruct (key_le p q) eqn:Hpq.
  - constructor; [done|]. constructor; [done|]. eapply Forall_impl; [exact Hall|].
    intros x Hqx. fold (key_leP p q) in Hpq. rewrite key_leP_iff in *. lia.
  - constructor; [auto|]. rewrite Forall_forall in *. intros x.
    rewrite insert_payload_Permutation. intros [->|Hx]%elem_of_cons; [|auto].
    assert (~ key_leP p q) as Hn by (unfold key_leP; congruence).
    rewrite key_leP_iff in *. lia.
Qed.

Lemma sort_payloads_sorted ps : StronglySorted key_leP (sort_payloads ps).
Proof. induction ps; cbn; [constructor|by apply insert_payload_sorted]. Qed.

Lemma StronglySorted_sublist {A} (R : relation A) l1 l2 :
  sublist l1 l2 -> StronglySorted R l2 -> StronglySorted R l1.
Proof.
  induction 1 as [|x l1 l2 Hsub IH|x l1 l2 Hsub IH]; [done|..];
    intros [Hs Hall]%StronglySorted_inv; [|auto].
  constructor; [auto|]. rewrite Forall_forall in *. intros y Hy. apply Hall. by eapply elem_of_sublist.
Qed.

(** ** Snapshot and restore *)

Lemma snapshot_entries d prev ps e :
  e ∈ snapshot_sorted_payload_slots d prev ps -> e.2 = slots d !! e.1.
Proof.
  revert prev. induction ps as [|p ps IH]; intros prev; cbn; [set_solver|].
  destruct (u8_try_from (slot p)); [|by apply IH]. case_bool_decide; [by apply IH|].
  intros [->|He]%elem_of_cons; [done|by eapply IH].
Qed.

Lemma snapshot_covers d prev ps p s :
  p ∈ ps -> u8_try_from (slot p) = Some s ->
  prev = Some s \/ s ∈ map fst (snapshot_sorted_payload_slots d prev ps).
Proof.
  revert prev. induction ps as [|p' ps IH]; intros prev Hp Hs; [set_solver|].
  cbn [snapshot_sorted_payload_slots]. apply elem_of_cons in Hp as [->|Hp].
  - rewrite Hs. case_bool_decide; [by left|]. right. cbn. left.
  - destruct (u8_try_from (slot p')) as [s'|] eqn:Hs'; [|by apply IH].
    case_bool_decide; [by apply IH|]. right. cbn.
    destruct (IH (Some s') Hp Hs) as [[= ->]|?]; [left|by right].
Qed.

Lemma restore_lookup (D m : gmap Z SlotDedup) snap s :
  (forall e, e ∈ snap -> e.2 = D !! e.1) ->
  foldl (fun m e => match e.2 with Some st => <[e.1 := st]> m | None => delete e.1 m end) m snap !! s
  = if decide (s ∈ map fst snap) then D !! s else m !! s.
Proof.
  revert m. induction snap as [|[k o] snap IH]; intros m Hsnap; [by rewrite decide_False by set_solver|].
  cbn [foldl map fst snd]. rewrite IH by (intros; apply Hsnap; by right).
  pose proof (Hsnap (k, o) ltac:(left)) as Hk. cbn in Hk.
  destruct (decide (s ∈ map fst snap)); [rewrite decide_True by (by right); done|].
  destruct (decide (s = k)) as [->|Hne].
  - rewrite decide_True by left. destruct o; [by rewrite lookup_insert_eq|by rewrite lookup_delete_eq].
  - rewrite decide_False by set_solver.
    destruct o; [by rewrite lookup_insert_ne|by rewrite lookup_delete_ne].
Qed.

(** Restoring after a failed pass gives back the very state it started from. *)
Lemma restore_undoes d ps d' kept f :
  passed d ps d' kept f ->
  restore d' (snapshot_sorted_payload_slots d None ps) = d.
Proof.
  intros [_ [Hw Hc Hr _ _] Hf _ _ _ _ _]. unfold restore. destruct d as [S R w c].
  cbn [slots retired_through window forward_collapse] in *. rewrite Hw, Hc, Hr. f_equal.
  apply map_eq. intros s. rewrite (restore_lookup S).
  2: { intros e He. by eapply (snapshot_entries (mkDedup S R w c)). }
  case_decide as Hin; [done|]. apply Hf. intros p Hp <-.
  destruct (u8_try_from (slot p)) as [s|] eqn:Hs.
  - exfalso. assert (Hs' := Hs). apply u8_try_from_Some in Hs' as [-> _].
    by destruct (snapshot_covers (mkDedup S R w c) None ps p (slot p) Hp Hs).
  - unfold u8_try_from in Hs. revert Hs. zcase; [done|lia].
Qed.

(** ** One packet *)

Lemma retain_fresh_passed d ps :
  dedup_inv d -> Forall recv_payload ps ->
  match retain_fresh_payloads d ps with
  | (Ok kept, d') => passed d (sort_payloads ps) d' kept None
  | (Err _, d') => d' = d
  end.
Proof.
  intros Hi Hps. unfold retain_fresh_payloads.
  assert (Hps' : Forall recv_payload (sort_payloads ps)) by (by rewrite sort_payloads_Permutation).
  pose proof (retain_loop_passed d _ Hi Hps') as Hp. cbn zeta in Hp.
  destruct (retain_loop d (sort_payloads ps)) as [[d' kept] [e|]]; cbn [fst snd] in Hp; [|done].
  by eapply restore_undoes.
Qed.

(** The filter refuses with its own two errors only. *)
Lemma retain_fresh_error d ps e d' k :
  retain_fresh_payloads d ps = (Err e, d') -> e <> LinkAck k.
Proof.
  unfold retain_fresh_payloads. generalize (sort_payloads ps). intros sorted.
  assert (Hloop : forall ps d, (retain_loop d ps).2 <> Some (LinkAck k)).
  { clear. induction ps as [|p ps IH]; intros d; cbn [retain_loop]; [done|].
    destruct (u8_try_from (slot p)) as [s|]; [|done].
    destruct (accept d s (seq p)) as [[| |] d1]; [|by apply IH|done].
    specialize (IH d1). by destruct (retain_loop d1 ps) as [[d2 kept] f]. }
  specialize (Hloop sorted d). destruct (retain_loop d sorted) as [[d2 kept] [e'|]]; [|done].
  cbn in Hloop. intros [= <- <-] ->. done.
Qed.

(** A packet is filtered transactionally.  On success the kept payloads are
    exactly the packet's payloads not delivered before, each origin once, in
    [(slot, seq)] order, and in strict mode the dedup now remembers exactly
    those in addition; on failure the dedup is the very state it was.  A packet
    all of whose payloads sit within their slots' windows always succeeds. *)
Theorem retain_fresh_exact d ps :
  dedup_inv d -> Forall recv_payload ps ->
  match retain_fresh_payloads d ps with
  | (Ok kept, d') =>
      dedup_inv d' /\ StronglySorted key_leP kept /\ NoDup (map origin kept) /\
      (forall p, p ∈ kept -> p ∈ ps) /\
      (forward_collapse d = false -> forall s q, (s, q) ∈ map origin kept <->
         (s, q) ∈ map origin ps /\ ~ delivered_at d s q) /\
      (forward_collapse d = false -> forall s q, 0 <= q ->
         delivered_at d' s q <-> delivered_at d s q \/ (s, q) ∈ map origin ps)
  | (Err _, d') =>
      d' = d /\
      Exists (fun p => u8_max < slot p \/
        (forward_collapse d = false /\ base (slot_entry d (slot p)) + window d <= seq p)) ps
  end.
Proof.
  intros Hi Hps. pose proof (retain_fresh_passed d ps Hi Hps) as Hr.
  destruct (retain_fresh_payloads d ps) as [[kept|e] d'] eqn:Hret.
  - destruct Hr as [Hi' He Hf Hk Hfresh Hon Hco Hex].
    assert (Hsub : forall p, p ∈ kept -> p ∈ ps).
    { intros p Hp. rewrite <- sort_payloads_Permutation. by eapply elem_of_sublist. }
    assert (Hin : forall s q, (s, q) ∈ map origin ps -> 0 <= q /\ delivered_at d' s q).
    { intros s q (p & [= -> ->] & Hp)%list_elem_of_fmap. split.
      - rewrite Forall_forall in Hps. destruct (Hps p Hp). width_lia.
      - by apply (Hco eq_refl p); rewrite sort_payloads_Permutation. }
    assert (Hkp : forall s q, (s, q) ∈ map origin kept -> (s, q) ∈ map origin ps /\ ~ delivered_at d s q).
    { intros s q (p & [= -> ->] & Hp)%list_elem_of_fmap. split; [|by apply Hfresh].
      apply list_elem_of_fmap. exists p. auto. }
    split; [done|]. split; [eapply StronglySorted_sublist; [done|apply sort_payloads_sorted]|].
    split; [done|]. split; [done|]. split; intros Hfc s q.
    + split; [apply Hkp|]. intros [Hps' Hn]. destruct (Hin s q Hps') as [Hq Hd].
      by apply Hex in Hd as [?|?].
    + intros Hq. rewrite Hex by done. split; [intros [?|?%Hkp]; tauto|].
      intros [?|Hp]; [tauto|]. destruct (Hin s q Hp) as [_ Hd]. by apply Hex in Hd.
  - split; [done|]. apply dec_stable. rewrite Exists_exists. intros Hno.
    assert (Hnone : (retain_loop d (sort_payloads ps)).2 = None).
    { apply retain_loop_succeeds; [done|by rewrite sort_payloads_Permutation|].
      intros p. rewrite sort_payloads_Permutation. intros Hp.
      destruct (decide (slot p <= u8_max)) as [Hs|Hs]; [|destruct Hno; exists p; split; [done|left; lia]].
      split; [done|]. intros Hfc. destruct (decide (seq p < base (slot_entry d (slot p)) + window d)); [done|].
      destruct Hno. exists p. split; [done|]. right. split; [done|lia]. }
    unfold retain_fresh_payloads in Hret.
    destruct (retain_loop d (sort_payloads ps)) as [[d2 kept] f]. cbn in Hnone. by rewrite Hnone in Hret.
Qed.

(** ** Seeds and anchors *)

(** A slot brought to [st], which delivers the numbers of [P] in addition. *)
Lemma set_slot_grows d s st (P : Z -> Prop) :
  dedup_inv d -> slot_inv st -> base (slot_entry d s) <= base st ->
  (forward_collapse d = true -> windowed (window d) st) ->
  (forall q, 0 <= q -> delivered st q <-> delivered (slot_entry d s) q \/ P q) ->
  dedup_inv (set_slot d s st) /\ extends d (set_slot d s st) /\
  forall s' q, 0 <= q ->
    delivered_at (set_slot d s st) s' q <-> delivered_at d s' q \/ (s' = s /\ P q).
Proof.
  intros Hi Hst Hb Hwin Hd.
  destruct (set_slot_later d s st) as [Hi' He'];
    [done|done|done|done|intros; apply Hd; [done|by left]|].
  split; [done|]. split; [done|]. intros s' q Hq. rewrite delivered_at_set.
  case_decide; subst; [rewrite Hd by done; unfold delivered_at; naive_solver|naive_solver].
Qed.

Lemma mark_delivered_spec d s q :
  dedup_inv d -> is_u64 q -> forward_collapse d = false ->
  dedup_inv (mark_delivered d s q) /\ extends d (mark_delivered d s q) /\
  forall s' x, 0 <= x ->
    delivered_at (mark_delivered d s q) s' x <-> delivered_at d s' x \/ (s' = s /\ x = q).
Proof.
  intros Hi Hq Hfc. pose proof (di_slot _ Hi s) as Hs. assert (Hs' := Hs). destruct Hs' as [Hwf Hb Hin].
  assert (Hins : base (slot_entry d s) < q ->
    slot_inv (mkSlotDedup (delivered_through (slot_entry d s)) (BTreeSet.insert q (ahead (slot_entry d s)))) /\
    forall x, delivered (mkSlotDedup (delivered_through (slot_entry d s)) (BTreeSet.insert q (ahead (slot_entry d s)))) x
      <-> delivered (slot_entry d s) x \/ x = q).
  { intros Hlt. split.
    - split; [by apply BTreeSet.wf_set_insert|done|]. intros x [->|Hx]%BTreeSet.elem_of_insert; [|by apply Hin].
      split; [exact Hlt|width_lia].
    - intros x. unfold delivered. cbn [ahead]. rewrite BTreeSet.elem_of_insert.
      change (base (mkSlotDedup _ _)) with (base (slot_entry d s)). tauto. }
  assert (Hadv : base (slot_entry d s) = q -> q <= u64_max ->
    dedup_inv (set_slot d s (advance_contiguous (slot_entry d s) q)) /\
    extends d (set_slot d s (advance_contiguous (slot_entry d s) q)) /\
    forall s' x, 0 <= x -> delivered_at (set_slot d s (advance_contiguous (slot_entry d s) q)) s' x
      <-> delivered_at d s' x \/ (s' = s /\ x = q)).
  { intros Hbq Hmax. destruct (advance_spec _ q Hs Hbq Hmax) as (? & ? & ? & ?).
    apply set_slot_grows; [done|done|done|congruence|done]. }
  unfold mark_delivered. cbn zeta. destruct (delivered_through (slot_entry d s)) as [top|] eqn:Hdt.
  - assert (Hbase : base (slot_entry d s) = top + 1) by (unfold base; by rewrite Hdt).
    destruct (Z.leb_spec q top).
    { apply set_slot_grows; [done|done|done|congruence|]. intros x Hx. split; [tauto|].
      intros [?| ->]; [done|]. left. lia. }
    destruct (Z.eqb_spec q (top + 1)); [apply Hadv; [lia|width_lia]|].
    destruct Hins as [? ?]; [lia|]. by apply set_slot_grows; [| |unfold base; cbn; rewrite ?Hdt|congruence|].
  - assert (Hbase : base (slot_entry d s) = 0) by (unfold base; by rewrite Hdt).
    destruct (Z.eqb_spec q 0) as [->|]; [apply Hadv; [lia|width_lia]|].
    destruct Hins as [? ?]; [width_lia|]. by apply set_slot_grows; [| |unfold base; cbn; rewrite ?Hdt|congruence|].
Qed.

Lemma mark_delivered_through_spec d s t :
  dedup_inv d -> is_u64 t -> forward_collapse d = false ->
  dedup_inv (mark_delivered_through d s t) /\ extends d (mark_delivered_through d s t) /\
  forall s' x, 0 <= x ->
    delivered_at (mark_delivered_through d s t) s' x <-> delivered_at d s' x \/ (s' = s /\ x <= t).
Proof.
  intros Hi Ht Hfc. pose proof (di_slot _ Hi s) as [Hwf Hb Hin].
  unfold mark_delivered_through. cbn zeta.
  set (dt := match delivered_through (slot_entry d s) with Some top => _ | None => _ end).
  set (rest := match checked_add u64_max t 1 with Some above => _ | None => _ end).
  set (st1 := mkSlotDedup dt rest).
  assert (Hb1 : base st1 = Z.max (base (slot_entry d s)) (t + 1)).
  { unfold base, st1, dt. cbn [delivered_through]. destruct (delivered_through (slot_entry d s)); [|width_lia].
    destruct (Z.ltb_spec z t); lia. }
  assert (Hr : forall x, x ∈ rest <-> t < x /\ x ∈ ahead (slot_entry d s)).
  { intros x. unfold rest. destruct (checked_add u64_max t 1) as [a|] eqn:Ha.
    - apply checked_add_Some in Ha as [-> _]. rewrite BTreeSet.elem_of_split_off. split; intros [? ?]; split; done || lia.
    - split; [set_solver|]. intros [? Hx]. specialize (Hin x Hx). unfold checked_add in Ha.
      revert Ha. zcase; [done|lia]. }
  assert (Hwf1 : BTreeSet.wf rest).
  { unfold rest. destruct (checked_add u64_max t 1); [by apply BTreeSet.wf_filter|constructor]. }
  destruct (absorb_folds st1) as [[Hd Ha Hbase] Hi1]; [done|width_lia| |].
  { intros x [? Hx]%Hr. specialize (Hin x Hx). lia. }
  apply set_slot_grows; [done|done|lia|congruence|].
  intros x Hx. rewrite Hd by done. unfold delivered. rewrite Hb1. cbn [ahead st1]. rewrite Hr.
  split; [intros [?|?]; [|tauto]|intros [[?|?]|?]; [left; lia| |left; lia]].
  - destruct (decide (x <= t)); [by right|left; left; lia].
  - destruct (decide (x <= t)); [left; lia|right; split; [lia|done]].
Qed.

(** The slot has received nothing. *)
Definition pristine d (s : Z) : Prop :=
  delivered_through (slot_entry d s) = None /\ ahead (slot_entry d s) = [].

Lemma anchor_spec d s a :
  dedup_inv d -> is_u64 a ->
  dedup_inv (anchor d s a) /\ extends d (anchor d s a) /\
  forall s' x, 0 <= x ->
    delivered_at (anchor d s a) s' x <-> delivered_at d s' x \/ (s' = s /\ pristine d s /\ x < a).
Proof.
  intros Hi Ha. pose proof (di_slot _ Hi s) as Hs. unfold anchor.
  destruct (checked_sub a 1) as [top|] eqn:Hsub.
  2: { split; [done|]. split; [done|]. intros s' x Hx. split; [tauto|].
       intros [?|(_ & _ & ?)]; [done|]. unfold checked_sub in Hsub. revert Hsub. zcase; [done|lia]. }
  apply checked_sub_Some in Hsub as [-> Hge].
  assert (Hsame : ~ pristine d s -> forall st, st = slot_entry d s ->
    dedup_inv (set_slot d s st) /\ extends d (set_slot d s st) /\ forall s' x, 0 <= x ->
      delivered_at (set_slot d s st) s' x <-> delivered_at d s' x \/ (s' = s /\ pristine d s /\ x < a)).
  { intros Hn st ->. apply set_slot_grows; [done|done|done| |tauto].
    intros Hfc. by apply (di_windowed _ Hi). }
  destruct (delivered_through (slot_entry d s)) as [top|] eqn:Hdt.
  { apply Hsame; [unfold pristine; rewrite Hdt; by intros [? _]|done]. }
  destruct (ahead (slot_entry d s)) as [|y l] eqn:Hah.
  2: { apply Hsame; [unfold pristine; rewrite Hah; by intros [_ ?]|done]. }
  assert (Hb0 : base (slot_entry d s) = 0) by (unfold base; by rewrite Hdt).
  apply set_slot_grows; [done| |rewrite Hb0; unfold base; cbn; lia|intros _ x Hx; set_solver|].
  - split; [constructor|unfold base; cbn; width_lia|set_solver].
  - intros x Hx. unfold delivered, pristine. rewrite Hb0, Hah, Hdt. unfold base. cbn [delivered_through ahead].
    split; [intros [?|?]; [right; split; [done|lia]|set_solver]|].
    intros [[?|?]|[_ ?]]; [lia|set_solver|left; lia].
Qed.

(** ** Any sequence of receive-side events *)

Inductive recv_op : Type :=
| RPacket (ps : list Payload)
| RExternal (s q : Z)
| RSeed (s q : Z)
| RSeedThrough (s t : Z)
| RAnchor (s a : Z).

(** The origins handed to the consumer, and the state after. *)
Definition recv_one d (op : recv_op) : list (Z * Z) * Dedup :=
  match op with
  | RPacket ps =>
      match retain_fresh_payloads d ps with
      | (Ok kept, d') => (map origin kept, d')
      | (Err _, d') => ([], d')
      end
  | RExternal s q =>
      match accept d s q with
      | (New, d') => ([(s, q)], d')
      | (_, d') => ([], d')
      end
  | RSeed s q => ([], mark_delivered d s q)
  | RSeedThrough s t => ([], mark_delivered_through d s t)
  | RAnchor s a => ([], anchor d s a)
  end.

(** What an event marks delivered without handing anything over. *)
Definition seeded d (op : recv_op) (s q : Z) : Prop :=
  match op with
  | RSeed s' q' => s = s' /\ q = q'
  | RSeedThrough s' t => s = s' /\ q <= t
  | RAnchor s' a => s = s' /\ pristine d s' /\ q < a
  | _ => False
  end.

(** Wire-typed arguments; only the strict dedup of the client edge is seeded. *)
Definition recv_ok d (op : recv_op) : Prop :=
  match op with
  | RPacket ps => Forall recv_payload ps
  | RExternal _ q => is_u64 q
  | RSeed _ q => is_u64 q /\ forward_collapse d = false
  | RSeedThrough _ t => is_u64 t /\ forward_collapse d = false
  | RAnchor _ a => is_u64 a
  end.

Fixpoint recv_all d (ops : list recv_op) : list (Z * Z) * Dedup :=
  match ops with
  | [] => ([], d)
  | op :: ops =>
      let r := recv_one d op in
      let r' := recv_all r.2 ops in (r.1 ++ r'.1, r'.2)
  end.

Fixpoint seeded_all d (ops : list recv_op) (s q : Z) : Prop :=
  match ops with
  | [] => False
  | op :: ops => seeded d op s q \/ seeded_all (recv_one d op).2 ops s q
  end.

(** What a run hands over is fresh, once each, and remembered. *)
Record handed d (out : list (Z * Z)) d' (seeds : Z -> Z -> Prop) : Prop := {
  ha_inv : dedup_inv d';
  ha_extends : extends d d';
  ha_once : NoDup out;
  ha_fresh : forall s q, (s, q) ∈ out -> 0 <= q /\ ~ delivered_at d s q /\ delivered_at d' s q;
  ha_exact : forward_collapse d = false -> forall s q, 0 <= q ->
    delivered_at d' s q <-> delivered_at d s q \/ (s, q) ∈ out \/ seeds s q;
}.

Lemma handed_quiet d d' (P : Z -> Z -> Prop) :
  dedup_inv d' -> extends d d' ->
  (forall s q, 0 <= q -> delivered_at d' s q <-> delivered_at d s q \/ P s q) ->
  handed d [] d' P.
Proof.
  intros Hi He Hd. split; [done|done|constructor|set_solver|].
  intros _ s q Hq. rewrite Hd by done. set_solver.
Qed.

Lemma recv_handed d op :
  dedup_inv d -> recv_ok d op -> handed d (recv_one d op).1 (recv_one d op).2 (seeded d op).
Proof.
  intros Hi Hok. destruct op as [ps|s q|s q|s t|s a]; cbn [recv_one recv_ok seeded] in *.
  - pose proof (retain_fresh_passed d ps Hi Hok) as Hp.
    destruct (retain_fresh_payloads d ps) as [[kept|e] d']; cbn [fst snd].
    2: { subst d'. apply handed_quiet; [done|done|]. intros. cbn [seeded]. tauto. }
    destruct Hp as [Hi' He Hf Hk Hfresh Hon Hco Hex]. split; [done|done|done| |].
    + intros s q (p & [= -> ->] & Hp)%list_elem_of_fmap. split; [|by apply Hfresh].
      assert (Hp' : p ∈ ps) by (rewrite <- sort_payloads_Permutation; by eapply elem_of_sublist).
      rewrite Forall_forall in Hok. destruct (Hok p Hp'). width_lia.
    + intros Hfc s q Hq. rewrite Hex by done. cbn [seeded]. tauto.
  - destruct (accept_spec d s q Hi Hok) as (Hi1 & He1 & _ & Hv).
    destruct (accept d s q) as [[| |] d']; cbn [fst snd] in *.
    + destruct Hv as (Hn & Hd & Hgrow). split; [done|done|apply NoDup_singleton| |].
      * intros s' q' [= -> ->]%list_elem_of_singleton. split; [width_lia|done].
      * intros Hfc s' q' Hq'. rewrite Hgrow, list_elem_of_singleton by done. naive_solver.
    + destruct Hv as [_ Hd]. apply handed_quiet; [done|done|]. intros. rewrite Hd. cbn [seeded]. tauto.
    + destruct Hv as [_ Hd]. apply handed_quiet; [done|done|]. intros. rewrite Hd. cbn [seeded]. tauto.
  - destruct Hok as [Hq Hfc]. destruct (mark_delivered_spec d s q Hi Hq Hfc) as (? & ? & ?). by apply handed_quiet.
  - destruct Hok as [Hq Hfc]. destruct (mark_delivered_through_spec d s t Hi Hq Hfc) as (? & ? & ?). by apply handed_quiet.
  - destruct (anchor_spec d s a Hi Hok) as (? & ? & ?). by apply handed_quiet.
Qed.

Lemma recv_ok_extends d d' op : extends d d' -> recv_ok d op -> recv_ok d' op.
Proof. intros He. destruct op; cbn; rewrite ?(ex_collapse _ _ He); done. Qed.

Lemma recv_all_handed d ops :
  dedup_inv d -> Forall (recv_ok d) ops ->
  handed d (recv_all d ops).1 (recv_all d ops).2 (seeded_all d ops).
Proof.
  intros Hi Hops. revert d Hi Hops. induction ops as [|op ops IH]; intros d Hi Hops; cbn [recv_all seeded_all].
  { apply handed_quiet; [done|done|]. tauto. }
  apply Forall_cons in Hops as [Hop Hops]. destruct (recv_handed d op Hi Hop) as [Hi1 He1 Hn1 Hf1 Hx1].
  specialize (IH (recv_one d op).2 Hi1). destruct IH as [Hi2 He2 Hn2 Hf2 Hx2].
  { eapply Forall_impl; [exact Hops|]. intros. by eapply recv_ok_extends. }
  cbn zeta. cbn [fst snd]. split; [done|by etrans| | |].
  - apply NoDup_app. split; [done|]. split; [|done]. intros [s q] H1 H2.
    destruct (Hf1 s q H1) as (_ & _ & Hd). by destruct (Hf2 s q H2) as (_ & Hn & _).
  - intros s q [Hin|Hin]%elem_of_app.
    + destruct (Hf1 s q Hin) as (Hq & Hn & Hd). split; [done|]. split; [done|].
      by apply (ex_delivered _ _ He2).
    + destruct (Hf2 s q Hin) as (Hq & Hn & Hd). split; [done|]. split; [|done].
      intros Hd0. apply Hn. by apply (ex_delivered _ _ He1).
  - intros Hfc s q Hq. rewrite Hx2, Hx1 by (done || by rewrite (ex_collapse _ _ He1)).
    rewrite elem_of_app. tauto.
Qed.


(** ** Bounded memory *)

Definition dwindowed d : Prop := forall s, windowed (window d) (slot_entry d s).

Lemma accept_dwindowed d s q :
  dedup_inv d -> is_u64 q -> dwindowed d -> dwindowed (accept d s q).2.
Proof.
  intros Hi Hq Hw s'. destruct (accept_offered d s q Hi Hq) as [_ _ Hof _].
  unfold accept. cbn [snd]. rewrite slot_entry_set. case_decide; [by apply Hof|apply Hw].
Qed.

Lemma retain_loop_dwindowed d ps :
  dedup_inv d -> Forall recv_payload ps -> dwindowed d -> dwindowed (retain_loop d ps).1.1.
Proof.
  intros Hi Hps. revert d Hi. induction Hps as [|p ps [Hs0 Hq] Hps IH]; intros d Hi Hw; cbn [retain_loop]; [done|].
  destruct (u8_try_from (slot p)) as [s|]; [|done].
  pose proof (accept_dwindowed d s (seq p) Hi Hq Hw) as Hw1.
  destruct (accept_spec d s (seq p) Hi Hq) as (Hi1 & _).
  destruct (accept d s (seq p)) as [[| |] d1]; cbn [fst snd] in *; [|by apply IH|done].
  specialize (IH d1 Hi1 Hw1). by destruct (retain_loop d1 ps) as [[d2 kept] f].
Qed.

Definition is_seed (op : recv_op) : bool :=
  match op with RSeed _ _ | RSeedThrough _ _ => true | _ => false end.

Lemma recv_dwindowed d op :
  dedup_inv d -> recv_ok d op -> is_seed op = false -> dwindowed d -> dwindowed (recv_one d op).2.
Proof.
  intros Hi Hok Hns Hw. destruct op as [ps|s q| | |s a]; cbn [recv_one recv_ok] in *; try done.
  - pose proof (retain_fresh_passed d ps Hi Hok) as Hp. unfold retain_fresh_payloads in *.
    pose proof (retain_loop_dwindowed d (sort_payloads ps) Hi) as Hl.
    destruct (retain_loop d (sort_payloads ps)) as [[d' kept] [e|]]; cbn [fst snd] in *; [by rewrite Hp|].
    apply Hl; [by rewrite sort_payloads_Permutation|done].
  - pose proof (accept_dwindowed d s q Hi Hok Hw). by destruct (accept d s q) as [[| |] d'].
  - unfold anchor. destruct (checked_sub a 1); [|done]. cbn [snd]. intros s'. rewrite slot_entry_set.
    case_decide; [|apply Hw]. subst s'.
    destruct (delivered_through (slot_entry d s)); [apply Hw|].
    destruct (ahead (slot_entry d s)); [intros x Hx; set_solver|apply Hw].
Qed.

(** Whatever the peer sends, the out-of-order set of every slot stays below
    the receive window in size, in either mode: a link's dedup memory is
    bounded without trusting the peer. *)
Theorem dedup_memory_bounded w collapse ops :
  1 <= w -> Forall (recv_ok (mkDedup ∅ ∅ w collapse)) ops ->
  Forall (fun op => is_seed op = false) ops ->
  forall s, Z.of_nat (length (ahead (slot_entry (recv_all (mkDedup ∅ ∅ w collapse) ops).2 s))) < w.
Proof.
  intros Hw Hops Hns s. set (d0 := mkDedup ∅ ∅ w collapse) in *.
  assert (Hgen : forall ops d, dedup_inv d -> extends d0 d -> dwindowed d -> Forall (recv_ok d0) ops ->
    Forall (fun op => is_seed op = false) ops ->
    dedup_inv (recv_all d ops).2 /\ window (recv_all d ops).2 = w /\ dwindowed (recv_all d ops).2).
  { clear ops Hops Hns. induction ops as [|op ops IH]; intros d Hi He Hd Hops Hns; cbn [recv_all].
    { split; [done|]. split; [apply (ex_window _ _ He)|done]. }
    apply Forall_cons in Hops as [Hop Hops]. apply Forall_cons in Hns as [Hn Hns].
    pose proof (recv_ok_extends _ _ _ He Hop) as Hop'.
    destruct (recv_handed d op Hi Hop') as [Hi1 He1 _ _ _].
    apply IH; [done|by etrans|by apply recv_dwindowed|done|done]. }
  destruct (Hgen ops d0) as (Hi & Hwd & Hd); [by apply dedup_inv_empty|done| |done|done|].
  { intros s'. unfold slot_entry. cbn [slots d0]. rewrite lookup_empty. apply windowed_empty. }
  specialize (Hd s). rewrite Hwd in Hd. destruct (di_slot _ Hi s) as [Hwf Hb Hin].
  assert (Z.of_nat (length (ahead (slot_entry (recv_all d0 ops).2 s))) <=
    (base (slot_entry (recv_all d0 ops).2 s) + w) - (base (slot_entry (recv_all d0 ops).2 s) + 1)); [|lia].
  apply BTreeSet.length_bound; [done| |lia]. intros x Hx. specialize (Hin x Hx). specialize (Hd x Hx). lia.
Qed.

(** ** Witnesses *)

Definition turn (s q : Z) : Payload := mkPayload q s [] None None None None.

(** Out of order, with a redundant copy. *)
Definition demo_packet : list Payload := [turn 1 1; turn 0 0; turn 1 0; turn 1 1].

Lemma wire_turn s q : 0 <= s -> is_u64 q -> recv_payload (turn s q).
Proof. by split. Qed.

Lemma demo_packet_wire : Forall recv_payload demo_packet.
Proof. unfold demo_packet. repeat constructor; cbn; width_lia. Qed.

Lemma retain_fresh_exact_witness :
  map origin [turn 0 0; turn 1 0; turn 1 1] = [(0, 0); (1, 0); (1, 1)] /\
  match retain_fresh_payloads (with_window 4) demo_packet with
  | (Ok kept, d') => kept = [turn 0 0; turn 1 0; turn 1 1] /\ dedup_inv d'
  | (Err _, _) => False
  end.
Proof.
  split; [reflexivity|].
  pose proof (retain_fresh_exact (with_window 4) demo_packet
    (dedup_inv_empty 4 false ltac:(lia)) demo_packet_wire) as Hex.
  assert (Hok : exists d', retain_fresh_payloads (with_window 4) demo_packet
    = (Ok [turn 0 0; turn 1 0; turn 1 1], d')) by (eexists; vm_compute; reflexivity).
  destruct Hok as [d' Hok]. rewrite Hok in *. by destruct Hex.
Defined.

Definition demo_ops : list recv_op :=
  [RSeedThrough 2 1; RPacket demo_packet; RExternal 1 2; RPacket [turn 1 2; turn 1 9]; RPacket demo_packet].

Lemma demo_ops_ok : Forall (recv_ok (with_window 4)) demo_ops.
Proof.
  unfold demo_ops, demo_packet. repeat constructor; cbn; try width_lia.
Qed.


Lemma dedup_memory_bounded_witness :
  ahead (slot_entry (recv_all (mkDedup ∅ ∅ 4 true) [RPacket [turn 1 2; turn 1 9]]).2 1) = [9] /\
  Z.of_nat (length (ahead (slot_entry (recv_all (mkDedup ∅ ∅ 4 true) [RPacket [turn 1 2; turn 1 9]]).2 1))) < 4.
Proof.
  split; [vm_compute; reflexivity|].
  apply (dedup_memory_bounded 4 true [RPacket [turn 1 2; turn 1 9]]); [lia| |].
  - repeat constructor; cbn; width_lia.
  - repeat constructor.
Defined.
