(* ===== verification/Link.v ===== *)
(** * A transport link over one QUIC connection ([transport/src/link/mod.rs])

    The ack manager, the receive dedup and the ingress slot composed the way
    [Link] composes them.  The QUIC connection is a library: what it answers
    ([max_datagram_size], [send_datagram]) is an argument of each operation,
    and the datagrams an operation puts on the wire are part of its result. *)

From Stdlib Require Import ZArith Lia.
From stdpp Require Import gmap sorting list.
From S2P Require Import Prelude BTree SequenceBuffer Wire History AckManager AckInvariant AckRecv AckSend AckLiveness Dedup DedupPackets.

Open Scope Z_scope.

Record Link : Type := mkLink {
  acks : AckManager;
  dedup : Dedup;
  ingress_slot : option Z;
}.

(** What [recv] delivers. *)
Record Received : Type := mkReceived {
  fresh : list Payload;
  carried_payloads : bool;
  rcv_turns_complete : option Z;
}.

(** The library's answers to [send_datagram]. *)
Inductive datagram_outcome : Type := DgAccepted | DgTooLarge | DgFailed.

Definition new_link : Link := mkLink AckManager.new new_dedup None.
Definition with_ingress_slot (s : Z) : Link := mkLink AckManager.new new_dedup (Some s).

Definition with_acks (l : Link) (a : AckManager) : Link := mkLink a (dedup l) (ingress_slot l).
Definition with_dedup (l : Link) (d : Dedup) : Link := mkLink (acks l) d (ingress_slot l).

(** [rebind] and [rebind_from], which differ in the auxiliary task only. *)
Definition rebind (l : Link) : Link := with_acks l (reset_connection (acks l)).

Definition seed_delivered (l : Link) (s q : Z) : Link := with_dedup l (mark_delivered (dedup l) s q).
Definition seed_delivered_through (l : Link) (s t : Z) : Link :=
  with_dedup l (mark_delivered_through (dedup l) s t).
Definition anchor_receive_window (l : Link) (s a : Z) : Link := with_dedup l (anchor (dedup l) s a).
Definition link_delivered_through (l : Link) (s : Z) : option Z :=
  dedup_delivered_through (dedup l) s.

Definition retire_through (l : Link) (s through : Z) : nat * Link :=
  let '(advanced, d') := advance_retired_through (dedup l) s through in
  let l' := with_dedup l d' in
  if advanced
  then let r := retire_payloads_through (acks l) s through in (r.1, with_acks l' r.2)
  else (O, l').

Definition deliver_external (l : Link) (s q : Z) : result bool LinkError * Link :=
  match accept (dedup l) s q with
  | (New, d') => (Ok true, with_dedup l d')
  | (Duplicate, d') => (Ok false, with_dedup l d')
  | (OutOfWindow, d') => (Err (PayloadOutOfWindow s q), with_dedup l d')
  end.

Definition link_set_turns_complete (l : Link) (count : option Z) : Link :=
  with_acks l (set_turns_complete (acks l) count).

(** On a single-ingress edge every payload is authorized as that slot. *)
Definition authorize (ingress : option Z) (p : Payload) : Payload :=
  match ingress with
  | Some s => mkPayload (seq p) s (commands p) (game_frame_count p) (sync_generation p)
                (buffer_directive p) (state_hash p)
  | None => p
  end.

Definition process_incoming (l : Link) (packet : Packet) :
  option (result Received LinkError * Link) :=
  r ← handle_incoming (acks l) packet;
  let l1 := with_acks l r.2 in
  mret match r.1 with
       | Err e => (Err (LinkAck e), l1)
       | Ok _ =>
           let carried := match payloads packet with [] => false | _ => true end in
           let '(kept, d') := retain_fresh_payloads (dedup l1)
                                (map (authorize (ingress_slot l)) (payloads packet)) in
           (match kept with
            | Ok kept => Ok (mkReceived kept carried (turns_complete packet))
            | Err e => Err e
            end, with_dedup l1 d')
       end.

(** [recv]: [datagram] is what the connection's [read_datagram] and the packet
    decoder gave. *)
Definition recv (l : Link) (datagram : result Packet LinkError) :
  option (result Received LinkError * Link) :=
  match datagram with
  | Err e => Some (Err e, l)
  | Ok packet => process_incoming l packet
  end.

Section sizes.
Context `{!Prost}.

Definition link_reinject_unacked (l : Link) (p : Payload) : Link :=
  with_acks l (reinject_unacked (acks l) p).

Definition datagram_admission_budget (live : option Z) : result Z LinkError :=
  match live with
  | None => Err DatagramsUnsupported
  | Some b => Ok (Z.min b GUARANTEED_DATAGRAM_BUDGET)
  end.

Definition payload_fits (live : option Z) (p : Payload) : result bool LinkError :=
  (let? budget := datagram_admission_budget live in Ok (lone_packet_len p <=? budget))%rust.

(** The checks a fresh payload passes before any send-side state is built. *)
Definition admission (live : option Z) (p : option Payload) : result unit LinkError :=
  match p with
  | None => Ok tt
  | Some p =>
      match u8_try_from (slot p) with
      | None => Err (MalformedSlot (slot p))
      | Some _ =>
          (let? admission := datagram_admission_budget live in
           if admission <? lone_packet_len p
           then Err (PayloadTooLarge (lone_packet_len p) admission) else Ok tt)%rust
      end
  end.

(** The result, the datagrams that reached the wire, and the state after. *)
Definition send (live : option Z) (send_datagram : Packet -> datagram_outcome) (l : Link)
  (p : option Payload) : option (result Z LinkError * list Packet * Link) :=
  match live with
  | None => Some (Err DatagramsUnsupported, [], l)
  | Some budget =>
      match admission live p with
      | Err e => Some (Err e, [], l)
      | Ok _ =>
          match build_outgoing (acks l) p budget with
          | (Err _, a1) => Some (Err LinkPacketSeqExhausted, [], with_acks l a1)
          | (Ok packet, a1) =>
              let redundant :=
                Z.of_nat (length (payloads packet)) - (match p with Some _ => 1 | None => 0 end) in
              match send_datagram packet with
              | DgAccepted =>
                  a2 ← record_sent a1 packet; mret (Ok redundant, [packet], with_acks l a2)
              | DgTooLarge =>
                  Some (Err (PayloadTooLarge (packet_encoded_len packet) budget), [], with_acks l a1)
              | DgFailed => Some (Err SendFailed, [], with_acks l a1)
              end
          end
      end
  end.

End sizes.

(** ** The link's invariant *)

Section link.
Context `{!Prost, !ProstLaws}.
Implicit Types (l : Link) (p : Payload).

Definition link_inv l : Prop := good (acks l) /\ dedup_inv (dedup l).

Lemma link_inv_new : link_inv new_link.
Proof. split; [apply good_new|by apply dedup_inv_empty]. Qed.

Lemma link_inv_with_ingress s : link_inv (with_ingress_slot s).
Proof. split; [apply good_new|by apply dedup_inv_empty]. Qed.

Lemma link_inv_rebind l : link_inv l -> link_inv (rebind l).
Proof. intros [Ha Hd]. split; [|done]. eapply good_step; [done|constructor]. Qed.

(** The packet [send] builds for an admitted payload. *)
Definition packet_of l (p : option Payload) (budget : Z) : Packet :=
  with_payloads (head_of (acks l)) (fresh_payloads p ++ map payload (picks_of (acks l) p budget)).

(** An admitted payload's packet fits the live budget: admission measured it
    alone under the widest header. *)
Lemma packet_of_fits l p b budget :
  inv (acks l) -> u8_try_from (slot p) = Some b -> lone_packet_len p <= budget ->
  packet_encoded_len (packet_of l (Some p) budget) <= budget.
Proof.
  intros Ha Hu Hfit. unfold packet_of. rewrite built_len by done.
  pose proof (picks_size (AckInvariant.window (acks l)) (policy (acks l)) true (packet_seq (acks l)) budget
    (used_by (acks l) (Some p))) as Hsz.
  assert (Hf : fresh_of (Some p) = Some (b, p)) by (unfold fresh_of; cbn; by rewrite Hu).
  assert (Hused : used_by (acks l) (Some p) <= lone_packet_len p).
  { unfold used_by, fresh_payloads. rewrite Hf. cbn [sumz snd].
    pose proof (header_le_max _ (head_of_wire _ Ha)) as Hh.
    change (header (head_of (acks l))) with (head_of (acks l)) in Hh.
    unfold lone_packet_len, element_len. lia. }
  unfold picks_of. rewrite Hf.
  assert (Hpos : forall c, c ∈ AckInvariant.window (acks l) -> 0 <= wire_len c)
    by (intros c Hc%window_elem_pos; [lia|done]).
  specialize (Hsz Hpos). lia.
Qed.

(** The whole of [send] past admission, by the transport's answer. *)
Lemma send_admitted l (p : option Payload) budget sd :
  link_inv l -> admission (Some budget) p = Ok tt -> admissible (acks l) p ->
  packet_seq (acks l) < u32_max ->
  exists a2, record_sent (after_build (acks l) p) (packet_of l p budget) = Some a2 /\
    good a2 /\ good (after_build (acks l) p) /\
    send (Some budget) sd l p =
      let pkt := packet_of l p budget in
      Some match sd pkt with
           | DgAccepted =>
               (Ok (Z.of_nat (length (picks_of (acks l) p budget))), [pkt], with_acks l a2)
           | DgTooLarge =>
               (Err (PayloadTooLarge (packet_encoded_len pkt) budget), [], with_acks l (after_build (acks l) p))
           | DgFailed => (Err SendFailed, [], with_acks l (after_build (acks l) p))
           end.
Proof.
  intros [Hg Hd] Hadm Hroom Hlt. destruct (good_after_build _ p Hg Hlt Hroom) as [Hg1 Hs1].
  pose proof (inv_seq _ (proj1 Hg)) as Hseq.
  assert (Hrange : 0 <= packet_seq_of (packet_of l p budget) < packet_seq (after_build (acks l) p)).
  { rewrite Hs1. cbn. unfold is_u32 in *. lia. }
  destruct (record_sent_spec _ (packet_of l p budget) (proj1 Hg1) Hrange) as (a2 & Hrec & _).
  exists a2. split; [done|]. split; [by eapply good_record_sent|]. split; [done|].
  assert (Hred : Z.of_nat (length (payloads (packet_of l p budget))) -
    (match p with Some _ => 1 | None => 0 end) = Z.of_nat (length (picks_of (acks l) p budget))).
  { cbn [packet_of with_payloads payloads]. rewrite length_app, length_map. unfold fresh_payloads.
    destruct p as [p|]; [|cbn; lia]. cbn [admission] in Hadm. unfold fresh_of. cbn [mbind option_bind].
    destruct (u8_try_from (slot p)); [|done]. cbn. lia. }
  unfold send. rewrite Hadm, build_outgoing_ok by (done || apply Hg). fold (packet_of l p budget).
  cbn zeta. rewrite Hred. destruct (sd (packet_of l p budget)); [|done|done]. by rewrite Hrec.
Qed.

(** The fresh payload is registered by the build, and recording keeps every
    registered payload. *)
Lemma after_build_registers (a : AckManager) p :
  slot p <= u8_max -> payload <$> BTreeMap.get (unacked_payloads (after_build a (Some p))) (origin p) = Some p.
Proof.
  intros Hs. unfold after_build, fresh_of. cbn [mbind option_bind].
  rewrite (proj2 (u8_try_from_Some (slot p) (slot p))) by done.
  cbn [mbind option_bind mret option_ret fst snd]. unfold insert_unacked.
  cbn [set_unacked unacked_payloads]. by rewrite BTreeMap.get_insert, decide_True.
Qed.

Lemma record_sent_keeps (a a2 : AckManager) pkt k :
  inv a -> 0 <= packet_seq_of pkt < packet_seq a -> record_sent a pkt = Some a2 ->
  payload <$> BTreeMap.get (unacked_payloads a2) k = payload <$> BTreeMap.get (unacked_payloads a) k.
Proof.
  intros Ha Hr Hrec. destruct (record_sent_spec a pkt Ha Hr) as (a' & Hrec' & _ & _ & Hun & _).
  assert (a' = a2) as -> by congruence. rewrite Hun.
  destruct (credit_run (packet_seq_of pkt) (payloads pkt) (unacked_payloads a) [] (inv_wf _ Ha))
    as (_ & _ & _ & Hcr). specialize (Hcr k).
  destruct (BTreeMap.get (unacked_payloads a) k); [|by rewrite Hcr].
  destruct Hcr as (sp' & -> & _ & Hpl & _). cbn. by rewrite Hpl.
Qed.

(** Packet fields a decoded message can hold, and an authorized slot. *)
Definition wire_packet (pkt : Packet) : Prop :=
  wire_header pkt /\ Forall recv_payload (payloads pkt).

Lemma authorize_recv ing p :
  (forall s, ing = Some s -> is_u8 s) -> recv_payload p -> recv_payload (authorize ing p).
Proof.
  intros Hing [Hs Hq]. destruct ing as [s|]; [|done]. split; [|done]. cbn.
  destruct (Hing s eq_refl). lia.
Qed.

Lemma authorize_all_recv ing ps :
  (forall s, ing = Some s -> is_u8 s) -> Forall recv_payload ps ->
  Forall recv_payload (map (authorize ing) ps).
Proof.
  intros Hing Hps. apply Forall_fmap. eapply Forall_impl; [exact Hps|].
  intros p Hp. by apply authorize_recv.
Qed.

(** The three ways a packet is processed. *)
Lemma process_incoming_cases l pkt :
  link_inv l -> wire_packet pkt -> (forall s, ingress_slot l = Some s -> is_u8 s) ->
  (exists e, process_incoming l pkt = Some (Err (LinkAck e), l) /\ check_acks (acks l) pkt = Err e) \/
  exists a', handle_incoming (acks l) pkt = Some (Ok tt, a') /\ good a' /\
    check_acks (acks l) pkt = Ok tt /\
    match retain_fresh_payloads (dedup l) (map (authorize (ingress_slot l)) (payloads pkt)) with
    | (Ok kept, d') =>
        process_incoming l pkt =
          Some (Ok (mkReceived kept (match payloads pkt with [] => false | _ => true end)
                      (turns_complete pkt)), mkLink a' d' (ingress_slot l)) /\
        passed (dedup l) (sort_payloads (map (authorize (ingress_slot l)) (payloads pkt))) d' kept None
    | (Err e, _) => process_incoming l pkt = Some (Err e, with_acks l a')
    end.
Proof.
  intros [Hg Hd] [Hw Hps] Hing. unfold process_incoming.
  destruct (check_acks (acks l) pkt) as [[]|e] eqn:Hc.
  - right. destruct (handle_incoming_ok _ pkt (proj1 Hg) Hw Hc) as (a' & Hh & Hr). exists a'.
    split; [done|]. split; [by eapply good_handle_incoming|]. split; [done|].
    pose proof (retain_fresh_passed (dedup l) (map (authorize (ingress_slot l)) (payloads pkt)) Hd
      (authorize_all_recv _ _ Hing Hps)) as Hp.
    rewrite Hh. cbn [mbind option_bind fst snd with_acks dedup ingress_slot].
    destruct (retain_fresh_payloads _ _) as [[kept|e] d']; [done|]. subst d'. done.
  - left. exists e. split; [|done]. rewrite (handle_incoming_err _ _ _ Hc). destruct l. done.
Qed.

End link.

(** ** Properties *)

(** [payload_fits] and [send] never disagree.  A payload it declines is
    refused by [send] with nothing sent and nothing registered; a payload it
    accepts always gets a datagram within the live path budget that carries
    it first, and is registered as unacked whatever the transport answers. *)
Theorem payload_fits_send_agree `{!Prost, !ProstLaws} (l : Link) (p : Payload) (live : option Z)
  (send_datagram : Packet -> datagram_outcome) :
  link_inv l -> slot p <= u8_max -> admissible (acks l) (Some p) -> packet_seq (acks l) < u32_max ->
  match payload_fits live p with
  | Err e => send live send_datagram l (Some p) = Some (Err DatagramsUnsupported, [], l)
  | Ok false => exists needed budget,
      send live send_datagram l (Some p) = Some (Err (PayloadTooLarge needed budget), [], l)
  | Ok true => exists budget pkt r out a',
      live = Some budget /\ packet_encoded_len pkt <= budget /\ head (payloads pkt) = Some p /\
      send live send_datagram l (Some p) = Some (r, out, with_acks l a') /\
      out = (match send_datagram pkt with DgAccepted => [pkt] | _ => [] end) /\
      payload <$> BTreeMap.get (unacked_payloads a') (origin p) = Some p
  end.
Proof.
  intros Hl Hs Hroom Hlt. unfold payload_fits, datagram_admission_budget.
  assert (Hu : u8_try_from (slot p) = Some (slot p)) by (by apply u8_try_from_Some).
  destruct live as [b|]; [|done]. cbn [result_bind].
  destruct (Z.leb_spec (lone_packet_len p) (Z.min b GUARANTEED_DATAGRAM_BUDGET)) as [Hfit|Hbig].
  2: { do 2 eexists. unfold send, admission. rewrite Hu. cbn [datagram_admission_budget result_bind].
       rewrite (proj2 (Z.ltb_lt _ _) Hbig). done. }
  assert (Hadm : admission (Some b) (Some p) = Ok tt).
  { unfold admission. rewrite Hu. cbn [datagram_admission_budget result_bind].
    rewrite (proj2 (Z.ltb_ge _ _) Hfit). done. }
  destruct (send_admitted l (Some p) b send_datagram Hl Hadm Hroom Hlt) as (a2 & Hrec & Hg2 & Hg1 & Hsend).
  pose proof (after_build_registers (acks l) p Hs) as Hreg.
  assert (Hreg2 : payload <$> BTreeMap.get (unacked_payloads a2) (origin p) = Some p).
  { rewrite <- Hreg. eapply record_sent_keeps; [apply Hg1| |done].
    pose proof (inv_seq _ (proj1 (proj1 Hl))).
    destruct (good_after_build _ (Some p) (proj1 Hl) Hlt Hroom) as [_ ->]. cbn. unfold is_u32 in *. lia. }
  assert (Hhd : head (payloads (packet_of l (Some p) b)) = Some p).
  { cbn [packet_of with_payloads payloads]. unfold fresh_payloads, fresh_of. cbn. by rewrite Hu. }
  assert (Hlen : packet_encoded_len (packet_of l (Some p) b) <= b)
    by (eapply packet_of_fits; [apply Hl|done|lia]).
  rewrite Hsend. cbn zeta. exists b, (packet_of l (Some p) b).
  destruct (send_datagram (packet_of l (Some p) b)); do 3 eexists; by split_and!.
Qed.

(** Processing a packet never panics.  Inconsistent acks are refused with
    the whole link unchanged; a payload refusal leaves the dedup unchanged, so
    nothing of the packet is remembered as delivered; on success the fresh
    payloads are exactly the authorized payloads not delivered before, once
    each, all under the ingress slot when the link has one, and an ack is
    wanted exactly when the packet carried payloads. *)
Theorem process_incoming_exact `{!Prost, !ProstLaws} (l : Link) (pkt : Packet) :
  link_inv l -> wire_packet pkt -> (forall s, ingress_slot l = Some s -> is_u8 s) ->
  forward_collapse (dedup l) = false ->
  exists r l', process_incoming l pkt = Some (r, l') /\ link_inv l' /\
    match r with
    | Err (LinkAck _) => ~ consistent_acks (acks l) pkt /\ l' = l
    | Err _ => consistent_acks (acks l) pkt /\ dedup l' = dedup l
    | Ok rcv =>
        consistent_acks (acks l) pkt /\
        NoDup (map origin (fresh rcv)) /\
        (forall s q, (s, q) ∈ map origin (fresh rcv) <->
           (s, q) ∈ map origin (map (authorize (ingress_slot l)) (payloads pkt)) /\
           ~ delivered_at (dedup l) s q) /\
        (forall p s, p ∈ fresh rcv -> ingress_slot l = Some s -> slot p = s) /\
        (carried_payloads rcv = true <-> payloads pkt <> []) /\
        rcv_turns_complete rcv = turns_complete pkt
    end.
Proof.
  intros Hl Hw Hing Hfc. pose proof (check_acks_spec (acks l) pkt (proj1 Hw)) as Hck.
  destruct (process_incoming_cases l pkt Hl Hw Hing) as [(e & Heq & Hc)|(a' & Hh & Hg & Hc & Hcase)].
  { exists (Err (LinkAck e)), l. split; [done|]. split; [done|]. split; [|done].
    rewrite <- Hck, Hc. done. }
  apply Hck in Hc.
  destruct (retain_fresh_payloads _ _) as [[kept|e] d'] eqn:Hret.
  - destruct Hcase as [-> [Hi' He Hf Hk Hfresh Hon Hco Hex]]. do 2 eexists. split; [done|].
    split; [by split|]. cbn [fresh carried_payloads rcv_turns_complete].
    assert (Hsub : forall p, p ∈ kept -> p ∈ map (authorize (ingress_slot l)) (payloads pkt)).
    { intros p Hp. rewrite <- sort_payloads_Permutation. by eapply elem_of_sublist. }
    split; [done|]. split; [done|]. split; [|split; [|split; [|done]]].
    + intros s q. split.
      * intros (p & [= -> ->] & Hp)%list_elem_of_fmap. split; [|by apply Hfresh].
        apply list_elem_of_fmap. exists p. auto.
      * intros [(p & [= -> ->] & Hp)%list_elem_of_fmap Hn].
        assert (Hq : 0 <= seq p).
        { pose proof (authorize_all_recv _ _ Hing (proj2 Hw)) as Hall. rewrite Forall_forall in Hall.
          destruct (Hall p Hp). width_lia. }
        destruct (Hco eq_refl p) as [_ Hdel]; [by rewrite sort_payloads_Permutation|].
        by apply Hex in Hdel as [?|?].
    + intros p s Hp Hs. apply Hsub in Hp. rewrite Hs in Hp.
      by apply list_elem_of_fmap in Hp as (p0 & -> & _).
    + by destruct (payloads pkt).
  - rewrite Hcase. exists (Err e), (with_acks l a'). split; [done|].
    split; [by split; [|apply Hl]|].
    assert (Hne : forall k, e <> LinkAck k) by (intros k; by eapply retain_fresh_error).
    destruct e; try done. by destruct (Hne e).
Qed.
