(* ===== verification/LinkSystem.v ===== *)
(** * Two links and the network between them

    Two [Link] endpoints exchanging datagrams over a network that may lose,
    duplicate, reorder and delay, across any number of reconnects, with the
    delivered-cursor beacons and the turns that arrive over the reliable
    control stream.  The end-to-end guarantee: a turn registered for sending
    stays in the sender's unacked window until the receiver's consumer has it,
    and the consumer never gets one twice. *)

From Stdlib Require Import ZArith Lia.
From stdpp Require Import gmap sorting list.
From S2P Require Import Prelude BTree SequenceBuffer Wire History AckManager AckInvariant AckRecv AckSend AckLiveness Dedup DedupPackets Link.

Open Scope Z_scope.

(** ** Endpoints *)

(** An endpoint: its link, the connection it is on, whether that connection is
    still up, and what it has done so far.  [sent] holds every datagram the
    transport accepted, tagged by connection: the network may deliver any of
    them any number of times, in any order, or never, but only on the
    connection it was sent on. *)
Record side : Type := mkSide {
  link : Link;
  epoch : nat;
  alive : bool;
  sent : list (nat * Packet);
  beacons : list (Z * Z);
  registered : list Payload;
  handed : list Payload;
  streamed : list (Z * Z);
}.

(** The key a peer payload is delivered under. *)
Definition seen (ingress : option Z) (k : Z * Z) : Z * Z := (default k.1 ingress, k.2).

Lemma origin_authorize ing p : origin (authorize ing p) = seen ing (origin p).
Proof. by destruct ing. Qed.

Section system.
Context `{!Prost, !ProstLaws}.
Implicit Types (me peer : side).

(** Updates of an endpoint. *)
Definition after_send me (l : Link) (out : list Packet) : side :=
  mkSide l (epoch me) (alive me) (sent me ++ map (pair (epoch me)) out) (beacons me)
    (registered me ++ map payload (AckInvariant.window (acks l))) (handed me) (streamed me).
Definition after_recv me (l : Link) (kept : list Payload) (up : bool) : side :=
  mkSide l (epoch me) up (sent me) (beacons me) (registered me) (handed me ++ kept) (streamed me).
Definition after_stream me (l : Link) (ks : list (Z * Z)) : side :=
  mkSide l (epoch me) (alive me) (sent me) (beacons me) (registered me) (handed me)
    (streamed me ++ ks).
Definition with_link me (l : Link) : side := after_send me l [].
Definition after_beacon me (b : Z * Z) : side :=
  mkSide (link me) (epoch me) (alive me) (sent me) (beacons me ++ [b]) (registered me) (handed me)
    (streamed me).
Definition after_rebind me : side :=
  mkSide (rebind (link me)) (S (epoch me)) true (sent me) (beacons me) (registered me) (handed me)
    (streamed me).

(** One action of [me].  A failed receive takes the connection down; only a
    rebind brings the endpoint back. *)
Inductive local me peer : side -> Prop :=
| l_send live sd o r out l' :
    alive me = true -> admissible (acks (link me)) o ->
    send live sd (link me) o = Some (r, out, l') -> local me peer (after_send me l' out)
| l_recv pkt rcv l' :
    alive me = true -> (epoch me, pkt) ∈ sent peer ->
    process_incoming (link me) pkt = Some (Ok rcv, l') ->
    local me peer (after_recv me l' (fresh rcv) true)
| l_recv_failed pkt e l' :
    alive me = true -> (epoch me, pkt) ∈ sent peer ->
    process_incoming (link me) pkt = Some (Err e, l') -> local me peer (after_recv me l' [] false)
| l_beacon s c :
    link_delivered_through (link me) (seen (ingress_slot (link me)) (s, c)).1 = Some c ->
    local me peer (after_beacon me (s, c))
| l_cursor s c :
    (s, c) ∈ beacons peer -> local me peer (with_link me (retire_through (link me) s c).2)
| l_reinject p :
    admissible (acks (link me)) (Some p) ->
    local me peer (after_send me (link_reinject_unacked (link me) p) [])
| l_turns c :
    (forall x, c = Some x -> is_u64 x) ->
    local me peer (with_link me (link_set_turns_complete (link me) c))
| l_stream s q r l' :
    is_u64 q -> deliver_external (link me) s q = (r, l') ->
    local me peer (after_stream me l' (match r with Ok true => [(s, q)] | _ => [] end))
| l_rebind : local me peer (after_rebind me).

Inductive sys_step : side * side -> side * side -> Prop :=
| step_left a b a' : local a b a' -> sys_step (a, b) (a', b)
| step_right a b b' : local b a b' -> sys_step (a, b) (a, b').

Definition initial me : Prop :=
  (link me = new_link \/ exists s, is_u8 s /\ link me = with_ingress_slot s) /\
  sent me = [] /\ beacons me = [] /\ registered me = [] /\ handed me = [] /\ streamed me = [] /\
  epoch me = O.

Definition sys_reachable (x : side * side) : Prop :=
  exists x0, initial x0.1 /\ initial x0.2 /\ rtc sys_step x0 x.

(** ** The invariant of one endpoint *)

Definition is_delivered me (k : Z * Z) : Prop := delivered_at (dedup (link me)) k.1 k.2.

Record side_inv me : Prop := {
  sd_link : link_inv (link me);
  sd_strict : forward_collapse (dedup (link me)) = false;
  sd_ingress : forall s, ingress_slot (link me) = Some s -> is_u8 s;
  (** the dedup remembers exactly what the consumer was handed *)
  sd_handed : forall k, 0 <= k.2 ->
    is_delivered me k <-> k ∈ map origin (handed me) \/ k ∈ streamed me;
  sd_once : NoDup (map origin (handed me) ++ streamed me);
  (** a remembered sent packet is one the network has *)
  sd_memory : forall q sp k, is_seq q -> sent_view (acks (link me)) q = Some sp ->
    k ∈ payload_slots_seqs sp ->
    exists pkt, (epoch me, pkt) ∈ sent me /\ packet_seq_of pkt = q /\ k ∈ carried_keys (payloads pkt);
  (** packet numbers are never reused on a connection *)
  sd_unique : forall e pkt1 pkt2, (e, pkt1) ∈ sent me -> (e, pkt2) ∈ sent me ->
    packet_seq_of pkt1 = packet_seq_of pkt2 -> pkt1 = pkt2;
  sd_past : forall e pkt, (e, pkt) ∈ sent me -> (e <= epoch me)%nat /\
    (e = epoch me -> packet_seq_of pkt < packet_seq (acks (link me)));
  sd_wire : forall e pkt, (e, pkt) ∈ sent me -> wire_packet pkt;
  (** only registered payloads travel *)
  sd_payloads : forall e pkt p, (e, pkt) ∈ sent me -> p ∈ payloads pkt -> p ∈ registered me;
  sd_window : forall k sp, BTreeMap.get (unacked_payloads (acks (link me))) k = Some sp ->
    payload sp ∈ registered me;
  sd_registered : forall p, p ∈ registered me -> is_u8 (slot p) /\ is_u64 (seq p);
  sd_beacons : forall s c q, (s, c) ∈ beacons me -> 0 <= q <= c ->
    is_delivered me (seen (ingress_slot (link me)) (s, q));
}.

(** Packet [x] of connection [e] reached [peer], which was handed all of it. *)
Definition got me peer (e : nat) (x : Z) : Prop :=
  exists pkt, (e, pkt) ∈ sent me /\ packet_seq_of pkt = x /\
    forall k, k ∈ carried_keys (payloads pkt) -> is_delivered peer (seen (ingress_slot (link peer)) k).

(** ** The invariant between the two: [me] sends, [peer] receives *)

Record cross me peer : Prop := {
  cr_history : alive peer = true -> exists o, tracks (received_packets (acks (link peer))) o /\
    forall m x, o = Some m -> x ∈ s_set m -> got me peer (epoch peer) x;
  cr_acks : forall e pkt x, (e, pkt) ∈ sent peer -> acknowledges pkt x -> got me peer e x;
  cr_no_loss : forall p, p ∈ registered me ->
    is_Some (BTreeMap.get (unacked_payloads (acks (link me))) (origin p)) \/
    is_delivered peer (seen (ingress_slot (link peer)) (origin p));
  cr_genuine : forall p, p ∈ handed peer ->
    exists p0, p0 ∈ registered me /\ p = authorize (ingress_slot (link peer)) p0;
}.

(** ** Progress: what an action of [me] may change *)

Record later me me' : Prop := {
  la_ingress : ingress_slot (link me') = ingress_slot (link me);
  la_delivered : forall k, is_delivered me k -> is_delivered me' k;
  la_sent : forall x, x ∈ sent me -> x ∈ sent me';
  la_registered : forall p, p ∈ registered me -> p ∈ registered me';
}.

Lemma later_refl me : later me me.
Proof. by split. Qed.

Lemma got_later me me' peer peer' e x :
  later me me' -> later peer peer' -> got me peer e x -> got me' peer' e x.
Proof.
  intros Hm Hp (pkt & Hs & Hx & Hk). exists pkt. split; [by apply Hm|]. split; [done|].
  intros k Hin. rewrite (la_ingress _ _ Hp). by apply Hp, Hk.
Qed.

(** The acks a packet claims are members of every set the history stands for. *)
Definition honest (h : ReceivedPacketHistory) (pkt : Packet) : Prop :=
  forall o x, tracks h o -> acknowledges pkt x -> exists m, o = Some m /\ x ∈ s_set m.

Record progress me peer me' : Prop := {
  pr_inv : side_inv me';
  pr_later : later me me';
  pr_history : alive me' = true -> exists o, tracks (received_packets (acks (link me'))) o /\
    forall m x, o = Some m -> x ∈ s_set m -> got peer me' (epoch me') x;
  pr_sent : forall e pkt, (e, pkt) ∈ sent me' -> (e, pkt) ∈ sent me \/
    (e = epoch me /\ alive me = true /\ honest (received_packets (acks (link me))) pkt);
  pr_no_loss : forall p, p ∈ registered me' ->
    is_Some (BTreeMap.get (unacked_payloads (acks (link me'))) (origin p)) \/
    is_delivered peer (seen (ingress_slot (link peer)) (origin p));
  pr_genuine : forall p, p ∈ handed me' ->
    exists p0, p0 ∈ registered peer /\ p = authorize (ingress_slot (link me)) p0;
}.

Lemma cross_progress me peer me' :
  cross me peer -> cross peer me -> progress me peer me' -> cross me' peer /\ cross peer me'.
Proof.
  intros [Ch Ca Cn Cg] [Dh Da Dn Dg] [Hi Hl Hh Hs Hn Hg]. pose proof (later_refl peer) as Hpp. split; split.
  - intros Hal. destruct (Ch Hal) as (o & Ho & Hgot). exists o. split; [done|].
    intros m x Hm Hx. eapply got_later; eauto.
  - intros e pkt x Hin Hack. eapply got_later; [done|done|]. by eapply Ca.
  - done.
  - intros p Hp. destruct (Cg p Hp) as (p0 & Hp0 & ->). exists p0. split; [by apply Hl|done].
  - done.
  - intros e pkt x Hin Hack. destruct (Hs e pkt Hin) as [Hold|(-> & Hal & Hhon)].
    + eapply got_later; [done|done|]. by eapply Da.
    + destruct (Dh Hal) as (o & Ho & Hgot). destruct (Hhon o x Ho Hack) as (m & -> & Hx).
      eapply got_later; [done|done|]. by eapply Hgot.
  - intros p Hp. destruct (Dn p Hp) as [?|?]; [by left|right].
    rewrite (la_ingress _ _ Hl). by apply Hl.
  - intros p Hp. rewrite (la_ingress _ _ Hl). by apply Hg.
Qed.

(** ** Actions that change the send side only *)

Record sends me peer (l' : Link) (out : list Packet) : Prop := {
  se_link : link_inv l';
  se_ingress : ingress_slot l' = ingress_slot (link me);
  se_strict : forward_collapse (dedup l') = false;
  se_dedup : forall k, delivered_at (dedup l') k.1 k.2 <-> is_delivered me k;
  se_hist : received_packets (acks l') = received_packets (acks (link me));
  se_seq : packet_seq (acks (link me)) <= packet_seq (acks l');
  se_view : forall q sp, is_seq q -> sent_view (acks l') q = Some sp ->
    sent_view (acks (link me)) q = Some sp \/
    exists pkt, pkt ∈ out /\ packet_seq_of pkt = q /\
      payload_slots_seqs sp = carried_keys (payloads pkt);
  se_keep : forall k sp, BTreeMap.get (unacked_payloads (acks (link me))) k = Some sp ->
    is_Some (BTreeMap.get (unacked_payloads (acks l')) k) \/
    is_delivered peer (seen (ingress_slot (link peer)) k);
  se_single : forall pkt1 pkt2, pkt1 ∈ out -> pkt2 ∈ out -> pkt1 = pkt2;
  se_out : forall pkt, pkt ∈ out -> alive me = true /\
    packet_seq_of pkt = packet_seq (acks (link me)) /\
    packet_seq (acks (link me)) < packet_seq (acks l') /\ wire_packet pkt /\
    honest (received_packets (acks (link me))) pkt /\
    forall p, p ∈ payloads pkt -> p ∈ map payload (AckInvariant.window (acks (link me))) \/
      p ∈ map payload (AckInvariant.window (acks l'));
}.

Lemma elem_of_sent me out e pkt :
  (e, pkt) ∈ sent me ++ map (pair (epoch me)) out <->
  (e, pkt) ∈ sent me \/ (e = epoch me /\ pkt ∈ out).
Proof.
  rewrite elem_of_app, list_elem_of_fmap. split.
  - intros [?|(x & [= -> ->] & ?)]; [by left|by right].
  - intros [?|[-> ?]]; [by left|right; by exists pkt].
Qed.

Lemma window_registered me p :
  side_inv me -> p ∈ map payload (AckInvariant.window (acks (link me))) -> p ∈ registered me.
Proof.
  intros Hi (sp & -> & Hsp)%list_elem_of_fmap. destruct (sd_link _ Hi) as [[Ha _] _].
  destruct (window_elem _ sp Ha Hsp) as (k & Hk & _). by eapply sd_window.
Qed.

Lemma window_payload (a : AckManager) p :
  inv a -> p ∈ map payload (AckInvariant.window a) ->
  is_Some (BTreeMap.get (unacked_payloads a) (origin p)) /\ is_u8 (slot p) /\ is_u64 (seq p).
Proof.
  intros Ha (sp & -> & Hsp)%list_elem_of_fmap.
  destruct (window_elem a sp Ha Hsp) as (k & Hk & -> & ? & ? & _). eauto.
Qed.

Lemma get_window_payload (a : AckManager) k sp :
  BTreeMap.get (unacked_payloads a) k = Some sp -> payload sp ∈ map payload (AckInvariant.window a).
Proof.
  intros Hk%BTreeMap.elem_of_get. apply list_elem_of_fmap. exists sp. split; [done|].
  apply BTreeMap.elem_of_values. eauto.
Qed.

Lemma sends_inv me peer l' out :
  side_inv me -> sends me peer l' out -> side_inv (after_send me l' out).
Proof.
  intros Hi [Sl Si Sf Sd Sh Sq Sv Sk S1 So]. assert (Hi' := Hi).
  destruct Hi' as [Il If Ii Ih Io Im Iu Ip Iw Iy Iwin Ir Ib].
  split; cbn [after_send link epoch sent registered handed streamed beacons]; try done.
  - rewrite Si. done.
  - intros k Hk. unfold is_delivered. cbn [link after_send]. rewrite Sd. by apply Ih.
  - intros q sp k Hq Hv Hk. setoid_rewrite elem_of_sent. destruct (Sv q sp Hq Hv) as [Hold|(pkt & Hp & Hpq & Hks)].
    + destruct (Im q sp k Hq Hold Hk) as (pkt & ? & ? & ?). exists pkt. tauto.
    + exists pkt. rewrite <- Hks. tauto.
  - intros e pkt1 pkt2. rewrite !elem_of_sent. intros [H1|[-> H1]] [H2|[E2 H2]] Heq; subst.
    + by eapply Iu.
    + destruct (Ip _ _ H1) as [_ Hlt]. specialize (Hlt eq_refl). destruct (So _ H2) as (_ & ? & _). lia.
    + destruct (Ip _ _ H2) as [_ Hlt]. specialize (Hlt eq_refl). destruct (So _ H1) as (_ & ? & _). lia.
    + by apply S1.
  - intros e pkt. rewrite elem_of_sent. intros [Hin|[-> Hin]].
    + destruct (Ip _ _ Hin) as [? Hlt]. split; [done|]. intros He. specialize (Hlt He). lia.
    + destruct (So _ Hin) as (_ & ? & ? & _). split; [done|]. lia.
  - intros e pkt. rewrite elem_of_sent. intros [Hin|[-> Hin]]; [by eapply Iw|]. by apply So.
  - intros e pkt p. rewrite elem_of_sent, elem_of_app. intros [Hin|[-> Hin]] Hp; [left; by eapply Iy|].
    destruct (So _ Hin) as (_ & _ & _ & _ & _ & Hps). destruct (Hps p Hp); [left|by right].
    by apply window_registered.
  - intros k sp Hk. apply elem_of_app. right. by eapply get_window_payload.
  - intros p [Hp|Hp]%elem_of_app; [by apply Ir|]. apply window_payload in Hp; [tauto|apply Sl].
  - intros s c q Hb Hq. rewrite Si. unfold is_delivered. cbn [link after_send]. rewrite Sd. by apply Ib with c.
Qed.

Lemma sends_progress me peer l' out :
  side_inv me -> cross me peer -> cross peer me -> sends me peer l' out ->
  progress me peer (after_send me l' out).
Proof.
  intros Hi Hc Hc' Hs. assert (Hs' := Hs). destruct Hs' as [Sl Si Sf Sd Sh Sq Sv Sk S1 So].
  assert (Hlater : later me (after_send me l' out)).
  { split; cbn [after_send link sent registered]; [done| | |].
    - intros k Hk. unfold is_delivered. cbn [link after_send]. by rewrite Sd.
    - intros x Hx. apply elem_of_app. by left.
    - intros p Hp. apply elem_of_app. by left. }
  split; [by eapply sends_inv|done|..].
  - cbn [after_send alive link epoch]. intros Hal. destruct (cr_history _ _ Hc' Hal) as (o & Ho & Hgot).
    exists o. rewrite Sh. split; [done|]. intros m x Hm Hx.
    eapply got_later; [apply later_refl|done|]. by eapply Hgot.
  - intros e pkt Hin. cbn [after_send sent] in Hin. apply elem_of_sent in Hin as [?|[-> Hin]]; [by left|].
    right. destruct (So _ Hin) as (? & _ & _ & _ & ? & _). done.
  - intros p Hp. cbn [after_send registered link] in *. apply elem_of_app in Hp as [Hp|Hp].
    + destruct (cr_no_loss _ _ Hc p Hp) as [[sp Hsp]|?]; [|by right]. by eapply Sk.
    + left. apply window_payload in Hp; [tauto|apply Sl].
  - cbn [after_send handed]. intros p Hp. by apply (cr_genuine _ _ Hc').
Qed.

(** Changes of the ack manager that put nothing on the wire. *)
Lemma sends_quiet me peer l' :
  side_inv me -> link_inv l' -> ingress_slot l' = ingress_slot (link me) ->
  forward_collapse (dedup l') = forward_collapse (dedup (link me)) ->
  slots (dedup l') = slots (dedup (link me)) ->
  same_frame (acks (link me)) (set_turns_complete (acks l') (am_turns_complete (acks (link me)))) ->
  sent_packets (acks l') = sent_packets (acks (link me)) ->
  (forall k sp, BTreeMap.get (unacked_payloads (acks (link me))) k = Some sp ->
    is_Some (BTreeMap.get (unacked_payloads (acks l')) k) \/
    is_delivered peer (seen (ingress_slot (link peer)) k)) ->
  sends me peer l' [].
Proof.
  intros Hi Hl Hing Hfc Hsl (Hseq & Hrec & _ & _) Hsent Hkeep. cbn in Hseq, Hrec.
  split; try done; try (intros *; by rewrite elem_of_nil).
  - rewrite Hfc. apply Hi.
  - intros k. unfold is_delivered, delivered_at, slot_entry. by rewrite Hsl.
  - by rewrite Hseq.
  - intros q sp _. unfold sent_view. rewrite Hsent. by left.
Qed.

Lemma honest_head (a : AckManager) ps :
  inv a -> honest (received_packets a) (with_payloads (head_of a) ps).
Proof.
  intros Ha o x Ho (c & Hc & Hx). cbn [with_payloads head_of ack ack_bits] in *.
  unfold last_seen_remote in Hc. destruct o as [m|]; cbn in Ho; [|by rewrite Ho in Hc].
  exists m. split; [done|]. rewrite (rep_recent _ _ Ho) in Hc. injection Hc as <-.
  destruct Hx as [->|(n & Hn & Hb & -> & _)]; [apply (rep_newest _ _ Ho)|].
  rewrite (rep_bits _ _ Ho) in Hb by done. by apply bool_decide_eq_true in Hb.
Qed.

Lemma wire_packet_of (l : Link) o budget :
  link_inv l -> admissible (acks l) o -> wire_packet (packet_of l o budget).
Proof.
  intros [[Ha _] _] Hadm. split; [exact (head_of_wire _ Ha)|]. cbn [packet_of with_payloads payloads].
  apply Forall_app. split.
  - unfold fresh_payloads. destruct (fresh_of o) as [[r p]|] eqn:Hf; constructor; [|constructor].
    apply fresh_of_Some in Hf as (-> & _ & _). destruct (Hadm p eq_refl) as [[Hs Hq] _]. cbn.
    split; [unfold is_u32 in *; lia|done].
  - apply Forall_forall. intros p (c & -> & Hc%picks_window)%list_elem_of_fmap.
    destruct (window_payload (acks l) (payload c) Ha) as (_ & Hs & Hq).
    { apply list_elem_of_fmap. eauto. }
    split; [unfold is_u8 in *; lia|done].
Qed.

(** Every payload a built packet carries is in the window after the build or
    was in it before. *)
Lemma packet_of_payloads (l : Link) o budget p :
  p ∈ payloads (packet_of l o budget) ->
  p ∈ map payload (AckInvariant.window (acks l)) \/
  p ∈ map payload (AckInvariant.window (after_build (acks l) o)).
Proof.
  cbn [packet_of with_payloads payloads]. intros [Hp|Hp]%elem_of_app.
  - right. unfold fresh_payloads in Hp. destruct (fresh_of o) as [[r q]|] eqn:Hf; [|set_solver].
    apply list_elem_of_singleton in Hp as ->. apply fresh_of_Some in Hf as (-> & -> & Hu).
    pose proof (after_build_registers (acks l) q Hu) as Hr. cbn [snd].
    destruct (BTreeMap.get _ (origin q)) as [sp|] eqn:Hg; [|done]. injection Hr as <-.
    by eapply get_window_payload.
  - left. apply list_elem_of_fmap in Hp as (c & -> & Hc%picks_window). apply list_elem_of_fmap. eauto.
Qed.

Lemma after_build_frame (a : AckManager) o :
  received_packets (after_build a o) = received_packets a /\
  sent_packets (after_build a o) = sent_packets a /\
  forall k sp, BTreeMap.get (unacked_payloads a) k = Some sp ->
    is_Some (BTreeMap.get (unacked_payloads (after_build a o)) k).
Proof.
  unfold after_build. destruct (fresh_of o) as [f|]; [|cbn; eauto].
  split; [done|]. split; [done|]. intros k sp Hk. unfold insert_unacked. cbn [set_unacked unacked_payloads].
  rewrite BTreeMap.get_insert. case_decide; [eauto|]. cbn. eauto.
Qed.

Lemma built_sends me peer o :
  side_inv me -> admissible (acks (link me)) o -> packet_seq (acks (link me)) < u32_max ->
  sends me peer (with_acks (link me) (after_build (acks (link me)) o)) [].
Proof.
  intros Hi Hadm Hlt. destruct (sd_link _ Hi) as [Hg Hd].
  destruct (good_after_build _ o Hg Hlt Hadm) as [Hg1 Hs1].
  destruct (after_build_frame (acks (link me)) o) as (Hrec & Hsent & Hkeep).
  split; cbn [with_acks acks dedup ingress_slot]; try done; try (intros *; by rewrite elem_of_nil).
  - apply Hi.
  - lia.
  - intros q sp _. unfold sent_view. rewrite Hsent. by left.
  - intros k sp Hk. left. by eapply Hkeep.
Qed.

Lemma recorded_sends me peer o budget a2 :
  side_inv me -> alive me = true -> admissible (acks (link me)) o ->
  packet_seq (acks (link me)) < u32_max ->
  record_sent (after_build (acks (link me)) o) (packet_of (link me) o budget) = Some a2 ->
  sends me peer (with_acks (link me) a2) [packet_of (link me) o budget].
Proof.
  intros Hi Hal Hadm Hlt Hrec. destruct (sd_link _ Hi) as [Hg Hd].
  destruct (good_after_build _ o Hg Hlt Hadm) as [Hg1 Hs1].
  destruct (after_build_frame (acks (link me)) o) as (Hh & Hsent & Hkeep).
  set (pkt := packet_of (link me) o budget) in *.
  assert (Hr : 0 <= packet_seq_of pkt < packet_seq (after_build (acks (link me)) o)).
  { rewrite Hs1. cbn. pose proof (inv_seq _ (proj1 Hg)). unfold is_u32 in *. lia. }
  destruct (record_sent_spec _ pkt (proj1 Hg1) Hr) as (a' & Hrec' & Ha2 & (Fs & Fr & _ & _) & Hun & Hview).
  assert (a' = a2) as -> by congruence. pose proof (good_record_sent _ _ _ Hg1 Hr Hrec) as Hg2.
  pose proof (fun k => record_sent_keeps _ _ pkt k (proj1 Hg1) Hr Hrec) as Hk2.
  split; cbn [with_acks acks dedup ingress_slot]; try done.
  - apply Hi.
  - by rewrite Fr.
  - lia.
  - intros q sp Hq Hv. destruct (Hview q sp Hq Hv) as [Hold|[-> ->]].
    + left. unfold sent_view in *. by rewrite <- Hsent.
    + right. exists pkt. split; [apply list_elem_of_singleton; done|]. done.
  - intros k sp Hk. left. destruct (Hkeep k sp Hk) as [sp1 Hsp1]. specialize (Hk2 k).
    rewrite Hsp1 in Hk2. by destruct (BTreeMap.get (unacked_payloads a2) k).
  - intros p1 p2. rewrite !list_elem_of_singleton. congruence.
  - intros p0 ->%list_elem_of_singleton. split; [done|]. split; [done|]. split; [lia|].
    split; [by apply wire_packet_of|]. split; [apply honest_head, Hg|].
    intros p Hp. destruct (packet_of_payloads _ _ _ _ Hp) as [?|Hw]; [by left|right].
    apply list_elem_of_fmap in Hw as (sp & -> & (k & Hk%BTreeMap.get_elem_of)%BTreeMap.elem_of_values); [|apply Hg1].
    specialize (Hk2 k). rewrite Hk in Hk2. destruct (BTreeMap.get (unacked_payloads a2) k) as [sp'|] eqn:Hk'; [|done].
    cbn in Hk2. injection Hk2 as <-. by eapply get_window_payload.
Qed.

Lemma send_sends me peer live sd o r out l' :
  side_inv me -> alive me = true -> admissible (acks (link me)) o ->
  send live sd (link me) o = Some (r, out, l') -> sends me peer l' out.
Proof.
  intros Hi Hal Hadm Hsend. pose proof (sd_link _ Hi) as Hl.
  assert (Hsame : sends me peer (link me) []).
  { apply sends_quiet; try done. intros; eauto. }
  destruct live as [b|]; [|by cbn in Hsend; simplify_eq].
  destruct (admission (Some b) o) as [[]|e] eqn:Had.
  2: { unfold send in Hsend. rewrite Had in Hsend. by simplify_eq. }
  destruct (decide (packet_seq (acks (link me)) = u32_max)) as [Hmax|Hmax].
  { unfold send in Hsend. rewrite Had, build_outgoing_exhausted in Hsend by done. simplify_eq.
    destruct (link me). done. }
  assert (Hlt : packet_seq (acks (link me)) < u32_max).
  { pose proof (inv_seq _ (proj1 (proj1 Hl))). unfold is_u32 in *. lia. }
  destruct (send_admitted _ o b sd Hl Had Hadm Hlt) as (a2 & Hrec & _ & _ & Heq).
  rewrite Hsend in Heq. cbn zeta in Heq. injection Heq as Heq.
  destruct (sd (packet_of (link me) o b)); simplify_eq;
    [by apply recorded_sends|by apply built_sends|by apply built_sends].
Qed.

Lemma same_frame_turns (a a' : AckManager) :
  same_frame a a' -> same_frame a (set_turns_complete a' (am_turns_complete a)).
Proof. intros (? & ? & ? & ?). by split_and!. Qed.

Lemma cursor_sends me peer s c :
  side_inv me -> side_inv peer -> (s, c) ∈ beacons peer ->
  sends me peer (retire_through (link me) s c).2 [].
Proof.
  intros Hi Hp Hb. pose proof (sd_link _ Hi) as [Hg Hd]. unfold retire_through, advance_retired_through.
  assert (Hdi : forall R, dedup_inv (mkDedup (slots (dedup (link me))) R (Dedup.window (dedup (link me)))
    (forward_collapse (dedup (link me))))) by (intros R; by destruct Hd; split).
  destruct (match retired_through (dedup (link me)) !! s with Some prev => c <=? prev | None => false end).
  { apply sends_quiet; cbn; try done. intros; eauto. }
  assert (Hg' : good (retire_payloads_through (acks (link me)) s c).2).
  { eapply good_step; [exact Hg|]. constructor. }
  apply sends_quiet; cbn [snd with_acks with_dedup acks dedup ingress_slot]; try done;
    [by split; [|apply Hdi]|].
  intros k sp Hk. rewrite get_retire_through. case_decide as Hout; [eauto|]. right.
  assert (Hq : 0 <= k.2 <= c).
  { apply (inv_entries _ (proj1 Hg)) in Hk as (_ & _ & ? & _). unfold is_u64 in *. lia. }
  replace k with (s, k.2); [by eapply sd_beacons|]. destruct k as [s' q]. cbn in *. f_equal.
  destruct (decide (s' = s)); [done|tauto].
Qed.

Lemma reinject_sends me peer p :
  side_inv me -> admissible (acks (link me)) (Some p) ->
  sends me peer (link_reinject_unacked (link me) p) [].
Proof.
  intros Hi Hadm. pose proof (sd_link _ Hi) as [Hg Hd].
  pose proof (good_reinject _ _ Hg Hadm) as Hg'. unfold link_reinject_unacked.
  apply sends_quiet; cbn [with_acks acks dedup ingress_slot]; try done;
    unfold reinject_unacked in *; destruct (u8_try_from (slot p)) as [raw|]; try done; try (intros; by eauto);
    destruct (BTreeMap.get (unacked_payloads (acks (link me))) (raw, seq p)); try done; try (intros; by eauto).
  intros k sp Hk. left. unfold insert_unacked. cbn [set_unacked unacked_payloads].
  rewrite BTreeMap.get_insert. case_decide; eauto.
Qed.

Lemma turns_sends me peer c :
  side_inv me -> (forall x, c = Some x -> is_u64 x) ->
  sends me peer (link_set_turns_complete (link me) c) [].
Proof.
  intros Hi Hc. pose proof (sd_link _ Hi) as [Hg Hd]. unfold link_set_turns_complete.
  apply sends_quiet; cbn [with_acks acks dedup ingress_slot]; try done; [|eauto].
  split; [|done]. eapply good_step; [exact Hg|]. by constructor.
Qed.

(** ** Receiving *)

(** What an acknowledged packet carried has been delivered: the heart of the
    protocol. *)
Lemma acked_delivered me peer pkt q k :
  side_inv me -> cross me peer -> (epoch me, pkt) ∈ sent peer ->
  acknowledges pkt q -> carried (acks (link me)) q k ->
  is_delivered peer (seen (ingress_slot (link peer)) k).
Proof.
  intros Hi Hc Hpkt Hack (Hq & sp & Hv & Hk).
  destruct (sd_memory _ Hi q sp k Hq Hv Hk) as (p1 & Hp1 & Hs1 & Hk1).
  destruct (cr_acks _ _ Hc _ _ _ Hpkt Hack) as (p2 & Hp2 & Hs2 & Hdel).
  apply Hdel. assert (p1 = p2) as -> by (eapply (sd_unique _ Hi); [done|done|congruence]). done.
Qed.

(** The ack half of a processed packet, for the link state [l'] it leads to. *)
Record receives me peer (pkt : Packet) (l' : Link) : Prop := {
  re_link : link_inv l';
  re_ingress : ingress_slot l' = ingress_slot (link me);
  re_seq : packet_seq (acks l') = packet_seq (acks (link me));
  re_view : forall q sp, is_seq q -> sent_view (acks l') q = Some sp ->
    sent_view (acks (link me)) q = Some sp;
  re_sub : forall k sp, BTreeMap.get (unacked_payloads (acks l')) k = Some sp ->
    BTreeMap.get (unacked_payloads (acks (link me))) k = Some sp;
  re_keep : forall k sp, BTreeMap.get (unacked_payloads (acks (link me))) k = Some sp ->
    is_Some (BTreeMap.get (unacked_payloads (acks l')) k) \/
    is_delivered peer (seen (ingress_slot (link peer)) k);
}.

Lemma handled_receives me peer pkt a' d' :
  side_inv me -> side_inv peer -> cross me peer -> (epoch me, pkt) ∈ sent peer ->
  handle_incoming (acks (link me)) pkt = Some (Ok tt, a') -> good a' -> dedup_inv d' ->
  receives me peer pkt (mkLink a' d' (ingress_slot (link me))) /\
  received_packets a' = History.record (received_packets (acks (link me))) (packet_seq_of pkt).
Proof.
  intros Hi Hp Hc Hpkt Hh Hg' Hd'. pose proof (sd_link _ Hi) as [Hg Hd].
  pose proof (sd_wire _ Hp _ _ Hpkt) as [Hw _].
  destruct (check_acks (acks (link me)) pkt) as [[]|e] eqn:Hck.
  2: { rewrite (handle_incoming_err _ _ _ Hck) in Hh. done. }
  destruct (handle_incoming_ok _ pkt (proj1 Hg) Hw Hck) as (a1 & Hh1 & Hr). assert (a1 = a') as -> by congruence.
  destruct (ret_frame _ _ _ Hr) as (Fs & Frec & _). split; [|exact Frec].
  split; cbn [acks ingress_slot]; [done|done|exact Fs|..].
  - intros q sp Hq Hv. by apply (ret_sent _ _ _ Hr) in Hv as [? _].
  - intros k sp Hk. by apply (ret_unacked _ _ _ Hr) in Hk as [? _].
  - intros k sp Hk. destruct (BTreeMap.get (unacked_payloads a') k) as [sp'|] eqn:Hk'; [eauto|right].
    destruct (decide (is_delivered peer (seen (ingress_slot (link peer)) k))) as [|Hnd]; [done|]. exfalso.
    assert (BTreeMap.get (unacked_payloads a') k = Some sp); [|congruence].
    apply (ret_unacked _ _ _ Hr). split; [done|]. intros (q & Hq & Hcar). apply Hnd.
    exact (acked_delivered me peer pkt q k Hi Hc Hpkt Hq Hcar).
Qed.

Lemma delivered_at_mono d d' s q :
  extends d d' -> dedup_inv d' -> delivered_at d s q -> delivered_at d' s q.
Proof.
  intros He Hi Hd. destruct (decide (0 <= q)); [by eapply ex_delivered|].
  left. pose proof (si_base _ (di_slot _ Hi s)). lia.
Qed.

(** The endpoint invariant after receiving: the dedup grew by [kept]. *)
Lemma receives_inv me peer pkt l' kept up :
  side_inv me -> receives me peer pkt l' ->
  (forall k, is_delivered me k -> delivered_at (dedup l') k.1 k.2) ->
  forward_collapse (dedup l') = false ->
  (forall k, 0 <= k.2 -> delivered_at (dedup l') k.1 k.2 <-> is_delivered me k \/ k ∈ map origin kept) ->
  NoDup (map origin kept) ->
  (forall k, k ∈ map origin kept -> 0 <= k.2 /\ ~ is_delivered me k) ->
  side_inv (after_recv me l' kept up).
Proof.
  intros Hi [Rl Ri Rs Rv Rsub Rk] Hmono Hfc Hgrow Hnd Hfresh.
  destruct Hi as [Il If Ii Ih Io Im Iu Ip Iw Iy Iwin Ir Ib].
  split; cbn [after_recv link epoch sent registered handed streamed beacons]; try done.
  - rewrite Ri. done.
  - intros k Hk. unfold is_delivered at 1. cbn [link after_recv]. rewrite Hgrow, Ih, map_app, elem_of_app by done.
    tauto.
  - rewrite map_app, <- app_assoc, (Permutation_app_comm (map origin kept)), app_assoc.
    apply NoDup_app. split; [done|]. split; [|done]. intros k Hk Hk2.
    destruct (Hfresh k Hk2) as [Hq Hn]. apply Hn. apply Ih; [done|]. by apply elem_of_app.
  - intros q sp k Hq Hv Hk. by eapply Im; [|apply Rv|].
  - rewrite Rs. done.
  - intros k sp Hk. by eapply Iwin, Rsub.
  - intros s c q Hb Hq. rewrite Ri. unfold is_delivered. cbn [link after_recv]. apply Hmono. by eapply Ib.
Qed.

Lemma receives_later me peer pkt l' kept up :
  receives me peer pkt l' ->
  (forall k, is_delivered me k -> delivered_at (dedup l') k.1 k.2) ->
  later me (after_recv me l' kept up).
Proof. intros Hr Hmono. split; [apply Hr|exact Hmono|done|done]. Qed.

Lemma receives_no_loss me peer pkt l' p :
  cross me peer -> receives me peer pkt l' -> p ∈ registered me ->
  is_Some (BTreeMap.get (unacked_payloads (acks l')) (origin p)) \/
  is_delivered peer (seen (ingress_slot (link peer)) (origin p)).
Proof.
  intros Hc Hr Hp. destruct (cr_no_loss _ _ Hc p Hp) as [[sp Hsp]|?]; [|by right].
  by eapply (re_keep _ _ _ _ Hr).
Qed.

Lemma elem_of_carried_keys ps k :
  k ∈ carried_keys ps -> exists p, p ∈ ps /\ k = origin p.
Proof.
  unfold carried_keys. rewrite list_elem_of_omap. intros (p & Hp & Hk). exists p. split; [done|].
  destruct (u8_try_from (slot p)) as [r|] eqn:Hu; [|done]. cbn in Hk. injection Hk as <-.
  by apply u8_try_from_Some in Hu as [-> _].
Qed.

Lemma recv_progress me peer pkt rcv l' :
  side_inv me -> side_inv peer -> cross me peer -> cross peer me -> alive me = true ->
  (epoch me, pkt) ∈ sent peer -> process_incoming (link me) pkt = Some (Ok rcv, l') ->
  progress me peer (after_recv me l' (fresh rcv) true).
Proof.
  intros Hi Hp Hc Hc' Hal Hpkt Hproc. pose proof (sd_wire _ Hp _ _ Hpkt) as Hw.
  destruct (process_incoming_cases (link me) pkt (sd_link _ Hi) Hw (sd_ingress _ Hi))
    as [(e & Heq & _)|(a' & Hh & Hg & _ & Hcase)]; [congruence|].
  set (auth := map (authorize (ingress_slot (link me))) (payloads pkt)) in *.
  destruct (retain_fresh_payloads (dedup (link me)) auth) as [[kept|e] d']; [|congruence].
  destruct Hcase as [Heq [Hi' He _ Hk Hfresh Hon Hco Hex]]. rewrite Hproc in Heq.
  injection Heq as -> ->. cbn [fresh].
  destruct (handled_receives me peer pkt a' d' Hi Hp Hc Hpkt Hh Hg Hi') as [Hr Hrec].
  assert (Hmono : forall k, is_delivered me k -> delivered_at d' k.1 k.2)
    by (intros k Hk'; by eapply delivered_at_mono).
  assert (Hsub : forall p, p ∈ kept -> p ∈ auth).
  { intros p Hpk. rewrite <- sort_payloads_Permutation. by eapply elem_of_sublist. }
  assert (Hlater := receives_later me peer pkt _ kept true Hr Hmono).
  pose proof (authorize_all_recv _ _ (sd_ingress _ Hi) (proj2 Hw)) as Hall. rewrite Forall_forall in Hall.
  split; [|done|..].
  - eapply (receives_inv me peer pkt); [done|done|done| | |done|]; cbn [dedup].
    + rewrite (ex_collapse _ _ He). apply Hi.
    + intros [s q] Hq. apply Hex; [apply Hi|done].
    + intros k (p & -> & Hpk)%list_elem_of_fmap. split; [|by apply Hfresh].
      destruct (Hall p (Hsub p Hpk)). cbn. width_lia.
  - intros _. destruct (cr_history _ _ Hc' Hal) as (o & Ho & Hgot). cbn [after_recv link epoch acks].
    exists (spec_record o (packet_seq_of pkt)). rewrite Hrec. split; [exact (tracks_record _ _ _ Ho (proj1 (proj1 Hw)))|].
    intros m x Hm Hx. destruct (spec_record_set o _ m Hm x Hx) as [->|(m0 & -> & Hx0)].
    + exists pkt. split; [done|]. split; [done|]. intros k (p & Hpp & ->)%elem_of_carried_keys.
      change (ingress_slot (link _)) with (ingress_slot (link me)). rewrite <- origin_authorize.
      apply (Hco eq_refl). rewrite sort_payloads_Permutation. apply list_elem_of_fmap. eauto.
    + eapply got_later; [apply later_refl|done|]. by eapply Hgot.
  - intros e pk Hin. by left.
  - intros p Hpr. by eapply receives_no_loss.
  - cbn [after_recv handed]. intros p [Hp0|Hpk]%elem_of_app; [by apply (cr_genuine _ _ Hc')|].
    apply Hsub, list_elem_of_fmap in Hpk as (p0 & -> & Hp0). exists p0. split; [|done]. by eapply sd_payloads.
Qed.

Lemma recv_failed_progress me peer pkt e l' :
  side_inv me -> side_inv peer -> cross me peer -> cross peer me ->
  (epoch me, pkt) ∈ sent peer -> process_incoming (link me) pkt = Some (Err e, l') ->
  progress me peer (after_recv me l' [] false).
Proof.
  intros Hi Hp Hc Hc' Hpkt Hproc. pose proof (sd_wire _ Hp _ _ Hpkt) as Hw.
  assert (Hr : receives me peer pkt l' /\ dedup l' = dedup (link me)).
  { destruct (process_incoming_cases (link me) pkt (sd_link _ Hi) Hw (sd_ingress _ Hi))
      as [(e' & Heq & _)|(a' & Hh & Hg & _ & Hcase)].
    - assert (l' = link me) as -> by congruence. split; [|done].
      split; [apply Hi|done|done|done|done|]. intros; eauto.
    - destruct (retain_fresh_payloads _ _) as [[kept|e'] d']; [destruct Hcase; congruence|].
      rewrite Hproc in Hcase. injection Hcase as _ ->. split; [|done].
      apply (handled_receives me peer pkt a' (dedup (link me))); try done. apply Hi. }
  destruct Hr as [Hr Hd].
  assert (Hmono : forall k, is_delivered me k -> delivered_at (dedup l') k.1 k.2) by (by rewrite Hd).
  assert (Hlater := receives_later me peer pkt _ [] false Hr Hmono).
  split; [|done|done|by left|..].
  - eapply (receives_inv me peer pkt); [done|done|done| | |constructor|set_solver].
    + rewrite Hd. apply Hi.
    + intros k Hk. rewrite Hd. cbn. set_solver.
  - intros p Hpr. by eapply receives_no_loss.
  - cbn [after_recv handed]. rewrite app_nil_r. intros p Hpr. by apply (cr_genuine _ _ Hc').
Qed.

(** ** The remaining actions *)

Lemma stream_progress me peer s q r l' :
  side_inv me -> cross me peer -> cross peer me -> is_u64 q ->
  deliver_external (link me) s q = (r, l') ->
  progress me peer (after_stream me l' (match r with Ok true => [(s, q)] | _ => [] end)).
Proof.
  intros Hi Hc Hc' Hq Hext. destruct (sd_link _ Hi) as [Hg Hd].
  destruct (recv_handed (dedup (link me)) (RExternal s q) Hd Hq) as [Hd' He Hn Hf Hx]. cbn [recv_one seeded] in *.
  set (ks := match r with Ok true => [(s, q)] | _ => [] end).
  assert (Hl' : l' = with_dedup (link me) (recv_one (dedup (link me)) (RExternal s q)).2 /\
    ks = (recv_one (dedup (link me)) (RExternal s q)).1).
  { unfold ks. unfold deliver_external in Hext. cbn [recv_one].
    destruct (accept (dedup (link me)) s q) as [[| |] d']; simplify_eq; done. }
  cbn [recv_one] in Hl'. destruct (match accept (dedup (link me)) s q with (New, d') => _ | _ => _ end) as [out d'].
  cbn [fst snd] in *. destruct Hl' as [-> ->].
  assert (Hmono : forall k, is_delivered me k -> delivered_at d' k.1 k.2)
    by (intros k Hk'; by eapply delivered_at_mono).
  assert (Hlater : later me (after_stream me (with_dedup (link me) d') out)) by (by split).
  specialize (Hx (sd_strict _ Hi)). assert (Hi0 := Hi).
  destruct Hi as [Il If Ii Ih Io Im Iu Ip Iw Iy Iwin Ir Ib]. split; [|done|..].
  - split; cbn [after_stream link epoch sent registered handed streamed beacons with_dedup acks dedup ingress_slot]; try done.
    + by rewrite (ex_collapse _ _ He).
    + intros [s' q'] Hk. unfold is_delivered at 1. cbn. rewrite Hx by done.
      rewrite elem_of_app. specialize (Ih (s', q') Hk). unfold is_delivered in Ih. cbn in Ih. tauto.
    + rewrite app_assoc. apply NoDup_app. split; [done|]. split; [|done]. intros [s' q'] Hk Hk2.
      destruct (Hf s' q' Hk2) as (Hq' & Hnd & _). apply Hnd. apply (Ih (s', q')); [done|]. by apply elem_of_app.
    + intros s' c q' Hb Hq'. apply Hmono. by eapply Ib.
  - intros Hal. destruct (cr_history _ _ Hc' Hal) as (o & Ho & Hgot). exists o. split; [done|].
    intros m x Hm Hx'. eapply got_later; [apply later_refl|done|]. by eapply Hgot.
  - by left.
  - intros p Hp. by apply (cr_no_loss _ _ Hc).
  - intros p Hp. by apply (cr_genuine _ _ Hc').
Qed.

Lemma beacon_progress me peer s c :
  side_inv me -> cross me peer -> cross peer me ->
  link_delivered_through (link me) (seen (ingress_slot (link me)) (s, c)).1 = Some c ->
  progress me peer (after_beacon me (s, c)).
Proof.
  intros Hi Hc Hc' Hb. assert (Hlater : later me (after_beacon me (s, c))) by (by split).
  split; [|done|..].
  - destruct Hi as [Il If Ii Ih Io Im Iu Ip Iw Iy Iwin Ir Ib]. split; try done.
    intros s' c' q. cbn [after_beacon beacons]. intros [?|[= -> ->]%list_elem_of_singleton]%elem_of_app Hq; [by eapply Ib|].
    left. cbn [after_beacon link] in *. unfold link_delivered_through, dedup_delivered_through in Hb.
    cbn [seen fst] in *. unfold slot_entry.
    destruct (slots (dedup (link me)) !! default s (ingress_slot (link me))) as [st|]; [|done].
    cbn in Hb |- *. unfold base. rewrite Hb. lia.
  - intros Hal. destruct (cr_history _ _ Hc' Hal) as (o & Ho & Hgot). by exists o.
  - by left.
  - intros p Hp. by apply (cr_no_loss _ _ Hc).
  - intros p Hp. by apply (cr_genuine _ _ Hc').
Qed.

Lemma rebind_progress me peer :
  side_inv me -> cross me peer -> cross peer me -> progress me peer (after_rebind me).
Proof.
  intros Hi Hc Hc'. assert (Hlater : later me (after_rebind me)) by (by split).
  assert (Hget : forall k, BTreeMap.get (unacked_payloads (acks (rebind (link me)))) k =
    reset_coverage <$> BTreeMap.get (unacked_payloads (acks (link me))) k).
  { intros k. cbn. apply BTreeMap.get_map_values. }
  split; [|done|..].
  - destruct Hi as [Il If Ii Ih Io Im Iu Ip Iw Iy Iwin Ir Ib]. split; try done; cbn [after_rebind link epoch sent registered].
    + by apply link_inv_rebind.
    + intros q sp k Hq. unfold sent_view. cbn. by rewrite with_capacity_view.
    + intros e pkt Hin. destruct (Ip e pkt Hin). split; [lia|]. lia.
    + intros k sp. rewrite Hget. destruct (BTreeMap.get _ k) as [sp0|] eqn:Hk; [|done]. intros [= <-].
      cbn. by eapply Iwin.
  - intros _. by exists None.
  - by left.
  - intros p Hp. cbn [after_rebind registered link] in *. rewrite Hget.
    destruct (cr_no_loss _ _ Hc p Hp) as [[sp ->]|?]; [left|by right]. eauto.
  - intros p Hp. by apply (cr_genuine _ _ Hc').
Qed.

Lemma local_progress me peer me' :
  side_inv me -> side_inv peer -> cross me peer -> cross peer me -> local me peer me' ->
  progress me peer me'.
Proof.
  intros Hi Hp Hc Hc' Hstep. destruct Hstep.
  - apply sends_progress; try done. by eapply send_sends.
  - by eapply recv_progress.
  - by eapply recv_failed_progress.
  - by apply beacon_progress.
  - apply sends_progress; try done. by apply cursor_sends.
  - apply sends_progress; try done. by apply reinject_sends.
  - apply sends_progress; try done. by apply turns_sends.
  - by eapply stream_progress.
  - by apply rebind_progress.
Qed.

(** ** Reachable systems *)

Definition sys_inv (x : side * side) : Prop :=
  side_inv x.1 /\ side_inv x.2 /\ cross x.1 x.2 /\ cross x.2 x.1.

Lemma sys_inv_step x x' : sys_inv x -> sys_step x x' -> sys_inv x'.
Proof.
  intros (Ha & Hb & Hab & Hba) Hstep. destruct Hstep as [a b a' Hl|a b b' Hl]; cbn [fst snd] in *.
  - pose proof (local_progress a b a' Ha Hb Hab Hba Hl) as Hpr.
    destruct (cross_progress a b a' Hab Hba Hpr). split; [apply Hpr|done].
  - pose proof (local_progress b a b' Hb Ha Hba Hab Hl) as Hpr.
    destruct (cross_progress b a b' Hba Hab Hpr). split; [done|]. split; [apply Hpr|done].
Qed.

Lemma initial_delivered me k : initial me -> 0 <= k.2 -> ~ is_delivered me k.
Proof.
  intros [Hl _] Hk. assert (slots (dedup (link me)) = ∅) as Hs by (by destruct Hl as [->|(s & _ & ->)]).
  unfold is_delivered, delivered_at, delivered, slot_entry. rewrite Hs, lookup_empty. cbn. unfold base. cbn.
  intros [?|?]; [lia|set_solver].
Qed.

Lemma initial_inv me : initial me -> side_inv me.
Proof.
  intros Hini. pose proof (initial_delivered me) as Hnd. assert (Hini' := Hini).
  destruct Hini as (Hl & Hs & Hb & Hr & Hh & Hst & He).
  assert (Hacks : acks (link me) = AckManager.new) by (by destruct Hl as [->|(s & _ & ->)]).
  split; rewrite ?Hs, ?Hb, ?Hr, ?Hh, ?Hst; try (intros *; by rewrite ?elem_of_nil).
  - destruct Hl as [->|(s & _ & ->)]; [apply link_inv_new|apply link_inv_with_ingress].
  - by destruct Hl as [->|(s & _ & ->)].
  - destruct Hl as [->|(s & Hu & ->)]; [done|]. cbn. by intros ? [= <-].
  - intros k Hk. split; [intros Hd; by apply Hnd in Hd|]. cbn. set_solver.
  - constructor.
  - intros q sp k Hq. unfold sent_view. rewrite Hacks. cbn. by rewrite with_capacity_view.
  - intros k sp. by rewrite Hacks.
Qed.

Lemma initial_cross me peer : initial me -> initial peer -> cross me peer.
Proof.
  intros (_ & _ & _ & Hr & _) (Hl & Hs & _ & _ & Hh & _).
  assert (Hacks : acks (link peer) = AckManager.new) by (by destruct Hl as [->|(s & _ & ->)]).
  split; rewrite ?Hs, ?Hr, ?Hh; try (intros *; by rewrite elem_of_nil).
  intros _. rewrite Hacks. by exists None.
Qed.

Lemma sys_reachable_inv x : sys_reachable x -> sys_inv x.
Proof.
  intros (x0 & Ha & Hb & Hr). assert (Hx0 : sys_inv x0).
  { split; [by apply initial_inv|]. split; [by apply initial_inv|]. split; by apply initial_cross. }
  clear Ha Hb. induction Hr as [|x0 x1 x2 Hstep _ IH]; [done|]. apply IH. by eapply sys_inv_step.
Qed.

End system.

(** ** Properties *)

(** C1 No turn is lost and none is delivered twice.  In every state two links
    can reach over a network that loses, duplicates, reorders and delays, across
    any number of reconnects: each payload ever registered with the sender is
    still in its unacked window or has been handed to the receiver's consumer;
    no key is handed over twice; and every datagram payload handed over is one
    the sender registered, under its authorized slot. *)
Theorem link_no_loss_exactly_once `{!Prost, !ProstLaws} (a b : side) :
  sys_reachable (a, b) ->
  (forall p, p ∈ registered a ->
     is_Some (BTreeMap.get (unacked_payloads (acks (link a))) (origin p)) \/
     seen (ingress_slot (link b)) (origin p) ∈ map origin (handed b) ++ streamed b) /\
  NoDup (map origin (handed b) ++ streamed b) /\
  (forall p, p ∈ handed b ->
     exists p0, p0 ∈ registered a /\ p = authorize (ingress_slot (link b)) p0).
Proof.
  intros (Ha & Hb & Hab & _)%sys_reachable_inv. cbn [fst snd] in *. split; [|split].
  - intros p Hp. destruct (cr_no_loss _ _ Hab p Hp) as [?|Hd]; [by left|right].
    apply elem_of_app. apply (sd_handed _ Hb); [|done]. cbn.
    destruct (sd_registered _ Ha p Hp). width_lia.
  - apply Hb.
  - apply Hab.
Qed.
