(* ===== verification/MeshLink.v ===== *)
(** * A mesh link: many sessions over one relay-to-relay connection
    ([transport/src/mesh_link/])

    Every datagram of the shared connection wraps one session's packet with
    its session id and, optionally, its tenant; each [(session, tenant)] key
    has its own ack manager and collapsing dedup.  The QUIC connection's
    answers are arguments, and [LinkConditions], a generated message the
    transport only carries and measures, is a type parameter. *)

From Stdlib Require Import ZArith Lia.
From stdpp Require Import gmap sorting list.
From S2P Require Import Prelude BTree SequenceBuffer Wire History AckManager AckInvariant AckRecv AckSend AckLiveness Dedup DedupPackets Link.

Open Scope Z_scope.

(** ** Keys, messages and errors *)

(** The tenant is the raw bytes of its string. *)
Record MeshSessionKey : Type := mkMeshSessionKey {
  session : Z;
  tenant : option (list Z);
}.

#[export] Instance MeshSessionKey_eq_dec : EqDecision MeshSessionKey.
Proof. solve_decision. Defined.
#[export] Instance MeshSessionKey_countable : Countable MeshSessionKey.
Proof.
  refine (inj_countable' (fun k => (session k, tenant k)) (fun x => mkMeshSessionKey x.1 x.2) _).
  by intros [].
Defined.

Definition tenant_key (s : Z) (t : list Z) : MeshSessionKey := mkMeshSessionKey s (Some t).
Definition bare_key (s : Z) : MeshSessionKey := mkMeshSessionKey s None.

Definition should_dial_mesh (our_id peer_id : Z) : bool := our_id <? peer_id.

Record MeshPacket (C : Type) : Type := mkMeshPacket {
  mp_session : Z;
  mp_packet : option Packet;
  mp_conditions : option C;
  mp_tenant : option (list Z);
}.
Arguments mkMeshPacket {C}.
Arguments mp_session {C}.
Arguments mp_packet {C}.
Arguments mp_conditions {C}.
Arguments mp_tenant {C}.

Inductive MeshLinkError : Type :=
| MeshDatagramsUnsupported
| MeshConnection
| MeshSend
| MeshPayloadTooLarge (needed budget : Z)
| MeshDecode
| MalformedMeshPacket
| UnknownSession (s : Z)
| ZeroSession
| MeshPayloadOutOfWindow (slot seq : Z)
| MeshMalformedSlot (slot : Z)
| MeshAck (e : AckError)
| MeshPacketSeqExhausted.

(** [From<LinkError>]. *)
Definition from_link_error (e : LinkError) : MeshLinkError :=
  match e with
  | DatagramsUnsupported => MeshDatagramsUnsupported
  | ConnectionLost => MeshConnection
  | SendFailed => MeshSend
  | PayloadTooLarge needed budget => MeshPayloadTooLarge needed budget
  | DecodeFailed => MeshDecode
  | PayloadOutOfWindow s q => MeshPayloadOutOfWindow s q
  | MalformedSlot s => MeshMalformedSlot s
  | LinkAck e => MeshAck e
  | LinkPacketSeqExhausted => MeshPacketSeqExhausted
  end.

(** ** One session's state *)

Record SessionLink : Type := mkSessionLink { s_acks : AckManager; s_dedup : Dedup }.

Definition open_link : SessionLink := mkSessionLink AckManager.new with_forward_collapse.

Definition session_process_incoming (s : SessionLink) (packet : Packet) :
  option (result Received LinkError * SessionLink) :=
  r ← handle_incoming (s_acks s) packet;
  let s1 := mkSessionLink r.2 (s_dedup s) in
  mret match r.1 with
       | Err e => (Err (LinkAck e), s1)
       | Ok _ =>
           let carried := match payloads packet with [] => false | _ => true end in
           let '(kept, d') := retain_fresh_payloads (s_dedup s1) (payloads packet) in
           (match kept with
            | Ok kept => Ok (mkReceived kept carried None)
            | Err e => Err e
            end, mkSessionLink (s_acks s1) d')
       end.

(** ** The registry of sessions *)

Abbreviation MeshLink := (gmap MeshSessionKey SessionLink).

Record MeshReceived (C : Type) : Type := mkMeshReceived {
  mr_session : Z;
  mr_tenant : option (list Z);
  mr_delivery : Received;
  mr_conditions : option C;
}.
Arguments mkMeshReceived {C}.
Arguments mr_session {C}.
Arguments mr_tenant {C}.
Arguments mr_delivery {C}.
Arguments mr_conditions {C}.

Definition new_mesh_link : MeshLink := ∅.

Definition open_session (m : MeshLink) (k : MeshSessionKey) : MeshLink :=
  match m !! k with Some _ => m | None => <[k := open_link]> m end.

Definition close_session (m : MeshLink) (k : MeshSessionKey) : MeshLink := delete k m.

Definition mesh_anchor_receive_window (m : MeshLink) (k : MeshSessionKey) (s a : Z) : MeshLink :=
  match m !! k with
  | Some l => <[k := mkSessionLink (s_acks l) (anchor (s_dedup l) s a)]> m
  | None => m
  end.

Definition mesh_deliver_external (m : MeshLink) (k : MeshSessionKey) (s q : Z) :
  result bool MeshLinkError * MeshLink :=
  match m !! k with
  | None => (Err (UnknownSession (session k)), m)
  | Some l =>
      let '(v, d') := accept (s_dedup l) s q in
      let m' := <[k := mkSessionLink (s_acks l) d']> m in
      match v with
      | New => (Ok true, m')
      | Duplicate => (Ok false, m')
      | OutOfWindow => (Err (MeshPayloadOutOfWindow s q), m')
      end
  end.

Definition mesh_payloads_in_flight (m : MeshLink) (k : MeshSessionKey) : nat :=
  match m !! k with Some l => payloads_in_flight (s_acks l) | None => O end.

Definition mesh_delivered_through (m : MeshLink) (k : MeshSessionKey) (s : Z) : option Z :=
  l ← m !! k; dedup_delivered_through (s_dedup l) s.

Definition mesh_delivered_through_all (m : MeshLink) (k : MeshSessionKey) : list (Z * Z) :=
  match m !! k with Some l => delivered_through_all (s_dedup l) | None => [] end.

Definition mesh_retire_through (m : MeshLink) (k : MeshSessionKey) (s through : Z) : nat * MeshLink :=
  match m !! k with
  | None => (O, m)
  | Some l =>
      let '(advanced, d') := advance_retired_through (s_dedup l) s through in
      if advanced
      then let r := retire_payloads_through (s_acks l) s through in
           (r.1, <[k := mkSessionLink r.2 d']> m)
      else (O, <[k := mkSessionLink (s_acks l) d']> m)
  end.

(** [recv]: [datagram] is what the connection and the decoder gave. *)
Definition mesh_recv {C} (m : MeshLink) (datagram : result (MeshPacket C) MeshLinkError) :
  option (result (MeshReceived C) MeshLinkError * MeshLink) :=
  match datagram with
  | Err e => Some (Err e, m)
  | Ok mp =>
      if mp_session mp =? 0 then Some (Err ZeroSession, m)
      else
        match mp_packet mp with
        | None => Some (Err MalformedMeshPacket, m)
        | Some packet =>
            let k := mkMeshSessionKey (mp_session mp) (mp_tenant mp) in
            match m !! k with
            | None => Some (Err (UnknownSession (mp_session mp)), m)
            | Some l =>
                r ← session_process_incoming l packet;
                let m' := <[k := r.2]> m in
                mret match r.1 with
                     | Err e => (Err (from_link_error e), m')
                     | Ok d => (Ok (mkMeshReceived (mp_session mp) (mp_tenant mp) d (mp_conditions mp)), m')
                     end
            end
        end
  end.

(** ** Sizes *)

Class MeshProst (C : Type) : Type := {
  conditions_encoded_len : C -> Z;
  mesh_packet_encoded_len : MeshPacket C -> Z;
}.

Definition MESH_PACKET_OVERHEAD : Z := 16.

Section sizing.
Context `{!Prost} {C : Type} `{!MeshProst C}.

Definition conditions_element_len (c : C) : Z :=
  let body_len := conditions_encoded_len c in 1 + encoded_len_varint body_len + body_len.

Definition tenant_element_len (t : list Z) : Z :=
  let body_len := Z.of_nat (length t) in 1 + encoded_len_varint body_len + body_len.

Definition packet_admission_floor (live_datagram_budget : Z) (t : option (list Z)) : Z :=
  saturating_sub
    (saturating_sub (Z.min GUARANTEED_DATAGRAM_BUDGET live_datagram_budget) MESH_PACKET_OVERHEAD)
    (default 0 (tenant_element_len <$> t)).

(** The inner packet's budget of one send. *)
Definition mesh_packet_budget (datagram_budget : Z) (c : option C) (t : option (list Z)) : Z :=
  saturating_sub
    (saturating_sub
       (saturating_sub datagram_budget (default 0 (conditions_element_len <$> c)))
       (default 0 (tenant_element_len <$> t)))
    MESH_PACKET_OVERHEAD.

Definition mesh_payload_fits (live : option Z) (p : Payload) (c : option C) (t : option (list Z)) :
  result bool MeshLinkError :=
  match live with
  | None => Err MeshDatagramsUnsupported
  | Some b => Ok (lone_packet_len p <=? Z.min (mesh_packet_budget b c t) (packet_admission_floor b t))
  end.

(** The checks a fresh payload passes before any send-side state is built. *)
Definition mesh_admission (b : Z) (k : MeshSessionKey) (p : option Payload) :
  result unit MeshLinkError :=
  match p with
  | None => Ok tt
  | Some p =>
      match u8_try_from (slot p) with
      | None => Err (MeshMalformedSlot (slot p))
      | Some _ =>
          if packet_admission_floor b (tenant k) <? lone_packet_len p
          then Err (MeshPayloadTooLarge (lone_packet_len p) (packet_admission_floor b (tenant k)))
          else Ok tt
      end
  end.

(** The result, the datagrams that reached the wire, and the state after. *)
Definition mesh_send (m : MeshLink) (k : MeshSessionKey) (live : option Z)
  (send_datagram : MeshPacket C -> datagram_outcome) (p : option Payload) (c : option C) :
  option (result Z MeshLinkError * list (MeshPacket C) * MeshLink) :=
  match live with
  | None => Some (Err MeshDatagramsUnsupported, [], m)
  | Some b =>
      match m !! k with
      | None => Some (Err (UnknownSession (session k)), [], m)
      | Some l =>
          match mesh_admission b k p with
          | Err e => Some (Err e, [], m)
          | Ok _ =>
              match build_outgoing (s_acks l) p (mesh_packet_budget b c (tenant k)) with
              | (Err _, a1) =>
                  Some (Err MeshPacketSeqExhausted, [], <[k := mkSessionLink a1 (s_dedup l)]> m)
              | (Ok packet, a1) =>
                  let redundant :=
                    Z.of_nat (length (payloads packet)) - (match p with Some _ => 1 | None => 0 end) in
                  let mp := mkMeshPacket (session k) (Some packet) c (tenant k) in
                  let m1 := <[k := mkSessionLink a1 (s_dedup l)]> m in
                  match send_datagram mp with
                  | DgAccepted =>
                      a2 ← record_sent a1 packet;
                      mret (Ok redundant, [mp], <[k := mkSessionLink a2 (s_dedup l)]> m)
                  | DgTooLarge =>
                      Some (Err (MeshPayloadTooLarge (mesh_packet_encoded_len mp) b), [], m1)
                  | DgFailed => Some (Err MeshSend, [], m1)
                  end
              end
          end
      end
  end.

End sizing.

(** ** Sequences of operations *)

Section ops.
Context `{!Prost} {C : Type} `{!MeshProst C}.
Implicit Types (m : MeshLink) (k : MeshSessionKey).

Inductive mesh_op : Type :=
| MOpen k
| MClose k
| MAnchor k (s a : Z)
| MExternal k (s q : Z)
| MRetire k (s through : Z)
| MSend k (live : option Z) (sd : MeshPacket C -> datagram_outcome) (p : option Payload) (c : option C)
| MRecv (datagram : result (MeshPacket C) MeshLinkError).

(** What an operation lets its caller and the wire see. *)
Inductive mesh_obs : Type :=
| ODone
| OExternal (r : result bool MeshLinkError)
| ORetired (n : nat)
| OSent (r : result Z MeshLinkError) (wire : list (MeshPacket C))
| OReceived (r : result (MeshReceived C) MeshLinkError).

Definition mesh_step m (op : mesh_op) : option (mesh_obs * MeshLink) :=
  match op with
  | MOpen k => Some (ODone, open_session m k)
  | MClose k => Some (ODone, close_session m k)
  | MAnchor k s a => Some (ODone, mesh_anchor_receive_window m k s a)
  | MExternal k s q => let r := mesh_deliver_external m k s q in Some (OExternal r.1, r.2)
  | MRetire k s t => let r := mesh_retire_through m k s t in Some (ORetired r.1, r.2)
  | MSend k live sd p c =>
      r ← mesh_send m k live sd p c; let '(v, wire, m') := r in mret (OSent v wire, m')
  | MRecv datagram => r ← mesh_recv m datagram; mret (OReceived r.1, r.2)
  end.

Fixpoint mesh_run m (ops : list mesh_op) : option (list mesh_obs * MeshLink) :=
  match ops with
  | [] => Some ([], m)
  | op :: ops =>
      r ← mesh_step m op;
      r' ← mesh_run r.2 ops;
      mret (r.1 :: r'.1, r'.2)
  end.

(** The key an operation is addressed to; a datagram is addressed by what is
    stamped on it, and one that cannot be demultiplexed to nobody. *)
Definition op_key (op : mesh_op) : option MeshSessionKey :=
  match op with
  | MOpen k | MClose k | MAnchor k _ _ | MExternal k _ _ | MRetire k _ _ | MSend k _ _ _ _ => Some k
  | MRecv (Ok mp) => Some (mkMeshSessionKey (mp_session mp) (mp_tenant mp))
  | MRecv (Err _) => None
  end.

Definition addressed k (op : mesh_op) : Prop := op_key op = Some k.
#[export] Instance addressed_dec k op : Decision (addressed k op).
Proof. unfold addressed. apply _. Defined.

(** The observations of the operations addressed to [k]. *)
Definition obs_of k (ops : list mesh_op) (outs : list mesh_obs) : list mesh_obs :=
  map snd (filter (fun x => addressed k x.1) (zip ops outs)).

(** Every operation reads and rewrites the entry of its own key alone. *)
Definition by_entry k (f : option SessionLink -> option (mesh_obs * option SessionLink)) m :
  option (mesh_obs * MeshLink) :=
  r ← f (m !! k); mret (r.1, partial_alter (fun _ => r.2) k m).

Lemma by_entry_keep m k (e : option SessionLink) : m !! k = e -> partial_alter (fun _ => e) k m = m.
Proof. intros <-. apply partial_alter_self. Qed.

Lemma mesh_send_local k live sd p c : exists f, forall m,
  mesh_step m (MSend k live sd p c) = by_entry k f m.
Proof.
  exists (fun e =>
    match live, e with
    | None, _ => Some (OSent (Err MeshDatagramsUnsupported) [], e)
    | Some _, None => Some (OSent (Err (UnknownSession (session k))) [], e)
    | Some b, Some l =>
        r ← mesh_send {[k := l]} k live sd p c; let '(v, wire, m') := r in mret (OSent v wire, m' !! k)
    end).
  intros m. unfold by_entry. cbn [mesh_step]. unfold mesh_send.
  destruct live as [b|]; [|cbn; by rewrite partial_alter_self].
  destruct (m !! k) as [l|] eqn:Hl; [|cbn; by rewrite by_entry_keep].
  rewrite lookup_singleton_eq.
  destruct (mesh_admission b k p) as [[]|e]; [|cbn; by rewrite lookup_singleton_eq, by_entry_keep].
  destruct (build_outgoing _ _ _) as [[pkt|e] a1]; [|cbn; by rewrite lookup_insert_eq].
  destruct (sd _); [|cbn; by rewrite lookup_insert_eq..].
  destruct (record_sent a1 pkt) as [a2|]; [cbn; by rewrite lookup_insert_eq|done].
Qed.

Lemma mesh_recv_local mp : exists f, forall m,
  mesh_step m (MRecv (Ok mp)) = by_entry (mkMeshSessionKey (mp_session mp) (mp_tenant mp)) f m.
Proof.
  set (k := mkMeshSessionKey (mp_session mp) (mp_tenant mp)).
  exists (fun e => match e with
    | None => r ← mesh_recv ∅ (Ok mp); mret (OReceived r.1, e)
    | Some l => r ← mesh_recv {[k := l]} (Ok mp); mret (OReceived r.1, r.2 !! k)
    end).
  intros m. unfold by_entry. cbn [mesh_step]. unfold mesh_recv. fold k.
  destruct (m !! k) as [l|] eqn:Hl; [rewrite lookup_singleton_eq|rewrite lookup_empty].
  - destruct (mp_session mp =? 0); [cbn [mbind option_bind mret option_ret fst snd]; by rewrite lookup_singleton_eq, by_entry_keep|].
    destruct (mp_packet mp) as [pkt|]; [|cbn [mbind option_bind mret option_ret fst snd]; by rewrite lookup_singleton_eq, by_entry_keep].
    destruct (session_process_incoming l pkt) as [[[d|e] l']|]; cbn [mbind option_bind mret option_ret fst snd]; [by rewrite lookup_insert_eq..|done].
  - destruct (mp_session mp =? 0); [cbn [mbind option_bind mret option_ret fst snd]; by rewrite by_entry_keep|].
    destruct (mp_packet mp) as [pkt|]; cbn [mbind option_bind mret option_ret fst snd]; by rewrite by_entry_keep.
Qed.

Lemma mesh_step_local op k : addressed k op -> exists f, forall m, mesh_step m op = by_entry k f m.
Proof.
  unfold addressed. intros Hk. destruct op as [k'|k'|k' s a|k' s q|k' s t|k' live sd p c|[mp|e]];
    cbn in Hk; simplify_eq; [..|apply mesh_send_local|apply mesh_recv_local];
    unfold by_entry; cbn [mesh_step].
  - exists (fun e => Some (ODone, Some (default open_link e))). intros m. unfold open_session.
    destruct (m !! k) as [l|] eqn:Hl; cbn; [by rewrite by_entry_keep|done].
  - by exists (fun _ => Some (ODone, None)).
  - exists (fun e => Some (ODone, (fun l => mkSessionLink (s_acks l) (anchor (s_dedup l) s a)) <$> e)).
    intros m. unfold mesh_anchor_receive_window.
    destruct (m !! k) as [l|] eqn:Hl; cbn; [done|by rewrite by_entry_keep].
  - exists (fun e => match e with
      | None => Some (OExternal (Err (UnknownSession (session k))), e)
      | Some l => let r := mesh_deliver_external {[k := l]} k s q in Some (OExternal r.1, r.2 !! k)
      end).
    intros m. unfold mesh_deliver_external.
    destruct (m !! k) as [l|] eqn:Hl; [rewrite lookup_singleton_eq|cbn; by rewrite by_entry_keep].
    destruct (accept (s_dedup l) s q) as [[| |] d']; cbn; by rewrite lookup_insert_eq.
  - exists (fun e => match e with
      | None => Some (ORetired 0, e)
      | Some l => let r := mesh_retire_through {[k := l]} k s t in Some (ORetired r.1, r.2 !! k)
      end).
    intros m. unfold mesh_retire_through.
    destruct (m !! k) as [l|] eqn:Hl; [rewrite lookup_singleton_eq|cbn; by rewrite by_entry_keep].
    destruct (advance_retired_through (s_dedup l) s t) as [[|] d']; cbn; by rewrite lookup_insert_eq.
Qed.

Lemma mesh_step_other m op o m' k :
  mesh_step m op = Some (o, m') -> ~ addressed k op -> m' !! k = m !! k.
Proof.
  intros Hs Hk. destruct (op_key op) as [k'|] eqn:Hop.
  - destruct (mesh_step_local op k' Hop) as [f Hf]. rewrite Hf in Hs. unfold by_entry in Hs.
    apply bind_Some in Hs as (r & _ & [= <- <-]). apply lookup_partial_alter_ne.
    intros ->. by apply Hk.
  - destruct op as [| | | | | |[mp|e]]; try done. by injection Hs as <- <-.
Qed.

Lemma mesh_step_own m1 m2 op o m1' k :
  mesh_step m1 op = Some (o, m1') -> addressed k op -> m2 !! k = m1 !! k ->
  exists m2', mesh_step m2 op = Some (o, m2') /\ m2' !! k = m1' !! k.
Proof.
  intros Hs Hk Heq. destruct (mesh_step_local op k Hk) as [f Hf]. rewrite Hf in Hs |- *.
  unfold by_entry in *. rewrite Heq. apply bind_Some in Hs as (r & -> & [= <- <-]).
  eexists. split; [done|]. by rewrite !lookup_partial_alter_eq.
Qed.

Lemma mesh_run_project k ops : forall m1 m2 outs m1',
  mesh_run m1 ops = Some (outs, m1') -> m2 !! k = m1 !! k ->
  exists m2', mesh_run m2 (filter (addressed k) ops) = Some (obs_of k ops outs, m2') /\
    m2' !! k = m1' !! k.
Proof.
  induction ops as [|op ops IH]; intros m1 m2 outs m1'; cbn [mesh_run].
  { intros [= <- <-] Heq. by exists m2. }
  intros Hrun Heq. apply bind_Some in Hrun as ((o & m3) & Hs & Hrun).
  apply bind_Some in Hrun as ((outs' & m4) & Hr & Hrun). injection Hrun as <- <-.
  unfold obs_of. cbn [zip_with]. rewrite !filter_cons. cbn [fst] in *.
  destruct (decide (addressed k op)) as [Ha|Hn].
  - destruct (mesh_step_own _ m2 _ _ _ _ Hs Ha Heq) as (m2' & Hs2 & Heq2).
    destruct (IH _ m2' _ _ Hr Heq2) as (m5 & Hr2 & Heq3). exists m5. split; [|done].
    cbn [mesh_run]. rewrite Hs2. cbn [mbind option_bind snd]. by rewrite Hr2.
  - apply (IH m3 m2 outs' m4); [done|]. rewrite Heq. symmetry. by eapply mesh_step_other.
Qed.

End ops.

(** ** The mesh link's invariant *)

Class MeshProstLaws (C : Type) `{!Prost, !MeshProst C} : Prop := {
  conditions_encoded_len_nonneg : forall c : C, 0 <= conditions_encoded_len c;
  (** a varint spends a byte per seven bits *)
  varint_u64 : forall x, is_u64 x -> encoded_len_varint x <= 10;
  varint_short : forall x, 0 <= x < 2 ^ 21 -> encoded_len_varint x <= 3;
  (** the wrapper's four fields *)
  mesh_packet_fields : forall s pkt (c : option C) t,
    mesh_packet_encoded_len (mkMeshPacket s (Some pkt) c t) =
      (if s =? 0 then 0 else 1 + encoded_len_varint s) +
      (1 + encoded_len_varint (packet_encoded_len pkt) + packet_encoded_len pkt) +
      default 0 (conditions_element_len <$> c) + default 0 (tenant_element_len <$> t);
}.

Section mesh.
Context `{!Prost, !ProstLaws} {C : Type} `{!MeshProst C, !MeshProstLaws C}.
Implicit Types (m : MeshLink) (k : MeshSessionKey) (l : SessionLink).

Definition as_link l : Link := mkLink (s_acks l) (s_dedup l) None.

Definition session_inv l : Prop := link_inv (as_link l) /\ forward_collapse (s_dedup l) = true.
Definition mesh_inv m : Prop := map_Forall (fun _ l => session_inv l) m.

Lemma session_inv_open : session_inv open_link.
Proof. split; [|done]. split; [apply good_new|by apply dedup_inv_empty]. Qed.

(** A session processes a packet the way a client link without an ingress
    slot does, and never reports the completion stamp. *)
Lemma session_process_mirrors l pkt :
  session_process_incoming l pkt =
    (fun r => (match r.1 with
               | Ok rcv => Ok (mkReceived (fresh rcv) (carried_payloads rcv) None)
               | Err e => Err e
               end, mkSessionLink (acks r.2) (dedup r.2))) <$> process_incoming (as_link l) pkt.
Proof.
  unfold session_process_incoming, process_incoming. cbn [as_link acks].
  destruct (handle_incoming (s_acks l) pkt) as [[[[]|e] a]|]; [|done|done].
  assert (Hid : map (authorize (ingress_slot (as_link l))) (payloads pkt) = payloads pkt)
    by exact (List.map_id (payloads pkt)).
  cbn [mbind option_bind fst snd]. rewrite Hid. cbn [dedup with_acks as_link s_dedup].
  destruct (retain_fresh_payloads (s_dedup l) (payloads pkt)) as [[kept|e] d']; done.
Qed.

(** ** Sizes *)

Lemma element_len_nonneg t : 0 <= default 0 (tenant_element_len <$> t).
Proof.
  destruct t as [t|]; cbn; [|lia]. unfold tenant_element_len.
  pose proof (encoded_len_varint_pos (Z.of_nat (length t)) ltac:(lia)). lia.
Qed.

Lemma conditions_len_nonneg (c : option C) : 0 <= default 0 (conditions_element_len <$> c).
Proof.
  destruct c as [c|]; cbn; [|lia]. unfold conditions_element_len.
  pose proof (conditions_encoded_len_nonneg c).
  pose proof (encoded_len_varint_pos _ ltac:(eassumption)). lia.
Qed.

Lemma lone_packet_len_pos p : 0 < lone_packet_len p.
Proof.
  unfold lone_packet_len, payload_element_len.
  pose proof (packet_encoded_len_nonneg max_header). pose proof (payload_encoded_len_nonneg p).
  pose proof (encoded_len_varint_pos (payload_encoded_len p) ltac:(done)). lia.
Qed.

(** Whatever the wrapper adds, a packet within its budget is a datagram
    within the live one. *)
Lemma mesh_wrapper_fits k pkt (c : option C) b :
  is_u64 (session k) -> b < 2 ^ 21 -> 0 < packet_encoded_len pkt ->
  packet_encoded_len pkt <= mesh_packet_budget b c (tenant k) ->
  mesh_packet_encoded_len (mkMeshPacket (session k) (Some pkt) c (tenant k)) <= b.
Proof.
  intros Hs Hb Hpos Hle. rewrite mesh_packet_fields.
  pose proof (element_len_nonneg (tenant k)). pose proof (conditions_len_nonneg c).
  unfold mesh_packet_budget, saturating_sub, MESH_PACKET_OVERHEAD in Hle.
  assert (Hlt : packet_encoded_len pkt < 2 ^ 21) by (revert Hle; lia).
  pose proof (varint_short (packet_encoded_len pkt) (conj (Z.lt_le_incl _ _ Hpos) Hlt)).
  pose proof (varint_u64 (session k) Hs). zcase; lia.
Qed.

(** An admitted payload rides a sidecar-free flush alone at every later live
    budget down to the admission floor. *)
Lemma floor_is_stable p (b b' : Z) t :
  lone_packet_len p <= packet_admission_floor b t -> Z.min GUARANTEED_DATAGRAM_BUDGET b <= b' ->
  lone_packet_len p <= mesh_packet_budget b' None t.
Proof.
  unfold packet_admission_floor, mesh_packet_budget, saturating_sub, MESH_PACKET_OVERHEAD.
  change (default 0 (conditions_element_len <$> None)) with 0.
  pose proof (lone_packet_len_pos p). pose proof (element_len_nonneg t). lia.
Qed.

(** ** Sending *)

(** The packet a session's send builds, and the whole of [mesh_send] past
    admission. *)
Definition mesh_packet_of k l (p : option Payload) (c : option C) (b : Z) : MeshPacket C :=
  mkMeshPacket (session k)
    (Some (packet_of (as_link l) p (mesh_packet_budget b c (tenant k)))) c (tenant k).

Lemma mesh_send_admitted m k l p c b sd :
  session_inv l -> m !! k = Some l -> mesh_admission b k (Some p) = Ok tt ->
  admissible (s_acks l) (Some p) -> packet_seq (s_acks l) < u32_max ->
  exists r wire a', mesh_send m k (Some b) sd (Some p) c =
      Some (r, wire, <[k := mkSessionLink a' (s_dedup l)]> m) /\ good a' /\
    wire = (match sd (mesh_packet_of k l (Some p) c b) with
            | DgAccepted => [mesh_packet_of k l (Some p) c b] | _ => [] end) /\
    payload <$> BTreeMap.get (unacked_payloads a') (origin p) = Some p.
Proof.
  intros [[Hg Hd] _] Hk Hadm Hroom Hlt. cbn [as_link acks] in Hg.
  assert (Hs : slot p <= u8_max).
  { unfold mesh_admission, u8_try_from in Hadm. revert Hadm. by zcase. }
  destruct (good_after_build _ (Some p) Hg Hlt Hroom) as [Hg1 Hs1].
  set (bud := mesh_packet_budget b c (tenant k)).
  assert (Hrange : 0 <= packet_seq_of (packet_of (as_link l) (Some p) bud) <
    packet_seq (after_build (s_acks l) (Some p))).
  { pose proof (inv_seq _ (proj1 Hg)). rewrite Hs1. cbn. unfold is_u32 in *. lia. }
  destruct (record_sent_spec _ _ (proj1 Hg1) Hrange) as (a2 & Hrec & _).
  pose proof (after_build_registers (s_acks l) p Hs) as Hreg.
  assert (Hreg2 : payload <$> BTreeMap.get (unacked_payloads a2) (origin p) = Some p).
  { rewrite <- Hreg. by eapply record_sent_keeps; [apply Hg1| |]. }
  assert (Hg2 : good a2) by (by eapply good_record_sent).
  unfold mesh_send. rewrite Hk, Hadm, build_outgoing_ok by (done || apply Hg).
  fold bud. cbv zeta. change (head_of (s_acks l)) with (head_of (acks (as_link l))).
  change (picks_of (s_acks l)) with (picks_of (acks (as_link l))). fold (packet_of (as_link l) (Some p) bud).
  change (mkMeshPacket (session k) (Some (packet_of (as_link l) (Some p) bud)) c (tenant k))
    with (mesh_packet_of k l (Some p) c b).
  destruct (sd (mesh_packet_of k l (Some p) c b)); [rewrite Hrec; cbn [mbind option_bind]|..];
    do 3 eexists; (split; [reflexivity|by split_and!]).
Qed.

(** ** Receiving *)

Lemma accept_collapsing (d : Dedup) s q :
  forward_collapse d = true ->
  (accept d s q).1 <> OutOfWindow /\ forward_collapse (accept d s q).2 = true.
Proof.
  intros Hfc. unfold accept, accept_slot. rewrite Hfc. cbn [fst snd set_slot forward_collapse].
  split; [|done]. rewrite andb_false_r. repeat case_match; done.
Qed.

(** The only payloads a mesh peer's packet is refused for. *)
Lemma retain_collapsing (d : Dedup) ps e d' :
  forward_collapse d = true -> retain_fresh_payloads d ps = (Err e, d') ->
  exists p, p ∈ ps /\ u8_max < slot p /\ e = MalformedSlot (slot p).
Proof.
  assert (Hloop : forall (qs : list Payload) d, forward_collapse d = true -> (retain_loop d qs).2 = Some e ->
    exists p, p ∈ qs /\ u8_max < slot p /\ e = MalformedSlot (slot p)).
  { clear. induction qs as [|p qs IH]; intros d Hfc; cbn [retain_loop]; [done|].
    destruct (u8_try_from (slot p)) as [s|] eqn:Hu.
    2: { intros [= <-]. exists p. split; [left|]. unfold u8_try_from in Hu. revert Hu. zcase; [done|].
         by intros _. }
    destruct (accept_collapsing d s (seq p) Hfc) as [Hno Hfc'].
    destruct (accept d s (seq p)) as [[| |] d1]; cbn [fst snd] in *; [| |done].
    - specialize (IH d1 Hfc'). destruct (retain_loop d1 qs) as [[d2 kept] f]. cbn [snd] in *.
      intros Hf. destruct (IH Hf) as (p' & Hin & Hp'). exists p'. split; [by right|done].
    - intros Hf. destruct (IH d1 Hfc' Hf) as (p' & Hin & Hp'). exists p'. split; [by right|done]. }
  intros Hfc. unfold retain_fresh_payloads. specialize (Hloop (sort_payloads ps) d Hfc).
  destruct (retain_loop d (sort_payloads ps)) as [[d2 kept] [e'|]]; [|done].
  intros [= -> <-]. destruct (Hloop eq_refl) as (p & Hin & Hp). exists p. split; [|done].
  by rewrite sort_payloads_Permutation in Hin.
Qed.

(** What a session does with a packet. *)
Lemma session_process_spec l pkt :
  session_inv l -> wire_packet pkt ->
  exists r l', session_process_incoming l pkt = Some (r, l') /\ session_inv l' /\
    match r with
    | Err e => s_dedup l' = s_dedup l /\
        ((exists a, e = LinkAck a) /\ l' = l /\ ~ consistent_acks (s_acks l) pkt \/
         consistent_acks (s_acks l) pkt /\
         exists p, p ∈ payloads pkt /\ u8_max < slot p /\ e = MalformedSlot (slot p))
    | Ok rcv =>
        consistent_acks (s_acks l) pkt /\ NoDup (map origin (fresh rcv)) /\
        (forall p, p ∈ fresh rcv -> p ∈ payloads pkt /\ ~ delivered_at (s_dedup l) (slot p) (seq p)) /\
        (forall p, p ∈ payloads pkt -> delivered_at (s_dedup l') (slot p) (seq p)) /\
        (carried_payloads rcv = true <-> payloads pkt <> []) /\ rcv_turns_complete rcv = None
    end.
Proof.
  intros [Hl Hfc] Hw. pose proof (check_acks_spec (s_acks l) pkt (proj1 Hw)) as Hck.
  assert (Hid : map (authorize None) (payloads pkt) = payloads pkt) by exact (List.map_id (payloads pkt)).
  rewrite session_process_mirrors.
  destruct (process_incoming_cases (as_link l) pkt Hl Hw ltac:(done)) as [(e & -> & Hc)|(a' & Hh & Hg & Hc & Hcase)].
  { cbn [as_link acks] in Hc. destruct l as [a d]. eexists _, _. split; [reflexivity|]. split; [done|].
    split; [done|]. left. split; [by eexists|]. split; [done|]. rewrite <- Hck, Hc. done. }
  cbn [as_link acks dedup ingress_slot] in *. rewrite Hid in Hcase. apply Hck in Hc.
  destruct (retain_fresh_payloads (s_dedup l) (payloads pkt)) as [[kept|e] d'] eqn:Hret.
  - destruct Hcase as [-> [Hi' He Hf Hk Hfresh Hon Hco Hex]].
    eexists _, _. split; [reflexivity|]. split; [split; [by split|]|].
    { cbn. by rewrite (ex_collapse _ _ He). }
    cbn [fresh carried_payloads rcv_turns_complete fst s_dedup snd dedup acks].
    split; [done|]. split; [done|]. split; [|split; [|split; [by destruct (payloads pkt)|done]]].
    + intros p Hp. split; [|by apply Hfresh]. rewrite <- sort_payloads_Permutation. by eapply elem_of_sublist.
    + intros p Hp. apply Hco; [done|]. by rewrite sort_payloads_Permutation.
  - rewrite Hcase. eexists _, _. split; [reflexivity|]. split; [split; [by split; [|apply Hl]|done]|].
    split; [done|]. right. split; [done|]. by eapply retain_collapsing.
Qed.

(** ** Every operation keeps the invariant, and none panics *)

Definition mesh_op_ok m (op : mesh_op (C:=C)) : Prop :=
  match op with
  | MAnchor _ _ a => is_u64 a
  | MExternal _ _ q => is_u64 q
  | MSend k _ _ p _ => forall l, m !! k = Some l -> admissible (s_acks l) p
  | MRecv (Ok mp) => forall pkt, mp_packet mp = Some pkt -> wire_packet pkt
  | _ => True
  end.

Lemma mesh_send_ok m k live sd p (c : option C) :
  mesh_inv m -> (forall l, m !! k = Some l -> admissible (s_acks l) p) ->
  exists r wire m', mesh_send m k live sd p c = Some (r, wire, m') /\ mesh_inv m'.
Proof.
  intros Hm Hadm. unfold mesh_send. destruct live as [b|]; [|by do 3 eexists].
  destruct (m !! k) as [l|] eqn:Hk; [|by do 3 eexists].
  destruct (mesh_admission b k p) as [[]|e]; [|by do 3 eexists].
  destruct (Hm _ _ Hk) as [[Hg Hd] Hfc]. cbn [as_link acks dedup] in Hg, Hd.
  assert (Hins : forall a, good a -> mesh_inv (<[k := mkSessionLink a (s_dedup l)]> m)).
  { intros a Ha. apply map_Forall_insert_2; [|done]. by split; [split|]. }
  destruct (build_outgoing (s_acks l) p _) as [[pkt|e] a1] eqn:Hb.
  2: { do 3 eexists. split; [done|]. apply Hins. unfold build_outgoing in Hb.
       destruct (checked_add u32_max (packet_seq (s_acks l)) 1); [|by injection Hb as _ <-].
       destruct (window_wire_len _). discriminate. }
  destruct (build_result _ _ _ _ _ (proj1 Hg) Hb) as (Hlt & -> & ->).
  assert (Hg1 : good (after_build (s_acks l) p))
    by (eapply good_step; [done|]; eapply step_send_refused; [by apply Hadm|exact Hb]).
  destruct (sd _); [|by do 3 eexists; split; [|apply Hins]..].
  destruct (record_sent_spec (after_build (s_acks l) p) (with_payloads (head_of (s_acks l))
    (fresh_payloads p ++ map payload (picks_of (s_acks l) p (mesh_packet_budget b c (tenant k))))))
    as (a2 & Hrec & _); [apply Hg1| |].
  { destruct (good_after_build _ p Hg Hlt (Hadm _ eq_refl)) as [_ ->].
    pose proof (inv_seq _ (proj1 Hg)). cbn. unfold is_u32 in *. lia. }
  rewrite Hrec. do 3 eexists. split; [reflexivity|]. apply Hins. eapply good_step; [exact Hg|].
  eapply step_send; [by apply Hadm|exact Hb|exact Hrec].
Qed.

Lemma mesh_step_ok m op :
  mesh_inv m -> mesh_op_ok m op -> exists o m', mesh_step m op = Some (o, m') /\ mesh_inv m'.
Proof.
  intros Hm Hop. destruct op as [k|k|k s a|k s q|k s t|k live sd p c|[mp|e]]; cbn [mesh_op_ok] in Hop;
    cbn [mesh_step].
  - do 2 eexists. split; [done|]. unfold open_session. destruct (m !! k); [done|].
    apply map_Forall_insert_2; [apply session_inv_open|done].
  - do 2 eexists. split; [done|]. by apply map_Forall_delete.
  - do 2 eexists. split; [done|]. unfold mesh_anchor_receive_window.
    destruct (m !! k) as [l|] eqn:Hk; [|done]. destruct (Hm _ _ Hk) as [[Hg Hd] Hfc].
    destruct (anchor_spec (s_dedup l) s a Hd Hop) as (Hi & He & _).
    apply map_Forall_insert_2; [|done]. split; [by split|]. cbn. by rewrite (ex_collapse _ _ He).
  - do 2 eexists. split; [done|]. unfold mesh_deliver_external.
    destruct (m !! k) as [l|] eqn:Hk; [|done]. destruct (Hm _ _ Hk) as [[Hg Hd] Hfc].
    destruct (accept_spec (s_dedup l) s q Hd Hop) as (Hi & He & _).
    destruct (accept (s_dedup l) s q) as [v d']. cbn [snd] in Hi, He.
    assert (mesh_inv (<[k := mkSessionLink (s_acks l) d']> m)); [|by destruct v].
    apply map_Forall_insert_2; [|done]. split; [by split|]. cbn. by rewrite (ex_collapse _ _ He).
  - do 2 eexists. split; [done|]. unfold mesh_retire_through.
    destruct (m !! k) as [l|] eqn:Hk; [|done]. destruct (Hm _ _ Hk) as [[Hg Hd] Hfc].
    unfold advance_retired_through. cbn zeta.
    destruct (match retired_through (s_dedup l) !! s with Some _ => _ | None => _ end);
      (apply map_Forall_insert_2; [|done]); (split; [split|done]); cbn [as_link acks dedup s_acks s_dedup].
    + done.
    + done.
    + eapply good_step; [exact Hg|constructor].
    + destruct Hd as [H1 H2 H3]. by split.
  - destruct (mesh_send_ok m k live sd p c Hm Hop) as (r & wire & m' & -> & Hm'). by do 2 eexists.
  - unfold mesh_recv. destruct (mp_session mp =? 0); [by do 2 eexists|].
    destruct (mp_packet mp) as [pkt|] eqn:Hpkt; [|by do 2 eexists].
    destruct (m !! _) as [l|] eqn:Hk; [|by do 2 eexists].
    destruct (session_process_spec l pkt (Hm _ _ Hk) (Hop pkt eq_refl)) as (r & l' & -> & Hl' & _).
    assert (Hm' : mesh_inv (<[mkMeshSessionKey (mp_session mp) (mp_tenant mp) := l']> m))
      by (by apply map_Forall_insert_2).
    cbn [mbind option_bind fst snd].
    destruct r; by do 2 eexists.
  - by do 2 eexists.
Qed.

Fixpoint mesh_ok m (ops : list (mesh_op (C:=C))) : Prop :=
  match ops with
  | [] => True
  | op :: ops => mesh_op_ok m op /\ forall r, mesh_step m op = Some r -> mesh_ok r.2 ops
  end.

Lemma mesh_run_ok ops : forall m,
  mesh_inv m -> mesh_ok m ops -> exists outs m', mesh_run m ops = Some (outs, m') /\ mesh_inv m'.
Proof.
  induction ops as [|op ops IH]; intros m Hm; cbn [mesh_ok mesh_run]; [by do 2 eexists|].
  intros [Hop Hrest]. destruct (mesh_step_ok m op Hm Hop) as (o & m1 & Hs & Hm1).
  destruct (IH m1 Hm1 (Hrest _ Hs)) as (outs & m2 & Hr & Hm2). rewrite Hs. cbn [mbind option_bind snd].
  rewrite Hr. by do 2 eexists.
Qed.

End mesh.

(** ** Properties *)

(** Sessions sharing a connection do not interfere.  Any sequence of opens,
    closes, anchors, sends, receives, stream deliveries and cursors on any
    mixture of sessions and tenants runs without a panic and keeps every
    session's invariant; and what one session's own operations answer, and the
    state they leave it in, is what they would answer and leave on a connection
    that carried that session alone. *)
Theorem mesh_sessions_independent `{!Prost, !ProstLaws} {C : Type} `{!MeshProst C, !MeshProstLaws C}
  (ops : list (mesh_op (C:=C))) (k : MeshSessionKey) :
  mesh_ok new_mesh_link ops ->
  exists outs m, mesh_run new_mesh_link ops = Some (outs, m) /\ mesh_inv m /\
    exists m_k, mesh_run new_mesh_link (filter (addressed k) ops) = Some (obs_of k ops outs, m_k) /\
      m_k !! k = m !! k.
Proof.
  intros Hok. destruct (mesh_run_ok ops new_mesh_link) as (outs & m & Hr & Hm); [done|done|].
  exists outs, m. split; [done|]. split; [done|]. by eapply mesh_run_project.
Qed.

(** A datagram is demultiplexed by exactly the session and tenant stamped on
    it and touches no other session.  Malformed and unknown ones change
    nothing; inconsistent acks leave the session as it was; the only payload
    refusal is a slot out of range, and it forgets nothing and remembers
    nothing.  On success the fresh payloads are payloads of the packet not
    delivered before, once each, and every payload of the packet is now
    remembered as delivered. *)
Theorem mesh_recv_exact `{!Prost, !ProstLaws} {C : Type} `{!MeshProst C, !MeshProstLaws C}
  (m : MeshLink) (mp : MeshPacket C) :
  mesh_inv m -> (forall pkt, mp_packet mp = Some pkt -> wire_packet pkt) ->
  let k := mkMeshSessionKey (mp_session mp) (mp_tenant mp) in
  exists r m', mesh_recv m (Ok mp) = Some (r, m') /\ mesh_inv m' /\
    (forall k', k' <> k -> m' !! k' = m !! k') /\
    if decide (mp_session mp = 0 \/ mp_packet mp = None \/ m !! k = None) then
      m' = m /\ r = Err (if mp_session mp =? 0 then ZeroSession
                         else match mp_packet mp with
                              | None => MalformedMeshPacket
                              | Some _ => UnknownSession (mp_session mp)
                              end)
    else exists pkt l l', mp_packet mp = Some pkt /\ m !! k = Some l /\ m' !! k = Some l' /\
      match r with
      | Err e => s_dedup l' = s_dedup l /\
          ((exists a, e = MeshAck a) /\ l' = l /\ ~ consistent_acks (s_acks l) pkt \/
           exists p, p ∈ payloads pkt /\ u8_max < slot p /\ e = MeshMalformedSlot (slot p))
      | Ok rcv =>
          mr_session rcv = mp_session mp /\ mr_tenant rcv = mp_tenant mp /\
          mr_conditions rcv = mp_conditions mp /\
          NoDup (map origin (fresh (mr_delivery rcv))) /\
          (forall p, p ∈ fresh (mr_delivery rcv) ->
             p ∈ payloads pkt /\ ~ delivered_at (s_dedup l) (slot p) (seq p)) /\
          (forall p, p ∈ payloads pkt -> delivered_at (s_dedup l') (slot p) (seq p))
      end.
Proof.
  intros Hm Hw k. destruct (mesh_step_ok m (MRecv (Ok mp)) Hm Hw) as (o & m0 & Hs & Hm0).
  cbn [mesh_step] in Hs. apply bind_Some in Hs as ([r m'] & Hr & [= _ <-]). exists r, m'.
  split; [done|]. split; [done|]. split.
  { intros k' Hne. eapply (mesh_step_other m (MRecv (Ok mp)) (OReceived r)).
    - cbn [mesh_step]. by rewrite Hr.
    - unfold addressed. cbn [op_key]. intros Heq. apply Hne. injection Heq as <-. done. }
  unfold mesh_recv in Hr. fold k in Hr.
  destruct (Z.eqb_spec (mp_session mp) 0) as [Hz|Hz].
  { rewrite decide_True by tauto. by injection Hr as <- <-. }
  destruct (mp_packet mp) as [pkt|] eqn:Hp.
  2: { rewrite decide_True by tauto. by injection Hr as <- <-. }
  destruct (m !! k) as [l|] eqn:Hl.
  2: { rewrite decide_True by tauto. by injection Hr as <- <-. }
  rewrite decide_False by naive_solver.
  destruct (session_process_spec l pkt (Hm _ _ Hl) (Hw _ eq_refl)) as (r1 & l' & Hs1 & _ & Hspec).
  rewrite Hs1 in Hr. cbn [mbind option_bind fst snd] in Hr. exists pkt, l, l'.
  destruct r1 as [d|e]; injection Hr as <- <-; rewrite lookup_insert_eq; (do 3 (split; [done|])).
  - cbn [mr_session mr_tenant mr_conditions mr_delivery]. naive_solver.
  - destruct Hspec as (Hd & [((a & ->) & -> & Hno)|(_ & p & Hin & Hbig & ->)]); split; try done.
    + left. split; [by exists a|done].
    + right. by exists p.
Qed.

(** The pre-check and the send never disagree on what is lost.  A payload the
    pre-check accepts always gets a datagram that fits the live budget with its
    sidecar and tenant, carries it first, and is registered as unacked whatever
    the transport answers.  A payload it declines is either refused with
    nothing changed, or it passes the session's admission floor: then it is
    registered all the same, and rides a sidecar-free flush alone at every live
    budget not below the floor. *)
Theorem mesh_fits_send_agree `{!Prost, !ProstLaws} {C : Type} `{!MeshProst C, !MeshProstLaws C}
  (m : MeshLink) (k : MeshSessionKey) (l : SessionLink) (p : Payload) (c : option C) (b : Z)
  (send_datagram : MeshPacket C -> datagram_outcome) :
  mesh_inv m -> m !! k = Some l -> is_u64 (session k) -> slot p <= u8_max -> b < 2 ^ 21 ->
  admissible (s_acks l) (Some p) -> packet_seq (s_acks l) < u32_max ->
  let registered := exists r wire a',
    mesh_send m k (Some b) send_datagram (Some p) c =
      Some (r, wire, <[k := mkSessionLink a' (s_dedup l)]> m) /\
    payload <$> BTreeMap.get (unacked_payloads a') (origin p) = Some p /\
    forall b', Z.min GUARANTEED_DATAGRAM_BUDGET b <= b' ->
      lone_packet_len p <= mesh_packet_budget b' (@None C) (tenant k) in
  match mesh_payload_fits (Some b) p c (tenant k) with
  | Err _ => False
  | Ok true => registered /\ exists pkt mp r wire m',
      mesh_send m k (Some b) send_datagram (Some p) c = Some (r, wire, m') /\
      mp = mkMeshPacket (session k) (Some pkt) c (tenant k) /\ head (payloads pkt) = Some p /\
      mesh_packet_encoded_len mp <= b /\
      wire = (match send_datagram mp with DgAccepted => [mp] | _ => [] end)
  | Ok false => registered \/
      exists needed budget, mesh_send m k (Some b) send_datagram (Some p) c =
        Some (Err (MeshPayloadTooLarge needed budget), [], m)
  end.
Proof.
  intros Hm Hk Hs64 Hs Hb Hroom Hlt registered.
  assert (Hu : u8_try_from (slot p) = Some (slot p)) by (by apply u8_try_from_Some).
  assert (Hadm : lone_packet_len p <= packet_admission_floor b (tenant k) ->
    mesh_admission b k (Some p) = Ok tt).
  { intros Hle. unfold mesh_admission. rewrite Hu, (proj2 (Z.ltb_ge _ _) Hle). done. }
  assert (Hreg : lone_packet_len p <= packet_admission_floor b (tenant k) -> registered).
  { intros Hle. destruct (mesh_send_admitted m k l p c b send_datagram (Hm _ _ Hk) Hk (Hadm Hle) Hroom Hlt)
      as (r & wire & a' & Hsend & _ & _ & Hget). exists r, wire, a'. split; [done|]. split; [done|].
    intros b' Hb'. by eapply floor_is_stable. }
  unfold mesh_payload_fits.
  destruct (Z.leb_spec (lone_packet_len p)
    (Z.min (mesh_packet_budget b c (tenant k)) (packet_admission_floor b (tenant k)))) as [Hfit|Hbig].
  - split; [apply Hreg; lia|].
    destruct (mesh_send_admitted m k l p c b send_datagram (Hm _ _ Hk) Hk (Hadm ltac:(lia)) Hroom Hlt)
      as (r & wire & a' & Hsend & _ & Hwire & _).
    set (pkt := packet_of (as_link l) (Some p) (mesh_packet_budget b c (tenant k))).
    assert (Hhd : head (payloads pkt) = Some p).
    { cbn [pkt packet_of with_payloads payloads]. unfold fresh_payloads, fresh_of. cbn. by rewrite Hu. }
    exists pkt, (mesh_packet_of k l (Some p) c b), r, wire. eexists. split; [exact Hsend|].
    split; [done|]. split; [done|]. split; [|done]. apply mesh_wrapper_fits; [done|done| |].
    + pose proof (element_len_pos p). unfold pkt, packet_of. rewrite built_len by apply (Hm _ _ Hk).
      assert (Hpos : forall x, x ∈ picks_of (acks (as_link l)) (Some p) (mesh_packet_budget b c (tenant k)) ->
        0 <= wire_len x).
      { intros x Hx%picks_window. apply window_elem_pos in Hx; [lia|apply (Hm _ _ Hk)]. }
      pose proof (sumz_nonneg wire_len _ Hpos). unfold used_by, fresh_payloads, fresh_of. cbn [mbind option_bind].
      rewrite Hu. cbn [mbind option_bind mret option_ret sumz fst snd].
      pose proof (packet_encoded_len_nonneg (head_of (acks (as_link l)))). lia.
    + eapply packet_of_fits; [apply (Hm _ _ Hk)|done|lia].
  - destruct (Z.le_gt_cases (lone_packet_len p) (packet_admission_floor b (tenant k))) as [Hle|Hgt];
      [left; by apply Hreg|right]. do 2 eexists. unfold mesh_send, mesh_admission.
    rewrite Hk, Hu, (proj2 (Z.ltb_lt _ _) Hgt). done.
Qed.
