(* ===== verification/TransportWitness.v ===== *)
(** * Concrete transports

    Runs of the ack manager, of a pair of links and of mesh links under the
    concrete protobuf sizes, on which their properties are instantiated. *)

From Stdlib Require Import ZArith Lia.
From stdpp Require Import gmap sorting list.
From S2P Require Import Prelude BTree SequenceBuffer Wire History AckManager AckInvariant AckRecv AckSend AckLiveness.

Open Scope Z_scope.

#[local] Existing Instance prost_sizes.
#[local] Existing Instance prost_sizes_laws.

(** ** Concrete ack managers

    A manager that has sent three turns of slot 1 (the packet of the second
    was refused by the transport), under the concrete protobuf sizes.  The
    lemmas here instantiate the ack manager's properties on it. *)

Definition turn (s q : Z) : Payload := mkPayload q s [5; 5; 5] (Some q) None None None.

(** [Link::send], the transport accepting or refusing the datagram. *)
Definition demo_send (a : AckManager) (o : option Payload) (accepted : bool) : AckManager :=
  match build_outgoing a o 1200 with
  | (Ok pkt, a1) => if accepted then default a1 (record_sent a1 pkt) else a1
  | (Err _, a1) => a1
  end.

Definition demo1 : AckManager := demo_send new (Some (turn 1 5)) true.
Definition demo2 : AckManager := demo_send demo1 (Some (turn 1 6)) false.
Definition demo3 : AckManager := demo_send demo2 (Some (turn 1 7)) true.

Lemma demo_send_step a o b : reachable a -> admissible a o -> reachable (demo_send a o b).
Proof.
  intros Hr Hadm. destruct (reachable_good a Hr) as [Ha Hst]. unfold demo_send.
  destruct (build_outgoing a o 1200) as [[pkt|[]] a1] eqn:Hb.
  - destruct Hr as [pol Hr]. exists pol. eapply rtc_r; [done|]. destruct b; [|by eapply step_send_refused].
    destruct (record_sent a1 pkt) eqn:Hrec; cbn; [by eapply step_send|by eapply step_send_refused].
  - unfold build_outgoing, checked_add in Hb. destruct (Z.leb_spec (packet_seq a + 1) u32_max).
    + by destruct (window_wire_len _).
    + by injection Hb as <-.
Qed.

Lemma demo_admissible a q : 0 <= q <= u64_max -> window_bytes a + element_len (turn 1 q) <= usize_max ->
  admissible a (Some (turn 1 q)).
Proof. intros Hq Hw p [= <-]. split; [split; cbn; width_lia|done]. Qed.

Lemma demo3_reachable : reachable demo3.
Proof.
  unfold demo3. apply demo_send_step; [unfold demo2; apply demo_send_step;
    [unfold demo1; apply demo_send_step; [by exists default_policy|]|]|];
    (apply demo_admissible; [width_lia|by vm_compute]).
Qed.

Lemma reachable_invariant_witness :
  reachable demo3 /\ unacked_payload_wire_len demo3 = Some 39 /\ window_bytes demo3 = 39.
Proof.
  pose proof (reachable_invariant demo3 demo3_reachable) as (_ & _ & Hc & _).
  assert (unacked_payload_wire_len demo3 = Some 39) as He by (vm_compute; reflexivity).
  split; [exact demo3_reachable|]. split; [exact He|]. symmetry. exact (Hc _ He).
Defined.

(** Acking packet 2 with bit 1 (packet 0) retires the first and third turn
    and the re-carried second one. *)
Definition demo_ack : Packet := mkPacket 4 (Some 2) 2 [] None.

Lemma handle_incoming_exact_witness :
  exists r a', handle_incoming demo3 demo_ack = Some (r, a') /\ inv a' /\
    payloads_in_flight demo3 = 3%nat.
Proof.
  destruct (handle_incoming_exact demo3 demo_ack) as (r & a' & Hh & Hi & _).
  - apply reachable_good, demo3_reachable.
  - split_and!; cbn; try (intros ? [= <-]); try width_lia.
  - exists r, a'. split; [exact Hh|]. split; [exact Hi|vm_compute; reflexivity].
Defined.

Lemma retire_through_exact_witness :
  BTreeMap.get (unacked_payloads (retire_payloads_through demo3 1 6).2) (1, 5) = None /\
  (retire_payloads_through demo3 1 6).1 = 2%nat.
Proof.
  split; [|vm_compute; reflexivity].
  pose proof (retire_through_exact demo3 1 6 (proj1 (reachable_good _ demo3_reachable))) as Hr.
  destruct (retire_payloads_through demo3 1 6) as [n a'] eqn:He. destruct Hr as (_ & _ & Hg). cbn [snd].
  destruct (BTreeMap.get (unacked_payloads a') (1, 5)) as [sp|] eqn:Hk; [|reflexivity].
  apply Hg in Hk as [_ Hno]. destruct Hno. cbn. lia.
Defined.

Lemma contiguous_anchor_exact_witness :
  contiguous_replayable_anchor demo3 1 9 = 9 /\ contiguous_replayable_anchor demo3 1 8 = 5 /\
  BTreeMap.get (unacked_payloads demo3) (1, 4) = None.
Proof.
  split; [vm_compute; reflexivity|].
  assert (Ha : contiguous_replayable_anchor demo3 1 8 = 5) by (vm_compute; reflexivity).
  split; [exact Ha|].
  destruct (contiguous_anchor_exact demo3 1 8 (proj1 (reachable_good _ demo3_reachable)))
    as (_ & _ & Hn). rewrite Ha in Hn. exact Hn.
Defined.

Lemma build_outgoing_bounded_witness :
  match build_outgoing demo3 (Some (turn 1 8)) 50 with
  | (Ok pkt, _) => packet_encoded_len pkt <= 50
  | (Err _, _) => False
  end.
Proof.
  destruct (build_outgoing demo3 (Some (turn 1 8)) 50) as [[pkt|[]] a1] eqn:Hb.
  - destruct (build_outgoing_bounded demo3 (Some (turn 1 8)) 50 pkt a1 demo3_reachable Hb) as [Hle _].
    assert (packet_encoded_len (header pkt) + sumz element_len (fresh_payloads (Some (turn 1 8))) <= 50);
      [|lia].
    destruct (build_result _ _ _ _ _ (proj1 (reachable_good _ demo3_reachable)) Hb) as (_ & _ & ->).
    vm_compute. discriminate.
  - vm_compute in Hb. discriminate.
Defined.

Lemma build_outgoing_content_witness :
  match build_outgoing demo3 (Some (turn 1 8)) 1200 with
  | (Ok pkt, _) => NoDup (map origin (payloads pkt))
  | (Err _, _) => False
  end.
Proof.
  pose proof (build_outgoing_content demo3 (Some (turn 1 8)) 1200 demo3_reachable) as Hc.
  destruct (build_outgoing demo3 (Some (turn 1 8)) 1200) as [[pkt|[]] a1] eqn:Hb.
  - apply Hc.
    + apply demo_admissible; [width_lia|]. vm_compute. discriminate.
    + intros p [= <-]. split; [cbn; width_lia|]. vm_compute. reflexivity.
  - vm_compute in Hb. discriminate.
Defined.

(** Three turns in flight under a one-byte redundancy budget: each flush
    carries one of them, and four flushes carry all three. *)
Definition tight : AckManager :=
  demo_send (demo_send (demo_send (with_policy (mkRecarryPolicy (Some 1) None))
    (Some (turn 1 5)) true) (Some (turn 1 6)) true) (Some (turn 1 7)) true.

Lemma tight_reachable : reachable tight.
Proof.
  unfold tight. apply demo_send_step; [apply demo_send_step; [apply demo_send_step;
    [by exists (mkRecarryPolicy (Some 1) None)|]|]|];
    (apply demo_admissible; [width_lia|by vm_compute]).
Qed.

Lemma window_fits_forallb a max_len :
  forallb (fun e => lone_packet_len (payload e.2) <=? max_len) (unacked_payloads a) = true ->
  window_fits a max_len.
Proof.
  rewrite forallb_forall. intros Hall k sp Hk%BTreeMap.elem_of_get.
  apply Z.leb_le, (Hall (k, sp)). by apply list_elem_of_In.
Qed.


(** ** Concrete links

    A client's link to a relay that authorizes it as slot 3: two turns sent,
    the second datagram refused by the transport, the first received twice by
    the relay, then an ack packet back.  The lemmas here instantiate the
    properties of [Link] and of the two-link system on it. *)

From S2P Require Import Dedup DedupPackets Link LinkSystem.

Definition client_turn (q : Z) : Payload := mkPayload q 0 [5; 5; 5] (Some q) None None None.

Definition start (l : Link) : side := mkSide l 0 true [] [] [] [] [].
Definition client0 : side := start new_link.
Definition relay0 : side := start (with_ingress_slot 3).

Definition do_send (me : side) (o : option Payload) (answer : datagram_outcome) : side :=
  match send (Some 1200) (fun _ => answer) (link me) o with
  | Some (_, out, l') => after_send me l' out
  | None => me
  end.

Definition do_recv (me peer : side) (n : nat) : side :=
  match sent peer !! n with
  | Some (e, pkt) =>
      if bool_decide (e = epoch me) then
        match process_incoming (link me) pkt with
        | Some (Ok rcv, l') => after_recv me l' (fresh rcv) true
        | _ => me
        end
      else me
  | None => me
  end.

Lemma do_send_step me peer o answer :
  alive me = true -> admissible (acks (link me)) o ->
  do_send me o answer = me \/ local me peer (do_send me o answer).
Proof.
  intros Hal Hadm. unfold do_send.
  destruct (send (Some 1200) (fun _ => answer) (link me) o) as [[[r out] l']|] eqn:Hs; [right|by left].
  by eapply l_send.
Qed.

Lemma do_recv_step me peer n :
  alive me = true -> do_recv me peer n = me \/ local me peer (do_recv me peer n).
Proof.
  intros Hal. unfold do_recv. destruct (sent peer !! n) as [[e pkt]|] eqn:Hn; [|by left].
  case_bool_decide; [|by left]. subst e.
  destruct (process_incoming (link me) pkt) as [[[rcv|e] l']|] eqn:Hp; [right|by left|by left].
  eapply l_recv; [done| |done]. by eapply list_elem_of_lookup_2.
Qed.

Lemma reach_left a b a' :
  sys_reachable (a, b) -> a' = a \/ local a b a' -> sys_reachable (a', b).
Proof.
  intros (x0 & ? & ? & Hr) [->|Hl]; exists x0; (split; [done|]); (split; [done|]); [done|].
  eapply rtc_r; [done|by constructor].
Qed.

Lemma reach_right a b b' :
  sys_reachable (a, b) -> b' = b \/ local b a b' -> sys_reachable (a, b').
Proof.
  intros (x0 & ? & ? & Hr) [->|Hl]; exists x0; (split; [done|]); (split; [done|]); [done|].
  eapply rtc_r; [done|by constructor].
Qed.

Lemma client_admissible me q :
  0 <= q <= u64_max -> window_bytes (acks (link me)) + element_len (client_turn q) <= usize_max ->
  admissible (acks (link me)) (Some (client_turn q)).
Proof. intros Hq Hw p [= <-]. split; [split; cbn; width_lia|done]. Qed.

Lemma none_admissible me : admissible (acks (link me)) None.
Proof. by intros p. Qed.

Definition client1 : side := do_send client0 (Some (client_turn 0)) DgAccepted.
Definition client2 : side := do_send client1 (Some (client_turn 1)) DgFailed.
Definition relay1 : side := do_recv relay0 client2 0.
Definition relay2 : side := do_recv relay1 client2 0.
Definition relay3 : side := do_send relay2 None DgAccepted.
Definition client3 : side := do_recv client2 relay3 0.

Lemma start_reachable : sys_reachable (client0, relay0).
Proof.
  exists (client0, relay0). split; [|split; [|done]]; (split; [|done]); [by left|right].
  exists 3. split; [width_lia|done].
Qed.

Lemma client3_reachable : sys_reachable (client3, relay3).
Proof.
  assert (sys_reachable (client1, relay0)) as H1.
  { eapply reach_left; [apply start_reachable|]. apply do_send_step; [done|].
    apply client_admissible; [width_lia|by vm_compute]. }
  assert (sys_reachable (client2, relay0)) as H2.
  { eapply reach_left; [exact H1|]. apply do_send_step; [by vm_compute|].
    apply client_admissible; [width_lia|by vm_compute]. }
  assert (sys_reachable (client2, relay1)) as H3.
  { eapply reach_right; [exact H2|]. by apply do_recv_step. }
  assert (sys_reachable (client2, relay2)) as H4.
  { eapply reach_right; [exact H3|]. apply do_recv_step. by vm_compute. }
  assert (sys_reachable (client2, relay3)) as H5.
  { eapply reach_right; [exact H4|]. apply do_send_step; [by vm_compute|apply none_admissible]. }
  eapply reach_left; [exact H5|]. apply do_recv_step. by vm_compute.
Qed.

(** The first turn was handed over once and acked; the second, whose datagram
    never left, is still in the window. *)
Lemma link_no_loss_exactly_once_witness :
  map origin (handed relay3) = [(3, 0)] /\
  BTreeMap.keys (unacked_payloads (acks (link client3))) = [(0, 1)] /\
  NoDup (map origin (handed relay3) ++ streamed relay3).
Proof.
  split; [vm_compute; reflexivity|]. split; [vm_compute; reflexivity|].
  exact (proj1 (proj2 (link_no_loss_exactly_once client3 relay3 client3_reachable))).
Defined.

Lemma payload_fits_send_agree_witness :
  payload_fits (Some 1200) (client_turn 7) = Ok true /\
  exists budget pkt r out a', Some 1200 = Some budget /\ packet_encoded_len pkt <= budget /\
    head (payloads pkt) = Some (client_turn 7) /\
    send (Some 1200) (fun _ => DgTooLarge) (link client3) (Some (client_turn 7)) =
      Some (r, out, with_acks (link client3) a') /\ out = [] /\
    payload <$> BTreeMap.get (unacked_payloads a') (0, 7) = Some (client_turn 7).
Proof.
  assert (payload_fits (Some 1200) (client_turn 7) = Ok true) as Hfit by (vm_compute; reflexivity).
  split; [exact Hfit|].
  pose proof (payload_fits_send_agree (link client3) (client_turn 7) (Some 1200) (fun _ => DgTooLarge)) as Hag.
  rewrite Hfit in Hag. apply Hag.
  - exact (sd_link _ (proj1 (sys_reachable_inv _ client3_reachable))).
  - vm_compute. discriminate.
  - apply client_admissible; [width_lia|by vm_compute].
  - vm_compute. reflexivity.
Defined.

Definition replayed : Packet := mkPacket 1 None 0 [client_turn 1; client_turn 0] None.

Lemma process_incoming_exact_witness :
  exists r l', process_incoming (link relay3) replayed = Some (Ok r, l') /\
    map origin (fresh r) = [(3, 1)] /\ link_inv l'.
Proof.
  destruct (process_incoming_exact (link relay3) replayed) as (r & l' & Hp & Hl & _).
  - exact (sd_link _ (proj1 (proj2 (sys_reachable_inv _ client3_reachable)))).
  - split; [|repeat constructor; cbn; width_lia]. split_and!; cbn; try done; width_lia.
  - exact (sd_ingress _ (proj1 (proj2 (sys_reachable_inv _ client3_reachable)))).
  - vm_compute. reflexivity.
  - assert (Hok : exists r l', process_incoming (link relay3) replayed = Some (Ok r, l') /\
      map origin (fresh r) = [(3, 1)]) by (do 2 eexists; split; [vm_compute; reflexivity|reflexivity]).
    destruct Hok as (r' & l'' & Hp' & Hf). rewrite Hp in Hp'. injection Hp' as -> ->.
    exists r', l''. split; [exact Hp|]. split; [exact Hf|exact Hl].
Defined.

(** ** Concrete mesh links

    Two tenants that share session id 5 on one connection, with the protobuf
    sizes and a sidecar of opaque bytes.  The lemmas here instantiate the
    properties of [MeshLink]. *)

From S2P Require Import MeshLink.

Definition conditions_len (c : list Z) : Z := Z.of_nat (length c).

#[local] Instance demo_mesh_sizes : MeshProst (list Z) := {|
  conditions_encoded_len := conditions_len;
  mesh_packet_encoded_len := fun mp =>
    ProstSizes.implicit_uint (mp_session mp) +
    default 0 ((fun pkt => ProstSizes.delimited (ProstSizes.packet_len pkt)) <$> mp_packet mp) +
    default 0 ((fun c => ProstSizes.delimited (conditions_len c)) <$> mp_conditions mp) +
    default 0 ((fun t => ProstSizes.delimited (Z.of_nat (length t))) <$> mp_tenant mp)
|}.

Lemma varint_le x n : 0 <= x < 2 ^ (7 * (n + 1)) -> 0 <= n -> ProstSizes.varint x <= n + 1.
Proof.
  intros Hx Hn. unfold ProstSizes.varint.
  assert (Hl : Z.log2 (Z.max 1 x) < 7 * (n + 1)).
  { apply Z.log2_lt_pow2; [lia|]. apply Z.max_lub_lt; [|lia].
    apply (Z.pow_lt_mono_r 2 0); lia. }
  assert (Z.log2 (Z.max 1 x) / 7 < n + 1); [|lia]. apply Z.div_lt_upper_bound; lia.
Qed.

#[local] Instance demo_mesh_laws : MeshProstLaws (list Z).
Proof.
  split.
  - intros c. cbn. unfold conditions_len. lia.
  - intros x Hx. apply (varint_le x 9); [|lia]. change (2 ^ (7 * (9 + 1))) with (2 ^ 70). width_lia.
  - intros x Hx. apply (varint_le x 2); [|lia]. exact Hx.
  - intros s pkt c t. cbn [mesh_packet_encoded_len demo_mesh_sizes mp_session mp_packet mp_conditions mp_tenant].
    unfold ProstSizes.implicit_uint, ProstSizes.field. cbn [fmap option_fmap option_map from_option].
    destruct c, t; reflexivity.
Qed.

Definition key_a : MeshSessionKey := tenant_key 5 [97].
Definition key_b : MeshSessionKey := tenant_key 5 [98].
Definition mesh_turn (s q : Z) : Payload := mkPayload q s [5; 5; 5] (Some q) None None None.
Definition peer_packet : Packet := mkPacket 0 None 0 [mesh_turn 2 40; mesh_turn 2 41] None.
Definition accepted : MeshPacket (list Z) -> datagram_outcome := fun _ => DgAccepted.

Definition mesh_demo : list mesh_op :=
  [MOpen key_a; MOpen key_b;
   MSend key_a (Some 1200) accepted (Some (mesh_turn 1 0)) (Some [1; 2; 3]);
   MRecv (Ok (mkMeshPacket 5 (Some peer_packet) None (Some [98])));
   MRecv (Ok (mkMeshPacket 5 (Some peer_packet) None (Some [99])));
   MSend key_a (Some 1200) accepted None None; MClose key_b].

Definition after (m : MeshLink) (op : mesh_op) : MeshLink :=
  match mesh_step m op with Some r => r.2 | None => m end.

Lemma mesh_ok_step m op ops : mesh_op_ok m op -> mesh_ok (after m op) ops -> mesh_ok m (op :: ops).
Proof. intros Hop Hok. split; [done|]. intros r Hr. unfold after in Hok. by rewrite Hr in Hok. Qed.

Lemma wire_peer_packet : wire_packet peer_packet.
Proof. repeat split; cbn; try done; repeat constructor; cbn; width_lia. Qed.

Definition mesh_opened : MeshLink := after (after new_mesh_link (MOpen key_a)) (MOpen key_b).

Lemma turn_admissible : admissible (s_acks open_link) (Some (mesh_turn 1 0)).
Proof. intros p [= <-]. split; [split; cbn; width_lia|vm_compute; discriminate]. Qed.

Lemma mesh_demo_ok : mesh_ok new_mesh_link mesh_demo.
Proof.
  do 2 (apply mesh_ok_step; [done|]). fold mesh_opened. apply mesh_ok_step.
  { intros l Hl. assert (l = open_link) as -> by (vm_compute in Hl; injection Hl as <-; reflexivity).
    apply turn_admissible. }
  do 2 (apply mesh_ok_step; [by intros pkt [= <-]; apply wire_peer_packet|]).
  apply mesh_ok_step; [by intros l _ p|]. by apply mesh_ok_step.
Qed.

Lemma mesh_opened_inv : mesh_inv mesh_opened.
Proof.
  unfold mesh_opened, after. cbn [mesh_step snd]. unfold open_session.
  repeat case_match; repeat (apply map_Forall_insert_2; [apply session_inv_open|]); try done.
Qed.

Lemma mesh_sessions_independent_witness :
  filter (addressed key_a) mesh_demo =
    [MOpen key_a; MSend key_a (Some 1200) accepted (Some (mesh_turn 1 0)) (Some [1; 2; 3]);
     MSend key_a (Some 1200) accepted None None] /\
  exists outs m m_a, mesh_run new_mesh_link mesh_demo = Some (outs, m) /\
    mesh_run new_mesh_link (filter (addressed key_a) mesh_demo) = Some (obs_of key_a mesh_demo outs, m_a) /\
    m_a !! key_a = m !! key_a.
Proof.
  split; [reflexivity|].
  destruct (mesh_sessions_independent mesh_demo key_a mesh_demo_ok) as (outs & m & Hr & _ & m_a & Ha & Heq).
  exists outs, m, m_a. split; [exact Hr|]. split; [exact Ha|exact Heq].
Defined.

Lemma mesh_recv_exact_witness :
  let mp := mkMeshPacket (C:=list Z) 5 (Some peer_packet) None (Some [98]) in
  (fun x => match x.1 with Ok r => map origin (fresh (mr_delivery r)) | Err _ => [] end)
    <$> mesh_recv mesh_opened (Ok mp) = Some [(2, 40); (2, 41)] /\
  exists r m', mesh_recv mesh_opened (Ok mp) = Some (r, m') /\ m' !! key_a = mesh_opened !! key_a.
Proof.
  intros mp. split; [vm_compute; reflexivity|].
  destruct (mesh_recv_exact mesh_opened mp mesh_opened_inv
    ltac:(intros pkt [= <-]; exact wire_peer_packet)) as (r & m' & Hr & _ & Hne & _).
  exists r, m'. split; [exact Hr|]. apply Hne. discriminate.
Defined.

Lemma mesh_fits_send_agree_witness :
  mesh_payload_fits (Some 1200) (mesh_turn 1 0) (Some [1; 2; 3]) (tenant key_a) = Ok true /\
  exists pkt r m', mesh_send mesh_opened key_a (Some 1200) accepted (Some (mesh_turn 1 0)) (Some [1; 2; 3]) =
    Some (r, [mkMeshPacket 5 (Some pkt) (Some [1; 2; 3]) (Some [97])], m') /\
    mesh_packet_encoded_len (mkMeshPacket 5 (Some pkt) (Some [1; 2; 3]) (Some [97])) <= 1200.
Proof.
  assert (Hf : mesh_payload_fits (Some 1200) (mesh_turn 1 0) (Some [1; 2; 3]) (tenant key_a) = Ok true)
    by (vm_compute; reflexivity).
  split; [exact Hf|].
  pose proof (mesh_fits_send_agree mesh_opened key_a open_link (mesh_turn 1 0) (Some [1; 2; 3]) 1200 accepted
    mesh_opened_inv ltac:(vm_compute; reflexivity) ltac:(cbn; width_lia) ltac:(cbn; width_lia) ltac:(lia)
    turn_admissible ltac:(vm_compute; reflexivity)) as Hag.
  cbv zeta in Hag. rewrite Hf in Hag.
  destruct Hag as [_ (pkt & mp & r & wire & m' & Hs & -> & _ & Hle & ->)].
  exists pkt, r, m'. split; [exact Hs|exact Hle].
Defined.
