(* ===== verification/Retention.v ===== *)
(** * The client's retention ring and the resume paths
    ([client/src/driver/retention.rs], [client/src/driver/send.rs])

    Every turn the driver sends is stamped with its origin identity and kept
    in a drop-oldest ring.  After a re-home the retained turns go back into the
    unacked window, or, when no datagram can hold them, are staged for the
    control stream; the own-slot anchor a dial presents promises the relay
    which sequence numbers will arrive. *)

From Stdlib Require Import ZArith Lia.
From stdpp Require Import gmap sorting list.
From S2P Require Import Prelude BTree SequenceBuffer Wire History AckManager AckInvariant AckRecv AckSend AckLiveness Dedup DedupPackets Link.

Open Scope Z_scope.

(** ** The ring *)

Definition RETENTION_TURN_CAP : Z := 512.
Definition RETENTION_BYTE_CAP : Z := 256 * 1024.

Definition retained_size (p : Payload) : Z := Z.of_nat (length (commands p)) + 32.

Record RetentionRing : Type := mkRetentionRing { turns : list Payload; ring_bytes : Z }.

Definition default_retention : RetentionRing := mkRetentionRing [] 0.

(** The eviction loop of [push], oldest first. *)
Fixpoint evict_retained (l : list Payload) (total : Z) : list Payload * Z :=
  match l with
  | [] => ([], total)
  | p :: rest =>
      if (RETENTION_TURN_CAP <? Z.of_nat (length l)) ||
         ((RETENTION_BYTE_CAP <? total) && (1 <? Z.of_nat (length l)))
      then evict_retained rest (saturating_sub total (retained_size p))
      else (l, total)
  end.

Definition push (r : RetentionRing) (p : Payload) : RetentionRing :=
  let x := evict_retained (turns r ++ [p]) (ring_bytes r + retained_size p) in
  mkRetentionRing x.1 x.2.

Definition front_seq (r : RetentionRing) : option Z := seq <$> head (turns r).

(** [Iterator::min]. *)
Definition minimum (l : list Z) : option Z :=
  foldr (fun x m => Some (match m with Some y => Z.min x y | None => x end)) None l.

Definition stage_control_redivert (pending : list Payload) (t : Payload) : list Payload :=
  if existsb (fun p => (slot p =? slot t) && (seq p =? seq t)) pending then pending else pending ++ [t].

(** What the driver carries across links: [LoopState]'s outbound half. *)
Record LoopState : Type := mkLoopState {
  next_outbound_seq : Z;
  retention : RetentionRing;
  pending_control_redivert : list Payload;
}.

Definition initial_state : LoopState := mkLoopState 0 default_retention [].

(** The head of [send_game_turn]: stamp the origin identity and retain. *)
Definition stamp_turn (st : LoopState) (own_slot : Z) (p : Payload) : Payload :=
  mkPayload (next_outbound_seq st) own_slot (commands p) (game_frame_count p) (sync_generation p)
    (buffer_directive p) (state_hash p).

Definition retain_turn (st : LoopState) (own_slot : Z) (p : Payload) : LoopState :=
  mkLoopState (next_outbound_seq st + 1) (push (retention st) (stamp_turn st own_slot p))
    (pending_control_redivert st).

Definition UNACKED_WINDOW_CAP : Z := 1024.

Definition window_cap_error (l : Link) : option Z :=
  let in_flight := Z.of_nat (payloads_in_flight (acks l)) in
  if UNACKED_WINDOW_CAP <? in_flight then Some in_flight else None.

(** Why a turn's hand-off ends the session; a close expected after the leave
    was announced is absorbed by the caller. *)
Inductive OutboundSend : Type :=
| TurnSent
| EndSizing (e : LinkError)
| EndSend (e : LinkError)
| EndWindowExhausted (in_flight : Z)
| EndControl.

Section resume.
Context `{!Prost}.

Definition oldest_oversize_seq (r : RetentionRing) : option Z :=
  minimum (map seq (filter (fun t => fits_guaranteed_datagram t = false) (turns r))).

Definition rehome_own_slot_anchor (l : Link) (own_slot : Z) (retention_front : option Z) : option Z :=
  match retention_front with
  | Some front => Some (contiguous_replayable_anchor (acks l) own_slot front)
  | None => oldest_replayable_seq (acks l) own_slot
  end.

Definition same_relay_resume_cursors (peer_cursors : list (Z * Z))
  (oldest_replayable oldest_restaged_oversize : option Z) (own_slot next : Z) : list (Z * Z) :=
  let anchor :=
    match oldest_replayable, oldest_restaged_oversize with
    | Some datagram, Some oversize => Z.min datagram oversize
    | Some only, None | None, Some only => only
    | None, None => next
    end in
  peer_cursors ++ [(own_slot, anchor)].

Definition reinject_one (live : option Z) (x : Link * list Payload) (t : Payload) : Link * list Payload :=
  match payload_fits live t with
  | Ok true => (link_reinject_unacked x.1 t, x.2)
  | _ => (x.1, stage_control_redivert x.2 t)
  end.

Definition reinject_retention (live : option Z) (l : Link) (st : LoopState) : Link * LoopState :=
  let r := foldl (reinject_one live) (l, pending_control_redivert st) (turns (retention st)) in
  (r.1, mkLoopState (next_outbound_seq st) (retention st) r.2).

Definition redivert_oversize_retention_on_same_relay_resume (live : option Z) (st : LoopState) : LoopState :=
  mkLoopState (next_outbound_seq st) (retention st)
    (foldl (fun pending t => match payload_fits live t with
                             | Ok false => stage_control_redivert pending t
                             | _ => pending
                             end) (pending_control_redivert st) (turns (retention st))).

(** The drain onto the control stream; [writes] answers each write given what
    was written before it.  What was written, what stays staged, success. *)
Fixpoint redivert_pending_control (writes : list Payload -> Payload -> bool)
  (written pending : list Payload) : list Payload * list Payload * bool :=
  match pending with
  | [] => (written, [], true)
  | t :: rest =>
      if writes written t then redivert_pending_control writes (written ++ [t]) rest
      else (written, pending, false)
  end.

(** [send_packet]: a refused bundle is not an error. *)
Definition send_packet (live : option Z) (sd : Packet -> datagram_outcome) (l : Link) (p : option Payload) :
  option (result bool LinkError * list Packet * Link) :=
  r ← send live sd l p;
  let '(v, wire, l') := r in
  mret (match v with
        | Ok redundant => Ok (0 <? redundant)
        | Err (PayloadTooLarge _ _) => Ok false
        | Err e => Err e
        end, wire, l').

(** One turn's wire hand-off: the outcome, the datagrams and control frames
    written, and the link and driver state after. *)
Definition send_game_turn (live : option Z) (sd : Packet -> datagram_outcome) (control_write : bool)
  (l : Link) (st : LoopState) (own_slot : Z) (p : Payload) :
  option (OutboundSend * list Packet * list Payload * Link * LoopState) :=
  let t := stamp_turn st own_slot p in
  let st' := retain_turn st own_slot p in
  match payload_fits live t with
  | Err e => Some (EndSizing e, [], [], l, st')
  | Ok true =>
      r ← send_packet live sd l (Some t);
      let '(v, wire, l') := r in
      mret (match v with
            | Err e => EndSend e
            | Ok _ => match window_cap_error l' with
                      | Some n => EndWindowExhausted n
                      | None => TurnSent
                      end
            end, wire, [], l', st')
  | Ok false =>
      Some (if control_write then TurnSent else EndControl, [], if control_write then [t] else [], l, st')
  end.

End resume.

(** ** The ring's bounds *)

Definition within_caps (l : list Payload) : Prop :=
  Z.of_nat (length l) <= RETENTION_TURN_CAP /\
  (sumz retained_size l <= RETENTION_BYTE_CAP \/ (length l <= 1)%nat).

Lemma retained_size_pos p : 32 <= retained_size p.
Proof. unfold retained_size. lia. Qed.

Lemma sumz_retained_nonneg l : 0 <= sumz retained_size l.
Proof. apply sumz_nonneg. intros p _. pose proof (retained_size_pos p). lia. Qed.

Lemma evict_retained_spec l :
  let r := evict_retained l (sumz retained_size l) in
  r.2 = sumz retained_size r.1 /\ suffix r.1 l /\ within_caps r.1 /\
  (l <> [] -> r.1 <> []) /\
  forall k, suffix k l -> within_caps k -> suffix k r.1.
Proof.
  induction l as [|p l IH]; cbv zeta in *.
  { cbn. split; [done|]. split; [done|]. split; [split; [done|right; cbn; lia]|done]. }
  cbn [evict_retained]. set (n := Z.of_nat (length (p :: l))).
  destruct ((RETENTION_TURN_CAP <? n) || _) eqn:Hover.
  - assert (Hsub : saturating_sub (sumz retained_size (p :: l)) (retained_size p) = sumz retained_size l).
    { cbn [sumz]. unfold saturating_sub. pose proof (sumz_retained_nonneg l). lia. }
    rewrite Hsub. destruct IH as (H1 & H2 & H3 & H4 & H5).
    assert (Hbad : ~ within_caps (p :: l)).
    { intros [Hn Hb]. fold n in Hn. apply orb_true_iff in Hover as [Hover|Hover].
      - apply Z.ltb_lt in Hover. lia.
      - apply andb_true_iff in Hover as [Hb1%Z.ltb_lt Hn1%Z.ltb_lt].
        destruct Hb as [Hb|Hb]; [lia|]. unfold n in Hn1. lia. }
    assert (Hl : l <> []).
    { intros ->. apply Hbad. split; cbn; [unfold RETENTION_TURN_CAP; lia|right; lia]. }
    split; [done|]. split; [by apply suffix_cons_r|]. split; [done|]. split; [auto|].
    intros k Hk Hfit. destruct k as [|x k]; [apply suffix_nil|].
    apply suffix_cons_inv in Hk as [Heq|Hk]; [by rewrite Heq in Hfit|]. by apply H5.
  - split; [done|]. split; [done|]. apply orb_false_iff in Hover as [Hn%Z.ltb_ge Hb].
    split; [|done]. split; [done|]. apply andb_false_iff in Hb as [Hb%Z.ltb_ge|Hb%Z.ltb_ge]; [by left|right].
    subst n. cbn [length fst] in *. lia.
Qed.

(** The ring holds exactly the longest run of newest turns within the caps. *)
Record ring_holds (r : RetentionRing) (sent : list Payload) : Prop := {
  rh_bytes : ring_bytes r = sumz retained_size (turns r);
  rh_suffix : suffix (turns r) sent;
  rh_caps : within_caps (turns r);
  rh_last : sent <> [] -> turns r <> [];
  rh_longest : forall k, suffix k sent -> within_caps k -> suffix k (turns r);
}.

Lemma ring_holds_default : ring_holds default_retention [].
Proof.
  split; cbn; try done. split; [done|right; cbn; lia].
Qed.

Lemma ring_holds_push r sent p : ring_holds r sent -> ring_holds (push r p) (sent ++ [p]).
Proof.
  intros [Hb Hs Hc Hl Hlong].
  assert (Hsum : ring_bytes r + retained_size p = sumz retained_size (turns r ++ [p])).
  { rewrite sumz_app, Hb. cbn. lia. }
  destruct (evict_retained_spec (turns r ++ [p])) as (H1 & H2 & H3 & H4 & H5).
  rewrite <- Hsum in H1, H2, H3, H4, H5.
  split; cbn [push turns ring_bytes]; [done| |done| |].
  - etrans; [exact H2|]. by apply suffix_app.
  - intros _. apply H4. by destruct (turns r).
  - intros k Hk Hfit. apply H5; [|done]. destruct k as [|x k _] using rev_ind; [apply suffix_nil|].
    apply suffix_snoc_inv_1 in Hk as Hx. apply suffix_snoc_inv_2 in Hk. subst x.
    apply suffix_app. apply Hlong; [done|]. destruct Hfit as [Hn Hby]. rewrite length_app in Hn, Hby.
    cbn in Hn, Hby. split; [lia|]. destruct Hby as [Hby|Hby]; [|right; lia].
    left. rewrite sumz_app in Hby. cbn in Hby. pose proof (retained_size_pos p). lia.
Qed.

Lemma ring_holds_all ps : forall r sent, ring_holds r sent -> ring_holds (foldl push r ps) (sent ++ ps).
Proof.
  induction ps as [|p ps IH]; intros r sent Hr; cbn [foldl]; [by rewrite app_nil_r|].
  rewrite cons_middle, app_assoc. by apply IH, ring_holds_push.
Qed.

(** ** What the driver sends *)

(** The turns as they were stamped: consecutive numbers from zero. *)
Definition stamped (own_slot : Z) (ps : list Payload) : list Payload :=
  imap (fun i p => mkPayload (Z.of_nat i) own_slot (commands p) (game_frame_count p) (sync_generation p)
                     (buffer_directive p) (state_hash p)) ps.

Definition sends (own_slot : Z) (ps : list Payload) : LoopState :=
  foldl (fun st p => retain_turn st own_slot p) initial_state ps.

Lemma sends_spec own_slot ps :
  next_outbound_seq (sends own_slot ps) = Z.of_nat (length ps) /\
  pending_control_redivert (sends own_slot ps) = [] /\
  retention (sends own_slot ps) = foldl push default_retention (stamped own_slot ps).
Proof.
  unfold sends, stamped. induction ps as [|p ps IH] using rev_ind; [done|].
  rewrite !foldl_app, imap_app, foldl_app, length_app. destruct IH as (Hn & Hp & Hr). cbn [foldl imap length].
  set (st := foldl _ initial_state ps) in *.
  cbn [retain_turn next_outbound_seq pending_control_redivert retention]. split; [lia|]. split; [done|].
  rewrite Hr. unfold compose. rewrite Nat.add_0_r. f_equal. unfold stamp_turn. by rewrite Hn.
Qed.

Lemma sends_holds own_slot ps : ring_holds (retention (sends own_slot ps)) (stamped own_slot ps).
Proof.
  destruct (sends_spec own_slot ps) as (_ & _ & ->). apply (ring_holds_all _ _ []), ring_holds_default.
Qed.

(** The retained turns are the newest ones, in sequence, under the own slot. *)
Lemma retained_run own_slot ps front :
  front_seq (retention (sends own_slot ps)) = Some front ->
  0 <= front /\ (forall t, t ∈ turns (retention (sends own_slot ps)) -> slot t = own_slot) /\
  forall q, front <= q < Z.of_nat (length ps) ->
    exists t, t ∈ turns (retention (sends own_slot ps)) /\ slot t = own_slot /\ seq t = q.
Proof.
  intros Hf. destruct (sends_holds own_slot ps) as [_ [k Hk] _ _ _]. set (r := turns _) in *.
  assert (Hnth : forall i t, r !! i = Some t -> slot t = own_slot /\ seq t = Z.of_nat (length k + i)).
  { intros i t Ht. assert (Hs : stamped own_slot ps !! (length k + i)%nat = Some t).
    { rewrite Hk, lookup_app_r by lia. by replace (length k + i - length k)%nat with i by lia. }
    unfold stamped in Hs. rewrite list_lookup_imap in Hs.
    destruct (ps !! (length k + i)%nat); [|done]. cbn in Hs. injection Hs as <-. done. }
  unfold front_seq in Hf. fold r in Hf. rewrite head_lookup in Hf.
  destruct (r !! 0%nat) as [t0|] eqn:H0; [|done]. injection Hf as <-.
  destruct (Hnth _ _ H0) as [_ Hs0]. rewrite Nat.add_0_r in Hs0. split; [lia|]. split.
  - intros t [i Hi]%list_elem_of_lookup. by eapply Hnth.
  - intros q Hq. assert (Hlen : (length ps = length k + length r)%nat).
    { apply (f_equal length) in Hk. rewrite length_app in Hk. unfold stamped in Hk. by rewrite length_imap in Hk. }
    destruct (lookup_lt_is_Some_2 r (Z.to_nat q - length k)) as [t Ht]; [lia|].
    exists t. split; [by eapply list_elem_of_lookup_2|]. destruct (Hnth _ _ Ht). split; [done|lia].
Qed.

(** ** Staging and re-injection *)

Definition staged (pending : list Payload) (k : Z * Z) : Prop := exists t, t ∈ pending /\ origin t = k.

Lemma stage_spec pending t k :
  staged (stage_control_redivert pending t) k <-> staged pending k \/ k = origin t.
Proof.
  unfold stage_control_redivert, staged. destruct (existsb _ pending) eqn:Hex.
  - apply existsb_exists in Hex as (p & Hin & Hp). apply andb_true_iff in Hp as [H1%Z.eqb_eq H2%Z.eqb_eq].
    apply list_elem_of_In in Hin. split; [by left|]. intros [?| ->]; [done|]. exists p. split; [done|].
    unfold origin. congruence.
  - split.
    + intros (p & [Hp| ->%list_elem_of_singleton]%elem_of_app & <-); [left; by exists p|by right].
    + intros [(p & Hp & <-)| ->]; [exists p|exists t]; (split; [|done]); apply elem_of_app; [by left|right].
      by apply list_elem_of_singleton.
Qed.

Section promises.
Context `{!Prost, !ProstLaws}.
Implicit Types (l : Link) (k : Z * Z).

Definition in_window l k : Prop := is_Some (BTreeMap.get (unacked_payloads (acks l)) k).

Lemma reinject_window l t k :
  slot t <= u8_max -> in_window (link_reinject_unacked l t) k <-> in_window l k \/ k = origin t.
Proof.
  intros Hs. unfold in_window, link_reinject_unacked, reinject_unacked. cbn [acks with_acks].
  rewrite (proj2 (u8_try_from_Some (slot t) (slot t))) by done. fold (origin t).
  destruct (BTreeMap.get (unacked_payloads (acks l)) (origin t)) eqn:Hg.
  - split; [by left|]. intros [?| ->]; [done|by rewrite Hg].
  - unfold insert_unacked. cbn [unacked_payloads set_unacked]. rewrite BTreeMap.get_insert.
    case_decide as Hk; [subst; split; [by right|by eexists]|]. split; [by left|]. intros [?| ->]; done.
Qed.

Lemma rebind_window l k : in_window (rebind l) k <-> in_window l k.
Proof.
  unfold in_window, rebind. cbn [acks with_acks reset_connection unacked_payloads].
  rewrite BTreeMap.get_map_values. by rewrite fmap_is_Some.
Qed.

(** Every retained turn ends up somewhere, and nothing that was somewhere is
    lost. *)
Lemma reinject_fold live ts : forall l pending,
  (forall t, t ∈ ts -> slot t <= u8_max) ->
  let r := foldl (reinject_one live) (l, pending) ts in
  (forall k, in_window l k -> in_window r.1 k) /\ (forall k, staged pending k -> staged r.2 k) /\
  forall t, t ∈ ts -> in_window r.1 (origin t) \/ staged r.2 (origin t).
Proof.
  induction ts as [|t ts IH]; intros l pending Hts; cbn [foldl].
  { split; [done|]. split; [done|]. intros t Ht. by apply elem_of_nil in Ht. }
  assert (Ht : slot t <= u8_max) by (apply Hts; left).
  assert (Hstep : exists l' p', reinject_one live (l, pending) t = (l', p') /\
    (forall k, in_window l k -> in_window l' k) /\ (forall k, staged pending k -> staged p' k) /\
    (in_window l' (origin t) \/ staged p' (origin t))).
  { unfold reinject_one. destruct (payload_fits live t) as [[|]|e]; do 2 eexists; (split; [done|]); cbn [fst snd].
    - split; [intros k Hk; apply reinject_window; tauto|]. split; [done|]. left. apply reinject_window; tauto.
    - split; [done|]. split; [intros k Hk; apply stage_spec; tauto|]. right. apply stage_spec. tauto.
    - split; [done|]. split; [intros k Hk; apply stage_spec; tauto|]. right. apply stage_spec. tauto. }
  destruct Hstep as (l' & p' & -> & Hw & Hp & Hon).
  destruct (IH l' p') as (Hw' & Hp' & Hall); [intros t' Ht'; apply Hts; by right|].
  cbv zeta in *. split; [auto|]. split; [auto|].
  intros t' [->|Ht']%elem_of_cons; [|by apply Hall]. destruct Hon; [left; by apply Hw'|right; by apply Hp'].
Qed.

Lemma minimum_le (zs : list Z) m x : minimum zs = Some m -> x ∈ zs -> m <= x.
Proof.
  revert m. induction zs as [|y zs IH]; intros m; cbn [minimum foldr]; [done|]. fold (minimum zs).
  intros [= <-] [->|Hx]%elem_of_cons; destruct (minimum zs) as [z|] eqn:Hm; try lia.
  - specialize (IH z eq_refl Hx). lia.
  - destruct zs; [by apply elem_of_nil in Hx|done].
Qed.

Lemma minimum_some (zs : list Z) x : x ∈ zs -> is_Some (minimum zs).
Proof. destruct zs; [by intros ?%elem_of_nil|by eexists]. Qed.

(** The oldest replayable number is below every unacked one of the slot. *)
Lemma oldest_replayable_le a s q :
  inv a -> is_Some (BTreeMap.get (unacked_payloads a) (s, q)) ->
  exists m, oldest_replayable_seq a s = Some m /\ m <= q.
Proof.
  intros Ha Hq. apply (elem_of_slot_seqs a) in Hq; [|done].
  pose proof (slot_seqs_sorted a s Ha) as Hs. unfold oldest_replayable_seq.
  destruct (slot_seqs a s) as [|m qs]; [by apply elem_of_nil in Hq|]. exists m. split; [done|].
  inversion Hs as [|? ? _ Hall]; subst. rewrite Forall_forall in Hall.
  apply elem_of_cons in Hq as [->|Hq]; [lia|]. specialize (Hall q Hq). lia.
Qed.

(** What is restaged on a full-size path is what the static floor calls
    oversize. *)
Lemma restaged_oversize b t :
  GUARANTEED_DATAGRAM_BUDGET <= b -> payload_fits (Some b) t = Ok false -> fits_guaranteed_datagram t = false.
Proof.
  intros Hb. unfold payload_fits, fits_guaranteed_datagram. cbn [datagram_admission_budget result_bind].
  rewrite Z.min_r by done. by intros [= ->].
Qed.

End promises.

(** A drain that fails part-way keeps the unwritten rest staged, in order. *)
Lemma redivert_keeps_unsent writes pending : forall written,
  let '(written', rest, ok) := redivert_pending_control writes written pending in
  written' ++ rest = written ++ pending /\ (ok = true <-> rest = []).
Proof.
  induction pending as [|t pending IH]; intros written; cbn [redivert_pending_control]; [done|].
  destruct (writes written t); [|done]. specialize (IH (written ++ [t])).
  destruct (redivert_pending_control writes (written ++ [t]) pending) as [[w rest] ok].
  by rewrite <- app_assoc in IH.
Qed.

(** ** Properties *)

(** The retention ring is the longest run of the newest sent turns that fits
    both caps: its byte count is exact, it never exceeds the turn cap, it
    exceeds the byte cap only with a single turn, and any run of newest turns
    within the caps is still in it. *)
Theorem retention_bounded (ps : list Payload) :
  let r := foldl push default_retention ps in
  ring_bytes r = sumz retained_size (turns r) /\ suffix (turns r) ps /\
  Z.of_nat (length (turns r)) <= RETENTION_TURN_CAP /\
  (ring_bytes r <= RETENTION_BYTE_CAP \/ (length (turns r) <= 1)%nat) /\
  forall k, suffix k ps -> within_caps k -> suffix k (turns r).
Proof.
  intros r. destruct (ring_holds_all ps default_retention [] ring_holds_default) as [Hb Hs [Hn Hc] _ Hl].
  fold r in Hb, Hs, Hn, Hc, Hl. rewrite Hb. by split_and!.
Qed.

(** A re-home keeps the promise its anchor makes.  Whatever turns the driver
    has sent and whatever the old link still holds unacked, the fresh relay
    bases its window at the anchor the dial presents, and after the rebind and
    the re-injection every own-slot number from the anchor up to the next one
    to be produced is either in the unacked window, which re-carries it, or
    staged for the control stream; and nothing unacked before the re-home is
    forgotten. *)
Theorem rehome_promise_kept `{!Prost, !ProstLaws} (own_slot : Z) (ps : list Payload) (l : Link)
  (live : option Z) :
  is_u8 own_slot -> inv (acks l) -> ps <> [] ->
  let st := sends own_slot ps in
  let '(l', st') := reinject_retention live (rebind l) st in
  exists a, rehome_own_slot_anchor l own_slot (front_seq (retention st)) = Some a /\
    a <= next_outbound_seq st' /\
    (forall q, a <= q < next_outbound_seq st' ->
       in_window l' (own_slot, q) \/ staged (pending_control_redivert st') (own_slot, q)) /\
    forall k, in_window l k -> in_window l' k.
Proof.
  intros Hu8 Ha Hne st. destruct (sends_spec own_slot ps) as (Hn & _ & _). fold st in Hn.
  assert (Hfront : exists front, front_seq (retention st) = Some front).
  { destruct (sends_holds own_slot ps) as [_ _ _ Hlast _]. fold st in Hlast. unfold front_seq.
    assert (stamped own_slot ps <> []) by (by destruct ps). specialize (Hlast ltac:(done)).
    destruct (turns (retention st)) as [|t ts]; [done|]. by exists (seq t). }
  destruct Hfront as [front Hf]. destruct (retained_run own_slot ps front Hf) as (Hfr0 & Hslots & Hrun).
  fold st in Hslots, Hrun.
  destruct (reinject_fold live (turns (retention st)) (rebind l) (pending_control_redivert st)) as (Hw & Hp & Hall).
  { intros t Ht. rewrite (Hslots t Ht). apply Hu8. }
  unfold reinject_retention. cbn [next_outbound_seq pending_control_redivert]. cbv zeta in *.
  set (r := foldl _ _ _) in *. rewrite Hf. cbn [rehome_own_slot_anchor].
  destruct (contiguous_anchor_spec (acks l) own_slot front Ha) as (Hle & Hcov & _). cbv zeta in *.
  eexists. split; [done|]. rewrite Hn. split.
  { destruct (decide (front < Z.of_nat (length ps))); [lia|].
    unfold front_seq in Hf. destruct (turns (retention st)) as [|t ts] eqn:Hts; [done|].
    destruct (sends_holds own_slot ps) as [_ [k Hk] _ _ _]. fold st in Hk. rewrite Hts in Hk.
    injection Hf as Hf. apply (f_equal (fun x => x !! length k)) in Hk. rewrite list_lookup_middle in Hk by done.
    unfold stamped in Hk. rewrite list_lookup_imap in Hk. destruct (ps !! length k) eqn:Hpk; [|done].
    cbn in Hk. injection Hk as <-. apply lookup_lt_Some in Hpk. cbn in Hf. lia. }
  split; [|intros k Hk; by apply Hw, rebind_window].
  intros q Hq. destruct (Z.le_gt_cases front q) as [Hge|Hlt].
  - destruct (Hrun q ltac:(lia)) as (t & Ht & Hs & Hsq). specialize (Hall t Ht).
    unfold origin in Hall. by rewrite Hs, Hsq in Hall.
  - left. apply Hw, rebind_window. apply Hcov. lia.
Qed.

(** A same-relay resume anchors below everything it re-sends: the cursor it
    presents for its own slot is always there, and is at or below every
    own-slot number still unacked and every retained turn the resume restages
    onto the control stream, so the relay discards none of them as already
    delivered. *)
Theorem same_relay_anchor_covers `{!Prost, !ProstLaws} (own_slot b : Z) (ps : list Payload) (l : Link)
  (peers : list (Z * Z)) :
  inv (acks l) -> GUARANTEED_DATAGRAM_BUDGET <= b ->
  let st := sends own_slot ps in
  let st' := redivert_oversize_retention_on_same_relay_resume (Some b) st in
  exists a, same_relay_resume_cursors peers (oldest_replayable_seq (acks l) own_slot)
      (oldest_oversize_seq (retention st)) own_slot (next_outbound_seq st) = peers ++ [(own_slot, a)] /\
    (forall q, in_window l (own_slot, q) -> a <= q) /\
    (forall t, t ∈ turns (retention st) -> payload_fits (Some b) t = Ok false ->
       a <= seq t /\ staged (pending_control_redivert st') (origin t)).
Proof.
  intros Ha Hb st st'. eexists. split; [done|]. split.
  - intros q Hq. destruct (oldest_replayable_le _ _ _ Ha Hq) as (m & -> & Hm).
    destruct (oldest_oversize_seq (retention st)); lia.
  - intros t Ht Hfit. split.
    + assert (Hin : seq t ∈ map seq (filter (fun t => fits_guaranteed_datagram t = false) (turns (retention st)))).
      { apply list_elem_of_fmap. exists t. split; [done|]. apply list_elem_of_filter. split; [|done].
        by eapply restaged_oversize. }
      unfold oldest_oversize_seq. destruct (minimum_some _ _ Hin) as [m Hm]. rewrite Hm.
      pose proof (minimum_le _ _ _ Hm Hin). destruct (oldest_replayable_seq (acks l) own_slot); lia.
    + unfold st', redivert_oversize_retention_on_same_relay_resume. cbn [pending_control_redivert].
      generalize (pending_control_redivert st). revert Ht Hfit. generalize (turns (retention st)).
      intros ts. induction ts as [|x ts IH]; intros Ht Hfit pending; [by apply elem_of_nil in Ht|]. cbn [foldl].
      assert (Hkeep : forall ts pending k, staged pending k -> staged (foldl (fun pending t =>
        match payload_fits (Some b) t with Ok false => stage_control_redivert pending t | _ => pending end)
        pending ts) k).
      { clear. induction ts as [|y ts IH]; intros pending k Hk; cbn [foldl]; [done|]. apply IH.
        destruct (payload_fits (Some b) y) as [[|]|]; try done. apply stage_spec. by left. }
      apply elem_of_cons in Ht as [<-|Ht]; [|by apply IH]. rewrite Hfit. apply Hkeep, stage_spec. by right.
Qed.

(** ** Witnesses: three turns of slot 3, the second too wide for a datagram *)

Definition game_turn (n : nat) : Payload := mkPayload 0 0 (replicate n 5) None None None None.
Definition demo_turns : list Payload := [game_turn 3; game_turn 1500; game_turn 4].
Definition demo_state : LoopState := sends 3 demo_turns.

Lemma retention_bounded_witness :
  ring_bytes (retention demo_state) = 1603 /\
  forall k, suffix k demo_turns -> within_caps k -> suffix k (turns (foldl push default_retention demo_turns)).
Proof.
  split; [vm_compute; reflexivity|]. apply (retention_bounded demo_turns).
Defined.

#[local] Existing Instance prost_sizes.
#[local] Existing Instance prost_sizes_laws.

Lemma new_link_inv : inv (acks new_link).
Proof. apply good_new. Qed.

Lemma rehome_promise_kept_witness :
  map seq (turns (retention demo_state)) = [0; 1; 2] /\
  forall q, 0 <= q < 3 ->
    in_window (reinject_retention (Some 1200) (rebind new_link) demo_state).1 (3, q) \/
    staged (pending_control_redivert (reinject_retention (Some 1200) (rebind new_link) demo_state).2) (3, q).
Proof.
  split; [vm_compute; reflexivity|].
  pose proof (rehome_promise_kept 3 demo_turns new_link (Some 1200) ltac:(width_lia) new_link_inv
    ltac:(discriminate)) as Hk. cbv zeta in Hk. fold demo_state in Hk.
  destruct (reinject_retention (Some 1200) (rebind new_link) demo_state) as [l' st'] eqn:Hr.
  destruct Hk as (a & Ha & _ & Hall & _). vm_compute in Ha. injection Ha as <-.
  assert (Hn : next_outbound_seq st' = 3).
  { transitivity (next_outbound_seq (reinject_retention (Some 1200) (rebind new_link) demo_state).2);
      [rewrite Hr; reflexivity|vm_compute; reflexivity]. }
  rewrite Hn in Hall. exact Hall.
Defined.

Lemma same_relay_anchor_covers_witness :
  same_relay_resume_cursors [(0, 9)] (oldest_replayable_seq (acks new_link) 3)
    (oldest_oversize_seq (retention demo_state)) 3 (next_outbound_seq demo_state) = [(0, 9); (3, 1)] /\
  exists a, same_relay_resume_cursors [(0, 9)] (oldest_replayable_seq (acks new_link) 3)
    (oldest_oversize_seq (retention demo_state)) 3 (next_outbound_seq demo_state) = [(0, 9)] ++ [(3, a)] /\
    a <= 1.
Proof.
  split; [vm_compute; reflexivity|].
  destruct (same_relay_anchor_covers 3 1200 demo_turns new_link [(0, 9)] new_link_inv
    ltac:(unfold GUARANTEED_DATAGRAM_BUDGET; lia)) as (a & Ha & _ & Hall).
  exists a. split; [exact Ha|].
  destruct (Hall (stamp_turn (sends 3 [game_turn 3]) 3 (game_turn 1500))) as [Hle _].
  - vm_compute. right. left.
  - vm_compute. reflexivity.
  - exact Hle.
Defined.
