(* ===== verification/Driver.v ===== *)
(** * The client driver ([client/src/driver/], [client/src/phase.rs])

    The slewing delay a client adds to its turns, and the driver that sends and
    delivers them. *)

From Stdlib Require Import ZArith Lia.
From stdpp Require Import list.
From stdpp Require Import list sorting.
From S2P Require Import Prelude.
From S2P Require Import Wire.
From S2P Require Import AckManager.
From S2P Require Import Dedup.
From S2P Require Import Link.
From S2P Require Import Retention.

Open Scope Z_scope.

(** ** Send-phase slewing ([client/src/phase.rs])

    The delay a client adds to each turn's wire hand-off, walked toward the
    relay's newest command at a bounded rate.  Instants are nanoseconds. *)

Definition DEFAULT_SLEW_US_PER_S : Z := 2000.
Definition MIN_SLEW_US_PER_S : Z := 100.
Definition MAX_SLEW_US_PER_S : Z := 10000.
Definition MAX_DELAY_US : Z := 100000.

Record PhaseStatus : Type := mkPhaseStatus { status_applied_us : Z; status_target_us : Z }.

Record PhaseSlew : Type := mkPhaseSlew { applied_us : Z; target_us : Z; rate_us_per_s : Z; last_advance : Z }.

Definition new_slew (now : Z) : PhaseSlew := mkPhaseSlew 0 0 DEFAULT_SLEW_US_PER_S now.

(** [Duration::as_micros]. *)
Definition as_micros (d : Z) : Z := d / 1000.

Definition saturating_mul (bound a b : Z) : Z := Z.min bound (a * b).

Definition advance (s : PhaseSlew) (now : Z) : Z * PhaseSlew :=
  let elapsed_us := Z.min (as_micros (saturating_sub now (last_advance s))) u64_max in
  let step := saturating_mul u64_max elapsed_us (rate_us_per_s s) / 1000000 in
  let s :=
    if 0 <? step then
      mkPhaseSlew
        (if applied_us s <? target_us s then Z.min (applied_us s + step) (target_us s)
         else Z.max (saturating_sub (applied_us s) step) (target_us s))
        (target_us s) (rate_us_per_s s) now
    else s in
  (applied_us s, s).

Definition retarget (s : PhaseSlew) (delay_us slew_us_per_s now : Z) : PhaseSlew :=
  let s := (advance s now).2 in
  mkPhaseSlew (applied_us s) (Z.min delay_us MAX_DELAY_US)
    (if slew_us_per_s =? 0 then DEFAULT_SLEW_US_PER_S else Z.max MIN_SLEW_US_PER_S (Z.min slew_us_per_s MAX_SLEW_US_PER_S))
    (last_advance s).

Definition slew_status (s : PhaseSlew) : PhaseStatus :=
  mkPhaseStatus (if applied_us s <=? u32_max then applied_us s else u32_max)
    (if target_us s <=? u32_max then target_us s else u32_max).

(** ** Bounds *)

Record slew_ok (s : PhaseSlew) : Prop := mkSlewOk {
  sk_applied : 0 <= applied_us s <= MAX_DELAY_US;
  sk_target : 0 <= target_us s <= MAX_DELAY_US;
  sk_rate : MIN_SLEW_US_PER_S <= rate_us_per_s s <= MAX_SLEW_US_PER_S;
}.

Lemma new_slew_ok now : slew_ok (new_slew now).
Proof. split; cbn; unfold MAX_DELAY_US, DEFAULT_SLEW_US_PER_S, MIN_SLEW_US_PER_S, MAX_SLEW_US_PER_S; lia. Qed.

(** What one walk may move: the rate times the time, toward the target and not
    past it. *)
Lemma slew_advance_spec s now : slew_ok s -> let s' := (advance s now).2 in
  slew_ok s' /\ (advance s now).1 = applied_us s' /\ target_us s' = target_us s /\ rate_us_per_s s' = rate_us_per_s s /\
  (applied_us s <= applied_us s' <= target_us s \/ target_us s <= applied_us s' <= applied_us s) /\
  (last_advance s' = last_advance s /\ applied_us s' = applied_us s \/
   last_advance s' = now /\ last_advance s < now /\ 1000000000 * Z.abs (applied_us s' - applied_us s) <= rate_us_per_s s * (now - last_advance s)).
Proof.
  intros [Ha Ht Hr]. unfold advance, as_micros, saturating_mul, saturating_sub. cbn [fst snd].
  set (e := Z.min (Z.max 0 (now - last_advance s) / 1000) u64_max). set (step := Z.min u64_max (e * rate_us_per_s s) / 1000000).
  assert (He : 0 <= e /\ 1000 * e <= Z.max 0 (now - last_advance s)).
  { unfold e. pose proof (Z.mul_div_le (Z.max 0 (now - last_advance s)) 1000 ltac:(lia)). pose proof (Z.div_pos (Z.max 0 (now - last_advance s)) 1000 ltac:(lia) ltac:(lia)). unfold u64_max. lia. }
  assert (Hstep : 1000000 * step <= e * rate_us_per_s s) by (unfold step; pose proof (Z.mul_div_le (Z.min u64_max (e * rate_us_per_s s)) 1000000 ltac:(lia)); lia).
  unfold MIN_SLEW_US_PER_S in Hr. destruct (Z.ltb_spec 0 step) as [Hp|Hp]; cbn [applied_us target_us rate_us_per_s last_advance].
  - assert (Hlt : last_advance s < now) by nia. rewrite Z.max_r in He by lia.
    destruct (Z.ltb_spec (applied_us s) (target_us s)); (split; [split; cbn; [lia|lia|done]|]); (split; [done|]); (split; [done|]); (split; [done|]); (split; [lia|]); right; (split; [done|]); (split; [done|]); nia.
  - split; [by split|]. split; [done|]. split; [done|]. split; [done|]. split; [lia|]. by left.
Qed.

Lemma retarget_ok s delay rate now : slew_ok s -> 0 <= delay -> 0 <= rate -> slew_ok (retarget s delay rate now).
Proof.
  intros Hs Hd Hr. destruct (slew_advance_spec s now Hs) as ([Ha _ _] & _). unfold retarget. split; cbn [applied_us target_us rate_us_per_s]; [done|unfold MAX_DELAY_US in *; lia|].
  unfold DEFAULT_SLEW_US_PER_S, MIN_SLEW_US_PER_S, MAX_SLEW_US_PER_S. destruct (rate =? 0); lia.
Qed.

(** One directive or one turn's walk, at an instant. *)
Inductive SlewOp : Type :=
| Directed (delay_us slew_us_per_s now : Z)
| Walked (now : Z).

Definition slew_now (o : SlewOp) : Z := match o with Directed _ _ now | Walked now => now end.
Definition slew_wire (o : SlewOp) : Prop := match o with Directed d r _ => is_u32 d /\ is_u32 r | Walked _ => True end.

Definition slew_step (s : PhaseSlew) (o : SlewOp) : PhaseSlew :=
  match o with Directed d r now => retarget s d r now | Walked now => (advance s now).2 end.

Lemma slew_run_ok ops s t : slew_ok s -> last_advance s <= t -> Forall slew_wire ops -> Forall (fun o => slew_now o <= t) ops ->
  let s' := foldl slew_step s ops in
  slew_ok s' /\ last_advance s <= last_advance s' <= t /\ 100000 * Z.abs (applied_us s' - applied_us s) <= last_advance s' - last_advance s.
Proof.
  revert s. induction ops as [|o ops IH]; intros s Hs Hl Hw Hf; [cbn; split; [done|lia]|]. apply Forall_cons in Hw as [Hw1 Hw2]. apply Forall_cons in Hf as [Hf1 Hf2]. cbn [foldl].
  destruct (slew_advance_spec s (slew_now o) Hs) as (A1 & _ & _ & _ & _ & A6).
  assert (Hstep : slew_ok (slew_step s o) /\ last_advance (slew_step s o) = last_advance (advance s (slew_now o)).2 /\ applied_us (slew_step s o) = applied_us (advance s (slew_now o)).2).
  { destruct o as [d r now|now]; cbn in *; [|done]. destruct Hw1 as [Hd Hr]. unfold is_u32 in *. split; [apply retarget_ok; [done|lia|lia]|done]. }
  destruct Hstep as (S1 & S2 & S3). destruct Hs as [_ _ Hr]. unfold MIN_SLEW_US_PER_S, MAX_SLEW_US_PER_S in Hr.
  assert (Hmove : last_advance s <= last_advance (slew_step s o) <= t /\ 100000 * Z.abs (applied_us (slew_step s o) - applied_us s) <= last_advance (slew_step s o) - last_advance s).
  { rewrite S2, S3. destruct A6 as [[E1 E2]|(E1 & A7 & A8)]; rewrite ?E1, ?E2; [lia|]. split; [lia|nia]. }
  destruct (IH (slew_step s o) S1 ltac:(lia) Hw2 Hf2) as (I1 & I2 & I3). split; [done|]. lia.
Qed.

(** Whatever a relay commands, the delay stays within a tenth of a second, and
    over any stretch it moves by at most one percent of the time that passed
    since it last moved before the stretch. *)
Theorem slew_is_gentle (t0 t : Z) (before ops : list SlewOp) :
  t0 <= t -> Forall slew_wire (before ++ ops) -> Forall (fun o => slew_now o <= t) (before ++ ops) ->
  let s := foldl slew_step (new_slew t0) before in
  let s' := foldl slew_step s ops in
  slew_ok s' /\ 100 * 1000 * Z.abs (applied_us s' - applied_us s) <= t - last_advance s.
Proof.
  intros Ht Hw Hf. apply Forall_app in Hw as [Hw1 Hw2]. apply Forall_app in Hf as [Hf1 Hf2]. cbv zeta.
  destruct (slew_run_ok before (new_slew t0) t (new_slew_ok t0) Ht Hw1 Hf1) as (B1 & B2 & _).
  destruct (slew_run_ok ops _ t B1 ltac:(lia) Hw2 Hf2) as (C1 & C2 & C3). split; [done|]. lia.
Qed.

(** Yet not all elapsed time counts: the part of a walk below a microsecond is
    dropped with its time, so twice 150 us at the fastest rate moves two
    microseconds where 300 us at once move three. *)
Lemma slew_loses_fractions :
  applied_us (foldl slew_step (new_slew 0) [Directed 10000 10000 0; Walked 150000; Walked 300000]) = 2 /\
  applied_us (foldl slew_step (new_slew 0) [Directed 10000 10000 0; Walked 300000]) = 3.
Proof. by vm_compute. Qed.

Lemma slew_is_gentle_witness :
  let s := foldl slew_step (new_slew 0) [Directed u32_max u32_max 0; Walked 1000000000] in
  let s' := foldl slew_step s [Directed 0 1 1500000000; Walked 2000000000] in
  applied_us s = 10000 /\ applied_us s' = 14950 /\ slew_ok s' /\ 100 * 1000 * Z.abs (applied_us s' - applied_us s) <= 2000000000 - last_advance s.
Proof.
  split; [by vm_compute|]. split; [by vm_compute|].
  apply (slew_is_gentle 0 2000000000 [Directed u32_max u32_max 0; Walked 1000000000] [Directed 0 1 1500000000; Walked 2000000000]).
  - vm_compute. discriminate.
  - repeat constructor; vm_compute; discriminate.
  - repeat constructor; vm_compute; discriminate.
Defined.

(** ** The client driver's turns ([client/src/driver/])

    One connection's loop and the reconnects around it, as far as a client's own
    turns and its leave go: the phase hold ([outbound.rs], [state.rs]), the flush
    a fresh connection opens with ([session.rs]), the outage buffer
    ([backoff.rs]), the redial classification ([run.rs], [reconnect.rs]), the
    teardown drain ([teardown.rs]) and the leave announcer
    ([leave_announcer.rs]).  Each arm of a [select!] is one step.  What the
    transport answers is an argument: [Env] for the hand-off of the turn a
    number is about to be given to.  Frames that bear on neither (chat, skins,
    drop requests, statistics, the loop-started announcement, lobby commands)
    are left out.  What a received datagram, a beacon or a
    flush does to the link is a step that puts another link in place. *)

Definition HELD_TURN_CAP : nat := 64.
Definition OUTAGE_OUTBOUND_BUFFER_CAP : nat := 256.

(** ** Errors *)

Inductive DriverError : Type :=
| DriverLink (e : LinkError)
| ControlStream
| ControlStreamLost
| GameStalled
| UnackedWindowExhausted (in_flight : Z)
| OutageBufferExhausted (buffered : Z)
| SlotDeparted
| EvidenceRejected
| Evicted (code : Z)
| TokenExpired.

Definition is_link_failure (e : DriverError) : bool :=
  match e with DriverLink _ | ControlStream | ControlStreamLost => true | _ => false end.

(** ** The leave announcer *)

Inductive LeaveState : Type := LeaveIdle | LeavePending (deadline : Z) | LeaveSent.

Record LeaveAnnouncer : Type := mkLeaveAnnouncer { leave_state : LeaveState; result_expected : bool; result_sent : bool }.

Definition new_announcer (expected : bool) : LeaveAnnouncer := mkLeaveAnnouncer LeaveIdle expected false.

Definition announcer_arm (a : LeaveAnnouncer) (now timeout : Z) : LeaveAnnouncer :=
  match leave_state a with
  | LeaveSent => a
  | _ => mkLeaveAnnouncer (LeavePending (now + timeout)) (result_expected a) (result_sent a)
  end.

Definition announcer_deadline (a : LeaveAnnouncer) : option Z :=
  match leave_state a with LeavePending deadline => Some deadline | _ => None end.

Definition announcer_sent (a : LeaveAnnouncer) : bool := match leave_state a with LeaveSent => true | _ => false end.

Definition note_result_sent (a : LeaveAnnouncer) : LeaveAnnouncer := mkLeaveAnnouncer (leave_state a) (result_expected a) true.

Definition mark_sent (a : LeaveAnnouncer) : LeaveAnnouncer := mkLeaveAnnouncer LeaveSent (result_expected a) (result_sent a).

Definition awaiting_result (a : LeaveAnnouncer) : bool := result_expected a && negb (result_sent a).

Definition ready_to_send (a : LeaveAnnouncer) (outbound_empty : bool) (in_flight : Z) : bool :=
  match leave_state a with LeavePending _ => true | _ => false end && negb (awaiting_result a) && outbound_empty && (in_flight =? 0).

Definition absorb_link_close (a : LeaveAnnouncer) (e : DriverError) : result unit DriverError :=
  if announcer_sent a then Ok tt else Err e.

(** ** The driver *)

(** The connection is up and its session about to open; it is served; it
    failed and is to be classified; it is redialled; the driver ended, with a
    result or in a panic. *)
Inductive Mode : Type :=
| Opening
| Serving
| Failed (e : DriverError)
| Down
| Over (r : result unit DriverError)
| Panicked.

(** What the driver has done, in order: turns numbered, retained and handed
    over, and leave intents written. *)
Inductive Event : Type := EvTurn (t : Payload) | EvIntent.

Record Driver : Type := mkDriver {
  d_link : Link;
  d_loop : LoopState;
  d_slew : PhaseSlew;
  d_held : list (Z * Payload);
  d_buffer : list Payload;
  d_channel : list Payload;
  d_ann : LeaveAnnouncer;
  d_mode : Mode;
  d_log : list Event;
}.

Definition set_link (d : Driver) (l : Link) : Driver := mkDriver l (d_loop d) (d_slew d) (d_held d) (d_buffer d) (d_channel d) (d_ann d) (d_mode d) (d_log d).
Definition set_loop (d : Driver) (st : LoopState) : Driver := mkDriver (d_link d) st (d_slew d) (d_held d) (d_buffer d) (d_channel d) (d_ann d) (d_mode d) (d_log d).
Definition set_slew (d : Driver) (s : PhaseSlew) : Driver := mkDriver (d_link d) (d_loop d) s (d_held d) (d_buffer d) (d_channel d) (d_ann d) (d_mode d) (d_log d).
Definition set_held (d : Driver) (h : list (Z * Payload)) : Driver := mkDriver (d_link d) (d_loop d) (d_slew d) h (d_buffer d) (d_channel d) (d_ann d) (d_mode d) (d_log d).
Definition set_buffer (d : Driver) (b : list Payload) : Driver := mkDriver (d_link d) (d_loop d) (d_slew d) (d_held d) b (d_channel d) (d_ann d) (d_mode d) (d_log d).
Definition set_channel (d : Driver) (c : list Payload) : Driver := mkDriver (d_link d) (d_loop d) (d_slew d) (d_held d) (d_buffer d) c (d_ann d) (d_mode d) (d_log d).
Definition set_ann (d : Driver) (a : LeaveAnnouncer) : Driver := mkDriver (d_link d) (d_loop d) (d_slew d) (d_held d) (d_buffer d) (d_channel d) a (d_mode d) (d_log d).
Definition set_mode (d : Driver) (m : Mode) : Driver := mkDriver (d_link d) (d_loop d) (d_slew d) (d_held d) (d_buffer d) (d_channel d) (d_ann d) m (d_log d).
Definition logged (d : Driver) (e : Event) : Driver := mkDriver (d_link d) (d_loop d) (d_slew d) (d_held d) (d_buffer d) (d_channel d) (d_ann d) (d_mode d) (d_log d ++ [e]).

Definition new_driver (l : Link) (now : Z) (expected : bool) : Driver :=
  mkDriver l initial_state (new_slew now) [] [] [] (new_announcer expected) Opening [].

(** [ArmFlow], with a panic of the task. *)
Inductive Flow : Type := Serve | Teardown | EndWith (r : result unit DriverError) | Panics.

(** The transport's answers: the live datagram budget, its verdict on a packet,
    and whether a turn and a leave intent can be written to the control
    stream. *)
Record Env : Type := mkEnv { e_live : option Z; e_sd : Packet -> datagram_outcome; e_control : bool; e_intent : bool }.

Section Driver.
Context `{!Prost}.
Variables (env : Z -> Env) (own_slot : Z).

Definition env_now (d : Driver) : Env := env (next_outbound_seq (d_loop d)).

Definition flow_of (a : LeaveAnnouncer) (v : OutboundSend) : Flow :=
  match v with
  | TurnSent => Serve
  | EndSizing e => EndWith (Err (DriverLink e))
  | EndSend e => EndWith (absorb_link_close a (DriverLink e))
  | EndWindowExhausted n => EndWith (Err (UnackedWindowExhausted n))
  | EndControl => EndWith (absorb_link_close a ControlStream)
  end.

(** [send_game_turn] with its caller's reading of the outcome. *)
Definition hand_off (d : Driver) (p : Payload) : Flow * Driver :=
  let e := env_now d in
  let d1 := logged d (EvTurn (stamp_turn (d_loop d) own_slot p)) in
  match send_game_turn (e_live e) (e_sd e) (e_control e) (d_link d) (d_loop d) own_slot p with
  | None => (Panics, set_loop d1 (retain_turn (d_loop d) own_slot p))
  | Some (v, _, _, l, st) => (flow_of (d_ann d) v, set_loop (set_link d1 l) st)
  end.

Definition then_do (r : Flow * Driver) (k : Driver -> Flow * Driver) : Flow * Driver :=
  match r.1 with Serve => k r.2 | _ => r end.

Definition in_flight (d : Driver) : Z := Z.of_nat (payloads_in_flight (acks (d_link d))).

Definition is_nil {A} (l : list A) : bool := match l with [] => true | _ => false end.

Definition maybe_send (d : Driver) : Flow * Driver :=
  if ready_to_send (d_ann d) (is_nil (d_channel d) && is_nil (d_held d)) (in_flight d) then
    if e_intent (env_now d) then (Serve, logged (set_ann d (mark_sent (d_ann d))) EvIntent)
    else (EndWith (Err ControlStream), d)
  else (Serve, d).

Definition force_send (d : Driver) : Flow * Driver :=
  if e_intent (env_now d) then (Serve, logged (set_ann d (mark_sent (d_ann d))) EvIntent)
  else (EndWith (Err ControlStream), d).

(** ** Opening a connection's session *)

Fixpoint flush_held (l : list (Z * Payload)) (d : Driver) : Flow * Driver :=
  match l with
  | [] => (Serve, d)
  | (_, p) :: rest => then_do (hand_off (set_held d rest) p) (fun d => then_do (maybe_send d) (flush_held rest))
  end.

Fixpoint flush_buffer (l : list Payload) (d : Driver) : Flow * Driver :=
  match l with
  | [] => (Serve, d)
  | p :: rest => then_do (hand_off (set_buffer d rest) p) (fun d => then_do (maybe_send d) (flush_buffer rest))
  end.

(** The head of [session_body]: the staged turns onto the control stream, then
    the held turns, then those the outage buffered. *)
Definition session_open (writes : list Payload -> Payload -> bool) (d : Driver) : Flow * Driver :=
  let '(_, staged, ok) := redivert_pending_control writes [] (pending_control_redivert (d_loop d)) in
  let d := set_loop d (mkLoopState (next_outbound_seq (d_loop d)) (retention (d_loop d)) staged) in
  if ok then then_do (flush_held (d_held d) d) (fun d => flush_buffer (d_buffer d) d)
  else (EndWith (absorb_link_close (d_ann d) ControlStream), d).

(** ** The arms *)

Fixpoint send_over_cap (l : list (Z * Payload)) (d : Driver) : Flow * Driver :=
  match l with
  | (_, p) :: rest =>
      if (HELD_TURN_CAP <? length l)%nat then then_do (hand_off (set_held d rest) p) (send_over_cap rest)
      else (Serve, d)
  | [] => (Serve, d)
  end.

Definition on_outgoing_turn (now : Z) (d : Driver) (p : Payload) : Flow * Driver :=
  let '(delay_us, slew) := advance (d_slew d) now in
  let d := set_slew d slew in
  if (delay_us =? 0) && is_nil (d_held d) then then_do (hand_off d p) maybe_send
  else
    let due := now + delay_us * 1000 in
    let due := match last (d_held d) with Some (prev, _) => Z.max due prev | None => due end in
    let held := d_held d ++ [(due, p)] in
    send_over_cap held (set_held d held).

Fixpoint send_held_due (now : Z) (l : list (Z * Payload)) (d : Driver) : Flow * Driver :=
  match l with
  | (due, p) :: rest => if due <=? now then then_do (hand_off (set_held d rest) p) (send_held_due now rest) else (Serve, d)
  | [] => (Serve, d)
  end.

Definition on_held_due (now : Z) (d : Driver) : Flow * Driver := then_do (send_held_due now (d_held d) d) maybe_send.

Definition on_leave_signal (now timeout : Z) (d : Driver) : Flow * Driver :=
  maybe_send (set_ann d (announcer_arm (d_ann d) now timeout)).

Definition on_result (d : Driver) : Flow * Driver :=
  if result_sent (d_ann d) || announcer_sent (d_ann d) then (Serve, d)
  else maybe_send (set_ann d (note_result_sent (d_ann d))).

(** The link took in a datagram or a beacon. *)
Definition on_link (l : Link) (d : Driver) : Flow * Driver :=
  let d := set_link d l in
  match window_cap_error l with
  | Some n => (EndWith (Err (UnackedWindowExhausted n)), d)
  | None => maybe_send d
  end.

(** ** Teardown *)

Fixpoint drain_held (l : list (Z * Payload)) (d : Driver) : Flow * Driver :=
  match l with
  | [] => (Serve, d)
  | (_, p) :: rest => then_do (hand_off (set_held d rest) p) (drain_held rest)
  end.

Fixpoint drain_channel (l : list Payload) (d : Driver) : Flow * Driver :=
  match l with
  | [] => (Serve, d)
  | p :: rest => then_do (hand_off (set_channel d rest) p) (drain_channel rest)
  end.

(** [leave] and [res]: whether a leave signal and a result are still queued;
    [settled], [link_gone]: what the datagram fence left. *)
Definition drain_and_settle (now timeout : Z) (leave res : bool) (settled : Link) (link_gone : bool) (d : Driver) : Flow * Driver :=
  then_do (drain_held (d_held d) d) (fun d =>
  then_do (drain_channel (d_channel d) d) (fun d =>
  let a := if leave then announcer_arm (d_ann d) now timeout else d_ann d in
  let a := if res && negb (result_sent a) && negb (announcer_sent a) then note_result_sent a else a in
  let d := set_link (set_ann d a) settled in
  if link_gone then (Serve, d)
  else
    let absorbed (r : Flow * Driver) := match r.1 with EndWith (Err e) => (EndWith (absorb_link_close (d_ann r.2) e), r.2) | _ => r end in
    then_do (absorbed (maybe_send d)) (fun d =>
    match announcer_deadline (d_ann d) with Some _ => absorbed (force_send d) | None => (Serve, d) end))).

(** ** Steps *)

Inductive Step : Type :=
| Produce (p : Payload)
| Open (writes : list Payload -> Payload -> bool)
| Outgoing (now : Z)
| HeldDue (now : Z)
| Directive (delay_us slew_us_per_s now : Z)
| LeaveSignal (now timeout : Z)
| LeaveTimeout
| GameResult
| LinkMoves (l : Link)
| LinkDies (e : LinkError)
| ControlDies
| GameStalls
| GameCloses (now timeout : Z) (leave res : bool) (settled : Link) (link_gone : bool)
| Redial (evicted : option Z) (seam_closed : bool)
| OutageTurn
| Resumed (rehomed : bool) (live : option Z)
| GiveUp (e : DriverError)
| GameGone.

(** What the callers of [session] make of how it ended. *)
Definition session_ends (r : result unit DriverError) : Mode :=
  match r with
  | Ok _ => Over (Ok tt)
  | Err e => if is_link_failure e then Failed e else Over (Err e)
  end.

(** An arm's flow: go on serving, or leave the session. *)
Definition settle (r : Flow * Driver) : Driver :=
  match r.1 with
  | Serve => set_mode r.2 Serving
  | Teardown => set_mode r.2 (Over (Ok tt))
  | EndWith res => set_mode r.2 (session_ends res)
  | Panics => set_mode r.2 Panicked
  end.

Definition serving (d : Driver) (k : Driver -> Flow * Driver) : Driver :=
  match d_mode d with Serving => settle (k d) | _ => d end.

(** [run_reconnecting] on a failed session: an eviction ends the driver, a
    closed seam keeps the error, anything else is dialled again. *)
Definition on_redial (evicted : option Z) (seam_closed : bool) (d : Driver) : Driver :=
  match d_mode d with
  | Failed e =>
      match evicted with
      | Some code => set_mode d (Over (Err (Evicted code)))
      | None => set_mode d (if seam_closed then Over (Err e) else Down)
      end
  | _ => d
  end.

(** A turn taken while [wait_backoff] or [await_rehome] waits. *)
Definition on_outage_turn (d : Driver) : Driver :=
  match d_mode d, d_channel d with
  | Down, p :: rest =>
      let d := set_buffer (set_channel d rest) (d_buffer d ++ [p]) in
      if (OUTAGE_OUTBOUND_BUFFER_CAP <? length (d_buffer d))%nat
      then set_mode d (Over (Err (OutageBufferExhausted (Z.of_nat (length (d_buffer d)))))) else d
  | _, _ => d
  end.

(** A dial of [reconnect_link] succeeded, on the same relay or another. *)
Definition on_resumed (rehomed : bool) (live : option Z) (d : Driver) : Driver :=
  match d_mode d with
  | Down =>
      let l := rebind (d_link d) in
      let r := if rehomed then reinject_retention live l (d_loop d)
               else (l, redivert_oversize_retention_on_same_relay_resume live (d_loop d)) in
      set_mode (set_loop (set_link d r.1) r.2) Opening
  | _ => d
  end.

Definition driver_step (d : Driver) (s : Step) : Driver :=
  match s with
  | Produce p => set_channel d (d_channel d ++ [p])
  | Open writes => match d_mode d with Opening => settle (session_open writes d) | _ => d end
  | Outgoing now =>
      serving d (fun d => match d_channel d with p :: rest => on_outgoing_turn now (set_channel d rest) p | [] => (Serve, d) end)
  | HeldDue now => serving d (on_held_due now)
  | Directive delay_us slew now => serving d (fun d => (Serve, set_slew d (retarget (d_slew d) delay_us slew now)))
  | LeaveSignal now timeout => serving d (on_leave_signal now timeout)
  | LeaveTimeout => serving d (fun d => match announcer_deadline (d_ann d) with Some _ => force_send d | None => (Serve, d) end)
  | GameResult => serving d on_result
  | LinkMoves l => serving d (on_link l)
  | LinkDies e => serving d (fun d => (EndWith (absorb_link_close (d_ann d) (DriverLink e)), d))
  | ControlDies => serving d (fun d => (EndWith (absorb_link_close (d_ann d) ControlStreamLost), d))
  | GameStalls => serving d (fun d => (EndWith (Err GameStalled), d))
  | GameCloses now timeout leave res settled gone =>
      serving d (fun d => then_do (drain_and_settle now timeout leave res settled gone d) (fun d => (Teardown, d)))
  | Redial evicted seam_closed => on_redial evicted seam_closed d
  | OutageTurn => on_outage_turn d
  | Resumed rehomed live => on_resumed rehomed live d
  | GiveUp e => match d_mode d with Down => set_mode d (Over (Err e)) | _ => d end
  | GameGone => match d_mode d with Down => set_mode d (Over (Ok tt)) | _ => d end
  end.

Definition driver_run (d : Driver) (steps : list Step) : Driver := foldl driver_step d steps.

End Driver.
