(* ===== verification/DriverRun.v ===== *)
(** * The client driver over time

    The turns a driver delivers come in order, and what its announcements of
    leaves say. *)

From Stdlib Require Import ZArith Lia.
From stdpp Require Import list sorting.
From S2P Require Import Prelude.
From S2P Require Import Wire.
From S2P Require Import AckManager.
From S2P Require Import Dedup.
From S2P Require Import Link.
From S2P Require Import Retention.
From S2P Require Import Driver.

Open Scope Z_scope.

(** ** The client's turns keep their order across outages

    What [Driver] numbers is what the game produced, in that order and without
    gaps, whatever fails, and nothing produced is forgotten before the driver
    ends; a leave announced while serving follows all of it. *)

(** The turns of a log, and what the game produced in a run. *)
Definition log_turns (l : list Event) : list Payload := omap (fun e => match e with EvTurn t => Some t | EvIntent => None end) l.
Definition produced (steps : list Step) : list Payload := omap (fun s => match s with Produce p => Some p | _ => None end) steps.

(** Produced and not numbered yet, oldest first. *)
Definition unsent (d : Driver) : list Payload := map snd (d_held d) ++ d_buffer d ++ d_channel d.

Section Order.
Context {prost : Prost}.
Variables (env : Z -> Env) (own_slot : Z).
Implicit Types (d : Driver).

(** [ps] have been numbered, in this order from zero, and retained. *)
Record numbered (ps : list Payload) (d : Driver) : Prop := mkNumbered {
  nb_log : log_turns (d_log d) = stamped own_slot ps;
  nb_seq : next_outbound_seq (d_loop d) = Z.of_nat (length ps);
  nb_ring : retention (d_loop d) = foldl push default_retention (stamped own_slot ps);
}.

(** The driver moved turns from the front of the queue to the link. *)
Record advances (d d' : Driver) : Prop := mkAdvances {
  av_numbered : forall ps, numbered ps d -> exists qs, numbered (ps ++ qs) d' /\ qs ++ unsent d' = unsent d;
  av_held : exists l, d_held d = l ++ d_held d';
  av_buffer : exists l, d_buffer d = l ++ d_buffer d';
  av_mode : d_mode d' = d_mode d;
}.

Lemma moves_refl d : advances d d.
Proof. split; [intros ps H; exists []; rewrite app_nil_r; by split|by exists []|by exists []|done]. Qed.

Lemma moves_trans d1 d2 d3 : advances d1 d2 -> advances d2 d3 -> advances d1 d3.
Proof.
  intros [N1 [h1 H1] [b1 B1] M1] [N2 [h2 H2] [b2 B2] M2]. split; [|exists (h1 ++ h2); rewrite H1, H2; apply app_assoc|exists (b1 ++ b2); rewrite B1, B2; apply app_assoc|congruence].
  intros ps Hp. destruct (N1 ps Hp) as (qs & Hq & Eq). destruct (N2 _ Hq) as (rs & Hr & Er). exists (qs ++ rs). split; [by rewrite app_assoc|]. by rewrite <- Eq, <- Er, <- app_assoc.
Qed.

(** What leaves the turns alone. *)
Lemma advances_same d d' : log_turns (d_log d') = log_turns (d_log d) -> next_outbound_seq (d_loop d') = next_outbound_seq (d_loop d) ->
  retention (d_loop d') = retention (d_loop d) -> d_held d' = d_held d -> d_buffer d' = d_buffer d -> d_channel d' = d_channel d -> d_mode d' = d_mode d -> advances d d'.
Proof.
  intros E1 E2 E3 E4 E5 E6 E7. split; [|exists []; by rewrite E4|exists []; by rewrite E5|done].
  intros ps [N1 N2 N3]. exists []. rewrite app_nil_r. split; [split; congruence|]. unfold unsent. by rewrite E4, E5, E6.
Qed.

Lemma stamped_snoc ps p st : next_outbound_seq st = Z.of_nat (length ps) -> stamped own_slot (ps ++ [p]) = stamped own_slot ps ++ [stamp_turn st own_slot p].
Proof. intros E. unfold stamped. rewrite imap_app. cbn. unfold compose, stamp_turn. by rewrite E, Nat.add_0_r. Qed.

Lemma send_game_turn_state live sd cw l st p v w c l' st' :
  send_game_turn live sd cw l st own_slot p = Some (v, w, c, l', st') -> st' = retain_turn st own_slot p.
Proof.
  unfold send_game_turn. destruct (payload_fits live (stamp_turn st own_slot p)) as [[]|]; [|by intros [= <- <- <- <- <-]|by intros [= <- <- <- <- <-]].
  destruct (send_packet live sd l (Some (stamp_turn st own_slot p))) as [[[r w'] l'']|]; [|done]. cbn. by intros [= <- <- <- <- <-].
Qed.

(** The frame of a hand-off, and its number. *)
Lemma hand_off_spec d p : let d' := (hand_off env own_slot d p).2 in
  d_held d' = d_held d /\ d_buffer d' = d_buffer d /\ d_channel d' = d_channel d /\ d_mode d' = d_mode d /\
  forall ps, numbered ps d -> numbered (ps ++ [p]) d'.
Proof.
  cbv zeta. unfold hand_off.
  assert (Hgo : forall l, let d' := set_loop (set_link (logged d (EvTurn (stamp_turn (d_loop d) own_slot p))) l) (retain_turn (d_loop d) own_slot p) in
    d_held d' = d_held d /\ d_buffer d' = d_buffer d /\ d_channel d' = d_channel d /\ d_mode d' = d_mode d /\ forall ps, numbered ps d -> numbered (ps ++ [p]) d').
  { intros l. cbv zeta. split; [done|]. split; [done|]. split; [done|]. split; [done|]. intros ps [N1 N2 N3]. split; cbn.
    - rewrite (stamped_snoc ps p (d_loop d)) by done. rewrite <- N1. unfold log_turns. by rewrite omap_app.
    - rewrite length_app. cbn. lia.
    - rewrite (stamped_snoc ps p (d_loop d)) by done. by rewrite foldl_app, <- N3. }
  destruct (send_game_turn _ _ _ _ _ _ _) as [[[[[v w] c] l] st]|] eqn:E; [|exact (Hgo (d_link d))].
  apply send_game_turn_state in E as ->. exact (Hgo l).
Qed.

(** Taking the oldest turn of the queue and handing it over. *)
Lemma hand_off_advances d d1 p : d_log d1 = d_log d -> d_loop d1 = d_loop d -> d_mode d1 = d_mode d ->
  p :: unsent d1 = unsent d -> (exists l, d_held d = l ++ d_held d1) -> (exists l, d_buffer d = l ++ d_buffer d1) ->
  advances d (hand_off env own_slot d1 p).2.
Proof.
  intros E1 E2 E3 E4 H5 H6. destruct (hand_off_spec d1 p) as (K1 & K2 & K3 & K4 & K5). split; [|by rewrite K1|by rewrite K2|congruence].
  intros ps [N1 N2 N3]. exists [p]. split; [apply K5; split; congruence|]. rewrite <- E4. unfold unsent. by rewrite K1, K2, K3.
Qed.

Lemma then_do_case r k : then_do r k = match r.1 with Serve => k r.2 | _ => r end.
Proof. done. Qed.

Lemma then_do_advances d r k : advances d r.2 -> (forall d1, advances d d1 -> advances d (k d1).2) -> advances d (then_do r k).2.
Proof. intros H1 H2. unfold then_do. destruct r as [[] d1]; [by apply H2|exact H1..]. Qed.

Lemma maybe_send_advances d : advances d (maybe_send env d).2.
Proof.
  unfold maybe_send. destruct (ready_to_send _ _ _); [|apply moves_refl]. destruct (e_intent _); [|apply moves_refl].
  apply advances_same; try done. cbn. unfold log_turns. rewrite omap_app. cbn. by rewrite app_nil_r.
Qed.

Lemma force_send_advances d : advances d (force_send env d).2.
Proof.
  unfold force_send. destruct (e_intent _); [|apply moves_refl]. apply advances_same; try done. cbn. unfold log_turns. rewrite omap_app. cbn. by rewrite app_nil_r.
Qed.

(** The queues after a leave is or is not written. *)
Lemma maybe_send_frame d : let d' := (maybe_send env d).2 in d_held d' = d_held d /\ d_buffer d' = d_buffer d /\ d_channel d' = d_channel d.
Proof. cbv zeta. unfold maybe_send. destruct (ready_to_send _ _ _); [|done]. by destruct (e_intent _). Qed.

(** A turn leaves the front of the hold queue, with nothing before it. *)
Lemma pop_held d due p rest : d_held d = (due, p) :: rest ->
  let r := hand_off env own_slot (set_held d rest) p in
  advances d r.2 /\ d_held r.2 = rest /\ d_buffer r.2 = d_buffer d /\ d_channel r.2 = d_channel d.
Proof.
  intros E. cbv zeta. destruct (hand_off_spec (set_held d rest) p) as (K1 & K2 & K3 & _). split; [|done].
  apply (hand_off_advances d (set_held d rest) p); [done|done|done| |exists [(due, p)]; by rewrite E|by exists []]. unfold unsent. cbn. by rewrite E.
Qed.

Lemma flush_held_spec l : forall d, d_held d = l -> let r := flush_held env own_slot l d in
  advances d r.2 /\ d_buffer r.2 = d_buffer d /\ d_channel r.2 = d_channel d /\ (r.1 = Serve -> d_held r.2 = []).
Proof.
  induction l as [|[due p] rest IH]; intros d E; cbv zeta; cbn [flush_held]; [split; [apply moves_refl|done]|].
  destruct (pop_held d due p rest E) as (A & K1 & K2 & K3). rewrite then_do_case. destruct (hand_off env own_slot (set_held d rest) p) as [fl d1]. cbn [fst snd] in *.
  destruct fl; cbn [fst snd]; [|by split..]. pose proof (maybe_send_advances d1) as M. destruct (maybe_send_frame d1) as (M1 & M2 & M3). rewrite then_do_case. destruct (maybe_send env d1) as [fl d2]. cbn [fst snd] in *.
  destruct fl; cbn [fst snd]; [|split; [by eapply moves_trans|]; split; [congruence|]; split; [congruence|done]..].
  destruct (IH d2 ltac:(congruence)) as (I1 & I2 & I3 & I4). split; [eapply moves_trans; [exact A|]; by eapply moves_trans|]. split; [congruence|]. split; [congruence|done].
Qed.

Lemma flush_buffer_spec l : forall d, d_held d = [] -> d_buffer d = l -> let r := flush_buffer env own_slot l d in
  advances d r.2 /\ d_held r.2 = [] /\ (r.1 = Serve -> d_buffer r.2 = []).
Proof.
  induction l as [|p rest IH]; intros d Eh E; cbv zeta; cbn [flush_buffer]; [split; [apply moves_refl|done]|].
  destruct (hand_off_spec (set_buffer d rest) p) as (K1 & K2 & K3 & _).
  assert (A : advances d (hand_off env own_slot (set_buffer d rest) p).2).
  { apply hand_off_advances; [done|done|done| |by exists []|exists [p]; by rewrite E]. unfold unsent. cbn. by rewrite E, Eh. }
  rewrite then_do_case. destruct (hand_off env own_slot (set_buffer d rest) p) as [fl d1]. cbn [fst snd] in *.
  destruct fl; cbn [fst snd]; [|split; [done|]; split; [rewrite K1; done|done]..]. pose proof (maybe_send_advances d1) as M. destruct (maybe_send_frame d1) as (M1 & M2 & M3). rewrite then_do_case. destruct (maybe_send env d1) as [fl d2]. cbn [fst snd] in *.
  destruct fl; cbn [fst snd]; [|split; [by eapply moves_trans|]; split; [rewrite M1, K1; done|done]..].
  destruct (IH d2 ltac:(rewrite M1, K1; done) ltac:(by rewrite M2, K2)) as (I1 & I2 & I3). split; [eapply moves_trans; [exact A|]; by eapply moves_trans|]. by split.
Qed.

Lemma session_open_spec writes d : let r := session_open env own_slot writes d in
  advances d r.2 /\ (r.1 = Serve -> d_held r.2 = [] /\ d_buffer r.2 = []).
Proof.
  cbv zeta. unfold session_open. destruct (redivert_pending_control _ _ _) as [[w staged] ok]. set (d0 := set_loop d _). assert (A0 : advances d d0) by by apply advances_same.
  destruct ok; [|done]. destruct (flush_held_spec (d_held d0) d0 eq_refl) as (A1 & B1 & _ & H1). rewrite then_do_case. destruct (flush_held env own_slot (d_held d0) d0) as [fl d1]. cbn [fst snd] in *.
  destruct fl; cbn [fst snd]; [|split; [by eapply moves_trans|done]..]. destruct (flush_buffer_spec (d_buffer d1) d1 (H1 eq_refl) eq_refl) as (A2 & H2 & B2).
  split; [eapply moves_trans; [exact A0|]; by eapply moves_trans|]. intros E. split; [done|by apply B2].
Qed.

(** Loops that only empty the hold queue. *)
Lemma send_over_cap_spec l : forall d, d_held d = l -> let r := send_over_cap env own_slot l d in
  advances d r.2 /\ d_buffer r.2 = d_buffer d /\ d_channel r.2 = d_channel d /\ (length (d_held r.2) <= Nat.max HELD_TURN_CAP (length l - 1))%nat.
Proof.
  induction l as [|[due p] rest IH]; intros d E; cbv zeta; cbn [send_over_cap]; [split; [apply moves_refl|]; cbn [fst snd]; rewrite E; cbn [length]; split; [done|]; split; [done|lia]|].
  destruct (Nat.ltb_spec HELD_TURN_CAP (length ((due, p) :: rest))) as [Hc|Hc]; [|split; [apply moves_refl|]; cbn [snd]; rewrite E; split; [done|]; split; [done|lia]].
  destruct (pop_held d due p rest E) as (A & K1 & K2 & K3). rewrite then_do_case. destruct (hand_off env own_slot (set_held d rest) p) as [fl d1]. cbn [fst snd] in *.
  destruct fl; cbn [fst snd]; [|split; [done|]; split; [done|]; split; [done|]; rewrite K1; cbn [length]; lia..].
  destruct (IH d1 K1) as (I1 & I2 & I3 & I4). split; [by eapply moves_trans|]. split; [congruence|]. split; [congruence|]. cbn [length]. lia.
Qed.

Lemma send_held_due_spec now l : forall d, d_held d = l -> advances d (send_held_due env own_slot now l d).2.
Proof.
  induction l as [|[due p] rest IH]; intros d E; cbn [send_held_due]; [apply moves_refl|]. destruct (due <=? now); [|apply moves_refl].
  destruct (pop_held d due p rest E) as (A & K1 & _). rewrite then_do_case. destruct (hand_off env own_slot (set_held d rest) p) as [fl d1]. cbn [fst snd] in *.
  destruct fl; cbn [fst snd]; [|done..]. eapply moves_trans; [exact A|by apply IH].
Qed.

Lemma drain_held_spec l : forall d, d_held d = l -> let r := drain_held env own_slot l d in
  advances d r.2 /\ d_buffer r.2 = d_buffer d /\ (r.1 = Serve -> d_held r.2 = []).
Proof.
  induction l as [|[due p] rest IH]; intros d E; cbv zeta; cbn [drain_held]; [split; [apply moves_refl|done]|].
  destruct (pop_held d due p rest E) as (A & K1 & K2 & _). rewrite then_do_case. destruct (hand_off env own_slot (set_held d rest) p) as [fl d1]. cbn [fst snd] in *.
  destruct fl; cbn [fst snd]; [|by split..]. destruct (IH d1 K1) as (I1 & I2 & I3). split; [by eapply moves_trans|]. split; [congruence|done].
Qed.

Lemma drain_channel_spec l : forall d, d_held d = [] -> d_buffer d = [] -> d_channel d = l -> advances d (drain_channel env own_slot l d).2.
Proof.
  induction l as [|p rest IH]; intros d Eh Eb E; cbn [drain_channel]; [apply moves_refl|]. destruct (hand_off_spec (set_channel d rest) p) as (K1 & K2 & K3 & _).
  assert (A : advances d (hand_off env own_slot (set_channel d rest) p).2).
  { apply hand_off_advances; [done|done|done| |by exists []|by exists []]. unfold unsent. cbn. by rewrite E, Eh, Eb. }
  rewrite then_do_case. destruct (hand_off env own_slot (set_channel d rest) p) as [fl d1]. cbn [fst snd] in *. destruct fl; cbn [fst snd]; [|done..].
  eapply moves_trans; [exact A|]. apply IH; [rewrite K1|rewrite K2|]; done.
Qed.

Lemma drain_and_settle_advances now timeout leave res settled gone d : d_buffer d = [] ->
  advances d (drain_and_settle env own_slot now timeout leave res settled gone d).2.
Proof.
  intros Eb. unfold drain_and_settle. destruct (drain_held_spec (d_held d) d eq_refl) as (A1 & B1 & H1). rewrite then_do_case. destruct (drain_held env own_slot (d_held d) d) as [fl d1]. cbn [fst snd] in *.
  destruct fl; cbn [fst snd]; [|done..]. eapply moves_trans; [exact A1|]. pose proof (drain_channel_spec (d_channel d1) d1 (H1 eq_refl) ltac:(by rewrite B1) eq_refl) as A2.
  rewrite then_do_case. destruct (drain_channel env own_slot (d_channel d1) d1) as [fl d2]. cbn [fst snd] in *. destruct fl; cbn [fst snd]; [|done..]. eapply moves_trans; [exact A2|].
  set (a := if leave then _ else _). set (a' := if _ && _ then _ else a). set (d3 := set_link (set_ann d2 a') settled). assert (A3 : advances d2 d3) by by apply advances_same.
  destruct gone; [done|]. eapply moves_trans; [exact A3|]. apply then_do_advances.
  - pose proof (maybe_send_advances d3) as M. destruct (maybe_send env d3) as [fl d4]. cbn in *. by destruct fl as [| |[]|].
  - intros d4 A4. eapply moves_trans; [exact A4|]. destruct (announcer_deadline (d_ann d4)); [|apply moves_refl].
    pose proof (force_send_advances d4) as M. destruct (force_send env d4) as [fl d5]. cbn in *. by destruct fl as [| |[]|].
Qed.

(** ** The invariant *)

Record drv_inv (all : list Payload) (d : Driver) : Prop := mkDrvInv {
  di_turns : exists ps, numbered ps d /\ ps ++ unsent d = all;
  di_held : (length (d_held d) <= HELD_TURN_CAP)%nat;
  di_due : StronglySorted Z.le (map fst (d_held d));
  di_full : (length (d_buffer d) <= S OUTAGE_OUTBOUND_BUFFER_CAP)%nat;
  di_buffer : (forall r, d_mode d <> Over r) -> (length (d_buffer d) <= OUTAGE_OUTBOUND_BUFFER_CAP)%nat;
  di_serving : d_mode d = Serving -> d_buffer d = [];
}.

(** Moving turns to the link keeps it, in whatever mode that ends. *)
Lemma advances_inv all d d' m : drv_inv all d -> (forall r, d_mode d <> Over r) -> advances d d' ->
  (m = Serving -> d_buffer d' = []) -> drv_inv all (set_mode d' m).
Proof.
  intros [(ps & Np & Ep) Hh Hd Hf Hb Hs] Hm [N [l Hl] [b Hb'] M] Hserve. destruct (N ps Np) as (qs & [Q1 Q2 Q3] & Eq).
  assert (Hlen : (length (d_buffer d') <= OUTAGE_OUTBOUND_BUFFER_CAP)%nat) by (specialize (Hb Hm); rewrite Hb', length_app in Hb; lia).
  split; cbn [d_mode d_buffer d_held set_mode]; [| | |lia|done|done].
  - exists (ps ++ qs). split; [by split|]. rewrite <- app_assoc. by rewrite <- Ep, <- Eq.
  - rewrite Hl, length_app in Hh. lia.
  - rewrite Hl, map_app in Hd. by apply StronglySorted_app_1_r in Hd.
Qed.

Lemma settle_inv all d r : drv_inv all d -> (forall res, d_mode d <> Over res) -> advances d r.2 -> (r.1 = Serve -> d_buffer r.2 = []) -> drv_inv all (settle r).
Proof.
  intros Hi Hm Ha Hs. unfold settle. destruct r as [fl d']. cbn [fst snd] in *. destruct fl as [| |res|]; (eapply advances_inv; [exact Hi|done|done|]); [by intros _; apply Hs|done| |done].
  destruct res as [|e]; cbn; [done|]. by destruct (is_link_failure e).
Qed.

Lemma serving_inv all d k : drv_inv all d -> (d_mode d = Serving -> advances d (k d).2) -> drv_inv all (serving d k).
Proof.
  intros Hi Hk. unfold serving. destruct (d_mode d) eqn:Em; try done. specialize (Hk eq_refl). apply (settle_inv all d); [done|by rewrite Em|done|].
  intros _. pose proof (di_serving _ _ Hi Em) as Hb. destruct Hk as [_ _ [b Hb'] _]. rewrite Hb in Hb'. by destruct b, (d_buffer (k d).2).
Qed.

Lemma mode_inv all d m : drv_inv all d -> (forall r, d_mode d <> Over r) -> m <> Serving -> drv_inv all (set_mode d m).
Proof. intros Hi Hm Hn. apply (advances_inv all d); [done|done|apply moves_refl|done]. Qed.

Lemma outgoing_inv all now d p rest : drv_inv all d -> d_mode d = Serving -> d_channel d = p :: rest ->
  drv_inv all (settle (on_outgoing_turn env own_slot now (set_channel d rest) p)).
Proof.
  intros Hi Em Ec. pose proof (di_serving _ _ Hi Em) as Eb. assert (Hm : forall r, d_mode d <> Over r) by by rewrite Em.
  unfold on_outgoing_turn. destruct (advance (d_slew (set_channel d rest)) now) as [delay slew]. set (d1 := set_slew (set_channel d rest) slew).
  destruct ((delay =? 0) && is_nil (d_held d1)) eqn:Ez.
  - assert (Eh : d_held d = []). { apply andb_true_iff in Ez as [_ Ez]. cbn in Ez. by destruct (d_held d). }
    assert (A : advances d (then_do (hand_off env own_slot d1 p) (maybe_send env)).2).
    { apply then_do_advances; [|intros d2 A; eapply moves_trans; [exact A|apply maybe_send_advances]].
      apply hand_off_advances; [done|done|done| |by exists []|by exists []]. unfold unsent. cbn. by rewrite Ec, Eh, Eb. }
    apply (settle_inv all d); [done|done|done|]. intros _. destruct A as [_ _ [b Hb] _]. rewrite Eb in Hb. by destruct b, (d_buffer (then_do _ _).2).
  - set (due := match last (d_held d1) with Some (prev, _) => _ | None => _ end). set (d2 := set_held d1 (d_held d1 ++ [(due, p)])).
    destruct (send_over_cap_spec (d_held d1 ++ [(due, p)]) d2 eq_refl) as ([N [l Hl] [b Hb] M] & B1 & _ & Hlen).
    destruct Hi as [(ps & [N1 N2 N3] & Ep) Hh Hd Hf Hbuf Hs]. destruct (N ps) as (qs & Hq & Eq); [by split|].
    assert (Hdue : StronglySorted Z.le (map fst (d_held d2))).
    { cbn. rewrite map_app. apply StronglySorted_app_2; [|done|repeat constructor]. intros x y Hx Hy. apply list_elem_of_singleton in Hy as ->. cbn [fst]. unfold due. cbn [d_held d1 set_slew set_channel].
      destruct (d_held d) as [|[prev q] h _] using rev_ind; [by apply elem_of_nil in Hx|]. rewrite last_snoc. rewrite map_app in Hx, Hd. apply StronglySorted_app in Hd as (Hd & _ & _).
      apply elem_of_app in Hx as [Hx|Hx]; [specialize (Hd x prev Hx ltac:(by apply list_elem_of_singleton)); lia|]. cbn in Hx. apply list_elem_of_singleton in Hx as ->. lia. }
    assert (Eu : unsent d2 = unsent d). { unfold unsent. cbn. rewrite Eb, Ec, map_app, <- app_assoc. done. }
    set (r := send_over_cap env own_slot (d_held d1 ++ [(due, p)]) d2) in *. enough (Hfin : forall m, drv_inv all (set_mode r.2 m)) by (unfold settle; destruct r.1; apply Hfin).
    assert (Eb2 : d_buffer r.2 = []) by (rewrite B1; exact Eb). intros m. split; cbn [d_mode d_buffer d_held set_mode]; rewrite ?Eb2; cbn [length]; [| | |lia|lia|done].
    + destruct Hq as [Q1 Q2 Q3]. exists (ps ++ qs). split; [by split|]. rewrite <- app_assoc, <- Ep, <- Eu, <- Eq. done.
    + rewrite length_app in Hlen. cbn [length d_held d1 set_slew set_channel] in Hlen. lia.
    + rewrite Hl, map_app in Hdue. by apply StronglySorted_app_1_r in Hdue.
Qed.

Lemma client_step_inv all d s : drv_inv all d -> drv_inv (all ++ produced [s]) (driver_step env own_slot d s).
Proof.
  intros Hi. destruct s as [p|writes|now|now|delay slew now|now timeout| | |l|e| | |now timeout leave res settled gone|ev closed| |rehomed live|e|]; cbn [driver_step produced omap list_omap]; unfold on_redial, on_outage_turn, on_resumed; rewrite ?app_nil_r.
  - destruct Hi as [(ps & [N1 N2 N3] & Ep) ? ? ? ? ?]. split; try done. exists ps. split; [by split|]. rewrite <- Ep. unfold unsent. cbn. by rewrite <- !app_assoc.
  - destruct (d_mode d) eqn:Em; try done. destruct (session_open_spec writes d) as [A B]. apply (settle_inv all d); [done|by rewrite Em|done|]. intros E. by apply B.
  - destruct (d_mode d) eqn:Em; unfold serving; rewrite Em; try done. destruct (d_channel d) as [|p rest] eqn:Ec; [|by apply outgoing_inv].
    apply (settle_inv all d); [done|by rewrite Em|apply moves_refl|]. intros _. by apply (di_serving _ _ Hi).
  - apply serving_inv; [done|]. intros _. unfold on_held_due. apply then_do_advances; [by apply send_held_due_spec|]. intros d1 A. eapply moves_trans; [exact A|apply maybe_send_advances].
  - apply serving_inv; [done|]. intros _. by apply advances_same.
  - apply serving_inv; [done|]. intros _. unfold on_leave_signal. eapply moves_trans; [|apply maybe_send_advances]. by apply advances_same.
  - apply serving_inv; [done|]. intros _. destruct (announcer_deadline _); [apply force_send_advances|apply moves_refl].
  - apply serving_inv; [done|]. intros _. unfold on_result. destruct (_ || _); [apply moves_refl|]. eapply moves_trans; [|apply maybe_send_advances]. by apply advances_same.
  - apply serving_inv; [done|]. intros _. unfold on_link. destruct (window_cap_error l); [by apply advances_same|]. eapply moves_trans; [|apply maybe_send_advances]. by apply advances_same.
  - apply serving_inv; [done|]. intros _. apply moves_refl.
  - apply serving_inv; [done|]. intros _. apply moves_refl.
  - apply serving_inv; [done|]. intros _. apply moves_refl.
  - apply serving_inv; [done|]. intros Em. apply then_do_advances; [apply drain_and_settle_advances, (di_serving _ _ Hi Em)|done].
  - destruct (d_mode d) eqn:Em; try done. destruct ev; [by apply mode_inv; [|rewrite Em|]|]. destruct closed; by apply mode_inv; [|rewrite Em|].
  - destruct (d_mode d) eqn:Em; try done. destruct (d_channel d) as [|p rest] eqn:Ec; [done|].
    destruct Hi as [(ps & [N1 N2 N3] & Ep) Hh Hd Hf Hb Hs]. specialize (Hb ltac:(by rewrite Em)).
    assert (Hu : forall m, exists qs, numbered qs (set_mode (set_buffer (set_channel d rest) (d_buffer d ++ [p])) m) /\ qs ++ unsent (set_mode (set_buffer (set_channel d rest) (d_buffer d ++ [p])) m) = all).
    { intros m. exists ps. split; [by split|]. rewrite <- Ep. unfold unsent. cbn. by rewrite Ec, <- !app_assoc. }
    cbn [d_buffer set_buffer]. destruct (Nat.ltb_spec OUTAGE_OUTBOUND_BUFFER_CAP (length (d_buffer d ++ [p]))) as [Hc|Hc]; rewrite length_app in Hc; cbn [length] in Hc.
    + split; cbn [d_mode d_buffer d_held set_mode set_buffer set_channel]; [apply Hu|done|done|rewrite length_app; cbn [length]; lia| |done]. intros Hn. by destruct (Hn (Err (OutageBufferExhausted (Z.of_nat (length (d_buffer d ++ [p])))))).
    + split; cbn [d_mode d_buffer d_held set_mode set_buffer set_channel]; [apply (Hu (d_mode d))|done|done|rewrite length_app; cbn [length]; lia|intros _; rewrite length_app; cbn [length]; lia|by rewrite Em].
  - destruct (d_mode d) eqn:Em; try done. eapply (advances_inv all d); [done|by rewrite Em| |done]. apply advances_same; try done; by destruct rehomed.
  - destruct (d_mode d) eqn:Em; try done. by apply mode_inv; [|rewrite Em|].
  - destruct (d_mode d) eqn:Em; try done. by apply mode_inv; [|rewrite Em|].
Qed.

Lemma client_run_inv steps : forall all d, drv_inv all d -> drv_inv (all ++ produced steps) (driver_run env own_slot d steps).
Proof.
  induction steps as [|s steps IH]; intros all d Hi; [by rewrite app_nil_r|]. cbn [driver_run foldl]. apply (client_step_inv all d s) in Hi. specialize (IH _ _ Hi).
  rewrite <- app_assoc in IH. unfold produced in *. by rewrite <- omap_app in IH.
Qed.

Lemma new_driver_inv l now expected : drv_inv [] (new_driver l now expected).
Proof. split; cbn; [exists []; by split|lia|constructor|lia|lia|done]. Qed.

End Order.

(** C33 A client's turns keep the order they were produced in, whatever fails: after
    any steps -- turns produced, held out a phase delay or buffered in an
    outage, connections lost and resumed on the same relay or another, writes
    refused, the game closing -- the turns handed over are a prefix of those
    produced, numbered from zero without a gap, the retention ring is that of
    sending exactly these, and every other turn is still queued behind them in
    production order.  At most [HELD_TURN_CAP] turns are held, at instants that
    do not go back, and while the driver lives at most
    [OUTAGE_OUTBOUND_BUFFER_CAP] are buffered. *)
Theorem client_turns_in_order `{!Prost} (env : Z -> Env) (own_slot : Z) (l : Link) (now : Z) (expected : bool) (steps : list Step) :
  let d := driver_run env own_slot (new_driver l now expected) steps in
  exists sent,
    produced steps = sent ++ map snd (d_held d) ++ d_buffer d ++ d_channel d /\
    log_turns (d_log d) = stamped own_slot sent /\
    next_outbound_seq (d_loop d) = Z.of_nat (length sent) /\
    retention (d_loop d) = retention (sends own_slot sent) /\
    (length (d_held d) <= HELD_TURN_CAP)%nat /\ StronglySorted Z.le (map fst (d_held d)) /\
    ((forall r, d_mode d <> Over r) -> (length (d_buffer d) <= OUTAGE_OUTBOUND_BUFFER_CAP)%nat).
Proof.
  intros d. destruct (client_run_inv env own_slot steps [] _ (new_driver_inv own_slot l now expected)) as [(ps & [N1 N2 N3] & Ep) Hh Hd _ Hb _]. fold d in N1, N2, N3, Ep, Hh, Hd, Hb.
  exists ps. split; [done|]. split; [done|]. split; [done|]. split; [|done]. rewrite N3. by destruct (sends_spec own_slot ps) as (_ & _ & ->).
Qed.

(** ** The client's leave follows its turns

    A leave intent is written once; an arm of the serving loop that writes it
    has nothing of the game's left to send and nothing unacknowledged.  The
    flush a resumed connection opens with does not look at the turns the outage
    buffered. *)

#[export] Instance Event_is_intent_dec (e : Event) : Decision (e = EvIntent).
Proof. destruct e; [right; discriminate|by left]. Defined.

Definition intents (d : Driver) : nat := length (filter (fun e => e = EvIntent) (d_log d)).

(** The arms of the serving loop that announce once everything is out; the
    opening flush, the safety timeout and the teardown are the others. *)
Definition drained_arm (s : Step) : bool :=
  match s with Outgoing _ | HeldDue _ | LeaveSignal _ _ | GameResult | LinkMoves _ => true | _ => false end.

Section Leave.
Context {prost : Prost}.
Variables (env : Z -> Env) (own_slot : Z).
Implicit Types (d : Driver).

(** The log holds one intent when the announcer says so, and none before. *)
Definition once d : Prop := intents d = if announcer_sent (d_ann d) then 1%nat else 0%nat.

(** From [d] to [d'] the log stays so, and only the announcer says more. *)
Definition keeps d d' : Prop := (once d -> once d').

(** Neither the log's intents nor the announcer moved. *)
Definition quiet d d' : Prop := intents d' = intents d /\ d_ann d' = d_ann d.

Lemma once_refl d : keeps d d.
Proof. by intros H. Qed.

#[local] Hint Resolve once_refl : core.

Lemma quiet_keeps d d' : quiet d d' -> keeps d d'.
Proof. intros [E1 E2] H. unfold once in *. by rewrite E1, E2. Qed.

Lemma once_trans d1 d2 d3 : keeps d1 d2 -> keeps d2 d3 -> keeps d1 d3.
Proof. unfold keeps. tauto. Qed.

Lemma quiet_trans d1 d2 d3 : quiet d1 d2 -> quiet d2 d3 -> quiet d1 d3.
Proof. intros [? ?] [? ?]. split; congruence. Qed.

Lemma intents_logged_turn d t : intents (logged d (EvTurn t)) = intents d.
Proof. unfold intents. cbn [d_log logged]. rewrite filter_app, length_app, filter_cons_False by discriminate. cbn [filter list_filter length]. lia. Qed.

Lemma intents_logged_intent d : intents (logged d EvIntent) = S (intents d).
Proof. unfold intents. cbn [d_log logged]. rewrite filter_app, length_app, filter_cons_True by done. cbn [filter list_filter length]. lia. Qed.

Lemma hand_off_quiet d p : quiet d (hand_off env own_slot d p).2.
Proof.
  unfold hand_off. destruct (send_game_turn _ _ _ _ _ _ _) as [[[[[v w] c] l] st]|]; cbn [snd]; (split; [|done]);
    exact (intents_logged_turn d (stamp_turn (d_loop d) own_slot p)).
Qed.

(** An intent is written in the pending state only, and marks the announcer. *)
Lemma ready_is_pending a b n : ready_to_send a b n = true -> announcer_sent a = false /\ b = true /\ n = 0.
Proof. unfold ready_to_send, announcer_sent. destruct (leave_state a); cbn; [done| |done]. intros [[_ ->]%andb_true_iff ->%Z.eqb_eq]%andb_true_iff. done. Qed.

Lemma force_send_keeps d : announcer_sent (d_ann d) = false -> keeps d (force_send env d).2.
Proof.
  intros Hp H. unfold force_send. destruct (e_intent _); [|done]. cbn [snd]. unfold once in *. rewrite intents_logged_intent. rewrite Hp in H. cbn [announcer_sent d_ann logged set_ann mark_sent leave_state]. by f_equal.
Qed.

Lemma maybe_send_keeps d : keeps d (maybe_send env d).2.
Proof.
  unfold maybe_send. destruct (ready_to_send _ _ _) eqn:Er; [|done]. apply ready_is_pending in Er as (Hp & _). pose proof (force_send_keeps d Hp) as K. unfold force_send in K. by destruct (e_intent _).
Qed.

(** [maybe_send] writes when the queues of the serving loop are empty and the
    window is. *)
Lemma maybe_send_writes d : intents (maybe_send env d).2 <> intents d ->
  d_held (maybe_send env d).2 = [] /\ d_channel (maybe_send env d).2 = [] /\ in_flight (maybe_send env d).2 = 0.
Proof.
  unfold maybe_send. destruct (ready_to_send _ _ _) eqn:Er; [|done]. apply ready_is_pending in Er as (_ & [Hc Hh]%andb_true_iff & Hn). destruct (e_intent _); [|done]. intros _. cbn.
  split; [by destruct (d_held d)|]. split; [by destruct (d_channel d)|done].
Qed.

Lemma then_do_quiet d r k : quiet d r.2 -> (forall d1, quiet d d1 -> quiet d (k d1).2) -> quiet d (then_do r k).2.
Proof. intros H1 H2. unfold then_do. destruct r as [[] d1]; [by apply H2|exact H1..]. Qed.

Lemma then_do_keeps d r k : keeps d r.2 -> (forall d1, keeps d d1 -> keeps d (k d1).2) -> keeps d (then_do r k).2.
Proof. intros H1 H2. unfold then_do. destruct r as [[] d1]; [by apply H2|exact H1..]. Qed.

(** Popping a turn and handing it over, then going on. *)
Lemma pop_quiet d d1 p k : quiet d d1 -> (forall d2, quiet d d2 -> quiet d (k d2).2) -> quiet d (then_do (hand_off env own_slot d1 p) k).2.
Proof. intros Hd Hk. apply then_do_quiet; [|done]. eapply quiet_trans; [exact Hd|apply hand_off_quiet]. Qed.

Lemma send_over_cap_quiet l : forall d0 d, quiet d0 d -> quiet d0 (send_over_cap env own_slot l d).2.
Proof. induction l as [|[due p] rest IH]; intros d0 d H; cbn [send_over_cap]; [done|]. destruct (_ <? _)%nat; [|done]. apply pop_quiet; [exact H|]. intros d2 H2. by apply IH. Qed.

Lemma send_held_due_quiet now l : forall d0 d, quiet d0 d -> quiet d0 (send_held_due env own_slot now l d).2.
Proof. induction l as [|[due p] rest IH]; intros d0 d H; cbn [send_held_due]; [done|]. destruct (_ <=? _); [|done]. apply pop_quiet; [exact H|]. intros d2 H2. by apply IH. Qed.

Lemma drain_held_quiet l : forall d0 d, quiet d0 d -> quiet d0 (drain_held env own_slot l d).2.
Proof. induction l as [|[due p] rest IH]; intros d0 d H; cbn [drain_held]; [done|]. apply pop_quiet; [exact H|]. intros d2 H2. by apply IH. Qed.

Lemma drain_channel_quiet l : forall d0 d, quiet d0 d -> quiet d0 (drain_channel env own_slot l d).2.
Proof. induction l as [|p rest IH]; intros d0 d H; cbn [drain_channel]; [done|]. apply pop_quiet; [exact H|]. intros d2 H2. by apply IH. Qed.

Lemma pop_keeps d d1 p k : keeps d d1 -> (forall d2, keeps d d2 -> keeps d (k d2).2) -> keeps d (then_do (hand_off env own_slot d1 p) k).2.
Proof. intros Hd Hk. apply then_do_keeps; [|done]. eapply once_trans; [exact Hd|apply quiet_keeps, hand_off_quiet]. Qed.

Lemma announce_keeps d d1 k : keeps d d1 -> (forall d2, keeps d d2 -> keeps d (k d2).2) -> keeps d (then_do (maybe_send env d1) k).2.
Proof. intros Hd Hk. apply then_do_keeps; [|done]. eapply once_trans; [exact Hd|apply maybe_send_keeps]. Qed.

Lemma flush_held_keeps l : forall d0 d, keeps d0 d -> keeps d0 (flush_held env own_slot l d).2.
Proof. induction l as [|[due p] rest IH]; intros d0 d H; cbn [flush_held]; [done|]. apply pop_keeps; [exact H|]. intros d2 H2. apply announce_keeps; [exact H2|]. intros d3 H3. by apply IH. Qed.

Lemma flush_buffer_keeps l : forall d0 d, keeps d0 d -> keeps d0 (flush_buffer env own_slot l d).2.
Proof. induction l as [|p rest IH]; intros d0 d H; cbn [flush_buffer]; [done|]. apply pop_keeps; [exact H|]. intros d2 H2. apply announce_keeps; [exact H2|]. intros d3 H3. by apply IH. Qed.

Lemma session_open_keeps writes d : keeps d (session_open env own_slot writes d).2.
Proof.
  unfold session_open. destruct (redivert_pending_control _ _ _) as [[w staged] ok]. set (d0 := set_loop d _). assert (K : keeps d d0) by (apply quiet_keeps; by split).
  destruct ok; [|exact K]. apply then_do_keeps; [by apply flush_held_keeps|]. intros d1 K1. by apply flush_buffer_keeps.
Qed.

Lemma arm_keeps d now timeout : keeps d (set_ann d (announcer_arm (d_ann d) now timeout)).
Proof. unfold keeps, once, announcer_arm, announcer_sent. cbn [d_ann set_ann]. change (intents (set_ann d _)) with (intents d). by destruct (leave_state (d_ann d)) eqn:E; cbn [leave_state]; rewrite ?E. Qed.

Lemma drain_and_settle_keeps now timeout leave res settled gone d : keeps d (drain_and_settle env own_slot now timeout leave res settled gone d).2.
Proof.
  unfold drain_and_settle. apply then_do_keeps; [apply quiet_keeps, drain_held_quiet; by split|]. intros d1 K1. apply then_do_keeps; [eapply once_trans; [exact K1|]; apply quiet_keeps, drain_channel_quiet; by split|].
  intros d2 K2. set (a := if leave then _ else _). set (a' := if _ && _ then _ else a). set (d3 := set_link (set_ann d2 a') settled).
  assert (K3 : keeps d d3).
  { eapply once_trans; [exact K2|]. assert (Ka : announcer_sent a' = announcer_sent (d_ann d2)).
    { transitivity (announcer_sent a); [unfold a'; by destruct (_ && _)|]. unfold a. destruct leave; [|done]. unfold announcer_arm, announcer_sent. by destruct (leave_state (d_ann d2)) eqn:E; rewrite ?E. }
    unfold keeps, once. cbn [d_ann d3 set_link set_ann]. by rewrite Ka. }
  destruct gone; [exact K3|]. apply then_do_keeps.
  - pose proof (maybe_send_keeps d3) as M. destruct (maybe_send env d3) as [fl d4]. cbn in *. assert (K4 : keeps d d4) by by eapply once_trans. by destruct fl as [| |[]|].
  - intros d4 K4. destruct (announcer_deadline (d_ann d4)) eqn:Ed; [|exact K4].
    assert (Hp : announcer_sent (d_ann d4) = false) by (unfold announcer_deadline in Ed; unfold announcer_sent; by destruct (leave_state (d_ann d4))).
    pose proof (force_send_keeps d4 Hp) as M. destruct (force_send env d4) as [fl d5]. cbn in *. assert (K5 : keeps d d5) by by eapply once_trans. by destruct fl as [| |[]|].
Qed.

Lemma on_outgoing_keeps now d p : keeps d (on_outgoing_turn env own_slot now d p).2.
Proof.
  unfold on_outgoing_turn. destruct (advance (d_slew d) now) as [delay slew]. set (d1 := set_slew d slew). assert (Q1 : quiet d d1) by by split. destruct (_ && _).
  - apply pop_keeps; [by apply quiet_keeps|]. intros d2 K2. eapply once_trans; [exact K2|apply maybe_send_keeps].
  - apply quiet_keeps, send_over_cap_quiet. by split.
Qed.

Lemma settle_keeps d r : keeps d r.2 -> keeps d (settle r).
Proof. intros K H. specialize (K H). unfold settle. by destruct r as [[] d']. Qed.

Lemma serving_keeps d k : keeps d (k d).2 -> keeps d (serving d k).
Proof. intros K. unfold serving. destruct (d_mode d); [done|by apply settle_keeps|done..]. Qed.

Lemma driver_step_keeps d s : keeps d (driver_step env own_slot d s).
Proof.
  assert (Hr : keeps d d) by done.
  destruct s as [p|writes|now|now|delay slew now|now timeout| | |l|e| | |now timeout leave res settled gone|ev closed| |rehomed live|e|]; cbn [driver_step]; unfold on_redial, on_outage_turn, on_resumed; try apply serving_keeps.
  - done.
  - destruct (d_mode d); try done. apply settle_keeps, session_open_keeps.
  - destruct (d_channel d) as [|p rest]; [done|]. exact (on_outgoing_keeps now (set_channel d rest) p).
  - apply then_do_keeps; [apply quiet_keeps, send_held_due_quiet; by split|]. intros d1 K1. eapply once_trans; [exact K1|apply maybe_send_keeps].
  - done.
  - eapply once_trans; [apply (arm_keeps d now timeout)|apply maybe_send_keeps].
  - destruct (announcer_deadline (d_ann d)) eqn:Ed; [|done]. apply force_send_keeps. unfold announcer_deadline in Ed. unfold announcer_sent. by destruct (leave_state (d_ann d)).
  - unfold on_result. destruct (_ || _); [done|]. exact (maybe_send_keeps (set_ann d (note_result_sent (d_ann d)))).
  - unfold on_link. destruct (window_cap_error l); [done|]. exact (maybe_send_keeps (set_link d l)).
  - done.
  - done.
  - done.
  - apply then_do_keeps; [apply drain_and_settle_keeps|done].
  - destruct (d_mode d); try done. by destruct ev; [|destruct closed].
  - destruct (d_mode d); try done. destruct (d_channel d); [done|]. by destruct (_ <? _)%nat.
  - by destruct (d_mode d).
  - by destruct (d_mode d).
  - by destruct (d_mode d).
Qed.

Lemma driver_run_keeps steps : forall d, keeps d (driver_run env own_slot d steps).
Proof. induction steps as [|s steps IH]; intros d; [done|]. eapply once_trans; [apply (driver_step_keeps d s)|apply IH]. Qed.

(** An arm that announces has emptied the hold queue, the channel and the
    window. *)
Lemma settle_fields r : d_held (settle r) = d_held r.2 /\ d_channel (settle r) = d_channel r.2 /\ d_buffer (settle r) = d_buffer r.2 /\ in_flight (settle r) = in_flight r.2 /\ intents (settle r) = intents r.2.
Proof. unfold settle. by destruct r as [[] d']. Qed.

Definition spent (r : Flow * Driver) : Prop := r.1 = Serve /\ d_held r.2 = [] /\ d_channel r.2 = [] /\ in_flight r.2 = 0.

Lemma announce_spent d d1 : intents d1 = intents d -> intents (maybe_send env d1).2 <> intents d -> spent (maybe_send env d1).
Proof.
  intros E Hn. split; [|apply maybe_send_writes; by rewrite E]. unfold maybe_send in *. destruct (ready_to_send _ _ _); [|done]. by destruct (e_intent _).
Qed.

Lemma then_announce_spent d r : quiet d r.2 -> intents (then_do r (maybe_send env)).2 <> intents d -> spent (then_do r (maybe_send env)).
Proof. intros [Q _]. unfold then_do. destruct r as [[] d1]; cbn [fst snd] in *; [by apply announce_spent|done..]. Qed.

Lemma drained_arm_spent d s : drained_arm s = true -> let d' := driver_step env own_slot d s in intents d' <> intents d ->
  d_mode d' = Serving /\ d_held d' = [] /\ d_channel d' = [] /\ in_flight d' = 0.
Proof.
  assert (Hgo : forall k, (intents (k d).2 <> intents d -> spent (k d)) -> let d' := serving d k in
    intents d' <> intents d -> d_mode d' = Serving /\ d_held d' = [] /\ d_channel d' = [] /\ in_flight d' = 0).
  { intros k Hk. cbv zeta. unfold serving. destruct (d_mode d); [done| |done..]. destruct (settle_fields (k d)) as (E1 & E2 & _ & E4 & E5). rewrite E1, E2, E4, E5. intros Hn. destruct (Hk Hn) as (K0 & K1 & K2 & K3).
    split; [|done]. unfold settle. by rewrite K0. }
  destruct s as [p|writes|now|now|delay slew now|now timeout| | |l|e| | |now timeout leave res settled gone|ev closed| |rehomed live|e|]; try done; intros _; cbn [driver_step]; apply Hgo.
  - destruct (d_channel d) as [|p rest]; [done|]. unfold on_outgoing_turn. destruct (advance (d_slew (set_channel d rest)) now) as [delay slew]. set (d1 := set_slew (set_channel d rest) slew).
    destruct (_ && _); [apply then_announce_spent; eapply quiet_trans; [|apply hand_off_quiet]; by split|]. intros Hn. exfalso. apply Hn. eapply (proj1 (send_over_cap_quiet _ d (set_held d1 _) ltac:(by split))).
  - apply then_announce_spent, send_held_due_quiet. by split.
  - by apply announce_spent.
  - unfold on_result. destruct (_ || _); [done|]. by apply announce_spent.
  - unfold on_link. destruct (window_cap_error l); [done|]. by apply announce_spent.
Qed.

End Leave.


(** ** A leave before the turns an outage buffered *)

#[local] Existing Instance prost_sizes.

(** Datagrams of at most 1200 bytes, every write taken. *)
Definition demo_env (_ : Z) : Env := mkEnv (Some 1200) (fun _ => DgAccepted) true true.

(** The game hands over two turns, the first too large for a datagram, and
    signals its leave; the connection dies before either is taken, the outage
    buffers both, and the relay is dialled again. *)
Definition demo_big : Payload := game_turn 1500.
Definition demo_small : Payload := game_turn 3.
Definition demo_leave : list Step :=
  [Open (fun _ _ => true); Produce demo_big; Produce demo_small; LeaveSignal 0 2000000000; LinkDies DatagramsUnsupported; Redial None false;
   OutageTurn; OutageTurn; Resumed false (Some 1200); Open (fun _ _ => true)].


(** In order on the way out: both turns handed over and acknowledged, then the
    leave. *)
Definition demo_clean : list Step := [Open (fun _ _ => true); Produce demo_small; Outgoing 0; LinkMoves new_link].

