(* ===== verification/Commands.v ===== *)
(** * The turn-command length table ([proto/src/commands.rs])

    The opcode classification the relay and the client share, and the framing
    facts the turn validator rests on: a well-framed command is not empty, its
    length depends on its own bytes only, and so a byte stream has at most one
    split into well-framed commands. *)

From Stdlib Require Import ZArith Lia.
From stdpp Require Import gmap sorting list.
From S2P Require Import Prelude.

Open Scope Z_scope.

Inductive CommandLength : Type :=
| Fixed (n : Z)
| Variable_ (stride : Z).

Definition FIXED_LEN : list Z :=
  [ 0;  0; 0; 0;  0;  1;  0; 0; 1; 0; 0; 0;  8; 3; 5; 2;
    1;  1; 5; 3; 10; 11;  0; 0; 1; 1; 2; 1;  1; 1; 2; 3;
    3;  2; 2; 3;  0;  2;  2; 1; 2; 3; 1; 2;  2; 2; 1; 5;
    2;  1; 2; 1;  1;  3;  1; 7; 0; 0; 0; 0;  0; 0; 0; 0;
    0;  0; 0; 0;  0;  0;  0; 0; 0; 0; 0; 0;  0; 0; 0; 0;
    0;  0; 0; 0;  0;  2; 10; 2; 5; 0; 1; 0; 82; 5; 0; 2;
   12; 13; 5; 0;  0;  0;  4; 0 ].

Definition classify (op : Z) : option CommandLength :=
  if (9 <=? op) && (op <=? 11) then Some (Variable_ 2)
  else if (99 <=? op) && (op <=? 101) then Some (Variable_ 4)
  else
    match default 0 (FIXED_LEN !! Z.to_nat op) with
    | 0 => None
    | n => Some (Fixed n)
    end.

Definition command_length (buf : list Z) : option Z :=
  op ← head buf;
  len ← classify op;
  match len with
  | Fixed n => Some n
  | Variable_ stride => count ← buf !! 1%nat; Some (2 + stride * count)
  end.

(** ** Framing *)

Definition bytes (l : list Z) : Prop := Forall is_u8 l.

(** A complete command: its bytes are exactly the length they declare. *)
Definition well_framed (c : list Z) : Prop := command_length c = Some (Z.of_nat (length c)).

#[export] Instance well_framed_dec c : Decision (well_framed c).
Proof. unfold well_framed. apply _. Defined.

Lemma FIXED_LEN_nonneg : Forall (fun n => 0 <= n) FIXED_LEN.
Proof. unfold FIXED_LEN. repeat constructor; lia. Qed.

Lemma classify_Fixed op n : classify op = Some (Fixed n) -> 1 <= n.
Proof.
  unfold classify. destruct (_ && _); [done|]. destruct (_ && _); [done|].
  destruct (FIXED_LEN !! Z.to_nat op) as [m|] eqn:Hm; [|done]. cbn.
  pose proof (Forall_lookup_1 _ _ _ _ FIXED_LEN_nonneg Hm). cbn in *.
  destruct m; intros [= <-]; lia.
Qed.

Lemma classify_Variable op s : classify op = Some (Variable_ s) -> 2 <= s <= 4.
Proof.
  unfold classify. destruct (_ && _); [intros [= <-]; lia|]. destruct (_ && _); [intros [= <-]; lia|].
  destruct (default 0 (FIXED_LEN !! Z.to_nat op)); done.
Qed.

Lemma command_length_pos buf n : bytes buf -> command_length buf = Some n -> 1 <= n.
Proof.
  intros Hb. unfold command_length. destruct (head buf) as [op|]; [|done]. cbn.
  destruct (classify op) as [[m|s]|] eqn:Hc; [| |done]; cbn.
  - intros [= <-]. by eapply classify_Fixed.
  - destruct (buf !! 1%nat) as [count|] eqn:Hcount; [|done]. cbn. intros [= <-].
    apply classify_Variable in Hc. pose proof (Forall_lookup_1 _ _ _ _ Hb Hcount) as Hu.
    unfold is_u8 in Hu. nia.
Qed.

(** The count byte of a variable-length command lies within the command. *)
Lemma command_length_app c t :
  bytes c -> well_framed c -> command_length (c ++ t) = command_length c.
Proof.
  intros Hb Hw. pose proof (command_length_pos c _ Hb Hw) as Hpos.
  unfold well_framed, command_length in *. destruct c as [|op c]; [cbn in *; lia|]. cbn in *.
  destruct (classify op) as [[m|s]|] eqn:Hc; [done| |done]. cbn in *.
  destruct c as [|count c]; [done|]. done.
Qed.

(** Any buffer that holds the whole declared command starts with it. *)
Lemma command_length_take buf n :
  bytes buf -> command_length buf = Some n -> n <= Z.of_nat (length buf) ->
  well_framed (take (Z.to_nat n) buf).
Proof.
  intros Hb Hn Hle. pose proof (command_length_pos buf n Hb Hn) as Hpos. unfold well_framed.
  rewrite length_take_le, Z2Nat.id by lia. unfold command_length in *.
  destruct buf as [|op buf]; [done|]. cbn in Hn. replace (Z.to_nat n) with (S (Z.to_nat (n - 1))) by lia. cbn.
  destruct (classify op) as [[m|s]|] eqn:Hc; [done| |done]. cbn in *.
  destruct buf as [|count buf]; [done|]. cbn in *. injection Hn as <-.
  apply classify_Variable in Hc. inversion Hb as [|? ? ? Hb' Heq]; subst. inversion Hb' as [|? ? Hu]; subst.
  unfold is_u8 in Hu. replace (Z.to_nat (2 + s * count - 1)) with (S (Z.to_nat (s * count))) by nia. done.
Qed.

(** A stream has at most one split into well-framed commands followed by a
    remainder that starts no complete command. *)
Lemma split_unique cs1 cs2 t1 t2 :
  bytes (concat cs1 ++ t1) -> Forall well_framed cs1 -> Forall well_framed cs2 ->
  concat cs1 ++ t1 = concat cs2 ++ t2 ->
  (forall n, command_length t1 = Some n -> Z.of_nat (length t1) < n) ->
  (forall n, command_length t2 = Some n -> Z.of_nat (length t2) < n) ->
  cs1 = cs2 /\ t1 = t2.
Proof.
  assert (Hstop : forall c cs t1 t2, bytes (concat (c :: cs) ++ t1) -> well_framed c ->
    concat (c :: cs) ++ t1 = t2 -> ~ (forall n, command_length t2 = Some n -> Z.of_nat (length t2) < n)).
  { intros c cs u1 u2 Hb Hc <- Hn. cbn [concat] in Hb, Hn. rewrite <- app_assoc in *.
    assert (Hbc : bytes c) by (by apply Forall_app in Hb as [? _]).
    specialize (Hn (Z.of_nat (length c))). rewrite command_length_app in Hn by done.
    specialize (Hn Hc). rewrite length_app in Hn. lia. }
  revert cs2 t1 t2. induction cs1 as [|c1 cs1 IH]; intros cs2 t1 t2 Hb H1 H2 Heq Ht1 Ht2.
  - destruct cs2 as [|c2 cs2]; [done|]. exfalso. cbn in Heq. inversion H2; subst.
    by eapply (Hstop c2 cs2 t2); [| |symmetry|].
  - inversion H1 as [|? ? Hc1 Hcs1]; subst. destruct cs2 as [|c2 cs2].
    { exfalso. by eapply (Hstop c1 cs1 t1). }
    inversion H2 as [|? ? Hc2 Hcs2]; subst. cbn [concat] in *. rewrite <- !app_assoc in *.
    assert (Hb2 : bytes (c2 ++ concat cs2 ++ t2)) by (by rewrite <- Heq).
    assert (Hlen : length c1 = length c2).
    { apply Nat2Z.inj. unfold well_framed in *.
      apply Forall_app in Hb as [Hbc1 _]. apply Forall_app in Hb2 as [Hbc2 _].
      assert (Some (Z.of_nat (length c1)) = Some (Z.of_nat (length c2))) as [=]; [|done].
      rewrite <- Hc1, <- Hc2, <- (command_length_app c1 (concat cs1 ++ t1)) by done.
      rewrite Heq. by apply command_length_app. }
    apply app_inj_1 in Heq as [-> Heq]; [|done]. apply Forall_app in Hb as [_ Hb].
    destruct (IH cs2 t1 t2) as [-> ->]; done.
Qed.
