(* ===== verification/Validation.v ===== *)
(** * Turn validation ([relay/src/validation.rs])

    The relay's parse of attacker-controlled command bytes: the loop with its
    lazily created sanitized copy, and its equivalence with the declarative
    reading (a turn is a sequence of well-framed commands, forwarded without
    the ones a live turn must not carry). *)

From Stdlib Require Import ZArith Lia.
From stdpp Require Import gmap sorting list.
From S2P Require Import Prelude Wire Commands.

Open Scope Z_scope.

Definition RELAY_OWNED_PACING : list Z := [85; 95; 102].
Definition REPLAY_ONLY : list Z := [86; 93; 87].
Definition HOTKEY : Z := 19.
Definition SELECTION_GROUPS : Z := 18.

Definition is_stripped_from_live_turn (command : list Z) : bool :=
  match command with
  | op :: _ :: group :: _ =>
      if op =? HOTKEY then SELECTION_GROUPS <=? group
      else bool_decide (op ∈ RELAY_OWNED_PACING) || bool_decide (op ∈ REPLAY_ONLY)
  | op :: _ => bool_decide (op ∈ RELAY_OWNED_PACING) || bool_decide (op ∈ REPLAY_ONLY)
  | [] => false
  end.

Record ValidatedTurn : Type := mkValidatedTurn {
  validated_payload : Payload;
  stripped_control : Z;
}.

Inductive ValidationError : Type :=
| UnknownOpcode (offset opcode : Z)
| Truncated (offset opcode : Z).

Definition error_offset (e : ValidationError) : Z :=
  match e with UnknownOpcode o _ | Truncated o _ => o end.

(** The length of the command at the start of [rest], or the refusal. *)
Definition length_at (offset : nat) (rest : list Z) (opcode : Z) : result Z ValidationError :=
  match classify opcode with
  | None => Err (UnknownOpcode (Z.of_nat offset) opcode)
  | Some (Fixed n) => Ok n
  | Some (Variable_ stride) =>
      match rest !! 1%nat with
      | None => Err (Truncated (Z.of_nat offset) opcode)
      | Some count => Ok (2 + stride * count)
      end
  end.

(** The [while] loop; [None] when the fuel runs out. *)
Fixpoint validate_loop (fuel : nat) (commands : list Z) (forwarded : option (list Z))
  (stripped : Z) (offset : nat) : option (result (option (list Z) * Z) ValidationError) :=
  match fuel with
  | O => None
  | S fuel =>
      let rest := drop offset commands in
      match rest with
      | [] => Some (Ok (forwarded, stripped))
      | opcode :: _ =>
          match length_at offset rest opcode with
          | Err e => Some (Err e)
          | Ok len =>
              if Z.of_nat (length rest) <? len then Some (Err (Truncated (Z.of_nat offset) opcode))
              else
                let n := Z.to_nat len in
                let command := take n rest in
                if is_stripped_from_live_turn command then
                  validate_loop fuel commands
                    (Some (default (take offset commands) forwarded)) (stripped + 1) (offset + n)
                else
                  validate_loop fuel commands ((fun s => s ++ command) <$> forwarded)
                    stripped (offset + n)
          end
      end
  end.

Definition validate_turn (s : Z) (p : Payload) : option (result ValidatedTurn ValidationError) :=
  r ← validate_loop (S (length (commands p))) (commands p) None 0 0;
  mret match r with
       | Err e => Err e
       | Ok (forwarded, stripped) =>
           Ok (mkValidatedTurn
                 (mkPayload (seq p) s (default (commands p) forwarded) (game_frame_count p)
                    (sync_generation p) None (state_hash p)) stripped)
       end.

(** ** The declarative reading *)

Definition keep (c : list Z) : Prop := is_stripped_from_live_turn c = false.

#[export] Instance keep_dec c : Decision (keep c).
Proof. unfold keep. apply _. Defined.

(** [rest] starts with an opcode whose command cannot be framed: this is the
    refusal at [offset]. *)
Definition refuses (offset : nat) (rest : list Z) (e : ValidationError) : Prop :=
  exists op t, rest = op :: t /\
    ((classify op = None /\ e = UnknownOpcode (Z.of_nat offset) op) \/
     (is_Some (classify op) /\ e = Truncated (Z.of_nat offset) op /\
      forall n, command_length rest = Some n -> Z.of_nat (length rest) < n)).

(** The result of a turn whose commands are [cs], followed by [rest]. *)
Inductive reads (bs : list Z) : result (list (list Z)) ValidationError -> Prop :=
| reads_all cs : bs = concat cs -> Forall well_framed cs -> reads bs (Ok cs)
| reads_refused cs rest e :
    bs = concat cs ++ rest -> Forall well_framed cs -> refuses (length (concat cs)) rest e ->
    reads bs (Err e).

Definition sanitized (cs : list (list Z)) : list Z := concat (filter keep cs).
Definition stripped_of (cs : list (list Z)) : Z :=
  Z.of_nat (length (filter (fun c => ~ keep c) cs)).

Lemma refuses_stuck offset rest e n :
  refuses offset rest e -> command_length rest = Some n -> Z.of_nat (length rest) < n.
Proof.
  intros (op & t & -> & [[Hc _]|(_ & _ & Hn)]) Hlen; [|by apply Hn].
  cbn in Hlen. by rewrite Hc in Hlen.
Qed.

(** The reading is unique. *)
Lemma reads_functional bs r1 r2 : bytes bs -> reads bs r1 -> reads bs r2 -> r1 = r2.
Proof.
  intros Hb H1 H2.
  assert (Hnil : forall n, command_length [] = Some n -> Z.of_nat (@length Z []) < n) by done.
  destruct H1 as [cs1 -> Hw1|cs1 t1 e1 -> Hw1 Hr1], H2 as [cs2 Heq Hw2|cs2 t2 e2 Heq Hw2 Hr2].
  - destruct (split_unique cs1 cs2 [] []) as [-> _]; rewrite ?app_nil_r; done.
  - destruct (split_unique cs1 cs2 [] t2) as [_ <-]; rewrite ?app_nil_r; try done.
    { intros n. by eapply refuses_stuck. }
    by destruct Hr2 as (op & t & ? & _).
  - destruct (split_unique cs1 cs2 t1 []) as [_ ->]; rewrite ?app_nil_r; try done.
    { intros n. by eapply refuses_stuck. }
    by destruct Hr1 as (op & t & ? & _).
  - destruct (split_unique cs1 cs2 t1 t2) as [-> ->]; try done;
      [intros n; by eapply refuses_stuck..|].
    destruct Hr1 as (op1 & u1 & -> & Hr1), Hr2 as (op2 & u2 & [= <- <-] & Hr2).
    destruct Hr1 as [[Hc1 ->]|(Hc1 & -> & _)], Hr2 as [[Hc2 ->]|(Hc2 & -> & _)];
      first [done|exfalso; rewrite Hc1 in Hc2; by destruct Hc2|exfalso; rewrite Hc2 in Hc1; by destruct Hc1].
Qed.

(** ** The loop implements the reading *)

Lemma length_at_ok offset op t :
  match length_at offset (op :: t) op with
  | Ok n => command_length (op :: t) = Some n
  | Err e => refuses offset (op :: t) e
  end.
Proof.
  unfold length_at.
  destruct (classify op) as [[n|s]|] eqn:Hc.
  - unfold command_length. cbn. by rewrite Hc.
  - destruct t as [|count t]; unfold command_length; cbn; rewrite ?Hc; [|done].
    exists op, []. split; [done|]. right. rewrite Hc. split; [done|]. split; [done|].
    unfold command_length. cbn. by rewrite Hc.
  - exists op, t. split; [done|]. by left.
Qed.

(** What the loop holds after the commands [done]: no copy until the first
    strip, then the sanitized prefix. *)
Definition copy_of (cs : list (list Z)) (forwarded : option (list Z)) : Prop :=
  match forwarded with
  | None => filter keep cs = cs
  | Some f => f = sanitized cs
  end.

Lemma copy_default cs f : copy_of cs f -> default (concat cs) f = sanitized cs.
Proof. unfold copy_of, sanitized. destruct f; cbn; [done|]. by intros ->. Qed.

Lemma stripped_of_app cs c :
  stripped_of (cs ++ [c]) = stripped_of cs + if is_stripped_from_live_turn c then 1 else 0.
Proof.
  unfold stripped_of. rewrite filter_app, filter_cons, filter_nil, length_app.
  case_decide as Hk; unfold keep in Hk; destruct (is_stripped_from_live_turn c); cbn; lia || tauto.
Qed.

Lemma copy_step cs c f :
  copy_of cs f ->
  copy_of (cs ++ [c])
    (if is_stripped_from_live_turn c then Some (default (concat cs) f)
     else (fun s => s ++ c) <$> f).
Proof.
  intros Hf. pose proof (copy_default _ _ Hf) as Hd. unfold copy_of, sanitized in *.
  rewrite filter_app, filter_cons, filter_nil. case_decide as Hk; unfold keep in Hk.
  2: { destruct (is_stripped_from_live_turn c); [|done]. by rewrite app_nil_r. }
  rewrite Hk. destruct f as [f|]; cbn [fmap option_fmap option_map] in *.
  - subst f. rewrite concat_app. cbn. by rewrite app_nil_r.
  - by rewrite Hf.
Qed.

(** Enough fuel always gives a result, and the result is the reading. *)
Lemma validate_loop_spec fuel cs rest f :
  bytes (concat cs ++ rest) -> Forall well_framed cs -> copy_of cs f ->
  (length rest < fuel)%nat ->
  exists r, validate_loop fuel (concat cs ++ rest) f (stripped_of cs) (length (concat cs)) = Some r /\
    match r with
    | Err e => reads (concat cs ++ rest) (Err e)
    | Ok (f', n) => exists all, reads (concat cs ++ rest) (Ok all) /\ copy_of all f' /\ n = stripped_of all
    end.
Proof.
  revert cs rest f. induction fuel as [|fuel IH]; intros cs rest f Hb Hcs Hf Hfuel; [lia|].
  cbn [validate_loop]. rewrite drop_app_length, take_app_length.
  destruct rest as [|op t].
  { eexists. split; [done|]. exists cs. split; [|done]. rewrite app_nil_r. by constructor. }
  pose proof (length_at_ok (length (concat cs)) op t) as Hlen.
  destruct (length_at (length (concat cs)) (op :: t) op) as [n|e].
  2: { eexists. split; [done|]. by eapply reads_refused. }
  set (rest := op :: t) in *. assert (Hbr : bytes rest) by (by apply Forall_app in Hb as [_ ?]).
  pose proof (command_length_pos _ _ Hbr Hlen) as Hpos.
  destruct (Z.ltb_spec (Z.of_nat (length rest)) n) as [Htr|Hfit].
  { eexists. split; [done|]. eapply reads_refused; [done|done|]. exists op, t. split; [done|]. right.
    fold rest. split; [|split; [done|intros m; rewrite Hlen; by intros [= <-]]].
    unfold command_length, rest in Hlen. cbn in Hlen. by destruct (classify op). }
  set (c := take (Z.to_nat n) rest).
  assert (Hc : well_framed c) by (by apply command_length_take).
  assert (Hsplit : concat cs ++ rest = concat (cs ++ [c]) ++ drop (Z.to_nat n) rest).
  { rewrite concat_app. cbn. rewrite app_nil_r, <- app_assoc. f_equal. unfold c. by rewrite take_drop. }
  assert (Hoff : (length (concat cs) + Z.to_nat n)%nat = length (concat (cs ++ [c]))).
  { rewrite concat_app, length_app. cbn. rewrite app_nil_r. unfold c. rewrite length_take_le by lia. lia. }
  pose proof (stripped_of_app cs c) as Hst. pose proof (copy_step cs c f Hf) as Hcopy.
  rewrite Hoff, Hsplit in *.
  assert (Hnext : (length (drop (Z.to_nat n) rest) < fuel)%nat) by (rewrite length_drop; lia).
  assert (Hcs' : Forall well_framed (cs ++ [c])) by (apply Forall_app; by repeat constructor).
  destruct (is_stripped_from_live_turn c); rewrite <- ?Hst; [|rewrite Z.add_0_r in Hst; rewrite <- Hst];
    by apply IH.
Qed.

Lemma validate_turn_reads s p :
  bytes (commands p) ->
  exists r, reads (commands p) r /\
    validate_turn s p = Some
      match r with
      | Err e => Err e
      | Ok cs => Ok (mkValidatedTurn
                       (mkPayload (seq p) s (sanitized cs) (game_frame_count p)
                          (sync_generation p) None (state_hash p)) (stripped_of cs))
      end.
Proof.
  intros Hb. destruct (validate_loop_spec (S (length (commands p))) [] (commands p) None)
    as (r & Hr & Hreads); [done|constructor|done|lia|].
  change (concat [] ++ commands p) with (commands p) in *.
  change (stripped_of []) with 0 in Hr. change (length (concat [])) with 0%nat in Hr.
  unfold validate_turn. rewrite Hr. cbn. destruct r as [[f n]|e]; [|by eexists; split].
  destruct Hreads as (cs & Hcs & Hcopy & ->). exists (Ok cs). split; [done|]. do 4 f_equal.
  apply copy_default in Hcopy. inversion Hcs as [cs' Heq Hw|]; subst. by rewrite Heq.
Qed.

(** ** Properties *)

Definition error_opcode (e : ValidationError) : Z :=
  match e with UnknownOpcode _ op | Truncated _ op => op end.

Lemma refuses_inside cs rest e :
  refuses (length (concat cs)) rest e ->
  0 <= error_offset e < Z.of_nat (length (concat cs ++ rest)) /\
  (concat cs ++ rest) !! Z.to_nat (error_offset e) = Some (error_opcode e).
Proof.
  intros (op & t & -> & He).
  assert (error_offset e = Z.of_nat (length (concat cs)) /\ error_opcode e = op) as [-> ->]
    by (by destruct He as [[_ ->]|(_ & -> & _)]).
  rewrite length_app, Nat2Z.id. cbn [length]. split; [lia|]. by rewrite list_lookup_middle.
Qed.

Lemma sanitized_kept cs : sanitized (filter keep cs) = sanitized cs /\ stripped_of (filter keep cs) = 0.
Proof.
  split.
  - unfold sanitized. f_equal. apply filter_all. by intros c [? _]%list_elem_of_filter.
  - unfold stripped_of. rewrite filter_none; [done|]. intros c [Hk _]%list_elem_of_filter Hn. done.
Qed.

Lemma concat_sublist (ls1 ls2 : list (list Z)) : sublist ls1 ls2 -> sublist (concat ls1) (concat ls2).
Proof.
  induction 1 as [|x l1 l2 _ IH|x l1 l2 _ IH]; cbn; [done|by apply sublist_app|by apply sublist_inserts_l].
Qed.

(** What a live turn must not carry, read off the game's protocol: latency and
    turn-rate controls, replay playback controls, and a hotkey whose group is
    past the eighteen the game keeps. *)
Inductive forbidden : list Z -> Prop :=
| ForbiddenPacing op t : op ∈ [0x55; 0x5f; 0x66] -> forbidden (op :: t)
| ForbiddenReplay op t : op ∈ [0x56; 0x57; 0x5d] -> forbidden (op :: t)
| ForbiddenHotkey action group t : 18 <= group -> forbidden (0x13 :: action :: group :: t).

Lemma keep_not_forbidden c : keep c -> ~ forbidden c.
Proof.
  unfold keep. intros Hk Hf. destruct Hf as [op t Hin|op t Hin|action group t Hg].
  1, 2: repeat (apply elem_of_cons in Hin as [->|Hin]); [..|by apply elem_of_nil in Hin];
    destruct t as [|? [|? ?]]; vm_compute in Hk; discriminate.
  unfold is_stripped_from_live_turn in Hk. rewrite Z.eqb_refl in Hk. unfold SELECTION_GROUPS in Hk. lia.
Qed.

(** C31 The validator is the declarative reading of the turn: every byte stream
    is, in exactly one way, either a sequence of well-framed commands or such a
    sequence followed by bytes that start no complete command; the validator
    always terminates, accepts exactly the former, forwards it without the
    commands a live turn must not carry, and refuses the latter at the first
    command it cannot frame. *)
Theorem validate_turn_exact (s : Z) (p : Payload) :
  bytes (commands p) ->
  exists r, (forall r', reads (commands p) r' <-> r' = r) /\
    validate_turn s p = Some
      match r with
      | Err e => Err e
      | Ok cs => Ok (mkValidatedTurn
                       (mkPayload (seq p) s (sanitized cs) (game_frame_count p)
                          (sync_generation p) None (state_hash p)) (stripped_of cs))
      end.
Proof.
  intros Hb. destruct (validate_turn_reads s p Hb) as (r & Hr & Hv). exists r. split; [|done].
  intros r'. split; [|by intros ->]. intros Hr'. by eapply reads_functional.
Qed.

(** The guarantees the validator owes the relay.  Binding: the
    forwarded turn is under the authorized slot, with the client's sequence
    number and frame and no client-supplied directive.  Filtering: it is a
    sequence of well-framed commands, none of them a pacing control, a replay
    control or a hotkey past the game's groups.  No amplification:
    the forwarded bytes are a subsequence of the client's, all of them when
    nothing was stripped.  Fixpoint: validating the forwarded turn again
    changes nothing.  Attribution: a refusal names a byte of the turn, and the
    opcode it names is that byte. *)
Theorem validate_turn_safe (s : Z) (p : Payload) :
  bytes (commands p) ->
  match validate_turn s p with
  | None => False
  | Some (Ok v) =>
      let q := validated_payload v in
      slot q = s /\ seq q = seq p /\ game_frame_count q = game_frame_count p /\
      buffer_directive q = None /\
      (exists cs, commands q = concat cs /\ Forall well_framed cs /\ Forall (fun c => ~ forbidden c) cs) /\
      sublist (commands q) (commands p) /\
      (stripped_control v = 0 -> commands q = commands p) /\
      validate_turn s q = Some (Ok (mkValidatedTurn q 0))
  | Some (Err e) =>
      0 <= error_offset e < Z.of_nat (length (commands p)) /\
      commands p !! Z.to_nat (error_offset e) = Some (error_opcode e)
  end.
Proof.
  intros Hb. destruct (validate_turn_reads s p Hb) as (r & Hr & ->).
  destruct Hr as [cs Heq Hw|cs rest e Heq Hw Hr]; [|rewrite Heq; by apply refuses_inside].
  cbn [validated_payload stripped_control slot seq game_frame_count buffer_directive commands].
  assert (Hsub : sublist (sanitized cs) (commands p)).
  { rewrite Heq. apply concat_sublist, sublist_filter. }
  do 4 (split; [done|]). split; [|split; [done|split]].
  - exists (filter keep cs). split; [done|]. split; [by apply Forall_filter_sub|].
    apply Forall_forall. intros c [Hk _]%list_elem_of_filter. by apply keep_not_forbidden.
  - intros Hs. rewrite Heq. unfold sanitized. f_equal. apply filter_all. intros c Hc.
    destruct (decide (keep c)) as [|Hk]; [done|]. exfalso. unfold stripped_of in Hs.
    assert (c ∈ filter (fun c => ~ keep c) cs) as Hin by (by apply list_elem_of_filter).
    destruct (filter (fun c => ~ keep c) cs); [set_solver|cbn in Hs; lia].
  - set (q := mkPayload _ _ _ _ _ _ _). assert (Hbq : bytes (commands q)).
    { apply Forall_forall. intros b Hin. unfold bytes in Hb. rewrite Forall_forall in Hb. apply Hb.
      by eapply elem_of_sublist. }
    destruct (validate_turn_reads s q Hbq) as (r & Hr & ->). destruct (sanitized_kept cs) as [Hk1 Hk2].
    assert (r = Ok (filter keep cs)) as ->.
    { apply (reads_functional (commands q)); [done|done|]. constructor; [done|]. by apply Forall_filter_sub. }
    by rewrite Hk1, Hk2.
Qed.

(** ** Witnesses: a turn with a selection, an out-of-range hotkey, a pacing
    command and a stop; and a turn cut short *)

Definition mixed_turn : Payload :=
  mkPayload 7 4294967295 [9; 1; 4; 0;  19; 0; 18;  85; 2;  26; 0] (Some 12) None
    (Some (mkBufferDirective 3 1 1 None)) None.

Definition cut_turn : Payload := mkPayload 8 0 [26; 0; 9; 3; 1] None None None None.

Lemma mixed_bytes : bytes (commands mixed_turn).
Proof. cbn. repeat constructor; width_lia. Qed.

Lemma cut_bytes : bytes (commands cut_turn).
Proof. cbn. repeat constructor; width_lia. Qed.

Lemma validate_turn_safe_witness :
  validate_turn 3 mixed_turn =
    Some (Ok (mkValidatedTurn (mkPayload 7 3 [9; 1; 4; 0; 26; 0] (Some 12) None None None) 2)) /\
  validate_turn 3 (mkPayload 7 3 [9; 1; 4; 0; 26; 0] (Some 12) None None None) =
    Some (Ok (mkValidatedTurn (mkPayload 7 3 [9; 1; 4; 0; 26; 0] (Some 12) None None None) 0)).
Proof.
  assert (Hv : validate_turn 3 mixed_turn =
    Some (Ok (mkValidatedTurn (mkPayload 7 3 [9; 1; 4; 0; 26; 0] (Some 12) None None None) 2)))
    by (vm_compute; reflexivity).
  split; [exact Hv|]. pose proof (validate_turn_safe 3 mixed_turn mixed_bytes) as Hs. rewrite Hv in Hs.
  apply Hs.
Defined.

Lemma validate_turn_exact_witness :
  validate_turn 3 cut_turn = Some (Err (Truncated 2 9)) /\
  reads (commands cut_turn) (Err (Truncated 2 9)).
Proof.
  assert (Hv : validate_turn 3 cut_turn = Some (Err (Truncated 2 9))) by (vm_compute; reflexivity).
  split; [exact Hv|]. destruct (validate_turn_exact 3 cut_turn cut_bytes) as (r & Hr & Hv').
  rewrite Hv in Hv'. destruct r as [cs|e]; [discriminate|]. injection Hv' as <-. by apply Hr.
Defined.
