(* ===== verification/Seen.v ===== *)
(** * The session forward gate ([relay/src/mesh/seen.rs])

    Which turns of a session this relay has already forwarded to its local
    clients, and the counts and cursors read back out of that record: the
    final turn count a leave is scheduled on, the reading a drop finalization
    seals, the resume cursors and the receipts that seed a resumed window. *)

From Stdlib Require Import ZArith Lia.
From stdpp Require Import gmap sorting list.
From S2P Require Import Prelude BTree Wire AckManager Dedup.

Open Scope Z_scope.

Definition SPARSE_SEEN_CAP : Z := 4096.

Record SlotSeen : Type := mkSlotSeen {
  forwarded_through : option Z;
  ahead : list Z;
  prefix_collapsed : bool;
}.

Abbreviation MeshSeen := (gmap Z SlotSeen).

Inductive Seen : Type := SeenNew | SeenDuplicate.

Record Forwarded : Type := mkForwarded {
  seen : Seen;
  prefix_advanced : bool;
  forwarded : Z;
}.

Definition forwarded_duplicate : Forwarded := mkForwarded SeenDuplicate false 0.

Definition empty_seen : SlotSeen := mkSlotSeen None [] false.

(** The prefix and sparse set have the same shape as the link dedup's, and
    [absorb_contiguous_run] is the same loop over them. *)
Definition as_dedup (st : SlotSeen) : SlotDedup := mkSlotDedup (forwarded_through st) (ahead st).

Definition absorb_contiguous_run (st : SlotSeen) : SlotSeen :=
  let d := Dedup.absorb_contiguous_run (as_dedup st) in
  mkSlotSeen (delivered_through d) (Dedup.ahead d) (prefix_collapsed st).

Definition slot_forwarded_count (st : SlotSeen) : Z :=
  match forwarded_through st with
  | Some through => saturating_add u64_max through 1
  | None => 0
  end.

(** The [while] loop of [collapse_to_cap]; a set over the cap is not empty. *)
Fixpoint collapse_loop (fuel : nat) (st : SlotSeen) : SlotSeen :=
  match fuel with
  | O => st
  | S fuel =>
      if SPARSE_SEEN_CAP <? Z.of_nat (length (ahead st)) then
        match ahead st with
        | [] => st
        | lowest :: rest =>
            collapse_loop fuel (absorb_contiguous_run (mkSlotSeen (Some lowest) rest true))
        end
      else st
  end.

Definition collapse_to_cap (st : SlotSeen) : SlotSeen := collapse_loop (length (ahead st)) st.

(** [mark_forwarded] on the slot's state. *)
Definition mark_slot (st : SlotSeen) (q : Z) : Forwarded * SlotSeen :=
  if (match forwarded_through st with Some t => q <=? t | None => false end)
  then (forwarded_duplicate, st)
  else
    match (match forwarded_through st with
           | Some through => checked_add u64_max through 1
           | None => Some 0
           end) with
    | None => (forwarded_duplicate, st)
    | Some base =>
        if q =? base then
          let st1 := absorb_contiguous_run (mkSlotSeen (Some q) (ahead st) (prefix_collapsed st)) in
          (mkForwarded SeenNew (negb (prefix_collapsed st1)) (slot_forwarded_count st1), st1)
        else if BTreeSet.contains q (ahead st) then (forwarded_duplicate, st)
        else
          let st1 := absorb_contiguous_run
                       (mkSlotSeen (forwarded_through st) (BTreeSet.insert q (ahead st))
                          (prefix_collapsed st)) in
          let closed_a_gap := negb (bool_decide (forwarded_through st1 = forwarded_through st)) in
          let st2 := collapse_to_cap st1 in
          (mkForwarded SeenNew (closed_a_gap && negb (prefix_collapsed st2))
             (slot_forwarded_count st2), st2)
    end.

Definition mark_forwarded (m : MeshSeen) (s q : Z) : Forwarded * MeshSeen :=
  let r := mark_slot (default empty_seen (m !! s)) q in (r.1, <[s := r.2]> m).

(** ** The per-session registries *)

Inductive ForwardGateReading : Type :=
| Count (n : Z)
| NeverForwarded
| Unsound.

Record SlotReceipts : Type := mkSlotReceipts {
  receipts_through : option Z;
  receipts_ahead : list Z;
}.

Section registries.
Context {K : Type} `{!EqDecision K, !Countable K}.

Definition new_seen_registries : gmap K MeshSeen := ∅.

Definition mark_seen (reg : gmap K MeshSeen) (key : K) (s q : Z) : Forwarded * gmap K MeshSeen :=
  let r := mark_forwarded (default ∅ (reg !! key)) s q in (r.1, <[key := r.2]> reg).

Definition deregister_seen (reg : gmap K MeshSeen) (key : K) : gmap K MeshSeen := delete key reg.

Definition slot_of (reg : gmap K MeshSeen) (key : K) (s : Z) : option SlotSeen :=
  m ← reg !! key; m !! s.

Definition forwarded_count (reg : gmap K MeshSeen) (key : K) (s : Z) : option Z :=
  st ← slot_of reg key s;
  if prefix_collapsed st then None
  else through ← forwarded_through st; checked_add u64_max through 1.

Definition forward_gate_reading (reg : gmap K MeshSeen) (key : K) (s : Z) : ForwardGateReading :=
  match slot_of reg key s with
  | None => NeverForwarded
  | Some st =>
      if prefix_collapsed st || negb (bool_decide (ahead st = [])) then Unsound
      else
        match through ← forwarded_through st; checked_add u64_max through 1 with
        | Some n => Count n
        | None => Unsound
        end
  end.

Definition highest_forwarded_seq (reg : gmap K MeshSeen) (key : K) (s : Z) : option Z :=
  st ← slot_of reg key s;
  match last (ahead st) with Some q => Some q | None => forwarded_through st end.

Definition resume_cursor_snapshot (reg : gmap K MeshSeen) (key : K) : list (Z * Z) :=
  match reg !! key with
  | None => []
  | Some m =>
      omap (fun e => through ← forwarded_through e.2; Some (e.1, saturating_add u64_max through 1))
        (map_to_list m)
  end.

Definition slot_receipts (reg : gmap K MeshSeen) (key : K) (s : Z) : SlotReceipts :=
  match slot_of reg key s with
  | None => mkSlotReceipts None []
  | Some st => mkSlotReceipts (forwarded_through st) (ahead st)
  end.

Definition has_resumable_state (reg : gmap K MeshSeen) (key : K) : bool :=
  bool_decide (is_Some (reg !! key)).

End registries.

(** ** The gate's state against the set it has forwarded *)

Implicit Types (st : SlotSeen) (M : Z -> Prop).

(** [st] is a record of the forwarded numbers [M]. *)
Record records st M : Prop := {
  rc_inv : slot_inv (as_dedup st);
  rc_ahead : forall x, x ∈ ahead st -> M x;
  rc_top : forall t, forwarded_through st = Some t -> M t;
  rc_seen : forall x, 0 <= x -> M x -> delivered (as_dedup st) x;
  rc_exact : prefix_collapsed st = false -> forall x, 0 <= x -> delivered (as_dedup st) x -> M x;
}.

Definition capped st : Prop := Z.of_nat (length (ahead st)) <= SPARSE_SEEN_CAP.

Lemma as_dedup_absorb st :
  as_dedup (absorb_contiguous_run st) = Dedup.absorb_contiguous_run (as_dedup st).
Proof. unfold absorb_contiguous_run. cbn. by destruct (Dedup.absorb_contiguous_run (as_dedup st)). Qed.

Lemma records_empty : records empty_seen (fun _ => False).
Proof.
  split; [apply slot_inv_empty|set_solver|done|done|].
  intros _ x Hx [Hb|Ha]; [|set_solver]. unfold base in Hb. cbn in Hb. lia.
Qed.

(** Folding, from the state before the invariant is restored. *)
Lemma records_absorb st M :
  BTreeSet.wf (ahead st) -> 0 <= base (as_dedup st) <= u64_max + 1 ->
  (forall x, x ∈ ahead st -> base (as_dedup st) <= x <= u64_max) ->
  (forall x, x ∈ ahead st -> M x) -> (forall t, forwarded_through st = Some t -> M t) ->
  (forall x, 0 <= x -> M x -> delivered (as_dedup st) x) ->
  (prefix_collapsed st = false -> forall x, 0 <= x -> delivered (as_dedup st) x -> M x) ->
  records (absorb_contiguous_run st) M /\
  base (as_dedup st) <= base (as_dedup (absorb_contiguous_run st)) /\
  (length (ahead (absorb_contiguous_run st)) <= length (ahead st))%nat.
Proof.
  intros Hwf Hb Hin HM Htop Hseen Hex.
  destruct (absorb_folds (as_dedup st) Hwf Hb Hin) as [[Hd Ha Hbase] Hi].
  pose proof (absorb_length (as_dedup st)) as Hlen. pose proof (absorb_top (as_dedup st)) as Htop'.
  rewrite <- as_dedup_absorb in *. split; [|split; [done|exact Hlen]].
  split; [done| | | |].
  - intros x Hx. apply HM, Ha, Hx.
  - intros t Ht. change (delivered_through (as_dedup (absorb_contiguous_run st)))
      with (forwarded_through (absorb_contiguous_run st)) in Htop'. rewrite Ht in Htop'.
    destruct Htop' as [Heq|(x & Hx & [= ->])]; [by apply Htop|by apply HM].
  - intros x Hx HMx. apply Hd; auto.
  - intros Hc x Hx Hdx. apply Hex; [done|done|]. by apply Hd.
Qed.

Lemma collapse_loop_spec fuel st M :
  (length (ahead st) <= fuel)%nat -> records st M ->
  records (collapse_loop fuel st) M /\ capped (collapse_loop fuel st) /\
  (collapse_loop fuel st = st \/ prefix_collapsed (collapse_loop fuel st) = true).
Proof.
  assert (Hcap : 0 <= SPARSE_SEEN_CAP) by (unfold SPARSE_SEEN_CAP; lia).
  revert st. induction fuel as [|fuel IH]; intros st Hlen Hr; cbn [collapse_loop].
  { split; [done|]. split; [unfold capped; lia|by left]. }
  destruct (Z.ltb_spec SPARSE_SEEN_CAP (Z.of_nat (length (ahead st)))) as [Hover|]; [|by split_and!; [| |left]].
  destruct st as [dt l c]. cbn [ahead] in *. destruct l as [|lowest rest]; [cbn in *; lia|].
  destruct Hr as [[Hwf Hb Hin] Ha Ht Hs He]. cbn [as_dedup ahead forwarded_through Dedup.ahead] in *.
  pose proof (Hin lowest ltac:(left)) as Hlow.
  destruct (records_absorb (mkSlotSeen (Some lowest) rest true) M) as (Hr' & _ & Hl').
  - by eapply BTreeSet.wf_tail.
  - unfold base. cbn. lia.
  - intros x Hx. pose proof (BTreeSet.wf_head _ _ _ Hwf Hx). specialize (Hin x ltac:(by right)).
    unfold base. cbn. lia.
  - intros x Hx. apply Ha. by right.
  - intros t [= <-]. apply Ha. left.
  - intros x Hx HM. destruct (Hs x Hx HM) as [Hlt|[->|Hx']%elem_of_cons].
    + left. unfold base in *. cbn in *. lia.
    + left. unfold base. cbn. lia.
    + by right.
  - done.
  - cbn [ahead] in Hl'. cbn [length] in *. destruct (IH _ ltac:(etrans; [exact Hl'|lia]) Hr') as (? & ? & Hc).
    split; [done|]. split; [done|]. right. destruct Hc as [->|?]; done.
Qed.

(** The next number of the prefix, and the run it joins. *)
Lemma records_next st M q :
  records st M -> q = base (as_dedup st) -> q <= u64_max ->
  let st1 := absorb_contiguous_run (mkSlotSeen (Some q) (ahead st) (prefix_collapsed st)) in
  records st1 (fun x => M x \/ x = q) /\ base (as_dedup st) < base (as_dedup st1) /\
  (length (ahead st1) <= length (ahead st))%nat.
Proof.
  intros [[Hwf Hb Hin] Ha Ht Hs He] Hq Hmax.
  set (st0 := mkSlotSeen (Some q) (ahead st) (prefix_collapsed st)).
  assert (Hb0 : base (as_dedup st0) = q + 1) by done.
  destruct (records_absorb st0 (fun x => M x \/ x = q)) as (Hr1 & Hb1 & Hl1).
  - done.
  - lia.
  - intros x Hx. specialize (Hin x Hx). lia.
  - intros x Hx. left. by apply Ha.
  - intros t [= <-]. by right.
  - intros x Hx [HM| ->]; [|left; lia]. destruct (Hs x Hx HM) as [?|?]; [left; lia|by right].
  - intros Hc x Hx [Hlt|Hx']; [|left; by apply Ha].
    destruct (decide (x = q)); [by right|left]. apply He; [done|done|]. left. lia.
  - cbn zeta. split; [done|]. split; [lia|done].
Qed.

(** A number above a gap joins the sparse set; the fold then changes the
    prefix only if it moves it up. *)
Lemma records_sparse st M q :
  records st M -> base (as_dedup st) < q <= u64_max ->
  let st1 := absorb_contiguous_run
               (mkSlotSeen (forwarded_through st) (BTreeSet.insert q (ahead st)) (prefix_collapsed st)) in
  records st1 (fun x => M x \/ x = q) /\
  (forwarded_through st1 <> forwarded_through st -> base (as_dedup st) < base (as_dedup st1)).
Proof.
  intros [[Hwf Hb Hin] Ha Ht Hs He] Hq.
  set (st0 := mkSlotSeen (forwarded_through st) (BTreeSet.insert q (ahead st)) (prefix_collapsed st)).
  assert (Hin0 : forall x, x ∈ ahead st0 -> base (as_dedup st) < x <= u64_max).
  { intros x [->|Hx]%BTreeSet.elem_of_insert; [lia|]. by apply Hin. }
  cbn zeta. set (st1 := absorb_contiguous_run st0). split.
  - apply records_absorb.
    + by apply BTreeSet.wf_set_insert.
    + done.
    + intros x Hx. specialize (Hin0 x Hx). change (base (as_dedup st0)) with (base (as_dedup st)). lia.
    + intros x [->|Hx']%BTreeSet.elem_of_insert; [by right|left; by apply Ha].
    + intros t Htt. left. by apply Ht.
    + intros x Hx0 [HM| ->]; [|right; apply BTreeSet.elem_of_insert; by left].
      destruct (Hs x Hx0 HM) as [?|?]; [by left|right; apply BTreeSet.elem_of_insert; by right].
    + intros Hc x Hx0 [Hlt|[->|Hx']%BTreeSet.elem_of_insert];
        [left; apply He; [done|done|by left]|by right|left; by apply Ha].
  - intros Hmoved. pose proof (absorb_top (as_dedup st0)) as Htop. rewrite <- as_dedup_absorb in Htop.
    fold st1 in Htop. destruct Htop as [Htop|(x & Hx & Htop)]; [by destruct Hmoved|].
    unfold base at 2. rewrite Htop. specialize (Hin0 x Hx). lia.
Qed.

(** What marking one number does, for both verdicts. *)
Lemma mark_slot_spec st M q :
  records st M -> capped st -> is_u64 q ->
  let r := mark_slot st q in
  match seen r.1 with
  | SeenDuplicate => r.2 = st /\ delivered (as_dedup st) q
  | SeenNew => ~ delivered (as_dedup st) q /\
      records r.2 (fun x => M x \/ x = q) /\ capped r.2 /\
      (prefix_advanced r.1 = true ->
         prefix_collapsed r.2 = false /\ base (as_dedup st) < base (as_dedup r.2) /\
         forwarded r.1 = Z.min u64_max (base (as_dedup r.2)))
  end.
Proof.
  intros Hr Hcap Hq. pose proof (rc_inv _ _ Hr) as [Hwf Hb Hin].
  assert (Hcount : forall st', slot_forwarded_count st' = Z.min u64_max (base (as_dedup st'))).
  { intros st'. unfold slot_forwarded_count, base. cbn. destruct (forwarded_through st'); [done|]. width_lia. }
  unfold mark_slot.
  destruct (match forwarded_through st with Some t => q <=? t | None => false end) eqn:Hdup.
  { cbn. split; [done|]. left. unfold base. cbn. destruct (forwarded_through st); [lia|done]. }
  assert (Hge : base (as_dedup st) <= q).
  { unfold base. cbn. destruct (forwarded_through st); [lia|width_lia]. }
  assert (Hbase : (match forwarded_through st with
    | Some through => checked_add u64_max through 1 | None => Some 0 end) = Some (base (as_dedup st))).
  { unfold base in *. cbn in *. destruct (forwarded_through st); [|done]. apply checked_add_Some. width_lia. }
  rewrite Hbase. destruct (Z.eqb_spec q (base (as_dedup st))) as [Heq|Hne].
  - destruct (records_next st M q Hr Heq) as (Hr1 & Hb1 & Hl1); [width_lia|].
    cbn zeta in *. cbn [fst snd seen prefix_advanced forwarded]. split; [|split; [done|split]].
    + intros [?|Hx]; [lia|]. specialize (Hin q Hx). lia.
    + unfold capped in *. lia.
    + intros Hadv. split; [by destruct (prefix_collapsed _)|]. split; [lia|apply Hcount].
  - unfold BTreeSet.contains. destruct (bool_decide_reflect (q ∈ ahead st)) as [Hx|Hx].
    { cbn. split; [done|by right]. }
    destruct (records_sparse st M q Hr) as (Hr1 & Hb1); [width_lia|]. cbn zeta in *.
    set (st1 := absorb_contiguous_run _) in *.
    destruct (collapse_loop_spec (length (ahead st1)) st1 _ ltac:(done) Hr1) as (Hr2 & Hc2 & Hor).
    fold (collapse_to_cap st1) in *. cbn [fst snd seen prefix_advanced forwarded].
    split; [intros [?|?]; [lia|done]|]. split; [done|]. split; [done|].
    intros [Hclosed Hnc]%andb_true_iff. apply negb_true_iff in Hnc. split; [done|].
    destruct Hor as [Heq|?]; [|congruence]. rewrite Heq. split; [|apply Hcount].
    apply Hb1. by apply negb_true_iff, bool_decide_eq_false in Hclosed.
Qed.

Lemma records_iff st M M' : records st M -> (forall x, M x <-> M' x) -> records st M'.
Proof.
  intros [Hi Ha Ht Hs He] HM. split; [done|..].
  - intros x Hx. by apply HM, Ha.
  - intros t Htt. by apply HM, Ht.
  - intros x Hx Hm. by apply Hs, HM.
  - intros Hc x Hx Hd. by apply HM, He.
Qed.

Lemma last_max l q : BTreeSet.wf l -> last l = Some q -> forall x, x ∈ l -> x <= q.
Proof.
  induction l as [|y l IH]; intros Hwf Hl x Hx; [set_solver|].
  destruct l as [|z l].
  - cbn in Hl. injection Hl as ->. apply list_elem_of_singleton in Hx. lia.
  - change (last (y :: z :: l)) with (last (z :: l)) in Hl. pose proof (BTreeSet.wf_tail _ _ Hwf) as Hwf'.
    apply elem_of_cons in Hx as [->|Hx]; [|by apply IH].
    pose proof (BTreeSet.wf_head _ _ z Hwf ltac:(left)). specialize (IH Hwf' Hl z ltac:(left)). lia.
Qed.

(** ** Any sequence of marks over any sessions *)

Section traces.
Context {K : Type} `{!EqDecision K, !Countable K}.
Implicit Types (reg : gmap K MeshSeen) (F : list (K * Z * Z)) (ops : list (K * Z * Z)).

(** The turns reported new, in order, and the registries after. *)
Fixpoint mark_all reg ops : list (K * Z * Z) * gmap K MeshSeen :=
  match ops with
  | [] => ([], reg)
  | (key, s, q) :: ops =>
      let r := mark_seen reg key s q in
      let r' := mark_all r.2 ops in
      (match seen r.1 with SeenNew => [(key, s, q)] | SeenDuplicate => [] end ++ r'.1, r'.2)
  end.

Definition entry_of reg (key : K) (s : Z) : SlotSeen := default empty_seen (slot_of reg key s).

(** The registries hold the record of exactly the forwarded turns [F]. *)
Definition reg_inv reg F : Prop :=
  forall key s, records (entry_of reg key s) (fun q => (key, s, q) ∈ F) /\ capped (entry_of reg key s).

Lemma entry_of_mark reg key s q key' s' :
  entry_of (mark_seen reg key s q).2 key' s' =
    if decide (key = key' /\ s = s') then (mark_slot (entry_of reg key s) q).2
    else entry_of reg key' s'.
Proof.
  assert (Hent : default empty_seen (default (∅ : MeshSeen) (reg !! key) !! s) = entry_of reg key s).
  { unfold entry_of, slot_of. by destruct (reg !! key). }
  unfold mark_seen, mark_forwarded. cbn zeta. cbn [snd]. rewrite Hent.
  unfold entry_of at 1, slot_of. destruct (decide (key = key')) as [->|Hk].
  - rewrite lookup_insert_eq. cbn [mbind option_bind]. destruct (decide (s = s')) as [->|Hs].
    + rewrite lookup_insert_eq, decide_True by done. done.
    + rewrite lookup_insert_ne, decide_False by naive_solver. unfold entry_of, slot_of.
      by destruct (reg !! key').
  - rewrite lookup_insert_ne, decide_False by naive_solver. done.
Qed.

Lemma mark_seen_verdict reg key s q :
  (mark_seen reg key s q).1 = (mark_slot (entry_of reg key s) q).1.
Proof.
  unfold mark_seen, mark_forwarded, entry_of, slot_of. cbn. by destruct (reg !! key).
Qed.

Lemma reg_inv_empty : reg_inv new_seen_registries [].
Proof.
  intros key s. unfold entry_of, slot_of, new_seen_registries. rewrite lookup_empty. cbn. split.
  - eapply records_iff; [apply records_empty|]. intros x. by rewrite elem_of_nil.
  - unfold capped. cbn. unfold SPARSE_SEEN_CAP. lia.
Qed.

Lemma mark_seen_inv reg F key s q :
  reg_inv reg F -> is_u64 q ->
  let r := mark_seen reg key s q in
  match seen r.1 with
  | SeenNew => ((key, s, q) ∉ F) /\ reg_inv r.2 (F ++ [(key, s, q)])
  | SeenDuplicate => reg_inv r.2 F
  end.
Proof.
  intros Hinv Hq. cbn zeta. rewrite mark_seen_verdict. destruct (Hinv key s) as [Hr Hc].
  pose proof (mark_slot_spec _ _ q Hr Hc Hq) as Hm. cbn zeta in Hm.
  destruct (seen (mark_slot (entry_of reg key s) q).1) eqn:Hseen.
  - destruct Hm as (Hnew & Hr' & Hc' & _). split.
    + intros Hin. apply Hnew. apply (rc_seen _ _ Hr); [width_lia|done].
    + intros key' s'. rewrite entry_of_mark. case_decide as Hks.
      * destruct Hks as [-> ->]. split; [|done]. eapply records_iff; [exact Hr'|].
        intros x. rewrite elem_of_app, list_elem_of_singleton. naive_solver.
      * destruct (Hinv key' s') as [Hr2 Hc2]. split; [|done]. eapply records_iff; [exact Hr2|].
        intros x. rewrite elem_of_app, list_elem_of_singleton. naive_solver.
  - destruct Hm as [Hsame _]. intros key' s'. rewrite entry_of_mark, Hsame.
    case_decide as Hks; [destruct Hks as [-> ->]|]; apply Hinv.
Qed.

Lemma mark_all_inv reg F ops :
  reg_inv reg F -> NoDup F -> Forall (fun op => is_u64 op.2) ops ->
  reg_inv (mark_all reg ops).2 (F ++ (mark_all reg ops).1) /\ NoDup (F ++ (mark_all reg ops).1).
Proof.
  intros Hinv Hn Hops. revert reg F Hinv Hn. induction Hops as [|[[key s] q] ops Hq Hops IH];
    intros reg F Hinv Hn; cbn [mark_all fst snd]; [by rewrite app_nil_r|].
  pose proof (mark_seen_inv reg F key s q Hinv Hq) as Hm. cbn zeta in Hm.
  destruct (mark_seen reg key s q) as [f reg1]. cbn [fst snd] in *. destruct (seen f).
  - destruct Hm as [Hnot Hinv1]. rewrite app_assoc. apply IH; [done|].
    apply NoDup_app. split; [done|]. split; [|apply NoDup_singleton].
    intros x Hx ->%list_elem_of_singleton. done.
  - by apply IH.
Qed.

End traces.

(** ** Properties *)

(** The forward gate lets each turn through once: over any sequence of marks
    for any sessions and slots, in any order and with any repetition, no turn
    is reported new twice, and every slot's sparse set stays within its cap. *)
Theorem forward_gate_once (ops : list (Z * Z * Z)) :
  Forall (fun op => is_u64 op.2) ops ->
  NoDup (mark_all new_seen_registries ops).1 /\
  forall key s, capped (entry_of (mark_all new_seen_registries ops).2 key s).
Proof.
  intros Hops. destruct (mark_all_inv _ _ ops reg_inv_empty (NoDup_nil_2) Hops) as [Hinv Hn].
  split; [done|]. intros key s. apply (Hinv key s).
Qed.

(** What is read back from the gate is sound.  A leave's forwarded count
    covers only turns that were forwarded, every one below it; a reading of
    [Count n] means the slot's forwarded turns are exactly [0..n); a reading
    of [NeverForwarded] means there are none; and the highest forwarded number
    is exactly that, collapsed prefix or not. *)
Theorem forward_gate_readings (ops : list (Z * Z * Z)) (key s : Z) :
  Forall (fun op => is_u64 op.2) ops ->
  let forwarded_turns := (mark_all new_seen_registries ops).1 in
  let reg := (mark_all new_seen_registries ops).2 in
  (forall n, forwarded_count reg key s = Some n ->
     forall q, 0 <= q < n -> (key, s, q) ∈ forwarded_turns) /\
  match forward_gate_reading reg key s with
  | Count n => forall q, 0 <= q -> (key, s, q) ∈ forwarded_turns <-> q < n
  | NeverForwarded => forall q, 0 <= q -> (key, s, q) ∉ forwarded_turns
  | Unsound => True
  end /\
  match highest_forwarded_seq reg key s with
  | Some h => (key, s, h) ∈ forwarded_turns /\
      forall q, 0 <= q -> (key, s, q) ∈ forwarded_turns -> q <= h
  | None => forall q, 0 <= q -> (key, s, q) ∉ forwarded_turns
  end.
Proof.
  intros Hops. destruct (mark_all_inv _ _ ops reg_inv_empty (NoDup_nil_2) Hops) as [Hinv _].
  cbn zeta. set (F := (mark_all new_seen_registries ops).1) in *.
  set (reg := (mark_all new_seen_registries ops).2) in *. rewrite app_nil_l in Hinv.
  destruct (Hinv key s) as [Hr _]. unfold forwarded_count, forward_gate_reading, highest_forwarded_seq.
  unfold entry_of in Hr. destruct (slot_of reg key s) as [st|] eqn:Hst; cbn [from_option id mbind option_bind] in *.
  2: { assert (Hnone : forall q, 0 <= q -> (key, s, q) ∉ F).
       { intros q Hq HF. destruct (rc_seen _ _ Hr q Hq HF) as [Hlt|Hx];
           [change (q < 0) in Hlt; lia|by apply elem_of_nil in Hx]. }
       by split_and!. }
  destruct Hr as [[Hwf Hb Hin] Ha Ht Hs He].
  assert (Hbase : forall t, forwarded_through st = Some t -> base (as_dedup st) = t + 1)
    by (intros t Htt; unfold base; cbn; by rewrite Htt).
  split; [|split].
  - intros n Hn q Hq. destruct (prefix_collapsed st) eqn:Hpc; [done|].
    destruct (forwarded_through st) as [t|] eqn:Htt; [|done]. cbn in Hn. apply checked_add_Some in Hn as [-> _].
    apply He; [done|lia|]. left. specialize (Hbase t eq_refl). lia.
  - destruct (prefix_collapsed st) eqn:Hpc; [done|]. cbn [orb]. case_bool_decide as Hnil; cbn [negb]; [|done].
    destruct (forwarded_through st) as [t|] eqn:Htt; cbn [mbind option_bind]; [|done].
    destruct (checked_add u64_max t 1) as [n|] eqn:Hn; [|done]. apply checked_add_Some in Hn as [-> _].
    specialize (Hbase t eq_refl). intros q Hq. split.
    + intros HF. destruct (Hs q Hq HF) as [?|Hx]; [lia|]. cbn in Hx. rewrite Hnil in Hx. by apply elem_of_nil in Hx.
    + intros Hlt. apply He; [done|done|]. left. lia.
  - destruct (last (ahead st)) as [h|] eqn:Hlast.
    + apply last_Some_elem_of in Hlast as Hh. split; [by apply Ha|]. intros q Hq HF.
      destruct (Hs q Hq HF) as [Hlt|Hx]; [|by eapply last_max]. specialize (Hin h Hh). lia.
    + apply last_None in Hlast. destruct (forwarded_through st) as [t|] eqn:Htt.
      * split; [by apply Ht|]. intros q Hq HF. specialize (Hbase t eq_refl).
        destruct (Hs q Hq HF) as [?|Hx]; [lia|]. cbn in Hx. rewrite Hlast in Hx. by apply elem_of_nil in Hx.
      * intros q Hq HF. destruct (Hs q Hq HF) as [Hlt|Hx].
        -- unfold base in Hlt. cbn in Hlt. rewrite Htt in Hlt. lia.
        -- cbn in Hx. rewrite Hlast in Hx. by apply elem_of_nil in Hx.
Qed.

(** ** Witnesses *)

Definition demo_marks : list (Z * Z * Z) :=
  [(7, 1, 1); (7, 1, 0); (7, 1, 1); (7, 2, 0); (8, 1, 0); (7, 1, 4); (7, 2, 0)].

Lemma demo_marks_ok : Forall (fun op => is_u64 op.2) demo_marks.
Proof. unfold demo_marks. repeat constructor; cbn; width_lia. Qed.

Lemma forward_gate_once_witness :
  (mark_all new_seen_registries demo_marks).1 = [(7, 1, 1); (7, 1, 0); (7, 2, 0); (8, 1, 0); (7, 1, 4)] /\
  NoDup (mark_all new_seen_registries demo_marks).1.
Proof.
  split; [vm_compute; reflexivity|]. exact (proj1 (forward_gate_once demo_marks demo_marks_ok)).
Defined.

Lemma forward_gate_readings_witness :
  let reg := (mark_all new_seen_registries demo_marks).2 in
  forwarded_count reg 7 1 = Some 2 /\ forward_gate_reading reg 7 1 = Unsound /\
  forward_gate_reading reg 7 2 = Count 1 /\ highest_forwarded_seq reg 7 1 = Some 4 /\
  forall q, 0 <= q < 2 -> (7, 1, q) ∈ (mark_all new_seen_registries demo_marks).1.
Proof.
  cbn zeta. split; [vm_compute; reflexivity|]. split; [vm_compute; reflexivity|].
  split; [vm_compute; reflexivity|]. split; [vm_compute; reflexivity|].
  apply (proj1 (forward_gate_readings demo_marks 7 1 demo_marks_ok)). vm_compute. reflexivity.
Defined.
