(* ===== verification/Reorder.v ===== *)
(** * The client's ordered-release buffer ([client/src/driver/reorder.rs])

    Turns arrive from the link in any order across packets; the game is handed
    each slot's turns in sequence.  The channel to the game is a library queue
    whose answers ([try_send]) are an argument, and so is the unspecified
    iteration order of the slot map. *)

From Stdlib Require Import ZArith Lia.
From stdpp Require Import gmap sorting list.
From S2P Require Import Prelude BTree Wire.

Open Scope Z_scope.

Inductive Release : Type := Delivered | GameClosed | GameStalled.

(** [mpsc::Sender::try_send]'s answers. *)
Inductive try_send_answer : Type := TrySent | TryFull | TryClosed.

Record SlotReorder : Type := mkSlotReorder {
  next_seq : gmap Z Z;
  pending : gmap Z (list (Z * Payload));
}.

Definition default_reorder : SlotReorder := mkSlotReorder ∅ ∅.

Definition next_needed (r : SlotReorder) (s : Z) : Z := default 0 (next_seq r !! s).
Definition pending_of (r : SlotReorder) (s : Z) : list (Z * Payload) := default [] (pending r !! s).

Definition observe (r : SlotReorder) (s : Z) (p : Payload) : SlotReorder :=
  let next := next_needed r s in
  mkSlotReorder (<[s := next]> (next_seq r))
    (if next <=? seq p then <[s := BTreeMap.insert (seq p) p (pending_of r s)]> (pending r)
     else pending r).

(** The [while let Some(payload) = slot_pending.remove(slot_next)] loop for one
    slot; [out] is what the game has been handed so far. *)
Fixpoint release_slot (fuel : nat) (try_send : list Payload -> Payload -> try_send_answer)
  (next : Z) (held : list (Z * Payload)) (out : list Payload) :
  Release * Z * list (Z * Payload) * list Payload :=
  match fuel with
  | O => (Delivered, next, held, out)
  | S fuel =>
      match BTreeMap.get held next with
      | None => (Delivered, next, held, out)
      | Some p =>
          let rest := BTreeMap.remove next held in
          match try_send out p with
          | TrySent => release_slot fuel try_send ((next + 1) mod 2 ^ 64) rest (out ++ [p])
          | TryFull => (GameStalled, next, BTreeMap.insert next p rest, out)
          | TryClosed => (GameClosed, next, rest, out)
          end
      end
  end.

(** The [for] loop over the slots. *)
Fixpoint release_slots (try_send : list Payload -> Payload -> try_send_answer)
  (order : list Z) (r : SlotReorder) (out : list Payload) : Release * SlotReorder * list Payload :=
  match order with
  | [] => (Delivered, r, out)
  | s :: order =>
      match pending r !! s with
      | None => release_slots try_send order r out
      | Some held =>
          let '(v, next, held', out') := release_slot (S (length held)) try_send (next_needed r s) held out in
          let r' := mkSlotReorder (<[s := next]> (next_seq r)) (<[s := held']> (pending r)) in
          match v with
          | Delivered => release_slots try_send order r' out'
          | _ => (v, r', out')
          end
      end
  end.

(** [order] is the iteration order of the keys of [next_seq]. *)
Definition release_into (try_send : list Payload -> Payload -> try_send_answer)
  (order : list Z) (r : SlotReorder) (out : list Payload) : Release * SlotReorder * list Payload :=
  release_slots try_send order r out.

Definition cursors (r : SlotReorder) : list (Z * Z) := map_to_list (next_seq r).
Definition reorder_slots (r : SlotReorder) : list Z := map fst (map_to_list (next_seq r)).

(** [ingest_fresh_turns] ([client/src/driver/inbound.rs]). *)
Definition ingest_fresh_turns (fresh : list Payload) (r : SlotReorder)
  (try_send : list Payload -> Payload -> try_send_answer) (order : list Z) (out : list Payload) :
  Release * SlotReorder * list Payload :=
  let r' := foldl (fun r p => match u8_try_from (slot p) with
                              | Some s => observe r s p
                              | None => r
                              end) r fresh in
  release_into try_send order r' out.

(** ** The invariant *)

Implicit Types (r : SlotReorder) (out obs : list Payload).

(** [out] was handed to the game out of the observed turns [obs]; [lossy] once
    the game has hung up. *)
Record reorder_inv r out obs (lossy : bool) : Prop := {
  ri_order : forall s, map seq (filter (fun p => slot p = s) out) = seqZ 0 (next_needed r s);
  ri_next : forall s, 0 <= next_needed r s <= u64_max;
  ri_wf : forall s, BTreeMap.wf (pending_of r s);
  ri_held : forall s q p, BTreeMap.get (pending_of r s) q = Some p ->
    q = seq p /\ slot p = s /\ next_needed r s <= q < u64_max /\ p ∈ obs;
  ri_out : forall p, p ∈ out -> p ∈ obs;
  ri_kept : lossy = false -> forall p, p ∈ obs ->
    seq p < next_needed r (slot p) \/ is_Some (BTreeMap.get (pending_of r (slot p)) (seq p));
  ri_known : forall s, is_Some (pending r !! s) -> is_Some (next_seq r !! s);
}.

Lemma reorder_inv_default : reorder_inv default_reorder [] [] false.
Proof.
  assert (Hn : forall s, next_needed default_reorder s = 0) by done.
  assert (Hp : forall s, pending_of default_reorder s = []) by done.
  split.
  - intros s. by rewrite Hn.
  - intros s. rewrite Hn. width_lia.
  - intros s. rewrite Hp. apply BTreeMap.wf_empty.
  - intros s q p. by rewrite Hp.
  - done.
  - intros _ p Hin. by apply elem_of_nil in Hin.
  - intros s [x Hx]. done.
Qed.

Lemma observe_inv r out obs lossy p :
  reorder_inv r out obs lossy -> is_u64 (seq p) -> seq p < u64_max ->
  reorder_inv (observe r (slot p) p) out (obs ++ [p]) lossy.
Proof.
  intros [Io In Iw Ih Iout Ik Ikn] Hq Hmax.
  assert (Hnext : forall s, next_needed (observe r (slot p) p) s = next_needed r s).
  { intros s. unfold observe, next_needed at 1. cbn [next_seq].
    destruct (decide (slot p = s)) as [<-|]; [by rewrite lookup_insert_eq|by rewrite lookup_insert_ne]. }
  assert (Hpend : forall s, pending_of (observe r (slot p) p) s =
    if decide (slot p = s /\ next_needed r (slot p) <= seq p)
    then BTreeMap.insert (seq p) p (pending_of r s) else pending_of r s).
  { intros s. unfold observe, pending_of at 1. cbn [pending].
    destruct (Z.leb_spec (next_needed r (slot p)) (seq p)).
    - destruct (decide (slot p = s)) as [<-|].
      + rewrite lookup_insert_eq, decide_True by done. done.
      + rewrite lookup_insert_ne, decide_False by tauto. done.
    - rewrite decide_False by lia. done. }
  split.
  - intros s. by rewrite Hnext.
  - intros s. by rewrite Hnext.
  - intros s. rewrite Hpend. destruct (decide (slot p = s /\ next_needed r (slot p) <= seq p)) as [Hc|Hc]; [by apply BTreeMap.wf_insert|done].
  - intros s q p'. rewrite Hpend, Hnext, elem_of_app. destruct (decide (slot p = s /\ next_needed r (slot p) <= seq p)) as [Hc|Hc].
    + rewrite BTreeMap.get_insert. destruct Hc as [<- Hc]. destruct (decide (seq p = q)) as [<-|].
      * intros [= <-]. split_and!; try done. right. by apply list_elem_of_singleton.
      * intros (? & ? & ? & ?)%Ih. tauto.
    + intros (? & ? & ? & ?)%Ih. tauto.
  - intros p' Hp'. apply elem_of_app. left. by apply Iout.
  - intros Hl p' [Hp'| ->%list_elem_of_singleton]%elem_of_app; rewrite Hnext, Hpend.
    + destruct (Ik Hl p' Hp') as [?|Hs]; [by left|right].
      destruct (decide (slot p = slot p' /\ next_needed r (slot p) <= seq p)) as [Hc|Hc]; [|done].
      rewrite BTreeMap.get_insert. destruct (decide (seq p = seq p')); [eauto|done].
    + destruct (decide (next_needed r (slot p) <= seq p)); [right|left; lia].
      rewrite decide_True by done. rewrite BTreeMap.get_insert_eq. eauto.
  - intros s. unfold observe. cbn [pending next_seq].
    destruct (decide (slot p = s)) as [<-|]; [rewrite lookup_insert_eq; eauto|rewrite lookup_insert_ne by done].
    destruct (next_needed r (slot p) <=? seq p); rewrite ?lookup_insert_ne by done; apply Ikn.
Qed.

(** ** Releasing *)

Definition with_slot r (s next : Z) (held : list (Z * Payload)) : SlotReorder :=
  mkSlotReorder (<[s := next]> (next_seq r)) (<[s := held]> (pending r)).

Lemma next_needed_with r s next held s' :
  next_needed (with_slot r s next held) s' = if decide (s = s') then next else next_needed r s'.
Proof.
  unfold next_needed, with_slot. cbn [next_seq].
  case_decide; [subst; by rewrite lookup_insert_eq|by rewrite lookup_insert_ne].
Qed.

Lemma pending_of_with r s next held s' :
  pending_of (with_slot r s next held) s' = if decide (s = s') then held else pending_of r s'.
Proof.
  unfold pending_of, with_slot. cbn [pending].
  case_decide; [subst; by rewrite lookup_insert_eq|by rewrite lookup_insert_ne].
Qed.

Lemma with_slot_twice r s n1 h1 n2 h2 :
  with_slot (with_slot r s n1 h1) s n2 h2 = with_slot r s n2 h2.
Proof. unfold with_slot. cbn. by rewrite !insert_insert_eq. Qed.

Lemma known_with r s next held :
  (forall s, is_Some (pending r !! s) -> is_Some (next_seq r !! s)) ->
  forall s', is_Some (pending (with_slot r s next held) !! s') ->
    is_Some (next_seq (with_slot r s next held) !! s').
Proof.
  intros Hk s'. cbn [with_slot pending next_seq].
  destruct (decide (s = s')) as [<-|]; [rewrite !lookup_insert_eq; eauto|].
  rewrite !lookup_insert_ne by done. apply Hk.
Qed.

(** Rewriting a slot with the same cursor and the same turns. *)
Lemma same_slot_inv r out obs lossy s held :
  reorder_inv r out obs lossy -> BTreeMap.wf held ->
  (forall q, BTreeMap.get held q = BTreeMap.get (pending_of r s) q) ->
  reorder_inv (with_slot r s (next_needed r s) held) out obs lossy.
Proof.
  intros [Io In Iw Ih Iout Ik Ikn] Hwf Hsame.
  assert (Hn : forall s', next_needed (with_slot r s (next_needed r s) held) s' = next_needed r s').
  { intros s'. rewrite next_needed_with. by case_decide; subst. }
  assert (Hg : forall s' q, BTreeMap.get (pending_of (with_slot r s (next_needed r s) held) s') q =
    BTreeMap.get (pending_of r s') q).
  { intros s' q. rewrite pending_of_with. by case_decide; subst. }
  split.
  - intros s'. by rewrite Hn.
  - intros s'. by rewrite Hn.
  - intros s'. rewrite pending_of_with. by case_decide.
  - intros s' q p. rewrite Hg, Hn. apply Ih.
  - done.
  - intros Hl p Hp. rewrite Hn, Hg. by apply Ik.
  - by apply known_with.
Qed.

(** Handing over the turn at the cursor. *)
Lemma hand_over_inv r out obs lossy s p :
  reorder_inv r out obs lossy -> BTreeMap.get (pending_of r s) (next_needed r s) = Some p ->
  reorder_inv (with_slot r s (next_needed r s + 1) (BTreeMap.remove (next_needed r s) (pending_of r s)))
    (out ++ [p]) obs lossy.
Proof.
  intros [Io In Iw Ih Iout Ik Ikn] Hp. destruct (Ih _ _ _ Hp) as (Hq & Hs & Hr & Hobs). split.
  - intros s'. rewrite next_needed_with, filter_app, map_app, filter_cons, filter_nil, Io.
    case_decide as Hss.
    + subst s s'. rewrite decide_True by done. pose proof (In (slot p)) as Hn. cbn [map].
      rewrite (seqZ_app 0 (next_needed r (slot p)) 1) by lia. f_equal.
      rewrite Z.add_0_l, (seqZ_cons (next_needed r (slot p)) 1), seqZ_nil by lia. by rewrite Hq.
    + rewrite decide_False by congruence. by rewrite app_nil_r.
  - intros s'. rewrite next_needed_with. case_decide; [|done]. specialize (In s). lia.
  - intros s'. rewrite pending_of_with. case_decide; [by apply BTreeMap.wf_remove|done].
  - intros s' q p'. rewrite pending_of_with, next_needed_with. case_decide as Hss; [|apply Ih].
    subst s'. rewrite BTreeMap.get_remove. case_decide; [done|]. intros (? & ? & ? & ?)%Ih.
    split_and!; try done; lia.
  - intros p' [?| ->%list_elem_of_singleton]%elem_of_app; [by apply Iout|done].
  - intros Hl p' Hp'. rewrite next_needed_with, pending_of_with. case_decide as Hss; [|by apply Ik].
    specialize (Ik Hl p' Hp'). rewrite <- Hss in Ik. rewrite BTreeMap.get_remove.
    destruct Ik as [?|?]; [left; lia|]. case_decide; [left; lia|by right].
  - by apply known_with.
Qed.

Lemma release_slot_spec fuel try_send r s out obs lossy :
  reorder_inv r out obs lossy -> (length (pending_of r s) < fuel)%nat ->
  let '(v, next, held, out') := release_slot fuel try_send (next_needed r s) (pending_of r s) out in
  reorder_inv (with_slot r s next held) out' obs (lossy || match v with GameClosed => true | _ => false end) /\
  (v = Delivered -> BTreeMap.get held next = None).
Proof.
  revert r out. induction fuel as [|fuel IH]; intros r out Hi Hf; [lia|]. cbn [release_slot].
  pose proof (ri_wf _ _ _ _ Hi s) as Hwf.
  destruct (BTreeMap.get (pending_of r s) (next_needed r s)) as [p|] eqn:Hp.
  2: { split; [|done]. rewrite orb_false_r. by apply same_slot_inv. }
  destruct (try_send out p).
  - pose proof (hand_over_inv r out obs lossy s p Hi Hp) as Hi'.
    destruct (ri_held _ _ _ _ Hi s _ _ Hp) as (_ & _ & Hr & _). pose proof (ri_next _ _ _ _ Hi s) as Hn.
    rewrite Z.mod_small by width_lia.
    set (r' := with_slot r s (next_needed r s + 1) (BTreeMap.remove (next_needed r s) (pending_of r s))) in *.
    assert (Hn' : next_needed r' s = next_needed r s + 1)
      by (unfold r'; by rewrite next_needed_with, decide_True).
    assert (Hp' : pending_of r' s = BTreeMap.remove (next_needed r s) (pending_of r s))
      by (unfold r'; by rewrite pending_of_with, decide_True).
    specialize (IH r' (out ++ [p]) Hi'). rewrite Hn', Hp' in IH.
    assert (Hlt : (length (BTreeMap.remove (next_needed r s) (pending_of r s)) < fuel)%nat).
    { unfold BTreeMap.remove, BTreeMap.retain.
      assert ((length (filter (fun e => e.1 <> next_needed r s) (pending_of r s)) <
        length (filter (fun _ => True) (pending_of r s)))%nat) as Hl.
      { apply (filter_length_strict _ _ _ (next_needed r s, p)); [done|by apply BTreeMap.elem_of_get|done|].
        cbn. tauto. }
      rewrite (filter_all (fun _ => True)) in Hl by done. lia. }
    specialize (IH Hlt).
    destruct (release_slot fuel try_send (next_needed r s + 1) _ (out ++ [p])) as [[[v next] held] out'].
    unfold r' in IH. by rewrite with_slot_twice in IH.
  - split; [|done]. rewrite orb_false_r. apply same_slot_inv; [done|by apply BTreeMap.wf_insert, BTreeMap.wf_remove|].
    intros q. rewrite BTreeMap.get_insert, BTreeMap.get_remove. repeat case_decide; subst; done.
  - split; [|done]. rewrite orb_true_r. destruct Hi as [Io In Iw Ih Iout Ik Ikn]. split; try done.
    + intros s'. rewrite next_needed_with, Io. by case_decide; subst.
    + intros s'. rewrite next_needed_with. by case_decide; subst.
    + intros s'. rewrite pending_of_with. case_decide; [by apply BTreeMap.wf_remove|done].
    + intros s' q p'. rewrite pending_of_with, next_needed_with. case_decide as Hss; [|apply Ih].
      subst s'. rewrite BTreeMap.get_remove. case_decide; [done|]. apply Ih.
    + by apply known_with.
Qed.

(** The slot holds nothing releasable. *)
Definition settled r (s : Z) : Prop := BTreeMap.get (pending_of r s) (next_needed r s) = None.

Lemma release_slots_spec try_send order r out obs lossy :
  reorder_inv r out obs lossy ->
  let '(v, r', out') := release_slots try_send order r out in
  reorder_inv r' out' obs (lossy || match v with GameClosed => true | _ => false end) /\
  (v = Delivered -> forall s, s ∈ order \/ settled r s -> settled r' s).
Proof.
  revert r out. induction order as [|s order IH]; intros r out Hi; cbn [release_slots].
  { rewrite orb_false_r. split; [done|]. intros _ s [Hs|?]; [by apply elem_of_nil in Hs|done]. }
  destruct (pending r !! s) as [held|] eqn:Hheld.
  2: { assert (Hset : settled r s).
       { unfold settled, pending_of. by rewrite Hheld. }
       specialize (IH r out Hi). destruct (release_slots try_send order r out) as [[v r'] out'].
       destruct IH as [IH1 IH2]. split; [done|]. intros Hv s' Hs'. apply IH2; [done|].
       rewrite elem_of_cons in Hs'. destruct Hs' as [[->|?]|?]; tauto. }
  assert (Hp : held = pending_of r s) by (unfold pending_of; by rewrite Hheld). subst held.
  pose proof (release_slot_spec (S (length (pending_of r s))) try_send r s out obs lossy Hi ltac:(lia)) as Hs.
  destruct (release_slot _ try_send (next_needed r s) (pending_of r s) out) as [[[v next] held'] out1].
  fold (with_slot r s next held'). destruct Hs as [Hi1 Hset].
  assert (Hset1 : v = Delivered -> forall s', s' = s \/ settled r s' -> settled (with_slot r s next held') s').
  { intros Hv s' Hs'. unfold settled. rewrite pending_of_with, next_needed_with.
    destruct (decide (s = s')) as [<-|]; [by apply Hset|]. destruct Hs' as [->|?]; done. }
  destruct v; [|split; done|split; done].
  specialize (IH (with_slot r s next held') out1). rewrite orb_false_r in Hi1. specialize (IH Hi1).
  destruct (release_slots try_send order (with_slot r s next held') out1) as [[v r'] out'].
  destruct IH as [IH1 IH2]. split; [done|]. intros Hv s' Hs'. apply IH2; [done|].
  rewrite elem_of_cons in Hs'. destruct Hs' as [[->|?]|?]; [right; apply Hset1; auto|by left|right; apply Hset1; auto].
Qed.

(** ** Any sequence of arrivals and releases *)

Inductive reorder_op : Type :=
| Arrive (p : Payload)
| Flush (order : list Z) (try_send : list Payload -> Payload -> try_send_answer).

Record run_state : Type := mkRun {
  buffer : SlotReorder;
  game : list Payload;
  arrived : list Payload;
  hung_up : bool;
}.

Definition start_run : run_state := mkRun default_reorder [] [] false.

Definition run_op (x : run_state) (op : reorder_op) : run_state :=
  match op with
  | Arrive p => mkRun (observe (buffer x) (slot p) p) (game x) (arrived x ++ [p]) (hung_up x)
  | Flush order try_send =>
      let '(v, r, out) := release_into try_send order (buffer x) (game x) in
      mkRun r out (arrived x) (hung_up x || match v with GameClosed => true | _ => false end)
  end.

Definition op_ok (op : reorder_op) : Prop :=
  match op with
  | Arrive p => 0 <= seq p < u64_max
  | Flush _ _ => True
  end.

Definition run_inv (x : run_state) : Prop := reorder_inv (buffer x) (game x) (arrived x) (hung_up x).

Lemma run_op_inv x op : run_inv x -> op_ok op -> run_inv (run_op x op).
Proof.
  intros Hi Hok. destruct op as [p|order try_send]; cbn [run_op op_ok] in *.
  - apply observe_inv; [done|width_lia|width_lia].
  - unfold release_into. pose proof (release_slots_spec try_send order _ _ _ _ Hi) as Hr.
    destruct (release_slots try_send order (buffer x) (game x)) as [[v r] out]. apply Hr.
Qed.

Lemma run_inv_all ops x : run_inv x -> Forall op_ok ops -> run_inv (foldl run_op x ops).
Proof.
  intros Hi Hops. revert x Hi. induction Hops as [|op ops Hop Hops IH]; intros x Hi; [done|].
  cbn [foldl]. apply IH. by apply run_op_inv.
Qed.

(** ** Properties *)

(** C36 The game is handed each slot's turns in sequence: whatever order turns
    arrive in, however often, and however the channel answers, the turns of a
    slot reach the game as numbers 0, 1, 2, ... up to the slot's cursor with no
    gap and no repeat, and every one of them arrived. *)
Theorem game_order (ops : list reorder_op) :
  Forall op_ok ops ->
  let x := foldl run_op start_run ops in
  (forall s, map seq (filter (fun p => slot p = s) (game x)) = seqZ 0 (next_needed (buffer x) s)) /\
  (forall p, p ∈ game x -> p ∈ arrived x).
Proof.
  intros Hops. pose proof (run_inv_all ops start_run reorder_inv_default Hops) as Hi. cbn zeta.
  split; [apply Hi|apply Hi].
Qed.

(** Nothing releasable is held back: after a release over every known slot
    that the game fully accepts, each arrived turn whose predecessors have all
    arrived has been handed over, unless the game hung up earlier. *)
Theorem release_complete (ops : list reorder_op) (order : list Z)
  (try_send : list Payload -> Payload -> try_send_answer) :
  Forall op_ok ops ->
  let x := foldl run_op start_run ops in
  hung_up x = false -> (forall s, is_Some (next_seq (buffer x) !! s) -> s ∈ order) ->
  let '(v, r, out) := release_into try_send order (buffer x) (game x) in
  v = Delivered ->
  forall p, p ∈ arrived x ->
    (forall q, 0 <= q < seq p -> exists p', p' ∈ arrived x /\ origin p' = (slot p, q)) ->
    seq p < next_needed r (slot p).
Proof.
  intros Hops. pose proof (run_inv_all ops start_run reorder_inv_default Hops) as Hi. cbn zeta.
  set (x := foldl run_op start_run ops) in *. intros Hup Hord. unfold release_into.
  pose proof (release_slots_spec try_send order _ _ _ _ Hi) as Hr.
  destruct (release_slots try_send order (buffer x) (game x)) as [[v r] out].
  destruct Hr as [Hi' Hset]. intros -> p Hp Hbelow. rewrite Hup in Hi'. cbn [orb] in Hi'.
  destruct (decide (seq p < next_needed r (slot p))) as [|Hge]; [done|]. exfalso.
  assert (Hat : exists p', p' ∈ arrived x /\ origin p' = (slot p, next_needed r (slot p))).
  { destruct (decide (next_needed r (slot p) = seq p)) as [->|Hne]; [by exists p|].
    apply Hbelow. pose proof (ri_next _ _ _ _ Hi' (slot p)). lia. }
  destruct Hat as (p' & Hp' & [= Hs' Hq']).
  destruct (ri_kept _ _ _ _ Hi' eq_refl p' Hp') as [?|[e He]]; [rewrite Hs' in *; lia|].
  rewrite Hs', Hq' in He. assert (Hst : settled r (slot p)); [|unfold settled in Hst; congruence].
  apply Hset; [done|]. destruct (pending (buffer x) !! slot p) as [h|] eqn:Hh.
  - left. apply Hord. apply (ri_known _ _ _ _ Hi). eauto.
  - right. unfold settled, pending_of. by rewrite Hh.
Qed.

(** ** Witnesses: two slots out of order, a full channel, then a full drain *)

Definition game_turn (s q : Z) : Payload := mkPayload q s [] None None None None.

Definition demo_run : list reorder_op :=
  [Arrive (game_turn 1 1); Flush [1] (fun _ _ => TrySent); Arrive (game_turn 1 0);
   Arrive (game_turn 2 0); Arrive (game_turn 1 1);
   Flush [2; 1] (fun out _ => match out with [] => TrySent | _ => TryFull end);
   Arrive (game_turn 1 3)].

Lemma demo_run_ok : Forall op_ok demo_run.
Proof. unfold demo_run. repeat constructor; cbn; width_lia. Qed.

Lemma game_order_witness :
  game (foldl run_op start_run demo_run) = [game_turn 2 0] /\
  map seq (filter (fun p => slot p = 2) (game (foldl run_op start_run demo_run))) = [0].
Proof.
  split; [vm_compute; reflexivity|].
  rewrite (proj1 (game_order demo_run demo_run_ok) 2). vm_compute. reflexivity.
Defined.

Lemma release_complete_witness :
  let x := foldl run_op start_run demo_run in
  (release_into (fun _ _ => TrySent) [1; 2] (buffer x) (game x)).2 =
    [game_turn 2 0; game_turn 1 0; game_turn 1 1] /\
  1 < next_needed (release_into (fun _ _ => TrySent) [1; 2] (buffer x) (game x)).1.2 1.
Proof.
  cbn zeta. split; [vm_compute; reflexivity|].
  pose proof (release_complete demo_run [1; 2] (fun _ _ => TrySent) demo_run_ok) as Hc. cbn zeta in Hc.
  assert (Hsub : forall s, is_Some (next_seq (buffer (foldl run_op start_run demo_run)) !! s) -> s ∈ [1; 2]).
  { intros s. assert (next_seq (buffer (foldl run_op start_run demo_run)) = {[1 := 0; 2 := 1]}) as ->
      by (vm_compute; reflexivity).
    destruct (decide (s = 1)) as [->|]; [intros; left|].
    destruct (decide (s = 2)) as [->|]; [intros; right; left|].
    rewrite lookup_insert_ne, lookup_singleton_ne by done. by intros [? ?]. }
  specialize (Hc eq_refl Hsub).
  destruct (release_into (fun _ _ => TrySent) [1; 2] (buffer (foldl run_op start_run demo_run))
    (game (foldl run_op start_run demo_run))) as [[v r] out] eqn:Hr. cbn [fst snd].
  apply (Hc ltac:(vm_compute in Hr; by injection Hr) (game_turn 1 1)).
  - change (arrived (foldl run_op start_run demo_run)) with
      [game_turn 1 1; game_turn 1 0; game_turn 2 0; game_turn 1 1; game_turn 1 3]. left.
  - intros q Hq. change (0 <= q < 1) in Hq. assert (q = 0) as -> by lia.
    exists (game_turn 1 0). split; [|reflexivity].
    change (arrived (foldl run_op start_run demo_run)) with
      [game_turn 1 1; game_turn 1 0; game_turn 2 0; game_turn 1 1; game_turn 1 3]. right. left.
Defined.
