(* ===== verification/Directive.v ===== *)
(** * Applying latency-buffer directives on the client ([client/src/directive.rs])

    Every client must apply the same buffer change at the same simulated step.
    Copies of a directive arrive many times, out of order, interleaved with
    superseded ones; the tracker collapses them.  Its outcome depends only on
    which stamps arrived, and a change surfaces exactly at its apply frame. *)

From Stdlib Require Import ZArith Lia.
From stdpp Require Import gmap sorting list.
From S2P Require Import Prelude BTree Wire.

Open Scope Z_scope.

Record DirectiveTracker : Type := mkDirectiveTracker {
  highest_seq : Z;
  highest_seq_tiebreak : option Z;
  pending : option BufferDirective;
}.

Definition new_tracker : DirectiveTracker := mkDirectiveTracker 0 None None.

(** The derived order of [Option<u64>]: [None] first. *)
Definition option_le (a b : option Z) : bool :=
  match a, b with
  | None, _ => true
  | Some _, None => false
  | Some x, Some y => x <=? y
  end.

Definition observe (t : DirectiveTracker) (d : BufferDirective) (next_frame : Z) : DirectiveTracker :=
  let displaced :=
    mkDirectiveTracker (decision_seq d) (authority_relay_id d)
      (if next_frame <=? apply_at_frame d then Some d else None) in
  match decision_seq d ?= highest_seq t with
  | Lt => t
  | Eq => if option_le (authority_relay_id d) (highest_seq_tiebreak t) then t else displaced
  | Gt => displaced
  end.

Definition take_due (t : DirectiveTracker) (next_frame : Z) : option BufferDirective * DirectiveTracker :=
  match pending t with
  | None => (None, t)
  | Some d =>
      if apply_at_frame d <=? next_frame
      then (Some d, mkDirectiveTracker (highest_seq t) (highest_seq_tiebreak t) None)
      else (None, t)
  end.

(** ** Ranks *)

Implicit Types (t : DirectiveTracker) (d : BufferDirective).

(** Relay ids are unsigned, so [-1] stands for none. *)
Definition id_rank (o : option Z) : Z := default (-1) o.
Definition rank d : Z * Z := (decision_seq d, id_rank (authority_relay_id d)).
Definition tracker_rank t : Z * Z := (highest_seq t, id_rank (highest_seq_tiebreak t)).

Definition valid_id (o : option Z) : Prop := forall a, o = Some a -> 0 <= a.
Definition valid d : Prop := valid_id (authority_relay_id d).

Lemma option_le_rank a b : valid_id a -> valid_id b -> option_le a b = true <-> id_rank a <= id_rank b.
Proof.
  intros Ha Hb. destruct a as [x|], b as [y|]; cbn.
  - by rewrite Z.leb_le.
  - specialize (Ha x eq_refl). split; [done|lia].
  - specialize (Hb y eq_refl). split; [lia|done].
  - split; [lia|done].
Qed.

Lemma id_rank_inj a b : valid_id a -> valid_id b -> id_rank a = id_rank b -> a = b.
Proof.
  intros Ha Hb. destruct a as [x|], b as [y|]; cbn; intros Heq; [by subst|..|done].
  - specialize (Ha x eq_refl). lia.
  - specialize (Hb y eq_refl). lia.
Qed.

(** A stamp displaces exactly when it outranks what the tracker holds. *)
Lemma observe_spec t d f :
  valid d -> valid_id (highest_seq_tiebreak t) ->
  observe t d f =
    if decide (klt (tracker_rank t) (rank d))
    then mkDirectiveTracker (decision_seq d) (authority_relay_id d)
           (if f <=? apply_at_frame d then Some d else None)
    else t.
Proof.
  intros Hd Ht. pose proof (option_le_rank (authority_relay_id d) (highest_seq_tiebreak t) Hd Ht) as Hle.
  unfold observe, klt, pair_ord, klt, Z_ord, tracker_rank, rank. cbn [fst snd].
  destruct (Z.compare_spec (decision_seq d) (highest_seq t)) as [Heq|Hlt|Hgt].
  - destruct (option_le _ _); (case_decide as Hk; [|try done]); [|done|]; exfalso.
    + assert (true = true) as Htt by done. apply Hle in Htt. lia.
    + apply Hk. right. split; [done|]. destruct (Z.le_gt_cases (id_rank (authority_relay_id d))
        (id_rank (highest_seq_tiebreak t))) as [Hc|Hc]; [|lia]. apply Hle in Hc. done.
  - rewrite decide_False by lia. done.
  - rewrite decide_True by lia. done.
Qed.

(** ** Which stamps arrived is all that matters *)

(** The state after observing, at frame [f], stamps whose best is [w]. *)
Definition won (w : BufferDirective) (f : Z) : DirectiveTracker :=
  mkDirectiveTracker (decision_seq w) (authority_relay_id w)
    (if f <=? apply_at_frame w then Some w else None).

(** A stream of stamps, each with the frame it was observed at. *)
Definition observe_all t (l : list (BufferDirective * Z)) : DirectiveTracker :=
  foldl (fun t x => observe t x.1 x.2) t l.

(** Either nothing outranked the tracker, or the result is the best stamp. *)
Lemma observe_all_spec t l :
  Forall (fun x => valid x.1) l -> valid_id (highest_seq_tiebreak t) ->
  (observe_all t l = t /\ forall x, x ∈ l -> ~ klt (tracker_rank t) (rank x.1)) \/
  exists w f, (w, f) ∈ l /\ observe_all t l = won w f /\ klt (tracker_rank t) (rank w) /\
    forall x, x ∈ l -> ~ klt (rank w) (rank x.1).
Proof.
  intros Hl. revert t. induction Hl as [|[d f] l Hd Hl IH]; intros t Ht; cbn [observe_all foldl fst snd].
  { left. split; [done|]. intros x Hin. by apply elem_of_nil in Hin. }
  rewrite observe_spec by done. destruct (decide (klt (tracker_rank t) (rank d))) as [Hlt|Hnlt].
  - right. fold (won d f). fold (observe_all (won d f) l).
    destruct (IH (won d f) Hd) as [[Heq Hno]|(w & fw & Hw & Heq & Hltw & Hno)].
    + exists d, f. split; [left|]. split; [done|]. split; [done|].
      intros x [->|Hx]%elem_of_cons; [apply klt_irrefl|by apply Hno].
    + exists w, fw. split; [by right|]. split; [done|]. change (tracker_rank (won d f)) with (rank d) in Hltw.
      split; [exact (klt_trans _ _ _ Hlt Hltw)|]. intros x [->|Hx]%elem_of_cons; [|by apply Hno].
      intros Hc. exact (klt_irrefl _ (klt_trans _ _ _ Hc Hltw)).
  - fold (observe_all t l). destruct (IH t Ht) as [[Heq Hno]|(w & fw & Hw & Heq & Hltw & Hno)].
    + left. split; [done|]. intros x [->|Hx]%elem_of_cons; [done|by apply Hno].
    + right. exists w, fw. split; [by right|]. split; [done|]. split; [done|].
      intros x [->|Hx]%elem_of_cons; [|by apply Hno]. intros Hc. exact (Hnlt (klt_trans _ _ _ Hltw Hc)).
Qed.

(** ** A schedule: per frame, the stamps drained and then the poll *)

Fixpoint play t (f : Z) (schedule : list (list BufferDirective)) : list (Z * BufferDirective) :=
  match schedule with
  | [] => []
  | ds :: rest =>
      let r := take_due (observe_all t (map (fun d => (d, f)) ds)) f in
      match r.1 with Some d => [(f, d)] | None => [] end ++ play r.2 (f + 1) rest
  end.

(** Between polls: the pending change is the tracker's winner and its frame is
    still to come. *)
Definition ready t (f : Z) : Prop :=
  valid_id (highest_seq_tiebreak t) /\
  forall d, pending t = Some d -> rank d = tracker_rank t /\ f <= apply_at_frame d.

Lemma ready_observe_all t ds f :
  Forall valid ds -> ready t f ->
  let t' := observe_all t (map (fun d => (d, f)) ds) in
  ready t' f /\ (t' = t \/ klt (tracker_rank t) (tracker_rank t')).
Proof.
  intros Hds [Hv Hp]. cbn zeta.
  destruct (observe_all_spec t (map (fun d => (d, f)) ds)) as [[-> _]|(w & fw & Hw & -> & Hlt & _)];
    [by apply Forall_fmap|done|split; [by split|by left]|].
  apply list_elem_of_fmap in Hw as (w' & [= <- ->] & Hw).
  split; [|by right]. split; [rewrite Forall_forall in Hds; by apply Hds|].
  cbn [won pending]. intros d. destruct (Z.leb_spec f (apply_at_frame w)); [|done]. by intros [= <-].
Qed.

Lemma ready_take_due t f :
  ready t f ->
  let r := take_due t f in
  ready r.2 (f + 1) /\ tracker_rank r.2 = tracker_rank t /\
  match r.1 with
  | Some d => rank d = tracker_rank t /\ apply_at_frame d = f /\ pending r.2 = None /\ pending t <> None
  | None => r.2 = t
  end.
Proof.
  intros [Hv Hp]. unfold take_due. destruct (pending t) as [d|] eqn:Hpend.
  - destruct (Hp d eq_refl) as [Hr Hf]. destruct (Z.leb_spec (apply_at_frame d) f); cbn [fst snd].
    + split; [by split|]. split; [done|]. split; [done|]. split; [lia|]. split; [done|congruence].
    + split; [|done]. split; [done|]. intros d'. rewrite Hpend. intros [= <-]. split; [done|lia].
  - cbn [fst snd]. split; [|done]. split; [done|]. by rewrite Hpend.
Qed.

(** What surfaces from a tracker with nothing pending outranks it strictly. *)
Lemma play_spec schedule t f :
  Forall (Forall valid) schedule -> ready t f ->
  Forall (fun x => apply_at_frame x.2 = x.1) (play t f schedule) /\
  StronglySorted (fun x y => klt (rank x.2) (rank y.2)) (play t f schedule) /\
  Forall (fun x => klt (tracker_rank t) (rank x.2) \/
    (pending t <> None /\ rank x.2 = tracker_rank t)) (play t f schedule).
Proof.
  intros Hs. revert t f. induction Hs as [|ds schedule Hds Hs IH]; intros t f Hr; cbn [play].
  { split; [constructor|]. split; constructor. }
  destruct (ready_observe_all t ds f Hds Hr) as [Hr1 Hmove]. cbn zeta in Hr1, Hmove.
  set (t1 := observe_all t (map (fun d => (d, f)) ds)) in *.
  destruct (ready_take_due t1 f Hr1) as (Hr2 & Hrank & Hout). cbn zeta in Hr2, Hrank, Hout.
  destruct (IH _ _ Hr2) as (IH1 & IH2 & IH3).
  destruct (take_due t1 f) as [[d|] t2]; cbn [fst snd] in *.
  - destruct Hout as (Hd & Hf & Hnone & Hsome). cbn [app].
    assert (Hup : Forall (fun x => klt (rank d) (rank x.2)) (play t2 (f + 1) schedule)).
    { eapply Forall_impl; [exact IH3|]. intros x [Hk|[? _]]; [by rewrite Hrank, <- Hd in Hk|done]. }
    split; [by constructor|]. split; [by constructor|].
    assert (Hfirst : klt (tracker_rank t) (rank d) \/ (pending t <> None /\ rank d = tracker_rank t)).
    { rewrite Hd. destruct Hmove as [Heq|?]; [right|by left]. by rewrite Heq in *. }
    constructor; [done|].
    eapply Forall_impl; [exact Hup|]. intros x Hx. left.
    destruct Hfirst as [Hk|[_ <-]]; [exact (klt_trans _ _ _ Hk Hx)|done].
  - subst t2. cbn [app]. split; [done|]. split; [done|]. eapply Forall_impl; [exact IH3|].
    intros x. destruct Hmove as [->|Hk]; [done|]. intros [Hk'|[_ ->]]; left; [exact (klt_trans _ _ _ Hk Hk')|done].
Qed.

(** ** Properties *)

(** Agreement: two clients that have received the same set of stamps, in
    whatever order, with whatever repetition and at whatever frames, hold the
    same winning decision; and if each saw that decision no later than its
    apply frame, both hold it pending. *)
Theorem directive_agreement (l1 l2 : list (BufferDirective * Z)) :
  Forall (fun x => valid x.1) l1 ->
  (forall d, d ∈ map fst l1 <-> d ∈ map fst l2) ->
  (forall d d', d ∈ map fst l1 -> d' ∈ map fst l1 -> rank d = rank d' -> d = d') ->
  let t1 := observe_all new_tracker l1 in
  let t2 := observe_all new_tracker l2 in
  tracker_rank t1 = tracker_rank t2 /\
  ((forall x, x ∈ l1 \/ x ∈ l2 -> x.2 <= apply_at_frame x.1) -> t1 = t2).
Proof.
  intros Hv1 Hsame Huniq.
  assert (Hmem : forall l d f, (d, f) ∈ l -> d ∈ @map (BufferDirective * Z) _ fst l)
    by (intros l d f Hin; apply list_elem_of_fmap; by exists (d, f)).
  assert (Hv2 : Forall (fun x => valid x.1) l2).
  { apply Forall_forall. intros [d f] Hin. cbn. apply Hmem, Hsame, list_elem_of_fmap in Hin as (x & -> & Hx).
    rewrite Forall_forall in Hv1. by apply Hv1. }
  assert (Hover : forall (l l' : list (BufferDirective * Z)) r, (forall d, d ∈ map fst l <-> d ∈ map fst l') ->
    (forall x, x ∈ l -> ~ klt r (rank x.1)) -> forall d f, (d, f) ∈ l' -> ~ klt r (rank d)).
  { intros l l' r Hll Hno d f Hin. apply Hmem, Hll, list_elem_of_fmap in Hin as (x & -> & Hx). by apply Hno. }
  destruct (observe_all_spec new_tracker l1 Hv1 ltac:(done)) as [[-> Hno1]|(w1 & f1 & Hw1 & -> & Hlt1 & Hno1)],
    (observe_all_spec new_tracker l2 Hv2 ltac:(done)) as [[-> Hno2]|(w2 & f2 & Hw2 & -> & Hlt2 & Hno2)]; cbn zeta.
  - done.
  - exfalso. by eapply (Hover l1 l2); [| |exact Hw2|].
  - exfalso. by eapply (Hover l2 l1); [| |exact Hw1|].
  - assert (w1 = w2) as ->.
    { apply Huniq; [by eapply Hmem|by eapply Hsame, Hmem|].
      assert (~ klt (rank w1) (rank w2)) by (by eapply (Hover l1 l2)).
      assert (~ klt (rank w2) (rank w1)) by (by eapply (Hover l2 l1)).
      destruct (klt_total (rank w1) (rank w2)) as [?|[?|?]]; done. }
    split; [done|]. intros Hf. unfold won. f_equal.
    pose proof (Hf (w2, f1) ltac:(by left)). pose proof (Hf (w2, f2) ltac:(by right)). cbn in *.
    rewrite !(proj2 (Z.leb_le _ _)) by done. done.
Qed.

(** Exact, at-most-once application: under one poll per simulated step,
    whatever stamps arrive at each step, every change that surfaces does so
    exactly at its apply frame, and in strictly increasing rank, so no decision
    surfaces twice and a superseded one never surfaces after its successor. *)
Theorem directive_on_frame (schedule : list (list BufferDirective)) (f : Z) :
  Forall (Forall valid) schedule ->
  Forall (fun x => apply_at_frame x.2 = x.1) (play new_tracker f schedule) /\
  StronglySorted (fun x y => klt (rank x.2) (rank y.2)) (play new_tracker f schedule).
Proof.
  intros Hs. destruct (play_spec schedule new_tracker f Hs) as (H1 & H2 & _); [|done]. by split.
Qed.

(** ** Witnesses *)

Definition change (turns frame dseq : Z) (relay : option Z) : BufferDirective :=
  mkBufferDirective turns frame dseq relay.

Definition demo_schedule : list (list BufferDirective) :=
  [[change 4 92 1 None]; [change 4 92 1 None; change 6 93 2 None]; [change 4 92 1 None]; []; []].

Lemma directive_on_frame_witness :
  play new_tracker 90 demo_schedule = [(93, change 6 93 2 None)] /\
  Forall (fun x => apply_at_frame x.2 = x.1) (play new_tracker 90 demo_schedule).
Proof.
  split; [vm_compute; reflexivity|]. apply (directive_on_frame demo_schedule 90).
  repeat constructor; intros a; discriminate.
Defined.

Definition stream_a : list (BufferDirective * Z) :=
  [(change 4 100 3 (Some 10), 90); (change 6 101 3 (Some 20), 91); (change 4 100 3 (Some 10), 95)].
Definition stream_b : list (BufferDirective * Z) :=
  [(change 6 101 3 (Some 20), 88); (change 4 100 3 (Some 10), 99)].

Lemma directive_agreement_witness :
  pending (observe_all new_tracker stream_a) = Some (change 6 101 3 (Some 20)) /\
  observe_all new_tracker stream_a = observe_all new_tracker stream_b.
Proof.
  split; [vm_compute; reflexivity|]. apply (directive_agreement stream_a stream_b).
  - repeat constructor; cbn; intros a [= <-]; lia.
  - intros d. cbn. set_solver.
  - intros d d' Hd Hd' Hr. cbn in Hd, Hd'. rewrite !elem_of_cons, elem_of_nil in Hd, Hd'.
    destruct Hd as [->|[->|[->|[]]]], Hd' as [->|[->|[->|[]]]]; done.
  - intros x. unfold stream_a, stream_b. rewrite !elem_of_cons, elem_of_nil.
    intros [[->|[->|[->|[]]]]|[->|[->|[]]]]; cbn; lia.
Defined.
