(* ===== verification/SyncGeneration.v ===== *)
(** * Checksum generations of outgoing turns ([client/src/sync_generation.rs])

    The tracker watches the game's sixteen-entry checksum ring through its
    index only, and tags each outgoing turn that carries a checksum with the
    generation that checksum was recorded in.  The game flushes the buffer it
    staged at the previous flush, so the tag lags the ring. *)

From Stdlib Require Import ZArith Lia.
From stdpp Require Import gmap sorting list.
From S2P Require Import Prelude Commands.

Open Scope Z_scope.

Definition RING_SIZE : Z := 16.
Definition SYNC_COMMAND : Z := 0x37.
Definition SYNC_COMMAND_LEN : Z := 7.
Definition INVALID_GENERATION : Z := u64_max.

Record SyncGenerationTracker : Type := mkTracker {
  native_generation : option Z;
  staged_generation : option Z;
  failed : bool;
}.

Definition default_tracker : SyncGenerationTracker := mkTracker None None false.

Definition fail (t : SyncGenerationTracker) : SyncGenerationTracker :=
  mkTracker (native_generation t) (staged_generation t) true.

Definition observe_native_ring (t : SyncGenerationTracker) (ring : Z) : option Z * SyncGenerationTracker :=
  if failed t then (None, t)
  else if RING_SIZE <=? ring then (None, fail t)
  else
    let generation := default ring (native_generation t) in
    let t' := mkTracker (Some generation) (staged_generation t) (failed t) in
    if negb (generation mod RING_SIZE =? ring) then (None, fail t') else (Some generation, t').

Definition record_sync_slot (t : SyncGenerationTracker) (before after : Z) : SyncGenerationTracker :=
  match observe_native_ring t before with
  | (None, t') => t'
  | (Some previous, t') =>
      if negb (after =? (before + 1) mod RING_SIZE) then fail t'
      else
        match checked_add u64_max previous 1 with
        | Some generation =>
            if generation =? INVALID_GENERATION then fail t'
            else mkTracker (Some generation) (staged_generation t') (failed t')
        | None => fail t'
        end
  end.

(** The [while] loop of [stamp_turn]: the tag and the failure latch after;
    [None] when the fuel runs out or an index is out of range. *)
Fixpoint stamp_loop (fuel : nat) (has_failed : bool) (staged : option Z) (remaining : list Z) :
  option (option Z * bool) :=
  match fuel with
  | O => None
  | S fuel =>
      match remaining with
      | [] => Some (None, has_failed)
      | op :: _ =>
          match command_length remaining with
          | None => Some (Some INVALID_GENERATION, true)
          | Some len =>
              if negb ((0 <? len) && (len <=? Z.of_nat (length remaining)))
              then Some (Some INVALID_GENERATION, true)
              else if (op =? SYNC_COMMAND) && (len =? SYNC_COMMAND_LEN) then
                b ← remaining !! 1%nat;
                let ring := Z.shiftr b 4 in
                if has_failed || match staged with
                                 | None => true
                                 | Some g => negb (g mod RING_SIZE =? ring)
                                 end
                then Some (Some INVALID_GENERATION, true)
                else Some (staged, has_failed)
              else stamp_loop fuel has_failed staged (drop (Z.to_nat len) remaining)
          end
      end
  end.

Definition stamp_turn (t : SyncGenerationTracker) (commands : list Z) (native_ring : Z) :
  option (option Z * SyncGenerationTracker) :=
  let '(current, t1) := observe_native_ring t native_ring in
  let staged := match staged_generation t1 with Some g => Some g | None => current end in
  r ← stamp_loop (S (length commands)) (failed t1) staged commands;
  mret (r.1, mkTracker (native_generation t1) current r.2).

(** ** Reading a turn's first checksum *)

Fixpoint first_sync (cs : list (list Z)) : option Z :=
  match cs with
  | [] => None
  | c :: cs => if bool_decide (head c = Some SYNC_COMMAND) then (fun b => Z.shiftr b 4) <$> c !! 1%nat
               else first_sync cs
  end.

Lemma sync_framed c : well_framed c -> head c = Some SYNC_COMMAND -> length c = 7%nat.
Proof.
  unfold well_framed, command_length. intros Hw Hh. rewrite Hh in Hw. cbn in Hw.
  injection Hw as Hw. lia.
Qed.

Lemma stamp_loop_framed fuel : forall cs has_failed staged,
  Forall well_framed cs -> bytes (concat cs) -> (length (concat cs) < fuel)%nat ->
  stamp_loop fuel has_failed staged (concat cs) = Some
    match first_sync cs with
    | None => (None, has_failed)
    | Some ring =>
        if has_failed || match staged with None => true | Some g => negb (g mod RING_SIZE =? ring) end
        then (Some INVALID_GENERATION, true) else (staged, has_failed)
    end.
Proof.
  induction fuel as [|fuel IH]; intros cs has_failed staged Hw Hb Hf; [lia|].
  destruct cs as [|c cs]; [done|]. inversion Hw as [|? ? Hc Hcs]; subst. cbn [concat] in *.
  apply Forall_app in Hb as [Hbc Hbcs]. pose proof (command_length_pos c _ Hbc Hc) as Hpos.
  destruct c as [|op c]; [cbn in Hpos; lia|]. rewrite length_app in Hf.
  cbn [stamp_loop app]. rewrite app_comm_cons, command_length_app by done. rewrite Hc.
  rewrite length_app. set (n := length (op :: c)) in *.
  assert ((0 <? Z.of_nat n) && (Z.of_nat n <=? Z.of_nat (n + length (concat cs))) = true) as ->
    by (apply andb_true_iff; split; [apply Z.ltb_lt; lia|apply Z.leb_le; lia]).
  cbn [negb first_sync head]. destruct (Z.eqb_spec op SYNC_COMMAND) as [->|Hne]; cbn [andb].
  - rewrite bool_decide_true by done. pose proof (sync_framed _ Hc eq_refl) as H7. fold n in H7. rewrite H7.
    change (Z.of_nat 7 =? SYNC_COMMAND_LEN) with true. cbn [andb].
    destruct c as [|b c]; [unfold n in H7; cbn in H7; lia|]. cbn [app lookup list_lookup mbind option_bind fmap option_fmap option_map].
    by destruct (has_failed || _).
  - rewrite bool_decide_false by congruence. rewrite Nat2Z.id.
    assert (Hdrop : drop n ((op :: c) ++ concat cs) = concat cs) by apply drop_app_length.
    rewrite <- app_comm_cons in Hdrop |- *. rewrite Hdrop. apply IH; [done|done|lia].
Qed.

(** Any bytes at all give a tag: nothing, the staged generation when it matches
    the first checksum's ring index, or the invalid mark, which latches. *)
Lemma stamp_loop_any fuel : forall has_failed staged remaining,
  bytes remaining -> (length remaining < fuel)%nat ->
  exists tag latch, stamp_loop fuel has_failed staged remaining = Some (tag, latch) /\
    (tag = Some INVALID_GENERATION /\ latch = true \/
     latch = has_failed /\ (tag = None \/ has_failed = false /\ tag = staged)).
Proof.
  induction fuel as [|fuel IH]; intros has_failed staged remaining Hb Hf; [lia|]. cbn [stamp_loop].
  destruct remaining as [|op rest] eqn:Hrem; [do 2 eexists; split; [done|tauto]|]. rewrite <- Hrem in *.
  destruct (command_length remaining) as [len|] eqn:Hlen; [|do 2 eexists; split; [done|tauto]].
  pose proof (command_length_pos _ _ Hb Hlen).
  destruct (Z.ltb_spec 0 len); [|lia]. cbn [andb].
  destruct (Z.leb_spec len (Z.of_nat (length remaining))); cbn [negb]; [|do 2 eexists; split; [done|tauto]].
  destruct ((op =? SYNC_COMMAND) && (len =? SYNC_COMMAND_LEN)) eqn:Hs.
  - apply andb_true_iff in Hs as [_ Hs%Z.eqb_eq]. unfold SYNC_COMMAND_LEN in Hs.
    destruct (lookup_lt_is_Some_2 remaining 1) as [b Hb1]; [lia|]. rewrite Hb1. cbn [mbind option_bind].
    destruct has_failed; cbn [orb]; [do 2 eexists; split; [done|tauto]|].
    destruct staged as [g|]; [|do 2 eexists; split; [done|tauto]].
    destruct (negb _); do 2 eexists; (split; [done|tauto]).
  - apply IH; [by apply Forall_drop|]. rewrite length_drop. lia.
Qed.

(** ** The native game *)

Inductive native_event : Type :=
| NRecord
| NFlush (cs : list (list Z)).

(** The generation of the native ring, and of the staged buffer. *)
Record native : Type := mkNative { ngen : Z; nstaged : option Z }.

(** A flush sends the staged buffer, then stages the current slot. *)
Definition native_step (n : native) (e : native_event) : native :=
  match e with
  | NRecord => mkNative (ngen n + 1) (nstaged n)
  | NFlush _ => mkNative (ngen n) (Some (ngen n))
  end.

(** The tag each event's turn ought to get. *)
Fixpoint true_tags (n : native) (es : list native_event) : list (option Z) :=
  match es with
  | [] => []
  | NRecord :: es => true_tags (native_step n NRecord) es
  | NFlush cs :: es =>
      (_ ← first_sync cs; Some (default (ngen n) (nstaged n))) :: true_tags (native_step n (NFlush cs)) es
  end.

(** What the game guarantees: framed turns, whose first checksum is the staged
    one's, and a counter that does not run out. *)
Fixpoint native_ok (n : native) (es : list native_event) : Prop :=
  match es with
  | [] => True
  | e :: es =>
      match e with
      | NRecord => ngen n + 1 < INVALID_GENERATION
      | NFlush cs => Forall well_framed cs /\ bytes (concat cs) /\
          forall ring, first_sync cs = Some ring -> ring = default (ngen n) (nstaged n) mod RING_SIZE
      end /\ native_ok (native_step n e) es
  end.

Inductive sync_event : Type :=
| ERecord (before after : Z)
| ESend (commands : list Z) (native_ring : Z).

Fixpoint sync_run (t : SyncGenerationTracker) (es : list sync_event) : option (list (option Z) * SyncGenerationTracker) :=
  match es with
  | [] => Some ([], t)
  | ERecord before after :: es => sync_run (record_sync_slot t before after) es
  | ESend commands ring :: es =>
      r ← stamp_turn t commands ring;
      r' ← sync_run r.2 es;
      mret (r.1 :: r'.1, r'.2)
  end.

(** The tracker only sees the ring index. *)
Fixpoint observed (n : native) (es : list native_event) : list sync_event :=
  match es with
  | [] => []
  | NRecord :: es =>
      ERecord (ngen n mod RING_SIZE) ((ngen n + 1) mod RING_SIZE) :: observed (native_step n NRecord) es
  | NFlush cs :: es =>
      ESend (concat cs) (ngen n mod RING_SIZE) :: observed (native_step n (NFlush cs)) es
  end.

(** The tracker knows the true generations. *)
Definition follows (t : SyncGenerationTracker) (n : native) : Prop :=
  failed t = false /\ staged_generation t = nstaged n /\ 0 <= ngen n /\
  (native_generation t = Some (ngen n) \/ native_generation t = None /\ ngen n < RING_SIZE).

Lemma follows_observe t n : follows t n ->
  observe_native_ring t (ngen n mod RING_SIZE) =
    (Some (ngen n), mkTracker (Some (ngen n)) (staged_generation t) false).
Proof.
  intros (Hf & _ & H0 & Hg). unfold observe_native_ring. rewrite Hf.
  pose proof (Z.mod_pos_bound (ngen n) RING_SIZE ltac:(done)).
  destruct (Z.leb_spec RING_SIZE (ngen n mod RING_SIZE)); [lia|].
  assert (default (ngen n mod RING_SIZE) (native_generation t) = ngen n) as ->.
  { destruct Hg as [->|[-> Hlt]]; [done|]. cbn. by apply Z.mod_small. }
  by rewrite Z.eqb_refl.
Qed.

Lemma follows_run es : forall t n,
  follows t n -> native_ok n es -> exists t', sync_run t (observed n es) = Some (true_tags n es, t').
Proof.
  induction es as [|[|cs] es IH]; intros t n Hf; cbn [native_ok observed true_tags sync_run]; [by eexists|..].
  - intros [Hlt Hok]. apply IH; [|done]. unfold record_sync_slot. rewrite (follows_observe t n Hf).
    rewrite Z.add_mod_idemp_l by done. rewrite Z.eqb_refl. cbn [negb].
    destruct Hf as (_ & Hst & H0 & _). unfold checked_add, INVALID_GENERATION in *.
    destruct (Z.leb_spec (ngen n + 1) u64_max); [|lia].
    destruct (Z.eqb_spec (ngen n + 1) u64_max); [lia|]. split; [done|]. split; [done|]. cbn. split; [lia|by left].
  - intros [(Hw & Hb & Hring) Hok]. unfold stamp_turn. rewrite (follows_observe t n Hf).
    cbn [staged_generation failed native_generation].
    rewrite stamp_loop_framed by (done || lia). cbn [mbind option_bind orb].
    destruct Hf as (_ & Hst & H0 & _). rewrite Hst.
    assert (Hstaged : match nstaged n with Some g => Some g | None => Some (ngen n) end =
      Some (default (ngen n) (nstaged n))) by (by destruct (nstaged n)).
    rewrite Hstaged.
    assert (Htag : exists tag, match first_sync cs with
      | None => (None, false)
      | Some ring => if negb (default (ngen n) (nstaged n) mod RING_SIZE =? ring)
                     then (Some INVALID_GENERATION, true) else (Some (default (ngen n) (nstaged n)), false)
      end = (tag, false) /\ tag = (_ ← first_sync cs; Some (default (ngen n) (nstaged n)))).
    { destruct (first_sync cs) as [ring|]; [|by eexists]. rewrite (Hring ring eq_refl), Z.eqb_refl. by eexists. }
    destruct Htag as (tag & -> & <-). cbn [mbind option_bind mret option_ret fst snd].
    destruct (IH (mkTracker (Some (ngen n)) (Some (ngen n)) false) (native_step n (NFlush cs))) as (t' & ->);
      [split_and!; [done|done|done|by left]|done|]. by eexists.
Qed.

(** ** The failure latch *)

Definition event_ok (e : sync_event) : Prop :=
  match e with ERecord _ _ => True | ESend commands _ => bytes commands end.

(** The invalid mark is no generation the tracker holds. *)
Definition valid_gens (t : SyncGenerationTracker) : Prop :=
  native_generation t <> Some INVALID_GENERATION /\ staged_generation t <> Some INVALID_GENERATION.

Lemma observe_latch t ring :
  valid_gens t ->
  let r := observe_native_ring t ring in
  valid_gens r.2 /\ r.1 <> Some INVALID_GENERATION /\ staged_generation r.2 = staged_generation t /\
  (failed t = true -> r = (None, t)).
Proof.
  intros [Hn Hs]. unfold observe_native_ring. destruct (failed t) eqn:Hf; [done|].
  destruct (Z.leb_spec RING_SIZE ring) as [|Hr]; [done|].
  assert (Some (default ring (native_generation t)) <> Some INVALID_GENERATION).
  { destruct (native_generation t) as [g|]; [done|]. cbn. unfold RING_SIZE, INVALID_GENERATION in *.
    intros [= ->]. width_lia. }
  destruct (negb _); cbn; done.
Qed.

Lemma record_latch t before after :
  valid_gens t ->
  valid_gens (record_sync_slot t before after) /\
  (failed t = true -> record_sync_slot t before after = t).
Proof.
  intros Hv. unfold record_sync_slot. destruct (observe_latch t before Hv) as (Hv' & Hne & Hst & Hlatch).
  destruct (observe_native_ring t before) as [[previous|] t'] eqn:Ho; cbn [fst snd] in *.
  - split; [|intros Hf; by specialize (Hlatch Hf)].
    destruct (negb _); [done|]. destruct (checked_add u64_max previous 1) as [g|]; [|done].
    destruct (Z.eqb_spec g INVALID_GENERATION); [done|]. split; [|apply Hv']. cbn. congruence.
  - split; [done|]. intros Hf. by injection (Hlatch Hf) as ->.
Qed.

Lemma stamp_latch t commands ring :
  valid_gens t -> bytes commands ->
  exists tag t', stamp_turn t commands ring = Some (tag, t') /\ valid_gens t' /\
    (tag = Some INVALID_GENERATION -> failed t' = true) /\
    (failed t = true -> failed t' = true /\ (tag = None \/ tag = Some INVALID_GENERATION)).
Proof.
  intros Hv Hb. unfold stamp_turn. destruct (observe_latch t ring Hv) as (Hv' & Hne & Hst & Hlatch).
  destruct (observe_native_ring t ring) as [current t1] eqn:Ho; cbn [fst snd] in *.
  set (staged := match staged_generation t1 with Some g => Some g | None => current end).
  destruct (stamp_loop_any (S (length commands)) (failed t1) staged commands Hb ltac:(lia))
    as (tag & latch & -> & Hcase).
  cbn [mbind option_bind mret option_ret fst snd]. do 2 eexists. split; [done|]. cbn [failed].
  split; [split; [apply Hv'|done]|].
  assert (Hstaged : staged <> Some INVALID_GENERATION).
  { unfold staged. destruct Hv' as [_ Hs]. by destruct (staged_generation t1). }
  split.
  - intros ->. destruct Hcase as [[_ ->]|[_ [?|[_ Heq]]]]; [done|done|congruence].
  - intros Hf. specialize (Hlatch Hf). injection Hlatch as _ ->. rewrite Hf in Hcase.
    destruct Hcase as [[-> ->]|[-> [->|[? _]]]]; tauto || done.
Qed.

Lemma run_latch es : forall t,
  valid_gens t -> Forall event_ok es ->
  exists tags t', sync_run t es = Some (tags, t') /\ valid_gens t' /\
    (Some INVALID_GENERATION ∈ tags -> failed t' = true) /\
    (failed t = true -> failed t' = true /\
       Forall (fun tag => tag = None \/ tag = Some INVALID_GENERATION) tags).
Proof.
  induction es as [|[before after|commands ring] es IH]; intros t Hv Hes; cbn [sync_run].
  - do 2 eexists. split; [done|]. split; [done|]. split; [by intros ?%elem_of_nil|done].
  - apply Forall_cons in Hes as [_ Hes]. destruct (record_latch t before after Hv) as [Hv' Hl].
    destruct (IH _ Hv' Hes) as (tags & t' & Hr & Hvt & Hin & Hf). exists tags, t'. split; [done|].
    split; [done|]. split; [done|]. intros Hft. apply Hf. by rewrite Hl.
  - apply Forall_cons in Hes as [Hb Hes].
    destruct (stamp_latch t commands ring Hv Hb) as (tag & t1 & -> & Hv1 & Htag & Hl). cbn [mbind option_bind snd].
    destruct (IH t1 Hv1 Hes) as (tags & t' & -> & Hvt & Hin & Hf). cbn [mbind option_bind fst snd].
    do 2 eexists. split; [done|]. split; [done|]. split.
    + intros [Heq|Hrest]%elem_of_cons; [|by apply Hin]. apply Hf. by apply Htag.
    + intros Hft. destruct (Hl Hft) as [Hf1 Htag']. destruct (Hf Hf1). split; [done|]. by constructor.
Qed.

(** ** Properties *)

(** Tags are true generations.  Whatever interleaving of recordings and
    flushes the game runs, through any number of wraps of the sixteen-entry
    ring, each turn that carries a checksum is tagged with exactly the
    generation that checksum was recorded in, and each turn without one gets no
    tag. *)
Theorem sync_tags_true (g0 : Z) (es : list native_event) :
  0 <= g0 < RING_SIZE -> native_ok (mkNative g0 None) es ->
  exists t, sync_run default_tracker (observed (mkNative g0 None) es) = Some (true_tags (mkNative g0 None) es, t).
Proof.
  intros Hg Hok. apply follows_run; [|done]. split; [done|]. split; [done|]. cbn. split; [lia|].
  right. split; [done|lia].
Qed.

(** Failure is latched.  On any observations and any command bytes the
    tracker answers without panicking, and once a turn has carried the invalid
    mark, no later turn carries a valid generation. *)
Theorem sync_failure_latched (es1 es2 : list sync_event) :
  Forall event_ok es1 -> Forall event_ok es2 ->
  exists tags1 tags2 t1 t2, sync_run default_tracker es1 = Some (tags1, t1) /\
    sync_run t1 es2 = Some (tags2, t2) /\
    (Some INVALID_GENERATION ∈ tags1 ->
       Forall (fun tag => tag = None \/ tag = Some INVALID_GENERATION) tags2).
Proof.
  intros H1 H2. destruct (run_latch es1 default_tracker ltac:(done) H1) as (tags1 & t1 & Hr1 & Hv1 & Hin & _).
  destruct (run_latch es2 t1 Hv1 H2) as (tags2 & t2 & Hr2 & _ & _ & Hf).
  exists tags1, tags2, t1, t2. split; [done|]. split; [done|]. intros Hi. apply Hf. by apply Hin.
Qed.

(** ** Witnesses *)

Definition checksum (g : Z) : list Z := [0x37; Z.shiftl (g mod 16) 4 + 1; 0; 0; 0; 0; 0].
Definition demo_game : list native_event :=
  [NRecord; NFlush [checksum 15]; NRecord; NFlush [[5]; checksum 15]; NRecord; NRecord; NFlush [[5]]].

Lemma sync_tags_true_witness :
  true_tags (mkNative 14 None) demo_game = [Some 15; Some 15; None] /\
  exists t, sync_run default_tracker (observed (mkNative 14 None) demo_game) =
    Some ([Some 15; Some 15; None], t).
Proof.
  split; [reflexivity|].
  apply (sync_tags_true 14 demo_game).
  - unfold RING_SIZE. lia.
  - unfold demo_game. cbn [native_ok]. repeat split; try (vm_compute; reflexivity).
    all: try (repeat constructor; fail).
    all: try (intros ring; vm_compute; by intros [= <-]).
    all: try (repeat constructor; width_lia || (vm_compute; (reflexivity || discriminate))).
Defined.

Lemma sync_failure_latched_witness :
  exists tags1 tags2 t1 t2,
    sync_run default_tracker [ERecord 1 3; ESend (checksum 3) 3] = Some (tags1, t1) /\
    sync_run t1 [ESend (checksum 4) 4; ESend [5] 4] = Some (tags2, t2) /\
    Forall (fun tag => tag = None \/ tag = Some INVALID_GENERATION) tags2.
Proof.
  destruct (sync_failure_latched [ERecord 1 3; ESend (checksum 3) 3] [ESend (checksum 4) 4; ESend [5] 4])
    as (tags1 & tags2 & t1 & t2 & H1 & H2 & Hall).
  - repeat constructor; vm_compute; discriminate.
  - repeat constructor; vm_compute; discriminate.
  - exists tags1, tags2, t1, t2. split; [exact H1|]. split; [exact H2|]. apply Hall.
    vm_compute in H1. injection H1 as <- <-. left.
Defined.
