(* ===== verification/TurnRing.v ===== *)
(** * The replay ring ([relay/src/session/turn_ring/mod.rs])

    The bounded per-session record of forwarded turns a reconnecting client is
    replayed from.  The ring is the longest suffix of what was recorded that
    fits both its turn count and its byte budget, so a client whose missed
    turns fit the bounds is replayed all of them. *)

From Stdlib Require Import ZArith Lia.
From stdpp Require Import gmap sorting list.
From S2P Require Import Prelude Wire.

Open Scope Z_scope.

Definition NOMINAL_TURNS_PER_SEC_PER_SLOT : Z := 24.
Definition MAX_GAME_SLOTS : Z := 12.

(** [DROP_UNLOCK] ([session/drop_hold/mod.rs]), in seconds. *)
Definition DROP_UNLOCK_SECS : Z := 30.
Definition RING_WINDOW_SECS : Z := DROP_UNLOCK_SECS.

Definition effective_slots (n : Z) : Z :=
  if (n =? 0) || (MAX_GAME_SLOTS <? n) then MAX_GAME_SLOTS else n.

Definition max_turns (n : Z) : Z :=
  RING_WINDOW_SECS * NOMINAL_TURNS_PER_SEC_PER_SLOT * effective_slots n * 3 / 2.

Definition TURN_RING_FULL_BYTES : Z := 4 * 1024 * 1024.
Definition TURN_RING_MIN_BYTES : Z := 1024 * 1024.

Definition max_bytes (n : Z) : Z :=
  let scaled := TURN_RING_FULL_BYTES * effective_slots n / MAX_GAME_SLOTS in
  if scaled <? TURN_RING_MIN_BYTES then TURN_RING_MIN_BYTES else scaled.

Inductive TurnOrigin : Type := Local_ | Mesh.

#[export] Instance TurnOrigin_eq_dec : EqDecision TurnOrigin.
Proof. solve_decision. Defined.

Record Entry : Type := mkEntry {
  entry_payload : Payload;
  entry_origin : TurnOrigin;
}.

Record SessionRing : Type := mkSessionRing {
  turns : list Entry;
  bytes : Z;
  ring_max_turns : Z;
  ring_max_bytes : Z;
}.

Definition default_ring : SessionRing := mkSessionRing [] 0 0 0.

(** [payload_command_bytes] ([session/mod.rs]). *)
Definition payload_command_bytes (p : Payload) : Z := Z.of_nat (length (commands p)).
Definition cost (e : Entry) : Z := payload_command_bytes (entry_payload e).

(** The eviction loop; the deque is oldest first. *)
Fixpoint evict (limit_turns limit_bytes : Z) (l : list Entry) (total : Z) : list Entry * Z :=
  match l with
  | [] => ([], total)
  | e :: rest =>
      if (limit_turns <? Z.of_nat (length l)) || (limit_bytes <? total)
      then evict limit_turns limit_bytes rest (total - cost e)
      else (l, total)
  end.

Definition ring_record (r : SessionRing) (e : Entry) (n : Z) : SessionRing :=
  let '(l, total) := evict (max_turns n) (max_bytes n) (turns r ++ [e]) (bytes r + cost e) in
  mkSessionRing l total (max_turns n) (max_bytes n).

Record RingTotals : Type := mkRingTotals {
  total_sessions : nat;
  total_turns : nat;
  total_command_bytes : Z;
  total_local : Z;
  total_mesh : Z;
}.

Section registry.
Context {K : Type} `{!EqDecision K, !Countable K}.

Record TurnRingState : Type := mkTurnRingState {
  sessions : gmap K SessionRing;
  local_origin_turns : Z;
  mesh_origin_turns : Z;
}.

Definition new_ring_state : TurnRingState := mkTurnRingState ∅ 0 0.

Definition record (st : TurnRingState) (key : K) (p : Payload) (o : TurnOrigin) (n : Z) : TurnRingState :=
  let ring := default default_ring (sessions st !! key) in
  mkTurnRingState
    (<[key := ring_record ring (mkEntry p o) n]> (sessions st))
    (match o with Local_ => saturating_add u64_max (local_origin_turns st) 1 | Mesh => local_origin_turns st end)
    (match o with Mesh => saturating_add u64_max (mesh_origin_turns st) 1 | Local_ => mesh_origin_turns st end).

(** Whether [matching] returns an entry. *)
Definition matches_entry (cursors : gmap Z Z) (want : option TurnOrigin)
  (replay_absent_from_zero : bool) (skip : option Z) (e : Entry) : bool :=
  match want with Some o => bool_decide (entry_origin e = o) | None => true end &&
  match u8_try_from (slot (entry_payload e)) with
  | None => false
  | Some s =>
      if bool_decide (skip = Some s) then false
      else match cursors !! s with
           | Some cursor => cursor <=? seq (entry_payload e)
           | None => replay_absent_from_zero
           end
  end.

Definition matching (st : TurnRingState) (key : K) (cursors : gmap Z Z) (want : option TurnOrigin)
  (replay_absent_from_zero : bool) (skip : option Z) : list Payload :=
  match sessions st !! key with
  | None => []
  | Some ring =>
      map entry_payload
        (filter (fun e => matches_entry cursors want replay_absent_from_zero skip e = true) (turns ring))
  end.

Definition without_hash (p : Payload) : Payload :=
  mkPayload (seq p) (slot p) (commands p) (game_frame_count p) (sync_generation p)
    (buffer_directive p) None.

Definition replay (st : TurnRingState) (key : K) (cursors : gmap Z Z) (own : Z) : list Payload :=
  map without_hash (matching st key cursors None true (Some own)).

Definition replay_local (st : TurnRingState) (key : K) (cursors : gmap Z Z) (resuming : bool) :
  list Payload := matching st key cursors (Some Local_) resuming None.

Definition end_session (st : TurnRingState) (key : K) : TurnRingState :=
  mkTurnRingState (delete key (sessions st)) (local_origin_turns st) (mesh_origin_turns st).

Definition totals (st : TurnRingState) : RingTotals :=
  let rings := map snd (map_to_list (sessions st)) in
  mkRingTotals (length rings) (foldr (fun r n => (length (turns r) + n)%nat) O rings)
    (sumz bytes rings) (local_origin_turns st) (mesh_origin_turns st).

End registry.

Arguments TurnRingState K {_ _}.

(** ** Eviction *)

Definition fits (limit_turns limit_bytes : Z) (l : list Entry) : Prop :=
  Z.of_nat (length l) <= limit_turns /\ sumz cost l <= limit_bytes.

Lemma cost_nonneg e : 0 <= cost e.
Proof. unfold cost, payload_command_bytes. lia. Qed.

Lemma sumz_cost_nonneg l : 0 <= sumz cost l.
Proof. apply sumz_nonneg. intros e _. apply cost_nonneg. Qed.

Lemma fits_suffix T B l1 l2 : fits T B (l1 ++ l2) -> fits T B l2.
Proof.
  intros [Hl Hb]. rewrite length_app in Hl. rewrite sumz_app in Hb. pose proof (sumz_cost_nonneg l1).
  split; lia.
Qed.

(** Eviction keeps the longest suffix within the bounds. *)
Lemma evict_spec T B l :
  0 <= T -> 0 <= B ->
  let r := evict T B l (sumz cost l) in
  r.2 = sumz cost r.1 /\ fits T B r.1 /\
  exists dropped, l = dropped ++ r.1 /\
    forall l1 l2, l = l1 ++ l2 -> fits T B l2 -> (length dropped <= length l1)%nat.
Proof.
  intros HT HB. induction l as [|e l IH]; cbn [evict].
  { cbn. split; [done|]. split; [split; cbn; lia|]. exists []. split; [done|]. intros. cbn. lia. }
  destruct ((T <? Z.of_nat (length (e :: l))) || (B <? sumz cost (e :: l))) eqn:Hover.
  - replace (sumz cost (e :: l) - cost e) with (sumz cost l) by (cbn; lia).
    destruct IH as (Hs & Hf & dropped & Hd & Hmin). cbn zeta in *. split; [done|]. split; [done|].
    exists (e :: dropped). split; [cbn; by rewrite <- Hd|].
    intros [|e1 l1] l2 Hsplit Hfit; cbn in Hsplit.
    + exfalso. subst l2. destruct Hfit as [Hl Hb]. apply orb_true_iff in Hover as [Ho|Ho]; lia.
    + injection Hsplit as <- Hsplit. cbn. specialize (Hmin l1 l2 Hsplit Hfit). lia.
  - cbn [fst snd]. apply orb_false_iff in Hover as [Ho1 Ho2]. split; [done|]. split; [split; lia|].
    exists []. split; [done|]. intros. cbn. lia.
Qed.

Lemma bounds_pos n : 0 <= n -> 0 < max_turns n /\ 0 < max_bytes n.
Proof.
  intros Hn. unfold max_turns, max_bytes, effective_slots, MAX_GAME_SLOTS, RING_WINDOW_SECS,
    DROP_UNLOCK_SECS, NOMINAL_TURNS_PER_SEC_PER_SLOT, TURN_RING_FULL_BYTES, TURN_RING_MIN_BYTES.
  assert (1 <= (if (n =? 0) || (12 <? n) then 12 else n) <= 12).
  { destruct (Z.eqb_spec n 0); cbn [orb]; [lia|]. destruct (Z.ltb_spec 12 n); lia. }
  set (k := if (n =? 0) || (12 <? n) then 12 else n) in *. split.
  - apply Z.div_str_pos. lia.
  - destruct (Z.ltb_spec (4 * 1024 * 1024 * k / 12) (1024 * 1024)); lia.
Qed.

(** ** A session's ring over a sequence of records *)

Implicit Types (hist : list Entry) (r : SessionRing).

(** The ring is a suffix of the history, within the bounds of the last record. *)
Record ring_ok r hist (n : Z) : Prop := {
  ro_bytes : bytes r = sumz cost (turns r);
  ro_fits : fits (max_turns n) (max_bytes n) (turns r);
  ro_suffix : exists dropped, hist = dropped ++ turns r;
}.

(** ... and the longest such one. *)
Definition longest r hist (n : Z) : Prop :=
  forall l1 l2, hist = l1 ++ l2 -> fits (max_turns n) (max_bytes n) l2 ->
    (length l2 <= length (turns r))%nat.

(** Of two suffixes of a list the shorter is a suffix of the longer. *)
Lemma shorter_suffix {A} (a b x y : list A) :
  a ++ x = b ++ y -> (length y <= length x)%nat -> exists u, x = u ++ y.
Proof.
  intros Heq Hle. apply app_eq_inv in Heq as [(k & -> & ->)|(k & -> & ->)]; [|by exists k].
  rewrite length_app in Hle. destruct k; [by exists []|cbn in Hle; lia].
Qed.

Lemma ring_record_ok r hist m e n :
  0 <= n -> ring_ok r hist m -> ring_ok (ring_record r e n) (hist ++ [e]) n.
Proof.
  intros Hn [Hb _ [d Hd]]. destruct (bounds_pos n Hn) as [HT HB]. unfold ring_record.
  pose proof (evict_spec (max_turns n) (max_bytes n) (turns r ++ [e]) ltac:(lia) ltac:(lia)) as He.
  replace (bytes r + cost e) with (sumz cost (turns r ++ [e])) by (rewrite sumz_app, Hb; cbn; lia).
  destruct (evict _ _ _ _) as [l total]. cbn [fst snd] in He. destruct He as (Hs & Hf & dr & Hdr & _).
  split; cbn [turns bytes]; [done|done|]. exists (d ++ dr). rewrite Hd, <- !app_assoc. by rewrite <- Hdr.
Qed.

Lemma ring_record_longest r hist e n :
  0 <= n -> ring_ok r hist n -> longest r hist n -> longest (ring_record r e n) (hist ++ [e]) n.
Proof.
  intros Hn [Hb _ [d Hd]] Hlong l1 l2 Hsplit Hfit. destruct (bounds_pos n Hn) as [HT HB]. unfold ring_record.
  pose proof (evict_spec (max_turns n) (max_bytes n) (turns r ++ [e]) ltac:(lia) ltac:(lia)) as He.
  replace (bytes r + cost e) with (sumz cost (turns r ++ [e])) by (rewrite sumz_app, Hb; cbn; lia).
  destruct (evict _ _ _ _) as [l total]. cbn [fst snd turns] in *. destruct He as (_ & _ & dr & Hdr & Hmin).
  destruct (decide (length l2 <= length (turns r ++ [e])))%nat as [Hle|Hgt].
  - assert (exists u, turns r ++ [e] = u ++ l2) as [u Hu].
    { apply (shorter_suffix d l1); [|done]. by rewrite <- Hsplit, Hd, app_assoc. }
    specialize (Hmin u l2 Hu Hfit). assert (Hlen := f_equal length Hu). rewrite Hdr in Hlen.
    rewrite !length_app in Hlen. lia.
  - destruct l2 as [|x l2 _] using rev_ind; [cbn in Hgt; rewrite length_app in Hgt; cbn in Hgt; lia|].
    rewrite app_assoc in Hsplit. apply app_inj_2 in Hsplit as [Hh _]; [|done].
    exfalso. assert (Hf2 : fits (max_turns n) (max_bytes n) l2).
    { destruct Hfit as [Hl Hc]. rewrite length_app in Hl. rewrite sumz_app in Hc.
      pose proof (sumz_cost_nonneg [x]). split; [cbn in *; lia|lia]. }
    specialize (Hlong _ _ Hh Hf2). rewrite !length_app in Hgt. cbn in Hgt. lia.
Qed.

(** ** The registry over any sequence of records and session ends *)

Section traces.
Context {K : Type} `{!EqDecision K, !Countable K}.
Implicit Types (st : TurnRingState K) (key : K).

Inductive ring_op : Type :=
| RecordOp (key : K) (p : Payload) (o : TurnOrigin) (n : Z)
| EndOp (key : K).

Definition ring_step st (op : ring_op) : TurnRingState K :=
  match op with
  | RecordOp key p o n => record st key p o n
  | EndOp key => end_session st key
  end.

(** What was recorded for [key] since its session last ended. *)
Definition history_step key hist (op : ring_op) : list Entry :=
  match op with
  | RecordOp key' p o _ => if decide (key' = key) then hist ++ [mkEntry p o] else hist
  | EndOp key' => if decide (key' = key) then [] else hist
  end.

Definition history key (ops : list ring_op) : list Entry := foldl (history_step key) [] ops.

(** Every record for [key] is made under [n] slots. *)
Definition shaped key (n : Z) (op : ring_op) : Prop :=
  match op with RecordOp key' _ _ m => key' = key -> m = n | EndOp _ => True end.

Definition tracked st key hist (n : Z) : Prop :=
  match sessions st !! key with
  | Some r => ring_ok r hist n /\ longest r hist n
  | None => hist = []
  end.

Lemma ring_ok_default n : 0 <= n -> ring_ok default_ring [] n /\ longest default_ring [] n.
Proof.
  intros Hn. destruct (bounds_pos n Hn). split; [split; cbn|].
  - done.
  - split; cbn; lia.
  - by exists [].
  - intros l1 l2 Heq _. symmetry in Heq. apply app_eq_nil in Heq as [_ ->]. done.
Qed.

Lemma ring_step_tracked st key hist n op :
  0 <= n -> shaped key n op -> tracked st key hist n ->
  tracked (ring_step st op) key (history_step key hist op) n.
Proof.
  intros Hn Hsh Ht. destruct op as [key' p o m|key']; cbn [ring_step history_step shaped] in *.
  - unfold tracked. cbn [record sessions]. destruct (decide (key' = key)) as [->|Hne].
    + rewrite lookup_insert_eq, (Hsh eq_refl).
      assert (Hr : ring_ok (default default_ring (sessions st !! key)) hist n /\
        longest (default default_ring (sessions st !! key)) hist n).
      { unfold tracked in Ht. destruct (sessions st !! key); [done|]. subst hist. by apply ring_ok_default. }
      destruct Hr as [Hok Hlong]. split; [by eapply ring_record_ok|by apply ring_record_longest].
    + rewrite lookup_insert_ne by done. done.
  - unfold tracked. cbn [end_session sessions]. destruct (decide (key' = key)) as [->|Hne].
    + by rewrite lookup_delete_eq.
    + by rewrite lookup_delete_ne.
Qed.

Lemma ring_run_tracked ops key n :
  0 <= n -> Forall (shaped key n) ops ->
  tracked (foldl ring_step new_ring_state ops) key (history key ops) n.
Proof.
  intros Hn Hops. unfold history.
  assert (Hgen : forall st hist, tracked st key hist n ->
    tracked (foldl ring_step st ops) key (foldl (history_step key) hist ops) n).
  { induction Hops as [|op ops Hop Hops IH]; intros st hist Ht; [done|]. cbn [foldl].
    apply IH. by apply ring_step_tracked. }
  apply Hgen. done.
Qed.

(** The bounds and the exact byte count, whatever the slot counts. *)
Definition bounded st : Prop := forall key r, sessions st !! key = Some r ->
  bytes r = sumz cost (turns r) /\
  Z.of_nat (length (turns r)) <= ring_max_turns r /\ bytes r <= ring_max_bytes r.

Lemma ring_step_bounded st op :
  (forall key p o n, op = RecordOp key p o n -> 0 <= n) -> bounded st -> bounded (ring_step st op).
Proof.
  intros Hn Hb key r. destruct op as [key' p o n|key']; cbn [ring_step record end_session sessions].
  - destruct (decide (key' = key)) as [->|Hne]; [|rewrite lookup_insert_ne by done; apply Hb].
    rewrite lookup_insert_eq. intros [= <-]. set (r0 := default default_ring (sessions st !! key)).
    assert (Hb0 : bytes r0 = sumz cost (turns r0)).
    { unfold r0. destruct (sessions st !! key) eqn:Hs; [by destruct (Hb _ _ Hs)|done]. }
    destruct (bounds_pos n (Hn _ _ _ _ eq_refl)) as [HT HB]. unfold ring_record.
    pose proof (evict_spec (max_turns n) (max_bytes n) (turns r0 ++ [mkEntry p o]) ltac:(lia) ltac:(lia)) as He.
    replace (bytes r0 + cost (mkEntry p o)) with (sumz cost (turns r0 ++ [mkEntry p o]))
      by (rewrite sumz_app, Hb0; cbn; lia).
    destruct (evict _ _ _ _) as [l total]. cbn [fst snd turns bytes ring_max_turns ring_max_bytes] in *.
    destruct He as (-> & [Hl Hc] & _). done.
  - intros [_ Hr]%lookup_delete_Some. by eapply Hb.
Qed.

Lemma matches_entry_spec cursors absent own e :
  matches_entry cursors None absent (Some own) e = true <->
  slot (entry_payload e) <= u8_max /\ slot (entry_payload e) <> own /\
  match cursors !! slot (entry_payload e) with
  | Some c => c <= seq (entry_payload e)
  | None => absent = true
  end.
Proof.
  unfold matches_entry. cbn [andb]. unfold u8_try_from.
  destruct (Z.leb_spec (slot (entry_payload e)) u8_max) as [Hs|Hs]; [|split; [done|lia]].
  case_bool_decide as Hown; [split; [done|]; intros (_ & Hne & _); congruence|].
  assert (slot (entry_payload e) <> own) by congruence.
  destruct (cursors !! slot (entry_payload e)); [rewrite Z.leb_le|]; tauto.
Qed.

End traces.

(** ** Properties *)

(** Memory stays bounded: over any sequence of records and session ends,
    every ring's cached byte count is exact, and its turns and bytes are within
    the bounds of its last record. *)
Theorem turn_ring_bounded (ops : list (ring_op (K:=Z))) :
  Forall (fun op => match op with RecordOp _ _ _ n => 0 <= n | EndOp _ => True end) ops ->
  bounded (foldl ring_step new_ring_state ops).
Proof.
  intros Hops. assert (Hgen : forall st, bounded st -> bounded (foldl ring_step st ops)).
  { induction Hops as [|op ops Hop Hops IH]; intros st Hb; [done|]. cbn [foldl]. apply IH.
    apply ring_step_bounded; [|done]. intros key p o n ->. done. }
  apply Hgen. intros key r. cbn. by rewrite lookup_empty.
Qed.

(** A reconnecting client gets every turn it missed.  Whatever was recorded
    for a session of constant shape, if the turns recorded since some point fit
    the ring's bounds then each of them from another slot, at or past the
    client's cursor for that slot (or with no cursor), is replayed; and nothing
    is replayed that was not recorded, is the client's own, is below its
    cursor, or carries a state hash. *)
Theorem replay_covers_missed (ops : list (ring_op (K:=Z))) (key n own : Z) (cursors : gmap Z Z)
  (before missed : list Entry) :
  0 <= n -> Forall (shaped key n) ops -> history key ops = before ++ missed ->
  fits (max_turns n) (max_bytes n) missed ->
  let wanted e := slot (entry_payload e) <= u8_max /\ slot (entry_payload e) <> own /\
    match cursors !! slot (entry_payload e) with Some c => c <= seq (entry_payload e) | None => True end in
  let replayed := replay (foldl ring_step new_ring_state ops) key cursors own in
  (forall e, e ∈ missed -> wanted e -> without_hash (entry_payload e) ∈ replayed) /\
  (forall p, p ∈ replayed -> state_hash p = None /\
     exists e, e ∈ history key ops /\ wanted e /\ p = without_hash (entry_payload e)).
Proof.
  intros Hn Hops Hhist Hfit wanted replayed. pose proof (ring_run_tracked ops key n Hn Hops) as Ht.
  unfold replayed, replay, matching. unfold tracked in Ht.
  assert (Hw : forall e, matches_entry cursors None true (Some own) e = true <-> wanted e).
  { intros e. rewrite matches_entry_spec. unfold wanted. destruct (cursors !! slot (entry_payload e)); tauto. }
  destruct (sessions (foldl ring_step new_ring_state ops) !! key) as [r|].
  2: { rewrite Ht in Hhist. symmetry in Hhist. apply app_eq_nil in Hhist as [_ ->].
       split; intros x Hx; by apply elem_of_nil in Hx. }
  destruct Ht as [[_ _ [d Hd]] Hlong].
  destruct (shorter_suffix d before (turns r) missed) as [u Hu]; [congruence|exact (Hlong _ _ Hhist Hfit)|]. split.
  - intros e He Hwe. apply list_elem_of_fmap. exists (entry_payload e). split; [done|].
    apply list_elem_of_fmap. exists e. split; [done|]. apply list_elem_of_filter. split; [by apply Hw|].
    rewrite Hu. apply elem_of_app. by right.
  - intros p (p0 & -> & (e & -> & [He Hin]%list_elem_of_filter)%list_elem_of_fmap)%list_elem_of_fmap.
    split; [done|]. exists e. split; [rewrite Hd; apply elem_of_app; by right|]. split; [by apply Hw|done].
Qed.

(** The count bound covers the nominal outage window at every session shape:
    for each slot count up to the game's maximum the ring holds at least the
    window's turns of every slot, an unknown shape is sized for the largest
    game, and the byte bound leaves room for ordinary 300-byte turns. *)
Lemma ring_sized_for_window (n : Z) :
  0 <= n <= MAX_GAME_SLOTS ->
  RING_WINDOW_SECS * NOMINAL_TURNS_PER_SEC_PER_SLOT * n <= max_turns n /\
  max_turns 0 = max_turns MAX_GAME_SLOTS /\ max_bytes 0 = max_bytes MAX_GAME_SLOTS /\
  max_turns 1 * 300 <= max_bytes 1.
Proof.
  intros Hn. split; [|vm_compute; split_and!; [done|done|discriminate]].
  unfold max_turns, effective_slots, MAX_GAME_SLOTS, RING_WINDOW_SECS, DROP_UNLOCK_SECS,
    NOMINAL_TURNS_PER_SEC_PER_SLOT in *.
  apply Z.div_le_lower_bound; [lia|]. destruct (Z.eqb_spec n 0); cbn [orb]; [lia|].
  destruct (Z.ltb_spec 12 n); lia.
Qed.

(** ** Witnesses *)

Definition ring_turn (s q : Z) : Payload := mkPayload q s [26; 0] None None None (Some (mkStateHashReport 1 2)).

Definition demo_ring_ops : list (ring_op (K:=Z)) :=
  [RecordOp 7 (ring_turn 1 0) Local_ 2; RecordOp 9 (ring_turn 3 0) Mesh 0; EndOp 9;
   RecordOp 7 (ring_turn 2 0) Mesh 2; RecordOp 7 (ring_turn 1 1) Local_ 2].

Lemma turn_ring_bounded_witness :
  bytes <$> sessions (foldl ring_step new_ring_state demo_ring_ops) !! 7 = Some 6 /\
  bounded (foldl ring_step new_ring_state demo_ring_ops).
Proof.
  split; [vm_compute; reflexivity|]. apply (turn_ring_bounded demo_ring_ops).
  repeat constructor; lia.
Defined.

Lemma replay_covers_missed_witness :
  replay (foldl ring_step new_ring_state demo_ring_ops) 7 {[1 := 1]} 2 = [without_hash (ring_turn 1 1)] /\
  without_hash (ring_turn 1 1) ∈ replay (foldl ring_step new_ring_state demo_ring_ops) 7 {[1 := 1]} 2.
Proof.
  split; [vm_compute; reflexivity|].
  apply (proj1 (replay_covers_missed demo_ring_ops 7 2 2 {[1 := 1]}
    [mkEntry (ring_turn 1 0) Local_] [mkEntry (ring_turn 2 0) Mesh; mkEntry (ring_turn 1 1) Local_]
    ltac:(lia) ltac:(repeat constructor; cbn; done) eq_refl
    ltac:(split; vm_compute; discriminate)) (mkEntry (ring_turn 1 1) Local_)).
  - right. left.
  - split; [vm_compute; discriminate|]. split; [discriminate|]. vm_compute. discriminate.
Defined.
