(* ===== verification/RateLimit.v ===== *)
(** * The relay's throttles ([relay/src/rate_limit.rs])

    The power-of-two log counter and the token bucket of the per-key admission
    caps.  Instants and durations are nanoseconds. *)

From Stdlib Require Import ZArith Lia.
From stdpp Require Import gmap sorting list.
From S2P Require Import Prelude.

Open Scope Z_scope.

(** ** The occurrence counter *)

(** [u64::is_power_of_two]. *)
Definition is_power_of_two (n : Z) : bool := (0 <? n) && (2 ^ Z.log2 n =? n).

(** [observe] on the count: whether to log, and the count after. *)
Definition counter_observe (c : Z) : bool * Z :=
  let c' := c + 1 in ((c' =? 1) || is_power_of_two c', c').

Fixpoint counter_run (n : nat) (c : Z) : list bool * Z :=
  match n with
  | O => ([], c)
  | S n => let r := counter_observe c in let r' := counter_run n r.2 in (r.1 :: r'.1, r'.2)
  end.

(** ** The token bucket *)

Record TokenBucket : Type := mkTokenBucket {
  tokens : Z;
  last_refill : Z;
  burst : Z;
  refill_interval : Z;
}.

Definition NANOS_PER_MILLI : Z := 1000000.
Definition as_millis (d : Z) : Z := d / NANOS_PER_MILLI.

(** [u32::try_from(x).unwrap_or(d)]. *)
Definition u32_try_from_or (x d : Z) : Z := if x <=? u32_max then x else d.

Definition new_at (b interval now : Z) : TokenBucket := mkTokenBucket b now b interval.

Definition try_take_at (t : TokenBucket) (now : Z) : bool * TokenBucket :=
  let elapsed := saturating_sub now (last_refill t) in
  let interval_ms := Z.max 1 (as_millis (refill_interval t)) in
  let intervals := as_millis elapsed / interval_ms in
  let t1 :=
    if 0 <? intervals then
      let n := u32_try_from_or intervals (burst t) in
      mkTokenBucket (Z.min (burst t) (saturating_add u32_max (tokens t) n))
        (last_refill t + refill_interval t * n) (burst t) (refill_interval t)
    else t in
  if tokens t1 =? 0 then (false, t1)
  else (true, mkTokenBucket (tokens t1 - 1) (last_refill t1) (burst t1) (refill_interval t1)).

(** How many of a sequence of requests are admitted, and the bucket after. *)
Fixpoint take_all (t : TokenBucket) (nows : list Z) : Z * TokenBucket :=
  match nows with
  | [] => (0, t)
  | now :: nows =>
      let r := try_take_at t now in
      let r' := take_all r.2 nows in ((if r.1 then 1 else 0) + r'.1, r'.2)
  end.

(** ** The bucket's invariant *)

Implicit Types (t : TokenBucket).

(** The caps the relay configures are whole milliseconds. *)
Record bucket_inv t : Prop := {
  bk_tokens : 0 <= tokens t <= burst t;
  bk_burst : is_u32 (burst t);
  bk_interval : exists m, 1 <= m /\ refill_interval t = m * NANOS_PER_MILLI;
}.

(** The intervals that have passed, as the refill counts them. *)
Lemma refill_intervals e m :
  0 <= e -> 1 <= m -> as_millis e / Z.max 1 (as_millis (m * NANOS_PER_MILLI)) = e / (m * NANOS_PER_MILLI).
Proof.
  intros He Hm. unfold as_millis, NANOS_PER_MILLI. rewrite Z.div_mul, Z.max_r by lia.
  rewrite Z.div_div by lia. f_equal. lia.
Qed.

(** One request: the tokens spent and kept are paid for by the bucket's
    content and by whole intervals moved off the clock. *)
Lemma try_take_spec t now :
  bucket_inv t ->
  let r := try_take_at t now in
  bucket_inv r.2 /\ burst r.2 = burst t /\ refill_interval r.2 = refill_interval t /\
  exists n, 0 <= n /\ last_refill r.2 = last_refill t + refill_interval t * n /\
    (0 < n -> last_refill r.2 <= now) /\
    (if r.1 then 1 else 0) + tokens r.2 <= tokens t + n /\
    (refill_interval t <= now - last_refill t -> 1 <= burst t -> r.1 = true).
Proof.
  intros [Ht Hb (m & Hm & HI)]. unfold try_take_at. rewrite HI.
  set (e := saturating_sub now (last_refill t)).
  assert (He : 0 <= e) by (unfold e, saturating_sub; lia).
  rewrite refill_intervals by done. set (I := m * NANOS_PER_MILLI) in *.
  assert (HIpos : 0 < I) by (unfold I, NANOS_PER_MILLI; lia).
  set (k := e / I). assert (Hk : I * k <= e) by (unfold k; apply Z.mul_div_le; lia).
  assert (Hk0 : 0 <= k) by (unfold k; apply Z.div_pos; lia).
  destruct (Z.ltb_spec 0 k) as [Hpos|Hzero].
  - set (n := u32_try_from_or k (burst t)).
    assert (Hn : 0 <= n <= k /\ (1 <= burst t -> 1 <= n)).
    { unfold n, u32_try_from_or. unfold is_u32 in *. destruct (Z.leb_spec k u32_max); lia. }
    assert (Hnow : I * n <= now - last_refill t).
    { assert (I * n <= I * k) by nia. assert (0 < e) by nia. unfold e, saturating_sub in *. lia. }
    cbn [tokens burst refill_interval last_refill].
    set (tk := Z.min (burst t) (saturating_add u32_max (tokens t) n)).
    assert (Htk : 0 <= tk <= burst t /\ tk <= tokens t + n /\ (1 <= burst t -> 1 <= tk)).
    { unfold tk, saturating_add. unfold is_u32, u32_max in *. lia. }
    destruct (Z.eqb_spec tk 0) as [Hz|Hnz]; cbn [fst snd tokens burst refill_interval last_refill].
    + split; [split; cbn; [lia|done|by exists m]|]. split; [done|]. split; [done|]. exists n.
      split_and!; [lia|done|lia|lia|lia].
    + split; [split; cbn; [lia|done|by exists m]|]. split; [done|]. split; [done|]. exists n.
      split_and!; [lia|done|lia|lia|done].
  - assert (Hsmall : ~ I <= now - last_refill t).
    { intros Hle. assert (1 <= k); [|lia]. unfold k. apply Z.div_le_lower_bound; [lia|].
      unfold e, saturating_sub. lia. }
    destruct (Z.eqb_spec (tokens t) 0) as [Hz|Hnz]; cbn [fst snd tokens burst refill_interval last_refill].
    + split; [by split; [| |exists m]|]. split; [done|]. split; [done|]. exists 0.
      split_and!; [lia|lia|lia|lia|lia].
    + split; [split; cbn; [lia|done|by exists m]|]. split; [done|]. split; [done|]. exists 0.
      split_and!; [lia|lia|lia|lia|lia].
Qed.

(** The clock position only moves over whole intervals, up to the latest
    request. *)
Lemma take_all_spec t nows last :
  bucket_inv t -> last_refill t <= last -> Forall (fun now => now <= last) nows ->
  let r := take_all t nows in
  bucket_inv r.2 /\ last_refill r.2 <= last /\ burst r.2 = burst t /\
  exists n, 0 <= n /\ last_refill r.2 = last_refill t + refill_interval t * n /\
    r.1 + tokens r.2 <= tokens t + n.
Proof.
  intros Hi Hl Hnows. revert t Hi Hl. induction Hnows as [|now nows Hnow Hnows IH]; intros t Hi Hl; cbn [take_all].
  { split; [done|]. split; [done|]. split; [done|]. exists 0. cbn. lia. }
  destruct (try_take_spec t now Hi) as (Hi1 & Hb1 & HI1 & n1 & Hn1 & Hl1 & Hle1 & Hbud1 & _).
  destruct (try_take_at t now) as [b t1]. cbn [fst snd] in *.
  assert (last_refill t1 <= last).
  { destruct (decide (0 < n1)) as [Hp|]; [specialize (Hle1 Hp); lia|]. assert (n1 = 0) as -> by lia. lia. }
  destruct (IH t1 Hi1) as (Hi2 & Hle2 & Hb2 & n2 & Hn2 & Hl2 & Hbud2); [done|].
  destruct (take_all t1 nows) as [a t2]. cbn [fst snd] in *.
  split; [done|]. split; [done|]. split; [congruence|]. exists (n1 + n2).
  rewrite Hl2, Hl1, HI1. split; [lia|]. split; [lia|lia].
Qed.

(** ** The counter's schedule *)

Lemma power_of_two_succ c : 1 <= c ->
  is_power_of_two (c + 1) = (Z.log2 (c + 1) =? Z.log2 c + 1).
Proof.
  intros Hc. unfold is_power_of_two. rewrite (proj2 (Z.ltb_lt 0 (c + 1))) by lia. cbn [andb].
  pose proof (Z.log2_spec c ltac:(lia)) as [Hlo Hhi]. pose proof (Z.log2_spec (c + 1) ltac:(lia)) as [Hlo' Hhi'].
  rewrite <- !Z.add_1_r in *. pose proof (Z.log2_nonneg c). pose proof (Z.log2_nonneg (c + 1)).
  apply eq_true_iff_eq. rewrite !Z.eqb_eq. split.
  - intros Heq. pose proof (Z.log2_succ_or c) as Hs. rewrite <- !Z.add_1_r in Hs. destruct Hs as [Hs|Hs]; [done|].
    exfalso. rewrite Hs in Heq. lia.
  - intros Heq. rewrite Heq in *. lia.
Qed.

Definition logged (l : list bool) : Z := Z.of_nat (length (filter (fun b => b = true) l)).

Lemma logged_cons b l : logged (b :: l) = (if b then 1 else 0) + logged l.
Proof. unfold logged. rewrite filter_cons. destruct b; case_decide; cbn [length]; lia || done. Qed.

Lemma counter_run_spec n c : 1 <= c ->
  (counter_run n c).2 = c + Z.of_nat n /\
  logged (counter_run n c).1 = Z.log2 (c + Z.of_nat n) - Z.log2 c.
Proof.
  revert c. induction n as [|n IH]; intros c Hc; cbn [counter_run].
  { cbn. rewrite Z.add_0_r. split; [done|]. unfold logged. cbn. lia. }
  destruct (IH (c + 1)) as [IH1 IH2]; [lia|]. cbn [fst snd counter_observe]. rewrite logged_cons, IH1, IH2.
  replace (c + 1 + Z.of_nat n) with (c + Z.of_nat (S n)) by lia. split; [done|].
  rewrite (proj2 (Z.eqb_neq (c + 1) 1)) by lia. cbn [orb]. rewrite power_of_two_succ by done.
  destruct (Z.eqb_spec (Z.log2 (c + 1)) (Z.log2 c + 1)); [lia|].
  pose proof (Z.log2_succ_or c) as Hs. rewrite <- !Z.add_1_r in Hs. lia.
Qed.

(** ** Properties *)

(** The admission cap: from any bucket state, whatever requests arrive up to
    an instant, at most the burst plus one admission per whole refill interval
    since the bucket's clock are admitted; and a request a full interval after
    the last refill is always admitted. *)
Theorem token_bucket_bound t (nows : list Z) (last : Z) :
  bucket_inv t -> last_refill t <= last -> Forall (fun now => now <= last) nows ->
  (take_all t nows).1 <= burst t + (last - last_refill t) / refill_interval t /\
  forall now, refill_interval t <= now - last_refill t -> 1 <= burst t -> (try_take_at t now).1 = true.
Proof.
  intros Hi Hl Hnows. split.
  - destruct (take_all_spec t nows last Hi Hl Hnows) as (Hi2 & Hle & _ & n & Hn & Hl2 & Hbud).
    destruct Hi as [Ht _ (m & Hm & HI)]. destruct Hi2 as [Ht2 _ _].
    assert (Hpos : 0 < refill_interval t) by (rewrite HI; unfold NANOS_PER_MILLI; lia).
    assert (n <= (last - last_refill t) / refill_interval t); [|lia].
    apply Z.div_le_lower_bound; [done|]. lia.
  - intros now Hint Hb. destruct (try_take_spec t now Hi) as (_ & _ & _ & n & _ & _ & _ & _ & Hadm). auto.
Qed.

(** A persistent anomaly logs on the first occurrence and then at every
    power of two: after [n] occurrences the counter holds [n] and has asked to
    log exactly [log2 n + 1] times. *)
Theorem counter_logs (n : nat) :
  (0 < n)%nat ->
  (counter_run n 0).2 = Z.of_nat n /\ logged (counter_run n 0).1 = Z.log2 (Z.of_nat n) + 1.
Proof.
  intros Hn. destruct n as [|n]; [lia|]. cbn [counter_run].
  change (counter_observe 0) with (true, 1). cbn [fst snd].
  destruct (counter_run_spec n 1) as [H1 H2]; [lia|]. rewrite logged_cons, H1, H2.
  replace (1 + Z.of_nat n) with (Z.of_nat (S n)) by lia. split; [done|]. change (Z.log2 1) with 0. lia.
Qed.

(** ** Witnesses *)

Definition demo_bucket : TokenBucket := new_at 4 (200 * NANOS_PER_MILLI) 0.

Lemma demo_bucket_inv : bucket_inv demo_bucket.
Proof. split; [cbn; lia|cbn; width_lia|]. exists 200. split; [lia|done]. Qed.

Lemma token_bucket_bound_witness :
  (take_all demo_bucket [0; 0; 0; 0; 0; 250000000; 260000000]).1 = 5 /\
  5 <= burst demo_bucket + (260000000 - last_refill demo_bucket) / refill_interval demo_bucket.
Proof.
  assert (He : (take_all demo_bucket [0; 0; 0; 0; 0; 250000000; 260000000]).1 = 5) by (vm_compute; reflexivity).
  split; [exact He|]. rewrite <- He at 1.
  apply (token_bucket_bound demo_bucket [0; 0; 0; 0; 0; 250000000; 260000000] 260000000 demo_bucket_inv).
  - cbn. lia.
  - repeat constructor; lia.
Defined.

Lemma counter_logs_witness : logged (counter_run 16 0).1 = 5.
Proof. rewrite (proj2 (counter_logs 16 ltac:(lia))). vm_compute. reflexivity. Defined.
