(* ===== verification/Law.v ===== *)
(** * The control law's windows ([relay/src/consensus/law.rs])

    The tunables of the buffer control law and its two windowed maxima: the
    recent-RTT ring with its monotonic queue, and the bucketed trailing
    maximum behind the shrink floor and the blackout runs.  Array accesses are
    partial, so an out-of-range index would be a [None]. *)

From Stdlib Require Import ZArith Lia.
From stdpp Require Import gmap sorting list.
From S2P Require Import Prelude.

Open Scope Z_scope.

(** ** Tunables *)

Definition APPLY_HORIZON : Z := 3.
Definition BUFFER_TRACE_INTERVAL_TURNS : Z := 600.
Definition RTT_WINDOW_SIZE : nat := 32.
Definition LOSS_SNAPSHOT_COUNT : Z := 16.
Definition MIN_LOSS_WINDOW_SENT : Z := 8.
Definition OUTAGE_LOSS_RESOLUTION_SAMPLES : Z := 24.
Definition MAX_INGEST_RTT_US : Z := 10000000.
Definition TARGET_FLOOR_BUCKETS : nat := 32.
Definition TARGET_FLOOR_BASE_BUCKETS : nat := 8.
Definition BLACKOUT_RUN_BUCKETS : nat := 8.
Definition BURST_TURNS_CAP : Z := 4.
Definition EDGE_PROBATION_BUCKETS : nat := TARGET_FLOOR_BUCKETS.

Record ControlLaw : Type := mkControlLaw {
  turn_duration_us : Z;
  lower_step : Z;
  min_dwell_turns : Z;
  shrink_headroom_us : Z;
  loss_attack_samples : Z;
  loss_memory_samples : Z;
  shrink_lookback_turns : Z;
}.

Definition default_law : ControlLaw := mkControlLaw (1000000 / 24) 2 120 5208 24 192 600.

Definition loss_snapshot_interval (l : ControlLaw) : Z :=
  Z.max (loss_memory_samples l / LOSS_SNAPSHOT_COUNT) 1.
Definition target_floor_bucket_span (l : ControlLaw) : Z :=
  Z.max (shrink_lookback_turns l / Z.of_nat TARGET_FLOOR_BASE_BUCKETS) 1.
Definition blackout_run_bucket_span (l : ControlLaw) : Z :=
  Z.max (loss_memory_samples l / Z.of_nat BLACKOUT_RUN_BUCKETS) 1.

(** The greatest of [l], 0 when empty: [Iterator::max] with its [unwrap_or]. *)
Definition maxz (l : list Z) : Z := foldr Z.max 0 l.

(** ** The bucketed trailing maximum *)

Record BucketedMax : Type := mkBucketedMax {
  buckets : list Z;
  bm_head : nat;
  head_start : option Z;
}.

Section bucketed.
Context (N : nat).

Definition default_buckets : BucketedMax := mkBucketedMax (replicate N 0) 0 None.

(** [for _ in 0..advance]: move on to the next bucket and clear it. *)
Fixpoint advance_head (advance : nat) (bs : list Z) (head : nat) : option (list Z * nat) :=
  match advance with
  | O => Some (bs, head)
  | S advance =>
      let head := ((head + 1) mod N)%nat in
      _ ← bs !! head;
      advance_head advance (<[head := 0]> bs) head
  end.

Definition observe (w : BucketedMax) (at_ value bucket_span : Z) : option BucketedMax :=
  let bucket_span := Z.max bucket_span 1 in
  '(bs, head, start) ←
    match head_start w with
    | None => Some (buckets w, bm_head w, at_)
    | Some start =>
        let advance := saturating_sub at_ start / bucket_span in
        if Z.of_nat N <=? advance then Some (replicate N 0, bm_head w, at_)
        else
          r ← advance_head (Z.to_nat advance) (buckets w) (bm_head w);
          mret (r.1, r.2, start + advance * bucket_span)
    end;
  v ← (bs : list Z) !! (head : nat);
  mret (mkBucketedMax (<[head := Z.max v value]> bs) head (Some start)).

Definition max_over_last (w : BucketedMax) (n_buckets : nat) : option Z :=
  vs ← mapM (fun age => buckets w !! ((bm_head w + N - age) mod N)%nat) (seq 0 (Nat.min n_buckets N));
  mret (maxz vs).

End bucketed.

(** ** The recent-RTT ring *)

Record RttWindow : Type := mkRttWindow {
  samples : list Z;
  rtt_head : nat;
  rtt_len : nat;
  max_indices : list nat;
  max_head : nat;
  max_len : nat;
}.

Definition default_rtt : RttWindow :=
  mkRttWindow (replicate RTT_WINDOW_SIZE 0) 0 0 (replicate RTT_WINDOW_SIZE 0%nat) 0 0.

(** [while self.max_len > 0]: retire the dominated samples from the back. *)
Fixpoint retire_back (ss : list Z) (mi : list nat) (mh ml : nat) (rtt : Z) : option nat :=
  match ml with
  | O => Some O
  | S ml' =>
      let back := ((mh + ml - 1) mod RTT_WINDOW_SIZE)%nat in
      back_index ← mi !! back;
      v ← ss !! back_index;
      if rtt <? v then Some ml else retire_back ss mi mh ml' rtt
  end.

Definition push (w : RttWindow) (rtt : Z) : option RttWindow :=
  if rtt =? 0 then Some w
  else
    let sample_index := rtt_head w in
    '(mh, ml) ←
      (if (rtt_len w =? RTT_WINDOW_SIZE)%nat && (0 <? max_len w)%nat then
         front ← max_indices w !! max_head w;
         mret (if (front =? sample_index)%nat
               then (((max_head w + 1) mod RTT_WINDOW_SIZE)%nat, (max_len w - 1)%nat)
               else (max_head w, max_len w))
       else Some (max_head w, max_len w));
    ml' ← retire_back (samples w) (max_indices w) mh ml rtt;
    _ ← samples w !! sample_index;
    let max_tail := ((mh + ml') mod RTT_WINDOW_SIZE)%nat in
    _ ← max_indices w !! max_tail;
    mret (mkRttWindow (<[sample_index := rtt]> (samples w))
            ((rtt_head w + 1) mod RTT_WINDOW_SIZE)%nat
            (if (rtt_len w <? RTT_WINDOW_SIZE)%nat then (rtt_len w + 1)%nat else rtt_len w)
            (<[max_tail := sample_index]> (max_indices w)) mh (ml' + 1)%nat).

Definition rtt_max (w : RttWindow) : option Z :=
  if (max_len w =? 0)%nat then Some 0
  else front ← max_indices w !! max_head w; samples w !! front.

(** *** The shape of a bucketed maximum: any observation is taken *)

Definition bm_shape (N : nat) (w : BucketedMax) : Prop := length (buckets w) = N /\ (bm_head w < N)%nat.

Lemma advance_head_shape N n bs head :
  (0 < N)%nat -> length bs = N -> (head < N)%nat ->
  exists bs' head', advance_head N n bs head = Some (bs', head') /\ length bs' = N /\ (head' < N)%nat.
Proof.
  intros HN. revert bs head. induction n as [|n IH]; intros bs head Hl Hh; cbn [advance_head]; [by exists bs, head|].
  assert (Hm : ((head + 1) mod N < N)%nat) by (apply Nat.mod_upper_bound; lia).
  destruct (lookup_lt_is_Some_2 bs ((head + 1) mod N)%nat) as [v ->]; [lia|]. cbn [mbind option_bind].
  apply IH; [by rewrite length_insert|done].
Qed.

Lemma observe_shape N w at_ v span :
  (0 < N)%nat -> bm_shape N w -> exists w', observe N w at_ v span = Some w' /\ bm_shape N w'.
Proof.
  intros HN [Hl Hh]. unfold observe. cbv zeta.
  assert (Hput : forall bs head st, length bs = N -> (head < N)%nat ->
    exists w', (x ← bs !! head; mret (mkBucketedMax (<[head := Z.max x v]> bs) head (Some st))) = Some w' /\ bm_shape N w').
  { intros bs head st Hb Hd. destruct (lookup_lt_is_Some_2 bs head) as [x ->]; [lia|]. cbn.
    eexists. split; [reflexivity|]. split; cbn; [by rewrite length_insert|done]. }
  destruct (head_start w) as [st|]; [|by apply Hput].
  destruct (_ <=? _); [apply Hput; [apply length_replicate|done]|].
  destruct (advance_head_shape N (Z.to_nat (saturating_sub at_ st / Z.max span 1)) (buckets w) (bm_head w) HN Hl Hh)
    as (bs & head & -> & ? & ?). by apply Hput.
Qed.

(** ** Maxima *)

Lemma maxz_le l b : 0 <= b -> (forall x, x ∈ l -> x <= b) -> maxz l <= b.
Proof.
  intros Hb Hall. induction l as [|x l IH]; [done|]. cbn.
  pose proof (Hall x ltac:(left)). assert (maxz l <= b) by (apply IH; intros y Hy; apply Hall; by right).
  unfold maxz in *. lia.
Qed.

Lemma maxz_ge l x : x ∈ l -> x <= maxz l.
Proof. induction 1 as [x l|x y l _ IH]; cbn; fold (maxz l); lia. Qed.

Lemma maxz_nonneg l : 0 <= maxz l.
Proof. induction l as [|x l IH]; cbn; [lia|]. fold (maxz l). lia. Qed.

Lemma maxz_unique l m : m ∈ l -> 0 <= m -> (forall x, x ∈ l -> x <= m) -> maxz l = m.
Proof. intros Hin Hm Hall. apply Z.le_antisymm; [by apply maxz_le|by apply maxz_ge]. Qed.

Lemma nat_mod_inj (m a b : nat) :
  (a mod m = b mod m -> a < b + m -> b < a + m -> a = b)%nat.
Proof.
  intros Hmod H1 H2. apply Nat2Z.inj, (mod_window_inj (Z.of_nat m)); [|lia].
  by rewrite <- !Nat2Z.inj_mod, Hmod.
Qed.

(** A strictly increasing list inside an interval is no longer than it. *)
Lemma increasing_length (js : list nat) (a b : nat) :
  StronglySorted lt js -> (forall j, j ∈ js -> a <= j < b)%nat -> (length js <= b - a)%nat.
Proof.
  intros Hs. revert a. induction Hs as [|j js Hs IH Hj]; intros a Hin; cbn; [lia|].
  pose proof (Hin j ltac:(left)). rewrite Forall_forall in Hj.
  assert (length js <= b - S j)%nat; [|lia]. apply IH. intros j' Hj'. split; [by apply Hj|].
  by apply Hin; right.
Qed.

(** ** The recent-RTT ring *)

Section rtt.

(** The [j]-th sample ever pushed. *)
Definition hv (h : list Z) (j : nat) : Z := default 0 (h !! j).

Lemma hv_snoc h r j : hv (h ++ [r]) j = if decide (j = length h) then r else hv h j.
Proof.
  unfold hv. case_decide as Hj; [subst; by rewrite list_lookup_middle|].
  destruct (decide (j < length h)%nat); [by rewrite lookup_app_l|].
  rewrite !lookup_ge_None_2; [done|lia|rewrite length_app; cbn; lia].
Qed.

Local Abbreviation W := RTT_WINDOW_SIZE.

Lemma W_pos : (0 < W)%nat.
Proof. unfold RTT_WINDOW_SIZE. lia. Qed.

(** The index queue holds the samples [js], front first. *)
Definition queued (mi : list nat) (mh : nat) (js : list nat) : Prop :=
  forall i j, js !! i = Some j -> mi !! ((mh + i) mod W)%nat = Some (j mod W)%nat.

(** [h]: every nonzero sample so far; [js]: the queue's samples. *)
Record rtt_inv (w : RttWindow) (h : list Z) (js : list nat) : Prop := {
  ri_samples_len : length (samples w) = W;
  ri_indices_len : length (max_indices w) = W;
  ri_head : rtt_head w = (length h mod W)%nat;
  ri_len : rtt_len w = Nat.min (length h) W;
  ri_samples : forall j, (j < length h <= j + W)%nat -> samples w !! (j mod W)%nat = Some (hv h j);
  ri_mhead : (max_head w < W)%nat;
  ri_mlen : max_len w = length js;
  ri_queued : queued (max_indices w) (max_head w) js;
  ri_live : forall j, j ∈ js -> (j < length h <= j + W)%nat;
  ri_incr : StronglySorted lt js;
  ri_decr : StronglySorted (fun j1 j2 => hv h j2 < hv h j1) js;
  ri_dom : forall j, (j < length h <= j + W)%nat -> exists q, q ∈ js /\ (j <= q)%nat /\ hv h j <= hv h q;
}.

Lemma rtt_inv_default : rtt_inv default_rtt [] [].
Proof.
  split; cbn [default_rtt samples max_indices rtt_head rtt_len max_len max_head length]; try done.
  - intros j Hj. lia.
  - apply W_pos.
  - intros j Hj. by apply elem_of_nil in Hj.
  - constructor.
  - constructor.
  - intros j Hj. lia.
Qed.

Lemma queued_pop mi mh j js : queued mi mh (j :: js) -> queued mi ((mh + 1) mod W)%nat js.
Proof.
  intros Hq i j' Hj'. rewrite Nat.Div0.add_mod_idemp_l.
  replace (mh + 1 + i)%nat with (mh + S i)%nat by lia. by apply Hq.
Qed.

Lemma queued_take mi mh n js : queued mi mh js -> queued mi mh (take n js).
Proof. intros Hq i j Hj. apply lookup_take_Some in Hj as [Hj _]. by apply Hq. Qed.

Lemma queued_snoc mi mh js j :
  length mi = W -> queued mi mh js -> (length js < W)%nat ->
  queued (<[((mh + length js) mod W)%nat := (j mod W)%nat]> mi) mh (js ++ [j]).
Proof.
  intros Hlen Hq Hlt i x Hx. pose proof W_pos.
  destruct (decide (i = length js)) as [->|Hne].
  - rewrite list_lookup_middle in Hx by done. injection Hx as <-.
    apply list_lookup_insert_eq. rewrite Hlen. apply Nat.mod_upper_bound. lia.
  - apply lookup_app_Some in Hx as [Hx|[Hge Hx]].
    + rewrite list_lookup_insert_ne; [by apply Hq|]. intros Heq.
      pose proof (lookup_lt_Some _ _ _ Hx).
      apply nat_mod_inj in Heq; lia.
    + apply lookup_lt_Some in Hx. cbn in Hx. lia.
Qed.

(** The retirement stops at the first sample, from the back, above [rtt]. *)
Lemma retire_back_spec ss mi mh (val : nat -> Z) r js :
  (forall i j, js !! i = Some j -> exists x, mi !! ((mh + i) mod W)%nat = Some x /\ ss !! x = Some (val j)) ->
  exists ml, retire_back ss mi mh (length js) r = Some ml /\ (ml <= length js)%nat /\
    (forall j, j ∈ drop ml js -> val j <= r) /\
    (forall j, last (take ml js) = Some j -> r < val j).
Proof.
  induction js as [|j js IH] using rev_ind; intros Hq.
  { exists O. split; [done|]. split; [done|]. split; intros j Hj; [by apply elem_of_nil in Hj|done]. }
  rewrite length_app, Nat.add_1_r. cbn [retire_back].
  destruct (Hq (length js) j) as (x & Hx & Hv); [by rewrite list_lookup_middle|].
  replace (mh + S (length js) - 1)%nat with (mh + length js)%nat by lia. rewrite Hx. cbn [mbind option_bind].
  rewrite Hv. cbn [mbind option_bind]. destruct (Z.ltb_spec r (val j)) as [Hlt|Hge].
  - exists (S (length js)). split; [done|]. split; [lia|].
    rewrite drop_ge, take_ge by (rewrite length_app; cbn; lia).
    split; [intros j' Hj'; by apply elem_of_nil in Hj'|]. rewrite last_snoc. by intros j' [= <-].
  - destruct IH as (ml & Hret & Hle & Hdrop & Htake).
    { intros i j' Hj'. apply Hq. by apply lookup_app_l_Some. }
    exists ml. split; [done|]. split; [lia|]. rewrite drop_app_le, take_app_le by lia. split; [|done].
    intros j' [Hj'|Hj']%elem_of_app; [by apply Hdrop|]. apply list_elem_of_singleton in Hj' as ->. done.
Qed.

(** The head of [push]: the sample aging out leaves the queue. *)
Lemma expire_front w h js :
  rtt_inv w h js ->
  exists mh js1,
    (if (rtt_len w =? W)%nat && (0 <? max_len w)%nat then
       front ← max_indices w !! max_head w;
       mret (if (front =? rtt_head w)%nat
             then (((max_head w + 1) mod W)%nat, (max_len w - 1)%nat)
             else (max_head w, max_len w))
     else Some (max_head w, max_len w)) = Some (mh, length js1) /\
    (mh < W)%nat /\ queued (max_indices w) mh js1 /\ suffix js1 js /\
    (forall j, j ∈ js1 -> (j < length h < j + W)%nat) /\
    (forall j, j ∈ js -> (length h < j + W)%nat -> j ∈ js1).
Proof.
  intros [Hsl Hil Hh Hl Hs Hmh Hml Hq Hlive Hincr Hdecr Hdom]. rewrite Hl, Hml, Hh. pose proof W_pos.
  destruct js as [|j0 js].
  { rewrite andb_false_r. exists (max_head w), []. do 4 (split; [done|]).
    split; intros j Hj; by apply elem_of_nil in Hj. }
  pose proof (Hlive j0 ltac:(left)) as Hj0. inversion Hincr as [|? ? _ Hall]; subst. rewrite Forall_forall in Hall.
  assert (Hkeep : (length h < j0 + W)%nat -> exists mh js1,
    Some (max_head w, length (j0 :: js)) = Some (mh, length js1) /\ (mh < W)%nat /\ queued (max_indices w) mh js1 /\
    suffix js1 (j0 :: js) /\ (forall j, j ∈ js1 -> (j < length h < j + W)%nat) /\
    (forall j, j ∈ j0 :: js -> (length h < j + W)%nat -> j ∈ js1)).
  { intros Hlt. exists (max_head w), (j0 :: js). do 4 (split; [done|]). split; [|done].
    intros j Hj. pose proof (Hlive j Hj). apply elem_of_cons in Hj as [->|Hj]; [lia|].
    specialize (Hall j Hj). lia. }
  destruct (Nat.eqb_spec (Nat.min (length h) W) W) as [Hfull|Hpart]; cbn [andb length];
    [|apply Hkeep; lia].
  cbn [Nat.ltb Nat.leb]. pose proof (Hq 0%nat j0 eq_refl) as Hfront. rewrite Nat.add_0_r in Hfront.
  rewrite Nat.mod_small in Hfront by done. rewrite Hfront. cbn [mbind option_bind mret option_ret].
  destruct (Nat.eqb_spec (j0 mod W) (length h mod W)) as [Heq|Hne].
  - assert (j0 + W = length h)%nat.
    { destruct (decide (j0 + W = length h)%nat); [done|]. apply nat_mod_inj in Heq; lia. }
    exists ((max_head w + 1) mod W)%nat, js. split; [f_equal; f_equal; lia|].
    split; [apply Nat.mod_upper_bound; lia|].
    split; [by eapply queued_pop|]. split; [by exists [j0]|]. split.
    + intros j Hj. specialize (Hall j Hj). pose proof (Hlive j ltac:(by right)). lia.
    + intros j [->|Hj]%elem_of_cons; [lia|done].
  - apply Hkeep. destruct (decide (length h = j0 + W)%nat) as [He|]; [|lia].
    exfalso. apply Hne. rewrite He. replace (j0 + W)%nat with (j0 + 1 * W)%nat by lia.
    by rewrite Nat.Div0.mod_add.
Qed.

Lemma StronglySorted_snoc {A} (R : A -> A -> Prop) l x :
  StronglySorted R l -> (forall y, y ∈ l -> R y x) -> StronglySorted R (l ++ [x]).
Proof.
  intros Hs Hx. induction Hs as [|y l Hs IH Hy]; cbn; [repeat constructor|]. constructor.
  - apply IH. intros z Hz. apply Hx. by right.
  - apply Forall_app. split; [done|]. constructor; [apply Hx; left|done].
Qed.

Lemma StronglySorted_suffix {A} (R : A -> A -> Prop) l1 l2 :
  suffix l1 l2 -> StronglySorted R l2 -> StronglySorted R l1.
Proof. intros [k ->]. by apply StronglySorted_app_1_r. Qed.

Lemma StronglySorted_take {A} (R : A -> A -> Prop) n l :
  StronglySorted R l -> StronglySorted R (take n l).
Proof. rewrite <- (take_drop n l) at 1. by apply StronglySorted_app_1_l. Qed.

Lemma StronglySorted_last {A} (R : A -> A -> Prop) l x y :
  StronglySorted R l -> last l = Some x -> y ∈ l -> y = x \/ R y x.
Proof.
  intros Hs. induction Hs as [|z l Hs IH Hz]; intros Hl Hy; [done|]. apply elem_of_cons in Hy as [->|Hy].
  - destruct l as [|z' l]; [injection Hl as ->; by left|]. right. rewrite Forall_forall in Hz.
    apply Hz. rewrite last_cons_cons in Hl. by apply last_Some_elem_of.
  - destruct l as [|z' l]; [by apply elem_of_nil in Hy|]. rewrite last_cons_cons in Hl. by apply IH.
Qed.

(** The samples left in the queue after the push of [r]. *)
Lemma pushed_inv w h js js1 ml r mh :
  rtt_inv w h js -> (mh < W)%nat -> queued (max_indices w) mh js1 -> suffix js1 js ->
  (forall j, j ∈ js1 -> (j < length h < j + W)%nat) ->
  (forall j, j ∈ js -> (length h < j + W)%nat -> j ∈ js1) ->
  (ml <= length js1)%nat -> (forall j, j ∈ drop ml js1 -> hv h j <= r) ->
  (forall j, last (take ml js1) = Some j -> r < hv h j) ->
  rtt_inv (mkRttWindow (<[rtt_head w := r]> (samples w)) ((rtt_head w + 1) mod W)%nat
             (if (rtt_len w <? W)%nat then (rtt_len w + 1)%nat else rtt_len w)
             (<[((mh + ml) mod W)%nat := rtt_head w]> (max_indices w)) mh (ml + 1)%nat)
    (h ++ [r]) (take ml js1 ++ [length h]).
Proof.
  intros [Hsl Hil Hh Hl Hs Hmh Hml Hq Hlive Hincr Hdecr Hdom] Hmh' Hq1 Hsuf Hlive1 Hcov Hle Hdrop Htake.
  pose proof W_pos. assert (Hlen : length (take ml js1) = ml) by (rewrite length_take; lia).
  assert (Hsub : forall j, j ∈ take ml js1 -> j ∈ js1) by (intros j; apply subseteq_take).
  assert (Hi1 : StronglySorted lt (take ml js1)) by (by eapply StronglySorted_take, StronglySorted_suffix).
  assert (Hd1 : StronglySorted (fun j1 j2 => hv h j2 < hv h j1) (take ml js1))
    by (by eapply StronglySorted_take, StronglySorted_suffix).
  assert (Hbig : forall j, j ∈ take ml js1 -> r < hv h j).
  { intros j Hj. destruct (last (take ml js1)) as [z|] eqn:Hz.
    - specialize (Htake z eq_refl). destruct (StronglySorted_last _ _ _ _ Hd1 Hz Hj) as [->|?]; [done|lia].
    - apply last_None in Hz. rewrite Hz in Hj. by apply elem_of_nil in Hj. }
  assert (Hold : forall j, (j < length h)%nat -> hv (h ++ [r]) j = hv h j)
    by (intros j Hj; rewrite hv_snoc, decide_False by lia; done).
  assert (Hnew : hv (h ++ [r]) (length h) = r) by (by rewrite hv_snoc, decide_True).
  split; cbn [samples max_indices rtt_head rtt_len max_len max_head]; rewrite ?length_app; cbn [length];
    rewrite ?length_insert; try done.
  - rewrite Hh, Nat.Div0.add_mod_idemp_l. done.
  - rewrite Hl. destruct (Nat.ltb_spec (Nat.min (length h) W) W); lia.
  - intros j Hj. rewrite Hh. destruct (decide (j = length h)) as [->|Hne].
    + rewrite Hnew. apply list_lookup_insert_eq. rewrite Hsl. apply Nat.mod_upper_bound. lia.
    + rewrite Hold by lia. rewrite list_lookup_insert_ne; [apply Hs; lia|].
      intros Heq. apply nat_mod_inj in Heq; lia.
  - lia.
  - rewrite Hh, <- Hlen at 1. apply queued_snoc; [done|by apply queued_take|].
    assert (length (take ml js1) <= length h - (length h - (W - 1)))%nat; [|lia].
    apply increasing_length; [done|]. intros j Hj%Hsub%Hlive1. lia.
  - intros j [Hj%Hsub%Hlive1|Hj%list_elem_of_singleton]%elem_of_app; lia.
  - apply StronglySorted_snoc; [done|]. intros j Hj%Hsub%Hlive1. lia.
  - apply StronglySorted_snoc.
    + clear -Hd1 Hold Hsub Hlive1.
      assert (Hin : forall j, j ∈ take ml js1 -> (j < length h)%nat) by (intros j Hj%Hsub%Hlive1; lia).
      induction Hd1 as [|j l Hs IH Hj]; [constructor|]. constructor.
      * apply IH; intros j' Hj'; [apply Hsub|apply Hin]; by right.
      * rewrite Forall_forall in Hj |- *. intros j' Hj'. rewrite !Hold by (apply Hin; (by right) || left).
        by apply Hj.
    + intros j Hj. rewrite Hnew, Hold by (apply Hsub, Hlive1 in Hj; lia). by apply Hbig.
  - intros j Hj. destruct (decide (j = length h)) as [->|Hne].
    { exists (length h). split; [|lia]. apply elem_of_app. right. by apply list_elem_of_singleton. }
    destruct (Hdom j ltac:(lia)) as (q & Hqj & Hge & Hv). pose proof (Hlive q Hqj).
    assert (Hq1' : q ∈ js1) by (apply Hcov; [done|lia]).
    rewrite <- (take_drop ml js1) in Hq1'. apply elem_of_app in Hq1' as [Hin|Hin].
    + exists q. split; [apply elem_of_app; by left|]. rewrite !Hold by lia. done.
    + exists (length h). split; [apply elem_of_app; right; by apply list_elem_of_singleton|].
      rewrite Hnew, Hold by lia. specialize (Hdrop q Hin). lia.
Qed.

Lemma push_inv w h js r :
  rtt_inv w h js -> r <> 0 -> exists w' js', push w r = Some w' /\ rtt_inv w' (h ++ [r]) js'.
Proof.
  intros Hi Hr. pose proof W_pos. destruct (expire_front w h js Hi) as (mh & js1 & Hexp & Hmh & Hq & Hsuf & Hlive & Hcov).
  destruct (retire_back_spec (samples w) (max_indices w) mh (hv h) r js1) as (ml & Hret & Hle & Hdrop & Htake).
  { intros i j Hj. exists (j mod W)%nat. split; [by apply Hq|]. apply (ri_samples _ _ _ Hi).
    apply list_elem_of_lookup_2, Hlive in Hj. lia. }
  unfold push. rewrite (proj2 (Z.eqb_neq r 0) Hr), Hexp. cbn [mbind option_bind]. rewrite Hret.
  cbn [mbind option_bind].
  destruct (lookup_lt_is_Some_2 (samples w) (rtt_head w)) as [v Hv].
  { rewrite (ri_samples_len _ _ _ Hi), (ri_head _ _ _ Hi). apply Nat.mod_upper_bound. lia. }
  destruct (lookup_lt_is_Some_2 (max_indices w) ((mh + ml) mod W)%nat) as [v' Hv'].
  { rewrite (ri_indices_len _ _ _ Hi). apply Nat.mod_upper_bound. lia. }
  rewrite Hv. cbn [mbind option_bind]. rewrite Hv'. cbn [mbind option_bind].
  do 2 eexists. split; [reflexivity|]. by eapply pushed_inv.
Qed.

Lemma rtt_max_spec w h js :
  rtt_inv w h js -> (forall x, x ∈ h -> 0 <= x) ->
  rtt_max w = Some (maxz (drop (length h - W) h)).
Proof.
  intros [Hsl Hil Hh Hl Hs Hmh Hml Hq Hlive Hincr Hdecr Hdom] Hpos. unfold rtt_max. rewrite Hml.
  pose proof W_pos. destruct js as [|j0 js]; cbn [length Nat.eqb].
  - f_equal. destruct h as [|x h _] using rev_ind; [done|]. exfalso.
    destruct (Hdom (length h)) as (q & Hqj & _); [rewrite length_app; cbn; lia|]. by apply elem_of_nil in Hqj.
  - pose proof (Hq 0%nat j0 eq_refl) as Hf. rewrite Nat.add_0_r, Nat.mod_small in Hf by done.
    pose proof (Hlive j0 ltac:(left)) as Hj0. rewrite Hf. cbn [mbind option_bind]. rewrite Hs by done. f_equal.
    assert (Hj0v : h !! j0 = Some (hv h j0)).
    { unfold hv. by destruct (lookup_lt_is_Some_2 h j0 ltac:(lia)) as [v ->]. }
    symmetry. apply maxz_unique.
    + apply list_elem_of_lookup. exists (j0 - (length h - W))%nat. rewrite lookup_drop.
      by replace (length h - W + (j0 - (length h - W)))%nat with j0 by lia.
    + apply Hpos. by eapply list_elem_of_lookup_2.
    + intros x (i & Hi)%list_elem_of_lookup. rewrite lookup_drop in Hi.
      pose proof (lookup_lt_Some _ _ _ Hi).
      destruct (Hdom (length h - W + i)%nat ltac:(lia)) as (q & Hqj & _ & Hv).
      unfold hv in Hv at 1. rewrite Hi in Hv. cbn [from_option id default] in Hv.
      apply elem_of_cons in Hqj as [->|Hqj]; [done|].
      inversion Hdecr as [|? ? _ Hall]; subst. rewrite Forall_forall in Hall. specialize (Hall q Hqj). lia.
Qed.

End rtt.

(** ** The bucketed trailing maximum *)

Section bucketed_spec.
Context (N : nat) (HN : (0 < N)%nat) (span : Z) (Hspan : 1 <= span).

(** The bucket [age] steps before the head. *)
Definition aged (bs : list Z) (head age : nat) : option Z := bs !! ((head + N - age) mod N)%nat.

(** The coordinates that fall in it, when the head bucket begins at [st]. *)
Definition in_bucket (st : Z) (age : nat) (e : Z) : Prop :=
  st - Z.of_nat age * span <= e /\ (age = O \/ e < st - (Z.of_nat age - 1) * span).

(** [E]: every observation so far, under the running maximum of the
    coordinates. *)
Record bucket_inv (bs : list Z) (head : nat) (E : list (Z * Z)) (st : Z) : Prop := {
  bi_len : length bs = N;
  bi_head : (head < N)%nat;
  bi_past : forall e v, (e, v) ∈ E -> e < st + span;
  bi_aged : forall age, (age < N)%nat -> exists b, aged bs head age = Some b /\
    (forall e v, (e, v) ∈ E -> in_bucket st age e -> v <= b) /\
    (b = 0 \/ exists e, (e, b) ∈ E /\ in_bucket st age e);
}.

Lemma bucket_inv_fresh head E st :
  (head < N)%nat -> (forall e v, (e, v) ∈ E -> e < st - (Z.of_nat N - 1) * span) ->
  bucket_inv (replicate N 0) head E st.
Proof.
  intros Hh Hold. split; [apply length_replicate|done| |].
  - intros e v Hin. specialize (Hold e v Hin). nia.
  - intros age Hage. exists 0. split.
    + apply lookup_replicate_2, Nat.mod_upper_bound. lia.
    + split; [|by left]. intros e v Hin [Hge _]. specialize (Hold e v Hin). nia.
Qed.

Lemma aged_zero bs head : (head < N)%nat -> aged bs head 0 = bs !! head.
Proof.
  intros Hh. unfold aged. rewrite Nat.sub_0_r. replace (head + N)%nat with (head + 1 * N)%nat by lia.
  by rewrite Nat.Div0.mod_add, Nat.mod_small.
Qed.

(** Moving on by one bucket. *)
Lemma aged_next bs head age v :
  (head < N)%nat -> (S age < N)%nat ->
  aged (<[((head + 1) mod N)%nat := v]> bs) ((head + 1) mod N)%nat (S age) = aged bs head age.
Proof.
  intros Hh Hage. unfold aged.
  assert (Hidx : (((head + 1) mod N + N - S age) mod N = (head + N - age) mod N)%nat).
  { destruct (decide (head + 1 < N)%nat).
    - rewrite (Nat.mod_small (head + 1)) by done. f_equal. lia.
    - assert (head + 1 = N)%nat as Heq by lia. rewrite Heq, Nat.Div0.mod_same.
      replace (head + N - age)%nat with ((0 + N - S age) + 1 * N)%nat by lia. by rewrite Nat.Div0.mod_add. }
  rewrite Hidx. apply list_lookup_insert_ne. intros Heq. apply nat_mod_inj in Heq; lia.
Qed.

Lemma bucket_inv_next bs head E st :
  bucket_inv bs head E st ->
  bucket_inv (<[((head + 1) mod N)%nat := 0]> bs) ((head + 1) mod N)%nat E (st + span).
Proof.
  intros [Hlen Hh Hpast Haged].
  assert (Hh' : ((head + 1) mod N < N)%nat) by (apply Nat.mod_upper_bound; lia).
  split; [by rewrite length_insert|done| |].
  - intros e v Hin. specialize (Hpast e v Hin). lia.
  - intros [|age] Hage.
    + exists 0. split; [rewrite aged_zero by done; apply list_lookup_insert_eq; lia|].
      split; [|by left]. intros e v Hin [Hge _]. specialize (Hpast e v Hin). lia.
    + destruct (Haged age ltac:(lia)) as (b & Hb & Hlo & Hhi). exists b.
      assert (Hshift : forall e, in_bucket (st + span) (S age) e -> in_bucket st age e).
      { intros e [H1 [|H2]]; [done|]. split; [lia|]. destruct age; [by left|right; lia]. }
      assert (Hback : forall e v, (e, v) ∈ E -> in_bucket st age e -> in_bucket (st + span) (S age) e).
      { intros e v Hin [H1 H2]. specialize (Hpast e v Hin). split; [lia|right]. destruct H2; subst; lia. }
      split; [by rewrite aged_next|]. split.
      * intros e v Hin Hb'. eapply Hlo; [done|]. by apply Hshift.
      * destruct Hhi as [->|(e & Hin & Hb')]; [by left|]. right. exists e. split; [done|]. by eapply Hback.
Qed.

Lemma advance_head_inv n : forall bs head E st,
  bucket_inv bs head E st ->
  exists bs' head', advance_head N n bs head = Some (bs', head') /\
    bucket_inv bs' head' E (st + Z.of_nat n * span).
Proof.
  induction n as [|n IH]; intros bs head E st Hi; cbn [advance_head].
  { exists bs, head. split; [done|]. by replace (st + Z.of_nat 0 * span) with st by lia. }
  destruct (lookup_lt_is_Some_2 bs ((head + 1) mod N)%nat) as [v ->].
  { rewrite (bi_len _ _ _ _ Hi). apply Nat.mod_upper_bound. lia. }
  cbn [mbind option_bind]. destruct (IH _ _ _ _ (bucket_inv_next _ _ _ _ Hi)) as (bs' & head' & -> & Hi').
  exists bs', head'. split; [done|]. by replace (st + Z.of_nat (S n) * span) with (st + span + Z.of_nat n * span) by lia.
Qed.

(** One value into the head bucket. *)
Lemma bucket_inv_add bs head E st e v b :
  bucket_inv bs head E st -> bs !! head = Some b -> 0 <= v -> st <= e < st + span ->
  bucket_inv (<[head := Z.max b v]> bs) head ((e, v) :: E) st.
Proof.
  intros [Hlen Hh Hpast Haged] Hb Hv He.
  assert (Hne : forall age, age <> O -> ~ in_bucket st age e).
  { intros age Hage [_ [->|Hlt]]; [done|]. nia. }
  split; [by rewrite length_insert|done| |].
  - intros e' v' [[= -> ->]|Hin]%elem_of_cons; [lia|by eapply Hpast].
  - intros age Hage. destruct (Haged age Hage) as (b' & Hb' & Hlo & Hhi).
    destruct (decide (age = O)) as [->|Hage0].
    + rewrite aged_zero in Hb' |- * by done. assert (b' = b) as -> by congruence.
      exists (Z.max b v). split; [apply list_lookup_insert_eq; lia|]. split.
      * intros e' v' [[= -> ->]|Hin]%elem_of_cons Hbk; [lia|]. specialize (Hlo e' v' Hin Hbk). lia.
      * destruct (Z.max_spec b v) as [[? ->]|[? ->]].
        -- right. exists e. split; [left|]. split; [lia|by left].
        -- destruct Hhi as [->|(e' & Hin & Hbk)]; [by left|]. right. exists e'. split; [by right|done].
    + exists b'. split.
      { unfold aged in *. rewrite list_lookup_insert_ne; [done|]. intros Heq.
        rewrite <- (Nat.mod_small head N) in Heq at 1 by done. apply nat_mod_inj in Heq; lia. }
      split.
      * intros e' v' [[= -> ->]|Hin]%elem_of_cons Hbk; [by destruct (Hne age)|by eapply Hlo].
      * destruct Hhi as [->|(e' & Hin & Hbk)]; [by left|]. right. exists e'. split; [by right|done].
Qed.

End bucketed_spec.

(** ** Sequences of observations *)

Section observations.
Context (N : nat) (HN : (0 < N)%nat) (raw_span : Z).
Local Abbreviation span := (Z.max raw_span 1).

Fixpoint observe_all (w : BucketedMax) (obs : list (Z * Z)) : option BucketedMax :=
  match obs with
  | [] => Some w
  | o :: obs => w' ← observe N w o.1 o.2 raw_span; observe_all w' obs
  end.

(** The observations under the running maximum of their coordinates, newest
    first, and that maximum. *)
Definition latest (obs : list (Z * Z)) : Z := foldl (fun a o => Z.max a o.1) 0 obs.
Fixpoint effective (past : list (Z * Z)) (a : Z) (obs : list (Z * Z)) : list (Z * Z) :=
  match obs with
  | [] => past
  | o :: obs => effective ((Z.max a o.1, o.2) :: past) (Z.max a o.1) obs
  end.

Definition window_inv (w : BucketedMax) (E : list (Z * Z)) (a : Z) : Prop :=
  match head_start w with
  | None => E = [] /\ w = default_buckets N
  | Some st => bucket_inv N span (buckets w) (bm_head w) E st /\ st <= a < st + span
  end.

Lemma bucket_observe_inv w E a at_ v :
  window_inv w E a -> 0 <= a -> (head_start w = None -> a <= at_) -> 0 <= v -> (forall e x, (e, x) ∈ E -> e <= a) ->
  exists w', observe N w at_ v raw_span = Some w' /\ window_inv w' ((Z.max a at_, v) :: E) (Z.max a at_) /\
    is_Some (head_start w').
Proof.
  intros Hw Ha0 Hfirst Hv HE. unfold observe. cbv zeta.
  assert (Hspan : 1 <= span) by lia.
  assert (Hadd : forall bs head st, bucket_inv N span bs head E st -> st <= Z.max a at_ < st + span ->
    exists w', (x ← bs !! head; mret (mkBucketedMax (<[head := Z.max x v]> bs) head (Some st))) = Some w' /\
      window_inv w' ((Z.max a at_, v) :: E) (Z.max a at_) /\ is_Some (head_start w')).
  { intros bs head st Hi Hst. destruct (lookup_lt_is_Some_2 bs head) as [x Hx].
    { rewrite (bi_len _ _ _ _ _ _ Hi). apply (bi_head _ _ _ _ _ _ Hi). }
    rewrite Hx. cbn [mbind option_bind]. eexists. split; [reflexivity|]. split; [|by eexists].
    split; [|done]. by apply bucket_inv_add. }
  unfold window_inv in Hw. destruct (head_start w) as [st|] eqn:Hst.
  - destruct Hw as [Hi Hr]. unfold saturating_sub.
    pose proof (Z.div_mod (Z.max 0 (at_ - st)) span ltac:(lia)) as Hdm.
    pose proof (Z.mod_pos_bound (Z.max 0 (at_ - st)) span ltac:(lia)) as Hmod.
    set (adv := Z.max 0 (at_ - st) / span) in *.
    assert (0 <= adv) by (apply Z.div_pos; lia).
    destruct (Z.leb_spec (Z.of_nat N) adv) as [Hbig|Hsmall].
    + assert (at_ >= st + Z.of_nat N * span) by nia.
      cbn [mbind option_bind]. apply Hadd; [|nia].
      apply bucket_inv_fresh; [done|done|apply (bi_head _ _ _ _ _ _ Hi)|].
      intros e x Hin. specialize (HE e x Hin). nia.
    + destruct (advance_head_inv N HN span Hspan (Z.to_nat adv) _ _ _ _ Hi) as (bs' & head' & -> & Hi').
      cbn [mbind option_bind mret option_ret fst snd]. rewrite Z2Nat.id in Hi' by done.
      apply (Hadd bs' head' _ Hi'). destruct (decide (adv = 0)) as [E0|]; [nia|].
      assert (adv >= 1) by lia. assert (at_ - st >= span) by nia. nia.
  - destruct Hw as [-> ->]. specialize (Hfirst eq_refl). cbn [mbind option_bind default_buckets buckets bm_head].
    apply Hadd; [|lia]. apply bucket_inv_fresh; [done|done|done|]. intros e x Hin. by apply elem_of_nil in Hin.
Qed.

Lemma observe_all_inv obs : forall w E a,
  window_inv w E a -> 0 <= a -> (head_start w = None -> a = 0) ->
  Forall (fun o => 0 <= o.1 /\ 0 <= o.2) obs -> (forall e x, (e, x) ∈ E -> e <= a) ->
  exists w', observe_all w obs = Some w' /\
    window_inv w' (effective E a obs) (foldl (fun a o => Z.max a o.1) a obs).
Proof.
  induction obs as [|[at_ v] obs IH]; intros w E a Hw Ha Hnone Hobs HE; cbn [observe_all effective foldl fst snd].
  { by exists w. }
  apply Forall_cons in Hobs as [[Hat Hv] Hobs]. cbn [fst snd] in *.
  destruct (bucket_observe_inv w E a at_ v Hw Ha ltac:(intros H; rewrite (Hnone H); lia) Hv HE) as (w' & -> & Hw' & [st Hst]).
  cbn [mbind option_bind]. apply IH; [done|lia|congruence|done|].
  intros e x [[= -> ->]|Hin]%elem_of_cons; [lia|]. specialize (HE e x Hin). lia.
Qed.

Lemma max_over_last_spec w E a k :
  window_inv w E a -> is_Some (head_start w) -> (1 <= k <= N)%nat ->
  exists m, max_over_last N w k = Some m /\
    (forall e v, (e, v) ∈ E -> a - (Z.of_nat k - 1) * span <= e -> v <= m) /\
    (m = 0 \/ exists e, (e, m) ∈ E /\ a - Z.of_nat k * span < e).
Proof.
  intros Hw [st Hst] Hk. unfold window_inv in Hw. rewrite Hst in Hw. destruct Hw as [[Hlen Hh Hpast Haged] Hr].
  unfold max_over_last. rewrite Nat.min_l by lia.
  destruct (mapM (fun age => buckets w !! ((bm_head w + N - age) mod N)%nat) (seq 0 k)) as [vs|] eqn:Hvs.
  2: { apply mapM_None, Exists_exists in Hvs as (age & Hage%elem_of_seq & Hnone).
       destruct (Haged age ltac:(lia)) as (b & Hb & _). unfold aged in Hb. congruence. }
  cbn [mbind option_bind]. exists (maxz vs). split; [done|]. apply mapM_Some in Hvs.
  assert (Hnth : forall age, (age < k)%nat -> exists b, vs !! age = Some b /\ aged N (buckets w) (bm_head w) age = Some b).
  { intros age Hage. destruct (Forall2_lookup_l _ _ _ age age Hvs) as (b & Hb & Heq); [|by exists b].
    by apply lookup_seq_lt. }
  split.
  - intros e v Hin Hge.
    assert (Hbk : exists age, (age < k)%nat /\ in_bucket span st age e).
    { destruct (Z.le_gt_cases st e) as [Hle|Hlt].
      { exists O. split; [lia|]. split; [lia|by left]. }
      pose proof (Z.div_mod (st - e - 1) span ltac:(lia)) as Hdm.
      pose proof (Z.mod_pos_bound (st - e - 1) span ltac:(lia)) as Hmod.
      assert (0 <= (st - e - 1) / span) by (apply Z.div_pos; lia).
      exists (S (Z.to_nat ((st - e - 1) / span))). split; [|split; [|right]]; nia. }
    destruct Hbk as (age & Hage & Hbk). destruct (Hnth age Hage) as (b & Hb & Hb').
    destruct (Haged age ltac:(lia)) as (b'' & Hb'' & Hlo & _). assert (b'' = b) as -> by congruence.
    transitivity b; [by eapply Hlo|]. apply maxz_ge. by eapply list_elem_of_lookup_2.
  - assert (Hmem : maxz vs = 0 \/ maxz vs ∈ vs).
    { clear. induction vs as [|x vs IH]; [by left|]. cbn. fold (maxz vs).
      destruct (Z.max_spec x (maxz vs)) as [[_ ->]|[_ ->]]; [|right; left].
      destruct IH; [by left|right; by right]. }
    destruct Hmem as [|(age & Hage)%list_elem_of_lookup]; [by left|].
    assert (Hlt : (age < k)%nat).
    { apply Forall2_length in Hvs. rewrite length_seq in Hvs. apply lookup_lt_Some in Hage. lia. }
    destruct (Hnth age Hlt) as (b & Hb & Hb'). assert (b = maxz vs) as -> by congruence.
    destruct (Haged age ltac:(lia)) as (b'' & Hb'' & _ & Hhi). assert (b'' = maxz vs) as -> by congruence.
    destruct Hhi as [|(e & Hin & [Hge _])]; [by left|]. right. exists e. split; [done|]. nia.
Qed.

End observations.

Lemma effective_past past a obs x : x ∈ past -> x ∈ effective past a obs.
Proof.
  revert past a. induction obs as [|o obs IH]; intros past a Hx; cbn; [done|]. apply IH. by right.
Qed.

Lemma effective_obs past a obs at_ v :
  (at_, v) ∈ obs -> exists e, at_ <= e /\ (e, v) ∈ effective past a obs.
Proof.
  revert past a. induction obs as [|o obs IH]; intros past a Hin; [by apply elem_of_nil in Hin|].
  cbn [effective]. apply elem_of_cons in Hin as [<-|Hin]; [|by apply IH].
  exists (Z.max a at_). split; [lia|]. apply effective_past. left.
Qed.

Fixpoint push_all (w : RttWindow) (rs : list Z) : option RttWindow :=
  match rs with
  | [] => Some w
  | r :: rs => w' ← push w r; push_all w' rs
  end.

Definition measured (rs : list Z) : list Z := filter (fun r => r <> 0) rs.

Lemma push_all_inv rs : forall w h js,
  rtt_inv w h js -> exists w' js', push_all w rs = Some w' /\ rtt_inv w' (h ++ measured rs) js'.
Proof.
  induction rs as [|r rs IH]; intros w h js Hi; cbn [push_all].
  { exists w, js. split; [done|]. by rewrite app_nil_r. }
  unfold measured. rewrite filter_cons. destruct (decide (r <> 0)) as [Hr|Hr].
  - destruct (push_inv w h js r Hi Hr) as (w1 & js1 & -> & Hi1). cbn [mbind option_bind].
    destruct (IH w1 _ js1 Hi1) as (w2 & js2 & Hp & Hi2). exists w2, js2. split; [done|].
    by rewrite <- app_assoc in Hi2.
  - assert (r = 0) as -> by lia. unfold push. cbn [Z.eqb mbind option_bind]. by apply (IH w h js).
Qed.

(** ** Properties *)

(** The monotonic queue computes the window's maximum: after any sequence of
    samples, no array access is out of range, and the O(1) reading is the
    greatest of the last [RTT_WINDOW_SIZE] measured samples (a zero is no
    measurement and occupies no place), or zero before the first. *)
Theorem rtt_window_max (rs : list Z) :
  Forall (fun r => 0 <= r) rs ->
  exists w, push_all default_rtt rs = Some w /\
    rtt_max w = Some (maxz (drop (length (measured rs) - RTT_WINDOW_SIZE) (measured rs))).
Proof.
  intros Hrs. destruct (push_all_inv rs default_rtt [] [] rtt_inv_default) as (w & js & Hp & Hi).
  exists w. split; [done|]. apply (rtt_max_spec w _ js Hi). intros x [_ Hx]%list_elem_of_filter.
  rewrite Forall_forall in Hrs. by apply Hrs.
Qed.

(** The bucketed maximum is a trailing maximum to within one bucket.  After
    any sequence of observations, in any coordinate order, reading the last [k]
    buckets never panics, is at least every value observed within [k - 1]
    bucket spans of the newest coordinate, and, when not zero, is a value
    observed within [k] spans of it: a peak is never forgotten early and never
    remembered past its window. *)
Theorem bucketed_max_window (N k : nat) (raw_span : Z) (obs : list (Z * Z)) :
  (1 <= k <= N)%nat -> obs <> [] -> Forall (fun o => 0 <= o.1 /\ 0 <= o.2) obs ->
  exists w m, observe_all N raw_span (default_buckets N) obs = Some w /\ max_over_last N w k = Some m /\
    (forall at_ v, (at_, v) ∈ obs ->
       latest obs - (Z.of_nat k - 1) * Z.max raw_span 1 <= at_ -> v <= m) /\
    (m = 0 \/ exists e, (e, m) ∈ effective [] 0 obs /\ latest obs - Z.of_nat k * Z.max raw_span 1 < e).
Proof.
  intros Hk Hne Hobs.
  destruct (observe_all_inv N ltac:(lia) raw_span obs (default_buckets N) [] 0) as (w & Hrun & Hw);
    [by split|done|done|done|intros e x Hin; by apply elem_of_nil in Hin|].
  assert (Hst : is_Some (head_start w)).
  { unfold window_inv in Hw. destruct (head_start w); [by eexists|]. destruct Hw as [HE _].
    destruct obs as [|[at_ v] obs]; [done|]. exfalso.
    destruct (effective_obs [] 0 ((at_, v) :: obs) at_ v ltac:(left)) as (e & _ & Hin).
    rewrite HE in Hin. by apply elem_of_nil in Hin. }
  destruct (max_over_last_spec N ltac:(lia) raw_span w _ _ k Hw Hst Hk) as (m & Hm & Hlo & Hhi).
  exists w, m. split; [done|]. split; [done|]. split; [|done].
  intros at_ v Hin Hge. destruct (effective_obs [] 0 obs at_ v Hin) as (e & Hle & HinE).
  eapply Hlo; [exact HinE|]. unfold latest in Hge. lia.
Qed.

(** ** Witnesses *)

Lemma rtt_window_max_witness :
  (w ← push_all default_rtt [50; 90; 0; 70]; rtt_max w) = Some 90 /\
  exists w, push_all default_rtt [50; 90; 0; 70] = Some w /\
    rtt_max w = Some (maxz (drop (length (measured [50; 90; 0; 70]) - RTT_WINDOW_SIZE)
                              (measured [50; 90; 0; 70]))).
Proof.
  split; [vm_compute; reflexivity|]. apply (rtt_window_max [50; 90; 0; 70]). repeat constructor; lia.
Defined.

Definition demo_obs : list (Z * Z) := [(100, 9); (180, 4); (90, 6); (420, 3)].

Lemma bucketed_max_window_witness :
  (w ← observe_all 8 75 (default_buckets 8) demo_obs; max_over_last 8 w 5) = Some 9 /\
  exists w m, observe_all 8 75 (default_buckets 8) demo_obs = Some w /\
    max_over_last 8 w 5 = Some m /\ 4 <= m.
Proof.
  split; [vm_compute; reflexivity|].
  destruct (bucketed_max_window 8 5 75 demo_obs ltac:(lia) ltac:(discriminate)
    ltac:(repeat constructor; cbn; lia)) as (w & m & Hw & Hm & Hlo & _).
  exists w, m. split; [exact Hw|]. split; [exact Hm|].
  apply (Hlo 180); [right; left|vm_compute; discriminate].
Defined.
