(* ===== verification/Presence.v ===== *)
(** * Session presence and the buffer authority (relay/src/session/presence.rs)

    The relays of a session stand in a priority order and the first one still
    serving players decides the session's latency buffer.  This file holds a
    relay's bookkeeping and verdict, and what a mesh link pushes of it to a peer
    ([relay/src/mesh/join.rs]), with the frame it rides in
    ([proto/src/mesh.rs]).  A session key and a relay id are integers; the
    mutex-guarded registry is a finite map passed along. *)

From Stdlib Require Import ZArith Lia.
From stdpp Require Import gmap sorting list.
From S2P Require Import Prelude.
Open Scope Z_scope.

Inductive Candidate : Type := SelfRelay | PeerRelay (id : Z).
#[export] Instance Candidate_eq_dec : EqDecision Candidate.
Proof. solve_decision. Defined.

Inductive Authority : Type := AuthSelf | AuthPeer.
#[export] Instance Authority_eq_dec : EqDecision Authority.
Proof. solve_decision. Defined.

Record SessionPresence : Type := mkSessionPresence {
  order : list Candidate;
  peer_reports : gmap Z Z;
  peers_ever_live : gset Z;
  own_report : option Z;
  went_live_count : Z;
  ever_live : bool
}.

Definition default_presence : SessionPresence := mkSessionPresence [] ∅ ∅ None 0 false.

Abbreviation PresenceRegistry := (gmap Z SessionPresence).

Definition set_order (registry : PresenceRegistry) (key : Z) (ord : list Candidate) : PresenceRegistry :=
  let entry := default default_presence (registry !! key) in
  <[key := mkSessionPresence ord
      (filter (fun kv => PeerRelay kv.1 ∈ ord) (peer_reports entry))
      (filter (fun id => PeerRelay id ∈ ord) (peers_ever_live entry))
      (own_report entry) (went_live_count entry) (ever_live entry)]> registry.

Definition peer_live (entry : SessionPresence) (peer : Z) : bool :=
  match peer_reports entry !! peer with
  | None => true
  | Some c => (0 <? c) || negb (bool_decide (peer ∈ peers_ever_live entry))
  end.

Definition note_peer (entry : SessionPresence) (peer live : Z) : SessionPresence :=
  mkSessionPresence (order entry) (<[peer := live]> (peer_reports entry))
    (if 0 <? live then {[peer]} ∪ peers_ever_live entry else peers_ever_live entry)
    (own_report entry) (went_live_count entry)
    (if 0 <? live then true else ever_live entry).

Definition record_peer (registry : PresenceRegistry) (key peer live : Z) : bool * PresenceRegistry :=
  match registry !! key with
  | None => (false, registry)
  | Some entry =>
      let entry' := note_peer entry peer live in
      (negb (Bool.eqb (peer_live entry peer) (peer_live entry' peer)), <[key := entry']> registry)
  end.

(** [own_report.is_none_or(|c| c > 0)]. *)
Definition own_live (entry : SessionPresence) : bool :=
  match own_report entry with None => true | Some c => 0 <? c end.

Definition note_own (entry : SessionPresence) (live : Z) : SessionPresence :=
  let positive := match own_report entry with Some c => 0 <? c | None => false end in
  mkSessionPresence (order entry) (peer_reports entry) (peers_ever_live entry) (Some live)
    (if (0 <? live) && negb positive then went_live_count entry + 1 else went_live_count entry)
    (ever_live entry || (0 <? live)).

Definition record_own (registry : PresenceRegistry) (key live : Z) : bool * PresenceRegistry :=
  match registry !! key with
  | Some entry =>
      (negb (Bool.eqb (own_live entry) (0 <? live)), <[key := note_own entry live]> registry)
  | None =>
      if 0 <? live then (false, <[key := mkSessionPresence [] ∅ ∅ (Some live) 1 true]> registry)
      else (false, registry)
  end.

Definition own_went_live (registry : PresenceRegistry) (key : Z) : Z :=
  match registry !! key with Some entry => went_live_count entry | None => 0 end.

Definition forget (registry : PresenceRegistry) (key : Z) : PresenceRegistry := delete key registry.

Definition candidate_live (entry : SessionPresence) (c : Candidate) : bool :=
  match c with SelfRelay => own_live entry | PeerRelay id => peer_live entry id end.

Definition verdict (registry : PresenceRegistry) (key : Z) : option Authority :=
  match registry !! key with
  | None => None
  | Some entry =>
      match order entry with
      | [] => None
      | _ =>
          match List.find (candidate_live entry) (order entry) with
          | Some SelfRelay => Some AuthSelf
          | Some (PeerRelay _) => Some AuthPeer
          | None => Some AuthPeer
          end
      end
  end.

Definition all_empty (registry : PresenceRegistry) (key own : Z) : bool :=
  if negb (own =? 0) then false else
  match registry !! key with
  | None => false
  | Some entry =>
      if bool_decide (order entry = []) || negb (ever_live entry) then false else
      forallb (fun c => match c with
        | SelfRelay => true
        | PeerRelay id => bool_decide (peer_reports entry !! id = Some 0)
        end) (order entry)
  end.

(** ** The order a descriptor sets *)

Definition ranked_relays (authority_order peers : list Z) (our_id : Z) : list Z :=
  match authority_order with
  | [] => merge_sort Z.le (filter (fun id => id <> our_id) (remove_dups peers) ++ [our_id])
  | _ => authority_order
  end.

Definition resolve_order (our_id : Z) (ranked : list Z) : list Candidate :=
  map (fun id => if id =? our_id then SelfRelay else PeerRelay id) ranked.

(** ** What a mesh link pushes *)

Record SentPresence : Type := mkSentPresence { live : Z; went_live : Z }.
#[export] Instance SentPresence_eq_dec : EqDecision SentPresence.
Proof. solve_decision. Defined.

Definition presence_statement (current : SentPresence) : list Z :=
  if (live current =? 0) && (0 <? went_live current) then [1; 0] else [live current].

Definition presence_catch_up (sent : option SentPresence) (current : SentPresence) : list Z :=
  match sent with
  | Some s =>
      if live s =? live current then
        if (live current =? 0) && negb (went_live s =? went_live current) then [1; 0] else []
      else [live current]
  | None => [live current]
  end.

Definition presence_updates (current : SentPresence) (counts : list Z) : list SentPresence :=
  map (fun l => mkSentPresence l (went_live current)) counts.

(** ** The presence frame *)

Record MeshPresence : Type := mkMeshPresence { mp_session : Z; live_players : Z }.

Definition MESH_PRESENCE_LEN : Z := 8 + 4.

(** [to_le_bytes] of a [width]-byte integer, and [from_le_bytes]. *)
Fixpoint to_le_bytes (width : nat) (x : Z) : list Z :=
  match width with O => [] | S n => x mod 256 :: to_le_bytes n (x / 256) end.
Fixpoint from_le_bytes (bs : list Z) : Z :=
  match bs with [] => 0 | b :: rest => b + 256 * from_le_bytes rest end.

Definition encode_presence (p : MeshPresence) : list Z :=
  to_le_bytes 8 (mp_session p) ++ to_le_bytes 4 (live_players p).
Definition decode_presence (frame : list Z) : MeshPresence :=
  mkMeshPresence (from_le_bytes (take 8 frame)) (from_le_bytes (drop 8 frame)).

(** ** Frames *)

Lemma length_to_le_bytes n x : length (to_le_bytes n x) = n.
Proof. revert x. induction n as [|n IH]; intros x; cbn [to_le_bytes length]; [done|by rewrite IH]. Qed.

Lemma to_le_bytes_range n x : Forall (fun b => 0 <= b < 256) (to_le_bytes n x).
Proof.
  revert x. induction n as [|n IH]; intros x; cbn [to_le_bytes]; [by constructor|].
  constructor; [apply Z.mod_pos_bound; lia|apply IH].
Qed.

Lemma from_to_le_bytes n x : 0 <= x < 256 ^ Z.of_nat n -> from_le_bytes (to_le_bytes n x) = x.
Proof.
  revert x. induction n as [|n IH]; intros x Hx; cbn [to_le_bytes from_le_bytes]; [simpl in Hx; lia|].
  rewrite Nat2Z.inj_succ, Z.pow_succ_r in Hx by lia. rewrite IH; [pose proof (Z.div_mod x 256); lia|].
  split; [apply Z.div_pos; lia|apply Z.div_lt_upper_bound; lia].
Qed.

Theorem presence_frame_roundtrip (p : MeshPresence) (Hs : is_u64 (mp_session p)) (Hl : is_u32 (live_players p)) :
  decode_presence (encode_presence p) = p /\ Z.of_nat (length (encode_presence p)) = MESH_PRESENCE_LEN.
Proof.
  unfold decode_presence, encode_presence, is_u64, is_u32, u64_max, u32_max in *. split.
  - rewrite take_app_length', drop_app_length' by (symmetry; apply length_to_le_bytes).
    rewrite !from_to_le_bytes by (cbn [Z.of_nat Pos.of_succ_nat]; lia). by destruct p.
  - by rewrite length_app, !length_to_le_bytes.
Qed.

(** ** Verdicts and liveness *)

(** A report whose result says nothing changed leaves the verdict as it was, so
    the caller that recomputes only on [true] never holds a stale verdict. *)
Theorem unchanged_peer_report_keeps_verdict registry key peer n :
  (record_peer registry key peer n).1 = false ->
  verdict (record_peer registry key peer n).2 key = verdict registry key.
Proof.
  unfold record_peer, verdict. destruct (registry !! key) as [e|] eqn:He; cbn [fst snd]; [|by rewrite He].
  rewrite negb_false_iff. intros H%eqb_prop. rewrite lookup_insert_eq. cbn [order note_peer].
  enough (List.find (candidate_live (note_peer e peer n)) (order e) = List.find (candidate_live e) (order e)) as ->
    by done.
  assert (Hl : forall c, candidate_live (note_peer e peer n) c = candidate_live e c).
  { intros [|id]; cbn [candidate_live]; [done|]. destruct (decide (id = peer)) as [->|Hne]; [done|].
    unfold peer_live. cbn [note_peer peer_reports peers_ever_live]. rewrite lookup_insert_ne by done.
    destruct (peer_reports e !! id); [|done]. f_equal. f_equal. apply bool_decide_ext. case_match; set_solver. }
  induction (order e) as [|c l IH]; cbn [List.find]; [done|]. by rewrite Hl, IH.
Qed.

Theorem unchanged_own_report_keeps_verdict registry key n :
  (record_own registry key n).1 = false ->
  verdict (record_own registry key n).2 key = verdict registry key.
Proof.
  unfold record_own, verdict. destruct (registry !! key) as [e|] eqn:He; cbn [fst snd].
  - rewrite negb_false_iff. intros H%eqb_prop. rewrite lookup_insert_eq. cbn [order note_own].
    enough (List.find (candidate_live (note_own e n)) (order e) = List.find (candidate_live e) (order e)) as -> by done.
    assert (Hl : forall c, candidate_live (note_own e n) c = candidate_live e c).
    { intros [|id]; cbn [candidate_live]; [|done]. unfold own_live at 1. cbn [note_own own_report]. done. }
    induction (order e) as [|c l IH]; cbn [List.find]; [done|]. by rewrite Hl, IH.
  - destruct (0 <? n); cbn [fst snd]; intros _; [by rewrite lookup_insert_eq|by rewrite He].
Qed.
