(* ===== verification/PresenceMesh.v ===== *)
(** * Presence across the mesh: the relays of a session agree on its authority

    The relays of one session as a transition system: client links register,
    activate and end on each relay ([routing/slot_link/]), every report to the
    registry may be recorded late ([routing/departure.rs],
    [report_own_presence]), and each ordered pair of relays has a link driver
    ([mesh/link_arms.rs], [mesh/link_commands.rs]) that joins the session,
    samples its presence in two reads, pushes it down a reliable stream, answers
    a peer's first report, and may be redialed at any time.  Once everything
    sent has been read, all relays hold the same verdict. *)

From Stdlib Require Import ZArith Lia.
From stdpp Require Import gmap sorting list functions.
From S2P Require Import Prelude Presence.
Open Scope Z_scope.

(** A relay: slots registered but not activated, slots activated, registry. *)
Record Relay : Type := mkRelay { unactivated : Z; activated : Z; registry : PresenceRegistry }.

(** One relay's link driver towards a peer: whether it joined the session, what
    it last pushed ([presence_sent]), whether the peer has reported
    ([peer_presence_seen]), the went-live count it has read for the sample under
    way, and the counts written and not read yet. *)
Record Driver : Type := mkDriver {
  joined : bool; presence_sent : option SentPresence; peer_presence_seen : bool;
  sampled : option Z; stream : list Z
}.

Definition new_driver : Driver := mkDriver false None false None [].

Record Mesh : Type := mkMesh { relays : Z -> Relay; drivers : Z * Z -> Driver }.

Definition set_relay (m : Mesh) (a : Z) (r : Relay) : Mesh := mkMesh (<[a := r]> (relays m)) (drivers m).
Definition set_driver (m : Mesh) (p : Z * Z) (d : Driver) : Mesh := mkMesh (relays m) (<[p := d]> (drivers m)).

Inductive mesh_op : Type :=
| Register (a : Z)                 (* a client's link enters the roster *)
| Activate (a n : Z)               (* its activation reports the count [n] it read *)
| Refuse (a : Z)                   (* its activation is refused and it is torn down *)
| Deregister (a : Z)               (* an activated link leaves the roster *)
| Report (a n : Z)                 (* the teardown reports the count [n] it read *)
| Reorder (a : Z)                  (* the descriptor is pushed again *)
| JoinSession (a b : Z)            (* a's driver towards b joins *)
| Sample (a b : Z)                 (* it reads the went-live count *)
| Maintain (a b : Z)               (* it reads the roster and pushes what changed *)
| Deliver (a b : Z)                (* b's driver reads a count a wrote *)
| Redial (a b : Z).                (* the connection is replaced *)

Section session.
Context (key : Z) (ranked : list Z).

(** [local_live_players]. *)
Definition local_live_players (r : Relay) : Z := unactivated r + activated r.

(** [local_presence]: the went-live count read first, maybe a while ago, then the roster. *)
Definition local_presence (m : Mesh) (a b : Z) : SentPresence :=
  let r := relays m a in
  mkSentPresence (local_live_players r) (default (own_went_live (registry r) key) (sampled (drivers m (a, b)))).

(** [push_presence_updates]: each count is written and becomes the last sent. *)
Definition push_presence_updates (d : Driver) (updates : list SentPresence) : Driver :=
  foldl (fun d u => mkDriver (joined d) (Some u) (peer_presence_seen d) (sampled d) (stream d ++ [live u])) d updates.

Definition push_statement (m : Mesh) (a b : Z) : Mesh :=
  let current := local_presence m a b in
  let d := push_presence_updates (drivers m (a, b)) (presence_updates current (presence_statement current)) in
  set_driver m (a, b) (mkDriver (joined d) (presence_sent d) (peer_presence_seen d) None (stream d)).

Definition report (r : Relay) (n : Z) : PresenceRegistry := (record_own (registry r) key n).2.

(** b's driver reads the count [n] from a: [handle_presence_report]. *)
Definition handle_presence_report (m : Mesh) (a b n : Z) : Mesh :=
  let d := drivers m (b, a) in
  if joined d then
    let r := relays m b in
    let first := negb (peer_presence_seen d) in
    let m := set_driver m (b, a) (mkDriver (joined d) (presence_sent d) true (sampled d) (stream d)) in
    let m := set_relay m b (mkRelay (unactivated r) (activated r) (record_peer (registry r) key a n).2) in
    if first then push_statement m b a else m
  else m.

Definition pair_ok (a b : Z) : bool := bool_decide (a ∈ ranked) && bool_decide (b ∈ ranked) && negb (a =? b).

Definition own_reported (r : Relay) : bool :=
  match registry r !! key with
  | Some e => match own_report e with Some _ => true | None => false end
  | None => false
  end.

Definition mesh_step (m : Mesh) (op : mesh_op) : option Mesh :=
  match op with
  | Register a =>
      let r := relays m a in
      Some (set_relay m a (mkRelay (unactivated r + 1) (activated r) (registry r)))
  | Activate a n =>
      let r := relays m a in
      if (0 <? unactivated r) && (0 <? n) then
        Some (set_relay m a (mkRelay (unactivated r - 1) (activated r + 1) (report r n)))
      else None
  | Refuse a =>
      let r := relays m a in
      if 0 <? unactivated r then
        let r := mkRelay (unactivated r - 1) (activated r) (registry r) in
        Some (set_relay m a (mkRelay (unactivated r) (activated r) (report r (local_live_players r))))
      else None
  | Deregister a =>
      let r := relays m a in
      if 0 <? activated r then Some (set_relay m a (mkRelay (unactivated r) (activated r - 1) (registry r))) else None
  | Report a n =>
      let r := relays m a in
      if own_reported r && (0 <=? n) then Some (set_relay m a (mkRelay (unactivated r) (activated r) (report r n)))
      else None
  | Reorder a =>
      let r := relays m a in
      Some (set_relay m a (mkRelay (unactivated r) (activated r) (set_order (registry r) key (resolve_order a ranked))))
  | JoinSession a b =>
      let d := drivers m (a, b) in
      if pair_ok a b && negb (joined d) then
        Some (push_statement
          (set_driver m (a, b) (mkDriver true (presence_sent d) false (sampled d) (stream d))) a b)
      else None
  | Sample a b =>
      let d := drivers m (a, b) in
      if pair_ok a b then
        Some (set_driver m (a, b) (mkDriver (joined d) (presence_sent d) (peer_presence_seen d)
          (Some (own_went_live (registry (relays m a)) key)) (stream d)))
      else None
  | Maintain a b =>
      let d := drivers m (a, b) in
      if pair_ok a b && joined d then
        let current := local_presence m a b in
        let d := push_presence_updates d (presence_updates current (presence_catch_up (presence_sent d) current)) in
        Some (set_driver m (a, b) (mkDriver (joined d) (presence_sent d) (peer_presence_seen d) None (stream d)))
      else None
  | Deliver a b =>
      let d := drivers m (a, b) in
      match stream d with
      | n :: rest =>
          if pair_ok a b then
            Some (handle_presence_report
              (set_driver m (a, b) (mkDriver (joined d) (presence_sent d) (peer_presence_seen d) (sampled d) rest))
              a b n)
          else None
      | [] => None
      end
  | Redial a b =>
      if pair_ok a b then Some (set_driver (set_driver m (a, b) new_driver) (b, a) new_driver) else None
  end.

Fixpoint mesh_run (ops : list mesh_op) (m : Mesh) : option Mesh :=
  match ops with
  | [] => Some m
  | op :: ops => match mesh_step m op with Some m' => mesh_run ops m' | None => None end
  end.

Definition mesh_init : Mesh :=
  mkMesh (fun a => mkRelay 0 0 (set_order ∅ key (resolve_order a ranked))) (fun _ => new_driver).

(** ** What holds of every reachable mesh *)

Definition entry (m : Mesh) (a : Z) : SessionPresence := default default_presence (registry (relays m a) !! key).

(** What b knows of a: the last count and whether any was positive. *)
Definition view (m : Mesh) (a b : Z) : option Z * bool :=
  (peer_reports (entry m b) !! a, bool_decide (a ∈ peers_ever_live (entry m b))).

Definition absorb (v : option Z * bool) (counts : list Z) : option Z * bool :=
  foldl (fun v n => (Some n, v.2 || (0 <? n))) v counts.

Definition coherent (v : option Z * bool) (sent : option SentPresence) : Prop :=
  exists s, sent = Some s /\ v.1 = Some (live s) /\ (0 < live s \/ 0 < went_live s -> v.2 = true).

(** Nothing a has done lets anyone think it ever served a player. *)
Definition never_served (m : Mesh) (a : Z) : Prop :=
  own_report (entry m a) = None /\ local_live_players (relays m a) = 0.

Record relay_inv (m : Mesh) (a : Z) : Prop := mkRelayInv {
  ri_entry : registry (relays m a) !! key = Some (entry m a);
  ri_order : order (entry m a) = resolve_order a ranked;
  ri_counts : 0 <= unactivated (relays m a) /\ 0 <= activated (relays m a);
  ri_went : 0 <= went_live_count (entry m a);
  ri_fresh : own_report (entry m a) = None -> activated (relays m a) = 0 /\ went_live_count (entry m a) = 0;
  ri_served : own_report (entry m a) <> None -> 0 < went_live_count (entry m a);
  ri_own : forall n, own_report (entry m a) = Some n -> 0 <= n;
  ri_ever : ever_live (entry m a) = true <->
    own_report (entry m a) <> None \/ exists b, b ∈ ranked /\ b <> a /\ b ∈ peers_ever_live (entry m a)
}.

(** What the driver from a to b keeps, apart from what b makes of it. *)
Record pair_base (m : Mesh) (a b : Z) : Prop := mkPairBase {
  pi_stream : Forall (fun n => 0 <= n) (stream (drivers m (a, b)));
  pi_sampled : forall w, sampled (drivers m (a, b)) = Some w ->
    0 <= w /\ (own_report (entry m a) = None -> w = 0);
  pi_quiet : never_served m a -> (view m a b).2 = false /\ Forall (fun n => n = 0) (stream (drivers m (a, b)));
  pi_out : joined (drivers m (a, b)) = false ->
    stream (drivers m (a, b)) = [] /\ peer_presence_seen (drivers m (b, a)) = false;
  pi_sent : forall s, presence_sent (drivers m (a, b)) = Some s ->
    0 <= live s /\ (own_report (entry m a) = None -> went_live s = 0)
}.

(** Once both have joined, b will know what a last pushed when it has read
    everything, unless a has yet to read b's first report and answer it. *)
Definition view_ok (m : Mesh) (a b : Z) : Prop :=
  joined (drivers m (a, b)) = true -> joined (drivers m (b, a)) = true ->
  coherent (absorb (view m a b) (stream (drivers m (a, b)))) (presence_sent (drivers m (a, b))) \/
  peer_presence_seen (drivers m (a, b)) = false /\ stream (drivers m (b, a)) <> [].

Definition mesh_inv (m : Mesh) : Prop :=
  (forall a, relay_inv m a) /\
  (forall a b, a ∈ ranked -> b ∈ ranked -> a <> b -> pair_base m a b /\ view_ok m a b).

(** ** Reading what was pushed *)

Lemma absorb_app v xs ys : absorb v (xs ++ ys) = absorb (absorb v xs) ys.
Proof. apply foldl_app. Qed.

Lemma push_statement_updates d c :
  push_presence_updates d (presence_updates c (presence_statement c)) =
  mkDriver (joined d) (Some c) (peer_presence_seen d) (sampled d) (stream d ++ presence_statement c).
Proof.
  unfold presence_statement. destruct c as [l w]. cbn [live went_live].
  destruct ((l =? 0) && (0 <? w)) eqn:E; [|done].
  apply andb_true_iff in E as [->%Z.eqb_eq _]. cbn. by rewrite <- app_assoc.
Qed.

Lemma push_catch_up_updates d c :
  push_presence_updates d (presence_updates c (presence_catch_up (presence_sent d) c)) =
  mkDriver (joined d) (if decide (presence_catch_up (presence_sent d) c = []) then presence_sent d else Some c)
    (peer_presence_seen d) (sampled d) (stream d ++ presence_catch_up (presence_sent d) c).
Proof.
  unfold presence_catch_up. destruct c as [l w], d as [j [[l' w']|] p sm st]; cbn [presence_sent live went_live]; [|done].
  destruct (l' =? l) eqn:E1; [|done]. destruct ((l =? 0) && negb (w' =? w)) eqn:E2.
  - apply andb_true_iff in E2 as [->%Z.eqb_eq _]. cbn. by rewrite <- app_assoc.
  - cbn. by rewrite app_nil_r.
Qed.

Lemma statement_coherent v c (Hl : 0 <= live c) : coherent (absorb v (presence_statement c)) (Some c).
Proof.
  exists c. unfold presence_statement. destruct ((live c =? 0) && (0 <? went_live c)) eqn:E; cbn.
  - apply andb_true_iff in E as [->%Z.eqb_eq _]. split_and!; [done..|]. intros _. by rewrite orb_true_r.
  - split_and!; [done..|]. intros H. apply orb_true_iff. right. apply Z.ltb_lt.
    apply andb_false_iff in E as [E%Z.eqb_neq|E%Z.ltb_ge]; lia.
Qed.

Lemma catch_up_coherent v s c (Hs : 0 <= live s) (Hl : 0 <= live c) :
  coherent v (Some s) ->
  coherent (absorb v (presence_catch_up (Some s) c)) (if decide (presence_catch_up (Some s) c = []) then Some s else Some c).
Proof.
  intros (s' & [= <-] & Hv & He). unfold presence_catch_up.
  destruct (Z.eqb_spec (live s) (live c)) as [E|E].
  - destruct (Z.eqb_spec (live c) 0) as [E2|E2]; cbn [andb]; [|by exists s].
    destruct (went_live s =? went_live c); cbn [negb]; [by exists s|].
    exists c. cbn. rewrite E2, orb_true_r. split_and!; done.
  - exists c. cbn. split_and!; [done..|]. intros H. apply orb_true_iff.
    destruct (decide (live c = 0)) as [E2|E2]; [left; apply He; lia|right; apply Z.ltb_lt; lia].
Qed.

Lemma statement_range c (Hl : 0 <= live c) : Forall (fun n => 0 <= n) (presence_statement c).
Proof. unfold presence_statement. case_match; repeat constructor; lia. Qed.
Lemma catch_up_range o c (Hl : 0 <= live c) : Forall (fun n => 0 <= n) (presence_catch_up o c).
Proof. unfold presence_catch_up. repeat case_match; repeat constructor; lia. Qed.
Lemma statement_not_nil c : presence_statement c <> [].
Proof. unfold presence_statement. by case_match. Qed.

(** ** Steps of one relay *)

Lemma entry_set_relay m a r x :
  entry (set_relay m a r) x = if decide (x = a) then default default_presence (registry r !! key) else entry m x.
Proof.
  unfold entry, set_relay. cbn [relays]. case_decide as E; [subst; by rewrite fn_lookup_insert|].
  by rewrite fn_lookup_insert_ne.
Qed.

(** A relay's own reports and rosters touch no driver and nobody's view. *)
Lemma relay_step_inv m a r :
  mesh_inv m -> relay_inv (set_relay m a r) a ->
  let e := default default_presence (registry r !! key) in
  (forall x, x ∈ ranked -> x <> a -> peer_reports e !! x = peer_reports (entry m a) !! x /\
    (x ∈ peers_ever_live e <-> x ∈ peers_ever_live (entry m a))) ->
  (own_report e = None -> own_report (entry m a) = None) ->
  (own_report e = None -> local_live_players r = 0 -> local_live_players (relays m a) = 0) ->
  mesh_inv (set_relay m a r).
Proof.
  intros [Hr Hp] Ha e Hview Hown Hlive.
  assert (He : forall x, entry (set_relay m a r) x = if decide (x = a) then e else entry m x) by (intros; apply entry_set_relay).
  assert (Hrel : forall x, x <> a -> relays (set_relay m a r) x = relays m x) by (intros; cbn; by rewrite fn_lookup_insert_ne).
  assert (Hv : forall x y, x ∈ ranked -> x <> y -> view (set_relay m a r) x y = view m x y).
  { intros x y Hx Hxy. unfold view. rewrite He. case_decide as Ey; [subst y|done].
    destruct (Hview x Hx Hxy) as [-> Hin]. f_equal. by apply bool_decide_ext. }
  assert (Ho : forall x, own_report (entry (set_relay m a r) x) = None -> own_report (entry m x) = None).
  { intros x. rewrite He. case_decide; [subst; done|done]. }
  assert (Hn : forall x, never_served (set_relay m a r) x -> never_served m x).
  { intros x [H1 H2]. split; [by apply Ho|]. destruct (decide (x = a)) as [->|Hx]; [|by rewrite Hrel in H2].
    rewrite He, decide_True in H1 by done. cbn in H2. rewrite fn_lookup_insert in H2. by apply Hlive. }
  split.
  - intros x. destruct (decide (x = a)) as [->|Hx]; [done|].
    destruct (Hr x). by split; unfold entry in *; rewrite ?Hrel.
  - intros x y Hx Hy Hxy. destruct (Hp x y Hx Hy Hxy) as [[] Hok]. split.
    + split; cbn [drivers set_relay]; [done| |by intros H%Hn; rewrite Hv; auto|done|].
      * intros w Hw. destruct (pi_sampled0 w Hw). auto.
      * intros w Hw. destruct (pi_sent0 w Hw). auto.
    + unfold view_ok in *. by rewrite Hv.
Qed.

Lemma report_entry m a n : relay_inv m a ->
  registry (relays m a) !! key = Some (entry m a) /\ report (relays m a) n = <[key := note_own (entry m a) n]> (registry (relays m a)).
Proof. intros Hr. pose proof (ri_entry _ _ Hr) as He. split; [done|]. unfold report, record_own. by rewrite He. Qed.

(** A recorded report, with whatever the rosters have become. *)
Lemma report_step_inv m a u v n :
  mesh_inv m -> 0 <= u -> 0 <= v -> 0 <= n -> (own_report (entry m a) = None -> 0 < n) ->
  mesh_inv (set_relay m a (mkRelay u v (report (relays m a) n))).
Proof.
  intros Hm Hu Hv Hn Hpos. pose proof (proj1 Hm a) as Ha. destruct (report_entry m a n Ha) as [He Hrep].
  assert (Hnew : entry (set_relay m a (mkRelay u v (report (relays m a) n))) a = note_own (entry m a) n).
  { rewrite entry_set_relay, decide_True by done. cbn [registry]. by rewrite Hrep, lookup_insert_eq. }
  assert (Hd : default default_presence (report (relays m a) n !! key) = note_own (entry m a) n)
    by (by rewrite Hrep, lookup_insert_eq).
  apply relay_step_inv; [done| |cbn [registry]; rewrite Hd; cbn [note_own peer_reports peers_ever_live own_report]; done..].
  destruct Ha. split; rewrite ?Hnew; cbn [set_relay relays note_own order own_report went_live_count ever_live peers_ever_live];
    rewrite ?fn_lookup_insert; cbn [unactivated activated registry].
  - by rewrite Hrep, lookup_insert_eq.
  - done.
  - done.
  - case_match; lia.
  - done.
  - intros _. destruct (own_report (entry m a)) as [c|] eqn:Ec.
    + assert (0 < went_live_count (entry m a)) by (by apply ri_served0). case_match; lia.
    + destruct (ri_fresh0 eq_refl) as [_ ->]. specialize (Hpos eq_refl).
      destruct (Z.ltb_spec 0 n); [cbn; lia|lia].
  - by intros ? [= <-].
  - rewrite orb_true_iff, ri_ever0. split; [intros _; by left|]. intros _.
    destruct (own_report (entry m a)) eqn:Ec; [by left; left|]. right. apply Z.ltb_lt. auto.
Qed.

Lemma relay_ops_inv m a op :
  mesh_inv m -> (op = Register a \/ (exists n, op = Activate a n) \/ op = Deregister a \/ (exists n, op = Report a n) \/ op = Reorder a) ->
  forall m', mesh_step m op = Some m' -> mesh_inv m'.
Proof.
  intros Hm Hop m' Hstep. pose proof (proj1 Hm a) as Ha. pose proof (ri_entry _ _ Ha) as He.
  destruct Hop as [->|[[n ->]|[->|[[n ->]| ->]]]]; cbn [mesh_step] in Hstep.
  - injection Hstep as <-. apply relay_step_inv; [done| |cbn [registry]; rewrite He; cbn [default]..]; [|done..|].
    + destruct Ha. split; rewrite ?entry_set_relay, ?decide_True by done; cbn [registry]; rewrite ?He; cbn;
        rewrite ?fn_lookup_insert; cbn; auto; lia.
    + unfold local_live_players. cbn. destruct (ri_counts _ _ Ha). intros; lia.
  - destruct ((0 <? unactivated (relays m a)) && (0 <? n)) eqn:E; [|done]. injection Hstep as <-.
    apply andb_true_iff in E as [E1%Z.ltb_lt E2%Z.ltb_lt]. destruct (ri_counts _ _ Ha).
    apply report_step_inv; [done|lia..|intros _; lia].
  - destruct (Z.ltb_spec 0 (activated (relays m a))) as [E|E]; [|done]. injection Hstep as <-.
    assert (Hsome : own_report (entry m a) <> None) by (intros Hx; destruct (ri_fresh _ _ Ha Hx); lia).
    apply relay_step_inv; [done| |cbn [registry]; rewrite He; cbn [default]; done..].
    destruct Ha. split; rewrite ?entry_set_relay, ?decide_True by done; cbn [registry]; rewrite ?He; cbn;
        rewrite ?fn_lookup_insert; cbn; auto; [lia|done].
  - destruct (own_reported (relays m a)) eqn:Eo; [|done]. destruct (Z.leb_spec 0 n) as [En|En]; [|done].
    injection Hstep as <-. destruct (ri_counts _ _ Ha). apply report_step_inv; [done..|].
    intros Hx. unfold own_reported in Eo. rewrite He, Hx in Eo. done.
  - injection Hstep as <-.
    set (r := mkRelay _ _ _).
    assert (Hd : default default_presence (registry r !! key) =
      mkSessionPresence (resolve_order a ranked)
        (filter (fun kv => PeerRelay kv.1 ∈ resolve_order a ranked) (peer_reports (entry m a)))
        (filter (fun id => PeerRelay id ∈ resolve_order a ranked) (peers_ever_live (entry m a)))
        (own_report (entry m a)) (went_live_count (entry m a)) (ever_live (entry m a))).
    { cbn [r registry]. unfold set_order. rewrite lookup_insert_eq. done. }
    assert (Hin : forall x, x ∈ ranked -> x <> a -> PeerRelay x ∈ resolve_order a ranked).
    { intros x Hx Hxa. unfold resolve_order. apply list_elem_of_fmap. exists x. split; [|done].
      by rewrite (proj2 (Z.eqb_neq x a)). }
    assert (Hout : PeerRelay a ∉ resolve_order a ranked).
    { intros Hx. apply list_elem_of_fmap in Hx as (y & Hy & _). destruct (Z.eqb_spec y a); congruence. }
    apply relay_step_inv; [done| |rewrite Hd; cbn [peer_reports peers_ever_live own_report]..]; [| |done..].
    + assert (Hn : entry (set_relay m a r) a = default default_presence (registry r !! key))
        by (by rewrite entry_set_relay, decide_True).
      destruct Ha. split; rewrite ?Hn, ?Hd; cbn [set_relay relays order own_report went_live_count ever_live peers_ever_live];
        rewrite ?fn_lookup_insert; [|try done..].
      * rewrite <- Hd. cbn [r registry]. unfold set_order. by rewrite lookup_insert_eq.
      * rewrite ri_ever0. setoid_rewrite elem_of_filter. split; intros [H|(b & H1 & H2 & H3)]; (by left) || right; exists b;
          specialize (Hin b H1 H2); tauto.
    + intros x Hx Hxa. rewrite map_lookup_filter, elem_of_filter. specialize (Hin x Hx Hxa).
      split; [|tauto]. destruct (peer_reports (entry m a) !! x); cbn; [|done]. by rewrite option_guard_True.
Qed.

(** ** Steps of one driver *)

Lemma drivers_set m p d q : drivers (set_driver m p d) q = if decide (q = p) then d else drivers m q.
Proof. unfold set_driver. cbn. case_decide as E; [subst; by rewrite fn_lookup_insert|by rewrite fn_lookup_insert_ne]. Qed.

Lemma relay_inv_set_driver m p d a : relay_inv m a -> relay_inv (set_driver m p d) a.
Proof. by intros []. Qed.

(** A driver that only reads or pushes: what it needs to keep its own pair, and
    that its peer's pair sees a stream that has only grown. *)
Lemma driver_step_inv m a b d :
  a ∈ ranked -> b ∈ ranked -> a <> b ->
  (forall x, relay_inv m x) ->
  (forall x y, x ∈ ranked -> y ∈ ranked -> x <> y -> (x, y) <> (a, b) -> (x, y) <> (b, a) -> pair_base m x y /\ view_ok m x y) ->
  pair_base (set_driver m (a, b) d) a b -> view_ok (set_driver m (a, b) d) a b ->
  pair_base (set_driver m (a, b) d) b a -> view_ok (set_driver m (a, b) d) b a ->
  mesh_inv (set_driver m (a, b) d).
Proof.
  intros Ha Hb Hab Hr Hp H1 H2 H3 H4. split; [intros; by apply relay_inv_set_driver|].
  intros x y Hx Hy Hxy. destruct (decide ((x, y) = (a, b))) as [[= -> ->]|N1]; [done|].
  destruct (decide ((x, y) = (b, a))) as [[= -> ->]|N2]; [done|].
  destruct (Hp x y Hx Hy Hxy N1 N2) as [[] Hok].
  assert (E1 : drivers (set_driver m (a, b) d) (x, y) = drivers m (x, y)) by (by rewrite drivers_set, decide_False).
  assert (E2 : drivers (set_driver m (a, b) d) (y, x) = drivers m (y, x)) by (rewrite drivers_set, decide_False; congruence).
  split; [split|]; unfold view_ok in *; rewrite ?E1, ?E2; done.
Qed.

Lemma local_presence_range m a b : relay_inv m a ->
  (forall w, sampled (drivers m (a, b)) = Some w -> 0 <= w) ->
  0 <= live (local_presence m a b) /\ 0 <= went_live (local_presence m a b).
Proof.
  intros Ha Hw. cbn [local_presence live went_live]. unfold local_live_players. destruct (ri_counts _ _ Ha). split; [lia|].
  destruct (sampled (drivers m (a, b))) eqn:E; cbn; [auto|]. unfold own_went_live. rewrite (ri_entry _ _ Ha). apply Ha.
Qed.

(** A relay that never reported a player has no fill to push. *)
Lemma quiet_presence m a b : relay_inv m a -> pair_base m a b -> own_report (entry m a) = None ->
  went_live (local_presence m a b) = 0.
Proof.
  intros Ha Hb Hn. cbn [local_presence went_live].
  destruct (sampled (drivers m (a, b))) eqn:E; cbn; [by apply (pi_sampled _ _ _ Hb)|].
  unfold own_went_live. rewrite (ri_entry _ _ Ha). by apply Ha.
Qed.

(** Pushing [counts] after which b will know the sample, or be caught up. *)
Lemma presence_push_inv m a b counts sent :
  a ∈ ranked -> b ∈ ranked -> a <> b -> (forall x, relay_inv m x) ->
  (forall x y, x ∈ ranked -> y ∈ ranked -> x <> y -> pair_base m x y) ->
  (forall x y, x ∈ ranked -> y ∈ ranked -> x <> y -> (x, y) <> (a, b) -> (x, y) <> (b, a) -> view_ok m x y) ->
  let d := drivers m (a, b) in
  joined d = true ->
  Forall (fun n => 0 <= n) counts ->
  (never_served m a -> Forall (fun n => n = 0) counts) ->
  (forall s, sent = Some s -> 0 <= live s /\ (own_report (entry m a) = None -> went_live s = 0)) ->
  (joined (drivers m (b, a)) = true -> coherent (absorb (view m a b) (stream d ++ counts)) sent \/
    peer_presence_seen d = false /\ stream (drivers m (b, a)) <> []) ->
  (view_ok m b a \/ peer_presence_seen (drivers m (b, a)) = false /\ counts <> []) ->
  mesh_inv (set_driver m (a, b) (mkDriver (joined d) sent (peer_presence_seen d) None (stream d ++ counts))).
Proof.
  intros Ha Hb Hab Hr Hbase Hview d Hj Hc Hq Hs Hcoh Hpeer.
  set (d' := mkDriver _ _ _ _ _).
  assert (E1 : drivers (set_driver m (a, b) d') (a, b) = d') by (by rewrite drivers_set, decide_True).
  assert (E2 : drivers (set_driver m (a, b) d') (b, a) = drivers m (b, a)) by (rewrite drivers_set, decide_False; congruence).
  pose proof (Hbase a b Ha Hb Hab) as []. assert (b <> a) by done.
  pose proof (Hbase b a Hb Ha ltac:(done)) as [].
  apply driver_step_inv; auto.
  - split; rewrite ?E1, ?E2; cbn [d' stream sampled joined presence_sent]; [by apply Forall_app|done| |congruence|done].
    intros Hn. destruct (pi_quiet0 Hn) as [H1 H2]. split; [done|]. apply Forall_app. auto.
  - intros _. rewrite E1, E2. cbn [d' stream presence_sent peer_presence_seen]. done.
  - split; rewrite ?E1, ?E2; cbn [d' peer_presence_seen]; done.
  - unfold view_ok in *. rewrite E1, E2. cbn [d' stream]. intros Hjb _.
    destruct Hpeer as [Hok|[Hs1 Hs2]].
    + destruct (Hok Hjb Hj) as [?|[? Hne]]; [by left|right]. split; [done|]. by intros [? ?]%app_nil.
    + right. split; [done|]. by intros [? ?]%app_nil.
Qed.

Lemma push_statement_inv m a b :
  a ∈ ranked -> b ∈ ranked -> a <> b -> (forall x, relay_inv m x) ->
  (forall x y, x ∈ ranked -> y ∈ ranked -> x <> y -> pair_base m x y) ->
  (forall x y, x ∈ ranked -> y ∈ ranked -> x <> y -> (x, y) <> (a, b) -> (x, y) <> (b, a) -> view_ok m x y) ->
  joined (drivers m (a, b)) = true ->
  (view_ok m b a \/ peer_presence_seen (drivers m (b, a)) = false) ->
  mesh_inv (push_statement m a b).
Proof.
  intros Ha Hb Hab Hr Hbase Hview Hj Hpeer. unfold push_statement. rewrite push_statement_updates. cbn [joined presence_sent peer_presence_seen stream].
  pose proof (Hbase a b Ha Hb Hab) as Hab'.
  destruct (local_presence_range m a b (Hr a) ltac:(intros w Hw; by apply (pi_sampled _ _ _ Hab'))) as [Hl Hw].
  apply presence_push_inv; auto using statement_range.
  - intros [Hn El]. pose proof (quiet_presence m a b (Hr a) Hab' Hn) as Ew. unfold presence_statement.
    rewrite Ew. cbn [local_presence live]. rewrite El. by repeat constructor.
  - intros s [= <-]. split; [done|]. by apply quiet_presence.
  - intros _. left. rewrite absorb_app. by apply statement_coherent.
  - destruct Hpeer; [by left|right]. split; [done|apply statement_not_nil].
Qed.

Lemma pair_ok_spec a b : pair_ok a b = true -> a ∈ ranked /\ b ∈ ranked /\ a <> b.
Proof.
  unfold pair_ok. rewrite !andb_true_iff, negb_true_iff, Z.eqb_neq, !bool_decide_eq_true. tauto.
Qed.

Lemma join_inv m a b m' : mesh_inv m -> mesh_step m (JoinSession a b) = Some m' -> mesh_inv m'.
Proof.
  intros [Hr Hp] Hs. cbn [mesh_step] in Hs. destruct (pair_ok a b) eqn:Eok; [|done].
  apply pair_ok_spec in Eok as (Ha & Hb & Hab). destruct (joined (drivers m (a, b))) eqn:Ej; [done|]. injection Hs as <-.
  set (d := drivers m (a, b)) in *. set (d' := mkDriver _ _ _ _ _).
  destruct (Hp a b Ha Hb Hab) as [[] _]. destruct (pi_out0 Ej) as [Hst Hseen].
  assert (E1 : drivers (set_driver m (a, b) d') (a, b) = d') by (by rewrite drivers_set, decide_True).
  assert (E2 : drivers (set_driver m (a, b) d') (b, a) = drivers m (b, a)) by (rewrite drivers_set, decide_False; congruence).
  apply push_statement_inv; auto.
  - intros x. by apply relay_inv_set_driver.
  - intros x y Hx Hy Hxy. destruct (Hp x y Hx Hy Hxy) as [[] _].
    destruct (decide ((x, y) = (a, b))) as [[= -> ->]|N1]; [|destruct (decide ((x, y) = (b, a))) as [[= -> ->]|N2]].
    + by split; rewrite ?E1, ?E2.
    + split; rewrite ?E1, ?E2; try done. intros Hj. by destruct (pi_out1 Hj).
    + split; rewrite !drivers_set, !decide_False by congruence; done.
  - intros x y Hx Hy Hxy N1 N2. destruct (Hp x y Hx Hy Hxy) as [_ Hok]. unfold view_ok in *.
    by rewrite !drivers_set, !decide_False by congruence.
  - by rewrite E1.
  - right. by rewrite E2.
Qed.

Lemma sample_inv m a b m' : mesh_inv m -> mesh_step m (Sample a b) = Some m' -> mesh_inv m'.
Proof.
  intros [Hr Hp] Hs. cbn [mesh_step] in Hs. destruct (pair_ok a b) eqn:Eok; [|done].
  apply pair_ok_spec in Eok as (Ha & Hb & Hab). injection Hs as <-. set (d' := mkDriver _ _ _ _ _).
  assert (E1 : drivers (set_driver m (a, b) d') (a, b) = d') by (by rewrite drivers_set, decide_True).
  assert (E2 : drivers (set_driver m (a, b) d') (b, a) = drivers m (b, a)) by (rewrite drivers_set, decide_False; congruence).
  destruct (Hp a b Ha Hb Hab) as [[] Hok]. destruct (Hp b a Hb Ha ltac:(done)) as [[] Hok'].
  apply driver_step_inv; auto.
  - split; rewrite ?E1, ?E2; cbn [d' stream sampled joined presence_sent]; auto.
    intros w [= <-]. unfold own_went_live. rewrite (ri_entry _ _ (Hr a)). split; [apply (Hr a)|].
    intros Hn. by apply (ri_fresh _ _ (Hr a)).
  - unfold view_ok in *. by rewrite E1, E2.
  - by split; rewrite ?E1, ?E2.
  - unfold view_ok in *. by rewrite E1, E2.
Qed.

Lemma maintain_inv m a b m' : mesh_inv m -> mesh_step m (Maintain a b) = Some m' -> mesh_inv m'.
Proof.
  intros [Hr Hp] Hs. cbn [mesh_step] in Hs. destruct (pair_ok a b) eqn:Eok; [|done].
  apply pair_ok_spec in Eok as (Ha & Hb & Hab). destruct (joined (drivers m (a, b))) eqn:Ej; [|done].
  cbn [andb] in Hs. injection Hs as <-. rewrite push_catch_up_updates. cbn [joined presence_sent peer_presence_seen stream].
  destruct (Hp a b Ha Hb Hab) as [Hbase Hok].
  destruct (local_presence_range m a b (Hr a) ltac:(intros w Hw; by apply (pi_sampled _ _ _ Hbase))) as [Hl Hw].
  set (c := local_presence m a b) in *. set (d := drivers m (a, b)) in *.
  apply presence_push_inv; auto using catch_up_range; try (intros; by apply Hp).
  - intros [Hn El]. pose proof (quiet_presence m a b (Hr a) Hbase Hn) as Ew. fold c in Ew. unfold presence_catch_up.
    assert (live c = 0) as -> by done. rewrite Ew.
    destruct (presence_sent d) as [s|] eqn:Es; [|by repeat constructor].
    rewrite (proj2 (pi_sent _ _ _ Hbase s Es) Hn). case_match; by repeat constructor.
  - intros s. case_decide; [apply (pi_sent _ _ _ Hbase)|]. intros [= <-]. split; [done|]. by apply quiet_presence.
  - intros Hjb. destruct (Hok Ej Hjb) as [(s & Es & Hv)|?]; [left|by right]. fold d in Es. rewrite Es, absorb_app.
    apply catch_up_coherent; [by apply (pi_sent _ _ _ Hbase)|done|]. exists s. done.
  - left. by apply Hp.
Qed.

(** ** A count is read *)

Local Ltac decides := repeat first [rewrite decide_True by congruence | rewrite decide_False by congruence].

Lemma note_peer_view e a n x :
  (peer_reports (note_peer e a n) !! x, bool_decide (x ∈ peers_ever_live (note_peer e a n))) =
  if decide (x = a) then (Some n, bool_decide (a ∈ peers_ever_live e) || (0 <? n))
  else (peer_reports e !! x, bool_decide (x ∈ peers_ever_live e)).
Proof.
  cbn [note_peer peer_reports peers_ever_live]. case_decide as E.
  - subst x. rewrite lookup_insert_eq. f_equal. destruct (0 <? n); cbn [orb]; [|by rewrite orb_false_r].
    rewrite orb_true_r. apply bool_decide_eq_true. set_solver.
  - rewrite lookup_insert_ne by done. f_equal. apply bool_decide_ext. destruct (0 <? n); set_solver.
Qed.

(** The mesh once b has recorded a count from a and noted that a has reported. *)
Definition recorded (m : Mesh) (a b n : Z) (rest : list Z) : Mesh :=
  let d := drivers m (a, b) in
  let d' := drivers m (b, a) in
  let r := relays m b in
  set_relay
    (set_driver
      (set_driver m (a, b) (mkDriver (joined d) (presence_sent d) (peer_presence_seen d) (sampled d) rest))
      (b, a) (mkDriver (joined d') (presence_sent d') true (sampled d') (stream d')))
    b (mkRelay (unactivated r) (activated r) (record_peer (registry r) key a n).2).

Section deliver.
Context (m : Mesh) (a b n : Z) (rest : list Z).
Context (Hm : mesh_inv m) (Ha : a ∈ ranked) (Hb : b ∈ ranked) (Hab : a <> b).
Context (Hst : stream (drivers m (a, b)) = n :: rest).
Let m' := recorded m a b n rest.

Lemma recorded_relays x : relay_inv m' x /\ local_live_players (relays m' x) = local_live_players (relays m x) /\
  entry m' x = if decide (x = b) then note_peer (entry m b) a n else entry m x.
Proof.
  pose proof (proj1 Hm x) as Hx. pose proof (ri_entry _ _ (proj1 Hm b)) as He.
  assert (En : entry m' x = if decide (x = b) then note_peer (entry m b) a n else entry m x).
  { unfold m', recorded. rewrite entry_set_relay. case_decide as E; [|done]. cbn [registry]. unfold record_peer. rewrite He.
    cbn [snd]. by rewrite lookup_insert_eq. }
  split_and!; [|unfold m', recorded, set_relay; cbn [relays]|done].
  - destruct (decide (x = b)) as [->|N].
    + assert (Hr : relays m' b = mkRelay (unactivated (relays m b)) (activated (relays m b))
        (<[key := note_peer (entry m b) a n]> (registry (relays m b)))).
      { unfold m', recorded, set_relay. cbn [relays]. rewrite fn_lookup_insert. unfold record_peer. by rewrite He. }
      destruct Hx. split; rewrite ?En, ?Hr; cbn [unactivated activated registry note_peer order own_report went_live_count ever_live peers_ever_live]; auto.
      * by rewrite lookup_insert_eq.
      * destruct (0 <? n) eqn:E0; [|done]. split; [intros _; right; exists a; set_solver|done].
    + destruct Hx. split; rewrite ?En; unfold m', recorded, set_relay; cbn [relays]; rewrite ?fn_lookup_insert_ne by done; done.
  - destruct (decide (x = b)) as [->|N]; [by rewrite fn_lookup_insert|by rewrite fn_lookup_insert_ne].
Qed.

Lemma recorded_view x y : view m' x y = if decide ((x, y) = (a, b)) then absorb (view m a b) [n] else view m x y.
Proof.
  unfold view. destruct (recorded_relays y) as (_ & _ & ->). destruct (decide (y = b)) as [->|N].
  - rewrite note_peer_view. destruct (decide (x = a)) as [->|N2]; [by rewrite decide_True|].
    rewrite decide_False by congruence. done.
  - by rewrite decide_False by congruence.
Qed.

Lemma recorded_drivers p : drivers m' p =
  let d := drivers m p in
  if decide (p = (b, a)) then mkDriver (joined d) (presence_sent d) true (sampled d) (stream d)
  else if decide (p = (a, b)) then mkDriver (joined d) (presence_sent d) (peer_presence_seen d) (sampled d) rest
  else d.
Proof.
  unfold m', recorded, set_relay. cbn [drivers]. rewrite drivers_set. case_decide as E; [by subst|].
  rewrite drivers_set. case_decide as E2; by subst.
Qed.

Lemma recorded_served x : (own_report (entry m' x) = None -> own_report (entry m x) = None) /\ (never_served m' x -> never_served m x).
Proof.
  destruct (recorded_relays x) as (_ & Hl & He). unfold never_served. rewrite Hl, He. case_decide as E; [subst|done].
  cbn [note_peer own_report]. done.
Qed.

Lemma recorded_base x y : x ∈ ranked -> y ∈ ranked -> x <> y -> pair_base m' x y.
Proof.
  intros Hx Hy Hxy. destruct (proj2 Hm x y Hx Hy Hxy) as [[] _]. destruct (recorded_served x) as [Ho Hn].
  assert (Hj : joined (drivers m (a, b)) = true).
  { destruct (joined (drivers m (a, b))) eqn:E; [done|]. destruct (proj2 Hm a b Ha Hb Hab) as [[] _].
    destruct (pi_out1 E) as [E1 _]. congruence. }
  split; rewrite !recorded_drivers; cbn zeta.
  - repeat case_decide; simplify_eq; cbn [stream]; [done| |done]. rewrite Hst in pi_stream0. by inversion pi_stream0.
  - intros w Hw. destruct (pi_sampled0 w) as [? ?]; [|by auto]. repeat case_decide; simplify_eq; done.
  - intros H%Hn. destruct (pi_quiet0 H) as [H1 H2]. rewrite recorded_view.
    repeat case_decide; simplify_eq; cbn [stream]; try done. rewrite Hst in H2. inversion_clear H2 as [|? ? En Hr].
    subst n. cbn [absorb foldl snd]. rewrite H1. done.
  - intros Hjo. repeat case_decide; simplify_eq; cbn [joined stream peer_presence_seen] in *; try congruence; try (by apply pi_out0).
  - intros s Hs. destruct (pi_sent0 s) as [? ?]; [|by auto]. repeat case_decide; simplify_eq; done.
Qed.

Lemma recorded_view_ok x y : x ∈ ranked -> y ∈ ranked -> x <> y ->
  ((x, y) = (b, a) -> peer_presence_seen (drivers m (b, a)) = true) -> view_ok m' x y.
Proof.
  intros Hx Hy Hxy Hseen. destruct (proj2 Hm x y Hx Hy Hxy) as [_ Hok].
  unfold view_ok in *. rewrite !recorded_drivers, recorded_view. cbn zeta.
  destruct (decide ((x, y) = (a, b))) as [[= -> ->]|N1].
  - decides. cbn [joined stream presence_sent peer_presence_seen].
    rewrite Hst in Hok. intros H1 H2. destruct (Hok H1 H2) as [H|H]; [left|by right]. exact H.
  - destruct (decide ((x, y) = (b, a))) as [[= -> ->]|N2].
    + decides. cbn [joined stream presence_sent peer_presence_seen]. intros H1 H2. destruct (Hok H1 H2) as [H|[H _]]; [by left|].
      rewrite Hseen in H by done. done.
    + decides. done.
Qed.

End deliver.

Lemma deliver_inv m a b m' : mesh_inv m -> mesh_step m (Deliver a b) = Some m' -> mesh_inv m'.
Proof.
  intros Hm Hs. cbn [mesh_step] in Hs. destruct (stream (drivers m (a, b))) as [|n rest] eqn:Est; [done|].
  destruct (pair_ok a b) eqn:Eok; [|done]. apply pair_ok_spec in Eok as (Ha & Hb & Hab). injection Hs as <-.
  unfold handle_presence_report. set (d := mkDriver _ _ _ _ rest).
  assert (E : drivers (set_driver m (a, b) d) (b, a) = drivers m (b, a)) by (rewrite drivers_set, decide_False; congruence).
  rewrite E. change (set_relay _ b _) with (recorded m a b n rest). destruct (joined (drivers m (b, a))) eqn:Ej.
  - pose proof (recorded_relays m a b n rest Hm Ha Hb Hab Est) as Hr. pose proof (recorded_base m a b n rest Hm Ha Hb Hab Est) as Hbase.
    pose proof (recorded_view_ok m a b n rest Hm Ha Hb Hab Est) as Hview.
    destruct (peer_presence_seen (drivers m (b, a))) eqn:Es; cbn [negb].
    + split; [intros x; by apply Hr|]. intros x y Hx Hy Hxy. auto.
    + apply push_statement_inv; auto.
      * intros x. by apply Hr.
      * rewrite recorded_drivers. cbn zeta. by rewrite decide_True.
      * left. apply Hview; auto. congruence.
  - destruct Hm as [Hr Hp]. destruct (Hp a b Ha Hb Hab) as [[] _]. destruct (Hp b a Hb Ha ltac:(done)) as [[] _].
    assert (E1 : drivers (set_driver m (a, b) d) (a, b) = d) by (by rewrite drivers_set, decide_True).
    rewrite Est in pi_stream0, pi_quiet0, pi_out0. apply driver_step_inv; auto; unfold view_ok; rewrite ?E, ?E1; try congruence.
    + split; rewrite ?E, ?E1; cbn [d stream sampled joined presence_sent]; auto.
      * by inversion pi_stream0.
      * intros Hn. destruct (pi_quiet0 Hn) as [H1 H2]. by inversion H2.
      * intros H. by destruct (pi_out0 H).
    + by split; rewrite ?E, ?E1.
Qed.

Lemma redial_inv m a b m' : mesh_inv m -> mesh_step m (Redial a b) = Some m' -> mesh_inv m'.
Proof.
  intros [Hr Hp] Hs. cbn [mesh_step] in Hs. destruct (pair_ok a b) eqn:Eok; [|done].
  apply pair_ok_spec in Eok as (Ha & Hb & Hab). injection Hs as <-.
  split; [intros x; by do 2 apply relay_inv_set_driver|].
  intros x y Hx Hy Hxy. destruct (Hp x y Hx Hy Hxy) as [[] Hok].
  assert (Hq : never_served m x -> (view m x y).2 = false) by (intros; by apply pi_quiet0).
  split; [split|unfold view_ok in *]; rewrite !drivers_set; repeat case_decide; simplify_eq;
    cbn [new_driver joined stream sampled presence_sent peer_presence_seen]; auto; try done; try congruence;
    intros Hn; split; try by constructor; by apply Hq.
Qed.

Definition refuses (op : mesh_op) : bool := match op with Refuse _ => true | _ => false end.

Lemma mesh_step_inv m op m' : refuses op = false -> mesh_inv m -> mesh_step m op = Some m' -> mesh_inv m'.
Proof.
  intros Hop Hm Hs. destruct op as [a|a n|a|a|a n|a|a b|a b|a b|a b|a b]; try done;
    try (eapply (relay_ops_inv m a); [done|..|exact Hs]; naive_solver).
  - by eapply join_inv.
  - by eapply sample_inv.
  - by eapply maintain_inv.
  - by eapply deliver_inv.
  - by eapply redial_inv.
Qed.

Lemma mesh_init_inv : mesh_inv mesh_init.
Proof.
  assert (He : forall x, entry mesh_init x = mkSessionPresence (resolve_order x ranked) ∅ ∅ None 0 false).
  { intros x. unfold entry, mesh_init. cbn [relays registry]. unfold set_order. by rewrite lookup_insert_eq. }
  split.
  - intros x. split; rewrite ?He; cbn [mesh_init relays registry unactivated activated own_report went_live_count ever_live order];
      try done; try lia.
    + unfold set_order. by rewrite lookup_insert_eq.
    + split; [done|]. intros [?|(? & _ & _ & ?)]; set_solver.
  - intros x y _ _ _. split; [split|]; try done; try by constructor.
    intros _. unfold view. rewrite He. split; [done|by constructor].
Qed.

Lemma mesh_run_inv ops m m' : forallb (fun op => negb (refuses op)) ops = true -> mesh_inv m -> mesh_run ops m = Some m' -> mesh_inv m'.
Proof.
  revert m. induction ops as [|op ops IH]; intros m Hops Hm Hrun; cbn [mesh_run forallb] in *; [congruence|].
  apply andb_true_iff in Hops as [H1%negb_true_iff H2]. destruct (mesh_step m op) as [m1|] eqn:E; [|done].
  eapply IH; [done| |done]. by eapply mesh_step_inv.
Qed.

(** ** When everything has been said and read *)

Definition reports_settled (m : Mesh) (a : Z) : bool :=
  (unactivated (relays m a) =? 0) &&
  match own_report (entry m a) with
  | Some n => n =? local_live_players (relays m a)
  | None => local_live_players (relays m a) =? 0
  end.

Definition link_settled (m : Mesh) (a b : Z) : bool :=
  let d := drivers m (a, b) in
  joined d && bool_decide (stream d = []) &&
  bool_decide (presence_catch_up (presence_sent d)
    (mkSentPresence (local_live_players (relays m a)) (own_went_live (registry (relays m a)) key)) = []).

Definition settled (m : Mesh) : bool :=
  forallb (reports_settled m) ranked &&
  forallb (fun a => forallb (fun b => (a =? b) || link_settled m a b) ranked) ranked.

Lemma settled_spec m : settled m = true ->
  (forall a, a ∈ ranked -> reports_settled m a = true) /\
  (forall a b, a ∈ ranked -> b ∈ ranked -> a <> b -> link_settled m a b = true).
Proof.
  unfold settled. rewrite andb_true_iff, !forallb_forall. intros [H1 H2]. split.
  - intros a Ha. by apply H1, list_elem_of_In.
  - intros a b Ha Hb Hab. specialize (H2 a ltac:(by apply list_elem_of_In)). rewrite forallb_forall in H2.
    specialize (H2 b ltac:(by apply list_elem_of_In)). rewrite orb_true_iff, Z.eqb_eq in H2. naive_solver.
Qed.

(** What b holds of a in a settled mesh: a's count, and whether a ever served. *)
Lemma settled_view m a b : mesh_inv m -> settled m = true -> a ∈ ranked -> b ∈ ranked -> a <> b ->
  peer_reports (entry m b) !! a = Some (local_live_players (relays m a)) /\
  (a ∈ peers_ever_live (entry m b) <-> own_report (entry m a) <> None).
Proof.
  intros Hm Hs Ha Hb Hab. apply settled_spec in Hs as [Hown Hlink].
  destruct (proj2 Hm a b Ha Hb Hab) as [Hbase Hok]. pose proof (proj1 Hm a) as Hra.
  pose proof (Hlink b a Hb Ha ltac:(done)) as Hba. specialize (Hlink a b Ha Hb Hab).
  unfold link_settled in Hlink, Hba. rewrite !andb_true_iff, !bool_decide_eq_true in Hlink, Hba.
  destruct Hlink as [[Hj Hst] Hup], Hba as [[Hj' Hst'] _].
  destruct (Hok Hj Hj') as [(s & Es & Hv & Hever)|[_ ?]]; [|done].
  rewrite Hst in Hv, Hever. cbn [absorb foldl view fst snd] in Hv, Hever. rewrite bool_decide_eq_true in Hever.
  rewrite Es in Hup. unfold presence_catch_up in Hup. cbn [live went_live] in Hup.
  destruct (Z.eqb_spec (live s) (local_live_players (relays m a))) as [El|El]; [|done].
  split; [by rewrite Hv, El|]. specialize (Hown a Ha). unfold reports_settled in Hown.
  apply andb_true_iff in Hown as [_ Hown]. unfold own_went_live in Hup. rewrite (ri_entry _ _ Hra) in Hup.
  destruct (own_report (entry m a)) as [n|] eqn:Eo.
  - apply Z.eqb_eq in Hown. split; [done|]. intros _. apply Hever.
    assert (0 < went_live_count (entry m a)) by (apply Hra; congruence).
    pose proof (ri_own _ _ Hra _ Eo). destruct (Z.eqb_spec (local_live_players (relays m a)) 0) as [E0|E0]; [|left; lia].
    right. destruct (Z.eqb_spec (went_live s) (went_live_count (entry m a))); [lia|done].
  - apply Z.eqb_eq in Hown. split; [|done]. intros Hin.
    destruct (pi_quiet _ _ _ Hbase) as [Hf _]; [by split|]. cbn in Hf. by apply bool_decide_eq_false in Hf.
Qed.

Lemma settled_live m a b : mesh_inv m -> settled m = true -> a ∈ ranked -> b ∈ ranked -> a <> b ->
  peer_live (entry m b) a = own_live (entry m a).
Proof.
  intros Hm Hs Ha Hb Hab. destruct (settled_view m a b Hm Hs Ha Hb Hab) as [Hv He].
  apply settled_spec in Hs as [Hown _]. specialize (Hown a Ha). unfold reports_settled in Hown.
  apply andb_true_iff in Hown as [_ Hown].
  unfold peer_live, own_live. rewrite Hv. destruct (own_report (entry m a)) as [n|]; apply Z.eqb_eq in Hown.
  - subst n. rewrite bool_decide_eq_true_2 by (by apply He). by rewrite orb_false_r.
  - rewrite bool_decide_eq_false_2 by (rewrite He; congruence). by rewrite orb_true_r.
Qed.

(** The first relay in the order that counts itself as serving. *)
Definition first_serving (m : Mesh) : option Z := List.find (fun r => own_live (entry m r)) ranked.

Lemma settled_verdict m r : mesh_inv m -> settled m = true -> r ∈ ranked -> NoDup ranked ->
  verdict (registry (relays m r)) key = Some (if decide (first_serving m = Some r) then AuthSelf else AuthPeer).
Proof.
  intros Hm Hs Hr Hnd. pose proof (proj1 Hm r) as Hri. unfold verdict. rewrite (ri_entry _ _ Hri), (ri_order _ _ Hri).
  assert (Hfind : forall l, (forall x, x ∈ l -> x ∈ ranked) ->
    List.find (candidate_live (entry m r)) (resolve_order r l) =
    (fun x => if x =? r then SelfRelay else PeerRelay x) <$> List.find (fun x => own_live (entry m x)) l).
  { induction l as [|x l IH]; intros Hl; cbn [resolve_order map List.find]; [done|].
    assert (candidate_live (entry m r) (if x =? r then SelfRelay else PeerRelay x) = own_live (entry m x)) as ->.
    { destruct (Z.eqb_spec x r) as [->|N]; cbn [candidate_live]; [done|]. apply settled_live; auto. apply Hl. left. }
    destruct (own_live (entry m x)); [done|]. apply IH. intros y Hy. apply Hl. by right. }
  rewrite (Hfind ranked ltac:(done)). fold (first_serving m).
  destruct (resolve_order r ranked) eqn:Eo; [by destruct ranked; [inversion Hr|]|].
  destruct (first_serving m) as [x|]; cbn; [|by rewrite decide_False].
  destruct (Z.eqb_spec x r) as [->|N]; [by rewrite decide_True|by rewrite decide_False by congruence].
Qed.

(** ** Properties *)

(** C28 The relays agree on who decides.  Whatever registers, leaves, reports
    late, joins, pushes, reads and redials in between, once every count written
    has been read and every roster reported, exactly the first relay in the
    order that still serves players (or never served any) holds the verdict
    that it decides, and every other relay holds that it does not. *)
Theorem presence_single_authority (ops : list mesh_op) (m : Mesh)
  (Hnd : NoDup ranked) (Hops : forallb (fun op => negb (refuses op)) ops = true)
  (Hrun : mesh_run ops mesh_init = Some m) (Hset : settled m = true) :
  forall r, r ∈ ranked ->
    verdict (registry (relays m r)) key = Some (if decide (first_serving m = Some r) then AuthSelf else AuthPeer) /\
    (own_live (entry m r) = false <-> own_report (entry m r) <> None /\ local_live_players (relays m r) = 0).
Proof.
  intros r Hr. pose proof (mesh_run_inv _ _ _ Hops mesh_init_inv Hrun) as Hm. split; [by apply settled_verdict|].
  destruct (settled_spec m Hset) as [Hown _]. specialize (Hown r Hr). unfold reports_settled in Hown.
  apply andb_true_iff in Hown as [_ Hown]. unfold own_live.
  destruct (own_report (entry m r)) as [n|] eqn:E; apply Z.eqb_eq in Hown; [|split; [done|by intros [? _]]].
  subst n. pose proof (ri_own _ _ (proj1 Hm r) _ E). rewrite Z.ltb_ge. split; [intros; split; [done|lia]|intros [_ ->]; lia].
Qed.

(** A relay finds a settled session empty exactly when it is: no relay has a
    client on its roster, and some relay has served one. *)
Theorem presence_all_empty_exact (ops : list mesh_op) (m : Mesh) (r : Z)
  (Hops : forallb (fun op => negb (refuses op)) ops = true)
  (Hrun : mesh_run ops mesh_init = Some m) (Hset : settled m = true) (Hr : r ∈ ranked) :
  all_empty (registry (relays m r)) key (local_live_players (relays m r)) = true <->
  (forall x, x ∈ ranked -> local_live_players (relays m x) = 0) /\
  exists x, x ∈ ranked /\ own_report (entry m x) <> None.
Proof.
  pose proof (mesh_run_inv _ _ _ Hops mesh_init_inv Hrun) as Hm. pose proof (proj1 Hm r) as Hri.
  assert (Hview : forall x, x ∈ ranked -> x <> r -> peer_reports (entry m r) !! x = Some (local_live_players (relays m x)))
    by (intros x Hx Hxr; by apply settled_view).
  assert (Hever : ever_live (entry m r) = true <-> exists x, x ∈ ranked /\ own_report (entry m x) <> None).
  { rewrite (ri_ever _ _ Hri). split.
    - intros [H|(b & Hb & Hbr & Hin)]; [by exists r|]. exists b. split; [done|]. by apply (settled_view m b r).
    - intros (x & Hx & Ho). destruct (decide (x = r)) as [->|N]; [by left|right]. exists x. split_and!; [done..|].
      by apply (settled_view m x r). }
  unfold all_empty. rewrite (ri_entry _ _ Hri), (ri_order _ _ Hri), <- Hever.
  rewrite (bool_decide_eq_false_2 (resolve_order r ranked = [])) by (by destruct ranked; [inversion Hr|]). cbn [orb].
  destruct (Z.eqb_spec (local_live_players (relays m r)) 0) as [E0|E0]; cbn [negb];
    [|split; [done|intros [H _]; by specialize (H r Hr)]].
  destruct (ever_live (entry m r)); cbn [negb]; [|split; [done|intros [_ ?]; done]].
  rewrite forallb_forall. setoid_rewrite <- list_elem_of_In. split.
  - intros H. split; [|done]. intros x Hx. destruct (decide (x = r)) as [->|N]; [done|].
    specialize (H (PeerRelay x)). cbn in H. rewrite bool_decide_eq_true, Hview in H by done.
    enough (Some (local_live_players (relays m x)) = Some 0) by congruence. apply H.
    apply list_elem_of_fmap. exists x. by rewrite (proj2 (Z.eqb_neq x r)).
  - intros [H _] [|x] Hin; [done|]. apply bool_decide_eq_true.
    apply list_elem_of_fmap in Hin as (y & Hy & Hin). destruct (Z.eqb_spec y r) as [|N]; [done|]. injection Hy as ->.
    rewrite Hview by done. by rewrite H.
Qed.

End session.

(** ** Concrete sessions *)

Definition pairs_of (l : list Z) : list (Z * Z) :=
  filter (fun p => p.1 <> p.2) (a ← l; b ← l; [(a, b)]).

(** Every driver pushes what changed, and every count is read, twice over. *)
Definition settle_round (l : list Z) : list mesh_op := map (fun p => Maintain p.1 p.2) (pairs_of l).

Fixpoint drain_streams (fuel : nat) (key : Z) (ranked : list Z) (m : Mesh) : list mesh_op :=
  match fuel with
  | O => []
  | S fuel =>
      match List.find (fun p => negb (bool_decide (stream (drivers m p) = []))) (pairs_of ranked) with
      | Some p =>
          Deliver p.1 p.2 ::
          match mesh_step key ranked m (Deliver p.1 p.2) with
          | Some m => drain_streams fuel key ranked m
          | None => []
          end
      | None => []
      end
  end.

(** The history, followed by a maintenance pass of every driver and the reading
    of everything written. *)
Definition settling (key : Z) (ranked : list Z) (ops : list mesh_op) : list mesh_op :=
  let ops := ops ++ settle_round ranked in
  match mesh_run key ranked ops (mesh_init key ranked) with
  | Some m => ops ++ drain_streams 100 key ranked m
  | None => ops
  end.

Definition joins (l : list Z) : list mesh_op := map (fun p => JoinSession p.1 p.2) (pairs_of l).

Definition handoff : list mesh_op :=
  settling 7 [1; 2; 3]
    (joins [1; 2] ++ [Register 1; Activate 1 1; Register 3; Deregister 1; Activate 3 1; Sample 1 2; Report 1 0;
      JoinSession 1 3; JoinSession 3 1; JoinSession 2 3; JoinSession 3 2; Deliver 1 2; Redial 1 2; JoinSession 2 1; JoinSession 1 2]).

Definition handed_off : Mesh := default (mesh_init 7 [1; 2; 3]) (mesh_run 7 [1; 2; 3] handoff (mesh_init 7 [1; 2; 3])).

Lemma handoff_runs : mesh_run 7 [1; 2; 3] handoff (mesh_init 7 [1; 2; 3]) = Some handed_off.
Proof.
  unfold handed_off. destruct (mesh_run _ _ _ _) eqn:E; [done|].
  assert (H : match mesh_run 7 [1; 2; 3] handoff (mesh_init 7 [1; 2; 3]) with Some _ => true | None => false end = true)
    by (vm_compute; reflexivity).
  rewrite E in H. discriminate.
Qed.

Lemma presence_single_authority_witness :
  first_serving 7 [1; 2; 3] handed_off = Some 2 /\
  verdict (registry (relays handed_off 2)) 7 = Some AuthSelf /\
  verdict (registry (relays handed_off 3)) 7 = Some AuthPeer.
Proof.
  assert (Hf : first_serving 7 [1; 2; 3] handed_off = Some 2) by (vm_compute; reflexivity).
  assert (Hd : forallb (fun op => negb (refuses op)) handoff = true) by (vm_compute; reflexivity).
  assert (Hs : settled 7 [1; 2; 3] handed_off = true) by (vm_compute; reflexivity).
  assert (Hnd : NoDup [1; 2; 3]) by (apply (bool_decide_unpack _); reflexivity).
  pose proof (presence_single_authority 7 [1; 2; 3] handoff handed_off Hnd Hd handoff_runs Hs) as H.
  rewrite Hf in H. split; [reflexivity|]. split.
  - exact (proj1 (H 2 ltac:(right; left))).
  - exact (proj1 (H 3 ltac:(right; right; left))).
Defined.

Definition emptied : list mesh_op :=
  settling 7 [1; 2] (joins [1; 2] ++ [Register 2; Activate 2 1; Deregister 2; Report 2 0]).
Definition emptied_mesh : Mesh := default (mesh_init 7 [1; 2]) (mesh_run 7 [1; 2] emptied (mesh_init 7 [1; 2])).

Lemma emptied_runs : mesh_run 7 [1; 2] emptied (mesh_init 7 [1; 2]) = Some emptied_mesh.
Proof.
  unfold emptied_mesh. destruct (mesh_run _ _ _ _) eqn:E; [done|].
  assert (H : match mesh_run 7 [1; 2] emptied (mesh_init 7 [1; 2]) with Some _ => true | None => false end = true)
    by (vm_compute; reflexivity).
  rewrite E in H. discriminate.
Qed.

Lemma presence_all_empty_exact_witness :
  all_empty (registry (relays emptied_mesh 1)) 7 (local_live_players (relays emptied_mesh 1)) = true /\
  local_live_players (relays emptied_mesh 2) = 0.
Proof.
  assert (H : all_empty (registry (relays emptied_mesh 1)) 7 (local_live_players (relays emptied_mesh 1)) = true)
    by (vm_compute; reflexivity).
  split; [exact H|].
  refine (proj1 (proj1 (presence_all_empty_exact 7 [1; 2] emptied emptied_mesh 1 _ emptied_runs _ _) H) 2 _);
    [vm_compute; reflexivity|vm_compute; reflexivity|left|right; left].
Defined.

Definition refused : list mesh_op :=
  settling 7 [1; 2] (joins [1; 2] ++ [Register 2; Activate 2 1; Register 1; Refuse 1]).

(** A refused activation can leave a session without an authority.  When the
    first client link of the relay that heads the order is refused, the teardown
    reports an empty roster: the relay stops counting itself, though it never
    reported a player, while its peers read its zero as not yet serving and keep
    deferring to it.  The mesh is settled, a player is live on the other relay,
    and no relay decides. *)
Theorem refused_activation_no_authority :
  match mesh_run 7 [1; 2] refused (mesh_init 7 [1; 2]) with
  | Some m => settled 7 [1; 2] m = true /\ local_live_players (relays m 2) = 1 /\
      Forall (fun r => verdict (registry (relays m r)) 7 = Some AuthPeer) [1; 2]
  | None => False
  end.
Proof.
  assert (H : match mesh_run 7 [1; 2] refused (mesh_init 7 [1; 2]) with
    | Some m => settled 7 [1; 2] m && (local_live_players (relays m 2) =? 1) &&
        forallb (fun r => bool_decide (verdict (registry (relays m r)) 7 = Some AuthPeer)) [1; 2]
    | None => false
    end = true) by (vm_compute; reflexivity).
  destruct (mesh_run 7 [1; 2] refused (mesh_init 7 [1; 2])) as [m|]; [|discriminate].
  rewrite !andb_true_iff, Z.eqb_eq, forallb_forall in H. destruct H as [[H1 H2] H3].
  split_and!; [done..|]. apply Forall_forall. intros r Hr.
  exact (bool_decide_eq_true_1 _ (H3 r Hr)).
Qed.
