(* ===== verification/SideChannel.v ===== *)
(** * Side channels ([relay/src/session/side_channel/])

    Lobby commands, chat and skins: one registry, three replay policies.  The
    traits [SideChannelMessage] and [ReplayPolicy] are type classes; a member's
    push channel is the queue behind its [mpsc::Sender], with the messages its
    link task has already received; the registry's mutex makes every operation
    one step, so a run is a sequence of operations.  Log lines are left out. *)

From Stdlib Require Import ZArith Lia.
From stdpp Require Import gmap sorting list.
From S2P Require Import Prelude RateLimit.

Open Scope Z_scope.

(** ** The messages *)

Record LobbyCommand : Type := mkLobbyCommand { lc_slot : Z; lc_payload : list Z; lc_seq : option Z }.
Record GameChat : Type := mkGameChat { gc_slot : Z; target_kind : Z; target_slot : Z; gc_text : list Z }.
Record PlayerSkin : Type := mkPlayerSkin { ps_slot : Z; ps_payload : list Z }.

#[export] Instance LobbyCommand_eq_dec : EqDecision LobbyCommand.
Proof. solve_decision. Defined.
#[export] Instance PlayerSkin_eq_dec : EqDecision PlayerSkin.
Proof. solve_decision. Defined.

Class SideChannelMessage (M : Type) : Type := {
  author : M -> Z;
  retained_bytes : M -> Z;
  origin_seq : M -> option Z;
}.

#[export] Instance LobbyCommand_message : SideChannelMessage LobbyCommand := {|
  author := lc_slot;
  retained_bytes m := Z.of_nat (length (lc_payload m));
  origin_seq := lc_seq;
|}.
#[export] Instance GameChat_message : SideChannelMessage GameChat := {|
  author := gc_slot;
  retained_bytes m := Z.of_nat (length (gc_text m));
  origin_seq _ := None;
|}.
#[export] Instance PlayerSkin_message : SideChannelMessage PlayerSkin := {|
  author := ps_slot;
  retained_bytes m := Z.of_nat (length (ps_payload m));
  origin_seq _ := None;
|}.

(** ** Replay policies *)

Class ReplayPolicy (R M L : Type) : Type := {
  policy_default : R;
  RETAINS : bool;
  retain : R -> M -> L -> bool * R;
  replay : R -> list M;
  policy_is_repeat : R -> M -> bool;
}.

Inductive NoReplay (M : Type) : Type := mkNoReplay.
Arguments mkNoReplay {M}.

#[export] Instance NoReplay_policy {M} : ReplayPolicy (NoReplay M) M unit := {|
  policy_default := mkNoReplay;
  RETAINS := false;
  retain r _ _ := (true, r);
  replay _ := [];
  policy_is_repeat _ _ := false;
|}.

Record LogLimits : Type := mkLogLimits { max_messages : Z; max_bytes : Z }.

Record OrderedLog (M : Type) : Type := mkOrderedLog {
  log : list M;
  log_bytes : Z;
  overflowed : bool;
  accepted : gmap Z (gset Z);
}.
Arguments mkOrderedLog {M}.
Arguments log {M}.
Arguments log_bytes {M}.
Arguments overflowed {M}.
Arguments accepted {M}.

Definition log_is_repeat {M} `{!SideChannelMessage M} (l : OrderedLog M) (m : M) : bool :=
  match origin_seq m with
  | None => false
  | Some s =>
      match accepted l !! author m with None => false | Some seqs => bool_decide (s ∈ seqs) end
  end.

Definition log_retain {M} `{!SideChannelMessage M} (l : OrderedLog M) (m : M) (limits : LogLimits) :
    bool * OrderedLog M :=
  if log_is_repeat l m then (false, l)
  else if overflowed l then (false, l)
  else
    let new_bytes := retained_bytes m in
    if (max_messages limits <=? Z.of_nat (length (log l)))
       || (max_bytes limits <? saturating_add usize_max (log_bytes l) new_bytes)
    then (false, mkOrderedLog (log l) (log_bytes l) true (accepted l))
    else
      (true, mkOrderedLog (log l ++ [m]) (log_bytes l + new_bytes) (overflowed l)
        match origin_seq m with
        | Some s => <[author m := {[s]} ∪ default ∅ (accepted l !! author m)]> (accepted l)
        | None => accepted l
        end).

#[export] Instance OrderedLog_policy {M} `{!SideChannelMessage M} : ReplayPolicy (OrderedLog M) M LogLimits := {|
  policy_default := mkOrderedLog [] 0 false ∅;
  RETAINS := true;
  retain := log_retain;
  replay := log;
  policy_is_repeat := log_is_repeat;
|}.

Record SlotMapLimits : Type := mkSlotMapLimits { max_slots : Z }.

Record LatestPerSlot (M : Type) : Type := mkLatestPerSlot { latest : gmap Z M; slot_cap_warns : Z }.
Arguments mkLatestPerSlot {M}.
Arguments latest {M}.
Arguments slot_cap_warns {M}.

Definition latest_retain {M} `{!SideChannelMessage M} (l : LatestPerSlot M) (m : M) (limits : SlotMapLimits) :
    bool * LatestPerSlot M :=
  match u8_try_from (author m) with
  | None => (false, l)
  | Some author_slot =>
      if bool_decide (latest l !! author_slot = None) && (max_slots limits <=? Z.of_nat (size (latest l))) then
        (false, mkLatestPerSlot (latest l) (counter_observe (slot_cap_warns l)).2)
      else (true, mkLatestPerSlot (<[author_slot := m]> (latest l)) (slot_cap_warns l))
  end.

#[export] Instance LatestPerSlot_policy {M} `{!SideChannelMessage M} :
    ReplayPolicy (LatestPerSlot M) M SlotMapLimits := {|
  policy_default := mkLatestPerSlot ∅ 0;
  RETAINS := true;
  retain := latest_retain;
  replay l := (map_to_list (latest l)).*2;
  policy_is_repeat _ _ := false;
|}.

(** ** A member's push channel *)

(** [mpsc::channel(capacity)] as its sender sees it: what is queued, what the
    receiver has taken, and whether the receiver is still held. *)
Record Chan (M : Type) : Type := mkChan { capacity : Z; queued : list M; received : list M; rx_open : bool }.
Arguments mkChan {M}.
Arguments capacity {M}.
Arguments queued {M}.
Arguments received {M}.
Arguments rx_open {M}.

Inductive SendResult : Type := SendOk | SendFull | SendClosed.

Definition try_send {M} (c : Chan M) (m : M) : SendResult * Chan M :=
  if negb (rx_open c) then (SendClosed, c)
  else if capacity c <=? Z.of_nat (length (queued c)) then (SendFull, c)
  else (SendOk, mkChan (capacity c) (queued c ++ [m]) (received c) true).

Definition chan_recv {M} (c : Chan M) : Chan M :=
  match queued c with
  | [] => c
  | m :: q => mkChan (capacity c) q (received c ++ [m]) (rx_open c)
  end.

Definition chan_close {M} (c : Chan M) : Chan M := mkChan (capacity c) (queued c) (received c) false.

(** Everything ever pushed to the member. *)
Definition stream {M} (c : Chan M) : list M := received c ++ queued c.

(** ** The registry *)

Record SideChannelConfig (L : Type) : Type := mkSideChannelConfig {
  push_capacity : Z;
  message_max_bytes : option Z;
  rate_burst : Z;
  rate_refill : Z;
  replay_limits : L;
}.
Arguments mkSideChannelConfig {L}.
Arguments push_capacity {L}.
Arguments message_max_bytes {L}.
Arguments rate_burst {L}.
Arguments rate_refill {L}.
Arguments replay_limits {L}.

Record ChannelSession (R M : Type) : Type := mkChannelSession {
  session_replay : R;
  members : gmap Z (Chan M);
  limiters : gmap Z TokenBucket;
  size_warns : gmap Z Z;
  rate_warns : gmap Z Z;
}.
Arguments mkChannelSession {R M}.
Arguments session_replay {R M}.
Arguments members {R M}.
Arguments limiters {R M}.
Arguments size_warns {R M}.
Arguments rate_warns {R M}.

Section Registry.
Context {R M L : Type} `{!SideChannelMessage M} `{!ReplayPolicy R M L}.

Definition session_default : ChannelSession R M := mkChannelSession policy_default ∅ ∅ ∅ ∅.

(** [sessions.entry(key.clone()).or_default()]. *)
Definition session_of (ss : gmap Z (ChannelSession R M)) (key : Z) : ChannelSession R M :=
  default session_default (ss !! key).

Definition set_members (s : ChannelSession R M) (ms : gmap Z (Chan M)) : ChannelSession R M :=
  mkChannelSession (session_replay s) ms (limiters s) (size_warns s) (rate_warns s).

(** The replay loop of [register_member]: own messages are skipped, and the
    first refusal ends it. *)
Fixpoint replay_into (c : Chan M) (joiner : Z) (ms : list M) : Chan M :=
  match ms with
  | [] => c
  | m :: ms =>
      if author m =? joiner then replay_into c joiner ms
      else match try_send c m with
           | (SendOk, c') => replay_into c' joiner ms
           | (_, c') => c'
           end
  end.

Definition register_member (cfg : SideChannelConfig L) (ss : gmap Z (ChannelSession R M)) (key slot : Z) :
    gmap Z (ChannelSession R M) :=
  let s := session_of ss key in
  let tx := replay_into (mkChan (push_capacity cfg) [] [] true) slot (replay (session_replay s)) in
  <[key := set_members s (<[slot := tx]> (members s))]> ss.

Definition deregister_member (ss : gmap Z (ChannelSession R M)) (key slot : Z) : gmap Z (ChannelSession R M) :=
  match ss !! key with
  | None => ss
  | Some s => <[key := set_members s (delete slot (members s))]> ss
  end.

Definition end_session (ss : gmap Z (ChannelSession R M)) (key : Z) : gmap Z (ChannelSession R M) :=
  delete key ss.

Definition is_repeat (ss : gmap Z (ChannelSession R M)) (key : Z) (m : M) : bool :=
  match ss !! key with None => false | Some s => policy_is_repeat (session_replay s) m end.

Definition reshare_identified (ss : gmap Z (ChannelSession R M)) (key : Z) : list M :=
  match ss !! key with
  | None => []
  | Some s => filter (fun m => is_Some (origin_seq m)) (replay (session_replay s))
  end.

(** [warns.entry(slot).or_default().observe()], the count after. *)
Definition observe_slot (warns : gmap Z Z) (slot : Z) : gmap Z Z :=
  <[slot := (counter_observe (default 0 (warns !! slot))).2]> warns.

Definition oversize (cfg : SideChannelConfig L) (len : Z) : bool :=
  match message_max_bytes cfg with Some cap => cap <? len | None => false end.

Definition admit_message (cfg : SideChannelConfig L) (ss : gmap Z (ChannelSession R M))
    (key slot len now : Z) : bool * gmap Z (ChannelSession R M) :=
  let s := session_of ss key in
  if oversize cfg len then
    (false, <[key := mkChannelSession (session_replay s) (members s) (limiters s)
                       (observe_slot (size_warns s) slot) (rate_warns s)]> ss)
  else
    let b := default (new_at (rate_burst cfg) (rate_refill cfg) now) (limiters s !! slot) in
    let r := try_take_at b now in
    (r.1, <[key := mkChannelSession (session_replay s) (members s) (<[slot := r.2]> (limiters s))
                     (size_warns s)
                     (if r.1 then rate_warns s else observe_slot (rate_warns s) slot)]> ss).

(** The fan-out: every member but the author is offered the message, and a
    refusal is the member's own. *)
Definition fan_out (ms : gmap Z (Chan M)) (m : M) : gmap Z (Chan M) :=
  map_imap (fun slot tx => Some (if author m =? slot then tx else (try_send tx m).2)) ms.

Definition deliver (cfg : SideChannelConfig L) (ss : gmap Z (ChannelSession R M)) (key : Z) (m : M) :
    bool * gmap Z (ChannelSession R M) :=
  if negb RETAINS && bool_decide (ss !! key = None) then (true, ss)
  else
    let s := session_of ss key in
    let r := retain (session_replay s) m (replay_limits cfg) in
    if negb r.1 then
      (false, <[key := mkChannelSession r.2 (members s) (limiters s) (size_warns s) (rate_warns s)]> ss)
    else
      (true, <[key := mkChannelSession r.2 (fan_out (members s) m) (limiters s) (size_warns s)
                        (rate_warns s)]> ss).

(** ** Runs *)

(** One operation on the registry, or a member's link task receiving from
    its channel or dropping it. *)
Inductive ChannelOp : Type :=
| OpRegister (key slot : Z)
| OpDeregister (key slot : Z)
| OpEnd (key : Z)
| OpOffer (key slot len now : Z)
| OpDeliver (key : Z) (m : M)
| OpRecv (key slot : Z)
| OpClose (key slot : Z).

Definition member_step (f : Chan M -> Chan M) (ss : gmap Z (ChannelSession R M)) (key slot : Z) :
    gmap Z (ChannelSession R M) :=
  match ss !! key with
  | None => ss
  | Some s => <[key := set_members s (alter f slot (members s))]> ss
  end.

Definition channel_step (cfg : SideChannelConfig L) (ss : gmap Z (ChannelSession R M)) (o : ChannelOp) :
    gmap Z (ChannelSession R M) :=
  match o with
  | OpRegister key slot => register_member cfg ss key slot
  | OpDeregister key slot => deregister_member ss key slot
  | OpEnd key => end_session ss key
  | OpOffer key slot len now => (admit_message cfg ss key slot len now).2
  | OpDeliver key m => (deliver cfg ss key m).2
  | OpRecv key slot => member_step chan_recv ss key slot
  | OpClose key slot => member_step chan_close ss key slot
  end.

Definition channel_run (cfg : SideChannelConfig L) (ops : list ChannelOp) : gmap Z (ChannelSession R M) :=
  foldl (channel_step cfg) ∅ ops.
End Registry.

Arguments ChannelOp M : clear implicits.

(** ** The configured channels *)

Definition RATE_BURST : Z := 32.
Definition RATE_REFILL : Z := 200 * NANOS_PER_MILLI.
Definition LOG_MAX_COMMANDS : Z := 1024.
Definition LOG_MAX_BYTES : Z := 256 * 1024.

Definition LOBBY : SideChannelConfig LogLimits :=
  mkSideChannelConfig 2048 None RATE_BURST RATE_REFILL (mkLogLimits LOG_MAX_COMMANDS LOG_MAX_BYTES).
Definition CHAT : SideChannelConfig unit :=
  mkSideChannelConfig 256 (Some 256) 8 (500 * NANOS_PER_MILLI) tt.
Definition SKIN : SideChannelConfig SlotMapLimits :=
  mkSideChannelConfig 64 (Some 2048) 4 (10000 * NANOS_PER_MILLI) (mkSlotMapLimits 32).

Definition LobbySessions : Type := gmap Z (ChannelSession (OrderedLog LobbyCommand) LobbyCommand).
Definition ChatSessions : Type := gmap Z (ChannelSession (NoReplay GameChat) GameChat).
Definition SkinSessions : Type := gmap Z (ChannelSession (LatestPerSlot PlayerSkin) PlayerSkin).

Record SideChannels : Type := mkSideChannels { lobby : LobbySessions; chat : ChatSessions; skins : SkinSessions }.

Definition channels_register (c : SideChannels) (key slot : Z) : SideChannels :=
  mkSideChannels (register_member LOBBY (lobby c) key slot) (register_member CHAT (chat c) key slot)
    (register_member SKIN (skins c) key slot).
Definition channels_deregister (c : SideChannels) (key slot : Z) : SideChannels :=
  mkSideChannels (deregister_member (lobby c) key slot) (deregister_member (chat c) key slot)
    (deregister_member (skins c) key slot).
Definition channels_end (c : SideChannels) (key : Z) : SideChannels :=
  mkSideChannels (end_session (lobby c) key) (end_session (chat c) key) (end_session (skins c) key).

(** ** The ordered log *)

Section Log.
Context {M : Type} `{!SideChannelMessage M}.
Implicit Types (m : M) (l : OrderedLog M) (c : Chan M).

(** A message's fleet-wide identity, when it has one. *)
Definition identity m : option (Z * Z) := (fun s => (author m, s)) <$> origin_seq m.

Record log_inv (limits : LogLimits) l : Prop := {
  lg_len : Z.of_nat (length (log l)) <= max_messages limits;
  lg_bytes : log_bytes l = sumz retained_bytes (log l);
  lg_bytes_le : log_bytes l <= max_bytes limits;
  lg_accepted : forall a s, s ∈ default ∅ (accepted l !! a) <-> (a, s) ∈ omap identity (log l);
  lg_nodup : NoDup (omap identity (log l));
}.

(** The identity check is exact. *)
Lemma log_is_repeat_spec limits l m :
  log_inv limits l -> log_is_repeat l m = true <-> exists i, identity m = Some i /\ i ∈ omap identity (log l).
Proof.
  intros Hl. unfold log_is_repeat, identity. destruct (origin_seq m) as [s|]; cbn; last naive_solver.
  pose proof (lg_accepted _ _ Hl (author m) s) as Ha.
  destruct (accepted l !! author m) as [seqs|]; cbn in Ha; [rewrite bool_decide_eq_true|]; split.
  - intros H%Ha. eauto.
  - intros (i & [= <-] & H). by apply Ha.
  - done.
  - intros (i & [= <-] & H). by apply Ha, elem_of_empty in H.
Qed.

Lemma log_retain_spec limits l m :
  0 <= retained_bytes m -> max_bytes limits < usize_max -> log_inv limits l ->
  let r := log_retain l m limits in
  log_inv limits r.2 /\
  (if r.1 then log r.2 = log l ++ [m] /\ Z.of_nat (length (log l)) < max_messages limits
   else log r.2 = log l).
Proof.
  intros Hm Hmax Hl. unfold log_retain. destruct (log_is_repeat l m) eqn:Hrep; [done|].
  destruct (overflowed l) eqn:Hov; [done|]. destruct (_ || _) eqn:Hfull; cbn [fst snd log].
  { split; [|done]. by destruct Hl; split. }
  apply orb_false_iff in Hfull as [Hn%Z.leb_gt Hb%Z.ltb_ge]. split; [|done].
  assert (Hnew : identity m = None \/ exists i, identity m = Some i /\ i ∉ omap identity (log l)).
  { destruct (identity m) as [i|] eqn:Hi; [right|by left]. exists i. split; [done|]. intros Hin.
    enough (log_is_repeat l m = true) by congruence. rewrite (log_is_repeat_spec _ _ _ Hl). eauto. }
  destruct Hl as [Hlen Hbytes Hle Hacc Hnd]. split; cbn [log log_bytes accepted].
  - rewrite length_app; cbn. lia.
  - rewrite sumz_app, Hbytes. cbn. lia.
  - width_lia.
  - intros a s. rewrite omap_app, elem_of_app, <-Hacc. cbn. unfold identity in *.
    destruct (origin_seq m) as [q|]; cbn; last by rewrite elem_of_nil; naive_solver.
    rewrite list_elem_of_singleton. destruct (decide (a = author m)) as [->|Hne].
    + rewrite lookup_insert_eq. cbn. set_solver.
    + rewrite lookup_insert_ne by done. naive_solver.
  - rewrite omap_app. apply NoDup_app. split; [done|]. cbn. destruct (identity m) as [i|].
    + destruct Hnew as [|(i' & [= <-] & Hi)]; [done|]. split; [|apply NoDup_singleton]. set_solver.
    + split; [set_solver|constructor].
Qed.
End Log.

(** ** Members and the log *)

Section LobbyRuns.
Context {M : Type} `{!SideChannelMessage M}.
Implicit Types (m : M) (c : Chan M).

(** What a member must see of a log: everything it did not author. *)
Definition others (slot : Z) (ms : list M) : list M := filter (fun m => author m <> slot) ms.

Lemma others_app slot ms ms' : others slot (ms ++ ms') = others slot ms ++ others slot ms'.
Proof. apply filter_app. Qed.

Lemma others_length slot ms : (length (others slot ms) <= length ms)%nat.
Proof. apply length_filter. Qed.

Lemma sublist_omap {A B} (f : A -> option B) (l k : list A) : l `sublist_of` k -> omap f l `sublist_of` omap f k.
Proof. induction 1 as [|x l k _ IH|x l k _ IH]; cbn; [done|..]; destruct (f x); (by constructor) || done. Qed.

Lemma replay_into_all c joiner ms :
  rx_open c = true -> Z.of_nat (length (queued c) + length (others joiner ms)) <= capacity c ->
  replay_into c joiner ms = mkChan (capacity c) (queued c ++ others joiner ms) (received c) true.
Proof.
  revert c. induction ms as [|m ms IH]; intros c Ho Hcap; cbn [replay_into].
  { destruct c; cbn in *. subst. by rewrite app_nil_r. }
  unfold others in *. rewrite filter_cons in *. destruct (Z.eqb_spec (author m) joiner) as [He|He].
  - rewrite decide_False in * by lia. by apply IH.
  - rewrite decide_True in * by lia. cbn in Hcap. unfold try_send. rewrite Ho. cbn [negb].
    destruct (Z.leb_spec (capacity c) (Z.of_nat (length (queued c)))); [lia|].
    rewrite IH; cbn; [by rewrite <-app_assoc|done|]. rewrite length_app. cbn. lia.
Qed.

Record member_inv (cfg : SideChannelConfig LogLimits) (ms : list M) (slot : Z) c : Prop := {
  mb_capacity : capacity c = push_capacity cfg;
  mb_open : rx_open c = true -> stream c = others slot ms;
  mb_closed : stream c `prefix_of` others slot ms;
}.

Definition session_inv (cfg : SideChannelConfig LogLimits) (s : ChannelSession (OrderedLog M) M) : Prop :=
  log_inv (replay_limits cfg) (session_replay s) /\
  map_Forall (member_inv cfg (log (session_replay s))) (members s).

Context (cfg : SideChannelConfig LogLimits).
Hypothesis cfg_fits : max_messages (replay_limits cfg) <= push_capacity cfg.
Hypothesis cfg_log : 0 <= max_messages (replay_limits cfg).
Hypothesis cfg_bytes : 0 <= max_bytes (replay_limits cfg) < usize_max.

Lemma session_default_inv : session_inv cfg session_default.
Proof.
  split; [|apply map_Forall_empty]. split; cbn; try lia.
  - intros a s. rewrite lookup_empty. cbn. set_solver.
  - constructor.
Qed.

Lemma session_of_inv ss key : map_Forall (fun _ => session_inv cfg) ss -> session_inv cfg (session_of ss key).
Proof.
  intros H. unfold session_of. destruct (ss !! key) as [s|] eqn:Hs; [by apply (H key)|apply session_default_inv].
Qed.

Lemma member_recv ms slot c : member_inv cfg ms slot c -> member_inv cfg ms slot (chan_recv c).
Proof.
  intros [Hc Ho Hp]. unfold chan_recv. destruct (queued c) as [|m q] eqn:Hq; [done|].
  assert (stream c = received c ++ m :: q) as Hs by (unfold stream; by rewrite Hq).
  by split; cbn; [done|..]; unfold stream in *; cbn; rewrite <-app_assoc; cbn; rewrite <-Hq.
Qed.

(** A push never finds an open member's queue full: it holds a part of the
    log, and the log is below its own ceiling. *)
Lemma member_push ms slot c m :
  Z.of_nat (length ms) < max_messages (replay_limits cfg) -> member_inv cfg ms slot c ->
  member_inv cfg (ms ++ [m]) slot (if author m =? slot then c else (try_send c m).2).
Proof.
  intros Hlen [Hc Ho Hp]. destruct (Z.eqb_spec (author m) slot) as [He|He].
  { split; [done|..]; rewrite others_app; unfold others at 2;
      rewrite filter_cons, decide_False, filter_nil, app_nil_r by lia; done. }
  assert (others slot (ms ++ [m]) = others slot ms ++ [m]) as Hoth.
  { rewrite others_app. unfold others at 2. by rewrite filter_cons, decide_True, filter_nil by lia. }
  unfold try_send. destruct (rx_open c) eqn:Hopen; cbn [negb].
  - assert (Hq : (length (queued c) <= length ms)%nat).
    { etrans; [|apply (others_length slot)]. rewrite <-Ho by done. unfold stream. rewrite length_app. lia. }
    destruct (Z.leb_spec (capacity c) (Z.of_nat (length (queued c)))); [lia|].
    assert (received c ++ queued c ++ [m] = others slot (ms ++ [m])) as Hs.
    { rewrite Hoth, <-Ho by done. unfold stream. by rewrite app_assoc. }
    split; cbn; [done|intros _; done|]. unfold stream; cbn. by rewrite Hs.
  - split; cbn; [done|congruence|]. rewrite Hoth. by apply prefix_app_r.
Qed.

Lemma lobby_step_inv ss o :
  (forall key m, o = OpDeliver key m -> 0 <= retained_bytes m) ->
  map_Forall (fun _ => session_inv cfg) ss ->
  map_Forall (fun _ => session_inv cfg) (channel_step cfg ss o).
Proof.
  intros Hb Hss. destruct o as [key slot|key slot|key|key slot len now|key m|key slot|key slot];
    cbn [channel_step].
  - destruct (session_of_inv ss key Hss) as [Hlog Hms]. apply map_Forall_insert_2; [|done]. split; [done|].
    cbn. apply map_Forall_insert_2; [|done].
    pose proof (others_length slot (log (session_replay (session_of ss key)))).
    pose proof (lg_len _ _ Hlog). rewrite replay_into_all by (cbn; lia || done).
    by split; unfold stream; cbn.
  - unfold deregister_member. destruct (ss !! key) as [s|] eqn:Hs; [|done].
    destruct (Hss _ _ Hs) as [Hlog Hms]. apply map_Forall_insert_2; [|done]. split; [done|].
    cbn. by apply map_Forall_delete.
  - by apply map_Forall_delete.
  - destruct (session_of_inv ss key Hss) as [Hlog Hms]. unfold admit_message.
    destruct (oversize cfg len); cbn; by apply map_Forall_insert_2.
  - destruct (session_of_inv ss key Hss) as [Hlog Hms]. unfold deliver. cbn [RETAINS OrderedLog_policy negb andb].
    destruct (log_retain_spec (replay_limits cfg) _ m (Hb _ _ eq_refl) (proj2 cfg_bytes) Hlog) as [Hlog' Hr].
    cbn [retain OrderedLog_policy]. destruct (log_retain _ _ _) as [[|] l']; cbn in *;
      (apply map_Forall_insert_2; [|done]); (split; cbn; [done|]).
    + destruct Hr as [-> Hlt]. intros slot c. unfold fan_out. rewrite map_lookup_imap.
      destruct (members _ !! slot) as [c0|] eqn:Hc; cbn; [|done]. intros [= <-].
      apply member_push; [done|]. by apply (Hms slot).
    + by rewrite Hr.
  - unfold member_step. destruct (ss !! key) as [s|] eqn:Hs; [|done].
    destruct (Hss _ _ Hs) as [Hlog Hms]. apply map_Forall_insert_2; [|done]. split; [done|].
    intros slot' c. cbn. rewrite lookup_alter. case_decide as He; [subst|by apply Hms].
    destruct (members s !! slot') as [c0|] eqn:Hc; cbn; [|done]. intros [= <-].
    by apply member_recv, Hms.
  - unfold member_step. destruct (ss !! key) as [s|] eqn:Hs; [|done].
    destruct (Hss _ _ Hs) as [Hlog Hms]. apply map_Forall_insert_2; [|done]. split; [done|].
    intros slot' c. cbn. rewrite lookup_alter. case_decide as He; [subst|by apply Hms].
    destruct (members s !! slot') as [c0|] eqn:Hc; cbn; [|done]. intros [= <-].
    destruct (Hms _ _ Hc). by split.
Qed.

Lemma lobby_run_inv ops :
  Forall (fun o => forall key m, o = OpDeliver key m -> 0 <= retained_bytes m) ops ->
  map_Forall (fun _ => session_inv cfg) (channel_run cfg ops).
Proof.
  unfold channel_run. generalize (map_Forall_empty (fun _ : Z => session_inv cfg)).
  generalize (∅ : gmap Z (ChannelSession (OrderedLog M) M)). induction ops as [|o ops IH]; intros ss Hss Hops; [done|].
  apply Forall_cons in Hops as [Ho Hops]. cbn. apply IH; [|done]. by apply lobby_step_inv.
Qed.
End LobbyRuns.

(** ** What a step leaves alone *)

Section Frame.
Context {R M L : Type} `{!SideChannelMessage M} `{!ReplayPolicy R M L}.
Context (cfg : SideChannelConfig L) (key : Z).
Implicit Types (ss : gmap Z (ChannelSession R M)).

Lemma session_of_insert ss k s : session_of (<[k := s]> ss) key = if decide (k = key) then s else session_of ss key.
Proof. unfold session_of. rewrite lookup_insert. by case_decide. Qed.

Definition touches (o : ChannelOp M) : Prop :=
  match o with OpEnd k | OpOffer k _ _ _ | OpDeliver k _ => k = key | _ => False end.

(** Members coming, going, receiving and leaving, and every operation on
    another session, change neither what the session retains nor its rate
    limiters. *)
Lemma session_step_frame ss o :
  ~ touches o ->
  session_replay (session_of (channel_step cfg ss o) key) = session_replay (session_of ss key) /\
  limiters (session_of (channel_step cfg ss o) key) = limiters (session_of ss key).
Proof.
  intros Hn. assert (Hset : forall k s ms, ss !! k = Some s ->
    session_replay (session_of (<[k := set_members s ms]> ss) key) = session_replay (session_of ss key) /\
    limiters (session_of (<[k := set_members s ms]> ss) key) = limiters (session_of ss key)).
  { intros k s ms Hk. rewrite session_of_insert. case_decide; [subst|done]. unfold session_of. by rewrite Hk. }
  destruct o as [k s|k s|k|k s len now|k m|k s|k s]; cbn [channel_step touches] in *.
  - unfold register_member. rewrite session_of_insert. by case_decide; [subst|].
  - unfold deregister_member. destruct (ss !! k) eqn:Hx; [by apply Hset|done].
  - unfold end_session, session_of. by rewrite lookup_delete_ne.
  - unfold admit_message. by destruct (oversize cfg len); cbn [snd]; rewrite session_of_insert, decide_False.
  - unfold deliver. destruct (_ && _); [done|]. destruct (negb _); cbn [snd]; by rewrite session_of_insert, decide_False.
  - unfold member_step. destruct (ss !! k) eqn:Hx; [by apply Hset|done].
  - unfold member_step. destruct (ss !! k) eqn:Hx; [by apply Hset|done].
Qed.
End Frame.

(** ** The rate cap *)

Section RateCap.
Context {R M L : Type} `{!SideChannelMessage M} `{!ReplayPolicy R M L}.
Context (cfg : SideChannelConfig L) (key slot : Z).
Implicit Types (ss : gmap Z (ChannelSession R M)) (ops : list (ChannelOp M)).

(** The instants at which the slot's messages of an acceptable size are
    offered, and how many of its offers the registry lets through. *)
Definition offer_of (o : ChannelOp M) : option Z :=
  match o with
  | OpOffer k s len now => if bool_decide (k = key /\ s = slot) && negb (oversize cfg len) then Some now else None
  | _ => None
  end.

Definition let_through ss (o : ChannelOp M) : Z :=
  match o with
  | OpOffer k s len now =>
      if bool_decide (k = key /\ s = slot) && (admit_message cfg ss k s len now).1 then 1 else 0
  | _ => 0
  end.

Fixpoint admissions ss ops : Z :=
  match ops with
  | [] => 0
  | o :: ops => let_through ss o + admissions (channel_step cfg ss o) ops
  end.

Definition limiter ss : option TokenBucket := limiters (session_of ss key) !! slot.

Definition bucket_at (b : option TokenBucket) (now : Z) : TokenBucket :=
  default (new_at (rate_burst cfg) (rate_refill cfg) now) b.

(** Only an offer of the slot's own touches its bucket; members coming and
    going do not. *)
Lemma limiter_step ss o :
  o <> OpEnd key ->
  limiter (channel_step cfg ss o) =
    match offer_of o with
    | Some now => Some (try_take_at (bucket_at (limiter ss) now) now).2
    | None => limiter ss
    end /\
  let_through ss o =
    match offer_of o with
    | Some now => if (try_take_at (bucket_at (limiter ss) now) now).1 then 1 else 0
    | None => 0
    end.
Proof.
  intros Hend. unfold limiter.
  assert (Hframe : ~ touches key o ->
    limiters (session_of (channel_step cfg ss o) key) !! slot = limiters (session_of ss key) !! slot).
  { intros Hn. by rewrite (proj2 (session_step_frame cfg key ss o Hn)). }
  destruct o as [k s|k s|k|k s len now|k m|k s|k s]; cbn [offer_of let_through touches] in *; try by split; [apply Hframe; tauto|].
  - split; [apply Hframe; congruence|done].
  - destruct (decide (k = key)) as [->|Hk];
      [|rewrite (bool_decide_eq_false_2 (k = key /\ s = slot)) by naive_solver; by split; [apply Hframe|]].
    cbn [channel_step]. unfold admit_message. destruct (oversize cfg len); cbn [fst snd negb];
      rewrite session_of_insert, decide_True by done; [by rewrite !andb_false_r|].
    rewrite andb_true_r. cbn [limiters]. rewrite lookup_insert. destruct (decide (s = slot)) as [->|Hs].
    + by rewrite bool_decide_eq_true_2.
    + by rewrite bool_decide_eq_false_2 by naive_solver.
  - split; [|done]. destruct (decide (k = key)) as [->|Hk]; [|by apply Hframe].
    cbn [channel_step]. unfold deliver. destruct (_ && _); [done|].
    destruct (negb _); cbn [snd]; by rewrite session_of_insert, decide_True.
Qed.

(** A run's admissions are those of one bucket over the slot's offers. *)
Lemma admissions_take_all ss ops :
  OpEnd key ∉ ops ->
  admissions ss ops =
    match omap offer_of ops with
    | [] => 0
    | now :: nows => (take_all (bucket_at (limiter ss) now) (now :: nows)).1
    end.
Proof.
  revert ss. induction ops as [|o ops IH]; intros ss Hin; [done|]. apply not_elem_of_cons in Hin as [Ho Hin].
  destruct (limiter_step ss o) as [Hl Ha]; [congruence|]. cbn [admissions]. rewrite (IH _ Hin), Ha, Hl.
  change (omap offer_of (o :: ops)) with
    (match offer_of o with Some x => x :: omap offer_of ops | None => omap offer_of ops end).
  destruct (offer_of o) as [now|]; cbn [default]; [|done].
  cbn [take_all]. destruct (omap offer_of ops) as [|now' nows]; [done|]. reflexivity.
Qed.

(** At most the burst and one message per whole refill interval. *)
Lemma admissions_bound ops first last :
  is_u32 (rate_burst cfg) -> (exists m, 1 <= m /\ rate_refill cfg = m * NANOS_PER_MILLI) ->
  OpEnd key ∉ ops -> first <= last -> Forall (fun now => first <= now <= last) (omap offer_of ops) ->
  admissions ∅ ops <= rate_burst cfg + (last - first) / rate_refill cfg.
Proof.
  intros Hb Hr Hin Hfl Hnows. rewrite admissions_take_all by done.
  assert (Hpos : 0 < rate_refill cfg) by (destruct Hr as (m & ? & ->); unfold NANOS_PER_MILLI; lia).
  destruct (omap offer_of ops) as [|now nows].
  { pose proof (Z.div_pos (last - first) (rate_refill cfg)). unfold is_u32 in Hb. lia. }
  assert (Hl0 : limiter ∅ = None). { unfold limiter, session_of. rewrite lookup_empty. cbn. apply lookup_empty. }
  rewrite Hl0. cbn [bucket_at default]. set (b := new_at _ _ now).
  apply Forall_cons in Hnows as Hboth. destruct Hboth as [Hnow Hrest].
  destruct (token_bucket_bound b (now :: nows) last) as [Hmax _].
  - unfold is_u32 in Hb. split; cbn; [lia|unfold is_u32; lia|done].
  - cbn. lia.
  - eapply Forall_impl; [exact Hnows|]. cbn. lia.
  - etrans; [exact Hmax|]. cbn. apply Z.add_le_mono_l, Z.div_le_mono; lia.
Qed.
End RateCap.

(** ** The latest message per slot *)

Section Latest.
Context {M : Type} `{!SideChannelMessage M}.
Context (cfg : SideChannelConfig SlotMapLimits) (key : Z).
Implicit Types (ss : gmap Z (ChannelSession (LatestPerSlot M) M)) (ops : list (ChannelOp M)) (m : M).

(** The messages of the session the registry accepted, in order. *)
Fixpoint delivered ss ops : list M :=
  match ops with
  | [] => []
  | o :: ops =>
      match o with
      | OpDeliver k m => if bool_decide (k = key) && (deliver cfg ss k m).1 then [m] else []
      | _ => []
      end ++ delivered (channel_step cfg ss o) ops
  end.

Definition latest_of ss : gmap Z M := latest (session_replay (session_of ss key)).

Definition latest_inv (ms : list M) ss : Prop :=
  (forall a, latest_of ss !! a = last (filter (fun m => author m = a) ms)) /\
  Z.of_nat (size (latest_of ss)) <= max_slots (replay_limits cfg).

(** The session's retained state as a step leaves it. *)
Lemma latest_of_step ss o :
  o <> OpEnd key ->
  latest_of (channel_step cfg ss o) =
    match o with
    | OpDeliver k m =>
        if bool_decide (k = key)
        then latest (latest_retain (session_replay (session_of ss key)) m (replay_limits cfg)).2
        else latest_of ss
    | _ => latest_of ss
    end.
Proof.
  intros Hend. unfold latest_of.
  assert (Hframe : ~ touches key o -> latest (session_replay (session_of (channel_step cfg ss o) key)) =
                                      latest (session_replay (session_of ss key))).
  { intros Hn. by rewrite (proj1 (session_step_frame cfg key ss o Hn)). }
  destruct o as [k s|k s|k|k s len now|k m|k s|k s]; cbn [touches] in *; try by (apply Hframe; tauto).
  - apply Hframe. congruence.
  - destruct (decide (k = key)) as [->|Hk]; [|by apply Hframe].
    cbn [channel_step]. unfold admit_message. destruct (oversize cfg len); cbn [snd];
      by rewrite session_of_insert, decide_True.
  - destruct (decide (k = key)) as [->|Hk];
      [rewrite bool_decide_eq_true_2 by done|rewrite bool_decide_eq_false_2 by done; by apply Hframe].
    cbn [channel_step]. unfold deliver. cbn [RETAINS retain LatestPerSlot_policy negb andb].
    destruct (latest_retain _ _ _) as [[|] r]; cbn [fst snd negb]; by rewrite session_of_insert, decide_True.
Qed.

(** Retaining a message that names a slot replaces that slot's and no other's. *)
Lemma latest_retain_spec l m :
  Z.of_nat (size (latest l)) <= max_slots (replay_limits cfg) ->
  let r := latest_retain l m (replay_limits cfg) in
  latest r.2 = (if r.1 then <[author m := m]> (latest l) else latest l) /\
  Z.of_nat (size (latest r.2)) <= max_slots (replay_limits cfg).
Proof.
  intros Hsz. unfold latest_retain. destruct (u8_try_from (author m)) as [a|] eqn:Ha; [|done].
  apply u8_try_from_Some in Ha as [-> _]. destruct (_ && _) eqn:Hfull; cbn [fst snd latest]; [done|].
  split; [done|]. rewrite map_size_insert. apply andb_false_iff in Hfull.
  destruct (latest l !! author m) as [x|] eqn:Hx; [done|].
  destruct Hfull as [Hf|Hf]; [by rewrite bool_decide_eq_true_2 in Hf|]. apply Z.leb_gt in Hf. lia.
Qed.

Lemma latest_step_inv ss o ms :
  o <> OpEnd key -> latest_inv ms ss -> latest_inv (ms ++ delivered ss [o]) (channel_step cfg ss o).
Proof.
  intros Hend [Hlast Hsz]. unfold latest_inv. rewrite (latest_of_step _ _ Hend). cbn [delivered]. rewrite app_nil_r.
  destruct o as [k s|k s|k|k s len now|k m|k s|k s]; try by rewrite app_nil_r.
  destruct (decide (k = key)) as [->|Hk];
    [rewrite bool_decide_eq_true_2 by done|rewrite bool_decide_eq_false_2 by done; by rewrite app_nil_r].
  destruct (latest_retain_spec (session_replay (session_of ss key)) m Hsz) as [Heq Hsz'].
  unfold deliver. cbn [RETAINS retain LatestPerSlot_policy negb andb].
  destruct (latest_retain _ _ _) as [[|] r]; cbn [fst snd negb] in *; rewrite Heq in *; [|by rewrite app_nil_r].
  split; [|done]. intros a. rewrite filter_app, filter_cons, filter_nil.
  destruct (decide (author m = a)) as [<-|Hne].
  - by rewrite lookup_insert_eq, last_snoc.
  - by rewrite lookup_insert_ne, app_nil_r.
Qed.

Lemma latest_run_inv ops :
  0 <= max_slots (replay_limits cfg) -> OpEnd key ∉ ops -> latest_inv (delivered ∅ ops) (channel_run cfg ops).
Proof.
  intros Hmax. unfold channel_run.
  enough (H : forall ss ms, latest_inv ms ss -> OpEnd key ∉ ops ->
            latest_inv (ms ++ delivered ss ops) (foldl (channel_step cfg) ss ops)).
  { intros Hin. apply (H ∅ []); [|done]. unfold latest_inv, latest_of, session_of. rewrite lookup_empty. cbn.
    split; [intros a; apply lookup_empty|]. rewrite map_size_empty. lia. }
  induction ops as [|o ops IH]; intros ss ms Hi Hin; [by rewrite app_nil_r|].
  apply not_elem_of_cons in Hin as [Ho Hin]. cbn [foldl].
  specialize (IH (channel_step cfg ss o) (ms ++ delivered ss [o])).
  cbn [delivered] in *. rewrite app_nil_r in IH. rewrite app_assoc. apply IH; [|done].
  pose proof (latest_step_inv ss o ms) as Hs. cbn [delivered] in Hs. rewrite app_nil_r in Hs. by apply Hs.
Qed.
End Latest.

(** ** Properties *)

(** The lobby channel's exactly-once handoff, for every interleaving of
    registrations, departures, deliveries, receipts and session ends: each
    connected member's stream, whenever it joined, is the session's whole log
    in order less the commands it authored, no identified command occurs in it
    twice, no push is ever dropped on a full queue, and the log stays within
    its two ceilings. *)
Theorem lobby_members_agree (ops : list (ChannelOp LobbyCommand)) (key : Z)
    (s : ChannelSession (OrderedLog LobbyCommand) LobbyCommand) :
  channel_run LOBBY ops !! key = Some s ->
  (forall slot c, members s !! slot = Some c -> rx_open c = true ->
     stream c = others slot (log (session_replay s)) /\ NoDup (omap identity (stream c)) /\
     Z.of_nat (length (stream c)) < push_capacity LOBBY) /\
  Z.of_nat (length (log (session_replay s))) <= LOG_MAX_COMMANDS /\
  sumz retained_bytes (log (session_replay s)) <= LOG_MAX_BYTES.
Proof.
  intros Hs.
  assert (Hrun : map_Forall (fun _ => session_inv LOBBY) (channel_run LOBBY ops)).
  { apply lobby_run_inv; [done|done|done|]. apply Forall_true. intros o k m _. cbn. lia. }
  destruct (Hrun _ _ Hs) as [[Hlen Hb Hble _ Hnd] Hms]. cbn in *. split; [|unfold LOG_MAX_COMMANDS, LOG_MAX_BYTES in *; lia].
  intros slot c Hc Ho. destruct (Hms _ _ Hc) as [_ Hst _]. rewrite (Hst Ho). split; [done|]. split.
  - by eapply sublist_NoDup, sublist_omap, sublist_filter.
  - pose proof (others_length slot (log (session_replay s))). unfold LOG_MAX_COMMANDS in *. lia.
Qed.

(** The per-slot rate cap survives reconnects: over any run in which the
    session does not end, however often the slot registers and deregisters,
    its messages that pass admission are at most the burst plus one per whole
    refill interval of the span in which it offers them. *)
Theorem rate_cap_survives_reconnects (ops : list (ChannelOp LobbyCommand)) (key slot first last : Z) :
  OpEnd key ∉ ops -> first <= last ->
  Forall (fun now => first <= now <= last) (omap (offer_of LOBBY key slot) ops) ->
  admissions LOBBY key slot (∅ : LobbySessions) ops <= RATE_BURST + (last - first) / RATE_REFILL.
Proof.
  intros Hin Hfl Hnows. apply (admissions_bound LOBBY key slot ops first last); [|by exists 200|done..].
  cbn. unfold RATE_BURST. width_lia.
Qed.

(** A member that joins or reconnects holds every other member's current
    skin: whatever was delivered while the session lived, the channel it is
    handed carries, for each other authoring slot, exactly the last blob the
    relay accepted from it, once, and none of its own. *)
Theorem skin_joiner_current (ops : list (ChannelOp PlayerSkin)) (key slot : Z) :
  OpEnd key ∉ ops ->
  exists c, members (session_of (register_member SKIN (channel_run SKIN ops) key slot) key) !! slot = Some c /\
    (forall m, m ∈ stream c <->
       author m <> slot /\ last (filter (fun m' => author m' = author m) (delivered SKIN key ∅ ops)) = Some m) /\
    NoDup (author <$> stream c).
Proof.
  intros Hin. destruct (latest_run_inv SKIN key ops ltac:(cbn; lia) Hin) as [Hlast Hsz]. unfold latest_of in *.
  set (ss := channel_run SKIN ops) in *. set (l := session_replay (session_of ss key)) in *.
  assert (Hkeys : forall a m, latest l !! a = Some m -> author m = a).
  { intros a m Hm. rewrite Hlast in Hm. apply last_Some_elem_of, list_elem_of_filter in Hm. by destruct Hm. }
  unfold register_member. rewrite session_of_insert, decide_True by done. cbn [members set_members].
  rewrite lookup_insert_eq. eexists. split; [done|]. cbn [replay LatestPerSlot_policy]. fold l.
  assert (Hall : (length ((map_to_list (latest l)).*2) <= 32)%nat).
  { rewrite length_fmap, length_map_to_list. cbn in Hsz. lia. }
  pose proof (others_length slot ((map_to_list (latest l)).*2)) as Hoth.
  rewrite replay_into_all by (cbn; lia || done). unfold stream. cbn [received queued app]. split.
  - intros m. unfold others. rewrite list_elem_of_filter, <-Hlast. apply and_iff_compat_l.
    rewrite list_elem_of_fmap. split.
    + intros ([a m'] & -> & Hm%elem_of_map_to_list). cbn [snd]. by rewrite (Hkeys _ _ Hm).
    + intros Hm. exists (author m, m). split; [done|]. by apply elem_of_map_to_list.
  - eapply sublist_NoDup; [|apply fmap_sublist, sublist_filter].
    rewrite <-list_fmap_compose. rewrite (list_fmap_ext _ fst).
    + apply NoDup_fst_map_to_list.
    + intros i [a m] Hm%list_elem_of_lookup_2%elem_of_map_to_list. cbn. by apply Hkeys.
Qed.

(** ** Witnesses *)

Definition demo_command (s q : Z) : LobbyCommand := mkLobbyCommand s [s; q] (Some q).

(** Slot 1 registers between two commands of slot 0, and a re-send is refused. *)
Definition demo_lobby : list (ChannelOp LobbyCommand) :=
  [OpRegister 7 0; OpDeliver 7 (demo_command 0 0); OpRegister 7 1; OpDeliver 7 (demo_command 0 1);
   OpRecv 7 1; OpDeliver 7 (demo_command 0 0); OpDeliver 7 (demo_command 1 0)].

Lemma lobby_members_agree_witness :
  exists c, rx_open c = true /\ stream c = [demo_command 0 0; demo_command 0 1] /\ NoDup (omap identity (stream c)).
Proof.
  destruct (channel_run LOBBY demo_lobby !! 7) as [s|] eqn:Hs; [|by vm_compute in Hs].
  destruct (lobby_members_agree demo_lobby 7 s Hs) as [Hm _].
  vm_compute in Hs. injection Hs as Hs. subst s.
  eexists. split; [|split; [|apply (Hm 1); reflexivity]]; reflexivity.
Defined.

Definition demo_offers : list (ChannelOp LobbyCommand) :=
  [OpRegister 7 1; OpOffer 7 1 2 0; OpDeregister 7 1; OpRegister 7 1; OpOffer 7 1 2 100].

Lemma rate_cap_survives_reconnects_witness :
  admissions LOBBY 7 1 (∅ : LobbySessions) demo_offers = 2 /\
  admissions LOBBY 7 1 (∅ : LobbySessions) demo_offers <= RATE_BURST + (100 - 0) / RATE_REFILL.
Proof.
  split; [vm_compute; reflexivity|]. apply (rate_cap_survives_reconnects demo_offers 7 1 0 100).
  - unfold demo_offers. rewrite !not_elem_of_cons. repeat split; [discriminate..|apply not_elem_of_nil].
  - lia.
  - vm_compute. repeat constructor; discriminate.
Defined.

Definition demo_skins : list (ChannelOp PlayerSkin) :=
  [OpDeliver 7 (mkPlayerSkin 0 [1]); OpDeliver 7 (mkPlayerSkin 2 [9]); OpDeliver 7 (mkPlayerSkin 0 [2])].

Lemma skin_joiner_current_witness :
  exists c, members (session_of (register_member SKIN (channel_run SKIN demo_skins) 7 2) 7) !! 2 = Some c /\
    mkPlayerSkin 0 [2] ∈ stream c.
Proof.
  destruct (skin_joiner_current demo_skins 7 2) as (c & Hc & Hin & _).
  - unfold demo_skins. rewrite !not_elem_of_cons. repeat split; [discriminate..|apply not_elem_of_nil].
  - exists c. split; [exact Hc|]. apply Hin. split; [discriminate|]. reflexivity.
Defined.
