(* ===== verification/Lobby.v ===== *)
(** * Lobby commands across reconnects ([client/src/driver/lobby.rs])

    What a client authored is kept whole and written again on every control
    stream, each write paid for by one pacer; what others authored is handed to
    the game once.  The limits
    of the relay are those of the lobby channel ([proto/src/lobby.rs]).  Instants
    and durations are nanoseconds. *)

From Stdlib Require Import ZArith Lia.
From stdpp Require Import gmap sorting list.
From S2P Require Import Prelude.
From S2P Require Import RateLimit.
From S2P Require Import SideChannel.

Open Scope Z_scope.

Definition PACE_BURST : Z := RATE_BURST / 2.
Definition PACE_REFILL : Z := RATE_REFILL * 2.

(** ** The pacer *)

Record LobbyPacer : Type := mkLobbyPacer { pace_tokens : Z; pace_last : Z }.

Definition new_pacer (now : Z) : LobbyPacer := mkLobbyPacer PACE_BURST now.

Definition refill (p : LobbyPacer) (now : Z) : LobbyPacer :=
  let elapsed := saturating_sub now (pace_last p) in
  let whole := u32_try_from_or (elapsed / PACE_REFILL) u32_max in
  let tokens := Z.min (saturating_add u32_max (pace_tokens p) whole) PACE_BURST in
  mkLobbyPacer tokens (if tokens =? PACE_BURST then now else pace_last p + PACE_REFILL * whole).

Definition try_take (p : LobbyPacer) (now : Z) : bool * LobbyPacer :=
  let p := refill p now in
  if pace_tokens p =? 0 then (false, p) else (true, mkLobbyPacer (pace_tokens p - 1) (pace_last p)).

Definition next_token_at (p : LobbyPacer) : Z := if 0 <? pace_tokens p then pace_last p else pace_last p + PACE_REFILL.

(** ** What this client authored *)

Record LobbyOutbox : Type := mkLobbyOutbox { lo_commands : list LobbyCommand; lo_bytes : Z; lo_pacer : LobbyPacer }.

Definition new_outbox (now : Z) : LobbyOutbox := mkLobbyOutbox [] 0 (new_pacer now).

Definition author_command (o : LobbyOutbox) (bytes : list Z) : bool * LobbyOutbox :=
  if (LOG_MAX_COMMANDS <=? Z.of_nat (length (lo_commands o))) ||
     (LOG_MAX_BYTES <? saturating_add usize_max (lo_bytes o) (Z.of_nat (length bytes)))
  then (false, o)
  else (true, mkLobbyOutbox (lo_commands o ++ [mkLobbyCommand 0 bytes (Some (Z.of_nat (length (lo_commands o))))])
                (lo_bytes o + Z.of_nat (length bytes)) (lo_pacer o)).

Definition next_due (o : LobbyOutbox) (sent : nat) : option Z :=
  if (sent <? length (lo_commands o))%nat then Some (next_token_at (lo_pacer o)) else None.

(** The writing loop from the [sent]-th command on; [writes] answers each write
    given what this stream carried before it.  What was written, how many this
    stream has carried, the pacer, and whether every write succeeded. *)
Fixpoint send_loop (writes : nat -> bool) (now : Z) (rest : list LobbyCommand) (p : LobbyPacer) (sent : nat) : list LobbyCommand * nat * LobbyPacer * bool :=
  match rest with
  | [] => ([], sent, p, true)
  | command :: rest =>
      let '(taken, p) := try_take p now in
      if taken then
        if writes sent then
          let '(out, sent', p', ok) := send_loop writes now rest p (S sent) in (command :: out, sent', p', ok)
        else ([], sent, p, false)
      else ([], sent, p, true)
  end.

Definition send_due (writes : nat -> bool) (now : Z) (o : LobbyOutbox) (sent : nat) : list LobbyCommand * nat * LobbyOutbox * bool :=
  let '(out, sent', p, ok) := send_loop writes now (drop sent (lo_commands o)) (lo_pacer o) sent in
  (out, sent', mkLobbyOutbox (lo_commands o) (lo_bytes o) p, ok).

(** ** What others authored *)

Definition LobbyReceipts : Type := gmap Z (gset Z).

Definition admit_receipt (r : LobbyReceipts) (who : Z) (seq : option Z) : bool * LobbyReceipts :=
  match seq with
  | None => (true, r)
  | Some q =>
      let seen := default ∅ (r !! who) in
      (bool_decide (q ∉ seen), <[who := {[q]} ∪ seen]> r)
  end.

(** A command that arrives names its author in a [u8] or is dropped; what is
    new is handed to the game. *)
Definition on_lobby_in (r : LobbyReceipts) (c : LobbyCommand) : option (Z * list Z) * LobbyReceipts :=
  if lc_slot c <=? u8_max then
    let '(fresh, r) := admit_receipt r (lc_slot c) (lc_seq c) in
    (if fresh then Some (lc_slot c, lc_payload c) else None, r)
  else (None, r).

(** ** The driver's steps *)

(** The outbox with how many of its commands the present stream has carried. *)
Record LobbySide : Type := mkLobbySide { ls_outbox : LobbyOutbox; lobby_sent : nat }.

Definition send_due_lobby (writes : nat -> bool) (now : Z) (d : LobbySide) : list LobbyCommand * LobbySide * bool :=
  let '(out, sent, o, ok) := send_due writes now (ls_outbox d) (lobby_sent d) in (out, mkLobbySide o sent, ok).

Definition on_lobby_out (writes : nat -> bool) (now : Z) (bytes : list Z) (d : LobbySide) : list LobbyCommand * LobbySide * bool :=
  let '(kept, o) := author_command (ls_outbox d) bytes in
  let d := mkLobbySide o (lobby_sent d) in
  if kept then send_due_lobby writes now d else ([], d, true).

(** A control stream comes up and carries the history again from its start;
    the game authors a command; the pacer's instant has come. *)
Inductive LobbyStep : Type :=
| StreamUp (now : Z) (writes : nat -> bool)
| Authored (now : Z) (bytes : list Z) (writes : nat -> bool)
| LobbyDue (now : Z) (writes : nat -> bool).

Definition step_now (s : LobbyStep) : Z := match s with StreamUp now _ | Authored now _ _ | LobbyDue now _ => now end.

Definition lobby_step (d : LobbySide) (s : LobbyStep) : list LobbyCommand * LobbySide * bool :=
  match s with
  | StreamUp now writes => send_due_lobby writes now (mkLobbySide (ls_outbox d) 0)
  | Authored now bytes writes => on_lobby_out writes now bytes d
  | LobbyDue now writes => send_due_lobby writes now d
  end.

(** Everything written, with its instant. *)
Fixpoint lobby_run (d : LobbySide) (steps : list LobbyStep) : list (Z * LobbyCommand) * LobbySide :=
  match steps with
  | [] => ([], d)
  | s :: steps =>
      let '(out, d, _) := lobby_step d s in
      let '(later, d) := lobby_run d steps in (map (pair (step_now s)) out ++ later, d)
  end.

Definition new_side (now : Z) : LobbySide := mkLobbySide (new_outbox now) 0.

(** ** Pacing: what a stretch of writes can hold *)

Record pacer_ok (p : LobbyPacer) : Prop := mkPacerOk {
  po_tokens : 0 <= pace_tokens p <= PACE_BURST;
}.

Lemma pace_values : PACE_BURST = 16 /\ PACE_REFILL = 400000000 /\ u32_max = 4294967295.
Proof. done. Qed.

(** The pacer's credit: tokens and the time to the next one, together. *)
Definition credit (p : LobbyPacer) (now : Z) : Z := pace_tokens p * PACE_REFILL + (now - pace_last p).

Lemma refill_spec p now : pacer_ok p -> pace_last p <= now ->
  pacer_ok (refill p now) /\ pace_last p <= pace_last (refill p now) <= now /\ now - pace_last (refill p now) < PACE_REFILL /\
  credit (refill p now) now <= credit p now /\
  (pace_tokens (refill p now) = PACE_BURST -> pace_last (refill p now) = now).
Proof.
  intros [Ht] Hl. destruct pace_values as (EB & ER & EU). unfold refill, saturating_sub. rewrite Z.max_r by lia. set (e := now - pace_last p) in *.
  pose proof (Z.mul_div_le e PACE_REFILL ltac:(lia)) as Hd. pose proof (Z.mod_pos_bound e PACE_REFILL ltac:(lia)) as Hm. pose proof (Z.div_mod e PACE_REFILL ltac:(lia)) as Hdm.
  assert (Hq : 0 <= e / PACE_REFILL) by (apply Z.div_pos; unfold e; lia). unfold u32_try_from_or, saturating_add, credit. cbn [pace_tokens pace_last].
  set (q := e / PACE_REFILL) in *. destruct (Z.leb_spec q u32_max) as [Hle|Hgt].
  - destruct (Z.eqb_spec (Z.min (Z.min u32_max (pace_tokens p + q)) PACE_BURST) PACE_BURST) as [Ef|Ef].
    + split; [split; cbn [pace_tokens pace_last]; lia|]. split; [lia|]. split; [lia|]. split; [|done]. fold e. rewrite Ef. nia.
    + split; [split; cbn [pace_tokens pace_last]; lia|]. split; [lia|]. split; [lia|]. split; [|done]. fold e. nia.
  - assert (Ef : Z.min (Z.min u32_max (pace_tokens p + u32_max)) PACE_BURST = PACE_BURST) by lia. rewrite Ef, Z.eqb_refl. split; [split; cbn [pace_tokens pace_last]; lia|]. split; [lia|]. split; [lia|]. split; [|done]. fold e. nia.
Qed.

(** Requests in a row; the times of those granted. *)
Fixpoint granted (p : LobbyPacer) (nows : list Z) : list Z * LobbyPacer :=
  match nows with
  | [] => ([], p)
  | now :: nows =>
      let '(b, p) := try_take p now in
      let '(out, p) := granted p nows in ((if b then [now] else []) ++ out, p)
  end.

Fixpoint climbing (last : Z) (l : list Z) : Prop := match l with [] => True | x :: l => last <= x /\ climbing x l end.

Lemma climbing_weaken a b l : a <= b -> climbing b l -> climbing a l.
Proof. destruct l; [done|]. cbn. intros ? [? ?]. split; [lia|done]. Qed.

(** Everything granted from now on up to [t] is paid for by the credit. *)
Lemma granted_budget nows : forall p last t, pacer_ok p -> pace_last p <= last -> climbing last nows -> Forall (fun x => x <= t) nows -> last <= t ->
  Z.of_nat (length (granted p nows).1) * PACE_REFILL <= credit p t.
Proof.
  destruct pace_values as (EB & ER & _). induction nows as [|now nows IH]; intros p last t Hp Hl Hc Hf Ht; cbn [granted].
  { destruct Hp as [Hp]. unfold credit. cbn [fst length]. nia. }
  cbn in Hc. destruct Hc as [Hc1 Hc2]. apply Forall_cons in Hf as [Hf1 Hf2]. destruct (refill_spec p now Hp ltac:(lia)) as (R1 & R2 & R3 & R4 & _). unfold try_take.
  destruct (Z.eqb_spec (pace_tokens (refill p now)) 0) as [Ez|Ez].
  - specialize (IH (refill p now) now t R1 ltac:(lia) Hc2 Hf2 ltac:(lia)). destruct (granted (refill p now) nows) as [out p']. cbn [fst app length] in *. unfold credit in *. lia.
  - set (p1 := mkLobbyPacer (pace_tokens (refill p now) - 1) (pace_last (refill p now))). assert (H1 : pacer_ok p1) by (destruct R1; split; unfold p1; cbn [pace_tokens]; lia).
    specialize (IH p1 now t H1 ltac:(unfold p1; cbn [pace_last]; lia) Hc2 Hf2 ltac:(lia)). destruct (granted p1 nows) as [out p']. cbn [fst app length] in *. rewrite Nat2Z.inj_succ. unfold credit in *. unfold p1 in IH. cbn [pace_tokens pace_last] in IH. lia.
Qed.

(** [paced l]: every stretch of [l] is within the burst and the rate. *)
Definition paced (l : list Z) : Prop := forall l1 a m b l2, l = l1 ++ a :: m ++ b :: l2 -> (Z.of_nat (length m) + 2 - PACE_BURST) * PACE_REFILL <= b - a.

Lemma granted_climbing nows : forall p last, climbing last nows -> climbing last (granted p nows).1 /\ Forall (fun x => x ∈ nows) (granted p nows).1.
Proof.
  induction nows as [|now nows IH]; intros p last Hc; cbn [granted]; [done|]. destruct Hc as [H1 H2]. destruct (try_take p now) as [b p1]. destruct (IH p1 now H2) as [K1 K2].
  destruct (granted p1 nows) as [out p2]. cbn in *. split.
  - destruct b; cbn; [done|]. by eapply climbing_weaken.
  - apply Forall_app. split; [destruct b; [apply Forall_singleton; by left|constructor]|]. eapply Forall_impl; [exact K2|]. intros x Hx. by right.
Qed.

Lemma granted_split nows : forall p last l1 a l2, pacer_ok p -> pace_last p <= last -> climbing last nows -> (granted p nows).1 = l1 ++ a :: l2 ->
  exists p1 rest, pacer_ok p1 /\ pace_last p1 <= a /\ climbing a rest /\ (granted p1 rest).1 = l2 /\ credit p1 a <= (PACE_BURST - 1) * PACE_REFILL.
Proof.
  destruct pace_values as (EB & ER & _). induction nows as [|now nows IH]; intros p last l1 a l2 Hp Hl Hc; cbn [granted]; [by destruct l1|].
  destruct Hc as [H1 H2]. destruct (refill_spec p now Hp ltac:(lia)) as (R1 & R2 & R3 & R4 & R5). unfold try_take. destruct (Z.eqb_spec (pace_tokens (refill p now)) 0) as [Ez|Ez].
  - pose proof (IH (refill p now) now l1 a l2 R1 ltac:(lia) H2) as K. destruct (granted (refill p now) nows) as [out p']. exact K.
  - set (p1 := mkLobbyPacer (pace_tokens (refill p now) - 1) (pace_last (refill p now))). assert (Hp1 : pacer_ok p1) by (destruct R1; split; unfold p1; cbn [pace_tokens]; lia).
    destruct l1 as [|y l1].
    + intros E. exists p1, nows. destruct (granted p1 nows) as [out p']. cbn in E. injection E as <- <-. split; [done|]. split; [unfold p1; cbn [pace_last]; lia|]. split; [done|]. split; [done|].
      unfold credit, p1. cbn [pace_tokens pace_last]. destruct R1 as [R1]. destruct (decide (pace_tokens (refill p now) = PACE_BURST)) as [Ef|Ef]; [rewrite (R5 Ef); nia|nia].
    + pose proof (IH p1 now l1 a l2 Hp1 ltac:(unfold p1; cbn [pace_last]; lia) H2) as K. destruct (granted p1 nows) as [out p']. cbn. intros [= -> E]. by apply K.
Qed.

Lemma granted_paced p last nows : pacer_ok p -> pace_last p <= last -> climbing last nows -> paced (granted p nows).1.
Proof.
  intros Hp Hl Hc l1 a m b l2 E. destruct (granted_split nows p last l1 a (m ++ b :: l2) Hp Hl Hc E) as (p1 & rest & Hp1 & Hl1 & Hc1 & E1 & Hcredit).
  destruct pace_values as (EB & ER & _).
  assert (Hpre : exists rest', climbing a rest' /\ Forall (fun x => x <= b) rest' /\ (length m + 1 <= length (granted p1 rest').1)%nat).
  { clear -E1 Hc1. revert p1 a m E1 Hc1. induction rest as [|x rest IH]; intros p1 a m; cbn [granted]; [by destruct m|]. destruct (try_take p1 x) as [t p2] eqn:Et. intros E1 [Hx Hc].
    destruct t.
    - destruct m as [|y m].
      + destruct (granted p2 rest) as [out p3]. cbn in E1. injection E1 as -> ->. exists [b]. cbn. rewrite Et. cbn. split; [done|]. split; [by apply Forall_singleton|lia].
      + destruct (granted p2 rest) as [out p3] eqn:Eg. cbn in E1. injection E1 as -> ->.
        destruct (IH p2 y m ltac:(by rewrite Eg) Hc) as (rest' & K1 & K2 & K3). exists (y :: rest'). cbn [granted]. rewrite Et. destruct (granted p2 rest') as [out' p4]. cbn in *.
        split; [done|]. split; [|lia]. constructor; [|done].
        assert (Hb : climbing y (m ++ b :: l2)) by (pose proof (proj1 (granted_climbing rest p2 y Hc)) as K; by rewrite Eg in K).
        clear -Hb. revert y Hb. induction m as [|z m IHm]; intros y; cbn; [by intros [? _]|]. intros [? Hb]. specialize (IHm z Hb). lia.
    - destruct (granted p2 rest) as [out p3] eqn:Eg. cbn in E1. destruct (IH p2 x m ltac:(by rewrite Eg) Hc) as (rest' & K1 & K2 & K3). exists (x :: rest'). cbn [granted]. rewrite Et. destruct (granted p2 rest') as [out' p4]. cbn in *.
      split; [done|]. split; [|done]. constructor; [|done]. assert (Hb : climbing x (m ++ b :: l2)) by (pose proof (proj1 (granted_climbing rest p2 x Hc)) as K; rewrite Eg in K; by rewrite <- E1).
      clear -Hb. revert x Hb. induction m as [|z m IHm]; intros x; cbn; [by intros [? _]|]. intros [? Hb]. specialize (IHm z Hb). lia. }
  destruct Hpre as (rest' & K1 & K2 & K3).
  assert (Hab : a <= b).
  { destruct rest' as [|z r]; [cbn in K3; lia|]. apply Forall_cons in K2 as [K2 _]. cbn in K1. lia. }
  pose proof (granted_budget rest' p1 a b Hp1 Hl1 K1 K2 Hab) as Hbud. unfold credit in *. nia.
Qed.

(** ** The relay admits a paced stream *)

Lemma rate_values : RATE_BURST = 32 /\ RATE_REFILL = 200000000 /\ PACE_REFILL = 2 * RATE_REFILL /\ PACE_BURST = 16.
Proof. done. Qed.

Definition lobby_bucket (t : TokenBucket) : Prop := 0 <= tokens t <= RATE_BURST /\ burst t = RATE_BURST /\ refill_interval t = RATE_REFILL.

(** One request at the relay's bucket. *)
Lemma relay_take t now : lobby_bucket t -> last_refill t <= now ->
  let r := try_take_at t now in
  lobby_bucket r.2 /\ last_refill r.2 <= now /\
  if r.1
  then tokens r.2 * RATE_REFILL - last_refill r.2 >= tokens t * RATE_REFILL - last_refill t - RATE_REFILL \/
       tokens r.2 = RATE_BURST - 1
  else tokens t = 0 /\ now - last_refill t < RATE_REFILL.
Proof.
  intros (Ht & Hb & Hi) Hl. destruct rate_values as (EB & ER & _). cbv zeta. unfold try_take_at. cbv zeta. rewrite Hi, Hb. unfold saturating_sub. rewrite Z.max_r by lia. set (e := now - last_refill t).
  assert (Hint : as_millis e / Z.max 1 (as_millis RATE_REFILL) = e / RATE_REFILL) by (apply (refill_intervals e 200); unfold e; lia). rewrite Hint.
  set (k := e / RATE_REFILL). assert (He : 0 <= e) by (unfold e; lia). pose proof (Z.div_mod e RATE_REFILL ltac:(lia)) as Hdm. pose proof (Z.mod_pos_bound e RATE_REFILL ltac:(lia)) as Hm. fold k in Hdm.
  destruct (Z.ltb_spec 0 k) as [Hk|Hk].
  - set (n := u32_try_from_or k RATE_BURST). assert (Hn : 0 < n <= k) by (unfold n, u32_try_from_or; destruct (Z.leb_spec k u32_max); unfold u32_max in *; lia).
    cbn [tokens last_refill burst refill_interval]. unfold saturating_add. rewrite Z.min_comm, <- Z.min_assoc. set (tk := Z.min u32_max (Z.min (tokens t + n) RATE_BURST)).
    assert (Htk : tk = Z.min (tokens t + n) RATE_BURST) by (unfold tk, u32_max; lia). destruct (Z.eqb_spec tk 0) as [Ez|Ez]; [lia|]. cbn [fst snd tokens last_refill burst refill_interval].
    split; [split; cbn [tokens]; [lia|done]|]. split; [unfold e in *; nia|]. destruct (Z.le_gt_cases (tokens t + n) RATE_BURST); [left; nia|right; lia].
  - assert (k = 0) by (apply Z.le_antisymm; [done|]; apply Z.div_pos; lia). destruct (Z.eqb_spec (tokens t) 0) as [Ez|Ez]; cbn [fst snd tokens last_refill burst refill_interval].
    + split; [done|]. split; [done|]. split; [done|]. unfold e in *. lia.
    + split; [split; cbn [tokens]; [lia|done]|]. split; [done|]. left. nia.
Qed.

(** The bucket's content against the writes seen so far. *)
Definition backed (past : list (Z * Z)) (t : TokenBucket) : Prop :=
  (past = [] /\ tokens t = RATE_BURST) \/
  exists l1 w a l2, past = l1 ++ (w, a) :: l2 /\
    tokens t * RATE_REFILL - last_refill t >= RATE_BURST * RATE_REFILL - a - (Z.of_nat (length l2) + 1) * RATE_REFILL.

Definition jittered (delay jitter : Z) (p : Z * Z) : Prop := p.1 + delay <= p.2 <= p.1 + delay + jitter.

Lemma relay_admits delay jitter rest : jitter <= PACE_BURST * PACE_REFILL -> forall past t,
  lobby_bucket t -> backed past t -> (forall p, p ∈ past -> forall q, q ∈ rest -> p.2 <= q.2) ->
  paced (map fst (past ++ rest)) -> climbing (last_refill t) (map snd rest) -> Forall (jittered delay jitter) (past ++ rest) ->
  (take_all t (map snd rest)).1 = Z.of_nat (length rest).
Proof.
  intros Hj. destruct rate_values as (EB & ER & EP & EPB). induction rest as [|[w a] rest IH]; intros past t Ht Hback Hord Hpaced Hclimb Hjit; [done|].
  cbn [map snd climbing] in Hclimb. destruct Hclimb as [Hc1 Hc2]. destruct (relay_take t a Ht Hc1) as (R1 & R2 & R3). cbn [take_all map snd].
  destruct (try_take_at t a) as [b t1]. cbn [fst snd] in *.
  assert (Hb : b = true).
  { destruct b; [done|]. exfalso. destruct R3 as [Ez Hgap]. destruct Hback as [[_ Hfull]|(l1 & wi & ai & l2 & Ep & Hphi)]; [lia|]. rewrite Ez in Hphi.
    assert (Hp : (Z.of_nat (length l2) + 2 - PACE_BURST) * PACE_REFILL <= w - wi).
    { pose proof (Hpaced (map fst l1) wi (map fst l2) w (map fst rest)) as K. rewrite length_map in K. apply K. rewrite Ep, !map_app. cbn. by rewrite <- app_assoc. }
    assert (Hle : ai <= a) by (apply (Hord (wi, ai) ltac:(rewrite Ep; set_solver) (w, a) ltac:(by left))).
    rewrite Forall_app, Forall_cons in Hjit. destruct Hjit as (J1 & J2 & _). rewrite Forall_forall in J1. specialize (J1 (wi, ai) ltac:(rewrite Ep; set_solver)). unfold jittered in J1, J2. cbn in J1, J2. nia. }
  subst b. cbn [length]. assert (Hnew : backed (past ++ [(w, a)]) t1).
  { right. destruct R3 as [R3|R3].
    - destruct Hback as [[-> Hfull]|(l1 & wi & ai & l2 & Ep & Hphi)].
      + exists [], w, a, []. split; [done|]. cbn [length]. rewrite Hfull in R3. lia.
      + exists l1, wi, ai, (l2 ++ [(w, a)]). split; [by rewrite Ep, <- app_assoc|]. rewrite length_app. cbn [length]. lia.
    - exists past, w, a, []. split; [done|]. cbn [length]. rewrite R3. lia. }
  replace (past ++ (w, a) :: rest) with ((past ++ [(w, a)]) ++ rest) in Hpaced, Hjit by (by rewrite <- app_assoc).
  assert (Hgo : (take_all t1 (map snd rest)).1 = Z.of_nat (length rest)).
  { apply (IH (past ++ [(w, a)]) t1 R1 Hnew); [|done|by apply (climbing_weaken _ a)|done].
    intros p [Hp| ->%list_elem_of_singleton]%elem_of_app q Hq; [by apply Hord; [|right]|]. clear -Hc2 Hq. revert a Hc2. induction rest as [|r rest IHr]; intros a; [by apply not_elem_of_nil in Hq|]. cbn [map climbing].
    intros [H1 H2]. apply elem_of_cons in Hq as [->|Hq]; [done|]. specialize (IHr Hq r.2 H2). cbn in *. lia. }
  destruct (take_all t1 (map snd rest)) as [m t2]. cbn [fst] in *. lia.
Qed.

(** ** What the driver writes is paced *)

Lemma paced_sublist l k : l `sublist_of` k -> paced k -> paced l.
Proof.
  intros Hs Hk l1 a m b l2 ->. destruct pace_values as (_ & ER & _).
  apply sublist_app_l in Hs as (k1 & k2 & -> & _ & Hs). apply sublist_cons_l in Hs as (k3 & k4 & -> & Hs).
  apply sublist_app_l in Hs as (k5 & k6 & -> & Hm & Hs). apply sublist_cons_l in Hs as (k7 & k8 & -> & _).
  pose proof (Hk (k1 ++ k3) a (k5 ++ k7) b k8 ltac:(by rewrite <- !app_assoc)) as H. apply sublist_length in Hm. rewrite length_app in H. nia.
Qed.

Lemma granted_app p nows nows' : granted p (nows ++ nows') =
  let '(out, p1) := granted p nows in let '(out', p2) := granted p1 nows' in (out ++ out', p2).
Proof.
  revert p. induction nows as [|now nows IH]; intros p; cbn [granted app]; [by destruct (granted p nows')|].
  destruct (try_take p now) as [b p1]. rewrite IH. destruct (granted p1 nows) as [out p2]. destruct (granted p2 nows') as [out' p3]. by rewrite app_assoc.
Qed.

Lemma climbing_replicate_app last now n l : last <= now -> climbing now l -> climbing last (replicate n now ++ l).
Proof.
  intros Hl Hc. revert last Hl. induction n as [|n IH]; intros last Hl; cbn; [by apply (climbing_weaken _ now)|]. split; [done|]. apply IH. lia.
Qed.

(** A step's writes are requests of the pacer at the step's instant. *)
Definition served (p p' : LobbyPacer) (now : Z) (out : list LobbyCommand) : Prop :=
  exists n, (granted p (replicate n now)).2 = p' /\ map (fun _ => now) out `sublist_of` (granted p (replicate n now)).1.

Lemma send_loop_served writes now rest : forall p sent,
  let '(out, _, p', _) := send_loop writes now rest p sent in served p p' now out.
Proof.
  induction rest as [|c rest IH]; intros p sent; cbn [send_loop]; [exists 0%nat; by split|].
  destruct (try_take p now) as [b p1] eqn:Et. destruct b.
  - destruct (writes sent).
    + specialize (IH p1 (S sent)). destruct (send_loop writes now rest p1 (S sent)) as [[[out s'] p'] ok]. destruct IH as (n & Hp & Hs). exists (S n). cbn [replicate granted]. rewrite Et.
      destruct (granted p1 (replicate n now)) as [g pg]. cbn in *. split; [done|]. by apply sublist_skip.
    + exists 1%nat. cbn. rewrite Et. cbn. split; [done|apply sublist_nil_l].
  - exists 1%nat. cbn. rewrite Et. cbn. split; [done|apply sublist_nil_l].
Qed.

Lemma send_due_served writes now d :
  let '(out, d', _) := send_due_lobby writes now d in served (lo_pacer (ls_outbox d)) (lo_pacer (ls_outbox d')) now out.
Proof.
  unfold send_due_lobby, send_due. pose proof (send_loop_served writes now (drop (lobby_sent d) (lo_commands (ls_outbox d))) (lo_pacer (ls_outbox d)) (lobby_sent d)) as H.
  by destruct (send_loop _ _ _ _ _) as [[[out s'] p'] ok].
Qed.

Lemma step_served d s : let '(out, d', _) := lobby_step d s in served (lo_pacer (ls_outbox d)) (lo_pacer (ls_outbox d')) (step_now s) out.
Proof.
  destruct s as [now writes|now bytes writes|now writes]; cbn [lobby_step step_now].
  - apply (send_due_served writes now (mkLobbySide (ls_outbox d) 0)).
  - unfold on_lobby_out. destruct (author_command (ls_outbox d) bytes) as [kept o] eqn:Ea.
    assert (Hp : lo_pacer o = lo_pacer (ls_outbox d)) by (unfold author_command in Ea; by destruct (_ || _) in Ea; simplify_eq).
    destruct kept; [rewrite <- Hp; apply (send_due_served writes now (mkLobbySide o (lobby_sent d)))|]. exists 0%nat. by split.
  - apply send_due_served.
Qed.

Lemma run_served steps : forall d last, climbing last (map step_now steps) ->
  exists reqs, climbing last reqs /\ map fst (lobby_run d steps).1 `sublist_of` (granted (lo_pacer (ls_outbox d)) reqs).1.
Proof.
  induction steps as [|s steps IH]; intros d last Hc; cbn [lobby_run]; [exists []; by split|]. destruct Hc as [Hl Hc].
  pose proof (step_served d s) as Hs. destruct (lobby_step d s) as [[out d1] ok]. destruct Hs as (n & Hp & Hsub). destruct (IH d1 _ Hc) as (reqs & K1 & K2).
  destruct (lobby_run d1 steps) as [later d2]. cbn [fst] in *. exists (replicate n (step_now s) ++ reqs). split; [by apply climbing_replicate_app|].
  rewrite granted_app. destruct (granted (lo_pacer (ls_outbox d)) (replicate n (step_now s))) as [g pg]. cbn in Hp. subst pg.
  destruct (granted (lo_pacer (ls_outbox d1)) reqs) as [g' p']. cbn [fst] in *. rewrite map_app, map_map. by apply sublist_app.
Qed.

Lemma run_paced t0 steps : climbing t0 (map step_now steps) -> paced (map fst (lobby_run (new_side t0) steps).1).
Proof.
  intros Hc. destruct (run_served steps (new_side t0) t0 Hc) as (reqs & K1 & K2). eapply paced_sublist; [exact K2|]. apply (granted_paced _ t0); [split; vm_compute; done|cbn; lia|done].
Qed.

(** Writes that arrive, however delayed within the jitter, all find a token. *)
Lemma paced_offers_admitted delay jitter (ws nows : list Z) now : jitter <= PACE_BURST * PACE_REFILL ->
  paced ws -> Forall2 (fun w a => w + delay <= a <= w + delay + jitter) ws (now :: nows) -> climbing now nows ->
  (take_all (new_at RATE_BURST RATE_REFILL now) (now :: nows)).1 = Z.of_nat (length (now :: nows)).
Proof.
  intros Hj Hp HF Hc. pose proof (Forall2_length _ _ _ HF) as Hlen. destruct rate_values as (EB & _).
  set (l := zip ws (now :: nows)). assert (E1 : map fst l = ws) by (apply fst_zip; lia). assert (E2 : map snd l = now :: nows) by (apply snd_zip; lia).
  assert (Hlen2 : length l = length (now :: nows)) by (rewrite <- E2, length_map; done). rewrite <- Hlen2, <- E2.
  apply (relay_admits delay jitter l Hj []); [by vm_compute|by left| |by cbn; rewrite E1|by rewrite E2; split; [cbn; lia|]|].
  - intros p Hp'. by apply not_elem_of_nil in Hp'.
  - cbn. unfold l. clear -HF. induction HF as [|w a ws' as' H1 H2 IH]; constructor; done.
Qed.

(** C35 However a client authors, loses streams and sends its history again, the
    relay's rate cap refuses none of it: take the writes of any run of the
    driver whose instants do not go back, any of them that reach a relay and
    are not repeats there, each after a delay that varies by at most 6.4
    seconds, in their order; over any run of the relay's lobby channel in which
    the session lives on, all of them are admitted. *)
Theorem paced_lobby_never_refused (t0 delay jitter : Z) (steps : list LobbyStep) (ws : list Z)
    (ops : list (ChannelOp LobbyCommand)) (key slot : Z) :
  climbing t0 (map step_now steps) ->
  ws `sublist_of` map fst (lobby_run (new_side t0) steps).1 ->
  jitter <= PACE_BURST * PACE_REFILL ->
  let offers := omap (offer_of LOBBY key slot) ops in
  Forall2 (fun w a => w + delay <= a <= w + delay + jitter) ws offers ->
  Sorted Z.le offers -> OpEnd key ∉ ops ->
  admissions LOBBY key slot (∅ : LobbySessions) ops = Z.of_nat (length offers).
Proof.
  intros Hc Hws Hj offers HF Hs Hend. rewrite admissions_take_all by done. fold offers. destruct offers as [|now nows] eqn:Eo; [done|].
  assert (Hl : limiter key slot (∅ : LobbySessions) = None) by done.
  rewrite Hl. cbn [bucket_at default rate_burst rate_refill LOBBY].
  apply (paced_offers_admitted delay jitter ws); [done|by eapply paced_sublist; [|apply (run_paced t0 steps)]|done|].
  clear -Hs. apply Sorted_inv in Hs as [Hs Hh]. revert now Hh. induction Hs as [|x l Hs IH Hx]; intros now Hh; cbn; [done|]. split; [by inversion Hh|by apply IH].
Qed.

(** ** A stream carries the whole history *)

Definition always (_ : nat) : bool := true.

Lemma token_is_due p now : pacer_ok p -> pace_last p <= now -> next_token_at p <= now -> (try_take p now).1 = true.
Proof.
  intros [Ht] Hl Hn. destruct pace_values as (EB & ER & EU). unfold next_token_at in Hn. unfold try_take.
  enough (0 < pace_tokens (refill p now)) by (destruct (Z.eqb_spec (pace_tokens (refill p now)) 0); [lia|done]).
  unfold refill, saturating_sub, u32_try_from_or, saturating_add. cbn [pace_tokens]. rewrite Z.max_r by lia.
  assert (Hq : 0 <= (now - pace_last p) / PACE_REFILL) by (apply Z.div_pos; lia).
  destruct (Z.ltb_spec 0 (pace_tokens p)); [destruct (Z.leb_spec ((now - pace_last p) / PACE_REFILL) u32_max); lia|].
  assert (1 <= (now - pace_last p) / PACE_REFILL) by (apply Z.div_le_lower_bound; lia).
  destruct (Z.leb_spec ((now - pace_last p) / PACE_REFILL) u32_max); lia.
Qed.

Lemma try_take_ok p now : pacer_ok p -> pace_last p <= now -> pacer_ok (try_take p now).2 /\ pace_last (try_take p now).2 <= now.
Proof.
  intros Hp Hl. destruct (refill_spec p now Hp Hl) as (R1 & R2 & _). unfold try_take. destruct (Z.eqb_spec (pace_tokens (refill p now)) 0); cbn [snd pace_last]; [split; [done|lia]|].
  destruct R1 as [R1]. split; [split; cbn [pace_tokens]; lia|lia].
Qed.

(** With the stream taking every write, a loop writes a stretch of what is
    left, and at least one command when a token is due. *)
Lemma send_loop_prefix now rest : forall p sent, pacer_ok p -> pace_last p <= now ->
  let '(out, sent', p', ok) := send_loop always now rest p sent in
  exists k, out = take k rest /\ (k <= length rest)%nat /\ sent' = (sent + k)%nat /\ pacer_ok p' /\ pace_last p' <= now /\
    (next_token_at p <= now -> rest <> [] -> (0 < k)%nat).
Proof.
  induction rest as [|c rest IH]; intros p sent Hp Hl; cbn [send_loop]; [exists 0%nat; cbn; repeat split; [lia|lia|apply Hp|apply Hp|done|done]|].
  destruct (try_take_ok p now Hp Hl) as [T1 T2]. pose proof (token_is_due p now Hp Hl) as Hdue. destruct (try_take p now) as [b p1]. cbn [fst snd] in *. destruct b; cbn [always].
  - specialize (IH p1 (S sent) T1 T2). destruct (send_loop always now rest p1 (S sent)) as [[[out s'] p'] ok]. destruct IH as (k & -> & K1 & -> & K2 & K3 & _).
    exists (S k). cbn. split; [done|]. split; [lia|]. split; [lia|]. split; [done|]. split; [done|lia].
  - exists 0%nat. split; [done|]. split; [cbn; lia|]. split; [lia|]. split; [done|]. split; [done|]. intros Hn. by specialize (Hdue Hn).
Qed.

Record side_ok (d : LobbySide) (last : Z) : Prop := mkSideOk {
  so_pacer : pacer_ok (lo_pacer (ls_outbox d));
  so_last : pace_last (lo_pacer (ls_outbox d)) <= last;
}.

Lemma send_due_prefix now d last : side_ok d last -> last <= now ->
  let '(out, d', _) := send_due_lobby always now d in
  exists k, out = take k (drop (lobby_sent d) (lo_commands (ls_outbox d))) /\ lobby_sent d' = (lobby_sent d + k)%nat /\
    (k <= length (lo_commands (ls_outbox d)) - lobby_sent d)%nat /\
    lo_commands (ls_outbox d') = lo_commands (ls_outbox d) /\ side_ok d' now /\
    (forall t, next_due (ls_outbox d) (lobby_sent d) = Some t -> t <= now -> (0 < k)%nat).
Proof.
  intros [Hp Hl] Hn. unfold send_due_lobby, send_due.
  pose proof (send_loop_prefix now (drop (lobby_sent d) (lo_commands (ls_outbox d))) (lo_pacer (ls_outbox d)) (lobby_sent d) Hp ltac:(lia)) as K.
  destruct (send_loop _ _ _ _ _) as [[[out s'] p'] ok]. destruct K as (k & -> & K1 & -> & K2 & K3 & K4). exists k. rewrite length_drop in K1. cbn [ls_outbox lo_commands lobby_sent].
  split; [done|]. split; [done|]. split; [done|]. split; [done|]. split; [by split|]. intros t Ht Hle. unfold next_due in Ht. destruct (Nat.ltb_spec (lobby_sent d) (length (lo_commands (ls_outbox d)))) as [Hlt|]; [|done].
  injection Ht as <-. apply K4; [done|]. intros E. apply (f_equal length) in E. rewrite length_drop in E. cbn in E. lia.
Qed.

(** The pacer's instants, each not before the one the outbox asked for. *)
Fixpoint punctual (d : LobbySide) (nows : list Z) : Prop :=
  match nows with
  | [] => True
  | now :: nows =>
      (forall t, next_due (ls_outbox d) (lobby_sent d) = Some t -> t <= now) /\ punctual (lobby_step d (LobbyDue now always)).1.2 nows
  end.

Lemma dues_complete nows : forall d last, side_ok d last -> climbing last nows -> punctual d nows ->
  (length (lo_commands (ls_outbox d)) - lobby_sent d <= length nows)%nat ->
  map snd (lobby_run d (map (fun now => LobbyDue now always) nows)).1 = drop (lobby_sent d) (lo_commands (ls_outbox d)).
Proof.
  induction nows as [|now nows IH]; intros d last Hd Hc Hp Hlen; cbn [map lobby_run].
  { cbn in *. symmetry. apply drop_ge. lia. }
  destruct Hc as [Hl Hc]. destruct Hp as [Hdue Hp]. cbn [lobby_step] in *. pose proof (send_due_prefix now d last Hd Hl) as K.
  destruct (send_due_lobby always now d) as [[out d1] ok]. destruct K as (k & -> & K1 & K2 & K3 & K4 & K5). cbn [fst snd] in Hp.
  assert (Hk : (length (lo_commands (ls_outbox d1)) - lobby_sent d1 <= length nows)%nat).
  { rewrite K3, K1. cbn [length] in Hlen. destruct (decide (lobby_sent d < length (lo_commands (ls_outbox d)))%nat) as [Hlt|]; [|lia].
    assert (0 < k)%nat; [|lia]. apply (K5 (next_token_at (lo_pacer (ls_outbox d)))); [|apply Hdue]; unfold next_due; by rewrite (proj2 (Nat.ltb_lt _ _) Hlt). }
  specialize (IH d1 now K4 Hc Hp Hk). destruct (lobby_run d1 (map (fun now0 => LobbyDue now0 always) nows)) as [later d2]. cbn [fst] in *. rewrite map_app, IH, K1, K3, map_map. cbn [snd]. rewrite map_id.
  rewrite <- drop_drop. apply take_drop.
Qed.

Lemma step_side_ok d s last : side_ok d last -> last <= step_now s -> side_ok (lobby_step d s).1.2 (step_now s).
Proof.
  intros [Hp Hl] Hn. pose proof (step_served d s) as Hs. destruct (lobby_step d s) as [[out d1] ok]. destruct Hs as (n & E & _). cbn [fst snd]. set (now := step_now s) in *.
  enough (H : pacer_ok (lo_pacer (ls_outbox d1)) /\ pace_last (lo_pacer (ls_outbox d1)) <= now) by (destruct H; by split). rewrite <- E. assert (Hl' : pace_last (lo_pacer (ls_outbox d)) <= now) by lia.
  clear -Hp Hl'. generalize dependent (lo_pacer (ls_outbox d)). induction n as [|n IH]; intros p Hp Hl; cbn [replicate granted snd]; [done|].
  destruct (try_take_ok p now Hp Hl) as [T1 T2]. destruct (try_take p now) as [b p1]. specialize (IH p1 T1 T2). by destruct (granted p1 (replicate n now)).
Qed.

Lemma run_side_ok steps : forall d last t, side_ok d last -> climbing last (map step_now steps ++ [t]) -> side_ok (lobby_run d steps).2 t.
Proof.
  induction steps as [|s steps IH]; intros d last t Hd; cbn [map app climbing lobby_run].
  - intros [Hl _]. destruct Hd. split; [done|]. cbn. lia.
  - intros [Hl Hc]. pose proof (step_side_ok d s last Hd Hl) as H. destruct (lobby_step d s) as [[out d1] ok]. cbn [fst snd] in H. specialize (IH d1 _ t H Hc). by destruct (lobby_run d1 steps).
Qed.

(** A new stream carries everything the client ever authored, in the order it
    was authored: after any run, however many streams failed, a stream that
    takes its writes and wakes the driver no earlier than each instant the
    outbox asks for writes the whole history within one wake per command. *)
Theorem lobby_resend_completes (t0 t : Z) (steps : list LobbyStep) (nows : list Z) :
  let d := (lobby_run (new_side t0) steps).2 in
  climbing t0 (map step_now steps ++ t :: nows) ->
  punctual (lobby_step d (StreamUp t always)).1.2 nows ->
  (length (lo_commands (ls_outbox d)) <= length nows)%nat ->
  map snd (lobby_run d (StreamUp t always :: map (fun now => LobbyDue now always) nows)).1 = lo_commands (ls_outbox d).
Proof.
  intros d Hc Hp Hlen.
  assert (Hc' : climbing t0 (map step_now steps ++ [t]) /\ climbing t nows).
  { clear -Hc. revert t0 Hc. induction (map step_now steps) as [|x l IH]; intros t0; cbn; [tauto|]. intros [H1 H2]. destruct (IH x H2) as [K1 K2]. by split. }
  destruct Hc' as [Hc1 Hc2]. assert (Hd : side_ok (mkLobbySide (ls_outbox d) 0) t).
  { destruct (run_side_ok steps (new_side t0) t0 t ltac:(split; [split; vm_compute; done|cbn; lia]) Hc1) as [K1 K2]. by split. }
  cbn [lobby_run map]. cbn [lobby_step] in *. pose proof (send_due_prefix t (mkLobbySide (ls_outbox d) 0) t Hd ltac:(lia)) as K.
  destruct (send_due_lobby always t (mkLobbySide (ls_outbox d) 0)) as [[out d1] ok]. cbn [fst snd ls_outbox lobby_sent] in *. destruct K as (k & -> & K1 & K2 & K3 & K4 & _).
  pose proof (dues_complete nows d1 t K4 Hc2 Hp ltac:(rewrite K3; lia)) as Hrest. destruct (lobby_run d1 (map (fun now => LobbyDue now always) nows)) as [later d2]. cbn [fst] in *.
  rewrite map_app, map_map, map_id, Hrest, K1, K3. cbn. apply take_drop.
Qed.

(** ** What reaches the game *)

(** The arrivals handed to the game. *)
Fixpoint handed (r : LobbyReceipts) (cs : list LobbyCommand) : list LobbyCommand :=
  match cs with
  | [] => []
  | c :: cs => let '(got, r) := on_lobby_in r c in (if got is Some _ then [c] else []) ++ handed r cs
  end.

Definition known (r : LobbyReceipts) (i : Z * Z) : Prop := i.2 ∈ default ∅ (r !! i.1).

Lemma handed_spec cs : forall r,
  NoDup (omap identity (handed r cs)) /\
  forall i, i ∈ omap identity (handed r cs) <-> ~ known r i /\ i ∈ omap identity (filter (fun c => lc_slot c <= u8_max) cs).
Proof.
  induction cs as [|c cs IH]; intros r; [split; [constructor|]; cbn; set_solver|]. cbn [handed]. unfold on_lobby_in. rewrite filter_cons.
  destruct (Z.leb_spec (lc_slot c) u8_max) as [Hs|Hs]; [rewrite decide_True by done|rewrite decide_False by lia; by apply IH].
  unfold admit_receipt. destruct (lc_seq c) as [q|] eqn:Eq; cbn [app omap].
  - destruct (IH (<[lc_slot c := {[q]} ∪ default ∅ (r !! lc_slot c)]> r)) as [K1 K2].
    assert (Hid : identity c = Some (lc_slot c, q)) by (unfold identity; cbn; by rewrite Eq).
    assert (Hkn : forall i, known (<[lc_slot c := {[q]} ∪ default ∅ (r !! lc_slot c)]> r) i <-> known r i \/ i = (lc_slot c, q)).
    { clear. intros [w s]. unfold known, LobbyReceipts in *. cbn [fst snd]. destruct (decide (w = lc_slot c)) as [->|Hne]; [rewrite lookup_insert_eq; cbn; set_solver|rewrite lookup_insert_ne by done; naive_solver]. }
    assert (Ho : forall l, omap identity (c :: l) = (lc_slot c, q) :: omap identity l) by (intros l; change (omap identity (c :: l)) with (match identity c with Some y => y :: omap identity l | None => omap identity l end); by rewrite Hid).
    case_bool_decide as Hin; cbn [app]; rewrite ?Ho.
    + split; [constructor; [rewrite K2, Hkn; naive_solver|done]|]. intros i. rewrite !elem_of_cons, K2, Hkn. assert (~ known r (lc_slot c, q)) by done. destruct (decide (i = (lc_slot c, q))) as [->|]; naive_solver.
    + split; [done|]. intros i. rewrite elem_of_cons, K2, Hkn. assert (Hk : known r (lc_slot c, q)) by (exact Hin). destruct (decide (i = (lc_slot c, q))) as [->|]; naive_solver.
  - assert (Ho : forall l, omap identity (c :: l) = omap identity l) by (intros l; change (omap identity (c :: l)) with (match identity c with Some y => y :: omap identity l | None => omap identity l end); unfold identity; cbn; by rewrite Eq). cbn [app]. rewrite !Ho. apply IH.
Qed.

(** A command is handed to the game once: of the sequenced commands that
    arrive, in whatever order and however often relays replay them, the game
    gets each that names a slot, and gets none a second time. *)
Theorem lobby_handed_once (cs : list LobbyCommand) :
  NoDup (omap identity (handed ∅ cs)) /\
  forall i, i ∈ omap identity (handed ∅ cs) <-> i ∈ omap identity (filter (fun c => lc_slot c <= u8_max) cs).
Proof.
  destruct (handed_spec cs ∅) as [H1 H2]. split; [done|]. intros i. rewrite H2. unfold known, LobbyReceipts. rewrite lookup_empty. cbn. set_solver.
Qed.

(** ** A session of a client and its relay *)

(** Forty commands authored at once, a stream lost and the history sent again:
    the first stream carries sixteen, the second what the pacer gives. *)
Definition demo_steps : list LobbyStep :=
  StreamUp 0 always :: replicate 40 (Authored 0 [1] always) ++
  [StreamUp 1000000000 always; LobbyDue 1200000000 always; LobbyDue 1600000000 (fun _ => false)].

Lemma offers_do_not_end (key k slot s len delay : Z) (ts : list Z) :
  OpEnd key ∉ (OpRegister k s :: map (fun t => OpOffer k slot len (t + delay)) ts : list (ChannelOp LobbyCommand)).
Proof. intros [E|H]%elem_of_cons; [discriminate|]. induction ts as [|t ts IH]; [by apply elem_of_nil in H|]. by apply elem_of_cons in H as [|H]; [discriminate|auto]. Qed.

Definition demo_relay : list (ChannelOp LobbyCommand) :=
  OpRegister 7 1 :: map (fun t => OpOffer 7 1 1 (t + 6400000000)) (map fst (lobby_run (new_side 0) demo_steps).1).

Lemma paced_lobby_never_refused_witness :
  length (lobby_run (new_side 0) demo_steps).1 = 19%nat /\
  admissions LOBBY 7 1 (∅ : LobbySessions) demo_relay = 19.
Proof.
  split; [by vm_compute|].
  change 19 with (Z.of_nat (length (omap (offer_of LOBBY 7 1) demo_relay))).
  apply (paced_lobby_never_refused 0 0 6400000000 demo_steps (map fst (lobby_run (new_side 0) demo_steps).1)).
  - cbn. repeat split; lia.
  - done.
  - vm_compute. discriminate.
  - vm_compute. repeat constructor; discriminate.
  - vm_compute. repeat constructor; discriminate.
  - apply offers_do_not_end.
Defined.

(** The instants, decided. *)
Fixpoint punctualb (d : LobbySide) (nows : list Z) : bool :=
  match nows with
  | [] => true
  | now :: nows =>
      match next_due (ls_outbox d) (lobby_sent d) with Some t => t <=? now | None => true end && punctualb (lobby_step d (LobbyDue now always)).1.2 nows
  end.

Lemma punctualb_true nows : forall d, punctualb d nows = true -> punctual d nows.
Proof.
  induction nows as [|now nows IH]; intros d; [done|]. cbn [punctualb punctual]. intros [H1 H2]%andb_true_iff. split; [|by apply IH].
  intros t Ht. rewrite Ht in H1. by apply Z.leb_le.
Qed.

(** After those steps forty commands are retained; a third stream at 2 s has
    them all written by the time it has woken forty times. *)
Definition demo_nows : list Z := map (fun k => 2000000000 + 400000000 * Z.of_nat k) (seq 1 40).

Lemma lobby_resend_completes_witness :
  let d := (lobby_run (new_side 0) demo_steps).2 in
  length (lo_commands (ls_outbox d)) = 40%nat /\
  map snd (lobby_run d (StreamUp 2000000000 always :: map (fun now => LobbyDue now always) demo_nows)).1 = lo_commands (ls_outbox d).
Proof.
  split; [by vm_compute|]. apply (lobby_resend_completes 0 2000000000 demo_steps demo_nows).
  - cbn. repeat split; lia.
  - apply punctualb_true. by vm_compute.
  - apply Nat.leb_le. by vm_compute.
Defined.
