(* ===== verification/Provisional.v ===== *)
(** * The provisional ingress journal ([relay/src/session/provisional_turns/mod.rs])

    Ingress of a session whose descriptor has not arrived is journaled in
    arrival order and drained through the ordinary paths when it does.  Every
    operation runs under the journal's mutex, so it is one function of the
    guarded state.  The drain loop of [mesh/control/apply.rs] takes the lock
    once per step and is modelled step by step in the second half. *)

From Stdlib Require Import ZArith Lia.
From stdpp Require Import gmap sorting list.
From S2P Require Import Prelude RateLimit Wire SideChannel.

Open Scope Z_scope.

Definition PER_SESSION_CAP : Z := 4096.
Definition AGGREGATE_TURN_BYTE_BUDGET : Z := 64 * 1024 * 1024.
Definition MAX_JOURNALED_SESSIONS : Z := 4096.
Definition JOURNAL_ENVELOPE_BYTES : Z := 64.
Definition LEAVE_REASON_LEFT : Z := 3.

(** ** Data *)

Inductive PennedIngress : Type :=
| Turn (slot : Z) (payload : Payload)
| Lobby (slot : Z) (command : LobbyCommand)
| GameStarted (slot : Z)
| Departure (slot reason : Z) (connection_epoch : option Z) (revision : Z).

#[export] Instance PennedIngress_eq_dec : EqDecision PennedIngress.
Proof. solve_decision. Defined.

Inductive HoldOutcome : Type := Held | HoldResolved (e : PennedIngress) | Overflow (e : PennedIngress).

Inductive Phase : Type :=
| Gathering (queue : list PennedIngress)
| Draining (queue : list PennedIngress)
| Resolved.

#[export] Instance Phase_eq_dec : EqDecision Phase.
Proof. solve_decision. Defined.

Record LobbyUsage : Type := mkLobbyUsage { usage_count : Z; usage_bytes : Z }.

Record SessionPen : Type := mkSessionPen {
  phase : Phase;
  sealed : gset Z;
  departure_revisions : gmap Z Z;
  in_flight_turns : list (Z * Z);
  turn_count : Z;
  lobby_usage : gmap Z LobbyUsage;
  started_slots : gset Z;
}.

Definition gathering : SessionPen := mkSessionPen (Gathering []) ∅ ∅ [] 0 ∅ ∅.

Record PenState : Type := mkPenState { sessions : gmap Z SessionPen; resident_bytes : Z }.

(** The two ceilings the pen is built with. *)
Record PenLimits : Type := mkPenLimits { resident_byte_budget : Z; max_sessions : Z }.

Definition production : PenLimits := mkPenLimits AGGREGATE_TURN_BYTE_BUDGET MAX_JOURNALED_SESSIONS.

Inductive DrainStep : Type := More (batch : list PennedIngress) | Done.

(** ** Measures of an entry *)

Definition payload_command_bytes (p : Payload) : Z := Z.of_nat (length (commands p)).

Definition entry_resident_bytes (e : PennedIngress) : Z :=
  match e with
  | Turn _ p => payload_command_bytes p + JOURNAL_ENVELOPE_BYTES
  | Lobby _ c => Z.of_nat (length (lc_payload c)) + JOURNAL_ENVELOPE_BYTES
  | GameStarted _ | Departure _ _ _ _ => 0
  end.

Definition turn_identities (batch : list PennedIngress) : list (Z * Z) :=
  omap (fun e => match e with Turn s p => Some (s, seq p) | _ => None end) batch.

Definition is_departure_of (slot : Z) (e : PennedIngress) : Prop :=
  match e with Departure s _ _ _ => s = slot | _ => False end.
#[export] Instance is_departure_of_dec slot e : Decision (is_departure_of slot e).
Proof. unfold is_departure_of. destruct e; apply _. Defined.

(** The queue of an unresolved phase; a resolved one holds nothing. *)
Definition phase_queue (ph : Phase) : list PennedIngress :=
  match ph with Gathering q | Draining q => q | Resolved => [] end.
Definition queue (p : SessionPen) : list PennedIngress := phase_queue (phase p).

Definition map_queue (f : list PennedIngress -> list PennedIngress) (ph : Phase) : Phase :=
  match ph with Gathering q => Gathering (f q) | Draining q => Draining (f q) | Resolved => Resolved end.

Definition set_phase (p : SessionPen) (ph : Phase) : SessionPen :=
  mkSessionPen ph (sealed p) (departure_revisions p) (in_flight_turns p) (turn_count p) (lobby_usage p)
    (started_slots p).
Definition seal (p : SessionPen) (slot : Z) : SessionPen :=
  mkSessionPen (phase p) ({[slot]} ∪ sealed p) (departure_revisions p) (in_flight_turns p) (turn_count p)
    (lobby_usage p) (started_slots p).
Definition count_turn (p : SessionPen) : SessionPen :=
  mkSessionPen (phase p) (sealed p) (departure_revisions p) (in_flight_turns p) (turn_count p + 1)
    (lobby_usage p) (started_slots p).
Definition set_usage (p : SessionPen) (slot : Z) (u : LobbyUsage) : SessionPen :=
  mkSessionPen (phase p) (sealed p) (departure_revisions p) (in_flight_turns p) (turn_count p)
    (<[slot := u]> (lobby_usage p)) (started_slots p).
Definition note_started (p : SessionPen) (slot : Z) : SessionPen :=
  mkSessionPen (phase p) (sealed p) (departure_revisions p) (in_flight_turns p) (turn_count p) (lobby_usage p)
    ({[slot]} ∪ started_slots p).
Definition set_revision (p : SessionPen) (slot r : Z) : SessionPen :=
  mkSessionPen (phase p) (sealed p) (<[slot := r]> (departure_revisions p)) (in_flight_turns p) (turn_count p)
    (lobby_usage p) (started_slots p).
Definition push_back (p : SessionPen) (e : PennedIngress) : SessionPen :=
  set_phase p (map_queue (fun q => q ++ [e]) (phase p)).
Definition put (st : PenState) (key : Z) (p : SessionPen) : PenState :=
  mkPenState (<[key := p]> (sessions st)) (resident_bytes st).
Definition charge (st : PenState) (bytes : Z) : PenState :=
  mkPenState (sessions st) (resident_bytes st + bytes).

(** ** Operations *)

Definition reserve (c : PenLimits) (st : PenState) (key : Z) : bool * PenState :=
  if bool_decide (is_Some (sessions st !! key)) then (true, st)
  else if max_sessions c <=? Z.of_nat (size (sessions st)) then (false, st)
  else (true, put st key gathering).

(** A deposit into a pen whose phase is not [Resolved]: the pen after it and
    whether the entry was queued, or a refusal that seals the slot. *)
Definition hold_unresolved (p : SessionPen) (over_budget : bool) (entry : PennedIngress) :
    HoldOutcome * bool * SessionPen :=
  match entry with
  | Turn slot _ =>
      if (PER_SESSION_CAP <=? turn_count p) || over_budget then (Overflow entry, false, seal p slot)
      else (Held, true, push_back (count_turn p) entry)
  | Lobby slot command =>
      let limits := replay_limits LOBBY in
      let usage := default (mkLobbyUsage 0 0) (lobby_usage p !! slot) in
      let len := Z.of_nat (length (lc_payload command)) in
      if (max_messages limits <=? usage_count usage)
         || (max_bytes limits <? saturating_add usize_max (usage_bytes usage) len) || over_budget
      then (Overflow entry, false, seal (set_usage p slot usage) slot)
      else (Held, true, push_back (set_usage p slot (mkLobbyUsage (usage_count usage + 1) (usage_bytes usage + len))) entry)
  | GameStarted slot =>
      if bool_decide (slot ∈ started_slots p) then (Held, false, p)
      else (Held, true, push_back (note_started p slot) entry)
  | Departure slot reason epoch _ =>
      let p1 := if reason =? LEAVE_REASON_LEFT then seal p slot else p in
      let current := default 0 (departure_revisions p1 !! slot) + 1 in
      let p2 := set_revision p1 slot current in
      let p3 := set_phase p2 (map_queue (filter (fun e => ~ is_departure_of slot e)) (phase p2)) in
      (Held, true, push_back p3 (Departure slot reason epoch current))
  end.

Definition hold (c : PenLimits) (st : PenState) (key : Z) (entry : PennedIngress) : HoldOutcome * PenState :=
  let entry_bytes := entry_resident_bytes entry in
  if bool_decide (sessions st !! key = None) && (max_sessions c <=? Z.of_nat (size (sessions st)))
  then (Overflow entry, st)
  else
    let over_budget := resident_byte_budget c <? saturating_add usize_max (resident_bytes st) entry_bytes in
    let p := default gathering (sessions st !! key) in
    match phase p with
    | Resolved => (HoldResolved entry, put st key p)
    | _ =>
        match hold_unresolved p over_budget entry with
        | (outcome, pushed, p') => (outcome, charge (put st key p') (if pushed then entry_bytes else 0))
        end
    end.

Definition departure_is_current (st : PenState) (key slot revision : Z) : bool :=
  match sessions st !! key with
  | None => false
  | Some p => bool_decide (departure_revisions p !! slot = Some revision)
  end.

Definition slot_sealed (st : PenState) (key slot : Z) : bool :=
  match sessions st !! key with None => false | Some p => bool_decide (slot ∈ sealed p) end.

(** The pen once a batch was taken from it. *)
Definition take_batch (p : SessionPen) (batch : list PennedIngress) : SessionPen :=
  mkSessionPen (Draining []) (sealed p) (departure_revisions p) (turn_identities batch) 0 (lobby_usage p)
    (started_slots p).

Definition begin_drain (st : PenState) (key : Z) : option (list PennedIngress) * PenState :=
  let p := default gathering (sessions st !! key) in
  match phase p with
  | Gathering batch => (Some batch, put st key (take_batch p batch))
  | _ => (None, put st key p)
  end.

Definition release_drained (st : PenState) (bytes : Z) : PenState :=
  mkPenState (sessions st) (saturating_sub (resident_bytes st) bytes).

Definition clear_in_flight (p : SessionPen) : SessionPen :=
  mkSessionPen (phase p) (sealed p) (departure_revisions p) [] (turn_count p) (lobby_usage p) (started_slots p).

Definition continue_drain (st : PenState) (key : Z) : DrainStep * PenState :=
  match sessions st !! key with
  | None => (Done, st)
  | Some p =>
      let p := clear_in_flight p in
      match phase p with
      | Draining [] => (Done, put st key (set_phase p Resolved))
      | Draining batch => (More batch, put st key (take_batch p batch))
      | _ => (Done, put st key p)
      end
  end.

Definition discard (st : PenState) (key : Z) : PenState :=
  match sessions st !! key with
  | None => st
  | Some p =>
      mkPenState (delete key (sessions st))
        (saturating_sub (resident_bytes st) (sumz entry_resident_bytes (queue p)))
  end.

Definition is_unresolved (st : PenState) (key : Z) : bool :=
  match sessions st !! key with
  | None => false
  | Some p => match phase p with Resolved => false | _ => true end
  end.

Definition has_undrained (st : PenState) (key : Z) : bool :=
  match sessions st !! key with
  | None => false
  | Some p => match queue p with [] => false | _ => true end
  end.

Definition held_turn_seqs (st : PenState) (key slot : Z) : list Z :=
  match sessions st !! key with
  | None => []
  | Some p =>
      omap (fun e => match e with Turn s pl => if s =? slot then Some (seq pl) else None | _ => None end) (queue p)
      ++ (filter (fun t => t.1 = slot) (in_flight_turns p)).*2
  end.

Definition discard_if_empty (st : PenState) (key : Z) : bool * PenState :=
  match sessions st !! key with
  | None => (true, st)
  | Some p =>
      match phase p with
      | Gathering [] =>
          if bool_decide (sealed p = ∅) then (true, mkPenState (delete key (sessions st)) (resident_bytes st))
          else (false, st)
      | _ => (false, st)
      end
  end.

(** ** The drain loop and the depositors *)

(** A drainer holds the batch it took, the part still to replay, and whether
    it has given the batch's charge back. *)
Record Drainer : Type := mkDrainer {
  d_key : Z;
  d_batch : list PennedIngress;
  d_todo : list PennedIngress;
  d_released : bool;
}.

Inductive Event : Type :=
| EvHeld (key : Z) (e : PennedIngress)
| EvReplayed (key : Z) (e : PennedIngress)
| EvSkipped (key : Z) (e : PennedIngress).

Record Sys : Type := mkSys { pen : PenState; drainers : gmap Z Drainer; events : list Event }.

Definition sys_init : Sys := mkSys (mkPenState ∅ 0) ∅ [].

(** One entry of the batch: a departure superseded since it was taken is
    skipped, everything else runs through its ordinary path. *)
Definition replay_entry (st : PenState) (key : Z) (e : PennedIngress) : Event :=
  match e with
  | Departure slot _ _ revision =>
      if departure_is_current st key slot revision then EvReplayed key e else EvSkipped key e
  | _ => EvReplayed key e
  end.

Inductive PenOp : Type :=
| DoReserve (key : Z)
| DoHold (key : Z) (e : PennedIngress)
| DoBegin (i key : Z)
| DoReplay (i : Z)
| DoRelease (i : Z)
| DoContinue (i : Z)
| DoDiscard (key : Z)
| DoDiscardIfEmpty (key : Z).

Definition set_drainer (s : Sys) (i : Z) (d : Drainer) : Sys := mkSys (pen s) (<[i := d]> (drainers s)) (events s).
Definition set_pen (s : Sys) (st : PenState) : Sys := mkSys st (drainers s) (events s).

Definition pen_step (c : PenLimits) (s : Sys) (o : PenOp) : Sys :=
  match o with
  | DoReserve key => set_pen s (reserve c (pen s) key).2
  | DoHold key e =>
      match hold c (pen s) key e with
      | (Held, st) => mkSys st (drainers s) (events s ++ [EvHeld key e])
      | (_, st) => set_pen s st
      end
  | DoBegin i key =>
      match drainers s !! i with
      | Some _ => s
      | None =>
          match begin_drain (pen s) key with
          | (Some batch, st) => set_drainer (set_pen s st) i (mkDrainer key batch batch false)
          | (None, st) => set_pen s st
          end
      end
  | DoReplay i =>
      match drainers s !! i with
      | Some (mkDrainer key batch (e :: todo) released) =>
          mkSys (pen s) (<[i := mkDrainer key batch todo released]> (drainers s))
            (events s ++ [replay_entry (pen s) key e])
      | _ => s
      end
  | DoRelease i =>
      match drainers s !! i with
      | Some (mkDrainer key batch [] false) =>
          set_drainer (set_pen s (release_drained (pen s) (sumz entry_resident_bytes batch))) i
            (mkDrainer key batch [] true)
      | _ => s
      end
  | DoContinue i =>
      match drainers s !! i with
      | Some (mkDrainer key _ [] true) =>
          match continue_drain (pen s) key with
          | (More batch, st) => set_drainer (set_pen s st) i (mkDrainer key batch batch false)
          | (Done, st) => mkSys st (delete i (drainers s)) (events s)
          end
      | _ => s
      end
  | DoDiscard key => set_pen s (discard (pen s) key)
  | DoDiscardIfEmpty key => set_pen s (discard_if_empty (pen s) key).2
  end.

Definition pen_run (c : PenLimits) (ops : list PenOp) : Sys := foldl (pen_step c) sys_init ops.

(** ** The journal's contract *)

(** The deposits of one session as the contract records them: a start report
    once per slot, a departure numbered among its slot's departures. *)
Definition departures (slot : Z) (acc : list PennedIngress) : Z :=
  Z.of_nat (length (filter (is_departure_of slot) acc)).

Definition journal (acc : list PennedIngress) (e : PennedIngress) : list PennedIngress :=
  match e with
  | GameStarted slot => if bool_decide (GameStarted slot ∈ acc) then acc else acc ++ [e]
  | Departure slot reason epoch _ => acc ++ [Departure slot reason epoch (departures slot acc + 1)]
  | _ => acc ++ [e]
  end.

Definition held_of (key : Z) (ev : Event) : option PennedIngress :=
  match ev with EvHeld k e => if k =? key then Some e else None | _ => None end.
Definition replayed_of (key : Z) (ev : Event) : option PennedIngress :=
  match ev with EvReplayed k e => if k =? key then Some e else None | _ => None end.

Definition accepted (key : Z) (s : Sys) : list PennedIngress := foldl journal [] (omap (held_of key) (events s)).
Definition replayed (key : Z) (s : Sys) : list PennedIngress := omap (replayed_of key) (events s).

(** An entry still owed to the session: everything but a departure a newer
    departure of its slot superseded. *)
Definition live (acc : list PennedIngress) (e : PennedIngress) : Prop :=
  match e with Departure slot _ _ r => r = departures slot acc | _ => True end.
#[export] Instance live_dec acc e : Decision (live acc e).
Proof. unfold live. destruct e; apply _. Defined.

(** ** The contract's lists *)

Implicit Types (acc l : list PennedIngress) (e : PennedIngress).

Lemma departures_app slot acc l : departures slot (acc ++ l) = departures slot acc + departures slot l.
Proof. unfold departures. rewrite filter_app, length_app. lia. Qed.

Lemma departures_nonneg slot acc : 0 <= departures slot acc.
Proof. unfold departures. lia. Qed.

(** Every departure of the journal carries a revision its slot has reached. *)
Definition numbered acc : Prop :=
  forall s r ep n, Departure s r ep n ∈ acc -> 1 <= n <= departures s acc.

Lemma departures_other slot acc e : ~ is_departure_of slot e -> departures slot (acc ++ [e]) = departures slot acc.
Proof. intros Hn. rewrite departures_app. unfold departures at 2. rewrite filter_cons, decide_False, filter_nil by done. cbn. lia. Qed.

Lemma departures_same acc s r ep n : departures s (acc ++ [Departure s r ep n]) = departures s acc + 1.
Proof. rewrite departures_app. unfold departures at 2. rewrite filter_cons, decide_True, filter_nil by done. cbn. lia. Qed.

(** Anything but a departure. *)
Definition plain e : Prop := match e with Departure _ _ _ _ => False | _ => True end.

Lemma plain_other slot e : plain e -> ~ is_departure_of slot e.
Proof. destruct e; cbn; tauto. Qed.

Lemma numbered_other acc e : plain e -> numbered acc -> numbered (acc ++ [e]).
Proof.
  intros He Hn s r ep n [Hin|Hin%list_elem_of_singleton]%elem_of_app; [|by subst e].
  rewrite departures_other by by apply plain_other. by apply (Hn _ _ _ _ Hin).
Qed.

Lemma numbered_departure acc s r ep : numbered acc -> numbered (acc ++ [Departure s r ep (departures s acc + 1)]).
Proof.
  intros Hn s' r' ep' n' [Hin|Hin%list_elem_of_singleton]%elem_of_app.
  - pose proof (Hn _ _ _ _ Hin). rewrite departures_app.
    pose proof (departures_nonneg s' [Departure s r ep (departures s acc + 1)]). lia.
  - injection Hin as -> -> -> ->. rewrite departures_same. pose proof (departures_nonneg s acc). lia.
Qed.

(** Depositing anything but a departure retires nothing. *)
Lemma live_other acc e x : plain e -> live (acc ++ [e]) x <-> live acc x.
Proof.
  intros He. destruct x as [| | |s r ep n]; cbn; [done..|]. by rewrite departures_other by by apply plain_other.
Qed.

(** A departure retires exactly its slot's earlier ones. *)
Lemma live_departure acc s r ep x :
  numbered acc -> x ∈ acc ->
  live (acc ++ [Departure s r ep (departures s acc + 1)]) x <-> ~ is_departure_of s x /\ live acc x.
Proof.
  intros Hn Hin. destruct x as [| | |s' r' ep' n']; cbn; [tauto..|].
  destruct (decide (s' = s)) as [->|Hs].
  - rewrite departures_same. pose proof (Hn _ _ _ _ Hin). naive_solver lia.
  - rewrite departures_other by (cbn; done). naive_solver.
Qed.

Lemma filter_live_other acc e l :
  plain e -> filter (live (acc ++ [e])) l = filter (live acc) l.
Proof. intros He. apply list_filter_iff. intros x. by apply live_other. Qed.

Lemma filter_live_departure acc s r ep l :
  numbered acc -> (forall x, x ∈ l -> x ∈ acc) ->
  filter (live (acc ++ [Departure s r ep (departures s acc + 1)])) l
    = filter (fun x => ~ is_departure_of s x) (filter (live acc) l).
Proof.
  intros Hn Hin. rewrite list_filter_filter. apply filter_ext_elem. intros x Hx. by apply live_departure; [|apply Hin].
Qed.

(** With no departure in it, a journal is live throughout. *)
Lemma no_departures_all_live acc : (forall s, departures s acc = 0) -> filter (live acc) acc = acc.
Proof.
  intros H0. apply filter_all. intros x Hx. destruct x as [| | |s r ep n]; cbn; [done..|]. exfalso.
  specialize (H0 s). unfold departures in H0.
  assert (Hin : Departure s r ep n ∈ filter (is_departure_of s) acc) by by apply list_elem_of_filter.
  destruct (filter _ acc); [by apply not_elem_of_nil in Hin|cbn in H0; lia].
Qed.

(** ** One session's pen *)

Definition pen_of (st : PenState) (key : Z) : SessionPen := default gathering (sessions st !! key).

(** The pen against the contract: [rep] was handed on, [hand] is what a drainer
    still holds. *)
Record pen_ok acc (rep hand : list PennedIngress) (p : SessionPen) : Prop := {
  po_rev : forall sl, default 0 (departure_revisions p !! sl) = departures sl acc;
  po_started : forall sl, sl ∈ started_slots p <-> GameStarted sl ∈ acc;
  po_sub : forall x, x ∈ rep ++ hand ++ queue p -> x ∈ acc;
  po_eq : filter (live acc) (rep ++ hand ++ queue p) = filter (live acc) acc;
  po_num : numbered acc;
  po_fresh : phase p = Gathering [] -> sealed p = ∅ -> p = gathering;
}.

Lemma gathering_ok : pen_ok [] [] [] gathering.
Proof. split; cbn; try done; [set_solver|]. intros s r ep n Hin. by apply not_elem_of_nil in Hin. Qed.

(** A fresh pen has seen nothing. *)
Lemma pen_ok_fresh acc rep hand : pen_ok acc rep hand gathering -> rep = [] -> hand = [] -> acc = [].
Proof.
  intros [Hr _ _ He _ _] -> ->. cbn in He. rewrite no_departures_all_live in He; [done|].
  intros s. by rewrite <- Hr.
Qed.

Lemma queue_push p e : phase p <> Resolved -> queue (push_back p e) = queue p ++ [e].
Proof. unfold queue, push_back. by destruct p as [[]]. Qed.

(** Queueing an entry that is no departure, with its slot's start noted. *)
Lemma push_ok acc rep hand p p' e :
  plain e -> phase p <> Resolved -> pen_ok acc rep hand p ->
  phase p' = phase p -> departure_revisions p' = departure_revisions p ->
  (forall sl, sl ∈ started_slots p' <-> sl ∈ started_slots p \/ e = GameStarted sl) ->
  pen_ok (acc ++ [e]) rep hand (push_back p' e).
Proof.
  intros He Hph [Hrev Hst Hsub Heq Hnum Hfr] Hp' Hd' Hs'.
  assert (Hq : rep ++ hand ++ queue (push_back p' e) = (rep ++ hand ++ queue p) ++ [e]).
  { rewrite queue_push by congruence. unfold queue. by rewrite Hp', <-!app_assoc. }
  split.
  - intros sl. cbn. by rewrite Hd', Hrev, departures_other by by apply plain_other.
  - intros sl. cbn. rewrite Hs', elem_of_app, list_elem_of_singleton, Hst. naive_solver.
  - intros x. rewrite Hq, !(elem_of_app _ [e]). intros [Hx|Hx]; [left; by apply Hsub|by right].
  - rewrite Hq, !filter_live_other, !(filter_app _ _ [e]), Heq by done. done.
  - by apply numbered_other.
  - cbn. destruct (phase p'); cbn; [|done..]. intros [= Hnil]. by apply app_nil in Hnil as [_ ?].
Qed.

(** A refused or repeated deposit leaves the contract where it was. *)
Lemma seal_ok acc rep hand p p' :
  pen_ok acc rep hand p -> phase p' = phase p -> departure_revisions p' = departure_revisions p ->
  started_slots p' = started_slots p -> sealed p' <> ∅ -> pen_ok acc rep hand p'.
Proof.
  intros [Hrev Hst Hsub Heq Hnum Hfr] Hp' Hd' Hs' Hseal.
  assert (Hq : queue p' = queue p) by (unfold queue; congruence).
  split; rewrite ?Hq, ?Hd', ?Hs'; done.
Qed.

(** A departure takes the place of its slot's earlier one. *)
Lemma departure_ok acc rep hand p p' s r ep :
  phase p <> Resolved -> pen_ok acc rep hand p ->
  phase p' = map_queue (filter (fun x => ~ is_departure_of s x)) (phase p) ->
  departure_revisions p' = <[s := departures s acc + 1]> (departure_revisions p) ->
  started_slots p' = started_slots p ->
  pen_ok (acc ++ [Departure s r ep (departures s acc + 1)]) rep hand
    (push_back p' (Departure s r ep (departures s acc + 1))).
Proof.
  intros Hph [Hrev Hst Hsub Heq Hnum Hfr] Hp' Hd' Hs'. set (d := Departure s r ep (departures s acc + 1)).
  set (keep := (filter (fun x => ~ is_departure_of s x) : list PennedIngress -> list PennedIngress)).
  assert (Hq : queue (push_back p' d) = keep (queue p) ++ [d]).
  { unfold queue, push_back. cbn. rewrite Hp'. by destruct (phase p). }
  assert (Hpart : forall l, (forall x, x ∈ l -> x ∈ acc) -> filter (live (acc ++ [d])) l = keep (filter (live acc) l)).
  { intros l Hl. by apply filter_live_departure. }
  assert (Hlived : filter (live (acc ++ [d])) [d] = [d]).
  { rewrite filter_cons, decide_True, filter_nil; [done|]. unfold live, d. by rewrite departures_same. }
  split.
  - intros sl. cbn. rewrite Hd'. destruct (decide (s = sl)) as [->|Hne].
    + rewrite lookup_insert_eq. unfold d. by rewrite departures_same.
    + by rewrite lookup_insert_ne, Hrev, departures_other.
  - intros sl. cbn. rewrite Hs', Hst, elem_of_app, list_elem_of_singleton. naive_solver.
  - intros x. rewrite Hq, !elem_of_app. intros Hx.
    assert (Hk : x ∈ keep (queue p) -> x ∈ queue p) by (unfold keep; rewrite list_elem_of_filter; tauto).
    destruct (decide (x ∈ [d])); [by right|left]. apply Hsub. rewrite !elem_of_app. tauto.
  - rewrite Hq, !app_assoc, filter_app, (filter_app _ acc), Hlived. f_equal.
    rewrite (Hpart acc) by done. rewrite <-Heq, <-app_assoc, !filter_app.
    assert (Hmem : forall x, x ∈ rep \/ x ∈ hand \/ x ∈ queue p -> x ∈ acc).
    { intros x Hx. apply Hsub. by rewrite !elem_of_app. }
    rewrite !Hpart by (intros x Hx; apply Hmem; unfold keep in *; rewrite ?list_elem_of_filter in Hx; tauto).
    unfold keep. rewrite !filter_app. do 2 f_equal. rewrite !list_filter_filter. apply list_filter_iff. tauto.
  - by apply numbered_departure.
  - cbn. rewrite Hp'. destruct (phase p); cbn; [|done..]. intros [= Hnil]. by apply app_nil in Hnil as [_ ?].
Qed.

(** A deposit, on every branch. *)
Lemma hold_unresolved_ok acc rep hand p over e out pushed p' :
  phase p <> Resolved -> pen_ok acc rep hand p -> hold_unresolved p over e = (out, pushed, p') ->
  pen_ok (match out with Held => journal acc e | _ => acc end) rep hand p' /\
  in_flight_turns p' = in_flight_turns p /\
  phase p' = map_queue (fun _ => queue p') (phase p) /\ out <> HoldResolved e.
Proof.
  intros Hph Hok Hh.
  assert (Hpush : forall q x, phase (push_back q x) = map_queue (fun _ => queue (push_back q x)) (phase q)).
  { intros q x. unfold push_back, queue. by destruct q as [[]]. }
  assert (Hsame : p' = p \/ phase p' = phase p -> phase p' = map_queue (fun _ => queue p') (phase p)).
  { intros Hp. assert (phase p' = phase p) as Hpp by naive_solver. unfold queue. rewrite Hpp. by destruct (phase p). }
  destruct e as [s pl|s m|s|s r ep n]; cbn [hold_unresolved journal] in *.
  - destruct (_ || _); injection Hh as <- <- <-.
    + split; [eapply seal_ok; [done..|cbn; set_solver]|]. by split; [|split; [apply Hsame; right|]].
    + split; [|split; [done|split; [apply (Hpush (count_turn p))|done]]].
      apply push_ok with p; try done. naive_solver.
  - destruct (_ || _); injection Hh as <- <- <-.
    + split; [eapply seal_ok; [done..|cbn; set_solver]|]. by split; [|split; [apply Hsame; right|]].
    + split; [|split; [done|split; [apply (Hpush (set_usage p s _))|done]]].
      apply push_ok with p; try done. naive_solver.
  - destruct (bool_decide_reflect (s ∈ started_slots p)) as [Hin|Hin]; injection Hh as <- <- <-.
    + rewrite bool_decide_eq_true_2 by by apply (po_started _ _ _ _ Hok).
      split; [done|]. split; [done|split; [apply Hsame; by left|done]].
    + rewrite bool_decide_eq_false_2 by by rewrite <-(po_started _ _ _ _ Hok).
      split; [|split; [done|split; [apply (Hpush (note_started p s))|done]]].
      apply push_ok with p; try done. cbn. set_solver.
  - injection Hh as <- <- <-. rewrite <-(po_rev _ _ _ _ Hok s).
    set (p1 := if r =? LEAVE_REASON_LEFT then seal p s else p).
    assert (Hp1 : phase p1 = phase p /\ departure_revisions p1 = departure_revisions p /\
                  started_slots p1 = started_slots p /\ in_flight_turns p1 = in_flight_turns p).
    { unfold p1. by destruct (r =? _). }
    destruct Hp1 as (Hp1 & Hd1 & Hs1 & Hi1). rewrite Hd1.
    split; [|split; [done|split; [|done]]].
    + rewrite (po_rev _ _ _ _ Hok). apply departure_ok with p; cbn; try done; congruence.
    + cbn. unfold queue. cbn. rewrite Hp1. by destruct (phase p).
Qed.

(** ** The system invariant, one session at a time *)

Definition no_drainer (s : Sys) (key : Z) : Prop := forall i d, drainers s !! i = Some d -> d_key d <> key.

(** A drain in progress: one drainer, its batch shadowed in the pen. *)
Record draining (s : Sys) (key : Z) (p : SessionPen) (i : Z) (d : Drainer) : Prop := {
  dr_lookup : drainers s !! i = Some d;
  dr_key : d_key d = key;
  dr_unique : forall j d', drainers s !! j = Some d' -> d_key d' = key -> j = i;
  dr_shadow : in_flight_turns p = turn_identities (d_batch d);
  dr_todo : forall x, x ∈ d_todo d -> x ∈ d_batch d;
  dr_batch : forall x, x ∈ d_batch d -> x ∈ accepted key s;
}.

Definition phase_ok (s : Sys) (key : Z) (p : SessionPen) (hand : list PennedIngress) : Prop :=
  match phase p with
  | Gathering _ => replayed key s = [] /\ hand = [] /\ in_flight_turns p = [] /\ no_drainer s key
  | Draining _ => exists i d, draining s key p i d /\ d_todo d = hand
  | Resolved => hand = [] /\ in_flight_turns p = [] /\ no_drainer s key
  end.

Definition journal_inv (key : Z) (s : Sys) : Prop :=
  exists hand, pen_ok (accepted key s) (replayed key s) hand (pen_of (pen s) key) /\
               phase_ok s key (pen_of (pen s) key) hand.

Lemma init_inv key : journal_inv key sys_init.
Proof.
  exists []. unfold pen_of. cbn. rewrite lookup_empty. split; [apply gathering_ok|].
  split; [done|]. split; [done|]. split; [done|]. intros i d Hd. cbn in Hd. by rewrite lookup_empty in Hd.
Qed.

(** What the invariant of a session depends on. *)
Lemma journal_frame key s s' :
  pen_of (pen s') key = pen_of (pen s) key -> accepted key s' = accepted key s -> replayed key s' = replayed key s ->
  (forall i d, d_key d = key -> drainers s' !! i = Some d <-> drainers s !! i = Some d) ->
  journal_inv key s -> journal_inv key s'.
Proof.
  intros Hp Ha Hr Hd (hand & Hok & Hph). exists hand. rewrite Hp, Ha, Hr. split; [done|].
  assert (Hno : no_drainer s key -> no_drainer s' key).
  { intros Hn i d Hl Hk. by apply (Hn i d); [apply Hd|]. }
  unfold phase_ok in *. rewrite Hr. destruct (phase _).
  - naive_solver.
  - destruct Hph as (i & d & [H1 H2 H3 H4 H5 H6] & Hh). exists i, d. split; [|done]. split; try done.
    + by apply Hd.
    + intros j d' Hj Hk. by apply (H3 j d'); [apply Hd|].
    + by rewrite Ha.
  - naive_solver.
Qed.

Lemma pen_of_put st key p key' : pen_of (put st key p) key' = if decide (key = key') then p else pen_of st key'.
Proof. unfold pen_of, put. cbn. rewrite lookup_insert. by case_decide. Qed.

Lemma pen_of_charge st b key : pen_of (charge st b) key = pen_of st key.
Proof. done. Qed.

Lemma accepted_snoc key s st ds ev :
  accepted key (mkSys st ds (events s ++ [ev])) =
    match held_of key ev with Some e => journal (accepted key s) e | None => accepted key s end.
Proof. unfold accepted. cbn. rewrite omap_app, foldl_app. cbn. by destruct (held_of key ev). Qed.

Lemma replayed_snoc key s st ds ev :
  replayed key (mkSys st ds (events s ++ [ev])) =
    replayed key s ++ match replayed_of key ev with Some e => [e] | None => [] end.
Proof. unfold replayed. cbn. rewrite omap_app. cbn. by destruct (replayed_of key ev). Qed.

(** Operations that leave every pen as it was. *)
Lemma reserve_pen_of c st key key' : pen_of (reserve c st key).2 key' = pen_of st key'.
Proof.
  unfold reserve. case_bool_decide as Hk; [done|]. destruct (_ <=? _); [done|]. cbn. rewrite pen_of_put.
  case_decide; [subst|done]. unfold pen_of. apply eq_None_not_Some in Hk. by rewrite Hk.
Qed.

Lemma discard_if_empty_pen_of st key key' acc rep hand :
  pen_ok acc rep hand (pen_of st key) -> pen_of (discard_if_empty st key).2 key' = pen_of st key'.
Proof.
  intros Hok. unfold discard_if_empty. destruct (sessions st !! key) as [p|] eqn:Hp; [|done].
  destruct (phase p) as [[|]| |] eqn:Hph; try done. case_bool_decide as Hs; [|done].
  unfold pen_of in *. rewrite Hp in Hok. cbn in *. destruct (decide (key = key')) as [->|Hne].
  - rewrite lookup_delete_eq, Hp. cbn. symmetry. by apply (po_fresh _ _ _ _ Hok).
  - by rewrite lookup_delete_ne.
Qed.

Lemma discard_if_empty_other st key key' : key' <> key -> pen_of (discard_if_empty st key).2 key' = pen_of st key'.
Proof.
  intros Hne. unfold discard_if_empty. destruct (sessions st !! key) as [p|]; [|done].
  destruct (phase p) as [[|]| |]; try done. case_bool_decide; [|done].
  unfold pen_of. cbn. by rewrite lookup_delete_ne.
Qed.

Lemma drainers_insert_other (m : gmap Z Drainer) i d0 key :
  (forall d, m !! i = Some d -> d_key d <> key) -> d_key d0 <> key ->
  forall j d, d_key d = key -> <[i := d0]> m !! j = Some d <-> m !! j = Some d.
Proof.
  intros Hi H0 j d Hk. rewrite lookup_insert. case_decide as Hij; [subst|done].
  split; [intros [= ->]; done|intros Hd; by destruct (Hi _ Hd)].
Qed.

Lemma drainers_delete_other (m : gmap Z Drainer) i key :
  (forall d, m !! i = Some d -> d_key d <> key) ->
  forall j d, d_key d = key -> delete i m !! j = Some d <-> m !! j = Some d.
Proof.
  intros Hi j d Hk. rewrite lookup_delete. case_decide as Hij; [subst|done].
  split; [done|intros Hd; by destruct (Hi _ Hd)].
Qed.

(** A drainer of the session is the drain its pen records. *)
Lemma own_drainer key s i d hand :
  drainers s !! i = Some d -> d_key d = key -> phase_ok s key (pen_of (pen s) key) hand ->
  (exists q, phase (pen_of (pen s) key) = Draining q) /\ draining s key (pen_of (pen s) key) i d /\ d_todo d = hand.
Proof.
  intros Hd Hk Hph. unfold phase_ok in Hph. destruct (phase _) as [q|q|].
  - destruct Hph as (_ & _ & _ & Hno). by destruct (Hno _ _ Hd).
  - destruct Hph as (j & d' & Hdr & Hh). assert (i = j) as -> by by eapply (dr_unique _ _ _ _ _ Hdr).
    assert (d' = d) as -> by (pose proof (dr_lookup _ _ _ _ _ Hdr); congruence). split; [by eexists|done].
  - destruct Hph as (_ & _ & Hno). by destruct (Hno _ _ Hd).
Qed.

Lemma hold_inv c s key e : journal_inv key s -> journal_inv key (pen_step c s (DoHold key e)).
Proof.
  intros Hinv. cbn [pen_step]. unfold hold. destruct (_ && _); [by eapply journal_frame; [..|exact Hinv]|].
  fold (pen_of (pen s) key). destruct (decide (phase (pen_of (pen s) key) = Resolved)) as [Hres|Hph].
  { rewrite Hres. eapply journal_frame; [..|exact Hinv]; try done. cbn. by rewrite pen_of_put, decide_True. }
  destruct Hinv as (hand & Hok & Hpok).
  destruct (hold_unresolved (pen_of (pen s) key) (resident_byte_budget c <? saturating_add usize_max
    (resident_bytes (pen s)) (entry_resident_bytes e)) e) as [[out pushed] p'] eqn:Hh.
  destruct (hold_unresolved_ok _ _ _ _ _ _ _ _ _ Hph Hok Hh) as (Hok' & Hfl & Hp' & Hnr).
  assert (Hgen : forall evs, (forall key', replayed key' (mkSys (pen s) (drainers s) evs) = replayed key' s) ->
    accepted key (mkSys (pen s) (drainers s) evs) = match out with Held => journal (accepted key s) e | _ => accepted key s end ->
    journal_inv key (mkSys (charge (put (pen s) key p') (if pushed then entry_resident_bytes e else 0)) (drainers s) evs)).
  { intros evs Hr Ha. exists hand. cbn [pen]. rewrite pen_of_charge, pen_of_put, decide_True by done.
    change (accepted key (mkSys _ _ evs)) with (accepted key (mkSys (pen s) (drainers s) evs)).
    change (replayed key (mkSys _ _ evs)) with (replayed key (mkSys (pen s) (drainers s) evs)).
    rewrite Ha, Hr. split; [done|]. unfold phase_ok in *. rewrite Hp'.
    destruct (phase (pen_of (pen s) key)) as [q|q|]; cbn [map_queue]; [|..|done].
    - rewrite Hfl. by change (replayed key (mkSys _ _ evs)) with (replayed key (mkSys (pen s) (drainers s) evs)); rewrite Hr.
    - destruct Hpok as (i & d & [H1 H2 H3 H4 H5 H6] & Hhand). exists i, d. split; [|done]. split; try done; [by rewrite Hfl|].
      intros x Hx. change (accepted key (mkSys _ _ evs)) with (accepted key (mkSys (pen s) (drainers s) evs)). rewrite Ha.
      destruct out; [|by apply H6..]. destruct e; cbn; try case_bool_decide; rewrite ?elem_of_app; auto. }
  destruct (phase (pen_of (pen s) key)); [| |done]; destruct out; try (by apply Hgen);
    apply Hgen; intros; rewrite ?replayed_snoc, ?accepted_snoc; cbn; by rewrite ?app_nil_r, ?Z.eqb_refl.
Qed.

Lemma take_batch_ok acc rep p :
  pen_ok acc rep [] p -> pen_ok acc rep (queue p) (take_batch p (queue p)).
Proof. intros [Hrev Hst Hsub Heq Hnum Hfr]. by split; cbn; rewrite ?app_nil_r. Qed.

(** A drainer of the session moves on. *)
Lemma draining_update s s' key p p' i d :
  (forall j d', drainers s !! j = Some d' -> d_key d' = key -> j = i) ->
  drainers s' = <[i := d]> (drainers s) -> d_key d = key -> in_flight_turns p' = turn_identities (d_batch d) ->
  (forall x, x ∈ d_todo d -> x ∈ d_batch d) -> (forall x, x ∈ d_batch d -> x ∈ accepted key s') ->
  phase p' = Draining p -> phase_ok s' key p' (d_todo d).
Proof.
  intros Hu Hd Hk Hfl Htodo Hb Hp. unfold phase_ok. rewrite Hp. exists i, d. split; [|done]. split; try done.
  - rewrite Hd. apply lookup_insert_eq.
  - intros j d'. rewrite Hd, lookup_insert. case_decide; [done|]. apply Hu.
Qed.

(** A drainer of the session takes the whole queue. *)
Lemma take_inv key s i st p :
  pen_ok (accepted key s) (replayed key s) [] p -> pen_of st key = take_batch p (queue p) ->
  (forall j d', drainers s !! j = Some d' -> d_key d' = key -> j = i) ->
  journal_inv key (set_drainer (set_pen s st) i (mkDrainer key (queue p) (queue p) false)).
Proof.
  intros Hok Hp Huniq. exists (queue p). cbn [pen set_drainer set_pen]. rewrite Hp.
  split; [by apply take_batch_ok|].
  eapply (draining_update s _ key [] _ i (mkDrainer key (queue p) (queue p) false)); try done.
  intros x Hx. apply (po_sub _ _ _ _ Hok). rewrite !elem_of_app. tauto.
Qed.

Lemma begin_inv c s i key : journal_inv key s -> journal_inv key (pen_step c s (DoBegin i key)).
Proof.
  intros Hinv. cbn [pen_step]. destruct (drainers s !! i) as [d|] eqn:Hi; [done|].
  unfold begin_drain. fold (pen_of (pen s) key).
  assert (Hsame : journal_inv key (set_pen s (put (pen s) key (pen_of (pen s) key)))).
  { eapply journal_frame; [..|exact Hinv]; try done. cbn. by rewrite pen_of_put, decide_True. }
  destruct (phase (pen_of (pen s) key)) as [q|q|] eqn:Hph; [|done..].
  destruct Hinv as (hand & Hok & Hpok). unfold phase_ok in Hpok. rewrite Hph in Hpok.
  destruct Hpok as (_ & -> & _ & Hno). assert (q = queue (pen_of (pen s) key)) as Hq by (unfold queue; by rewrite Hph).
  rewrite Hq. apply take_inv; [done|by rewrite pen_of_put, decide_True|].
  intros j d' Hj Hk. by destruct (Hno _ _ Hj).
Qed.

(** Replaying one entry: handed on, or skipped because a newer departure of
    its slot has been accepted. *)
Lemma replay_entry_live s key e hand :
  pen_ok (accepted key s) (replayed key s) (e :: hand) (pen_of (pen s) key) ->
  sessions (pen s) !! key <> None ->
  (replay_entry (pen s) key e = EvReplayed key e /\ live (accepted key s) e) \/
  (replay_entry (pen s) key e = EvSkipped key e /\ ~ live (accepted key s) e).
Proof.
  intros Hok Hsome. destruct e as [| | |sl r ep n]; cbn; [by left..|].
  assert (Hn : 1 <= n <= departures sl (accepted key s)).
  { apply (po_num _ _ _ _ Hok) with r ep. apply (po_sub _ _ _ _ Hok). rewrite !elem_of_app. right; left; left. }
  pose proof (po_rev _ _ _ _ Hok sl) as Hrev. unfold departure_is_current, pen_of in *.
  destruct (sessions (pen s) !! key) as [p|]; [|done]. cbn in *. rewrite <-Hrev in *.
  case_bool_decide as Hcur; [left|right]; (split; [done|]).
  - by rewrite Hcur.
  - intros ->. apply Hcur. destruct (departure_revisions p !! sl); cbn in *; [done|lia].
Qed.

Lemma replay_inv c s i key d :
  drainers s !! i = Some d -> d_key d = key -> journal_inv key s -> journal_inv key (pen_step c s (DoReplay i)).
Proof.
  intros Hi Hk (hand & Hok & Hpok). cbn [pen_step]. rewrite Hi. destruct d as [k batch [|e todo] rel]; [by exists hand|].
  cbn in Hk. subst k. destruct (own_drainer key _ _ _ _ Hi eq_refl Hpok) as ((q & Hq) & [H1 H2 H3 H4 H5 H6] & Hh).
  cbn in Hh, H4, H5, H6. subst hand.
  assert (Hsome : sessions (pen s) !! key <> None).
  { intros Hnone. unfold pen_of in Hq. by rewrite Hnone in Hq. }
  destruct (replay_entry_live s key e todo Hok Hsome) as [[-> Hl]|[-> Hl]];
    exists todo; rewrite accepted_snoc, replayed_snoc; cbn [held_of replayed_of pen]; rewrite ?Z.eqb_refl.
  all: split; [destruct Hok as [Hrev Hst Hsub Heq Hnum Hfr]; split; try done
              |eapply (draining_update s _ key q _ i (mkDrainer key batch todo rel)); try done; cbn [d_batch d_todo];
               [intros x Hx; apply H5; by right|by rewrite accepted_snoc]].
  - by rewrite <-app_assoc.
  - by rewrite <-app_assoc.
  - rewrite app_nil_r. intros x Hx. apply Hsub. rewrite !elem_of_app in *. rewrite elem_of_cons. tauto.
  - rewrite app_nil_r, <-Heq, !filter_app. f_equal. rewrite filter_cons, decide_False; done.
Qed.

Lemma release_inv c s i key d :
  drainers s !! i = Some d -> d_key d = key -> journal_inv key s -> journal_inv key (pen_step c s (DoRelease i)).
Proof.
  intros Hi Hk (hand & Hok & Hpok). cbn [pen_step]. rewrite Hi.
  destruct d as [k batch [|e todo] [|]]; try (by exists hand). cbn in Hk. subst k.
  destruct (own_drainer key _ _ _ _ Hi eq_refl Hpok) as ((q & Hq) & [H1 H2 H3 H4 H5 H6] & Hh).
  exists hand. split; [done|]. rewrite <-Hh.
  by eapply (draining_update s _ key q _ i (mkDrainer key batch [] true)).
Qed.

Lemma continue_inv c s i key d :
  drainers s !! i = Some d -> d_key d = key -> journal_inv key s -> journal_inv key (pen_step c s (DoContinue i)).
Proof.
  intros Hi Hk (hand & Hok & Hpok). cbn [pen_step]. rewrite Hi.
  destruct d as [k batch [|e todo] [|]]; try (by exists hand). cbn in Hk. subst k.
  destruct (own_drainer key _ _ _ _ Hi eq_refl Hpok) as ((q & Hq) & [H1 H2 H3 H4 H5 H6] & Hh). cbn in Hh. subst hand.
  unfold continue_drain. destruct (sessions (pen s) !! key) as [p|] eqn:Hp.
  2: { unfold pen_of in Hq. by rewrite Hp in Hq. }
  assert (Hpen : pen_of (pen s) key = p) by (unfold pen_of; by rewrite Hp). rewrite Hpen in *. cbn [phase clear_in_flight].
  rewrite Hq. destruct q as [|e q].
  - exists []. unfold phase_ok. cbn [pen phase]. rewrite pen_of_put, decide_True by done. cbn.
    destruct Hok as [Hrev Hst Hsub Heq Hnum Hfr]. unfold queue in *. rewrite Hq in *. split; [by split|].
    split; [done|]. split; [done|]. intros j d'. cbn. rewrite lookup_delete. case_decide as Hj; [done|].
    intros Hd' Hk'. apply Hj. symmetry. by apply (H3 j d').
  - assert (e :: q = queue p) as Hqp by (unfold queue; by rewrite Hq). rewrite Hqp.
    change (take_batch (clear_in_flight p) (queue p)) with (take_batch p (queue p)).
    apply take_inv; [done|by rewrite pen_of_put, decide_True|done].
Qed.

(** Operations on another session touch neither this one's pen, nor its
    history, nor its drainer. *)
Lemma other_hold_inv c key s k e : k <> key -> journal_inv key s -> journal_inv key (pen_step c s (DoHold k e)).
Proof.
  intros Hk Hinv. cbn [pen_step].
  assert (Hp : pen_of (hold c (pen s) k e).2 key = pen_of (pen s) key).
  { unfold hold. destruct (_ && _); [done|].
    destruct (phase (default gathering _)); [destruct (hold_unresolved _ _ _) as [[? ?] ?]..|]; cbn;
      rewrite ?pen_of_charge, pen_of_put, decide_False; done. }
  destruct (hold c (pen s) k e) as [[| |] st]; cbn in Hp; (eapply journal_frame; [..|exact Hinv]; try done).
  - rewrite accepted_snoc. cbn. by destruct (Z.eqb_spec k key).
  - rewrite replayed_snoc. cbn. by rewrite app_nil_r.
Qed.

Lemma other_begin_inv c key s i k : k <> key -> journal_inv key s -> journal_inv key (pen_step c s (DoBegin i k)).
Proof.
  intros Hk Hinv. cbn [pen_step]. destruct (drainers s !! i) as [d|] eqn:Hi; [done|]. unfold begin_drain.
  destruct (phase (default gathering _)); (eapply journal_frame; [..|exact Hinv]; try done; cbn);
    rewrite ?pen_of_put, ?decide_False by done; try done.
  apply drainers_insert_other; [congruence|done].
Qed.

Lemma other_drainer_inv c key s i d o :
  drainers s !! i = Some d -> d_key d <> key -> o = DoReplay i \/ o = DoRelease i \/ o = DoContinue i ->
  journal_inv key s -> journal_inv key (pen_step c s o).
Proof.
  intros Hi Hk Ho Hinv. assert (Hi' : forall d', drainers s !! i = Some d' -> d_key d' <> key) by congruence.
  destruct d as [k batch todo rel]. cbn in Hk.
  destruct Ho as [->|[->| ->]]; cbn [pen_step]; rewrite Hi.
  - destruct todo as [|e todo]; [done|].
    assert (He : held_of key (replay_entry (pen s) k e) = None /\ replayed_of key (replay_entry (pen s) k e) = None).
    { assert (Hkk : (k =? key) = false) by by apply Z.eqb_neq.
      destruct e; cbn; try destruct (departure_is_current _ _ _ _); cbn; by rewrite ?Hkk. }
    destruct He as [Hh Hr]. eapply journal_frame; [..|exact Hinv]; try done.
    + by rewrite accepted_snoc, Hh.
    + by rewrite replayed_snoc, Hr, app_nil_r.
    + by apply drainers_insert_other.
  - destruct todo; [|done]. destruct rel; [done|]. eapply journal_frame; [..|exact Hinv]; try done.
    by apply drainers_insert_other.
  - destruct todo; [|done]. destruct rel; [|done]. unfold continue_drain.
    destruct (sessions (pen s) !! k) as [p|].
    + cbn [phase clear_in_flight]. destruct (phase p) as [|[|]|];
        (eapply journal_frame; [..|exact Hinv]; try done; cbn);
        rewrite ?pen_of_put, ?decide_False by done; try done;
        [by apply drainers_delete_other..|by apply drainers_insert_other|by apply drainers_delete_other].
    + eapply journal_frame; [..|exact Hinv]; try done. by apply drainers_delete_other.
Qed.

Lemma pen_step_inv c key s o : o <> DoDiscard key -> journal_inv key s -> journal_inv key (pen_step c s o).
Proof.
  intros Hno Hinv.
  assert (Hdr : forall i, o = DoReplay i \/ o = DoRelease i \/ o = DoContinue i -> journal_inv key (pen_step c s o)).
  { intros i Ho. destruct (drainers s !! i) as [d|] eqn:Hi.
    - destruct (decide (d_key d = key)); [|by eapply other_drainer_inv].
      destruct Ho as [->|[->| ->]]; [eapply replay_inv|eapply release_inv|eapply continue_inv]; done.
    - destruct Ho as [->|[->| ->]]; cbn; by rewrite Hi. }
  destruct o as [k|k e|i k|i|i|i|k|k]; try by eauto.
  - cbn. eapply journal_frame; [..|exact Hinv]; try done. apply reserve_pen_of.
  - destruct (decide (k = key)) as [->|Hk]; [by apply hold_inv|by apply other_hold_inv].
  - destruct (decide (k = key)) as [->|Hk]; [by apply begin_inv|by apply other_begin_inv].
  - cbn. eapply journal_frame; [..|exact Hinv]; try done. cbn. unfold discard.
    destruct (sessions (pen s) !! k); [|done]. unfold pen_of. cbn. by rewrite lookup_delete_ne by congruence.
  - cbn. eapply journal_frame; [..|exact Hinv]; try done. cbn. destruct Hinv as (hand & Hok & _).
    destruct (decide (k = key)) as [->|Hk]; [by eapply discard_if_empty_pen_of|by apply discard_if_empty_other].
Qed.

Lemma pen_run_inv c key ops : DoDiscard key ∉ ops -> journal_inv key (pen_run c ops).
Proof.
  unfold pen_run. generalize (init_inv key). generalize sys_init.
  induction ops as [|o ops IH]; intros s Hs Hin; [done|]. apply not_elem_of_cons in Hin as [Ho Hin].
  cbn. apply IH; [|done]. apply pen_step_inv; [congruence|done].
Qed.

(** What the drainer still holds, and what the pen reports of it. *)
Lemma phase_hand s key p hand :
  phase_ok s key p hand -> hand = [] \/ exists i d, draining s key p i d /\ d_todo d = hand.
Proof. unfold phase_ok. destruct (phase p); [left; tauto|by right|left; tauto]. Qed.

Lemma phase_in_flight s key p hand x :
  phase_ok s key p hand -> x ∈ in_flight_turns p ->
  exists q, q.1 = x.1 /\ seq q.2 = x.2 /\ Turn q.1 q.2 ∈ accepted key s.
Proof.
  intros Hph Hx. unfold phase_ok in Hph.
  destruct (phase p); [destruct Hph as (_ & _ & Hf & _)| |destruct Hph as (_ & Hf & _)].
  1,3: rewrite Hf in Hx; by apply not_elem_of_nil in Hx.
  destruct Hph as (i & d & Hd & _). rewrite (dr_shadow _ _ _ _ _ Hd) in Hx.
  apply list_elem_of_omap in Hx as (e & He & Hxe). destruct e as [t q| | |]; try done. injection Hxe as <-.
  exists (t, q). split; [done|]. split; [done|]. by apply (dr_batch _ _ _ _ _ Hd).
Qed.

Lemma elem_of_held_turn_seqs st key slot q :
  q ∈ held_turn_seqs st key slot <->
    (exists p, seq p = q /\ Turn slot p ∈ queue (pen_of st key)) \/ (slot, q) ∈ in_flight_turns (pen_of st key).
Proof.
  unfold held_turn_seqs, pen_of. destruct (sessions st !! key) as [p0|]; cbn; [|set_solver].
  rewrite elem_of_app, list_elem_of_omap, list_elem_of_fmap. f_equiv; split.
  - intros (x & Hx & He). destruct x as [t p| | |]; try done. destruct (Z.eqb_spec t slot); [|done]. naive_solver.
  - intros (p & Hp & Hx). exists (Turn slot p). by rewrite Z.eqb_refl, Hp.
  - intros ([t q'] & -> & [Ht Hx]%list_elem_of_filter). cbn in *. by subst.
  - intros Hx. exists (slot, q). split; [done|]. by apply list_elem_of_filter.
Qed.

(** ** Properties *)

(** C3 Nothing accepted is lost, reordered or replayed twice.  Whatever
    deposits, drains, reservations and emptied-session closes interleave, on
    every session, until the session is retired: the entries handed on, then
    those its drainer still holds, then those queued are, in order, exactly
    the entries the journal accepted, superseded departures aside; and once
    the journal is resolved all of them have been handed on. *)
Theorem journal_exact (c : PenLimits) (ops : list PenOp) (key : Z) :
  DoDiscard key ∉ ops ->
  let s := pen_run c ops in
  let acc := accepted key s in
  exists hand,
    (hand = [] \/ exists i d, drainers s !! i = Some d /\ d_key d = key /\ d_todo d = hand) /\
    filter (live acc) (replayed key s ++ hand ++ queue (pen_of (pen s) key)) = filter (live acc) acc /\
    (phase (pen_of (pen s) key) = Resolved -> filter (live acc) (replayed key s) = filter (live acc) acc).
Proof.
  intros Hin s acc. destruct (pen_run_inv c key ops Hin) as (hand & Hok & Hph). fold s in Hok, Hph. fold acc in Hok.
  exists hand. split_and!.
  - destruct (phase_hand _ _ _ _ Hph) as [Hh|(i & d & Hd & Hh)]; [by left|right].
    exists i, d. split; [by eapply dr_lookup|]. split; [by eapply dr_key|done].
  - apply (po_eq _ _ _ _ Hok).
  - intros Hres. unfold phase_ok in Hph. rewrite Hres in Hph. destruct Hph as (-> & _). rewrite <-(po_eq _ _ _ _ Hok).
    unfold queue. rewrite Hres. cbn. by rewrite !app_nil_r.
Qed.

(** A superseded departure is never replayed, and the newest one never
    skipped: an entry a drainer takes up is handed on exactly when no later
    departure of its slot has been accepted, however long it sat in the
    drainer's batch. *)
Theorem only_newest_departure_replays (c : PenLimits) (ops : list PenOp) (key i : Z) (d : Drainer)
    (e : PennedIngress) (todo : list PennedIngress) :
  DoDiscard key ∉ ops ->
  let s := pen_run c ops in
  drainers s !! i = Some d -> d_key d = key -> d_todo d = e :: todo ->
  events (pen_step c s (DoReplay i)) =
    events s ++ [if decide (live (accepted key s) e) then EvReplayed key e else EvSkipped key e].
Proof.
  intros Hin s Hd Hk Ht. destruct (pen_run_inv c key ops Hin) as (hand & Hok & Hph). fold s in Hok, Hph.
  destruct (own_drainer key _ _ _ _ Hd Hk Hph) as ((q & Hq) & _ & Hh). rewrite Ht in Hh. subst hand.
  destruct d as [k b t r]. cbn in Hk, Ht. subst k t. cbn [pen_step]. rewrite Hd. cbn [events]. do 2 f_equal.
  destruct (replay_entry_live s key e todo Hok) as [[-> Hl]|[-> Hl]].
  - intros Hnone. unfold pen_of in Hq. by rewrite Hnone in Hq.
  - by rewrite decide_True.
  - by rewrite decide_False.
Qed.

(** The resume read sees every receipt: at every point of every run before
    retirement, a turn the journal accepted has either been handed on already
    or its sequence number is in [held_turn_seqs]; and that read reports
    nothing that was not accepted. *)
Theorem receipts_never_missed (c : PenLimits) (ops : list PenOp) (key slot : Z) :
  DoDiscard key ∉ ops ->
  let s := pen_run c ops in
  (forall p, Turn slot p ∈ accepted key s ->
     Turn slot p ∈ replayed key s \/ seq p ∈ held_turn_seqs (pen s) key slot) /\
  (forall q, q ∈ held_turn_seqs (pen s) key slot -> exists p, seq p = q /\ Turn slot p ∈ accepted key s).
Proof.
  intros Hin s. destruct (pen_run_inv c key ops Hin) as (hand & Hok & Hph). fold s in Hok, Hph. split.
  - intros p Hp. assert (Hl : Turn slot p ∈ filter (live (accepted key s)) (accepted key s)) by by apply list_elem_of_filter.
    rewrite <-(po_eq _ _ _ _ Hok) in Hl. apply list_elem_of_filter in Hl as [_ Hl]. rewrite !elem_of_app in Hl.
    destruct Hl as [Hl|[Hl|Hl]]; [by left|right; apply elem_of_held_turn_seqs..]; [right|left; by exists p].
    destruct (phase_hand _ _ _ _ Hph) as [->|(i & d & Hd & <-)]; [by apply not_elem_of_nil in Hl|].
    rewrite (dr_shadow _ _ _ _ _ Hd). apply list_elem_of_omap.
    exists (Turn slot p). split; [by apply (dr_todo _ _ _ _ _ Hd)|done].
  - intros q [(p & Hp & Hq)|Hq]%elem_of_held_turn_seqs.
    + exists p. split; [done|]. apply (po_sub _ _ _ _ Hok). rewrite !elem_of_app. tauto.
    + destruct (phase_in_flight _ _ _ _ _ Hph Hq) as ([t p] & Ht & Hp & Hacc). cbn in *. subst t. by exists p.
Qed.

(** ** Witnesses *)

Definition demo_turn (s q : Z) : PennedIngress := Turn s (mkPayload q s [q] None None None None).

(** Slot 1 drops, the drain takes that departure, and a newer one arrives
    while the batch is being replayed. *)
Definition demo_journal : list PenOp :=
  [DoReserve 7; DoHold 7 (demo_turn 1 0); DoHold 7 (Departure 1 1 (Some 4) 0); DoBegin 0 7;
   DoHold 7 (demo_turn 2 0); DoHold 7 (Departure 1 3 (Some 5) 0); DoReplay 0].

Definition demo_journal_done : list PenOp :=
  demo_journal ++ [DoReplay 0; DoRelease 0; DoContinue 0; DoReplay 0; DoReplay 0; DoRelease 0; DoContinue 0].

Lemma demo_not_retired : (DoDiscard 7 ∉ demo_journal) /\ (DoDiscard 7 ∉ demo_journal_done).
Proof.
  unfold demo_journal_done, demo_journal. cbn [app].
  split; rewrite !not_elem_of_cons; repeat split; try discriminate; apply not_elem_of_nil.
Qed.

Lemma journal_exact_witness :
  replayed 7 (pen_run production demo_journal_done)
    = [demo_turn 1 0; demo_turn 2 0; Departure 1 3 (Some 5) 2] /\
  filter (live (accepted 7 (pen_run production demo_journal_done))) (replayed 7 (pen_run production demo_journal_done))
    = filter (live (accepted 7 (pen_run production demo_journal_done))) (accepted 7 (pen_run production demo_journal_done)).
Proof.
  split; [vm_compute; reflexivity|].
  destruct (journal_exact production demo_journal_done 7 (proj2 demo_not_retired)) as (hand & _ & _ & Hres).
  apply Hres. vm_compute. reflexivity.
Defined.

Lemma only_newest_departure_replays_witness :
  events (pen_step production (pen_run production demo_journal) (DoReplay 0)) =
    events (pen_run production demo_journal) ++ [EvSkipped 7 (Departure 1 1 (Some 4) 1)].
Proof.
  rewrite (only_newest_departure_replays production demo_journal 7 0
    (mkDrainer 7 [demo_turn 1 0; Departure 1 1 (Some 4) 1] [Departure 1 1 (Some 4) 1] false)
    (Departure 1 1 (Some 4) 1) [] (proj1 demo_not_retired)); vm_compute; reflexivity.
Defined.

Lemma receipts_never_missed_witness :
  0 ∈ held_turn_seqs (pen (pen_run production demo_journal)) 7 2.
Proof.
  destruct (receipts_never_missed production demo_journal 7 2 (proj1 demo_not_retired)) as [H _].
  destruct (H (mkPayload 0 2 [0] None None None None)) as [Hr|Hr].
  - vm_compute. right. right. left.
  - exfalso. vm_compute in Hr. inversion Hr as [|? ? ? Hn]; subst; inversion Hn.
  - exact Hr.
Defined.
