(* ===== verification/ProvisionalBounds.v ===== *)
(** * Ceilings and seals of the provisional journal ([relay/src/session/provisional_turns/mod.rs])

    The relay-wide byte budget, the size of one session's queue, and the seals
    that keep a finished or holed slot out, over the runs of Provisional.v. *)

From Stdlib Require Import ZArith Lia.
From stdpp Require Import gmap sorting list.
From S2P Require Import Prelude RateLimit Wire SideChannel Provisional.

Open Scope Z_scope.

Implicit Types (l : list PennedIngress) (e : PennedIngress).

(** ** The byte budget *)

Definition queue_bytes (p : SessionPen) : Z := sumz entry_resident_bytes (queue p).

(** The charge of a batch its drainer has not given back. *)
Definition batch_charge (d : Drainer) : Z := if d_released d then 0 else sumz entry_resident_bytes (d_batch d).

Lemma entry_bytes_nonneg e : 0 <= entry_resident_bytes e.
Proof. destruct e; cbn; unfold payload_command_bytes, JOURNAL_ENVELOPE_BYTES; lia. Qed.

Lemma bytes_nonneg l : 0 <= sumz entry_resident_bytes l.
Proof. apply sumz_nonneg. intros. apply entry_bytes_nonneg. Qed.

Lemma queue_bytes_nonneg p : 0 <= queue_bytes p.
Proof. apply bytes_nonneg. Qed.

Lemma batch_charge_nonneg d : 0 <= batch_charge d.
Proof. unfold batch_charge. destruct (d_released d); [lia|apply bytes_nonneg]. Qed.

(** Compaction removes departures only, which are not charged. *)
Lemma compaction_free slot l :
  sumz entry_resident_bytes (filter (fun x => ~ is_departure_of slot x) l) = sumz entry_resident_bytes l.
Proof.
  induction l as [|x l IH]; [done|]. rewrite filter_cons. case_decide as Hd; cbn; rewrite IH; [done|].
  destruct x; cbn in *; [tauto..|lia].
Qed.

Lemma hold_unresolved_bytes p over e out pushed p' :
  phase p <> Resolved -> hold_unresolved p over e = (out, pushed, p') ->
  queue_bytes p' = queue_bytes p + (if pushed then entry_resident_bytes e else 0) /\
  (pushed = true -> 0 < entry_resident_bytes e -> over = false).
Proof.
  intros Hph Hh. unfold queue_bytes.
  assert (Hpush : forall q x, phase q <> Resolved ->
    sumz entry_resident_bytes (queue (push_back q x)) = sumz entry_resident_bytes (queue q) + entry_resident_bytes x).
  { intros q x Hq. rewrite queue_push, sumz_app by done. cbn. lia. }
  destruct e as [s pl|s m|s|s r ep n]; cbn [hold_unresolved] in Hh.
  - destruct (_ || _) eqn:Hov; injection Hh as <- <- <-; [by rewrite Z.add_0_r|].
    rewrite Hpush by done. split; [done|]. by apply orb_false_iff in Hov as [_ ->].
  - destruct (_ || _) eqn:Hov; injection Hh as <- <- <-; [by rewrite Z.add_0_r|].
    rewrite Hpush by done. split; [done|]. by apply orb_false_iff in Hov as [_ ->].
  - destruct (bool_decide _); injection Hh as <- <- <-; [by rewrite Z.add_0_r|]. rewrite Hpush by done. split; [done|]. cbn. lia.
  - injection Hh as <- <- <-. set (p1 := if r =? LEAVE_REASON_LEFT then seal p s else p).
    assert (Hp1 : phase p1 = phase p) by (unfold p1; by destruct (r =? _)).
    split; [|cbn; lia]. rewrite Hpush by (cbn; rewrite Hp1; by destruct (phase p)).
    f_equal. unfold queue. cbn. rewrite Hp1. destruct (phase p); cbn; [apply compaction_free..|done].
Qed.

Section Budget.
Context (c : PenLimits).
Hypothesis budget_width : 0 <= resident_byte_budget c < usize_max.

Record bytes_inv (s : Sys) : Prop := {
  by_exact : resident_bytes (pen s) = msum queue_bytes (sessions (pen s)) + msum batch_charge (drainers s);
  by_budget : resident_bytes (pen s) <= resident_byte_budget c;
}.

Lemma msum_put st key p :
  msum queue_bytes (sessions (put st key p)) = msum queue_bytes (sessions st) - queue_bytes (pen_of st key) + queue_bytes p.
Proof.
  unfold put. cbn [sessions]. rewrite msum_insert. unfold pen_of.
  assert (Hg : queue_bytes gathering = 0) by done.
  destruct (sessions st !! key) as [q|]; cbn [default]; unfold id; lia.
Qed.

Lemma sums_nonneg s : 0 <= msum queue_bytes (sessions (pen s)) /\ 0 <= msum batch_charge (drainers s).
Proof. split; apply msum_nonneg; [apply queue_bytes_nonneg|apply batch_charge_nonneg]. Qed.

Lemma hold_bytes_inv s key e : bytes_inv s -> bytes_inv (pen_step c s (DoHold key e)).
Proof.
  intros [Hex Hb]. destruct (sums_nonneg s) as [Hn1 Hn2].
  assert (Hst : let st := (hold c (pen s) key e).2 in
    resident_bytes st = msum queue_bytes (sessions st) + msum batch_charge (drainers s) /\
    resident_bytes st <= resident_byte_budget c).
  { unfold hold. destruct (_ && _); [done|]. fold (pen_of (pen s) key).
    set (over := resident_byte_budget c <? _).
    destruct (hold_unresolved (pen_of (pen s) key) over e) as [[out pushed] p'] eqn:Hh.
    destruct (phase (pen_of (pen s) key)) eqn:Hph; cbn [snd]; rewrite ?msum_put; [| |cbn; lia];
      destruct (hold_unresolved_bytes _ _ _ _ _ _ ltac:(by rewrite Hph) Hh) as [Hq Hov];
      (split; [cbn [charge sessions resident_bytes]; rewrite msum_put; cbn; lia|]); cbn;
      (destruct pushed; [|lia]); pose proof (entry_bytes_nonneg e);
      (destruct (decide (0 < entry_resident_bytes e)) as [Hpos|]; [|lia]);
      specialize (Hov eq_refl Hpos); unfold over in Hov; apply Z.ltb_ge in Hov; width_lia. }
  cbn [pen_step]. destruct (hold c (pen s) key e) as [[| |] st]; cbn in Hst; destruct Hst; by split.
Qed.

(** Moving a queue into a batch keeps the total. *)
Lemma take_bytes_inv s i key p :
  bytes_inv s -> pen_of (pen s) key = p -> (forall d, drainers s !! i = Some d -> batch_charge d = 0) ->
  bytes_inv (set_drainer (set_pen s (put (pen s) key (take_batch p (queue p)))) i
               (mkDrainer key (queue p) (queue p) false)).
Proof.
  intros [Hex Hb] Hp Hi. split; cbn [set_drainer set_pen pen drainers]; [|done].
  change (resident_bytes (put (pen s) key (take_batch p (queue p)))) with (resident_bytes (pen s)).
  rewrite msum_put, msum_insert, Hp, Hex.
  assert (Ho : match drainers s !! i with Some y => batch_charge y | None => 0 end = 0).
  { destruct (drainers s !! i); [by apply Hi|done]. }
  rewrite Ho. unfold queue_bytes at 3. unfold batch_charge at 3. cbn. unfold queue_bytes. lia.
Qed.

Lemma put_bytes_inv s key p :
  bytes_inv s -> queue_bytes p = queue_bytes (pen_of (pen s) key) -> bytes_inv (set_pen s (put (pen s) key p)).
Proof. intros [Hex Hb] Hq. split; [|done]. cbn [set_pen pen drainers]. rewrite msum_put, Hq. cbn [put resident_bytes]. lia. Qed.

Lemma pen_step_bytes s o : bytes_inv s -> bytes_inv (pen_step c s o).
Proof.
  intros Hinv. pose proof Hinv as [Hex Hb]. destruct (sums_nonneg s) as [Hn1 Hn2].
  destruct o as [k|k e|i k|i|i|i|k|k]; cbn [pen_step].
  - unfold reserve. case_bool_decide as Hk; [by destruct s|]. destruct (_ <=? _); [by destruct s|].
    apply put_bytes_inv; [done|]. apply eq_None_not_Some in Hk. unfold pen_of. by rewrite Hk.
  - by apply hold_bytes_inv.
  - destruct (drainers s !! i) as [d|] eqn:Hi; [done|]. unfold begin_drain. fold (pen_of (pen s) k).
    destruct (phase (pen_of (pen s) k)) as [q|q|] eqn:Hph; [|by apply put_bytes_inv..].
    assert (q = queue (pen_of (pen s) k)) as -> by (unfold queue; by rewrite Hph).
    apply take_bytes_inv; [done|done|]. congruence.
  - destruct (drainers s !! i) as [[k b [|e todo] r]|] eqn:Hi; try done. split; [|done].
    cbn [pen drainers]. rewrite msum_insert, Hi. unfold batch_charge at 3. unfold batch_charge at 2. cbn. lia.
  - destruct (drainers s !! i) as [[k b [|e todo] [|]]|] eqn:Hi; try done.
    assert (Hle : batch_charge (mkDrainer k b [] false) <= msum batch_charge (drainers s)).
    { pose proof (msum_nonneg batch_charge (delete i (drainers s)) batch_charge_nonneg) as Hd.
      rewrite msum_delete, Hi in Hd. lia. }
    unfold batch_charge at 1 in Hle. cbn in Hle.
    split; cbn [set_drainer set_pen pen drainers release_drained sessions resident_bytes].
    + rewrite msum_insert, Hi. unfold batch_charge at 2 3. cbn. width_lia.
    + pose proof (bytes_nonneg b). width_lia.
  - destruct (drainers s !! i) as [[k b [|e todo] [|]]|] eqn:Hi; try done. unfold continue_drain.
    assert (Hdel : msum batch_charge (delete i (drainers s)) = msum batch_charge (drainers s)).
    { rewrite msum_delete, Hi. unfold batch_charge at 2. cbn. lia. }
    destruct (sessions (pen s) !! k) as [p|] eqn:Hp; [|by split; cbn [pen drainers]; [rewrite Hdel|]].
    assert (Hpen : pen_of (pen s) k = p) by (unfold pen_of; by rewrite Hp).
    assert (Hput : forall q, queue_bytes q = queue_bytes p ->
      bytes_inv (mkSys (put (pen s) k q) (delete i (drainers s)) (events s))).
    { intros q Hq. split; [|done]. cbn [pen drainers]. rewrite msum_put, Hpen, Hq, Hdel. cbn [put resident_bytes]. lia. }
    cbn [phase clear_in_flight]. destruct (phase p) as [|[|e q]|] eqn:Hph; try by apply Hput.
    + apply Hput. unfold queue_bytes, queue. cbn. by rewrite Hph.
    + assert (e :: q = queue p) as -> by (unfold queue; by rewrite Hph).
      change (take_batch (clear_in_flight p) (queue p)) with (take_batch p (queue p)).
      apply take_bytes_inv; [done|done|]. intros d Hd. rewrite Hi in Hd. by injection Hd as <-.
  - unfold discard. destruct (sessions (pen s) !! k) as [p|] eqn:Hp; [|by destruct s].
    assert (Hle : queue_bytes p <= msum queue_bytes (sessions (pen s))).
    { pose proof (msum_nonneg queue_bytes (delete k (sessions (pen s))) queue_bytes_nonneg) as Hd.
      rewrite msum_delete, Hp in Hd. lia. }
    pose proof (queue_bytes_nonneg p). fold (queue_bytes p).
    split; cbn [set_pen pen drainers sessions resident_bytes]; [rewrite msum_delete, Hp|]; width_lia.
  - unfold discard_if_empty. destruct (sessions (pen s) !! k) as [p|] eqn:Hp; [|by destruct s].
    destruct (phase p) as [[|]| |] eqn:Hph; try by destruct s.
    case_bool_decide; [|by destruct s]. split; cbn [set_pen pen drainers sessions resident_bytes snd]; [|done].
    rewrite msum_delete, Hp. unfold queue_bytes at 2. unfold queue. rewrite Hph. cbn. lia.
Qed.

Lemma pen_run_bytes ops : bytes_inv (pen_run c ops).
Proof.
  unfold pen_run. assert (Hi : bytes_inv sys_init) by (split; cbn; rewrite ?msum_empty; lia).
  revert Hi. generalize sys_init. induction ops as [|o ops IH]; intros s Hs; [done|]. cbn. by apply IH, pen_step_bytes.
Qed.
End Budget.

(** ** The size of one journal *)

Definition is_turn e : Prop := match e with Turn _ _ => True | _ => False end.
Definition is_lobby_of (slot : Z) e : Prop := match e with Lobby s _ => s = slot | _ => False end.
#[export] Instance is_turn_dec e : Decision (is_turn e).
Proof. unfold is_turn. destruct e; apply _. Defined.
#[export] Instance is_lobby_of_dec slot e : Decision (is_lobby_of slot e).
Proof. unfold is_lobby_of. destruct e; apply _. Defined.

Definition entry_slot e : Z :=
  match e with Turn s _ | Lobby s _ | GameStarted s | Departure s _ _ _ => s end.

Definition tally (P : PennedIngress -> Prop) `{!forall e, Decision (P e)} l : Z := Z.of_nat (length (filter P l)).

Lemma tally_app P `{!forall e, Decision (P e)} l l' : tally P (l ++ l') = tally P l + tally P l'.
Proof. unfold tally. rewrite filter_app, length_app. lia. Qed.

Lemma tally_one P `{!forall e, Decision (P e)} e : tally P [e] = if decide (P e) then 1 else 0.
Proof. unfold tally. rewrite filter_cons. by case_decide. Qed.

Lemma tally_filter P Q `{!forall e, Decision (P e)} `{!forall e, Decision (Q e)} l :
  (forall e, P e -> Q e) -> tally P (filter Q l) = tally P l.
Proof. intros HPQ. unfold tally. rewrite list_filter_filter. do 2 f_equal. apply list_filter_iff. naive_solver. Qed.

Definition usage_of (p : SessionPen) (slot : Z) : LobbyUsage := default (mkLobbyUsage 0 0) (lobby_usage p !! slot).

Lemma usage_of_set p slot u slot' :
  usage_of (set_usage p slot u) slot' = if decide (slot = slot') then u else usage_of p slot'.
Proof. unfold usage_of. cbn. rewrite lookup_insert. by case_decide. Qed.

Record pen_wf (p : SessionPen) : Prop := {
  wf_turns : turn_count p = tally is_turn (queue p);
  wf_cap : turn_count p <= PER_SESSION_CAP;
  wf_departure : forall s, tally (is_departure_of s) (queue p) <= 1;
  wf_lobby : forall s, tally (is_lobby_of s) (queue p) <= usage_count (usage_of p s) <= LOG_MAX_COMMANDS;
  wf_started : forall s, tally (fun e => e = GameStarted s) (queue p) <= (if decide (s ∈ started_slots p) then 1 else 0);
}.

Lemma gathering_wf : pen_wf gathering.
Proof.
  assert (H0 : forall P `{!forall e, Decision (P e)}, tally P (queue gathering) = 0) by done.
  split; intros; rewrite ?H0; cbn; unfold PER_SESSION_CAP, LOG_MAX_COMMANDS, usage_of; cbn; try lia.
  - rewrite lookup_empty. cbn. lia.
  - case_decide; lia.
Qed.

(** Sealing and recording change no count. *)
Lemma wf_frame p p' :
  queue p' = queue p -> turn_count p' = turn_count p -> (forall s, usage_of p' s = usage_of p s) ->
  started_slots p' = started_slots p -> pen_wf p -> pen_wf p'.
Proof. intros Hq Ht Hu Hs [H1 H2 H3 H4 H5]. split; intros; rewrite ?Hq, ?Ht, ?Hu, ?Hs; done. Qed.

(** A pen whose queue was taken. *)
Lemma wf_taken p p' :
  queue p' = [] -> turn_count p' = 0 -> lobby_usage p' = lobby_usage p -> started_slots p' = started_slots p ->
  pen_wf p -> pen_wf p'.
Proof.
  intros Hq Ht Hu Hs [_ _ _ H4 _].
  assert (H0 : forall P `{!forall e, Decision (P e)}, tally P (queue p') = 0) by (intros; by rewrite Hq).
  split; [by rewrite Ht, H0|by rewrite Ht|intros s; rewrite H0; lia|..]; intros s; rewrite H0.
  - specialize (H4 s). unfold usage_of in *. rewrite Hu. unfold tally in *. lia.
  - case_decide; lia.
Qed.

(** Queueing an entry that is no departure, within the limits. *)
Lemma wf_push p p1 e :
  phase p <> Resolved -> phase p1 = phase p -> plain e -> pen_wf p ->
  turn_count p1 = turn_count p + (if decide (is_turn e) then 1 else 0) -> turn_count p1 <= PER_SESSION_CAP ->
  (forall s, usage_count (usage_of p s) + (if decide (is_lobby_of s e) then 1 else 0)
               <= usage_count (usage_of p1 s) <= LOG_MAX_COMMANDS) ->
  (forall s, (if decide (s ∈ started_slots p) then 1 else 0) + (if decide (e = GameStarted s) then 1 else 0)
               <= (if decide (s ∈ started_slots p1) then 1 else 0)) ->
  pen_wf (push_back p1 e).
Proof.
  intros Hph Hp1 He [H1 H2 H3 H4 H5] Ht Hcap Hu Hs.
  assert (Hq : queue (push_back p1 e) = queue p ++ [e]).
  { rewrite queue_push by congruence. unfold queue. by rewrite Hp1. }
  split; [| |intros s..]; rewrite ?Hq, ?tally_app, ?tally_one; cbn [turn_count push_back set_phase started_slots].
  - lia.
  - done.
  - specialize (H3 s). rewrite decide_False by by apply plain_other. lia.
  - specialize (H4 s). specialize (Hu s). change (usage_of (push_back p1 e) s) with (usage_of p1 s). lia.
  - specialize (H5 s). specialize (Hs s). lia.
Qed.

Lemma wf_departure_push p p1 s d :
  phase p <> Resolved -> phase p1 = map_queue (filter (fun x => ~ is_departure_of s x)) (phase p) ->
  turn_count p1 = turn_count p -> lobby_usage p1 = lobby_usage p -> started_slots p1 = started_slots p ->
  is_departure_of s d -> pen_wf p -> pen_wf (push_back p1 d).
Proof.
  intros Hph Hp1 Ht Hu Hs Hd [H1 H2 H3 H4 H5].
  assert (Hq : queue (push_back p1 d) = filter (fun x => ~ is_departure_of s x) (queue p) ++ [d]).
  { unfold queue. cbn. rewrite Hp1. by destruct (phase p). }
  destruct d as [| | |s' r ep n]; try done. cbn in Hd. subst s'.
  split; [| |intros s0..]; rewrite ?Hq, ?tally_app, ?tally_one; cbn [turn_count push_back set_phase started_slots].
  - rewrite decide_False by (cbn; tauto). rewrite tally_filter by (intros []; cbn; tauto). lia.
  - lia.
  - specialize (H3 s0). destruct (decide (s = s0)) as [->|Hne].
    + rewrite decide_True by done. unfold tally. rewrite list_filter_filter, (filter_none _ (queue p)); [cbn; lia|].
      intros x _. tauto.
    + rewrite decide_False by done. rewrite tally_filter by (intros []; cbn; naive_solver). lia.
  - specialize (H4 s0). rewrite decide_False by (cbn; tauto). rewrite tally_filter by (intros []; cbn; tauto).
    unfold usage_of in *. cbn. rewrite Hu. lia.
  - specialize (H5 s0). rewrite decide_False by done. rewrite tally_filter by (intros [] ?; simplify_eq; cbn; tauto).
    rewrite Hs. lia.
Qed.

Lemma hold_unresolved_wf p over e out pushed p' :
  phase p <> Resolved -> pen_wf p -> hold_unresolved p over e = (out, pushed, p') -> pen_wf p'.
Proof.
  intros Hph Hwf Hh. pose proof (wf_lobby p Hwf) as H4. pose proof (wf_cap p Hwf) as H2.
  assert (Hu0 : forall s, usage_count (usage_of p s) <= LOG_MAX_COMMANDS) by (intros s; specialize (H4 s); lia).
  destruct e as [s pl|s m|s|s r ep n]; cbn [hold_unresolved] in Hh.
  - destruct (_ || _) eqn:Hov; injection Hh as <- <- <-; [by apply (wf_frame p)|].
    apply orb_false_iff in Hov as [Hcap%Z.leb_gt _].
    apply (wf_push p); try done; cbn [turn_count count_turn started_slots].
    + lia.
    + intros s'. specialize (Hu0 s'). change (usage_of (count_turn p) s') with (usage_of p s'). rewrite decide_False by (cbn; tauto). lia.
    + intros s'. rewrite (decide_False (P := Turn s pl = _)) by done. lia.
  - fold (usage_of p s) in Hh. destruct (_ || _) eqn:Hov; injection Hh as <- <- <-.
    { apply (wf_frame p); try done. intros s'.
      change (usage_of (seal ?q s) s') with (usage_of q s'). rewrite usage_of_set. case_decide; [by subst|done]. }
    apply orb_false_iff in Hov as [[Hcap%Z.leb_gt _]%orb_false_iff _]. cbn in Hcap.
    apply (wf_push p); try done; cbn [turn_count set_usage started_slots].
    + rewrite decide_False by (cbn; tauto). lia.
    + intros s'. specialize (Hu0 s'). rewrite !usage_of_set. destruct (decide (s = s')) as [->|Hne].
      * rewrite decide_True by done. cbn. lia.
      * rewrite decide_False by done. lia.
    + intros s'. rewrite (decide_False (P := Lobby s m = _)) by done. lia.
  - case_bool_decide as Hin; injection Hh as <- <- <-; [done|].
    apply (wf_push p); try done; cbn [turn_count note_started started_slots].
    + rewrite decide_False by (cbn; tauto). lia.
    + intros s'. specialize (Hu0 s'). change (usage_of (note_started p s) s') with (usage_of p s'). rewrite decide_False by (cbn; tauto). lia.
    + intros s'. destruct (decide (GameStarted s = GameStarted s')) as [[= ->]|Hne].
      * rewrite (decide_False (P := s' ∈ started_slots p)), decide_True by set_solver. lia.
      * destruct (decide (s' ∈ started_slots p)); [rewrite decide_True by set_solver|case_decide]; lia.
  - injection Hh as <- <- <-. apply (wf_departure_push p _ s); try done; cbn; by destruct (r =? _).
Qed.

Lemma pen_step_wf c s o :
  map_Forall (fun _ => pen_wf) (sessions (pen s)) -> map_Forall (fun _ => pen_wf) (sessions (pen (pen_step c s o))).
Proof.
  intros Hwf.
  assert (Hpen : forall key, pen_wf (pen_of (pen s) key)).
  { intros key. unfold pen_of. destruct (sessions (pen s) !! key) eqn:Hk; [by apply (Hwf key)|apply gathering_wf]. }
  assert (Hput : forall key p, pen_wf p -> map_Forall (fun _ => pen_wf) (sessions (put (pen s) key p))).
  { intros key p Hp. by apply map_Forall_insert_2. }
  destruct o as [k|k e|i k|i|i|i|k|k]; cbn [pen_step].
  - unfold reserve. case_bool_decide; [done|]. destruct (_ <=? _); [done|]. apply Hput, gathering_wf.
  - assert (Hst : map_Forall (fun _ => pen_wf) (sessions (hold c (pen s) k e).2)).
    { unfold hold. destruct (_ && _); [done|]. fold (pen_of (pen s) k).
      destruct (hold_unresolved (pen_of (pen s) k) _ e) as [[out pushed] p'] eqn:Hh.
      destruct (phase (pen_of (pen s) k)) eqn:Hph; try (by apply Hput);
        apply Hput; by eapply hold_unresolved_wf; [rewrite Hph| |exact Hh]. }
    destruct (hold c (pen s) k e) as [[| |] st]; done.
  - destruct (drainers s !! i); [done|]. unfold begin_drain. fold (pen_of (pen s) k).
    destruct (phase (pen_of (pen s) k)); apply Hput; [by apply (wf_taken (pen_of (pen s) k))|done..].
  - destruct (drainers s !! i) as [[k b [|e todo] r]|]; done.
  - destruct (drainers s !! i) as [[k b [|e todo] [|]]|]; done.
  - destruct (drainers s !! i) as [[k b [|e todo] [|]]|]; try done. unfold continue_drain.
    destruct (sessions (pen s) !! k) as [p|] eqn:Hp; [|done]. cbn [phase clear_in_flight].
    pose proof (Hwf _ _ Hp) as Hpw. destruct (phase p) as [|[|e q]|] eqn:Hph; apply Hput;
      try (by apply (wf_frame p)); [|by apply (wf_taken p)].
    apply (wf_taken p); try done. cbn. rewrite (wf_turns _ Hpw). unfold queue. by rewrite Hph.
  - unfold discard. destruct (sessions (pen s) !! k); [|done]. by apply map_Forall_delete.
  - unfold discard_if_empty. destruct (sessions (pen s) !! k) as [p|]; [|done].
    destruct (phase p) as [[|]| |]; try done. case_bool_decide; [|done]. by apply map_Forall_delete.
Qed.

Lemma pen_run_wf c ops : map_Forall (fun _ => pen_wf) (sessions (pen (pen_run c ops))).
Proof.
  unfold pen_run. assert (Hi : map_Forall (fun _ => pen_wf) (sessions (pen sys_init))) by apply map_Forall_empty.
  revert Hi. generalize sys_init. induction ops as [|o ops IH]; intros s Hs; [done|]. cbn. by apply IH, pen_step_wf.
Qed.

(** Entries spread over few slots, few to each. *)
Lemma per_slot_bound (slots : list Z) l (n : Z) :
  (forall e, e ∈ l -> entry_slot e ∈ slots) -> (forall s, Z.of_nat (length (filter (fun e => entry_slot e = s) l)) <= n) ->
  Z.of_nat (length l) <= Z.of_nat (length slots) * n.
Proof.
  revert l. induction slots as [|s slots IH]; intros l Hin Hn.
  - destruct l as [|e l]; [cbn; lia|].
    pose proof (Hin e ltac:(left)) as He. by apply not_elem_of_nil in He.
  - assert (Hsplit : Z.of_nat (length l) = Z.of_nat (length (filter (fun e => entry_slot e = s) l))
                     + Z.of_nat (length (filter (fun e => entry_slot e <> s) l))).
    { clear. induction l as [|e l IH]; [done|]. rewrite !filter_cons. repeat case_decide; cbn [length]; lia || done. }
    pose proof (Hn s). assert (Hrest : Z.of_nat (length (filter (fun e => entry_slot e <> s) l)) <= Z.of_nat (length slots) * n).
    { apply IH.
      - intros e [Hne He]%list_elem_of_filter. by destruct (proj1 (elem_of_cons _ _ _) (Hin e He)).
      - intros s'. etrans; [|apply (Hn s')]. rewrite list_filter_filter. apply inj_le.
        apply filter_length_mono. tauto. }
    cbn [length]. lia.
Qed.

(** What one slot can hold beside its turns: its lobby commands, one start
    report and one departure. *)
Lemma slot_entries p s :
  pen_wf p ->
  Z.of_nat (length (filter (fun e => entry_slot e = s) (filter (fun e => ~ is_turn e) (queue p)))) <= LOG_MAX_COMMANDS + 2.
Proof.
  intros [_ _ H3 H4 H5]. specialize (H3 s). specialize (H4 s). specialize (H5 s).
  enough (Z.of_nat (length (filter (fun e => entry_slot e = s) (filter (fun e => ~ is_turn e) (queue p))))
    = tally (is_lobby_of s) (queue p) + tally (fun e => e = GameStarted s) (queue p) + tally (is_departure_of s) (queue p)).
  { case_decide; lia. }
  clear. rewrite list_filter_filter. unfold tally. induction (queue p) as [|e l IH]; [done|].
  rewrite !filter_cons. destruct e as [t pl|t m|t|t r ep n]; cbn [entry_slot is_turn is_lobby_of is_departure_of];
    repeat case_decide; cbn [length]; try lia; naive_solver lia.
Qed.

(** ** Seals *)

Lemma slot_sealed_pen_of st key slot : slot_sealed st key slot = bool_decide (slot ∈ sealed (pen_of st key)).
Proof.
  unfold slot_sealed, pen_of. destruct (sessions st !! key); [done|]. symmetry. apply bool_decide_eq_false_2. set_solver.
Qed.

Lemma hold_unresolved_sealed p over e out pushed p' :
  hold_unresolved p over e = (out, pushed, p') -> sealed p ⊆ sealed p'.
Proof.
  intros Hh. destruct e as [s pl|s m|s|s r ep n]; cbn [hold_unresolved] in Hh;
    [destruct (_ || _)..|case_bool_decide|]; injection Hh as <- <- <-; cbn; try set_solver.
  destruct (r =? _); cbn; set_solver.
Qed.

(** A seal outlives everything but retirement. *)
Lemma pen_step_sealed c s o key :
  o <> DoDiscard key -> sealed (pen_of (pen s) key) ⊆ sealed (pen_of (pen (pen_step c s o)) key).
Proof.
  intros Hno.
  assert (Hput : forall k p, sealed (pen_of (pen s) k) ⊆ sealed p ->
    sealed (pen_of (pen s) key) ⊆ sealed (pen_of (put (pen s) k p) key)).
  { intros k p Hp. rewrite pen_of_put. by case_decide; [subst|]. }
  destruct o as [k|k e|i k|i|i|i|k|k]; cbn [pen_step].
  - cbn [set_pen pen]. by rewrite reserve_pen_of.
  - assert (Hst : sealed (pen_of (pen s) key) ⊆ sealed (pen_of (hold c (pen s) k e).2 key)).
    { unfold hold. destruct (_ && _); [done|]. fold (pen_of (pen s) k).
      destruct (hold_unresolved (pen_of (pen s) k) _ e) as [[out pushed] p'] eqn:Hh.
      apply hold_unresolved_sealed in Hh. destruct (phase (pen_of (pen s) k)); by apply Hput. }
    destruct (hold c (pen s) k e) as [[| |] st]; done.
  - destruct (drainers s !! i); [done|]. unfold begin_drain. fold (pen_of (pen s) k).
    destruct (phase (pen_of (pen s) k)); by apply Hput.
  - destruct (drainers s !! i) as [[k b [|e todo] r]|]; done.
  - destruct (drainers s !! i) as [[k b [|e todo] [|]]|]; done.
  - destruct (drainers s !! i) as [[k b [|e todo] [|]]|]; try done. unfold continue_drain.
    destruct (sessions (pen s) !! k) as [p|] eqn:Hp; [|done]. cbn [phase clear_in_flight].
    assert (Hpen : pen_of (pen s) k = p) by (unfold pen_of; by rewrite Hp).
    destruct (phase p) as [|[|e q]|]; apply Hput; by rewrite Hpen.
  - unfold discard. destruct (sessions (pen s) !! k); [|done]. unfold pen_of. cbn. by rewrite lookup_delete_ne by congruence.
  - unfold discard_if_empty. destruct (sessions (pen s) !! k) as [p|] eqn:Hp; [|done].
    destruct (phase p) as [[|]| |]; try done. case_bool_decide as Hs; [|done]. unfold pen_of. cbn.
    rewrite lookup_delete. case_decide; [subst|done]. rewrite Hp. cbn. by rewrite Hs.
Qed.

(** ** Properties *)

(** The relay-wide ceiling: in every reachable state, retirements and
    mid-drain retirements included, the charged bytes are exactly those of the
    queued entries and of the batches not yet given back, no release ever
    saturates, and the total never exceeds the budget. *)
Theorem resident_bytes_exact (ops : list PenOp) :
  let s := pen_run production ops in
  resident_bytes (pen s) = msum queue_bytes (sessions (pen s)) + msum batch_charge (drainers s) /\
  resident_bytes (pen s) <= AGGREGATE_TURN_BYTE_BUDGET.
Proof.
  destruct (pen_run_bytes production ltac:(cbn; unfold AGGREGATE_TURN_BYTE_BUDGET; width_lia) ops) as [He Hb]. by split.
Qed.

(** The journal of one session is finite by construction: whatever its
    clients send, its queue holds at most the turn cap and, for each slot that
    deposited, the lobby allowance, one start report and one departure. *)
Theorem journal_queue_bounded (c : PenLimits) (ops : list PenOp) (key : Z) (p : SessionPen) (slots : list Z) :
  sessions (pen (pen_run c ops)) !! key = Some p ->
  (forall e, e ∈ queue p -> entry_slot e ∈ slots) ->
  Z.of_nat (length (queue p)) <= PER_SESSION_CAP + Z.of_nat (length slots) * (LOG_MAX_COMMANDS + 2).
Proof.
  intros Hp Hslots. pose proof (pen_run_wf c ops _ _ Hp) as Hwf.
  assert (Hsplit : Z.of_nat (length (queue p)) = tally is_turn (queue p) + Z.of_nat (length (filter (fun e => ~ is_turn e) (queue p)))).
  { clear. unfold tally. induction (queue p) as [|e l IH]; [done|]. rewrite !filter_cons. repeat case_decide; cbn [length]; tauto || lia. }
  pose proof (wf_cap _ Hwf). rewrite (wf_turns _ Hwf) in *.
  pose proof (per_slot_bound slots (filter (fun e => ~ is_turn e) (queue p)) (LOG_MAX_COMMANDS + 2)) as Hb.
  assert (Hrest : Z.of_nat (length (filter (fun e => ~ is_turn e) (queue p))) <= Z.of_nat (length slots) * (LOG_MAX_COMMANDS + 2)).
  { apply Hb; [|intros s; by apply slot_entries]. intros e [_ He]%list_elem_of_filter. by apply Hslots. }
  lia.
Qed.

(** A slot whose accepted sequence ended or was holed is never readmitted:
    a journaled clean leave, and a turn the journal had to refuse once its
    session was tracked, seal the slot, and the seal stands through every later
    deposit, drain and emptied-session close until the session is retired. *)
Theorem seals_are_final (c : PenLimits) (s : Sys) (ops : list PenOp) (key slot : Z) (e : PennedIngress) :
  DoDiscard key ∉ ops ->
  (exists epoch rev, e = Departure slot LEAVE_REASON_LEFT epoch rev /\ (hold c (pen s) key e).1 = Held) \/
  (exists p, e = Turn slot p /\ (hold c (pen s) key e).1 = Overflow e /\ sessions (hold c (pen s) key e).2 !! key <> None) ->
  slot_sealed (pen (foldl (pen_step c) (pen_step c s (DoHold key e)) ops)) key slot = true.
Proof.
  intros Hin Hcase. rewrite slot_sealed_pen_of, bool_decide_eq_true.
  assert (Hnow : slot ∈ sealed (pen_of (pen (pen_step c s (DoHold key e))) key)).
  { cbn [pen_step]. enough (slot ∈ sealed (pen_of (hold c (pen s) key e).2 key)) as Hs.
    { by destruct (hold c (pen s) key e) as [[| |] st]. }
    revert Hcase. unfold hold. destruct (_ && _) eqn:Hfull.
    { intros [(ep & rev & -> & H)|(p & -> & _ & H)]; [done|]. cbn in H.
      apply andb_true_iff in Hfull as [Hf%bool_decide_eq_true _]. done. }
    intros [(ep & rev & -> & H)|(p & -> & H & _)]; destruct (phase (default gathering _)); try done.
    1,2: cbn; rewrite pen_of_charge, pen_of_put, decide_True by done; cbn; set_solver.
    1,2: cbn [hold_unresolved] in *; destruct (_ || _); [|done]; cbn;
      rewrite pen_of_charge, pen_of_put, decide_True by done; cbn; set_solver. }
  revert Hnow. generalize (pen_step c s (DoHold key e)). clear -Hin.
  induction ops as [|o ops IH]; intros s Hs; [done|]. apply not_elem_of_cons in Hin as [Ho Hin]. cbn. apply IH; [done|].
  eapply pen_step_sealed; [congruence|done].
Qed.

(** ** Witnesses *)

Lemma journal_queue_bounded_witness :
  exists p, sessions (pen (pen_run production demo_journal)) !! 7 = Some p /\ Z.of_nat (length (queue p)) = 2 /\
    Z.of_nat (length (queue p)) <= PER_SESSION_CAP + 2 * (LOG_MAX_COMMANDS + 2).
Proof.
  eexists. split; [vm_compute; reflexivity|]. split; [reflexivity|].
  apply (journal_queue_bounded production demo_journal 7 _ [1; 2]); [vm_compute; reflexivity|].
  intros e He. cbn in He. repeat (apply elem_of_cons in He as [->|He]; [cbn; set_solver|]). by apply not_elem_of_nil in He.
Defined.

Lemma seals_are_final_witness :
  slot_sealed (pen (foldl (pen_step production) (pen_step production sys_init (DoHold 7 (Departure 1 3 None 0)))
    [DoDiscardIfEmpty 7; DoBegin 0 7])) 7 1 = true.
Proof.
  apply (seals_are_final production sys_init [DoDiscardIfEmpty 7; DoBegin 0 7] 7 1 (Departure 1 3 None 0)).
  - rewrite !not_elem_of_cons. repeat split; try discriminate. apply not_elem_of_nil.
  - left. exists None, 0. split; vm_compute; reflexivity.
Defined.
