(* ===== verification/DropHold.v ===== *)
(** * Drop holds (relay/src/session/drop_hold/mod.rs)

    A slot whose link died is held, not removed: the hold records when the drop
    was first seen, a survivor's request is honoured once it has stood long
    enough, and a session nobody is connected to is closed out by a timer.  The
    registry's maps are finite maps, instants and durations are nanoseconds, and
    a callback that runs under the lock is represented by what it answered. *)

From Stdlib Require Import ZArith Lia.
From stdpp Require Import gmap sorting list.
From S2P Require Import Prelude RateLimit.
Open Scope Z_scope.

Definition NANOS_PER_SEC : Z := 1000000000.
Definition DROP_UNLOCK : Z := 30 * NANOS_PER_SEC.
Definition DROP_REQUEST_BURST : Z := 2.
Definition DROP_REQUEST_REFILL_INTERVAL : Z := 2 * NANOS_PER_SEC.
Definition ABANDONED_SESSION_TIMEOUT : Z := 45 * NANOS_PER_SEC.

(** The cancel handle is the entry itself: dropping the entry drops the handle. *)
Record AbandonTimer : Type := mkAbandonTimer { close_reported : bool; generation : Z }.

Record DropHolds : Type := mkDropHolds {
  holds : gmap (Z * Z) Z;
  limiters : gmap (Z * Z) TokenBucket;
  rejection_limiters : gmap (Z * Z) TokenBucket;
  abandon_timers : gmap Z AbandonTimer;
  unlock : Z;
  abandon_timeout : Z;
  abandon_generation : Z;
  request_burst : Z;
  request_refill_interval : Z
}.

Definition new (unlock abandon_timeout : Z) : DropHolds :=
  mkDropHolds ∅ ∅ ∅ ∅ unlock abandon_timeout 0 DROP_REQUEST_BURST DROP_REQUEST_REFILL_INTERVAL.

Definition with_request_rate (r : DropHolds) (burst refill_interval : Z) : DropHolds :=
  mkDropHolds (holds r) (limiters r) (rejection_limiters r) (abandon_timers r) (unlock r) (abandon_timeout r)
    (abandon_generation r) burst refill_interval.

Definition set_holds (r : DropHolds) (h : gmap (Z * Z) Z) : DropHolds :=
  mkDropHolds h (limiters r) (rejection_limiters r) (abandon_timers r) (unlock r) (abandon_timeout r)
    (abandon_generation r) (request_burst r) (request_refill_interval r).
Definition set_limiters (r : DropHolds) (l d : gmap (Z * Z) TokenBucket) : DropHolds :=
  mkDropHolds (holds r) l d (abandon_timers r) (unlock r) (abandon_timeout r)
    (abandon_generation r) (request_burst r) (request_refill_interval r).
Definition set_timers (r : DropHolds) (t : gmap Z AbandonTimer) (g : Z) : DropHolds :=
  mkDropHolds (holds r) (limiters r) (rejection_limiters r) t (unlock r) (abandon_timeout r)
    g (request_burst r) (request_refill_interval r).

(** ** Holds *)

Definition hold_at (r : DropHolds) (key slot at_ : Z) : Z * DropHolds :=
  match holds r !! (key, slot) with
  | Some t => (t, r)
  | None => (at_, set_holds r (<[(key, slot) := at_]> (holds r)))
  end.

Definition hold (r : DropHolds) (key slot now : Z) : DropHolds := (hold_at r key slot now).2.

(** [install_hold] is what the callback answered. *)
Definition record_and_maybe_hold (r : DropHolds) (key slot now : Z) (install_hold : bool) : DropHolds :=
  if install_hold then (hold_at r key slot now).2 else r.

Definition is_pending (r : DropHolds) (key slot : Z) : bool :=
  match holds r !! (key, slot) with Some _ => true | None => false end.

(** [resolve] answers what the callback answers when told whether a hold is
    pending; the result says whether this call consumed the hold. *)
Definition resolve_reconnect (r : DropHolds) (key slot : Z) (resolve : bool -> bool) : bool * DropHolds :=
  let pending := is_pending r key slot in
  let consume_hold := resolve pending in
  if pending && consume_hold then (true, set_holds r (delete (key, slot) (holds r))) else (false, r).

Definition release (r : DropHolds) (key slot : Z) : bool * DropHolds :=
  match holds r !! (key, slot) with
  | Some _ => (true, set_holds r (delete (key, slot) (holds r)))
  | None => (false, set_holds r (delete (key, slot) (holds r)))
  end.

(** The first component says whether [reinstate] ran, the second is the result. *)
Definition take_if_pending (r : DropHolds) (key slot : Z) (reinstate : bool) : bool * bool * DropHolds :=
  if negb (is_pending r key slot) then (false, false, r)
  else (true, reinstate, set_holds r (delete (key, slot) (holds r))).

Definition pending_slots (r : DropHolds) (key : Z) : gset Z :=
  set_map snd (filter (fun p : Z * Z => p.1 = key) (dom (holds r))).

Definition held_for (r : DropHolds) (key slot now : Z) : option Z :=
  (fun t => saturating_sub now t) <$> holds r !! (key, slot).

(** ** Request caps *)

Definition admit_request (r : DropHolds) (key requester now : Z) : bool * DropHolds :=
  let bucket := default (new_at (request_burst r) (request_refill_interval r) now) (limiters r !! (key, requester)) in
  let '(ok, bucket) := try_take_at bucket now in
  (ok, set_limiters r (<[(key, requester) := bucket]> (limiters r)) (rejection_limiters r)).

Definition admit_rejection_diagnostic_at (r : DropHolds) (key requester now : Z) : bool * DropHolds :=
  let bucket := default (new_at (request_burst r) (request_refill_interval r) now) (rejection_limiters r !! (key, requester)) in
  let '(ok, bucket) := try_take_at bucket now in
  (ok, set_limiters r (limiters r) (<[(key, requester) := bucket]> (rejection_limiters r))).

(** ** Abandoned sessions *)

Definition arm_abandon (r : DropHolds) (key : Z) : option Z * DropHolds :=
  let g := abandon_generation r + 1 in
  match abandon_timers r !! key with
  | Some _ => (None, set_timers r (abandon_timers r) g)
  | None => (Some g, set_timers r (<[key := mkAbandonTimer false g]> (abandon_timers r)) g)
  end.

Definition claim_expiry (r : DropHolds) (key g : Z) : option bool * DropHolds :=
  match abandon_timers r !! key with
  | Some t =>
      if generation t =? g
      then (Some (close_reported t), set_timers r (delete key (abandon_timers r)) (abandon_generation r))
      else (None, r)
  | None => (None, r)
  end.

Definition cancel_abandon (r : DropHolds) (key : Z) : DropHolds :=
  set_timers r (delete key (abandon_timers r)) (abandon_generation r).

Definition note_session_closed (r : DropHolds) (key : Z) : DropHolds :=
  match abandon_timers r !! key with
  | Some t => set_timers r (<[key := mkAbandonTimer true (generation t)]> (abandon_timers r)) (abandon_generation r)
  | None => r
  end.

Definition abandon_armed (r : DropHolds) (key : Z) : bool :=
  match abandon_timers r !! key with Some _ => true | None => false end.

Definition sweep_limiters (r : DropHolds) (key : Z) : DropHolds :=
  set_limiters r (filter (fun kv => kv.1.1 <> key) (limiters r)) (filter (fun kv => kv.1.1 <> key) (rejection_limiters r)).

Definition end_session (r : DropHolds) (key : Z) (decided : gset Z) : DropHolds :=
  sweep_limiters (set_holds r (filter (fun kv => kv.1.1 <> key \/ kv.1.2 ∉ decided) (holds r))) key.

Definition end_session_terminal (r : DropHolds) (key : Z) : DropHolds :=
  sweep_limiters (set_holds r (filter (fun kv => kv.1.1 <> key) (holds r))) key.

(** The floor [honor_drop_request] compares the hold against. *)
Definition unlocked (r : DropHolds) (key slot now : Z) : bool :=
  match held_for r key slot now with Some elapsed => unlock r <=? elapsed | None => false end.

(** ** Histories

    The registry with the timer tasks it has spawned, each known by its
    generation.  A task whose sleep is over may reach its claim even though it
    was cancelled meanwhile: both outcomes of that race are histories. *)

Inductive hold_op : Type :=
| Hold (key slot now : Z)
| MaybeHold (key slot now : Z) (install : bool)
| Reconnect (key slot : Z) (consume : bool)
| Release (key slot : Z)
| TakeIfPending (key slot : Z) (reinstated : bool)
| EndSession (key : Z) (decided : gset Z)
| EndTerminal (key : Z)
| Admit (key requester now : Z)
| Diagnose (key requester now : Z)
| Arm (key now : Z)
| Expire (g now : Z)
| Cancel (key : Z)
| Closed (key : Z).

#[export] Instance hold_op_eq_dec : EqDecision hold_op.
Proof. solve_decision. Defined.

Inductive hold_out : Type := Nothing | Claimed (key slot : Z) | Armed (key g : Z) | Fired (key : Z) (close : bool).

Record Tasks : Type := mkTasks { reg : DropHolds; tasks : gmap Z (Z * Z) }.

Definition on_reg (s : Tasks) (r : DropHolds) : Tasks := mkTasks r (tasks s).
Definition claimed (b : bool) (key slot : Z) : hold_out := if b then Claimed key slot else Nothing.

Definition hold_step (s : Tasks) (op : hold_op) : hold_out * Tasks :=
  let r := reg s in
  match op with
  | Hold k sl now => (Nothing, on_reg s (hold r k sl now))
  | MaybeHold k sl now i => (Nothing, on_reg s (record_and_maybe_hold r k sl now i))
  | Reconnect k sl c => let res := resolve_reconnect r k sl (fun _ => c) in (claimed res.1 k sl, on_reg s res.2)
  | Release k sl => let res := release r k sl in (claimed res.1 k sl, on_reg s res.2)
  | TakeIfPending k sl b => let res := take_if_pending r k sl b in (claimed res.1.1 k sl, on_reg s res.2)
  | EndSession k d => (Nothing, on_reg s (end_session r k d))
  | EndTerminal k => (Nothing, on_reg s (end_session_terminal r k))
  | Admit k q now => (Nothing, on_reg s (admit_request r k q now).2)
  | Diagnose k q now => (Nothing, on_reg s (admit_rejection_diagnostic_at r k q now).2)
  | Arm k now =>
      match arm_abandon r k with
      | (Some g, r') => (Armed k g, mkTasks r' (<[g := (k, now + abandon_timeout r)]> (tasks s)))
      | (None, r') => (Nothing, on_reg s r')
      end
  | Expire g now =>
      match tasks s !! g with
      | Some (k, deadline) =>
          if deadline <=? now then
            let res := claim_expiry r k g in
            (match res.1 with Some c => Fired k c | None => Nothing end, mkTasks res.2 (delete g (tasks s)))
          else (Nothing, s)
      | None => (Nothing, s)
      end
  | Cancel k => (Nothing, on_reg s (cancel_abandon r k))
  | Closed k => (Nothing, on_reg s (note_session_closed r k))
  end.

Definition hold_run (ops : list hold_op) (s : Tasks) : Tasks := foldl (fun s op => (hold_step s op).2) s ops.

(** The op marks the slot, at the given time. *)
Definition marks (op : hold_op) (key slot now : Z) : Prop :=
  op = Hold key slot now \/ op = MaybeHold key slot now true.

Lemma hold_run_app ops1 ops2 s : hold_run (ops1 ++ ops2) s = hold_run ops2 (hold_run ops1 s).
Proof. apply foldl_app. Qed.
Lemma hold_run_snoc ops op s : hold_run (ops ++ [op]) s = (hold_step (hold_run ops s) op).2.
Proof. apply hold_run_app. Qed.
Lemma hold_run_mid ops1 op ops2 s : hold_run (ops1 ++ op :: ops2) s = hold_run ops2 (hold_step (hold_run ops1 s) op).2.
Proof. apply hold_run_app. Qed.

(** What one step does to one slot's hold. *)
Inductive hold_moves (s : Tasks) (op : hold_op) (k sl : Z) : Prop :=
| moves_kept (Ho : (hold_step s op).1 <> Claimed k sl)
    (He : holds (reg (hold_step s op).2) !! (k, sl) = holds (reg s) !! (k, sl))
| moves_marked t (Hm : marks op k sl t) (Hn : holds (reg s) !! (k, sl) = None)
    (Ho : (hold_step s op).1 = Nothing) (He : holds (reg (hold_step s op).2) !! (k, sl) = Some t)
| moves_dropped (Hs : holds (reg s) !! (k, sl) <> None) (He : holds (reg (hold_step s op).2) !! (k, sl) = None).

Lemma hold_at_moves r k sl now k' sl' :
  holds (hold_at r k sl now).2 !! (k', sl') =
    match holds r !! (k', sl') with
    | Some t => Some t
    | None => if decide ((k, sl) = (k', sl')) then Some now else None
    end.
Proof.
  unfold hold_at. destruct (holds r !! (k, sl)) eqn:E; cbn [snd set_holds holds].
  - case_match eqn:E2; [done|]. rewrite decide_False; [done|congruence].
  - destruct (decide ((k, sl) = (k', sl'))) as [Heq|N]; [rewrite <- Heq, lookup_insert_eq, E; done|].
    rewrite lookup_insert_ne by done. by destruct (holds r !! (k', sl')).
Qed.

Lemma mark_moves s op k sl k' sl' now :
  marks op k' sl' now -> hold_step s op = (Nothing, on_reg s (hold_at (reg s) k' sl' now).2) -> hold_moves s op k sl.
Proof.
  intros Hm E. pose proof (hold_at_moves (reg s) k' sl' now k sl) as H.
  destruct (holds (reg s) !! (k, sl)) eqn:Eh; [|destruct (decide ((k', sl') = (k, sl))) as [[= -> ->]|N]].
  - apply moves_kept; rewrite E; [done|]. cbn. by rewrite H.
  - by apply moves_marked with now; rewrite ?E.
  - apply moves_kept; rewrite E; [done|]. cbn. by rewrite H.
Qed.

Lemma claim_moves s op k sl k' sl' (won : bool) :
  (won = true -> holds (reg s) !! (k', sl') <> None) ->
  (hold_step s op).1 = claimed won k' sl' ->
  holds (reg (hold_step s op).2) = (if won then delete (k', sl') (holds (reg s)) else holds (reg s)) ->
  hold_moves s op k sl.
Proof.
  intros Hw Ho Hh. destruct won; [|apply moves_kept; [by rewrite Ho|by rewrite Hh]].
  destruct (decide ((k', sl') = (k, sl))) as [[= -> ->]|N].
  - apply moves_dropped; [by apply Hw|]. by rewrite Hh, lookup_delete_eq.
  - apply moves_kept; [rewrite Ho; cbn; congruence|]. by rewrite Hh, lookup_delete_ne.
Qed.

Lemma sweep_moves s op k sl (P : (Z * Z) * Z -> Prop) `{forall x, Decision (P x)} :
  (hold_step s op).1 = Nothing -> holds (reg (hold_step s op).2) = filter P (holds (reg s)) -> hold_moves s op k sl.
Proof.
  intros Ho Hh. destruct (holds (reg s) !! (k, sl)) as [t|] eqn:E; [destruct (decide (P ((k, sl), t))) as [Hp|Hp]|].
  - apply moves_kept; [by rewrite Ho|]. rewrite Hh, E. by apply map_lookup_filter_Some.
  - apply moves_dropped; [congruence|]. rewrite Hh. apply map_lookup_filter_None. right. intros t' Ht. congruence.
  - apply moves_kept; [by rewrite Ho|]. rewrite Hh, E. apply map_lookup_filter_None. by left.
Qed.

Lemma pending_spec r k sl : is_pending r k sl = true <-> holds r !! (k, sl) <> None.
Proof. unfold is_pending. by destruct (holds r !! (k, sl)). Qed.

(** A step that leaves the holds alone. *)
Lemma quiet_moves s op k sl :
  (forall k' sl', (hold_step s op).1 <> Claimed k' sl') -> holds (reg (hold_step s op).2) = holds (reg s) -> hold_moves s op k sl.
Proof. intros Ho Hh. apply moves_kept; [done|by rewrite Hh]. Qed.

Lemma hold_step_moves s op k sl : hold_moves s op k sl.
Proof.
  destruct op as [k' s' now|k' s' now []|k' s' c|k' s'|k' s' b|k' d|k'|k' q now|k' q now|k' now|g now|k'|k'].
  - apply mark_moves with k' s' now; [by left|done].
  - apply mark_moves with k' s' now; [by right|done].
  - by apply quiet_moves.
  - apply claim_moves with k' s' (is_pending (reg s) k' s' && c); cbn [hold_step]; unfold resolve_reconnect.
    + intros [H _]%andb_true_iff. by apply pending_spec.
    + by destruct (is_pending (reg s) k' s' && c).
    + by destruct (is_pending (reg s) k' s' && c).
  - apply claim_moves with k' s' (is_pending (reg s) k' s'); cbn [hold_step]; unfold release, is_pending.
    + by destruct (holds (reg s) !! (k', s')).
    + by destruct (holds (reg s) !! (k', s')).
    + destruct (holds (reg s) !! (k', s')) eqn:E; [done|]. cbn. by apply delete_id.
  - apply claim_moves with k' s' (is_pending (reg s) k' s'); cbn [hold_step]; unfold take_if_pending;
      [by rewrite pending_spec|by destruct (is_pending (reg s) k' s')..].
  - by eapply sweep_moves.
  - by eapply sweep_moves.
  - apply quiet_moves; cbn [hold_step]; [done|]. unfold admit_request. by destruct (try_take_at _ _).
  - apply quiet_moves; cbn [hold_step]; [done|]. unfold admit_rejection_diagnostic_at. by destruct (try_take_at _ _).
  - apply quiet_moves; cbn [hold_step]; unfold arm_abandon; by destruct (abandon_timers (reg s) !! k').
  - apply quiet_moves; cbn [hold_step]; destruct (tasks s !! g) as [[k' dl]|]; try done; destruct (dl <=? now); try done;
      unfold claim_expiry; destruct (abandon_timers (reg s) !! k') as [t|]; try done; by destruct (generation t =? g).
  - by apply quiet_moves.
  - apply quiet_moves; cbn [hold_step]; [done|]. unfold note_session_closed. by destruct (abandon_timers (reg s) !! k').
Qed.

Lemma claimed_drops s op k sl : (hold_step s op).1 = Claimed k sl ->
  holds (reg s) !! (k, sl) <> None /\ holds (reg (hold_step s op).2) !! (k, sl) = None.
Proof. intros H. destruct (hold_step_moves s op k sl); [congruence..|done]. Qed.

(** The hold stands at [t] throughout. *)
Definition stands (ops : list hold_op) (s : Tasks) (k sl t : Z) : Prop :=
  forall pre suf, ops = pre ++ suf -> holds (reg (hold_run pre s)) !! (k, sl) = Some t.

Lemma held_since ops s k sl t :
  holds (reg s) !! (k, sl) = None -> holds (reg (hold_run ops s)) !! (k, sl) = Some t ->
  exists ops1 op ops2, ops = ops1 ++ op :: ops2 /\ marks op k sl t /\
    holds (reg (hold_run ops1 s)) !! (k, sl) = None /\ stands ops2 (hold_step (hold_run ops1 s) op).2 k sl t.
Proof.
  intros Hn. revert t. induction ops as [|op ops IH] using rev_ind; intros t Ht; [cbn in Ht; congruence|].
  rewrite hold_run_snoc in Ht.
  destruct (hold_step_moves (hold_run ops s) op k sl) as [Ho He|t' Hm Hn' Ho He|Hs He]; [| |congruence].
  - rewrite He in Ht. destruct (IH t Ht) as (o1 & o & o2 & -> & Hm & Hn1 & Hst).
    exists o1, o, (o2 ++ [op]). split_and!; [by rewrite <- app_assoc|done..|].
    intros pre suf E. destruct suf as [|x suf _] using rev_ind.
    + rewrite app_nil_r in E. subst pre. rewrite hold_run_snoc. rewrite hold_run_mid in He, Ht. by rewrite He.
    + rewrite app_assoc in E. apply app_inj_tail in E as [E _]. by apply (Hst pre suf).
  - exists ops, op, []. assert (t' = t) as -> by congruence. split_and!; [done..|].
    intros pre suf E. symmetry in E. apply app_nil in E as [-> ->]. done.
Qed.

(** ** Timers *)

(** What keeps a timer from being claimed: a cancellation, or its own expiry. *)
Definition ends_timer (k g deadline : Z) (op : hold_op) : Prop :=
  op = Cancel k \/ exists now, op = Expire g now /\ deadline <= now.

Record tasks_inv (s : Tasks) : Prop := mkTasksInv {
  ti_timers : forall k t, abandon_timers (reg s) !! k = Some t -> generation t <= abandon_generation (reg s);
  ti_tasks : forall g x, tasks s !! g = Some x -> g <= abandon_generation (reg s);
  ti_keys : forall k t k' dl, abandon_timers (reg s) !! k = Some t -> tasks s !! generation t = Some (k', dl) -> k' = k
}.

(** Steps other than these four leave the timers, their tasks and the generation alone. *)
Definition times (op : hold_op) : bool :=
  match op with Arm _ _ | Expire _ _ | Cancel _ | Closed _ => true | _ => false end.

Lemma untimed_step s op : times op = false ->
  abandon_timers (reg (hold_step s op).2) = abandon_timers (reg s) /\ tasks (hold_step s op).2 = tasks s /\
  abandon_generation (reg (hold_step s op).2) = abandon_generation (reg s).
Proof.
  destruct op as [k' s' now|k' s' now []|k' s' c|k' s'|k' s' b|k' d|k'|k' q now|k' q now|k' now|g now|k'|k']; try done; intros _;
    cbn [hold_step]; unfold hold, record_and_maybe_hold, hold_at, resolve_reconnect, release, take_if_pending,
      admit_request, admit_rejection_diagnostic_at; repeat case_match; done.
Qed.

Lemma step_timeout s op : abandon_timeout (reg (hold_step s op).2) = abandon_timeout (reg s) /\
  unlock (reg (hold_step s op).2) = unlock (reg s).
Proof.
  destruct op as [k' s' now|k' s' now []|k' s' c|k' s'|k' s' b|k' d|k'|k' q now|k' q now|k' now|g now|k'|k']; try done;
    cbn [hold_step]; unfold hold, record_and_maybe_hold, hold_at, resolve_reconnect, release, take_if_pending,
      admit_request, admit_rejection_diagnostic_at, arm_abandon, claim_expiry, note_session_closed; repeat case_match; simplify_eq; done.
Qed.

Lemma run_timeout ops s : abandon_timeout (reg (hold_run ops s)) = abandon_timeout (reg s) /\
  unlock (reg (hold_run ops s)) = unlock (reg s).
Proof.
  induction ops as [|op ops IH] using rev_ind; [done|]. rewrite hold_run_snoc.
  destruct (step_timeout (hold_run ops s) op) as [-> ->]. done.
Qed.

Lemma tasks_inv_step s op : tasks_inv s -> tasks_inv (hold_step s op).2.
Proof.
  intros []. destruct (times op) eqn:Ht.
  2: { destruct (untimed_step s op Ht) as (E1 & E2 & E3). split; rewrite ?E1, ?E2, ?E3; done. }
  destruct op as [| | | | | | | | |k now|g now|k|k]; try done; cbn [hold_step].
  - unfold arm_abandon. destruct (abandon_timers (reg s) !! k) as [t|] eqn:E; cbn.
    + split; cbn; [|intros g x H|done]; [intros k' t' H|]; [specialize (ti_timers0 k' t' H)|specialize (ti_tasks0 g x H)]; lia.
    + split; cbn.
      * intros k' t'. rewrite lookup_insert_Some. intros [[<- <-]|[_ H]]; cbn; [lia|]. specialize (ti_timers0 k' t' H). lia.
      * intros g x. rewrite lookup_insert_Some. intros [[<- _]|[_ H]]; [lia|]. specialize (ti_tasks0 g x H). lia.
      * intros k' t' k2 dl. rewrite !lookup_insert_Some. intros [[<- <-]|[N H]] [[E1 [= <- _]]|[N2 H2]]; cbn in *; try done.
        -- specialize (ti_timers0 k' t' H). lia.
        -- by eapply ti_keys0.
  - destruct (tasks s !! g) as [[k dl]|] eqn:E; [|by split]. destruct (dl <=? now); [|by split].
    assert (Hd : forall r, abandon_timers r = abandon_timers (reg s) \/ abandon_timers r = delete k (abandon_timers (reg s)) ->
      abandon_generation r = abandon_generation (reg s) -> tasks_inv (mkTasks r (delete g (tasks s)))).
    { intros r Hr Hg. assert (Hsub : forall k' t', abandon_timers r !! k' = Some t' -> abandon_timers (reg s) !! k' = Some t').
      { intros k' t'. destruct Hr as [-> | ->]; [done|]. rewrite lookup_delete_Some. tauto. }
      split; cbn; rewrite ?Hg.
      - intros; by eapply ti_timers0, Hsub.
      - intros g' x. rewrite lookup_delete_Some. intros [_ ?]. by eapply ti_tasks0.
      - intros k' t' k2 dl'. rewrite lookup_delete_Some. intros H1%Hsub [_ H2]. by eapply ti_keys0. }
    unfold claim_expiry. destruct (abandon_timers (reg s) !! k) as [t|]; [destruct (generation t =? g)|]; apply Hd; cbn; auto.
  - split; cbn; [intros k' t'|done|intros k' t' k2 dl]; rewrite lookup_delete_Some; intros [_ H]; eauto.
  - unfold note_session_closed. destruct (abandon_timers (reg s) !! k) as [t|] eqn:E; [|by split].
    split; cbn; [intros k' t'|done|intros k' t' k2 dl]; rewrite lookup_insert_Some; intros [[<- <-]|[_ H]]; cbn; eauto.
Qed.

Lemma tasks_inv_run ops s : tasks_inv s -> tasks_inv (hold_run ops s).
Proof. intros Hs. induction ops as [|op ops IH] using rev_ind; [done|]. rewrite hold_run_snoc. by apply tasks_inv_step. Qed.

Lemma new_tasks_inv u t : tasks_inv (mkTasks (new u t) ∅).
Proof. by split. Qed.

(** An armed timer that nothing ends is still there, and knows of a close. *)
Lemma timer_stands ops s k g deadline c :
  tasks_inv s -> abandon_timers (reg s) !! k = Some (mkAbandonTimer c g) -> tasks s !! g = Some (k, deadline) ->
  (forall op, op ∈ ops -> ~ ends_timer k g deadline op) ->
  abandon_timers (reg (hold_run ops s)) !! k = Some (mkAbandonTimer (c || bool_decide (Closed k ∈ ops)) g) /\
  tasks (hold_run ops s) !! g = Some (k, deadline).
Proof.
  intros Hi Ht Hk. induction ops as [|op ops IH] using rev_ind; intros Hend.
  - cbn. rewrite bool_decide_eq_false_2 by (by intros ?%not_elem_of_nil). by rewrite orb_false_r.
  - destruct IH as [IH1 IH2]; [intros o Ho; apply Hend, elem_of_app; by left|].
    pose proof (tasks_inv_run ops s Hi) as [Hg1 Hg2 _]. rewrite hold_run_snoc.
    set (s1 := hold_run ops s) in *.
    assert (Hop : ~ ends_timer k g deadline op) by (apply Hend, elem_of_app; right; left).
    assert (Hnc : forall o, o <> Closed k -> bool_decide (Closed k ∈ ops ++ [o]) = bool_decide (Closed k ∈ ops)).
    { intros o Ho. apply bool_decide_ext. rewrite elem_of_app, list_elem_of_singleton. split; [intros [?|?]; [done|congruence]|by left]. }
    destruct (times op) eqn:Etm.
    2: { destruct (untimed_step s1 op Etm) as (E1 & E2 & _). rewrite E1, E2, Hnc by (by intros ->). done. }
    destruct op as [| | | | | | | | |k' now|g' now|k'|k']; try done; cbn [hold_step]; rewrite ?Hnc by congruence.
    + unfold arm_abandon. destruct (abandon_timers (reg s1) !! k') as [t|] eqn:E; cbn; [done|].
      rewrite !lookup_insert_ne; [done| |congruence]. specialize (Hg2 _ _ IH2). lia.
    + destruct (tasks s1 !! g') as [[k2 dl]|] eqn:E; [|done]. destruct (Z.leb_spec dl now) as [Hdl|]; [|done].
      assert (Hne : g' <> g). { intros ->. apply Hop. right. exists now. split; [done|]. congruence. }
      cbn. rewrite lookup_delete_ne by done. split; [|done]. unfold claim_expiry.
      destruct (abandon_timers (reg s1) !! k2) as [t|] eqn:E2; [|done]. destruct (Z.eqb_spec (generation t) g') as [Eg|]; [|done].
      cbn. rewrite lookup_delete_ne; [done|]. intros ->. rewrite IH1 in E2. injection E2 as <-. done.
    + cbn. rewrite lookup_delete_ne; [done|]. intros ->. apply Hop. by left.
    + unfold note_session_closed. destruct (decide (k' = k)) as [->|N].
      * rewrite IH1. cbn. rewrite lookup_insert_eq. split; [|done]. f_equal. f_equal.
        rewrite (bool_decide_eq_true_2 (Closed k ∈ ops ++ _)) by set_solver. by rewrite orb_true_r.
      * rewrite Hnc by congruence. destruct (abandon_timers (reg s1) !! k') eqn:E; [|done]. cbn. by rewrite lookup_insert_ne.
Qed.

(** Arming from a state without a timer. *)
Lemma arm_step s k now g : (hold_step s (Arm k now)).1 = Armed k g ->
  abandon_timers (reg (hold_step s (Arm k now)).2) !! k = Some (mkAbandonTimer false g) /\
  tasks (hold_step s (Arm k now)).2 !! g = Some (k, now + abandon_timeout (reg s)).
Proof.
  cbn [hold_step]. unfold arm_abandon. destruct (abandon_timers (reg s) !! k); cbn; [done|]. intros [= <-].
  by rewrite !lookup_insert_eq.
Qed.

(** How one session's timer entry changes in a step. *)
Lemma timer_step s op k t :
  abandon_timers (reg (hold_step s op).2) !! k = Some t ->
  (exists t0, abandon_timers (reg s) !! k = Some t0 /\ generation t0 = generation t /\ op <> Cancel k) \/
  (exists now, op = Arm k now /\ (hold_step s op).1 = Armed k (generation t)).
Proof.
  destruct (times op) eqn:Etm.
  2: { destruct (untimed_step s op Etm) as (-> & _). left. exists t. split_and!; [done..|by intros ->]. }
  destruct op as [| | | | | | | | |k' now|g' now|k'|k']; try done; cbn [hold_step].
  - unfold arm_abandon. destruct (abandon_timers (reg s) !! k') as [t'|] eqn:E; cbn; [left; by exists t|].
    rewrite lookup_insert_Some. intros [[<- <-]|[N H]]; [right; by exists now|left; by exists t].
  - destruct (tasks s !! g') as [[k2 dl]|]; [|left; by exists t]. destruct (dl <=? now); [|left; by exists t].
    unfold claim_expiry. destruct (abandon_timers (reg s) !! k2) as [t2|]; [|left; by exists t].
    destruct (generation t2 =? g'); cbn; [rewrite lookup_delete_Some; intros [_ ?]|]; left; by exists t.
  - cbn. rewrite lookup_delete_Some. intros [N H]. left. exists t. split_and!; [done..|congruence].
  - unfold note_session_closed. destruct (abandon_timers (reg s) !! k') as [t'|] eqn:E; [|left; by exists t]. cbn.
    rewrite lookup_insert_Some. intros [[<- <-]|[N H]]; left; [by exists t'|by exists t].
Qed.

(** The timer in the map was armed in the history and nothing has ended it. *)
Lemma timer_armed ops s k t :
  tasks_inv s -> abandon_timers (reg s) !! k = None -> abandon_timers (reg (hold_run ops s)) !! k = Some t ->
  exists ops1 now ops2, ops = ops1 ++ Arm k now :: ops2 /\
    (hold_step (hold_run ops1 s) (Arm k now)).1 = Armed k (generation t) /\
    forall op, op ∈ ops2 -> ~ ends_timer k (generation t) (now + abandon_timeout (reg s)) op.
Proof.
  intros Hi Hn. revert t. induction ops as [|op ops IH] using rev_ind; intros t Ht; [cbn in Ht; congruence|].
  rewrite hold_run_snoc in Ht. destruct (timer_step _ _ _ _ Ht) as [(t0 & Ht0 & Hg & Hc)|(now & -> & Ho)].
  - destruct (IH t0 Ht0) as (o1 & now & o2 & -> & Ho & Hend). rewrite Hg in Ho, Hend.
    exists o1, now, (o2 ++ [op]). split_and!; [by rewrite <- app_assoc|done|].
    intros op' [Hin|Hin%list_elem_of_singleton]%elem_of_app; [by apply Hend|subst op']. intros [->|(now' & -> & Hdl)]; [done|].
    destruct (arm_step _ _ _ _ Ho) as [Ha Hk]. destruct (run_timeout o1 s) as [Eto _]. rewrite Eto in Hk.
    pose proof (tasks_inv_run o1 s Hi) as Hi1. apply (tasks_inv_step _ (Arm k now)) in Hi1.
    destruct (timer_stands o2 _ k _ _ _ Hi1 Ha Hk Hend) as [H1 H2]. rewrite <- hold_run_mid in H1, H2.
    revert Ht. cbn [hold_step]. rewrite H2. rewrite (proj2 (Z.leb_le _ _) Hdl). unfold claim_expiry. rewrite H1. cbn [generation].
    rewrite Z.eqb_refl. cbn. by rewrite lookup_delete_eq.
  - exists ops, now, []. split_and!; [done..|]. intros op Hin. by apply not_elem_of_nil in Hin.
Qed.

(** ** Properties *)

Definition fresh (unlock_floor timeout : Z) : Tasks := mkTasks (new unlock_floor timeout) ∅.

(** A dropped slot can be removed only after sustained absence.  When the
    unlock floor lets a request through, the slot was marked as dropped at least
    that long ago and its hold has stood at that first observation ever since:
    no reconnect, release or sweep touched it in between, and no repeated drop
    signal moved it. *)
Theorem drop_hold_sustained (floor timeout : Z) (ops : list hold_op) (k sl now : Z)
  (Hfloor : 0 < floor)
  (Hun : unlocked (reg (hold_run ops (fresh floor timeout))) k sl now = true) :
  exists ops1 op ops2 t, ops = ops1 ++ op :: ops2 /\ marks op k sl t /\ t + floor <= now /\
    is_pending (reg (hold_run ops1 (fresh floor timeout))) k sl = false /\
    stands ops2 (hold_run (ops1 ++ [op]) (fresh floor timeout)) k sl t.
Proof.
  revert Hun. unfold unlocked, held_for. destruct (run_timeout ops (fresh floor timeout)) as [_ ->]. cbn [reg unlock fresh new].
  destruct (holds (reg (hold_run ops (fresh floor timeout))) !! (k, sl)) as [t|] eqn:E; [|done]. cbn. intros Hle%Z.leb_le.
  destruct (held_since ops (fresh floor timeout) k sl t eq_refl E) as (o1 & op & o2 & -> & Hm & Hn & Hst).
  exists o1, op, o2, t. split_and!; [done..| | |by rewrite hold_run_snoc].
  - unfold saturating_sub in Hle. lia.
  - unfold is_pending. by rewrite Hn.
Qed.

(** A hold is claimed once.  Between two calls that win the claim on a slot's
    hold, whoever they are, the slot was marked as dropped again; so a reconnect
    and an honoured request never both act on one drop. *)
Theorem hold_claimed_once (s : Tasks) (op1 op2 : hold_op) (ops : list hold_op) (k sl : Z)
  (H1 : (hold_step s op1).1 = Claimed k sl)
  (H2 : (hold_step (hold_run ops (hold_step s op1).2) op2).1 = Claimed k sl) :
  exists op t, op ∈ ops /\ marks op k sl t.
Proof.
  destruct (claimed_drops _ _ _ _ H1) as [_ Hn]. destruct (claimed_drops _ _ _ _ H2) as [Hs _].
  destruct (holds (reg (hold_run ops (hold_step s op1).2)) !! (k, sl)) as [t|] eqn:E; [|done].
  destruct (held_since _ _ _ _ _ Hn E) as (o1 & op & o2 & -> & Hm & _). exists op, t. split; [|done].
  apply elem_of_app. right. left.
Qed.

(** A session's abandonment timer fires exactly when it should: when its
    sleep is over and it was armed under its own generation with no cancellation
    since.  It then tells whether the close was reported during its window, and
    a timer armed afresh is never fired by the expiry of an older one. *)
Theorem abandon_fires_exactly (floor timeout : Z) (ops : list hold_op) (g now k : Z) (c : bool) :
  let s := hold_run ops (fresh floor timeout) in
  (hold_step s (Expire g now)).1 = Fired k c <->
  exists ops1 t ops2, ops = ops1 ++ Arm k t :: ops2 /\
    (hold_step (hold_run ops1 (fresh floor timeout)) (Arm k t)).1 = Armed k g /\
    t + timeout <= now /\
    (forall op, op ∈ ops2 -> ~ ends_timer k g (t + timeout) op) /\
    (c = true <-> Closed k ∈ ops2).
Proof.
  pose proof (new_tasks_inv floor timeout) as Hi. fold (fresh floor timeout) in Hi. cbv zeta. split.
  - intros Hf. cbn [hold_step] in Hf.
    destruct (tasks (hold_run ops (fresh floor timeout)) !! g) as [[k' dl]|] eqn:Etk; [|done].
    destruct (Z.leb_spec dl now) as [Hdl|]; [|done]. cbn [fst] in Hf. unfold claim_expiry in Hf.
    destruct (abandon_timers (reg (hold_run ops (fresh floor timeout))) !! k') as [t|] eqn:Et; [|done].
    destruct (Z.eqb_spec (generation t) g) as [Hg|]; [|done]. cbn in Hf. injection Hf as -> <-.
    destruct (timer_armed ops (fresh floor timeout) k t Hi eq_refl Et) as (o1 & t0 & o2 & -> & Ho & Hend).
    rewrite Hg in Ho, Hend. cbn [reg fresh new abandon_timeout] in Hend.
    destruct (arm_step _ _ _ _ Ho) as [Ha Hk]. destruct (run_timeout o1 (fresh floor timeout)) as [Eto _]. rewrite Eto in Hk.
    pose proof (tasks_inv_step _ (Arm k t0) (tasks_inv_run o1 _ Hi)) as Hi1.
    destruct (timer_stands o2 _ k _ _ _ Hi1 Ha Hk Hend) as [H1 H2]. rewrite <- hold_run_mid in H1, H2.
    exists o1, t0, o2. split_and!; [done..| |done|].
    + rewrite H2 in Etk. injection Etk as <-. done.
    + rewrite H1 in Et. injection Et as <-. cbn. by rewrite bool_decide_eq_true.
  - intros (o1 & t & o2 & -> & Ho & Hnow & Hend & Hc).
    destruct (arm_step _ _ _ _ Ho) as [Ha Hk]. destruct (run_timeout o1 (fresh floor timeout)) as [Eto _]. rewrite Eto in Hk.
    pose proof (tasks_inv_step _ (Arm k t) (tasks_inv_run o1 _ Hi)) as Hi1.
    destruct (timer_stands o2 _ k _ _ _ Hi1 Ha Hk Hend) as [H1 H2]. rewrite <- hold_run_mid in H1, H2.
    cbn [hold_step]. rewrite H2. cbn [reg fresh new abandon_timeout]. rewrite (proj2 (Z.leb_le _ _) Hnow). cbn [fst].
    unfold claim_expiry. rewrite H1. cbn. rewrite Z.eqb_refl. cbn. f_equal.
    destruct c; [by rewrite bool_decide_eq_true_2 by (by apply Hc)|]. apply bool_decide_eq_false_2. intros Hx.
    by apply Hc in Hx.
Qed.

(** The sweep of an emptied roster keeps every undecided hold of the session. *)
Theorem end_session_keeps_undecided (r : DropHolds) (key slot : Z) (decided : gset Z) :
  slot ∉ decided -> holds (end_session r key decided) !! (key, slot) = holds r !! (key, slot).
Proof.
  intros Hd. cbn. destruct (holds r !! (key, slot)) as [t|] eqn:E.
  - apply map_lookup_filter_Some. split; [done|]. cbn. by right.
  - apply map_lookup_filter_None. by left.
Qed.

(** ** Concrete histories *)

Definition sample_drop : list hold_op := [Hold 7 2 100; Hold 7 2 90000; Admit 7 1 200; EndSession 7 {[1]}].

Lemma drop_hold_sustained_witness :
  unlocked (reg (hold_run sample_drop (fresh DROP_UNLOCK ABANDONED_SESSION_TIMEOUT))) 7 2 (100 + DROP_UNLOCK) = true /\
  exists ops1 op ops2 t, sample_drop = ops1 ++ op :: ops2 /\ marks op 7 2 t /\ t + DROP_UNLOCK <= 100 + DROP_UNLOCK /\
    is_pending (reg (hold_run ops1 (fresh DROP_UNLOCK ABANDONED_SESSION_TIMEOUT))) 7 2 = false /\
    stands ops2 (hold_run (ops1 ++ [op]) (fresh DROP_UNLOCK ABANDONED_SESSION_TIMEOUT)) 7 2 t.
Proof.
  assert (H : unlocked (reg (hold_run sample_drop (fresh DROP_UNLOCK ABANDONED_SESSION_TIMEOUT))) 7 2 (100 + DROP_UNLOCK) = true)
    by (vm_compute; reflexivity).
  split; [exact H|]. apply (drop_hold_sustained DROP_UNLOCK ABANDONED_SESSION_TIMEOUT sample_drop 7 2 (100 + DROP_UNLOCK)); [reflexivity|exact H].
Defined.

Lemma hold_claimed_once_witness :
  let s := hold_run [Hold 7 2 100] (fresh DROP_UNLOCK ABANDONED_SESSION_TIMEOUT) in
  exists op t, op ∈ [Release 7 2; Hold 7 2 300] /\ marks op 7 2 t.
Proof.
  apply (hold_claimed_once (hold_run [Hold 7 2 100] (fresh DROP_UNLOCK ABANDONED_SESSION_TIMEOUT)) (TakeIfPending 7 2 true) (Release 7 2));
    vm_compute; reflexivity.
Defined.
