(* ===== verification/Gate.v ===== *)
(** * The session ingress gate (relay/src/session/gate.rs)

    One session's gate as a transition system over threads.  A gate instance is
    a reader/writer lock around the retirement stamp, with a defunct mark set
    when the instance is rotated out of the registry; threads fetch the
    registry's instance, acquire it, re-check the mark and then act, and any
    number of them interleave between those points.  The registry mutex makes
    each lookup, insertion and removal one step.  A nested ingress section of
    one thread is a thread of its own here: its recursive read acquisition waits
    for nobody but a writer. *)

From Stdlib Require Import ZArith Lia.
From stdpp Require Import gmap sorting list functions.
From S2P Require Import Prelude.
Open Scope Z_scope.

Definition MAX_PLAYER_TOKEN_LIFETIME_SECS : Z := 24 * 60 * 60.
(** In nanoseconds. *)
Definition RETIRED_GATE_TTL : Z := (MAX_PLAYER_TOKEN_LIFETIME_SECS + 60 * 60) * 1000000000.

(** [state] is the lock: its holders are [readers] or one [writer]. *)
Record SessionGate : Type := mkSessionGate {
  retired_at : option Z; defunct : bool; readers : gset Z; writer : option Z
}.
Definition default_gate : SessionGate := mkSessionGate None false ∅ None.

Inductive gate_call : Type := WithIngress | WithExclusive | IsRetired | Retire | Reopen | DiscardIf.

(** Where a thread stands in its call; the gate it fetched is an address. *)
Inductive pc : Type :=
| Idle
| Called (c : gate_call)
| Fetched (c : gate_call) (g : Z)
| Locked (c : gate_call) (g : Z)       (* the lock is held *)
| Checked (c : gate_call) (g : Z)      (* the gate was seen not to be defunct *)
| Running (c : gate_call) (g : Z)      (* the closure runs *)
| Rotating (g : Z).                    (* [discard_if] is about to remove the gate *)

(** The registry entry, the instances by address, the addresses handed out, the threads. *)
Record Gates : Type := mkGates { inner : option Z; table : Z -> SessionGate; allocated : Z; threads : Z -> pc }.

Definition reads (c : gate_call) : bool := match c with WithIngress | IsRetired => true | _ => false end.
Definition creates (c : gate_call) : bool := match c with IsRetired | Reopen => false | _ => true end.
(** Calls that run a closure unless the session is retired. *)
Definition sections (c : gate_call) : bool := match c with WithIngress | WithExclusive | DiscardIf => true | _ => false end.

Definition set_pc (s : Gates) (t : Z) (p : pc) : Gates := mkGates (inner s) (table s) (allocated s) (<[t := p]> (threads s)).
Definition set_gate (s : Gates) (g : Z) (x : SessionGate) : Gates :=
  mkGates (inner s) (<[g := x]> (table s)) (allocated s) (threads s).
Definition set_inner (s : Gates) (i : option Z) : Gates := mkGates i (table s) (allocated s) (threads s).

Definition acquire (x : SessionGate) (c : gate_call) (t : Z) : SessionGate :=
  if reads c then mkSessionGate (retired_at x) (defunct x) ({[t]} ∪ readers x) (writer x)
  else mkSessionGate (retired_at x) (defunct x) (readers x) (Some t).
Definition release (x : SessionGate) (t : Z) : SessionGate :=
  mkSessionGate (retired_at x) (defunct x) (readers x ∖ {[t]})
    (if decide (writer x = Some t) then None else writer x).
Definition available (x : SessionGate) (c : gate_call) : Prop :=
  writer x = None /\ (reads c = false -> readers x = ∅).

Definition stamp (x : SessionGate) (r : option Z) : SessionGate := mkSessionGate r (defunct x) (readers x) (writer x).
Definition rotate_out (x : SessionGate) : SessionGate := mkSessionGate (retired_at x) true (readers x) (writer x).

(** The thread drops the lock and goes on as [p]. *)
Definition unlock (s : Gates) (g t : Z) (p : pc) : Gates := set_pc (set_gate s g (release (table s g) t)) t p.

Inductive gate_label : Type := Tau | Entered (t : Z) | Retired (now : Z) | Reopened | Discarded | Pruned (now : Z).

Inductive gate_step (s : Gates) : gate_label -> Gates -> Prop :=
| step_call t c : threads s t = Idle -> gate_step s Tau (set_pc s t (Called c))
| step_gate_new t c : threads s t = Called c -> creates c = true -> inner s = None ->
    gate_step s Tau
      (mkGates (Some (allocated s)) (<[allocated s := default_gate]> (table s)) (allocated s + 1)
        (<[t := Fetched c (allocated s)]> (threads s)))
| step_gate t c g : threads s t = Called c -> inner s = Some g -> gate_step s Tau (set_pc s t (Fetched c g))
| step_no_gate t c : threads s t = Called c -> creates c = false -> inner s = None -> gate_step s Tau (set_pc s t Idle)
| step_acquire t c g : threads s t = Fetched c g -> available (table s g) c ->
    gate_step s Tau (set_pc (set_gate s g (acquire (table s g) c t)) t (Locked c g))
| step_stale t c g : threads s t = Locked c g -> c <> Reopen -> defunct (table s g) = true ->
    gate_step s Tau (unlock s g t (Called c))
| step_checked t c g : threads s t = Locked c g -> c <> Reopen -> defunct (table s g) = false ->
    gate_step s Tau (set_pc s t (Checked c g))
| step_refuse t c g : threads s t = Checked c g -> sections c = true -> retired_at (table s g) <> None ->
    gate_step s Tau (unlock s g t Idle)
| step_enter t c g : threads s t = Checked c g -> sections c = true -> retired_at (table s g) = None ->
    gate_step s (Entered t) (set_pc s t (Running c g))
| step_leave t c g : threads s t = Running c g -> gate_step s Tau (unlock s g t Idle)
| step_approve t g : threads s t = Running DiscardIf g -> gate_step s Tau (set_pc s t (Rotating g))
| step_rotate t g : threads s t = Rotating g ->
    gate_step s Tau
      (unlock (set_inner (set_gate s g (rotate_out (table s g)))
         (if decide (inner s = Some g) then None else inner s)) g t Idle)
| step_answer t g : threads s t = Checked IsRetired g -> gate_step s Tau (unlock s g t Idle)
| step_retire t g now : threads s t = Checked Retire g ->
    gate_step s (Retired now) (unlock (set_gate s g (stamp (table s g) (Some now))) g t Idle)
| step_reopen t g : threads s t = Locked Reopen g ->
    gate_step s Reopened (unlock (set_gate s g (stamp (table s g) None)) g t Idle)
| step_discard g : inner s = Some g ->
    gate_step s Discarded (set_inner (set_gate s g (rotate_out (table s g))) None)
| step_prune g now at_ : inner s = Some g -> writer (table s g) = None -> retired_at (table s g) = Some at_ ->
    RETIRED_GATE_TTL <= now - at_ ->
    gate_step s (Pruned now) (set_inner (set_gate s g (rotate_out (table s g))) None).

Inductive gate_run (s : Gates) : list gate_label -> Gates -> Prop :=
| run_nil : gate_run s [] s
| run_snoc ls s1 l s2 : gate_run s ls s1 -> gate_step s1 l s2 -> gate_run s (ls ++ [l]) s2.

Definition new_gates : Gates := mkGates None (fun _ => default_gate) 0 (fun _ => Idle).

(** ** The lock discipline and what it protects *)

Definition holding (p : pc) : option (Z * bool) :=
  match p with
  | Locked c g | Checked c g | Running c g => Some (g, reads c)
  | Rotating g => Some (g, false)
  | _ => None
  end.
Definition mentions (p : pc) : option Z :=
  match p with Fetched _ g | Locked _ g | Checked _ g | Running _ g | Rotating g => Some g | _ => None end.

(** What a thread may rely on where it stands. *)
Definition pc_ok (x : SessionGate) (p : pc) : Prop :=
  match p with
  | Checked c _ => defunct x = false \/ reads c = true /\ retired_at x <> None
  | Running c _ => defunct x = false /\ retired_at x = None /\ sections c = true
  | Rotating _ => defunct x = false /\ retired_at x = None
  | _ => True
  end.

Record gates_inv (s : Gates) : Prop := mkGatesInv {
  gi_current : forall g, inner s = Some g -> 0 <= g < allocated s /\ defunct (table s g) = false;
  gi_only : forall g, 0 <= g < allocated s -> defunct (table s g) = false -> inner s = Some g;
  gi_known : forall t g, mentions (threads s t) = Some g -> 0 <= g < allocated s;
  gi_readers : forall t g, t ∈ readers (table s g) <-> holding (threads s t) = Some (g, true);
  gi_writer : forall t g, writer (table s g) = Some t <-> holding (threads s t) = Some (g, false);
  gi_excl : forall g, writer (table s g) <> None -> readers (table s g) = ∅;
  gi_pcs : forall t g, mentions (threads s t) = Some g -> pc_ok (table s g) (threads s t);
  gi_alloc : 0 <= allocated s
}.

Lemma new_gates_inv : gates_inv new_gates.
Proof. split; cbn; try done; try lia; intros; set_solver. Qed.

Lemma holding_mentions p g m : holding p = Some (g, m) -> mentions p = Some g.
Proof. destruct p; cbn; congruence. Qed.

Ltac fn_cases := repeat match goal with
  | |- context [(<[?a := ?x]> ?f) ?b] =>
      destruct (decide (b = a)) as [?Heq|?Hne]; [subst; rewrite !fn_lookup_insert in *|rewrite !(fn_lookup_insert_ne f a b x) in * by congruence]
  | H : context [(<[?a := ?x]> ?f) ?b] |- _ =>
      destruct (decide (b = a)) as [?Heq|?Hne]; [subst; rewrite !fn_lookup_insert in *|rewrite !(fn_lookup_insert_ne f a b x) in * by congruence]
  end.

(** A thread moves on without touching a lock. *)
Lemma pc_step_inv s t p :
  gates_inv s -> holding p = holding (threads s t) ->
  (forall g, mentions p = Some g -> 0 <= g < allocated s /\ pc_ok (table s g) p) -> gates_inv (set_pc s t p).
Proof.
  intros [] Hh Hm. split; cbn [set_pc inner table allocated threads]; try done.
  - intros t' g. fn_cases; [intros H; by apply Hm|apply gi_known0].
  - intros t' g. fn_cases; [by rewrite Hh|apply gi_readers0].
  - intros t' g. fn_cases; [by rewrite Hh|apply gi_writer0].
  - intros t' g. fn_cases; [intros H; by apply Hm|apply gi_pcs0].
Qed.

Lemma acquire_inv s t c g :
  gates_inv s -> threads s t = Fetched c g -> available (table s g) c ->
  gates_inv (set_pc (set_gate s g (acquire (table s g) c t)) t (Locked c g)).
Proof.
  intros [] Ht [Hw Hr].
  assert (Hsame : retired_at (acquire (table s g) c t) = retired_at (table s g) /\ defunct (acquire (table s g) c t) = defunct (table s g))
    by (unfold acquire; by destruct (reads c)). destruct Hsame as [E1 E2].
  assert (Hno : forall t', holding (threads s t') <> Some (g, false)) by (intros t' H; apply gi_writer0 in H; congruence).
  split; cbn [set_pc set_gate inner table allocated threads]; try done.
  - intros g'. fn_cases; rewrite ?E2; apply gi_current0.
  - intros g'. fn_cases; rewrite ?E2; apply gi_only0.
  - intros t' g'. fn_cases; [|apply gi_known0]. intros [= <-]. apply (gi_known0 t). by rewrite Ht.
  - intros t' g'. unfold acquire. fn_cases; destruct (reads c) eqn:Ec; cbn [readers holding]; rewrite ?Ec; rewrite ?elem_of_union, ?elem_of_singleton, ?gi_readers0;
      rewrite ?Ht; cbn [holding]; naive_solver.
  - intros t' g'. unfold acquire. fn_cases; destruct (reads c) eqn:Ec; cbn [writer holding]; rewrite ?Ec, ?gi_writer0, ?Hw;
      rewrite ?Ht; cbn [holding]; naive_solver.
  - intros g'. unfold acquire. fn_cases; [|apply gi_excl0]. destruct (reads c) eqn:Ec; cbn [writer readers]; [by rewrite Hw|auto].
  - intros t' g'. destruct (decide (t' = t)) as [->|N]; [by rewrite fn_lookup_insert|].
    rewrite (fn_lookup_insert_ne (threads s)) by done. intros Hm. specialize (gi_pcs0 t' g' Hm). fn_cases; [|done].
    destruct (threads s t'); cbn [pc_ok] in *; rewrite ?E1, ?E2; done.
Qed.

(** A thread drops the lock it holds, having changed what it guards if it holds
    the write side; the instance may have been rotated out on the way. *)
Lemma unlock_inv s t g m p x f i :
  gates_inv s -> holding (threads s t) = Some (g, m) -> holding p = None -> mentions p = None ->
  readers x = readers (table s g) -> writer x = writer (table s g) -> (x = table s g \/ m = false) ->
  (defunct x = defunct (table s g) /\ i = inner s \/ defunct x = true /\ inner s = Some g /\ i = None) ->
  f g = release x t -> (forall g', g' <> g -> f g' = table s g') ->
  gates_inv (mkGates i f (allocated s) (<[t := p]> (threads s))).
Proof.
  intros [] Ht Hp Hpm Hr Hw Hx Hi Hf Hf'.
  assert (Hother : m = false -> forall t' n, t' <> t -> holding (threads s t') <> Some (g, n)).
  { intros -> t' n N H. apply gi_writer0 in Ht as Hw'. destruct n.
    - apply gi_readers0 in H. rewrite gi_excl0 in H by congruence. set_solver.
    - apply gi_writer0 in H. congruence. }
  assert (Hd : forall g', g' <> g -> table s g' = f g') by (intros; by rewrite Hf').
  split; cbn [inner table allocated threads].
  - intros g' Hg'. destruct (decide (g' = g)) as [->|N].
    + rewrite Hf. cbn. destruct Hi as [[-> ->]|(_ & _ & ->)]; [by apply gi_current0|done].
    + rewrite <- Hd by done. destruct Hi as [[_ ->]|(_ & Hin & ->)]; [by apply gi_current0|done].
  - intros g' Hal. destruct (decide (g' = g)) as [->|N].
    + rewrite Hf. cbn. destruct Hi as [[-> ->]|(-> & _)]; [by apply gi_only0|done].
    + rewrite <- Hd by done. intros H%gi_only0; [|done]. destruct Hi as [[_ ->]|(_ & Hin & ->)]; [done|congruence].
  - intros t' g'. fn_cases; [congruence|apply gi_known0].
  - intros t' g'. destruct (decide (g' = g)) as [->|N].
    + rewrite Hf. cbn. rewrite Hr, elem_of_difference, elem_of_singleton, gi_readers0. fn_cases; rewrite ?Hp; naive_solver.
    + rewrite <- Hd by done. rewrite gi_readers0. fn_cases; [rewrite Hp, Ht; naive_solver|done].
  - intros t' g'. destruct (decide (g' = g)) as [->|N].
    + rewrite Hf. cbn. rewrite Hw. fn_cases.
      * rewrite Hp. case_decide; naive_solver.
      * rewrite <- gi_writer0. case_decide; naive_solver.
    + rewrite <- Hd by done. rewrite gi_writer0. fn_cases; [rewrite Hp, Ht; naive_solver|done].
  - intros g'. destruct (decide (g' = g)) as [->|N]; [|rewrite <- Hd by done; apply gi_excl0].
    rewrite Hf. cbn. rewrite Hr, Hw. intros H. rewrite gi_excl0; [set_solver|]. by case_decide.
  - intros t' g' Hm. destruct (decide (t' = t)) as [->|N]; [rewrite fn_lookup_insert in Hm; congruence|].
    rewrite fn_lookup_insert_ne in * by done. specialize (gi_pcs0 t' g' Hm).
    destruct (decide (g' = g)) as [->|Ng]; [|by rewrite <- Hd].
    assert (Hxx : x = table s g \/ holding (threads s t') = None).
    { destruct Hx as [->|Hx]; [by left|]. destruct (holding (threads s t')) as [[g1 n]|] eqn:E; [|by right].
      destruct (Hother Hx t' n N). apply holding_mentions in E as E'. congruence. }
    rewrite Hf. destruct (threads s t'); cbn [pc_ok release retired_at defunct] in *; try done; destruct Hxx as [->|]; done.
  - done.
Qed.

Lemma prune_inv s g at_ :
  gates_inv s -> inner s = Some g -> writer (table s g) = None -> retired_at (table s g) = Some at_ ->
  gates_inv (set_inner (set_gate s g (rotate_out (table s g))) None).
Proof.
  intros [] Hi Hw Hr. split; cbn [set_inner set_gate inner table allocated threads]; try done.
  - intros g' Hal. fn_cases; [done|]. intros H%gi_only0; [congruence|done].
  - intros t' g'. fn_cases; cbn; apply gi_readers0.
  - intros t' g'. fn_cases; cbn; apply gi_writer0.
  - intros g'. fn_cases; cbn; apply gi_excl0.
  - intros t' g' Hm. specialize (gi_pcs0 t' g' Hm). fn_cases; [|done].
    destruct (threads s t') as [| | | |c g'|c g'|g'] eqn:E; cbn [pc_ok rotate_out retired_at defunct mentions] in *; try done.
    + injection Hm as ->. right. split; [|congruence]. destruct (reads c) eqn:Ec; [done|].
      assert (writer (table s g) = Some t') by (apply gi_writer0; rewrite E; cbn; by rewrite Ec). congruence.
    + destruct gi_pcs0 as (_ & ? & _). congruence.
    + destruct gi_pcs0 as (_ & ?). congruence.
Qed.

Lemma unlock_same s t g m p :
  gates_inv s -> holding (threads s t) = Some (g, m) -> holding p = None -> mentions p = None -> gates_inv (unlock s g t p).
Proof.
  intros Hi Ht Hp Hm. eapply (unlock_inv s t g m p (table s g)); cbn [set_gate inner table]; try done; [by left|by left|..];
    [by rewrite fn_lookup_insert|intros; by rewrite fn_lookup_insert_ne].
Qed.

Lemma new_gate_inv s t c :
  gates_inv s -> threads s t = Called c -> inner s = None ->
  gates_inv (mkGates (Some (allocated s)) (<[allocated s := default_gate]> (table s)) (allocated s + 1)
    (<[t := Fetched c (allocated s)]> (threads s))).
Proof.
  intros [] Ht Hn.
  assert (Hfree : forall t' m, holding (threads s t') <> Some (allocated s, m)).
  { intros t' m H%holding_mentions%gi_known0. lia. }
  split; cbn [inner table allocated threads].
  - intros g [= <-]. rewrite fn_lookup_insert. split; [lia|done].
  - intros g Hg. fn_cases; [done|]. intros H%gi_only0; [congruence|lia].
  - intros t' g. fn_cases; [intros [= <-]; lia|]. intros H%gi_known0. lia.
  - intros t' g. destruct (decide (g = allocated s)) as [->|Ng].
    + rewrite fn_lookup_insert. cbn. fn_cases; [set_solver|]. split; [set_solver|]. intros H. by apply Hfree in H.
    + rewrite (fn_lookup_insert_ne (table s)) by done. fn_cases; [|apply gi_readers0]. rewrite gi_readers0, Ht. done.
  - intros t' g. destruct (decide (g = allocated s)) as [->|Ng].
    + rewrite fn_lookup_insert. cbn. fn_cases; [done|]. split; [done|]. intros H. by apply Hfree in H.
    + rewrite (fn_lookup_insert_ne (table s)) by done. fn_cases; [|apply gi_writer0]. rewrite gi_writer0, Ht. done.
  - intros g. fn_cases; [done|apply gi_excl0].
  - intros t' g. destruct (decide (t' = t)) as [->|N]; [by rewrite fn_lookup_insert|].
    rewrite (fn_lookup_insert_ne (threads s)) by done. intros Hm. rewrite fn_lookup_insert_ne; [by apply gi_pcs0|].
    intros E. specialize (gi_known0 _ _ Hm). lia.
  - lia.
Qed.

Lemma gate_step_inv s l s' : gates_inv s -> gate_step s l s' -> l <> Discarded -> gates_inv s'.
Proof.
  intros Hi Hs Hl. destruct Hs as [t c Ht|t c Ht Hc Hn|t c g Ht Hg|t c Ht Hc Hn|t c g Ht Ha|t c g Ht Hc Hd|t c g Ht Hc Hd
    |t c g Ht Hc Hr|t c g Ht Hc Hr|t c g Ht|t g Ht|t g Ht|t g Ht|t g now Ht|t g Ht|g Hg|g now at_ Hg Hw Hr Hle].
  - apply pc_step_inv; [done|by rewrite Ht|done].
  - by apply new_gate_inv.
  - apply pc_step_inv; [done|by rewrite Ht|]. intros g' [= <-]. split; [by apply (gi_current _ Hi)|done].
  - apply pc_step_inv; [done|by rewrite Ht|done].
  - by apply acquire_inv.
  - apply (unlock_same s t g (reads c)); by rewrite ?Ht.
  - apply pc_step_inv; [done|by rewrite Ht|]. intros g' [= <-]. split; [|by left]. apply (gi_known _ Hi t). by rewrite Ht.
  - apply (unlock_same s t g (reads c)); by rewrite ?Ht.
  - apply pc_step_inv; [done|by rewrite Ht|]. intros g' [= <-]. split; [apply (gi_known _ Hi t); by rewrite Ht|].
    pose proof (gi_pcs _ Hi t g ltac:(by rewrite Ht)) as Hok. rewrite Ht in Hok. cbn in *. naive_solver.
  - apply (unlock_same s t g (reads c)); by rewrite ?Ht.
  - apply pc_step_inv; [done|by rewrite Ht|]. intros g' [= <-]. split; [apply (gi_known _ Hi t); by rewrite Ht|].
    pose proof (gi_pcs _ Hi t g ltac:(by rewrite Ht)) as Hok. rewrite Ht in Hok. cbn in *. naive_solver.
  - pose proof (gi_pcs _ Hi t g ltac:(by rewrite Ht)) as Hok. rewrite Ht in Hok. cbn in Hok.
    assert (Hin : inner s = Some g) by (apply (gi_only _ Hi); [apply (gi_known _ Hi t); by rewrite Ht|tauto]).
    rewrite decide_True by done. unfold unlock. cbn [set_inner set_gate table]. rewrite fn_lookup_insert.
    eapply (unlock_inv s t g false Idle (rotate_out (table s g))); cbn [set_inner set_gate inner table]; try done; [by rewrite Ht|by right|by right|..];
      [by rewrite fn_lookup_insert|intros; by rewrite !fn_lookup_insert_ne].
  - apply (unlock_same s t g true); by rewrite ?Ht.
  - unfold unlock. cbn [set_gate table]. rewrite fn_lookup_insert.
    eapply (unlock_inv s t g false Idle (stamp (table s g) (Some now))); cbn [set_inner set_gate inner table]; try done; [by rewrite Ht|by right|by left|..];
      [by rewrite fn_lookup_insert|intros; by rewrite !fn_lookup_insert_ne].
  - unfold unlock. cbn [set_gate table]. rewrite fn_lookup_insert.
    eapply (unlock_inv s t g false Idle (stamp (table s g) None)); cbn [set_inner set_gate inner table]; try done; [by rewrite Ht|by right|by left|..];
      [by rewrite fn_lookup_insert|intros; by rewrite !fn_lookup_insert_ne].
  - done.
  - by eapply prune_inv.
Qed.

Lemma gate_run_inv s ls s' : gates_inv s -> gate_run s ls s' -> Discarded ∉ ls -> gates_inv s'.
Proof.
  intros Hi. induction 1 as [|ls s1 l s2 Hr IH Hs]; intros Hd; [done|]. rewrite not_elem_of_app, list_elem_of_singleton in Hd.
  eapply gate_step_inv; [apply IH; tauto|done|]. intros ->. tauto.
Qed.

(** The registry's gate is stamped, no earlier than [from]. *)
Definition retired_since (s : Gates) (from : Z) : Prop :=
  exists g at_, inner s = Some g /\ retired_at (table s g) = Some at_ /\ from <= at_.

(** Labels that end or could outlive a retirement stamped at [from]. *)
Definition keeps_retirement (from : Z) (l : gate_label) : Prop :=
  match l with
  | Reopened | Discarded => False
  | Retired now => from <= now
  | Pruned now => now < from + RETIRED_GATE_TTL
  | _ => True
  end.

Lemma running_current s t c g : gates_inv s -> threads s t = Running c g -> inner s = Some g /\ retired_at (table s g) = None.
Proof.
  intros Hi Ht. pose proof (gi_pcs _ Hi t g ltac:(by rewrite Ht)) as Hok. rewrite Ht in Hok. destruct Hok as (Hd & Hr & _).
  split; [|done]. apply (gi_only _ Hi); [|done]. apply (gi_known _ Hi t). by rewrite Ht.
Qed.

Lemma checked_current s t c g : gates_inv s -> threads s t = Checked c g -> (reads c = true -> retired_at (table s g) = None) ->
  inner s = Some g.
Proof.
  intros Hi Ht Hn. pose proof (gi_pcs _ Hi t g ltac:(by rewrite Ht)) as Hok. rewrite Ht in Hok.
  apply (gi_only _ Hi); [apply (gi_known _ Hi t); by rewrite Ht|]. destruct Hok as [?|[Hc Hr]]; [done|]. by apply Hn in Hc.
Qed.

(** A stamped instance stays where it is, whatever one thread does to its lock. *)
Lemma unlock_retired s g t p from : retired_since s from -> retired_since (unlock s g t p) from.
Proof.
  intros (g0 & a & Hi & Hr & Ha). exists g0, a. unfold unlock. cbn [set_pc set_gate inner table]. split_and!; [done| |done].
  destruct (decide (g0 = g)) as [->|N]; [by rewrite fn_lookup_insert|by rewrite fn_lookup_insert_ne].
Qed.

Lemma retired_step s l s' from :
  gates_inv s -> retired_since s from -> gate_step s l s' -> keeps_retirement from l ->
  retired_since s' from /\ forall t, l <> Entered t.
Proof.
  intros Hi Hr Hs Hk. pose proof Hr as (g0 & a & Hg0 & Ha & Hle). destruct Hs as [t c Ht|t c Ht Hc Hn|t c g Ht Hg|t c Ht Hc Hn|t c g Ht Hav|t c g Ht Hc Hd|t c g Ht Hc Hd
    |t c g Ht Hc Hre|t c g Ht Hc Hre|t c g Ht|t g Ht|t g Ht|t g Ht|t g now Ht|t g Ht|g Hg|g now at_ Hg Hw Hre Hge];
    try done; try (split; [|done]; first [by apply unlock_retired|by exists g0, a|congruence]).
  - split; [|done]. exists g0, a. cbn [set_pc set_gate inner table]. split_and!; [done| |done].
    destruct (decide (g0 = g)) as [->|N]; [|by rewrite fn_lookup_insert_ne]. rewrite fn_lookup_insert. unfold acquire. by destruct (reads c).
  - exfalso. assert (inner s = Some g) by (by eapply checked_current). congruence.
  - exfalso. pose proof (gi_pcs _ Hi t g ltac:(by rewrite Ht)) as Hok. rewrite Ht in Hok. destruct Hok as [Hd Hn].
    assert (inner s = Some g) by (apply (gi_only _ Hi); [apply (gi_known _ Hi t); by rewrite Ht|done]). congruence.
  - split; [|done]. apply unlock_retired. assert (inner s = Some g) by (by eapply checked_current).
    exists g, now. cbn. rewrite fn_lookup_insert. done.
  - exfalso. assert (g = g0) as -> by congruence. cbn in Hk. rewrite Ha in Hre. injection Hre as <-. lia.
Qed.

Lemma retired_run s ls s' from :
  gates_inv s -> retired_since s from -> gate_run s ls s' -> Forall (keeps_retirement from) ls ->
  gates_inv s' /\ retired_since s' from /\ forall t, Entered t ∉ ls.
Proof.
  intros Hi Hr. induction 1 as [|ls s1 l s2 Hrun IH Hs]; intros Hk; [split_and!; [done..|intros t H; by apply not_elem_of_nil in H]|].
  apply Forall_app in Hk as [Hk1 Hk2]. rewrite Forall_singleton in Hk2. destruct (IH Hk1) as (Hi1 & Hr1 & He1).
  destruct (retired_step _ _ _ _ Hi1 Hr1 Hs Hk2) as [Hr2 He2]. split_and!; [|done|].
  - eapply gate_step_inv; [done..|]. by intros ->.
  - intros t. rewrite not_elem_of_app, list_elem_of_singleton. split; [done|]. intros H. by apply (He2 t).
Qed.

(** ** Properties *)

(** A retirement lands where everyone looks and shuts the session.  Whatever
    calls were under way, the gate a retirement stamps is the registry's own; at
    that moment no closure runs; and until the session is served again or its
    day-long tombstone expires, no closure is entered. *)
Theorem retired_session_admits_nothing (before after : list gate_label) (s1 s2 s3 : Gates) (now : Z)
  (Hb : gate_run new_gates before s1) (Hd : Discarded ∉ before)
  (Hr : gate_step s1 (Retired now) s2)
  (Ha : gate_run s2 after s3) (Hk : Forall (keeps_retirement now) after) :
  retired_since s2 now /\ retired_since s3 now /\ (forall t, Entered t ∉ after) /\
  (forall t c g, threads s2 t <> Running c g) /\ (forall t c g, threads s3 t <> Running c g).
Proof.
  pose proof (gate_run_inv _ _ _ new_gates_inv Hb Hd) as Hi1.
  pose proof (gate_step_inv _ _ _ Hi1 Hr ltac:(done)) as Hi2.
  assert (Hs2 : retired_since s2 now).
  { inversion Hr as [| | | | | | | | | | | | |t g n Ht| | |]; subst. apply unlock_retired. exists g, now. cbn.
    rewrite fn_lookup_insert. split_and!; [by eapply checked_current|done|lia]. }
  destruct (retired_run _ _ _ _ Hi2 Hs2 Ha Hk) as (Hi3 & Hs3 & He).
  assert (Hno : forall s, gates_inv s -> retired_since s now -> forall t c g, threads s t <> Running c g).
  { intros s Hi (g0 & a & H1 & H2 & _) t c g Ht. destruct (running_current _ _ _ _ Hi Ht). congruence. }
  split_and!; eauto.
Qed.

(** Closures run only on the registry's live gate, and an exclusive one runs
    alone: while it runs, no other ingress of the session does. *)
Theorem gate_sections_exclusive (ls : list gate_label) (s : Gates) (t : Z) (c : gate_call) (g : Z)
  (Hrun : gate_run new_gates ls s) (Hd : Discarded ∉ ls) (Ht : threads s t = Running c g) :
  inner s = Some g /\ retired_at (table s g) = None /\
  (reads c = false -> forall t' c' g', threads s t' = Running c' g' -> t' = t).
Proof.
  pose proof (gate_run_inv _ _ _ new_gates_inv Hrun Hd) as Hi. destruct (running_current _ _ _ _ Hi Ht) as [Hin Hre].
  split_and!; [done..|]. intros Hc t' c' g' Ht'. destruct (running_current _ _ _ _ Hi Ht') as [Hin' _].
  assert (g' = g) as -> by congruence.
  assert (Hw : writer (table s g) = Some t) by (apply (gi_writer _ Hi); rewrite Ht; cbn; by rewrite Hc).
  destruct (reads c') eqn:Ec'.
  - assert (Hr' : t' ∈ readers (table s g)) by (apply (gi_readers _ Hi); rewrite Ht'; cbn; by rewrite Ec').
    rewrite (gi_excl _ Hi) in Hr' by congruence. set_solver.
  - assert (Hw' : writer (table s g) = Some t') by (apply (gi_writer _ Hi); rewrite Ht'; cbn; by rewrite Ec'). congruence.
Qed.

(** ** A concrete interleaving *)

Lemma run_cons s l s1 ls s2 : gate_step s l s1 -> gate_run s1 ls s2 -> gate_run s (l :: ls) s2.
Proof.
  intros Hs Hr. induction Hr as [|ls s2 l' s3 Hr IH Hs']; [exact (run_snoc s [] s l s1 (run_nil s) Hs)|].
  exact (run_snoc s (l :: ls) s2 l' s3 IH Hs').
Qed.

(** An ingress of thread 1 is under way when thread 2 asks to retire; it waits,
    stamps, and thread 3's ingress is refused. *)
Lemma retired_session_admits_nothing_witness :
  exists s1 s2 s3, gate_run new_gates (replicate 8 Tau ++ [Entered 1; Tau; Tau; Tau]) s1 /\ gate_step s1 (Retired 5) s2 /\
    gate_run s2 (replicate 5 Tau) s3 /\ retired_since s3 5 /\ (forall t c g, threads s3 t <> Running c g).
Proof.
  assert (Hrun : exists s1, gate_run new_gates (replicate 8 Tau ++ [Entered 1; Tau; Tau; Tau]) s1 /\
    exists s2, gate_step s1 (Retired 5) s2 /\ exists s3, gate_run s2 (replicate 5 Tau) s3).
  { eexists. split.
    - cbn [replicate app]. repeat first [apply run_nil|eapply run_cons].
      + eapply (step_call _ 1 WithIngress); reflexivity.
      + eapply (step_gate_new _ 1); reflexivity.
      + eapply (step_acquire _ 1); [reflexivity|by split].
      + eapply (step_call _ 2 Retire); reflexivity.
      + eapply (step_gate _ 2); reflexivity.
      + eapply (step_call _ 3 WithIngress); reflexivity.
      + eapply (step_gate _ 3); reflexivity.
      + eapply (step_checked _ 1); [reflexivity|done|reflexivity].
      + eapply (step_enter _ 1); reflexivity.
      + eapply (step_leave _ 1); reflexivity.
      + eapply (step_acquire _ 2); [reflexivity|]. split; [reflexivity|intros _; vm_compute; reflexivity].
      + eapply (step_checked _ 2); [reflexivity|done|reflexivity].
    - eexists. split; [eapply (step_retire _ 2); reflexivity|]. eexists.
      cbn [replicate app]. repeat first [apply run_nil|eapply run_cons].
      + eapply (step_acquire _ 3); [reflexivity|by split].
      + eapply (step_checked _ 3); [reflexivity|done|reflexivity].
      + eapply (step_refuse _ 3); [reflexivity..|done].
      + eapply (step_call _ 3 WithIngress); reflexivity.
      + eapply (step_gate _ 3); reflexivity. }
  destruct Hrun as (s1 & H1 & s2 & H2 & s3 & H3). exists s1, s2, s3. split_and!; [done..| |].
  - refine (proj1 (proj2 (retired_session_admits_nothing _ _ s1 s2 s3 5 H1 _ H2 H3 _))); [set_solver|by repeat constructor].
  - refine (proj2 (proj2 (proj2 (proj2 (retired_session_admits_nothing _ _ s1 s2 s3 5 H1 _ H2 H3 _))))); [set_solver|by repeat constructor].
Defined.

Lemma gate_sections_exclusive_witness :
  exists s, gate_run new_gates [Tau; Tau; Tau; Tau; Entered 1] s /\ threads s 1 = Running WithExclusive 0 /\ inner s = Some 0.
Proof.
  assert (Hrun : exists s, gate_run new_gates [Tau; Tau; Tau; Tau; Entered 1] s /\ threads s 1 = Running WithExclusive 0).
  { eexists. split.
    - repeat first [apply run_nil|eapply run_cons].
      + eapply (step_call _ 1 WithExclusive); reflexivity.
      + eapply (step_gate_new _ 1); reflexivity.
      + eapply (step_acquire _ 1); [reflexivity|by split].
      + eapply (step_checked _ 1); [reflexivity|done|reflexivity].
      + eapply (step_enter _ 1); reflexivity.
    - reflexivity. }
  destruct Hrun as (s & H & Ht). exists s. split_and!; [exact H|exact Ht|].
  refine (proj1 (gate_sections_exclusive _ s 1 WithExclusive 0 H _ Ht)). set_solver.
Defined.
