(* ===== verification/Clock.v ===== *)
(** * The rollback session clock (relay/src/consensus/clock.rs)

    When each turn is due at a relay and where the clock stood still.  Instants
    and durations are nanoseconds as integers, so subtracting from an instant
    never fails; steps saturate at 64 bits where the source saturates.  The
    theorems say that a final deadline never moves, that merging copies takes
    the most stopped time any of them knows, whatever the order of arrival, and
    that a turn is read against its deadline as it stood when it arrived. *)

From Stdlib Require Import ZArith Lia.
From stdpp Require Import gmap sorting list.
From S2P Require Import Prelude.
Open Scope Z_scope.

Definition LOCKSTEP_START_STEPS : Z := 24.
Definition STEP_DURATION_US : Z := 42000.
Definition LEAD_SEEN_SEQS : Z := 128.
Definition ANCHOR_STEP : Z := LOCKSTEP_START_STEPS - 1.
Definition STALL_SLACK_STEPS : Z := 6.
Definition KEPT_STOP_STEPS : Z := LEAD_SEEN_SEQS + STALL_SLACK_STEPS.

(** [Duration::from_micros] and [as_micros]. *)
Definition from_micros (us : Z) : Z := us * 1000.
Definition as_micros (d : Z) : Z := d / 1000.

Definition steps_duration (steps : Z) : Z := from_micros (Z.min u64_max (STEP_DURATION_US * steps)).
Definition whole_micros (d : Z) : Z := Z.min u64_max (as_micros d).

Record Stop : Type := mkStop { step : Z; pause : Z }.
#[export] Instance Stop_eq_dec : EqDecision Stop.
Proof. solve_decision. Defined.

Record ClockStop : Type := mkClockStop { cs_step : Z; pause_us : Z }.
Record SessionClockFrame : Type := mkSessionClockFrame {
  f_anchor_step : Z; since_anchor_us : Z; f_final_through : Z; f_base_step : Z; base_pause_us : Z; f_stops : list ClockStop
}.

(** The durations of a run of stops, summed. *)
Definition total (l : list Stop) : Z := foldr (fun s acc => pause s + acc) 0 l.

(** [Iterator::take_while]. *)
Fixpoint take_while {A} (f : A -> bool) (l : list A) : list A :=
  match l with [] => [] | x :: l => if f x then x :: take_while f l else [] end.

Record CopiedStops : Type := mkCopiedStops { c_base_step : Z; c_base_pause : Z; c_stops : list Stop }.

Definition by_step (a b : Stop) : Prop := step a <= step b.
#[export] Instance by_step_dec : RelDecision by_step := fun a b => Z_le_dec (step a) (step b).

Definition from_frame (frame : SessionClockFrame) : CopiedStops :=
  let stops :=
    map (fun s => mkStop (cs_step s) (from_micros (pause_us s)))
      (filter (fun s => f_base_step frame <= cs_step s <= f_final_through frame) (f_stops frame)) in
  mkCopiedStops (f_base_step frame) (from_micros (base_pause_us frame)) (merge_sort by_step stops).

Definition copied_pause_before (c : CopiedStops) (n : Z) : Z :=
  if n <? c_base_step c then 0 else c_base_pause c + total (take_while (fun s => step s <? n) (c_stops c)).

Record SessionClock : Type := mkSessionClock {
  anchor_at : option (Z * Z); final : Z; base_step : Z; base_pause : Z; stops : list Stop
}.

Definition default_clock : SessionClock := mkSessionClock None 0 0 0 [].

Definition is_anchored (c : SessionClock) : bool := match anchor_at c with Some _ => true | None => false end.
Definition anchor_step (c : SessionClock) : option Z := fst <$> anchor_at c.
Definition final_through (c : SessionClock) : option Z := (fun _ => final c) <$> anchor_at c.

Definition clock_pause (c : SessionClock) : Z := base_pause c + total (stops c).

Definition pause_before (c : SessionClock) (n : Z) : Z :=
  base_pause c + total (filter (fun s => step s < n) (stops c)).

Definition due_at (c : SessionClock) (seq : Z) : option Z :=
  match anchor_at c with
  | None => None
  | Some (anchor_seq, at_) =>
      match checked_sub seq anchor_seq with
      | None => None
      | Some after =>
          if (final c <? seq) || (seq <? base_step c) then None
          else Some (at_ + pause_before c seq + steps_duration after)
      end
  end.

(** The loop of [due_as_it_stood]: the stopped time, and the part of it that came
    after the arrival. *)
Fixpoint stood_loop (l : list Stop) (anchor_seq at_ arrived stopped came_after : Z) : Z * Z :=
  match l with
  | [] => (stopped, came_after)
  | s :: l =>
      let stood_from := at_ + stopped + steps_duration (saturating_sub (step s) anchor_seq) in
      let resumed := stood_from + pause s in
      stood_loop l anchor_seq at_ arrived (stopped + pause s)
        (came_after + saturating_sub resumed (Z.max arrived stood_from))
  end.

Definition due_as_it_stood (c : SessionClock) (seq arrived : Z) : option Z :=
  match anchor_at c with
  | None => None
  | Some (anchor_seq, at_) =>
      match checked_sub seq anchor_seq with
      | None => None
      | Some after =>
          if (final c <? seq) || (seq <? base_step c) then None else
          let base_due := at_ + base_pause c + steps_duration (saturating_sub (base_step c) anchor_seq) in
          if negb (base_pause c =? 0) && (arrived <? base_due) then None else
          let '(stopped, came_after) :=
            stood_loop (take_while (fun s => step s <? seq) (stops c)) anchor_seq at_ arrived (base_pause c) 0 in
          Some (at_ + (stopped - came_after) + steps_duration after)
      end
  end.

Definition i64_max : Z := 2 ^ 63 - 1.

Definition lateness_us (c : SessionClock) (seq arrived : Z) : option Z :=
  match due_as_it_stood c seq arrived with
  | None => None
  | Some due =>
      Some (if due <=? arrived then Z.min i64_max (as_micros (arrived - due))
            else - Z.min i64_max (as_micros (due - arrived)))
  end.

Definition anchor (c : SessionClock) (newest due : Z) : bool * SessionClock :=
  match anchor_at c with
  | Some _ => (false, c)
  | None =>
      let since := steps_duration (saturating_sub newest ANCHOR_STEP) in
      (true, mkSessionClock (Some (ANCHOR_STEP, due - since))
        (saturating_add u64_max (Z.max newest ANCHOR_STEP) STALL_SLACK_STEPS) (base_step c) (base_pause c) (stops c))
  end.

Definition set_final (c : SessionClock) (n : Z) : SessionClock :=
  mkSessionClock (anchor_at c) n (base_step c) (base_pause c) (stops c).
Definition set_stops (c : SessionClock) (l : list Stop) : SessionClock :=
  mkSessionClock (anchor_at c) (final c) (base_step c) (base_pause c) l.

(** [stand_at_limit]; the last stop grows when it is already at the limit. *)
Definition stand_at_limit (c : SessionClock) (stood : Z) : bool * SessionClock :=
  let limit := final c in
  let at_least := pause_before c limit + stood in
  let past := pause_before c (limit + 1) in
  if at_least <=? past then (false, c) else
  let grown := at_least - past in
  (true, set_stops c
    (match last (stops c) with
     | Some s => if step s =? limit then removelast (stops c) ++ [mkStop (step s) (pause s + grown)]
                 else stops c ++ [mkStop limit grown]
     | None => stops c ++ [mkStop limit grown]
     end)).

Fixpoint fold_loop (base : Z) (base_pause : Z) (l : list Stop) : Z * list Stop :=
  match l with
  | s :: rest => if step s <? base then fold_loop base (base_pause + pause s) rest else (base_pause, l)
  | [] => (base_pause, [])
  end.

Definition fold (c : SessionClock) : SessionClock :=
  let base := saturating_sub (final c) KEPT_STOP_STEPS in
  let '(bp, l) := fold_loop base (base_pause c) (stops c) in
  mkSessionClock (anchor_at c) (final c) (Z.max (base_step c) base) bp l.

Definition note_confirmable (c : SessionClock) (newest_before : option Z) (newest now : Z) : bool * SessionClock :=
  match anchor_at c with
  | None => (false, c)
  | Some _ =>
      let c := match newest_before with
        | Some before => set_final c (Z.max (final c) (saturating_add u64_max before STALL_SLACK_STEPS))
        | None => c
        end in
      let limit := saturating_add u64_max newest STALL_SLACK_STEPS in
      if limit <=? final c then (false, c) else
      let stood := default 0 (match due_at c (final c) with Some due => checked_sub now due | None => None end) in
      let '(stopped, c) := stand_at_limit c stood in
      (stopped, fold (set_final c limit))
  end.

Definition to_frame (c : SessionClock) (now : Z) : option SessionClockFrame :=
  match anchor_at c with
  | None => None
  | Some (astep, at_) =>
      Some (mkSessionClockFrame astep (whole_micros (saturating_sub now at_)) (final c) (base_step c)
        (whole_micros (base_pause c)) (map (fun s => mkClockStop (step s) (whole_micros (pause s))) (stops c)))
  end.

(** [Vec::dedup]. *)
Fixpoint dedup (l : list Z) : list Z :=
  match l with
  | x :: (y :: _) as rest => if x =? y then dedup rest else x :: dedup rest
  | _ => l
  end.

(** The merge loop: each step after which the merged stopped time [after] grows
    past what came [before] gets the difference as its stop. *)
Fixpoint raise_loop (after : Z -> Z) (steps : list Z) (before : Z) : list Stop :=
  match steps with
  | [] => []
  | n :: steps =>
      if before <? after n then mkStop n (after n - before) :: raise_loop after steps (after n)
      else raise_loop after steps before
  end.

Definition merge_steps (c : SessionClock) (theirs : CopiedStops) : list Z :=
  let frontier := final c in
  dedup (merge_sort Z.le
    (filter (fun n => frontier <= n)
      (map step (stops c ++ c_stops theirs) ++ option_list (checked_sub (c_base_step theirs) 1) ++ [frontier]))).

Definition merge (c : SessionClock) (frame : SessionClockFrame) (received_at mesh_rtt_floor_us : Z) : bool * SessionClock :=
  let theirs := from_frame frame in
  match anchor_at c with
  | None =>
      let age := from_micros (since_anchor_us frame) + from_micros (mesh_rtt_floor_us / 2) in
      (true, mkSessionClock (Some (f_anchor_step frame, received_at - age)) (f_final_through frame)
        (c_base_step theirs) (c_base_pause theirs) (c_stops theirs))
  | Some (astep, _) =>
      if negb (f_anchor_step frame =? astep) then (false, c) else
      let frontier := final c in
      let merged :=
        filter (fun s => step s < frontier) (stops c) ++
        raise_loop (fun n => Z.max (pause_before c (n + 1)) (copied_pause_before theirs (n + 1)))
          (merge_steps c theirs) (pause_before c frontier) in
      let changed := negb (bool_decide (merged = stops c)) || (frontier <? f_final_through frame) in
      (changed, fold (set_final (set_stops c merged) (Z.max frontier (f_final_through frame))))
  end.

(** ** Stopped time *)

Lemma total_app l1 l2 : total (l1 ++ l2) = total l1 + total l2.
Proof. induction l1 as [|s l1 IH]; cbn [app total foldr]; [done|]. fold (total (l1 ++ l2)) (total l1). lia. Qed.

Lemma total_cons s l : total (s :: l) = pause s + total l.
Proof. done. Qed.

Definition paused (l : list Stop) : Prop := Forall (fun s => 0 <= pause s) l.

Lemma total_nonneg l : paused l -> 0 <= total l.
Proof. induction 1 as [|s l Hs _ IH]; [done|]. rewrite total_cons. lia. Qed.

(** The stopped time of the stops before a step. *)
Definition before (l : list Stop) (n : Z) : Z := total (filter (fun s => step s < n) l).

Lemma before_cons s l n : before (s :: l) n = (if decide (step s < n) then pause s else 0) + before l n.
Proof. unfold before. rewrite filter_cons. by destruct (decide (step s < n)). Qed.

Lemma before_app l1 l2 n : before (l1 ++ l2) n = before l1 n + before l2 n.
Proof. unfold before. by rewrite filter_app, total_app. Qed.

Lemma before_mono l m n : paused l -> m <= n -> before l m <= before l n.
Proof.
  induction 1 as [|s l Hs _ IH]; intros Hmn; [done|]. rewrite !before_cons. specialize (IH Hmn).
  repeat case_decide; lia.
Qed.

Lemma before_nonneg l n : paused l -> 0 <= before l n.
Proof. induction 1 as [|s l Hs _ IH]; [done|]. rewrite before_cons. case_decide; lia. Qed.

Lemma before_none l n : (forall s, s ∈ l -> n <= step s) -> before l n = 0.
Proof.
  induction l as [|s l IH]; intros H; [done|]. rewrite before_cons, IH by (intros; apply H; by right).
  specialize (H s ltac:(left)). case_decide; lia.
Qed.

Lemma before_all l n : (forall s, s ∈ l -> step s < n) -> before l n = total l.
Proof.
  induction l as [|s l IH]; intros H; [done|]. rewrite before_cons, total_cons, IH by (intros; apply H; by right).
  specialize (H s ltac:(left)). rewrite decide_True by lia. done.
Qed.

Lemma before_flat l m n : m <= n -> (forall s, s ∈ l -> step s < m \/ n <= step s) -> before l m = before l n.
Proof.
  induction l as [|s l IH]; intros Hmn H; [done|]. rewrite !before_cons, IH by (auto; intros; apply H; by right).
  destruct (H s ltac:(left)); repeat case_decide; lia.
Qed.

Lemma before_filter l k n : before (filter (fun s => step s < k) l) n = before l (Z.min k n).
Proof.
  induction l as [|s l IH]; [done|]. rewrite filter_cons. destruct (decide (step s < k)); rewrite !before_cons, ?IH, ?before_cons;
    repeat case_decide; lia.
Qed.

Lemma before_perm l1 l2 n : l1 ≡ₚ l2 -> before l1 n = before l2 n.
Proof.
  induction 1 as [|s l1 l2 _ IH|s1 s2 l|l1 l2 l3 _ IH1 _ IH2]; rewrite ?before_cons; try done; lia.
Qed.

Lemma take_while_before l n : StronglySorted by_step l -> total (take_while (fun s => step s <? n) l) = before l n.
Proof.
  induction 1 as [|s l Hs IH Hall]; [done|]. cbn [take_while]. rewrite before_cons.
  destruct (Z.ltb_spec (step s) n); [rewrite total_cons, IH, decide_True by lia; done|].
  rewrite decide_False by lia. rewrite before_none; [done|]. intros s' Hin.
  pose proof (proj1 (Forall_forall _ _) Hall s' Hin) as Hle. unfold by_step in Hle. lia.
Qed.

Lemma pause_before_eq c n : pause_before c n = base_pause c + before (stops c) n.
Proof. done. Qed.

(** ** What every copy satisfies *)

Record clock_inv (c : SessionClock) : Prop := mkClockInv {
  ci_sorted : StronglySorted by_step (stops c);
  ci_paused : paused (stops c);
  ci_range : forall s, s ∈ stops c -> base_step c <= step s <= final c;
  ci_base : 0 <= base_step c <= final c /\ 0 <= base_pause c
}.

Record frame_ok (f : SessionClockFrame) : Prop := mkFrameOk {
  fo_base : 0 <= f_base_step f <= f_final_through f;
  fo_pause : 0 <= base_pause_us f;
  fo_stops : Forall (fun s => 0 <= pause_us s) (f_stops f)
}.

Definition copy_ok (t : CopiedStops) (last_step : Z) : Prop :=
  StronglySorted by_step (c_stops t) /\ paused (c_stops t) /\ (forall s, s ∈ c_stops t -> c_base_step t <= step s <= last_step) /\
  0 <= c_base_step t <= last_step /\ 0 <= c_base_pause t.

#[local] Instance by_step_trans : Transitive by_step.
Proof. unfold by_step. intros a b c H1 H2. lia. Qed.
#[local] Instance by_step_total : Total by_step.
Proof. intros a b. unfold by_step. lia. Qed.

Lemma from_frame_ok f : frame_ok f -> copy_ok (from_frame f) (f_final_through f).
Proof.
  intros []. unfold from_frame. split_and!; cbn [c_base_step c_base_pause c_stops].
  - apply StronglySorted_merge_sort; apply _.
  - unfold paused. rewrite merge_sort_Permutation. apply Forall_forall. intros s Hs. apply list_elem_of_fmap in Hs as (x & -> & Hx).
    apply list_elem_of_filter in Hx as [_ Hx]. pose proof (proj1 (Forall_forall _ _) fo_stops0 x Hx). cbn in *. unfold from_micros. lia.
  - intros s. rewrite merge_sort_Permutation. intros Hs. apply list_elem_of_fmap in Hs as (x & -> & Hx).
    apply list_elem_of_filter in Hx as [Hx _]. cbn. lia.
  - lia.
  - lia.
  - unfold from_micros. lia.
Qed.

(** What a copy knows: nothing below its base, where it only knows a sum. *)
Definition copy_before (t : CopiedStops) (n : Z) : Z := if n <? c_base_step t then 0 else c_base_pause t + before (c_stops t) n.

Lemma copied_pause_before_eq t k n : copy_ok t k -> copied_pause_before t n = copy_before t n.
Proof. intros (Hs & _). unfold copied_pause_before, copy_before. by rewrite take_while_before. Qed.

Lemma copy_before_mono t k m n : copy_ok t k -> m <= n -> copy_before t m <= copy_before t n.
Proof.
  intros (_ & Hp & _ & _ & Hb) Hmn. unfold copy_before. pose proof (before_mono _ _ _ Hp Hmn).
  assert (0 <= before (c_stops t) n) by (by apply before_nonneg).
  destruct (Z.ltb_spec m (c_base_step t)), (Z.ltb_spec n (c_base_step t)); lia.
Qed.

(** ** Folding old stops into the base *)

Lemma fold_loop_spec base bp l : StronglySorted by_step l ->
  let r := fold_loop base bp l in
  exists k, r.2 = drop k l /\ r.1 = bp + total (take k l) /\ (forall s, s ∈ take k l -> step s < base) /\ (forall s, s ∈ r.2 -> base <= step s).
Proof.
  intros Hs. revert bp. induction Hs as [|s l Hs IH Hall]; intros bp; cbn [fold_loop].
  - exists 0%nat. cbn. split_and!; [done|lia|..]; intros s Hin; by apply not_elem_of_nil in Hin.
  - destruct (Z.ltb_spec (step s) base) as [Hlt|Hge].
    + destruct (IH (bp + pause s)) as (k & E1 & E2 & H1 & H2). exists (S k). cbn [drop take].
      split_and!; [done|rewrite E2, total_cons; lia| |done]. intros s' [->|Hin]%elem_of_cons; [done|auto].
    + exists 0%nat. cbn [drop take total foldr fst snd]. split_and!; [done|lia|intros s' Hin; by apply not_elem_of_nil in Hin|].
      intros s' [->|Hin]%elem_of_cons; [done|]. pose proof (proj1 (Forall_forall _ _) Hall s' Hin) as Hle. unfold by_step in Hle. lia.
Qed.

Lemma fold_spec c : StronglySorted by_step (stops c) -> paused (stops c) ->
  0 <= base_step c <= final c /\ 0 <= base_pause c -> (forall s, s ∈ stops c -> base_step c <= step s <= final c) ->
  clock_inv (fold c) /\ anchor_at (fold c) = anchor_at c /\ final (fold c) = final c /\ base_step c <= base_step (fold c) /\
  (forall n, base_step (fold c) <= n -> pause_before (fold c) n = pause_before c n) /\
  base_step (fold c) = Z.max (base_step c) (saturating_sub (final c) KEPT_STOP_STEPS).
Proof.
  intros Hs Hp [Hb1 Hb2] Hr. unfold fold. set (base := saturating_sub (final c) KEPT_STOP_STEPS).
  destruct (fold_loop_spec base (base_pause c) (stops c) Hs) as (k & E1 & E2 & H1 & H2).
  destruct (fold_loop base (base_pause c) (stops c)) as [bp l]. cbn [fst snd] in *. subst l bp.
  rewrite <- (take_drop k (stops c)) in Hs, Hp, Hr. apply StronglySorted_app in Hs as (_ & _ & Hs). apply Forall_app in Hp as [Hp1 Hp2].
  split_and!; try done; cbn [base_step]; [split; cbn [stops final base_step base_pause]; auto| lia |].
  - intros s Hin. specialize (H2 s Hin). specialize (Hr s ltac:(set_solver)). lia.
  - pose proof (total_nonneg _ Hp1). unfold base, saturating_sub, KEPT_STOP_STEPS, LEAD_SEEN_SEQS, STALL_SLACK_STEPS. lia.
  - intros n Hn. rewrite !pause_before_eq. cbn [base_pause stops]. rewrite <- (take_drop k (stops c)) at 3.
    rewrite before_app, (before_all (take k (stops c))); [lia|]. intros s Hin. specialize (H1 s Hin). lia.
Qed.

(** ** Merging *)

Lemma dedup_elem l n : n ∈ dedup l <-> n ∈ l.
Proof.
  induction l as [|x [|y l] IH]; [done..|]. cbn [dedup] in *. destruct (Z.eqb_spec x y) as [->|N].
  - rewrite IH. set_solver.
  - rewrite elem_of_cons, IH. set_solver.
Qed.

Lemma dedup_sorted l : StronglySorted Z.le l -> StronglySorted Z.le (dedup l).
Proof.
  induction 1 as [|x l Hs IH Hall]; [constructor|]. destruct l as [|y l]; [by repeat constructor|].
  cbn [dedup] in *. destruct (x =? y); [done|]. constructor; [done|]. apply Forall_forall. intros z Hz%(proj1 (dedup_elem (y :: l) z)).
  by apply (proj1 (Forall_forall _ _) Hall).
Qed.

Lemma merge_steps_elem c t n :
  n ∈ merge_steps c t <->
  final c <= n /\ ((exists s, s ∈ stops c ++ c_stops t /\ step s = n) \/ (1 <= c_base_step t /\ n = c_base_step t - 1) \/ n = final c).
Proof.
  unfold merge_steps. rewrite dedup_elem, merge_sort_Permutation, list_elem_of_filter, !elem_of_app, list_elem_of_singleton.
  assert (E1 : n ∈ map step (stops c ++ c_stops t) <-> exists s, s ∈ stops c ++ c_stops t /\ step s = n)
    by (change (map step) with (fmap (M := list) step); rewrite list_elem_of_fmap; naive_solver).
  assert (E2 : n ∈ option_list (checked_sub (c_base_step t) 1) <-> 1 <= c_base_step t /\ n = c_base_step t - 1).
  { unfold checked_sub. destruct (Z.leb_spec 1 (c_base_step t)); cbn; set_solver by lia. }
  rewrite E1, E2. done.
Qed.

Lemma merge_steps_sorted c t : StronglySorted Z.le (merge_steps c t).
Proof. apply dedup_sorted, StronglySorted_merge_sort; apply _. Qed.

Lemma raise_elem A ss b s : s ∈ raise_loop A ss b -> step s ∈ ss /\ 0 < pause s.
Proof.
  revert b. induction ss as [|n ss IH]; intros b; cbn [raise_loop]; [intros H; by apply not_elem_of_nil in H|].
  destruct (Z.ltb_spec b (A n)).
  - intros [->|Hin]%elem_of_cons; [cbn; split; [left|lia]|]. destruct (IH _ Hin). split; [by right|done].
  - intros Hin. destruct (IH _ Hin). split; [by right|done].
Qed.

Lemma raise_sorted A ss b : StronglySorted Z.le ss -> StronglySorted by_step (raise_loop A ss b).
Proof.
  intros Hs. revert b. induction Hs as [|n ss Hs IH Hall]; intros b; cbn [raise_loop]; [constructor|].
  destruct (b <? A n); [|done]. constructor; [done|]. apply Forall_forall. intros s [Hin _]%raise_elem.
  by apply (proj1 (Forall_forall _ _) Hall).
Qed.

Lemma raise_before A ss b x : StronglySorted Z.le ss ->
  b + before (raise_loop A ss b) x = foldl (fun b n => Z.max b (A n)) b (filter (fun n => n < x) ss).
Proof.
  intros Hs. revert b. induction Hs as [|n ss Hs IH Hall]; intros b; cbn [raise_loop]; [unfold before; cbn; lia|].
  rewrite filter_cons. destruct (decide (n < x)) as [Hlt|Hge].
  - cbn [foldl]. destruct (Z.ltb_spec b (A n)).
    + rewrite before_cons. cbn [step pause]. rewrite decide_True by done. rewrite Z.max_r by lia. rewrite <- IH. lia.
    + rewrite Z.max_l by lia. apply IH.
  - assert (Hno : forall s, s ∈ raise_loop A (n :: ss) b -> x <= step s).
    { intros s [Hin _]%raise_elem. apply elem_of_cons in Hin as [->|Hin]; [lia|].
      pose proof (proj1 (Forall_forall _ _) Hall _ Hin). lia. }
    assert (filter (fun n => n < x) ss = []) as ->.
    { apply elem_of_nil_inv. intros y [Hlt Hy]%list_elem_of_filter. pose proof (proj1 (Forall_forall _ _) Hall _ Hy). lia. }
    cbn [foldl raise_loop] in *. rewrite before_none; [lia|]. by destruct (b <? A n).
Qed.

Lemma foldl_max_le (A : Z -> Z) l b v : b <= v -> (forall n, n ∈ l -> A n <= v) -> foldl (fun b n => Z.max b (A n)) b l <= v.
Proof.
  revert b. induction l as [|n l IH]; intros b Hb H; cbn [foldl]; [done|]. apply IH; [|intros; apply H; by right].
  specialize (H n ltac:(left)). lia.
Qed.

Lemma foldl_max_ge (A : Z -> Z) l b n : b <= foldl (fun b n => Z.max b (A n)) b l /\ (n ∈ l -> A n <= foldl (fun b n => Z.max b (A n)) b l).
Proof.
  revert b. induction l as [|m l IH]; intros b; cbn [foldl]; [split; [lia|intros H; by apply not_elem_of_nil in H]|].
  destruct (IH (Z.max b (A m))) as [H1 H2]. split; [lia|]. intros [->|Hin]%elem_of_cons; [lia|auto].
Qed.

(** The last of the steps below [x], given that there is one. *)
Lemma last_below (l : list Z) x n : n ∈ l -> n < x -> exists m, m ∈ l /\ m < x /\ forall k, k ∈ l -> k < x -> k <= m.
Proof.
  revert n. induction l as [|y l IH]; intros n Hin Hlt; [by apply not_elem_of_nil in Hin|].
  destruct (decide (Exists (fun k => k < x) l)) as [Hex|Hno].
  - apply Exists_exists in Hex as (k & Hk & Hkx). destruct (IH k Hk Hkx) as (m & Hm & Hmx & Hmax).
    destruct (decide (y < x /\ m < y)) as [[Hy1 Hy2]|Hy].
    + exists y. split_and!; [left|done|]. intros j [->|Hj]%elem_of_cons Hjx; [done|]. specialize (Hmax j Hj Hjx). lia.
    + exists m. split_and!; [by right|done|]. intros j [->|Hj]%elem_of_cons Hjx; [lia|auto].
  - assert (Hl : forall k, k ∈ l -> k < x -> False) by (intros k Hk Hkx; apply Hno, Exists_exists; eauto).
    apply elem_of_cons in Hin as [->|Hin]; [|destruct (Hl n Hin Hlt)].
    exists y. split_and!; [left|done|]. intros j [->|Hj]%elem_of_cons Hjx; [done|destruct (Hl j Hj Hjx)].
Qed.

(** What this copy and the other know together. *)
Definition most (c : SessionClock) (t : CopiedStops) (n : Z) : Z := Z.max (pause_before c n) (copy_before t n).

Lemma pause_before_mono c m n : clock_inv c -> m <= n -> pause_before c m <= pause_before c n.
Proof. intros [] Hmn. rewrite !pause_before_eq. pose proof (before_mono _ _ _ ci_paused0 Hmn). lia. Qed.

Lemma raised_most c t k n : clock_inv c -> copy_ok t k -> final c < n ->
  pause_before c (final c) + before (raise_loop (fun n => most c t (n + 1)) (merge_steps c t) (pause_before c (final c))) n = most c t n.
Proof.
  intros Hc Ht Hn. rewrite raise_before by apply merge_steps_sorted.
  assert (Hmono : forall x y, x <= y -> most c t x <= most c t y).
  { intros x y Hxy. unfold most. pose proof (pause_before_mono c x y Hc Hxy). pose proof (copy_before_mono t k x y Ht Hxy). lia. }
  apply Z.le_antisymm.
  - apply foldl_max_le.
    + unfold most. pose proof (pause_before_mono c (final c) n Hc). lia.
    + intros x [Hx _]%list_elem_of_filter. apply Hmono. lia.
  - destruct (last_below (merge_steps c t) n (final c)) as (m & Hm & Hmn & Hmax);
      [apply merge_steps_elem; split; [lia|by right; right]|done|].
    assert (Hfm : final c <= m) by (apply merge_steps_elem in Hm; tauto).
    assert (Hflat : forall s, s ∈ stops c ++ c_stops t -> step s < m + 1 \/ n <= step s).
    { intros s Hs. destruct (decide (n <= step s)); [by right|]. destruct (decide (step s < final c)); [lia|].
      left. enough (step s <= m) by lia. apply Hmax; [|lia]. apply merge_steps_elem. split; [lia|]. left. by exists s. }
    assert (most c t n = most c t (m + 1)) as ->.
    { unfold most. rewrite !pause_before_eq. f_equal; [f_equal; symmetry; apply before_flat; [lia|intros s Hs; apply Hflat, elem_of_app; by left]|].
      unfold copy_before. rewrite <- (before_flat (c_stops t) (m + 1) n) by (try lia; intros s Hs; apply Hflat, elem_of_app; by right).
      destruct (Z.ltb_spec n (c_base_step t)), (Z.ltb_spec (m + 1) (c_base_step t)); try lia.
      destruct (ci_base _ Hc). enough (c_base_step t - 1 <= m) by lia. apply Hmax; [|lia]. apply merge_steps_elem. split; [lia|]. right. left. lia. }
    apply (foldl_max_ge (fun n => most c t (n + 1))). apply list_elem_of_filter. done.
Qed.

Lemma raise_loop_ext A B ss b : (forall n, A n = B n) -> raise_loop A ss b = raise_loop B ss b.
Proof. intros H. revert b. induction ss as [|n ss IH]; intros b; cbn [raise_loop]; [done|]. by rewrite !H, !IH. Qed.

(** A merge keeps every final deadline and takes the most stopped time past the limit. *)
Lemma merge_spec c f received rtt : clock_inv c -> frame_ok f -> anchor_step c = Some (f_anchor_step f) ->
  let c' := (merge c f received rtt).2 in
  clock_inv c' /\ anchor_at c' = anchor_at c /\ final c' = Z.max (final c) (f_final_through f) /\ base_step c <= base_step c' /\
  forall n, base_step c' <= n ->
    pause_before c' n = if n <=? final c then pause_before c n else most c (from_frame f) n.
Proof.
  intros Hc Hf Ha. pose proof (from_frame_ok f Hf) as Ht. set (t := from_frame f) in *.
  unfold merge. fold t. unfold anchor_step in Ha. destruct (anchor_at c) as [[astep at_]|] eqn:Ea; [|done]. injection Ha as ->.
  rewrite Z.eqb_refl. cbn [negb snd].
  rewrite (raise_loop_ext _ (fun n => most c t (n + 1))) by (intros n; unfold most; by rewrite (copied_pause_before_eq t _ _ Ht)).
  set (ss := merge_steps c t). set (raised := raise_loop _ ss _). set (kept := filter _ (stops c)).
  set (c1 := set_final _ _).
  assert (Hkept : forall s, s ∈ kept -> s ∈ stops c /\ step s < final c) by (intros s Hs; apply list_elem_of_filter in Hs; tauto).
  assert (Hraised : forall s, s ∈ raised -> final c <= step s <= final c1 /\ 0 < pause s).
  { intros s [Hs Hp]%raise_elem. split; [|done]. apply merge_steps_elem in Hs as [Hle Hs]. split; [done|]. cbn [c1 set_final final].
    destruct Hs as [(x & [Hx|Hx]%elem_of_app & <-)|[[? ->]| ->]]; [apply (ci_range _ Hc) in Hx; lia| |destruct Ht as (_ & _ & _ & ? & _); lia|lia].
    destruct Ht as (_ & _ & Hr & _). apply Hr in Hx. lia. }
  destruct (fold_spec c1) as (H1 & H2 & H3 & H4 & H5 & _).
  - cbn [c1 set_final set_stops stops]. apply StronglySorted_app. split_and!.
    + intros a b [_ Ha]%Hkept [Hb _]%Hraised. unfold by_step. lia.
    + apply StronglySorted_filter, Hc.
    + apply raise_sorted, merge_steps_sorted.
  - cbn [c1 set_final set_stops stops]. apply Forall_app. split; apply Forall_forall.
    + intros s [Hs _]%Hkept. by apply (proj1 (Forall_forall _ _) (ci_paused _ Hc)).
    + intros s [_ Hs]%Hraised. lia.
  - destruct (ci_base _ Hc). cbn [c1 set_final set_stops base_step base_pause final]. lia.
  - cbn [c1 set_final set_stops stops base_step final]. intros s [[Hs ?]%Hkept|[Hs _]%Hraised]%elem_of_app.
    + apply (ci_range _ Hc) in Hs. lia.
    + destruct (ci_base _ Hc). cbn [c1 set_final final] in Hs. lia.
  - split_and!; [done|by rewrite H2|by rewrite H3|done|]. intros n Hn. rewrite H5 by done.
    rewrite pause_before_eq. cbn [c1 set_final set_stops base_pause stops]. rewrite before_app. unfold kept. rewrite before_filter.
    destruct (Z.leb_spec n (final c)) as [Hle|Hgt].
    + rewrite Z.min_r by lia. rewrite (before_none raised) by (intros s [? _]%Hraised; lia). rewrite pause_before_eq. lia.
    + rewrite Z.min_l by lia. rewrite <- (raised_most c t _ n Hc Ht Hgt). rewrite (pause_before_eq c (final c)) at 1. fold ss raised. lia.
Qed.

(** ** Standing at the limit *)

Lemma past_limit c n : clock_inv c -> final c < n -> pause_before c n = pause_before c (final c + 1).
Proof.
  intros Hc Hn. rewrite !pause_before_eq. f_equal. symmetry. apply before_flat; [lia|]. intros s Hs%(ci_range _ Hc). lia.
Qed.

(** A stop at the limit, new or grown, adds to the steps past it only. *)
Lemma stand_grows c g n : clock_inv c -> 0 <= g ->
  let l := match last (stops c) with
     | Some s => if step s =? final c then removelast (stops c) ++ [mkStop (step s) (pause s + g)] else stops c ++ [mkStop (final c) g]
     | None => stops c ++ [mkStop (final c) g]
     end in
  clock_inv (set_stops c l) /\ before l n = before (stops c) n + (if n <=? final c then 0 else g).
Proof.
  intros [Hs Hp Hr Hb] Hg l.
  assert (Happ : clock_inv (set_stops c (stops c ++ [mkStop (final c) g])) /\
    before (stops c ++ [mkStop (final c) g]) n = before (stops c) n + (if n <=? final c then 0 else g)).
  { split; [split; cbn [set_stops stops base_step final base_pause]; [| |intros s; rewrite elem_of_app, list_elem_of_singleton; intros [?| ->]; [auto|cbn; lia]|done]|].
    - apply StronglySorted_app. split_and!; [|done|by repeat constructor]. intros a b Ha%Hr ->%list_elem_of_singleton. unfold by_step. cbn. lia.
    - apply Forall_app. split; [done|]. by repeat constructor.
    - rewrite before_app, before_cons. cbn [step pause]. destruct (Z.leb_spec n (final c)); case_decide; unfold before; cbn; lia. }
  unfold l. destruct (last (stops c)) as [s|] eqn:El; [|done]. destruct (Z.eqb_spec (step s) (final c)) as [Es|]; [|done].
  apply last_Some in El as [l0 El]. rewrite El in *. rewrite removelast_last.
  apply StronglySorted_app in Hs as (H1 & H2 & _). apply Forall_app in Hp as [Hp1 Hp2]. inversion_clear Hp2 as [|? ? Hps _].
  split; [split; cbn [set_stops stops base_step final base_pause]; [| |intros x; rewrite elem_of_app, list_elem_of_singleton; intros [Hx| ->]; [apply Hr; set_solver|apply (Hr s); set_solver]|done]|].
  - apply StronglySorted_app. split_and!; [|done|by repeat constructor]. intros a b Ha ->%list_elem_of_singleton. apply (H1 a s); set_solver.
  - apply Forall_app. split; [done|]. repeat constructor. cbn. lia.
  - rewrite !before_app, !before_cons. cbn [step pause]. destruct (Z.leb_spec n (final c)); repeat case_decide; unfold before; cbn; lia.
Qed.

Lemma stand_spec c stood n : clock_inv c ->
  let c' := (stand_at_limit c stood).2 in
  clock_inv c' /\ anchor_at c' = anchor_at c /\ final c' = final c /\ base_step c' = base_step c /\ base_pause c' = base_pause c /\
  pause_before c' n = if n <=? final c then pause_before c n else Z.max (pause_before c n) (pause_before c (final c) + stood).
Proof.
  intros Hc. unfold stand_at_limit.
  destruct (Z.leb_spec (pause_before c (final c) + stood) (pause_before c (final c + 1))) as [Hle|Hgt]; cbn [snd].
  - split_and!; [done..|]. destruct (Z.leb_spec n (final c)); [done|]. rewrite (past_limit c n Hc) by done. lia.
  - destruct (stand_grows c (pause_before c (final c) + stood - pause_before c (final c + 1)) n Hc ltac:(lia)) as [H1 H2].
    split_and!; [done..|]. rewrite pause_before_eq. cbn [set_stops base_pause stops]. rewrite H2.
    destruct (Z.leb_spec n (final c)); [rewrite (pause_before_eq c n); lia|].
    pose proof (past_limit c n Hc ltac:(done)) as Hpl. rewrite Hpl. rewrite (pause_before_eq c n) in Hpl. lia.
Qed.

(** ** Moving the limit on *)

(** The clock with the limit first brought up to the slack past [newest_before]. *)
Definition caught_up (c : SessionClock) (newest_before : option Z) : SessionClock :=
  match newest_before with
  | Some b => set_final c (Z.max (final c) (saturating_add u64_max b STALL_SLACK_STEPS))
  | None => c
  end.

(** How long it has stood at that limit. *)
Definition stood_for (c : SessionClock) (now : Z) : Z :=
  default 0 (match due_at c (final c) with Some due => checked_sub now due | None => None end).

Lemma stood_for_nonneg c now : 0 <= stood_for c now.
Proof. unfold stood_for, checked_sub. destruct (due_at c (final c)) as [due|]; [|done]. destruct (Z.leb_spec due now); cbn; lia. Qed.

Lemma set_final_inv c n : clock_inv c -> final c <= n -> clock_inv (set_final c n).
Proof.
  intros [] Hn. split; cbn [set_final stops base_step final base_pause]; [done..| |lia]. intros s Hs%ci_range0. lia.
Qed.

Lemma caught_up_spec c nb : clock_inv c ->
  clock_inv (caught_up c nb) /\ anchor_at (caught_up c nb) = anchor_at c /\ final c <= final (caught_up c nb) /\
  base_step (caught_up c nb) = base_step c /\ (forall n, pause_before (caught_up c nb) n = pause_before c n).
Proof.
  intros Hc. destruct nb as [b|]; cbn [caught_up]; [|done]. split_and!; try done; [|cbn; lia]. apply set_final_inv; [done|lia].
Qed.

Lemma note_spec c nb newest now : clock_inv c -> is_anchored c = true ->
  let c' := (note_confirmable c nb newest now).2 in
  let l := final (caught_up c nb) in
  clock_inv c' /\ anchor_at c' = anchor_at c /\ final c' = Z.max l (saturating_add u64_max newest STALL_SLACK_STEPS) /\
  base_step c <= base_step c' /\
  forall n, base_step c' <= n -> pause_before c' n =
    if (n <=? l) || (final c' <=? l) then pause_before c n
    else Z.max (pause_before c n) (pause_before c l + stood_for (caught_up c nb) now).
Proof.
  intros Hc Ha. destruct (caught_up_spec c nb Hc) as (Hc1 & Ha1 & Hf1 & Hb1 & Hp1). unfold note_confirmable.
  unfold is_anchored in Ha. destruct (anchor_at c) as [[a at_]|] eqn:Ea; [|done]. fold (caught_up c nb). set (c1 := caught_up c nb) in *.
  set (limit := saturating_add u64_max newest STALL_SLACK_STEPS). destruct (Z.leb_spec limit (final c1)) as [Hle|Hgt]; cbn [snd].
  - split_and!; [done..|lia|lia|]. intros n Hn. rewrite Z.leb_refl, orb_true_r. apply Hp1.
  - fold (stood_for c1 now). pose proof (fun n => stand_spec c1 (stood_for c1 now) n Hc1) as Hst.
    destruct (stand_at_limit c1 (stood_for c1 now)) as [stopped c2]. cbn [snd] in *.
    destruct (Hst 0) as (Hc2 & Ha2 & Hf2 & Hb2 & Hbp2 & _).
    assert (Hc3 : clock_inv (set_final c2 limit)) by (apply set_final_inv; [done|lia]).
    destruct (fold_spec (set_final c2 limit) (ci_sorted _ Hc3) (ci_paused _ Hc3) (ci_base _ Hc3) (ci_range _ Hc3)) as (H1 & H2 & H3 & H4 & H5 & _).
    cbn [set_final anchor_at final base_step] in *.
    split_and!; [done|congruence|rewrite H3; lia|lia|]. intros n Hn. rewrite H5 by done. rewrite H3.
    rewrite (proj2 (Z.leb_gt limit (final c1))) by lia. rewrite orb_false_r.
    destruct (Hst n) as (_ & _ & _ & _ & _ & Hn2). change (pause_before (set_final c2 limit) n) with (pause_before c2 n). rewrite Hn2, !Hp1. done.
Qed.

(** ** Histories of one copy *)

Inductive clock_op : Type :=
| Anchor (newest due : Z)
| Note (newest_before : option Z) (newest now : Z)
| Merge (f : SessionClockFrame) (received rtt : Z).

Definition clock_step (c : SessionClock) (op : clock_op) : SessionClock :=
  match op with
  | Anchor newest due => (anchor c newest due).2
  | Note nb newest now => (note_confirmable c nb newest now).2
  | Merge f received rtt => (merge c f received rtt).2
  end.

Definition clock_run (ops : list clock_op) (c : SessionClock) : SessionClock := foldl clock_step c ops.

Definition clock_op_ok (op : clock_op) : Prop :=
  match op with
  | Anchor newest _ => 0 <= newest
  | Note _ _ _ => True
  | Merge f _ _ => frame_ok f
  end.

(** What an operation may do to a copy that is already anchored. *)
Record advances (c c' : SessionClock) : Prop := mkAdvances {
  adv_anchor : anchor_at c' = anchor_at c;
  adv_final : final c <= final c';
  adv_base : base_step c <= base_step c';
  adv_pause : forall n, base_step c' <= n -> n <= final c -> pause_before c' n = pause_before c n
}.

Lemma advances_refl c : advances c c.
Proof. by split. Qed.

Lemma advances_trans c1 c2 c3 : advances c1 c2 -> advances c2 c3 -> advances c1 c3.
Proof.
  intros [] []. split; [congruence|lia|lia|]. intros n H1 H2. rewrite adv_pause1 by lia. apply adv_pause0; lia.
Qed.

(** Only an anchored copy holds anything. *)
Definition clock_wf (c : SessionClock) : Prop := clock_inv c /\ (anchor_at c = None -> c = default_clock).

Lemma default_clock_wf : clock_wf default_clock.
Proof. split; [|done]. split; cbn; [constructor|constructor|intros s H; by apply not_elem_of_nil in H|lia]. Qed.

Lemma anchored_wf c : clock_inv c -> anchor_at c <> None -> clock_wf c.
Proof. by split. Qed.

Lemma clock_step_spec c op : clock_wf c -> clock_op_ok op ->
  clock_wf (clock_step c op) /\ (is_anchored c = true -> advances c (clock_step c op)).
Proof.
  intros [Hc Hfresh] Hop. unfold is_anchored. destruct op as [newest due|nb newest now|f received rtt]; cbn [clock_step clock_op_ok] in *.
  - unfold anchor. destruct (anchor_at c) as [p|] eqn:Ea; [cbn [snd]; split; [split; [done|congruence]|intros _; apply advances_refl]|].
    rewrite Hfresh by done. split; [|done]. apply anchored_wf; [|done].
    split; cbn [snd default_clock stops base_step final base_pause]; [constructor|constructor|intros s H; by apply not_elem_of_nil in H|].
    unfold saturating_add, ANCHOR_STEP, LOCKSTEP_START_STEPS, STALL_SLACK_STEPS, u64_max. lia.
  - destruct (anchor_at c) as [p|] eqn:Ea; [|unfold note_confirmable; rewrite Ea; cbn [snd]; split; [split; [done|auto]|done]].
    destruct (note_spec c nb newest now Hc) as (H1 & H2 & H3 & H4 & H5); [unfold is_anchored; by rewrite Ea|].
    destruct (caught_up_spec c nb Hc) as (_ & _ & H6 & _). split; [apply anchored_wf; [done|congruence]|]. intros _. split; [done|lia|done|].
    intros n Hn Hle. rewrite H5 by done. by rewrite (proj2 (Z.leb_le n _)) by lia.
  - destruct (anchor_at c) as [[a at_]|] eqn:Ea.
    + destruct (decide (f_anchor_step f = a)) as [E|N].
      * destruct (merge_spec c f received rtt Hc Hop) as (H1 & H2 & H3 & H4 & H5); [unfold anchor_step; rewrite Ea; cbn; congruence|].
        split; [apply anchored_wf; [done|congruence]|]. intros _. split; [done|lia|done|].
        intros n Hn Hle. rewrite H5 by done. by rewrite (proj2 (Z.leb_le n _)).
      * unfold merge. rewrite Ea. rewrite (proj2 (Z.eqb_neq _ _) N). cbn. split; [split; [done|congruence]|]. intros _. apply advances_refl.
    + split; [|done]. unfold merge. rewrite Ea. cbn [snd]. destruct (from_frame_ok f Hop) as (H1 & H2 & H3 & H4 & H5).
      apply anchored_wf; [|done]. split; cbn [stops base_step final base_pause]; auto.
Qed.

Lemma clock_run_wf ops c : clock_wf c -> Forall clock_op_ok ops -> clock_wf (clock_run ops c).
Proof.
  intros Hc Hops. revert c Hc. induction Hops as [|op ops Ho _ IH]; intros c Hc; [done|]. apply IH. by apply clock_step_spec.
Qed.

Lemma advances_anchored c c' : advances c c' -> is_anchored c = true -> is_anchored c' = true.
Proof. intros [H _ _ _]. unfold is_anchored. by rewrite H. Qed.

Lemma clock_run_advances ops c : clock_wf c -> Forall clock_op_ok ops -> is_anchored c = true -> advances c (clock_run ops c).
Proof.
  intros Hc Hops. revert c Hc. induction Hops as [|op ops Ho _ IH]; intros c Hc Ha; [apply advances_refl|].
  destruct (clock_step_spec c op Hc Ho) as [Hw Hadv]. specialize (Hadv Ha). eapply advances_trans; [exact Hadv|].
  apply IH; [done|]. by eapply advances_anchored.
Qed.

Lemma due_at_anchored c n d : due_at c n = Some d -> is_anchored c = true.
Proof. unfold due_at, is_anchored. by destruct (anchor_at c). Qed.

Lemma advances_due c c' n d : advances c c' -> due_at c n = Some d ->
  due_at c' n = Some d \/ n < base_step c' /\ due_at c' n = None.
Proof.
  intros [Ha Hf Hb Hp]. unfold due_at. rewrite Ha. destruct (anchor_at c) as [[a at_]|]; [|done].
  destruct (checked_sub n a) as [k|]; [|done].
  destruct (Z.ltb_spec (final c) n); [done|]. destruct (Z.ltb_spec n (base_step c)); [done|]. cbn [orb]. intros [= <-].
  rewrite (proj2 (Z.ltb_ge (final c') n)) by lia. destruct (Z.ltb_spec n (base_step c')); [right; done|left].
  cbn [orb]. rewrite Hp by lia. done.
Qed.

(** ** Merging in any order *)

Lemma foldl_max_from {A} (g : A -> Z) l b : b <= foldl (fun b x => Z.max b (g x)) b l.
Proof. revert b. induction l as [|x l IH]; intros b; cbn [foldl]; [lia|]. specialize (IH (Z.max b (g x))). lia. Qed.

(** A maximum depends only on which values there are. *)
Lemma foldl_max_same {A} (g : A -> Z) l1 l2 b : (forall x, x ∈ l1 -> x ∈ l2) ->
  foldl (fun b x => Z.max b (g x)) b l1 <= foldl (fun b x => Z.max b (g x)) b l2.
Proof.
  intros H.
  assert (Hge : forall x l b, x ∈ l -> g x <= foldl (fun b x => Z.max b (g x)) b l).
  { intros x l b'. revert b'. induction l as [|y l IH]; intros b'; [intros Hx; by apply not_elem_of_nil in Hx|].
    intros [->|Hx]%elem_of_cons; cbn [foldl]; [|by apply IH].
    pose proof (foldl_max_from g l (Z.max b' (g y))). lia. }
  assert (Hub : forall l b' v, b' <= v -> (forall x, x ∈ l -> g x <= v) -> foldl (fun b x => Z.max b (g x)) b' l <= v).
  { induction l as [|y l IH]; intros b' v Hb Hl; cbn [foldl]; [done|]. apply IH; [|intros; apply Hl; by right].
    specialize (Hl y ltac:(left)). lia. }
  apply Hub; [apply foldl_max_from|]. intros x Hx. apply Hge. auto.
Qed.

Definition merge_all (c : SessionClock) (l : list (SessionClockFrame * Z * Z)) : SessionClock :=
  foldl (fun c x => (merge c x.1.1 x.1.2 x.2).2) c l.

Lemma merge_all_spec c l : clock_inv c -> is_anchored c = true ->
  Forall (fun x => frame_ok x.1.1 /\ anchor_step c = Some (f_anchor_step x.1.1)) l ->
  let c' := merge_all c l in
  clock_inv c' /\ anchor_at c' = anchor_at c /\ final c' = foldl (fun b x => Z.max b (f_final_through x.1.1)) (final c) l /\
  forall n, final c' < n -> pause_before c' n = foldl (fun b x => Z.max b (copy_before (from_frame x.1.1) n)) (pause_before c n) l.
Proof.
  intros Hc Ha Hl. revert c Hc Ha Hl. induction l as [|[[f r] t] l IH]; intros c Hc Ha Hl; [done|].
  inversion_clear Hl as [|? ? [Hf Hs] Hl']. cbn [fst snd] in *. cbn [merge_all foldl fst snd].
  destruct (merge_spec c f r t Hc Hf Hs) as (H1 & H2 & H3 & H4 & H5). set (c1 := (merge c f r t).2) in *.
  destruct (IH c1) as (I1 & I2 & I3 & I4); [done|by unfold is_anchored; rewrite H2|by unfold anchor_step in *; rewrite H2|].
  unfold merge_all in *. split_and!; [done|congruence|by rewrite I3, H3|]. intros n Hn. rewrite I4 by done.
  assert (Hge : final c1 <= final (foldl (fun c x => (merge c x.1.1 x.1.2 x.2).2) c1 l)).
  { rewrite I3. apply foldl_max_from. }
  rewrite H5; [|destruct (ci_base _ H1); lia]. rewrite (proj2 (Z.leb_gt n (final c))) by lia. done.
Qed.

(** ** A turn's deadline as it stood *)

Section stood.
Context (anchor_seq at_ arrived : Z).
Let reached (n : Z) : Z := steps_duration (saturating_sub n anchor_seq).

Lemma reached_mono m n : m <= n -> reached m <= reached n.
Proof. intros H. unfold reached, steps_duration, from_micros, saturating_sub, STEP_DURATION_US. lia. Qed.

Lemma stood_loop_total l stopped ca : (stood_loop l anchor_seq at_ arrived stopped ca).1 = stopped + total l.
Proof.
  revert stopped ca. induction l as [|s l IH]; intros stopped ca; cbn [stood_loop]; [cbn; lia|].
  rewrite IH, total_cons. lia.
Qed.

Lemma stood_loop_shift l stopped ca :
  (stood_loop l anchor_seq at_ arrived stopped ca).2 = ca + (stood_loop l anchor_seq at_ arrived stopped 0).2.
Proof.
  revert stopped ca. induction l as [|s l IH]; intros stopped ca; cbn [stood_loop]; [cbn; lia|].
  rewrite IH. rewrite (IH _ (0 + _)). lia.
Qed.

(** Every stop came after an arrival that the clock had not reached. *)
Lemma stood_all_after l stopped : StronglySorted by_step l -> paused l ->
  (forall s, s ∈ l -> arrived <= at_ + stopped + reached (step s)) ->
  (stood_loop l anchor_seq at_ arrived stopped 0).2 = total l.
Proof.
  intros Hs. revert stopped. induction Hs as [|s l Hs IH Hall]; intros stopped Hp Hb; [done|].
  inversion_clear Hp as [|? ? Hps Hp']. cbn [stood_loop]. rewrite stood_loop_shift, total_cons.
  pose proof (Hb s ltac:(left)) as H1. unfold reached in H1. rewrite IH; [unfold saturating_sub at 1; lia|done|].
  intros s' Hin. specialize (Hb s' ltac:(by right)). lia.
Qed.

Lemma stood_early l stopped seq : StronglySorted by_step l -> paused l -> (forall s, s ∈ l -> step s <= seq) ->
  arrived <= at_ + (stopped + total l) + reached seq ->
  arrived <= at_ + (stopped + total l - (stood_loop l anchor_seq at_ arrived stopped 0).2) + reached seq.
Proof.
  intros Hs. revert stopped. induction Hs as [|s l Hs IH Hall]; intros stopped Hp Hseq Hle; [cbn in *; lia|].
  inversion_clear Hp as [|? ? Hps Hp']. rewrite total_cons in *. cbn [stood_loop]. rewrite stood_loop_shift.
  pose proof (reached_mono (step s) seq ltac:(apply Hseq; left)) as Hm. unfold reached in Hm at 1.
  set (sf := at_ + stopped + steps_duration (saturating_sub (step s) anchor_seq)) in *.
  destruct (Z.le_gt_cases (sf + pause s) arrived) as [Hpast|Hin].
  - specialize (IH (stopped + pause s) Hp' ltac:(intros; apply Hseq; by right) ltac:(lia)). unfold saturating_sub at 1. lia.
  - rewrite (stood_all_after l (stopped + pause s)); [unfold saturating_sub at 1; lia|done..|].
    intros s' Hs'. pose proof (proj1 (Forall_forall _ _) Hall s' Hs') as Hle'. unfold by_step in Hle'.
    pose proof (reached_mono _ _ Hle') as Hm'. unfold reached in *. lia.
Qed.

Lemma stood_late l stopped seq : paused l -> (forall s, s ∈ l -> step s <= seq) ->
  at_ + (stopped + total l) + reached seq <= arrived -> (stood_loop l anchor_seq at_ arrived stopped 0).2 = 0.
Proof.
  revert stopped. induction l as [|s l IH]; intros stopped Hp Hseq Hle; [done|].
  inversion_clear Hp as [|? ? Hps Hp']. rewrite total_cons in Hle. cbn [stood_loop]. rewrite stood_loop_shift.
  pose proof (reached_mono (step s) seq ltac:(apply Hseq; left)) as Hm. unfold reached in Hm at 1. pose proof (total_nonneg _ Hp').
  rewrite IH; [unfold saturating_sub at 1; lia|done|intros; apply Hseq; by right|lia].
Qed.

Lemma stood_nonneg l stopped : paused l -> 0 <= (stood_loop l anchor_seq at_ arrived stopped 0).2.
Proof.
  revert stopped. induction l as [|s l IH]; intros stopped Hp; [done|]. inversion_clear Hp. cbn [stood_loop]. rewrite stood_loop_shift.
  specialize (IH (stopped + pause s) ltac:(done)). unfold saturating_sub at 1. lia.
Qed.

End stood.

Lemma take_while_elem {A} (g : A -> bool) l x : x ∈ take_while g l -> x ∈ l /\ g x = true.
Proof.
  induction l as [|y l IH]; cbn [take_while]; [intros H; by apply not_elem_of_nil in H|].
  destruct (g y) eqn:E; [|intros H; by apply not_elem_of_nil in H]. intros [->|H]%elem_of_cons; [split; [left|done]|].
  destruct (IH H). split; [by right|done].
Qed.

Lemma take_while_sorted {A} (R : relation A) (g : A -> bool) l : StronglySorted R l -> StronglySorted R (take_while g l).
Proof.
  induction 1 as [|x l Hs IH Hall]; cbn [take_while]; [constructor|]. destruct (g x); [|constructor]. constructor; [done|].
  apply Forall_forall. intros y [Hy _]%take_while_elem. by apply (proj1 (Forall_forall _ _) Hall).
Qed.

(** ** Properties *)

(** A final deadline never moves.  Through any history of anchoring, moving
    the limit on and merging other relays' copies, a deadline a relay has once
    handed out stays as it is; at most it grows too old to be kept. *)
Theorem final_deadline_never_moves (ops1 ops2 : list clock_op) (seq d : Z)
  (Hops : Forall clock_op_ok (ops1 ++ ops2))
  (Hd : due_at (clock_run ops1 default_clock) seq = Some d) :
  let c := clock_run (ops1 ++ ops2) default_clock in
  due_at c seq = Some d \/ seq < base_step c /\ due_at c seq = None.
Proof.
  apply Forall_app in Hops as [H1 H2]. cbv zeta. unfold clock_run in *. rewrite foldl_app. fold (clock_run ops1 default_clock) in *.
  eapply advances_due; [|exact Hd]. apply clock_run_advances; [by apply clock_run_wf, H1; apply default_clock_wf|done|].
  by eapply due_at_anchored.
Qed.

(** Merging is order-free and repeatable: two relays that start from the same
    copy and hear the same frames, in any order and however often, end with the
    same limit and the same stopped time before every step past it, and that is
    the most any of the copies knew. *)
Theorem clock_merge_order_free (c : SessionClock) (l1 l2 : list (SessionClockFrame * Z * Z))
  (Hc : clock_inv c) (Ha : is_anchored c = true)
  (H1 : Forall (fun x => frame_ok x.1.1 /\ anchor_step c = Some (f_anchor_step x.1.1)) l1)
  (H2 : Forall (fun x => frame_ok x.1.1 /\ anchor_step c = Some (f_anchor_step x.1.1)) l2)
  (Hsame : forall x, x ∈ l1 <-> x ∈ l2) :
  final (merge_all c l1) = final (merge_all c l2) /\
  forall n, final (merge_all c l1) < n ->
    pause_before (merge_all c l1) n = pause_before (merge_all c l2) n /\
    pause_before c n <= pause_before (merge_all c l1) n /\
    forall x, x ∈ l1 -> copied_pause_before (from_frame x.1.1) n <= pause_before (merge_all c l1) n.
Proof.
  destruct (merge_all_spec c l1 Hc Ha H1) as (_ & _ & Hf1 & Hp1). destruct (merge_all_spec c l2 Hc Ha H2) as (_ & _ & Hf2 & Hp2).
  assert (Hf : final (merge_all c l1) = final (merge_all c l2)).
  { rewrite Hf1, Hf2. apply Z.le_antisymm; apply (foldl_max_same (fun x => f_final_through x.1.1)); intros; by apply Hsame. }
  split; [done|]. intros n Hn. rewrite Hp1 by done. split_and!.
  - rewrite Hp2 by lia. apply Z.le_antisymm; apply (foldl_max_same (fun x => copy_before (from_frame x.1.1) n)); intros; by apply Hsame.
  - apply (foldl_max_from (fun x => copy_before (from_frame x.1.1) n)).
  - intros x Hx. pose proof (proj1 (Forall_forall _ _) H1 x Hx) as [Hfo _].
    rewrite (copied_pause_before_eq _ _ _ (from_frame_ok _ Hfo)).
    pose proof (foldl_max_same (fun x => copy_before (from_frame x.1.1) n) [x] l1 (pause_before c n)) as Hle.
    cbn [foldl] in Hle. specialize (Hle ltac:(intros y ->%list_elem_of_singleton; done)). lia.
Qed.

(** Nobody is asked to make up a wait.  When the authority confirms a new
    step after the clock had reached its limit's deadline, each step past that
    limit is due its number of steps after now, unless another relay's copy
    already knew of a longer stop there; and every earlier deadline stands. *)
Theorem clock_resumes_now (c : SessionClock) (newest_before : option Z) (newest now due seq d : Z)
  (Hc : clock_inv c)
  (Hdue : due_at (caught_up c newest_before) (final (caught_up c newest_before)) = Some due) (Hnow : due <= now)
  (Hd : due_at (note_confirmable c newest_before newest now).2 seq = Some d)
  (Hseq : final (caught_up c newest_before) < seq) 
  (Hwidth : forall a, anchor_step c = Some a -> STEP_DURATION_US * (seq - a) <= u64_max) :
  let limit := final (caught_up c newest_before) in
  let resumed := now + from_micros (STEP_DURATION_US * (seq - limit)) in
  resumed <= d /\ (pause_before c seq <= pause_before c limit + (now - due) -> d = resumed).
Proof.
  destruct (caught_up_spec c newest_before Hc) as (Hc1 & Ha1 & Hf1 & Hb1 & Hp1).
  assert (Han : is_anchored c = true) by (unfold is_anchored; rewrite <- Ha1; by eapply due_at_anchored).
  destruct (note_spec c newest_before newest now Hc Han) as (H1 & H2 & H3 & H4 & H5). cbv zeta in *.
  set (c1 := caught_up c newest_before) in *. set (c' := (note_confirmable c newest_before newest now).2) in *.
  assert (Hst : stood_for c1 now = now - due).
  { unfold stood_for. rewrite Hdue. unfold checked_sub. by rewrite (proj2 (Z.leb_le due now) Hnow). }
  unfold due_at in Hd, Hdue. unfold anchor_step in Hwidth. rewrite H2 in Hd. rewrite Ha1 in Hdue.
  destruct (anchor_at c) as [[a at_]|]; [|done]. specialize (Hwidth a eq_refl).
  unfold checked_sub in Hd, Hdue. destruct (Z.leb_spec a seq); [|done]. destruct (Z.leb_spec a (final c1)) as [Hal|]; [|done].
  destruct (Z.ltb_spec (final c') seq); [done|]. destruct (Z.ltb_spec seq (base_step c')); [done|]. cbn [orb] in Hd.
  destruct ((final c1 <? final c1) || (final c1 <? base_step c1)); [done|].
  rewrite H5 in Hd by lia. rewrite (proj2 (Z.leb_gt seq (final c1))), (proj2 (Z.leb_gt (final c') (final c1))) in Hd by lia.
  cbn [orb] in Hd. rewrite Hst in Hd. rewrite Hp1 in Hdue. injection Hd as <-. injection Hdue as <-.
  unfold steps_duration, from_micros, STEP_DURATION_US in *. destruct (ci_base _ Hc1). lia.
Qed.

(** A stop of the clock never turns an early turn into a late one or a late
    one into an early one: a turn that arrived at or after its deadline is read
    against that deadline in full, and one that arrived before it is read against
    one no later than that deadline and no earlier than its arrival. *)
Theorem stops_never_flip_a_reading (c : SessionClock) (seq arrived due stood : Z)
  (Hc : clock_inv c) (Hdue : due_at c seq = Some due) (Hstood : due_as_it_stood c seq arrived = Some stood) :
  (due <= arrived -> stood = due) /\ (arrived < due -> arrived <= stood <= due).
Proof.
  unfold due_at in Hdue. unfold due_as_it_stood in Hstood. destruct (anchor_at c) as [[a at_]|]; [|done].
  destruct (checked_sub seq a) as [after|] eqn:Eaf; [|done].
  destruct ((final c <? seq) || (seq <? base_step c)); [done|]. injection Hdue as <-.
  destruct (negb (base_pause c =? 0) && _); [done|].
  set (l := take_while (fun s => step s <? seq) (stops c)) in *.
  assert (Hs : StronglySorted by_step l) by (apply take_while_sorted, Hc).
  assert (Hp : paused l).
  { apply Forall_forall. intros s [Hin _]%take_while_elem. by apply (proj1 (Forall_forall _ _) (ci_paused _ Hc)). }
  assert (Hl : forall s, s ∈ l -> step s <= seq) by (intros s [_ Hlt%Z.ltb_lt]%take_while_elem; lia).
  pose proof (stood_loop_total a at_ arrived l (base_pause c) 0) as Ht.
  pose proof (stood_nonneg a at_ arrived l (base_pause c) Hp) as Hn.
  pose proof (stood_late a at_ arrived l (base_pause c) seq Hp Hl) as Hlate.
  pose proof (stood_early a at_ arrived l (base_pause c) seq Hs Hp Hl) as Hearly.
  destruct (stood_loop l a at_ arrived (base_pause c) 0) as [stopped ca]. cbn [fst snd] in *. injection Hstood as <-. subst stopped.
  assert (Hpb : pause_before c seq = base_pause c + total l) by (rewrite pause_before_eq; f_equal; symmetry; apply take_while_before, Hc).
  rewrite Hpb. unfold checked_sub in Eaf. destruct (Z.leb_spec a seq); [|done]. injection Eaf as <-.
  unfold saturating_sub in Hlate, Hearly. rewrite (Z.max_r 0 (seq - a)) in Hlate, Hearly by lia. split; intros Hcmp.
  - rewrite Hlate by lia. lia.
  - specialize (Hearly ltac:(lia)). lia.
Qed.

(** ** Concrete clocks *)

(** A clock anchored at time 0, which stood a second past its limit's deadline. *)
Definition started : SessionClock := clock_run [Anchor 23 0] default_clock.
Definition stopped_once : SessionClock := clock_run [Anchor 23 0; Note (Some 23) 24 1252000000] default_clock.
Definition sample_frame : SessionClockFrame := mkSessionClockFrame 23 5000000 33 0 0 [mkClockStop 29 400000; mkClockStop 31 300000].

Lemma sample_frame_ok : frame_ok sample_frame.
Proof. split; cbn; [lia|lia|]. by repeat constructor. Qed.

Lemma stopped_once_inv : clock_inv stopped_once.
Proof. apply (clock_run_wf _ default_clock default_clock_wf). repeat constructor. cbn. lia. Qed.

Lemma final_deadline_never_moves_witness :
  due_at started 29 = Some 252000000 /\
  due_at (clock_run ([Anchor 23 0] ++ [Note (Some 23) 24 1252000000; Merge sample_frame 9000000000 4000]) default_clock) 29 = Some 252000000.
Proof.
  assert (H : due_at started 29 = Some 252000000) by (vm_compute; reflexivity). split; [exact H|].
  destruct (final_deadline_never_moves [Anchor 23 0] [Note (Some 23) 24 1252000000; Merge sample_frame 9000000000 4000] 29 252000000)
    as [E|[E _]]; [|exact H|exact E|].
  - repeat constructor; cbn; lia.
  - exfalso. revert E. apply Z.nlt_ge. apply Z.leb_le. vm_compute. reflexivity.
Defined.

Lemma clock_merge_order_free_witness :
  let f := (sample_frame, 9000000000, 4000) in
  let g := (mkSessionClockFrame 23 5000000 40 0 0 [mkClockStop 34 200000], 9100000000, 0) in
  final (merge_all stopped_once [f; g]) = 40 /\
  pause_before (merge_all stopped_once [f; g]) 41 = pause_before (merge_all stopped_once [g; f; g]) 41.
Proof.
  cbv zeta.
  assert (H : final (merge_all stopped_once [(sample_frame, 9000000000, 4000);
    (mkSessionClockFrame 23 5000000 40 0 0 [mkClockStop 34 200000], 9100000000, 0)]) = 40) by (vm_compute; reflexivity).
  split; [exact H|].
  refine (proj1 (proj2 (clock_merge_order_free stopped_once _ _ stopped_once_inv eq_refl _ _ _) 41 _)).
  - repeat (constructor; [split; [split; cbn; [lia|lia|by repeat constructor]|vm_compute; reflexivity]|]). constructor.
  - repeat (constructor; [split; [split; cbn; [lia|lia|by repeat constructor]|vm_compute; reflexivity]|]). constructor.
  - intros x. set_solver.
  - rewrite H. reflexivity.
Defined.

Lemma clock_resumes_now_witness :
  due_at (note_confirmable started (Some 23) 24 1252000000).2 30 = Some 1294000000 /\
  1294000000 = 1252000000 + from_micros (STEP_DURATION_US * (30 - final (caught_up started (Some 23)))).
Proof.
  assert (H : due_at (note_confirmable started (Some 23) 24 1252000000).2 30 = Some 1294000000) by (vm_compute; reflexivity).
  split; [exact H|].
  refine (proj2 (clock_resumes_now started (Some 23) 24 1252000000 252000000 30 1294000000 _ _ _ H _ _) _).
  - apply (clock_run_wf _ default_clock default_clock_wf). repeat constructor. cbn. lia.
  - vm_compute. reflexivity.
  - lia.
  - vm_compute. reflexivity.
  - intros a [= <-]. vm_compute. discriminate.
  - vm_compute. discriminate.
Defined.

Lemma stops_never_flip_a_reading_witness :
  due_at stopped_once 30 = Some 1294000000 /\ due_as_it_stood stopped_once 30 200000000 = Some 294000000 /\
  200000000 <= 294000000 <= 1294000000.
Proof.
  assert (H1 : due_at stopped_once 30 = Some 1294000000) by (vm_compute; reflexivity).
  assert (H2 : due_as_it_stood stopped_once 30 200000000 = Some 294000000) by (vm_compute; reflexivity).
  split; [exact H1|]. split; [exact H2|].
  apply (proj2 (stops_never_flip_a_reading stopped_once 30 200000000 1294000000 294000000 stopped_once_inv H1 H2)). lia.
Defined.
