(* ===== verification/Lead.v ===== *)
(** * Lead reports (relay/src/consensus/lead.rs)

    How late each home slot's turns arrive against the session clock.  A slot
    keeps a 128-bit map of the turns it has taken in, a queue of turns whose
    deadline is not final yet, and a ring of its newest latenesses; a report is
    the median and ninetieth percentile of the ring.  An index out of range,
    which would panic, is [None]. *)

From Stdlib Require Import ZArith Lia.
From stdpp Require Import gmap sorting list.
From S2P Require Import Prelude Clock.
Open Scope Z_scope.

Definition LEAD_WINDOW_TURNS : Z := 24.
Definition LEAD_REPORT_EVERY : Z := 12.
Definition LEAD_WAITING_TURNS : Z := 64.
Definition LEAD_LATENESS_BUCKET_BOUNDS_MS : list Z := [-40; -20; -10; 0; 10; 20; 40; 80; 160].
Definition LEAD_LATENESS_BUCKETS : Z := Z.of_nat (length LEAD_LATENESS_BUCKET_BOUNDS_MS) + 1.

Definition i32_min : Z := - 2 ^ 31.
Definition i32_max : Z := 2 ^ 31 - 1.

Definition lateness_bucket (late : Z) : nat :=
  length (take_while (fun bound_ms => bound_ms * 1000 <? late) LEAD_LATENESS_BUCKET_BOUNDS_MS).

Record LeadReport : Type := mkLeadReport {
  through_step : Z; median_us : Z; p90_us : Z; samples : Z; report_pause_us : Z
}.

Record LeadInterval : Type := mkLeadInterval {
  turns : Z; reports : Z; max_p90_us : option Z; max_lateness_us : option Z
}.
Definition default_interval : LeadInterval := mkLeadInterval 0 0 None None.

Record SlotLead : Type := mkSlotLead {
  newest : Z; seen : Z; waiting : list (Z * Z); window : list Z; len : Z; next : Z;
  measured_through : Z; report_at : Z; interval : LeadInterval; last_report : option LeadReport; histogram : list Z
}.

Definition new_lead : SlotLead :=
  mkSlotLead 0 0 [] (replicate (Z.to_nat LEAD_WINDOW_TURNS) 0) 0 0 0 0 default_interval None
    (replicate (Z.to_nat LEAD_LATENESS_BUCKETS) 0).

(** [Ord] on [Option]: [None] is least. *)
Definition option_max (o : option Z) (x : Z) : option Z :=
  Some (match o with Some y => Z.max y x | None => x end).

Definition mark (l : SlotLead) (seq : Z) : bool * SlotLead :=
  let set newest seen := mkSlotLead newest seen (waiting l) (window l) (len l) (next l) (measured_through l)
    (report_at l) (interval l) (last_report l) (histogram l) in
  if newest l <? seq then
    let ahead := seq - newest l in
    let shifted := if LEAD_SEEN_SEQS <=? ahead then 0 else Z.land (Z.shiftl (seen l) ahead) (2 ^ 128 - 1) in
    (true, set seq (Z.lor shifted 1))
  else
    let behind := newest l - seq in
    if (LEAD_SEEN_SEQS <=? behind) || negb (Z.land (seen l) (Z.shiftl 1 behind) =? 0) then (false, l)
    else (true, set (newest l) (Z.lor (seen l) (Z.shiftl 1 behind))).

Definition clamp_i32 (x : Z) : Z := Z.max i32_min (Z.min i32_max x).

(** [None] when the ring or the histogram is indexed out of range. *)
Definition measure (l : SlotLead) (seq late : Z) : option SlotLead :=
  let late := clamp_i32 late in
  let b := lateness_bucket late in
  match window l !! Z.to_nat (next l), histogram l !! b with
  | Some _, Some h =>
      Some (mkSlotLead (newest l) (seen l) (waiting l) (<[Z.to_nat (next l) := late]> (window l))
        (Z.min (len l + 1) LEAD_WINDOW_TURNS) ((next l + 1) mod LEAD_WINDOW_TURNS)
        (Z.max (measured_through l) seq) (report_at l)
        (mkLeadInterval (saturating_add u32_max (turns (interval l)) 1) (reports (interval l)) (max_p90_us (interval l))
          (option_max (max_lateness_us (interval l)) late))
        (last_report l) (<[b := h + 1]> (histogram l)))
  | _, _ => None
  end.

Definition report (l : SlotLead) (pause : Z) : option LeadReport :=
  let sorted := merge_sort Z.le (take (Z.to_nat (len l)) (window l)) in
  let done m p := Some (mkLeadReport (measured_through l) m p (len l) (Z.min u64_max (as_micros pause))) in
  if len l =? 0 then done 0 0 else
  match sorted !! Z.to_nat (len l / 2), sorted !! Z.to_nat ((len l * 9 + 9) / 10 - 1) with
  | Some m, Some p => done m p
  | _, _ => None
  end.

Definition make_report (l : SlotLead) (pause : Z) : option (LeadReport * SlotLead) :=
  r ← report l pause;
  let i := interval l in
  Some (r, mkSlotLead (newest l) (seen l) (waiting l) (window l) (len l) (next l) (measured_through l) (report_at l)
    (mkLeadInterval (turns i) (saturating_add u32_max (reports i) 1)
      (if 0 <? samples r then option_max (max_p90_us i) (p90_us r) else max_p90_us i) (max_lateness_us i))
    (Some r) (histogram l)).

Record SlotLeadSample : Type := mkSlotLeadSample {
  s_turns : Z; s_reports : Z; s_last_report : option LeadReport; s_max_p90_us : option Z; s_max_lateness_us : option Z;
  lateness_histogram : list Z
}.

Definition take_sample (l : SlotLead) : SlotLeadSample * SlotLead :=
  let i := interval l in
  (mkSlotLeadSample (turns i) (reports i) (last_report l) (max_p90_us i) (max_lateness_us i) (histogram l),
   mkSlotLead (newest l) (seen l) (waiting l) (window l) (len l) (next l) (measured_through l) (report_at l)
     default_interval (last_report l) (histogram l)).

Definition set_waiting (l : SlotLead) (w : list (Z * Z)) : SlotLead :=
  mkSlotLead (newest l) (seen l) w (window l) (len l) (next l) (measured_through l) (report_at l) (interval l)
    (last_report l) (histogram l).

(** [retain] over the taken queue: the turns kept, and the slot as measured. *)
Fixpoint measure_loop (queue : list (Z * Z)) (clock : SessionClock) (through : Z) (l : SlotLead) : option (list (Z * Z) * SlotLead) :=
  match queue with
  | [] => Some ([], l)
  | (seq, arrived) :: queue =>
      if through <? seq then
        '(kept, l) ← measure_loop queue clock through l; Some ((seq, arrived) :: kept, l)
      else
        l ← match lateness_us clock seq arrived with Some late => measure l seq late | None => Some l end;
        measure_loop queue clock through l
  end.

Definition measure_waiting (l : SlotLead) (clock : SessionClock) : option SlotLead :=
  match final_through clock with
  | None => Some l
  | Some through =>
      '(kept, l) ← measure_loop (waiting l) clock through (set_waiting l []);
      Some (set_waiting l kept)
  end.

Definition set_report_at (l : SlotLead) (n : Z) : SlotLead :=
  mkSlotLead (newest l) (seen l) (waiting l) (window l) (len l) (next l) (measured_through l) n (interval l)
    (last_report l) (histogram l).

Definition take_due_report (l : SlotLead) (pause : Z) : option (option LeadReport * SlotLead) :=
  if (len l =? 0) || (measured_through l <? report_at l) then Some (None, l) else
  '(r, l) ← make_report (set_report_at l (measured_through l + LEAD_REPORT_EVERY)) pause; Some (Some r, l).

Record LeadTracker : Type := mkLeadTracker { slots : gmap Z SlotLead; rehome_floors : gmap Z (option Z) }.
Definition default_tracker : LeadTracker := mkLeadTracker ∅ ∅.

Definition begin_rehome (t : LeadTracker) (slot : Z) (through : option Z) : LeadTracker :=
  let l := default new_lead (slots t !! slot) in
  mkLeadTracker
    (<[slot := mkSlotLead (newest l) (seen l) [] (window l) 0 0 0 0 (interval l) None (histogram l)]> (slots t))
    (<[slot := through]> (rehome_floors t)).

Definition anchor_rehomes (t : LeadTracker) (through : Z) : LeadTracker :=
  mkLeadTracker (slots t) ((fun floor => match floor with None => Some through | Some f => Some f end) <$> rehome_floors t).

Definition set_slot (t : LeadTracker) (slot : Z) (l : SlotLead) : LeadTracker :=
  mkLeadTracker (<[slot := l]> (slots t)) (rehome_floors t).

(** The outer option is the panic, the inner one the report. *)
Definition note (t : LeadTracker) (slot seq arrived : Z) (clock : SessionClock) : option (option LeadReport * LeadTracker) :=
  let admissible := match rehome_floors t !! slot with
    | Some None => false
    | Some (Some floor) => floor <? seq
    | None => true
    end in
  if negb admissible then Some (None, t) else
  match final_through clock with
  | None => Some (None, t)
  | Some through =>
      let late := if seq <=? through then lateness_us clock seq arrived else None in
      if (seq <=? through) && bool_decide (late = None) then Some (None, t) else
      let l := default new_lead (slots t !! slot) in
      match mark l seq with
      | (false, l) => Some (None, set_slot t slot l)
      | (true, l) =>
          match late with
          | Some late =>
              l ← measure l seq late;
              '(r, l) ← take_due_report l (clock_pause clock);
              Some (r, set_slot t slot l)
          | None =>
              let l := if Z.of_nat (length (waiting l)) <? LEAD_WAITING_TURNS
                then set_waiting l (waiting l ++ [(seq, arrived)]) else l in
              Some (None, set_slot t slot l)
          end
      end
  end.

(** One slot's turn in [settle]. *)
Definition settle_slot (l : SlotLead) (clock : SessionClock) (every_slot : bool) : option (option LeadReport * SlotLead) :=
  l ← (if bool_decide (waiting l = []) then Some l else measure_waiting l clock);
  '(r, l) ← take_due_report l (clock_pause clock);
  match r with
  | None => if every_slot then '(r, l) ← make_report l (clock_pause clock); Some (Some r, l) else Some (None, l)
  | Some r => Some (Some r, l)
  end.

Definition lead_report (t : LeadTracker) (slot pause : Z) : option (option LeadReport) :=
  match slots t !! slot with
  | None => Some None
  | Some l => r ← report l pause; Some (Some r)
  end.

(** [settle] over the slots in the map's order. *)
Fixpoint settle_loop (l : list (Z * SlotLead)) (clock : SessionClock) (every_slot : bool) :
  option (list (Z * LeadReport) * list (Z * SlotLead)) :=
  match l with
  | [] => Some ([], [])
  | (slot, lead) :: l =>
      '(r, lead) ← settle_slot lead clock every_slot;
      '(rs, l) ← settle_loop l clock every_slot;
      Some (match r with Some r => (slot, r) :: rs | None => rs end, (slot, lead) :: l)
  end.

Definition settle (t : LeadTracker) (clock : SessionClock) (every_slot : bool) : option (list (Z * LeadReport) * LeadTracker) :=
  '(rs, l) ← settle_loop (map_to_list (slots t)) clock every_slot;
  Some (rs, mkLeadTracker (list_to_map l) (rehome_floors t)).

Definition by_slot (a b : Z * SlotLeadSample) : Prop := a.1 <= b.1.
#[export] Instance by_slot_dec : RelDecision by_slot := fun a b => Z_le_dec a.1 b.1.

Definition take_samples (t : LeadTracker) : list (Z * SlotLeadSample) * LeadTracker :=
  (merge_sort by_slot (map (fun kv => (kv.1, (take_sample kv.2).1)) (map_to_list (slots t))),
   mkLeadTracker ((fun l => (take_sample l).2) <$> slots t) (rehome_floors t)).

(** ** The map of turns taken in *)

(** The map says of the 128 newest seqs which are in the set. *)
Definition seen_repr (l : SlotLead) (s : gset Z) : Prop :=
  (forall x, x ∈ s -> 0 <= x <= newest l) /\
  forall i, 0 <= i < LEAD_SEEN_SEQS -> Z.testbit (seen l) i = bool_decide (newest l - i ∈ s).

(** The reference: a set of seqs and the newest, with seqs too far behind refused. *)
Definition mark_spec (st : gset Z * Z) (seq : Z) : bool * (gset Z * Z) :=
  let '(s, newest) := st in
  if bool_decide (seq ∈ s) || (LEAD_SEEN_SEQS <=? newest - seq) then (false, st)
  else (true, ({[seq]} ∪ s, Z.max newest seq)).

Lemma mark_refines l s seq : seen_repr l s -> 0 <= seq ->
  (mark l seq).1 = (mark_spec (s, newest l) seq).1 /\
  newest (mark l seq).2 = (mark_spec (s, newest l) seq).2.2 /\ seen_repr (mark l seq).2 (mark_spec (s, newest l) seq).2.1.
Proof.
  intros [Hs Hb] Hseq. unfold mark, mark_spec, LEAD_SEEN_SEQS in *. destruct (Z.ltb_spec (newest l) seq) as [Hlt|Hle].
  - assert (Hn : seq ∉ s) by (intros H%Hs; lia). rewrite (bool_decide_eq_false_2 _ Hn).
    rewrite (proj2 (Z.leb_gt 128 (newest l - seq))) by lia. cbn [orb fst snd newest seen]. rewrite Z.max_r by lia.
    split_and!; [done..|]. split; cbn [newest seen].
    + intros x [->%elem_of_singleton|Hx%Hs]%elem_of_union; lia.
    + intros i Hi. unfold LEAD_SEEN_SEQS in Hi. rewrite Z.lor_spec. destruct (decide (i = 0)) as [->|Hi0].
      { rewrite orb_true_r. symmetry. apply bool_decide_eq_true. set_solver by lia. }
      assert (Z.testbit 1 i = false) as -> by (rewrite <- (Z.pow_0_r 2); apply Z.pow2_bits_false; lia). rewrite orb_false_r.
      assert (Hin : seq - i ∈ {[seq]} ∪ s <-> newest l - (i - (seq - newest l)) ∈ s).
      { rewrite elem_of_union, elem_of_singleton. replace (newest l - (i - (seq - newest l))) with (seq - i) by lia. split; [intros [?|?]; [lia|done]|by right]. }
      rewrite (bool_decide_ext _ _ Hin). destruct (Z.leb_spec 128 (seq - newest l)) as [Hfar|Hnear].
      * rewrite Z.bits_0. symmetry. apply bool_decide_eq_false. intros H%Hs. lia.
      * rewrite Z.land_spec, Z.shiftl_spec by lia. change (2 ^ 128 - 1) with (Z.ones 128). rewrite Z.ones_spec_low by lia. rewrite andb_true_r.
        destruct (decide (seq - newest l <= i)) as [Hge|Hge]; [apply Hb; lia|].
        rewrite Z.testbit_neg_r by lia. symmetry. apply bool_decide_eq_false. intros H%Hs. lia.
  - rewrite land_bit_zero by lia. rewrite negb_involutive.
    destruct (Z.leb_spec 128 (newest l - seq)) as [Hfar|Hnear]; cbn [orb]; [rewrite orb_true_r; done|]. rewrite orb_false_r.
    rewrite (Hb (newest l - seq)) by lia. replace (newest l - (newest l - seq)) with seq by lia.
    destruct (decide (seq ∈ s)) as [Hin|Hin]; [rewrite bool_decide_eq_true_2 by done; done|].
    rewrite bool_decide_eq_false_2 by done. cbn [fst snd newest seen]. rewrite Z.max_l by lia. split_and!; [done..|].
    split; cbn [newest seen].
    + intros x [->%elem_of_singleton|Hx%Hs]%elem_of_union; lia.
    + intros i Hi. unfold LEAD_SEEN_SEQS in Hi. rewrite Z.lor_spec, (Hb i), Z.shiftl_1_l, Z.pow2_bits_eqb by lia.
      destruct (Z.eqb_spec (newest l - seq) i) as [<-|N].
      * rewrite orb_true_r. symmetry. apply bool_decide_eq_true. set_solver by lia.
      * rewrite orb_false_r. apply bool_decide_ext. rewrite elem_of_union, elem_of_singleton. split; [by right|intros [?|?]; [lia|done]].
Qed.

(** ** The ring of latenesses *)

Definition lastn {A} (k : nat) (l : list A) : list A := drop (length l - k) l.

Lemma length_lastn {A} k (l : list A) : length (lastn k l) = Nat.min k (length l).
Proof. unfold lastn. rewrite length_drop. lia. Qed.

Lemma lastn_app_le {A} k (l1 l2 : list A) : (length l2 <= k)%nat -> lastn k (l1 ++ l2) = lastn (k - length l2) l1 ++ l2.
Proof.
  intros H. unfold lastn. rewrite length_app, drop_app.
  replace (length l1 + length l2 - k - length l1)%nat with 0%nat by lia. rewrite drop_0. f_equal. f_equal. lia.
Qed.

Lemma lastn_app_ge {A} k (l1 l2 : list A) : (k <= length l2)%nat -> lastn k (l1 ++ l2) = lastn k l2.
Proof.
  intros H. unfold lastn. rewrite length_app, drop_app, drop_ge by lia. cbn. f_equal. lia.
Qed.

Definition W : nat := Z.to_nat LEAD_WINDOW_TURNS.

(** The ring holds the newest entries of the history, oldest first from the next
    slot to be written; before the history is that long, older values stand in. *)
Record ring (l : SlotLead) (h : list Z) : Prop := mkRing {
  rg_split : exists z a b, length z = W /\ window l = a ++ b /\ length a = Z.to_nat (next l) /\ length (window l) = W /\
    b ++ a = lastn W (z ++ h);
  rg_next : 0 <= next l < LEAD_WINDOW_TURNS;
  rg_len : len l = Z.min (Z.of_nat (length h)) LEAD_WINDOW_TURNS;
  rg_early : Z.of_nat (length h) < LEAD_WINDOW_TURNS -> next l = Z.of_nat (length h)
}.

Lemma new_ring : ring new_lead [].
Proof.
  split; cbn [new_lead window next len]; [exists (replicate W 0), [], (replicate W 0); split_and!; done|unfold LEAD_WINDOW_TURNS; lia|done..].
Qed.

Lemma lastn_snoc {A} k (x : A) t : (0 < k)%nat -> length t = k -> lastn k (t ++ [x]) = drop 1 t ++ [x].
Proof. intros Hk Ht. rewrite lastn_app_le by (cbn; lia). f_equal. unfold lastn. cbn [length]. f_equal. lia. Qed.

Lemma lastn_lastn_snoc {A} k (l : list A) x : (k <= length l)%nat -> lastn k (l ++ [x]) = lastn k (lastn k l ++ [x]).
Proof.
  intros H. unfold lastn. rewrite !length_app, !length_drop. cbn [length]. rewrite !drop_app, length_drop, drop_drop.
  f_equal; f_equal; lia.
Qed.

Lemma ring_write (l : SlotLead) h x z a b :
  length z = W -> window l = a ++ b -> length a = Z.to_nat (next l) -> length (window l) = W -> b ++ a = lastn W (z ++ h) ->
  0 <= next l < LEAD_WINDOW_TURNS ->
  exists a' b', <[Z.to_nat (next l) := x]> (window l) = a' ++ b' /\
    length a' = Z.to_nat ((next l + 1) mod LEAD_WINDOW_TURNS) /\ b' ++ a' = lastn W (z ++ h ++ [x]).
Proof.
  intros Hz Hw Ha Hlen Hba Hn. rewrite Hw, length_app in Hlen. destruct b as [|y b]; [rewrite app_nil_r in *; unfold W, LEAD_WINDOW_TURNS in *; cbn in *; lia|].
  assert (E : lastn W (z ++ h ++ [x]) = b ++ a ++ [x]).
  { rewrite app_assoc, lastn_lastn_snoc by (rewrite length_app; lia). rewrite <- Hba.
    rewrite lastn_snoc; [cbn [drop app]; by rewrite drop_0, <- app_assoc|unfold W, LEAD_WINDOW_TURNS; cbn; lia|rewrite length_app; lia]. }
  rewrite E. rewrite Hw, <- Ha, insert_app_r_alt by done. rewrite Nat.sub_diag. cbn [insert list_insert].
  cbn [length] in Hlen. destruct (decide (next l = 23)) as [E23|N23].
  - exists [], (a ++ x :: b). split_and!; [done|by rewrite E23|].
    assert (b = []) as -> by (apply length_zero_iff_nil; unfold W, LEAD_WINDOW_TURNS in *; cbn in *; lia). by rewrite app_nil_r.
  - exists (a ++ [x]), b. split_and!; [by rewrite <- app_assoc| |done].
    rewrite length_app. cbn [length]. rewrite Z.mod_small by (unfold LEAD_WINDOW_TURNS in *; lia). lia.
Qed.

Lemma bucket_range x : (lateness_bucket x < Z.to_nat LEAD_LATENESS_BUCKETS)%nat.
Proof.
  unfold lateness_bucket. change (Z.to_nat LEAD_LATENESS_BUCKETS) with (S (length LEAD_LATENESS_BUCKET_BOUNDS_MS)).
  apply Nat.lt_succ_r. generalize (fun bound_ms => bound_ms * 1000 <? x) as f. generalize LEAD_LATENESS_BUCKET_BOUNDS_MS as l.
  intros l f. induction l as [|y l IH]; cbn [take_while]; [done|]. destruct (f y); cbn; lia.
Qed.

Definition lead_ok (l : SlotLead) (h : list Z) : Prop := ring l h /\ length (histogram l) = Z.to_nat LEAD_LATENESS_BUCKETS.

Lemma measure_ok l h seq late : lead_ok l h ->
  exists l', measure l seq late = Some l' /\ lead_ok l' (h ++ [clamp_i32 late]) /\
    measured_through l' = Z.max (measured_through l) seq /\ newest l' = newest l /\ seen l' = seen l.
Proof.
  intros [Hr Hh]. destruct Hr as [(z & a & b & Hz & Hw & Ha & Hlen & Hba) Hn Hl He]. unfold measure.
  destruct (lookup_lt_is_Some_2 (window l) (Z.to_nat (next l))) as [w ->]; [rewrite Hlen; unfold W, LEAD_WINDOW_TURNS in *; lia|].
  destruct (lookup_lt_is_Some_2 (histogram l) (lateness_bucket (clamp_i32 late))) as [x ->]; [rewrite Hh; apply bucket_range|].
  eexists. split; [done|]. split_and!; [|done..]. split; [|cbn [histogram]; by rewrite length_insert].
  destruct (ring_write l h (clamp_i32 late) z a b Hz Hw Ha Hlen Hba Hn) as (a' & b' & E1 & E2 & E3).
  split; cbn [window next len].
  - exists z, a', b'. split_and!; [done..|by rewrite length_insert|done].
  - apply Z.mod_pos_bound. done.
  - rewrite length_app. cbn [length]. rewrite Hl. unfold LEAD_WINDOW_TURNS. lia.
  - rewrite length_app. cbn [length]. intros Hlt. rewrite He by lia. rewrite Z.mod_small by lia. lia.
Qed.

(** What a report is made from, up to order. *)
Lemma ring_recent l h : ring l h -> take (Z.to_nat (len l)) (window l) ≡ₚ lastn W h.
Proof.
  intros [(z & a & b & Hz & Hw & Ha & Hlen & Hba) Hn Hl He]. destruct (decide (Z.of_nat (length h) < LEAD_WINDOW_TURNS)) as [Hlt|Hge].
  - specialize (He Hlt). rewrite lastn_app_le in Hba by (unfold W, LEAD_WINDOW_TURNS in *; lia).
    assert (a = h) as ->.
    { apply app_inj_2 in Hba as [_ ?]; [done|lia]. }
    rewrite Hl, Z.min_l by lia. rewrite Nat2Z.id, Hw. rewrite take_app_length. unfold lastn.
    replace (length h - W)%nat with 0%nat by (unfold W, LEAD_WINDOW_TURNS in *; lia). done.
  - rewrite lastn_app_ge in Hba by (unfold W, LEAD_WINDOW_TURNS in *; lia). rewrite <- Hba, Hl, Z.min_r by lia.
    rewrite take_ge by (rewrite Hlen; done). rewrite Hw. apply Permutation_app_comm.
Qed.

(** ** Order statistics *)

Definition at_most (x : Z) (l : list Z) : Z := Z.of_nat (length (filter (fun y => y <= x) l)).
Definition below (x : Z) (l : list Z) : Z := Z.of_nat (length (filter (fun y => y < x) l)).

Lemma order_statistic (l : list Z) k x : merge_sort Z.le l !! k = Some x ->
  x ∈ l /\ below x l <= Z.of_nat k /\ Z.of_nat k + 1 <= at_most x l.
Proof.
  intros Hk. assert (Hp : merge_sort Z.le l ≡ₚ l) by apply merge_sort_Permutation.
  assert (Hs : StronglySorted Z.le (merge_sort Z.le l)) by (apply StronglySorted_merge_sort; apply _).
  split; [rewrite <- Hp; by eapply list_elem_of_lookup_2|]. unfold below, at_most. rewrite <- Hp.
  set (s := merge_sort Z.le l) in *. clearbody s. clear Hp. pose proof (lookup_lt_Some _ _ _ Hk) as Hlen.
  rewrite <- (take_drop_middle s k x Hk) in Hs |- *. apply StronglySorted_app in Hs as (H1 & _ & H2).
  apply StronglySorted_inv in H2 as [_ H2]. rewrite !filter_app, !length_app. split.
  - assert (filter (fun y => y < x) (x :: drop (S k) s) = []) as ->.
    { apply elem_of_nil_inv. intros y [Hlt [->|Hy]%elem_of_cons]%list_elem_of_filter; [lia|].
      pose proof (proj1 (Forall_forall _ _) H2 y Hy). lia. }
    pose proof (length_filter (fun y => y < x) (take k s)). rewrite length_take in *. cbn [length]. lia.
  - rewrite filter_cons_True by lia. cbn [length].
    assert (filter (fun y => y <= x) (take k s) = take k s) as ->.
    { apply filter_all. intros y Hy. apply (H1 y x Hy). left. }
    rewrite length_take. lia.
Qed.

(** ** Never out of range *)

Lemma report_ok l h pause : ring l h ->
  exists r, report l pause = Some r /\ samples r = Z.min (Z.of_nat (length h)) LEAD_WINDOW_TURNS /\ through_step r = measured_through l /\
  (h <> [] ->
    (median_us r ∈ lastn W h /\ 2 * below (median_us r) (lastn W h) <= samples r < 2 * at_most (median_us r) (lastn W h)) /\
    (p90_us r ∈ lastn W h /\ 10 * below (p90_us r) (lastn W h) < 9 * samples r <= 10 * at_most (p90_us r) (lastn W h))).
Proof.
  intros Hr. pose proof (ring_recent l h Hr) as Hp. unfold report.
  set (recent := take (Z.to_nat (len l)) (window l)) in *.
  assert (Hlen : Z.of_nat (length recent) = len l).
  { rewrite Hp, length_lastn, (rg_len _ _ Hr). unfold W, LEAD_WINDOW_TURNS. lia. }
  pose proof (rg_len _ _ Hr) as Hl. unfold LEAD_WINDOW_TURNS in *.
  destruct (Z.eqb_spec (len l) 0) as [E0|N0].
  - eexists. split; [done|]. cbn [samples through_step]. split_and!; [done..|]. intros Hh. destruct h; [done|]. cbn [length] in Hl. lia.
  - assert (Hsl : length (merge_sort Z.le recent) = length recent) by (by rewrite merge_sort_Permutation).
    destruct (lookup_lt_is_Some_2 (merge_sort Z.le recent) (Z.to_nat (len l / 2))) as [m Hm].
    { rewrite Hsl. assert (len l / 2 < len l) by (apply Z.div_lt; lia). lia. }
    destruct (lookup_lt_is_Some_2 (merge_sort Z.le recent) (Z.to_nat ((len l * 9 + 9) / 10 - 1))) as [p Hq].
    { rewrite Hsl. assert ((len l * 9 + 9) / 10 < len l + 1) by (apply Z.div_lt_upper_bound; lia). lia. }
    rewrite Hm, Hq. eexists. split; [done|]. cbn [samples through_step median_us p90_us]. split_and!; [done..|]. intros _.
    destruct (order_statistic _ _ _ Hm) as (M1 & M2 & M3). destruct (order_statistic _ _ _ Hq) as (P1 & P2 & P3).
    unfold below, at_most in *. rewrite Hp in M1, M2, M3, P1, P2, P3.
    pose proof (Z.div_mod (len l) 2). pose proof (Z.mod_pos_bound (len l) 2). pose proof (Z.div_mod (len l * 9 + 9) 10).
    pose proof (Z.mod_pos_bound (len l * 9 + 9) 10). split_and!; [done|lia|lia|done|lia|lia].
Qed.

(** A restarted window represents an empty history, whatever it holds. *)
Lemma restarted_ring w l : length w = W -> window l = w -> len l = 0 -> next l = 0 -> ring l [].
Proof.
  intros Hw E Hl Hn. split; rewrite ?Hl, ?Hn; [|unfold LEAD_WINDOW_TURNS; lia|done..].
  exists w, [], w. rewrite E. split_and!; [done..|]. rewrite !app_nil_r. unfold lastn. by rewrite Hw, Nat.sub_diag.
Qed.

Definition slot_ok (l : SlotLead) : Prop := exists h, lead_ok l h.

Lemma slot_ok_same l l' : slot_ok l -> window l' = window l -> len l' = len l -> next l' = next l ->
  length (histogram l') = length (histogram l) -> slot_ok l'.
Proof.
  intros (h & [[] Hh]) E1 E2 E3 E4. exists h. split; [split; rewrite ?E1, ?E2, ?E3; done|congruence].
Qed.

Lemma mark_slot_ok l seq : slot_ok l -> slot_ok (mark l seq).2.
Proof. intros H. eapply slot_ok_same; [exact H|..]; unfold mark; repeat case_match; done. Qed.

Lemma make_report_ok l pause : slot_ok l -> exists r l', make_report l pause = Some (r, l') /\ slot_ok l'.
Proof.
  intros Hl. pose proof Hl as (h & Hr & _). destruct (report_ok l h pause Hr) as (r & E & _). unfold make_report. rewrite E.
  eexists _, _. split; [done|]. by eapply slot_ok_same.
Qed.

Lemma take_due_ok l pause : slot_ok l -> exists r l', take_due_report l pause = Some (r, l') /\ slot_ok l'.
Proof.
  intros Hl. unfold take_due_report. destruct ((len l =? 0) || _); [by eexists _, _|].
  destruct (make_report_ok (set_report_at l (measured_through l + LEAD_REPORT_EVERY)) pause) as (r & l' & E & H); [by eapply slot_ok_same|].
  rewrite E. by eexists _, _.
Qed.

Lemma measure_slot_ok l seq late : slot_ok l -> exists l', measure l seq late = Some l' /\ slot_ok l'.
Proof. intros (h & Hl). destruct (measure_ok l h seq late Hl) as (l' & E & H & _). exists l'. split; [done|]. by eexists. Qed.

Lemma measure_loop_ok q clock through l : slot_ok l -> exists kept l', measure_loop q clock through l = Some (kept, l') /\ slot_ok l'.
Proof.
  revert l. induction q as [|[seq arrived] q IH]; intros l Hl; cbn [measure_loop]; [by eexists _, _|].
  destruct (through <? seq).
  - destruct (IH l Hl) as (k & l' & -> & H). by eexists _, _.
  - destruct (lateness_us clock seq arrived) as [late|]; [|by apply IH].
    destruct (measure_slot_ok l seq late Hl) as (l1 & -> & H1). by apply IH.
Qed.

Lemma settle_slot_ok l clock every : slot_ok l -> exists r l', settle_slot l clock every = Some (r, l') /\ slot_ok l'.
Proof.
  intros Hl. unfold settle_slot.
  assert (H1 : exists l1, (if bool_decide (waiting l = []) then Some l else measure_waiting l clock) = Some l1 /\ slot_ok l1).
  { case_bool_decide; [by eexists|]. unfold measure_waiting. destruct (final_through clock) as [through|]; [|by eexists].
    destruct (measure_loop_ok (waiting l) clock through (set_waiting l [])) as (k & l1 & -> & H1); [by eapply slot_ok_same|].
    eexists. split; [done|]. by eapply slot_ok_same. }
  destruct H1 as (l1 & -> & H1). cbn [mbind option_bind]. destruct (take_due_ok l1 (clock_pause clock) H1) as (r & l2 & -> & H2).
  cbn [mbind option_bind]. destruct r as [r|]; [by eexists _, _|]. destruct every; [|by eexists _, _].
  destruct (make_report_ok l2 (clock_pause clock) H2) as (r & l3 & -> & H3). by eexists _, _.
Qed.

Definition tracker_ok (t : LeadTracker) : Prop := map_Forall (fun _ => slot_ok) (slots t).

Lemma new_slot_ok : slot_ok new_lead.
Proof. exists []. split; [apply new_ring|done]. Qed.

Lemma tracked_ok t slot : tracker_ok t -> slot_ok (default new_lead (slots t !! slot)).
Proof. intros Ht. destruct (slots t !! slot) as [l|] eqn:E; [by apply Ht in E|apply new_slot_ok]. Qed.

Lemma set_slot_ok t slot l : tracker_ok t -> slot_ok l -> tracker_ok (set_slot t slot l).
Proof. intros Ht Hl. by apply map_Forall_insert_2. Qed.

(** Taking in a turn never indexes out of range, whatever the clock. *)
Theorem note_never_panics t slot seq arrived clock : tracker_ok t ->
  exists r t', note t slot seq arrived clock = Some (r, t') /\ tracker_ok t'.
Proof.
  intros Ht. unfold note. destruct (negb _); [by eexists _, _|]. destruct (final_through clock) as [through|]; [|by eexists _, _].
  set (late := if seq <=? through then _ else _). destruct ((seq <=? through) && bool_decide (late = None)); [by eexists _, _|].
  pose proof (mark_slot_ok _ seq (tracked_ok t slot Ht)) as Hm. destruct (mark (default new_lead (slots t !! slot)) seq) as [[] l]; cbn [snd] in Hm;
    [|eexists _, _; split; [done|by apply set_slot_ok]]. destruct late as [x|].
  - destruct (measure_slot_ok l seq x Hm) as (l1 & -> & H1). cbn [mbind option_bind].
    destruct (take_due_ok l1 (clock_pause clock) H1) as (r & l2 & -> & H2). eexists _, _. split; [done|]. by apply set_slot_ok.
  - eexists _, _. split; [done|]. apply set_slot_ok; [done|]. case_match; [by eapply slot_ok_same|done].
Qed.

Lemma settle_loop_ok l clock every : Forall (fun kv => slot_ok kv.2) l ->
  exists rs l', settle_loop l clock every = Some (rs, l') /\ Forall (fun kv => slot_ok kv.2) l'.
Proof.
  induction 1 as [|[slot lead] l Hl _ IH]; cbn [settle_loop]; [by eexists _, _|].
  destruct (settle_slot_ok lead clock every Hl) as (r & lead' & -> & H1). destruct IH as (rs & l' & -> & H2).
  eexists _, _. split; [done|]. by constructor.
Qed.

Theorem settle_never_panics t clock every : tracker_ok t ->
  exists rs t', settle t clock every = Some (rs, t') /\ tracker_ok t'.
Proof.
  intros Ht. unfold settle. destruct (settle_loop_ok (map_to_list (slots t)) clock every) as (rs & l' & -> & H).
  { apply Forall_forall. intros [k l] Hin%elem_of_map_to_list. by apply Ht in Hin. }
  eexists _, _. split; [done|]. intros k l Hk. cbn [slots] in Hk. apply elem_of_list_to_map_2 in Hk.
  by apply (proj1 (Forall_forall _ _) H (k, l)).
Qed.

Theorem begin_rehome_ok t slot through : tracker_ok t -> tracker_ok (begin_rehome t slot through).
Proof.
  intros Ht. destruct (tracked_ok t slot Ht) as (h & [[] Hh]). apply map_Forall_insert_2; [|done].
  exists []. split; [|done]. destruct rg_split0 as (_ & _ & _ & _ & _ & _ & Hw & _). by eapply restarted_ring.
Qed.

(** ** Histories of a tracker *)

Inductive lead_op : Type :=
| LNote (slot seq arrived : Z) (clock : SessionClock)
| LSettle (clock : SessionClock) (every_slot : bool)
| LRehome (slot : Z) (through : option Z)
| LAnchor (through : Z)
| LSample.

Definition lead_step (t : LeadTracker) (op : lead_op) : option LeadTracker :=
  match op with
  | LNote slot seq arrived clock => '(_, t) ← note t slot seq arrived clock; Some t
  | LSettle clock every => '(_, t) ← settle t clock every; Some t
  | LRehome slot through => Some (begin_rehome t slot through)
  | LAnchor through => Some (anchor_rehomes t through)
  | LSample => Some (take_samples t).2
  end.

Fixpoint lead_run (ops : list lead_op) (t : LeadTracker) : option LeadTracker :=
  match ops with [] => Some t | op :: ops => t ← lead_step t op; lead_run ops t end.

Lemma lead_step_ok t op : tracker_ok t -> exists t', lead_step t op = Some t' /\ tracker_ok t'.
Proof.
  intros Ht. destruct op as [slot seq arrived clock|clock every|slot through|through|]; cbn [lead_step].
  - destruct (note_never_panics t slot seq arrived clock Ht) as (r & t' & -> & H). by exists t'.
  - destruct (settle_never_panics t clock every Ht) as (r & t' & -> & H). by exists t'.
  - eexists. split; [done|]. by apply begin_rehome_ok.
  - by eexists.
  - eexists. split; [done|]. intros k l. cbn [take_samples snd slots]. rewrite lookup_fmap_Some. intros (l0 & <- & Hl%Ht).
    by eapply slot_ok_same.
Qed.

(** ** Measuring a run of turns *)

Fixpoint measures (ms : list (Z * Z)) (l : SlotLead) : option SlotLead :=
  match ms with
  | [] => Some l
  | (seq, late) :: ms => l ← measure l seq late; measures ms l
  end.

Lemma measures_ok ms l h : lead_ok l h ->
  exists l', measures ms l = Some l' /\ lead_ok l' (h ++ map (fun m => clamp_i32 m.2) ms) /\
    measured_through l' = foldl (fun b m => Z.max b m.1) (measured_through l) ms.
Proof.
  revert l h. induction ms as [|[seq late] ms IH]; intros l h Hl; [exists l; rewrite app_nil_r; done|].
  destruct (measure_ok l h seq late Hl) as (l1 & E & H1 & H2 & _). cbn [measures]. rewrite E. cbn [mbind option_bind].
  destruct (IH l1 _ H1) as (l2 & E2 & H3 & H4). exists l2. split_and!; [done| |by rewrite H4, H2].
  cbn [map fst snd]. by rewrite <- app_assoc in H3.
Qed.

Fixpoint marks (seqs : list Z) (l : SlotLead) : list bool :=
  match seqs with [] => [] | x :: seqs => (mark l x).1 :: marks seqs (mark l x).2 end.
Fixpoint spec_marks (seqs : list Z) (st : gset Z * Z) : list bool :=
  match seqs with [] => [] | x :: seqs => (mark_spec st x).1 :: spec_marks seqs (mark_spec st x).2 end.

Lemma marks_refine seqs l s : seen_repr l s -> Forall (fun x => 0 <= x) seqs -> marks seqs l = spec_marks seqs (s, newest l).
Proof.
  intros Hr Hs. revert l s Hr. induction Hs as [|x seqs Hx _ IH]; intros l s Hr; [done|]. cbn [marks spec_marks].
  destruct (mark_refines l s x Hr Hx) as (H1 & H2 & H3). rewrite H1. f_equal.
  rewrite (IH _ _ H3), H2. by destruct (mark_spec (s, newest l) x).2.
Qed.

Lemma new_lead_ok : lead_ok new_lead [].
Proof. split; [apply new_ring|done]. Qed.

(** ** Properties *)

(** A lead report is what it says: whatever turns were measured, in whatever
    order, the report covers the newest 24, its median splits them, and nine in
    ten of them were no later than its ninetieth percentile, which is itself
    one of them; no index is ever out of range. *)
Theorem lead_report_exact (ms : list (Z * Z)) (pause : Z) :
  let recent := lastn W (map (fun m => clamp_i32 m.2) ms) in
  exists l r, measures ms new_lead = Some l /\ report l pause = Some r /\
    samples r = Z.of_nat (length recent) /\ through_step r = foldl (fun b m => Z.max b m.1) 0 ms /\
    (ms <> [] ->
      (median_us r ∈ recent /\ 2 * below (median_us r) recent <= samples r < 2 * at_most (median_us r) recent) /\
      (p90_us r ∈ recent /\ 10 * below (p90_us r) recent < 9 * samples r <= 10 * at_most (p90_us r) recent)).
Proof.
  destruct (measures_ok ms new_lead [] new_lead_ok) as (l & E1 & [Hr _] & Hm). cbn [app] in Hr.
  destruct (report_ok l _ pause Hr) as (r & E2 & Hs & Ht & Hst). exists l, r. split_and!; [done..| | |].
  - rewrite Hs, length_lastn, length_map. unfold W, LEAD_WINDOW_TURNS. lia.
  - by rewrite Ht, Hm.
  - intros Hne. apply Hst. by destruct ms.
Qed.

(** Copies are not measured twice: the 128-bit map of a slot's newest turns
    answers exactly as a set of every turn ever taken in would, with turns more
    than 128 behind the newest refused; so a resent turn is never taken in
    again, and a late turn within reach always is, once. *)
Theorem lead_marks_exact (seqs : list Z) (Hs : Forall (fun x => 0 <= x) seqs) :
  marks seqs new_lead = spec_marks seqs (∅, 0).
Proof.
  apply marks_refine; [|done]. split; [set_solver|]. intros i _. cbn [new_lead seen]. rewrite Z.bits_0.
  symmetry. apply bool_decide_eq_false. set_solver.
Qed.

(** The tracker is well formed in every history: no operation on it can index
    out of range, whatever turns, clocks, rehomes and samples it is given, and
    each slot it then reports on has a ring and a histogram of their full sizes
    with at most 24 samples counted. *)
Theorem lead_tracker_well_formed (ops : list lead_op) :
  exists t, lead_run ops default_tracker = Some t /\
  forall slot l, slots t !! slot = Some l ->
    length (window l) = W /\ length (histogram l) = Z.to_nat LEAD_LATENESS_BUCKETS /\ 0 <= len l <= LEAD_WINDOW_TURNS /\
    0 <= next l < LEAD_WINDOW_TURNS /\ forall pause, is_Some (report l pause).
Proof.
  assert (H : forall ops t, tracker_ok t -> exists t', lead_run ops t = Some t' /\ tracker_ok t').
  { clear ops. induction ops as [|op ops IH]; intros t Ht; cbn [lead_run]; [by exists t|].
    destruct (lead_step_ok t op Ht) as (t1 & -> & H1). by apply IH. }
  destruct (H ops default_tracker) as (t & E & Ht); [apply map_Forall_empty|].
  exists t. split; [done|]. intros slot l (h & Hr & Hh)%Ht. pose proof Hr as [(_ & _ & _ & _ & _ & _ & Hw & _) Hn Hl _].
  split_and!; [done..|lia| |lia|lia|]; [unfold LEAD_WINDOW_TURNS in *; lia|].
  intros pause. destruct (report_ok l h pause Hr) as (r & -> & _). by eexists.
Qed.

(** ** Concrete slots *)

Lemma lead_marks_exact_witness :
  spec_marks [5; 3; 5; 200; 3; 72; 73] (∅, 0) = [true; true; false; true; false; false; true] /\
  marks [5; 3; 5; 200; 3; 72; 73] new_lead = [true; true; false; true; false; false; true].
Proof.
  assert (H : spec_marks [5; 3; 5; 200; 3; 72; 73] (∅, 0) = [true; true; false; true; false; false; true]) by (vm_compute; reflexivity).
  split; [exact H|]. rewrite (lead_marks_exact [5; 3; 5; 200; 3; 72; 73]); [exact H|]. repeat constructor; lia.
Defined.
