(* ===== verification/Phase.v ===== *)
(** * Send-phase alignment ([relay/src/consensus/phase/mod.rs])

    The per-session controller that folds client-edge arrival times into
    per-slot phase estimates and issues bounded per-slot delay corrections.
    Instants and durations are nanoseconds; phases, residuals and delays are
    the source's microseconds, kept in [i64].  Equal phases may be sorted in any
    order by the code's stable sort of a hash map's entries; nothing below
    depends on it. *)

From Stdlib Require Import ZArith Lia.
From stdpp Require Import gmap sorting list.
From S2P Require Import Prelude.

Open Scope Z_scope.

(** ** Constants *)

Definition SLEW_US_PER_S : Z := 2000.
Definition SPAN_DEAD_BAND_US : Z := 3000.
Definition SLOT_MIN_CHANGE_US : Z := 1000.
Definition SLOT_MAX_CHANGE_US : Z := 8000.
Definition INTERVAL_TOLERANCE_US : Z := 800.
Definition MAX_UNCONVERGED_ROUNDS : Z := 8.
Definition NANOS_PER_MICRO : Z := 1000.
Definition SECOND : Z := 1000000 * NANOS_PER_MICRO.
Definition STRETCH_SUSTAIN : Z := 5 * SECOND.
Definition MIN_SAMPLES : Z := 24.
Definition SAMPLE_MAX_AGE : Z := 2 * SECOND.
Definition SETTLE : Z := 8 * SECOND.
Definition FIRST_EVAL_DELAY : Z := 5 * SECOND.
Definition IDLE_REEVAL : Z := 5 * SECOND.
Definition EWMA_SHIFT : Z := 5.

(** ** Signed 64-bit arithmetic *)

Definition i64_max : Z := 2 ^ 63 - 1.
Definition is_i64 (x : Z) : Prop := - i64_max - 1 <= x <= i64_max.

(** [i64::try_from] of an unsigned value. *)
Definition i64_try_from (x : Z) : option Z := if x <=? i64_max then Some x else None.
Definition i64_checked_mul (a b : Z) : option Z :=
  if (- i64_max - 1 <=? a * b) && (a * b <=? i64_max) then Some (a * b) else None.
Definition i64_saturating_mul (a b : Z) : Z := Z.max (- i64_max - 1) (Z.min i64_max (a * b)).
Definition rem_euclid (a m : Z) : Z := a mod m.
Definition clamp (x lo hi : Z) : Z := Z.max lo (Z.min hi x).

Definition duration_since (a b : Z) : Z := saturating_sub a b.
Definition as_micros (d : Z) : Z := d / NANOS_PER_MICRO.
Definition from_micros (us : Z) : Z := us * NANOS_PER_MICRO.

(** ** State *)

Record SlotPhase : Type := mkSlotPhase {
  residual_us : Z;
  interval_us : option Z;
  last_seq : Z;
  samples : Z;
  last_sample : Z;
}.

Record PhaseController : Type := mkPhaseController {
  turn_us : Z;
  epoch : option Z;
  slots : gmap Z SlotPhase;
  commanded_us : gmap Z Z;
  awaiting_ack : gset Z;
  next_eval_at : option Z;
  unconverged_rounds : Z;
  disabled : bool;
  stretch_since : option Z;
  stretch_pressing : bool;
  corrections_issued : Z;
  last_span_us : option Z;
}.

Definition new (turn_duration_us : Z) : PhaseController :=
  let turn := if turn_duration_us =? 0 then 1000000 / 24 else turn_duration_us in
  mkPhaseController turn None ∅ ∅ ∅ None 0 false None false 0 None.

Definition set_schedule (c : PhaseController) (ep nx : option Z) : PhaseController :=
  mkPhaseController (turn_us c) ep (slots c) (commanded_us c) (awaiting_ack c) nx (unconverged_rounds c)
    (disabled c) (stretch_since c) (stretch_pressing c) (corrections_issued c) (last_span_us c).
Definition set_slots (c : PhaseController) (s : gmap Z SlotPhase) : PhaseController :=
  mkPhaseController (turn_us c) (epoch c) s (commanded_us c) (awaiting_ack c) (next_eval_at c)
    (unconverged_rounds c) (disabled c) (stretch_since c) (stretch_pressing c) (corrections_issued c) (last_span_us c).
Definition set_next (c : PhaseController) (nx : Z) : PhaseController := set_schedule c (epoch c) (Some nx).
Definition set_rounds (c : PhaseController) (r : Z) (d : bool) : PhaseController :=
  mkPhaseController (turn_us c) (epoch c) (slots c) (commanded_us c) (awaiting_ack c) (next_eval_at c) r d
    (stretch_since c) (stretch_pressing c) (corrections_issued c) (last_span_us c).
Definition set_span (c : PhaseController) (s : Z) : PhaseController :=
  mkPhaseController (turn_us c) (epoch c) (slots c) (commanded_us c) (awaiting_ack c) (next_eval_at c)
    (unconverged_rounds c) (disabled c) (stretch_since c) (stretch_pressing c) (corrections_issued c) (Some s).
Definition set_commands (c : PhaseController) (m : gmap Z Z) (a : gset Z) (n : Z) : PhaseController :=
  mkPhaseController (turn_us c) (epoch c) (slots c) m a (next_eval_at c) (unconverged_rounds c) (disabled c)
    (stretch_since c) (stretch_pressing c) n (last_span_us c).
Definition set_stretch (c : PhaseController) (s : option Z) (p : bool) : PhaseController :=
  mkPhaseController (turn_us c) (epoch c) (slots c) (commanded_us c) (awaiting_ack c) (next_eval_at c)
    (unconverged_rounds c) (disabled c) s p (corrections_issued c) (last_span_us c).

(** ** Folding one arrival *)

(** One step of the exponentially weighted average. *)
Definition ewma (prior sample : Z) : Z := prior + Z.shiftr (sample - prior) EWMA_SHIFT.

Definition fold_interval (turn : Z) (e : SlotPhase) (seq now : Z) : option Z :=
  let turns := seq - last_seq e in
  if (1 <=? turns) && (turns <=? 4) then
    match i64_try_from (as_micros (duration_since now (last_sample e))) with
    | None => interval_us e
    | Some gap_us =>
        let interval := Z.min (Z.quot gap_us turns) (i64_saturating_mul turn 4) in
        Some match interval_us e with Some prior => ewma prior interval | None => interval end
    end
  else interval_us e.

Definition note_arrival (c : PhaseController) (slot seq now : Z) : PhaseController :=
  let ep := default now (epoch c) in
  let nx := match next_eval_at c with None => Some (now + FIRST_EVAL_DELAY) | Some t => Some t end in
  let c := set_schedule c (Some ep) nx in
  match i64_try_from (as_micros (duration_since now ep)) with
  | None => c
  | Some elapsed_us =>
      match i64_try_from seq ≫= (fun s => i64_checked_mul s (turn_us c)) with
      | None => c
      | Some expected_us =>
          let residual := elapsed_us - expected_us in
          match slots c !! slot with
          | Some e =>
              if seq <=? last_seq e then c
              else
                set_slots c (<[slot := mkSlotPhase (ewma (residual_us e) residual) (fold_interval (turn_us c) e seq now)
                                         seq (saturating_add u32_max (samples e) 1) now]> (slots c))
          | None => set_slots c (<[slot := mkSlotPhase residual None seq 1 now]> (slots c))
          end
      end
  end.

(** ** One control iteration *)

(** Enough samples to trust, and fresh enough to describe the present. *)
Definition active (e : SlotPhase) (now : Z) : bool :=
  (MIN_SAMPLES <=? samples e) && (duration_since now (last_sample e) <=? SAMPLE_MAX_AGE).

Definition on_cadence (turn : Z) (e : SlotPhase) : bool :=
  match interval_us e with Some iv => Z.abs (iv - turn) <=? INTERVAL_TOLERANCE_US | None => false end.

Definition active_unhealthy (c : PhaseController) (now : Z) : bool :=
  existsb (fun '(_, e) => active e now && negb (on_cadence (turn_us c) e)) (map_to_list (slots c)).

Definition phase_le (a b : Z * Z) : Prop := a.2 <= b.2.
#[export] Instance phase_le_dec : RelDecision phase_le.
Proof. intros a b. unfold phase_le. apply _. Defined.

(** The measurable population, by phase. *)
Definition phases_of (c : PhaseController) (now : Z) : list (Z * Z) :=
  merge_sort phase_le
    ((fun '(slot, e) => (slot, rem_euclid (residual_us e) (turn_us c)))
       <$> filter (fun p => active p.2 now = true) (map_to_list (slots c))).

(** The loop over circular neighbours, from index [i]: the widest gap and where
    the cluster before it ends.  [phases[(i + 1) % count]] is the next entry, or
    the first one after the last. *)
Fixpoint widest_from (turn : Z) (first : Z) (l : list Z) (i : nat) (best : Z * nat) : Z * nat :=
  match l with
  | [] => best
  | this :: rest =>
      let next := match rest with [] => first | n :: _ => n end in
      let gap := rem_euclid (next - this) turn in
      widest_from turn first rest (S i) (if best.1 <? gap then (gap, i) else best)
  end.

Definition widest_gap (turn : Z) (l : list Z) : Z * nat := widest_from turn (hd 0 l) l 0 (0, 0%nat).

(** The delay one slot would be moved to. *)
Definition next_delay (turn target phase current : Z) : Z :=
  let forward := rem_euclid (target - phase) turn in
  let backward := forward - turn in
  let change := if (0 <=? current + backward) && (Z.abs backward <? forward) then backward else forward in
  let change := clamp change (- SLOT_MAX_CHANGE_US) SLOT_MAX_CHANGE_US in
  clamp (current + change) 0 (turn - 1).

Record Round : Type := mkRound { r_commands : gmap Z Z; r_fence : gset Z; r_out : list (Z * Z); r_widest : Z }.

Definition correct_slot (turn target : Z) (r : Round) (sp : Z * Z) : Round :=
  let '(slot, phase) := sp in
  if bool_decide (slot ∈ r_fence r) then r
  else
    let current := default 0 (r_commands r !! slot) in
    let next := next_delay turn target phase current in
    let change := next - current in
    if Z.abs change <=? SLOT_MIN_CHANGE_US then r
    else mkRound (<[slot := next]> (r_commands r)) ({[slot]} ∪ r_fence r) (r_out r ++ [(slot, next)])
           (Z.max (r_widest r) (Z.abs change)).

Definition correct_all (c : PhaseController) (target : Z) (phases : list (Z * Z)) : Round :=
  foldl (correct_slot (turn_us c) target) (mkRound (commanded_us c) (awaiting_ack c) [] 0) phases.

(** The time the slowest commanded slew needs. *)
Definition slew_of (widest : Z) : Z :=
  from_micros (Z.min u64_max (widest * 1000000) / SLEW_US_PER_S).

(** The body below the schedule and health gates. *)
Definition align (c : PhaseController) (now : Z) (phases : list (Z * Z)) : list (Z * Z) * PhaseController :=
  let g := widest_gap (turn_us c) phases.*2 in
  let span := turn_us c - g.1 in
  let c := set_span c span in
  if span <=? SPAN_DEAD_BAND_US then ([], set_next (set_rounds c 0 (disabled c)) (now + IDLE_REEVAL))
  else
    let rounds := unconverged_rounds c + 1 in
    if MAX_UNCONVERGED_ROUNDS <=? rounds then ([], set_rounds c rounds true)
    else
      let c := set_rounds c rounds (disabled c) in
      let target := default 0 (phases.*2 !! g.2) in
      let r := correct_all c target phases in
      match r_out r with
      | [] => ([], set_next c (now + IDLE_REEVAL))
      | out =>
          (out, set_next (set_commands c (r_commands r) (r_fence r) (corrections_issued c + Z.of_nat (length out)))
                  (now + slew_of (r_widest r) + SETTLE))
      end.

Definition evaluate (c : PhaseController) (now : Z) : list (Z * Z) * PhaseController :=
  if disabled c then ([], c)
  else
    match next_eval_at c with
    | None => ([], c)
    | Some at_ =>
        if now <? at_ then ([], c)
        else if active_unhealthy c now then ([], set_next c (now + IDLE_REEVAL))
        else
          let phases := phases_of c now in
          if (length phases <? 2)%nat then ([], set_next c (now + IDLE_REEVAL))
          else align c now phases
    end.

(** ** The pressure term, acknowledgements and teardown *)

Definition stretched (c : PhaseController) (now : Z) : bool :=
  existsb (fun '(_, e) => active e now &&
             match interval_us e with Some iv => INTERVAL_TOLERANCE_US <? iv - turn_us c | None => false end)
    (map_to_list (slots c)).

Definition stretch_turns (c : PhaseController) (now : Z) : Z * PhaseController :=
  if negb (stretched c now) then (0, set_stretch c None false)
  else
    let since := default now (stretch_since c) in
    if duration_since now since <? STRETCH_SUSTAIN then (0, set_stretch c (Some since) (stretch_pressing c))
    else (1, set_stretch c (Some since) true).

Definition commanded (c : PhaseController) (slot : Z) : option Z := commanded_us c !! slot.

Definition note_applied (c : PhaseController) (slot delay_us now : Z) : PhaseController :=
  if bool_decide (commanded_us c !! slot = Some delay_us) && bool_decide (slot ∈ awaiting_ack c) then
    let deadline := now + slew_of SLOT_MAX_CHANGE_US + SETTLE in
    set_next (set_commands c (commanded_us c) (awaiting_ack c ∖ {[slot]}) (corrections_issued c))
      match next_eval_at c with Some at_ => Z.max at_ deadline | None => deadline end
  else c.

Definition remove_slot (c : PhaseController) (slot : Z) : PhaseController := set_slots c (delete slot (slots c)).

(** ** The rounds *)

Implicit Types (c : PhaseController).

Definition current_of c (slot : Z) : Z := default 0 (commanded_us c !! slot).

(** What a round may do to the commands: each slot it names was unfenced, moves
    by more than the noise floor and at most the cap, stays in the cycle and is
    fenced; every other slot is left alone. *)
Record round_ok c (r : Round) : Prop := {
  ro_in : forall slot d, (slot, d) ∈ r_out r ->
    (slot ∉ awaiting_ack c) /\ r_commands r !! slot = Some d /\ (slot ∈ r_fence r) /\ 0 <= d < turn_us c /\
    SLOT_MIN_CHANGE_US < Z.abs (d - current_of c slot) <= SLOT_MAX_CHANGE_US /\
    Z.abs (d - current_of c slot) <= r_widest r;
  ro_out : forall slot, slot ∉ (r_out r).*1 ->
    r_commands r !! slot = commanded_us c !! slot /\ (slot ∈ r_fence r <-> slot ∈ awaiting_ack c);
  ro_nodup : NoDup (r_out r).*1;
}.

Definition commands_ok c : Prop := 0 < turn_us c /\ map_Forall (fun _ d => 0 <= d < turn_us c) (commanded_us c).

Lemma current_range c slot : commands_ok c -> 0 <= current_of c slot < turn_us c.
Proof.
  intros [Ht Hc]. unfold current_of. destruct (commanded_us c !! slot) as [d|] eqn:Hd; cbn; [by apply (Hc slot)|lia].
Qed.

Lemma next_delay_bounds turn target phase current :
  0 <= current < turn ->
  0 <= next_delay turn target phase current < turn /\
  Z.abs (next_delay turn target phase current - current) <= SLOT_MAX_CHANGE_US.
Proof.
  intros Hc. unfold next_delay. destruct (_ && _); unfold clamp, SLOT_MAX_CHANGE_US; lia.
Qed.

Lemma round_init c : round_ok c (mkRound (commanded_us c) (awaiting_ack c) [] 0).
Proof. split; cbn; [set_solver|done|constructor]. Qed.

Lemma correct_slot_ok c target r sp : commands_ok c -> round_ok c r -> round_ok c (correct_slot (turn_us c) target r sp).
Proof.
  intros Hcmd [Hin Hout Hnd]. destruct sp as [slot phase]. unfold correct_slot. case_bool_decide as Hf; [done|].
  assert (Hnew : slot ∉ (r_out r).*1).
  { intros ([s d] & -> & Hs)%list_elem_of_fmap. apply Hf. by apply (Hin s d). }
  destruct (Hout _ Hnew) as [Hc Hfe]. rewrite Hc. fold (current_of c slot).
  destruct (next_delay_bounds (turn_us c) target phase (current_of c slot)) as [Hr Hmax]; [by apply current_range|].
  set (next := next_delay _ _ _ _) in *. destruct (Z.leb_spec (Z.abs (next - current_of c slot)) SLOT_MIN_CHANGE_US) as [|Hmin]; [done|].
  split; cbn.
  - intros s d [Hs|[= -> ->]%list_elem_of_singleton]%elem_of_app.
    + destruct (Hin s d Hs) as (H1 & H2 & H3 & H4 & H5 & H6). split_and!; try done; try lia; [|set_solver].
      rewrite lookup_insert_ne; [done|]. intros ->. apply Hnew, list_elem_of_fmap. by exists (s, d).
    + rewrite lookup_insert_eq. split_and!; try done; try lia; [by rewrite <-Hfe|set_solver].
  - intros s Hs. rewrite fmap_app, elem_of_app in Hs. cbn in Hs.
    assert (Hne : slot <> s) by (intros ->; apply Hs; right; by left). destruct (Hout s) as [Ho1 Ho2]; [tauto|].
    rewrite lookup_insert_ne by done. split; [done|]. set_solver.
  - rewrite fmap_app. apply NoDup_app. split; [done|]. split; [|apply NoDup_singleton]. cbn. set_solver.
Qed.

Lemma correct_all_ok c target phases : commands_ok c -> round_ok c (correct_all c target phases).
Proof.
  intros Hc. unfold correct_all. generalize (round_init c). generalize (mkRound (commanded_us c) (awaiting_ack c) [] 0).
  induction phases as [|sp l IH]; intros r Hr; [done|]. cbn. by apply IH, correct_slot_ok.
Qed.

(** One evaluation, on every path. *)
Lemma evaluate_spec c now out c' :
  commands_ok c -> evaluate c now = (out, c') ->
  exists r, round_ok c r /\ r_out r = out /\ commanded_us c' = r_commands r /\ awaiting_ack c' = r_fence r /\
    turn_us c' = turn_us c /\
    (out <> [] -> next_eval_at c' = Some (now + slew_of (r_widest r) + SETTLE) /\ active_unhealthy c now = false).
Proof.
  intros Hcmd He.
  assert (Hnone : forall c0, commanded_us c0 = commanded_us c -> awaiting_ack c0 = awaiting_ack c -> turn_us c0 = turn_us c ->
    ([], c0) = (out, c') -> exists r, round_ok c r /\ r_out r = out /\ commanded_us c' = r_commands r /\
      awaiting_ack c' = r_fence r /\ turn_us c' = turn_us c /\
      (out <> [] -> next_eval_at c' = Some (now + slew_of (r_widest r) + SETTLE) /\ active_unhealthy c now = false)).
  { intros c0 H1 H2 H3 [= <- <-]. exists (mkRound (commanded_us c) (awaiting_ack c) [] 0). by split; [apply round_init|]. }
  unfold evaluate in He. destruct (disabled c); [by apply (Hnone c)|]. destruct (next_eval_at c) as [at_|]; [|by apply (Hnone c)].
  destruct (now <? at_); [by apply (Hnone c)|]. destruct (active_unhealthy c now) eqn:Hun; [by eapply Hnone, He|].
  destruct (_ <? 2)%nat; [by eapply Hnone, He|]. unfold align in He.
  destruct (_ <=? SPAN_DEAD_BAND_US); [by eapply Hnone, He|]. destruct (_ <=? _); [by eapply Hnone, He|].
  set (c1 := set_rounds _ _ _) in He. set (target := default 0 _) in He.
  pose proof (correct_all_ok c1 target (phases_of c now) Hcmd) as Hok.
  change (correct_all c1 target) with (correct_all c target) in *.
  assert (Hok' : round_ok c (correct_all c target (phases_of c now))) by (destruct Hok; by split).
  destruct (r_out (correct_all c target (phases_of c now))) as [|o os] eqn:Hout; [by eapply Hnone, He|].
  injection He as <- <-. eexists. split; [exact Hok'|]. by rewrite Hout.
Qed.

(** ** Runs *)

Inductive PhaseOp : Type :=
| Arrive (slot seq : Z)
| Evaluate
| Applied (slot delay_us : Z)
| Remove (slot : Z)
| Stretch.

(** An operation at an instant: what it answers the client edge, and the
    controller after it. *)
Definition phase_step c (o : Z * PhaseOp) : list (Z * Z) * PhaseController :=
  let '(now, op) := o in
  match op with
  | Arrive slot seq => ([], note_arrival c slot seq now)
  | Evaluate => evaluate c now
  | Applied slot d => ([], note_applied c slot d now)
  | Remove slot => ([], remove_slot c slot)
  | Stretch => ([], (stretch_turns c now).2)
  end.

Definition phase_after c (ops : list (Z * PhaseOp)) : PhaseController := foldl (fun c o => (phase_step c o).2) c ops.

(** Only an evaluation or an acknowledgement touches the commands. *)
Lemma note_arrival_frame c slot seq now :
  let c' := note_arrival c slot seq now in
  turn_us c' = turn_us c /\ commanded_us c' = commanded_us c /\ awaiting_ack c' = awaiting_ack c /\
  disabled c' = disabled c /\ unconverged_rounds c' = unconverged_rounds c /\
  next_eval_at c' = match next_eval_at c with None => Some (now + FIRST_EVAL_DELAY) | Some t => Some t end.
Proof.
  unfold note_arrival. cbn. destruct (i64_try_from _); [|done]. destruct (_ ≫= _); [|done].
  destruct (slots c !! slot) as [e|]; [|done]. by destruct (seq <=? last_seq e).
Qed.

Lemma stretch_frame c now :
  let c' := (stretch_turns c now).2 in
  turn_us c' = turn_us c /\ commanded_us c' = commanded_us c /\ awaiting_ack c' = awaiting_ack c /\
  disabled c' = disabled c /\ unconverged_rounds c' = unconverged_rounds c /\ next_eval_at c' = next_eval_at c.
Proof. unfold stretch_turns. destruct (negb _); [done|]. by destruct (_ <? _). Qed.

Lemma applied_frame c slot d now :
  let c' := note_applied c slot d now in
  turn_us c' = turn_us c /\ commanded_us c' = commanded_us c /\ disabled c' = disabled c /\
  unconverged_rounds c' = unconverged_rounds c.
Proof. unfold note_applied. by destruct (_ && _). Qed.

Lemma step_commands_ok c o : commands_ok c -> commands_ok (phase_step c o).2.
Proof.
  intros [Ht Hc]. destruct o as [now [slot seq| |slot d|slot|]]; cbn.
  - destruct (note_arrival_frame c slot seq now) as (H1 & H2 & _). unfold commands_ok. by rewrite H1, H2.
  - destruct (evaluate c now) as [out c'] eqn:He. destruct (evaluate_spec c now out c' (conj Ht Hc) He) as (r & [Hin Hout _] & Ho & Hcmd & _ & Htu & _).
    cbn. split; [lia|]. rewrite Hcmd, Htu. intros slot d Hd. destruct (decide (slot ∈ (r_out r).*1)) as [Hs|Hs].
    + apply list_elem_of_fmap in Hs as ([s d'] & -> & Hs). destruct (Hin _ _ Hs) as (_ & Hl & _ & Hr & _). cbn in *. congruence.
    + destruct (Hout _ Hs) as [Hl _]. rewrite Hl in Hd. by apply (Hc slot).
  - destruct (applied_frame c slot d now) as (H1 & H2 & _). unfold commands_ok. by rewrite H1, H2.
  - done.
  - destruct (stretch_frame c now) as (H1 & H2 & _). unfold commands_ok. by rewrite H1, H2.
Qed.

Lemma after_commands_ok c ops : commands_ok c -> commands_ok (phase_after c ops).
Proof. revert c. induction ops as [|o ops IH]; intros c Hc; [done|]. cbn. by apply IH, step_commands_ok. Qed.

Lemma new_commands_ok turn : 0 <= turn -> commands_ok (new turn).
Proof. intros Ht. split; [|apply map_Forall_empty]. unfold new. cbn. destruct (Z.eqb_spec turn 0); [done|lia]. Qed.

(** A slot that is fenced and does not echo its command keeps both. *)
Lemma fenced_step c o slot d :
  commands_ok c -> slot ∈ awaiting_ack c -> commanded_us c !! slot = Some d ->
  o.2 <> Applied slot d ->
  slot ∈ awaiting_ack (phase_step c o).2 /\ commanded_us (phase_step c o).2 !! slot = Some d /\
  slot ∉ (phase_step c o).1.*1.
Proof.
  intros Hok Hf Hd Hno. destruct o as [now [s q| |s d'|s|]]; cbn in *.
  - destruct (note_arrival_frame c s q now) as (_ & -> & -> & _). set_solver.
  - destruct (evaluate c now) as [out c'] eqn:He.
    destruct (evaluate_spec c now out c' Hok He) as (r & [Hin Hout _] & Ho & Hcmd & Hfe & _). cbn.
    assert (Hs : slot ∉ (r_out r).*1).
    { intros ([s d'] & -> & Hs)%list_elem_of_fmap. by destruct (Hin _ _ Hs) as (Hn & _). }
    destruct (Hout _ Hs) as [Hl Hff]. rewrite Hcmd, Hfe, Hl, Hff, <-Ho. done.
  - split; [|split; [|set_solver]].
    + unfold note_applied. destruct (_ && _) eqn:Hc; [|done]. apply andb_true_iff in Hc as [Hc%bool_decide_eq_true _].
      cbn. assert (s <> slot) by (intros ->; congruence). set_solver.
    + destruct (applied_frame c s d' now) as (_ & -> & _). done.
  - set_solver.
  - destruct (stretch_frame c now) as (_ & -> & -> & _). set_solver.
Qed.

Lemma fenced_run c ops slot d :
  commands_ok c -> slot ∈ awaiting_ack c -> commanded_us c !! slot = Some d ->
  (forall t, (t, Applied slot d) ∉ ops) ->
  slot ∈ awaiting_ack (phase_after c ops) /\ commanded_us (phase_after c ops) !! slot = Some d.
Proof.
  revert c. induction ops as [|[t o] ops IH]; intros c Hok Hf Hd Hno; [done|].
  assert (Hne : o <> Applied slot d) by (intros ->; apply (Hno t); left).
  destruct (fenced_step c (t, o) slot d Hok Hf Hd Hne) as (Hf' & Hd' & _).
  apply (IH (phase_step c (t, o)).2); [by apply step_commands_ok|done|done|]. intros t' Hin. apply (Hno t'). by right.
Qed.

(** ** The schedule *)

Lemma next_eval_step c o at_ :
  next_eval_at c = Some at_ -> o.1 < at_ ->
  (phase_step c o).1 = [] /\ exists at', next_eval_at (phase_step c o).2 = Some at' /\ at_ <= at'.
Proof.
  intros Hn Ht. destruct o as [now [s q| |s d|s|]]; cbn in *.
  - destruct (note_arrival_frame c s q now) as (_ & _ & _ & _ & _ & ->). rewrite Hn. split; [done|]. exists at_. by split.
  - unfold evaluate. rewrite Hn. destruct (disabled c); [split; [done|]; exists at_; by split|].
    rewrite (proj2 (Z.ltb_lt now at_)) by done. split; [done|]. exists at_. by split.
  - split; [done|]. unfold note_applied. destruct (_ && _); [|exists at_; by split]. cbn. rewrite Hn.
    eexists. split; [done|]. lia.
  - split; [done|]. exists at_. by split.
  - destruct (stretch_frame c now) as (_ & _ & _ & _ & _ & ->). rewrite Hn. split; [done|]. exists at_. by split.
Qed.

Lemma next_eval_run c ops at_ :
  next_eval_at c = Some at_ -> Forall (fun o => o.1 < at_) ops ->
  exists at', next_eval_at (phase_after c ops) = Some at' /\ at_ <= at'.
Proof.
  revert c. enough (H : forall c at0, at_ <= at0 -> next_eval_at c = Some at0 -> Forall (fun o => o.1 < at_) ops ->
    exists at', next_eval_at (phase_after c ops) = Some at' /\ at_ <= at') by (intros c; by apply H).
  induction ops as [|o ops IH]; intros c at0 Hle Hn Hops; [by exists at0|].
  apply Forall_cons in Hops as [Ho Hops]. destruct (next_eval_step c o at0 Hn) as (_ & at' & Hn' & Hle'); [lia|].
  cbn. apply (IH _ at'); [lia|done|done].
Qed.

(** ** The latch *)

Definition latch_ok c : Prop := 0 <= unconverged_rounds c <= MAX_UNCONVERGED_ROUNDS /\
  (unconverged_rounds c = MAX_UNCONVERGED_ROUNDS -> disabled c = true).

Lemma step_latch c o : latch_ok c -> latch_ok (phase_step c o).2 /\ (disabled c = true -> disabled (phase_step c o).2 = true).
Proof.
  unfold latch_ok. intros [Hr Hd]. destruct o as [now [s q| |s d|s|]]; cbn.
  - destruct (note_arrival_frame c s q now) as (_ & _ & _ & -> & -> & _). done.
  - unfold evaluate. remember (disabled c) as dis eqn:Hdis. symmetry in Hdis. destruct dis; [by cbn; rewrite Hdis|].
    destruct (next_eval_at c) as [a|]; [|by cbn; rewrite Hdis].
    assert (Hlt : unconverged_rounds c <> MAX_UNCONVERGED_ROUNDS) by (intros H; by specialize (Hd H)).
    destruct (now <? a); [by cbn; rewrite ?Hdis|]. destruct (active_unhealthy c now); [by cbn; rewrite ?Hdis|].
    destruct (_ <? 2)%nat; [by cbn; rewrite ?Hdis|]. unfold align. unfold MAX_UNCONVERGED_ROUNDS in *.
    destruct (_ <=? SPAN_DEAD_BAND_US); [cbn; split; [lia|done]|].
    destruct (Z.leb_spec 8 (unconverged_rounds (set_span c (turn_us c - (widest_gap (turn_us c) (phases_of c now).*2).1)) + 1)) as [H8|H8];
      cbn in H8; [cbn; split; [split; [lia|done]|done]|].
    destruct (r_out _); cbn; (split; [lia|done]).
  - destruct (applied_frame c s d now) as (_ & _ & -> & ->). done.
  - done.
  - destruct (stretch_frame c now) as (_ & _ & _ & -> & -> & _). done.
Qed.

(** ** The cluster *)

Definition gap_at (turn first : Z) (this : Z) (rest : list Z) : Z :=
  rem_euclid (match rest with [] => first | n :: _ => n end - this) turn.

(** The scan returns a gap at least as wide as every other, and the position it
    was found at unless no gap beat the start value. *)
Lemma widest_from_spec turn first l i best :
  let r := widest_from turn first l i best in
  best.1 <= r.1 /\
  (forall j this, l !! j = Some this -> gap_at turn first this (drop (S j) l) <= r.1) /\
  (r = best \/ exists j this, r.2 = (i + j)%nat /\ l !! j = Some this /\ gap_at turn first this (drop (S j) l) = r.1 /\
     best.1 < r.1).
Proof.
  revert i best. induction l as [|x l IH]; intros i best; cbn [widest_from].
  { split; [lia|]. split; [done|]. by left. }
  fold (gap_at turn first x l). set (best' := if best.1 <? gap_at turn first x l then _ else _).
  destruct (IH (S i) best') as (Hb & Hall & Hcase).
  assert (Hb' : best.1 <= best'.1 /\ gap_at turn first x l <= best'.1).
  { unfold best'. destruct (Z.ltb_spec best.1 (gap_at turn first x l)); cbn; lia. }
  split; [lia|]. split.
  - intros [|j] this Hj; cbn in Hj |- *; [injection Hj as ->; rewrite drop_0; lia|by apply Hall].
  - destruct Hcase as [Heq|(j & this & Hi & Hj & Hg & Hlt)].
    + rewrite Heq. unfold best'. destruct (Z.ltb_spec best.1 (gap_at turn first x l)) as [Hlt|]; [right|by left].
      exists 0%nat, x. cbn. rewrite drop_0. split; [lia|]. split; [done|]. split; [done|lia].
    + right. exists (S j), this. cbn. split; [lia|]. split; [done|]. split; [done|lia].
Qed.

Lemma mod_back a m : - m < a < 0 -> a mod m = a + m.
Proof. intros Ha. replace a with (a + m + (-1) * m) at 1 by lia. rewrite Z.mod_add, Z.mod_small by lia. lia. Qed.

Lemma sorted_lookup (l : list Z) i j x y :
  StronglySorted Z.le l -> (i <= j)%nat -> l !! i = Some x -> l !! j = Some y -> x <= y.
Proof.
  intros Hs. revert i j. induction Hs as [|z l Hs IH Hz]; intros i j Hij Hi Hj; [done|].
  destruct i as [|i], j as [|j]; cbn in *; try lia.
  - simplify_eq. lia.
  - injection Hi as ->. by apply (proj1 (Forall_forall _ _) Hz), (list_elem_of_lookup_2 _ j).
  - apply (IH i j); [lia|done|done].
Qed.

(** Every phase lies within the span behind the target, going round the cycle. *)
Lemma cluster_covers turn (l : list Z) :
  0 < turn -> StronglySorted Z.le l -> Forall (fun p => 0 <= p < turn) l -> l <> [] ->
  let g := widest_gap turn l in
  exists target, l !! g.2 = Some target /\
    forall p, p ∈ l -> rem_euclid (target - p) turn <= turn - g.1.
Proof.
  intros Ht Hs Hr Hne g.
  assert (exists x0, l !! 0%nat = Some x0 /\ hd 0 l = x0) as (x0 & Hx0 & Hhd) by (destruct l; [done|by eexists]).
  destruct (widest_from_spec turn (hd 0 l) l 0 (0, 0%nat)) as (Hb & Hall & Hcase). change (widest_from turn (hd 0 l) l 0 (0, 0%nat)) with g in Hb, Hall, Hcase.
  cbn [fst] in Hb. unfold rem_euclid.
  destruct Hcase as [Heq|(j & target & Hj & Htg & Hg & Hlt)].
  { rewrite Heq. exists x0. cbn. split; [done|]. intros p _. pose proof (Z.mod_pos_bound (x0 - p) turn Ht). lia. }
  cbn [fst] in Hlt. rewrite Nat.add_0_l in Hj. rewrite Hj. exists target. split; [done|].
  rewrite Hhd in Hg.
  assert (Hin : forall k p, l !! k = Some p -> 0 <= p < turn).
  { intros k p Hk. by apply (proj1 (Forall_forall _ _) Hr), (list_elem_of_lookup_2 _ k). }
  pose proof (Hin _ _ Hx0) as Hr0. pose proof (Hin _ _ Htg) as Hrt.
  pose proof (sorted_lookup l 0 j x0 target Hs ltac:(lia) Hx0 Htg) as Hle0.
  unfold gap_at, rem_euclid in Hg.
  intros p (k & Hk)%list_elem_of_lookup_1. pose proof (Hin _ _ Hk) as Hrp.
  pose proof (sorted_lookup l 0 k x0 p Hs ltac:(lia) Hx0 Hk) as Hle0p.
  destruct (drop (S j) l) as [|nx rest] eqn:Hd.
  - assert (Hkj : (k <= j)%nat).
    { apply lookup_lt_Some in Hk. apply (f_equal length) in Hd. rewrite length_drop in Hd. cbn in Hd. lia. }
    pose proof (sorted_lookup l k j p target Hs Hkj Hk Htg). rewrite (Z.mod_small (target - p)) by lia.
    destruct (decide (x0 = target)) as [->|Hxt]; [rewrite Z.sub_diag, Z.mod_0_l in Hg by lia; lia|].
    rewrite mod_back in Hg by lia. lia.
  - assert (Hnx : l !! S j = Some nx).
    { replace (S j) with (S j + 0)%nat by lia. rewrite <-lookup_drop, Hd. done. }
    pose proof (Hin _ _ Hnx) as Hrn. pose proof (sorted_lookup l j (S j) target nx Hs ltac:(lia) Htg Hnx).
    rewrite (Z.mod_small (nx - target)) in Hg by lia.
    destruct (decide (k <= j)%nat) as [Hkj|Hkj].
    + pose proof (sorted_lookup l k j p target Hs Hkj Hk Htg). rewrite Z.mod_small by lia. lia.
    + pose proof (sorted_lookup l (S j) k nx p Hs ltac:(lia) Hnx Hk).
      destruct (decide (p = target)) as [->|Hpt]; [rewrite Z.sub_diag, Z.mod_0_l by lia; lia|].
      rewrite mod_back by lia. lia.
Qed.

(** The measurable population is sorted, in the cycle, one phase per slot. *)
Lemma phases_sorted c now : StronglySorted Z.le (phases_of c now).*2.
Proof.
  assert (Hs : StronglySorted phase_le (phases_of c now)).
  { apply Sorted_StronglySorted; [intros [??] [??] [??]; unfold phase_le; cbn; lia|].
    apply Sorted_merge_sort. intros [??] [??]. unfold phase_le. cbn. lia. }
  induction Hs as [|[s p] l Hs IH Hf]; cbn; constructor; [done|].
  apply Forall_fmap. eapply Forall_impl; [exact Hf|]. by intros [??].
Qed.

Lemma phases_range c now : 0 < turn_us c -> Forall (fun p => 0 <= p < turn_us c) (phases_of c now).*2.
Proof.
  intros Ht. unfold phases_of. rewrite merge_sort_Permutation. rewrite <-list_fmap_compose. apply Forall_fmap, Forall_true.
  intros [s e]. cbn. by apply Z.mod_pos_bound.
Qed.

(** ** Widths *)

Lemma ewma_between a b : Z.min a b <= ewma a b <= Z.max a b.
Proof.
  unfold ewma, EWMA_SHIFT. rewrite Z.shiftr_div_pow2 by lia. change (2 ^ 5) with 32.
  pose proof (Z.mul_div_le (b - a) 32 ltac:(lia)). pose proof (Z.mul_succ_div_gt (b - a) 32 ltac:(lia)). lia.
Qed.

(** An estimate as of an instant: its residual is no later than its newest
    sample and no earlier than that sample's turns account for, and its interval
    is within the fold's clamp. *)
Record est_ok (turn ep t : Z) (e : SlotPhase) : Prop := {
  es_sample : ep <= last_sample e <= t;
  es_seq : 0 <= last_seq e * turn <= i64_max;
  es_residual : - (last_seq e * turn) <= residual_us e <= as_micros (last_sample e - ep);
  es_interval : forall iv, interval_us e = Some iv -> 0 <= iv <= 4 * turn;
}.

Definition estimates_ok (t : Z) c : Prop :=
  0 < turn_us c <= u32_max /\
  match epoch c with
  | None => slots c = ∅
  | Some ep => ep <= t /\ map_Forall (fun _ => est_ok (turn_us c) ep t) (slots c)
  end.

(** Every intermediate value of [note_arrival]'s fold, in the code's [i64]. *)
Definition arrival_in_range c (slot seq now : Z) : Prop :=
  forall elapsed expected,
    i64_try_from (as_micros (duration_since now (default now (epoch c)))) = Some elapsed ->
    i64_try_from seq ≫= (fun s => i64_checked_mul s (turn_us c)) = Some expected ->
    is_i64 (elapsed - expected) /\
    forall e, slots c !! slot = Some e -> last_seq e < seq ->
      is_i64 (elapsed - expected - residual_us e) /\ is_i64 (ewma (residual_us e) (elapsed - expected)) /\
      forall iv, fold_interval (turn_us c) e seq now = Some iv -> is_i64 (iv - turn_us c) /\ 0 <= iv <= 4 * turn_us c.

Lemma as_micros_mono a b : a <= b -> as_micros a <= as_micros b.
Proof. intros. unfold as_micros, NANOS_PER_MICRO. apply Z.div_le_mono; lia. Qed.

Lemma i64_try_from_Some x y : i64_try_from x = Some y -> y = x /\ x <= i64_max.
Proof. unfold i64_try_from. destruct (Z.leb_spec x i64_max); [intros [= <-]; done|done]. Qed.

Lemma fold_interval_range turn ep t e seq now iv :
  0 < turn <= u32_max -> est_ok turn ep t e -> fold_interval turn e seq now = Some iv -> 0 <= iv <= 4 * turn.
Proof.
  intros Ht [_ _ _ Hiv]. unfold fold_interval. destruct (_ && _) eqn:Hr; [|apply Hiv].
  apply andb_true_iff in Hr as [H1%Z.leb_le H4%Z.leb_le].
  destruct (i64_try_from _) as [gap|] eqn:Hg; [|apply Hiv]. apply i64_try_from_Some in Hg as [Hg _].
  assert (0 <= gap) by (subst; unfold as_micros, duration_since, saturating_sub, NANOS_PER_MICRO; apply Z.div_pos; lia).
  assert (Hi : 0 <= Z.min (Z.quot gap (seq - last_seq e)) (i64_saturating_mul turn 4) <= 4 * turn).
  { assert (0 <= Z.quot gap (seq - last_seq e)) by (apply Z.quot_pos; lia).
    unfold i64_saturating_mul, i64_max, u32_max in *. lia. }
  intros [= <-]. destruct (interval_us e) as [prior|]; [|done].
  pose proof (Hiv prior eq_refl). pose proof (ewma_between prior (Z.min (Z.quot gap (seq - last_seq e)) (i64_saturating_mul turn 4))). lia.
Qed.

(** The residual of a sample of a later sequence number. *)
Lemma arrival_residual c seq now elapsed expected :
  0 < turn_us c -> 0 <= seq -> default now (epoch c) <= now ->
  i64_try_from (as_micros (duration_since now (default now (epoch c)))) = Some elapsed ->
  i64_try_from seq ≫= (fun s => i64_checked_mul s (turn_us c)) = Some expected ->
  0 <= elapsed <= i64_max /\ (0 <= expected <= i64_max /\ expected = seq * turn_us c) /\
  elapsed = as_micros (now - default now (epoch c)).
Proof.
  intros Ht Hs Hn Hel Hex. apply i64_try_from_Some in Hel as [-> Hmax].
  assert (duration_since now (default now (epoch c)) = now - default now (epoch c)) as Hd.
  { unfold duration_since, saturating_sub. lia. }
  rewrite Hd in *. split; [|split; [|done]].
  - split; [|done]. unfold as_micros, NANOS_PER_MICRO. apply Z.div_pos; lia.
  - destruct (i64_try_from seq) as [q|] eqn:Hq; [|done]. apply i64_try_from_Some in Hq as [-> _]. cbn in Hex.
    unfold i64_checked_mul in Hex. destruct (_ && _) eqn:Hr; [|done]. injection Hex as <-.
    apply andb_true_iff in Hr as [_ Hr%Z.leb_le]. split; [split; [nia|done]|done].
Qed.

Lemma arrival_range_ok t c slot seq now :
  estimates_ok t c -> t <= now -> 0 <= seq -> arrival_in_range c slot seq now.
Proof.
  intros [Ht Hep] Hnow Hseq elapsed expected Hel Hex.
  assert (Hn : default now (epoch c) <= now) by (destruct (epoch c); cbn in *; [destruct Hep|]; lia).
  destruct (arrival_residual c seq now elapsed expected ltac:(lia) Hseq Hn Hel Hex) as (He & [Hx Hxs] & Hdef).
  split; [unfold is_i64; lia|]. intros e Hs Hlt.
  destruct (epoch c) as [ep|] eqn:Hepo; [|rewrite Hep, lookup_empty in Hs; done].
  destruct Hep as [Hept Hall]. pose proof (Hall _ _ Hs) as Hok. pose proof Hok as [Hsmp Hsq Hres _]. cbn in Hn, Hdef.
  assert (Hle : as_micros (last_sample e - ep) <= elapsed) by (rewrite Hdef; apply as_micros_mono; lia).
  assert (last_seq e * turn_us c <= expected) by (rewrite Hxs; nia).
  pose proof (ewma_between (residual_us e) (elapsed - expected)). unfold is_i64 in *. split; [lia|]. split; [lia|].
  intros iv Hiv. pose proof (fold_interval_range _ _ _ _ _ _ _ Ht Hok Hiv). unfold i64_max, u32_max in *. lia.
Qed.

Lemma est_ok_later turn ep t t' e : t <= t' -> est_ok turn ep t e -> est_ok turn ep t' e.
Proof. intros Ht [H1 H2 H3 H4]. split; [lia|done..]. Qed.

Lemma arrival_estimates_ok t c slot seq now :
  estimates_ok t c -> t <= now -> 0 <= seq -> estimates_ok now (note_arrival c slot seq now).
Proof.
  intros Hok Hnow Hseq. pose proof (arrival_range_ok t c slot seq now Hok Hnow Hseq) as Hrange. destruct Hok as [Ht Hep].
  assert (Hn : default now (epoch c) <= now) by (destruct (epoch c); cbn in *; [destruct Hep|]; lia).
  assert (Hall : map_Forall (fun _ => est_ok (turn_us c) (default now (epoch c)) now) (slots c)).
  { destruct (epoch c) as [ep|]; [|rewrite Hep; apply map_Forall_empty]. cbn.
    eapply map_Forall_impl; [apply Hep|]. intros ? ? He. by apply (est_ok_later _ _ t). }
  unfold note_arrival. cbn [set_schedule turn_us slots].
  destruct (i64_try_from (as_micros _)) as [elapsed|] eqn:Hel; [|by split].
  destruct (i64_try_from seq ≫= _) as [expected|] eqn:Hex; [|by split].
  destruct (Hrange elapsed expected Hel Hex) as [_ Hslot].
  destruct (arrival_residual c seq now elapsed expected ltac:(lia) Hseq Hn Hel Hex) as (He & [Hx Hxs] & Hdef).
  destruct (slots c !! slot) as [e|] eqn:Hs.
  - destruct (Z.leb_spec seq (last_seq e)); [by split|]. split; [done|]. split; [done|]. cbn.
    apply map_Forall_insert_2; [|done]. pose proof (Hall _ _ Hs) as Hok. pose proof Hok as [Hsmp Hsq Hres _].
    assert (Hle : as_micros (last_sample e - default now (epoch c)) <= elapsed) by (rewrite Hdef; apply as_micros_mono; lia).
    assert (last_seq e * turn_us c <= expected) by (rewrite Hxs; nia).
    pose proof (ewma_between (residual_us e) (elapsed - expected)).
    split; cbn; [lia|lia|rewrite <-Hdef; lia|]. intros iv Hiv. by eapply (fold_interval_range (turn_us c) (default now (epoch c)) now e seq now iv).
  - split; [done|]. split; [done|]. cbn. apply map_Forall_insert_2; [|done]. split; cbn; [lia|lia|rewrite <-Hdef; lia|done].
Qed.

Lemma estimates_later t t' c : t <= t' -> estimates_ok t c -> estimates_ok t' c.
Proof.
  intros Ht [Hu Hep]. split; [done|]. destruct (epoch c); [|done]. destruct Hep as [H1 H2]. split; [lia|].
  eapply map_Forall_impl; [exact H2|]. intros ? ? He. by apply (est_ok_later _ _ t).
Qed.

Lemma evaluate_estimates c now :
  let c' := (evaluate c now).2 in turn_us c' = turn_us c /\ epoch c' = epoch c /\ slots c' = slots c.
Proof.
  unfold evaluate. destruct (disabled c); [done|]. destruct (next_eval_at c); [|done]. destruct (_ <? _); [done|].
  destruct (active_unhealthy c now); [done|]. destruct (_ <? 2)%nat; [done|]. unfold align.
  destruct (_ <=? SPAN_DEAD_BAND_US); [done|]. destruct (_ <=? _); [done|]. by destruct (r_out _).
Qed.

Definition op_valid (o : Z * PhaseOp) : Prop := match o.2 with Arrive _ seq => is_u64 seq | _ => True end.

Lemma step_estimates_ok t c o :
  estimates_ok t c -> t <= o.1 -> op_valid o -> estimates_ok o.1 (phase_step c o).2.
Proof.
  intros Hok Ht Hv. destruct o as [now [s q| |s d|s|]]; cbn in *.
  - eapply arrival_estimates_ok; [done|done|apply Hv].
  - destruct (evaluate_estimates c now) as (H1 & H2 & H3). unfold estimates_ok. rewrite H1, H2, H3. by eapply estimates_later.
  - unfold note_applied. destruct (_ && _); by apply (estimates_later t).
  - apply (estimates_later t); [done|]. destruct Hok as [Hu Hep]. split; [done|]. cbn. destruct (epoch c).
    + destruct Hep. split; [done|]. by apply map_Forall_delete.
    + rewrite Hep. apply delete_empty.
  - assert (Hs : turn_us (stretch_turns c now).2 = turn_us c /\ epoch (stretch_turns c now).2 = epoch c /\ slots (stretch_turns c now).2 = slots c).
    { unfold stretch_turns. destruct (negb _); [done|]. by destruct (_ <? _). }
    destruct Hs as (H1 & H2 & H3). unfold estimates_ok. rewrite H1, H2, H3. by eapply estimates_later.
Qed.

(** A run's instants do not go back. *)
Fixpoint in_order (t : Z) (ops : list (Z * PhaseOp)) : Prop :=
  match ops with [] => True | o :: ops => t <= o.1 /\ in_order o.1 ops end.

Lemma after_estimates_ok t c ops now :
  estimates_ok t c -> in_order t (ops ++ [(now, Evaluate)]) -> Forall op_valid ops -> estimates_ok now (phase_after c ops).
Proof.
  revert t c. induction ops as [|o ops IH]; intros t c Hok Hord Hv; cbn in Hord.
  - apply (estimates_later t); [lia|done].
  - destruct Hord as [Ht Hord]. apply Forall_cons in Hv as [Ho Hv]. apply (IH o.1 (phase_step c o).2); [|done|done].
    by eapply step_estimates_ok.
Qed.

(** ** Exactly equal phases *)

Lemma equal_phases_no_gap turn p l i best :
  0 < turn -> 0 <= best.1 -> Forall (fun x => x = p) l -> widest_from turn p l i best = best.
Proof.
  intros Ht Hb Hl. revert i best Hb. induction Hl as [|x l Hx Hl IH]; intros i best Hb; [done|]. cbn [widest_from].
  assert (Hg : rem_euclid (match l with [] => p | n :: _ => n end - x) turn = 0).
  { replace (match l with [] => p | n :: _ => n end) with x by (destruct Hl; congruence).
    unfold rem_euclid. rewrite Z.sub_diag. by apply Z.mod_0_l; lia. }
  rewrite Hg. rewrite (proj2 (Z.ltb_ge best.1 0)) by lia. by apply IH.
Qed.

(** Two slots fed at the nominal rate, the second [offset] microseconds after
    the first, with an evaluation after every turn. *)
Definition feed (turn offset : Z) (n : nat) : list (Z * PhaseOp) :=
  concat ((fun k => let t := from_micros (Z.of_nat k * turn) in
             [(t, Arrive 0 (Z.of_nat k)); (t + from_micros offset, Arrive 1 (Z.of_nat k));
              (t + from_micros offset, Evaluate)]) <$> seq 0 n).

(** ** Properties *)

(** The command fence holds against every interleaving: once a slot has been
    commanded a delay, then whatever arrives, is evaluated, echoed, torn down or
    measured afterwards, as long as the slot itself does not echo that delay its
    command stays what it was and no later evaluation names it again. *)
Theorem no_command_without_echo (turn : Z) (before mid : list (Z * PhaseOp)) (now later slot d : Z) :
  0 <= turn ->
  let c := phase_after (new turn) before in
  (slot, d) ∈ (evaluate c now).1 ->
  (forall t, (t, Applied slot d) ∉ mid) ->
  let c' := phase_after (evaluate c now).2 mid in
  commanded c' slot = Some d /\ slot ∉ (evaluate c' later).1.*1.
Proof.
  intros Ht c Hin Hmid c'.
  assert (Hok : commands_ok c) by by apply after_commands_ok, new_commands_ok.
  pose proof (step_commands_ok c (now, Evaluate) Hok) as Hok1. cbn in Hok1.
  destruct (evaluate c now) as [out c1] eqn:He. cbn [fst snd] in *.
  destruct (evaluate_spec c now out c1 Hok He) as (r & [Hrin _ _] & Ho & Hcmd & Hfe & _).
  rewrite <-Ho in Hin. destruct (Hrin _ _ Hin) as (_ & Hc & Hf & _). rewrite <-Hcmd in Hc. rewrite <-Hfe in Hf.
  destruct (fenced_run c1 mid slot d Hok1 Hf Hc Hmid) as [Hf' Hc']. split; [exact Hc'|].
  by destruct (fenced_step c' (later, Evaluate) slot d) as (_ & _ & Hno); [apply after_commands_ok| | | |].
Qed.

(** Every correction is bounded and absolute: in every reachable state an
    evaluation's corrections name distinct unfenced slots, each new delay is
    inside the turn interval and differs from the slot's previous one by more
    than the noise floor and at most the per-round cap, and no correction is
    issued while an active slot is off the turn cadence. *)
Theorem corrections_bounded (turn : Z) (ops : list (Z * PhaseOp)) (now : Z) :
  0 <= turn ->
  let c := phase_after (new turn) ops in
  let out := (evaluate c now).1 in
  NoDup out.*1 /\
  (out <> [] -> active_unhealthy c now = false) /\
  forall slot d, (slot, d) ∈ out ->
    (slot ∉ awaiting_ack c) /\ 0 <= d < turn_us c /\
    SLOT_MIN_CHANGE_US < Z.abs (d - default 0 (commanded c slot)) <= SLOT_MAX_CHANGE_US.
Proof.
  intros Ht c out. assert (Hok : commands_ok c) by by apply after_commands_ok, new_commands_ok.
  unfold out. destruct (evaluate c now) as [o c1] eqn:He. cbn [fst].
  destruct (evaluate_spec c now o c1 Hok He) as (r & [Hin _ Hnd] & <- & _ & _ & _ & Hne).
  split; [done|]. split; [by intros H; apply Hne|].
  intros slot d Hs. destruct (Hin _ _ Hs) as (H1 & _ & _ & H4 & H5 & _). done.
Qed.

(** The dwell: after corrections are issued nothing further is issued until
    every commanded slew has had time to finish at the stamped rate and the
    estimates a settling time on top, whatever else happens in between. *)
Theorem dwell_respected (turn : Z) (before mid : list (Z * PhaseOp)) (now later slot d : Z) :
  0 <= turn ->
  let c := phase_after (new turn) before in
  (slot, d) ∈ (evaluate c now).1 ->
  let deadline := now + slew_of (Z.abs (d - default 0 (commanded c slot))) + SETTLE in
  Forall (fun o => o.1 < deadline) mid -> later < deadline ->
  (evaluate (phase_after (evaluate c now).2 mid) later).1 = [].
Proof.
  intros Ht c Hin deadline Hmid Hlater.
  assert (Hok : commands_ok c) by by apply after_commands_ok, new_commands_ok.
  destruct (evaluate c now) as [out c1] eqn:He. cbn [fst snd] in *.
  destruct (evaluate_spec c now out c1 Hok He) as (r & [Hrin _ _] & Ho & _ & _ & _ & Hnx).
  rewrite <-Ho in Hin. destruct (Hrin _ _ Hin) as (_ & _ & _ & _ & _ & Hw).
  assert (Hne : out <> []) by (rewrite <-Ho; intros H; rewrite H in Hin; by apply not_elem_of_nil in Hin).
  destruct (Hnx Hne) as [Hat _]. set (at_ := now + slew_of (r_widest r) + SETTLE) in *.
  assert (Hdl : deadline <= at_).
  { unfold deadline, at_, slew_of, from_micros, SLEW_US_PER_S, NANOS_PER_MICRO. unfold current_of in Hw.
    change (commanded c slot) with (commanded_us c !! slot).
    assert (Z.min u64_max (Z.abs (d - default 0 (commanded_us c !! slot)) * 1000000) / 2000
            <= Z.min u64_max (r_widest r * 1000000) / 2000); [apply Z.div_le_mono; lia|lia]. }
  destruct (next_eval_run c1 mid at_ Hat) as (at' & Hn' & Hle).
  { eapply Forall_impl; [exact Hmid|]. cbn. lia. }
  by apply (next_eval_step (phase_after c1 mid) (later, Evaluate) at' Hn'); cbn; lia.
Qed.

(** The give-up latch is final and the search before it bounded: in every
    reachable state at most eight rounds have measured the population spread
    since it was last together, the eighth has disabled the controller, and a
    disabled controller issues nothing for the rest of the run. *)
Theorem give_up_latch (turn : Z) (ops later : list (Z * PhaseOp)) (now : Z) :
  let c := phase_after (new turn) ops in
  0 <= unconverged_rounds c <= MAX_UNCONVERGED_ROUNDS /\
  (unconverged_rounds c = MAX_UNCONVERGED_ROUNDS -> disabled c = true) /\
  (disabled c = true -> (evaluate (phase_after c later) now).1 = []).
Proof.
  intros c.
  assert (Hrun : forall l c0, latch_ok c0 -> latch_ok (phase_after c0 l) /\ (disabled c0 = true -> disabled (phase_after c0 l) = true)).
  { induction l as [|o l IH]; intros c0 H0; [done|]. destruct (step_latch c0 o H0) as [H1 H2].
    destruct (IH _ H1) as [H3 H4]. cbn [phase_after foldl]. split; [done|]. auto. }
  assert (Hnew : latch_ok (new turn)) by (split; [cbn; unfold MAX_UNCONVERGED_ROUNDS; lia|done]).
  destruct (Hrun ops _ Hnew) as [Hc _]. fold c in Hc. pose proof Hc as [H1 H2]. split; [done|]. split; [done|].
  intros Hd. destruct (Hrun later c Hc) as [_ Hlater]. unfold evaluate. by rewrite (Hlater Hd).
Qed.

(** The target is the right one: in the cycle of one turn interval, every
    measured slot's phase is at most the reported span behind the phase the
    round aligns to, so holding turns back by no more than the span brings all
    of them together. *)
Theorem target_leads_cluster (c : PhaseController) (now : Z) :
  0 < turn_us c -> phases_of c now <> [] ->
  let g := widest_gap (turn_us c) (phases_of c now).*2 in
  exists target, (phases_of c now).*2 !! g.2 = Some target /\
    forall slot phase, (slot, phase) ∈ phases_of c now -> rem_euclid (target - phase) (turn_us c) <= turn_us c - g.1.
Proof.
  intros Ht Hne g. destruct (cluster_covers (turn_us c) (phases_of c now).*2 Ht (phases_sorted c now) (phases_range c now Ht))
    as (target & Htg & Hall).
  { intros H. by apply fmap_nil_inv in H. }
  exists target. split; [done|]. intros slot phase Hin. apply Hall, list_elem_of_fmap. by exists (slot, phase).
Qed.

(** Pressing the buffer and correcting phases never pull on the same input:
    whenever the population is stretched enough for the pressure term to count,
    an evaluation at that instant issues nothing. *)
Theorem stretch_excludes_corrections (c : PhaseController) (now : Z) :
  stretched c now = true -> (evaluate c now).1 = [].
Proof.
  intros Hs. assert (Hun : active_unhealthy c now = true).
  { unfold stretched, active_unhealthy in *. apply existsb_exists in Hs as ([s e] & Hin & Ha). apply existsb_exists.
    exists (s, e). split; [done|]. apply andb_true_iff in Ha as [-> Ha]. cbn. unfold on_cadence.
    destruct (interval_us e) as [iv|]; [|done]. apply Z.ltb_lt in Ha.
    rewrite (proj2 (Z.leb_gt (Z.abs (iv - turn_us c)) INTERVAL_TOLERANCE_US)) by lia. done. }
  unfold evaluate. rewrite Hun. destruct (disabled c); [done|]. destruct (next_eval_at c); [|done]. by destruct (_ <? _).
Qed.

(** No arithmetic of the estimators leaves [i64], whatever sequence numbers
    the clients choose: in every run whose instants do not go back, the next
    arrival's residual, its difference from the average, the new averages and
    the interval's distance from the turn interval are all representable. *)
Theorem estimators_never_overflow (turn start : Z) (ops : list (Z * PhaseOp)) (slot seq now : Z) :
  0 <= turn <= u32_max -> is_u64 seq -> Forall op_valid ops -> in_order start (ops ++ [(now, Evaluate)]) ->
  arrival_in_range (phase_after (new turn) ops) slot seq now.
Proof.
  intros Ht Hseq Hv Hord. apply (arrival_range_ok now); [|lia|apply Hseq].
  apply (after_estimates_ok start); [|done|done]. split; [|done].
  unfold new. cbn. destruct (Z.eqb_spec turn 0); [by vm_compute; split|unfold u32_max in *; lia].
Qed.

(** A population in perfect alignment reads as spread over the whole cycle:
    when all measured phases are equal every neighbour gap is zero, so the span
    comes out as a full turn interval instead of zero, and a session whose two
    slots arrive at the very same phase counts eight unconverged rounds and
    disables its controller, while one two milliseconds apart is converged. *)
Theorem perfect_alignment_gives_up :
  (forall c now p, 0 < turn_us c -> phases_of c now <> [] -> Forall (fun x => x = p) (phases_of c now).*2 ->
     turn_us c - (widest_gap (turn_us c) (phases_of c now).*2).1 = turn_us c) /\
  (let c := phase_after (new 41667) (feed 41667 0 1200) in
   disabled c = true /\ last_span_us c = Some 41667 /\ corrections_issued c = 0) /\
  (let c := phase_after (new 41667) (feed 41667 2000 1200) in
   disabled c = false /\ last_span_us c = Some 2000 /\ corrections_issued c = 0).
Proof.
  split; [|split; vm_compute; done].
  intros c now p Ht Hne Hall. unfold widest_gap.
  assert (Hhd : hd 0 (phases_of c now).*2 = p) by (destruct (phases_of c now); [done|]; by apply Forall_cons in Hall as [? _]).
  rewrite Hhd, equal_phases_no_gap by (cbn; done || lia). cbn. lia.
Qed.

(** ** Witnesses *)

(** Slot 1 arrives 20 ms behind slot 0. *)
Definition demo_run : list (Z * PhaseOp) :=
  concat ((fun k => let t := from_micros (Z.of_nat k * 41667) in
             [(t, Arrive 0 (Z.of_nat k)); (t + from_micros 20000, Arrive 1 (Z.of_nat k))]) <$> seq 0 200).
Definition demo_now : Z := 9 * SECOND.

Lemma demo_corrects : (evaluate (phase_after (new 41667) demo_run) demo_now).1 = [(0, 8000)].
Proof. vm_compute. reflexivity. Qed.

Lemma no_command_without_echo_witness :
  commanded (phase_after (evaluate (phase_after (new 41667) demo_run) demo_now).2 [(30 * SECOND, Evaluate); (31 * SECOND, Applied 0 7999)]) 0 = Some 8000.
Proof.
  refine (proj1 (no_command_without_echo 41667 demo_run [(30 * SECOND, Evaluate); (31 * SECOND, Applied 0 7999)]
    demo_now (40 * SECOND) 0 8000 _ _ _)).
  - lia.
  - rewrite demo_corrects. left.
  - intros t. rewrite !not_elem_of_cons. repeat split; [discriminate..|apply not_elem_of_nil].
Defined.

Lemma corrections_bounded_witness : NoDup (evaluate (phase_after (new 41667) demo_run) demo_now).1.*1.
Proof. refine (proj1 (corrections_bounded 41667 demo_run demo_now _)). lia. Defined.

Lemma dwell_respected_witness :
  (evaluate (phase_after (evaluate (phase_after (new 41667) demo_run) demo_now).2 [(10 * SECOND, Arrive 0 240)]) (20 * SECOND)).1 = [].
Proof.
  apply (dwell_respected 41667 demo_run [(10 * SECOND, Arrive 0 240)] demo_now (20 * SECOND) 0 8000).
  - lia.
  - rewrite demo_corrects. left.
  - constructor; [vm_compute; reflexivity|constructor].
  - vm_compute. reflexivity.
Defined.

Lemma target_leads_cluster_witness :
  exists target, (phases_of (phase_after (new 41667) demo_run) demo_now).*2
    !! (widest_gap 41667 (phases_of (phase_after (new 41667) demo_run) demo_now).*2).2 = Some target.
Proof.
  destruct (target_leads_cluster (phase_after (new 41667) demo_run) demo_now) as (target & H & _).
  - vm_compute. reflexivity.
  - vm_compute. discriminate.
  - exists target. exact H.
Defined.

(** One slot at half the rate. *)
Definition demo_slow : PhaseController :=
  phase_after (new 41667) ((fun k => (from_micros (Z.of_nat k * 83334), Arrive 0 (Z.of_nat k))) <$> seq 0 100).

Lemma stretch_excludes_corrections_witness : (evaluate demo_slow (8 * SECOND)).1 = [].
Proof. apply (stretch_excludes_corrections demo_slow (8 * SECOND)). vm_compute. reflexivity. Defined.

Lemma estimators_never_overflow_witness :
  arrival_in_range (phase_after (new 41667) [(0, Arrive 0 0); (5, Arrive 0 200000000000000)]) 0 u64_max 9.
Proof.
  apply (estimators_never_overflow 41667 0 [(0, Arrive 0 0); (5, Arrive 0 200000000000000)] 0 u64_max 9).
  - unfold u32_max. lia.
  - width_lia.
  - repeat constructor; cbn; width_lia.
  - cbn. lia.
Defined.
