(* ===== verification/Delivery.v ===== *)
(** * End-to-end delivery tracking ([relay/src/consensus/delivery.rs])

    The fold of origin sequence numbers and destination cursors that feeds the
    latency buffer's cushion, and the throttle of the cursor shares.  Instants
    and durations are nanoseconds; the loops over hash maps run over an
    arbitrary enumeration of the entries, and what they compute does not depend
    on it. *)

From Stdlib Require Import ZArith Lia.
From stdpp Require Import gmap sorting list.
From S2P Require Import Prelude.

Open Scope Z_scope.

Definition DELIVERY_SYNC_MIN_INTERVAL : Z := 250000000.
Definition EXTRA_HOP_CUSHION_TURNS : Z := 1.
Definition E2E_LAG_SLACK_TURNS : Z := 12.
Definition E2E_LAG_TURNS_PER_CUSHION_TURN : Z := 4.
Definition E2E_LAG_CUSHION_CAP_TURNS : Z := 3.

Inductive DeliveryHome : Type := Local | Peer (relay : Z).
#[export] Instance DeliveryHome_eq_dec : EqDecision DeliveryHome.
Proof. solve_decision. Defined.

Record DeliveryTracking : Type := mkDeliveryTracking {
  origins : gmap Z (Z * DeliveryHome);
  dests : gmap Z (DeliveryHome * gmap Z Z);
}.

Definition tracking_default : DeliveryTracking := mkDeliveryTracking ∅ ∅.

(** ** Folding observations *)

Definition observe_origin (t : DeliveryTracking) (origin seq : Z) (home : DeliveryHome) : DeliveryTracking :=
  match origins t !! origin with
  | Some entry =>
      if entry.1 <? seq then mkDeliveryTracking (<[origin := (seq, home)]> (origins t)) (dests t) else t
  | None => mkDeliveryTracking (<[origin := (seq, home)]> (origins t)) (dests t)
  end.

Definition observe_delivery (t : DeliveryTracking) (dest origin delivered_seq : Z) (home : DeliveryHome) :
    DeliveryTracking :=
  if dest =? origin then t
  else
    let cursors := (default (home, ∅) (dests t !! dest)).2 in
    let cur := default 0 (cursors !! origin) in
    mkDeliveryTracking (origins t)
      (<[dest := (home, <[origin := if cur <? delivered_seq then delivered_seq else cur]> cursors)]> (dests t)).

Definition forget_slot (t : DeliveryTracking) (slot : Z) : DeliveryTracking :=
  mkDeliveryTracking (delete slot (origins t))
    ((fun '(home, cursors) => (home, delete slot cursors)) <$> delete slot (dests t)).

(** ** The summaries *)

(** [acc.map_or(x, |m| m.max(x))]. *)
Definition max_or (acc : option Z) (x : Z) : option Z := Some match acc with None => x | Some m => Z.max m x end.

Definition hops_of (o d : DeliveryHome) : Z := if bool_decide (o = d) then 1 else 2.

(** The body of the inner loops, over one cursor of one destination. *)
Definition summary_step (t : DeliveryTracking) (dest : Z) (dest_home : DeliveryHome) (acc : option Z * option Z)
    (cursor : Z * Z) : option Z * option Z :=
  let '(origin, delivered) := cursor in
  if origin =? dest then acc
  else match origins t !! origin with
       | None => acc
       | Some (newest, origin_home) =>
           (max_or acc.1 (hops_of origin_home dest_home), max_or acc.2 (saturating_sub newest delivered))
       end.

Definition pair_summary (t : DeliveryTracking) : option Z * option Z :=
  foldl (fun acc '(dest, (dest_home, cursors)) => foldl (summary_step t dest dest_home) acc (map_to_list cursors))
    (None, None) (map_to_list (dests t)).

Definition lag_step (t : DeliveryTracking) (dest : Z) (acc : option Z) (cursor : Z * Z) : option Z :=
  let '(origin, delivered) := cursor in
  if origin =? dest then acc
  else match origins t !! origin with
       | None => acc
       | Some (newest, _) => max_or acc (saturating_sub newest delivered)
       end.

Definition worst_lag_turns (t : DeliveryTracking) : option Z :=
  foldl (fun acc '(dest, (_, cursors)) => foldl (lag_step t dest) acc (map_to_list cursors))
    None (map_to_list (dests t)).

Definition hops_step (t : DeliveryTracking) (dest : Z) (dest_home : DeliveryHome) (acc : option Z) (cursor : Z * Z) :
    option Z :=
  let '(origin, _) := cursor in
  if origin =? dest then acc
  else match origins t !! origin with
       | None => acc
       | Some (_, origin_home) => max_or acc (hops_of origin_home dest_home)
       end.

Definition max_relay_hops (t : DeliveryTracking) : option Z :=
  foldl (fun acc '(dest, (dest_home, cursors)) => foldl (hops_step t dest dest_home) acc (map_to_list cursors))
    None (map_to_list (dests t)).

(** [x as u32] of an unsigned value. *)
Definition as_u32 (x : Z) : Z := x mod 2 ^ 32.

Definition cushion_turns (t : DeliveryTracking) : Z :=
  let '(hops, lag) := pair_summary t in
  let hop_term := saturating_sub (default 1 hops) 1 * EXTRA_HOP_CUSHION_TURNS in
  let lag_term :=
    match lag with
    | Some lag =>
        let excess := saturating_sub lag E2E_LAG_SLACK_TURNS in
        Z.min (as_u32 (excess / E2E_LAG_TURNS_PER_CUSHION_TURN)) E2E_LAG_CUSHION_CAP_TURNS
    | None => 0
    end in
  hop_term + lag_term.

(** ** The share throttle *)

Record CursorShare : Type := mkCursorShare { cursors : gmap Z Z; last_sent : option Z; min_interval : Z }.

Definition share_new (min_interval : Z) : CursorShare := mkCursorShare ∅ None min_interval.

Definition slot_le (a b : Z * Z) : Prop := a.1 <= b.1.
#[export] Instance slot_le_dec : RelDecision slot_le.
Proof. intros a b. unfold slot_le. apply _. Defined.

Definition share_stale (s : CursorShare) (origin seq : Z) : bool :=
  match cursors s !! origin with Some current => seq <=? current | None => false end.
Definition share_due (s : CursorShare) (now : Z) : bool :=
  match last_sent s with None => true | Some last => min_interval s <=? saturating_sub now last end.

Definition advance (s : CursorShare) (origin seq now : Z) : option (list (Z * Z)) * CursorShare :=
  if share_stale s origin seq then (None, s)
  else
    let cs := <[origin := seq]> (cursors s) in
    if negb (share_due s now) then (None, mkCursorShare cs (last_sent s) (min_interval s))
    else (Some (merge_sort slot_le (map_to_list cs)), mkCursorShare cs (Some now) (min_interval s)).

(** ** The one-pass summary *)

Implicit Types (t : DeliveryTracking).

(** The pairs with evidence on both sides: destination, origin, the hops
    between their homes and the lag. *)
Definition evident t (dest origin hops lag : Z) : Prop :=
  exists dh cs delivered newest oh,
    dests t !! dest = Some (dh, cs) /\ cs !! origin = Some delivered /\ origin <> dest /\
    origins t !! origin = Some (newest, oh) /\ hops = hops_of oh dh /\ lag = saturating_sub newest delivered.

(** The largest of a set of values, if it has any. *)
Definition is_max (P : Z -> Prop) (m : option Z) : Prop :=
  match m with None => forall x, ~ P x | Some m => P m /\ forall x, P x -> x <= m end.

Lemma is_max_or P Q acc x :
  is_max P acc -> (forall y, Q y <-> P y \/ y = x) -> is_max Q (max_or acc x).
Proof.
  intros Hm HQ. unfold max_or. destruct acc as [m|]; cbn in *.
  - destruct Hm as [Hp Hle]. split.
    + rewrite HQ. destruct (Z.max_spec m x) as [[_ ->]|[_ ->]]; naive_solver.
    + intros y [Hy| ->]%HQ; [specialize (Hle y Hy)|]; lia.
  - split; [rewrite HQ; by right|]. intros y [Hy| ->]%HQ; [by destruct (Hm y)|lia].
Qed.

Lemma is_max_iff P Q m : is_max P m -> (forall y, Q y <-> P y) -> is_max Q m.
Proof. destruct m; cbn; intros H HQ; [rewrite HQ; split; [tauto|]; intros x Hx%HQ; by apply H|intros x Hx%HQ; by apply (H x)]. Qed.

Lemma is_max_fun P m m' : is_max P m -> is_max P m' -> m = m'.
Proof.
  destruct m as [m|], m' as [m'|]; cbn; intros H H'.
  - f_equal. destruct H as [H1 H2], H' as [H3 H4]. specialize (H2 m' H3). specialize (H4 m H1). lia.
  - destruct (H' m). tauto.
  - destruct (H m'). tauto.
  - done.
Qed.

(** A loop whose body folds in the values an element contributes. *)
Lemma fold_is_max {A} (g : option Z -> A -> option Z) (Q : A -> Z -> Prop) (l : list A) acc P :
  (forall a acc P, is_max P acc -> is_max (fun y => P y \/ Q a y) (g acc a)) ->
  is_max P acc -> is_max (fun y => P y \/ exists a, a ∈ l /\ Q a y) (foldl g acc l).
Proof.
  intros Hg. revert acc P. induction l as [|a l IH]; intros acc P Hm; cbn.
  - eapply is_max_iff; [exact Hm|]. intros y. set_solver.
  - eapply is_max_iff; [apply IH, (Hg a), Hm|]. intros y. split.
    + intros [Hp|(b & Hb & HQ)]; [tauto|]. apply elem_of_cons in Hb as [->|Hb]; [tauto|right; eauto].
    + intros [[Hp|HQ]|(b & Hb & HQ)]; [tauto|right; exists a; split; [left|done]|right; exists b; split; [by right|done]].
Qed.

Lemma lag_step_max t dest cursor acc P :
  is_max P acc ->
  is_max (fun y => P y \/ exists newest oh, cursor.1 <> dest /\ origins t !! cursor.1 = Some (newest, oh) /\
                             y = saturating_sub newest cursor.2) (lag_step t dest acc cursor).
Proof.
  intros Hm. destruct cursor as [origin delivered]. unfold lag_step. cbn.
  destruct (Z.eqb_spec origin dest) as [->|Hne]; [eapply is_max_iff; [exact Hm|]; naive_solver|].
  destruct (origins t !! origin) as [[newest oh]|] eqn:Ho; [|eapply is_max_iff; [exact Hm|]; naive_solver].
  eapply is_max_or; [exact Hm|]. naive_solver.
Qed.

Lemma hops_step_max t dest dh cursor acc P :
  is_max P acc ->
  is_max (fun y => P y \/ exists newest oh, cursor.1 <> dest /\ origins t !! cursor.1 = Some (newest, oh) /\
                             y = hops_of oh dh) (hops_step t dest dh acc cursor).
Proof.
  intros Hm. destruct cursor as [origin delivered]. unfold hops_step. cbn.
  destruct (Z.eqb_spec origin dest) as [->|Hne]; [eapply is_max_iff; [exact Hm|]; naive_solver|].
  destruct (origins t !! origin) as [[newest oh]|] eqn:Ho; [|eapply is_max_iff; [exact Hm|]; naive_solver].
  eapply is_max_or; [exact Hm|]. naive_solver.
Qed.

Lemma worst_lag_is_max t : is_max (fun y => exists dest origin hops, evident t dest origin hops y) (worst_lag_turns t).
Proof.
  eapply is_max_iff.
  - unfold worst_lag_turns. apply (fold_is_max _ (fun d y => exists cur, cur ∈ map_to_list d.2.2 /\
      exists newest oh, cur.1 <> d.1 /\ origins t !! cur.1 = Some (newest, oh) /\ y = saturating_sub newest cur.2) _ None (fun _ => False)).
    + intros [dest [dh cs]] acc P Hm. cbn. apply (fold_is_max _ _ _ _ _ (lag_step_max t dest) Hm).
    + cbn. tauto.
  - intros y. unfold evident. split.
    + intros (dest & origin & hops & dh & cs & del & newest & oh & Hd & Hc & Hne & Ho & _ & Hl). right.
      exists (dest, (dh, cs)). split; [by apply elem_of_map_to_list|]. exists (origin, del). cbn.
      split; [by apply elem_of_map_to_list|]. by exists newest, oh.
    + intros [[]|([dest [dh cs]] & Hd & [origin del] & Hc & newest & oh & Hne & Ho & Hl)]. cbn in *.
      apply elem_of_map_to_list in Hd. apply elem_of_map_to_list in Hc. eauto 15.
Qed.

Lemma max_hops_is_max t : is_max (fun y => exists dest origin lag, evident t dest origin y lag) (max_relay_hops t).
Proof.
  eapply is_max_iff.
  - unfold max_relay_hops. apply (fold_is_max _ (fun d y => exists cur, cur ∈ map_to_list d.2.2 /\
      exists newest oh, cur.1 <> d.1 /\ origins t !! cur.1 = Some (newest, oh) /\ y = hops_of oh d.2.1) _ None (fun _ => False)).
    + intros [dest [dh cs]] acc P Hm. cbn. apply (fold_is_max _ _ _ _ _ (hops_step_max t dest dh) Hm).
    + cbn. tauto.
  - intros y. unfold evident. split.
    + intros (dest & origin & lag & dh & cs & del & newest & oh & Hd & Hc & Hne & Ho & Hh & _). right.
      exists (dest, (dh, cs)). split; [by apply elem_of_map_to_list|]. exists (origin, del). cbn.
      split; [by apply elem_of_map_to_list|]. by exists newest, oh.
    + intros [[]|([dest [dh cs]] & Hd & [origin del] & Hc & newest & oh & Hne & Ho & Hl)]. cbn in *.
      apply elem_of_map_to_list in Hd. apply elem_of_map_to_list in Hc. eauto 15.
Qed.

Lemma summary_steps t dest dh l acc :
  foldl (summary_step t dest dh) acc l = (foldl (hops_step t dest dh) acc.1 l, foldl (lag_step t dest) acc.2 l).
Proof.
  revert acc. induction l as [|[origin del] l IH]; intros acc; cbn; [by destruct acc|]. rewrite IH.
  destruct (origin =? dest); [done|]. by destruct (origins t !! origin) as [[newest oh]|].
Qed.

Lemma pair_summary_split t : pair_summary t = (max_relay_hops t, worst_lag_turns t).
Proof.
  unfold pair_summary, max_relay_hops, worst_lag_turns. change (None, None) with (@None Z, @None Z).
  generalize (@None Z) at 1 3. generalize (@None Z).
  induction (map_to_list (dests t)) as [|[dest [dh cs]] l IH]; intros a b; cbn; [done|]. rewrite summary_steps. apply IH.
Qed.

(** ** What the observations leave behind *)

Inductive Observation : Type :=
| ObsOrigin (origin seq : Z) (home : DeliveryHome)
| ObsDelivery (dest origin delivered_seq : Z) (home : DeliveryHome).

Definition observe1 t (o : Observation) : DeliveryTracking :=
  match o with
  | ObsOrigin origin seq home => observe_origin t origin seq home
  | ObsDelivery dest origin d home => observe_delivery t dest origin d home
  end.

Definition observe_all (obs : list Observation) : DeliveryTracking := foldl observe1 tracking_default obs.

(** The sequence numbers reported for an origin, and the cursors a destination
    claimed for it. *)
Definition origin_seq_of (origin : Z) (o : Observation) : option Z :=
  match o with ObsOrigin s q _ => if s =? origin then Some q else None | _ => None end.
Definition claim_of (dest origin : Z) (o : Observation) : option Z :=
  match o with ObsDelivery d s q _ => if (d =? dest) && (s =? origin) then Some q else None | _ => None end.

Definition newest_of t (origin : Z) : option Z := fst <$> origins t !! origin.
Definition cursor_of t (dest origin : Z) : option Z := dests t !! dest ≫= fun e => e.2 !! origin.

Definition obs_valid (o : Observation) : Prop :=
  match o with ObsOrigin _ q _ => is_u64 q | ObsDelivery _ _ q _ => is_u64 q end.

Lemma newest_step t o origin :
  newest_of (observe1 t o) origin =
    match origin_seq_of origin o with Some q => max_or (newest_of t origin) q | None => newest_of t origin end.
Proof.
  destruct o as [s q h|d s q h]; cbn; unfold newest_of.
  - unfold observe_origin. destruct (Z.eqb_spec s origin) as [->|Hne].
    + destruct (origins t !! origin) as [[n h']|] eqn:Ho; cbn.
      * destruct (Z.ltb_spec n q); cbn; [rewrite lookup_insert_eq|rewrite Ho]; cbn; unfold max_or; f_equal; lia.
      * by rewrite lookup_insert_eq.
    + destruct (origins t !! s) as [[n h']|] eqn:Ho; [destruct (_ <? _)|]; cbn; by rewrite ?lookup_insert_ne.
  - unfold observe_delivery. by destruct (d =? s).
Qed.

Lemma cursor_step t o dest origin :
  obs_valid o -> dest <> origin ->
  cursor_of (observe1 t o) dest origin =
    match claim_of dest origin o with Some q => max_or (cursor_of t dest origin) q | None => cursor_of t dest origin end.
Proof.
  intros Hv Hdo. destruct o as [s q h|d s q h]; cbn; unfold cursor_of.
  - unfold observe_origin. destruct (origins t !! s) as [e|]; [|done]. by destruct (_ <? _).
  - unfold observe_delivery. cbn in Hv. destruct (Z.eqb_spec d dest) as [->|Hd]; cbn.
    + destruct (Z.eqb_spec s origin) as [->|Hs].
      * rewrite (proj2 (Z.eqb_neq dest origin)) by done. cbn. rewrite lookup_insert_eq. cbn. rewrite lookup_insert_eq.
        unfold max_or. unfold is_u64 in Hv. destruct (dests t !! dest) as [[h' cs]|]; cbn.
        -- destruct (cs !! origin) as [cur|]; cbn; [destruct (Z.ltb_spec cur q)|destruct (Z.ltb_spec 0 q)]; f_equal; lia.
        -- rewrite lookup_empty. cbn. destruct (Z.ltb_spec 0 q); f_equal; lia.
      * destruct (Z.eqb_spec dest s); [done|]. cbn. rewrite lookup_insert_eq. cbn. rewrite lookup_insert_ne by done.
        destruct (dests t !! dest) as [[h' cs]|]; cbn; [done|]. apply lookup_empty.
    + destruct (d =? s); [done|]. cbn. by rewrite lookup_insert_ne.
Qed.

Lemma fold_max_or (l : list Z) acc P : is_max P acc -> is_max (fun y => P y \/ y ∈ l) (foldl max_or acc l).
Proof.
  intros Hm. eapply is_max_iff.
  - apply (fold_is_max max_or (fun x y => y = x) l acc P); [|exact Hm]. intros a acc' P' H'. eapply is_max_or; [exact H'|done].
  - intros y. naive_solver.
Qed.

Lemma observe_all_fold obs :
  Forall obs_valid obs ->
  (forall origin, newest_of (observe_all obs) origin = foldl max_or None (omap (origin_seq_of origin) obs)) /\
  (forall dest origin, dest <> origin ->
     cursor_of (observe_all obs) dest origin = foldl max_or None (omap (claim_of dest origin) obs)).
Proof.
  unfold observe_all. intros Hv. induction obs as [|o obs IH] using rev_ind.
  { split; intros; unfold newest_of, cursor_of; cbn [origins dests tracking_default foldl];
      by rewrite lookup_empty. }
  apply Forall_app in Hv as [Hv Ho]. apply Forall_cons in Ho as [Ho _]. destruct (IH Hv) as [IH1 IH2]. rewrite foldl_app. cbn [foldl]. split.
  - intros origin. rewrite newest_step, IH1, omap_app, foldl_app. cbn [omap list_omap]. by destruct (origin_seq_of origin o).
  - intros dest origin Hne. rewrite cursor_step, IH2, omap_app, foldl_app by done. cbn [omap list_omap]. by destruct (claim_of dest origin o).
Qed.

(** ** The throttle *)

Fixpoint share_run (s : CursorShare) (calls : list (Z * Z * Z)) : list (Z * list (Z * Z)) * CursorShare :=
  match calls with
  | [] => ([], s)
  | (origin, seq, now) :: calls =>
      let r := advance s origin seq now in
      let r' := share_run r.2 calls in
      (match r.1 with Some snap => [(now, snap)] | None => [] end ++ r'.1, r'.2)
  end.

(** Consecutive shares are an interval apart. *)
Fixpoint spaced (interval : Z) (last : option Z) (ts : list Z) : Prop :=
  match ts with
  | [] => True
  | t :: ts => match last with None => True | Some l => interval <= saturating_sub t l end /\ spaced interval (Some t) ts
  end.

Lemma share_run_spaced s calls : spaced (min_interval s) (last_sent s) (share_run s calls).1.*1.
Proof.
  revert s. induction calls as [|[[origin seq] now] calls IH]; intros s; cbn [share_run]; [done|].
  unfold advance. destruct (share_stale s origin seq); [apply IH|].
  destruct (share_due s now) eqn:Hdue; cbn [negb fst snd].
  - cbn. split; [|apply (IH (mkCursorShare _ (Some now) (min_interval s)))].
    unfold share_due in Hdue. destruct (last_sent s); [by apply Z.leb_le|done].
  - apply (IH (mkCursorShare _ (last_sent s) (min_interval s))).
Qed.

Lemma advance_snapshot s origin seq now snap s' :
  advance s origin seq now = (Some snap, s') ->
  StronglySorted slot_le snap /\ (forall o q, (o, q) ∈ snap <-> cursors s' !! o = Some q) /\
  cursors s' !! origin = Some seq /\ forall o q, cursors s !! o = Some q -> exists q', cursors s' !! o = Some q' /\ q <= q'.
Proof.
  unfold advance. destruct (share_stale s origin seq) eqn:Hst; [done|]. unfold share_stale in Hst.
  destruct (negb _); [done|]. intros [= <- <-]. cbn. split_and!.
  - apply Sorted_StronglySorted; [intros [??] [??] [??]; unfold slot_le; cbn; lia|].
    apply Sorted_merge_sort. intros [??] [??]. unfold slot_le. cbn. lia.
  - intros o q. rewrite merge_sort_Permutation. by rewrite elem_of_map_to_list.
  - apply lookup_insert_eq.
  - intros o q Hq. destruct (decide (origin = o)) as [->|Hne].
    + rewrite Hq in Hst. apply Z.leb_gt in Hst. exists seq. rewrite lookup_insert_eq. split; [done|lia].
    + exists q. rewrite lookup_insert_ne by done. split; [done|lia].
Qed.

(** ** Properties *)

(** The one-pass summary is the two reference scans, and both are the true
    extremes: the hop count and the lag it returns are the largest over exactly
    the pairs with evidence on both sides, and absent when there is none. *)
Theorem pair_summary_exact t :
  pair_summary t = (max_relay_hops t, worst_lag_turns t) /\
  is_max (fun h => exists dest origin lag, evident t dest origin h lag) (pair_summary t).1 /\
  is_max (fun l => exists dest origin hops, evident t dest origin hops l) (pair_summary t).2.
Proof.
  rewrite pair_summary_split. split; [done|]. split; [apply max_hops_is_max|apply worst_lag_is_max].
Qed.

(** The fold is monotone in what was claimed and blind to order: after any
    sequence of observations, an origin's newest sequence number is the largest
    ever observed for it and a destination's cursor the largest it ever
    claimed, so a reordered or rewound report changes nothing and no report
    about one pair moves another. *)
Theorem observations_keep_maxima (obs : list Observation) :
  Forall obs_valid obs ->
  (forall origin, is_max (fun q => q ∈ omap (origin_seq_of origin) obs) (newest_of (observe_all obs) origin)) /\
  (forall dest origin, dest <> origin ->
     is_max (fun q => q ∈ omap (claim_of dest origin) obs) (cursor_of (observe_all obs) dest origin)).
Proof.
  intros Hv. destruct (observe_all_fold obs Hv) as [H1 H2].
  assert (Hf : forall l, is_max (fun q => q ∈ l) (foldl max_or None l)).
  { intros l. eapply is_max_iff; [apply (fold_max_or l None (fun _ => False)); cbn; tauto|]. cbn. tauto. }
  split; [intros origin; rewrite H1; apply Hf|intros dest origin Hne; rewrite H2 by done; apply Hf].
Qed.

Lemma hops_range t : max_relay_hops t = None \/ max_relay_hops t = Some 1 \/ max_relay_hops t = Some 2.
Proof.
  pose proof (max_hops_is_max t) as Hm. destruct (max_relay_hops t) as [h|]; [|by left]. right.
  destruct Hm as [(d & o & l & dh & cs & del & n & oh & _ & _ & _ & _ & -> & _) _]. unfold hops_of.
  case_bool_decide; [by left|by right].
Qed.

Lemma cushion_range t : 0 <= cushion_turns t <= EXTRA_HOP_CUSHION_TURNS + E2E_LAG_CUSHION_CAP_TURNS.
Proof.
  unfold cushion_turns. rewrite pair_summary_split.
  unfold saturating_sub, EXTRA_HOP_CUSHION_TURNS, E2E_LAG_CUSHION_CAP_TURNS, as_u32.
  destruct (worst_lag_turns t) as [lag|].
  - pose proof (Z.mod_pos_bound (Z.max 0 (lag - E2E_LAG_SLACK_TURNS) / E2E_LAG_TURNS_PER_CUSHION_TURN) (2 ^ 32) ltac:(lia)).
    destruct (hops_range t) as [->|[->| ->]]; cbn [default]; unfold id; lia.
  - destruct (hops_range t) as [->|[->| ->]]; cbn; lia.
Qed.

(** The adversarial bound and where it does not saturate: whatever the
    cursors claim, the cushion is at most one turn for the hop and three for the
    lag, and up to a lag of 2^34 + 12 turns the lag's share is the clamped
    quotient the constants state; past that the quotient is truncated to 32 bits
    before it is clamped, so a lag of 2^34 + 12 turns adds nothing at all. *)
Theorem cushion_bounded_but_wraps :
  (forall t, 0 <= cushion_turns t <= EXTRA_HOP_CUSHION_TURNS + E2E_LAG_CUSHION_CAP_TURNS) /\
  (forall t lag, worst_lag_turns t = Some lag -> 0 <= lag < 2 ^ 34 + E2E_LAG_SLACK_TURNS ->
     cushion_turns t = (if bool_decide (max_relay_hops t = Some 2) then 1 else 0)
                       + Z.min ((Z.max 0 (lag - E2E_LAG_SLACK_TURNS)) / E2E_LAG_TURNS_PER_CUSHION_TURN) E2E_LAG_CUSHION_CAP_TURNS) /\
  (let t := observe_all [ObsOrigin 0 (2 ^ 34 + 12) Local; ObsDelivery 1 0 0 Local] in
   worst_lag_turns t = Some (2 ^ 34 + 12) /\ cushion_turns t = 0).
Proof.
  split; [apply cushion_range|split; [|vm_compute; done]].
  intros t lag Hl Hr. unfold cushion_turns. rewrite pair_summary_split, Hl. unfold as_u32, saturating_sub.
  rewrite Z.mod_small; [|unfold E2E_LAG_SLACK_TURNS, E2E_LAG_TURNS_PER_CUSHION_TURN in *; split;
    [apply Z.div_pos; lia|apply Z.div_lt_upper_bound; lia]].
  destruct (hops_range t) as [->|[->| ->]]; done.
Qed.

(** The share throttle loses nothing and never floods: consecutive shares of
    a destination are at least the interval apart, and each is its complete
    current cursor map, sorted by slot, carrying the advance that triggered it
    and no cursor older than any shared before. *)
Theorem shares_spaced_and_complete (interval : Z) (calls : list (Z * Z * Z)) :
  spaced interval None (share_run (share_new interval) calls).1.*1 /\
  forall s origin seq now snap s', advance s origin seq now = (Some snap, s') ->
    StronglySorted slot_le snap /\ (forall o q, (o, q) ∈ snap <-> cursors s' !! o = Some q) /\
    cursors s' !! origin = Some seq /\
    forall o q, cursors s !! o = Some q -> exists q', cursors s' !! o = Some q' /\ q <= q'.
Proof.
  split; [apply (share_run_spaced (share_new interval))|]. intros. by eapply advance_snapshot.
Qed.

(** ** Witnesses *)

Lemma observations_keep_maxima_witness :
  cursor_of (observe_all [ObsDelivery 1 0 9 Local; ObsDelivery 1 0 4 (Peer 3); ObsDelivery 2 0 7 Local]) 1 0 = Some 9 /\
  is_max (fun q => q ∈ [9; 4]) (Some 9).
Proof.
  split; [vm_compute; reflexivity|].
  refine (proj2 (observations_keep_maxima [ObsDelivery 1 0 9 Local; ObsDelivery 1 0 4 (Peer 3); ObsDelivery 2 0 7 Local] _) 1 0 _).
  - repeat constructor; cbn; width_lia.
  - lia.
Defined.
