(* ===== verification/Votes.v ===== *)
(** * Tallying votes

    What the two desync comparators of [relay/src/consensus/sync/] share: votes
    as pairs of a slot and a value, grouped by value in a hash map, the group
    that holds a majority, and the minority it leaves. *)

From Stdlib Require Import ZArith Lia.
From stdpp Require Import gmap sorting list.
From S2P Require Import Prelude.

Open Scope Z_scope.

Section votes.
Context {A : Type} `{Countable A}.
Implicit Types (vs : list (Z * A)) (v : A).

(** The slots that voted for a value. *)
Definition voters (v : A) (vs : list (Z * A)) : list Z := map fst (filter (fun p => p.2 = v) vs).

(** [groups.entry(value).or_default().push(slot)]. *)
Definition add_vote (g : gmap A (list Z)) (p : Z * A) : gmap A (list Z) :=
  <[p.2 := default [] (g !! p.2) ++ [p.1]]> g.

Definition tally (vs : list (Z * A)) : gmap A (list Z) := foldl add_vote ∅ vs.

(** [groups.iter().find(|(_, slots)| slots.len() * 2 > count)]. *)
Definition majority_of (groups : gmap A (list Z)) (count : Z) : option (A * list Z) :=
  List.find (fun g => count <? Z.of_nat (length g.2) * 2) (map_to_list groups).

Definition agreeing (vs : list (Z * A)) : Prop := forall p q, p ∈ vs -> q ∈ vs -> p.2 = q.2.

(** A strict majority of the votes is for [v]. *)
Definition majority_value (vs : list (Z * A)) (v : A) : Prop :=
  Z.of_nat (length vs) < 2 * Z.of_nat (length (voters v vs)).

Lemma voters_cons v p vs :
  voters v (p :: vs) = if decide (p.2 = v) then p.1 :: voters v vs else voters v vs.
Proof. unfold voters. rewrite filter_cons. by case_decide. Qed.

Lemma elem_of_voters v vs slot : slot ∈ voters v vs <-> (slot, v) ∈ vs.
Proof.
  unfold voters. rewrite list_elem_of_fmap. split.
  - intros ([k w] & -> & Hin). by apply list_elem_of_filter in Hin as [<- Hin].
  - intros Hin. exists (slot, v). by rewrite list_elem_of_filter.
Qed.

(** Voters for different values are different votes. *)
Lemma voters_disjoint vs v w : v <> w -> (length (voters v vs) + length (voters w vs) <= length vs)%nat.
Proof.
  intros Hne. induction vs as [|p vs IH]; [done|]. rewrite !voters_cons. repeat case_decide; cbn [length]; try lia.
  congruence.
Qed.

Lemma tally_lookup vs g v :
  foldl add_vote g vs !! v =
    match voters v vs with [] => g !! v | l => Some (default [] (g !! v) ++ l) end.
Proof.
  revert g. induction vs as [|[slot w] vs IH]; intros g; cbn [foldl]; [done|].
  rewrite IH, voters_cons. unfold add_vote. cbn [fst snd]. case_decide as Hv.
  - subst v. rewrite lookup_insert_eq. cbn. destruct (voters _ _); [done|]. by rewrite <- app_assoc.
  - by rewrite lookup_insert_ne by done.
Qed.

(** The groups are one per value voted for. *)
Lemma tally_elem vs v l : (v, l) ∈ map_to_list (tally vs) <-> l = voters v vs /\ l <> [].
Proof.
  unfold tally. rewrite elem_of_map_to_list, tally_lookup, lookup_empty. cbn.
  destruct (voters v vs); split; naive_solver.
Qed.

(** Adding a voter to its group adds it to the groups' union. *)
Lemma group_insert_perm (g : gmap A (list Z)) v slot :
  mjoin (map snd (map_to_list (<[v := default [] (g !! v) ++ [slot]]> g))) ≡ₚ
  slot :: mjoin (map snd (map_to_list g)).
Proof.
  destruct (g !! v) as [l|] eqn:Hg; cbn [default].
  - rewrite <- (insert_delete_id g v l Hg) at 2. rewrite <- insert_delete_eq.
    rewrite !map_to_list_insert by apply lookup_delete_eq. cbn.
    rewrite <- app_assoc. cbn. by rewrite Permutation_middle.
  - rewrite map_to_list_insert by done. done.
Qed.

Lemma tally_perm vs : mjoin (map snd (map_to_list (tally vs))) ≡ₚ map fst vs.
Proof.
  unfold tally. enough (Hg : forall g, mjoin (map snd (map_to_list (foldl add_vote g vs))) ≡ₚ
    map fst vs ++ mjoin (map snd (map_to_list g))).
  { rewrite Hg, map_to_list_empty. cbn. by rewrite app_nil_r. }
  induction vs as [|[slot w] vs IH]; intros g; cbn [foldl]; [done|].
  rewrite IH. unfold add_vote. cbn [fst snd map app]. rewrite group_insert_perm. by rewrite Permutation_middle.
Qed.

(** The search finds a group of more than half the count, or there is none. *)
Lemma majority_of_spec vs count : 0 <= count ->
  match majority_of (tally vs) count with
  | Some (v, l) => l = voters v vs /\ count < 2 * Z.of_nat (length (voters v vs))
  | None => forall v, 2 * Z.of_nat (length (voters v vs)) <= count
  end.
Proof.
  intros Hc. unfold majority_of. destruct (List.find _ _) as [[v l]|] eqn:Hf.
  - apply find_some in Hf as [Hin Hlt%Z.ltb_lt]. apply list_elem_of_In, tally_elem in Hin as [-> _].
    cbn in Hlt. split; [done|lia].
  - intros v. destruct (voters v vs) as [|x l] eqn:Hv; [cbn; lia|]. rewrite <- Hv.
    assert (Hin : (v, voters v vs) ∈ map_to_list (tally vs)) by (apply tally_elem; rewrite Hv; done).
    apply list_elem_of_In in Hin. pose proof (find_none _ _ Hf _ Hin) as Hge%Z.ltb_ge. cbn in Hge. lia.
Qed.

(** Who did not vote for [v], with each slot voting once. *)
Definition minority (v : A) (vs : list (Z * A)) : list Z := filter (fun slot => slot ∉ voters v vs) (map fst vs).

Section once.
Context (vs : list (Z * A)) (Honce : NoDup (map fst vs)).

Lemma vote_unique slot w w' : (slot, w) ∈ vs -> (slot, w') ∈ vs -> w = w'.
Proof.
  clear -Honce. revert Honce. induction vs as [|[s u] l IH]; cbn; [set_solver|].
  intros [Hn Hnd]%NoDup_cons Hw Hw'.
  assert (Hfst : forall x, (s, x) ∈ l -> False).
  { intros x Hx. apply Hn. apply list_elem_of_fmap. by exists (s, x). }
  apply elem_of_cons in Hw as [[= -> ->]|Hw]; apply elem_of_cons in Hw' as [Hw'|Hw']; simplify_eq; try done;
    try (by destruct (Hfst _ Hw)); try (by destruct (Hfst _ Hw')). by apply IH.
Qed.

Lemma minority_elem v slot : slot ∈ minority v vs <-> exists w, w <> v /\ (slot, w) ∈ vs.
Proof.
  unfold minority. rewrite list_elem_of_filter, elem_of_voters, list_elem_of_fmap. split.
  - intros (Hn & [s w] & -> & Hin). exists w. split; [|done]. intros ->. done.
  - intros (w & Hne & Hin). split; [|by exists (slot, w)]. intros Hv. by apply Hne, (vote_unique slot).
Qed.

Lemma minority_NoDup v : NoDup (minority v vs).
Proof. apply NoDup_filter, Honce. Qed.

Lemma voters_NoDup v : NoDup (voters v vs).
Proof.
  eapply sublist_NoDup; [exact Honce|]. unfold voters. apply (fmap_sublist fst), sublist_filter.
Qed.

Lemma minority_length v : (length (minority v vs) + length (voters v vs) = length vs)%nat.
Proof.
  assert (Hp : minority v vs ++ voters v vs ≡ₚ map fst vs).
  { apply NoDup_Permutation; [|apply Honce|].
    - apply NoDup_app. split_and!; [apply minority_NoDup| |apply voters_NoDup].
      intros s Hs%minority_elem. destruct Hs as (w & Hne & Hin). rewrite elem_of_voters.
      intros Hv. by apply Hne, (vote_unique s).
    - intros s. rewrite elem_of_app, minority_elem, elem_of_voters, list_elem_of_fmap. split.
      + intros [(w & _ & Hin)|Hin]; [by exists (s, w)|by exists (s, v)].
      + intros ([s' w] & -> & Hin). cbn. destruct (decide (w = v)) as [-> |]; eauto. }
  apply Permutation_length in Hp. rewrite length_app, length_map in Hp. done.
Qed.

End once.
End votes.

(** ** Sorting the accused *)

#[export] Instance Z_le_decision : RelDecision Z.le := Z_le_dec.

(** [sort_unstable] on slots. *)
Definition sort_slots (l : list Z) : list Z := merge_sort Z.le l.

Lemma sort_slots_perm l : sort_slots l ≡ₚ l.
Proof. apply merge_sort_Permutation. Qed.

Lemma sort_slots_sorted l : NoDup l -> StronglySorted Z.lt (sort_slots l).
Proof.
  intros Hnd. assert (Hs : StronglySorted Z.le (sort_slots l)) by apply (StronglySorted_merge_sort Z.le).
  rewrite <- sort_slots_perm in Hnd. induction Hs as [|x l' ? IH Hall]; [constructor|].
  apply NoDup_cons in Hnd as [Hx Hnd].
  constructor; [by apply IH|]. rewrite Forall_forall in *. intros y Hy.
  pose proof (Hall y Hy). assert (x <> y) by (intros ->; done). lia.
Qed.
