(* ===== verification/SyncTurns.v ===== *)
(** * Ordering checksum metadata per origin ([relay/src/consensus/sync/turns.rs])

    Checksums arrive with their turns, in any order.  Per slot, a turn's
    metadata waits until every earlier turn of the slot has arrived; it is then
    given its canonical ordinal, either by unwrapping the sixteen-entry ring or
    from the generation the client declared.  An origin whose history cannot be
    trusted fails for good, alone. *)

From Stdlib Require Import ZArith Lia.
From stdpp Require Import gmap sorting list.
From S2P Require Import Prelude BTree Dedup.

Open Scope Z_scope.

Definition SYNC_TURN_WINDOW : Z := RECEIVE_WINDOW.
Definition SYNC_RING_MODULUS : Z := 16.
Definition GAME_SYNC_SAFE_BUFFER_MAX : Z := 14.

(** The compared checksum: two bytes. *)
Abbreviation SyncValue := (Z * Z)%type.

Record SyncCommand : Type := mkSyncCommand { ring : Z; kind : Z; value : SyncValue }.

Record SyncGap : Type := mkSyncGap { gap_first : Z; gap_end : Z }.

Record SyncTurn : Type := mkSyncTurn {
  frame : option Z;
  ordinal : option Z;
  command : option SyncCommand;
  generation : option Z;
  skipped : option SyncGap;
}.

Inductive SyncMode : Type := Legacy | Enhanced.

Inductive failure_reason : Type :=
| SequenceGap | MetadataCapacity | SequenceOverflow | OrdinalOverflow | RingDiscontinuity
| GenerationOverflow | GenerationInitialAnchor | GenerationModeMismatch | GenerationRingMismatch
| GenerationMissingAnchor | GenerationRegression | GenerationJump | GenerationWithoutSync.

Record SyncOrderingFailure : Type := mkSyncOrderingFailure {
  reason : failure_reason;
  fail_seq : Z;
  fail_next : Z;
  previous_ordinal : option Z;
  fail_ring : option Z;
}.

Record SlotTurns : Type := mkSlotTurns {
  st_next : Z;
  st_pending : list (Z * SyncTurn);
  st_ordinal : option Z;
  st_mode : option SyncMode;
  st_failure : option SyncOrderingFailure;
}.

Definition default_slot_turns : SlotTurns := mkSlotTurns 0 [] None None None.

(** The [while] loop of [first_missing]; each round names another held turn. *)
Fixpoint first_missing_loop (fuel : nat) (pending : list (Z * SyncTurn)) (next : Z) : Z :=
  match fuel with
  | O => next
  | S fuel =>
      match BTreeMap.get pending next with
      | None => next
      | Some _ =>
          match checked_add u64_max next 1 with
          | None => next
          | Some following => first_missing_loop fuel pending following
          end
      end
  end.

Definition first_missing (st : SlotTurns) : Z :=
  first_missing_loop (S (length (st_pending st))) (st_pending st) (st_next st).

Definition fail (st : SlotTurns) (r : failure_reason) (seq : Z) (t : SyncTurn) :
  SyncOrderingFailure * SlotTurns :=
  let f := mkSyncOrderingFailure r seq (first_missing st) (st_ordinal st) (ring <$> command t) in
  (f, mkSlotTurns (st_next st) [] (st_ordinal st) (st_mode st) (Some f)).

Definition unwrap_legacy_ordinal (last : option Z) (r : Z) : result Z failure_reason :=
  match last with
  | None => Ok r
  | Some last =>
      if last mod SYNC_RING_MODULUS =? r then Ok last
      else if (last mod SYNC_RING_MODULUS + 1) mod SYNC_RING_MODULUS =? r then
        match checked_add u64_max last 1 with Some n => Ok n | None => Err OrdinalOverflow end
      else Err RingDiscontinuity
  end.

(** The ordinal of a turn that carries a checksum, and the generations its
    origin skipped; the mode is set before a first legacy turn is unwrapped. *)
Definition assign (mode : option SyncMode) (last : option Z) (c : SyncCommand) (gen : option Z) :
  result (Z * option SyncGap) failure_reason * option SyncMode :=
  let unwrapped := match unwrap_legacy_ordinal last (ring c) with
                   | Ok n => Ok (n, None)
                   | Err e => Err e
                   end in
  match mode, gen with
  | None, None => (unwrapped, Some Legacy)
  | None, Some g =>
      if g =? u64_max then (Err GenerationOverflow, None)
      else if negb (g =? ring c) then (Err GenerationInitialAnchor, None)
      else (Ok (g, None), Some Enhanced)
  | Some Legacy, None => (unwrapped, mode)
  | Some Legacy, Some _ | Some Enhanced, None => (Err GenerationModeMismatch, mode)
  | Some Enhanced, Some g =>
      (if g =? u64_max then Err GenerationOverflow
       else if negb (g mod SYNC_RING_MODULUS =? ring c) then Err GenerationRingMismatch
       else
         match last with
         | None => Err GenerationMissingAnchor
         | Some last =>
             match checked_sub g last with
             | None => Err GenerationRegression
             | Some delta =>
                 if GAME_SYNC_SAFE_BUFFER_MAX <? delta then Err GenerationJump
                 else if 1 <? delta then
                   match checked_add u64_max last 1 with
                   | None => Err OrdinalOverflow
                   | Some f => Ok (g, Some (mkSyncGap f g))
                   end
                 else Ok (g, None)
             end
         end, mode)
  end.

Definition consume (st : SlotTurns) (seq : Z) (t : SyncTurn) :
  result SyncTurn SyncOrderingFailure * SlotTurns :=
  let failing st r := let x := fail st r seq t in (Err x.1, x.2) in
  match checked_add u64_max (st_next st) 1 with
  | None => failing st SequenceOverflow
  | Some next =>
      match command t with
      | Some c =>
          match assign (st_mode st) (st_ordinal st) c (generation t) with
          | (Err r, mode) =>
              failing (mkSlotTurns (st_next st) (st_pending st) (st_ordinal st) mode (st_failure st)) r
          | (Ok (n, gap), mode) =>
              (Ok (mkSyncTurn (frame t) (Some n) (command t) (generation t)
                     (match gap with Some g => Some g | None => skipped t end)),
               mkSlotTurns next (st_pending st) (Some n) mode (st_failure st))
          end
      | None =>
          match generation t with
          | Some _ => failing st GenerationWithoutSync
          | None => (Ok t, mkSlotTurns next (st_pending st) (st_ordinal st) (st_mode st) (st_failure st))
          end
      end
  end.

Definition ok_some (x : result SyncTurn SyncOrderingFailure * SlotTurns) :
  result (option SyncTurn) SyncOrderingFailure * SlotTurns :=
  (match x.1 with Ok t => Ok (Some t) | Err e => Err e end, x.2).

Definition push_slot (st : SlotTurns) (seq : Z) (t : SyncTurn) :
  result (option SyncTurn) SyncOrderingFailure * SlotTurns :=
  if (match st_failure st with Some _ => true | None => false end) || (seq <? st_next st) then (Ok None, st)
  else if seq =? st_next st then ok_some (consume st seq t)
  else if (SYNC_TURN_WINDOW <=? seq - st_next st) &&
          (SYNC_TURN_WINDOW <=? saturating_sub seq (first_missing st)) then
    let x := fail st SequenceGap seq t in (Err x.1, x.2)
  else if (SYNC_TURN_WINDOW <=? Z.of_nat (length (st_pending st))) &&
          (match BTreeMap.get (st_pending st) seq with Some _ => false | None => true end) then
    let x := fail st MetadataCapacity seq t in (Err x.1, x.2)
  else
    (Ok None,
     mkSlotTurns (st_next st)
       (match BTreeMap.get (st_pending st) seq with
        | Some _ => st_pending st
        | None => BTreeMap.insert seq t (st_pending st)
        end) (st_ordinal st) (st_mode st) (st_failure st)).

Definition pop_slot (st : SlotTurns) : result (option SyncTurn) SyncOrderingFailure * SlotTurns :=
  match BTreeMap.get (st_pending st) (st_next st) with
  | None => (Ok None, st)
  | Some t =>
      ok_some (consume (mkSlotTurns (st_next st) (BTreeMap.remove (st_next st) (st_pending st))
                          (st_ordinal st) (st_mode st) (st_failure st)) (st_next st) t)
  end.

(** ** The per-origin registry *)

Abbreviation SyncTurns := (gmap Z SlotTurns).

Definition push (ts : SyncTurns) (slot seq : Z) (t : SyncTurn) :
  result (option SyncTurn) SyncOrderingFailure * SyncTurns :=
  let x := push_slot (default default_slot_turns (ts !! slot)) seq t in (x.1, <[slot := x.2]> ts).

Definition pop_ready (ts : SyncTurns) (slot : Z) :
  result (option SyncTurn) SyncOrderingFailure * SyncTurns :=
  match ts !! slot with
  | None => (Ok None, ts)
  | Some st => let x := pop_slot st in (x.1, <[slot := x.2]> ts)
  end.

Definition failure (ts : SyncTurns) (slot : Z) : option SyncOrderingFailure :=
  st ← ts !! slot; st_failure st.
Definition unavailable (ts : SyncTurns) (slot : Z) : bool :=
  match failure ts slot with Some _ => true | None => false end.
Definition ordered (ts : SyncTurns) (slot : Z) : bool :=
  match ts !! slot with
  | Some st =>
      (match st_failure st with None => true | Some _ => false end) &&
      (match st_ordinal st with Some _ => true | None => false end) &&
      (match st_pending st with [] => true | _ => false end)
  | None => false
  end.

(** ** The sequential specification

    What an origin's stream means when it is read in order, one turn at a time:
    no window, no buffer, no arrival order. *)

Abbreviation cursor := (option SyncMode * option Z)%type.

Definition annotate (s : cursor) (t : SyncTurn) : option (SyncTurn * cursor) :=
  match command t with
  | Some c =>
      match assign s.1 s.2 c (generation t) with
      | (Ok (n, gap), mode) =>
          Some (mkSyncTurn (frame t) (Some n) (command t) (generation t)
                  (match gap with Some g => Some g | None => skipped t end), (mode, Some n))
      | (Err _, _) => None
      end
  | None => match generation t with Some _ => None | None => Some (t, s) end
  end.

(** The first [k] turns of a stream, annotated, and the cursor after them. *)
Fixpoint sequential (T : Z -> SyncTurn) (k : nat) : option (list SyncTurn * cursor) :=
  match k with
  | O => Some ([], (None, None))
  | S k =>
      match sequential T k with
      | Some (outs, s) =>
          match annotate s (T (Z.of_nat k)) with
          | Some (t, s') => Some (outs ++ [t], s')
          | None => None
          end
      | None => None
      end
  end.

(** Arrivals of one origin and drains of its queue, in any order. *)
Inductive turn_op : Type := TPush (seq : Z) (t : SyncTurn) | TPop.

Definition turn_step (st : SlotTurns) (op : turn_op) :
  result (option SyncTurn) SyncOrderingFailure * SlotTurns :=
  match op with TPush seq t => push_slot st seq t | TPop => pop_slot st end.

Definition emitted (r : result (option SyncTurn) SyncOrderingFailure) : list SyncTurn :=
  match r with Ok (Some t) => [t] | _ => [] end.

Fixpoint turn_run (ops : list turn_op) (st : SlotTurns) : list SyncTurn * SlotTurns :=
  match ops with
  | [] => ([], st)
  | op :: ops =>
      let x := turn_step st op in
      let y := turn_run ops x.2 in
      (emitted x.1 ++ y.1, y.2)
  end.

(** Every arrival is the turn the stream has at its sequence. *)
Definition of_stream (T : Z -> SyncTurn) (op : turn_op) : Prop :=
  match op with TPush seq t => 0 <= seq /\ t = T seq | TPop => True end.

Lemma consume_annotate st seq t : st_next st < u64_max -> 0 <= st_next st ->
  match annotate (st_mode st, st_ordinal st) t with
  | Some (t', s') =>
      consume st seq t = (Ok t', mkSlotTurns (st_next st + 1) (st_pending st) s'.2 s'.1 (st_failure st))
  | None =>
      exists f, (consume st seq t).1 = Err f /\ st_failure (consume st seq t).2 = Some f /\
        st_pending (consume st seq t).2 = []
  end.
Proof.
  intros Hn H0. unfold annotate, consume, checked_add. cbn [fst snd].
  replace (st_next st + 1 <=? u64_max) with true by (symmetry; apply Z.leb_le; lia).
  destruct (command t) as [c|].
  - destruct (assign (st_mode st) (st_ordinal st) c (generation t)) as [[[n gap]|r] mode]; cbn; eauto.
  - destruct (generation t); cbn; eauto.
Qed.

(** What a slot's state owes to the part of its stream it has consumed. *)
Record slot_inv (T : Z -> SyncTurn) (outs : list SyncTurn) (st : SlotTurns) : Prop := mkSlotInv {
  si_seq : exists s, sequential T (length outs) = Some (outs, s) /\
             (st_failure st = None -> s = (st_mode st, st_ordinal st));
  si_next : st_failure st = None -> st_next st = Z.of_nat (length outs);
  si_range : 0 <= st_next st <= u64_max;
  si_pending : forall k t, (k, t) ∈ st_pending st -> t = T k;
  si_wf : BTreeMap.wf (st_pending st);
  si_bound : Z.of_nat (length (st_pending st)) <= SYNC_TURN_WINDOW;
  si_failed : st_failure st <> None -> st_pending st = [];
}.

Lemma slot_inv_init T : slot_inv T [] default_slot_turns.
Proof.
  split; cbn; try done; try (width_lia).
  - exists (None, None). done.
  - intros k t Hin. by apply elem_of_nil in Hin.
  - constructor.
Qed.

Lemma consume_inv T outs st seq :
  slot_inv T outs st -> st_failure st = None ->
  let x := ok_some (consume st seq (T (st_next st))) in slot_inv T (outs ++ emitted x.1) x.2.
Proof.
  intros [(s & Hs & Hcur) Hnext Hrange Hpend Hwf Hbound Hfailed] Hf x.
  specialize (Hcur Hf). specialize (Hnext Hf). subst s.
  assert (Hfail : forall f, x.1 = Err f -> st_failure x.2 = Some f -> st_pending x.2 = [] ->
            0 <= st_next x.2 <= u64_max -> slot_inv T (outs ++ emitted x.1) x.2).
  { intros f Hx1 Hxf Hxp Hxn. rewrite Hx1. cbn [emitted]. rewrite app_nil_r.
    split; rewrite ?Hxf, ?Hxp; try done; try (eexists; split; [exact Hs | done]).
    - intros k t Hin. by apply elem_of_nil in Hin.
    - constructor. }
  assert (Hcase : st_next st = u64_max \/ st_next st < u64_max) by lia.
  destruct Hcase as [Hmax | Hlt].
  - assert (Hov : checked_add u64_max (st_next st) 1 = None).
    { unfold checked_add. rewrite Hmax. done. }
    unfold x, consume in *. rewrite Hov in *. cbn [ok_some fst snd fail st_failure st_pending st_next] in *.
    eapply Hfail; try reflexivity. lia.
  - pose proof (consume_annotate st seq (T (st_next st)) Hlt ltac:(lia)) as Hc.
    destruct (annotate (st_mode st, st_ordinal st) (T (st_next st))) as [[t' [m o]]|] eqn:Ha.
    + unfold x. rewrite Hc. cbn [ok_some fst snd emitted].
      split; cbn [st_failure st_next st_mode st_ordinal st_pending]; try done; try lia.
      * exists (m, o). rewrite length_app. cbn [length]. rewrite Nat.add_1_r. cbn [sequential].
        rewrite Hs, <- Hnext, Ha. done.
      * rewrite length_app. cbn [length]. lia.
    + destruct Hc as (f & H1 & H2 & H3). apply (Hfail f); unfold x, ok_some; cbn [fst snd]; try done.
      * by rewrite H1.
      * unfold consume, fail. destruct (checked_add u64_max (st_next st) 1) as [n|] eqn:Hn;
          [apply checked_add_Some in Hn | cbn; lia].
        destruct (command (T (st_next st))) as [c|], (generation (T (st_next st))) as [g|]; cbn; try lia;
        match goal with |- context [assign ?a ?b ?c ?d] => destruct (assign a b c d) as [[[? ?]|?] ?] end;
        cbn; lia.
Qed.

Lemma slot_inv_removed T outs st k :
  slot_inv T outs st ->
  slot_inv T outs (mkSlotTurns (st_next st) (BTreeMap.remove k (st_pending st))
                     (st_ordinal st) (st_mode st) (st_failure st)).
Proof.
  intros [Hs Hn Hr Hp Hw Hb Hf]. split; cbn; try done.
  - intros j u Hju. apply (Hp j u). by apply list_elem_of_filter in Hju as [_ ?].
  - by apply BTreeMap.wf_remove.
  - pose proof (length_filter (fun p : Z * SyncTurn => p.1 <> k) (st_pending st)).
    unfold BTreeMap.remove, BTreeMap.retain. lia.
  - intros E. by rewrite (Hf E).
Qed.

Lemma turn_pop_inv T outs st :
  slot_inv T outs st -> slot_inv T (outs ++ emitted (pop_slot st).1) (pop_slot st).2.
Proof.
  intros Hi. unfold pop_slot. destruct (BTreeMap.get (st_pending st) (st_next st)) as [t|] eqn:Hg.
  - assert (Hf : st_failure st = None).
    { destruct (st_failure st) eqn:E; [|done]. rewrite (si_failed _ _ _ Hi) in Hg by congruence. done. }
    pose proof (BTreeMap.elem_of_get _ _ _ Hg) as Hin.
    rewrite (si_pending _ _ _ Hi _ _ Hin).
    apply (consume_inv T outs (mkSlotTurns _ _ _ _ _) (st_next st)); [|done].
    by apply slot_inv_removed.
  - cbn. by rewrite app_nil_r.
Qed.

Lemma fail_inv T outs st r seq t :
  slot_inv T outs st -> slot_inv T outs (fail st r seq t).2.
Proof.
  intros [(s & Hs & _) Hn Hr Hp Hw Hb _]. split; cbn; try done.
  - by exists s.
  - intros k u Hin. by apply elem_of_nil in Hin.
  - constructor.
Qed.

Lemma turn_push_inv T outs st seq :
  slot_inv T outs st -> 0 <= seq ->
  slot_inv T (outs ++ emitted (push_slot st seq (T seq)).1) (push_slot st seq (T seq)).2.
Proof.
  intros Hi Hseq. unfold push_slot.
  destruct (st_failure st) as [f|] eqn:Hf; cbn [orb].
  { cbn. by rewrite app_nil_r. }
  destruct (Z.ltb_spec seq (st_next st)) as [Hlt|Hge]; [cbn; by rewrite app_nil_r|].
  destruct (Z.eqb_spec seq (st_next st)) as [-> | Hne]; [by apply consume_inv|].
  destruct (_ && _); [cbn [fst snd emitted]; rewrite app_nil_r; by apply fail_inv|].
  destruct (BTreeMap.get (st_pending st) seq) as [u|] eqn:Hg.
  { rewrite andb_false_r. cbn. rewrite app_nil_r. rewrite <- Hf. destruct st; exact Hi. }
  rewrite andb_true_r. destruct (Z.leb_spec SYNC_TURN_WINDOW (Z.of_nat (length (st_pending st)))).
  { cbn [fst snd emitted]. rewrite app_nil_r. by apply fail_inv. }
  cbn [fst snd emitted]. rewrite app_nil_r. destruct Hi as [Hs Hn Hr Hp Hw Hb Hfl].
  rewrite Hf in Hs, Hn. split; cbn; try done.
  - assert (Hall : Forall (fun p => p.2 = T p.1) (BTreeMap.insert seq (T seq) (st_pending st))).
    { apply BTreeMap.insert_forall; [done|]. apply Forall_forall. intros [k t] Hin. by apply Hp. }
    intros k t Hin. rewrite Forall_forall in Hall. exact (Hall _ Hin).
  - by apply BTreeMap.wf_insert.
  - pose proof (BTreeMap.length_insert_le seq (T seq) (st_pending st)). lia.
Qed.

Lemma run_inv T ops outs st :
  slot_inv T outs st -> Forall (of_stream T) ops ->
  slot_inv T (outs ++ (turn_run ops st).1) (turn_run ops st).2.
Proof.
  revert outs st. induction ops as [|op ops IH]; cbn; intros outs st Hi Hops; [by rewrite app_nil_r|].
  inversion_clear Hops as [|? ? Hop Hops']. rewrite app_assoc. apply IH; [|done].
  destruct op as [seq t|]; cbn in *; [|by apply turn_pop_inv].
  destruct Hop as [H0 ->]. by apply turn_push_inv.
Qed.

(** *** Nothing that arrived is forgotten *)

Definition held (st : SlotTurns) (seq : Z) : Prop :=
  seq < st_next st \/ is_Some (BTreeMap.get (st_pending st) seq).

Lemma consume_ok_state st seq t : st_failure (consume st seq t).2 = None ->
  st_failure st = None /\ st_next (consume st seq t).2 = st_next st + 1 /\
  st_pending (consume st seq t).2 = st_pending st.
Proof.
  unfold consume, checked_add.
  destruct (_ <=? _); [|done].
  destruct (command t) as [c|]; [|destruct (generation t); cbn; [done|auto]].
  destruct (assign _ _ _ _) as [[[n g]|r] m]; cbn; [auto|done].
Qed.

Lemma held_step st op seq :
  st_failure (turn_step st op).2 = None ->
  held st seq \/ (exists t, op = TPush seq t) -> held (turn_step st op).2 seq.
Proof.
  destruct op as [s t|]; cbn [turn_step]; unfold push_slot, pop_slot.
  - destruct (st_failure st) eqn:Hf; cbn [orb fst snd]; [congruence|].
    destruct (Z.ltb_spec s (st_next st)).
    { intros _ [?|[? [= -> ->]]]; [done|by left]. }
    destruct (Z.eqb_spec s (st_next st)) as [-> |].
    { cbn [ok_some snd]. intros Hok. destruct (consume_ok_state _ _ _ Hok) as (_ & Hn & Hp).
      unfold held. rewrite Hn, Hp. intros [[?|?]|[? [= <- <-]]]; [left; lia|by right|left; lia]. }
    destruct (_ && _); [done|].
    destruct (BTreeMap.get (st_pending st) s) as [u|] eqn:Hg;
      [rewrite andb_false_r | rewrite andb_true_r; destruct (_ <=? _); [done|]];
      cbn; intros _; unfold held; cbn.
    + intros [?|[? [= <- <-]]]; [done|]. right. by rewrite Hg.
    + rewrite BTreeMap.get_insert. intros [[?|?]|[? [= -> ->]]]; [by left|right..];
        case_decide; by eauto.
  - destruct (BTreeMap.get (st_pending st) (st_next st)) as [t|] eqn:Hg.
    + cbn [ok_some snd]. intros Hok. destruct (consume_ok_state _ _ _ Hok) as (_ & Hn & Hp).
      unfold held. rewrite Hn, Hp. cbn. intros [[?|?]|[? [=]]]; [left; lia|].
      rewrite BTreeMap.get_remove. destruct (decide (seq = st_next st)) as [-> |]; [left; lia|].
      by right.
    + intros _ [?|[? [=]]]. done.
Qed.

Lemma step_failure_mono st op : st_failure (turn_step st op).2 = None -> st_failure st = None.
Proof.
  destruct op as [s t|]; cbn [turn_step]; unfold push_slot, pop_slot.
  - destruct (st_failure st) eqn:Hf; cbn; [congruence|done].
  - destruct (BTreeMap.get _ _); [|done]. intros Hok. by apply consume_ok_state in Hok as [? _].
Qed.

Lemma run_failure_mono ops st : st_failure (turn_run ops st).2 = None -> st_failure st = None.
Proof.
  revert st. induction ops as [|op ops IH]; cbn; intros st H; [done|].
  eapply step_failure_mono, IH, H.
Qed.

Lemma run_held ops st seq :
  st_failure (turn_run ops st).2 = None ->
  held st seq \/ (exists t, TPush seq t ∈ ops) -> held (turn_run ops st).2 seq.
Proof.
  revert st. induction ops as [|op ops IH]; cbn; intros st Hf H.
  - destruct H as [?|[t Ht]]; [done|by apply elem_of_nil in Ht].
  - apply IH; [done|]. apply run_failure_mono in Hf.
    destruct H as [H|[t [<- | H]%elem_of_cons]]; [left..|right; eauto]; apply held_step; eauto.
Qed.

(** Arrival order is immaterial: whatever the interleaving of an origin's
    arrivals (late, early, repeated) and of the drains of its queue, the turns
    emitted are the prefix of its stream read in order, each with the ordinal
    and the skipped interval the sequential reading gives it; at most a window
    of turns is ever held; and a drained queue that has not failed has emitted
    every prefix that arrived whole. *)
Theorem turn_order_immaterial (T : Z -> SyncTurn) (ops : list turn_op)
    (H : Forall (of_stream T) ops) :
  let outs := (turn_run ops default_slot_turns).1 in
  let st := (turn_run ops default_slot_turns).2 in
  (exists s, sequential T (length outs) = Some (outs, s)) /\
  Z.of_nat (length (st_pending st)) <= SYNC_TURN_WINDOW /\
  (st_failure st = None -> (pop_slot st).1 = Ok None ->
   forall n, (forall k, 0 <= k < n -> exists t, TPush k t ∈ ops) -> n <= Z.of_nat (length outs)).
Proof.
  intros outs st. pose proof (run_inv T ops [] _ (slot_inv_init T) H) as [(s & Hs & _) Hn Hr _ _ Hb _].
  cbn [app] in *. fold outs st in Hs, Hn, Hr, Hb. split; [by exists s|]. split; [done|].
  intros Hf Hpop n Hall. specialize (Hn Hf). destruct (Z.le_gt_cases n (st_next st)) as [?|Hgt]; [lia|].
  assert (Hheld : held st (st_next st)).
  { apply run_held; [done|]. right. apply Hall. lia. }
  destruct Hheld as [?|[t Ht]]; [lia|]. unfold pop_slot in Hpop. rewrite Ht in Hpop.
  unfold ok_some in Hpop. cbn [fst] in Hpop. by destruct (consume _ _ _).1.
Qed.

(** ** A stream the window can hold never fails *)

(** Each arrival is new, as behind the session's dedup gate, and within the
    window of the next turn awaited. *)
Fixpoint paced (ops : list turn_op) (st : SlotTurns) : Prop :=
  match ops with
  | [] => True
  | op :: ops =>
      match op with
      | TPush seq _ => ~ held st seq /\ seq < st_next st + SYNC_TURN_WINDOW
      | TPop => True
      end /\ paced ops (turn_step st op).2
  end.

Lemma keys_bound {V} (m : list (Z * V)) lo hi : BTreeMap.wf m ->
  (forall k v, (k, v) ∈ m -> lo <= k < hi) -> lo <= hi -> Z.of_nat (length m) <= hi - lo.
Proof.
  intros Hwf Hin Hle. rewrite <- (length_map fst). apply BTreeSet.length_bound; [|..|done].
  - induction Hwf as [|[k v] m ? IH Hall]; cbn; [constructor|]. constructor.
    + apply IH. intros k' v' ?. apply (Hin k' v'). by right.
    + apply Forall_map. done.
  - intros x Hx. apply list_elem_of_fmap in Hx as ([k v] & -> & Hkv). by apply (Hin k v).
Qed.

Lemma sequential_prefix T n k : (k <= n)%nat -> is_Some (sequential T n) -> is_Some (sequential T k).
Proof.
  induction 1 as [|n ? IH]; [done|]. intros Hn. apply IH. cbn in Hn.
  destruct (sequential T n); [eauto|]. by apply is_Some_None in Hn.
Qed.

(** Consuming the next turn of a valid stream succeeds. *)
Lemma consume_valid T outs st seq N :
  slot_inv T outs st -> st_failure st = None -> st_next st < Z.of_nat N <= u64_max ->
  is_Some (sequential T N) -> st_failure (consume st seq (T (st_next st))).2 = None.
Proof.
  intros Hi Hf HN Hseq. destruct Hi as [(s & Hs & Hc) Hn Hr _ _ _ _].
  specialize (Hn Hf). specialize (Hc Hf). subst s.
  assert (Hk : is_Some (sequential T (S (length outs)))) by (eapply sequential_prefix; [|done]; lia).
  cbn in Hk. rewrite Hs, <- Hn in Hk.
  pose proof (consume_annotate st seq (T (st_next st)) ltac:(lia) ltac:(lia)) as Ha.
  destruct (annotate _ _) as [[t' s']|]; [by rewrite Ha|]. by apply is_Some_None in Hk.
Qed.

Record within (N : Z) (st : SlotTurns) : Prop := mkWithin {
  wi_ok : st_failure st = None;
  wi_keys : forall k t, (k, t) ∈ st_pending st ->
              st_next st <= k < st_next st + SYNC_TURN_WINDOW /\ k < N;
}.

(** The next turn moves out, whether it arrives or was held. *)
Lemma within_consume T outs st N seq :
  slot_inv T outs st -> within (Z.of_nat N) st -> st_next st < Z.of_nat N <= u64_max ->
  is_Some (sequential T N) -> BTreeMap.get (st_pending st) (st_next st) = None ->
  within (Z.of_nat N) (consume st seq (T (st_next st))).2.
Proof.
  intros Hi [Hok Hkeys] HN Hseq Hnone.
  pose proof (consume_valid T outs st seq N Hi Hok HN Hseq) as Hf.
  destruct (consume_ok_state _ _ _ Hf) as (_ & Hn & Hp).
  split; [done|]. rewrite Hn, Hp. intros k t Hin. destruct (Hkeys k t Hin) as [Hk ?].
  assert (k <> st_next st); [|lia]. intros ->.
  rewrite (BTreeMap.get_elem_of _ _ _ (si_wf _ _ _ Hi) Hin) in Hnone. done.
Qed.

Lemma within_push T outs st N seq :
  slot_inv T outs st -> within (Z.of_nat N) st -> 0 <= seq < Z.of_nat N -> Z.of_nat N <= u64_max ->
  is_Some (sequential T N) -> ~ held st seq -> seq < st_next st + SYNC_TURN_WINDOW ->
  within (Z.of_nat N) (push_slot st seq (T seq)).2.
Proof.
  intros Hi Hw Hseq HN Hvalid Hnew Hwin. pose proof (wi_ok _ _ Hw) as Hok. unfold push_slot. rewrite Hok.
  cbn [orb]. assert (Hge : st_next st <= seq) by (apply Z.nlt_ge; intros ?; apply Hnew; by left).
  assert (Hget : BTreeMap.get (st_pending st) seq = None).
  { destruct (BTreeMap.get _ seq) eqn:E; [|done]. exfalso. apply Hnew. right. by rewrite E. }
  rewrite (proj2 (Z.ltb_ge _ _) Hge), Hget.
  destruct (Z.eqb_spec seq (st_next st)) as [-> | Hne].
  { cbn [ok_some snd]. apply (within_consume T outs); auto; lia. }
  rewrite (proj2 (Z.leb_gt SYNC_TURN_WINDOW (seq - st_next st)) ltac:(lia)). cbn [andb].
  assert (Hlen : Z.of_nat (length (st_pending st)) < SYNC_TURN_WINDOW).
  { assert (Hb : Z.of_nat (length (BTreeMap.insert seq (T seq) (st_pending st)))
              <= st_next st + SYNC_TURN_WINDOW - st_next st).
    { apply keys_bound; [by apply BTreeMap.wf_insert, Hi| |unfold SYNC_TURN_WINDOW, RECEIVE_WINDOW; lia].
      intros k v Hin. apply BTreeMap.elem_of_map_insert in Hin as [[= -> ->]|Hin]; [lia|].
      by destruct (wi_keys _ _ Hw k v Hin). }
    rewrite BTreeMap.length_insert_new in Hb by done. lia. }
  rewrite (proj2 (Z.leb_gt _ _) Hlen). cbn. split; [done|]. cbn.
  intros k t Hin. apply BTreeMap.elem_of_map_insert in Hin as [[= -> ->]|Hin]; [lia|].
  by apply (wi_keys _ _ Hw k t).
Qed.

Lemma within_pop T outs st N :
  slot_inv T outs st -> within (Z.of_nat N) st -> Z.of_nat N <= u64_max ->
  is_Some (sequential T N) -> within (Z.of_nat N) (pop_slot st).2.
Proof.
  intros Hi Hw HN Hvalid. unfold pop_slot.
  destruct (BTreeMap.get (st_pending st) (st_next st)) as [t|] eqn:Hg; [|done].
  pose proof (BTreeMap.elem_of_get _ _ _ Hg) as Hin.
  rewrite (si_pending _ _ _ Hi _ _ Hin). pose proof (wi_keys _ _ Hw _ _ Hin) as [_ Hlt].
  set (st' := mkSlotTurns _ _ _ _ _). cbn [ok_some snd].
  apply (within_consume T outs st' N (st_next st)); cbn; auto; try lia.
  - by apply slot_inv_removed.
  - split; [by apply Hw|]. cbn. intros k u Hk. apply list_elem_of_filter in Hk as [_ Hk].
    by apply (wi_keys _ _ Hw k u).
  - rewrite BTreeMap.get_remove. by rewrite decide_True.
Qed.

Lemma within_run T outs ops st N :
  slot_inv T outs st -> within (Z.of_nat N) st -> Z.of_nat N <= u64_max -> is_Some (sequential T N) ->
  Forall (of_stream T) ops -> (forall seq t, TPush seq t ∈ ops -> seq < Z.of_nat N) -> paced ops st ->
  within (Z.of_nat N) (turn_run ops st).2.
Proof.
  intros Hi Hw HN Hvalid. revert outs st Hi Hw.
  induction ops as [|op ops IH]; cbn [turn_run paced snd]; intros outs st Hi Hw Hops Hlt Hp; [done|].
  inversion_clear Hops as [|? ? Hop Hops']. destruct Hp as [Hnow Hp].
  assert (Hlt' : forall seq t, TPush seq t ∈ ops -> seq < Z.of_nat N).
  { intros seq t Hin. apply (Hlt seq t). by right. }
  destruct op as [seq t|]; cbn [turn_step of_stream] in *.
  - destruct Hop as [H0 ->], Hnow as [Hnew Hwin].
    assert (seq < Z.of_nat N) by (apply (Hlt seq (T seq)); left).
    eapply IH; [by apply turn_push_inv| |done..]. by eapply within_push.
  - eapply IH; [by apply turn_pop_inv| |done..]. by eapply within_pop.
Qed.

(** An origin whose stream reads without fault in order, and whose turns
    arrive once each and within the window of the next one awaited, is never
    declared unavailable, whatever the order of arrival. *)
Theorem paced_stream_never_fails (T : Z -> SyncTurn) (N : nat) (ops : list turn_op)
    (Hvalid : is_Some (sequential T N)) (HN : Z.of_nat N <= u64_max)
    (Hops : Forall (of_stream T) ops)
    (Hlt : forall seq t, TPush seq t ∈ ops -> seq < Z.of_nat N)
    (Hpaced : paced ops default_slot_turns) :
  st_failure (turn_run ops default_slot_turns).2 = None.
Proof.
  eapply wi_ok, (within_run T []); eauto using slot_inv_init.
  split; [done|]. cbn. intros k t Hin. by apply elem_of_nil in Hin.
Qed.

(** ** Honest origins

    [G k] is the generation of the checksum turn [k] carries, or of the last
    one before it.  An untagged origin repeats a generation or advances by one;
    a tagged one may also skip, by less than its buffer can hold. *)

Record honest_stream (tagged : bool) (T : Z -> SyncTurn) (G : Z -> Z) : Prop := mkHonest {
  hs_start : 0 <= G 0 < SYNC_RING_MODULUS;
  hs_first : forall k, 0 <= k -> (forall i, 0 <= i < k -> command (T i) = None) -> G k = G 0;
  hs_step : forall k, 0 <= k ->
    G k <= G (k + 1) <= G k + (if tagged then GAME_SYNC_SAFE_BUFFER_MAX else 1);
  hs_hold : forall k, 0 <= k -> command (T (k + 1)) = None -> G (k + 1) = G k;
  hs_max : forall k, 0 <= k -> G k < u64_max;
  hs_ring : forall k c, 0 <= k -> command (T k) = Some c -> ring c = G k mod SYNC_RING_MODULUS;
  hs_tag : forall k, 0 <= k ->
    generation (T k) = if tagged then (fun _ => G k) <$> command (T k) else None;
  hs_gap : forall k, 0 <= k -> skipped (T k) = None;
}.

(** What the comparator should see of turn [k]. *)
Definition decoded (T : Z -> SyncTurn) (G : Z -> Z) (k : Z) (t : SyncTurn) : Prop :=
  frame t = frame (T k) /\ command t = command (T k) /\
  (command (T k) <> None -> ordinal t = Some (G k)) /\
  (forall g, skipped t = Some g ->
     gap_first g < gap_end g /\ forall j, 0 <= j -> command (T j) <> None -> ~ gap_first g <= G j < gap_end g).

Section honest.
Context (tagged : bool) (T : Z -> SyncTurn) (G : Z -> Z) (HS : honest_stream tagged T G).

Let mode : SyncMode := if tagged then Enhanced else Legacy.

Lemma honest_mono j k : 0 <= j <= k -> G j <= G k.
Proof.
  intros [Hj Hk]. replace k with (j + Z.of_nat (Z.to_nat (k - j))) by lia.
  generalize (Z.to_nat (k - j)) as n. induction n as [|n IH]; [rewrite Z.add_0_r; lia|].
  pose proof (hs_step _ _ _ HS (j + Z.of_nat n) ltac:(lia)).
  replace (j + Z.of_nat (S n)) with (j + Z.of_nat n + 1) by lia. lia.
Qed.

Lemma honest_nonneg k : 0 <= k -> 0 <= G k.
Proof. intros. pose proof (honest_mono 0 k ltac:(lia)). pose proof (hs_start _ _ _ HS). lia. Qed.

(** The first checksum anchors the ordinal. *)
Lemma assign_first k c : 0 <= k -> command (T k) = Some c -> G k = G 0 ->
  assign None None c (generation (T k)) = (Ok (G k, None), Some mode).
Proof.
  intros Hk Hc H0. rewrite (hs_tag _ _ _ HS k Hk), Hc.
  assert (Hr : ring c = G k).
  { rewrite (hs_ring _ _ _ HS k c Hk Hc), H0. apply Z.mod_small, HS. }
  unfold mode. destruct tagged; cbn; rewrite Hr; [|done].
  pose proof (hs_max _ _ _ HS k Hk). rewrite (proj2 (Z.eqb_neq _ _)) by lia. by rewrite Z.eqb_refl.
Qed.

Lemma mod_succ_ring a : 0 <= a -> (a mod SYNC_RING_MODULUS + 1) mod SYNC_RING_MODULUS = (a + 1) mod SYNC_RING_MODULUS.
Proof. intros. apply Zplus_mod_idemp_l. Qed.

(** A later checksum advances it by what the origin advanced. *)
Lemma assign_next k c : 0 <= k -> command (T (k + 1)) = Some c ->
  assign (Some mode) (Some (G k)) c (generation (T (k + 1))) =
    (Ok (G (k + 1), if tagged && (1 <? G (k + 1) - G k) then Some (mkSyncGap (G k + 1) (G (k + 1))) else None),
     Some mode).
Proof.
  intros Hk Hc. rewrite (hs_tag _ _ _ HS (k + 1) ltac:(lia)), Hc.
  pose proof (hs_ring _ _ _ HS (k + 1) c ltac:(lia) Hc) as Hr.
  pose proof (hs_step _ _ _ HS k Hk) as Hs. pose proof (hs_max _ _ _ HS (k + 1) ltac:(lia)).
  pose proof (honest_nonneg k Hk). unfold mode. destruct tagged; cbn.
  - rewrite (proj2 (Z.eqb_neq _ _)) by lia. rewrite Hr, Z.eqb_refl. cbn.
    unfold checked_sub, checked_add.
    rewrite (proj2 (Z.leb_le (G k) (G (k + 1)))) by lia.
    rewrite (proj2 (Z.ltb_ge _ _)) by lia.
    destruct (Z.ltb_spec 1 (G (k + 1) - G k)); [|done].
    by rewrite (proj2 (Z.leb_le _ _)) by lia.
  - rewrite Hr. destruct (Z.eq_dec (G (k + 1)) (G k)) as [-> |]; [by rewrite Z.eqb_refl|].
    replace (G (k + 1)) with (G k + 1) by lia. rewrite mod_succ_ring, Z.eqb_refl by done.
    unfold checked_add. rewrite (proj2 (Z.leb_le _ _)) by lia.
    destruct (Z.eqb_spec (G k mod SYNC_RING_MODULUS) ((G k + 1) mod SYNC_RING_MODULUS)) as [E|]; [|done].
    exfalso. apply mod_window_inj in E; unfold SYNC_RING_MODULUS; lia.
Qed.

(** The cursor after [n] turns: empty until a checksum, then the last generation. *)
Definition cursor_at (n : nat) (s : cursor) : Prop :=
  ((forall i, 0 <= i < Z.of_nat n -> command (T i) = None) /\ s = (None, None)) \/
  ((0 < n)%nat /\ s = (Some mode, Some (G (Z.of_nat n - 1)))).

Lemma annotate_honest n s : cursor_at n s ->
  exists t s', annotate s (T (Z.of_nat n)) = Some (t, s') /\ cursor_at (S n) s' /\
    decoded T G (Z.of_nat n) t.
Proof.
  unfold cursor_at at 1. set (k := Z.of_nat n). intros Hs. assert (Hk : 0 <= k) by lia.
  assert (Hsucc : Z.of_nat (S n) - 1 = k) by lia.
  unfold annotate, decoded. destruct (command (T k)) as [c|] eqn:Hc.
  - destruct Hs as [[Hnone ->] | [Hpos ->]]; cbn [fst snd].
    + rewrite (assign_first k c Hk Hc (hs_first _ _ _ HS k Hk Hnone)).
      eexists _, _; split; [done|]. cbn. rewrite (hs_gap _ _ _ HS k Hk). split; [|done].
      right. rewrite Hsucc. split; [lia|done].
    + pose proof (assign_next (k - 1) c ltac:(lia)) as Ha. replace (k - 1 + 1) with k in Ha by lia.
      rewrite (Ha Hc). eexists _, _; split; [done|]. cbn. rewrite (hs_gap _ _ _ HS k Hk). split.
      { right. rewrite Hsucc. split; [lia|done]. }
      split_and!; [done..|]. intros g. destruct (tagged && _) eqn:E; [|done].
      apply andb_prop in E as [_ E%Z.ltb_lt]. intros [= <-]. cbn. split; [lia|]. intros j Hj _ Hin.
      destruct (Z.le_gt_cases k j); [pose proof (honest_mono k j); lia|].
      pose proof (honest_mono j (k - 1)). lia.
  - rewrite (hs_tag _ _ _ HS k Hk), Hc. replace (if tagged then _ else None) with (@None Z) by (by destruct tagged).
    eexists _, _; split; [done|]. rewrite (hs_gap _ _ _ HS k Hk). split; [|done].
    destruct Hs as [[Hnone ->] | [Hpos ->]]; [left|right]; (split; [|try done]).
    + intros i Hi. destruct (Z.eq_dec i k) as [-> |]; [done|apply Hnone; lia].
    + lia.
    + rewrite Hsucc. pose proof (hs_hold _ _ _ HS (k - 1) ltac:(lia)) as Hh.
      replace (k - 1 + 1) with k in Hh by lia. by rewrite (Hh Hc).
Qed.

Lemma sequential_honest n :
  exists outs s, sequential T n = Some (outs, s) /\ length outs = n /\ cursor_at n s /\
    forall k t, outs !! k = Some t -> decoded T G (Z.of_nat k) t.
Proof.
  induction n as [|n (outs & s & Hs & Hlen & Hc & Hd)].
  - eexists [], _; split; [done|]. split; [done|]. split; [left; split; [lia|done]|]. intros k t. done.
  - destruct (annotate_honest n s Hc) as (t & s' & Ha & Hc' & Ht).
    exists (outs ++ [t]), s'. cbn. rewrite Hs, Ha, length_app. cbn. split_and!; [done|lia|done|].
    intros k u [Hu|[Hle Hu]]%lookup_app_Some; [by apply Hd|].
    apply list_lookup_singleton_Some in Hu as [Hu <-]. replace k with n by lia. done.
Qed.

End honest.

(** The relay recovers an honest origin's own numbering: however its turns
    arrive, each turn emitted is the stream's turn at that place, its checksum
    carries exactly the generation the origin recorded it in (from the four-bit
    ring alone when untagged), and an interval declared skipped holds no
    generation the origin ever reports.  Such a stream never fails in order. *)
Theorem honest_generation_recovered (tagged : bool) (T : Z -> SyncTurn) (G : Z -> Z)
    (ops : list turn_op) (HS : honest_stream tagged T G) (Hops : Forall (of_stream T) ops) :
  (forall k t, (turn_run ops default_slot_turns).1 !! k = Some t -> decoded T G (Z.of_nat k) t) /\
  forall n, is_Some (sequential T n).
Proof.
  split.
  - intros k t Ht.
    pose proof (run_inv T ops [] _ (slot_inv_init T) Hops) as [(s & Hs & _) _ _ _ _ _ _].
    destruct (sequential_honest tagged T G HS (length ([] ++ (turn_run ops default_slot_turns).1)))
      as (outs & s' & Hs' & _ & _ & Hd).
    rewrite Hs in Hs'. injection Hs' as <- <-. by apply Hd.
  - intros n. destruct (sequential_honest tagged T G HS n) as (outs & s & -> & _). eauto.
Qed.

(** ** A concrete origin

    It tags its turns and skips two generations at each of its first turns;
    its turns arrive backwards. *)

Definition sample_generation (k : Z) : Z := Z.min (3 * k) 300.
Definition sample_turn (k : Z) : SyncTurn :=
  mkSyncTurn (Some k) None
    (Some (mkSyncCommand (sample_generation k mod SYNC_RING_MODULUS) 1 (7, k mod 256)))
    (Some (sample_generation k)) None.
Definition sample_ops : list turn_op :=
  [TPush 2 (sample_turn 2); TPush 1 (sample_turn 1); TPush 0 (sample_turn 0); TPop; TPop; TPop].

Lemma sample_of_stream : Forall (of_stream sample_turn) sample_ops.
Proof. repeat constructor; lia. Qed.

Lemma sample_honest : honest_stream true sample_turn sample_generation.
Proof.
  split; unfold sample_turn, sample_generation, SYNC_RING_MODULUS, GAME_SYNC_SAFE_BUFFER_MAX;
    cbn [command generation skipped]; intros; try done; try width_lia.
  - destruct (Z.eq_dec k 0) as [-> |]; [done|]. specialize (H0 0 ltac:(lia)). done.
  - by injection H0 as <-.
Qed.

Lemma turn_order_immaterial_witness :
  exists s, sequential sample_turn 3 = Some ((turn_run sample_ops default_slot_turns).1, s).
Proof.
  destruct (turn_order_immaterial sample_turn sample_ops sample_of_stream) as ([s Hs] & _ & _).
  exists s. exact Hs.
Defined.

Lemma paced_stream_never_fails_witness :
  st_failure (turn_run sample_ops default_slot_turns).2 = None.
Proof.
  apply (paced_stream_never_fails sample_turn 3 sample_ops).
  - vm_compute. eauto.
  - done.
  - apply sample_of_stream.
  - intros seq t Hin. repeat (apply elem_of_cons in Hin as [[= -> ->]|Hin]; [lia|]).
    repeat (apply elem_of_cons in Hin as [[=]|Hin]). by apply elem_of_nil in Hin.
  - repeat split; try (intros [H|[t H]]; vm_compute in H; congruence).
Defined.

Lemma honest_generation_recovered_witness :
  (turn_run sample_ops default_slot_turns).1 !! 2%nat =
    Some (mkSyncTurn (Some 2) (Some 6) (Some (mkSyncCommand 6 1 (7, 2))) (Some 6) (Some (mkSyncGap 4 6))) /\
  is_Some (sequential sample_turn 3).
Proof.
  split; [reflexivity|].
  exact (proj2 (honest_generation_recovered true sample_turn sample_generation sample_ops
                  sample_honest sample_of_stream) 3%nat).
Defined.
