(* ===== verification/SyncTracker.v ===== *)
(** * The desync comparator ([relay/src/consensus/sync/mod.rs],
      [relay/src/consensus/sync/tracker.rs])

    Reports carry canonical ordinals by the time they reach the tracker.  An
    ordinal is judged once the furthest slot is a margin past it and every slot
    compared at it has covered it; a strict majority names the minority, which
    is excluded for good, and without a majority the comparator stops. *)

From Stdlib Require Import ZArith Lia.
From stdpp Require Import gmap sorting list.
From S2P Require Import Prelude BTree RateLimit Votes SyncTurns.

Open Scope Z_scope.

Definition SYNC_KIND_UNITS : Z := 1.
Definition SYNC_KIND_HEADER : Z := 2.
Definition SYNC_EVAL_MARGIN_MIN : Z := 8.
Definition SYNC_WINDOW : Z := 64.
Definition SYNC_ABSURD_BUFFER_MAX : Z := SYNC_WINDOW / 2.

Definition sync_eval_margin (bounds_max : Z) : Z := Z.max (bounds_max + 2) SYNC_EVAL_MARGIN_MIN.

(** The largest bounds the backstop lets through already need a margin of more
    than half the window. *)
Lemma backstop_margin_gap : 31 < SYNC_ABSURD_BUFFER_MAX /\ SYNC_WINDOW < 2 * sync_eval_margin 31.
Proof. by vm_compute. Qed.

Definition expected_kind_for_ordinal (ordinal : Z) : Z :=
  if ordinal mod 2 =? 0 then SYNC_KIND_UNITS else SYNC_KIND_HEADER.

Record SyncDivergence : Type := mkSyncDivergence {
  sync_ordinal : Z;
  game_frame : option Z;
  no_majority : bool;
  diverged : list Z;
  missing : list Z;
}.

Record SyncReport : Type := mkSyncReport {
  r_value : SyncValue;
  r_kind : Z;
  r_frame : option Z;
}.

Inductive SyncObservation : Type := Report (r : SyncReport) | Skipped.

Record Member : Type := mkMember { next_expected : Z; since : Z }.

Record SyncTracker : Type := mkSyncTracker {
  dormant : bool;
  initialized : bool;
  base_ordinal : Z;
  members : gmap Z Member;
  pending : list (Z * gmap Z SyncObservation);
  excluded : gset Z;
  duplicate_warns : Z;
  malformed_kind_warns : Z;
  kind_parity_warns : Z;
  evict_warns : Z;
  multi_sync_warns : Z;
}.

Definition default_sync_tracker : SyncTracker := mkSyncTracker false false 0 ∅ [] ∅ 0 0 0 0 0.

(** Field updates. *)
Definition set_dormant (t : SyncTracker) (b : bool) : SyncTracker :=
  mkSyncTracker b (initialized t) (base_ordinal t) (members t) (pending t) (excluded t)
    (duplicate_warns t) (malformed_kind_warns t) (kind_parity_warns t) (evict_warns t) (multi_sync_warns t).
Definition set_start (t : SyncTracker) (i : bool) (b : Z) : SyncTracker :=
  mkSyncTracker (dormant t) i b (members t) (pending t) (excluded t)
    (duplicate_warns t) (malformed_kind_warns t) (kind_parity_warns t) (evict_warns t) (multi_sync_warns t).
Definition set_members (t : SyncTracker) (m : gmap Z Member) : SyncTracker :=
  mkSyncTracker (dormant t) (initialized t) (base_ordinal t) m (pending t) (excluded t)
    (duplicate_warns t) (malformed_kind_warns t) (kind_parity_warns t) (evict_warns t) (multi_sync_warns t).
Definition set_pending (t : SyncTracker) (p : list (Z * gmap Z SyncObservation)) : SyncTracker :=
  mkSyncTracker (dormant t) (initialized t) (base_ordinal t) (members t) p (excluded t)
    (duplicate_warns t) (malformed_kind_warns t) (kind_parity_warns t) (evict_warns t) (multi_sync_warns t).
Definition set_excluded (t : SyncTracker) (e : gset Z) : SyncTracker :=
  mkSyncTracker (dormant t) (initialized t) (base_ordinal t) (members t) (pending t) e
    (duplicate_warns t) (malformed_kind_warns t) (kind_parity_warns t) (evict_warns t) (multi_sync_warns t).
Definition set_base (t : SyncTracker) (b : Z) : SyncTracker := set_start t (initialized t) b.

(** The anomaly counters: [observe] is called for its count. *)
Inductive warn_class : Type := Duplicate | MalformedKind | KindParity | Evict | MultiSync.

Definition warn (w : warn_class) (t : SyncTracker) : SyncTracker :=
  let bump c w' := match w, w' with
    | Duplicate, Duplicate | MalformedKind, MalformedKind | KindParity, KindParity
    | Evict, Evict | MultiSync, MultiSync => (counter_observe c).2
    | _, _ => c end in
  mkSyncTracker (dormant t) (initialized t) (base_ordinal t) (members t) (pending t) (excluded t)
    (bump (duplicate_warns t) Duplicate) (bump (malformed_kind_warns t) MalformedKind)
    (bump (kind_parity_warns t) KindParity) (bump (evict_warns t) Evict)
    (bump (multi_sync_warns t) MultiSync).

(** ** Membership *)

Definition remove_member (t : SyncTracker) (slot : Z) : SyncTracker :=
  set_pending (set_members t (base.delete slot (members t)))
    (BTreeMap.map_values (base.delete slot) (pending t)).

Definition exclude_member (t : SyncTracker) (slot : Z) : SyncTracker :=
  remove_member (set_excluded t ({[slot]} ∪ excluded t)) slot.

Definition disable_for_absurd_bounds (t : SyncTracker) : SyncTracker := set_dormant t true.

(** [self.pending.entry(ordinal).or_default().entry(slot).or_insert(o)]. *)
Definition entry_or_insert (slot : Z) (o : SyncObservation) (ordinal : Z)
    (p : list (Z * gmap Z SyncObservation)) : list (Z * gmap Z SyncObservation) :=
  let reports := default ∅ (BTreeMap.get p ordinal) in
  BTreeMap.insert ordinal
    (match reports !! slot with Some _ => reports | None => <[slot := o]> reports end) p.

(** [for ordinal in skipped.first.max(base)..skipped.end]. *)
Definition record_skipped (t : SyncTracker) (slot since : Z) (gap : SyncGap) : SyncTracker :=
  let first := Z.max (gap_first gap) (base_ordinal t) in
  foldl (fun t ordinal =>
           if ordinal <? since then t
           else set_pending t (entry_or_insert slot Skipped ordinal (pending t)))
    t (seqZ first (gap_end gap - first)).

(** ** Judging one ordinal *)

Record scan : Type := mkScan { comparable : Z; agreed_value : option SyncValue; diverges : bool; mismatched : nat }.

(** The first pass over the observations, which allocates nothing. *)
Definition scan_step (expected : Z) (s : scan) (p : Z * SyncObservation) : scan :=
  match p.2 with
  | Skipped => s
  | Report r =>
      if negb (r_kind r =? expected) then mkScan (comparable s) (agreed_value s) (diverges s) (S (mismatched s))
      else
        match agreed_value s with
        | None => mkScan (comparable s + 1) (Some (r_value r)) (diverges s) (mismatched s)
        | Some v =>
            mkScan (comparable s + 1) (agreed_value s)
              (if decide (v = r_value r) then diverges s else true) (mismatched s)
        end
  end.

Definition group_step (expected : Z) (g : gmap SyncValue (list Z)) (p : Z * SyncObservation) :
  gmap SyncValue (list Z) :=
  match p.2 with
  | Report r =>
      if r_kind r =? expected then <[r_value r := default [] (g !! r_value r) ++ [p.1]]> g else g
  | Skipped => g
  end.

(** [Option::max], where [None] is below every value. *)
Definition option_max (a b : option Z) : option Z :=
  match a, b with
  | Some x, Some y => Some (Z.max x y)
  | Some x, None => Some x
  | None, _ => b
  end.

Definition observed_frame (o : SyncObservation) : option Z :=
  match o with Report r => r_frame r | Skipped => None end.

Definition evaluate (t : SyncTracker) (ordinal : Z) (observations : gmap Z SyncObservation) :
  option SyncDivergence * SyncTracker :=
  let expected := expected_kind_for_ordinal ordinal in
  let obs := map_to_list observations in
  let s := foldl (scan_step expected) (mkScan 0 None false 0) obs in
  let t := Nat.iter (mismatched s) (warn KindParity) t in
  if negb (diverges s) then (None, t)
  else
    let groups := foldl (group_step expected) ∅ obs in
    let frame := foldl option_max None (map (fun p => observed_frame p.2) obs) in
    match majority_of groups (comparable s) with
    | Some (_, majority) =>
        let bad := sort_slots (filter (fun slot => slot ∉ majority) (mjoin (map snd (map_to_list groups)))) in
        let t := foldl exclude_member t bad in
        let t := if Z.of_nat (size (members t)) <? 2 then set_dormant t true else t in
        (Some (mkSyncDivergence ordinal frame false bad []), t)
    | None =>
        (Some (mkSyncDivergence ordinal frame true [] []), set_dormant t true)
    end.

(** ** The drain *)

(** [members.values().map(|m| m.next_expected).max()]. *)
Definition frontier (t : SyncTracker) : option Z :=
  foldl option_max None (map (fun p => Some (next_expected p.2)) (map_to_list (members t))).

(** The members an ordinal waits for, and whether each has covered it. *)
Definition required (t : SyncTracker) (ordinal : Z) : list Z :=
  map fst (filter (fun p => since p.2 <= ordinal) (map_to_list (members t))).
Definition covered (t : SyncTracker) (ordinal : Z) : bool :=
  forallb (fun slot => match BTreeMap.get (pending t) ordinal with
                       | Some reports => bool_decide (is_Some (reports !! slot))
                       | None => false
                       end) (required t ordinal).

Fixpoint evaluate_ready_loop (fuel : nat) (t : SyncTracker) (margin : Z) : option SyncDivergence * SyncTracker :=
  match fuel with
  | O => (None, t)
  | S fuel =>
      match frontier t with
      | None => (None, t)
      | Some front =>
          let base := base_ordinal t in
          if saturating_sub front base <? margin then (None, t)
          else
            let retired := set_base (set_pending t (BTreeMap.remove base (pending t)))
                             (saturating_add u64_max base 1) in
            match required t base with
            | [] => evaluate_ready_loop fuel retired margin
            | _ =>
                if negb (covered t base) then (None, t)
                else
                  match evaluate retired base (default ∅ (BTreeMap.get (pending t) base)) with
                  | (Some d, t') => (Some d, t')
                  | (None, t') => evaluate_ready_loop fuel t' margin
                  end
            end
      end
  end.

(** Each round retires an ordinal below the frontier. *)
Definition evaluate_ready (t : SyncTracker) (margin : Z) : option SyncDivergence * SyncTracker :=
  evaluate_ready_loop (S (Z.to_nat (saturating_sub (default 0 (frontier t)) (base_ordinal t)))) t margin.

Fixpoint evict_loop (fuel : nat) (t : SyncTracker) : SyncTracker :=
  match fuel with
  | O => t
  | S fuel =>
      if SYNC_WINDOW <? Z.of_nat (length (pending t)) then
        match pending t with
        | [] => t
        | (ordinal, _) :: _ =>
            let t := warn Evict (set_pending t (BTreeMap.remove ordinal (pending t))) in
            evict_loop fuel
              (if base_ordinal t <=? ordinal then set_base t (saturating_add u64_max ordinal 1) else t)
        end
      else t
  end.

Definition evict_over_window (t : SyncTracker) : SyncTracker := evict_loop (length (pending t)) t.

(** ** Recording one report *)

(** The report's place at its ordinal, with the anomaly it may be. *)
Definition place (t : SyncTracker) (slot ordinal : Z) (r : SyncReport) : SyncTracker :=
  let t' := set_pending t (entry_or_insert slot (Report r) ordinal (pending t)) in
  match default ∅ (BTreeMap.get (pending t) ordinal) !! slot with
  | Some (Report existing) => if decide (r_value existing = r_value r) then t' else warn Duplicate t'
  | Some Skipped => warn Duplicate t'
  | None => t'
  end.

Definition record (t : SyncTracker) (slot ordinal : Z) (r : SyncReport) (skipped : option SyncGap) (margin : Z) :
  option SyncDivergence * SyncTracker :=
  if bool_decide (slot ∈ excluded t) then (None, t)
  else if negb (r_kind r =? SYNC_KIND_UNITS) && negb (r_kind r =? SYNC_KIND_HEADER) then
    (None, warn MalformedKind t)
  else
    let t := if initialized t then t else set_start t true ordinal in
    let next := saturating_add u64_max ordinal 1 in
    let m := default (mkMember next ordinal) (members t !! slot) in
    let t := set_members t (<[slot := mkMember (Z.max (next_expected m) next) (since m)]> (members t)) in
    if ordinal <? base_ordinal t then (None, t)
    else
      let t := match skipped with Some gap => record_skipped t slot (since m) gap | None => t end in
      let t := place t slot ordinal r in
      match evaluate_ready t margin with
      | (Some d, t) => (Some d, t)
      | (None, t) => (None, evict_over_window t)
      end.

(** ** What one verdict means *)

(** A report of the expected kind is a vote; nothing else is. *)
Definition vote (expected : Z) (o : SyncObservation) : option SyncValue :=
  match o with
  | Report r => if r_kind r =? expected then Some (r_value r) else None
  | Skipped => None
  end.

Definition votes (expected : Z) (obs : list (Z * SyncObservation)) : list (Z * SyncValue) :=
  omap (fun p => v ← vote expected p.2; Some (p.1, v)) obs.

Lemma votes_cons expected p obs :
  votes expected (p :: obs) =
    match vote expected p.2 with Some v => (p.1, v) :: votes expected obs | None => votes expected obs end.
Proof. unfold votes. cbn. by destruct (vote expected p.2). Qed.

Lemma elem_of_votes expected m slot v :
  (slot, v) ∈ votes expected (map_to_list m) <->
  exists o, m !! slot = Some o /\ vote expected o = Some v.
Proof.
  unfold votes. rewrite list_elem_of_omap. split.
  - intros ([k o] & Hin & Hv). apply elem_of_map_to_list in Hin. cbn in Hv.
    destruct (vote expected o) as [w|] eqn:E; [|done]. injection Hv as -> ->. eauto.
  - intros (o & Hm & Hv). exists (slot, o). rewrite elem_of_map_to_list. cbn. by rewrite Hv.
Qed.

(** The first pass counts the votes and notices a disagreement. *)
Lemma scan_spec expected obs s :
  let r := foldl (scan_step expected) s obs in
  comparable r = comparable s + Z.of_nat (length (votes expected obs)) /\
  match agreed_value s with
  | Some v => agreed_value r = Some v /\
      (diverges r = true <-> diverges s = true \/ exists p, p ∈ votes expected obs /\ p.2 <> v)
  | None =>
      match votes expected obs with
      | [] => agreed_value r = None /\ diverges r = diverges s
      | p :: vs => agreed_value r = Some p.2 /\
          (diverges r = true <-> diverges s = true \/ exists q, q ∈ vs /\ q.2 <> p.2)
      end
  end.
Proof.
  revert s. induction obs as [|[slot o] obs IH]; intros s; cbn [foldl].
  { cbn. split; [lia|]. destruct (agreed_value s); [|done]. split; [done|]. set_solver. }
  rewrite votes_cons. cbn [fst snd].
  destruct o as [r|]; cbn [vote]; [|exact (IH s)].
  replace (scan_step expected s (slot, Report r)) with
    (if negb (r_kind r =? expected) then mkScan (comparable s) (agreed_value s) (diverges s) (S (mismatched s))
     else match agreed_value s with
          | None => mkScan (comparable s + 1) (Some (r_value r)) (diverges s) (mismatched s)
          | Some v => mkScan (comparable s + 1) (agreed_value s)
              (if decide (v = r_value r) then diverges s else true) (mismatched s)
          end) by done.
  destruct (r_kind r =? expected); cbn [negb];
    [|exact (IH (mkScan (comparable s) (agreed_value s) (diverges s) (S (mismatched s))))].
  destruct (agreed_value s) as [v|] eqn:Ha.
  - destruct (IH (mkScan (comparable s + 1) (Some v)
        (if decide (v = r_value r) then diverges s else true) (mismatched s))) as [Hc [Hv Hd]].
    cbn [comparable agreed_value diverges] in *. split; [cbn [length]; lia|]. split; [done|].
    rewrite Hd. case_decide; set_solver.
  - destruct (IH (mkScan (comparable s + 1) (Some (r_value r)) (diverges s) (mismatched s)))
      as [Hc [Hv Hd]]. cbn [comparable agreed_value diverges] in *.
    split; [cbn [length]; lia|]. done.
Qed.

(** Grouping the observations is tallying the votes. *)
Lemma groups_tally expected obs : foldl (group_step expected) ∅ obs = tally (votes expected obs).
Proof.
  unfold tally. generalize (∅ : gmap SyncValue (list Z)) as g.
  induction obs as [|[slot o] obs IH]; intros g; cbn [foldl]; [done|].
  rewrite IH, votes_cons. unfold group_step. cbn [fst snd].
  destruct o as [r|]; cbn [vote]; [|done]. by destruct (r_kind r =? expected).
Qed.

(** ** The verdict, exactly *)

Lemma disagreement expected obs :
  diverges (foldl (scan_step expected) (mkScan 0 None false 0) obs) = true <->
  exists p q, p ∈ votes expected obs /\ q ∈ votes expected obs /\ p.2 <> q.2.
Proof.
  destruct (scan_spec expected obs (mkScan 0 None false 0)) as [_ H]. cbn in H.
  destruct (votes expected obs) as [|p vs].
  - destruct H as [_ ->]. cbn. split; [done|]. intros (p & q & Hp & _). by apply elem_of_nil in Hp.
  - destruct H as [_ ->]. split.
    + intros [[=]|(q & Hq & Hne)]. exists q, p. split_and!; [by right|left|done].
    + intros (a & b & Ha & Hb & Hne). right.
      destruct (decide (a.2 = p.2)) as [E|E].
      * exists b. apply elem_of_cons in Hb as [-> |]; [congruence|]. split; [done|congruence].
      * exists a. apply elem_of_cons in Ha as [-> |]; [congruence|]. done.
Qed.

Lemma votes_sublist expected obs : map fst (votes expected obs) `sublist_of` map fst obs.
Proof.
  induction obs as [|[slot o] obs IH]; [done|]. rewrite votes_cons. cbn.
  destruct (vote expected o); by constructor.
Qed.

Lemma votes_NoDup expected (m : gmap Z SyncObservation) : NoDup (map fst (votes expected (map_to_list m))).
Proof. eapply sublist_NoDup; [|apply votes_sublist]. apply NoDup_fst_map_to_list. Qed.

(** The accused, as [evaluate] computes them. *)
Definition accused (expected : Z) (m : gmap Z SyncObservation) (maj : list Z) : list Z :=
  sort_slots (filter (fun slot => slot ∉ maj)
    (mjoin (map snd (map_to_list (foldl (group_step expected) ∅ (map_to_list m)))))).

Lemma accused_perm expected m v :
  let vs := votes expected (map_to_list m) in accused expected m (voters v vs) ≡ₚ minority v vs.
Proof. unfold accused, minority. cbv zeta. by rewrite sort_slots_perm, groups_tally, tally_perm. Qed.

(** ** What the comparator knows, apart from its counters *)

Record same_comparison (t t' : SyncTracker) : Prop := mkSame {
  sc_dormant : dormant t' = dormant t;
  sc_initialized : initialized t' = initialized t;
  sc_base : base_ordinal t' = base_ordinal t;
  sc_members : members t' = members t;
  sc_pending : pending t' = pending t;
  sc_excluded : excluded t' = excluded t;
}.

Lemma same_refl t : same_comparison t t.
Proof. by split. Qed.

Lemma same_trans t1 t2 t3 : same_comparison t1 t2 -> same_comparison t2 t3 -> same_comparison t1 t3.
Proof. intros [] []. split; congruence. Qed.

#[export] Instance same_preorder : PreOrder same_comparison.
Proof. split; [exact same_refl|intros ? ? ?; apply same_trans]. Qed.

Lemma warn_same w t : same_comparison t (warn w t).
Proof. by split. Qed.

Lemma warns_same n w t : same_comparison t (Nat.iter n (warn w) t).
Proof. induction n; [reflexivity|]. cbn. etrans; [done|apply warn_same]. Qed.

(** The observation a slot has at an ordinal. *)
Definition observed (t : SyncTracker) (ordinal slot : Z) : option SyncObservation :=
  reports ← BTreeMap.get (pending t) ordinal; reports !! slot.

Lemma observed_remove_member t slot ordinal s :
  observed (remove_member t slot) ordinal s = if decide (s = slot) then None else observed t ordinal s.
Proof.
  unfold observed, remove_member. cbn [pending set_pending set_members].
  rewrite BTreeMap.get_map_values. destruct (BTreeMap.get (pending t) ordinal) as [m|]; cbn; [|by case_decide].
  case_decide as E; [subst; apply lookup_delete_eq|by apply lookup_delete_ne].
Qed.

(** Excluding a whole minority. *)
Lemma exclude_all_spec bad t :
  let t' := foldl exclude_member t bad in
  dormant t' = dormant t /\ initialized t' = initialized t /\ base_ordinal t' = base_ordinal t /\
  BTreeMap.keys (pending t') = BTreeMap.keys (pending t) /\
  (forall s, s ∈ excluded t' <-> s ∈ bad \/ s ∈ excluded t) /\
  (forall s, members t' !! s = if decide (s ∈ bad) then None else members t !! s) /\
  (forall o s, observed t' o s = if decide (s ∈ bad) then None else observed t o s).
Proof.
  revert t. induction bad as [|b bad IH]; intros t; cbn [foldl].
  { split_and!; try done. set_solver. }
  destruct (IH (exclude_member t b)) as (H1 & H2 & H3 & H4 & H5 & H6 & H7).
  split_and!.
  - by rewrite H1.
  - by rewrite H2.
  - by rewrite H3.
  - rewrite H4. cbn. unfold BTreeMap.keys, BTreeMap.map_values. by rewrite map_map.
  - intros s. rewrite H5. cbn. set_solver.
  - intros s. rewrite H6. cbn. destruct (decide (s = b)) as [-> |Hne].
    + rewrite lookup_delete_eq, (decide_True (P := b ∈ b :: bad)) by set_solver. by case_decide.
    + rewrite lookup_delete_ne by done.
      destruct (decide (s ∈ bad)); [by rewrite decide_True by set_solver|by rewrite decide_False by set_solver].
  - intros o s. rewrite H7. unfold exclude_member. rewrite observed_remove_member.
    change (observed (set_excluded t _) o s) with (observed t o s).
    repeat case_decide; try done; set_solver.
Qed.

(** The verdict as a relation on the votes alone. *)
Inductive judged (t : SyncTracker) (ordinal : Z) (vs : list (Z * SyncValue)) :
  option SyncDivergence -> SyncTracker -> Prop :=
| judged_agree t' :
    agreeing vs -> same_comparison t t' -> judged t ordinal vs None t'
| judged_majority v d t' :
    majority_value vs v -> ~ agreeing vs ->
    sync_ordinal d = ordinal -> no_majority d = false -> missing d = [] ->
    StronglySorted Z.lt (diverged d) ->
    (forall s, s ∈ diverged d <-> exists w, w <> v /\ (s, w) ∈ vs) ->
    (length (diverged d) < length (voters v vs))%nat ->
    initialized t' = initialized t -> base_ordinal t' = base_ordinal t ->
    BTreeMap.keys (pending t') = BTreeMap.keys (pending t) ->
    (forall s, s ∈ excluded t' <-> s ∈ diverged d \/ s ∈ excluded t) ->
    (forall s, members t' !! s = if decide (s ∈ diverged d) then None else members t !! s) ->
    (forall o s, observed t' o s = if decide (s ∈ diverged d) then None else observed t o s) ->
    (dormant t' = true <-> dormant t = true \/ (size (members t') < 2)%nat) ->
    judged t ordinal vs (Some d) t'
| judged_split d t' :
    (forall v, ~ majority_value vs v) -> ~ agreeing vs ->
    sync_ordinal d = ordinal -> no_majority d = true -> diverged d = [] -> missing d = [] ->
    dormant t' = true -> same_comparison (set_dormant t true) t' ->
    judged t ordinal vs (Some d) t'.

(** [evaluate] implements the relation. *)
Lemma evaluate_judged t ordinal m :
  judged t ordinal (votes (expected_kind_for_ordinal ordinal) (map_to_list m))
    (evaluate t ordinal m).1 (evaluate t ordinal m).2.
Proof.
  unfold evaluate. set (expected := expected_kind_for_ordinal ordinal).
  set (s := foldl (scan_step expected) _ _). set (t1 := Nat.iter _ _ t).
  assert (Hsame : same_comparison t t1) by apply warns_same.
  pose proof (disagreement expected (map_to_list m)) as Hd. fold s in Hd.
  pose proof (scan_spec expected (map_to_list m) (mkScan 0 None false 0)) as [Hc _]. fold s in Hc.
  cbn [comparable] in Hc. rewrite Z.add_0_l in Hc.
  destruct (diverges s); cbn [negb fst snd].
  - assert (Hno : ~ agreeing (votes expected (map_to_list m))).
    { intros Hag. destruct (proj1 Hd eq_refl) as (p & q & Hp & Hq & Hne). by apply Hne, Hag. }
    pose proof (majority_of_spec (votes expected (map_to_list m)) (comparable s) ltac:(lia)) as Hf.
    rewrite <- groups_tally in Hf. set (vs := votes expected (map_to_list m)) in *.
    destruct (majority_of _ (comparable s)) as [[v l]|]; cbn [fst snd].
    + destruct Hf as [-> Hmaj]. fold (accused expected m (voters v vs)).
      pose proof (accused_perm expected m v) as Hperm. cbv zeta in Hperm. fold vs in Hperm.
      pose proof (votes_NoDup expected m) as Honce. fold vs in Honce.
      set (bad := accused expected m _) in *.
      destruct (exclude_all_spec bad t1) as (H1 & H2 & H3 & H4 & H5 & H6 & H7).
      set (t2 := foldl exclude_member t1 bad) in *. destruct Hsame as [S1 S2 S3 S4 S5 S6].
      eapply (judged_majority _ _ _ v); try done.
      * unfold majority_value. lia.
      * apply sort_slots_sorted. rewrite groups_tally, tally_perm. apply (minority_NoDup vs Honce v).
      * intros x. cbn. rewrite Hperm. by apply minority_elem.
      * cbn. rewrite Hperm. pose proof (minority_length vs Honce v). lia.
      * rewrite <- S2, <- H2. by destruct (_ <? 2).
      * rewrite <- S3, <- H3. by destruct (_ <? 2).
      * rewrite <- S5, <- H4. by destruct (_ <? 2).
      * intros x. rewrite <- S6, <- H5. by destruct (_ <? 2).
      * intros x. rewrite <- S4, <- H6. by destruct (_ <? 2).
      * intros o x. unfold observed at 2. rewrite <- S5. fold (observed t1 o x). rewrite <- H7.
        by destruct (_ <? 2).
      * rewrite <- S1, <- H1. destruct (Z.ltb_spec (Z.of_nat (size (members t2))) 2); cbn; [|naive_solver lia].
        split; [|done]. intros _. right. lia.
    + eapply judged_split; try done; [|destruct Hsame; by split].
      intros v Hm. specialize (Hf v). unfold majority_value in Hm. lia.
  - apply judged_agree; [|done]. intros p q Hp Hq. destruct (decide (p.2 = q.2)); [done|].
    enough (false = true) by done. apply Hd. eauto.
Qed.

(** ** The comparator's invariant *)

Lemma observed_entry t slot o ordinal ordinal' s :
  observed (set_pending t (entry_or_insert slot o ordinal (pending t))) ordinal' s =
    if decide (ordinal = ordinal' /\ slot = s) then Some (default o (observed t ordinal slot))
    else observed t ordinal' s.
Proof.
  unfold observed, entry_or_insert. cbn [pending set_pending]. rewrite BTreeMap.get_insert.
  destruct (decide (ordinal = ordinal')) as [<- |Hne]; [|by rewrite decide_False by naive_solver].
  cbn [mbind option_bind]. destruct (BTreeMap.get (pending t) ordinal) as [m|]; cbn [default mbind option_bind]; unfold id.
  - destruct (m !! slot) as [x|] eqn:Hm; cbn [default].
    + case_decide as E; [|done]. destruct E as [_ <-]. by rewrite Hm.
    + destruct (decide (slot = s)) as [<- |Hs].
      * rewrite lookup_insert_eq, decide_True by done. done.
      * rewrite lookup_insert_ne, decide_False by naive_solver. done.
  - rewrite lookup_empty. destruct (decide (slot = s)) as [<- |Hs].
    + rewrite lookup_insert_eq, decide_True by done. done.
    + rewrite lookup_insert_ne, decide_False by naive_solver. by rewrite lookup_empty.
Qed.

Lemma elem_of_keys {V} (m : list (Z * V)) k : k ∈ BTreeMap.keys m <-> exists v, (k, v) ∈ m.
Proof.
  unfold BTreeMap.keys. rewrite list_elem_of_fmap. split.
  - intros ([k' v] & -> & Hin). eauto.
  - intros [v Hin]. by exists (k, v).
Qed.

(** The state [record] reaches before it judges anything. *)
Definition joined (t : SyncTracker) (slot ordinal : Z) : SyncTracker :=
  let t := if initialized t then t else set_start t true ordinal in
  let next := saturating_add u64_max ordinal 1 in
  let m := default (mkMember next ordinal) (members t !! slot) in
  set_members t (<[slot := mkMember (Z.max (next_expected m) next) (since m)]> (members t)).

(** [record] past its guards: the report placed, then the drain. *)
Definition placed (t : SyncTracker) (slot ordinal : Z) (r : SyncReport) (skipped : option SyncGap) : SyncTracker :=
  let t2 := joined t slot ordinal in
  let from := since (default (mkMember (saturating_add u64_max ordinal 1) ordinal) (members t !! slot)) in
  place (match skipped with Some gap => record_skipped t2 slot from gap | None => t2 end) slot ordinal r.

Lemma record_cases t slot ordinal r skipped margin :
  let x := record t slot ordinal r skipped margin in
  (x.1 = None /\ (same_comparison t x.2 \/ (slot ∉ excluded t) /\ x.2 = joined t slot ordinal)) \/
  ((slot ∉ excluded t) /\ base_ordinal (joined t slot ordinal) <= ordinal /\
   let y := evaluate_ready (placed t slot ordinal r skipped) margin in
   x.1 = y.1 /\ x.2 = match y.1 with Some _ => y.2 | None => evict_over_window y.2 end).
Proof.
  unfold record. case_bool_decide as Hex; [left; split; [done|left; reflexivity]|].
  destruct (_ && _); [left; split; [done|left; apply warn_same]|].
  unfold placed, joined. replace (members (if initialized t then t else set_start t true ordinal)) with (members t)
    by (by destruct (initialized t)).
  set (t1 := if initialized t then t else _). set (t2 := set_members t1 _). cbv zeta.
  destruct (Z.ltb_spec ordinal (base_ordinal t2)); [left; split; [done|by right]|].
  right. split; [done|]. split; [done|].
  destruct (evaluate_ready _ margin) as [[d|] t5]; done.
Qed.

Section invariant.
(** [Rec s o r]: slot [s] has reported [r] at ordinal [o]. *)
Context (Rec : Z -> Z -> SyncReport -> Prop).

Record tracker_inv (t : SyncTracker) : Prop := mkTrackerInv {
  ti_rec : forall o s r, observed t o s = Some (Report r) -> Rec s o r;
  ti_wf : BTreeMap.wf (pending t);
  ti_base : forall o v, (o, v) ∈ pending t -> base_ordinal t <= o;
  ti_excluded : forall s, s ∈ excluded t -> members t !! s = None /\ forall o, observed t o s = None;
  ti_fresh : initialized t = false -> pending t = [];
}.

Lemma tracker_inv_init : tracker_inv default_sync_tracker.
Proof.
  split; cbn; try done; [constructor|..].
  - intros o v Hin. by apply elem_of_nil in Hin.
Qed.

Lemma tracker_inv_same t t' : same_comparison t t' -> tracker_inv t -> tracker_inv t'.
Proof.
  intros [S1 S2 S3 S4 S5 S6] [H1 H2 H3 H4 H5]. unfold observed in *.
  split; unfold observed; rewrite ?S2, ?S3, ?S4, ?S5, ?S6; done.
Qed.

(** An observation of a slot still compared. *)
Lemma entry_inv t slot o ordinal :
  tracker_inv t -> initialized t = true -> slot ∉ excluded t -> base_ordinal t <= ordinal ->
  (forall r, o = Report r -> Rec slot ordinal r) ->
  tracker_inv (set_pending t (entry_or_insert slot o ordinal (pending t))).
Proof.
  intros [H1 H2 H3 H4 H5] Hini Hex Hb Ho. split; cbn [members excluded base_ordinal set_pending initialized].
  - intros o' s r. rewrite observed_entry. case_decide as E; [|apply H1].
    destruct E as [<- <-]. intros [= Hr]. destruct (observed t ordinal slot) as [x|] eqn:Hx; cbn in Hr.
    + apply H1. by rewrite Hx, Hr.
    + by apply Ho.
  - by apply BTreeMap.wf_insert.
  - intros o' v Hin. apply BTreeMap.elem_of_map_insert in Hin as [[= -> ->]|Hin]; [done|by eapply H3].
  - intros s Hs. destruct (H4 s Hs) as [Hm Hobs]. split; [done|]. intros o'. rewrite observed_entry.
    rewrite decide_False; [apply Hobs|]. intros [_ <-]. done.
  - congruence.
Qed.

Definition same_rest (t t' : SyncTracker) : Prop :=
  dormant t' = dormant t /\ initialized t' = initialized t /\ base_ordinal t' = base_ordinal t /\
  members t' = members t /\ excluded t' = excluded t.

Lemma record_skipped_spec t slot from gap :
  tracker_inv t -> initialized t = true -> slot ∉ excluded t ->
  tracker_inv (record_skipped t slot from gap) /\ same_rest t (record_skipped t slot from gap).
Proof.
  intros Hi Hini Hex. unfold record_skipped. set (first := Z.max _ _).
  assert (Hall : Forall (fun o => base_ordinal t <= o) (seqZ first (gap_end gap - first))).
  { apply Forall_forall. intros o Ho. apply elem_of_seqZ in Ho. lia. }
  clearbody first. revert t Hi Hini Hex Hall. generalize (seqZ first (gap_end gap - first)) as l.
  induction l as [|o l IH]; intros t Hi Hini Hex Hall; cbn [foldl]; [by repeat split; try apply Hi|].
  inversion_clear Hall. destruct (o <? from); [by apply IH|].
  destruct (IH (set_pending t (entry_or_insert slot Skipped o (pending t)))) as [IH1 IH2]; [by apply entry_inv|done..].
Qed.

Lemma remove_member_inv t slot : tracker_inv t -> tracker_inv (remove_member t slot).
Proof.
  intros [H1 H2 H3 H4 H5]. split.
  - intros o s r. rewrite observed_remove_member. case_decide; [done|apply H1].
  - cbn. by apply BTreeMap.wf_map_values.
  - cbn. intros o v Hin. apply list_elem_of_fmap in Hin as ([o' v'] & [= -> ->] & Hin). by eapply H3.
  - intros s Hs. destruct (H4 s Hs) as [Hm Ho]. split.
    + cbn. by rewrite lookup_delete_None; right.
    + intros o. rewrite observed_remove_member. case_decide; [done|apply Ho].
  - cbn. intros E. by rewrite (H5 E).
Qed.

Lemma retire_inv t : tracker_inv t ->
  tracker_inv (set_base (set_pending t (BTreeMap.remove (base_ordinal t) (pending t)))
                 (saturating_add u64_max (base_ordinal t) 1)).
Proof.
  intros [H1 H2 H3 H4 H5].
  assert (Hobs : forall o s x, observed (set_base (set_pending t (BTreeMap.remove (base_ordinal t) (pending t)))
            (saturating_add u64_max (base_ordinal t) 1)) o s = Some x -> observed t o s = Some x).
  { intros o s x. unfold observed. cbn [pending set_pending set_base set_start].
    rewrite BTreeMap.get_remove. by case_decide. }
  split; cbn [members excluded].
  - intros o s r Ho. by apply H1, Hobs.
  - cbn. by apply BTreeMap.wf_remove.
  - cbn. intros o v Hin. apply list_elem_of_filter in Hin as [Hne Hin]. cbn in Hne.
    pose proof (H3 o v Hin). unfold saturating_add. lia.
  - intros s Hs. destruct (H4 s Hs) as [Hm Ho]. split; [done|]. intros o.
    destruct (observed _ o s) eqn:E; [|done]. apply Hobs in E. by rewrite Ho in E.
  - cbn. intros E. by rewrite (H5 E).
Qed.

Lemma wf_keys {V V'} (m : list (Z * V)) (m' : list (Z * V')) :
  BTreeMap.keys m' = BTreeMap.keys m -> BTreeMap.wf m -> BTreeMap.wf m'.
Proof.
  revert m'. induction m as [|[k v] m IH]; intros [|[k' v'] m']; unfold BTreeMap.keys; cbn;
    try (intros [=]; fail); [constructor|].
  intros [= -> Hk] Hwf. inversion_clear Hwf as [|? ? Hw Hall]. constructor; [by apply IH|].
  apply Forall_forall. intros [j w] Hj. cbn.
  assert (Hin : j ∈ map fst m) by (rewrite <- Hk; apply (elem_of_keys m'); eauto).
  apply (elem_of_keys m) in Hin as [u Hu].
  exact (proj1 (Forall_forall _ _) Hall _ Hu).
Qed.

Lemma judged_inv t ordinal vs r t' : judged t ordinal vs r t' -> tracker_inv t -> tracker_inv t'.
Proof.
  intros Hj Hi. destruct Hj as [t' _ Hs|v d t' _ _ _ _ _ _ _ _ Hini Hb Hk Hex Hm Ho _|d t' _ _ _ _ _ _ _ Hs].
  - by eapply tracker_inv_same.
  - destruct Hi as [H1 H2 H3 H4 H5]. split.
    + intros o s r. rewrite Ho. case_decide; [done|apply H1].
    + by eapply wf_keys.
    + intros o v' Hin. rewrite Hb.
      assert (Hin' : o ∈ BTreeMap.keys (pending t)) by (rewrite <- Hk; apply elem_of_keys; eauto).
      apply elem_of_keys in Hin' as [w Hw]. by eapply H3.
    + intros s [Hs|Hs]%Hex; rewrite Hm; split.
      * by rewrite decide_True.
      * intros o. by rewrite Ho, decide_True.
      * case_decide; [done|]. by apply H4.
      * intros o. rewrite Ho. case_decide; [done|]. by apply H4.
    + rewrite Hini. intros E. rewrite (H5 E) in Hk. by apply map_eq_nil in Hk.
  - eapply tracker_inv_same; [exact Hs|]. destruct Hi as [H1 H2 H3 H4 H5]. by split.
Qed.

(** What a verdict rests on: reports of the right kind, at its ordinal, that
    disagree; and for each accused slot, more slots in one voice against it
    than there are accused. *)
Definition counted (d : SyncDivergence) (s : Z) (v : SyncValue) : Prop :=
  exists r, Rec s (sync_ordinal d) r /\ r_kind r = expected_kind_for_ordinal (sync_ordinal d) /\ r_value r = v.

Definition justified (d : SyncDivergence) : Prop :=
  (exists s1 s2 v1 v2, v1 <> v2 /\ counted d s1 v1 /\ counted d s2 v2) /\
  exists v supporters, NoDup supporters /\ (forall s, s ∈ supporters -> counted d s v) /\
    (diverged d <> [] -> (length (diverged d) < length supporters)%nat) /\
    forall s, s ∈ diverged d -> (s ∉ supporters) /\ exists w, w <> v /\ counted d s w.

Lemma judged_justified t ordinal m d t' :
  (forall s r, m !! s = Some (Report r) -> Rec s ordinal r) ->
  judged t ordinal (votes (expected_kind_for_ordinal ordinal) (map_to_list m)) (Some d) t' -> justified d.
Proof.
  intros Hrec Hj.
  assert (Hcount : forall s v, sync_ordinal d = ordinal ->
    (s, v) ∈ votes (expected_kind_for_ordinal ordinal) (map_to_list m) -> counted d s v).
  { intros s v <- Hin. apply elem_of_votes in Hin as (o & Hm & Hv). destruct o as [r|]; [|done]. cbn in Hv.
    destruct (Z.eqb_spec (r_kind r) (expected_kind_for_ordinal (sync_ordinal d))); [|done].
    injection Hv as <-. exists r. eauto. }
  set (vs := votes _ _) in *.
  assert (Hdis : sync_ordinal d = ordinal -> ~ agreeing vs ->
    exists s1 s2 v1 v2, v1 <> v2 /\ counted d s1 v1 /\ counted d s2 v2).
  { intros Ho Hno. destruct (decide (Exists (fun p => Exists (fun q => p.2 <> q.2) vs) vs)) as [He|Hn].
    - apply Exists_exists in He as ([s1 v1] & H1 & He). apply Exists_exists in He as ([s2 v2] & H2 & Hne).
      exists s1, s2, v1, v2. eauto.
    - exfalso. apply Hno. intros p q Hp Hq. destruct (decide (p.2 = q.2)); [done|]. exfalso. apply Hn.
      apply Exists_exists. exists p. split; [done|]. apply Exists_exists. eauto. }
  inversion Hj as [|v d' t1 Hmaj Hno Ho _ _ _ Hbad Hlen _ _ _ _ _ _ _|d' t1 _ Hno Ho _ Hempty _ _ _]; subst.
  - split; [by apply Hdis|]. exists v, (voters v vs). split_and!.
    + apply voters_NoDup, votes_NoDup.
    + intros s Hs%elem_of_voters. by apply Hcount.
    + done.
    + intros s Hs. apply Hbad in Hs as (w & Hne & Hin). split; [|eauto].
      rewrite elem_of_voters. intros Hv. by apply Hne, (vote_unique vs (votes_NoDup _ _) s).
  - split; [by apply Hdis|]. exists (0, 0), []. rewrite Hempty. split_and!; [constructor|set_solver..].
Qed.

Lemma evaluate_ready_inv fuel t margin :
  tracker_inv t ->
  tracker_inv (evaluate_ready_loop fuel t margin).2 /\
  forall d, (evaluate_ready_loop fuel t margin).1 = Some d -> justified d.
Proof.
  revert t. induction fuel as [|fuel IH]; intros t Hi; [done|].
  cbn [evaluate_ready_loop]. destruct (frontier t) as [front|]; [|done].
  destruct (_ <? margin); [done|]. pose proof (retire_inv t Hi) as Hr.
  destruct (required t (base_ordinal t)) as [|x l]; [by apply IH|].
  destruct (covered t (base_ordinal t)); cbn [negb]; [|done].
  set (m := default ∅ _). set (t1 := set_base _ _) in *.
  pose proof (evaluate_judged t1 (base_ordinal t) m) as Hj.
  destruct (evaluate t1 (base_ordinal t) m) as [[d|] t2]; cbn [fst snd] in *.
  - split; [by eapply judged_inv|]. intros d' [= <-]. eapply judged_justified; [|exact Hj].
    intros s r Hs. apply (ti_rec t Hi). unfold observed, m in *.
    destruct (BTreeMap.get (pending t) (base_ordinal t)); [exact Hs|].
    change ((∅ : gmap Z SyncObservation) !! s = Some (Report r)) in Hs. by rewrite lookup_empty in Hs.
  - apply IH. by eapply judged_inv.
Qed.

Lemma evict_inv fuel t : tracker_inv t -> tracker_inv (evict_loop fuel t).
Proof.
  revert t. induction fuel as [|fuel IH]; intros t Hi; [done|]. cbn [evict_loop].
  destruct (SYNC_WINDOW <? _); [|done]. destruct (pending t) as [|[o v] p] eqn:Hp; [done|].
  apply IH. set (t1 := warn Evict _). destruct Hi as [H1 H2 H3 H4 H5].
  assert (Hobs : forall o' s x, observed t1 o' s = Some x -> observed t o' s = Some x).
  { intros o' s x. unfold observed. cbn [pending t1 warn set_pending]. rewrite BTreeMap.get_remove, Hp. by case_decide. }
  assert (Hkeys : forall k w, (k, w) ∈ BTreeMap.remove o ((o, v) :: p) -> o < k).
  { intros k w Hin. apply list_elem_of_filter in Hin as [Hne Hin]. cbn in Hne. rewrite Hp in H2.
    inversion_clear H2 as [|? ? _ Hall]. apply elem_of_cons in Hin as [[= -> ->]|Hin]; [done|].
    exact (proj1 (Forall_forall _ _) Hall _ Hin). }
  assert (Hw : BTreeMap.wf (BTreeMap.remove o ((o, v) :: p))) by (rewrite Hp in H2; by apply BTreeMap.wf_remove).
  assert (Hb : base_ordinal t <= o) by (apply (H3 o v); rewrite Hp; left).
  rewrite (proj2 (Z.leb_le (base_ordinal t1) o)) by exact Hb.
  split; cbn [members excluded].
  - intros o' s r Ho. by apply H1, Hobs.
  - exact Hw.
  - cbn. intros k w Hk. pose proof (Hkeys k w Hk). unfold saturating_add. lia.
  - intros s Hs. destruct (H4 s Hs) as [Hm Ho]. split; [done|]. intros o'.
    destruct (observed _ o' s) eqn:E; [|done]. apply Hobs in E. by rewrite Ho in E.
  - cbn. intros E. by rewrite (H5 E) in Hp.
Qed.

Lemma place_inv t slot ordinal r :
  tracker_inv t -> initialized t = true -> slot ∉ excluded t -> base_ordinal t <= ordinal -> Rec slot ordinal r ->
  tracker_inv (place t slot ordinal r).
Proof.
  intros Hi Hini Hex Hb Hrec.
  assert (Hp : tracker_inv (set_pending t (entry_or_insert slot (Report r) ordinal (pending t)))).
  { apply entry_inv; try done. by intros r' [= <-]. }
  unfold place. destruct (_ !! slot) as [[e|]|]; [case_decide|..]; try done;
    by eapply tracker_inv_same; [apply warn_same|].
Qed.

Lemma joined_inv t slot ordinal : tracker_inv t -> slot ∉ excluded t ->
  tracker_inv (joined t slot ordinal) /\ initialized (joined t slot ordinal) = true /\
  excluded (joined t slot ordinal) = excluded t.
Proof.
  intros [H1 H2 H3 H4 H5] Hex. split_and!.
  - split; unfold joined.
    + intros o s r. destruct (initialized t); apply H1.
    + by destruct (initialized t).
    + destruct (initialized t) eqn:E; cbn; [done|]. rewrite (H5 eq_refl). intros o v Hin. by apply elem_of_nil in Hin.
    + intros s. assert (Hs : s ∈ excluded t -> s <> slot) by (intros ? ->; done).
      destruct (initialized t); cbn; intros Hin; (split; [|by apply H4]);
        rewrite lookup_insert_ne by (by apply not_eq_sym, Hs); by apply H4.
    + destruct (initialized t) eqn:E; cbn; congruence.
  - unfold joined. by destruct (initialized t) eqn:E.
  - unfold joined. by destruct (initialized t).
Qed.

Lemma placed_inv t slot ordinal r skipped :
  tracker_inv t -> slot ∉ excluded t -> base_ordinal (joined t slot ordinal) <= ordinal -> Rec slot ordinal r ->
  tracker_inv (placed t slot ordinal r skipped).
Proof.
  intros Hi Hex Hb Hrec. destruct (joined_inv t slot ordinal Hi Hex) as (Hj & Hini & Hexj). unfold placed.
  set (t3 := match skipped with Some gap => _ | None => _ end).
  assert (H3 : tracker_inv t3 /\ same_rest (joined t slot ordinal) t3).
  { unfold t3. destruct skipped as [gap|]; [|by repeat split; try apply Hj].
    apply record_skipped_spec; [done..|]. by rewrite Hexj. }
  destruct H3 as [Hi3 (_ & Hin3 & Hb3 & _ & He3)].
  apply place_inv; [done|congruence|by rewrite He3, Hexj|lia|done].
Qed.

Lemma record_inv t slot ordinal r skipped margin :
  tracker_inv t -> Rec slot ordinal r ->
  let x := record t slot ordinal r skipped margin in
  tracker_inv x.2 /\ forall d, x.1 = Some d -> justified d.
Proof.
  intros Hi Hrec x. destruct (record_cases t slot ordinal r skipped margin) as [[H1 H2]|(Hex & Hb & H1 & H2)];
    fold x in H1, H2.
  - rewrite H1. split; [|done]. destruct H2 as [H2|[Hex ->]]; [by eapply tracker_inv_same|].
    by apply joined_inv.
  - destruct (evaluate_ready_inv (S (Z.to_nat (saturating_sub (default 0 (frontier (placed t slot ordinal r skipped)))
      (base_ordinal (placed t slot ordinal r skipped))))) _ margin (placed_inv _ _ _ _ skipped Hi Hex Hb Hrec)) as [H3 H4].
    fold (evaluate_ready (placed t slot ordinal r skipped) margin) in H3, H4. rewrite H1, H2.
    destruct (evaluate_ready _ margin) as [[d|] t5]; cbn [fst snd] in *; [done|].
    split; [|done]. by apply evict_inv.
Qed.


End invariant.

(** ** Sessions of reports and departures *)

Inductive sync_op : Type :=
| ORecord (slot ordinal : Z) (r : SyncReport) (skipped : option SyncGap) (margin : Z)
| ORemove (slot : Z).

Definition sync_step (t : SyncTracker) (op : sync_op) : option SyncDivergence * SyncTracker :=
  match op with
  | ORecord slot ordinal r skipped margin => record t slot ordinal r skipped margin
  | ORemove slot => (None, remove_member t slot)
  end.

Fixpoint sync_run (ops : list sync_op) (t : SyncTracker) : list SyncDivergence * SyncTracker :=
  match ops with
  | [] => ([], t)
  | op :: ops =>
      let x := sync_step t op in
      let y := sync_run ops x.2 in
      (match x.1 with Some d => d :: y.1 | None => y.1 end, y.2)
  end.

Definition recorded (ops : list sync_op) (s o : Z) (r : SyncReport) : Prop :=
  exists skipped margin, ORecord s o r skipped margin ∈ ops.

Lemma sync_step_inv Rec t op :
  (forall s o r g mg, op = ORecord s o r g mg -> Rec s o r) -> tracker_inv Rec t ->
  tracker_inv Rec (sync_step t op).2 /\ forall d, (sync_step t op).1 = Some d -> justified Rec d.
Proof.
  intros Hop Hi. destruct op as [s o r g mg|s]; cbn [sync_step].
  - apply record_inv; eauto.
  - split; [by apply remove_member_inv|done].
Qed.

Lemma sync_run_inv Rec ops t :
  (forall s o r, recorded ops s o r -> Rec s o r) -> tracker_inv Rec t ->
  tracker_inv Rec (sync_run ops t).2 /\ forall d, d ∈ (sync_run ops t).1 -> justified Rec d.
Proof.
  revert t. induction ops as [|op ops IH]; intros t Hops Hi; cbn [sync_run].
  { split; [done|]. intros d Hd. by apply elem_of_nil in Hd. }
  destruct (sync_step_inv Rec t op) as [Hi' Hd']; [|done|].
  { intros s o r g mg ->. apply Hops. exists g, mg. left. }
  destruct (IH (sync_step t op).2) as [IH1 IH2]; [|done|].
  { intros s o r (g & mg & Hin). apply Hops. exists g, mg. by right. }
  split; [done|]. destruct (sync_step t op).1 as [d0|]; [|done].
  intros d [-> |Hd]%elem_of_cons; [by apply Hd'|by apply IH2].
Qed.

(** *** An accused slot is out for good *)

Lemma judged_accuses t ordinal m r t' :
  judged t ordinal (votes (expected_kind_for_ordinal ordinal) (map_to_list m)) r t' ->
  (forall s, s ∈ excluded t -> s ∈ excluded t') /\
  match r with
  | Some d => forall s, s ∈ diverged d -> s ∈ excluded t' /\ is_Some (m !! s)
  | None => True
  end.
Proof.
  intros Hj. destruct Hj as [t' _ Hs|v d t' _ _ _ _ _ _ Hbad _ _ _ _ Hex _ _ _|d t' _ _ _ _ Hempty _ _ Hs].
  - destruct Hs as [_ _ _ _ _ ->]. done.
  - split; [intros s Hs; apply Hex; by right|]. intros s Hs. split; [apply Hex; by left|].
    apply Hbad in Hs as (w & _ & Hin). apply elem_of_votes in Hin as (o & Ho & _). eauto.
  - destruct Hs as [_ _ _ _ _ Hs]. rewrite Hs, Hempty. split; [done|]. intros s Hin. by apply elem_of_nil in Hin.
Qed.

Definition accuses (t : SyncTracker) (x : option SyncDivergence * SyncTracker) : Prop :=
  (forall s, s ∈ excluded t -> s ∈ excluded x.2) /\
  match x.1 with
  | Some d => NoDup (diverged d) /\ forall s, s ∈ diverged d -> s ∈ excluded x.2 /\ s ∉ excluded t
  | None => True
  end.

Lemma judged_sorted t ordinal vs d t' : judged t ordinal vs (Some d) t' -> NoDup (diverged d).
Proof.
  inversion 1 as [|v d' t1 _ _ _ _ _ Hs|d' t1 _ _ _ _ Hempty]; subst.
  - clear -Hs. induction Hs as [|x l ? IH Hall]; constructor; [|done].
    intros Hin. rewrite Forall_forall in Hall. pose proof (Hall x Hin). lia.
  - rewrite Hempty. constructor.
Qed.

Lemma evaluate_ready_accuses Rec fuel t margin :
  tracker_inv Rec t -> accuses t (evaluate_ready_loop fuel t margin).
Proof.
  revert t. induction fuel as [|fuel IH]; intros t Hi; [done|].
  cbn [evaluate_ready_loop]. destruct (frontier t) as [front|]; [|done].
  destruct (_ <? margin); [done|]. pose proof (retire_inv Rec t Hi) as Hr.
  destruct (required t (base_ordinal t)) as [|x l]; [exact (IH _ Hr)|].
  destruct (covered t (base_ordinal t)); cbn [negb]; [|done].
  set (m := default ∅ _). set (t1 := set_base _ _) in *.
  pose proof (evaluate_judged t1 (base_ordinal t) m) as Hj.
  destruct (evaluate t1 (base_ordinal t) m) as [[d|] t2]; cbn [fst snd] in *.
  - destruct (judged_accuses _ _ _ _ _ Hj) as [Hmono Hd]. split; [exact Hmono|]. split; [by eapply judged_sorted|].
    intros s Hs. destruct (Hd s Hs) as [Hin [o Ho]]. split; [done|]. intros Hex.
    destruct (ti_excluded _ _ Hi s Hex) as [_ Hnone]. specialize (Hnone (base_ordinal t)).
    unfold observed, m in *. destruct (BTreeMap.get (pending t) (base_ordinal t)) as [reports|].
    + change (reports !! s = Some o) in Ho. cbn in Hnone. by rewrite Ho in Hnone.
    + change ((∅ : gmap Z SyncObservation) !! s = Some o) in Ho. by rewrite lookup_empty in Ho.
  - destruct (judged_accuses _ _ _ _ _ Hj) as [Hmono _].
    destruct (IH t2) as [IH1 IH2]; [by eapply judged_inv|]. split; [eauto|].
    destruct (evaluate_ready_loop fuel t2 margin) as [[d|] t3]; cbn [fst snd] in *; [|done].
    destruct IH2 as [Hnd Hd]. split; [done|]. intros s Hs. destruct (Hd s Hs) as [? Hne]. split; [done|].
    intros Hex. apply Hne, Hmono, Hex.
Qed.

Lemma evict_excluded fuel t : excluded (evict_loop fuel t) = excluded t.
Proof.
  revert t. induction fuel as [|fuel IH]; intros t; [done|]. cbn [evict_loop].
  destruct (_ <? _); [|done]. destruct (pending t) as [|[o v] p]; [done|]. rewrite IH. by destruct (_ <=? _).
Qed.

Lemma record_skipped_excluded t slot from gap : excluded (record_skipped t slot from gap) = excluded t.
Proof.
  unfold record_skipped. generalize (seqZ (Z.max (gap_first gap) (base_ordinal t)) (gap_end gap - Z.max (gap_first gap) (base_ordinal t))) as l.
  intros l. revert t. induction l as [|o l IH]; intros t; cbn [foldl]; [done|]. rewrite IH. by destruct (_ <? _).
Qed.

Lemma place_excluded t slot ordinal r : excluded (place t slot ordinal r) = excluded t.
Proof. unfold place. destruct (_ !! slot) as [[e|]|]; [case_decide|..]; done. Qed.

Lemma placed_excluded t slot ordinal r skipped : excluded (placed t slot ordinal r skipped) = excluded t.
Proof.
  unfold placed. rewrite place_excluded. destruct skipped; rewrite ?record_skipped_excluded; unfold joined;
    by destruct (initialized t).
Qed.

Lemma sync_step_accuses Rec t op :
  (forall s o r g mg, op = ORecord s o r g mg -> Rec s o r) -> tracker_inv Rec t -> accuses t (sync_step t op).
Proof.
  intros Hop Hi. destruct op as [slot ordinal r g mg|s]; [|done]. cbn [sync_step].
  destruct (record_cases t slot ordinal r g mg) as [[H1 H2]|(Hex & Hb & H1 & H2)].
  - unfold accuses. rewrite H1. split; [|done]. destruct H2 as [[_ _ _ _ _ ->]|[_ ->]]; [done|].
    unfold joined. by destruct (initialized t).
  - pose proof (placed_inv Rec t slot ordinal r g Hi Hex Hb ltac:(eauto)) as Hp.
    unfold accuses. rewrite H1, H2.
    pose proof (evaluate_ready_accuses Rec _ _ mg Hp : accuses _ (evaluate_ready _ mg)) as Ha.
    unfold accuses in Ha. rewrite placed_excluded in Ha.
    destruct (evaluate_ready _ mg) as [[d|] t5]; cbn [fst snd] in *; [done|].
    unfold evict_over_window. by rewrite evict_excluded.
Qed.

Lemma sync_run_accuses Rec ops t :
  (forall s o r, recorded ops s o r -> Rec s o r) -> tracker_inv Rec t ->
  NoDup (mjoin (map diverged (sync_run ops t).1)) /\
  forall s, s ∈ mjoin (map diverged (sync_run ops t).1) -> s ∉ excluded t.
Proof.
  revert t. induction ops as [|op ops IH]; intros t Hops Hi; cbn [sync_run].
  { split; [constructor|]. intros s Hs. by apply elem_of_nil in Hs. }
  assert (Hop : forall s o r g mg, op = ORecord s o r g mg -> Rec s o r).
  { intros s o r g mg ->. apply Hops. exists g, mg. left. }
  pose proof (sync_step_accuses Rec t op Hop Hi) as [Hmono Ha].
  destruct (IH (sync_step t op).2) as [IH1 IH2]; [|by apply (sync_step_inv Rec t op)|].
  { intros s o r (g & mg & Hin). apply Hops. exists g, mg. by right. }
  destruct (sync_step t op).1 as [d|]; cbn [fst snd] in *; [|split; [done|]; intros s Hs Hex; by apply (IH2 s Hs), Hmono].
  destruct Ha as [Hnd Hd]. cbn [map mjoin list_join]. split.
  - apply NoDup_app. split_and!; [done| |done]. intros s Hs Hs'. apply (IH2 s Hs'), Hd, Hs.
  - intros s [Hs|Hs]%elem_of_app; [by apply Hd|]. intros Hex. by apply (IH2 s Hs), Hmono.
Qed.

(** ** The drain leaves nothing ready *)

(** Nothing to judge at the base: no members, too little lead, or a required
    member that has not covered it. *)
Definition settled (t : SyncTracker) (margin : Z) : Prop :=
  match frontier t with
  | None => True
  | Some front =>
      front - base_ordinal t < margin \/
      exists slot, slot ∈ required t (base_ordinal t) /\ observed t (base_ordinal t) slot = None
  end.

(** The reports an ordinal holds. *)
Definition reports_at (t : SyncTracker) (o : Z) : gmap Z SyncObservation :=
  default ∅ (BTreeMap.get (pending t) o).

Definition agreed_at (t : SyncTracker) (o : Z) : Prop :=
  agreeing (votes (expected_kind_for_ordinal o) (map_to_list (reports_at t o))).

Lemma uncovered t o : covered t o = false -> exists slot, slot ∈ required t o /\ observed t o slot = None.
Proof.
  unfold covered. intros H. assert (Hn : ~ Forall (fun slot => is_Some (observed t o slot)) (required t o)).
  { intros Hall. rewrite <- not_true_iff_false in H. apply H, forallb_forall. intros slot Hin%list_elem_of_In.
    pose proof (proj1 (Forall_forall _ _) Hall slot Hin) as Hs. cbn in Hs. unfold observed in Hs.
    destruct (BTreeMap.get (pending t) o); [|by destruct Hs]. by apply bool_decide_eq_true. }
  apply not_Forall_Exists in Hn; [|apply _]. apply Exists_exists in Hn as (slot & Hin & Hs).
  exists slot. split; [done|]. by apply eq_None_not_Some.
Qed.

Lemma frontier_members t t' : members t' = members t -> frontier t' = frontier t.
Proof. unfold frontier. by intros ->. Qed.

Lemma required_members t t' o : members t' = members t -> required t' o = required t o.
Proof. unfold required. by intros ->. Qed.

Lemma drain_spec fuel t margin :
  1 <= margin -> (forall front, frontier t = Some front -> front <= u64_max /\ front - base_ordinal t < Z.of_nat fuel) ->
  (0 < fuel)%nat ->
  (evaluate_ready_loop fuel t margin).1 = None ->
  let t' := (evaluate_ready_loop fuel t margin).2 in
  settled t' margin /\ members t' = members t /\ base_ordinal t <= base_ordinal t' /\
  forall o, base_ordinal t <= o < base_ordinal t' -> required t o = [] \/ agreed_at t o.
Proof.
  intros Hm. revert t. induction fuel as [|fuel IH]; intros t Hfuel Hpos; [lia|].
  cbn [evaluate_ready_loop]. unfold settled. destruct (frontier t) as [front|] eqn:Hf.
  2: { intros _. cbn. rewrite Hf. split_and!; [done|done|lia|lia]. }
  destruct (Hfuel front eq_refl) as [Hmax Hlt]. unfold saturating_sub.
  destruct (Z.ltb_spec (Z.max 0 (front - base_ordinal t)) margin).
  { intros _. cbn. rewrite Hf. split_and!; [left; lia|done|lia|lia]. }
  set (t1 := set_base _ _).
  assert (Hb1 : base_ordinal t1 = base_ordinal t + 1) by (cbn; unfold saturating_add; lia).
  assert (Hstep : forall t2, members t2 = members t -> base_ordinal t2 = base_ordinal t + 1 ->
    pending t2 = pending t1 -> required t (base_ordinal t) = [] \/ agreed_at t (base_ordinal t) ->
    (evaluate_ready_loop fuel t2 margin).1 = None ->
    let t' := (evaluate_ready_loop fuel t2 margin).2 in
    settled t' margin /\ members t' = members t /\ base_ordinal t <= base_ordinal t' /\
    forall o, base_ordinal t <= o < base_ordinal t' -> required t o = [] \/ agreed_at t o).
  { intros t2 Hm2 Hb2 Hp2 Hnow Hnone.
    destruct (IH t2) as (I1 & I2 & I3 & I4); [|lia|done|].
    { intros f. rewrite (frontier_members t t2 Hm2), Hf. intros [= <-]. rewrite Hb2. lia. }
    split_and!; [done|congruence|lia|]. intros o Ho. destruct (Z.eq_dec o (base_ordinal t)) as [-> |Hne]; [done|].
    destruct (I4 o) as [I|I]; [lia|left; by rewrite <- (required_members t t2)|right].
    unfold agreed_at, reports_at in *. rewrite Hp2 in I. cbn [pending t1 set_base set_start set_pending] in I.
    by rewrite BTreeMap.get_remove, decide_False in I by done. }
  destruct (required t (base_ordinal t)) as [|x l] eqn:Hreq; [apply Hstep; auto|].
  destruct (covered t (base_ordinal t)) eqn:Hc; cbn [negb].
  2: { intros _. cbn. rewrite Hf. split_and!; [right; by apply uncovered|done|lia|lia]. }
  fold (reports_at t (base_ordinal t)). pose proof (evaluate_judged t1 (base_ordinal t) (reports_at t (base_ordinal t))) as Hj.
  destruct (evaluate t1 _ _) as [[d|] t2]; cbn [fst snd] in *; [done|].
  inversion Hj as [? Hag [S1 S2 S3 S4 S5 S6]| |]; subst. apply Hstep; [done|congruence|done|by right].
Qed.

Lemma option_max_bound l b x : foldl option_max b l = Some x ->
  forall B, (forall y, b = Some y -> y <= B) -> (forall y, Some y ∈ l -> y <= B) -> x <= B.
Proof.
  revert b. induction l as [|a l IH]; intros b; cbn [foldl]; [eauto|].
  intros Hx B Hb Hl. apply (IH _ Hx B); [|intros y Hy; apply Hl; by right].
  intros y. destruct b as [b|], a as [a|]; cbn; intros [= <-]; auto; [|by apply Hl; left].
  assert (b <= B) by auto. assert (a <= B) by (apply Hl; left). lia.
Qed.

(** ** Properties *)

(** C32 No verdict without cause: whatever reports arrive and whatever slots
    leave, every desync the comparator announces at an ordinal rests on two
    recorded reports of the ordinal's own hash kind that disagree; each slot it
    accuses recorded a value that strictly more slots than were accused
    contradict with one voice; and no slot is accused twice. *)
Theorem verdicts_are_justified (ops : list sync_op) :
  (forall d, d ∈ (sync_run ops default_sync_tracker).1 -> justified (recorded ops) d) /\
  NoDup (mjoin (map diverged (sync_run ops default_sync_tracker).1)).
Proof.
  split.
  - intros d Hd. by eapply sync_run_inv; [|apply tracker_inv_init|].
  - by apply (sync_run_accuses (recorded ops)); [|apply tracker_inv_init].
Qed.

(** The drain is exact and complete: when it announces nothing, every
    ordinal it retired had no member to compare or only agreeing votes (so no
    disagreement slips by), the members are untouched, and nothing ready is
    left: the lead is short of the margin, or a required member has not covered
    the next ordinal. *)
Theorem drain_is_complete (t : SyncTracker) (margin : Z) (Hmargin : 1 <= margin)
    (Hmembers : forall s m, members t !! s = Some m -> next_expected m <= u64_max)
    (Hnone : (evaluate_ready t margin).1 = None) :
  let t' := (evaluate_ready t margin).2 in
  settled t' margin /\ members t' = members t /\ base_ordinal t <= base_ordinal t' /\
  forall o, base_ordinal t <= o < base_ordinal t' -> required t o = [] \/ agreed_at t o.
Proof.
  apply drain_spec; [done| |lia|done]. intros front Hf. rewrite Hf. cbn [default]. unfold saturating_sub, id. split; [|lia].
  eapply (option_max_bound _ _ _ Hf); [done|]. intros y Hy. apply list_elem_of_fmap in Hy as ([s m] & [= ->] & Hin).
  by apply (Hmembers s), elem_of_map_to_list.
Qed.

(** The verdict at a complete ordinal depends on the votes alone: none is
    given exactly when they agree; otherwise a strict majority, when there is
    one, decides, the accused are exactly the voters against it, in order, and
    leave the compare set for good; without one nobody is accused and the
    comparator goes dormant. *)
Theorem verdict_exact (t : SyncTracker) (ordinal : Z) (m : gmap Z SyncObservation) :
  let vs := votes (expected_kind_for_ordinal ordinal) (map_to_list m) in
  let t' := (evaluate t ordinal m).2 in
  match (evaluate t ordinal m).1 with
  | None => agreeing vs /\ same_comparison t t'
  | Some d =>
      ~ agreeing vs /\ sync_ordinal d = ordinal /\
      (no_majority d = true <-> forall v, ~ majority_value vs v) /\
      (forall s, s ∈ diverged d <-> exists v w, majority_value vs v /\ w <> v /\ (s, w) ∈ vs) /\
      StronglySorted Z.lt (diverged d) /\
      (forall s, s ∈ diverged d -> members t' !! s = None /\ s ∈ excluded t') /\
      (forall s, s ∉ diverged d -> members t' !! s = members t !! s) /\
      (no_majority d = true -> dormant t' = true)
  end.
Proof.
  intros vs t'. pose proof (evaluate_judged t ordinal m) as Hj. fold vs t' in Hj.
  destruct Hj as [t1 Hag Hs|v d t1 Hmaj Hno Ho Hnm _ Hsort Hbad _ _ _ _ Hex Hm _ _|d t1 Hnmaj Hno Ho Hnm Hempty _ Hd Hs].
  - done.
  - assert (Huniq : forall w, majority_value vs w -> w = v).
    { intros w Hw. destruct (decide (w = v)) as [|Hne]; [done|]. exfalso.
      pose proof (voters_disjoint vs v w (not_eq_sym Hne)). unfold majority_value in *. lia. }
    split_and!; [done|done| | |done|..].
    + rewrite Hnm. split; [done|]. intros Hall. by destruct (Hall v).
    + intros s. rewrite Hbad. split; [intros (w & ? & ?); by exists v, w|].
      intros (w' & w & Hmw & Hne & Hin). rewrite (Huniq w' Hmw) in Hne. eauto.
    + intros s Hs. rewrite Hm, decide_True by done. split; [done|]. apply Hex. by left.
    + intros s Hs. by rewrite Hm, decide_False.
    + by rewrite Hnm.
  - destruct Hs as [_ _ _ Hm _ _]. rewrite Hempty. split_and!; [done|done|done| |constructor|..].
    + intros s. split; [intros Hs; by apply elem_of_nil in Hs|]. intros (v & w & Hv & _). by destruct (Hnmaj v).
    + intros s Hs. by apply elem_of_nil in Hs.
    + intros s _. by rewrite Hm.
    + done.
Qed.

(** ** A concrete comparison: two slots agree at one ordinal and lead the next *)

Definition sample_report (v : Z) : SyncObservation := Report (mkSyncReport (v, 0) SYNC_KIND_UNITS (Some 5)).
Definition sample_tracker : SyncTracker :=
  mkSyncTracker false true 4 {[0 := mkMember 14 2; 1 := mkMember 6 4]}
    [(4, {[0 := sample_report 8; 1 := sample_report 8]}); (5, {[0 := Skipped]})] ∅ 0 0 0 0 0.

Lemma drain_is_complete_witness :
  base_ordinal (evaluate_ready sample_tracker 8).2 = 5 /\ agreed_at sample_tracker 4.
Proof.
  assert (Hb : base_ordinal (evaluate_ready sample_tracker 8).2 = 5) by (vm_compute; reflexivity).
  split; [exact Hb|].
  destruct (drain_is_complete sample_tracker 8) as (_ & _ & _ & H).
  - lia.
  - intros s m. unfold sample_tracker. cbn [members].
    intros [[_ <-]|[_ [_ <-]%lookup_singleton_Some]]%lookup_insert_Some; cbn; width_lia.
  - vm_compute. reflexivity.
  - destruct (H 4) as [Hr|Ha]; [|vm_compute in Hr; discriminate|exact Ha].
    rewrite Hb. cbn. lia.
Defined.
