(* ===== verification/SyncMaker.v ===== *)
(** * The decision maker's checksum observer ([relay/src/consensus/maker/sync.rs])

    The part of the decision maker that feeds the comparator: a turn's first
    checksum command is parsed, ordered within its origin's stream, and every
    turn that becomes consecutive is compared.  The other places that touch the
    comparator are here too: observer changes, departures and promotions. *)

From Stdlib Require Import ZArith Lia.
From stdpp Require Import gmap sorting list.
From S2P Require Import Prelude BTree Commands RateLimit SyncTurns SyncTracker.

Open Scope Z_scope.

Definition SYNC_COMMAND : Z := 0x37.
Definition SYNC_COMMAND_LEN : Z := 7.

(** The fields of [DecisionMaker] the observer reads and writes. *)
Record SyncMaker : Type := mkSyncMaker {
  observers : gset Z;
  rollback_enabled : bool;
  self_relay : bool;
  departures : gset Z;
  bounds_max : Z;
  sync_turns : gmap Z SlotTurns;
  sync : SyncTracker;
}.

Definition set_sync_turns (m : SyncMaker) (ts : gmap Z SlotTurns) : SyncMaker :=
  mkSyncMaker (observers m) (rollback_enabled m) (self_relay m) (departures m) (bounds_max m) ts (sync m).
Definition set_sync (m : SyncMaker) (t : SyncTracker) : SyncMaker :=
  mkSyncMaker (observers m) (rollback_enabled m) (self_relay m) (departures m) (bounds_max m) (sync_turns m) t.

(** ** Parsing *)

(** The first checksum command of a turn and the number of further ones, from
    an offset on; [None] when the fuel runs out. *)
Fixpoint parse_loop (fuel : nat) (rest : list Z) (parsed : option SyncCommand) (extra : Z) :
  option (option SyncCommand * Z) :=
  match fuel with
  | O => None
  | S fuel =>
      match rest with
      | [] => Some (parsed, extra)
      | op :: _ =>
          match command_length rest with
          | None => Some (parsed, extra)
          | Some len =>
              if (len =? 0) || (Z.of_nat (length rest) <? len) then Some (parsed, extra)
              else
                let next := drop (Z.to_nat len) rest in
                if (op =? SYNC_COMMAND) && (len =? SYNC_COMMAND_LEN) then
                  match parsed with
                  | Some _ => parse_loop fuel next parsed (extra + 1)
                  | None =>
                      let tag := default 0 (rest !! 1%nat) in
                      parse_loop fuel next
                        (Some (mkSyncCommand (Z.shiftr tag 4) (Z.land tag 0x0F)
                                 (default 0 (rest !! 2%nat), default 0 (rest !! 3%nat)))) extra
                  end
                else parse_loop fuel next parsed extra
          end
      end
  end.

(** Every round consumes a byte at least. *)
Definition parse_sync (m : SyncMaker) (commands : list Z) : option SyncCommand * SyncMaker :=
  match parse_loop (S (length commands)) commands None 0 with
  | Some (parsed, extra) =>
      (parsed, if 0 <? extra then set_sync m (warn MultiSync (sync m)) else m)
  | None => (None, m)
  end.

(** ** Comparing one ordered turn *)

Definition compare_sync_turn (m : SyncMaker) (slot : Z) (t : SyncTurn) : option SyncDivergence * SyncMaker :=
  if negb (self_relay m) || bool_decide (slot ∈ departures m) then (None, m)
  else
    let m := if SYNC_ABSURD_BUFFER_MAX <=? bounds_max m then set_sync m (disable_for_absurd_bounds (sync m)) else m in
    if dormant (sync m) then (None, m)
    else
      match command t, ordinal t with
      | Some c, Some o =>
          let x := record (sync m) slot o (mkSyncReport (value c) (kind c) (frame t)) (skipped t)
                     (sync_eval_margin (bounds_max m)) in
          (x.1, set_sync m x.2)
      | _, _ => (None, m)
      end.

(** The drain loop: [ready] is what the last push or pop gave. *)
Fixpoint drain_loop (fuel : nat) (m : SyncMaker) (slot : Z)
    (ready : result (option SyncTurn) SyncOrderingFailure) : option SyncDivergence * SyncMaker :=
  match fuel with
  | O => (None, m)
  | S fuel =>
      match ready with
      | Ok (Some t) =>
          match compare_sync_turn m slot t with
          | (Some d, m) => (Some d, m)
          | (None, m) =>
              let x := pop_ready (sync_turns m) slot in
              drain_loop fuel (set_sync_turns m x.2) slot x.1
          end
      | Ok None => (None, m)
      | Err _ => (None, set_sync m (remove_member (sync m) slot))
      end
  end.

(** Each round after the first pops a held turn. *)
Definition drain_fuel (ts : gmap Z SlotTurns) (slot : Z) : nat :=
  S (S (length (st_pending (default default_slot_turns (ts !! slot))))).

Definition observe_sync_with_generation (m : SyncMaker) (slot seq : Z) (game_frame : option Z)
    (commands : list Z) (sync_generation : option Z) : option SyncDivergence * SyncMaker :=
  if bool_decide (slot ∈ observers m) || rollback_enabled m then (None, m)
  else if unavailable (sync_turns m) slot then (None, m)
  else
    let p := parse_sync m commands in
    let m := p.2 in
    let t := mkSyncTurn game_frame None p.1 sync_generation None in
    let x := push (sync_turns m) slot seq t in
    let x := match x.1 with Ok None => pop_ready x.2 slot | _ => x end in
    drain_loop (drain_fuel x.2 slot) (set_sync_turns m x.2) slot x.1.

Definition observe_sync (m : SyncMaker) (slot seq : Z) (game_frame : option Z) (commands : list Z) :=
  observe_sync_with_generation m slot seq game_frame commands None.

(** ** The other operations on the comparator *)

Definition set_observers (m : SyncMaker) (slots : gset Z) : SyncMaker :=
  mkSyncMaker slots (rollback_enabled m) (self_relay m) (departures m) (bounds_max m) (sync_turns m)
    (foldl remove_member (sync m) (elements slots)).

(** What recording a departure does to the comparator's side. *)
Definition depart (m : SyncMaker) (slot : Z) : SyncMaker :=
  mkSyncMaker (observers m) (rollback_enabled m) (self_relay m) ({[slot]} ∪ departures m) (bounds_max m)
    (sync_turns m) (remove_member (sync m) slot).

(** What a change of authority does: a promotion starts the comparator afresh. *)
Definition set_authority (m : SyncMaker) (authority : bool) : SyncMaker :=
  mkSyncMaker (observers m) (rollback_enabled m) authority (departures m) (bounds_max m) (sync_turns m)
    (if negb (self_relay m) && authority then default_sync_tracker else sync m).

(** The fuel is enough: a command that is stepped over has a byte at least. *)
Lemma parse_loop_total fuel rest parsed extra :
  bytes rest -> (length rest < fuel)%nat -> is_Some (parse_loop fuel rest parsed extra).
Proof.
  revert rest parsed extra. induction fuel as [|fuel IH]; intros rest parsed extra Hb Hf; [lia|].
  cbn [parse_loop]. destruct rest as [|op rest]; [eauto|].
  destruct (command_length (op :: rest)) as [len|] eqn:Hl; [|eauto].
  destruct (_ || _); [eauto|]. pose proof (command_length_pos _ _ Hb Hl) as Hpos.
  assert (Hb' : bytes (drop (Z.to_nat len) (op :: rest))) by (by apply Forall_drop).
  assert (Hf' : (length (drop (Z.to_nat len) (op :: rest)) < fuel)%nat).
  { rewrite length_drop. cbn [length] in *. lia. }
  destruct (_ && _); [destruct parsed|]; by apply IH.
Qed.

(** ** An honest session is never accused *)

Definition first_sync (commands : list Z) : option SyncCommand :=
  match parse_loop (S (length commands)) commands None 0 with Some (parsed, _) => parsed | None => None end.

Lemma parse_sync_spec m commands :
  (parse_sync m commands).1 = first_sync commands /\
  sync_turns (parse_sync m commands).2 = sync_turns m /\
  same_comparison (sync m) (sync (parse_sync m commands).2).
Proof.
  unfold parse_sync, first_sync. destruct (parse_loop _ _ _ _) as [[parsed extra]|]; cbn; [|by repeat split].
  destruct (0 <? extra); by repeat split.
Qed.

(** Operations on one session's maker. *)
Inductive maker_op : Type :=
| MObserve (slot seq : Z) (game_frame : option Z) (commands : list Z) (sync_generation : option Z)
| MObservers (slots : gset Z)
| MDepart (slot : Z)
| MAuthority (authority : bool).

Definition maker_step (m : SyncMaker) (op : maker_op) : option SyncDivergence * SyncMaker :=
  match op with
  | MObserve slot seq f commands g => observe_sync_with_generation m slot seq f commands g
  | MObservers slots => (None, set_observers m slots)
  | MDepart slot => (None, depart m slot)
  | MAuthority authority => (None, set_authority m authority)
  end.

Fixpoint maker_run (ops : list maker_op) (m : SyncMaker) : list SyncDivergence * SyncMaker :=
  match ops with
  | [] => ([], m)
  | op :: ops =>
      let x := maker_step m op in
      let y := maker_run ops x.2 in
      (match x.1 with Some d => d :: y.1 | None => y.1 end, y.2)
  end.

Definition new_maker (obs : gset Z) (rollback self : bool) (bounds : Z) : SyncMaker :=
  mkSyncMaker obs rollback self ∅ bounds ∅ default_sync_tracker.

Section honest_session.
(** Each slot's stream and generations, and the simulation's own checksum at
    each generation, on which every slot's reports agree. *)
Context (tagged : Z -> bool) (T : Z -> Z -> SyncTurn) (G : Z -> Z -> Z) (truth : Z -> SyncValue)
  (HS : forall s, honest_stream (tagged s) (T s) (G s))
  (HV : forall s k c, 0 <= k -> command (T s k) = Some c -> value c = truth (G s k)).

Definition honest_op (op : maker_op) : Prop :=
  match op with
  | MObserve slot seq f commands g =>
      0 <= seq /\ T slot seq = mkSyncTurn f None (first_sync commands) g None
  | _ => True
  end.

Definition truthful (s o : Z) (r : SyncReport) : Prop := r_value r = truth o.

Record maker_inv (m : SyncMaker) : Prop := mkMakerInv {
  mi_sync : tracker_inv truthful (sync m);
  mi_turns : forall slot st, sync_turns m !! slot = Some st -> exists outs, slot_inv (T slot) outs st;
}.

Lemma truthful_no_verdict d : ~ justified truthful d.
Proof.
  intros [(s1 & s2 & v1 & v2 & Hne & (r1 & H1 & _ & E1) & (r2 & H2 & _ & E2)) _].
  unfold truthful in *. congruence.
Qed.

(** A turn an ordered queue lets out carries its origin's generation. *)
Lemma emitted_decoded slot outs t st :
  slot_inv (T slot) (outs ++ [t]) st -> decoded (T slot) (G slot) (Z.of_nat (length outs)) t.
Proof.
  intros [(s & Hs & _) _ _ _ _ _ _].
  destruct (sequential_honest _ _ _ (HS slot) (length (outs ++ [t]))) as (outs' & s' & Hs' & _ & _ & Hd).
  rewrite Hs in Hs'. injection Hs' as <- <-. apply Hd. by rewrite lookup_app_r, Nat.sub_diag.
Qed.

Lemma compare_inv m slot t k :
  maker_inv m -> 0 <= k -> decoded (T slot) (G slot) k t ->
  (compare_sync_turn m slot t).1 = None /\ maker_inv (compare_sync_turn m slot t).2 /\
  sync_turns (compare_sync_turn m slot t).2 = sync_turns m.
Proof.
  intros [Hi Ht] Hk (_ & Hc & Ho & _). unfold compare_sync_turn. destruct (_ || _); [done|].
  set (m1 := if _ <=? _ then _ else _).
  assert (Hm1 : tracker_inv truthful (sync m1) /\ sync_turns m1 = sync_turns m).
  { unfold m1. destruct (_ <=? _); [|done]. split; [|done]. destruct Hi as [H1 H2 H3 H4 H5]. by split. }
  destruct Hm1 as [Hi1 Ht1].
  assert (Hm1 : maker_inv m1) by (split; [done|by rewrite Ht1]).
  destruct (dormant (sync m1)); [by split_and!|]. rewrite Hc in *.
  destruct (command (T slot k)) as [c|] eqn:Hck; [|by split_and!]. rewrite (Ho ltac:(done)).
  destruct (record_inv truthful (sync m1) slot (G slot k) (mkSyncReport (value c) (kind c) (frame t)) (skipped t)
    (sync_eval_margin (bounds_max m1)) Hi1) as [Hr Hd]; [unfold truthful; cbn; eauto|].
  destruct (record _ _ _ _ _ _) as [[d|] t2]; cbn [fst snd] in *.
  - destruct (truthful_no_verdict d). by apply Hd.
  - split_and!; [done| |exact Ht1]. split; [done|]. cbn. by rewrite Ht1.
Qed.

Lemma drain_inv fuel m slot ready :
  maker_inv m ->
  (forall t, ready = Ok (Some t) -> exists k, 0 <= k /\ decoded (T slot) (G slot) k t) ->
  (drain_loop fuel m slot ready).1 = None /\ maker_inv (drain_loop fuel m slot ready).2.
Proof.
  revert m ready. induction fuel as [|fuel IH]; intros m ready Hm Hready; [done|]. cbn [drain_loop].
  destruct ready as [[t|]|e]; [|done|].
  - destruct (Hready t eq_refl) as (k & Hk & Hd). destruct (compare_inv m slot t k Hm Hk Hd) as (H1 & H2 & H3).
    destruct (compare_sync_turn m slot t) as [o m1]. cbn [fst snd] in *. subst o.
    unfold pop_ready. destruct (sync_turns m1 !! slot) as [st|] eqn:Hst; [|apply IH; [by destruct H2|done]].
    destruct (mi_turns _ H2 slot st Hst) as [outs Hi]. pose proof (turn_pop_inv _ _ _ Hi) as Hp. cbn [fst snd].
    apply IH.
    + split; [apply H2|]. cbn. intros s st'. destruct (decide (s = slot)) as [-> |].
      * rewrite lookup_insert_eq. intros [= <-]. eauto.
      * rewrite lookup_insert_ne by done. apply H2.
    + intros u Hu. rewrite Hu in Hp. exists (Z.of_nat (length outs)). split; [lia|]. by eapply emitted_decoded.
  - split; [done|]. split; [|apply Hm]. by apply remove_member_inv, Hm.
Qed.

Lemma sync_observe_inv m slot seq f commands g :
  maker_inv m -> honest_op (MObserve slot seq f commands g) ->
  let x := observe_sync_with_generation m slot seq f commands g in x.1 = None /\ maker_inv x.2.
Proof.
  intros Hm [Hseq HT]. cbv zeta. unfold observe_sync_with_generation.
  destruct (_ || _); [done|]. destruct (unavailable _ _); [done|].
  destruct (parse_sync_spec m commands) as (Hp & Hts & Hsame). rewrite Hp, <- HT.
  set (m1 := (parse_sync m commands).2) in *.
  assert (Hm1 : maker_inv m1) by (split; [eapply tracker_inv_same; [exact Hsame|apply Hm]|rewrite Hts; apply Hm]).
  unfold push. cbn [fst snd]. set (st := default default_slot_turns (sync_turns m1 !! slot)).
  assert (Hst : exists outs, slot_inv (T slot) outs st).
  { unfold st. destruct (sync_turns m1 !! slot) as [st'|] eqn:E; [by apply (mi_turns _ Hm1)|].
    exists []. apply slot_inv_init. }
  destruct Hst as [outs Hi]. pose proof (turn_push_inv _ _ _ _ Hi Hseq) as Hpush.
  set (ts := <[slot := (push_slot st seq (T slot seq)).2]> (sync_turns m1)).
  assert (Hset : forall st' outs', slot_inv (T slot) outs' st' ->
    maker_inv (set_sync_turns m1 (<[slot := st']> (sync_turns m1)))).
  { intros st' outs' Hi'. split; [apply Hm1|]. cbn. intros s u. destruct (decide (s = slot)) as [-> |].
    - rewrite lookup_insert_eq. intros [= <-]. eauto.
    - rewrite lookup_insert_ne by done. apply Hm1. }
  destruct (push_slot st seq (T slot seq)).1 as [[t|]|e] eqn:Hx; cbn [fst snd].
  - apply drain_inv; [by eapply Hset|]. intros u [= <-]. exists (Z.of_nat (length outs)). split; [lia|].
    by eapply emitted_decoded.
  - unfold pop_ready, ts. rewrite lookup_insert_eq. cbn [fst snd]. rewrite insert_insert_eq.
    pose proof (turn_pop_inv _ _ _ Hpush) as Hpop. cbn [emitted] in Hpop. rewrite app_nil_r in Hpop.
    apply drain_inv; [by eapply Hset|].
    intros u Hu. rewrite Hu in Hpop. exists (Z.of_nat (length outs)). split; [lia|]. by eapply emitted_decoded.
  - apply drain_inv; [by eapply Hset|]. done.
Qed.

Lemma maker_step_inv m op : maker_inv m -> honest_op op ->
  (maker_step m op).1 = None /\ maker_inv (maker_step m op).2.
Proof.
  intros Hm Hop. destruct op as [slot seq f commands g|slots|slot|authority]; cbn [maker_step fst snd].
  - by apply sync_observe_inv.
  - split; [done|]. destruct Hm as [Hs Ht]. split; [|done]. cbn. revert Hs. generalize (sync m) as t.
    induction (elements slots) as [|s l IH]; intros t Hs; [done|]. cbn. by apply IH, remove_member_inv.
  - split; [done|]. destruct Hm. split; [by apply remove_member_inv|done].
  - split; [done|]. destruct Hm. split; [|done]. cbn. destruct (_ && _); [apply tracker_inv_init|done].
Qed.

Lemma maker_run_inv ops m : maker_inv m -> Forall honest_op ops -> (maker_run ops m).1 = [].
Proof.
  revert m. induction ops as [|op ops IH]; intros m Hm Hops; [done|]. cbn [maker_run].
  inversion_clear Hops as [|? ? Hop Hops']. destruct (maker_step_inv m op Hm Hop) as [H1 H2].
  rewrite H1. by apply IH.
Qed.

End honest_session.

(** C2 An honest session is never accused: when every player's stream is its
    simulation's own checksums, stamped with the generation they were recorded
    in, no order of arrival, repetition, loss, observer change, departure or
    promotion makes the relay announce a desync. *)
Theorem honest_session_never_desyncs (tagged : Z -> bool) (T : Z -> Z -> SyncTurn) (G : Z -> Z -> Z)
    (truth : Z -> SyncValue)
    (HS : forall s, honest_stream (tagged s) (T s) (G s))
    (HV : forall s k c, 0 <= k -> command (T s k) = Some c -> value c = truth (G s k))
    (obs : gset Z) (rollback self : bool) (bounds : Z) (ops : list maker_op)
    (Hops : Forall (honest_op T) ops) :
  (maker_run ops (new_maker obs rollback self bounds)).1 = [].
Proof.
  eapply maker_run_inv; eauto. split; cbn; [apply tracker_inv_init|]. intros slot st. by rewrite lookup_empty.
Qed.

(** ** The observer leaves nothing ready *)

Definition nothing_ready (m : SyncMaker) (slot : Z) : Prop := (pop_ready (sync_turns m) slot).1 = Ok None.

Definition held_count (m : SyncMaker) (slot : Z) : nat :=
  length (st_pending (default default_slot_turns (sync_turns m !! slot))).

Lemma consume_cases st seq t :
  (exists t', (consume st seq t).1 = Ok t' /\ st_pending (consume st seq t).2 = st_pending st) \/
  (exists e, (consume st seq t).1 = Err e /\ st_pending (consume st seq t).2 = []).
Proof.
  unfold consume. destruct (checked_add _ _ _); [|right; cbn; eauto].
  destruct (command t); [|destruct (generation t); cbn; eauto].
  destruct (assign _ _ _ _) as [[[n g]|r] md]; cbn; eauto.
Qed.

Lemma pop_cases st :
  (BTreeMap.get (st_pending st) (st_next st) = None /\ pop_slot st = (Ok None, st)) \/
  (exists t', (pop_slot st).1 = Ok (Some t') /\ (length (st_pending (pop_slot st).2) < length (st_pending st))%nat) \/
  (exists e, (pop_slot st).1 = Err e /\ st_pending (pop_slot st).2 = []).
Proof.
  unfold pop_slot. destruct (BTreeMap.get _ _) as [t|] eqn:Hg; [right|by left].
  set (st' := mkSlotTurns _ _ _ _ _). unfold ok_some. cbn [fst snd].
  destruct (consume_cases st' (st_next st) t) as [(t' & -> & ->)|(e & -> & ->)]; [left|right; eauto].
  exists t'. split; [done|]. cbn. unfold BTreeMap.remove, BTreeMap.retain.
  apply length_filter_lt with (st_next st, t); [by apply BTreeMap.elem_of_get|]. cbn. tauto.
Qed.

Lemma compare_turns m slot t : sync_turns (compare_sync_turn m slot t).2 = sync_turns m.
Proof.
  unfold compare_sync_turn. destruct (_ || _); [done|]. destruct (_ <=? _); destruct (dormant _); try done;
    destruct (command t), (ordinal t); done.
Qed.

Lemma pop_empty st : st_pending st = [] -> pop_slot st = (Ok None, st).
Proof. unfold pop_slot. by intros ->. Qed.

Lemma drain_done fuel m slot ready :
  (held_count m slot < fuel)%nat -> (forall t, ready = Ok (Some t) -> (S (held_count m slot) < fuel)%nat) ->
  ((forall t, ready <> Ok (Some t)) -> nothing_ready m slot) ->
  (drain_loop fuel m slot ready).1 = None -> nothing_ready (drain_loop fuel m slot ready).2 slot.
Proof.
  revert m ready. induction fuel as [|fuel IH]; intros m ready Hf Hf1 Hdone; [lia|]. cbn [drain_loop].
  destruct ready as [[t|]|e]; [|intros _; by apply Hdone|intros _; by apply Hdone].
  specialize (Hf1 t eq_refl). pose proof (compare_turns m slot t) as Hts.
  destruct (compare_sync_turn m slot t) as [[d|] m1]; cbn [fst snd] in *; [done|].
  assert (Hh : held_count m1 slot = held_count m slot) by (unfold held_count; by rewrite Hts).
  unfold pop_ready. destruct (sync_turns m1 !! slot) as [st|] eqn:Hst; cbn [fst snd].
  2: { apply IH; [unfold held_count in *; cbn; lia|done|]. intros _. unfold nothing_ready, pop_ready. cbn. by rewrite Hst. }
  assert (Hlen : held_count m1 slot = length (st_pending st)) by (unfold held_count; by rewrite Hst).
  set (m2 := set_sync_turns m1 _).
  assert (Hlen2 : held_count m2 slot = length (st_pending (pop_slot st).2)) by (unfold held_count, m2; cbn; by rewrite lookup_insert_eq).
  assert (Hnr : st_pending (pop_slot st).2 = [] \/ pop_slot st = (Ok None, st) -> nothing_ready m2 slot).
  { intros Hc. unfold nothing_ready, pop_ready, m2. cbn [sync_turns set_sync_turns]. rewrite lookup_insert_eq.
    destruct Hc as [Hc|Hc]; [by rewrite (pop_empty _ Hc)|]. rewrite Hc. cbn [snd]. by rewrite Hc. }
  destruct (pop_cases st) as [[Hg Hp]|[(t' & Hp & Hlt)|(e & Hp & Hempty)]].
  - apply IH; [rewrite Hlen2, Hp; cbn [snd]; lia|rewrite Hp; done|intros _; apply Hnr; by right].
  - apply IH; [lia|intros; lia|]. rewrite Hp. intros Hno. by destruct (Hno t').
  - apply IH; [rewrite Hlen2, Hempty; cbn; lia|rewrite Hp; done|intros _; apply Hnr; by left].
Qed.

Lemma push_failed st seq t e : (push_slot st seq t).1 = Err e -> st_pending (push_slot st seq t).2 = [].
Proof.
  unfold push_slot. destruct (_ || _); [done|]. destruct (_ =? _).
  - unfold ok_some. cbn [fst snd]. destruct (consume_cases st seq t) as [(t' & -> & _)|(e' & _ & ->)]; done.
  - destruct (_ && _); [done|]. destruct (_ && _); done.
Qed.

Lemma drain_from m ts slot ready :
  ((forall t, ready <> Ok (Some t)) -> nothing_ready (set_sync_turns m ts) slot) ->
  (drain_loop (drain_fuel ts slot) (set_sync_turns m ts) slot ready).1 = None ->
  nothing_ready (drain_loop (drain_fuel ts slot) (set_sync_turns m ts) slot ready).2 slot.
Proof.
  intros H. apply drain_done; [|intros _ _|done]; unfold drain_fuel, held_count;
    cbn [sync_turns set_sync_turns]; lia.
Qed.

(** C37 Observing a turn drains its origin: when no desync is announced, and the
    slot is compared at all, no turn of the slot that has become consecutive is
    left waiting (the drain loop has run to its end). *)
Theorem observation_drains_origin (m : SyncMaker) (slot seq : Z) (f : option Z) (commands : list Z) (g : option Z)
    (Hcompared : bool_decide (slot ∈ observers m) || rollback_enabled m || unavailable (sync_turns m) slot = false)
    (Hnone : (observe_sync_with_generation m slot seq f commands g).1 = None) :
  nothing_ready (observe_sync_with_generation m slot seq f commands g).2 slot.
Proof.
  apply orb_false_elim in Hcompared as [Hc1 Hc2]. unfold observe_sync_with_generation in *. rewrite Hc1, Hc2 in *.
  set (m1 := (parse_sync m commands).2) in *. set (t := mkSyncTurn _ _ _ _ _) in *. unfold push in *. cbn [fst snd] in *.
  set (st := default default_slot_turns (sync_turns m1 !! slot)) in *. revert Hnone.
  destruct (push_slot st seq t).1 as [[u|]|e] eqn:Hx; cbn [fst snd].
  - apply drain_from.
    intros Hno. by destruct (Hno u).
  - unfold pop_ready. rewrite lookup_insert_eq. cbn [fst snd]. rewrite insert_insert_eq.
    set (st1 := (push_slot st seq t).2). apply drain_from.
    intros Hno.
    unfold nothing_ready, pop_ready. cbn [sync_turns set_sync_turns]. rewrite lookup_insert_eq.
    destruct (pop_cases st1) as [[_ E]|[(t' & Hp & _)|(e & _ & Hp)]]; [..|by rewrite (pop_empty _ Hp)].
    + rewrite E. cbn [snd]. by rewrite E.
    + by destruct (Hno t').
  - apply drain_from.
    intros _. unfold nothing_ready, pop_ready.
    cbn [sync_turns set_sync_turns]. rewrite lookup_insert_eq. by rewrite (pop_empty _ (push_failed _ _ _ _ Hx)).
Qed.

(** ** A session of three players

    Each tags its turns, skips generations as its buffer shrinks, and reports
    the simulation's checksum; turns arrive out of order. *)

Definition sample_truth (g : Z) : SyncValue := (g mod 256, 9).
Definition sample_tag (g : Z) : Z := 16 * (g mod SYNC_RING_MODULUS) + expected_kind_for_ordinal g.
Definition sample_stream (slot k : Z) : SyncTurn :=
  let g := sample_generation k in
  mkSyncTurn (Some (24 * k)) None
    (Some (mkSyncCommand (g mod SYNC_RING_MODULUS) (expected_kind_for_ordinal g) (sample_truth g)))
    (Some g) None.

Definition sample_observe (slot seq : Z) (hash : Z) : maker_op :=
  let g := sample_generation seq in
  MObserve slot seq (Some (24 * seq)) [SYNC_COMMAND; sample_tag g; hash; 9; 0; 0; 0] (Some g).

(** The observations of turns 1, 0, 3, 2, 4 by each slot, with what each reports. *)
Definition sample_session (hash : Z -> Z -> Z) : list maker_op :=
  flat_map (fun seq => map (fun slot => sample_observe slot seq (hash slot (sample_generation seq))) [0; 1; 2])
    [1; 0; 3; 2; 4].

Lemma sample_stream_honest slot : honest_stream true (sample_stream slot) sample_generation.
Proof.
  destruct sample_honest as [H1 H2 H3 H4 H5 H6 H7 H8]. split; try done.
  - intros k Hk Hn. destruct (Z.eq_dec k 0) as [-> |]; [done|]. specialize (Hn 0 ltac:(lia)). done.
  - intros k c _ [= <-]. done.
Qed.

Lemma honest_session_never_desyncs_witness :
  (maker_run (sample_session (fun _ g => g mod 256)) (new_maker ∅ false true 6)).1 = [] /\
  (maker_run (sample_session (fun slot g => if slot =? 2 then 77 else g mod 256)) (new_maker ∅ false true 6)).1 =
    [mkSyncDivergence 0 (Some 0) false [2] []].
Proof.
  split; [|vm_compute; reflexivity].
  apply (honest_session_never_desyncs (fun _ => true) sample_stream (fun _ => sample_generation) sample_truth).
  - apply sample_stream_honest.
  - intros s k c _ [= <-]. reflexivity.
  - repeat (constructor; [split; [lia|vm_compute; reflexivity]|]). constructor.
Defined.

Lemma observation_drains_origin_witness :
  let m := (maker_run [sample_observe 0 1 3] (new_maker ∅ false true 6)).2 in
  held_count m 0 = 1%nat /\
  nothing_ready (maker_step m (sample_observe 0 0 0)).2 0.
Proof.
  cbv zeta. split; [vm_compute; reflexivity|].
  apply observation_drains_origin; vm_compute; reflexivity.
Defined.
