(* ===== verification/StateHashes.v ===== *)
(** * State hash reports of rollback sessions ([relay/src/consensus/sync/hashes.rs])

    In a rollback session clients report a hash of every eighth confirmed step.
    A step is judged when every required slot has reported it or its deadline
    has passed, but decided only once the reports still to come cannot change
    the outcome.  Instants and durations are nanoseconds. *)

From Stdlib Require Import ZArith Lia.
From stdpp Require Import gmap sorting list.
From S2P Require Import Prelude BTree RateLimit Votes SyncTracker.

Open Scope Z_scope.

Definition STATE_HASH_INTERVAL : Z := 8.
Definition STATE_HASH_DEADLINE : Z := 5 * 1000000000.
Definition STATE_HASH_LIVE_TURNS : Z := 96.
Definition STATE_HASH_WINDOW : Z := 64.

Record PendingStep : Type := mkPendingStep {
  ps_reports : list (Z * Z);
  newest_report_at : option Z;
  confirmable_at : option Z;
}.

Definition default_pending_step : PendingStep := mkPendingStep [] None None.

Record JudgedStep : Type := mkJudgedStep {
  js_reports : list (Z * Z);
  hold_from : Z;
  dirty : bool;
  js_held : bool;
}.

Definition hold_is_over (j : JudgedStep) (now : Z) : bool := hold_from j + STATE_HASH_DEADLINE <=? now.

Inductive Judgment : Type := Undecided | Decided (verdict : option SyncDivergence).

Record StateHashTracker : Type := mkStateHashTracker {
  sh_pending : list (Z * PendingStep);
  sh_judged : list (Z * JudgedStep);
  forwarded : gmap Z Z;
  confirmable_until : Z;
  retired_below : Z;
  sh_excluded : gset Z;
  sh_dormant : bool;
  invalid_warns : Z;
  conflict_warns : Z;
  sh_evict_warns : Z;
}.

Definition default_hashes : StateHashTracker := mkStateHashTracker [] [] ∅ 0 0 ∅ false 0 0 0.

(** Field updates. *)
Definition set_steps (t : StateHashTracker) (p : list (Z * PendingStep)) (j : list (Z * JudgedStep)) (r : Z) :
  StateHashTracker :=
  mkStateHashTracker p j (forwarded t) (confirmable_until t) r (sh_excluded t) (sh_dormant t)
    (invalid_warns t) (conflict_warns t) (sh_evict_warns t).
Definition set_verdict (t : StateHashTracker) (e : gset Z) (d : bool) : StateHashTracker :=
  mkStateHashTracker (sh_pending t) (sh_judged t) (forwarded t) (confirmable_until t) (retired_below t) e d
    (invalid_warns t) (conflict_warns t) (sh_evict_warns t).
Definition set_counters (t : StateHashTracker) (i c e : Z) : StateHashTracker :=
  mkStateHashTracker (sh_pending t) (sh_judged t) (forwarded t) (confirmable_until t) (retired_below t)
    (sh_excluded t) (sh_dormant t) i c e.
Definition set_forwarded (t : StateHashTracker) (f : gmap Z Z) (u : Z) : StateHashTracker :=
  mkStateHashTracker (sh_pending t) (sh_judged t) f u (retired_below t) (sh_excluded t) (sh_dormant t)
    (invalid_warns t) (conflict_warns t) (sh_evict_warns t).

(** ** Eviction *)

Fixpoint evict_steps_loop (fuel : nat) (t : StateHashTracker) : StateHashTracker :=
  match fuel with
  | O => t
  | S fuel =>
      if STATE_HASH_WINDOW <? Z.of_nat (length (sh_pending t)) then
        match sh_pending t with
        | [] => t
        | (step, _) :: rest =>
            let t := set_steps t rest (sh_judged t) (Z.max (retired_below t) (step + 1)) in
            evict_steps_loop fuel
              (set_counters t (invalid_warns t) (conflict_warns t) (counter_observe (sh_evict_warns t)).2)
        end
      else t
  end.

Definition evict_steps (t : StateHashTracker) : StateHashTracker := evict_steps_loop (length (sh_pending t)) t.

(** ** Recording a report *)

Definition reported (slot : Z) (reports : list (Z * Z)) : option Z :=
  snd <$> List.find (fun x => x.1 =? slot) reports.

(** A report filed under its step, which a [retired] one finds among the judged. *)
Definition file_report (t : StateHashTracker) (slot step hash now : Z) (retired : bool) : StateHashTracker :=
  let conflict t old := if old =? hash then t
    else set_counters t (invalid_warns t) (counter_observe (conflict_warns t)).2 (sh_evict_warns t) in
  match (if retired then BTreeMap.get (sh_judged t) step else None) with
  | Some j =>
      match reported slot (js_reports j) with
      | Some old => conflict t old
      | None =>
          set_steps t (sh_pending t)
            (BTreeMap.insert step
               (mkJudgedStep (js_reports j ++ [(slot, hash)]) (Z.max (hold_from j) now) true (js_held j))
               (sh_judged t)) (retired_below t)
      end
  | None =>
      let p := default default_pending_step (BTreeMap.get (sh_pending t) step) in
      let newest := default now (newest_report_at p) in
      let keep reports newest :=
        set_steps t (BTreeMap.insert step (mkPendingStep reports (Some newest) (confirmable_at p)) (sh_pending t))
          (sh_judged t) (retired_below t) in
      match reported slot (ps_reports p) with
      | Some old => conflict (keep (ps_reports p) newest) old
      | None => keep (ps_reports p ++ [(slot, hash)]) (Z.max newest now)
      end
  end.

Definition record_hash (t : StateHashTracker) (slot step hash now : Z) : StateHashTracker :=
  if sh_dormant t || bool_decide (slot ∈ sh_excluded t) then t
  else
    let horizon := saturating_add u64_max (confirmable_until t) (STATE_HASH_WINDOW * STATE_HASH_INTERVAL) in
    let retired := (step <? retired_below t) && negb (bool_decide (is_Some (BTreeMap.get (sh_pending t) step))) in
    let on_interval := (STATE_HASH_INTERVAL <=? step) && (step mod STATE_HASH_INTERVAL =? 0) in
    if negb on_interval || (retired && negb (bool_decide (is_Some (BTreeMap.get (sh_judged t) step))))
       || (horizon <? step) then
      set_counters t (counter_observe (invalid_warns t)).2 (conflict_warns t) (sh_evict_warns t)
    else evict_steps (file_report t slot step hash now retired).

(** ** Confirmable steps *)

Definition forwarded_count (t : StateHashTracker) (slot : Z) : Z := default 0 (forwarded t !! slot).

(** [next_multiple_of]. *)
Definition next_multiple_of (x n : Z) : Z := (x + n - 1) / n * n.

(** The report steps from [first] to [until], as the [while] loop visits them. *)
Definition report_steps (first until : Z) : list Z :=
  map (fun i => first + STATE_HASH_INTERVAL * i) (seqZ 0 ((until - first) / STATE_HASH_INTERVAL + 1)).

Definition note_confirmable (now : Z) (p : list (Z * PendingStep)) (step : Z) : list (Z * PendingStep) :=
  let s := default default_pending_step (BTreeMap.get p step) in
  BTreeMap.insert step
    (mkPendingStep (ps_reports s) (newest_report_at s) (Some (default now (confirmable_at s)))) p.

(** The least of a list, as [Iterator::min]. *)
Definition min_of (l : list Z) : option Z :=
  match l with [] => None | x :: l => Some (foldl Z.min x l) end.

Definition note_forwarded (t : StateHashTracker) (slot count now : Z) (required : list Z) : StateHashTracker :=
  let f := <[slot := Z.max (forwarded_count t slot) count]> (forwarded t) in
  let t := set_forwarded t f (confirmable_until t) in
  let until := default 0 (min_of (map (forwarded_count t) (filter (fun s => s ∉ sh_excluded t) required))) in
  if until <=? confirmable_until t then t
  else
    let first := Z.max (Z.max (next_multiple_of (confirmable_until t + 1) STATE_HASH_INTERVAL) STATE_HASH_INTERVAL)
                   (retired_below t) in
    let p := foldl (note_confirmable now) (sh_pending t) (report_steps first until) in
    evict_steps (set_forwarded (set_steps t p (sh_judged t) (retired_below t)) f until).

(** ** Judging one step *)

(** The slots still taking part. *)
Definition active (t : StateHashTracker) (required : gset Z) : list Z :=
  filter (fun s => s ∉ sh_excluded t) (elements required).

(** The reports that count, and the slots at fault for sending none. *)
Definition counted_reports (t : StateHashTracker) (reports : list (Z * Z)) (required : gset Z) : list (Z * Z) :=
  filter (fun r => r.1 ∈ required /\ r.1 ∉ sh_excluded t) reports.
Definition withholding (t : StateHashTracker) (step : Z) (reports : list (Z * Z)) (required : gset Z) : list Z :=
  filter (fun s => saturating_add u64_max step STATE_HASH_LIVE_TURNS <= forwarded_count t s)
    (filter (fun s => s ∉ map fst reports) (active t required)).

(** [reports.windows(2).all(|pair| pair[0].1 == pair[1].1)]. *)
Fixpoint neighbours_agree (reports : list (Z * Z)) : bool :=
  match reports with
  | r :: ((r' :: _) as rest) => (r.2 =? r'.2) && neighbours_agree rest
  | _ => true
  end.

(** The end of [judge], with the majority it found. *)
Definition decided (t : StateHashTracker) (step : Z) (reports : list (Z * Z)) (missing : list Z) (required : gset Z)
    (majority : option (Z * list Z)) : Judgment * StateHashTracker :=
  match majority with
  | None =>
      (Decided (Some (mkSyncDivergence step None true [] missing)), set_verdict t (sh_excluded t) true)
  | Some (_, majority) =>
      let bad := sort_slots (filter (fun s => s ∉ majority) (map fst reports)) in
      let excluded := foldl (fun e s => {[s]} ∪ e) (sh_excluded t) (bad ++ missing) in
      let left := length (filter (fun s => s ∉ excluded) (elements required)) in
      (Decided (Some (mkSyncDivergence step None false bad missing)),
       set_verdict t excluded (if Z.of_nat left <? 2 then true else sh_dormant t))
  end.

Definition judge (t : StateHashTracker) (step : Z) (reports : list (Z * Z)) (required : gset Z) (settle : bool) :
  Judgment * StateHashTracker :=
  let reports := counted_reports t reports required in
  let missing := sort_slots (withholding t step reports required) in
  let agreed := neighbours_agree reports in
  if agreed && (match missing with [] => true | _ => false end) then (Decided None, t)
  else
    let groups := tally reports in
    let count := Z.of_nat (length reports) in
    let voting := saturating_sub (Z.of_nat (length (active t required))) (Z.of_nat (length missing)) in
    if agreed then decided t step reports missing required (majority_of groups count)
    else
      match majority_of groups voting with
      | Some m => decided t step reports missing required (Some m)
      | None =>
          if (count <? voting) && negb settle then (Undecided, t)
          else decided t step reports missing required (majority_of groups count)
      end.

Definition judge_step (t : StateHashTracker) (step now : Z) (required : gset Z) (settle : bool) :
  list SyncDivergence * StateHashTracker :=
  match BTreeMap.get (sh_judged t) step with
  | None => ([], t)
  | Some j =>
      let settle := settle || hold_is_over j now in
      let x := judge t step (js_reports j) required settle in
      let put held := set_steps x.2 (sh_pending x.2)
        (BTreeMap.insert step (mkJudgedStep (js_reports j) (hold_from j) false held) (sh_judged x.2))
        (retired_below x.2) in
      match x.1 with
      | Undecided => ([], put true)
      | Decided verdict => (match verdict with Some d => [d] | None => [] end, put false)
      end
  end.

(** ** The sweep *)

(** The judged steps looked at again. *)
Fixpoint judge_again (steps : list Z) (t : StateHashTracker) (now : Z) (required : gset Z) :
  list SyncDivergence * StateHashTracker :=
  match steps with
  | [] => ([], t)
  | step :: steps =>
      if sh_dormant t then ([], t)
      else
        let x := judge_step t step now required false in
        let y := judge_again steps x.2 now required in
        (x.1 ++ y.1, y.2)
  end.

Definition ready_step (t : StateHashTracker) (now : Z) (required : gset Z) (p : Z * PendingStep) : bool :=
  match confirmable_at p.2 with
  | None => false
  | Some at_ =>
      forallb (fun s => bool_decide (is_Some (reported s (ps_reports p.2)))) (active t required)
      || (STATE_HASH_DEADLINE <=? saturating_sub now at_)
  end.

(** The inner [while]: the judged window. *)
Fixpoint trim_loop (fuel : nat) (t : StateHashTracker) (now : Z) (required : gset Z) :
  list SyncDivergence * StateHashTracker :=
  match fuel with
  | O => ([], t)
  | S fuel =>
      if (STATE_HASH_WINDOW <? Z.of_nat (length (sh_judged t))) && negb (sh_dormant t) then
        match sh_judged t with
        | [] => ([], t)
        | (oldest, j) :: _ =>
            let x := if js_held j then judge_step t oldest now required true else ([], t) in
            let t := set_steps x.2 (sh_pending x.2) (BTreeMap.remove oldest (sh_judged x.2)) (retired_below x.2) in
            let y := trim_loop fuel t now required in
            (x.1 ++ y.1, y.2)
        end
      else ([], t)
  end.

(** The outer [while]: one ready step a round. *)
Fixpoint sweep_loop (fuel : nat) (t : StateHashTracker) (now : Z) (required : gset Z) :
  list SyncDivergence * StateHashTracker :=
  match fuel with
  | O => ([], t)
  | S fuel =>
      if sh_dormant t then ([], t)
      else
        match List.find (ready_step t now required) (sh_pending t) with
        | None => ([], t)
        | Some (step, p) =>
            let deadline := default now (confirmable_at p) + STATE_HASH_DEADLINE in
            let j := mkJudgedStep (ps_reports p)
                       (match newest_report_at p with Some at_ => Z.max at_ deadline | None => deadline end)
                       false false in
            let t := set_steps t (BTreeMap.remove step (sh_pending t)) (BTreeMap.insert step j (sh_judged t))
                       (Z.max (retired_below t) (step + 1)) in
            let x := judge_step t step now required false in
            let y := trim_loop (length (sh_judged x.2)) x.2 now required in
            let z := sweep_loop fuel y.2 now required in
            (x.1 ++ y.1 ++ z.1, z.2)
        end
  end.

Definition judge_ready (t : StateHashTracker) (now : Z) (required : gset Z) :
  list SyncDivergence * StateHashTracker :=
  let due := map fst (filter (fun p => dirty p.2 || (js_held p.2 && hold_is_over p.2 now) = true) (sh_judged t)) in
  let x := judge_again due t now required in
  let y := sweep_loop (S (length (sh_pending x.2))) x.2 now required in
  (x.1 ++ y.1, y.2).

(** ** What a judgment says *)

Lemma neighbours_agree_spec reports : neighbours_agree reports = true <-> agreeing reports.
Proof.
  unfold agreeing. induction reports as [|r [|r' rest] IH].
  - split; [|done]. intros _ p q Hp. by apply elem_of_nil in Hp.
  - split; [|done]. intros _ p q Hp%list_elem_of_singleton Hq%list_elem_of_singleton. congruence.
  - change (neighbours_agree (r :: r' :: rest)) with ((r.2 =? r'.2) && neighbours_agree (r' :: rest)).
    rewrite andb_true_iff, IH, Z.eqb_eq. split.
    + intros [He Hall] p q Hp Hq. assert (Hr' : forall x, x ∈ r :: r' :: rest -> x.2 = r'.2).
      { intros x [-> |Hx]%elem_of_cons; [done|]. apply Hall; [done|left]. }
      by rewrite (Hr' p Hp), (Hr' q Hq).
    + intros Hall. split; [apply Hall; [left|right; left]|]. intros p q Hp Hq. apply Hall; by right.
Qed.

(** How many slots can still vote. *)
Definition electorate (t : StateHashTracker) (step : Z) (reports : list (Z * Z)) (required : gset Z) : Z :=
  Z.of_nat (length (active t required)) -
  Z.of_nat (length (withholding t step (counted_reports t reports required) required)).

(** The reports still to come cannot change the outcome: none are, there is
    nothing to contradict, or the value already has more than half of all. *)
Definition final (vs : list (Z * Z)) (voting : Z) (v : option Z) : Prop :=
  voting <= Z.of_nat (length vs) \/ agreeing vs \/
  exists w, v = Some w /\ voting < 2 * Z.of_nat (length (voters w vs)).

Inductive hash_judged (t : StateHashTracker) (step : Z) (reports : list (Z * Z)) (required : gset Z) (settle : bool) :
  Judgment -> StateHashTracker -> Prop :=
| hj_undecided :
    settle = false -> ~ agreeing (counted_reports t reports required) ->
    Z.of_nat (length (counted_reports t reports required)) < electorate t step reports required ->
    (forall v, 2 * Z.of_nat (length (voters v (counted_reports t reports required))) <=
               electorate t step reports required) ->
    hash_judged t step reports required settle Undecided t
| hj_silent :
    agreeing (counted_reports t reports required) ->
    withholding t step (counted_reports t reports required) required = [] ->
    hash_judged t step reports required settle (Decided None) t
| hj_split d t' :
    sync_ordinal d = step -> no_majority d = true -> diverged d = [] ->
    missing d ≡ₚ withholding t step (counted_reports t reports required) required ->
    (forall v, ~ majority_value (counted_reports t reports required) v) ->
    settle = true \/ final (counted_reports t reports required) (electorate t step reports required) None ->
    t' = set_verdict t (sh_excluded t) true ->
    hash_judged t step reports required settle (Decided (Some d)) t'
| hj_majority v d t' e b :
    sync_ordinal d = step -> no_majority d = false ->
    diverged d ≡ₚ minority v (counted_reports t reports required) ->
    missing d ≡ₚ withholding t step (counted_reports t reports required) required ->
    majority_value (counted_reports t reports required) v ->
    settle = true \/ final (counted_reports t reports required) (electorate t step reports required) (Some v) ->
    t' = set_verdict t e b -> (forall s, s ∈ e <-> s ∈ diverged d ++ missing d \/ s ∈ sh_excluded t) ->
    (sh_dormant t = true -> b = true) ->
    hash_judged t step reports required settle (Decided (Some d)) t'.

Lemma fold_union_elem (l : list Z) (e : gset Z) s :
  s ∈ foldl (fun e x => {[x]} ∪ e) e l <-> s ∈ l \/ s ∈ e.
Proof.
  revert e. induction l as [|x l IH]; intros e; cbn [foldl]; [set_solver|]. rewrite IH. set_solver.
Qed.

(** Counting: voters who are taking part and not withholding. *)
Lemma electorate_bound t step reports required (vs : list (Z * Z)) :
  let w := withholding t step (counted_reports t reports required) required in
  NoDup (map fst vs) -> (forall s, s ∈ map fst vs -> s ∈ active t required /\ s ∉ w) ->
  Z.of_nat (length vs) <= electorate t step reports required.
Proof.
  intros w Hnd Hin. unfold electorate. fold w. assert (Hsub : map fst vs ++ w ⊆+ active t required).
  { apply NoDup_submseteq.
    - apply NoDup_app. split_and!; [done| |].
      + intros s Hs Hw. by apply (Hin s Hs).
      + unfold w, withholding, active. do 3 apply NoDup_filter. apply NoDup_elements.
    - intros s [Hs|Hs]%elem_of_app; [by apply Hin|].
      unfold w, withholding in Hs. rewrite !list_elem_of_filter in Hs. naive_solver. }
  apply submseteq_length in Hsub. rewrite length_app, length_map in Hsub. lia.
Qed.

Lemma counted_active t reports required s :
  s ∈ map fst (counted_reports t reports required) -> s ∈ active t required.
Proof.
  intros Hs. apply list_elem_of_fmap in Hs as ([s' h] & -> & Hin).
  apply list_elem_of_filter in Hin as [[Hr He] _]. unfold active. by rewrite list_elem_of_filter, elem_of_elements.
Qed.

Lemma counted_NoDup t reports required : NoDup (map fst reports) -> NoDup (map fst (counted_reports t reports required)).
Proof. intros Hnd. eapply sublist_NoDup; [exact Hnd|]. apply (fmap_sublist fst), sublist_filter. Qed.

Lemma counted_within t step reports required :
  NoDup (map fst reports) ->
  Z.of_nat (length (counted_reports t reports required)) <= electorate t step reports required.
Proof.
  intros Hnd. apply electorate_bound; [by apply counted_NoDup|]. intros s Hs. split; [by eapply counted_active|].
  intros Hw. unfold withholding in Hw. rewrite !list_elem_of_filter in Hw. naive_solver.
Qed.

Lemma sort_slots_nil l : sort_slots l = [] -> l = [].
Proof. intros E. pose proof (sort_slots_perm l) as Hp. rewrite E in Hp. by apply Permutation_nil_l in Hp. Qed.

(** [judge] implements the relation. *)
Lemma judge_spec t step reports required settle :
  NoDup (map fst reports) ->
  hash_judged t step reports required settle (judge t step reports required settle).1
    (judge t step reports required settle).2.
Proof.
  intros Hnd. pose proof (counted_within t step reports required Hnd) as Hle.
  unfold judge. set (vs := counted_reports t reports required) in *.
  pose proof (neighbours_agree_spec vs) as Hag.
  set (w := withholding t step vs required). set (miss := sort_slots w).
  pose proof (sort_slots_perm w) as Hmiss. fold miss in Hmiss.
  set (voting := saturating_sub _ _).
  assert (Hv : voting = electorate t step reports required).
  { unfold voting, saturating_sub, electorate. fold vs w. rewrite Hmiss. unfold electorate in Hle. fold vs w in Hle. lia. }
  assert (Hdec : forall m, match m with Some (v, l) => l = voters v vs /\ majority_value vs v
                                      | None => forall v, ~ majority_value vs v end ->
    settle = true \/ final vs (electorate t step reports required) (fst <$> m) ->
    hash_judged t step reports required settle (decided t step vs miss required m).1
      (decided t step vs miss required m).2).
  { intros [[v l]|] Hm Hfin; cbn [fmap option_fmap option_map fst] in Hfin; unfold decided; cbn [fst snd].
    - destruct Hm as [-> Hmaj].
      eapply (hj_majority _ _ _ _ _ v); [done|done|apply sort_slots_perm|done|done|done|done|..].
      + intros s. apply fold_union_elem.
      + intros Hd. destruct (_ <? 2); done.
    - by eapply hj_split. }
  pose proof (majority_of_spec vs (Z.of_nat (length vs)) ltac:(lia)) as Hcount.
  assert (Hall : match majority_of (tally vs) (Z.of_nat (length vs)) with
    Some (v, l) => l = voters v vs /\ majority_value vs v | None => forall v, ~ majority_value vs v end).
  { destruct (majority_of _ _) as [[v l]|]; [done|]. intros v Hm. unfold majority_value in Hm. specialize (Hcount v). lia. }
  destruct (neighbours_agree vs) eqn:Hna; cbn [andb].
  - destruct miss as [|x l] eqn:Hm; cbn [fst snd].
    + apply hj_silent; [by apply Hag|]. by apply sort_slots_nil.
    + apply Hdec; [done|]. right. right. left. by apply Hag.
  - pose proof (majority_of_spec vs voting ltac:(lia)) as Hvote. rewrite Hv in *.
    destruct (majority_of (tally vs) (electorate t step reports required)) as [[v l]|].
    + destruct Hvote as [-> Hvote]. apply Hdec; [split; [done|unfold majority_value; lia]|].
      right. right. right. exists v. done.
    + destruct (Z.ltb_spec (Z.of_nat (length vs)) (electorate t step reports required)); cbn [andb].
      * destruct settle; cbn [negb]; [apply Hdec; auto|]. cbn [fst snd].
        apply hj_undecided; try done. intros Ha%Hag. done.
      * apply Hdec; [done|]. right. by left.
Qed.

(** ** The tracker's invariant *)

(** A step a client may report. *)
Definition report_step (k : Z) : Prop := STATE_HASH_INTERVAL <= k /\ k mod STATE_HASH_INTERVAL = 0.

Lemma next_multiple_spec x : 0 < x ->
  x <= next_multiple_of x STATE_HASH_INTERVAL < x + STATE_HASH_INTERVAL /\
  report_step (next_multiple_of x STATE_HASH_INTERVAL).
Proof.
  intros Hx. unfold next_multiple_of, report_step, STATE_HASH_INTERVAL.
  pose proof (Z.div_mod (x + 8 - 1) 8 ltac:(lia)). pose proof (Z.mod_pos_bound (x + 8 - 1) 8 ltac:(lia)).
  rewrite Z.mod_mul by lia. lia.
Qed.

Lemma report_steps_elem first until k : k ∈ report_steps first until ->
  exists i, 0 <= i /\ k = first + STATE_HASH_INTERVAL * i /\ k <= until.
Proof.
  unfold report_steps. rewrite list_elem_of_fmap. intros (i & -> & Hi%elem_of_seqZ). exists i.
  split; [lia|]. split; [done|]. unfold STATE_HASH_INTERVAL in *.
  pose proof (Z.mul_div_le (until - first) 8 ltac:(lia)). lia.
Qed.

(** A window of unconfirmed steps holds no more than the cap. *)
Lemma steps_beyond_bounded {V} (m : list (Z * V)) conf :
  BTreeMap.wf m -> 0 <= conf ->
  (forall k v, (k, v) ∈ m -> report_step k /\ conf < k <= conf + STATE_HASH_WINDOW * STATE_HASH_INTERVAL) ->
  Z.of_nat (length m) <= STATE_HASH_WINDOW.
Proof.
  intros Hwf Hc Hin. unfold report_step, STATE_HASH_INTERVAL, STATE_HASH_WINDOW in *.
  rewrite <- (length_map (fun p => p.1 / 8)).
  replace 64 with (conf / 8 + 65 - (conf / 8 + 1)) by lia. apply BTreeSet.length_bound; [|..|lia].
  - induction Hwf as [|[k v] m ? IH Hall]; cbn; [constructor|]. constructor.
    + apply IH. intros k' v' ?. apply (Hin k' v'). by right.
    + apply Forall_map, Forall_forall. intros [k' v'] Hk'. cbn.
      pose proof (proj1 (Forall_forall _ _) Hall _ Hk') as Hlt. unfold klt, Z_ord in Hlt. cbn in Hlt.
      destruct (Hin k v) as [[_ Hm] _]; [left|]. destruct (Hin k' v') as [[_ Hm'] _]; [by right|].
      pose proof (Z.div_mod k 8). pose proof (Z.div_mod k' 8). lia.
  - intros x Hx. apply list_elem_of_fmap in Hx as ([k v] & -> & Hkv). destruct (Hin k v Hkv) as [[_ Hm] Hr]. cbn.
    pose proof (Z.div_mod k 8). pose proof (Z.div_mod conf 8). pose proof (Z.mod_pos_bound conf 8). lia.
Qed.

Section hash_invariant.
(** [Rec s k h]: slot [s] has reported hash [h] at step [k]; [Fwd s c]: the
    relay has forwarded [c] turns of [s]. *)
Context (Rec : Z -> Z -> Z -> Prop) (Fwd : Z -> Z -> Prop).

(** One vote per slot, each on record. *)
Definition reports_ok (k : Z) (reports : list (Z * Z)) : Prop :=
  NoDup (map fst reports) /\ forall s h, (s, h) ∈ reports -> Rec s k h.

Record hash_inv (t : StateHashTracker) : Prop := mkHashInv {
  hi_wfp : BTreeMap.wf (sh_pending t);
  hi_wfj : BTreeMap.wf (sh_judged t);
  hi_conf : 0 <= confirmable_until t;
  hi_retired : retired_below t <= confirmable_until t + 1;
  hi_pending : forall k p, (k, p) ∈ sh_pending t ->
    report_step k /\ k <= confirmable_until t + STATE_HASH_WINDOW * STATE_HASH_INTERVAL /\
    (confirmable_at p <> None -> k <= confirmable_until t) /\ reports_ok k (ps_reports p);
  hi_judged : forall k j, (k, j) ∈ sh_judged t ->
    report_step k /\ k < retired_below t /\ BTreeMap.get (sh_pending t) k = None /\ reports_ok k (js_reports j);
  hi_fwd : forall s c, forwarded t !! s = Some c -> 0 <= c /\ Fwd s c;
}.

Lemma hash_inv_init : hash_inv default_hashes.
Proof.
  split; cbn; try done; try (by constructor); try lia.
  - intros k p Hin. by apply elem_of_nil in Hin.
  - intros k j Hin. by apply elem_of_nil in Hin.
Qed.

Lemma hash_inv_counters t i c e : hash_inv t -> hash_inv (set_counters t i c e).
Proof. by intros []. Qed.

Lemma hash_inv_verdict t e d : hash_inv t -> hash_inv (set_verdict t e d).
Proof. by intros []. Qed.

Lemma evict_steps_inv fuel t : hash_inv t -> hash_inv (evict_steps_loop fuel t).
Proof.
  revert t. induction fuel as [|fuel IH]; intros t Hi; [done|]. cbn [evict_steps_loop].
  destruct (Z.ltb_spec STATE_HASH_WINDOW (Z.of_nat (length (sh_pending t)))) as [Hlen|]; [|done].
  destruct (sh_pending t) as [|[k p] rest] eqn:Hp; [done|]. apply IH, hash_inv_counters.
  destruct Hi as [Hwp Hwj Hc Hr Hpend Hjud Hf]. rewrite Hp in *.
  assert (Hk : k <= confirmable_until t).
  { apply Z.nlt_ge. intros Hgt. enough (Z.of_nat (length ((k, p) :: rest)) <= STATE_HASH_WINDOW) by lia.
    apply (steps_beyond_bounded _ (confirmable_until t)); [done..|]. intros k' p' Hin.
    destruct (Hpend k' p' Hin) as (Hs & Hle & _). split; [done|]. split; [|done].
    apply elem_of_cons in Hin as [[= -> ->]|Hin]; [done|]. inversion_clear Hwp as [|? ? _ Hall].
    pose proof (proj1 (Forall_forall _ _) Hall _ Hin) as Hlt. unfold klt, Z_ord in Hlt. cbn in Hlt. lia. }
  assert (Hwr : BTreeMap.wf rest) by (by inversion_clear Hwp).
  split; cbn; try done; [lia|..].
  - intros k' p' Hin. apply Hpend. by right.
  - intros k' j Hin. destruct (Hjud k' j Hin) as (H1 & H2 & H3 & H4). split_and!; [done|lia| |done].
    destruct (BTreeMap.get rest k') as [p'|] eqn:Hg; [|done]. apply BTreeMap.elem_of_get in Hg.
    rewrite (BTreeMap.get_elem_of ((k, p) :: rest) k' p') in H3; [done|done|by right].
Qed.

Lemma judged_below t k j : hash_inv t -> BTreeMap.get (sh_judged t) k = Some j ->
  k < retired_below t /\ BTreeMap.get (sh_pending t) k = None.
Proof. intros Hi Hg%BTreeMap.elem_of_get. by destruct (hi_judged _ Hi k j Hg) as (_ & ? & ? & _). Qed.

Lemma pending_put_inv t k p :
  hash_inv t -> report_step k -> k <= confirmable_until t + STATE_HASH_WINDOW * STATE_HASH_INTERVAL ->
  (confirmable_at p <> None -> k <= confirmable_until t) -> reports_ok k (ps_reports p) ->
  BTreeMap.get (sh_judged t) k = None ->
  hash_inv (set_steps t (BTreeMap.insert k p (sh_pending t)) (sh_judged t) (retired_below t)).
Proof.
  intros [Hwp Hwj Hc Hr Hpend Hjud Hf] Hs Hle Hconf Hrep Hnone. split; cbn; try done.
  - by apply BTreeMap.wf_insert.
  - intros k' p' Hin. apply BTreeMap.elem_of_map_insert in Hin as [[= -> ->]|Hin]; [done|by apply Hpend].
  - intros k' j Hin. destruct (Hjud k' j Hin) as (H1 & H2 & H3 & H4). split_and!; [done..| |done].
    rewrite BTreeMap.get_insert_ne; [done|]. intros <-. by rewrite (BTreeMap.get_elem_of _ _ _ Hwj Hin) in Hnone.
Qed.

Lemma judged_put_inv t k j :
  hash_inv t -> report_step k -> k < retired_below t -> BTreeMap.get (sh_pending t) k = None ->
  reports_ok k (js_reports j) ->
  hash_inv (set_steps t (sh_pending t) (BTreeMap.insert k j (sh_judged t)) (retired_below t)).
Proof.
  intros [Hwp Hwj Hc Hr Hpend Hjud Hf] Hs Hlt Hnone Hrep. split; cbn; try done.
  - by apply BTreeMap.wf_insert.
  - intros k' j' Hin. apply BTreeMap.elem_of_map_insert in Hin as [[= -> ->]|Hin]; [done|by apply Hjud].
Qed.

Lemma reported_None slot reports : reported slot reports = None <-> slot ∉ map fst reports.
Proof.
  unfold reported. rewrite fmap_None. split.
  - intros Hf Hin. apply list_elem_of_fmap in Hin as ([s h] & -> & Hin). apply list_elem_of_In in Hin.
    pose proof (find_none _ _ Hf _ Hin) as Hne. cbn in Hne. by rewrite Z.eqb_refl in Hne.
  - intros Hn. destruct (List.find _ _) as [[s h]|] eqn:Hf; [|done]. exfalso.
    apply find_some in Hf as [Hin He%Z.eqb_eq]. cbn in He. apply Hn. apply list_elem_of_fmap.
    exists (s, h). split; [done|]. by apply list_elem_of_In.
Qed.

Lemma reports_add k reports slot hash :
  reports_ok k reports -> slot ∉ map fst reports -> Rec slot k hash -> reports_ok k (reports ++ [(slot, hash)]).
Proof.
  intros [Hnd Hrec] Hn Hr. split.
  - rewrite map_app. apply NoDup_app. cbn. split_and!; [done| |apply NoDup_singleton].
    intros x Hx Hx'%list_elem_of_singleton. by subst.
  - intros s h [Hin|Hin]%elem_of_app; [by apply Hrec|]. apply list_elem_of_singleton in Hin as [= -> ->]. done.
Qed.

Lemma reports_nil k : reports_ok k [].
Proof. split; [constructor|]. intros s h Hin. by apply elem_of_nil in Hin. Qed.

(** A pending step as it is, or the empty one it would be. *)
Lemma pending_default t k :
  hash_inv t -> let p := default default_pending_step (BTreeMap.get (sh_pending t) k) in
  (confirmable_at p <> None -> k <= confirmable_until t) /\ reports_ok k (ps_reports p).
Proof.
  intros Hi p. destruct (BTreeMap.get (sh_pending t) k) as [q|] eqn:Hg; cbn in p; subst p.
  - apply BTreeMap.elem_of_get in Hg. by destruct (hi_pending _ Hi k q Hg) as (_ & _ & ? & ?).
  - split; [done|]. apply reports_nil.
Qed.

(** A step past judging that is not held by a pending entry is looked up among
    the judged. *)
Definition is_retired (t : StateHashTracker) (step : Z) : bool :=
  (step <? retired_below t) && negb (bool_decide (is_Some (BTreeMap.get (sh_pending t) step))).

(** What [record] has checked before it files a report. *)
Record fileable (t : StateHashTracker) (step : Z) : Prop := mkFileable {
  fl_step : report_step step;
  fl_horizon : step <= confirmable_until t + STATE_HASH_WINDOW * STATE_HASH_INTERVAL;
  fl_judged : is_retired t step = true -> is_Some (BTreeMap.get (sh_judged t) step);
}.

Lemma record_hash_cases t slot step hash now :
  record_hash t slot step hash now = t \/
  (exists i c e, record_hash t slot step hash now = set_counters t i c e) \/
  (fileable t step /\
   record_hash t slot step hash now = evict_steps (file_report t slot step hash now (is_retired t step))).
Proof.
  unfold record_hash. destruct (_ || _); [by left|]. right. fold (is_retired t step).
  destruct (negb _ || _ || _) eqn:Hbad; [left; eauto|right]. split; [|done].
  apply orb_false_elim in Hbad as [Hbad Hhor%Z.ltb_ge]. apply orb_false_elim in Hbad as [Hint Hret].
  apply negb_false_iff, andb_true_iff in Hint as [Hint1%Z.leb_le Hint2%Z.eqb_eq].
  split; [done|unfold saturating_add in Hhor; lia|].
  intros Hr. rewrite Hr in Hret. apply negb_false_iff, bool_decide_eq_true in Hret. done.
Qed.

Lemma fileable_not_judged t step :
  hash_inv t -> is_retired t step = false ->
  BTreeMap.get (sh_judged t) step = None /\ (retired_below t <= step \/ is_Some (BTreeMap.get (sh_pending t) step)).
Proof.
  intros Hi Hr. unfold is_retired in Hr. split.
  - destruct (BTreeMap.get (sh_judged t) step) as [j|] eqn:Hg; [|done].
    destruct (judged_below t step j Hi Hg) as [Hlt Hn]. rewrite Hn in Hr.
    rewrite (proj2 (Z.ltb_lt _ _) Hlt) in Hr. by rewrite bool_decide_eq_false_2 in Hr by (by intros [? ?]).
  - destruct (Z.ltb_spec step (retired_below t)); [right|by left]. cbn in Hr.
    by apply negb_false_iff, bool_decide_eq_true in Hr.
Qed.

Lemma file_report_inv t slot step hash now :
  hash_inv t -> Rec slot step hash -> fileable t step ->
  hash_inv (file_report t slot step hash now (is_retired t step)).
Proof.
  intros Hi Hrec [Hstep Hle Hjud]. unfold file_report.
  assert (Hconf : forall t' old, hash_inv t' -> hash_inv (if old =? hash then t'
    else set_counters t' (invalid_warns t') (counter_observe (conflict_warns t')).2 (sh_evict_warns t'))).
  { intros t' old Ht'. destruct (_ =? _); [done|by apply hash_inv_counters]. }
  destruct (is_retired t step) eqn:Hr.
  - destruct (Hjud eq_refl) as [j Hj]. rewrite Hj. destruct (judged_below t step j Hi Hj) as [Hlt Hnone].
    pose proof (BTreeMap.elem_of_get _ _ _ Hj) as Hin. destruct (hi_judged _ Hi _ _ Hin) as (_ & _ & _ & Hok).
    destruct (reported slot (js_reports j)) as [old|] eqn:Hrep; [by apply Hconf|].
    apply judged_put_inv; [done..|]. apply reports_add; [done|by apply reported_None|done].
  - destruct (fileable_not_judged t step Hi Hr) as [Hnone _].
    destruct (pending_default t step Hi) as [Hc Hok]. set (p := default _ _) in *.
    destruct (reported slot (ps_reports p)) as [old|] eqn:Hrep.
    + apply Hconf. by apply pending_put_inv.
    + apply pending_put_inv; try done. apply reports_add; [done|by apply reported_None|done].
Qed.

Lemma record_hash_inv t slot step hash now :
  hash_inv t -> Rec slot step hash -> hash_inv (record_hash t slot step hash now).
Proof.
  intros Hi Hrec. destruct (record_hash_cases t slot step hash now) as [-> |[(i & c & e & ->)|[Hf ->]]]; [done|..].
  - by apply hash_inv_counters.
  - by apply evict_steps_inv, file_report_inv.
Qed.

Lemma note_steps_inv now steps t :
  hash_inv t -> Forall (fun k => report_step k /\ retired_below t <= k <= confirmable_until t) steps ->
  hash_inv (set_steps t (foldl (note_confirmable now) (sh_pending t) steps) (sh_judged t) (retired_below t)).
Proof.
  revert t. induction steps as [|k steps IH]; intros t Hi Hall; cbn [foldl]; [by destruct t|].
  inversion_clear Hall as [|? ? [Hs Hk] Hall'].
  set (p := sh_pending t). change (foldl (note_confirmable now) (note_confirmable now p k) steps) with
    (foldl (note_confirmable now) (sh_pending (set_steps t (note_confirmable now p k) (sh_judged t) (retired_below t))) steps).
  apply (IH (set_steps t (note_confirmable now p k) (sh_judged t) (retired_below t))); [|done].
  destruct (pending_default t k Hi) as [_ Hok]. unfold note_confirmable, p. apply pending_put_inv; try done.
  - unfold STATE_HASH_WINDOW, STATE_HASH_INTERVAL. lia.
  - intros _. lia.
  - destruct (BTreeMap.get (sh_judged t) k) as [j|] eqn:Hg; [|done]. apply (judged_below t k j Hi) in Hg. lia.
Qed.

Lemma forwarded_inv t slot count u :
  hash_inv t -> 0 <= count -> Fwd slot count -> confirmable_until t <= u ->
  hash_inv (set_forwarded t (<[slot := Z.max (forwarded_count t slot) count]> (forwarded t)) u).
Proof.
  intros [Hwp Hwj Hc Hr Hpend Hjud Hf] H0 Hfwd Hu. split; cbn; try done; [lia|lia|..].
  - intros k p Hin. destruct (Hpend k p Hin) as (H1 & H2 & H3 & H4). split_and!; [done|lia| |done].
    intros Hne. specialize (H3 Hne). lia.
  - intros s c. destruct (decide (s = slot)) as [-> |]; [|by rewrite lookup_insert_ne by done; apply Hf].
    rewrite lookup_insert_eq. intros [= <-]. unfold forwarded_count.
    destruct (forwarded t !! slot) as [c'|] eqn:Hg; cbn; [destruct (Hf _ _ Hg)|];
      (destruct (Z.max_spec c' count) as [[_ ->]|[_ ->]] || rewrite Z.max_r by lia); auto.
Qed.

(** The steps that become confirmable are report steps not judged yet. *)
Lemma confirmable_steps_ok t f until :
  hash_inv t -> confirmable_until t < until ->
  Forall (fun k => report_step k /\ retired_below (set_forwarded t f until) <= k <= confirmable_until (set_forwarded t f until))
    (report_steps (Z.max (Z.max (next_multiple_of (confirmable_until t + 1) STATE_HASH_INTERVAL) STATE_HASH_INTERVAL)
                     (retired_below t)) until).
Proof.
  intros Hi Hlt. set (first := Z.max _ _).
  destruct (next_multiple_spec (confirmable_until t + 1)) as [Hb Hs]; [pose proof (hi_conf _ Hi); lia|].
  pose proof (hi_retired _ Hi) as Hr.
  assert (Hfirst : first = next_multiple_of (confirmable_until t + 1) STATE_HASH_INTERVAL).
  { unfold first, report_step in *. lia. }
  apply Forall_forall. intros k Hk. apply report_steps_elem in Hk as (i & Hi0 & -> & Hle).
  cbn [retired_below set_forwarded confirmable_until]. rewrite Hfirst in *.
  unfold report_step, STATE_HASH_INTERVAL in *. split; [|lia]. split; [lia|].
  destruct Hs as [_ Hs]. by rewrite (Z.mul_comm 8 i), Z.mod_add by lia.
Qed.

Lemma note_forwarded_inv t slot count now required :
  hash_inv t -> 0 <= count -> Fwd slot count -> hash_inv (note_forwarded t slot count now required).
Proof.
  intros Hi H0 Hf. unfold note_forwarded. set (f := <[slot := _]> (forwarded t)).
  cbn [confirmable_until set_forwarded retired_below].
  set (until := default 0 (min_of _)). destruct (Z.leb_spec until (confirmable_until t)) as [_|Hlt].
  { apply forwarded_inv; [done..|lia]. }
  apply evict_steps_inv. cbn [sh_pending set_forwarded sh_judged].
  assert (Hi' : hash_inv (set_forwarded t f until)) by (apply forwarded_inv; [done..|lia]).
  apply (note_steps_inv now _ (set_forwarded t f until) Hi'). by apply confirmable_steps_ok.
Qed.

(** ** Sweeps and what they may announce *)

Definition named (d : SyncDivergence) : list Z := diverged d ++ missing d.

Definition hash_justified (d : SyncDivergence) : Prop :=
  report_step (sync_ordinal d) /\
  (forall s, s ∈ missing d -> exists c, Fwd s c /\ saturating_add u64_max (sync_ordinal d) STATE_HASH_LIVE_TURNS <= c) /\
  (diverged d <> [] -> exists v supporters, NoDup supporters /\
     (length (diverged d) < length supporters)%nat /\ (forall s, s ∈ supporters -> Rec s (sync_ordinal d) v) /\
     forall s, s ∈ diverged d -> (s ∉ supporters) /\ exists h, h <> v /\ Rec s (sync_ordinal d) h).

(** The slot's report of the step is held, or the step is past judging. *)
Definition kept (t : StateHashTracker) (s k : Z) : Prop :=
  (exists p, BTreeMap.get (sh_pending t) k = Some p /\ s ∈ map fst (ps_reports p)) \/
  (exists j, BTreeMap.get (sh_judged t) k = Some j /\ s ∈ map fst (js_reports j)) \/
  (k < retired_below t /\ BTreeMap.get (sh_pending t) k = None /\ BTreeMap.get (sh_judged t) k = None).

Record swept (t : StateHashTracker) (outs : list SyncDivergence) (t' : StateHashTracker) : Prop := mkSwept {
  sw_inv : hash_inv t';
  sw_just : forall d, d ∈ outs -> hash_justified d;
  sw_excluded : sh_excluded t ⊆ sh_excluded t';
  sw_dormant : sh_dormant t = true -> outs = [] /\ sh_dormant t' = true;
  sw_once : NoDup (mjoin (map named outs));
  sw_new : forall s, s ∈ mjoin (map named outs) -> s ∉ sh_excluded t;
  sw_out : sh_dormant t' = true \/ forall s, s ∈ mjoin (map named outs) -> s ∈ sh_excluded t';
  sw_kept : forall s k, kept t s k -> kept t' s k /\ forall d, d ∈ outs -> sync_ordinal d = k -> s ∉ missing d;
}.

Lemma swept_silent t t' :
  hash_inv t' -> sh_excluded t' = sh_excluded t -> sh_dormant t' = sh_dormant t ->
  (forall s k, kept t s k -> kept t' s k) -> swept t [] t'.
Proof.
  intros Hi He Hd Hk. split; cbn; try done.
  - intros d Hin. by apply elem_of_nil in Hin.
  - by rewrite He.
  - by rewrite Hd.
  - constructor.
  - intros s Hs. by apply elem_of_nil in Hs.
  - right. intros s Hs. by apply elem_of_nil in Hs.
  - intros s k Hs. split; [by apply Hk|]. intros d Hin. by apply elem_of_nil in Hin.
Qed.

Lemma swept_trans t1 o1 t2 o2 t3 : swept t1 o1 t2 -> swept t2 o2 t3 -> swept t1 (o1 ++ o2) t3.
Proof.
  intros [I1 J1 E1 D1 N1 W1 O1 K1] [I2 J2 E2 D2 N2 W2 O2 K2].
  assert (Hnil : sh_dormant t2 = true -> o2 = [] /\ sh_dormant t3 = true) by exact D2.
  split; [done|..].
  - intros d [Hd|Hd]%elem_of_app; eauto.
  - set_solver.
  - intros Hd. destruct (D1 Hd) as [-> Hd2]. by destruct (D2 Hd2) as [-> ?].
  - rewrite map_app, join_app. apply NoDup_app. split_and!; [done| |done].
    intros s Hs Hs'. destruct O1 as [Hd|Hall]; [destruct (Hnil Hd) as [-> _]; by apply elem_of_nil in Hs'|].
    by apply (W2 s Hs'), Hall.
  - intros s. rewrite map_app, join_app. intros [Hs|Hs]%elem_of_app; [by apply W1|]. intros Hex.
    by apply (W2 s Hs), E1.
  - rewrite map_app, join_app. destruct O2 as [|O2]; [by left|]. destruct O1 as [Hd|O1].
    { left. by apply Hnil. } right. intros s [Hs|Hs]%elem_of_app; [by apply E2, O1|by apply O2].
  - intros s k Hk. destruct (K1 s k Hk) as [Hk2 Hm1]. destruct (K2 s k Hk2) as [Hk3 Hm2]. split; [done|].
    intros d [Hd|Hd]%elem_of_app; auto.
Qed.

Section one_judgment.
Context (t : StateHashTracker) (step : Z) (j : JudgedStep) (required : gset Z).
Context (Hi : hash_inv t) (Hg : BTreeMap.get (sh_judged t) step = Some j).
Let vs := counted_reports t (js_reports j) required.
Let w := withholding t step vs required.

Lemma counted_once : NoDup (map fst vs).
Proof.
  destruct (hi_judged _ Hi _ _ (BTreeMap.elem_of_get _ _ _ Hg)) as (_ & _ & _ & Hnd & _).
  by apply counted_NoDup.
Qed.

Lemma counted_on_record s h : (s, h) ∈ vs -> Rec s step h /\ s ∉ sh_excluded t.
Proof.
  destruct (hi_judged _ Hi _ _ (BTreeMap.elem_of_get _ _ _ Hg)) as (_ & _ & _ & _ & Hrec).
  intros Hs. apply list_elem_of_filter in Hs as [[_ He] Hs]. split; [by apply Hrec|done].
Qed.

Lemma withholding_elem s : s ∈ w -> s ∈ required /\ (s ∉ sh_excluded t) /\ (s ∉ map fst vs) /\
  saturating_add u64_max step STATE_HASH_LIVE_TURNS <= forwarded_count t s.
Proof.
  intros Hs. unfold w, withholding, active in Hs. rewrite !list_elem_of_filter, elem_of_elements in Hs. naive_solver.
Qed.

Lemma withholding_NoDup : NoDup w.
Proof. unfold w, withholding, active. do 3 apply NoDup_filter. apply NoDup_elements. Qed.

Lemma withholding_forwarded s : s ∈ w ->
  exists c, Fwd s c /\ saturating_add u64_max step STATE_HASH_LIVE_TURNS <= c.
Proof.
  intros Hs. destruct (withholding_elem s Hs) as (_ & _ & _ & Hc). unfold forwarded_count in Hc.
  destruct (forwarded t !! s) as [c|] eqn:Hf; [exists c; split; [apply (hi_fwd _ Hi _ _ Hf)|done]|].
  destruct (hi_judged _ Hi _ _ (BTreeMap.elem_of_get _ _ _ Hg)) as ((H8 & _) & _). cbn in Hc.
  unfold saturating_add, STATE_HASH_LIVE_TURNS, STATE_HASH_INTERVAL, u64_max in *. lia.
Qed.

(** A slot whose report is held does not withhold it. *)
Lemma kept_not_withholding s : kept t s step -> s ∉ w.
Proof.
  intros Hk Hs. destruct (withholding_elem s Hs) as (Hr & He & Hn & _). destruct (judged_below t step j Hi Hg) as [Hlt Hp].
  destruct Hk as [(p & Hp' & _)|[(j' & Hg' & Hin)|(_ & _ & Hnone)]]; [congruence| |congruence].
  rewrite Hg in Hg'. injection Hg' as <-. apply Hn. apply list_elem_of_fmap in Hin as ([s' h] & -> & Hin).
  apply list_elem_of_fmap. exists (s', h). split; [done|]. by apply list_elem_of_filter.
Qed.

(** A verdict on the step, whoever it names. *)
Lemma verdict_swept d e b :
  sh_dormant t = false -> sync_ordinal d = step -> missing d ≡ₚ w ->
  NoDup (diverged d) -> (forall s, s ∈ diverged d -> s ∈ map fst vs) ->
  (diverged d <> [] -> exists v, (length (diverged d) < length (voters v vs))%nat /\
     forall s, s ∈ diverged d -> exists h, h <> v /\ (s, h) ∈ vs) ->
  sh_excluded t ⊆ e -> b = true \/ (forall s, s ∈ named d -> s ∈ e) ->
  swept t [d] (set_verdict t e b).
Proof.
  intros Hd Ho Hm Hnd Hdiv Hmaj Hsub Hout.
  assert (Hnamed : mjoin (map named [d]) = named d) by (cbn; by rewrite app_nil_r).
  split; rewrite ?Hnamed; try done.
  - by apply hash_inv_verdict.
  - intros d' ->%list_elem_of_singleton. split_and!.
    + rewrite Ho. apply (hi_judged _ Hi _ _ (BTreeMap.elem_of_get _ _ _ Hg)).
    + rewrite Ho. intros s Hs. rewrite Hm in Hs. by apply withholding_forwarded.
    + intros Hne. destruct (Hmaj Hne) as (v & Hlen & Hall). exists v, (voters v vs). rewrite Ho. split_and!; try done.
      * apply voters_NoDup, counted_once.
      * intros s Hs%elem_of_voters. by apply counted_on_record in Hs as [? _].
      * intros s Hs. destruct (Hall s Hs) as (h & Hne' & Hin). rewrite elem_of_voters. split.
        -- intros Hv. by apply Hne', (vote_unique vs counted_once s).
        -- exists h. split; [done|]. by apply counted_on_record in Hin as [? _].
  - congruence.
  - unfold named. apply NoDup_app. split_and!; [done| |rewrite Hm; apply withholding_NoDup].
    intros s Hs Hs'. rewrite Hm in Hs'. destruct (withholding_elem s Hs') as (_ & _ & Hn & _). by apply Hn, Hdiv.
  - intros s [Hs|Hs]%elem_of_app.
    + apply Hdiv, list_elem_of_fmap in Hs as ([s' h] & -> & Hin). by apply counted_on_record in Hin as [_ ?].
    + rewrite Hm in Hs. by destruct (withholding_elem s Hs) as (_ & ? & _).
  - intros s k Hk. split; [exact Hk|]. intros d' ->%list_elem_of_singleton Hk'. rewrite Hm.
    apply kept_not_withholding. by rewrite <- Ho, Hk'.
Qed.

(** Every outcome of [judge]. *)
Lemma judged_swept settle x t' :
  sh_dormant t = false -> hash_judged t step (js_reports j) required settle x t' ->
  swept t (match x with Decided (Some d) => [d] | _ => [] end) t'.
Proof.
  intros Hd Hj. destruct Hj as [_ _ _ _|_ _|d t' Ho _ Hempty Hm _ _ -> |v d t' e b Ho _ Hdiv Hm Hmaj _ -> He _].
  - by apply swept_silent.
  - by apply swept_silent.
  - apply verdict_swept; try done; rewrite ?Hempty; try done.
    + constructor.
    + intros s Hs. by apply elem_of_nil in Hs.
    + by left.
  - fold vs in Hdiv, Hmaj. apply verdict_swept; try done.
    + rewrite Hdiv. apply minority_NoDup, counted_once.
    + intros s. rewrite Hdiv. unfold minority. by intros [_ ?]%list_elem_of_filter.
    + intros _. exists v. split.
      * rewrite Hdiv. pose proof (minority_length vs counted_once v). unfold majority_value in Hmaj. lia.
      * intros s. rewrite Hdiv. by apply minority_elem, counted_once.
    + intros s Hs. apply He. by right.
    + right. intros s Hs. apply He. by left.
Qed.

End one_judgment.

Lemma judged_steps t step reports required settle x t' :
  hash_judged t step reports required settle x t' ->
  sh_pending t' = sh_pending t /\ sh_judged t' = sh_judged t /\ retired_below t' = retired_below t.
Proof. by intros [| |? ? ? ? ? ? ? ? -> |? ? ? ? ? ? ? ? ? ? ? -> ? ?]. Qed.

Lemma judge_step_swept t step now required settle :
  hash_inv t -> sh_dormant t = false ->
  swept t (judge_step t step now required settle).1 (judge_step t step now required settle).2.
Proof.
  intros Hi Hd. unfold judge_step. destruct (BTreeMap.get (sh_judged t) step) as [j|] eqn:Hg; [|by apply swept_silent].
  destruct (hi_judged _ Hi _ _ (BTreeMap.elem_of_get _ _ _ Hg)) as (Hs & Hlt & Hp & Hok).
  pose proof (judge_spec t step (js_reports j) required (settle || hold_is_over j now) (proj1 Hok)) as Hj.
  pose proof (judged_swept t step j required Hi Hg _ _ _ Hd Hj) as Hsw.
  destruct (judged_steps _ _ _ _ _ _ _ Hj) as (E1 & E2 & E3).
  destruct (judge t step (js_reports j) required _) as [x t1]. cbn [fst snd] in *.
  assert (Hput : forall h, swept t1 [] (set_steps t1 (sh_pending t1)
    (BTreeMap.insert step (mkJudgedStep (js_reports j) (hold_from j) false h) (sh_judged t1)) (retired_below t1))).
  { intros h. apply swept_silent; try done.
    - apply judged_put_inv; rewrite ?E1, ?E3; try done. apply Hsw.
    - intros s k [(p & Hk)|[(j' & Hj' & Hin)|(H1 & H2 & H3)]]; [left; eauto|right; left|right; right].
      + unfold set_steps. cbn. destruct (decide (step = k)) as [<- |Hne].
        * rewrite E2, Hg in Hj'. injection Hj' as <-. rewrite BTreeMap.get_insert_eq. eexists. split; [done|done].
        * rewrite BTreeMap.get_insert_ne by done. eauto.
      + cbn. split_and!; [done..|]. rewrite BTreeMap.get_insert_ne; [done|]. intros <-. congruence. }
  destruct x as [|[d|]]; cbn [fst snd] in *.
  - exact (swept_trans _ _ _ _ _ Hsw (Hput true)).
  - exact (swept_trans _ _ _ _ _ Hsw (Hput false)).
  - exact (swept_trans _ _ _ _ _ Hsw (Hput false)).
Qed.

Lemma judge_again_swept steps t now required :
  hash_inv t -> swept t (judge_again steps t now required).1 (judge_again steps t now required).2.
Proof.
  revert t. induction steps as [|k steps IH]; intros t Hi; cbn [judge_again]; [by apply swept_silent|].
  destruct (sh_dormant t) eqn:Hd; [by apply swept_silent|]. cbn [fst snd].
  pose proof (judge_step_swept t k now required false Hi Hd) as Hsw.
  eapply swept_trans; [exact Hsw|]. apply IH, Hsw.
Qed.

(** Dropping the oldest judged step. *)
Lemma drop_judged_swept t k j rest :
  hash_inv t -> BTreeMap.get (sh_judged t) k = Some j ->
  rest = BTreeMap.remove k (sh_judged t) ->
  swept t [] (set_steps t (sh_pending t) rest (retired_below t)).
Proof.
  intros Hi Hg ->. destruct (judged_below t k j Hi Hg) as [Hlt Hp]. apply swept_silent; try done.
  - destruct Hi as [Hwp Hwj Hc Hr Hpend Hjud Hf]. split; cbn; try done; [by apply BTreeMap.wf_remove|].
    intros k' j' Hin. apply list_elem_of_filter in Hin as [_ Hin]. by apply Hjud.
  - intros s k' [Hk|[(j' & Hj' & Hin)|(H1 & H2 & H3)]]; [by left|..]; unfold kept; cbn; rewrite BTreeMap.get_remove;
      case_decide; subst; eauto 10.
Qed.

Lemma trim_swept fuel t now required :
  hash_inv t -> swept t (trim_loop fuel t now required).1 (trim_loop fuel t now required).2.
Proof.
  revert t. induction fuel as [|fuel IH]; intros t Hi; cbn [trim_loop]; [by apply swept_silent|].
  destruct (_ <? _); cbn [andb]; [|by apply swept_silent].
  destruct (sh_dormant t) eqn:Hd; cbn [negb]; [by apply swept_silent|].
  destruct (sh_judged t) as [|[k j] rest] eqn:Hj; [by apply swept_silent|]. cbn [fst snd].
  set (x := if js_held j then _ else _).
  assert (Hx : swept t x.1 x.2 /\ is_Some (BTreeMap.get (sh_judged x.2) k)).
  { assert (Hg : BTreeMap.get (sh_judged t) k = Some j).
    { apply BTreeMap.get_elem_of; [apply Hi|]. rewrite Hj. left. }
    unfold x. destruct (js_held j); [|split; [by apply swept_silent|exists j; exact Hg]].
    split; [by apply judge_step_swept|]. unfold judge_step. rewrite Hg.
    destruct (judge _ _ _ _ _) as [[|[d|]] t1]; cbn; rewrite BTreeMap.get_insert_eq; eauto. }
  destruct Hx as [Hx [j' Hj']].
  pose proof (drop_judged_swept x.2 k j' _ (sw_inv _ _ _ Hx) Hj' eq_refl) as Hdrop.
  eapply swept_trans; [exact Hx|]. apply (swept_trans _ [] _ _ _ Hdrop). apply IH, Hdrop.
Qed.

(** Moving a step whose time has come among the judged. *)
Lemma retire_step_swept t k p j :
  hash_inv t -> (k, p) ∈ sh_pending t -> confirmable_at p <> None -> js_reports j = ps_reports p ->
  swept t [] (set_steps t (BTreeMap.remove k (sh_pending t)) (BTreeMap.insert k j (sh_judged t))
                (Z.max (retired_below t) (k + 1))).
Proof.
  intros Hi Hin Hc Hj. destruct (hi_pending _ Hi k p Hin) as (Hs & _ & Hle & Hok). specialize (Hle Hc).
  pose proof (BTreeMap.get_elem_of _ _ _ (hi_wfp _ Hi) Hin) as Hg. apply swept_silent; try done.
  - destruct Hi as [Hwp Hwj Hcu Hr Hpend Hjud Hf]. split; cbn; try done.
    + by apply BTreeMap.wf_remove.
    + by apply BTreeMap.wf_insert.
    + lia.
    + intros k' p' Hin'. apply list_elem_of_filter in Hin' as [_ Hin']. by apply Hpend.
    + intros k' j' Hin'. rewrite BTreeMap.get_remove.
      apply BTreeMap.elem_of_map_insert in Hin' as [[= -> ->]|Hin'].
      * rewrite Hj. split_and!; [done|lia| |done]. by case_decide.
      * destruct (Hjud k' j' Hin') as (H1 & H2 & H3 & H4). split_and!; [done|lia| |done]. by case_decide.
  - intros s k' Hk. unfold kept. cbn. rewrite BTreeMap.get_remove, BTreeMap.get_insert.
    destruct (decide (k' = k)) as [-> |Hne]; [rewrite decide_True by done|rewrite decide_False by done].
    + right. left. exists j. split; [done|]. rewrite Hj.
      destruct Hk as [(p' & Hp' & Hs')|[(j' & Hj' & _)|(_ & Hn & _)]]; [congruence| |congruence].
      apply (judged_below t k j' Hi) in Hj' as [_ Hn]. congruence.
    + destruct Hk as [?|[?|(H1 & H2 & H3)]]; [by left|by right; left|right; right]. split_and!; [lia|done..].
Qed.

Lemma sweep_swept fuel t now required :
  hash_inv t -> swept t (sweep_loop fuel t now required).1 (sweep_loop fuel t now required).2.
Proof.
  revert t. induction fuel as [|fuel IH]; intros t Hi; cbn [sweep_loop]; [by apply swept_silent|].
  destruct (sh_dormant t) eqn:Hd; [by apply swept_silent|].
  destruct (List.find _ _) as [[k p]|] eqn:Hf; [|by apply swept_silent]. cbn [fst snd].
  apply find_some in Hf as [Hin Hready]. apply list_elem_of_In in Hin.
  assert (Hc : confirmable_at p <> None).
  { unfold ready_step in Hready. cbn in Hready. by destruct (confirmable_at p). }
  set (j := mkJudgedStep _ _ _ _).
  pose proof (retire_step_swept t k p j Hi Hin Hc eq_refl) as H1. set (t1 := set_steps t _ _ _) in *.
  pose proof (judge_step_swept t1 k now required false (sw_inv _ _ _ H1) Hd) as H2.
  set (x := judge_step t1 k now required false) in *.
  pose proof (trim_swept (length (sh_judged x.2)) x.2 now required (sw_inv _ _ _ H2)) as H3.
  set (y := trim_loop _ x.2 now required) in *.
  apply (swept_trans _ [] _ _ _ H1). apply (swept_trans _ _ _ _ _ H2). apply (swept_trans _ _ _ _ _ H3).
  apply IH, H3.
Qed.

Lemma judge_ready_swept t now required :
  hash_inv t -> swept t (judge_ready t now required).1 (judge_ready t now required).2.
Proof.
  intros Hi. unfold judge_ready. cbn [fst snd]. set (due := map fst _).
  pose proof (judge_again_swept due t now required Hi) as H1.
  eapply swept_trans; [exact H1|]. apply sweep_swept, H1.
Qed.

(** *** Recording and forwarding forget nothing *)

Lemma evict_kept fuel t s k : hash_inv t -> kept t s k -> kept (evict_steps_loop fuel t) s k.
Proof.
  revert t. induction fuel as [|fuel IH]; intros t Hi Hk; [done|].
  pose proof (evict_steps_inv 1 t Hi) as Hi1. cbn [evict_steps_loop] in *.
  destruct (_ <? _); [|done]. destruct (sh_pending t) as [|[k0 p0] rest] eqn:Hp; [done|].
  apply IH; [done|]. unfold kept in *. cbn. rewrite Hp in Hk. pose proof (hi_wfp _ Hi) as Hw. rewrite Hp in Hw.
  assert (Hget : forall k', BTreeMap.get ((k0, p0) :: rest) k' = if decide (k' = k0) then Some p0 else BTreeMap.get rest k') by done.
  assert (Hrest : BTreeMap.get rest k0 = None).
  { destruct (BTreeMap.get rest k0) as [q|] eqn:Hq; [|done]. apply BTreeMap.elem_of_get in Hq.
    inversion_clear Hw as [|? ? _ Hall]. pose proof (proj1 (Forall_forall _ _) Hall _ Hq) as Hlt.
    unfold klt, Z_ord in Hlt. cbn in Hlt. lia. }
  rewrite Hget in Hk. destruct (decide (k = k0)) as [-> |Hne].
  - right. right. rewrite Hrest. split_and!; [lia|done|].
    destruct (BTreeMap.get (sh_judged t) k0) as [j|] eqn:Hj; [|done].
    apply (judged_below t k0 j Hi) in Hj as [_ Hn]. rewrite Hp, Hget, decide_True in Hn by done. done.
  - destruct Hk as [?|[?|(H1 & H2 & H3)]]; [by left|by right; left|right; right]. split_and!; [lia|done..].
Qed.

Lemma pending_put_kept t k p s k' :
  retired_below t <= k \/ is_Some (BTreeMap.get (sh_pending t) k) ->
  (forall x q, BTreeMap.get (sh_pending t) k = Some q -> x ∈ map fst (ps_reports q) -> x ∈ map fst (ps_reports p)) ->
  kept t s k' -> kept (set_steps t (BTreeMap.insert k p (sh_pending t)) (sh_judged t) (retired_below t)) s k'.
Proof.
  intros Hlive Hsup Hk. unfold kept in *. cbn. rewrite BTreeMap.get_insert.
  destruct Hk as [(q & Hq & Hs)|[?|(H1 & H2 & H3)]]; [left|by right; left|right; right].
  - case_decide; subst; eauto.
  - case_decide; [|done]. subst. destruct Hlive as [?|[? ?]]; [lia|congruence].
Qed.

Lemma judged_put_kept t k j j0 s k' :
  BTreeMap.get (sh_judged t) k = Some j0 ->
  (forall x, x ∈ map fst (js_reports j0) -> x ∈ map fst (js_reports j)) ->
  kept t s k' -> kept (set_steps t (sh_pending t) (BTreeMap.insert k j (sh_judged t)) (retired_below t)) s k'.
Proof.
  intros Hg Hsup Hk. unfold kept in *. cbn. rewrite BTreeMap.get_insert.
  destruct Hk as [?|[(j' & Hj' & Hs)|(H1 & H2 & H3)]]; [by left|right; left|right; right].
  - case_decide; subst; [|eauto]. rewrite Hg in Hj'. injection Hj' as <-. eauto.
  - case_decide; [|done]. subst. congruence.
Qed.

(** The reports the relay takes. *)
Definition accepts (t : StateHashTracker) (slot step : Z) : Prop :=
  sh_dormant t = false /\ (slot ∉ sh_excluded t) /\ report_step step /\
  (retired_below t <= step \/ is_Some (BTreeMap.get (sh_pending t) step) \/ is_Some (BTreeMap.get (sh_judged t) step)) /\
  step <= saturating_add u64_max (confirmable_until t) (STATE_HASH_WINDOW * STATE_HASH_INTERVAL).

Lemma accepts_files t slot step hash now : accepts t slot step ->
  fileable t step /\
  record_hash t slot step hash now = evict_steps (file_report t slot step hash now (is_retired t step)).
Proof.
  intros (Hd & He & Hs & Hlive & Hh). assert (Hf : fileable t step).
  { split; [done|unfold saturating_add in Hh; lia|]. unfold is_retired. intros [Hlt%Z.ltb_lt Hp]%andb_true_iff.
    apply negb_true_iff, bool_decide_eq_false in Hp. destruct Hlive as [?|[?|?]]; [lia|done|done]. }
  split; [done|]. unfold record_hash. rewrite Hd, bool_decide_eq_false_2 by done. cbn [orb]. fold (is_retired t step).
  destruct Hs as [Hs1 Hs2]. rewrite (proj2 (Z.leb_le _ _) Hs1), (proj2 (Z.eqb_eq _ _) Hs2). cbn [negb andb orb].
  rewrite (proj2 (Z.ltb_ge _ _) Hh), orb_false_r. destruct (is_retired t step) eqn:Hr; [|done]. cbn [andb].
  by rewrite bool_decide_eq_true_2 by (by apply Hf).
Qed.

Lemma fst_app_l s (l : list (Z * Z)) x : s ∈ map fst l -> s ∈ map fst (l ++ [x]).
Proof. intros Hs. rewrite map_app. apply elem_of_app. by left. Qed.
Lemma fst_app_r s h (l : list (Z * Z)) : s ∈ map fst (l ++ [(s, h)]).
Proof. rewrite map_app. apply elem_of_app. right. left. Qed.

Lemma reported_Some slot reports old : reported slot reports = Some old -> slot ∈ map fst reports.
Proof.
  intros Hr. destruct (decide (slot ∈ map fst reports)) as [|Hn]; [done|].
  apply reported_None in Hn. congruence.
Qed.

Lemma kept_counters t i c e s k : kept t s k -> kept (set_counters t i c e) s k.
Proof. done. Qed.

Lemma file_report_kept t slot step hash now s k :
  hash_inv t -> fileable t step -> kept t s k \/ (s = slot /\ k = step) ->
  kept (file_report t slot step hash now (is_retired t step)) s k.
Proof.
  intros Hi [_ _ Hjud] Hk. unfold file_report.
  assert (Hconf : forall t' old, kept t' s k -> kept (if old =? hash then t'
    else set_counters t' (invalid_warns t') (counter_observe (conflict_warns t')).2 (sh_evict_warns t')) s k).
  { intros t' old Ht'. by destruct (_ =? _). }
  destruct (is_retired t step) eqn:Hr.
  - destruct (Hjud eq_refl) as [j Hj]. rewrite Hj.
    destruct (reported slot (js_reports j)) as [old|] eqn:Hrep.
    + apply Hconf. destruct Hk as [?|[-> ->]]; [done|]. right. left. exists j. split; [done|]. by eapply reported_Some.
    + destruct Hk as [Hk|[-> ->]].
      * eapply judged_put_kept; [exact Hj| |exact Hk]. intros x. apply fst_app_l.
      * right. left. cbn. rewrite BTreeMap.get_insert_eq. eexists. split; [done|]. apply fst_app_r.
  - destruct (fileable_not_judged t step Hi Hr) as [_ Hlive]. set (p := default _ _).
    assert (Hsup : forall r n x q, BTreeMap.get (sh_pending t) step = Some q -> x ∈ map fst (ps_reports q) ->
      (forall y, y ∈ map fst (ps_reports p) -> y ∈ map fst r) -> x ∈ map fst (ps_reports (mkPendingStep r n (confirmable_at p)))).
    { intros r n x q Hq Hx Hr'. apply Hr'. unfold p. by rewrite Hq. }
    destruct (reported slot (ps_reports p)) as [old|] eqn:Hrep.
    + apply Hconf. destruct Hk as [Hk|[-> ->]].
      * apply pending_put_kept; [done| |done]. eauto.
      * left. cbn. rewrite BTreeMap.get_insert_eq. eexists. split; [done|]. by eapply reported_Some.
    + destruct Hk as [Hk|[-> ->]].
      * apply pending_put_kept; [done| |done]. intros x q Hq Hx. eapply Hsup; [done..|]. intros y. apply fst_app_l.
      * left. cbn. rewrite BTreeMap.get_insert_eq. eexists. split; [done|]. apply fst_app_r.
Qed.

Lemma record_hash_kept t slot step hash now s k :
  hash_inv t -> Rec slot step hash -> kept t s k \/ (s = slot /\ k = step /\ accepts t slot step) ->
  kept (record_hash t slot step hash now) s k.
Proof.
  intros Hi Hrec Hk. destruct Hk as [Hk|(-> & -> & Ha)].
  - destruct (record_hash_cases t slot step hash now) as [-> |[(i & c & e & ->)|[Hf ->]]]; [done|done|].
    apply evict_kept; [by apply file_report_inv|]. apply file_report_kept; auto.
  - destruct (accepts_files t slot step hash now Ha) as [Hf ->].
    apply evict_kept; [by apply file_report_inv|]. apply file_report_kept; auto.
Qed.

Lemma evict_steps_same fuel t :
  sh_excluded (evict_steps_loop fuel t) = sh_excluded t /\ sh_dormant (evict_steps_loop fuel t) = sh_dormant t.
Proof.
  revert t. induction fuel as [|fuel IH]; intros t; [done|]. cbn [evict_steps_loop].
  destruct (_ <? _); [|done]. destruct (sh_pending t) as [|[k p] rest]; [done|]. by rewrite !(proj1 (IH _)), !(proj2 (IH _)).
Qed.

Lemma record_hash_same t slot step hash now :
  sh_excluded (record_hash t slot step hash now) = sh_excluded t /\
  sh_dormant (record_hash t slot step hash now) = sh_dormant t.
Proof.
  destruct (record_hash_cases t slot step hash now) as [-> |[(i & c & e & ->)|[_ ->]]]; [done|done|].
  unfold evict_steps. rewrite !(proj1 (evict_steps_same _ _)), !(proj2 (evict_steps_same _ _)). unfold file_report.
  destruct (if is_retired t step then _ else _) as [j|]; destruct (reported _ _); try destruct (_ =? _); done.
Qed.

Lemma note_steps_kept now steps t s k :
  Forall (fun k => retired_below t <= k) steps -> kept t s k ->
  kept (set_steps t (foldl (note_confirmable now) (sh_pending t) steps) (sh_judged t) (retired_below t)) s k.
Proof.
  revert t. induction steps as [|k0 steps IH]; intros t Hall Hk; cbn [foldl]; [done|].
  inversion_clear Hall as [|? ? Hk0 Hall'].
  apply (IH (set_steps t (note_confirmable now (sh_pending t) k0) (sh_judged t) (retired_below t))); [done|].
  unfold note_confirmable. apply pending_put_kept; [by left| |done].
  intros x q Hq Hx. by rewrite Hq.
Qed.

Lemma note_forwarded_swept t slot count now required :
  hash_inv t -> 0 <= count -> Fwd slot count -> swept t [] (note_forwarded t slot count now required).
Proof.
  intros Hi H0 Hf. pose proof (note_forwarded_inv t slot count now required Hi H0 Hf) as Hi'.
  unfold note_forwarded in *. set (f := <[slot := _]> (forwarded t)) in *.
  cbn [confirmable_until set_forwarded retired_below] in *. set (until := default 0 (min_of _)) in *.
  destruct (Z.leb_spec until (confirmable_until t)) as [_|Hlt]; [by apply swept_silent|].
  cbn [sh_pending set_forwarded sh_judged] in *.
  pose proof (confirmable_steps_ok t f until Hi Hlt) as Hall. set (steps := report_steps _ until) in *.
  apply swept_silent; [done|unfold evict_steps; by rewrite (proj1 (evict_steps_same _ _))
    |unfold evict_steps; by rewrite (proj2 (evict_steps_same _ _))|].
  intros s k Hk. unfold evict_steps.
  assert (Hi2 : hash_inv (set_forwarded t f until)) by (apply forwarded_inv; [done..|lia]).
  apply evict_kept; [by apply (note_steps_inv now (steps) (set_forwarded t f until))|].
  apply (note_steps_kept now (steps) (set_forwarded t f until)); [|done].
  eapply Forall_impl; [exact Hall|]. intros x [_ ?]. lia.
Qed.

(** ** Sessions *)

Inductive hash_op : Type :=
| HRecord (slot step hash now : Z)
| HForward (slot count now : Z) (required : list Z)
| HJudge (now : Z) (required : gset Z).

Definition hash_step (t : StateHashTracker) (op : hash_op) : list SyncDivergence * StateHashTracker :=
  match op with
  | HRecord slot step hash now => ([], record_hash t slot step hash now)
  | HForward slot count now required => ([], note_forwarded t slot count now required)
  | HJudge now required => judge_ready t now required
  end.

(** The operations the predicates account for. *)
Definition on_record (op : hash_op) : Prop :=
  match op with
  | HRecord slot step hash _ => Rec slot step hash
  | HForward slot count _ _ => 0 <= count /\ Fwd slot count
  | HJudge _ _ => True
  end.

Fixpoint hash_run (ops : list hash_op) (t : StateHashTracker) : list SyncDivergence * StateHashTracker :=
  match ops with
  | [] => ([], t)
  | op :: ops => let x := hash_step t op in let y := hash_run ops x.2 in (x.1 ++ y.1, y.2)
  end.

Lemma hash_step_swept t op : hash_inv t -> on_record op -> swept t (hash_step t op).1 (hash_step t op).2.
Proof.
  intros Hi Hop. destruct op as [slot step hash now|slot count now required|now required]; cbn [hash_step fst snd].
  - destruct (record_hash_same t slot step hash now). apply swept_silent; try done; [by apply record_hash_inv|].
    intros s k Hk. apply record_hash_kept; auto.
  - destruct Hop. by apply note_forwarded_swept.
  - by apply judge_ready_swept.
Qed.

Lemma hash_run_swept ops t : hash_inv t -> Forall on_record ops -> swept t (hash_run ops t).1 (hash_run ops t).2.
Proof.
  revert t. induction ops as [|op ops IH]; intros t Hi Hops; cbn [hash_run fst snd]; [by apply swept_silent|].
  inversion_clear Hops as [|? ? Hop Hops']. pose proof (hash_step_swept t op Hi Hop) as H1.
  eapply swept_trans; [exact H1|]. apply IH; [apply H1|done].
Qed.

End hash_invariant.

(** What a history of operations puts on record. *)
Definition hash_recorded (ops : list hash_op) (s k h : Z) : Prop := exists now, HRecord s k h now ∈ ops.
Definition turns_forwarded (ops : list hash_op) (s c : Z) : Prop := exists now required, HForward s c now required ∈ ops.

(** Turn counts are unsigned. *)
Definition counts_unsigned (ops : list hash_op) : Prop :=
  forall s c now required, HForward s c now required ∈ ops -> 0 <= c.

Lemma all_on_record ops : counts_unsigned ops -> Forall (on_record (hash_recorded ops) (turns_forwarded ops)) ops.
Proof.
  intros Hc. apply Forall_forall. intros [slot step hash now|slot count now required|now required] Hin; cbn; [|split|done].
  - by exists now.
  - by apply (Hc slot count now required).
  - by exists now, required.
Qed.

Lemma hash_run_app ops1 ops2 t :
  hash_run (ops1 ++ ops2) t =
    ((hash_run ops1 t).1 ++ (hash_run ops2 (hash_run ops1 t).2).1, (hash_run ops2 (hash_run ops1 t).2).2).
Proof.
  revert t. induction ops1 as [|op ops1 IH]; intros t; cbn [app hash_run fst snd]; [by destruct (hash_run ops2 t)|].
  rewrite IH. cbn [fst snd]. by rewrite app_assoc.
Qed.

(** ** Properties *)

(** A state-hash verdict is earned: over any history of reports, forwarded
    turns and sweeps, every verdict is about a step clients are asked to
    report, every slot it calls diverged reported a hash that more slots than
    are accused contradict with one voice, every slot it calls missing had been
    forwarded four seconds of turns past the step, and no slot is named twice. *)
Theorem hash_verdicts_justified (ops : list hash_op) (Hc : counts_unsigned ops) :
  (forall d, d ∈ (hash_run ops default_hashes).1 -> hash_justified (hash_recorded ops) (turns_forwarded ops) d) /\
  NoDup (mjoin (map named (hash_run ops default_hashes).1)).
Proof.
  pose proof (hash_run_swept (hash_recorded ops) (turns_forwarded ops) ops default_hashes
    (hash_inv_init _ _) (all_on_record ops Hc)) as Hsw.
  split; [intros d Hd; by apply (sw_just _ _ _ _ _ Hsw)|apply Hsw].
Qed.

(** Reporting in time is enough: once the relay has taken a slot's report of
    a step, no later verdict, whatever else happens, calls the slot missing at
    that step. *)
Theorem reported_never_missing (before after : list hash_op) (slot step hash now : Z)
    (Hc : counts_unsigned (before ++ HRecord slot step hash now :: after))
    (Haccept : accepts (hash_run before default_hashes).2 slot step) :
  forall d, d ∈ (hash_run after (record_hash (hash_run before default_hashes).2 slot step hash now)).1 ->
    sync_ordinal d = step -> slot ∉ missing d.
Proof.
  set (ops := before ++ HRecord slot step hash now :: after) in *.
  pose proof (all_on_record ops Hc) as Hall. unfold ops in Hall at 2.
  apply Forall_app in Hall as [Hb Ha]. inversion_clear Ha as [|? ? Hr Ha'].
  pose proof (hash_run_swept _ _ before default_hashes (hash_inv_init _ _) Hb) as H1.
  set (t1 := (hash_run before default_hashes).2) in *.
  pose proof (hash_step_swept _ _ t1 (HRecord slot step hash now) (sw_inv _ _ _ _ _ H1) Hr) as H2.
  pose proof (hash_run_swept _ _ after _ (sw_inv _ _ _ _ _ H2) Ha') as H3. cbn [hash_step snd] in *.
  intros d Hd Ho. eapply (sw_kept _ _ _ _ _ H3 slot step); [|exact Hd|exact Ho].
  eapply record_hash_kept; [apply H1|exact Hr|]. by right.
Qed.

(** A verdict given early stands: when a step is judged before its hold has
    run out, a slot called diverged is outvoted whatever the slots still able to
    vote go on to report. *)
Theorem early_verdict_stands (t : StateHashTracker) (step : Z) (reports more : list (Z * Z)) (required : gset Z)
    (d : SyncDivergence)
    (Hnd : NoDup (map fst (reports ++ more)))
    (Hd : (judge t step reports required false).1 = Decided (Some d))
    (Hmore : forall s, s ∈ map fst more -> s ∉ missing d) :
  forall s, s ∈ diverged d ->
    let vs := counted_reports t (reports ++ more) required in
    exists v w, majority_value vs v /\ w <> v /\ (s, w) ∈ vs.
Proof.
  intros s Hs vs. rewrite map_app in Hnd. apply NoDup_app in Hnd as (Hnd & Hdisj & Hnd').
  pose proof (judge_spec t step reports required false Hnd) as Hj. rewrite Hd in Hj.
  assert (Happ : vs = counted_reports t reports required ++ counted_reports t more required) by apply filter_app.
  inversion Hj as [| |d' t' _ _ Hempty|v d' t' e b _ _ Hdiv Hm Hmaj Hfin _ _ _]; subst.
  { rewrite Hempty in Hs. by apply elem_of_nil in Hs. }
  rewrite Hdiv in Hs. apply minority_elem in Hs as (w & Hne & Hin); [|by apply counted_NoDup].
  exists v, w. split; [|split; [done|rewrite Happ; apply elem_of_app; by left]].
  assert (Hlen : Z.of_nat (length vs) <= electorate t step reports required).
  { rewrite Happ. apply electorate_bound.
    - rewrite map_app. apply NoDup_app. split_and!; [by apply counted_NoDup| |by apply counted_NoDup].
      intros x Hx Hx'. apply list_elem_of_fmap in Hx as ([? ?] & -> & [_ Hx]%list_elem_of_filter).
      apply list_elem_of_fmap in Hx' as ([? ?] & Heq & [_ Hx']%list_elem_of_filter). cbn in Heq. subst.
      eapply Hdisj; [apply list_elem_of_fmap; by exists (z1, z0)|apply list_elem_of_fmap; by exists (z1, z2)].
    - intros x. rewrite map_app. intros [Hx|Hx]%elem_of_app; (split; [by eapply counted_active|]); intros Hw.
      + unfold withholding in Hw. rewrite !list_elem_of_filter in Hw. naive_solver.
      + rewrite <- Hm in Hw. apply list_elem_of_fmap in Hx as ([? ?] & -> & [_ Hx]%list_elem_of_filter).
        apply (Hmore z); [|done]. apply list_elem_of_fmap. by exists (z, z0). }
  unfold majority_value in *. rewrite Happ in *. rewrite length_app in *.
  unfold voters at 1. rewrite filter_app, map_app, length_app.
  destruct Hfin as [[=]|[Hall|[Hag|(v' & [= <-] & Hbig)]]].
  - fold (voters v (counted_reports t reports required)). lia.
  - exfalso. apply Hne. assert (Hv : exists x, (x, v) ∈ counted_reports t reports required).
    { destruct (voters v (counted_reports t reports required)) as [|x l] eqn:Hv; [cbn in Hmaj; lia|].
      exists x. apply elem_of_voters. rewrite Hv. left. }
    destruct Hv as [x Hx]. exact (Hag _ _ Hin Hx).
  - fold (voters v (counted_reports t reports required)). lia.
Qed.

(** ** Concrete sessions *)

Definition three : gset Z := {[1; 2; 3]}.
Definition sample_forwards : list hash_op :=
  map (fun s => HForward s 120 0 [1; 2; 3]) [1; 2; 3].
Definition sample_reports : list hash_op := [HRecord 1 8 7 1; HRecord 3 8 9 1; HRecord 2 8 7 2; HJudge 3 three].

Lemma counts_unsigned_check ops :
  forallb (fun op => match op with HForward _ c _ _ => 0 <=? c | _ => true end) ops = true -> counts_unsigned ops.
Proof.
  intros H s c now required Hin. apply list_elem_of_In in Hin. rewrite forallb_forall in H.
  specialize (H _ Hin). by apply Z.leb_le in H.
Qed.

Lemma hash_verdicts_justified_witness :
  (hash_run (sample_forwards ++ sample_reports) default_hashes).1 = [mkSyncDivergence 8 None false [3] []] /\
  hash_justified (hash_recorded (sample_forwards ++ sample_reports)) (turns_forwarded (sample_forwards ++ sample_reports))
    (mkSyncDivergence 8 None false [3] []).
Proof.
  assert (H : (hash_run (sample_forwards ++ sample_reports) default_hashes).1 = [mkSyncDivergence 8 None false [3] []])
    by (vm_compute; reflexivity).
  split; [exact H|]. apply (hash_verdicts_justified (sample_forwards ++ sample_reports)); [|rewrite H; left].
  apply counts_unsigned_check. reflexivity.
Defined.

Lemma reported_never_missing_witness :
  let t := record_hash (hash_run sample_forwards default_hashes).2 1 8 7 1 in
  (hash_run [HJudge 10000000000 three] t).1 = [mkSyncDivergence 8 None false [] [2; 3]] /\
  1 ∉ missing (mkSyncDivergence 8 None false [] [2; 3]).
Proof.
  cbv zeta.
  assert (H : (hash_run [HJudge 10000000000 three] (record_hash (hash_run sample_forwards default_hashes).2 1 8 7 1)).1
    = [mkSyncDivergence 8 None false [] [2; 3]]) by (vm_compute; reflexivity).
  split; [exact H|].
  apply (reported_never_missing sample_forwards [HJudge 10000000000 three] 1 8 7 1); [..|reflexivity].
  - apply counts_unsigned_check. reflexivity.
  - split_and!; [vm_compute; reflexivity|intros Hx; vm_compute in Hx; discriminate|vm_compute; split; [discriminate|reflexivity]
      |left; vm_compute; discriminate|vm_compute; discriminate].
  - rewrite H. left.
Defined.

Lemma early_verdict_stands_witness :
  let reports := [(1, 7); (2, 7); (5, 9); (3, 7)] in
  let required : gset Z := {[1; 2; 3; 4; 5]} in
  (judge default_hashes 8 reports required false).1 = Decided (Some (mkSyncDivergence 8 None false [5] [])) /\
  exists v w, majority_value (counted_reports default_hashes (reports ++ [(4, 9)]) required) v /\ w <> v /\
    (5, w) ∈ counted_reports default_hashes (reports ++ [(4, 9)]) required.
Proof.
  cbv zeta.
  assert (H : (judge default_hashes 8 [(1, 7); (2, 7); (5, 9); (3, 7)] {[1; 2; 3; 4; 5]} false).1 =
    Decided (Some (mkSyncDivergence 8 None false [5] []))) by (vm_compute; reflexivity).
  split; [exact H|].
  apply (early_verdict_stands default_hashes 8 _ [(4, 9)] _ (mkSyncDivergence 8 None false [5] [])); [|exact H|..].
  - cbn. repeat (constructor; [set_solver|]). constructor.
  - intros s _ Hs. by apply elem_of_nil in Hs.
  - left.
Defined.
