(* ===== verification/ControlStream.v ===== *)
(** * Control-stream framing ([proto/src/control_stream/mod.rs],
      [transport/src/control_framing.rs])

    The length-prefixed frames of both reliable control streams.  The message
    codec is the protobuf library's: the class [Message] names its operations
    and [MessageLaws] the documented facts the framing relies on. *)

From Stdlib Require Import ZArith Lia.
From stdpp Require Import gmap sorting list.
From S2P Require Import Prelude.

Open Scope Z_scope.

(** ** The message codec *)

Class Message (M : Type) : Type := {
  encoded_len : M -> Z;
  encode : M -> list Z;
  decode : list Z -> option M;
}.

Class MessageLaws (M : Type) `{!Message M} : Prop := {
  encode_length : forall m, Z.of_nat (length (encode m)) = encoded_len m;
  decode_encode : forall m, decode (encode m) = Some m;
}.

(** ** Framing *)

Definition MAX_CONTROL_FRAME_LEN : Z := 64 * 1024.
Definition CONTROL_LEN_PREFIX : nat := 4.

Inductive ControlStreamError : Type :=
| FrameTooLarge (len : Z)
| DecodeError.

(** [u32::to_le_bytes] and [from_le_bytes]. *)
Definition to_le_bytes (x : Z) : list Z :=
  [x mod 256; x / 256 mod 256; x / 65536 mod 256; x / 16777216 mod 256].
Definition from_le_bytes (l : list Z) : Z := foldr (fun b acc => b + 256 * acc) 0 l.

Definition frame_len (prefix : list Z) : result Z ControlStreamError :=
  let len := from_le_bytes prefix in
  if MAX_CONTROL_FRAME_LEN <? len then Err (FrameTooLarge len) else Ok len.

Section codec.
Context {M : Type} `{!Message M}.

Definition encode_frame (frame : M) : result (list Z) ControlStreamError :=
  let len := encoded_len frame in
  if MAX_CONTROL_FRAME_LEN <? len then Err (FrameTooLarge len)
  else Ok (to_le_bytes len ++ encode frame).

Definition decode_frame (body : list Z) : result M ControlStreamError :=
  match decode body with Some m => Ok m | None => Err DecodeError end.

(** [read_exact] of [n] bytes off the stream's remaining bytes. *)
Definition read_exact (n : nat) (stream : list Z) : option (list Z * list Z) :=
  if (length stream <? n)%nat then None else Some (take n stream, drop n stream).

(** The decoded frame and the unread rest, or [None] when reading stops; in
    both cases how many bytes the reader allocated for the body. *)
Definition read_one_frame (stream : list Z) : option (M * list Z) * Z :=
  match read_exact CONTROL_LEN_PREFIX stream with
  | None => (None, 0)
  | Some (prefix, rest) =>
      match frame_len prefix with
      | Err _ => (None, 0)
      | Ok len =>
          match read_exact (Z.to_nat len) rest with
          | None => (None, len)
          | Some (body, rest') =>
              match decode_frame body with
              | Ok m => (Some (m, rest'), len)
              | Err _ => (None, len)
              end
          end
      end
  end.

(** The read loop of a stream's reader task; each frame consumes its prefix. *)
Fixpoint read_frames (fuel : nat) (stream : list Z) : list M :=
  match fuel with
  | O => []
  | S fuel =>
      match (read_one_frame stream).1 with
      | Some (m, rest) => m :: read_frames fuel rest
      | None => []
      end
  end.

(** Writing a batch of frames, refusing at the first that does not fit. *)
Fixpoint write_frames (ms : list M) : result (list Z) ControlStreamError :=
  match ms with
  | [] => Ok []
  | m :: ms =>
      (let? f := encode_frame m in let? rest := write_frames ms in Ok (f ++ rest))%rust
  end.

End codec.

(** ** Lemmas *)

Lemma le_bytes_roundtrip x : is_u32 x -> from_le_bytes (to_le_bytes x) = x.
Proof.
  intros Hx. unfold from_le_bytes, to_le_bytes. cbn [foldr].
  assert (Hd1 : x / 65536 = x / 256 / 256) by (rewrite Z.div_div by lia; done).
  assert (Hd2 : x / 16777216 = x / 256 / 256 / 256) by (rewrite !Z.div_div by lia; done).
  rewrite Hd1, Hd2. pose proof (Z.div_mod x 256 ltac:(lia)). pose proof (Z.div_mod (x / 256) 256 ltac:(lia)).
  pose proof (Z.div_mod (x / 256 / 256) 256 ltac:(lia)).
  assert (x / 256 / 256 / 256 < 256).
  { rewrite !Z.div_div by lia. apply Z.div_lt_upper_bound; unfold is_u32, u32_max in Hx; lia. }
  assert (0 <= x / 256 / 256 / 256) by (rewrite !Z.div_div by lia; apply Z.div_pos; unfold is_u32 in Hx; lia).
  rewrite (Z.mod_small (x / 256 / 256 / 256)) by lia. lia.
Qed.

Lemma read_exact_app n (l rest : list Z) : length l = n -> read_exact n (l ++ rest) = Some (l, rest).
Proof.
  intros <-. unfold read_exact. rewrite length_app. destruct (Nat.ltb_spec (length l + length rest) (length l)); [lia|].
  by rewrite take_app_length, drop_app_length.
Qed.

Section laws.
Context {M : Type} `{!Message M, !MessageLaws M}.

Lemma encode_frame_spec (m : M) :
  encode_frame m =
    if MAX_CONTROL_FRAME_LEN <? encoded_len m then Err (FrameTooLarge (encoded_len m))
    else Ok (to_le_bytes (encoded_len m) ++ encode m).
Proof. done. Qed.

Lemma encoded_len_nonneg (m : M) : 0 <= encoded_len m.
Proof. rewrite <- encode_length. lia. Qed.

(** A frame is read back whole, whatever follows it. *)
Lemma read_frame_back (m : M) f rest :
  encode_frame m = Ok f -> read_one_frame (f ++ rest) = (Some (m, rest), encoded_len m).
Proof.
  rewrite encode_frame_spec. destruct (Z.ltb_spec MAX_CONTROL_FRAME_LEN (encoded_len m)) as [|Hle]; [done|].
  intros Hf. assert (f = to_le_bytes (encoded_len m) ++ encode m) as -> by congruence.
  pose proof (encoded_len_nonneg m) as Hpos.
  unfold read_one_frame. rewrite <- app_assoc, read_exact_app by done.
  unfold frame_len. rewrite le_bytes_roundtrip.
  2: { unfold MAX_CONTROL_FRAME_LEN in Hle. width_lia. }
  rewrite (proj2 (Z.ltb_ge _ _) Hle). rewrite <- (encode_length m) at 1.
  rewrite Nat2Z.id, read_exact_app by done. unfold decode_frame. by rewrite decode_encode.
Qed.

Lemma write_frames_cons (m : M) ms bs :
  write_frames (m :: ms) = Ok bs ->
  exists f rest, encode_frame m = Ok f /\ write_frames ms = Ok rest /\ bs = f ++ rest.
Proof.
  cbn [write_frames]. destruct (encode_frame m) as [f|]; [|done]. cbn [result_bind].
  destruct (write_frames ms) as [rest|]; [|done]. cbn [result_bind]. intros [= <-]. eauto.
Qed.

End laws.

(** ** Properties *)

(** C39 Control frames round-trip: whatever batch of messages was accepted for
    writing, the reader gets exactly those messages, in order, however the
    stream continues after them, and then reads on from there. *)
Theorem control_frames_roundtrip `{!Message M, !MessageLaws M} (ms : list M) (bs tail : list Z)
  (fuel : nat) :
  write_frames ms = Ok bs ->
  read_frames (length ms + fuel) (bs ++ tail) = ms ++ read_frames fuel tail.
Proof.
  revert bs. induction ms as [|m ms IH]; intros bs Hw.
  { cbn in Hw. injection Hw as <-. done. }
  destruct (write_frames_cons m ms bs Hw) as (f & rest & Hf & Hr & ->).
  cbn [length Nat.add read_frames]. rewrite <- app_assoc, (read_frame_back m f) by done. cbn [fst app].
  by rewrite IH.
Qed.

(** The attacker-facing guard: whatever bytes a peer sends, the reader never
    allocates more than the frame cap for a body; and the writer refuses
    exactly the messages over that cap, so both sides agree on it. *)
Theorem control_frame_capped `{!Message M, !MessageLaws M} (stream : list Z) (m : M) :
  Forall is_u8 stream ->
  0 <= (read_one_frame (M:=M) stream).2 <= MAX_CONTROL_FRAME_LEN /\
  (encode_frame m = Err (FrameTooLarge (encoded_len m)) <-> MAX_CONTROL_FRAME_LEN < encoded_len m).
Proof.
  intros Hs. split.
  - unfold read_one_frame. destruct (read_exact CONTROL_LEN_PREFIX stream) as [[prefix rest]|] eqn:Hp;
      [|cbn; unfold MAX_CONTROL_FRAME_LEN; lia].
    assert (Hpre : Forall is_u8 prefix).
    { unfold read_exact in Hp. destruct (_ <? _)%nat; [done|]. injection Hp as <- _. by apply Forall_take. }
    assert (Hpos : 0 <= from_le_bytes prefix).
    { clear Hp. induction Hpre as [|b l Hb _ IH]; cbn; [lia|]. unfold is_u8, from_le_bytes in *. lia. }
    unfold frame_len. destruct (Z.ltb_spec MAX_CONTROL_FRAME_LEN (from_le_bytes prefix)).
    + cbn. unfold MAX_CONTROL_FRAME_LEN. lia.
    + destruct (read_exact _ rest) as [[body rest']|]; [|cbn; lia].
      destruct (decode_frame body); cbn; lia.
  - rewrite encode_frame_spec. destruct (Z.ltb_spec MAX_CONTROL_FRAME_LEN (encoded_len m)); split; done || lia.
Qed.

(** ** Witnesses: byte strings as their own messages *)

#[local] Instance bytes_message : Message (list Z) :=
  {| encoded_len m := Z.of_nat (length m); encode m := m; decode bs := Some bs |}.
#[local] Instance bytes_message_laws : MessageLaws (list Z).
Proof. by split. Qed.

Lemma control_frames_roundtrip_witness :
  exists bs, write_frames [[1; 2; 3]; []; [9]] = Ok bs /\
    read_frames 10 (bs ++ [5; 0]) = [[1; 2; 3]; []; [9]].
Proof.
  eexists. split; [reflexivity|].
  exact (control_frames_roundtrip [[1; 2; 3]; []; [9]] _ [5; 0] 7 eq_refl).
Defined.

Lemma control_frame_capped_witness :
  (read_one_frame (M:=list Z) [255; 255; 255; 255; 0]).2 = 0 /\
  (read_one_frame (M:=list Z) [255; 255; 255; 255; 0]).2 <= MAX_CONTROL_FRAME_LEN.
Proof.
  split; [vm_compute; reflexivity|].
  apply (control_frame_capped (M:=list Z) [255; 255; 255; 255; 0] [7]). repeat constructor; width_lia.
Defined.
