(* ===== verification/Slot.v ===== *)
(** * Per-slot decision-maker state ([relay/src/consensus/slot.rs])

    The conditions, cumulative loss counters and outage credit one participant
    contributes to the control law.  The fields of the Rust struct that a
    reconnect resets are the record [LinkState], the game progress that
    survives it is in [SlotState] next to it.  Instants are nanoseconds, array
    accesses are partial. *)

From Stdlib Require Import ZArith Lia.
From stdpp Require Import gmap list.
From S2P Require Import Prelude.
From S2P Require Import Law.

Open Scope Z_scope.

Definition OUTAGE_GAP_MIN : Z := 1000000000.
Definition OUTAGE_LOSS_RESOLUTION_MAX_AGE : Z := 2000000000.

Record LossSnapshot : Type := mkLossSnapshot { sn_lost : Z; sn_sent : Z; at_sample : Z }.
Record OutagePool : Type := mkOutagePool { credit : Z; deadline : Z; expires_at : option Z }.

Definition SNAPSHOTS : nat := Z.to_nat LOSS_SNAPSHOT_COUNT.

Definition empty_snapshots : list LossSnapshot := replicate SNAPSHOTS (mkLossSnapshot 0 0 0).
Definition empty_pool : OutagePool := mkOutagePool 0 0 None.

(** The cumulative loss counters: the accepted endpoint, the ring of older
    endpoints, the blackout runs and the banked outage credit. *)
Record Counters : Type := mkCounters {
  curr_lost : Z;
  curr_sent : Z;
  loss_snapshots : list LossSnapshot;
  loss_snapshot_head : nat;
  loss_snapshot_len : nat;
  advancing_samples : Z;
  blackout_run : Z;
  blackout_runs : BucketedMax;
  seen : bool;
  last_sample_at : option Z;
  outage_pools : list OutagePool;
}.

Definition default_counters : Counters :=
  mkCounters 0 0 empty_snapshots 0 0 0 0 (default_buckets BLACKOUT_RUN_BUCKETS) false None [empty_pool; empty_pool].

Record LinkState : Type := mkLinkState {
  rtt_window : RttWindow;
  mesh_rtt_us : Z;
  mesh_rtt_floor_us : option Z;
  counters : Counters;
  last_sender_rtt_us : option Z;
}.

Definition default_link : LinkState := mkLinkState default_rtt 0 None default_counters None.

Record SlotState : Type := mkSlotState {
  link : LinkState;
  frame : option Z;
  frame_history : list (Z * Z);
  newest_framed_seq : option Z;
  last_forward_advance_at : option Z;
  connection_up_at : option Z;
  frame_regression_reported : bool;
}.

Definition default_slot : SlotState := mkSlotState default_link None [] None None None false.

Definition reset_link_conditions (s : SlotState) : SlotState :=
  mkSlotState default_link (frame s) (frame_history s) (newest_framed_seq s) (last_forward_advance_at s)
    (connection_up_at s) (frame_regression_reported s).

Definition set_link (s : SlotState) (l : LinkState) : SlotState :=
  mkSlotState l (frame s) (frame_history s) (newest_framed_seq s) (last_forward_advance_at s) (connection_up_at s)
    (frame_regression_reported s).
Definition set_frame (s : SlotState) (f : option Z) : SlotState :=
  mkSlotState (link s) f (frame_history s) (newest_framed_seq s) (last_forward_advance_at s) (connection_up_at s)
    (frame_regression_reported s).
Definition set_up_at (s : SlotState) (now : Z) : SlotState :=
  mkSlotState (link s) (frame s) (frame_history s) (newest_framed_seq s) (last_forward_advance_at s) (Some now)
    (frame_regression_reported s).

Definition rtt (s : SlotState) : option Z := rtt_max (rtt_window (link s)).
Definition eff_rtt (s : SlotState) : option Z :=
  r ← rtt s; mret (saturating_add u32_max r (mesh_rtt_us (link s))).

Inductive CounterUpdate : Type :=
  Baseline | Advanced | OutageRebaselined | LossAdvanced | NonAdvancing | Stale.
#[export] Instance CounterUpdate_eq_dec : EqDecision CounterUpdate.
Proof. solve_decision. Defined.

(** ** Outage credit *)

Definition wall_expired (wall : option Z) (p : OutagePool) : bool :=
  match wall with
  | None => false
  | Some now => match expires_at p with None => true | Some e => e <=? now end
  end.

(** One iteration of the loop over the pools: what it absorbs and the pool
    afterwards. *)
Definition drain_pool (at_ remaining : Z) (wall : option Z) (p : OutagePool) : Z * OutagePool :=
  if credit p =? 0 then (0, p)
  else if (deadline p <=? at_) || wall_expired wall p then (0, mkOutagePool 0 (deadline p) (expires_at p))
  else
    let take := Z.min remaining (credit p) in
    (take, mkOutagePool (credit p - take) (deadline p) (expires_at p)).

Fixpoint drain_all (at_ remaining : Z) (wall : option Z) (ps : list OutagePool) : Z * list OutagePool :=
  match ps with
  | [] => (0, [])
  | p :: ps =>
      let '(take, p') := drain_pool at_ remaining wall p in
      let '(absorbed, ps') := drain_all at_ (remaining - take) wall ps in
      (take + absorbed, p' :: ps')
  end.

Definition set_pools (c : Counters) (ps : list OutagePool) : Counters :=
  mkCounters (curr_lost c) (curr_sent c) (loss_snapshots c) (loss_snapshot_head c) (loss_snapshot_len c)
    (advancing_samples c) (blackout_run c) (blackout_runs c) (seen c) (last_sample_at c) ps.

Definition drain_pools (c : Counters) (declared : Z) (wall : option Z) : Z * Counters :=
  let r := drain_all (advancing_samples c) declared wall (outage_pools c) in (r.1, set_pools c r.2).

Definition absorb_outage_losses (c : Counters) (declared now : Z) : Z * Counters := drain_pools c declared (Some now).

(** ** The snapshot ring *)

Definition set_ring (c : Counters) (l : list LossSnapshot) (head len : nat) : Counters :=
  mkCounters (curr_lost c) (curr_sent c) l head len (advancing_samples c) (blackout_run c) (blackout_runs c) (seen c)
    (last_sample_at c) (outage_pools c).

Definition push_loss_snapshot (c : Counters) : option Counters :=
  _ ← loss_snapshots c !! loss_snapshot_head c;
  mret (set_ring c
    (<[loss_snapshot_head c := mkLossSnapshot (curr_lost c) (curr_sent c) (advancing_samples c)]> (loss_snapshots c))
    ((loss_snapshot_head c + 1) mod SNAPSHOTS)%nat
    (if (loss_snapshot_len c <? SNAPSHOTS)%nat then (loss_snapshot_len c + 1)%nat else loss_snapshot_len c)).

(** [for snapshot in &mut self.loss_snapshots[..self.loss_snapshot_len]]; the
    slice is out of range when the length exceeds the array. *)
Definition map_snapshots (f : LossSnapshot -> LossSnapshot) (c : Counters) : option Counters :=
  if (loss_snapshot_len c <=? length (loss_snapshots c))%nat then
    Some (set_ring c (map f (take (loss_snapshot_len c) (loss_snapshots c)) ++ drop (loss_snapshot_len c) (loss_snapshots c))
            (loss_snapshot_head c) (loss_snapshot_len c))
  else None.

Definition add_lost (absorbed : Z) (sn : LossSnapshot) : LossSnapshot :=
  mkLossSnapshot (saturating_add u64_max (sn_lost sn) absorbed) (sn_sent sn) (at_sample sn).

Definition refine (lost sent absorbed : Z) (sn : LossSnapshot) : LossSnapshot :=
  if sn_sent sn =? sent then mkLossSnapshot lost (sn_sent sn) (at_sample sn) else add_lost absorbed sn.

(** ** Accepting a sample *)

Definition set_endpoint (c : Counters) (lost sent : Z) : Counters :=
  mkCounters lost sent (loss_snapshots c) (loss_snapshot_head c) (loss_snapshot_len c) (advancing_samples c)
    (blackout_run c) (blackout_runs c) (seen c) (last_sample_at c) (outage_pools c).
Definition stamp_sample (c : Counters) (now : Z) : Counters :=
  mkCounters (curr_lost c) (curr_sent c) (loss_snapshots c) (loss_snapshot_head c) (loss_snapshot_len c)
    (advancing_samples c) (blackout_run c) (blackout_runs c) (seen c) (Some now) (outage_pools c).
Definition mark_seen (c : Counters) : Counters :=
  mkCounters (curr_lost c) (curr_sent c) (loss_snapshots c) (loss_snapshot_head c) (loss_snapshot_len c)
    (advancing_samples c) (blackout_run c) (blackout_runs c) true (last_sample_at c) (outage_pools c).
Definition count_sample (c : Counters) (run : Z) (runs : BucketedMax) : Counters :=
  mkCounters (curr_lost c) (curr_sent c) (loss_snapshots c) (loss_snapshot_head c) (loss_snapshot_len c)
    (saturating_add u32_max (advancing_samples c) 1) run runs (seen c) (last_sample_at c) (outage_pools c).

(** Moves the endpoint, counts the sample and observes the blackout run. *)
Definition advance_endpoint (c : Counters) (lost sent run run_bucket_span : Z) : option Counters :=
  let c := set_endpoint c lost sent in
  runs ← observe BLACKOUT_RUN_BUCKETS (blackout_runs c) (saturating_add u32_max (advancing_samples c) 1) run
           run_bucket_span;
  mret (count_sample c run runs).

Definition expire_wall (now : Z) (p : OutagePool) : OutagePool :=
  if match expires_at p with None => true | Some e => e <=? now end
  then mkOutagePool 0 (deadline p) (expires_at p) else p.

(** Banks a gap's undeclared sends as a new generation; an unspent newer one
    becomes the older. *)
Definition bank (ps : list OutagePool) (fresh_undeclared at_ now : Z) : option (list OutagePool) :=
  if 0 <? fresh_undeclared then
    newer ← ps !! 1%nat;
    older ← ps !! 0%nat;
    mret [(if 0 <? credit newer then newer else older);
          mkOutagePool fresh_undeclared (saturating_add u32_max at_ OUTAGE_LOSS_RESOLUTION_SAMPLES)
            (Some (now + OUTAGE_LOSS_RESOLUTION_MAX_AGE))]
  else Some ps.

Definition rebaseline_after_outage (c : Counters) (lost sent run_bucket_span now : Z) :
    option (CounterUpdate * Counters) :=
  let delta_sent := sent - curr_sent c in
  let delta_lost := saturating_sub lost (curr_lost c) in
  let '(consumed, c1) := drain_pools c delta_lost None in
  let residual_declared := delta_lost - consumed in
  let fresh_undeclared := saturating_sub delta_sent residual_declared in
  let c2 := set_pools c1 (map (expire_wall now) (outage_pools c1)) in
  c3 ← advance_endpoint c2 lost sent 0 run_bucket_span;
  c4 ← push_loss_snapshot (set_ring c3 empty_snapshots 0 0);
  ps ← bank (outage_pools c4) fresh_undeclared (advancing_samples c4) now;
  mret (OutageRebaselined, set_pools c4 ps).

Definition is_multiple_of (a b : Z) : bool := if b =? 0 then a =? 0 else a mod b =? 0.

Definition gap_closed (c : Counters) (now : Z) : bool :=
  match last_sample_at c with
  | None => false
  | Some at_ => OUTAGE_GAP_MIN <=? saturating_sub now at_
  end.

(** An advancing sample within a flowing stretch. *)
Definition advance_weather (c : Counters) (lost sent snapshot_interval run_bucket_span now : Z) :
    option (CounterUpdate * Counters) :=
  let delta_sent := sent - curr_sent c in
  let delta_lost := saturating_sub lost (curr_lost c) in
  let '(absorbed, c1) := absorb_outage_losses c delta_lost now in
  let weather_lost := delta_lost - absorbed in
  c2 ← (if 0 <? absorbed then map_snapshots (add_lost absorbed) c1 else Some c1);
  let run := if delta_sent <=? weather_lost then saturating_add u32_max (blackout_run c2) 1 else 0 in
  c3 ← advance_endpoint c2 lost sent run run_bucket_span;
  c4 ← (if is_multiple_of (advancing_samples c3) snapshot_interval then push_loss_snapshot c3 else Some c3);
  mret (Advanced, c4).

(** A later loss declaration for the current endpoint. *)
Definition refine_endpoint (c : Counters) (lost now : Z) : option (CounterUpdate * Counters) :=
  let '(absorbed, c1) := absorb_outage_losses (stamp_sample c now) (lost - curr_lost c) now in
  let c2 := set_endpoint c1 lost (curr_sent c1) in
  c3 ← map_snapshots (refine lost (curr_sent c2) absorbed) c2;
  mret (LossAdvanced, c3).

Definition update_counters (c : Counters) (lost_packets sent_packets snapshot_interval run_bucket_span now : Z) :
    option (CounterUpdate * Counters) :=
  if negb (seen c) then
    c' ← push_loss_snapshot (stamp_sample (mark_seen (set_endpoint c lost_packets sent_packets)) now);
    mret (Baseline, c')
  else if (sent_packets <? curr_sent c) || (lost_packets <? curr_lost c) then Some (Stale, c)
  else if sent_packets =? curr_sent c then
    if curr_lost c <? lost_packets then refine_endpoint c lost_packets now else Some (NonAdvancing, c)
  else
    let gap := gap_closed c now in
    let c := stamp_sample c now in
    if gap then rebaseline_after_outage c lost_packets sent_packets run_bucket_span now
    else advance_weather c lost_packets sent_packets snapshot_interval run_bucket_span now.

(** ** Well-formed counters *)

Definition total_credit (c : Counters) : Z := sumz credit (outage_pools c).

Definition live_snapshots (c : Counters) : list LossSnapshot := take (loss_snapshot_len c) (loss_snapshots c).

Definition runs_ok (span : Z) (w : BucketedMax) (at_ : Z) : Prop :=
  exists E a, window_inv BLACKOUT_RUN_BUCKETS span w E a /\ 0 <= a <= at_ /\ (forall e x, (e, x) ∈ E -> e <= a).

Record snapshot_ok (c : Counters) (sn : LossSnapshot) : Prop := {
  so_lost : 0 <= sn_lost sn <= curr_lost c;
  so_sent : 0 <= sn_sent sn <= curr_sent c;
  so_sample : 0 <= at_sample sn <= advancing_samples c;
}.

Record counters_ok (span : Z) (c : Counters) : Prop := {
  co_lost : is_u64 (curr_lost c);
  co_sent : is_u64 (curr_sent c);
  co_samples : is_u32 (advancing_samples c);
  co_run : is_u32 (blackout_run c);
  co_ring : length (loss_snapshots c) = SNAPSHOTS;
  co_head : (loss_snapshot_head c < SNAPSHOTS)%nat;
  co_len : (loss_snapshot_len c <= SNAPSHOTS)%nat;
  co_fill : (loss_snapshot_len c < SNAPSHOTS)%nat -> loss_snapshot_head c = loss_snapshot_len c;
  co_live : Forall (snapshot_ok c) (live_snapshots c);
  co_runs : runs_ok span (blackout_runs c) (advancing_samples c);
  co_pools : length (outage_pools c) = 2%nat;
  co_credit : Forall (fun p => 0 <= credit p) (outage_pools c);
}.

Lemma default_counters_ok span : counters_ok span default_counters.
Proof.
  assert (0 < SNAPSHOTS)%nat by (vm_compute; lia).
  split; cbn; try width_lia; try done.
  - exists [], 0. split; [by split|]. split; [lia|]. intros e x []%elem_of_nil.
  - repeat constructor; cbn; lia.
Qed.

(** *** Draining *)

Lemma drain_pool_spec at_ remaining wall p :
  0 <= remaining -> 0 <= credit p ->
  0 <= (drain_pool at_ remaining wall p).1 <= remaining /\
  0 <= credit (drain_pool at_ remaining wall p).2 /\
  (drain_pool at_ remaining wall p).1 + credit (drain_pool at_ remaining wall p).2 <= credit p.
Proof.
  intros. unfold drain_pool. destruct (Z.eqb_spec (credit p) 0); cbn; [lia|].
  destruct (_ || _); cbn; lia.
Qed.

Lemma drain_all_spec at_ wall ps remaining :
  0 <= remaining -> Forall (fun p => 0 <= credit p) ps ->
  0 <= (drain_all at_ remaining wall ps).1 <= remaining /\
  Forall (fun p => 0 <= credit p) (drain_all at_ remaining wall ps).2 /\
  length (drain_all at_ remaining wall ps).2 = length ps /\
  (drain_all at_ remaining wall ps).1 + sumz credit (drain_all at_ remaining wall ps).2 <= sumz credit ps.
Proof.
  revert remaining. induction ps as [|p ps IH]; intros remaining Hr Hps; cbn [drain_all]; [cbn; repeat split; auto; lia|].
  apply Forall_cons in Hps as [Hp Hps].
  pose proof (drain_pool_spec at_ remaining wall p Hr Hp) as (Ht & Hc & Hs).
  destruct (drain_pool at_ remaining wall p) as [t p']. cbn [fst snd] in *.
  specialize (IH (remaining - t) ltac:(lia) Hps) as (Ha & Hf & Hl & Hsum).
  destruct (drain_all at_ (remaining - t) wall ps) as [a ps']. cbn [fst snd sumz length] in *.
  repeat split; [lia|lia| |lia|lia]. by constructor.
Qed.

(** A generation that is still open and covers the declaration absorbs what
    the older one left. *)
Lemma drain_all_covered at_ now p0 p1 remaining :
  0 <= remaining <= credit p1 -> 0 <= credit p0 -> at_ < deadline p1 -> wall_expired (Some now) p1 = false ->
  (drain_all at_ remaining (Some now) [p0; p1]).1 = remaining /\
  exists p0' p1', (drain_all at_ remaining (Some now) [p0; p1]).2 = [p0'; p1'] /\ 0 <= credit p0' /\
    credit p1 - remaining <= credit p1' /\ deadline p1' = deadline p1 /\ expires_at p1' = expires_at p1.
Proof.
  intros Hr H0 Hd Hw. cbn [drain_all].
  pose proof (drain_pool_spec at_ remaining (Some now) p0 ltac:(lia) H0) as (Ht & Hc & _).
  destruct (drain_pool at_ remaining (Some now) p0) as [t p0']. cbn [fst snd] in *.
  unfold drain_pool. rewrite Hw. destruct (Z.eqb_spec (credit p1) 0) as [E|E]; cbn [fst snd].
  - split; [lia|]. exists p0', p1. repeat split; auto; lia.
  - rewrite orb_false_r. destruct (Z.leb_spec (deadline p1) at_); [lia|]. cbn [fst snd]. split; [lia|].
    eexists _, _. repeat split; auto; cbn; lia.
Qed.

(** *** The ring *)

Lemma push_loss_snapshot_spec span c :
  counters_ok span c ->
  exists c', push_loss_snapshot c = Some c' /\ counters_ok span c' /\
    curr_lost c' = curr_lost c /\ curr_sent c' = curr_sent c /\ advancing_samples c' = advancing_samples c /\
    outage_pools c' = outage_pools c /\ blackout_run c' = blackout_run c /\ seen c' = seen c /\
    last_sample_at c' = last_sample_at c /\
    (forall sn, sn ∈ live_snapshots c' ->
       sn ∈ live_snapshots c \/ sn = mkLossSnapshot (curr_lost c) (curr_sent c) (advancing_samples c)).
Proof.
  intros [? ? ? ? Hring Hhead Hlen Hfill Hlive ? ? ?]. unfold push_loss_snapshot.
  destruct (lookup_lt_is_Some_2 (loss_snapshots c) (loss_snapshot_head c)) as [x Hx]; [lia|].
  rewrite Hx. cbn [mbind option_bind mret option_ret].
  assert (Hsub : forall sn, sn ∈ take (if (loss_snapshot_len c <? SNAPSHOTS)%nat then (loss_snapshot_len c + 1)%nat else loss_snapshot_len c)
     (<[loss_snapshot_head c := mkLossSnapshot (curr_lost c) (curr_sent c) (advancing_samples c)]> (loss_snapshots c)) ->
     sn ∈ live_snapshots c \/ sn = mkLossSnapshot (curr_lost c) (curr_sent c) (advancing_samples c)).
  { intros sn [i Hi]%list_elem_of_lookup. apply lookup_take_Some in Hi as [Hi Hlt].
    destruct (decide (i = loss_snapshot_head c)) as [->|Hne].
    - rewrite list_lookup_insert_eq in Hi by lia. injection Hi as <-. by right.
    - rewrite list_lookup_insert_ne in Hi by done. left. apply list_elem_of_lookup. exists i.
      apply lookup_take_Some. split; [done|].
      destruct (Nat.ltb_spec (loss_snapshot_len c) SNAPSHOTS) as [Hs|Hs]; [|done]. specialize (Hfill Hs). lia. }
  eexists. split; [reflexivity|]. split; [|by repeat split].
  split; try done; cbn [set_ring loss_snapshots loss_snapshot_head loss_snapshot_len].
  - by rewrite length_insert.
  - apply Nat.mod_upper_bound. done.
  - destruct (Nat.ltb_spec (loss_snapshot_len c) SNAPSHOTS); lia.
  - destruct (Nat.ltb_spec (loss_snapshot_len c) SNAPSHOTS) as [Hs|Hs]; [|lia].
    specialize (Hfill Hs). intros. rewrite Nat.mod_small; lia.
  - apply Forall_forall. intros sn Hsn. destruct (Hsub sn Hsn) as [Hin| ->].
    + rewrite Forall_forall in Hlive. destruct (Hlive sn Hin). by split.
    + split; cbn; width_lia.
Qed.

Lemma map_snapshots_spec span f c :
  counters_ok span c -> (forall sn, sn ∈ live_snapshots c -> snapshot_ok c (f sn)) ->
  exists c', map_snapshots f c = Some c' /\ counters_ok span c' /\ live_snapshots c' = map f (live_snapshots c) /\
    c' = set_ring c (loss_snapshots c') (loss_snapshot_head c) (loss_snapshot_len c).
Proof.
  intros [? ? ? ? Hring Hhead Hlen Hfill Hlive ? ? ?] Hf. unfold map_snapshots.
  destruct (Nat.leb_spec (loss_snapshot_len c) (length (loss_snapshots c))); [|lia].
  assert (Hlv : take (loss_snapshot_len c) (map f (take (loss_snapshot_len c) (loss_snapshots c)) ++
    drop (loss_snapshot_len c) (loss_snapshots c)) = map f (live_snapshots c)).
  { rewrite take_app_length'; [done|]. rewrite length_map, length_take. lia. }
  eexists. split; [reflexivity|]. split; [|done].
  split; try done; unfold live_snapshots; cbn [set_ring loss_snapshots loss_snapshot_len].
  - rewrite length_app, length_map, length_take, length_drop. lia.
  - rewrite Hlv. apply Forall_map, Forall_forall. intros sn Hsn. destruct (Hf sn Hsn). by split.
Qed.

Lemma set_pools_ok span c ps :
  counters_ok span c -> length ps = 2%nat -> Forall (fun p => 0 <= credit p) ps -> counters_ok span (set_pools c ps).
Proof. intros [? ? ? ? ? ? ? ? Hl ? ? ?] ? ?. split; try done. eapply Forall_impl; [exact Hl|]. intros sn []. by split. Qed.

Lemma stamp_sample_ok span c now : counters_ok span c -> counters_ok span (stamp_sample c now).
Proof. intros [? ? ? ? ? ? ? ? Hl ? ? ?]. split; try done. eapply Forall_impl; [exact Hl|]. intros sn []. by split. Qed.

Lemma drain_pools_ok span c declared wall :
  counters_ok span c -> 0 <= declared ->
  counters_ok span (drain_pools c declared wall).2 /\ 0 <= (drain_pools c declared wall).1 <= declared /\
  (drain_pools c declared wall).1 + total_credit (drain_pools c declared wall).2 <= total_credit c.
Proof.
  intros Hc Hd. unfold drain_pools, total_credit. cbn [fst snd set_pools outage_pools].
  destruct (drain_all_spec (advancing_samples c) wall (outage_pools c) declared Hd (co_credit _ _ Hc)) as (? & ? & Hl & ?).
  split; [|done]. apply set_pools_ok; [done| |done]. rewrite Hl. apply Hc.
Qed.

Lemma advance_endpoint_spec span c lost sent run :
  counters_ok span c -> curr_lost c <= lost -> curr_sent c <= sent -> is_u64 lost -> is_u64 sent -> is_u32 run ->
  exists c', advance_endpoint c lost sent run span = Some c' /\ counters_ok span c' /\
    curr_lost c' = lost /\ curr_sent c' = sent /\ live_snapshots c' = live_snapshots c /\
    advancing_samples c' = saturating_add u32_max (advancing_samples c) 1 /\ blackout_run c' = run /\
    outage_pools c' = outage_pools c /\ last_sample_at c' = last_sample_at c /\ seen c' = seen c.
Proof.
  intros [? ? Hsa ? ? ? ? ? Hlive (E & a & Hw & Ha & HE) ? ?] Hl Hs Hul Hus Hr. unfold advance_endpoint.
  cbn [set_endpoint blackout_runs advancing_samples].
  set (at_ := saturating_add u32_max (advancing_samples c) 1).
  assert (Hat : advancing_samples c <= at_ <= u32_max) by (subst at_; width_lia).
  destruct (bucket_observe_inv BLACKOUT_RUN_BUCKETS ltac:(unfold BLACKOUT_RUN_BUCKETS; lia) span (blackout_runs c) E a at_ run
              Hw ltac:(lia) ltac:(lia) ltac:(width_lia) HE) as (w' & -> & Hw' & _).
  cbn [mbind option_bind mret option_ret]. eexists. split; [reflexivity|].
  split; [|by repeat split]. split; try done; cbn [count_sample set_endpoint advancing_samples blackout_runs].
  - width_lia.
  - eapply Forall_impl; [exact Hlive|]. intros sn []. split; cbn; [lia|lia|].
    fold at_. lia.
  - eexists _, _. split; [exact Hw'|]. fold at_. split; [lia|].
    intros e x [[= -> ->]|Hin]%elem_of_cons; [lia|]. specialize (HE e x Hin). lia.
Qed.

(** ** Runs of samples *)

(** A sample: cumulative lost and sent counters and its arrival. *)
Definition Sample : Type := (Z * Z * Z)%type.

Definition sample_ok (x : Sample) : Prop := is_u64 x.1.1 /\ is_u64 x.1.2.

Section runs.
Context (interval span : Z).

Definition accept (c : Counters) (x : Sample) : option (CounterUpdate * Counters) :=
  update_counters c x.1.1 x.1.2 interval span x.2.

Fixpoint accept_all (c : Counters) (xs : list Sample) : option (list CounterUpdate * Counters) :=
  match xs with
  | [] => Some ([], c)
  | x :: xs =>
      '(u, c1) ← accept c x;
      '(us, c2) ← accept_all c1 xs;
      mret (u :: us, c2)
  end.

(** The losses a sample hides from the windows, and the sends of the gap it
    closes. *)
Definition hidden (c : Counters) (u : CounterUpdate) (x : Sample) : Z :=
  match u with
  | Advanced | LossAdvanced => (absorb_outage_losses c (x.1.1 - curr_lost c) x.2).1
  | OutageRebaselined => (drain_pools c (x.1.1 - curr_lost c) None).1
  | _ => 0
  end.
Definition gap_sends (c : Counters) (u : CounterUpdate) (x : Sample) : Z :=
  match u with OutageRebaselined => x.1.2 - curr_sent c | _ => 0 end.

(** What one accepted sample does to the counters. *)
Record accepted (c : Counters) (x : Sample) (u : CounterUpdate) (c' : Counters) : Prop := {
  ac_ok : counters_ok span c';
  ac_credit : hidden c u x + total_credit c' <= total_credit c + gap_sends c u x;
  ac_seen : seen c' = true;
  ac_inert : u = Stale \/ u = NonAdvancing -> c' = c;
  ac_taken : u <> Stale -> curr_lost c' = x.1.1 /\ curr_sent c' = x.1.2;
  ac_gap : u = OutageRebaselined ->
    live_snapshots c' = [mkLossSnapshot (curr_lost c') (curr_sent c') (advancing_samples c')] /\ blackout_run c' = 0;
  ac_weather : u = Advanced -> forall sn', sn' ∈ live_snapshots c' ->
    sn' = mkLossSnapshot (curr_lost c') (curr_sent c') (advancing_samples c') \/
    exists sn, sn ∈ live_snapshots c /\ sn_sent sn' = sn_sent sn /\ at_sample sn' = at_sample sn /\
      curr_lost c' - sn_lost sn' = curr_lost c - sn_lost sn + (curr_lost c' - curr_lost c - hidden c u x);
  ac_refine : u = LossAdvanced -> forall sn', sn' ∈ live_snapshots c' ->
    exists sn, sn ∈ live_snapshots c /\ sn_sent sn' = sn_sent sn /\ at_sample sn' = at_sample sn /\
      curr_lost c' - sn_lost sn' = (if sn_sent sn =? curr_sent c then 0
        else curr_lost c - sn_lost sn + (curr_lost c' - curr_lost c - hidden c u x));
  ac_pools : u = Advanced \/ u = LossAdvanced ->
    outage_pools c' = outage_pools (absorb_outage_losses c (x.1.1 - curr_lost c) x.2).2;
  ac_run : u = Advanced -> curr_lost c' - curr_lost c - hidden c u x < curr_sent c' - curr_sent c -> blackout_run c' = 0;
  ac_run_kept : u = LossAdvanced -> blackout_run c' = blackout_run c;
  ac_samples : advancing_samples c' =
    match u with
    | Advanced | OutageRebaselined => saturating_add u32_max (advancing_samples c) 1
    | _ => advancing_samples c
    end;
  ac_mono : u = Advanced \/ u = LossAdvanced -> curr_lost c <= x.1.1;
  ac_moves : u = Advanced -> curr_sent c < x.1.2;
}.

(** Draining changes only the pools, and reads only them and the sample
    clock. *)
Lemma absorb_ok c declared now :
  counters_ok span c -> 0 <= declared ->
  exists ps, absorb_outage_losses c declared now = ((absorb_outage_losses c declared now).1, set_pools c ps) /\
    counters_ok span (set_pools c ps) /\ 0 <= (absorb_outage_losses c declared now).1 <= declared /\
    (absorb_outage_losses c declared now).1 + sumz credit ps <= total_credit c.
Proof.
  intros Hok Hd. destruct (drain_pools_ok span c declared (Some now) Hok Hd) as (? & ? & ?).
  by exists (outage_pools (drain_pools c declared (Some now)).2).
Qed.

Lemma accept_baseline c x :
  counters_ok span c -> sample_ok x -> seen c = false -> loss_snapshot_len c = 0%nat ->
  exists c', accept c x = Some (Baseline, c') /\ accepted c x Baseline c'.
Proof.
  intros Hok [Hx1 Hx2] Hs Hlen. unfold accept, update_counters. rewrite Hs. cbn [negb].
  set (c1 := stamp_sample (mark_seen (set_endpoint c x.1.1 x.1.2)) x.2).
  assert (Hc1 : counters_ok span c1).
  { destruct Hok as [? ? ? ? ? ? ? ? Hlive ? ? ?]. split; try done.
    unfold live_snapshots. cbn. rewrite Hlen. apply Forall_nil_2. }
  destruct (push_loss_snapshot_spec span c1 Hc1) as (c' & -> & Hok' & El & Es & Ea & Ep & Er & Esn & Et & Hsn).
  cbn [mbind option_bind mret option_ret]. eexists. split; [reflexivity|].
  split; try done; try (by intros [?|?]).
  unfold total_credit. cbn [hidden gap_sends]. rewrite Ep. cbn. lia.
Qed.

(** Moving a live snapshot up by what was absorbed keeps it below the new
    endpoint, at exactly the priced distance. *)
Lemma add_lost_ok c sn absorbed lost :
  snapshot_ok c sn -> is_u64 lost -> 0 <= absorbed <= lost - curr_lost c ->
  0 <= sn_lost (add_lost absorbed sn) <= lost /\
  lost - sn_lost (add_lost absorbed sn) = curr_lost c - sn_lost sn + (lost - curr_lost c - absorbed).
Proof. intros [Hl _ _] Hu Ha. unfold add_lost. cbn. width_lia. Qed.

Lemma accept_refine c x :
  counters_ok span c -> sample_ok x -> seen c = true -> x.1.2 = curr_sent c -> curr_lost c < x.1.1 ->
  exists c', refine_endpoint c x.1.1 x.2 = Some (LossAdvanced, c') /\ accepted c x LossAdvanced c'.
Proof.
  intros Hok [Hx1 Hx2] Hs Es Hlt. unfold refine_endpoint.
  destruct (absorb_ok _ (x.1.1 - curr_lost c) x.2 (stamp_sample_ok span c x.2 Hok) ltac:(lia)) as (ps & Eabs & Hc1 & Hab & Hcr).
  assert (Hps : outage_pools (absorb_outage_losses c (x.1.1 - curr_lost c) x.2).2 = ps).
  { by pose proof (f_equal (fun r => outage_pools r.2) Eabs). }
  rewrite Eabs. change (absorb_outage_losses (stamp_sample c x.2) (x.1.1 - curr_lost c) x.2).1 with (hidden c LossAdvanced x) in *.
  clear Eabs. set (absorbed := hidden c LossAdvanced x) in *.
  set (c2 := set_endpoint _ _ _).
  assert (Hc2 : counters_ok span c2).
  { destruct Hc1 as [? ? ? ? ? ? ? ? Hl ? ? ?]. split; try done.
    eapply Forall_impl; [exact Hl|]. intros sn [? ? ?]. split; cbn in *; lia. }
  pose proof (co_live _ _ Hok) as Hlive. rewrite Forall_forall in Hlive.
  destruct (map_snapshots_spec span (refine x.1.1 (curr_sent c2) absorbed) c2 Hc2) as (c' & -> & Hok' & Hl' & Hc').
  { intros sn Hsn. pose proof (add_lost_ok c sn absorbed x.1.1 (Hlive sn Hsn) Hx1 Hab) as [? _].
    destruct (Hlive sn Hsn). unfold refine. destruct (Z.eqb_spec (sn_sent sn) (curr_sent c2)); split; cbn in *; width_lia. }
  cbn [mbind option_bind mret option_ret]. eexists. split; [reflexivity|].
  split; try done.
  - rewrite Hc'. unfold total_credit in *. fold absorbed. cbn in *. lia.
  - rewrite Hc'. done.
  - by intros [?|?].
  - rewrite Hc'. cbn. by rewrite Es.
  - intros _ sn' Hin. rewrite Hl' in Hin. apply list_elem_of_fmap in Hin as (sn & -> & Hsn).
    exists sn. split; [done|]. unfold refine. rewrite Hc'. cbn [set_ring curr_lost c2 set_endpoint curr_sent set_pools stamp_sample].
    destruct (Z.eqb_spec (sn_sent sn) (curr_sent c)); cbn [sn_sent at_sample sn_lost]; [split; [done|]; split; [done|]; lia|].
    split; [done|]. split; [done|]. apply (add_lost_ok c sn absorbed x.1.1 (Hlive sn Hsn) Hx1 Hab).
  - intros _. rewrite Hc', Hps. done.
  - rewrite Hc'. done.
  - rewrite Hc'. done.
  - intros _. lia.
Qed.


Lemma map_snapshots_endpoint f c lost sent :
  map_snapshots f (set_endpoint c lost sent) = (fun c2 => set_endpoint c2 lost sent) <$> map_snapshots f c.
Proof. unfold map_snapshots. cbn [set_endpoint loss_snapshots loss_snapshot_len]. by destruct (_ <=? _)%nat. Qed.

(** The whole flowing step from the moved endpoint on. *)
Lemma weather_tail c2 lost sent run :
  counters_ok span (set_endpoint c2 lost sent) -> is_u32 run ->
  exists c3 c4, advance_endpoint c2 lost sent run span = Some c3 /\
    (if is_multiple_of (advancing_samples c3) interval then push_loss_snapshot c3 else Some c3) = Some c4 /\
    counters_ok span c4 /\ curr_lost c4 = lost /\ curr_sent c4 = sent /\ blackout_run c4 = run /\
    outage_pools c4 = outage_pools c2 /\ seen c4 = seen c2 /\ last_sample_at c4 = last_sample_at c2 /\
    advancing_samples c4 = saturating_add u32_max (advancing_samples c2) 1 /\
    (forall sn, sn ∈ live_snapshots c4 ->
       sn ∈ live_snapshots c2 \/ sn = mkLossSnapshot lost sent (advancing_samples c4)).
Proof.
  intros Hok Hr. pose proof (co_lost _ _ Hok) as Hl. pose proof (co_sent _ _ Hok) as Hs. cbn in Hl, Hs.
  destruct (advance_endpoint_spec span _ lost sent run Hok ltac:(cbn; lia) ltac:(cbn; lia) Hl Hs Hr)
    as (c3 & E3 & Hok3 & L3 & S3 & V3 & A3 & R3 & P3 & T3 & N3).
  exists c3. change (advance_endpoint c2 lost sent run span = Some c3) in E3.
  destruct (is_multiple_of (advancing_samples c3) interval).
  - destruct (push_loss_snapshot_spec span c3 Hok3) as (c4 & E4 & Hok4 & L4 & S4 & A4 & P4 & R4 & N4 & T4 & V4).
    exists c4. rewrite L4, S4, R4, P4, N4, T4, A4, L3, S3, R3, P3, N3, T3, A3. split_and!; try done.
    intros sn [Hin| ->]%V4; [left; by rewrite V3 in Hin|right]. by rewrite L3, S3, A3.
  - exists c3. rewrite A3. split_and!; try done. intros sn Hin. left. by rewrite V3 in Hin.
Qed.

Lemma accept_weather c x :
  counters_ok span c -> sample_ok x -> seen c = true -> curr_sent c < x.1.2 -> curr_lost c <= x.1.1 ->
  exists c', advance_weather (stamp_sample c x.2) x.1.1 x.1.2 interval span x.2 = Some (Advanced, c') /\
    accepted c x Advanced c'.
Proof.
  intros Hok [Hx1 Hx2] Hs Hss Hll. unfold advance_weather. cbn [curr_lost curr_sent stamp_sample].
  replace (saturating_sub x.1.1 (curr_lost c)) with (x.1.1 - curr_lost c) by width_lia.
  destruct (absorb_ok _ (x.1.1 - curr_lost c) x.2 (stamp_sample_ok span c x.2 Hok) ltac:(lia)) as (ps & Eabs & Hc1 & Hab & Hcr).
  assert (Hps : outage_pools (absorb_outage_losses c (x.1.1 - curr_lost c) x.2).2 = ps).
  { by pose proof (f_equal (fun r => outage_pools r.2) Eabs). }
  rewrite Eabs.
  change (absorb_outage_losses (stamp_sample c x.2) (x.1.1 - curr_lost c) x.2).1 with (hidden c Advanced x) in *.
  clear Eabs. set (absorbed := hidden c Advanced x) in *. set (c1 := set_pools _ ps) in *. cbn [fst snd] in *.
  pose proof (co_live _ _ Hok) as Hlive. rewrite Forall_forall in Hlive.
  assert (He : counters_ok span (set_endpoint c1 x.1.1 x.1.2)).
  { destruct Hc1 as [? ? ? ? ? ? ? ? Hl ? ? ?]. split; try done.
    eapply Forall_impl; [exact Hl|]. intros sn [? ? ?]. split; cbn in *; lia. }
  assert (Hhide : exists c2, (if 0 <? absorbed then map_snapshots (add_lost absorbed) c1 else Some c1) = Some c2 /\
    counters_ok span (set_endpoint c2 x.1.1 x.1.2) /\ live_snapshots c2 = map (add_lost absorbed) (live_snapshots c) /\
    c2 = set_ring c1 (loss_snapshots c2) (loss_snapshot_head c1) (loss_snapshot_len c1)).
  { destruct (Z.ltb_spec 0 absorbed).
    - destruct (map_snapshots_spec span (add_lost absorbed) _ He) as (e & Ee & Hoke & Hle & Hre).
      { intros sn Hsn. pose proof (add_lost_ok c sn absorbed x.1.1 (Hlive sn Hsn) Hx1 Hab) as [? _].
        destruct (Hlive sn Hsn). split; cbn in *; lia. }
      rewrite map_snapshots_endpoint in Ee. destruct (map_snapshots (add_lost absorbed) c1) as [c2|] eqn:E2; [|done].
      injection Ee as <-. exists c2. split; [done|]. split; [done|]. split; [exact Hle|].
      unfold map_snapshots in E2. destruct (_ <=? _)%nat; [|done]. by injection E2 as <-.
    - exists c1. split; [done|]. split; [done|]. split; [|done]. symmetry. apply list_eq_Forall2, Forall2_fmap_l.
      apply Forall_Forall2_diag, Forall_forall. intros sn Hsn. destruct (Hlive sn Hsn).
      replace absorbed with 0 by lia. pose proof (co_lost _ _ Hok). unfold compose, add_lost. destruct sn. cbn in *.
      f_equal. width_lia. }
  destruct Hhide as (c2 & -> & Hok2 & Hl2 & E2). cbn [mbind option_bind].
  set (run := if _ <=? _ then _ else 0).
  assert (Hrun : is_u32 run).
  { subst run. pose proof (co_run _ _ Hok2). cbn in *. zcase; width_lia. }
  destruct (weather_tail c2 x.1.1 x.1.2 run Hok2 Hrun) as (c3 & c4 & -> & E4 & Hok4 & L4 & S4 & R4 & P4 & N4 & T4 & A4 & V4).
  cbn [mbind option_bind]. rewrite E4. cbn [mbind option_bind mret option_ret].
  exists c4. split; [done|]. split; try done; try (by intros [?|?]).
  - unfold total_credit in *. rewrite P4, E2. fold absorbed. cbn in *. lia.
  - rewrite N4, E2. done.
  - intros _ sn' [Hin| ->]%V4; [right|left; by rewrite L4, S4].
    rewrite Hl2 in Hin. apply list_elem_of_fmap in Hin as (sn & -> & Hsn). exists sn.
    split; [done|]. split; [done|]. split; [done|]. rewrite L4.
    apply (add_lost_ok c sn absorbed x.1.1 (Hlive sn Hsn) Hx1 Hab).
  - intros _. by rewrite P4, E2, Hps.
  - intros _ Hb. rewrite L4, S4 in Hb. rewrite R4. subst run. fold absorbed in Hb.
    destruct (Z.leb_spec (x.1.2 - curr_sent c) (x.1.1 - curr_lost c - absorbed)); [lia|done].
  - rewrite A4, E2. done.
Qed.

Lemma expire_wall_credit now ps :
  Forall (fun p => 0 <= credit p) ps ->
  Forall (fun p => 0 <= credit p) (map (expire_wall now) ps) /\ sumz credit (map (expire_wall now) ps) <= sumz credit ps.
Proof.
  induction 1 as [|p ps Hp _ IH]; cbn; [split; [done|lia]|]. destruct IH as [IHf IHs].
  assert (0 <= credit (expire_wall now p) <= credit p).
  { unfold expire_wall. destruct (expires_at p); [zcase|]; cbn; lia. }
  split; [constructor; [lia|done]|lia].
Qed.

Lemma bank_spec ps fresh at_ now :
  length ps = 2%nat -> Forall (fun p => 0 <= credit p) ps -> 0 <= fresh ->
  exists ps', bank ps fresh at_ now = Some ps' /\ length ps' = 2%nat /\ Forall (fun p => 0 <= credit p) ps' /\
    sumz credit ps' <= sumz credit ps + fresh /\
    (0 < fresh -> exists p0, ps' = [p0; mkOutagePool fresh (saturating_add u32_max at_ OUTAGE_LOSS_RESOLUTION_SAMPLES)
                                         (Some (now + OUTAGE_LOSS_RESOLUTION_MAX_AGE))]).
Proof.
  intros Hl Hc Hf. destruct ps as [|p0 [|p1 [|]]]; try done. unfold bank.
  apply Forall_cons in Hc as [H0 [H1 _]%Forall_cons].
  destruct (Z.ltb_spec 0 fresh).
  - cbn [mbind option_bind mret option_ret lookup list_lookup]. eexists. split; [reflexivity|]. split; [done|].
    destruct (Z.ltb_spec 0 (credit p1)); (split; [repeat (constructor; cbn; [lia|]); constructor|]);
      (split; [cbn; lia|]; intros; by eexists).
  - exists [p0; p1]. split; [done|]. split; [done|]. split; [by repeat constructor|]. split; lia.
Qed.

Lemma accept_gap c x :
  counters_ok span c -> sample_ok x -> seen c = true -> curr_sent c < x.1.2 -> curr_lost c <= x.1.1 ->
  exists c', rebaseline_after_outage (stamp_sample c x.2) x.1.1 x.1.2 span x.2 = Some (OutageRebaselined, c') /\
    accepted c x OutageRebaselined c' /\
    let fresh := saturating_sub (x.1.2 - curr_sent c) (x.1.1 - curr_lost c - hidden c OutageRebaselined x) in
    0 < fresh -> exists p0, 0 <= credit p0 /\ outage_pools c' =
      [p0; mkOutagePool fresh (saturating_add u32_max (advancing_samples c') OUTAGE_LOSS_RESOLUTION_SAMPLES)
             (Some (x.2 + OUTAGE_LOSS_RESOLUTION_MAX_AGE))].
Proof.
  intros Hok [Hx1 Hx2] Hs Hss Hll. unfold rebaseline_after_outage. cbn [curr_lost curr_sent stamp_sample].
  replace (saturating_sub x.1.1 (curr_lost c)) with (x.1.1 - curr_lost c) by width_lia.
  pose proof (drain_pools_ok span (stamp_sample c x.2) (x.1.1 - curr_lost c) None (stamp_sample_ok span c x.2 Hok) ltac:(lia))
    as (Hc1 & Hab & Hcr).
  change (drain_pools (stamp_sample c x.2) (x.1.1 - curr_lost c) None).1 with (hidden c OutageRebaselined x) in *.
  replace (drain_pools (stamp_sample c x.2) (x.1.1 - curr_lost c) None) with
    (hidden c OutageRebaselined x, (drain_pools (stamp_sample c x.2) (x.1.1 - curr_lost c) None).2) by done.
  assert (F1 : (drain_pools (stamp_sample c x.2) (x.1.1 - curr_lost c) None).2 =
    set_pools (stamp_sample c x.2) (outage_pools (drain_pools (stamp_sample c x.2) (x.1.1 - curr_lost c) None).2)) by done.
  set (c1 := (drain_pools (stamp_sample c x.2) (x.1.1 - curr_lost c) None).2) in *. cbn [fst snd] in *.
  set (consumed := hidden c OutageRebaselined x) in *. set (fresh := saturating_sub _ _).
  destruct (expire_wall_credit x.2 (outage_pools c1) (co_credit _ _ Hc1)) as [Hec Hes].
  assert (Hc2 : counters_ok span (set_pools c1 (map (expire_wall x.2) (outage_pools c1)))).
  { apply set_pools_ok; [done| |done]. rewrite length_map. apply Hc1. }
  set (c2 := set_pools c1 _) in *.
  destruct (advance_endpoint_spec span c2 x.1.1 x.1.2 0 Hc2 Hll ltac:(cbn; lia) Hx1 Hx2 ltac:(width_lia))
    as (c3 & -> & Hok3 & L3 & S3 & _ & A3 & R3 & P3 & T3 & N3). cbn [mbind option_bind].
  assert (Hc3 : counters_ok span (set_ring c3 empty_snapshots 0 0)).
  { destruct Hok3. split; try done; unfold live_snapshots; cbn; try lia; auto. }
  destruct (push_loss_snapshot_spec span _ Hc3) as (c4 & E4 & Hok4 & L4 & S4 & A4 & P4 & R4 & N4 & T4 & _).
  pose proof E4 as E4'. unfold push_loss_snapshot in E4'. cbn [set_ring loss_snapshots loss_snapshot_head mbind option_bind] in E4'.
  rewrite E4. cbn [mbind option_bind].
  destruct (bank_spec (outage_pools c4) fresh (advancing_samples c4) x.2 (co_pools _ _ Hok4) (co_credit _ _ Hok4) ltac:(subst fresh; width_lia))
    as (ps & -> & Hpl & Hpc & Hps & Hbank).
  cbn [mbind option_bind mret option_ret]. eexists. split; [reflexivity|].
  cbn in L4, S4, A4, P4, R4, N4, T4. split.
  - split; try done.
    + by apply set_pools_ok.
    + unfold total_credit in *. fold consumed. cbn [set_pools outage_pools gap_sends] in *. rewrite P4, P3 in Hps.
      subst fresh c2. cbn [set_pools outage_pools] in *. unfold saturating_sub in *. cbn [stamp_sample outage_pools] in Hcr. lia.
    + cbn. by rewrite N4, N3.
    + by intros [?|?].
    + intros _. cbn. by rewrite L4, S4, L3, S3.
    + intros _. split; [|cbn; by rewrite R4, R3]. injection E4' as <-. done.
    + by intros [?|?].
    + cbn. by rewrite A4, A3.
  - intros Hf. destruct (Hbank Hf) as [p0 ->]. exists p0. apply Forall_cons in Hpc as [? _]. cbn. by rewrite A4.
Qed.


(** A slot that has seen no sample has no snapshots. *)
Definition fresh_ok (c : Counters) : Prop := seen c = false -> loss_snapshot_len c = 0%nat.

(** Every sample of the counters' width is accepted: no index is out of range,
    and the step is one of the six outcomes. *)
Lemma accept_sample_spec c x :
  counters_ok span c -> fresh_ok c -> sample_ok x ->
  exists u c', accept c x = Some (u, c') /\ accepted c x u c' /\
    (u = Advanced \/ u = OutageRebaselined <-> seen c = true /\ curr_lost c <= x.1.1 /\ curr_sent c < x.1.2) /\
    (u = OutageRebaselined -> gap_closed c x.2 = true).
Proof.
  intros Hok Hf Hx. destruct (seen c) eqn:Hs.
  2:{ destruct (accept_baseline c x Hok Hx Hs (Hf Hs)) as (c' & E & Ha). exists Baseline, c'.
      split; [done|]. split; [done|]. split; [|done]. split; [by intros [?|?]|by intros [? _]]. }
  unfold accept, update_counters. rewrite Hs. cbn [negb].
  assert (Hin : forall u, (u = Stale \/ u = NonAdvancing) -> (u = NonAdvancing -> curr_lost c = x.1.1 /\ curr_sent c = x.1.2) ->
    accepted c x u c).
  { intros u Hu Hna. split; try done; try (by intros ->; destruct Hu); try (by intros [-> | ->]; destruct Hu);
      try (by destruct Hu as [-> | ->]).
    - destruct Hu as [-> | ->]; cbn; lia.
    - intros Hn. destruct Hu as [-> | ->]; [done|auto]. }
  destruct (Z.ltb_spec x.1.2 (curr_sent c)) as [Hls|Hls]; cbn [orb].
  { exists Stale, c. split; [done|]. split; [apply Hin; auto; done|]. split; [|done]. split; [by intros [?|?]|intros (_ & ? & ?); lia]. }
  destruct (Z.ltb_spec x.1.1 (curr_lost c)) as [Hll|Hll]; cbn [orb].
  { exists Stale, c. split; [done|]. split; [apply Hin; auto; done|]. split; [|done]. split; [by intros [?|?]|intros (_ & ? & ?); lia]. }
  destruct (Z.eqb_spec x.1.2 (curr_sent c)) as [Es|Es].
  - destruct (Z.ltb_spec (curr_lost c) x.1.1) as [Hlt|Hge].
    + destruct (accept_refine c x Hok Hx Hs Es Hlt) as (c' & E & Ha). exists LossAdvanced, c'.
      split; [done|]. split; [done|]. split; [|done]. split; [by intros [?|?]|intros (_ & ? & ?); lia].
    + exists NonAdvancing, c. split; [done|]. split; [apply Hin; [auto|intros _; lia]|].
      split; [|done]. split; [by intros [?|?]|intros (_ & ? & ?); lia].
  - destruct (gap_closed c x.2) eqn:Hg.
    + destruct (accept_gap c x Hok Hx Hs ltac:(lia) Hll) as (c' & E & Ha & _). exists OutageRebaselined, c'.
      split; [done|]. split; [done|]. split; [|done]. split; [|by right]. intros _. split; [done|lia].
    + destruct (accept_weather c x Hok Hx Hs ltac:(lia) Hll) as (c' & E & Ha). exists Advanced, c'.
      split; [done|]. split; [done|]. split; [|done]. split; [|by left]. intros _. split; [done|lia].
Qed.

Lemma accept_all_ok c xs :
  counters_ok span c -> fresh_ok c -> Forall sample_ok xs ->
  exists us c', accept_all c xs = Some (us, c') /\ counters_ok span c' /\ fresh_ok c'.
Proof.
  revert c. induction xs as [|x xs IH]; intros c Hok Hf Hxs; cbn [accept_all]; [by exists [], c|].
  apply Forall_cons in Hxs as [Hx Hxs].
  destruct (accept_sample_spec c x Hok Hf Hx) as (u & c1 & -> & Ha & _). cbn [mbind option_bind].
  destruct (IH c1 (ac_ok _ _ _ _ Ha)) as (us & c' & -> & Hok' & Hf'); [|done|].
  { intros Hn. by rewrite (ac_seen _ _ _ _ Ha) in Hn. }
  cbn [mbind option_bind mret option_ret]. by exists (u :: us), c'.
Qed.

(** The hidden losses and the gap sends of a whole run. *)
Fixpoint tally (c : Counters) (xs : list Sample) : Z * Z :=
  match xs with
  | [] => (0, 0)
  | x :: xs =>
      match accept c x with
      | None => (0, 0)
      | Some (u, c1) => (hidden c u x + (tally c1 xs).1, gap_sends c u x + (tally c1 xs).2)
      end
  end.

Lemma tally_bound c xs :
  counters_ok span c -> fresh_ok c -> Forall sample_ok xs -> (tally c xs).1 <= total_credit c + (tally c xs).2.
Proof.
  revert c. induction xs as [|x xs IH]; intros c Hok Hf Hxs; cbn [tally].
  { cbn. pose proof (co_credit _ _ Hok) as Hc. rewrite Forall_forall in Hc.
    pose proof (sumz_nonneg credit (outage_pools c) Hc). unfold total_credit. lia. }
  apply Forall_cons in Hxs as [Hx Hxs].
  destruct (accept_sample_spec c x Hok Hf Hx) as (u & c1 & -> & Ha & _). cbn [fst snd].
  assert (fresh_ok c1) by (intros Hn; by rewrite (ac_seen _ _ _ _ Ha) in Hn).
  specialize (IH c1 (ac_ok _ _ _ _ Ha) H Hxs). pose proof (ac_credit _ _ _ _ Ha). lia.
Qed.

(** ** After a gap *)

(** [credit] of the newest generation covers everything declared since the
    gap, it is still open for [n] more advancing samples, and no window shows
    any loss. *)
Record covered (c : Counters) (lost0 fresh expiry : Z) (n : nat) : Prop := {
  cv_clean : Forall (fun sn => sn_lost sn = curr_lost c) (live_snapshots c);
  cv_run : blackout_run c = 0;
  cv_pool : exists p0 p1, outage_pools c = [p0; p1] /\ fresh - (curr_lost c - lost0) <= credit p1 /\
    advancing_samples c + Z.of_nat n <= deadline p1 /\ expires_at p1 = Some expiry;
}.

Lemma absorb_covered c lost0 fresh expiry n (x : Sample) :
  counters_ok span c -> covered c lost0 fresh expiry (S n) ->
  curr_lost c <= x.1.1 -> x.1.1 - lost0 <= fresh -> x.2 < expiry ->
  (absorb_outage_losses c (x.1.1 - curr_lost c) x.2).1 = x.1.1 - curr_lost c /\
  exists p0 p1, outage_pools (absorb_outage_losses c (x.1.1 - curr_lost c) x.2).2 = [p0; p1] /\
    fresh - (x.1.1 - lost0) <= credit p1 /\ advancing_samples c + Z.of_nat (S n) <= deadline p1 /\
    expires_at p1 = Some expiry.
Proof.
  intros Hok [_ _ (p0 & p1 & Ep & Hc & Hd & He)] Hl Hf Ht.
  pose proof (co_credit _ _ Hok) as Hcr. rewrite Ep in Hcr. apply Forall_cons in Hcr as [H0 _].
  unfold absorb_outage_losses, drain_pools. cbn [fst snd set_pools outage_pools]. rewrite Ep.
  destruct (drain_all_covered (advancing_samples c) x.2 p0 p1 (x.1.1 - curr_lost c)) as (-> & p0' & p1' & -> & _ & Hc' & Hd' & He');
    [lia|done|lia|unfold wall_expired; rewrite He; zcase; [lia|done]|].
  split; [done|]. exists p0', p1'. rewrite Hd', He'. split; [done|]. split; [lia|]. done.
Qed.

Lemma covered_step c lost0 fresh expiry n (x : Sample) u c' :
  counters_ok span c -> covered c lost0 fresh expiry (S n) -> advancing_samples c + Z.of_nat (S n) <= u32_max ->
  accept c x = Some (u, c') -> accepted c x u c' -> u <> OutageRebaselined -> u <> Baseline ->
  x.1.1 - lost0 <= fresh -> x.2 < expiry ->
  covered c' lost0 fresh expiry n /\ advancing_samples c' + Z.of_nat n <= u32_max.
Proof.
  intros Hok Hcov Hadv Ea Ha Hgap Hbase Hf Ht. pose proof (ac_mono _ _ _ _ Ha) as Hle. pose proof (ac_moves _ _ _ _ Ha) as Hsent.
  pose proof (cv_clean _ _ _ _ _ Hcov) as Hcl. rewrite Forall_forall in Hcl.
  pose proof (ac_samples _ _ _ _ Ha) as Hs.
  assert (Hinert : u = Stale \/ u = NonAdvancing -> covered c' lost0 fresh expiry n /\ advancing_samples c' + Z.of_nat n <= u32_max).
  { intros Hu. rewrite (ac_inert _ _ _ _ Ha Hu). split; [|lia]. destruct Hcov as [? ? (p0 & p1 & ? & ? & ? & ?)].
    split; [done|done|]. exists p0, p1. repeat split; auto. lia. }
  destruct u; try done; try (apply Hinert; auto; fail).
  - destruct (absorb_covered c lost0 fresh expiry n x Hok Hcov (Hle (or_introl eq_refl)) Hf Ht) as (Hh & p0 & p1 & Ep & Hc & Hd & He).
    destruct (ac_taken _ _ _ _ Ha ltac:(done)) as [El Es]. specialize (Hsent eq_refl).
    split; [|rewrite Hs; width_lia]. split.
    + apply Forall_forall. intros sn' Hin. destruct (ac_weather _ _ _ _ Ha eq_refl sn' Hin) as [->|(sn & Hsn & _ & _ & Hw)]; [done|].
      cbn [hidden] in Hw. rewrite Hh, (Hcl sn Hsn), El in Hw. rewrite El. lia.
    + apply (ac_run _ _ _ _ Ha eq_refl). cbn [hidden]. rewrite Hh, El, Es. lia.
    + exists p0, p1. rewrite (ac_pools _ _ _ _ Ha (or_introl eq_refl)), Hs, El. repeat split; auto. width_lia.
  - destruct (absorb_covered c lost0 fresh expiry n x Hok Hcov (Hle (or_intror eq_refl)) Hf Ht) as (Hh & p0 & p1 & Ep & Hc & Hd & He).
    destruct (ac_taken _ _ _ _ Ha ltac:(done)) as [El Es].
    split; [|rewrite Hs; lia]. split.
    + apply Forall_forall. intros sn' Hin. destruct (ac_refine _ _ _ _ Ha eq_refl sn' Hin) as (sn & Hsn & _ & _ & Hw).
      cbn [hidden] in Hw. rewrite Hh, (Hcl sn Hsn), El in Hw. rewrite El. destruct (_ =? _); lia.
    + rewrite (ac_run_kept _ _ _ _ Ha eq_refl). apply Hcov.
    + exists p0, p1. rewrite (ac_pools _ _ _ _ Ha (or_intror eq_refl)), Hs, El. repeat split; auto. lia.
Qed.

Lemma accept_seen c (x : Sample) u c' : seen c = true -> accept c x = Some (u, c') -> u <> Baseline.
Proof.
  intros Hs Ea ->. unfold accept, update_counters in Ea. rewrite Hs in Ea. cbn [negb] in Ea.
  revert Ea. repeat (case_match; try done); unfold refine_endpoint, rebaseline_after_outage, advance_weather;
    repeat (case_match; try done); unfold mbind, option_bind; repeat (case_match; try done); intros [=].
Qed.

Lemma covered_run c lost0 fresh expiry xs us c' :
  counters_ok span c -> seen c = true -> covered c lost0 fresh expiry (length xs) ->
  advancing_samples c + Z.of_nat (length xs) <= u32_max -> Forall sample_ok xs ->
  Forall (fun x => x.1.1 - lost0 <= fresh /\ x.2 < expiry) xs ->
  accept_all c xs = Some (us, c') -> OutageRebaselined ∉ us ->
  covered c' lost0 fresh expiry 0.
Proof.
  revert c us. induction xs as [|x xs IH]; intros c us Hok Hs Hcov Hadv Hxs Hbnd Hrun Hno; cbn [accept_all] in Hrun.
  { by injection Hrun as <- <-. }
  apply Forall_cons in Hxs as [Hx Hxs]. apply Forall_cons in Hbnd as [[Hb1 Hb2] Hbnd].
  destruct (accept_sample_spec c x Hok ltac:(intros ?; congruence) Hx) as (u & c1 & Ea & Ha & _). rewrite Ea in Hrun.
  cbn [mbind option_bind] in Hrun. destruct (accept_all c1 xs) as [[us' c2]|] eqn:Er; [|done].
  injection Hrun as <- ->. rewrite not_elem_of_cons in Hno. destruct Hno as [Hno Hno'].
  pose proof (accept_seen c x u c1 Hs Ea) as Hbase.
  destruct (covered_step c lost0 fresh expiry (length xs) x u c1 Hok Hcov) as [Hcov1 Hadv1]; try done.
  eapply (IH c1 us'); try done; [apply Ha|apply Ha].
Qed.

End runs.

(** ** Theorems *)

(** The sends of the gap a sample closes that were not declared lost in it. *)
Definition undeclared (c : Counters) (x : Sample) : Z :=
  saturating_sub (x.1.2 - curr_sent c) (x.1.1 - curr_lost c - hidden c OutageRebaselined x).

(** A slot's counters in any history of samples: no array access is out of
    range, the ring and the pools keep their sizes, and every retained endpoint
    lies below the current one. *)
Theorem slot_counters_total (interval span : Z) (xs : list Sample) :
  Forall sample_ok xs -> exists us c, accept_all interval span default_counters xs = Some (us, c) /\ counters_ok span c.
Proof.
  intros Hxs. destruct (accept_all_ok interval span default_counters xs (default_counters_ok span)) as (us & c & E & Hok & _);
    [done|done|]. by exists us, c.
Qed.

(** The loss of every retained window grows by exactly the declared losses that
    were not matched with outage credit; a stale or repeated sample changes
    nothing; a sample that closes a gap leaves one window, which is empty. *)
Theorem loss_windows_exact (interval span : Z) (xs : list Sample) (us : list CounterUpdate) (c : Counters) (x : Sample) :
  Forall sample_ok xs -> sample_ok x -> accept_all interval span default_counters xs = Some (us, c) ->
  exists u c', accept interval span c x = Some (u, c') /\
    match u with
    | Baseline => seen c = false /\ curr_lost c' = x.1.1 /\ curr_sent c' = x.1.2
    | Stale | NonAdvancing => c' = c
    | OutageRebaselined =>
        gap_closed c x.2 = true /\
        live_snapshots c' = [mkLossSnapshot (curr_lost c') (curr_sent c') (advancing_samples c')] /\ blackout_run c' = 0
    | Advanced => forall sn', sn' ∈ live_snapshots c' ->
        sn' = mkLossSnapshot (curr_lost c') (curr_sent c') (advancing_samples c') \/
        exists sn, sn ∈ live_snapshots c /\ sn_sent sn' = sn_sent sn /\ at_sample sn' = at_sample sn /\
          curr_lost c' - sn_lost sn' = curr_lost c - sn_lost sn + (curr_lost c' - curr_lost c - hidden c u x)
    | LossAdvanced => forall sn', sn' ∈ live_snapshots c' ->
        exists sn, sn ∈ live_snapshots c /\ sn_sent sn' = sn_sent sn /\ at_sample sn' = at_sample sn /\
          curr_lost c' - sn_lost sn' = (if sn_sent sn =? curr_sent c then 0
            else curr_lost c - sn_lost sn + (curr_lost c' - curr_lost c - hidden c u x))
    end.
Proof.
  intros Hxs Hx E. destruct (accept_all_ok interval span default_counters xs (default_counters_ok span)) as (us' & c0 & E' & Hok & Hf);
    [done|done|]. rewrite E in E'. injection E' as <- <-.
  destruct (accept_sample_spec interval span c x Hok Hf Hx) as (u & c' & Ea & Ha & Hadv & Hgap). exists u, c'. split; [done|].
  destruct u.
  - destruct (ac_taken _ _ _ _ _ Ha ltac:(done)). split; [|done]. destruct (seen c) eqn:Hs; [|done].
    by destruct (accept_seen interval span c x Baseline c' Hs Ea).
  - by apply Ha.
  - split; [by apply Hgap|]. by apply Ha.
  - by apply Ha.
  - apply Ha; auto.
  - apply Ha; auto.
Qed.

(** Losses declared late for the packets of an outage gap are never priced:
    after a gap that left undeclared sends, as long as the later declarations
    stay within them and arrive within 24 samples and two seconds, no window
    shows any loss and no blackout is counted. *)
Theorem outage_losses_never_priced (interval span : Z) (before after : list Sample) (x : Sample)
    (us0 us : list CounterUpdate) (c c1 c2 : Counters) :
  Forall sample_ok before -> sample_ok x -> Forall sample_ok after ->
  accept_all interval span default_counters before = Some (us0, c) ->
  accept interval span c x = Some (OutageRebaselined, c1) ->
  accept_all interval span c1 after = Some (us, c2) ->
  0 < undeclared c x -> advancing_samples c1 + OUTAGE_LOSS_RESOLUTION_SAMPLES <= u32_max ->
  Z.of_nat (length after) <= OUTAGE_LOSS_RESOLUTION_SAMPLES -> OutageRebaselined ∉ us ->
  Forall (fun y => y.1.1 - x.1.1 <= undeclared c x /\ y.2 < x.2 + OUTAGE_LOSS_RESOLUTION_MAX_AGE) after ->
  Forall (fun sn => sn_lost sn = curr_lost c2) (live_snapshots c2) /\ blackout_run c2 = 0.
Proof.
  intros Hb Hx Ha E0 E1 E2 Hf Hadv Hlen Hno Hbnd.
  destruct (accept_all_ok interval span default_counters before (default_counters_ok span)) as (us' & c0 & E' & Hok & Hfr);
    [done|done|]. rewrite E0 in E'. injection E' as <- <-.
  destruct (accept_sample_spec interval span c x Hok Hfr Hx) as (u & c1' & Ea & Hacc & Hiff & _).
  rewrite E1 in Ea. injection Ea as <- <-. destruct (proj1 Hiff (or_intror eq_refl)) as (Hs & Hl & Hss).
  destruct (accept_gap span c x Hok Hx Hs Hss Hl) as (c1' & Eg & _ & Hpools).
  assert (c1' = c1) as ->.
  { unfold accept, update_counters in E1. rewrite Hs in E1. cbn [negb] in E1.
    destruct (Z.ltb_spec x.1.2 (curr_sent c)); [lia|]. destruct (Z.ltb_spec x.1.1 (curr_lost c)); [lia|]. cbn [orb] in E1.
    destruct (Z.eqb_spec x.1.2 (curr_sent c)); [lia|]. destruct (gap_closed c x.2).
    - rewrite Eg in E1. by injection E1.
    - destruct (accept_weather interval span c x Hok Hx Hs Hss Hl) as (? & Ew & _). rewrite Ew in E1. done. }
  cbv zeta in Hpools. fold (undeclared c x) in Hpools. destruct (Hpools Hf) as (p0 & Hp0 & Ep).
  destruct (ac_taken _ _ _ _ _ Hacc ltac:(done)) as [El _].
  destruct (ac_gap _ _ _ _ _ Hacc eq_refl) as [Hlive Hrun].
  assert (Hcov : covered c1 x.1.1 (undeclared c x) (x.2 + OUTAGE_LOSS_RESOLUTION_MAX_AGE) (length after)).
  { split; [rewrite Hlive; by repeat constructor|done|]. eexists p0, _. split; [exact Ep|]. cbn.
    rewrite El. unfold saturating_add. split; [lia|]. split; [lia|done]. }
  destruct (covered_run interval span c1 x.1.1 (undeclared c x) _ after us c2 (ac_ok _ _ _ _ _ Hacc)
    (ac_seen _ _ _ _ _ Hacc) Hcov ltac:(lia) Ha Hbnd E2 Hno). done.
Qed.

(** Over any history the losses hidden from the windows are at most the
    packets sent across the gaps. *)
Theorem hidden_losses_bounded (interval span : Z) (xs : list Sample) :
  Forall sample_ok xs -> (tally interval span default_counters xs).1 <= (tally interval span default_counters xs).2.
Proof.
  intros Hxs. pose proof (tally_bound interval span default_counters xs (default_counters_ok span) ltac:(done) Hxs) as H.
  cbn in H. unfold total_credit in H. cbn in H. lia.
Qed.

(** ** Witnesses *)

(** Forty flowing samples, then a gap of two seconds with sixty sends and
    nothing declared, then the declarations. *)
Definition demo_flow : list Sample := map (fun k => (0, 4 * k, 40000000 * k)) (seqZ 1 40).
Definition demo_gap : Sample := (0, 220, 3700000000).
Definition demo_late : list Sample := map (fun k => (2 * k, 220 + 4 * k, 3700000000 + 40000000 * k)) (seqZ 1 20).

Definition demo_counters : Counters := default default_counters (snd <$> accept_all 12 24 default_counters demo_flow).
Definition demo_after_gap : Counters := default default_counters (snd <$> accept 12 24 demo_counters demo_gap).

Lemma demo_samples_ok : Forall sample_ok demo_flow /\ sample_ok demo_gap /\ Forall sample_ok demo_late.
Proof.
  unfold demo_flow, demo_late. split; [|split; [split; cbn; width_lia|]];
    apply Forall_map, Forall_forall; intros k [Hk1 Hk2]%elem_of_seqZ; split; cbn; width_lia.
Qed.

Lemma slot_counters_total_witness :
  exists us c, accept_all 12 24 default_counters demo_flow = Some (us, c) /\ counters_ok 24 c.
Proof. exact (slot_counters_total 12 24 demo_flow (proj1 demo_samples_ok)). Defined.

Lemma loss_windows_exact_witness :
  exists u c', accept 12 24 demo_counters demo_gap = Some (u, c') /\ u = OutageRebaselined.
Proof.
  destruct (accept_all 12 24 default_counters demo_flow) as [[us c]|] eqn:E; [|by vm_compute in E].
  pose proof (loss_windows_exact 12 24 demo_flow us c demo_gap (proj1 demo_samples_ok) (proj1 (proj2 demo_samples_ok)) E) as _.
  eexists _, _. split; [vm_compute; reflexivity|reflexivity].
Defined.

Lemma outage_losses_never_priced_witness :
  exists us c2, accept_all 12 24 demo_after_gap demo_late = Some (us, c2) /\ curr_lost c2 = 40 /\ blackout_run c2 = 0 /\
    Forall (fun sn => sn_lost sn = 40) (live_snapshots c2).
Proof.
  destruct demo_samples_ok as (H1 & H2 & H3).
  destruct (accept_all 12 24 default_counters demo_flow) as [[us0 c]|] eqn:E0; [|by vm_compute in E0].
  destruct (accept 12 24 c demo_gap) as [[u c1]|] eqn:E1; [|by vm_compute in E0; injection E0 as <- <-; vm_compute in E1].
  destruct (accept_all 12 24 c1 demo_late) as [[us c2]|] eqn:E2.
  2:{ vm_compute in E0. injection E0 as <- <-. vm_compute in E1. injection E1 as <- <-. by vm_compute in E2. }
  pose proof (outage_losses_never_priced 12 24 demo_flow demo_late demo_gap us0 us c c1 c2 H1 H2 H3 E0) as H.
  vm_compute in E0. injection E0 as <- <-. vm_compute in E1. injection E1 as <- <-. vm_compute in E2. injection E2 as <- <-.
  eexists _, _. split; [vm_compute; reflexivity|]. split; [reflexivity|].
  destruct H as [HF HR]; [reflexivity|reflexivity|vm_compute; reflexivity|by vm_compute|by vm_compute| | |].
  - apply (bool_decide_unpack _). vm_compute. exact I.
  - apply Forall_forall. intros y (k & -> & [Hk1 Hk2]%elem_of_seqZ)%list_elem_of_fmap. cbn [fst snd].
    change (undeclared _ demo_gap) with 60. cbn. unfold OUTAGE_LOSS_RESOLUTION_MAX_AGE. lia.
  - split; [exact HR|exact HF].
Defined.

Lemma hidden_losses_bounded_witness :
  (tally 12 24 default_counters (demo_flow ++ demo_gap :: demo_late)).1 <= (tally 12 24 default_counters (demo_flow ++ demo_gap :: demo_late)).2.
Proof.
  apply hidden_losses_bounded. apply Forall_app. split; [apply demo_samples_ok|]. constructor; apply demo_samples_ok.
Defined.
