(* ===== verification/Maker.v ===== *)
(** * The decision maker's state ([relay/src/consensus/maker/mod.rs])

    One relay's decision maker of one session: slot states, connection
    generations, departures and decided leaves, the descriptor's slot sets and
    the buffer law.  The fields of the Rust struct are grouped in one record per
    concern (connections, leaves, roster, buffer), which is how its methods are
    split over files; the comparator, the phase controller, the delivery matrix,
    the session clock and the lead tracker are the components' own records.
    Evidence collection, lobby policy, region labels, logging and the fields of
    the silence watch ([start_learned_at], [connected_slots],
    [last_link_epochs], [recovered_leaves]) are left out.
    Slots, epochs, frames and counts are integers at their width, instants
    nanoseconds. *)

From Stdlib Require Import ZArith Lia.
From stdpp Require Import gmap sorting list.
From S2P Require Import Prelude.
From S2P Require Import Wire.
From S2P Require Import Presence.
From S2P Require Import Law.
From S2P Require Import Delivery.
From S2P Require Import Phase.
From S2P Require Import SyncTracker.
From S2P Require Import Clock.
From S2P Require Import Lead.
From S2P Require Import Slot.

Open Scope Z_scope.

Definition LEAVE_REASON_DROPPED : Z := 0x40000006.
Definition LEAVE_REASON_LEFT : Z := 3.
Definition MAX_GAME_RESULT_PAYLOAD_LEN : Z := 4096.

Record BufferBounds : Type := mkBufferBounds { bmin : Z; bmax : Z }.

Record ResultEcho : Type := mkResultEcho {
  payload : list Z;
  arrival_ms : Z;
  session_frame_echo : option Z;
  slot_frame_echo : option Z;
}.

Definition result_payload_is_valid (p : list Z) : bool :=
  negb (bool_decide (p = [])) && (Z.of_nat (length p) <=? MAX_GAME_RESULT_PAYLOAD_LEN).

(** ** Leaves and departures *)

Record LeaveDirective : Type := mkLeaveDirective {
  ld_finalized : bool;
  ld_slot : Z;
  ld_reason : Z;
  ld_apply_at_frame : Z;
  leave_seq : Z;
  ld_final_turn_count : option Z;
}.

Record DepartureStamps : Type := mkDepartureStamps {
  st_last_frame : option Z;
  st_reachable_frame : option Z;
  st_result : option ResultEcho;
  st_final_turn_count : option Z;
  st_finalized : bool;
}.

Definition no_stamps : DepartureStamps := mkDepartureStamps None None None None false.

Record Departure : Type := mkDeparture {
  last_frame : option Z;
  slot_state : option SlotState;
  reachable : option Z;
  reason : Z;
  d_result : option ResultEcho;
  final_turn_count : option Z;
  finalized : bool;
  connection_epoch : option Z;
}.

Inductive DepartureKind : Type := Left | Dropped.

Record DepartedSlot : Type := mkDepartedSlot {
  ds_slot : Z;
  ds_kind : DepartureKind;
  ds_final_turn_count : option Z;
  ds_finalized : bool;
}.

(** ** Connection generations ([relay/src/consensus/slot.rs]) *)

Inductive ConnectionState : Type := Up (epoch : Z) | Down (epoch : Z).
#[export] Instance ConnectionState_eq_dec : EqDecision ConnectionState.
Proof. solve_decision. Defined.

Definition epoch_of (s : ConnectionState) : Z := match s with Up e | Down e => e end.

Inductive ConnectionActivation : Type := Current | Replacement | RejectedActivation.

Inductive ReconnectAdmission : Type := ReconnectAdmitted (reinstated : bool) | ReconnectRejected.

Record ReconnectTransition : Type := mkReconnectTransition {
  admission : ReconnectAdmission;
  consume_hold : bool;
}.

Inductive DepartureRecordOutcome : Type := RejectedDeparture | Pending | Terminal.

Inductive EvictionCause : Type := Silence | Desync | LobbyViolation.

(** ** State *)

Record Connections : Type := mkConnections {
  slots : gmap Z SlotState;
  connection_states : gmap Z ConnectionState;
  retired_connection_epochs : gmap Z (gset Z);
}.

Record Leaves : Type := mkLeaves {
  departures : gmap Z Departure;
  decided_leaves : gmap Z LeaveDirective;
  decided_leave_at : gmap Z Z;
  next_leave_seq : Z;
  results : gmap Z ResultEcho;
  finalizing_drops : gset Z;
  resumed : bool;
  close_reported : bool;
}.

Record Roster : Type := mkRoster {
  expected_slots : gset Z;
  homed_slots : gset Z;
  rehomed_homes : gset Z;
  live_slots : gset Z;
  started_slots : gset Z;
  peer_started_slots : gset Z;
  forwarded_slots : gset Z;
  evictions : gmap Z EvictionCause;
  started : bool;
  started_at : option Z;
}.

Record ShrinkRecord : Type := mkShrinkRecord { shrink_from : Z; shrink_frame : Z }.

Record BufferState : Type := mkBufferState {
  buffer : Z;
  last_decision_frame : option Z;
  target_peaks : BucketedMax;
  last_shrink : option ShrinkRecord;
  edge_burned : bool;
  last_burn_frame : option Z;
  decision_seq_at : Z;
  decision_seq_tiebreak : option Z;
  pending_directive : option BufferDirective;
  initial_directive_sent : bool;
  last_trace_frame : option Z;
  own_relay_id : option Z;
  initial_buffer_turns : option Z;
  latency_hint_ms : option Z;
  single_relay : bool;
}.

Record Maker : Type := mkMaker {
  bounds : BufferBounds;
  law : ControlLaw;
  authority : Authority;
  conns : Connections;
  lv : Leaves;
  roster : Roster;
  buf : BufferState;
  phase_ctl : PhaseController;
  delivery : DeliveryTracking;
  sync : SyncTracker;
  clock : SessionClock;
  lead : LeadTracker;
  finalized_drops_enabled : bool;
  rollback_enabled : bool;
  started_session_as_authority : bool;
  unanchored_authority_since : option Z;
}.

(** ** Field updates *)

Definition set_conns (m : Maker) (c : Connections) : Maker :=
  mkMaker (bounds m) (law m) (authority m) c (lv m) (roster m) (buf m) (phase_ctl m) (delivery m) (sync m) (clock m)
    (lead m) (finalized_drops_enabled m) (rollback_enabled m) (started_session_as_authority m)
    (unanchored_authority_since m).
Definition set_lv (m : Maker) (l : Leaves) : Maker :=
  mkMaker (bounds m) (law m) (authority m) (conns m) l (roster m) (buf m) (phase_ctl m) (delivery m) (sync m) (clock m)
    (lead m) (finalized_drops_enabled m) (rollback_enabled m) (started_session_as_authority m)
    (unanchored_authority_since m).
Definition set_roster (m : Maker) (r : Roster) : Maker :=
  mkMaker (bounds m) (law m) (authority m) (conns m) (lv m) r (buf m) (phase_ctl m) (delivery m) (sync m) (clock m)
    (lead m) (finalized_drops_enabled m) (rollback_enabled m) (started_session_as_authority m)
    (unanchored_authority_since m).
Definition set_buf (m : Maker) (b : BufferState) : Maker :=
  mkMaker (bounds m) (law m) (authority m) (conns m) (lv m) (roster m) b (phase_ctl m) (delivery m) (sync m) (clock m)
    (lead m) (finalized_drops_enabled m) (rollback_enabled m) (started_session_as_authority m)
    (unanchored_authority_since m).
Definition set_delivery (m : Maker) (d : DeliveryTracking) : Maker :=
  mkMaker (bounds m) (law m) (authority m) (conns m) (lv m) (roster m) (buf m) (phase_ctl m) d (sync m) (clock m)
    (lead m) (finalized_drops_enabled m) (rollback_enabled m) (started_session_as_authority m)
    (unanchored_authority_since m).
Definition set_phase_ctl (m : Maker) (p : PhaseController) : Maker :=
  mkMaker (bounds m) (law m) (authority m) (conns m) (lv m) (roster m) (buf m) p (delivery m) (sync m) (clock m)
    (lead m) (finalized_drops_enabled m) (rollback_enabled m) (started_session_as_authority m)
    (unanchored_authority_since m).
Definition set_sync_tracker (m : Maker) (t : SyncTracker) : Maker :=
  mkMaker (bounds m) (law m) (authority m) (conns m) (lv m) (roster m) (buf m) (phase_ctl m) (delivery m) t (clock m)
    (lead m) (finalized_drops_enabled m) (rollback_enabled m) (started_session_as_authority m)
    (unanchored_authority_since m).
Definition set_lead (m : Maker) (l : LeadTracker) : Maker :=
  mkMaker (bounds m) (law m) (authority m) (conns m) (lv m) (roster m) (buf m) (phase_ctl m) (delivery m) (sync m)
    (clock m) l (finalized_drops_enabled m) (rollback_enabled m) (started_session_as_authority m)
    (unanchored_authority_since m).
Definition set_bounds (m : Maker) (b : BufferBounds) : Maker :=
  mkMaker b (law m) (authority m) (conns m) (lv m) (roster m) (buf m) (phase_ctl m) (delivery m) (sync m) (clock m)
    (lead m) (finalized_drops_enabled m) (rollback_enabled m) (started_session_as_authority m)
    (unanchored_authority_since m).
(** A changed verdict also ends the relay's claim to anchor the clock. *)
Definition take_verdict (m : Maker) (a : Authority) : Maker :=
  mkMaker (bounds m) (law m) a (conns m) (lv m) (roster m) (buf m) (phase_ctl m) (delivery m) (sync m) (clock m)
    (lead m) (finalized_drops_enabled m) (rollback_enabled m) false None.
Definition start_as_authority (m : Maker) : Maker :=
  mkMaker (bounds m) (law m) (authority m) (conns m) (lv m) (roster m) (buf m) (phase_ctl m) (delivery m) (sync m)
    (clock m) (lead m) (finalized_drops_enabled m) (rollback_enabled m) true (unanchored_authority_since m).

Definition set_slots (c : Connections) (s : gmap Z SlotState) : Connections :=
  mkConnections s (connection_states c) (retired_connection_epochs c).
Definition set_states (c : Connections) (s : gmap Z ConnectionState) : Connections :=
  mkConnections (slots c) s (retired_connection_epochs c).
Definition set_retired (c : Connections) (r : gmap Z (gset Z)) : Connections :=
  mkConnections (slots c) (connection_states c) r.

Definition set_departures (l : Leaves) (d : gmap Z Departure) : Leaves :=
  mkLeaves d (decided_leaves l) (decided_leave_at l) (next_leave_seq l) (results l) (finalizing_drops l) (resumed l)
    (close_reported l).
Definition set_decided (l : Leaves) (d : gmap Z LeaveDirective) (n : Z) : Leaves :=
  mkLeaves (departures l) d (decided_leave_at l) n (results l) (finalizing_drops l) (resumed l) (close_reported l).
Definition set_decided_at (l : Leaves) (d : gmap Z Z) : Leaves :=
  mkLeaves (departures l) (decided_leaves l) d (next_leave_seq l) (results l) (finalizing_drops l) (resumed l)
    (close_reported l).
Definition set_results (l : Leaves) (r : gmap Z ResultEcho) : Leaves :=
  mkLeaves (departures l) (decided_leaves l) (decided_leave_at l) (next_leave_seq l) r (finalizing_drops l) (resumed l)
    (close_reported l).
Definition set_finalizing (l : Leaves) (f : gset Z) : Leaves :=
  mkLeaves (departures l) (decided_leaves l) (decided_leave_at l) (next_leave_seq l) (results l) f (resumed l)
    (close_reported l).
Definition set_resumed (l : Leaves) : Leaves :=
  mkLeaves (departures l) (decided_leaves l) (decided_leave_at l) (next_leave_seq l) (results l) (finalizing_drops l) true
    (close_reported l).
Definition set_close_reported (l : Leaves) (b : bool) : Leaves :=
  mkLeaves (departures l) (decided_leaves l) (decided_leave_at l) (next_leave_seq l) (results l) (finalizing_drops l)
    (resumed l) b.

Definition set_homed (r : Roster) (h rh : gset Z) : Roster :=
  mkRoster (expected_slots r) h rh (live_slots r) (started_slots r) (peer_started_slots r) (forwarded_slots r)
    (evictions r) (started r) (started_at r).
Definition set_expected (r : Roster) (e : gset Z) : Roster :=
  mkRoster e (homed_slots r) (rehomed_homes r) (live_slots r) (started_slots r) (peer_started_slots r)
    (forwarded_slots r) (evictions r) (started r) (started_at r).
Definition set_live (r : Roster) (l : gset Z) : Roster :=
  mkRoster (expected_slots r) (homed_slots r) (rehomed_homes r) l (started_slots r) (peer_started_slots r)
    (forwarded_slots r) (evictions r) (started r) (started_at r).
Definition set_loops (r : Roster) (s p f : gset Z) : Roster :=
  mkRoster (expected_slots r) (homed_slots r) (rehomed_homes r) (live_slots r) s p f (evictions r) (started r)
    (started_at r).
Definition set_evictions (r : Roster) (e : gmap Z EvictionCause) : Roster :=
  mkRoster (expected_slots r) (homed_slots r) (rehomed_homes r) (live_slots r) (started_slots r) (peer_started_slots r)
    (forwarded_slots r) e (started r) (started_at r).
Definition latch (r : Roster) (now : Z) : Roster :=
  mkRoster (expected_slots r) (homed_slots r) (rehomed_homes r) (live_slots r) (started_slots r) (peer_started_slots r)
    (forwarded_slots r) (evictions r) true (Some (default now (started_at r))).

(** ** Creation and plain accessors *)

Definition new_maker (b : BufferBounds) (l : ControlLaw) (a : Authority) (finalized_drops rollback : bool) : Maker :=
  mkMaker b l a (mkConnections ∅ ∅ ∅) (mkLeaves ∅ ∅ ∅ 0 ∅ ∅ false false)
    (mkRoster ∅ ∅ ∅ ∅ ∅ ∅ ∅ ∅ false None)
    (mkBufferState (bmin b) None (default_buckets TARGET_FLOOR_BUCKETS) None false None 0 None None false None None None
       None true)
    (Phase.new (turn_duration_us l)) tracking_default default_sync_tracker default_clock (mkLeadTracker ∅ ∅)
    finalized_drops rollback false None.

(** The least frame of the tracked slots that have one. *)
Definition min_frame (acc : option Z) (s : SlotState) : option Z :=
  match acc, frame s with
  | None, f => f
  | Some a, Some f => Some (Z.min a f)
  | Some a, None => Some a
  end.
Definition session_frame (m : Maker) : option Z := map_fold (fun _ s acc => min_frame acc s) None (slots (conns m)).

Definition slot_frame (m : Maker) (slot : Z) : option Z := slots (conns m) !! slot ≫= frame.
