(* ===== verification/ClientEdge.v ===== *)
(** * What a client is told, and its way back

    The surfacing of player leaves to the game ([client/src/leave/mod.rs]), the
    fence over other members' connectivity ([client/src/driver/connectivity.rs])
    and the redial schedule with its escalation to another relay
    ([client/src/driver/{backoff,reconnect}.rs]).  Instants are nanoseconds. *)

From Stdlib Require Import ZArith Lia.
From stdpp Require Import gmap list.
From S2P Require Import Prelude.
From S2P Require Import Maker.
From S2P Require Import RateLimit.
From S2P Require Import Driver.

Open Scope Z_scope.

(** ** Leaves *)

Record TrackedLeave : Type := mkTrackedLeave { directive : LeaveDirective; surfaced : bool }.

Definition LeaveTracker : Type := list TrackedLeave.

Definition tracks (slot : Z) (l : TrackedLeave) : bool := ld_slot (directive l) =? slot.

Definition observe_leave (t : LeaveTracker) (d : LeaveDirective) : LeaveTracker :=
  if u8_max <? ld_slot d then t
  else if existsb (tracks (ld_slot d)) t then t
  else t ++ [mkTrackedLeave d false].

Definition contains_leave (t : LeaveTracker) (slot : Z) : bool := existsb (tracks slot) t.

(** The directive as [expedite] leaves it: due at once. *)
Definition expedited (d : LeaveDirective) : LeaveDirective :=
  mkLeaveDirective (ld_finalized d) (ld_slot d) (ld_reason d) 0 (leave_seq d) None.

Fixpoint expedite (t : LeaveTracker) (slot : Z) : bool * LeaveTracker :=
  match t with
  | [] => (false, [])
  | l :: t =>
      if tracks slot l && negb (surfaced l) then (true, mkTrackedLeave (expedited (directive l)) false :: t)
      else let '(b, t) := expedite t slot in (b, l :: t)
  end.

Definition is_due (next_frame : Z) (consumed : Z -> Z) (d : LeaveDirective) : bool :=
  match ld_final_turn_count d with
  | Some count => count <=? consumed (ld_slot d)
  | None => ld_apply_at_frame d <=? next_frame
  end.

Fixpoint take_due_leaves (t : LeaveTracker) (next_frame : Z) (consumed : Z -> Z) : list (Z * Z) * LeaveTracker :=
  match t with
  | [] => ([], [])
  | l :: t =>
      let '(due, t) := take_due_leaves t next_frame consumed in
      if negb (surfaced l) && is_due next_frame consumed (directive l)
      then ((ld_slot (directive l), ld_reason (directive l)) :: due, mkTrackedLeave (directive l) true :: t)
      else (due, l :: t)
  end.

(** The game's use: a stamp fed in, a poll at the top of a step. *)
Inductive LeaveOp : Type :=
| Observed (d : LeaveDirective)
| Polled (next_frame : Z) (consumed : Z -> Z).

Definition leave_step (t : LeaveTracker) (o : LeaveOp) : list (Z * Z) * LeaveTracker :=
  match o with
  | Observed d => ([], observe_leave t d)
  | Polled f consumed => take_due_leaves t f consumed
  end.

Fixpoint leave_run (t : LeaveTracker) (ops : list LeaveOp) : list (list (Z * Z)) * LeaveTracker :=
  match ops with
  | [] => ([], t)
  | o :: ops => let '(due, t) := leave_step t o in let '(rest, t) := leave_run t ops in (due :: rest, t)
  end.

(** One slot's entry. *)
Definition entry (t : LeaveTracker) (slot : Z) : option TrackedLeave := find (tracks slot) t.

Lemma existsb_find slot t : existsb (tracks slot) t = match entry t slot with Some _ => true | None => false end.
Proof. unfold entry. induction t as [|l t IH]; [done|]. cbn. by destruct (tracks slot l). Qed.

Lemma entry_app t t' slot : entry (t ++ t') slot = match entry t slot with Some l => Some l | None => entry t' slot end.
Proof. unfold entry. induction t as [|l t IH]; [done|]. cbn. by destruct (tracks slot l). Qed.

(** Slots are tracked once. *)
Definition tracked_once (t : LeaveTracker) : Prop := NoDup (map (fun l => ld_slot (directive l)) t).

Lemma entry_None t slot : entry t slot = None <-> slot ∉ map (fun l => ld_slot (directive l)) t.
Proof.
  unfold entry. induction t as [|l t IH]; cbn; [split; [by intros _ ?%elem_of_nil|done]|]. rewrite not_elem_of_cons. unfold tracks at 1. destruct (Z.eqb_spec (ld_slot (directive l)) slot) as [->|Hn]; [naive_solver|].
  rewrite IH. naive_solver.
Qed.

Lemma observe_leave_entry t d slot : entry (observe_leave t d) slot =
  match entry t slot with
  | Some l => Some l
  | None => if (ld_slot d =? slot) && (ld_slot d <=? u8_max) then Some (mkTrackedLeave d false) else None
  end.
Proof.
  unfold observe_leave. rewrite Z.ltb_antisym. destruct (Z.leb_spec (ld_slot d) u8_max) as [Hu|Hu]; cbn [negb]; [|rewrite andb_false_r; by destruct (entry t slot)].
  rewrite andb_true_r, existsb_find. destruct (Z.eqb_spec (ld_slot d) slot) as [<-|Hn].
  - destruct (entry t (ld_slot d)) eqn:E; [by rewrite E|]. rewrite entry_app, E. unfold entry, tracks. cbn. by rewrite Z.eqb_refl.
  - destruct (entry t (ld_slot d)); [by destruct (entry t slot)|]. rewrite entry_app. destruct (entry t slot); [done|]. unfold entry, tracks. cbn. by rewrite (proj2 (Z.eqb_neq _ _) Hn).
Qed.

Lemma observe_leave_once t d : tracked_once t -> tracked_once (observe_leave t d).
Proof.
  intros Ht. unfold observe_leave. destruct (u8_max <? ld_slot d); [done|]. rewrite existsb_find. destruct (entry t (ld_slot d)) eqn:E; [done|]. apply entry_None in E.
  unfold tracked_once. rewrite map_app. apply NoDup_app. split; [done|]. split; [|apply NoDup_singleton]. cbn. intros x Hx Hy%list_elem_of_singleton. by subst x.
Qed.

(** A poll, seen from one slot. *)
Definition polled (f : Z) (consumed : Z -> Z) (l : TrackedLeave) : bool := negb (surfaced l) && is_due f consumed (directive l).

Lemma take_due_slots t f consumed : map (fun l => ld_slot (directive l)) (take_due_leaves t f consumed).2 = map (fun l => ld_slot (directive l)) t.
Proof. induction t as [|l t IH]; [done|]. cbn. destruct (take_due_leaves t f consumed) as [due t']. cbn in IH. destruct (_ && _); cbn; by rewrite IH. Qed.

Lemma take_due_entry t f consumed slot : entry (take_due_leaves t f consumed).2 slot =
  (fun l => if polled f consumed l then mkTrackedLeave (directive l) true else l) <$> entry t slot.
Proof.
  unfold entry. induction t as [|l t IH]; [done|]. cbn [take_due_leaves find]. destruct (take_due_leaves t f consumed) as [due t']. cbn [snd] in IH. fold (polled f consumed l).
  destruct (polled f consumed l) eqn:Ep; cbn [snd find]; [change (tracks slot (mkTrackedLeave (directive l) true)) with (tracks slot l)|]; destruct (tracks slot l); rewrite ?IH; cbn; by rewrite ?Ep.
Qed.

(** What concerns one slot. *)
Definition about (slot : Z) (l : list (Z * Z)) : list (Z * Z) := filter (fun x => x.1 = slot) l.

Lemma about_app slot l l' : about slot (l ++ l') = about slot l ++ about slot l'.
Proof. apply filter_app. Qed.

Lemma take_due_about t f consumed slot : tracked_once t ->
  about slot (take_due_leaves t f consumed).1 =
    match entry t slot with Some l => if polled f consumed l then [(slot, ld_reason (directive l))] else [] | None => [] end.
Proof.
  induction t as [|l t IH]; intros Hn; [done|]. apply NoDup_cons in Hn as [Hn1 Hn2]. specialize (IH Hn2). unfold entry. cbn [take_due_leaves find].
  destruct (take_due_leaves t f consumed) as [due t']. cbn [fst] in IH. fold (polled f consumed l) (entry t slot). unfold tracks at 1. destruct (Z.eqb_spec (ld_slot (directive l)) slot) as [E|E].
  - rewrite E in *. apply entry_None in Hn1. rewrite Hn1 in IH. destruct (polled f consumed l); cbn [fst]; [|done]. unfold about. rewrite filter_cons_True by done. unfold about in IH. by rewrite IH.
  - destruct (polled f consumed l); cbn [fst]; [|done]. unfold about. by rewrite filter_cons_False.
Qed.

Definition fired (t : LeaveTracker) (slot : Z) : bool := match entry t slot with Some l => surfaced l | None => false end.

(** A step's leaves of a slot, and what they do to its entry. *)
Lemma leave_step_spec t o slot : tracked_once t -> let r := leave_step t o in
  tracked_once r.2 /\
  about slot r.1 = (if negb (fired t slot) && fired r.2 slot then match entry t slot with Some l => [(slot, ld_reason (directive l))] | None => [] end else []) /\
  (fired t slot = true -> fired r.2 slot = true) /\
  (forall l, entry t slot = Some l -> exists l', entry r.2 slot = Some l' /\ directive l' = directive l).
Proof.
  intros Ht. destruct o as [d|f consumed]; cbv zeta; cbn [leave_step fst snd].
  - split; [by apply observe_leave_once|]. unfold fired. rewrite observe_leave_entry. destruct (entry t slot) as [l|]; [split; [cbn; by rewrite andb_negb_l|]; split; [done|]; intros l' [= <-]; by exists l|].
    split; [destruct (_ && _); done|]. split; [done|]. done.
  - split; [unfold tracked_once; by rewrite take_due_slots|]. rewrite take_due_about by done. unfold fired. rewrite take_due_entry. destruct (entry t slot) as [l|]; cbn; [|done]. split; [|split].
    + unfold polled. destruct (surfaced l) eqn:Es; cbn; [done|]. by destruct (is_due f consumed (directive l)); cbn; rewrite ?Es.
    + unfold polled. intros Es. by rewrite Es.
    + intros l' [= <-]. destruct (polled f consumed l); by eexists.
Qed.

Lemma leave_run_app t ops ops' : leave_run t (ops ++ ops') =
  let '(a, t1) := leave_run t ops in let '(b, t2) := leave_run t1 ops' in (a ++ b, t2).
Proof.
  revert t. induction ops as [|o ops IH]; intros t; cbn [leave_run app]; [by destruct (leave_run t ops')|]. destruct (leave_step t o) as [due t1]. rewrite IH.
  destruct (leave_run t1 ops) as [a t2]. by destruct (leave_run t2 ops').
Qed.

Lemma leave_run_once t ops : tracked_once t -> tracked_once (leave_run t ops).2.
Proof.
  revert t. induction ops as [|o ops IH]; intros t Ht; cbn [leave_run]; [done|]. destruct (leave_step_spec t o 0 Ht) as (K & _). destruct (leave_step t o) as [due t1]. specialize (IH t1 K). by destruct (leave_run t1 ops).
Qed.

(** Leaves of a slot over a run: one exactly when the slot's entry is spent. *)
Lemma leave_run_count t ops slot : tracked_once t ->
  (fired t slot = true -> fired (leave_run t ops).2 slot = true) /\
  length (about slot (concat (leave_run t ops).1)) = if negb (fired t slot) && fired (leave_run t ops).2 slot then 1%nat else 0%nat.
Proof.
  revert t. induction ops as [|o ops IH]; intros t Ht; cbn [leave_run]; [split; [done|]; cbn; by rewrite andb_negb_l|].
  destruct (leave_step_spec t o slot Ht) as (K1 & K2 & K3 & _). destruct (leave_step t o) as [due t1] eqn:Eo. cbn [fst snd] in *. destruct (IH t1 K1) as [I1 I2]. destruct (leave_run t1 ops) as [rest t2]. cbn [fst snd concat] in *.
  split; [tauto|]. rewrite about_app, length_app, K2, I2. destruct (fired t slot) eqn:F0; cbn [negb andb]; [rewrite (K3 eq_refl); done|].
  destruct (fired t1 slot) eqn:F1; cbn [negb andb length]; [rewrite (I1 eq_refl)|done].
  assert (Hs : is_Some (entry t slot)).
  { unfold fired in F0, F1. assert (E1 : t1 = (leave_step t o).2) by (by rewrite Eo). subst t1. destruct o as [d|f consumed]; cbn [leave_step snd] in F1.
    - rewrite observe_leave_entry in F1. destruct (entry t slot); [done|]. by destruct (_ && _).
    - rewrite take_due_entry in F1. by destruct (entry t slot). }
  destruct Hs as [l ->]. done.
Qed.

(** What the relays promise of a slot's directives, and what its consumption
    does: the count is never passed. *)
Definition leave_promise (slot count reason : Z) (o : LeaveOp) : Prop :=
  match o with
  | Observed d => ld_slot d = slot -> ld_final_turn_count d = Some count /\ ld_reason d = reason
  | Polled _ consumed => consumed slot <= count
  end.

Lemma promised_entry slot count reason t ops : tracked_once t -> Forall (leave_promise slot count reason) ops ->
  (forall l, entry t slot = Some l -> ld_final_turn_count (directive l) = Some count /\ ld_reason (directive l) = reason) ->
  forall l, entry (leave_run t ops).2 slot = Some l -> ld_slot (directive l) = slot /\ ld_final_turn_count (directive l) = Some count /\ ld_reason (directive l) = reason.
Proof.
  revert t. induction ops as [|o ops IH]; intros t Ht Hp He l; cbn [leave_run snd].
  { intros E. split; [|by apply He]. apply find_some in E as [_ E]. by apply Z.eqb_eq. }
  apply Forall_cons in Hp as [Hp1 Hp2]. destruct (leave_step_spec t o slot Ht) as (K1 & _ & _ & _). destruct (leave_step t o) as [due t1] eqn:Eo. cbn [snd] in K1. specialize (IH t1 K1 Hp2). destruct (leave_run t1 ops) as [rest t2]. cbn [snd] in *. apply IH.
  assert (E1 : t1 = (leave_step t o).2) by (by rewrite Eo). subst t1. destruct o as [d|f consumed]; cbn [leave_step snd]; intros l1.
  - rewrite observe_leave_entry. destruct (entry t slot) as [l2|]; [intros [= <-]; by apply He|]. destruct (Z.eqb_spec (ld_slot d) slot) as [E|]; cbn; [|done]. destruct (ld_slot d <=? u8_max); [|done]. intros [= <-]. by apply Hp1.
  - rewrite take_due_entry. destruct (entry t slot) as [l2|]; cbn; [|done]. intros [= <-]. destruct (polled f consumed l2); cbn [directive]; exact (He l2 eq_refl).
Qed.

(** The step at a position, and the tracker it meets. *)
Lemma leave_run_lookup t ops i due : (leave_run t ops).1 !! i = Some due ->
  exists o, ops !! i = Some o /\ due = (leave_step (leave_run t (take i ops)).2 o).1.
Proof.
  revert t i. induction ops as [|o ops IH]; intros t i; cbn [leave_run]; [done|]. destruct (leave_step t o) as [d1 t1] eqn:Eo. specialize (IH t1). destruct (leave_run t1 ops) as [rest t2] eqn:Er. cbn [fst] in *.
  destruct i as [|i]; cbn; [intros [= <-]; exists o; cbn; by rewrite Eo|]. intros H. destruct (IH i H) as (o' & K1 & K2). exists o'. split; [done|]. rewrite Eo. by destruct (leave_run t1 (take i ops)).
Qed.

Lemma counted_poll slot count reason ops i due : Forall (leave_promise slot count reason) ops -> (leave_run [] ops).1 !! i = Some due ->
  about slot due = [] \/ about slot due = [(slot, reason)] /\ exists f consumed, ops !! i = Some (Polled f consumed) /\ consumed slot = count.
Proof.
  intros Hp Hi. destruct (leave_run_lookup _ _ _ _ Hi) as (o & Ho & ->). set (t := (leave_run [] (take i ops)).2). assert (Ht : tracked_once t) by (apply leave_run_once; constructor).
  destruct o as [d|f consumed]; cbn [leave_step]; [by left|]. rewrite take_due_about by done. destruct (entry t slot) as [l|] eqn:El; [|by left]. destruct (polled f consumed l) eqn:Ep; [|by left]. right.
  assert (Hall : Forall (leave_promise slot count reason) (take i ops)) by by apply Forall_take.
  destruct (promised_entry slot count reason [] (take i ops) ltac:(constructor) Hall ltac:(done) l El) as (E1 & E2 & E3). split; [by rewrite E3|]. exists f, consumed. split; [done|].
  rewrite Forall_lookup in Hp. specialize (Hp _ _ Ho). cbn in Hp. unfold polled, is_due in Ep. rewrite E1, E2 in Ep. apply andb_true_iff in Ep as [_ Ep%Z.leb_le]. lia.
Qed.

Lemma leave_run_tracks t ops slot : tracked_once t -> is_Some (entry t slot) -> is_Some (entry (leave_run t ops).2 slot).
Proof.
  revert t. induction ops as [|o ops IH]; intros t Ht [l Hl]; cbn [leave_run snd]; [by exists l|]. destruct (leave_step_spec t o slot Ht) as (K1 & _ & _ & K4). destruct (leave_step t o) as [due t1]. cbn [snd] in *.
  destruct (K4 l Hl) as (l' & Hl' & _). specialize (IH t1 K1 ltac:(by exists l')). by destruct (leave_run t1 ops).
Qed.

Lemma counted_poll_fires slot count reason pre d mid f consumed : slot <= u8_max -> Forall (leave_promise slot count reason) (pre ++ Observed d :: mid) ->
  ld_slot d = slot -> consumed slot = count -> fired (leave_run [] (pre ++ Observed d :: mid ++ [Polled f consumed])).2 slot = true.
Proof.
  intros Hu Hp Hd Hc. replace (pre ++ Observed d :: mid ++ [Polled f consumed]) with ((pre ++ Observed d :: mid) ++ [Polled f consumed]) by (by rewrite <- app_assoc).
  rewrite leave_run_app. pose proof (promised_entry slot count reason [] (pre ++ Observed d :: mid) ltac:(constructor) Hp ltac:(done)) as He.
  assert (Hsome : is_Some (entry (leave_run [] (pre ++ Observed d :: mid)).2 slot)).
  { rewrite leave_run_app. pose proof (leave_run_once [] pre ltac:(constructor)) as Ht. destruct (leave_run [] pre) as [a t]. cbn [snd] in Ht. cbn [leave_run leave_step]. pose proof (observe_leave_once t d Ht) as Ht1.
    assert (Hs : is_Some (entry (observe_leave t d) slot)). { rewrite observe_leave_entry, Hd, Z.eqb_refl, (proj2 (Z.leb_le _ _) Hu). destruct (entry t slot); by eexists. }
    pose proof (leave_run_tracks _ mid slot Ht1 Hs) as K. by destruct (leave_run (observe_leave t d) mid). }
  destruct (leave_run [] (pre ++ Observed d :: mid)) as [a t]. cbn [snd] in *. cbn [leave_run leave_step]. pose proof (take_due_entry t f consumed slot) as K. destruct (take_due_leaves t f consumed) as [due t']. cbn [snd] in *.
  destruct Hsome as [l Hl]. destruct (He l Hl) as (E1 & E2 & E3). unfold fired. rewrite K, Hl. cbn. unfold polled, is_due. rewrite E1, E2, Hc, Z.leb_refl, andb_true_r. by destruct (surfaced l) eqn:Es; cbn; rewrite ?Es.
Qed.

(** C29 Every client applies a counted leave at the same point: whatever the order
    in which copies arrive and the game polls, a slot's leave is surfaced at
    most once, with the reason the relays gave, at a poll where exactly the
    directive's number of its turns has been consumed -- and at the first such
    poll once a copy has arrived. *)
Theorem counted_leave_on_its_turn (slot count reason : Z) (ops : list LeaveOp) :
  slot <= u8_max -> Forall (leave_promise slot count reason) ops ->
  let surfaced := about slot (concat (leave_run [] ops).1) in
  (surfaced = [] \/ surfaced = [(slot, reason)]) /\
  (forall i due, (leave_run [] ops).1 !! i = Some due -> about slot due <> [] -> exists f consumed, ops !! i = Some (Polled f consumed) /\ consumed slot = count) /\
  (forall pre d mid f consumed post, ops = pre ++ Observed d :: mid ++ Polled f consumed :: post -> ld_slot d = slot -> consumed slot = count -> surfaced = [(slot, reason)]).
Proof.
  intros Hu Hp. cbv zeta. destruct (leave_run_count [] ops slot ltac:(constructor)) as [_ Hcount]. cbn [fired entry find negb andb] in Hcount.
  assert (Hval : forall x, x ∈ about slot (concat (leave_run [] ops).1) -> x = (slot, reason)).
  { intros x Hx. apply list_elem_of_filter in Hx as [Hx1 Hx2]. apply list_elem_of_In, in_concat in Hx2 as (due & Hd & Hin). apply list_elem_of_In, list_elem_of_lookup in Hd as [i Hi].
    assert (Ha : x ∈ about slot due) by (apply list_elem_of_filter; split; [done|by apply list_elem_of_In]). destruct (counted_poll _ _ _ _ _ _ Hp Hi) as [E|[E _]]; rewrite E in Ha; [by apply elem_of_nil in Ha|by apply list_elem_of_singleton]. }
  split; [|split].
  - destruct (about slot (concat (leave_run [] ops).1)) as [|x [|y l]] eqn:Ea; [by left|right; f_equal; apply Hval; by left|]. exfalso. cbn [length] in Hcount. by destruct (fired _ slot).
  - intros i due Hi Hne. destruct (counted_poll _ _ _ _ _ _ Hp Hi) as [E|[_ E]]; [done|exact E].
  - intros pre d mid f consumed post E Hd Hc. assert (Hp' : Forall (leave_promise slot count reason) (pre ++ Observed d :: mid)).
    { rewrite E in Hp. apply Forall_app in Hp as [H1 H2]. apply Forall_cons in H2 as [H2 H3]. apply Forall_app in H3 as [H3 _]. apply Forall_app. split; [done|]. by constructor. }
    pose proof (counted_poll_fires slot count reason pre d mid f consumed Hu Hp' Hd Hc) as Hf.
    assert (Hall : fired (leave_run [] ops).2 slot = true).
    { replace ops with ((pre ++ Observed d :: mid ++ [Polled f consumed]) ++ post) by (rewrite E, <- !app_assoc; cbn; by rewrite <- app_assoc). rewrite leave_run_app.
      pose proof (leave_run_once [] (pre ++ Observed d :: mid ++ [Polled f consumed]) ltac:(constructor)) as Ht. destruct (leave_run [] (pre ++ Observed d :: mid ++ [Polled f consumed])) as [a t]. cbn [snd] in *.
      destruct (leave_run_count t post slot Ht) as [K _]. specialize (K Hf). by destruct (leave_run t post). }
    rewrite Hall in Hcount. destruct (about slot (concat (leave_run [] ops).1)) as [|x [|y l]]; [done|f_equal; apply Hval; by left|done].
Qed.

(** A client leaving lockstep itself asks for a leave at once: the next poll has
    it, with its reason. *)
Lemma expedite_entry t slot : tracked_once t -> (expedite t slot).1 = true ->
  exists l, entry t slot = Some l /\ surfaced l = false /\ entry (expedite t slot).2 slot = Some (mkTrackedLeave (expedited (directive l)) false).
Proof.
  induction t as [|l t IH]; intros Hn; [done|]. apply NoDup_cons in Hn as [Hn1 Hn2]. unfold entry. cbn [expedite find]. destruct (tracks slot l) eqn:Et; cbn [andb].
  - destruct (surfaced l) eqn:Es; cbn [negb].
    + apply Z.eqb_eq in Et. rewrite Et in Hn1. apply entry_None in Hn1. destruct (expedite t slot) as [b t'] eqn:Ee. cbn [fst]. intros ->. destruct (IH Hn2 eq_refl) as (l' & Hl' & _). congruence.
    + intros _. exists l. split; [done|]. split; [done|]. cbn [snd find]. change (tracks slot (mkTrackedLeave (expedited (directive l)) false)) with (tracks slot l). by rewrite Et.
  - destruct (expedite t slot) as [b t'] eqn:Ee. cbn [fst snd] in *. intros ->. destruct (IH Hn2 eq_refl) as (l' & H1 & H2 & H3). exists l'. split; [done|]. split; [done|]. cbn [find]. by rewrite Et.
Qed.

Lemma expedite_slots t slot : map (fun l => ld_slot (directive l)) (expedite t slot).2 = map (fun l => ld_slot (directive l)) t.
Proof. induction t as [|l t IH]; [done|]. cbn [expedite]. destruct (_ && _); [done|]. destruct (expedite t slot) as [b t']. cbn in *. by rewrite IH. Qed.

Theorem expedited_leave_is_next (t : LeaveTracker) (slot next_frame : Z) (consumed : Z -> Z) : tracked_once t -> 0 <= next_frame -> (expedite t slot).1 = true ->
  exists l, entry t slot = Some l /\ about slot (take_due_leaves (expedite t slot).2 next_frame consumed).1 = [(slot, ld_reason (directive l))].
Proof.
  intros Ht Hf He. destruct (expedite_entry t slot Ht He) as (l & H1 & H2 & H3). exists l. split; [done|]. rewrite take_due_about by (unfold tracked_once; by rewrite expedite_slots). rewrite H3. unfold polled, is_due. cbn. by rewrite (proj2 (Z.leb_le _ _) Hf).
Qed.

(** ** Connectivity of other members *)

Record ConnectivityState : Type := mkConnectivityState { cs_epoch : Z; cs_connected : bool }.

Record ConnectivityFence : Type := mkConnectivityFence {
  current : gmap Z ConnectivityState;
  retired : gset (Z * Z);
  terminal : gset Z;
}.

Definition new_fence : ConnectivityFence := mkConnectivityFence ∅ ∅ ∅.

Definition mark_terminal (f : ConnectivityFence) (slot : Z) : ConnectivityFence :=
  mkConnectivityFence (current f) (retired f) ({[slot]} ∪ terminal f).

Definition admit_change (f : ConnectivityFence) (slot : Z) (connected : bool) (observed : option Z) : bool * ConnectivityFence :=
  if bool_decide (slot ∈ terminal f) then (false, f)
  else if match observed with Some epoch => bool_decide ((slot, epoch) ∈ retired f) | None => false end then (false, f)
  else
    match current f !! slot, observed with
    | Some c, Some epoch =>
        if cs_epoch c =? epoch then
          if negb (cs_connected c) && connected then (false, f)
          else (true, mkConnectivityFence (<[slot := mkConnectivityState epoch connected]> (current f)) (retired f) (terminal f))
        else if connected then
          (true, mkConnectivityFence (<[slot := mkConnectivityState epoch true]> (current f)) ({[(slot, cs_epoch c)]} ∪ retired f) (terminal f))
        else (false, f)
    | Some _, None => (false, f)
    | None, Some epoch => (true, mkConnectivityFence (<[slot := mkConnectivityState epoch connected]> (current f)) (retired f) (terminal f))
    | None, None => (true, f)
    end.

(** What a member's display may go through, from what it showed: levels
    without an epoch only until one is named; within an epoch down is final; an
    epoch once left never returns, and another begins with an up. *)
Abbreviation Shown := (bool * option Z)%type.

Definition last_stamped (h : list Shown) : option ConnectivityState :=
  last (omap (fun x => (fun e => mkConnectivityState e x.1) <$> x.2) h).

Definition epochs (h : list Shown) : list Z := omap snd h.

Definition may_show (h : list Shown) (c : Shown) : bool :=
  match last_stamped h, c.2 with
  | None, _ => true
  | Some _, None => false
  | Some s, Some e => if cs_epoch s =? e then cs_connected s || negb c.1 else c.1 && bool_decide (e ∉ epochs h)
  end.

(** The changes that arrived and the leaves that became final. *)
Inductive FenceOp : Type :=
| Changed (slot : Z) (connected : bool) (observed : option Z)
| Departed (slot : Z).

Definition fence_step (f : ConnectivityFence) (o : FenceOp) : bool * ConnectivityFence :=
  match o with
  | Changed slot connected observed => admit_change f slot connected observed
  | Departed slot => (true, mark_terminal f slot)
  end.

Fixpoint fence_run (f : ConnectivityFence) (ops : list FenceOp) : list bool * ConnectivityFence :=
  match ops with
  | [] => ([], f)
  | o :: ops => let '(b, f) := fence_step f o in let '(bs, f) := fence_run f ops in (b :: bs, f)
  end.

(** The rule applied to each change of a slot in turn. *)
Fixpoint shown (slot : Z) (h : list Shown) (gone : bool) (ops : list FenceOp) : list bool * list Shown * bool :=
  match ops with
  | [] => ([], h, gone)
  | Changed s connected observed :: ops =>
      if s =? slot then
        let ok := negb gone && may_show h (connected, observed) in
        let '(bs, h, gone) := shown slot (if ok then h ++ [(connected, observed)] else h) gone ops in (ok :: bs, h, gone)
      else shown slot h gone ops
  | Departed s :: ops => shown slot h (gone || (s =? slot)) ops
  end.

(** The answers a slot's own changes got. *)
Fixpoint answers (slot : Z) (ops : list FenceOp) (bs : list bool) : list bool :=
  match ops, bs with
  | Changed s _ _ :: ops, b :: bs => if s =? slot then b :: answers slot ops bs else answers slot ops bs
  | Departed _ :: ops, _ :: bs => answers slot ops bs
  | _, _ => []
  end.

Record fence_holds (f : ConnectivityFence) (slot : Z) (h : list Shown) (gone : bool) : Prop := mkFenceHolds {
  fh_current : current f !! slot = last_stamped h;
  fh_retired : forall e, (slot, e) ∈ retired f <-> e ∈ epochs h /\ (cs_epoch <$> last_stamped h) <> Some e;
  fh_terminal : slot ∈ terminal f <-> gone = true;
}.

Lemma last_stamped_snoc h c e : last_stamped (h ++ [(c, Some e)]) = Some (mkConnectivityState e c).
Proof. unfold last_stamped. rewrite omap_app. cbn. apply last_snoc. Qed.

Lemma epochs_snoc h c e : epochs (h ++ [(c, Some e)]) = epochs h ++ [e].
Proof. unfold epochs. by rewrite omap_app. Qed.

Lemma snoc_unstamped h c : last_stamped (h ++ [(c, None)]) = last_stamped h /\ epochs (h ++ [(c, None)]) = epochs h.
Proof. unfold last_stamped, epochs. rewrite !omap_app. cbn. by rewrite !app_nil_r. Qed.

Lemma last_stamped_epoch h s : last_stamped h = Some s -> cs_epoch s ∈ epochs h.
Proof.
  induction h as [|[c [e|]] h IH] using rev_ind; [done| |].
  - rewrite last_stamped_snoc, epochs_snoc. intros [= <-]. cbn. apply elem_of_app. right. by left.
  - destruct (snoc_unstamped h c) as [-> ->]. exact IH.
Qed.

Lemma last_stamped_None h : last_stamped h = None -> epochs h = [].
Proof.
  induction h as [|[c [e|]] h IH] using rev_ind; [done| |]; [by rewrite last_stamped_snoc|]. destruct (snoc_unstamped h c) as [-> ->]. exact IH.
Qed.

(** The fence's answer on a change is the rule's, and what it keeps is right. *)
Lemma admit_change_exact f slot h gone c o : fence_holds f slot h gone ->
  let ok := negb gone && may_show h (c, o) in
  (admit_change f slot c o).1 = ok /\ fence_holds (admit_change f slot c o).2 slot (if ok then h ++ [(c, o)] else h) gone.
Proof.
  intros [Hc Hr Ht]. cbv zeta. unfold admit_change. destruct gone; [rewrite bool_decide_eq_true_2 by (by apply Ht); split; [done|by split]|].
  rewrite bool_decide_eq_false_2 by (rewrite Ht; done). cbn [negb andb]. unfold may_show. rewrite Hc. cbn [snd fst]. destruct o as [e|].
  - destruct (last_stamped h) as [s|] eqn:El.
    + pose proof (last_stamped_epoch h s El) as Hin. destruct (Z.eqb_spec (cs_epoch s) e) as [<-|Hne].
      * rewrite bool_decide_eq_false_2 by (rewrite Hr; cbn; tauto). destruct s as [e0 c0]. cbn [cs_epoch cs_connected] in *. destruct c0, c; cbn; (split; [done|]); try (split; cbn; [by rewrite El|by rewrite El|done]);
          (split; cbn; [by rewrite lookup_insert_eq, last_stamped_snoc| |done]); intros e1; rewrite last_stamped_snoc, epochs_snoc, elem_of_app, list_elem_of_singleton, Hr; cbn; naive_solver.
      * destruct (decide (e ∈ epochs h)) as [Hold|Hnew].
        -- rewrite bool_decide_eq_true_2 by (rewrite Hr; cbn; naive_solver). rewrite (bool_decide_eq_false_2 (e ∉ epochs h)) by tauto. rewrite andb_false_r. split; [done|]. split; cbn; [by rewrite El|by rewrite El|done].
        -- rewrite bool_decide_eq_false_2 by (rewrite Hr; tauto). rewrite (bool_decide_eq_true_2 (e ∉ epochs h)) by done. rewrite andb_true_r. destruct c; (split; [done|]); [|split; cbn; [by rewrite El|by rewrite El|done]].
           split; cbn; [by rewrite lookup_insert_eq, last_stamped_snoc| |done]. intros e1. rewrite last_stamped_snoc, epochs_snoc, elem_of_app, list_elem_of_singleton, elem_of_union, elem_of_singleton, Hr. cbn. split.
           ++ intros [[= ->]|[H1 H2]]; [split; [by left|congruence]|]. split; [by left|]. intros [= ->]. done.
           ++ intros [[H1|H1] H2]; [|congruence]. destruct (decide (cs_epoch s = e1)) as [->|]; [by left|right; split; [done|congruence]].
    + pose proof (last_stamped_None h El) as Hn. rewrite bool_decide_eq_false_2 by (rewrite Hr, Hn; intros [?%elem_of_nil _]; done). split; [done|]. split; cbn; [by rewrite lookup_insert_eq, last_stamped_snoc| |done].
      intros e1. rewrite last_stamped_snoc, epochs_snoc, elem_of_app, list_elem_of_singleton, Hr, Hn. cbn. rewrite elem_of_nil. naive_solver.
  - destruct (snoc_unstamped h c) as [E1 E2]. destruct (last_stamped h) as [s|] eqn:El; (split; [done|]); split; cbn; rewrite ?E1, ?E2, ?El; done.
Qed.

(** Another slot's change leaves this one's alone. *)
Lemma admit_change_other f slot h gone s c o : s <> slot -> fence_holds f slot h gone -> fence_holds (admit_change f s c o).2 slot h gone.
Proof.
  intros Hne [Hc Hr Ht]. unfold admit_change. destruct (bool_decide (s ∈ terminal f)); [done|]. destruct (match o with Some _ => _ | None => _ end); [done|].
  assert (Hret : forall e e1, (slot, e1) ∈ {[(s, e)]} ∪ retired f <-> (slot, e1) ∈ retired f) by set_solver.
  destruct (current f !! s) as [[e0 c0]|], o as [e|]; cbn [cs_epoch cs_connected]; [|done| |done].
  - destruct (e0 =? e); [destruct (_ && _); [done|]|destruct c; [|done]]; (split; cbn; [by rewrite lookup_insert_ne| |done]); [done|]. intros e1. by rewrite Hret.
  - split; cbn; [by rewrite lookup_insert_ne|done|done].
Qed.

Lemma fence_run_exact ops slot : forall f h gone, fence_holds f slot h gone -> answers slot ops (fence_run f ops).1 = (shown slot h gone ops).1.1.
Proof.
  induction ops as [|o ops IH]; intros f h gone Hf; [done|]. destruct o as [s c o|s]; cbn [fence_run fence_step shown].
  - destruct (Z.eqb_spec s slot) as [->|Hne].
    + destruct (admit_change_exact f slot h gone c o Hf) as [E1 E2]. destruct (admit_change f slot c o) as [b f1]. cbn [fst snd] in *. specialize (IH _ _ _ E2). destruct (fence_run f1 ops) as [bs f2]. destruct (shown slot _ gone ops) as [[bs' h'] g']. cbn [fst] in *. cbn [answers]. rewrite Z.eqb_refl. by rewrite E1, IH.
    + pose proof (admit_change_other f slot h gone s c o Hne Hf) as E2. destruct (admit_change f s c o) as [b f1]. cbn [snd] in E2. specialize (IH _ _ _ E2). destruct (fence_run f1 ops) as [bs f2]. cbn [fst answers] in *. by rewrite (proj2 (Z.eqb_neq _ _) Hne).
  - assert (E2 : fence_holds (mark_terminal f s) slot h (gone || (s =? slot))).
    { destruct Hf as [Hc Hr Ht]. split; [done|done|]. cbn. rewrite elem_of_union, elem_of_singleton, Ht, orb_true_iff, Z.eqb_eq. naive_solver. }
    specialize (IH _ _ _ E2). destruct (fence_run (mark_terminal f s) ops) as [bs f2]. exact IH.
Qed.

(** C6 The fence is the rule: over any changes and departures, a member's change
    is shown exactly when its departure is not final and its display may go
    there from all it has shown.  In particular no delayed frame of a connection
    that was replaced is ever shown. *)
Theorem fence_follows_lifecycle (ops : list FenceOp) (slot : Z) :
  answers slot ops (fence_run new_fence ops).1 = (shown slot [] false ops).1.1.
Proof. apply fence_run_exact. split; [done|cbn; intros e; split; [by intros ?%elem_of_empty|by intros [?%elem_of_nil _]]|split; [by intros ?%elem_of_empty|done]]. Qed.

(** ** The way back *)

Definition RECONNECT_BACKOFF_INITIAL : Z := 500 * NANOS_PER_MILLI.
Definition RECONNECT_BACKOFF_CAP : Z := 5000 * NANOS_PER_MILLI.
Definition ESCALATE_AFTER : Z := 10000 * NANOS_PER_MILLI.
Definition ESCALATE_RETRY : Z := 15000 * NANOS_PER_MILLI.

Record Backoff : Type := mkBackoff { attempt : Z; rng : Z }.

Definition base_delay (a : Z) : Z :=
  let factor := if a <? 32 then Z.shiftl 1 a mod 2 ^ 32 else u32_max in
  Z.min (RECONNECT_BACKOFF_INITIAL * factor) RECONNECT_BACKOFF_CAP.

Definition wrap64 (x : Z) : Z := x mod 2 ^ 64.

Definition next_rand (b : Backoff) : Z * Backoff :=
  let x := rng b in
  let x := Z.lxor x (wrap64 (Z.shiftl x 13)) in
  let x := Z.lxor x (Z.shiftr x 7) in
  let x := Z.lxor x (wrap64 (Z.shiftl x 17)) in
  (x, mkBackoff (attempt b) x).

Definition next_delay (b : Backoff) : Z * Backoff :=
  let base := as_millis (base_delay (attempt b)) in
  let b := mkBackoff (saturating_add u32_max (attempt b) 1) (rng b) in
  let half := base / 2 in
  if half =? 0 then (base * NANOS_PER_MILLI, b)
  else let '(x, b) := next_rand b in ((base - x mod (half + 1)) * NANOS_PER_MILLI, b).

Definition backoff_reset (b : Backoff) : Backoff := mkBackoff 0 (rng b).

(** Every wait is between a quarter of a second and the cap. *)
Lemma backoff_delay_bounds b : 0 <= attempt b <= u32_max -> 0 <= rng b ->
  let r := next_delay b in
  250 * NANOS_PER_MILLI <= r.1 <= RECONNECT_BACKOFF_CAP /\ 0 <= attempt r.2 <= u32_max /\ 0 <= rng r.2.
Proof.
  intros Ha Hr. cbv zeta. unfold next_delay, base_delay.
  set (factor := if attempt b <? 32 then _ else _). assert (Hf : 1 <= factor).
  { unfold factor. destruct (Z.ltb_spec (attempt b) 32); [|unfold u32_max; lia]. rewrite Z.shiftl_1_l, Z.mod_small; [|split; [lia|apply Z.pow_lt_mono_r; lia]]. pose proof (Z.pow_pos_nonneg 2 (attempt b)). lia. }
  set (base := as_millis (Z.min (RECONNECT_BACKOFF_INITIAL * factor) RECONNECT_BACKOFF_CAP)). assert (Hb : 500 <= base <= 5000).
  { unfold base, as_millis, RECONNECT_BACKOFF_INITIAL, RECONNECT_BACKOFF_CAP, NANOS_PER_MILLI. split; [apply Z.div_le_lower_bound; lia|]. apply Z.div_le_upper_bound; lia. }
  assert (Hh : 250 <= base / 2 <= 2500 /\ 2 * (base / 2) <= base) by (pose proof (Z.div_mod base 2 ltac:(lia)); pose proof (Z.mod_pos_bound base 2 ltac:(lia)); lia).
  destruct (Z.eqb_spec (base / 2) 0); [lia|]. unfold next_rand. cbn [attempt rng fst snd].
  set (x1 := Z.lxor (rng b) _). set (x2 := Z.lxor x1 _). set (x3 := Z.lxor x2 _).
  assert (Hx : 0 <= x3).
  { assert (Hw : forall y, 0 <= wrap64 y) by (intros y; apply Z.mod_pos_bound; lia).
    assert (H1 : 0 <= x1) by (apply Z.lxor_nonneg; split; intros _; [apply Hw|done]).
    assert (H2 : 0 <= x2) by (apply Z.lxor_nonneg; split; intros _; [by apply Z.shiftr_nonneg|done]). apply Z.lxor_nonneg. split; intros _; [apply Hw|done]. }
  pose proof (Z.mod_pos_bound x3 (base / 2 + 1) ltac:(lia)) as Hm. unfold RECONNECT_BACKOFF_CAP, NANOS_PER_MILLI in *. split; [lia|]. unfold saturating_add. split; [lia|done].
Qed.

Inductive DialError : Type := DialSlotDeparted | DialEvidenceRejected | DialFailed (cert_rejection : bool).
Inductive DialOutcome : Type := Connected | Refused (e : DialError).

Definition is_cert_rejection (e : DialError) : bool := match e with DialFailed c => c | _ => false end.
Definition refusal (e : DialError) : option DriverError :=
  match e with DialSlotDeparted => Some SlotDeparted | DialEvidenceRejected => Some EvidenceRejected | DialFailed _ => None end.

Record ReconnectTarget : Type := mkReconnectTarget { addrs : list Z; next_addr : nat; relay_id : Z }.

Definition new_target (primary : Z) (fallbacks : list Z) (first : nat) (relay : Z) : ReconnectTarget :=
  mkReconnectTarget (primary :: fallbacks) (first mod length (primary :: fallbacks)) relay.

Definition current_addr (t : ReconnectTarget) : option Z := addrs t !! next_addr t.

Definition advance_addr (t : ReconnectTarget) : ReconnectTarget :=
  mkReconnectTarget (addrs t) ((next_addr t + 1) mod length (addrs t)) (relay_id t).

(** [dials] answers the dial of each address by its index. *)
Fixpoint dial_from (dials : nat -> DialOutcome) (rest : list Z) (index : nat) (t : ReconnectTarget) : result unit DialError * ReconnectTarget :=
  let t := mkReconnectTarget (addrs t) index (relay_id t) in
  match dials index with
  | Connected => (Ok tt, t)
  | Refused e =>
      match rest, refusal e with
      | _ :: rest, None => dial_from dials rest (S index) t
      | _, _ => (Err e, t)
      end
  end.

Definition dial_each_address (dials : nat -> DialOutcome) (t : ReconnectTarget) : result unit DialError * ReconnectTarget :=
  dial_from dials (drop 1 (addrs t)) 0 t.

Inductive RehomeOutcome : Type :=
| RehomeStay
| RehomeUnavailable
| RehomeDeparted
| RehomeNewTarget (relay primary : Z) (fallbacks : list Z).

Inductive WaitOutcome : Type := WaitElapsed | WaitGameGone | WaitExhausted (buffered : Z).
Inductive EscalationWait : Type := Answered (o : RehomeOutcome) | AskTimedOut | AskGameGone | AskExhausted (buffered : Z).

(** The parts of [ReconnectDriver] and [reconnect_link] that last. *)
Record Redialer : Type := mkRedialer { rd_target : ReconnectTarget; rd_backoff : Backoff; next_escalate_at : Z; escalated_once : bool }.

Record RedialConfig : Type := mkRedialConfig { has_provider : bool; rc_game_started : bool; escalate_after : Z; escalate_retry : Z }.

(** What one turn of the loop meets: an expired token, how the wait ended, the
    dial's answer and the instant of its failure, the provider's answer and the
    instant after it, and the answers of the new relay's addresses. *)
Record Try : Type := mkTry {
  t_expired : bool;
  t_wait : WaitOutcome;
  t_dial : DialOutcome;
  t_failed_at : Z;
  t_ask : EscalationWait;
  t_answered_at : Z;
  t_dials : nat -> DialOutcome;
}.

Inductive Turned : Type := Again | ResumedHere | ResumedElsewhere | EndsWith (e : DriverError) | EndsGone.

Definition with_target (r : Redialer) (t : ReconnectTarget) : Redialer := mkRedialer t (rd_backoff r) (next_escalate_at r) (escalated_once r).
Definition escalate_at (r : Redialer) (at_ : Z) : Redialer := mkRedialer (rd_target r) (rd_backoff r) at_ (escalated_once r).

(** The provider's answer. *)
Definition on_answer (cfg : RedialConfig) (r : Redialer) (x : Try) : Turned * Redialer :=
  match t_ask x with
  | AskGameGone => (EndsGone, r)
  | AskExhausted n => (EndsWith (OutageBufferExhausted n), r)
  | AskTimedOut | Answered RehomeUnavailable => (Again, escalate_at r (t_answered_at x + escalate_retry cfg))
  | Answered RehomeStay => (Again, escalate_at r (t_answered_at x + escalate_after cfg))
  | Answered RehomeDeparted => (EndsWith SlotDeparted, r)
  | Answered (RehomeNewTarget relay primary fallbacks) =>
      match dial_each_address (t_dials x) (new_target primary fallbacks 0 relay) with
      | (Ok _, t) => (ResumedElsewhere, mkRedialer t (backoff_reset (rd_backoff r)) (next_escalate_at r) (escalated_once r))
      | (Err e, _) =>
          match refusal e with
          | Some err => (EndsWith err, r)
          | None => (Again, escalate_at r (t_answered_at x + escalate_retry cfg))
          end
      end
  end.

(** One turn of [reconnect_link]'s loop, and the relay named dead when the
    provider is asked. *)
Definition redial_once (cfg : RedialConfig) (r : Redialer) (x : Try) : Turned * option Z * Redialer :=
  if t_expired x then (EndsWith TokenExpired, None, r)
  else
    let r := mkRedialer (rd_target r) (next_delay (rd_backoff r)).2 (next_escalate_at r) (escalated_once r) in
    match t_wait x with
    | WaitGameGone => (EndsGone, None, r)
    | WaitExhausted n => (EndsWith (OutageBufferExhausted n), None, r)
    | WaitElapsed =>
        match t_dial x with
        | Connected => (ResumedHere, None, mkRedialer (rd_target r) (backoff_reset (rd_backoff r)) (next_escalate_at r) (escalated_once r))
        | Refused e =>
            match refusal e with
            | Some err => (EndsWith err, None, r)
            | None =>
                let r := with_target r (advance_addr (rd_target r)) in
                if has_provider cfg && rc_game_started cfg then
                  let r := if negb (escalated_once r) && is_cert_rejection e then escalate_at r (t_failed_at x) else r in
                  if next_escalate_at r <=? t_failed_at x then
                    let r := mkRedialer (rd_target r) (rd_backoff r) (next_escalate_at r) true in
                    let '(out, r') := on_answer cfg r x in (out, Some (relay_id (rd_target r)), r')
                  else (Again, None, r)
                else (Again, None, r)
            end
        end
    end.

(** An outage: the loop from its entry until it returns, with the instants and
    relays of the asks. *)
Fixpoint redial_run (cfg : RedialConfig) (r : Redialer) (xs : list Try) : list (Try * Z) * Turned * Redialer :=
  match xs with
  | [] => ([], Again, r)
  | x :: xs =>
      let '(out, ask, r) := redial_once cfg r x in
      let asks := match ask with Some relay => [(x, relay)] | None => [] end in
      match out with
      | Again => let '(later, out, r) := redial_run cfg r xs in (asks ++ later, out, r)
      | _ => (asks, out, r)
      end
  end.

Definition enter_redial (cfg : RedialConfig) (t : ReconnectTarget) (b : Backoff) (now : Z) : Redialer :=
  mkRedialer t b (now + escalate_after cfg) false.

(** ** The redial loop is paced *)

Definition target_ok (t : ReconnectTarget) : Prop := (next_addr t < length (addrs t))%nat.

Lemma new_target_ok primary fallbacks first relay : target_ok (new_target primary fallbacks first relay).
Proof. unfold target_ok, new_target. cbn [next_addr addrs]. apply Nat.mod_upper_bound. done. Qed.

Lemma dial_from_spec dials rest : forall index t, (index + S (length rest) = length (addrs t))%nat ->
  let r := dial_from dials rest index t in
  target_ok r.2 /\ addrs r.2 = addrs t /\ relay_id r.2 = relay_id t /\
  match r.1 with
  | Ok _ => dials (next_addr r.2) = Connected
  | Err e => dials (next_addr r.2) = Refused e /\ (refusal e = None -> forall i, (index <= i < length (addrs t))%nat -> exists e', dials i = Refused e')
  end.
Proof.
  induction rest as [|a rest IH]; intros index t Hl; cbv zeta; cbn [dial_from length] in *; destruct (dials index) as [|e] eqn:Ed.
  - cbn. split; [unfold target_ok; cbn; lia|done].
  - cbn. split; [unfold target_ok; cbn; lia|]. split; [done|]. split; [done|]. split; [done|]. intros _ i Hi. assert (i = index) as -> by lia. by exists e.
  - cbn. split; [unfold target_ok; cbn; lia|done].
  - destruct (refusal e) eqn:Er; [cbn; split; [unfold target_ok; cbn; lia|]; split; [done|]; split; [done|]; split; [done|]; congruence|].
    destruct (IH (S index) (mkReconnectTarget (addrs t) index (relay_id t)) ltac:(cbn; lia)) as (I1 & I2 & I3 & I4). destruct (dial_from dials rest (S index) _) as [[u|e1] t1]; cbn in *; (split; [done|]); (split; [done|]); (split; [done|]); [done|].
    destruct I4 as [J1 J2]. split; [done|]. intros Hn i Hi. destruct (decide (i = index)) as [->|]; [by exists e|]. apply J2; [done|lia].
Qed.

Fixpoint asks_spaced (gap from : Z) (asks : list (Try * Z)) : Prop :=
  match asks with
  | [] => True
  | (x, _) :: asks => from <= t_failed_at x /\ asks_spaced gap (t_answered_at x + gap) asks
  end.

Lemma asks_spaced_weaken gap a b asks : a <= b -> asks_spaced gap b asks -> asks_spaced gap a asks.
Proof. destruct asks as [|[x k] asks]; [done|]. cbn. intros ? [? ?]. split; [lia|done]. Qed.

(** After an answer the loop asks again only a gap later. *)
Lemma on_answer_gap cfg r x gap : gap <= escalate_after cfg -> gap <= escalate_retry cfg -> escalated_once r = true ->
  let o := on_answer cfg r x in
  o.1 = Again -> escalated_once o.2 = true /\ t_answered_at x + gap <= next_escalate_at o.2 /\ rd_target o.2 = rd_target r.
Proof.
  intros Ha Hr He. cbv zeta. unfold on_answer. destruct (t_ask x) as [[| | |relay primary fallbacks]| | |]; cbn [fst snd escalate_at next_escalate_at escalated_once rd_target]; try done; try (intros _; split; [done|]; split; [lia|done]).
  destruct (dial_each_address (t_dials x) (new_target primary fallbacks 0 relay)) as [[u|e] t]; [done|]. destruct (refusal e); [done|]. cbn [fst snd escalate_at next_escalate_at escalated_once rd_target]. intros _. split; [done|]. split; [lia|done].
Qed.

(** One turn, by the ask it makes. *)
Lemma redial_once_spec cfg r x gap : gap <= escalate_after cfg -> gap <= escalate_retry cfg -> target_ok (rd_target r) ->
  let '(out, ask, r') := redial_once cfg r x in
  (out = Again -> target_ok (rd_target r') /\ relay_id (rd_target r') = relay_id (rd_target r)) /\
  match ask with
  | None => out = Again -> escalated_once r' = escalated_once r /\ next_escalate_at r' = next_escalate_at r
  | Some relay =>
      relay = relay_id (rd_target r) /\ has_provider cfg = true /\ rc_game_started cfg = true /\
      (next_escalate_at r <= t_failed_at x \/ escalated_once r = false /\ exists e, t_dial x = Refused e /\ is_cert_rejection e = true) /\
      (out = Again -> escalated_once r' = true /\ t_answered_at x + gap <= next_escalate_at r')
  end.
Proof.
  intros Ha Hr Ht. unfold redial_once. destruct (t_expired x); [done|]. destruct (t_wait x); [|done|done]. destruct (t_dial x) as [|e]; [done|]. destruct (refusal e); [done|].
  set (b := (next_delay (rd_backoff r)).2). cbn [rd_target rd_backoff next_escalate_at escalated_once with_target].
  assert (Hadv : target_ok (advance_addr (rd_target r))) by (unfold target_ok, advance_addr in *; cbn; apply Nat.mod_upper_bound; lia).
  destruct (has_provider cfg), (rc_game_started cfg); cbn [andb]; try done.
  set (cert := negb (escalated_once r) && is_cert_rejection e). set (r1 := if cert then _ else _). assert (Hr1 : rd_target r1 = advance_addr (rd_target r) /\ escalated_once r1 = escalated_once r) by (unfold r1; by destruct cert).
  destruct Hr1 as [E1 E2]. destruct (Z.leb_spec (next_escalate_at r1) (t_failed_at x)) as [Hle|Hgt].
  - pose proof (on_answer_gap cfg (mkRedialer (rd_target r1) (rd_backoff r1) (next_escalate_at r1) true) x gap Ha Hr eq_refl) as K. destruct (on_answer cfg _ x) as [out r2]. cbn [fst snd rd_target] in *.
    split; [intros Ho; destruct (K Ho) as (_ & _ & ->); by rewrite E1|]. rewrite E1. split; [done|]. split; [done|]. split; [done|]. split; [|intros Ho; by destruct (K Ho) as (? & ? & _)].
    unfold r1 in Hle. destruct cert eqn:Ec; [right; unfold cert in Ec; apply andb_true_iff in Ec as [Ec1 Ec2]; split; [by destruct (escalated_once r)|by exists e]|by left].
  - split; [by rewrite E1|]. intros _. split; [done|]. unfold r1 in *. destruct cert; [|done]. cbn in Hgt. lia.
Qed.

Lemma redial_run_spaced cfg gap xs : gap <= escalate_after cfg -> gap <= escalate_retry cfg -> forall r, target_ok (rd_target r) ->
  let '(asks, _, _) := redial_run cfg r xs in
  Forall (fun a => a.2 = relay_id (rd_target r)) asks /\ (asks = [] \/ has_provider cfg = true /\ rc_game_started cfg = true) /\
  if escalated_once r then asks_spaced gap (next_escalate_at r) asks
  else match asks with
       | [] => True
       | (x, _) :: later =>
           (next_escalate_at r <= t_failed_at x \/ exists e, t_dial x = Refused e /\ is_cert_rejection e = true) /\ asks_spaced gap (t_answered_at x + gap) later
       end.
Proof.
  intros Ha Hr. induction xs as [|x xs IH]; intros r Ht; cbn [redial_run]; [split; [done|]; split; [by left|]; by destruct (escalated_once r)|].
  pose proof (redial_once_spec cfg r x gap Ha Hr Ht) as K. destruct (redial_once cfg r x) as [[out ask] r1]. destruct K as [K1 K2].
  assert (Hgo : out = Again -> let '(later, _, _) := redial_run cfg r1 xs in
    Forall (fun a => a.2 = relay_id (rd_target r)) later /\ (later = [] \/ has_provider cfg = true /\ rc_game_started cfg = true) /\
    if escalated_once r1 then asks_spaced gap (next_escalate_at r1) later
    else match later with [] => True | (y, _) :: l => (next_escalate_at r1 <= t_failed_at y \/ exists e, t_dial y = Refused e /\ is_cert_rejection e = true) /\ asks_spaced gap (t_answered_at y + gap) l end).
  { intros Ho. destruct (K1 Ho) as [T1 T2]. specialize (IH r1 T1). destruct (redial_run cfg r1 xs) as [[later o] r2]. by rewrite T2 in IH. }
  destruct ask as [relay|].
  - destruct K2 as (-> & P1 & P2 & P3 & P4).
    assert (Hlast : forall later, Forall (fun a => a.2 = relay_id (rd_target r)) later -> asks_spaced gap (t_answered_at x + gap) later ->
      Forall (fun a => a.2 = relay_id (rd_target r)) ((x, relay_id (rd_target r)) :: later) /\
      ((x, relay_id (rd_target r)) :: later = [] \/ has_provider cfg = true /\ rc_game_started cfg = true) /\
      if escalated_once r then asks_spaced gap (next_escalate_at r) ((x, relay_id (rd_target r)) :: later)
      else (next_escalate_at r <= t_failed_at x \/ exists e, t_dial x = Refused e /\ is_cert_rejection e = true) /\ asks_spaced gap (t_answered_at x + gap) later).
    { intros later L1 L2. split; [by constructor|]. split; [by right|]. destruct (escalated_once r); cbn; [|naive_solver]. split; [|done]. destruct P3 as [?|[? _]]; [done|congruence]. }
    destruct out; cbn [app]; try (by apply Hlast). specialize (Hgo eq_refl). destruct (P4 eq_refl) as [P5 P6]. rewrite P5 in Hgo. destruct (redial_run cfg r1 xs) as [[later o] r2]. destruct Hgo as (G1 & _ & G3).
    apply Hlast; [done|]. by eapply asks_spaced_weaken.
  - destruct out; cbn [app]; try (split; [done|]; split; [by left|]; by destruct (escalated_once r)). specialize (Hgo eq_refl). destruct (K2 eq_refl) as [K3 K4]. rewrite K3, K4 in Hgo. by destruct (redial_run cfg r1 xs) as [[later o] r2].
Qed.

(** A client in an outage does not storm the coordinator: the provider is asked
    only when there is one and the game has started, always about the relay the
    client is homed on, first no earlier than [escalate_after] unless the relay's
    certificate was rejected, and then only the shorter of the two waits after
    the last answer. *)
Theorem redial_escalates_gently (cfg : RedialConfig) (t : ReconnectTarget) (b : Backoff) (now : Z) (xs : list Try) :
  target_ok t ->
  let asks := (redial_run cfg (enter_redial cfg t b now) xs).1.1 in
  Forall (fun a => a.2 = relay_id t) asks /\
  (asks = [] \/ has_provider cfg = true /\ rc_game_started cfg = true) /\
  match asks with
  | [] => True
  | (x, _) :: later =>
      (now + escalate_after cfg <= t_failed_at x \/ exists e, t_dial x = Refused e /\ is_cert_rejection e = true) /\
      asks_spaced (Z.min (escalate_after cfg) (escalate_retry cfg)) (t_answered_at x + Z.min (escalate_after cfg) (escalate_retry cfg)) later
  end.
Proof.
  intros Ht. pose proof (redial_run_spaced cfg (Z.min (escalate_after cfg) (escalate_retry cfg)) xs ltac:(lia) ltac:(lia) (enter_redial cfg t b now) Ht) as K.
  by destruct (redial_run cfg (enter_redial cfg t b now) xs) as [[asks o] r].
Qed.

(** ** Concrete runs *)

Definition demo_leave_directive (seq : Z) : LeaveDirective := mkLeaveDirective true 3 6 40 seq (Some 12).

(** Two copies of slot 3's leave arrive around the polls: the second poll is the
    one its twelve turns are consumed at. *)
Definition demo_polls : list LeaveOp :=
  [Polled 40 (fun _ => 12); Observed (demo_leave_directive 1); Polled 41 (fun _ => 11); Polled 42 (fun _ => 12); Observed (demo_leave_directive 2); Polled 43 (fun _ => 12)].

Lemma counted_leave_on_its_turn_witness :
  (leave_run [] demo_polls).1 = [[]; []; []; [(3, 6)]; []; []] /\ about 3 (concat (leave_run [] demo_polls).1) = [(3, 6)].
Proof.
  split; [by vm_compute|].
  destruct (counted_leave_on_its_turn 3 12 6 demo_polls ltac:(vm_compute; discriminate)) as (_ & _ & H).
  - unfold demo_polls. repeat constructor; cbn; try done; lia.
  - apply (H [Polled 40 (fun _ => 12)] (demo_leave_directive 1) [Polled 41 (fun _ => 11)] 42 (fun _ => 12) [Observed (demo_leave_directive 2); Polled 43 (fun _ => 12)]); reflexivity.
Defined.

(** The home relay stays silent: the provider is asked at 10 s, answers that
    none is free, and is asked again 15 s later. *)
Definition demo_cfg : RedialConfig := mkRedialConfig true true ESCALATE_AFTER ESCALATE_RETRY.
Definition demo_try (at_ : Z) : Try :=
  mkTry false WaitElapsed (Refused (DialFailed false)) (at_ * 1000000000) (Answered RehomeUnavailable) (at_ * 1000000000 + 1) (fun _ => Connected).

Lemma redial_escalates_gently_witness :
  let asks := (redial_run demo_cfg (enter_redial demo_cfg (new_target 1 [2] 0 9) (mkBackoff 0 1) 0) (map demo_try [3; 7; 12; 18; 24; 30])).1.1 in
  map (fun a => t_failed_at a.1) asks = [12000000000; 30000000000] /\ Forall (fun a => a.2 = 9) asks.
Proof.
  split; [by vm_compute|].
  destruct (redial_escalates_gently demo_cfg (new_target 1 [2] 0 9) (mkBackoff 0 1) 0 (map demo_try [3; 7; 12; 18; 24; 30]) (new_target_ok 1 [2] 0 9)) as (H & _ & _).
  exact H.
Defined.
