(* ===== verification/Departure.v ===== *)
(** * Departures and synced leaves ([relay/src/consensus/maker/leave.rs],
    [maker/departure.rs], [maker/authority.rs], [maker/connection.rs])

    What a relay retains about a slot that left, how the leave every survivor
    applies is decided, and how a slot's connection generations are fenced.
    Every operation of the decision maker that touches departures, decided
    leaves or connection generations is here; the hold registry and the forward
    gate, which callers read, are arguments. *)

From Stdlib Require Import ZArith Lia.
From stdpp Require Import gmap sorting list.
From S2P Require Import Prelude.
From S2P Require Import Wire.
From S2P Require Import Presence.
From S2P Require Import Law.
From S2P Require Import Delivery.
From S2P Require Import Phase.
From S2P Require Import SyncTracker.
From S2P Require Import Seen.
From S2P Require Import Lead.
From S2P Require Import Clock.
From S2P Require Import Slot.
From S2P Require Import Maker.

Open Scope Z_scope.

(** ** Frame observation *)

(** [a.max(b)] when both are known, else the known one. *)
Definition max_known (a b : option Z) : option Z :=
  match a, b with
  | Some x, Some y => Some (Z.max x y)
  | Some _, None => a
  | None, _ => b
  end.

(** [if state.frame.is_none_or(|current| frame > current)]. *)
Definition raise_frame (s : SlotState) (f : Z) : SlotState :=
  if match frame s with None => true | Some current => current <? f end then set_frame s (Some f) else s.

Definition put_slot (m : Maker) (slot : Z) (s : SlotState) : Maker :=
  set_conns m (Maker.set_slots (conns m) (<[slot := s]> (slots (conns m)))).

Definition observe_frame (m : Maker) (slot f : Z) : Maker :=
  if bool_decide (is_Some (departures (lv m) !! slot)) then m
  else put_slot m slot (raise_frame (default default_slot (slots (conns m) !! slot)) f).

(** The sequence-ordered history: append past the last, else insert at the
    position a binary search of the strictly increasing keys finds, unless the
    key is there. *)
Fixpoint history_insert (seq f : Z) (h : list (Z * Z)) : list (Z * Z) :=
  match h with
  | [] => [(seq, f)]
  | (q, g) :: h =>
      if seq <? q then (seq, f) :: (q, g) :: h
      else if seq =? q then (q, g) :: h
      else (q, g) :: history_insert seq f h
  end.

Definition history_cap (b : BufferBounds) : nat := Z.to_nat (Z.max (saturating_add usize_max (bmax b) 4) 8).

(** [while len > cap { pop_front }]. *)
Definition history_trim (cap : nat) (h : list (Z * Z)) : list (Z * Z) := drop (length h - cap) h.

Definition observe_turn_frame (m : Maker) (slot seq f : Z) : option Z * Maker :=
  if bool_decide (is_Some (departures (lv m) !! slot)) then (None, m)
  else
    let s := default default_slot (slots (conns m) !! slot) in
    let regression :=
      match newest_framed_seq s, frame s with
      | Some newest, Some prior =>
          if (newest <? seq) && (f <? prior) && negb (frame_regression_reported s) then Some prior else None
      | _, _ => None
      end in
    let s1 := raise_frame s f in
    let s2 := mkSlotState (link s1) (frame s1) (history_trim (history_cap (bounds m)) (history_insert seq f (frame_history s)))
      (if match newest_framed_seq s with None => true | Some newest => newest <? seq end then Some seq
       else newest_framed_seq s)
      (last_forward_advance_at s) (connection_up_at s)
      (frame_regression_reported s || bool_decide (is_Some regression)) in
    (regression, put_slot m slot s2).

(** The newest history entry of a slot other than the departing one. *)
Definition frontier_turn (m : Maker) (departing : Z) : option Z :=
  map_fold (fun slot s acc => if slot =? departing then acc else max_known acc (fst <$> last (frame_history s))) None
    (slots (conns m)).

Definition executed_frame (threshold : Z) (h : list (Z * Z)) : option Z :=
  match foldl (fun acc e => max_known acc (Some e.2)) None (filter (fun e => e.1 <= threshold) h) with
  | Some f => Some f
  | None => snd <$> head h
  end.

Definition min_known (acc f : option Z) : option Z :=
  match acc, f with
  | Some c, Some x => Some (Z.min c x)
  | None, _ => f
  | _, None => acc
  end.

Definition reachable_frame (m : Maker) (departing : Z) : option Z :=
  frontier ← frontier_turn m departing;
  let threshold := saturating_sub frontier (bmax (bounds m)) in
  map_fold (fun slot s acc => if slot =? departing then acc else min_known acc (executed_frame threshold (frame_history s)))
    None (slots (conns m)).

(** ** Recording a departure *)

Definition valid_result (r : option ResultEcho) : option ResultEcho :=
  match r with
  | Some e => if result_payload_is_valid (payload e) then Some e else None
  | None => None
  end.

Definition or_else {A} (a b : option A) : option A := match a with Some _ => a | None => b end.

Definition lift_state (s : option SlotState) (f : option Z) : option SlotState :=
  match s, f with
  | Some st, Some fr => Some (raise_frame st fr)
  | _, _ => s
  end.

(** What an observation adds to a record of the slot, or the record it opens. *)
Definition merge_departure (existing : option Departure) (merged : option Z) (state : option SlotState)
    (st : DepartureStamps) (why : Z) (epoch : option Z) : Departure :=
  match existing with
  | Some d =>
      let lf := max_known (last_frame d) merged in
      mkDeparture lf (lift_state (or_else (slot_state d) state) lf) (or_else (reachable d) (st_reachable_frame st))
        (reason d) (or_else (d_result d) (valid_result (st_result st)))
        (or_else (final_turn_count d) (st_final_turn_count st)) (finalized d || st_finalized st)
        (or_else (connection_epoch d) epoch)
  | None =>
      mkDeparture merged state (st_reachable_frame st) why (valid_result (st_result st)) (st_final_turn_count st)
        (st_finalized st) epoch
  end.

Definition note_departure (m : Maker) (slot : Z) (st : DepartureStamps) (why : Z) (epoch : option Z) : Maker :=
  let own := slots (conns m) !! slot in
  let merged := max_known (st_last_frame st) (own ≫= frame) in
  let state := lift_state own merged in
  let m := set_conns m (Maker.set_slots (conns m) (delete slot (slots (conns m)))) in
  let m := set_lv m (set_departures (lv m)
    (<[slot := merge_departure (departures (lv m) !! slot) merged state st why epoch]> (departures (lv m)))) in
  let m := set_sync_tracker m (remove_member (sync m) slot) in
  set_roster m (set_live (roster m) (live_slots (roster m) ∖ {[slot]})).

Definition forget_delivery (m : Maker) (slot : Z) : Maker := set_delivery m (forget_slot (delivery m) slot).

(** ** Connection generations *)

Definition mark_connection_down (m : Maker) (slot : Z) (observed : option Z) : bool * Maker :=
  let down e := set_conns m (set_states (conns m) (<[slot := Down e]> (connection_states (conns m)))) in
  match connection_states (conns m) !! slot, observed with
  | None, None => (true, m)
  | None, Some e => (true, down e)
  | Some (Up current), Some e => if current =? e then (true, down e) else (false, m)
  | Some (Down current), Some e => (current =? e, m)
  | Some _, None => (false, m)
  end.

Definition connection_epoch_matches (m : Maker) (slot : Z) (epoch : option Z) : bool :=
  match connection_states (conns m) !! slot, epoch with
  | Some current, Some observed => epoch_of current =? observed
  | None, None => true
  | _, _ => false
  end.

Definition connection_is_up (m : Maker) (slot : Z) : bool :=
  match connection_states (conns m) !! slot with Some (Up _) => true | _ => false end.

Definition is_retired (m : Maker) (slot epoch : Z) : bool :=
  bool_decide (epoch ∈ default ∅ (retired_connection_epochs (conns m) !! slot)).

Definition departed (m : Maker) (slot : Z) : bool := bool_decide (is_Some (departures (lv m) !! slot)).
Definition leave_decided (m : Maker) (slot : Z) : bool := bool_decide (is_Some (decided_leaves (lv m) !! slot)).

(** The replacement of a slot's generation by a new one. *)
Definition replace_epoch (m : Maker) (slot epoch now : Z) : Maker :=
  let c := conns m in
  let retired :=
    match connection_states c !! slot with
    | Some superseded =>
        <[slot := {[epoch_of superseded]} ∪ default ∅ (retired_connection_epochs c !! slot)]> (retired_connection_epochs c)
    | None => retired_connection_epochs c
    end in
  let slots' :=
    match slots c !! slot with
    | Some s => <[slot := set_up_at (reset_link_conditions s) now]> (slots c)
    | None => slots c
    end in
  let m1 := set_conns m (mkConnections slots' (<[slot := Up epoch]> (connection_states c)) retired) in
  if rollback_enabled m && bool_decide (slot ∈ homed_slots (roster m)) && bool_decide (slot ∈ rehomed_homes (roster m))
  then set_lead m1 (begin_rehome (lead m) slot (final_through (clock m)))
  else m1.

Definition activate_connection_epoch (m : Maker) (slot epoch now : Z) : bool * Maker :=
  if departed m slot || leave_decided m slot then (false, m)
  else if is_retired m slot epoch then (false, m)
  else
    match connection_states (conns m) !! slot with
    | Some (Up current) => if current =? epoch then (true, m) else (true, replace_epoch m slot epoch now)
    | Some (Down current) => if current =? epoch then (false, m) else (true, replace_epoch m slot epoch now)
    | None => (true, replace_epoch m slot epoch now)
    end.

Definition connection_activation (m : Maker) (slot : Z) (observed : option Z) : ConnectionActivation :=
  if leave_decided m slot then RejectedActivation
  else if match observed with Some e => is_retired m slot e | None => false end then RejectedActivation
  else if departed m slot && bool_decide (connection_states (conns m) !! slot = None) && bool_decide (observed = None)
  then Replacement
  else
    match connection_states (conns m) !! slot, observed with
    | None, None => Current
    | None, Some _ => Replacement
    | Some (Up current), Some e => if current =? e then Current else Replacement
    | Some (Down current), Some e => if current =? e then RejectedActivation else Replacement
    | Some _, None => RejectedActivation
    end.

Definition admit_connection_up (m : Maker) (slot : Z) (observed : option Z) (now : Z) : bool * Maker :=
  if departed m slot || leave_decided m slot then (false, m)
  else
    match observed with
    | Some epoch => activate_connection_epoch m slot epoch now
    | None => (bool_decide (connection_states (conns m) !! slot = None), m)
    end.

(** ** Return of a departed slot *)

Definition reinstate_slot (m : Maker) (slot now : Z) : bool * Maker :=
  if leave_decided m slot then (false, m)
  else
    match departures (lv m) !! slot with
    | None => (false, m)
    | Some d =>
        let s := default default_slot (slot_state d) in
        let s := match last_frame d with Some f => raise_frame s f | None => s end in
        let m := set_lv m (set_departures (lv m) (delete slot (departures (lv m)))) in
        (true, put_slot m slot (set_up_at (reset_link_conditions s) now))
    end.

Definition resolve_reconnect (m : Maker) (slot : Z) (observed : option Z) (hold_pending : bool) (now : Z) :
    ReconnectTransition * Maker :=
  if leave_decided m slot then (mkReconnectTransition ReconnectRejected hold_pending, m)
  else if bool_decide (is_Some (evictions (roster m) !! slot)) then (mkReconnectTransition ReconnectRejected false, m)
  else if bool_decide (slot ∈ finalizing_drops (lv m)) then (mkReconnectTransition ReconnectRejected false, m)
  else
    match connection_activation m slot observed with
    | RejectedActivation => (mkReconnectTransition ReconnectRejected false, m)
    | _ =>
        let reinstated := departed m slot in
        if reinstated && negb hold_pending then (mkReconnectTransition ReconnectRejected false, m)
        else
          let '(restored, m1) := if reinstated then reinstate_slot m slot now else (true, m) in
          if negb restored then (mkReconnectTransition ReconnectRejected hold_pending, m1)
          else
            let '(admitted, m2) := admit_connection_up m1 slot observed now in
            (mkReconnectTransition (if admitted then ReconnectAdmitted reinstated else ReconnectRejected) hold_pending, m2)
    end.

(** ** Deciding a leave *)

Definition leave_base_frame (slot_last session : option Z) : option Z := or_else slot_last session.

Definition game_underway (m : Maker) : bool :=
  negb (bool_decide (started_slots (roster m) = ∅)) || negb (bool_decide (peer_started_slots (roster m) = ∅)).

Definition is_finalized (m : Maker) (slot why : Z) : bool :=
  (why =? LEAVE_REASON_DROPPED) &&
  match departures (lv m) !! slot with
  | Some d => finalized d && bool_decide (is_Some (final_turn_count d))
  | None => false
  end.

Definition count_to_emit (m : Maker) (slot why : Z) : option Z :=
  let recorded := departures (lv m) !! slot ≫= final_turn_count in
  if why =? LEAVE_REASON_DROPPED then (if is_finalized m slot why then recorded else None)
  else if resumed (lv m) then None else recorded.

Definition wrap_u32 (x : Z) : Z := x mod 2 ^ 32.

Definition note_leave_decided (l : Leaves) (slot now : Z) : Leaves :=
  set_decided_at l (<[slot := default now (decided_leave_at l !! slot)]> (decided_leave_at l)).

(** [self.next_leave_seq += 1], the directive, its caching and its instant. *)
Definition cache_leave (m : Maker) (slot : Z) (fin : bool) (why apply_at : Z) (count : option Z) (now : Z) :
    LeaveDirective * Maker :=
  let n := wrap_u32 (next_leave_seq (lv m) + 1) in
  let directive := mkLeaveDirective fin slot why apply_at n count in
  (directive, set_lv m (note_leave_decided (set_decided (lv m) (<[slot := directive]> (decided_leaves (lv m))) n) slot now)).

Definition scheduled_frame (m : Maker) (slot why : Z) : option Z :=
  let record := departures (lv m) !! slot in
  let slot_last := record ≫= last_frame in
  match leave_base_frame slot_last (session_frame m) with
  | Some base =>
      let clamped := match slot_last, record ≫= reachable with Some _, Some ceiling => Z.min base ceiling | _, _ => base end in
      Some (saturating_add u32_max clamped 1)
  | None => if bool_decide (is_Some (count_to_emit m slot why)) && game_underway m then Some 0 else None
  end.

Definition commit_leave (m : Maker) (slot why now : Z) : option LeaveDirective * Maker :=
  if leave_decided m slot then (None, m)
  else
    match scheduled_frame m slot why with
    | None => (None, m)
    | Some f =>
        let r := cache_leave m slot (is_finalized m slot why) why f (count_to_emit m slot why) now in
        (Some r.1, r.2)
    end.

Definition decide_leave (m : Maker) (slot why now : Z) : option LeaveDirective * Maker :=
  let m := note_departure m slot no_stamps why None in
  match authority m with
  | AuthSelf => commit_leave m slot why now
  | AuthPeer => (None, m)
  end.

Definition force_decide_leave (m : Maker) (slot why now : Z) : option LeaveDirective * Maker :=
  let m := note_departure m slot no_stamps why None in
  match commit_leave m slot why now with
  | (Some d, m') => (Some d, m')
  | (None, m') =>
      if leave_decided m' slot then (None, m')
      else let r := cache_leave m' slot (is_finalized m' slot why) why 0 (count_to_emit m' slot why) now in (Some r.1, r.2)
  end.

Definition undecided_departures (m : Maker) : list (Z * Z) :=
  (fun p => (p.1, reason p.2)) <$>
    filter (fun p => decided_leaves (lv m) !! p.1 = None) (map_to_list (departures (lv m))).

Definition has_undecided_departure (m : Maker) : bool := negb (bool_decide (undecided_departures m = [])).

Definition counted_leave_schedulable (m : Maker) (slot : Z) : bool :=
  game_underway m || bool_decide (is_Some (session_frame m)) ||
  bool_decide (is_Some (departures (lv m) !! slot ≫= last_frame)).

(** ** Observing the authority's leave *)

Definition normalize_observed_leave (d : LeaveDirective) (finalized_drops : bool) : LeaveDirective :=
  if (ld_reason d =? LEAVE_REASON_DROPPED)
     && (bool_decide (is_Some (ld_final_turn_count d)) || ld_finalized d)
     && negb (ld_finalized d && finalized_drops)
  then mkLeaveDirective false (ld_slot d) (ld_reason d) (ld_apply_at_frame d) (leave_seq d) None
  else d.

Definition raise_leave_seq (l : Leaves) (n : Z) : Leaves :=
  if next_leave_seq l <? n then set_decided l (decided_leaves l) n else l.

Definition observe_leave (m : Maker) (d : LeaveDirective) (now : Z) : bool * Maker :=
  let d := normalize_observed_leave d (finalized_drops_enabled m) in
  match u8_try_from (ld_slot d) with
  | None => (false, m)
  | Some slot =>
      if leave_decided m slot then (false, set_lv m (raise_leave_seq (lv m) (leave_seq d)))
      else
        let l := set_decided (lv m) (<[slot := d]> (decided_leaves (lv m))) (next_leave_seq (lv m)) in
        let m := set_lv m (note_leave_decided (raise_leave_seq l (leave_seq d)) slot now) in
        let m :=
          match connection_states (conns m) !! slot with
          | Some (Up e) => set_conns m (set_states (conns m) (<[slot := Down e]> (connection_states (conns m))))
          | _ => m
          end in
        let m := note_departure m slot
          (mkDepartureStamps None None (results (lv m) !! slot) (ld_final_turn_count d) false) (ld_reason d) None in
        (true, forget_delivery m slot)
  end.

(** ** Recording entry points *)

Definition record_departure (m : Maker) (slot : Z) (st : DepartureStamps) (why : Z) : Maker :=
  forget_delivery (note_departure m slot st why None) slot.

Definition record_departure_for_epoch (m : Maker) (slot : Z) (st : DepartureStamps) (why : Z) (epoch : option Z) :
    bool * Maker :=
  match mark_connection_down m slot epoch with
  | (false, m') => (false, m')
  | (true, m') => (true, forget_delivery (note_departure m' slot st why epoch) slot)
  end.

Definition merge_terminal_departure (m : Maker) (slot : Z) (st : DepartureStamps) (why : Z) : Maker :=
  forget_delivery (note_departure m slot st why None) slot.

(** [DecisionMakers::record_departure_for_epoch_outcome]. *)
Definition record_departure_outcome (m : Maker) (slot : Z) (st : DepartureStamps) (why : Z) (epoch : option Z) :
    DepartureRecordOutcome * Maker :=
  if leave_decided m slot then (Terminal, merge_terminal_departure m slot st why)
  else
    match record_departure_for_epoch m slot st why epoch with
    | (false, m') => (RejectedDeparture, m')
    | (true, m') => (Pending, m')
    end.

Definition record_result (m : Maker) (slot : Z) (echo : ResultEcho) : bool * Maker :=
  if negb (result_payload_is_valid (payload echo)) then (false, m)
  else
    match results (lv m) !! slot with
    | Some _ => (false, m)
    | None => (true, set_lv m (set_results (lv m) (<[slot := echo]> (results (lv m)))))
    end.

Definition remove_slot (m : Maker) (slot : Z) : Maker :=
  let m := set_conns m (Maker.set_slots (conns m) (delete slot (slots (conns m)))) in
  let m := forget_delivery m slot in
  set_phase_ctl m (Phase.remove_slot (phase_ctl m) slot).

Definition remove_slot_for_epoch (m : Maker) (slot : Z) (epoch : option Z) : bool * Maker :=
  if connection_epoch_matches m slot epoch then (true, remove_slot m slot) else (false, m).

(** ** Seeding a re-homed session *)

Definition seed_departed (m : Maker) (d : DepartedSlot) (now : Z) : option LeaveDirective * Maker :=
  let dropped := match ds_kind d with Dropped => true | Left => false end in
  let fin := dropped && ds_finalized d && finalized_drops_enabled m in
  let count := if dropped && negb fin then None else ds_final_turn_count d in
  let why := if dropped then LEAVE_REASON_DROPPED else LEAVE_REASON_LEFT in
  let m := note_departure m (ds_slot d) (mkDepartureStamps None None None count fin) why None in
  if leave_decided m (ds_slot d) then (None, m)
  else
    let base := default 0 (session_frame m) in
    let r := cache_leave m (ds_slot d) (fin && bool_decide (is_Some count)) why (saturating_add u32_max base 1) count now in
    (Some r.1, r.2).

Fixpoint seed_all (m : Maker) (ds : list DepartedSlot) (now : Z) : list LeaveDirective * Maker :=
  match ds with
  | [] => ([], m)
  | d :: ds =>
      let '(o, m1) := seed_departed m d now in
      let '(out, m2) := seed_all m1 ds now in
      (match o with Some x => x :: out | None => out end, m2)
  end.

Definition mark_started (m : Maker) (now : Z) : Maker := set_roster m (latch (roster m) now).

Definition seed_resumed (m : Maker) (ds : list DepartedSlot) (now : Z) : list LeaveDirective * Maker :=
  let '(seeded, m1) := seed_all m ds now in
  let m2 := mark_started m1 now in
  (seeded, set_lv m2 (set_resumed (lv m2))).

(** ** Finalizing a drop *)

Inductive FinalizeOutcome : Type := Finalized (count : Z) | RejectedLive | RejectedNoCursor.

Definition departure_epoch (m : Maker) (slot : Z) : option Z := departures (lv m) !! slot ≫= connection_epoch.

(** [None] is [Ok(())]: the seal is installed. *)
Definition seal_for_finalize (m : Maker) (slot : Z) (requested : option Z) : option FinalizeOutcome * Maker :=
  match decided_leaves (lv m) !! slot with
  | Some d =>
      (Some match ld_finalized d, ld_final_turn_count d with
            | true, Some n => Finalized n
            | _, _ => RejectedLive
            end, m)
  | None =>
      if connection_is_up m slot then (Some RejectedLive, m)
      else if negb (bool_decide (departure_epoch m slot = requested)) then (Some RejectedLive, m)
      else if bool_decide (slot ∈ rehomed_homes (roster m)) then (Some RejectedNoCursor, m)
      else if negb (counted_leave_schedulable m slot) then (Some RejectedNoCursor, m)
      else (None, set_lv m (set_finalizing (lv m) ({[slot]} ∪ finalizing_drops (lv m))))
  end.

Definition home_forwarded_nothing (m : Maker) (slot : Z) : bool :=
  bool_decide (slot ∈ homed_slots (roster m)) && negb (bool_decide (slot ∈ rehomed_homes (roster m)))
  && negb (bool_decide (slot ∈ forwarded_slots (roster m)))
  && match departures (lv m) !! slot with Some d => bool_decide (last_frame d = None) | None => false end.

Definition finish_finalize (m : Maker) (slot : Z) (reading : ForwardGateReading) : FinalizeOutcome * Maker :=
  let count :=
    match reading with
    | Count n => Some n
    | NeverForwarded => if home_forwarded_nothing m slot then Some 0 else None
    | Unsound => None
    end in
  match count with
  | Some n => (Finalized n, note_departure m slot (mkDepartureStamps None None None (Some n) true) LEAVE_REASON_DROPPED None)
  | None => (RejectedNoCursor, set_lv m (set_finalizing (lv m) (finalizing_drops (lv m) ∖ {[slot]})))
  end.

(** ** Authority *)

Fixpoint derive_leaves (m : Maker) (todo : list (Z * Z)) (now : Z) : list LeaveDirective * Maker :=
  match todo with
  | [] => ([], m)
  | (slot, why) :: todo =>
      let '(o, m1) := decide_leave m slot why now in
      let '(out, m2) := derive_leaves m1 todo now in
      (match o with Some d => d :: out | None => out end, m2)
  end.

(** The first list is what is broadcast, the second what of it is new. *)
Definition drain_handoff_leaves (m : Maker) (held : gset Z) (now : Z) :
    list LeaveDirective * list LeaveDirective * Maker :=
  let cached := (map_to_list (decided_leaves (lv m))).*2 in
  let todo := filter (fun p => p.1 ∉ held) (undecided_departures m) in
  let '(fresh, m') := derive_leaves m todo now in
  (cached ++ fresh, fresh, m').

Definition drop_directive (b : BufferState) : BufferState :=
  mkBufferState (buffer b) (last_decision_frame b) (target_peaks b) (last_shrink b) (edge_burned b) (last_burn_frame b)
    (decision_seq_at b) (decision_seq_tiebreak b) None (initial_directive_sent b) (last_trace_frame b) (own_relay_id b)
    (initial_buffer_turns b) (latency_hint_ms b) (single_relay b).

(** A promoted relay re-affirms the buffer and seeds its shrink floor. *)
Definition promote_buffer (m : Maker) : option BufferState :=
  let b := buf m in
  peaks ← match session_frame m with
          | Some f => Law.observe TARGET_FLOOR_BUCKETS (target_peaks b) f (buffer b) (target_floor_bucket_span (law m))
          | None => Some (target_peaks b)
          end;
  mret (mkBufferState (buffer b) (last_decision_frame b) peaks (last_shrink b) (edge_burned b) (last_burn_frame b)
    (decision_seq_at b) (decision_seq_tiebreak b) (pending_directive b) false None (own_relay_id b) (initial_buffer_turns b)
    (latency_hint_ms b) (single_relay b)).

Definition set_authority (m : Maker) (a : Authority) (held : gset Z) (now : Z) :
    option (list LeaveDirective * list LeaveDirective * Maker) :=
  match authority m, a with
  | AuthSelf, AuthSelf | AuthPeer, AuthPeer => Some ([], [], m)
  | AuthSelf, AuthPeer => let m := take_verdict m a in Some ([], [], set_buf m (drop_directive (buf m)))
  | AuthPeer, AuthSelf =>
      let m := set_sync_tracker (take_verdict m a) default_sync_tracker in
      b ← promote_buffer m;
      mret (drain_handoff_leaves (set_buf m b) held now)
  end.

Definition sync_maker (m : Maker) (b : BufferBounds) (a : Authority) (held : gset Z) (now : Z) :=
  set_authority (set_bounds m b) a held now.

(** ** Homes, loops, presence and evictions *)

Definition rehome_homed_slots (m : Maker) (homed : gset Z) : Maker :=
  set_roster m (set_homed (roster m) homed (rehomed_homes (roster m) ∪ (homed ∖ homed_slots (roster m)))).

Definition note_slot_started (m : Maker) (slot : Z) : Maker :=
  let r := roster m in set_roster m (set_loops r ({[slot]} ∪ started_slots r) (peer_started_slots r) (forwarded_slots r)).
Definition note_peer_slot_started (m : Maker) (slot : Z) : Maker :=
  let r := roster m in set_roster m (set_loops r (started_slots r) ({[slot]} ∪ peer_started_slots r) (forwarded_slots r)).
Definition note_home_turn_forwarded (m : Maker) (slot : Z) : Maker :=
  let r := roster m in set_roster m (set_loops r (started_slots r) (peer_started_slots r) ({[slot]} ∪ forwarded_slots r)).

Definition mark_evicted (m : Maker) (slot : Z) (cause : EvictionCause) : Maker :=
  set_roster m (set_evictions (roster m) (<[slot := default cause (evictions (roster m) !! slot)]> (evictions (roster m)))).

Definition admits_slot (m : Maker) (slot : Z) : bool :=
  bool_decide (homed_slots (roster m) = ∅) || bool_decide (slot ∈ homed_slots (roster m)).
Definition strictly_homes (m : Maker) (slot : Z) : bool := bool_decide (slot ∈ homed_slots (roster m)).

Definition mark_desync_evicted (m : Maker) (slot : Z) : bool * Maker :=
  if strictly_homes m slot then (true, mark_evicted m slot Desync) else (false, m).

Definition has_reconnectable_departure (m : Maker) (held : gset Z) : bool :=
  existsb (fun slot => negb (leave_decided m slot) && admits_slot m slot && bool_decide (slot ∈ held))
    (map_to_list (departures (lv m))).*1.

Definition claim_close_report (m : Maker) : bool * Maker :=
  (negb (close_reported (lv m)), set_lv m (set_close_reported (lv m) true)).
Definition reopen_close_report (m : Maker) : Maker := set_lv m (set_close_reported (lv m) false).

(** [DecisionMakers::decide_abandoned_departures]. *)
Fixpoint force_all (m : Maker) (todo : list (Z * Z)) (now : Z) : list LeaveDirective * Maker :=
  match todo with
  | [] => ([], m)
  | (slot, why) :: todo =>
      let '(o, m1) := force_decide_leave m slot why now in
      let '(out, m2) := force_all m1 todo now in
      (match o with Some d => d :: out | None => out end, m2)
  end.
Definition decide_abandoned_departures (m : Maker) (now : Z) : list LeaveDirective * Maker :=
  force_all m (undecided_departures m) now.

(** ** The session's maker over time *)

Inductive MakerOp : Type :=
| OTurn (slot seq f : Z)
| ORecord (slot : Z) (st : DepartureStamps) (why : Z) (epoch : option Z)
| OStamp (slot : Z) (st : DepartureStamps) (why : Z)
| ODecide (slot why : Z)
| OAbandon
| OObserve (d : LeaveDirective)
| OSeed (ds : list DepartedSlot)
| OReconnect (slot : Z) (observed : option Z) (hold_pending : bool)
| OActivate (slot epoch : Z)
| ODown (slot : Z) (observed : option Z)
| ORemove (slot : Z) (epoch : option Z)
| OResult (slot : Z) (echo : ResultEcho)
| OSeal (slot : Z) (requested : option Z)
| OFinish (slot : Z) (reading : ForwardGateReading)
| ODescriptor (b : BufferBounds) (homed : gset Z) (a : Authority) (held : gset Z)
| OAuthority (a : Authority) (held : gset Z)
| OLoops (slot : Z) (peer : bool)
| OForwarded (slot : Z)
| OEvict (slot : Z) (cause : EvictionCause)
| OClose (claim : bool).

Definition to_list {A} (o : option A) : list A := match o with Some x => [x] | None => [] end.

(** One operation under the registry's lock, with the departure notices it
    emits; a seeded leave fires none. *)
Definition maker_step (m : Maker) (o : Z * MakerOp) : option (list LeaveDirective * Maker) :=
  let now := o.1 in
  match o.2 with
  | OTurn slot seq f => Some ([], (observe_turn_frame m slot seq f).2)
  | ORecord slot st why epoch => Some ([], (record_departure_outcome m slot st why epoch).2)
  | OStamp slot st why => Some ([], record_departure m slot st why)
  | ODecide slot why => let r := decide_leave m slot why now in Some (to_list r.1, r.2)
  | OAbandon => Some (decide_abandoned_departures m now)
  | OObserve d =>
      let d := normalize_observed_leave d (finalized_drops_enabled m) in
      let r := observe_leave m d now in Some (if r.1 then [d] else [], r.2)
  | OSeed ds => Some ([], (seed_resumed m ds now).2)
  | OReconnect slot observed hold => Some ([], (resolve_reconnect m slot observed hold now).2)
  | OActivate slot epoch => Some ([], (activate_connection_epoch m slot epoch now).2)
  | ODown slot observed => Some ([], (mark_connection_down m slot observed).2)
  | ORemove slot epoch => Some ([], (remove_slot_for_epoch m slot epoch).2)
  | OResult slot echo => Some ([], (record_result m slot echo).2)
  | OSeal slot requested => Some ([], (seal_for_finalize m slot requested).2)
  | OFinish slot reading => Some ([], (finish_finalize m slot reading).2)
  | ODescriptor b homed a held =>
      '(_, fresh, m') ← sync_maker (rehome_homed_slots m homed) b a held now; mret (fresh, m')
  | OAuthority a held => '(_, fresh, m') ← set_authority m a held now; mret (fresh, m')
  | OLoops slot peer => Some ([], if peer then note_peer_slot_started m slot else note_slot_started m slot)
  | OForwarded slot => Some ([], note_home_turn_forwarded m slot)
  | OEvict slot cause => Some ([], mark_evicted m slot cause)
  | OClose claim => Some ([], if claim then (claim_close_report m).2 else reopen_close_report m)
  end.

Fixpoint maker_run (m : Maker) (ops : list (Z * MakerOp)) : option (list LeaveDirective * Maker) :=
  match ops with
  | [] => Some ([], m)
  | o :: ops =>
      '(n1, m1) ← maker_step m o;
      '(n2, m2) ← maker_run m1 ops;
      mret (n1 ++ n2, m2)
  end.
