(* ===== verification/LeaveFinality.v ===== *)
(** * Decided leaves are final

    Invariants of the decision maker's departures, leaves and connection
    generations over every history of its operations: a decided leave never
    changes and is announced once, a dropped leave carries a count only with
    the finalization proof, and a connection generation that ended never comes
    back. *)

From Stdlib Require Import ZArith Lia.
From stdpp Require Import gmap sorting list.
From S2P Require Import Prelude.
From S2P Require Import Wire.
From S2P Require Import Presence.
From S2P Require Import Law.
From S2P Require Import Delivery.
From S2P Require Import SyncTracker.
From S2P Require Import Seen.
From S2P Require Import Slot.
From S2P Require Import Maker.
From S2P Require Import Departure.

Open Scope Z_scope.

(** ** The invariant *)

(** A dropped leave carries a count only with the proof. *)
Definition proven (d : LeaveDirective) : Prop :=
  ld_reason d = LEAVE_REASON_DROPPED -> is_Some (ld_final_turn_count d) -> ld_finalized d = true.

Record maker_ok (m : Maker) : Prop := {
  mk_decided : forall s d, decided_leaves (lv m) !! s = Some d ->
    is_Some (departures (lv m) !! s) /\ ld_slot d = s /\ proven d;
  mk_slots : forall s, is_Some (departures (lv m) !! s) -> slots (conns m) !! s = None;
  mk_up : forall s e, connection_states (conns m) !! s = Some (Up e) ->
    e ∉ default ∅ (retired_connection_epochs (conns m) !! s);
  mk_peaks : bm_shape TARGET_FLOOR_BUCKETS (target_peaks (buf m));
}.

(** A generation that ended: it is down, or another one took its place. *)
Definition ended (m : Maker) (s e : Z) : Prop :=
  e ∈ default ∅ (retired_connection_epochs (conns m) !! s) \/ connection_states (conns m) !! s = Some (Down e).

(** ** What an operation may do

    [n] are the leaves it announces, [q] those it decides silently. *)
Record evolves (m : Maker) (n q : list LeaveDirective) (m' : Maker) : Prop := {
  ev_ok : maker_ok m';
  ev_keep : decided_leaves (lv m) ⊆ decided_leaves (lv m');
  ev_fresh : forall d, d ∈ n ++ q ->
    decided_leaves (lv m) !! ld_slot d = None /\ decided_leaves (lv m') !! ld_slot d = Some d;
  ev_once : NoDup (ld_slot <$> n ++ q);
  ev_new : forall s d, decided_leaves (lv m') !! s = Some d -> decided_leaves (lv m) !! s = Some d \/ d ∈ n ++ q;
  ev_ended : forall s e, ended m s e -> ended m' s e;
}.

Lemma evolves_trans m n1 q1 m1 n2 q2 m2 :
  evolves m n1 q1 m1 -> evolves m1 n2 q2 m2 -> evolves m (n1 ++ n2) (q1 ++ q2) m2.
Proof.
  intros [? K1 F1 O1 N1 E1] [? K2 F2 O2 N2 E2].
  assert (Hperm : (n1 ++ n2) ++ (q1 ++ q2) ≡ₚ (n1 ++ q1) ++ (n2 ++ q2)) by solve_Permutation.
  split; auto.
  - by transitivity (decided_leaves (lv m1)).
  - intros d. rewrite Hperm. intros [Hd|Hd]%elem_of_app.
    + destruct (F1 d Hd) as [? H1]. split; [done|]. by eapply lookup_weaken.
    + destruct (F2 d Hd) as [H1 ?]. split; [|done]. destruct (decided_leaves (lv m) !! ld_slot d) eqn:E; [|done].
      by rewrite (lookup_weaken _ _ _ _ E K1) in H1.
  - rewrite (fmap_Permutation _ _ _ Hperm), fmap_app. apply NoDup_app. split; [done|]. split; [|done].
    intros s (d & -> & Hd)%list_elem_of_fmap (d' & Es & Hd')%list_elem_of_fmap.
    destruct (F1 d Hd) as [_ H1]. destruct (F2 d' Hd') as [H2 _]. by rewrite <-Es, H1 in H2.
  - intros s d Hd. rewrite Hperm. destruct (N2 s d Hd) as [H1|H1]; [|right; apply elem_of_app; by right].
    destruct (N1 s d H1); [by left|right; apply elem_of_app; by left].
Qed.

(** An operation that leaves departures, leaves and generations alone. *)
Lemma evolves_frame m m' :
  maker_ok m -> departures (lv m') = departures (lv m) -> decided_leaves (lv m') = decided_leaves (lv m) ->
  conns m' = conns m -> bm_shape TARGET_FLOOR_BUCKETS (target_peaks (buf m')) -> evolves m [] [] m'.
Proof.
  intros [Hd Hs Hu _] Ed El Ec Hp. split; [split|..]; rewrite ?Ed, ?El, ?Ec; try done; cbn [app].
  - intros d []%elem_of_nil.
  - apply NoDup_nil_2.
  - auto.
  - intros s e. unfold ended. by rewrite Ec.
Qed.

Lemma evolves_refl m : maker_ok m -> evolves m [] [] m.
Proof. intros H. apply evolves_frame; auto. apply H. Qed.

Lemma default_insert {A} (m : gmap Z A) (k j : Z) (x d : A) :
  default d (<[k := x]> m !! j) = if decide (k = j) then x else default d (m !! j).
Proof. destruct (decide (k = j)) as [->|Hne]; [by rewrite lookup_insert_eq|by rewrite lookup_insert_ne]. Qed.

Lemma note_departure_evolves m slot st why epoch : maker_ok m -> evolves m [] [] (note_departure m slot st why epoch).
Proof.
  intros [Hd Hs Hu Hp]. split; [split|..]; cbn; try done.
  - intros s d Hs'. destruct (Hd s d Hs') as ([r Hr] & ? & ?). split; [|done].
    destruct (decide (slot = s)) as [->|Hne]; [rewrite lookup_insert_eq; by eexists|].
    rewrite lookup_insert_ne by done. by eexists.
  - intros s Hdep. destruct (decide (slot = s)) as [->|Hne]; [apply lookup_delete_eq|].
    rewrite lookup_insert_ne in Hdep by done. rewrite lookup_delete_ne by done. auto.
  - intros d []%elem_of_nil.
  - apply NoDup_nil_2.
  - auto.
Qed.

Lemma cache_leave_evolves m slot fin why f count now :
  maker_ok m -> decided_leaves (lv m) !! slot = None -> is_Some (departures (lv m) !! slot) ->
  (why = LEAVE_REASON_DROPPED -> is_Some count -> fin = true) ->
  let r := cache_leave m slot fin why f count now in evolves m [r.1] [] r.2 /\ evolves m [] [r.1] r.2.
Proof.
  intros [Hd Hs Hu Hp] Hn Hdep Hpr.
  assert (Hk : maker_ok (cache_leave m slot fin why f count now).2).
  { split; cbn; try done. intros s d. destruct (decide (slot = s)) as [->|Hne].
    - rewrite lookup_insert_eq. intros [= <-]. split; [done|]. split; [done|exact Hpr].
    - rewrite lookup_insert_ne by done. apply Hd. }
  assert (Hsub : decided_leaves (lv m) ⊆ decided_leaves (lv (cache_leave m slot fin why f count now).2)).
  { cbn. by apply insert_subseteq. }
  assert (Hnew : forall s d, decided_leaves (lv (cache_leave m slot fin why f count now).2) !! s = Some d ->
    decided_leaves (lv m) !! s = Some d \/ d ∈ [(cache_leave m slot fin why f count now).1]).
  { intros s d. cbn. destruct (decide (slot = s)) as [->|Hne]; [rewrite lookup_insert_eq; intros [= <-]; right; by left|].
    rewrite lookup_insert_ne by done. by left. }
  assert (Hfr : forall d, d ∈ [(cache_leave m slot fin why f count now).1] -> decided_leaves (lv m) !! ld_slot d = None /\
    decided_leaves (lv (cache_leave m slot fin why f count now).2) !! ld_slot d = Some d).
  { intros d ->%list_elem_of_singleton. cbn. split; [done|]. apply lookup_insert_eq. }
  split; (split; [done|done|exact Hfr|apply NoDup_singleton|exact Hnew|auto]).
Qed.

Lemma leave_decided_false m slot : leave_decided m slot = false -> decided_leaves (lv m) !! slot = None.
Proof. unfold leave_decided. intros ->%bool_decide_eq_false%eq_None_not_Some. done. Qed.
Lemma departed_true m slot : departed m slot = true -> is_Some (departures (lv m) !! slot).
Proof. apply bool_decide_eq_true. Qed.

(** A count is emitted for a drop only with the proof. *)
Lemma count_to_emit_proven m slot why :
  why = LEAVE_REASON_DROPPED -> is_Some (count_to_emit m slot why) -> is_finalized m slot why = true.
Proof.
  intros ->. unfold count_to_emit. rewrite Z.eqb_refl. destruct (is_finalized m slot LEAVE_REASON_DROPPED); [done|by intros []].
Qed.

(** ** Operations *)

Lemma commit_leave_evolves m slot why now :
  maker_ok m -> is_Some (departures (lv m) !! slot) ->
  evolves m (to_list (commit_leave m slot why now).1) [] (commit_leave m slot why now).2 /\
  (commit_leave m slot why now = (None, m) \/ leave_decided m slot = false /\ is_Some (commit_leave m slot why now).1).
Proof.
  intros Hok Hdep. unfold commit_leave. destruct (leave_decided m slot) eqn:Hl; [split; [by apply evolves_refl|by left]|].
  destruct (scheduled_frame m slot why) as [f|]; [|split; [by apply evolves_refl|by left]].
  split; [|right; split; [done|by eexists]].
  apply cache_leave_evolves; auto using leave_decided_false. apply count_to_emit_proven.
Qed.

Lemma note_departure_departed m slot st why epoch : is_Some (departures (lv (note_departure m slot st why epoch)) !! slot).
Proof. cbn. rewrite lookup_insert_eq. by eexists. Qed.

Lemma decide_leave_evolves m slot why now :
  maker_ok m -> evolves m (to_list (decide_leave m slot why now).1) [] (decide_leave m slot why now).2.
Proof.
  intros Hok. pose proof (note_departure_evolves m slot no_stamps why None Hok) as Hn.
  unfold decide_leave. set (m1 := note_departure m slot no_stamps why None) in *. cbv zeta.
  destruct (authority m1); [|done].
  apply (evolves_trans m [] [] m1 _ []); [done|]. apply commit_leave_evolves; [apply Hn|apply note_departure_departed].
Qed.

Lemma force_decide_leave_evolves m slot why now :
  maker_ok m -> evolves m (to_list (force_decide_leave m slot why now).1) [] (force_decide_leave m slot why now).2.
Proof.
  intros Hok. pose proof (note_departure_evolves m slot no_stamps why None Hok) as Hn.
  unfold force_decide_leave. set (m1 := note_departure m slot no_stamps why None) in *. cbv zeta.
  pose proof (note_departure_departed m slot no_stamps why None) as Hdep. fold m1 in Hdep.
  destruct (commit_leave_evolves m1 slot why now (ev_ok _ _ _ _ Hn) Hdep) as [Hc [E|[Hl [d E]]]].
  - rewrite E. destruct (leave_decided m1 slot) eqn:Hl; [done|].
    apply (evolves_trans m [] [] m1 [_] []); [done|].
    apply cache_leave_evolves; [apply Hn|by apply leave_decided_false|done|apply count_to_emit_proven].
  - destruct (commit_leave m1 slot why now) as [o m2]. cbn [fst snd] in *. subst o.
    by apply (evolves_trans m [] [] m1 [d] []).
Qed.

Lemma derive_leaves_evolves m todo now :
  maker_ok m -> evolves m (derive_leaves m todo now).1 [] (derive_leaves m todo now).2.
Proof.
  revert m. induction todo as [|[slot why] todo IH]; intros m Hok; cbn [derive_leaves]; [by apply evolves_refl|].
  pose proof (decide_leave_evolves m slot why now Hok) as H1.
  destruct (decide_leave m slot why now) as [o m1]. cbn [fst snd] in H1.
  pose proof (IH m1 (ev_ok _ _ _ _ H1)) as H2. destruct (derive_leaves m1 todo now) as [out m2]. cbn [fst snd] in *.
  pose proof (evolves_trans _ _ _ _ _ _ _ H1 H2) as H. by destruct o.
Qed.

Lemma force_all_evolves m todo now : maker_ok m -> evolves m (force_all m todo now).1 [] (force_all m todo now).2.
Proof.
  revert m. induction todo as [|[slot why] todo IH]; intros m Hok; cbn [force_all]; [by apply evolves_refl|].
  pose proof (force_decide_leave_evolves m slot why now Hok) as H1.
  destruct (force_decide_leave m slot why now) as [o m1]. cbn [fst snd] in H1.
  pose proof (IH m1 (ev_ok _ _ _ _ H1)) as H2. destruct (force_all m1 todo now) as [out m2]. cbn [fst snd] in *.
  pose proof (evolves_trans _ _ _ _ _ _ _ H1 H2) as H. by destruct o.
Qed.

Lemma seed_departed_evolves m d now :
  maker_ok m -> evolves m [] (to_list (seed_departed m d now).1) (seed_departed m d now).2.
Proof.
  intros Hok. unfold seed_departed. cbv zeta. set (dropped := match ds_kind d with Dropped => true | Left => false end).
  set (fin := dropped && _ && _). set (count := if dropped && negb fin then None else _). set (why := if dropped then _ else _).
  set (st := mkDepartureStamps _ _ _ _ _). pose proof (note_departure_evolves m (ds_slot d) st why None Hok) as Hn.
  pose proof (note_departure_departed m (ds_slot d) st why None) as Hdep.
  set (m1 := note_departure m (ds_slot d) st why None) in *.
  destruct (leave_decided m1 (ds_slot d)) eqn:Hl; [done|].
  apply (evolves_trans m [] [] m1 [] [_]); [done|].
  apply cache_leave_evolves; [apply Hn|by apply leave_decided_false|done|].
  intros Hw Hc. subst why count. destruct dropped; [|done]. cbn in *. destruct fin; [|by destruct Hc]. cbn.
  by apply bool_decide_eq_true.
Qed.

Lemma seed_all_evolves m ds now : maker_ok m -> evolves m [] (seed_all m ds now).1 (seed_all m ds now).2.
Proof.
  revert m. induction ds as [|d ds IH]; intros m Hok; cbn [seed_all]; [by apply evolves_refl|].
  pose proof (seed_departed_evolves m d now Hok) as H1.
  destruct (seed_departed m d now) as [o m1]. cbn [fst snd] in H1.
  pose proof (IH m1 (ev_ok _ _ _ _ H1)) as H2. destruct (seed_all m1 ds now) as [out m2]. cbn [fst snd] in *.
  pose proof (evolves_trans _ _ _ _ _ _ _ H1 H2) as H. by destruct o.
Qed.

Lemma seed_resumed_evolves m ds now : maker_ok m -> evolves m [] (seed_resumed m ds now).1 (seed_resumed m ds now).2.
Proof.
  intros Hok. pose proof (seed_all_evolves m ds now Hok) as H1. unfold seed_resumed.
  destruct (seed_all m ds now) as [out m1]. cbn [fst snd] in *.
  pose proof (ev_ok _ _ _ _ H1) as Hok1.
  assert (H2 : evolves m1 [] [] (set_lv (mark_started m1 now) (set_resumed (lv (mark_started m1 now))))).
  { apply evolves_frame; try done. apply Hok1. }
  pose proof (evolves_trans _ _ _ _ _ _ _ H1 H2) as H. by rewrite (app_nil_r out) in H.
Qed.

(** *** Generations *)

Lemma states_evolve m cs rs :
  maker_ok m ->
  (forall s e, cs !! s = Some (Up e) -> e ∉ default ∅ (rs !! s)) ->
  (forall s e, ended m s e -> e ∈ default ∅ (rs !! s) \/ cs !! s = Some (Down e)) ->
  forall ss, (forall s, is_Some (departures (lv m) !! s) -> ss !! s = None) ->
  evolves m [] [] (set_conns m (mkConnections ss cs rs)).
Proof.
  intros [Hd Hs Hu Hp] Hup Hend ss Hss. split; [split|..]; cbn; try done.
  - intros d []%elem_of_nil.
  - apply NoDup_nil_2.
  - auto.
Qed.

Lemma mark_connection_down_evolves m slot observed :
  maker_ok m -> evolves m [] [] (mark_connection_down m slot observed).2.
Proof.
  intros Hok. unfold mark_connection_down.
  assert (Hdown : forall e, (connection_states (conns m) !! slot = None \/ connection_states (conns m) !! slot = Some (Up e)) ->
    evolves m [] [] (set_conns m (set_states (conns m) (<[slot := Down e]> (connection_states (conns m)))))).
  { intros e He. apply states_evolve; [done| | |apply Hok].
    - intros s e'. destruct (decide (slot = s)) as [->|Hne]; [by rewrite lookup_insert_eq|].
      rewrite lookup_insert_ne by done. apply Hok.
    - intros s e' [H|H]; [by left|right]. destruct (decide (slot = s)) as [->|Hne]; [|by rewrite lookup_insert_ne].
      destruct He; congruence. }
  destruct (connection_states (conns m) !! slot) as [[c|c]|] eqn:E, observed as [e|]; cbn; try (by apply evolves_refl).
  - destruct (Z.eqb_spec c e) as [->|]; cbn; [apply Hdown; auto|by apply evolves_refl].
  - apply Hdown. auto.
Qed.

Lemma replace_epoch_evolves m slot epoch now :
  maker_ok m -> departures (lv m) !! slot = None -> is_retired m slot epoch = false ->
  connection_states (conns m) !! slot <> Some (Up epoch) -> connection_states (conns m) !! slot <> Some (Down epoch) ->
  evolves m [] [] (replace_epoch m slot epoch now).
Proof.
  intros Hok Hdep Hret HU HD. apply bool_decide_eq_false in Hret.
  assert (Hc : evolves m [] [] (set_conns m (conns (replace_epoch m slot epoch now)))).
  { unfold replace_epoch. set (rs := match connection_states (conns m) !! slot with Some _ => _ | None => _ end).
    set (ss := match slots (conns m) !! slot with Some _ => _ | None => _ end).
    assert (Hrs : forall s e, e ∈ default ∅ (rs !! s) <-> e ∈ default ∅ (retired_connection_epochs (conns m) !! s) \/
      s = slot /\ exists c, connection_states (conns m) !! slot = Some c /\ e = epoch_of c).
    { intros s e. subst rs. destruct (connection_states (conns m) !! slot) as [c|] eqn:E.
      - rewrite default_insert. destruct (decide (slot = s)) as [<-|Hne].
        + rewrite elem_of_union, elem_of_singleton. split; [intros [->|?]; eauto 6|].
          intros [?|(_ & c' & [= <-] & ->)]; auto.
        + split; [auto|]. intros [?|(-> & _)]; done.
      - split; [auto|]. intros [?|(_ & c & [=] & _)]; done. }
    assert (Hcn : conns (if rollback_enabled m && bool_decide (slot ∈ homed_slots (roster m)) && bool_decide (slot ∈ rehomed_homes (roster m))
       then set_lead (set_conns m (mkConnections ss (<[slot := Up epoch]> (connection_states (conns m))) rs)) (Lead.begin_rehome (lead m) slot (Clock.final_through (clock m)))
       else set_conns m (mkConnections ss (<[slot := Up epoch]> (connection_states (conns m))) rs)) =
       mkConnections ss (<[slot := Up epoch]> (connection_states (conns m))) rs) by (by destruct (_ && _)).
    rewrite Hcn. apply states_evolve; [done| | |].
    - intros s e. rewrite Hrs. destruct (decide (slot = s)) as [<-|Hne].
      + rewrite lookup_insert_eq. intros [= <-] [?|(_ & [c|c] & Ec & ->)]; [done| |]; cbn in *; congruence.
      + rewrite lookup_insert_ne by done. intros Hs [?|(-> & _)]; [|done]. by apply (mk_up _ Hok s e).
    - intros s e Hend. rewrite Hrs. destruct (decide (slot = s)) as [<-|Hne].
      + left. destruct Hend as [?|Hd]; [by left|right]. split; [done|]. by exists (Down e).
      + destruct Hend as [?|Hd]; [auto|right]. by rewrite lookup_insert_ne.
    - intros s Hs. subst ss. destruct (slots (conns m) !! slot) as [st|] eqn:Es; [|by apply Hok].
      destruct (decide (slot = s)) as [<-|Hne]; [by rewrite Hdep in Hs; destruct Hs|].
      rewrite lookup_insert_ne by done. by apply Hok. }
  apply (evolves_trans m [] [] _ [] [] _ Hc). apply evolves_frame.
  - apply Hc.
  - unfold replace_epoch. cbv zeta. by destruct (_ && _).
  - unfold replace_epoch. cbv zeta. by destruct (_ && _).
  - done.
  - unfold replace_epoch. cbv zeta. destruct (_ && _); apply Hok.
Qed.

Lemma departed_false m slot : departed m slot = false -> departures (lv m) !! slot = None.
Proof. unfold departed. intros ->%bool_decide_eq_false%eq_None_not_Some. done. Qed.

Lemma activate_evolves m slot epoch now : maker_ok m -> evolves m [] [] (activate_connection_epoch m slot epoch now).2.
Proof.
  intros Hok. unfold activate_connection_epoch.
  destruct (departed m slot) eqn:Hd; cbn [orb]; [by apply evolves_refl|].
  destruct (leave_decided m slot); [by apply evolves_refl|].
  destruct (is_retired m slot epoch) eqn:Hr; [by apply evolves_refl|].
  pose proof (departed_false m slot Hd) as Hdep.
  destruct (connection_states (conns m) !! slot) as [[c|c]|] eqn:E.
  - destruct (Z.eqb_spec c epoch) as [->|Hne]; [by apply evolves_refl|]. apply replace_epoch_evolves; try done; congruence.
  - destruct (Z.eqb_spec c epoch) as [->|Hne]; [by apply evolves_refl|]. apply replace_epoch_evolves; try done; congruence.
  - apply replace_epoch_evolves; try done; congruence.
Qed.

Lemma admit_evolves m slot observed now : maker_ok m -> evolves m [] [] (admit_connection_up m slot observed now).2.
Proof.
  intros Hok. unfold admit_connection_up. destruct (_ || _); [by apply evolves_refl|].
  destruct observed; [by apply activate_evolves|by apply evolves_refl].
Qed.

Lemma put_slot_evolves m slot s : maker_ok m -> departures (lv m) !! slot = None -> evolves m [] [] (put_slot m slot s).
Proof.
  intros Hok Hd. apply states_evolve; [done|apply Hok|auto|]. intros s' Hs'.
  destruct (decide (slot = s')) as [<-|Hne]; [by rewrite Hd in Hs'; destruct Hs'|].
  rewrite lookup_insert_ne by done. by apply Hok.
Qed.

Lemma reinstate_evolves m slot now : maker_ok m -> evolves m [] [] (reinstate_slot m slot now).2.
Proof.
  intros Hok. unfold reinstate_slot. destruct (leave_decided m slot) eqn:Hl; [by apply evolves_refl|].
  destruct (departures (lv m) !! slot) as [d|] eqn:Hd; [|by apply evolves_refl]. cbn [snd].
  set (s := set_up_at _ _). set (m1 := set_lv m _).
  assert (H1 : evolves m [] [] m1).
  { destruct Hok as [Hdec Hs Hu Hp]. split; [split|..]; cbn; try done.
    - intros s' d' Hd'. destruct (Hdec s' d' Hd') as (? & ? & ?). split; [|done].
      rewrite lookup_delete_ne; [done|]. intros <-. by rewrite (leave_decided_false m slot Hl) in Hd'.
    - intros s' [x Hx]. apply lookup_delete_Some in Hx as [? Hx]. apply Hs. by eexists.
    - intros x []%elem_of_nil.
    - apply NoDup_nil_2.
    - auto. }
  apply (evolves_trans m [] [] m1 [] []); [done|]. apply put_slot_evolves; [apply H1|]. cbn. apply lookup_delete_eq.
Qed.

Lemma resolve_reconnect_evolves m slot observed hold now :
  maker_ok m -> evolves m [] [] (resolve_reconnect m slot observed hold now).2.
Proof.
  intros Hok. unfold resolve_reconnect.
  destruct (leave_decided m slot); [by apply evolves_refl|].
  destruct (bool_decide (is_Some (evictions (roster m) !! slot))); [by apply evolves_refl|].
  destruct (bool_decide (slot ∈ finalizing_drops (lv m))); [by apply evolves_refl|].
  destruct (connection_activation m slot observed); [| |by apply evolves_refl];
  (destruct (departed m slot && negb hold); [by apply evolves_refl|]);
  (assert (H1 : evolves m [] [] (if departed m slot then reinstate_slot m slot now else (true, m)).2)
     by (destruct (departed m slot); [by apply reinstate_evolves|by apply evolves_refl]));
  (destruct (if departed m slot then reinstate_slot m slot now else (true, m)) as [restored m1]; cbn [snd] in H1);
  (destruct restored; cbn [negb]; [|done]);
  (pose proof (admit_evolves m1 slot observed now (ev_ok _ _ _ _ H1)) as H2);
  (destruct (admit_connection_up m1 slot observed now) as [a m2]; cbn [snd] in *;
   exact (evolves_trans _ _ _ _ _ _ _ H1 H2)).
Qed.

Lemma normalize_proven d b : proven (normalize_observed_leave d b).
Proof.
  unfold normalize_observed_leave, proven. destruct (Z.eqb_spec (ld_reason d) LEAVE_REASON_DROPPED) as [E|E]; cbn [andb].
  - destruct (ld_finalized d) eqn:Hf; cbn [orb negb andb].
    + rewrite orb_true_r. cbn [andb]. by destruct b; cbn.
    + rewrite orb_false_r, andb_true_r. destruct (bool_decide (is_Some (ld_final_turn_count d))) eqn:Hc; cbn; [by intros _ []|].
      apply bool_decide_eq_false in Hc. done.
  - done.
Qed.

Lemma normalize_idem d b : normalize_observed_leave (normalize_observed_leave d b) b = normalize_observed_leave d b.
Proof.
  unfold normalize_observed_leave at 2 3.
  destruct ((ld_reason d =? LEAVE_REASON_DROPPED) && (bool_decide (is_Some (ld_final_turn_count d)) || ld_finalized d)
     && negb (ld_finalized d && b)) eqn:E.
  - unfold normalize_observed_leave. cbn. by rewrite andb_false_r.
  - unfold normalize_observed_leave. by rewrite E.
Qed.

Lemma normalize_slot d b : ld_slot (normalize_observed_leave d b) = ld_slot d.
Proof. unfold normalize_observed_leave. by destruct (_ && _). Qed.

Lemma raise_leave_seq_frame l n :
  departures (raise_leave_seq l n) = departures l /\ decided_leaves (raise_leave_seq l n) = decided_leaves l.
Proof. unfold raise_leave_seq. by destruct (_ <? _). Qed.

(** Caching an observed leave, without the departure it records next. *)
Lemma observe_leave_evolves m d now :
  maker_ok m ->
  let d' := normalize_observed_leave d (finalized_drops_enabled m) in
  let r := observe_leave m d' now in evolves m (if r.1 then [d'] else []) [] r.2.
Proof.
  intros Hok. cbv zeta. unfold observe_leave. rewrite normalize_idem. set (d' := normalize_observed_leave d _).
  destruct (u8_try_from (ld_slot d')) as [slot|] eqn:Hs; [|by apply evolves_refl].
  apply u8_try_from_Some in Hs as [-> _].
  destruct (leave_decided m (ld_slot d')) eqn:Hl; cbn [fst snd].
  { apply evolves_frame; [done| | |done|apply Hok]; apply raise_leave_seq_frame. }
  apply leave_decided_false in Hl. set (slot := ld_slot d') in *.
  set (l := set_decided (lv m) _ _). set (m1 := set_lv m (note_leave_decided (raise_leave_seq l (leave_seq d')) slot now)).
  set (m2 := match connection_states (conns m1) !! slot with Some (Up e) => _ | _ => m1 end).
  set (m3 := note_departure m2 slot _ _ None).
  assert (Hl1 : departures (lv m1) = departures (lv m) /\ decided_leaves (lv m1) = <[slot := d']> (decided_leaves (lv m))).
  { subst m1. cbn. destruct (raise_leave_seq_frame l (leave_seq d')) as [-> ->]. done. }
  destruct Hl1 as [Hdep1 Hdec1].
  assert (Hlv2 : lv m2 = lv m1) by (subst m2; destruct (connection_states (conns m1) !! slot) as [[?|?]|]; done).
  assert (Hst : (connection_states (conns m2) = connection_states (conns m) \/ exists e, connection_states (conns m) !! slot = Some (Up e) /\
     connection_states (conns m2) = <[slot := Down e]> (connection_states (conns m))) /\
     retired_connection_epochs (conns m2) = retired_connection_epochs (conns m) /\ slots (conns m2) = slots (conns m) /\ buf m2 = buf m).
  { subst m2. cbn. destruct (connection_states (conns m) !! slot) as [[e|e]|] eqn:E; cbn; split; auto.
    right. by exists e. }
  destruct Hst as (Hst & Hret & Hss & Hb). destruct Hok as [Hdec Hsl Hu Hp].
  assert (Hdec3 : decided_leaves (lv m3) = <[slot := d']> (decided_leaves (lv m))) by (subst m3; cbn; by rewrite Hlv2, Hdec1).
  assert (Hdep3 : forall s, is_Some (departures (lv m3) !! s) <-> s = slot \/ is_Some (departures (lv m) !! s)).
  { intros s. subst m3. cbn. rewrite Hlv2, Hdep1. destruct (decide (slot = s)) as [->|Hne].
    - rewrite lookup_insert_eq. split; [by left|by eexists].
    - rewrite lookup_insert_ne by done. split; [by right|by intros [->|?]]. }
  assert (Hc3 : conns m3 = mkConnections (delete slot (slots (conns m2))) (connection_states (conns m2)) (retired_connection_epochs (conns m2)) /\
    buf m3 = buf m2) by done.
  destruct Hc3 as [Hc3 Hb3]. rewrite Hss, Hret in Hc3. rewrite Hb in Hb3.
  clearbody m3. clear Hss Hret Hlv2 Hb Hdec1 Hdep1. set (cs := connection_states (conns m2)) in *. clearbody cs m2 m1.
  assert (H3 : evolves m [d'] [] m3).
  { split; [split|..]; rewrite ?Hc3, ?Hdec3; cbn [slots connection_states retired_connection_epochs app].
    - intros s x. rewrite Hdep3. destruct (decide (slot = s)) as [<-|Hne].
      + rewrite lookup_insert_eq. intros [= <-]. split; [by left|]. split; [done|apply normalize_proven].
      + rewrite lookup_insert_ne by done. intros Hx. destruct (Hdec s x Hx) as (? & ? & ?). auto.
    - intros s Hd. apply Hdep3 in Hd as [->|Hd]; [apply lookup_delete_eq|]. apply lookup_delete_None. right. by apply Hsl.
    - intros s e. destruct Hst as [->|(e' & _ & ->)]; [apply Hu|].
      destruct (decide (slot = s)) as [<-|Hne]; [by rewrite lookup_insert_eq|]. rewrite lookup_insert_ne by done. apply Hu.
    - by rewrite Hb3.
    - by apply insert_subseteq.
    - intros x ->%list_elem_of_singleton. split; [done|]. fold slot. by rewrite lookup_insert_eq.
    - apply NoDup_singleton.
    - intros s x. destruct (decide (slot = s)) as [<-|Hne]; [rewrite lookup_insert_eq; intros [= <-]; right; by left|].
      rewrite lookup_insert_ne by done. by left.
    - intros s e Hend. unfold ended. rewrite Hc3. cbn. destruct Hend as [?|Hd]; [by left|right].
      destruct Hst as [->|(e' & He' & ->)]; [done|]. destruct (decide (slot = s)) as [<-|Hne]; [congruence|].
      by rewrite lookup_insert_ne. }
  apply (evolves_trans m [d'] [] m3 [] [] _ H3). apply evolves_frame; try done; apply H3.
Qed.

Lemma set_authority_evolves m a held now :
  maker_ok m -> exists all fresh m', set_authority m a held now = Some (all, fresh, m') /\ evolves m fresh [] m'.
Proof.
  intros Hok. unfold set_authority.
  destruct (authority m), a; try (by exists [], [], m; split; [done|apply evolves_refl]).
  - eexists [], [], _. split; [reflexivity|]. apply evolves_frame; try done. apply Hok.
  - set (m1 := set_sync_tracker (take_verdict m AuthSelf) default_sync_tracker).
    assert (Hb : exists b, promote_buffer m1 = Some b /\ bm_shape TARGET_FLOOR_BUCKETS (target_peaks b)).
    { unfold promote_buffer. destruct (session_frame m1) as [f|]; cbn [mbind option_bind].
      - destruct (observe_shape TARGET_FLOOR_BUCKETS (target_peaks (buf m1)) f (buffer (buf m1)) (target_floor_bucket_span (law m1)))
          as (w & -> & Hw); [unfold TARGET_FLOOR_BUCKETS; lia|apply Hok|]. cbn. by eexists.
      - eexists. split; [reflexivity|]. apply Hok. }
    destruct Hb as (b & -> & Hb). cbn [mbind option_bind mret option_ret]. unfold drain_handoff_leaves.
    assert (H1 : evolves m [] [] (set_buf m1 b)) by (apply evolves_frame; done).
    set (todo := filter _ (undecided_departures (set_buf m1 b))).
    pose proof (derive_leaves_evolves (set_buf m1 b) todo now (ev_ok _ _ _ _ H1)) as H2.
    destruct (derive_leaves (set_buf m1 b) todo now) as [fresh m'] eqn:E. cbn [fst snd] in H2.
    eexists _, fresh, m'. split; [reflexivity|]. exact (evolves_trans _ _ _ _ _ _ _ H1 H2).
Qed.

(** Every operation succeeds, keeps the invariant and only adds to the decided
    leaves. *)
Lemma maker_step_evolves m o :
  maker_ok m -> exists n m' q, maker_step m o = Some (n, m') /\ evolves m n q m' /\
    match o.2 with OSeed _ => True | _ => q = [] end.
Proof.
  intros Hok. destruct o as [now op]. unfold maker_step. cbn [fst snd].
  assert (Hsame : forall m', evolves m [] [] m' -> exists n m'' q, Some (@nil LeaveDirective, m') = Some (n, m'') /\ evolves m n q m'' /\ q = []).
  { intros m' H. by exists [], m', []. }
  destruct op.
  - apply Hsame. unfold observe_turn_frame. case_bool_decide as Hd; [by apply evolves_refl|].
    apply put_slot_evolves; [done|]. by apply eq_None_not_Some.
  - apply Hsame. unfold record_departure_outcome. destruct (leave_decided m slot); cbn [snd].
    + apply (evolves_trans m [] [] _ [] [] _ (note_departure_evolves m slot st why None Hok)).
      apply evolves_frame; try done; apply (note_departure_evolves m slot st why None Hok).
    + unfold record_departure_for_epoch. pose proof (mark_connection_down_evolves m slot epoch Hok) as H1.
      destruct (mark_connection_down m slot epoch) as [[|] m1]; cbn [snd] in *; [|done].
      pose proof (note_departure_evolves m1 slot st why epoch (ev_ok _ _ _ _ H1)) as H2.
      apply (evolves_trans m [] [] _ [] [] _ H1), (evolves_trans m1 [] [] _ [] [] _ H2).
      apply evolves_frame; try done; apply H2.
  - apply Hsame. pose proof (note_departure_evolves m slot st why None Hok) as H2.
    apply (evolves_trans m [] [] _ [] [] _ H2). apply evolves_frame; try done; apply H2.
  - eexists _, _, []. split; [reflexivity|]. split; [by apply decide_leave_evolves|done].
  - unfold decide_abandoned_departures. pose proof (force_all_evolves m (undecided_departures m) now Hok) as H.
    destruct (force_all m (undecided_departures m) now) as [n m']. by exists n, m', [].
  - eexists _, _, []. split; [reflexivity|]. split; [by apply observe_leave_evolves|done].
  - eexists _, _, _. split; [reflexivity|]. split; [by apply seed_resumed_evolves|done].
  - apply Hsame. by apply resolve_reconnect_evolves.
  - apply Hsame. by apply activate_evolves.
  - apply Hsame. by apply mark_connection_down_evolves.
  - apply Hsame. unfold remove_slot_for_epoch. destruct (connection_epoch_matches m slot epoch); [|by apply evolves_refl].
    cbn [snd]. assert (H1 : evolves m [] [] (set_conns m (Maker.set_slots (conns m) (delete slot (slots (conns m)))))).
    { apply states_evolve; [done|apply Hok|auto|]. intros s Hs. apply lookup_delete_None. right. by apply Hok. }
    apply (evolves_trans m [] [] _ [] [] _ H1). apply evolves_frame; try done; apply H1.
  - apply Hsame. unfold record_result. destruct (negb _); [by apply evolves_refl|].
    destruct (results (lv m) !! slot); [by apply evolves_refl|]. apply evolves_frame; try done; apply Hok.
  - apply Hsame. unfold seal_for_finalize. destruct (decided_leaves (lv m) !! slot); [by apply evolves_refl|].
    destruct (connection_is_up m slot); [by apply evolves_refl|]. destruct (negb (bool_decide _)); [by apply evolves_refl|].
    destruct (bool_decide (slot ∈ _)); [by apply evolves_refl|]. destruct (negb _); [by apply evolves_refl|].
    apply evolves_frame; try done; apply Hok.
  - apply Hsame. unfold finish_finalize. destruct (match reading with Count n => Some n | _ => _ end) as [n|]; cbn [snd].
    + by apply note_departure_evolves.
    + apply evolves_frame; try done; apply Hok.
  - unfold sync_maker. assert (H0 : evolves m [] [] (set_bounds (rehome_homed_slots m homed) b)) by (apply evolves_frame; try done; apply Hok).
    destruct (set_authority_evolves (set_bounds (rehome_homed_slots m homed) b) a held now (ev_ok _ _ _ _ H0)) as (all & fresh & m' & -> & H).
    cbn [mbind option_bind mret option_ret]. exists fresh, m', []. split; [done|]. split; [|done].
    exact (evolves_trans _ _ _ _ _ _ _ H0 H).
  - destruct (set_authority_evolves m a held now Hok) as (all & fresh & m' & -> & H).
    cbn [mbind option_bind mret option_ret]. by exists fresh, m', [].
  - apply Hsame. destruct peer; apply evolves_frame; try done; apply Hok.
  - apply Hsame. apply evolves_frame; try done; apply Hok.
  - apply Hsame. apply evolves_frame; try done; apply Hok.
  - apply Hsame. destruct claim; apply evolves_frame; try done; apply Hok.
Qed.

Lemma maker_run_evolves m ops :
  maker_ok m -> exists n m' q, maker_run m ops = Some (n, m') /\ evolves m n q m' /\
    ((forall o ds, o ∈ ops -> o.2 <> OSeed ds) -> q = []).
Proof.
  revert m. induction ops as [|o ops IH]; intros m Hok; cbn [maker_run].
  { exists [], m, []. split; [done|]. split; [by apply evolves_refl|done]. }
  destruct (maker_step_evolves m o Hok) as (n1 & m1 & q1 & -> & H1 & Hq1). cbn [mbind option_bind].
  destruct (IH m1 (ev_ok _ _ _ _ H1)) as (n2 & m2 & q2 & -> & H2 & Hq2). cbn [mbind option_bind mret option_ret].
  exists (n1 ++ n2), m2, (q1 ++ q2). split; [done|]. split; [exact (evolves_trans _ _ _ _ _ _ _ H1 H2)|].
  intros Hno. rewrite Hq2 by (intros o' ds Ho; apply Hno; by right). rewrite app_nil_r.
  destruct o as [now op]. cbn [snd] in Hq1. destruct op; try done. by destruct (Hno (now, OSeed ds) ds (list_elem_of_here _ _)).
Qed.

Lemma maker_run_app m ops1 ops2 :
  maker_run m (ops1 ++ ops2) = ('(n1, m1) ← maker_run m ops1; '(n2, m2) ← maker_run m1 ops2; mret (n1 ++ n2, m2)).
Proof.
  revert m. induction ops1 as [|o ops IH]; intros m; cbn [app maker_run mbind option_bind].
  { destruct (maker_run m ops2) as [[? ?]|]; done. }
  destruct (maker_step m o) as [[n m1]|]; cbn [mbind option_bind]; [|done]. rewrite IH.
  destruct (maker_run m1 ops) as [[n1 m2]|]; cbn [mbind option_bind mret option_ret]; [|done].
  destruct (maker_run m2 ops2) as [[n2 m3]|]; cbn [mbind option_bind mret option_ret]; [|done]. by rewrite app_assoc.
Qed.

Lemma new_maker_ok b l a fin rb : maker_ok (new_maker b l a fin rb).
Proof.
  split; try done. split; [apply length_replicate|]. cbn. unfold TARGET_FLOOR_BUCKETS. lia.
Qed.

(** ** Theorems *)

Section theorems.
Context (b : BufferBounds) (l : ControlLaw) (a : Authority) (fin rb : bool).
Local Abbreviation start := (new_maker b l a fin rb).

Lemma reachable_ok ops n m : maker_run start ops = Some (n, m) -> maker_ok m.
Proof.
  destruct (maker_run_evolves start ops (new_maker_ok b l a fin rb)) as (n' & m' & q & E & H & _).
  rewrite E. intros [= <- <-]. apply H.
Qed.

(** A slot whose leave is decided has no tracked state, and every way back in
    refuses it. *)
Lemma decided_refused m slot d :
  maker_ok m -> decided_leaves (lv m) !! slot = Some d ->
  slots (conns m) !! slot = None /\
  (forall observed hold now, (resolve_reconnect m slot observed hold now) = (mkReconnectTransition ReconnectRejected hold, m)) /\
  (forall e now, activate_connection_epoch m slot e now = (false, m)) /\
  (forall now, reinstate_slot m slot now = (false, m)).
Proof.
  intros Hok Hd. destruct (mk_decided _ Hok slot d Hd) as (Hdep & _).
  assert (Hl : leave_decided m slot = true) by (apply bool_decide_eq_true; rewrite Hd; by eexists).
  split; [by apply Hok|]. unfold resolve_reconnect, activate_connection_epoch, reinstate_slot. rewrite Hl.
  split; [done|]. split; [|done]. intros. by rewrite orb_true_r.
Qed.

(** C7 A decided leave is final: whatever happens afterwards, the same directive
    stays cached, it is never announced again, and the slot is never let back
    in. *)
Theorem decided_leave_final (ops later : list (Z * MakerOp)) (n : list LeaveDirective) (m : Maker) (slot : Z) (d : LeaveDirective) :
  maker_run start ops = Some (n, m) -> decided_leaves (lv m) !! slot = Some d ->
  exists n' m', maker_run m later = Some (n', m') /\ decided_leaves (lv m') !! slot = Some d /\
    (forall x, x ∈ n' -> ld_slot x <> slot) /\ slots (conns m') !! slot = None /\
    (forall observed hold now, (resolve_reconnect m' slot observed hold now).1 = mkReconnectTransition ReconnectRejected hold) /\
    (forall e now, (activate_connection_epoch m' slot e now).1 = false).
Proof.
  intros E Hd. destruct (maker_run_evolves m later (reachable_ok _ _ _ E)) as (n' & m' & q & E' & H & _).
  exists n', m'. split; [done|]. pose proof (lookup_weaken _ _ _ _ Hd (ev_keep _ _ _ _ H)) as Hd'. split; [done|].
  destruct (decided_refused m' slot d (ev_ok _ _ _ _ H) Hd') as (Hs & Hr & Ha & _).
  split; [|split; [done|]; split; intros; [by rewrite Hr|by rewrite Ha]].
  intros x Hx Ex. destruct (ev_fresh _ _ _ _ H x) as [Hn _]; [by apply elem_of_app; left|]. by rewrite Ex, Hd in Hn.
Qed.

(** Over any history a relay announces a slot's departure at most once, the
    announcement is the leave it keeps, and unless a re-homed session was seeded
    every decided leave was announced. *)
Theorem one_departure_notice (ops : list (Z * MakerOp)) :
  exists n m, maker_run start ops = Some (n, m) /\ NoDup (ld_slot <$> n) /\
    (forall d, d ∈ n -> decided_leaves (lv m) !! ld_slot d = Some d) /\
    ((forall o ds, o ∈ ops -> o.2 <> OSeed ds) -> forall s d, decided_leaves (lv m) !! s = Some d -> d ∈ n).
Proof.
  destruct (maker_run_evolves start ops (new_maker_ok b l a fin rb)) as (n & m & q & E & H & Hq).
  exists n, m. split; [done|]. split; [|split].
  - pose proof (ev_once _ _ _ _ H) as Ho. rewrite fmap_app in Ho. by apply NoDup_app in Ho as [Ho _].
  - intros d Hd. apply (ev_fresh _ _ _ _ H). apply elem_of_app. by left.
  - intros Hno s d Hd. destruct (ev_new _ _ _ _ H s d Hd) as [Hb|Hin]; [done|].
    rewrite (Hq Hno), app_nil_r in Hin. done.
Qed.

(** In every reachable state a dropped leave that carries a turn count carries
    the finalization proof, whichever path decided it. *)
Theorem dropped_counts_proven (ops : list (Z * MakerOp)) :
  exists n m, maker_run start ops = Some (n, m) /\
    forall s d, decided_leaves (lv m) !! s = Some d -> ld_slot d = s /\ is_Some (departures (lv m) !! s) /\
      (ld_reason d = LEAVE_REASON_DROPPED -> is_Some (ld_final_turn_count d) -> ld_finalized d = true).
Proof.
  destruct (maker_run_evolves start ops (new_maker_ok b l a fin rb)) as (n & m & q & E & H & Hq).
  exists n, m. split; [done|]. intros s d Hd. destruct (mk_decided _ (ev_ok _ _ _ _ H) s d Hd) as (? & ? & ?). auto.
Qed.

(** A connection generation that ended never comes back: in no later state is
    it up, and a reconnect that names it is refused. *)
Theorem ended_generation_never_returns (ops later : list (Z * MakerOp)) (n : list LeaveDirective) (m : Maker) (slot e : Z) :
  maker_run start ops = Some (n, m) -> ended m slot e ->
  exists n' m', maker_run m later = Some (n', m') /\ connection_states (conns m') !! slot <> Some (Up e) /\
    forall hold now, admission (resolve_reconnect m' slot (Some e) hold now).1 = ReconnectRejected.
Proof.
  intros E Hend. destruct (maker_run_evolves m later (reachable_ok _ _ _ E)) as (n' & m' & q & E' & H & _).
  exists n', m'. split; [done|]. pose proof (ev_ended _ _ _ _ H slot e Hend) as Hend'.
  assert (Hup : connection_states (conns m') !! slot <> Some (Up e)).
  { intros Hu. destruct Hend' as [Hr|Hd]; [by apply (mk_up _ (ev_ok _ _ _ _ H) slot e Hu)|congruence]. }
  split; [done|]. intros hold now. unfold resolve_reconnect. destruct (leave_decided m' slot) eqn:Hl; [done|].
  destruct (bool_decide (is_Some _)); [done|]. destruct (bool_decide (slot ∈ _)); [done|].
  assert (connection_activation m' slot (Some e) = RejectedActivation) as ->; [|done].
  unfold connection_activation. rewrite Hl. destruct (is_retired m' slot e) eqn:Hr; [done|].
  destruct Hend' as [Hin|Hd]; [by unfold is_retired in Hr; apply bool_decide_eq_false in Hr|]. rewrite Hd.
  rewrite (bool_decide_false (Some e = None)) by done. rewrite andb_false_r. by rewrite Z.eqb_refl.
Qed.

End theorems.

(** ** Witnesses *)

Definition demo_bounds : BufferBounds := mkBufferBounds 2 6.
Definition demo_left : LeaveDirective := mkLeaveDirective false 1 LEAVE_REASON_LEFT 41 7 (Some 12).

(** Slot 0 plays, slot 1 connects, its leave arrives from the authority. *)
Definition demo_session : list (Z * MakerOp) :=
  [(1, OTurn 0 0 40); (2, OActivate 1 5); (3, OTurn 1 0 39); (4, OObserve demo_left)].
Definition demo_later : list (Z * MakerOp) :=
  [(5, OReconnect 1 (Some 6) true); (6, ODecide 1 LEAVE_REASON_DROPPED); (7, OAuthority AuthSelf ∅); (8, OAbandon)].

Definition demo_maker : Maker :=
  default (new_maker demo_bounds default_law AuthPeer true false)
    (snd <$> maker_run (new_maker demo_bounds default_law AuthPeer true false) demo_session).

Lemma decided_leave_final_witness :
  exists n' m', maker_run demo_maker demo_later = Some (n', m') /\ decided_leaves (lv m') !! 1 = Some demo_left.
Proof.
  destruct (decided_leave_final demo_bounds default_law AuthPeer true false demo_session demo_later [demo_left] demo_maker 1 demo_left)
    as (n' & m' & E & H & _); [vm_compute; reflexivity|vm_compute; reflexivity|]. by exists n', m'.
Defined.

Lemma ended_generation_never_returns_witness :
  exists n' m', maker_run demo_maker demo_later = Some (n', m') /\ connection_states (conns m') !! 1 <> Some (Up 5).
Proof.
  destruct (ended_generation_never_returns demo_bounds default_law AuthPeer true false demo_session demo_later [demo_left] demo_maker 1 5)
    as (n' & m' & E & H & _); [vm_compute; reflexivity|right; vm_compute; reflexivity|]. by exists n', m'.
Defined.
