(* ===== verification/LeaveSeal.v ===== *)
(** * Sealed drops stay out

    A slot whose drop is being finalized at its home cannot be brought back by
    any operation of the decision maker until the finalization fails. *)

From Stdlib Require Import ZArith Lia.
From stdpp Require Import gmap sorting list.
From S2P Require Import Prelude.
From S2P Require Import Wire.
From S2P Require Import Presence.
From S2P Require Import Law.
From S2P Require Import Delivery.
From S2P Require Import SyncTracker.
From S2P Require Import Seen.
From S2P Require Import Slot.
From S2P Require Import Maker.
From S2P Require Import Departure.

From S2P Require Import LeaveFinality.

Open Scope Z_scope.

(** ** Seals

    A slot whose drop is being finalized and whose departure is recorded stays
    that way through every operation but a finalization that finds no count. *)

Definition sealed (m : Maker) (slot : Z) : Prop :=
  slot ∈ finalizing_drops (lv m) /\ is_Some (departures (lv m) !! slot).

Definition lifts_seal (slot : Z) (o : Z * MakerOp) : Prop :=
  exists r, o.2 = OFinish slot r /\ (forall n, r <> Count n).

(** Seals and departures survive. *)
Definition keeps (m m' : Maker) : Prop :=
  finalizing_drops (lv m) ⊆ finalizing_drops (lv m') /\
  forall s, is_Some (departures (lv m) !! s) -> is_Some (departures (lv m') !! s).

Lemma keeps_refl m : keeps m m.
Proof. by split. Qed.
Lemma keeps_trans m1 m2 m3 : keeps m1 m2 -> keeps m2 m3 -> keeps m1 m3.
Proof. intros [H1 H2] [H3 H4]. split; [set_solver|auto]. Qed.
Lemma keeps_sealed m m' slot : keeps m m' -> sealed m slot -> sealed m' slot.
Proof. intros [H1 H2] [H3 H4]. split; auto. Qed.

(** Only departures and seals matter. *)
Lemma keeps_frame m m' :
  departures (lv m') = departures (lv m) -> finalizing_drops (lv m') = finalizing_drops (lv m) -> keeps m m'.
Proof. intros E1 E2. unfold keeps. by rewrite E1, E2. Qed.

Lemma note_departure_keeps m slot st why epoch : keeps m (note_departure m slot st why epoch).
Proof.
  split; [done|]. intros s Hs. cbn. destruct (decide (slot = s)) as [->|Hne]; [rewrite lookup_insert_eq; by eexists|].
  by rewrite lookup_insert_ne.
Qed.

Lemma commit_leave_keeps m slot why now : keeps m (commit_leave m slot why now).2.
Proof. unfold commit_leave. destruct (leave_decided m slot); [done|]. by destruct (scheduled_frame m slot why). Qed.

Lemma decide_leave_keeps m slot why now : keeps m (decide_leave m slot why now).2.
Proof.
  unfold decide_leave. cbv zeta. pose proof (note_departure_keeps m slot no_stamps why None) as H.
  set (m1 := note_departure m slot no_stamps why None) in *. destruct (authority m1); [|done].
  eapply keeps_trans; [exact H|]. apply commit_leave_keeps.
Qed.

Lemma force_decide_leave_keeps m slot why now : keeps m (force_decide_leave m slot why now).2.
Proof.
  unfold force_decide_leave. cbv zeta. pose proof (note_departure_keeps m slot no_stamps why None) as H.
  set (m1 := note_departure m slot no_stamps why None) in *.
  pose proof (commit_leave_keeps m1 slot why now) as H2. destruct (commit_leave m1 slot why now) as [[d|] m2]; cbn [snd] in *;
    [by eapply keeps_trans|]. destruct (leave_decided m2 slot); [by eapply keeps_trans|].
  eapply keeps_trans; [exact H|]. eapply keeps_trans; [exact H2|]. by apply keeps_frame.
Qed.

Lemma derive_leaves_keeps m todo now : keeps m (derive_leaves m todo now).2.
Proof.
  revert m. induction todo as [|[slot why] todo IH]; intros m; cbn [derive_leaves]; [done|].
  pose proof (decide_leave_keeps m slot why now) as H1. destruct (decide_leave m slot why now) as [o m1].
  specialize (IH m1). destruct (derive_leaves m1 todo now) as [out m2]. cbn in *. by eapply keeps_trans.
Qed.

Lemma force_all_keeps m todo now : keeps m (force_all m todo now).2.
Proof.
  revert m. induction todo as [|[slot why] todo IH]; intros m; cbn [force_all]; [done|].
  pose proof (force_decide_leave_keeps m slot why now) as H1. destruct (force_decide_leave m slot why now) as [o m1].
  specialize (IH m1). destruct (force_all m1 todo now) as [out m2]. cbn in *. by eapply keeps_trans.
Qed.

Lemma seed_all_keeps m ds now : keeps m (seed_all m ds now).2.
Proof.
  revert m. induction ds as [|d ds IH]; intros m; cbn [seed_all]; [done|].
  assert (H1 : keeps m (seed_departed m d now).2).
  { unfold seed_departed. cbv zeta. set (m1 := note_departure _ _ _ _ _).
    assert (H : keeps m m1) by apply note_departure_keeps.
    destruct (leave_decided m1 (ds_slot d)); [done|]. eapply keeps_trans; [exact H|]. by apply keeps_frame. }
  destruct (seed_departed m d now) as [o m1].
  specialize (IH m1). destruct (seed_all m1 ds now) as [out m2]. cbn in *. by eapply keeps_trans.
Qed.

Lemma set_authority_keeps m a held now all fresh m' : set_authority m a held now = Some (all, fresh, m') -> keeps m m'.
Proof.
  unfold set_authority. destruct (authority m), a; try (intros [= _ _ <-]; by apply keeps_frame).
  destruct (promote_buffer _) as [b|]; [|done]. cbn [mbind option_bind mret option_ret]. unfold drain_handoff_leaves.
  set (m1 := set_buf _ b). pose proof (derive_leaves_keeps m1 (filter (λ p : Z * Z, p.1 ∉ held) (undecided_departures m1)) now) as H.
  destruct (derive_leaves m1 _ now) as [out m2]. intros [= _ _ <-]. eapply keeps_trans; [|exact H]. by apply keeps_frame.
Qed.

Lemma observe_leave_keeps m d now : keeps m (observe_leave m d now).2.
Proof.
  unfold observe_leave. destruct (u8_try_from _) as [slot|]; [|done].
  set (d' := normalize_observed_leave d _). destruct (leave_decided m slot); cbn [snd].
  { apply keeps_frame; cbn; unfold raise_leave_seq; by destruct (_ <? _). }
  set (l := set_decided (lv m) _ _). set (m1 := set_lv m (note_leave_decided (raise_leave_seq l (leave_seq d')) slot now)).
  set (m2 := match connection_states (conns m1) !! slot with Some (Up e) => _ | _ => m1 end).
  apply (keeps_trans m m2).
  { apply (keeps_trans m m1); [apply keeps_frame; cbn; unfold raise_leave_seq; by destruct (_ <? _)|].
    apply keeps_frame; subst m2; by destruct (connection_states (conns m1) !! slot) as [[]|]. }
  exact (note_departure_keeps m2 slot _ _ None).
Qed.

Lemma activate_keeps m slot epoch now : keeps m (activate_connection_epoch m slot epoch now).2.
Proof.
  assert (Hr : keeps m (replace_epoch m slot epoch now)).
  { apply keeps_frame; unfold replace_epoch; cbv zeta; by destruct (_ && _). }
  unfold activate_connection_epoch. destruct (_ || _); [done|]. destruct (is_retired m slot epoch); [done|].
  destruct (connection_states (conns m) !! slot) as [[c|c]|]; try destruct (c =? epoch); done.
Qed.

(** A reconnect never touches a sealed slot. *)
Lemma resolve_reconnect_sealed m slot s observed hold now :
  sealed m s -> sealed (resolve_reconnect m slot observed hold now).2 s.
Proof.
  intros Hs. unfold resolve_reconnect. destruct (leave_decided m slot); [done|].
  destruct (bool_decide (is_Some (evictions (roster m) !! slot))); [done|].
  case_bool_decide as Hf; [done|].
  assert (Hne : slot <> s) by (intros ->; by destruct Hs).
  destruct (connection_activation m slot observed); [| |done];
  (destruct (departed m slot && negb hold); [done|]);
  (assert (H1 : sealed (if departed m slot then reinstate_slot m slot now else (true, m)).2 s);
   [destruct (departed m slot); [|done]; unfold reinstate_slot; destruct (leave_decided m slot); [done|];
    destruct (departures (lv m) !! slot); [|done]; split; cbn; [apply Hs|by rewrite lookup_delete_ne by done; apply Hs]|]);
  (destruct (if departed m slot then reinstate_slot m slot now else (true, m)) as [restored m1]; cbn [snd] in H1);
  (destruct restored; cbn [negb]; [|done]);
  (assert (H2 : keeps m1 (admit_connection_up m1 slot observed now).2);
   [unfold admit_connection_up; destruct (_ || _); [done|]; destruct observed; [apply activate_keeps|done]|]);
  (destruct (admit_connection_up m1 slot observed now) as [a m2]; by eapply keeps_sealed).
Qed.

Lemma maker_step_sealed m o n m' slot :
  maker_step m o = Some (n, m') -> ~ lifts_seal slot o -> sealed m slot -> sealed m' slot.
Proof.
  destruct o as [now op]. unfold maker_step. cbn [fst snd].
  intros E Hl. destruct op; cbn [fst snd] in E.
  - injection E as _ <-. apply keeps_sealed. unfold observe_turn_frame. case_bool_decide; [done|by apply keeps_frame].
  - injection E as _ <-. apply keeps_sealed. unfold record_departure_outcome. destruct (leave_decided m slot0); cbn [snd].
    + exact (note_departure_keeps m slot0 st why None).
    + unfold record_departure_for_epoch. destruct (mark_connection_down m slot0 epoch) as [[|] m1] eqn:Ed; cbn [snd];
        (assert (H1 : keeps m m1);
         [apply keeps_frame; revert Ed; unfold mark_connection_down;
          destruct (connection_states (conns m) !! slot0) as [[c|c]|], epoch; try destruct (c =? _); by intros [= <- <-] || intros [= <-]|]);
        [|done]. eapply keeps_trans; [exact H1|]. exact (note_departure_keeps m1 slot0 st why epoch).
  - injection E as _ <-. apply keeps_sealed. exact (note_departure_keeps m slot0 st why None).
  - injection E as _ <-. apply keeps_sealed, decide_leave_keeps.
  - injection E as E. pose proof (force_all_keeps m (undecided_departures m) now) as H. unfold decide_abandoned_departures in E.
    rewrite E in H. by apply keeps_sealed.
  - injection E as _ <-. apply keeps_sealed, observe_leave_keeps.
  - injection E as _ <-. apply keeps_sealed. pose proof (seed_all_keeps m ds now) as H. unfold seed_resumed.
    destruct (seed_all m ds now) as [out m1]. eapply keeps_trans; [exact H|]. by apply keeps_frame.
  - injection E as _ <-. apply resolve_reconnect_sealed.
  - injection E as _ <-. apply keeps_sealed, activate_keeps.
  - injection E as _ <-. apply keeps_sealed, keeps_frame; unfold mark_connection_down;
      destruct (connection_states (conns m) !! slot0) as [[c|c]|], observed; try destruct (c =? _); done.
  - injection E as _ <-. apply keeps_sealed, keeps_frame; unfold remove_slot_for_epoch; by destruct (connection_epoch_matches m slot0 epoch).
  - injection E as _ <-. apply keeps_sealed, keeps_frame; unfold record_result; destruct (negb _); try done; by destruct (results (lv m) !! slot0).
  - injection E as _ <-. intros [Hf Hd]. unfold seal_for_finalize. destruct (decided_leaves (lv m) !! slot0); [done|].
    destruct (connection_is_up m slot0); [done|]. destruct (negb (bool_decide _)); [done|].
    destruct (bool_decide (slot0 ∈ _)); [done|]. destruct (negb _); [done|]. split; cbn; [set_solver|done].
  - injection E as _ <-. intros [Hf Hd]. unfold finish_finalize. destruct reading as [k| |].
    + by apply (keeps_sealed m); [exact (note_departure_keeps m slot0 _ _ None)|].
    + destruct (home_forwarded_nothing m slot0); cbn [snd]; [by apply (keeps_sealed m); [exact (note_departure_keeps m slot0 _ _ None)|]|].
      split; cbn; [|done]. apply elem_of_difference. split; [done|]. rewrite elem_of_singleton. intros ->.
      apply Hl. by exists NeverForwarded.
    + split; cbn; [|done]. apply elem_of_difference. split; [done|]. rewrite elem_of_singleton. intros ->.
      apply Hl. by exists Unsound.
  - destruct (sync_maker _ b a held now) as [[[all fresh] m1]|] eqn:Es; [|done]. injection E as <- <-.
    apply keeps_sealed. apply set_authority_keeps in Es. eapply keeps_trans; [|exact Es]. by apply keeps_frame.
  - destruct (set_authority m a held now) as [[[all fresh] m1]|] eqn:Es; [|done]. injection E as <- <-.
    apply keeps_sealed. by apply set_authority_keeps in Es.
  - injection E as _ <-. apply keeps_sealed, keeps_frame; by destruct peer.
  - injection E as _ <-. by apply keeps_sealed, keeps_frame.
  - injection E as _ <-. by apply keeps_sealed, keeps_frame.
  - injection E as _ <-. apply keeps_sealed, keeps_frame; by destruct claim.
Qed.

Lemma maker_run_sealed m ops n m' slot :
  maker_run m ops = Some (n, m') -> Forall (fun o => ~ lifts_seal slot o) ops -> sealed m slot -> sealed m' slot.
Proof.
  revert m n. induction ops as [|o ops IH]; intros m n E Hl Hs; cbn [maker_run] in E; [by injection E as <- <-|].
  apply Forall_cons in Hl as [Ho Hl].
  destruct (maker_step m o) as [[n1 m1]|] eqn:E1; [|done]. cbn [mbind option_bind] in E.
  destruct (maker_run m1 ops) as [[n2 m2]|] eqn:E2; [|done]. injection E as <- <-.
  eapply IH; [exact E2|done|]. by eapply maker_step_sealed.
Qed.

(** ** Theorems *)

(** C10 Once the home sealed a departed slot's drop, no sequence of operations lets
    the slot back in before the finalization fails for want of a count: its
    departure stays recorded and every reconnect is refused without consuming
    the hold, or refused for good once the leave is decided. *)
Theorem sealed_drop_stays_out (m m1 m2 : Maker) (slot : Z) (requested : option Z) (ops : list (Z * MakerOp)) (n : list LeaveDirective) :
  departed m slot = true -> seal_for_finalize m slot requested = (None, m1) ->
  maker_run m1 ops = Some (n, m2) -> Forall (fun o => ~ lifts_seal slot o) ops ->
  departed m2 slot = true /\
  forall observed hold now, let t := (resolve_reconnect m2 slot observed hold now).1 in
    admission t = ReconnectRejected /\ (leave_decided m2 slot = false -> consume_hold t = false).
Proof.
  intros Hd Es Er Hl.
  assert (Hs : sealed m1 slot).
  { unfold seal_for_finalize in Es. destruct (decided_leaves (lv m) !! slot); [done|]. destruct (connection_is_up m slot); [done|].
    destruct (negb (bool_decide _)); [done|]. destruct (bool_decide (slot ∈ _)); [done|]. destruct (negb _); [done|].
    injection Es as <-. split; cbn; [set_solver|]. by apply departed_true. }
  destruct (maker_run_sealed m1 ops n m2 slot Er Hl Hs) as [Hf Hdep].
  split; [by apply bool_decide_eq_true|]. intros observed hold now. unfold resolve_reconnect.
  destruct (leave_decided m2 slot); cbn [fst admission consume_hold]; [done|].
  destruct (bool_decide (is_Some _)); [done|]. by rewrite bool_decide_true.
Qed.

(** The count of a successful finalization is what the authority's leave
    carries: with no count recorded before, sealing, finishing on a reading of
    [k] turns and deciding yields the finalized directive for exactly [k]. *)
Theorem finalized_count_emitted (m m1 : Maker) (slot : Z) (requested : option Z) (d0 : Departure) (k now : Z) :
  seal_for_finalize m slot requested = (None, m1) -> departures (lv m) !! slot = Some d0 ->
  final_turn_count d0 = None -> authority m = AuthSelf -> slots (conns m) !! slot = None ->
  exists m2, finish_finalize m1 slot (Count k) = (Finalized k, m2) /\
    exists d m3, decide_leave m2 slot LEAVE_REASON_DROPPED now = (Some d, m3) /\
      ld_finalized d = true /\ ld_final_turn_count d = Some k /\ ld_reason d = LEAVE_REASON_DROPPED /\
      decided_leaves (lv m3) !! slot = Some d.
Proof.
  intros Es Hdep Hc Ha Hs. unfold seal_for_finalize in Es. destruct (decided_leaves (lv m) !! slot) eqn:Hdec; [done|].
  destruct (connection_is_up m slot); [done|]. destruct (negb (bool_decide _)); [done|]. destruct (bool_decide (slot ∈ _)); [done|].
  destruct (counted_leave_schedulable m slot) eqn:Hsch; [|done]. cbn [negb] in Es. injection Es as <-.
  set (m1 := set_lv m _). unfold finish_finalize. eexists. split; [reflexivity|].
  set (st := mkDepartureStamps None None None (Some k) true). set (m2 := note_departure m1 slot st LEAVE_REASON_DROPPED None).
  set (m3 := note_departure m2 slot no_stamps LEAVE_REASON_DROPPED None).
  assert (Hrec : exists d, departures (lv m3) !! slot = Some d /\ finalized d = true /\ final_turn_count d = Some k /\
    last_frame d = last_frame d0).
  { subst m3 m2 m1. cbn. rewrite !lookup_insert_eq. eexists. split; [reflexivity|]. rewrite lookup_delete_eq, Hdep, Hs. cbn.
    rewrite Hc, orb_true_r. split; [done|]. split; [done|]. by destruct (last_frame d0). }
  destruct Hrec as (d & Hd & Hfin & Hcnt & Hlf).
  assert (Hf3 : is_finalized m3 slot LEAVE_REASON_DROPPED = true).
  { unfold is_finalized. rewrite Hd, Hfin, Hcnt. done. }
  assert (Hc3 : count_to_emit m3 slot LEAVE_REASON_DROPPED = Some k).
  { unfold count_to_emit. rewrite Hf3, Hd. done. }
  assert (Hsess : session_frame m3 = session_frame m).
  { unfold session_frame. subst m3 m2 m1. cbn. by rewrite !delete_id by (rewrite ?delete_id; done). }
  assert (Hfr : is_Some (scheduled_frame m3 slot LEAVE_REASON_DROPPED)).
  { unfold scheduled_frame. rewrite Hc3, Hsess, Hd. cbn [mbind option_bind]. rewrite Hlf.
    unfold counted_leave_schedulable in Hsch. rewrite Hdep in Hsch. cbn [mbind option_bind] in Hsch.
    change (game_underway m3) with (game_underway m). rewrite bool_decide_true by (by eexists).
    unfold leave_base_frame, or_else. destruct (last_frame d0); [by eexists|]. destruct (session_frame m); [by eexists|].
    rewrite (bool_decide_false (is_Some None)) in Hsch by (by intros []). rewrite !orb_false_r in Hsch. rewrite Hsch. by eexists. }
  unfold decide_leave. fold m3. assert (authority m3 = AuthSelf) as -> by done. unfold commit_leave.
  assert (Hl : leave_decided m3 slot = false).
  { apply bool_decide_eq_false. change (decided_leaves (lv m3)) with (decided_leaves (lv m)). rewrite Hdec. by intros []. }
  rewrite Hl, Hf3, Hc3. destruct Hfr as [f ->]. eexists _, _. split; [reflexivity|]. cbn.
  by rewrite lookup_insert_eq.
Qed.

(** ** Witnesses *)

(** Slot 1's link died after framed turns; its home seals and finalizes. *)
Definition demo_dropped : Maker :=
  default (new_maker demo_bounds default_law AuthSelf true false)
    (snd <$> maker_run (new_maker demo_bounds default_law AuthSelf true false)
       [(1, OTurn 0 0 40); (2, OActivate 1 5); (3, OTurn 1 0 39); (4, ORecord 1 no_stamps LEAVE_REASON_DROPPED (Some 5))]).

Lemma sealed_drop_stays_out_witness :
  departed (default demo_dropped (snd <$> maker_run (seal_for_finalize demo_dropped 1 (Some 5)).2
    [(5, OReconnect 1 (Some 6) true); (6, OFinish 1 (Count 1)); (7, OReconnect 1 (Some 6) true)])) 1 = true.
Proof.
  refine (proj1 (sealed_drop_stays_out demo_dropped (seal_for_finalize demo_dropped 1 (Some 5)).2 _ 1 (Some 5)
    [(5, OReconnect 1 (Some 6) true); (6, OFinish 1 (Count 1)); (7, OReconnect 1 (Some 6) true)] [] _ _ _ _)).
  - vm_compute. reflexivity.
  - vm_compute. reflexivity.
  - vm_compute. reflexivity.
  - repeat constructor; intros (r & [= <-] & H) || intros (r & [=] & H). by apply (H 1).
Defined.

Lemma finalized_count_emitted_witness :
  exists d m3, decide_leave (finish_finalize (seal_for_finalize demo_dropped 1 (Some 5)).2 1 (Count 1)).2 1 LEAVE_REASON_DROPPED 9
    = (Some d, m3) /\ ld_final_turn_count d = Some 1.
Proof.
  destruct (departures (lv demo_dropped) !! 1) as [d0|] eqn:E; [|by vm_compute in E].
  destruct (finalized_count_emitted demo_dropped (seal_for_finalize demo_dropped 1 (Some 5)).2 1 (Some 5) d0 1 9)
    as (m2 & Ef & d & m3 & Ed & _ & Hc & _).
  - vm_compute. reflexivity.
  - exact E.
  - vm_compute in E. by injection E as <-.
  - reflexivity.
  - reflexivity.
  - exists d, m3. rewrite Ef. by split.
Defined.
