(* ===== verification/LeaveAgreement.v ===== *)
(** * Every relay derives the same leave

    Departure records merge order-free, so a relay promoted mid-handoff derives
    the directive the previous authority would have; the apply frame is one
    every survivor can reach; a promotion decides exactly the departures no one
    holds; and a return before the decision restores the slot's progress. *)

From Stdlib Require Import ZArith Lia.
From stdpp Require Import gmap sorting list.
From S2P Require Import Prelude.
From S2P Require Import Wire.
From S2P Require Import Presence.
From S2P Require Import Law.
From S2P Require Import Delivery.
From S2P Require Import SyncTracker.
From S2P Require Import Seen.
From S2P Require Import Slot.
From S2P Require Import Maker.
From S2P Require Import Departure.
From S2P Require Import LeaveFinality.

Open Scope Z_scope.

(** ** Merging observations of one departure *)

(** A departure observed several times: the home's announcement, re-announces
    and local signals, each with its generation. *)
Definition observe_departures (m : Maker) (slot why : Z) (l : list (DepartureStamps * option Z)) : Maker :=
  foldl (fun m x => note_departure m slot x.1 why x.2) m l.

(** The fields of a record the directive is derived from. *)
Definition view (d : Departure) : option Z * option Z * option Z * bool :=
  (last_frame d, reachable d, final_turn_count d, finalized d).
Definition stamp_view (h : DepartureStamps) : option Z * option Z * option Z * bool :=
  (st_last_frame h, st_reachable_frame h, st_final_turn_count h, st_finalized h).

Section merging.
Context (h : DepartureStamps) (f slot why : Z) (Hf : st_last_frame h = Some f).

Definition behind (o : option Z) : Prop := forall x, o = Some x -> x <= f.

(** The record before and after the home's stamps arrived. *)
Definition merged_ok (arrived : bool) (d : Departure) : Prop :=
  reason d = why /\
  (if arrived then view d = stamp_view h
   else behind (last_frame d) /\ reachable d = None /\ final_turn_count d = None /\ finalized d = false).

Lemma max_known_behind o : behind o -> max_known (Some f) o = Some f /\ max_known o (Some f) = Some f.
Proof. intros Hb. destruct o as [x|]; [|done]. specialize (Hb x eq_refl). cbn. split; f_equal; lia. Qed.

Lemma max_known_idem : max_known (Some f) (Some f) = Some f.
Proof. cbn. f_equal. lia. Qed.

Lemma or_else_same {A} (o : option A) : or_else o o = o.
Proof. by destruct o. Qed.
Lemma or_else_none {A} (o : option A) : or_else o None = o.
Proof. by destruct o. Qed.

(** The first observation. *)
Lemma first_merge own x epoch :
  behind (own ≫= frame) -> x = h \/ x = no_stamps ->
  let merged := max_known (st_last_frame x) (own ≫= frame) in
  merged_ok (bool_decide (st_last_frame x = Some f)) (merge_departure None merged (lift_state own merged) x why epoch).
Proof.
  intros Hb [->| ->]; cbv zeta.
  - rewrite bool_decide_true by done. split; [done|]. unfold view, stamp_view. cbn. rewrite Hf.
    by rewrite (proj1 (max_known_behind _ Hb)).
  - rewrite bool_decide_false by done. by split.
Qed.

Lemma next_merge arrived d x epoch :
  merged_ok arrived d -> x = h \/ x = no_stamps ->
  merged_ok (arrived || bool_decide (st_last_frame x = Some f))
    (merge_departure (Some d) (max_known (st_last_frame x) None) None x why epoch).
Proof.
  intros [Hr Hd] Hx. split; [done|].
  destruct Hx as [->| ->].
  - rewrite bool_decide_true, orb_true_r by done. unfold view, stamp_view. cbn. rewrite Hf. cbn [max_known].
    destruct arrived.
    + unfold view, stamp_view in Hd. injection Hd as E1 E2 E3 E4. rewrite E1, E2, E3, E4, Hf, max_known_idem, !or_else_same.
      by rewrite orb_diag.
    + destruct Hd as (Hb & -> & -> & ->). by rewrite (proj2 (max_known_behind _ Hb)).
  - rewrite bool_decide_false, orb_false_r by done. cbn [no_stamps st_last_frame max_known]. destruct arrived.
    + rewrite <-Hd. unfold view. cbn. rewrite !or_else_none, orb_false_r. by destruct (last_frame d).
    + destruct Hd as (Hb & E2 & E3 & E4). cbn. rewrite E2, E3, E4. split; [|done]. by destruct (last_frame d).
Qed.

Lemma observe_departures_merged m l d arrived :
  slots (conns m) !! slot = None -> departures (lv m) !! slot = Some d -> merged_ok arrived d ->
  Forall (fun x => x.1 = h \/ x.1 = no_stamps) l ->
  exists d', departures (lv (observe_departures m slot why l)) !! slot = Some d' /\
    merged_ok (arrived || existsb (fun x => bool_decide (st_last_frame x.1 = Some f)) l) d'.
Proof.
  revert m d arrived. induction l as [|x l IH]; intros m d arrived Hs Hd Hm Hl; cbn [observe_departures foldl existsb].
  { rewrite orb_false_r. by exists d. }
  apply Forall_cons in Hl as [Hx Hl].
  set (m1 := note_departure m slot x.1 why x.2).
  assert (Hd1 : departures (lv m1) !! slot = Some (merge_departure (Some d) (max_known (st_last_frame x.1) None) None x.1 why x.2)).
  { subst m1. cbn. rewrite lookup_insert_eq, Hd, Hs. done. }
  destruct (IH m1 _ _ (lookup_delete_eq _ _) Hd1 (next_merge arrived d x.1 x.2 Hm Hx) Hl) as (d' & E & H').
  exists d'. split; [exact E|]. by rewrite orb_assoc.
Qed.
End merging.

(** What a relay that has taken in the home's stamps records, whatever else it
    observed and in whatever order. *)
Lemma departures_converge m slot why h f l :
  st_last_frame h = Some f -> departures (lv m) !! slot = None ->
  (forall x, slot_frame m slot = Some x -> x <= f) ->
  Forall (fun x => x.1 = h \/ x.1 = no_stamps) l -> h ∈ l.*1 ->
  exists d, departures (lv (observe_departures m slot why l)) !! slot = Some d /\ reason d = why /\ view d = stamp_view h.
Proof.
  intros Hf Hd Hb Hl Hin. destruct l as [|x l]; [by apply elem_of_nil in Hin|]. apply Forall_cons in Hl as [Hx Hl].
  cbn [observe_departures foldl]. set (m1 := note_departure m slot x.1 why x.2).
  assert (Hd1 : exists d1, departures (lv m1) !! slot = Some d1 /\ merged_ok h f why (bool_decide (st_last_frame x.1 = Some f)) d1).
  { subst m1. cbn. rewrite lookup_insert_eq, Hd. eexists. split; [reflexivity|]. by apply first_merge. }
  destruct Hd1 as (d1 & E1 & H1).
  destruct (observe_departures_merged h f slot why Hf m1 l d1 _ (lookup_delete_eq _ _) E1 H1 Hl) as (d & E & Hr & H).
  exists d. split; [exact E|]. split; [exact Hr|].
  assert (bool_decide (st_last_frame x.1 = Some f) || existsb (fun x => bool_decide (st_last_frame x.1 = Some f)) l = true) as Ht.
  { apply list_elem_of_fmap in Hin as (y & -> & [<-|Hy]%elem_of_cons).
    - by rewrite bool_decide_true.
    - apply orb_true_iff. right. apply existsb_exists. exists y. split; [by apply list_elem_of_In|]. by apply bool_decide_eq_true. }
  by rewrite Ht in H.
Qed.

Definition same_directive (d1 d2 : LeaveDirective) : Prop :=
  ld_slot d1 = ld_slot d2 /\ ld_reason d1 = ld_reason d2 /\ ld_apply_at_frame d1 = ld_apply_at_frame d2 /\
  ld_final_turn_count d1 = ld_final_turn_count d2 /\ ld_finalized d1 = ld_finalized d2.

(** A framed record alone determines the directive. *)
Lemma commit_from_view m slot why now d f :
  leave_decided m slot = false -> departures (lv m) !! slot = Some d -> last_frame d = Some f ->
  exists x, commit_leave m slot why now = (Some x, (commit_leave m slot why now).2) /\
    ld_slot x = slot /\ ld_reason x = why /\
    ld_apply_at_frame x = saturating_add u32_max (match reachable d with Some c => Z.min f c | None => f end) 1 /\
    ld_finalized x = ((why =? LEAVE_REASON_DROPPED) && (finalized d && bool_decide (is_Some (final_turn_count d)))) /\
    ld_final_turn_count x = (if why =? LEAVE_REASON_DROPPED then
        (if finalized d && bool_decide (is_Some (final_turn_count d)) then final_turn_count d else None)
      else if resumed (lv m) then None else final_turn_count d).
Proof.
  intros Hl Hd Hf. unfold commit_leave. rewrite Hl.
  assert (scheduled_frame m slot why = Some (saturating_add u32_max (match reachable d with Some c => Z.min f c | None => f end) 1)) as ->.
  { unfold scheduled_frame. rewrite Hd. cbn [mbind option_bind]. rewrite Hf. cbn. by destruct (reachable d). }
  eexists. split; [reflexivity|]. cbn. unfold count_to_emit, is_finalized. rewrite Hd. cbn [mbind option_bind].
  by destruct (why =? LEAVE_REASON_DROPPED).
Qed.

(** ** The reachability ceiling *)

Lemma map_fold_ignores {A B} (g : Z -> A -> B -> B) (z : B) (mp : gmap Z A) k x :
  (forall y acc, g k y acc = acc) ->
  (forall j1 j2 z1 z2 y, g j1 z1 (g j2 z2 y) = g j2 z2 (g j1 z1 y)) ->
  map_fold g z (<[k := x]> mp) = map_fold g z mp.
Proof.
  intros Hk Hc. rewrite <-insert_delete_eq.
  rewrite map_fold_insert_L; [|by intros; apply Hc|apply lookup_delete_eq]. rewrite Hk.
  destruct (mp !! k) as [y|] eqn:E; [|by rewrite delete_id].
  rewrite <-(insert_delete_id mp k y E) at 2. rewrite map_fold_insert_L; [|by intros; apply Hc|apply lookup_delete_eq]. by rewrite Hk.
Qed.

Lemma max_known_swap a b c : max_known (max_known a b) c = max_known (max_known a c) b.
Proof. destruct a, b, c; cbn; try done; f_equal; lia. Qed.
Lemma min_known_swap a b c : min_known (min_known a b) c = min_known (min_known a c) b.
Proof. destruct a, b, c; cbn; try done; f_equal; lia. Qed.

(** Nothing the departing slot claims moves its ceiling. *)
Lemma reachable_ignores_departing m slot s : reachable_frame (put_slot m slot s) slot = reachable_frame m slot.
Proof.
  unfold reachable_frame, frontier_turn. cbn [put_slot set_conns conns Maker.set_slots slots bounds].
  rewrite map_fold_ignores.
  - destruct (map_fold _ None (slots (conns m))) as [fr|]; [|done]. cbn [mbind option_bind].
    apply map_fold_ignores; [intros; by rewrite Z.eqb_refl|].
    intros. destruct (j1 =? slot), (j2 =? slot); try done. apply min_known_swap.
  - intros. by rewrite Z.eqb_refl.
  - intros. destruct (j1 =? slot), (j2 =? slot); try done. apply max_known_swap.
Qed.

Lemma min_known_le a b c : min_known a b = Some c -> (forall x, a = Some x -> c <= x) /\ (forall x, b = Some x -> c <= x).
Proof. destruct a, b; cbn; intros [= <-]; split; intros x [=]; lia. Qed.

(** The ceiling is at most what every other slot with history executed. *)
Lemma reachable_below m slot c s st :
  reachable_frame m slot = Some c -> s <> slot -> slots (conns m) !! s = Some st ->
  exists frontier, frontier_turn m slot = Some frontier /\
    forall x, executed_frame (saturating_sub frontier (bmax (bounds m))) (frame_history st) = Some x -> c <= x.
Proof.
  unfold reachable_frame. destruct (frontier_turn m slot) as [fr|] eqn:Hfr; [|done]. cbn [mbind option_bind].
  intros Hc Hne Hs. exists fr. split; [done|]. intros x Hx.
  rewrite <-(insert_delete_id _ _ _ Hs), map_fold_insert_L in Hc.
  - destruct (Z.eqb_spec s slot); [done|]. apply min_known_le in Hc. by apply Hc.
  - intros j1 j2 z1 z2 y _ _ _. destruct (j1 =? slot), (j2 =? slot); try done. apply min_known_swap.
  - apply lookup_delete_eq.
Qed.

Lemma max_fold_elem (l : list (Z * Z)) acc x :
  foldl (fun acc e => max_known acc (Some e.2)) acc l = Some x -> acc = Some x \/ exists q, (q, x) ∈ l.
Proof.
  revert acc. induction l as [|[q y] l IH]; intros acc; cbn [foldl]; [by left|]. intros H.
  destruct (IH _ H) as [E|[q' Hq]]; [|right; exists q'; by right]. cbn in E.
  destruct acc as [a|]; cbn in E; injection E as E; [|right; exists q; rewrite <-E; left].
  destruct (Z.max_spec a y) as [[_ M]|[_ M]]; rewrite M in E; [right; exists q; rewrite <-E; left|by left; rewrite E].
Qed.

Lemma executed_elem threshold hst x :
  executed_frame threshold hst = Some x -> exists q, (q, x) ∈ hst /\ (q <= threshold \/ head hst = Some (q, x)).
Proof.
  unfold executed_frame. destruct (foldl _ None (filter _ hst)) as [y|] eqn:E.
  - intros [= <-]. apply max_fold_elem in E as [E|[q Hq]]; [done|]. apply list_elem_of_filter in Hq as [Hle Hin].
    exists q. split; [done|by left].
  - destruct hst as [|[q y] hst]; cbn; [done|]. intros [= <-]. exists q. split; [left|by right].
Qed.

Lemma executed_total threshold hst : hst <> [] -> is_Some (executed_frame threshold hst).
Proof. unfold executed_frame. destruct (foldl _ _ _); [by eexists|]. destruct hst as [|[q y] ?]; [done|]. by eexists. Qed.

(** ** Promotion *)

(** Two makers that schedule leaves alike. *)
Record sched_eq (m m' : Maker) : Prop := {
  se_slots : slots (conns m') = slots (conns m);
  se_roster : started_slots (roster m') = started_slots (roster m) /\ peer_started_slots (roster m') = peer_started_slots (roster m);
  se_resumed : resumed (lv m') = resumed (lv m);
  se_view : forall s, (view <$> departures (lv m') !! s) = (view <$> departures (lv m) !! s);
}.

#[global] Instance sched_eq_equiv : Equivalence sched_eq.
Proof.
  split.
  - intros m. by split.
  - intros m m' [? [? ?] ? Hv]. by split.
  - intros m m' m'' [? [E1 E2] ? Hv] [? [E3 E4] ? Hv']. split; [congruence|split; congruence|congruence|]. intros s. by rewrite Hv'.
Qed.

Lemma sched_eq_views m m' s (Hv : (view <$> departures (lv m') !! s) = (view <$> departures (lv m) !! s)) :
  (departures (lv m') !! s ≫= last_frame) = (departures (lv m) !! s ≫= last_frame) /\
  (departures (lv m') !! s ≫= reachable) = (departures (lv m) !! s ≫= reachable) /\
  (departures (lv m') !! s ≫= final_turn_count) = (departures (lv m) !! s ≫= final_turn_count) /\
  forall why, is_finalized m' s why = is_finalized m s why.
Proof.
  unfold is_finalized. destruct (departures (lv m') !! s) as [d'|], (departures (lv m) !! s) as [d|]; try done.
  unfold view in Hv. cbn in Hv. injection Hv as E1 E2 E3 E4. cbn. by rewrite E1, E2, E3, E4.
Qed.

Lemma sched_eq_frame m m' s why : sched_eq m m' -> scheduled_frame m' s why = scheduled_frame m s why.
Proof.
  intros [Hs [Hr1 Hr2] Hres Hv]. destruct (sched_eq_views m m' s (Hv s)) as (E1 & E2 & E3 & E4).
  unfold scheduled_frame, count_to_emit, game_underway, session_frame. by rewrite E1, E2, E3, E4, Hs, Hr1, Hr2, Hres.
Qed.

(** Noting a departure that is already recorded changes nothing the schedule
    reads. *)
Lemma note_again_sched m slot why d :
  departures (lv m) !! slot = Some d -> slots (conns m) !! slot = None -> sched_eq m (note_departure m slot no_stamps why None).
Proof.
  intros Hd Hs. split; cbn; [by apply delete_id|done|done|].
  intros s. destruct (decide (slot = s)) as [<-|Hne]; [|by rewrite lookup_insert_ne].
  rewrite lookup_insert_eq, Hd, Hs. cbn. unfold view. cbn. rewrite !or_else_none, orb_false_r. by destruct (last_frame d).
Qed.

Lemma decide_again m slot why now d :
  maker_ok m -> authority m = AuthSelf -> departures (lv m) !! slot = Some d -> decided_leaves (lv m) !! slot = None ->
  let r := decide_leave m slot why now in
  sched_eq m r.2 /\ authority r.2 = AuthSelf /\
  (is_Some (decided_leaves (lv r.2) !! slot) <-> is_Some (scheduled_frame m slot why)) /\
  (forall s, s <> slot -> decided_leaves (lv r.2) !! s = decided_leaves (lv m) !! s).
Proof.
  intros Hok Ha Hd Hn. cbv zeta. unfold decide_leave. set (m1 := note_departure m slot no_stamps why None).
  assert (Hse : sched_eq m m1) by (eapply note_again_sched; [done|]; apply Hok; by eexists).
  assert (authority m1 = AuthSelf) as -> by done. unfold commit_leave.
  assert (leave_decided m1 slot = false) as ->.
  { apply bool_decide_eq_false. change (decided_leaves (lv m1)) with (decided_leaves (lv m)). rewrite Hn. by intros []. }
  rewrite (sched_eq_frame m m1 slot why Hse).
  destruct (scheduled_frame m slot why) as [f|]; cbn [snd].
  - split; [|split; [done|]; split].
    + destruct Hse as [? ? ? Hv]. by split.
    + split; [by eexists|]. intros _. cbn. rewrite lookup_insert_eq. by eexists.
    + intros s Hs. cbn. by rewrite lookup_insert_ne.
  - split; [done|]. split; [done|]. split; [|done].
    change (decided_leaves (lv m1)) with (decided_leaves (lv m)). rewrite Hn. split; intros []; done.
Qed.

Lemma derive_leaves_exact m todo now :
  maker_ok m -> authority m = AuthSelf -> NoDup todo.*1 ->
  Forall (fun p => is_Some (departures (lv m) !! p.1) /\ decided_leaves (lv m) !! p.1 = None) todo ->
  let r := derive_leaves m todo now in
  (forall s, s ∉ todo.*1 -> decided_leaves (lv r.2) !! s = decided_leaves (lv m) !! s) /\
  (forall s why, (s, why) ∈ todo -> is_Some (decided_leaves (lv r.2) !! s) <-> is_Some (scheduled_frame m s why)).
Proof.
  revert m. induction todo as [|[slot why] todo IH]; intros m Hok Ha Hnd Hall; cbn [derive_leaves].
  { split; [done|]. intros s w []%elem_of_nil. }
  cbn [fmap list_fmap fst] in Hnd. apply NoDup_cons in Hnd as [Hni Hnd]. apply Forall_cons in Hall as [[[d Hd] Hn] Hall].
  pose proof (decide_again m slot why now d Hok Ha Hd Hn) as (Hse & Ha1 & Hdec & Hoth).
  pose proof (decide_leave_evolves m slot why now Hok) as Hev.
  destruct (decide_leave m slot why now) as [o m1]. cbn [fst snd] in *.
  assert (Hall1 : Forall (fun p => is_Some (departures (lv m1) !! p.1) /\ decided_leaves (lv m1) !! p.1 = None) todo).
  { apply Forall_forall. intros p Hp. rewrite Forall_forall in Hall. destruct (Hall p Hp) as [[dp Hdp] Hnp].
    assert (p.1 <> slot) by (intros <-; apply Hni; by apply list_elem_of_fmap_2). rewrite Hoth by done. split; [|done].
    pose proof (se_view _ _ Hse p.1) as Hv. rewrite Hdp in Hv. destruct (departures (lv m1) !! p.1); [by eexists|done]. }
  specialize (IH m1 (ev_ok _ _ _ _ Hev) Ha1 Hnd Hall1) as [IH1 IH2].
  destruct (derive_leaves m1 todo now) as [out m2]. cbn [fst snd fmap list_fmap] in *. split.
  - intros s Hs. apply not_elem_of_cons in Hs as [Hs1 Hs2]. rewrite IH1 by done. by apply Hoth.
  - intros s w [[= -> ->]|Hin]%elem_of_cons.
    + by rewrite IH1.
    + rewrite (IH2 s w Hin). by rewrite (sched_eq_frame m m1 s w Hse).
Qed.

(** The departures a promotion looks at. *)
Lemma undecided_spec m s why :
  (s, why) ∈ undecided_departures m <->
  exists d, departures (lv m) !! s = Some d /\ decided_leaves (lv m) !! s = None /\ why = reason d.
Proof.
  unfold undecided_departures. rewrite list_elem_of_fmap. split.
  - intros ([s' d] & [= -> ->] & [Hn Hin]%list_elem_of_filter). apply elem_of_map_to_list in Hin. by exists d.
  - intros (d & Hd & Hn & ->). exists (s, d). split; [done|]. apply list_elem_of_filter. split; [done|]. by apply elem_of_map_to_list.
Qed.

Lemma undecided_nodup m (held : gset Z) : NoDup (filter (λ p : Z * Z, p.1 ∉ held) (undecided_departures m)).*1.
Proof.
  eapply (sublist_NoDup _ ((map_to_list (departures (lv m))).*1)); [apply NoDup_fst_map_to_list|].
  transitivity ((undecided_departures m).*1); [apply fmap_sublist, sublist_filter|].
  unfold undecided_departures. rewrite <-list_fmap_compose. apply fmap_sublist, sublist_filter.
Qed.

(** What a promotion computes. *)
Lemma promotion_unfold m held now :
  maker_ok m -> authority m = AuthPeer ->
  exists b', set_authority m AuthSelf held now =
      Some (drain_handoff_leaves (set_buf (set_sync_tracker (take_verdict m AuthSelf) default_sync_tracker) b') held now) /\
    bm_shape TARGET_FLOOR_BUCKETS (target_peaks b').
Proof.
  intros Hok Ha. unfold set_authority. rewrite Ha. unfold promote_buffer.
  destruct (session_frame _) as [f|]; cbn [mbind option_bind mret option_ret].
  - destruct (observe_shape TARGET_FLOOR_BUCKETS (target_peaks (buf m)) f (buffer (buf m)) (target_floor_bucket_span (law m)))
      as (w & Ew & Hw); [unfold TARGET_FLOOR_BUCKETS; lia|apply Hok|]. cbn [set_sync_tracker take_verdict buf law]. rewrite Ew.
    cbn [mbind option_bind mret option_ret]. eexists. split; [reflexivity|exact Hw].
  - eexists. split; [reflexivity|]. apply Hok.
Qed.

(** ** Theorems *)


(** The apply frame of a framed departure is reachable: it is at most one past
    a frame that every survivor with framed history stamped at least the buffer
    bound before the frontier (or its earliest frame), whatever frame the
    departing slot claimed. *)
Theorem leave_frame_reachable (m : Maker) (slot why f c now : Z) (st : DepartureStamps) (s : SlotState) :
  departures (lv m) !! slot = None -> leave_decided m slot = false -> slot_frame m slot = Some f ->
  reachable_frame m slot = Some c -> st_reachable_frame st = Some c ->
  (exists d, (commit_leave (note_departure m slot st why None) slot why now).1 = Some d /\ ld_apply_at_frame d <= c + 1) /\
  reachable_frame (put_slot m slot s) slot = Some c /\
  exists frontier, frontier_turn m slot = Some frontier /\
    forall s' st', s' <> slot -> slots (conns m) !! s' = Some st' -> frame_history st' <> [] ->
      exists q x, (q, x) ∈ frame_history st' /\ c <= x /\
        (q <= saturating_sub frontier (bmax (bounds m)) \/ head (frame_history st') = Some (q, x)).
Proof.
  intros Hd Hu Hf Hr Hst. split; [|split].
  - set (m1 := note_departure m slot st why None).
    assert (Hd1 : exists d g, departures (lv m1) !! slot = Some d /\ last_frame d = Some g /\ reachable d = Some c).
    { subst m1. cbn. rewrite lookup_insert_eq, Hd. unfold slot_frame in Hf. rewrite Hf.
      destruct (st_last_frame st) as [y|]; (eexists _, _; split; [reflexivity|]; split; [cbn; reflexivity|exact Hst]). }
    destruct Hd1 as (d & g & Hd1 & Hg & Hc).
    destruct (commit_from_view m1 slot why now d g) as (x & Ex & _ & _ & Hx & _); [done|done|done|].
    exists x. rewrite Ex. split; [done|]. rewrite Hx, Hc. unfold saturating_add. lia.
  - by rewrite reachable_ignores_departing.
  - destruct (frontier_turn m slot) as [fr|] eqn:Hfr; [|unfold reachable_frame in Hr; by rewrite Hfr in Hr].
    exists fr. split; [done|]. intros s' st' Hne Hs' Hh.
    destruct (reachable_below m slot c s' st' Hr Hne Hs') as (fr' & Hfr' & Hle). rewrite Hfr in Hfr'. injection Hfr' as <-.
    destruct (executed_total (saturating_sub fr (bmax (bounds m))) (frame_history st') Hh) as [x Hx].
    destruct (executed_elem _ _ _ Hx) as (q & Hq & Hcase). exists q, x. split; [done|]. split; [by apply Hle|done].
Qed.

(** C9 A relay gaining the authority re-broadcasts every cached leave as it was
    and decides exactly the recorded departures that are not held and can be
    scheduled; a held drop stays undecided. *)
Theorem promotion_decides_exactly (b : BufferBounds) (l : ControlLaw) (fin rb : bool) (ops : list (Z * MakerOp))
    (n : list LeaveDirective) (m : Maker) (held : gset Z) (now : Z) :
  maker_run (new_maker b l AuthPeer fin rb) ops = Some (n, m) -> authority m = AuthPeer ->
  exists fresh m', set_authority m AuthSelf held now = Some ((map_to_list (decided_leaves (lv m))).*2 ++ fresh, fresh, m') /\
    (forall s d, decided_leaves (lv m) !! s = Some d -> decided_leaves (lv m') !! s = Some d) /\
    (forall s d, departures (lv m) !! s = Some d -> decided_leaves (lv m) !! s = None ->
       (s ∈ held -> decided_leaves (lv m') !! s = None) /\
       (s ∉ held -> is_Some (decided_leaves (lv m') !! s) <-> is_Some (scheduled_frame m s (reason d)))) /\
    (forall s d, decided_leaves (lv m') !! s = Some d -> decided_leaves (lv m) !! s = Some d \/ d ∈ fresh).
Proof.
  intros E Ha. pose proof (reachable_ok b l AuthPeer fin rb ops n m E) as Hok.
  destruct (set_authority_evolves m AuthSelf held now Hok) as (all & fresh & m' & Es & Hev).
  destruct (promotion_unfold m held now Hok Ha) as (b' & E0 & Hb'). rewrite E0 in Es. set (m1 := set_buf _ b') in *.
  assert (Hok1 : maker_ok m1) by (destruct Hok; by split).
  unfold drain_handoff_leaves in E0, Es. set (todo := filter (λ p : Z * Z, p.1 ∉ held) (undecided_departures m1)) in *.
  pose proof (undecided_spec m) as Hund. pose proof (undecided_nodup m held : NoDup todo.*1) as Hnd.
  assert (Hall : Forall (fun p => is_Some (departures (lv m1) !! p.1) /\ decided_leaves (lv m1) !! p.1 = None) todo).
  { apply Forall_forall. intros [s why] [_ Hin]%list_elem_of_filter. apply Hund in Hin as (d & Hd & Hn & _). split; [by eexists|done]. }
  destruct (derive_leaves_exact m1 todo now Hok1 eq_refl Hnd Hall) as [Hout Hdec].
  destruct (derive_leaves m1 todo now) as [fr m2]. injection Es as <- <- <-. cbn [snd] in *.
  exists fr, m2. split; [exact E0|]. split; [|split].
  - intros s d Hd. by apply (lookup_weaken _ _ _ _ Hd (ev_keep _ _ _ _ Hev)).
  - intros s d Hd Hn. split.
    + intros Hh. rewrite Hout; [done|]. intros (p & -> & [Hp _]%list_elem_of_filter)%list_elem_of_fmap. done.
    + intros Hh. rewrite (Hdec s (reason d)); [done|]. apply list_elem_of_filter. split; [done|]. apply Hund. by exists d.
  - intros s d Hd. destruct (ev_new _ _ _ _ Hev s d Hd) as [?|Hin]; [by left|right]. by rewrite app_nil_r in Hin.
Qed.

(** A drop followed by a return before the decision restores the slot's game
    progress: its frame history and newest sequence are the suspended ones, its
    frame is the highest anyone reported, and only the link measurements start
    over. *)
Theorem return_restores_progress (m : Maker) (slot why now : Z) (s : SlotState) (st : DepartureStamps) (epoch : option Z) :
  slots (conns m) !! slot = Some s -> departures (lv m) !! slot = None -> leave_decided m slot = false ->
  exists m', reinstate_slot (note_departure m slot st why epoch) slot now = (true, m') /\
    departures (lv m') = departures (lv m) /\ decided_leaves (lv m') = decided_leaves (lv m) /\
    exists s', slots (conns m') !! slot = Some s' /\
      frame s' = max_known (frame s) (st_last_frame st) /\ frame_history s' = frame_history s /\
      newest_framed_seq s' = newest_framed_seq s /\ last_forward_advance_at s' = last_forward_advance_at s /\
      frame_regression_reported s' = frame_regression_reported s /\ link s' = default_link /\ connection_up_at s' = Some now /\
    forall k, k <> slot -> slots (conns m') !! k = slots (conns m) !! k.
Proof.
  intros Hs Hd Hu. set (m1 := note_departure m slot st why epoch). unfold reinstate_slot.
  assert (leave_decided m1 slot = false) as -> by exact Hu.
  set (merged := max_known (st_last_frame st) (frame s)).
  assert (Hd1 : departures (lv m1) !! slot = Some (merge_departure None merged (lift_state (Some s) merged) st why epoch)).
  { subst m1 merged. cbn. rewrite lookup_insert_eq, Hd, Hs. done. }
  rewrite Hd1. eexists. split; [reflexivity|]. cbn [put_slot set_lv set_conns lv conns set_departures departures Maker.set_slots slots decided_leaves].
  split; [|split; [done|]].
  { subst m1. cbn. rewrite delete_insert_eq. by apply delete_id. }
  eexists. split; [apply lookup_insert_eq|].
  assert (Hraise : forall t g, frame (raise_frame t g) = max_known (frame t) (Some g) /\ frame_history (raise_frame t g) = frame_history t /\
    newest_framed_seq (raise_frame t g) = newest_framed_seq t /\ last_forward_advance_at (raise_frame t g) = last_forward_advance_at t /\
    frame_regression_reported (raise_frame t g) = frame_regression_reported t).
  { intros t g. unfold raise_frame. destruct (frame t) as [y|] eqn:Ey; [destruct (Z.ltb_spec y g)|]; cbn; rewrite ?Ey; cbn;
      repeat split; f_equal; lia. }
  cbn [merge_departure slot_state last_frame default set_up_at reset_link_conditions frame frame_history newest_framed_seq
    last_forward_advance_at frame_regression_reported link connection_up_at]. unfold lift_state.
  destruct merged as [g|] eqn:Eg; cbn [default].
  - destruct (Hraise (raise_frame s g) g) as (A1 & A2 & A3 & A4 & A5). destruct (Hraise s g) as (B1 & B2 & B3 & B4 & B5).
    unfold id. rewrite A1, A2, A3, A4, A5, B1, B2, B3, B4, B5. split.
    { subst merged. destruct (frame s) as [y|], (st_last_frame st) as [z|]; cbn in *; simplify_eq; cbn; f_equal; lia. }
    do 6 (split; [done|]). intros k Hk. rewrite lookup_insert_ne by done. subst m1. cbn. by rewrite lookup_delete_ne.
  - split.
    { unfold id. subst merged. destruct (frame s), (st_last_frame st); cbn in *; by simplify_eq. }
    do 6 (split; [done|]). intros k Hk. rewrite lookup_insert_ne by done. subst m1. cbn. by rewrite lookup_delete_ne.
Qed.

(** That a counted leave can be scheduled is lasting while it rests on a
    running game loop, but not when it rests on another slot's frame: that
    slot's departure takes the frame out of the session coordinate. *)
Theorem schedulable_can_revert :
  (forall m slot s st why epoch, game_underway m = true ->
     counted_leave_schedulable (note_departure m s st why epoch) slot = true) /\
  exists m, counted_leave_schedulable m 2 = true /\
    counted_leave_schedulable (record_departure_outcome m 1 no_stamps LEAVE_REASON_LEFT None).2 2 = false.
Proof.
  split.
  - intros m slot s st why epoch Hg. unfold counted_leave_schedulable.
    change (game_underway (note_departure m s st why epoch)) with (game_underway m). by rewrite Hg.
  - exists (put_slot (note_departure (new_maker demo_bounds default_law AuthSelf true false) 2 no_stamps LEAVE_REASON_DROPPED None) 1
             (set_frame default_slot (Some 7))).
    split; vm_compute; reflexivity.
Qed.

(** ** Witnesses *)

Definition demo_home : DepartureStamps := mkDepartureStamps (Some 39) (Some 30) None (Some 12) false.
Definition demo_authority : Maker :=
  default (new_maker demo_bounds default_law AuthSelf true false)
    (snd <$> maker_run (new_maker demo_bounds default_law AuthSelf true false) [(1, OTurn 0 0 40); (2, OTurn 1 0 39)]).
Definition demo_peer : Maker :=
  default (new_maker demo_bounds default_law AuthPeer true false)
    (snd <$> maker_run (new_maker demo_bounds default_law AuthPeer true false) [(1, OTurn 0 0 40); (3, OTurn 1 0 37)]).


Lemma leave_frame_reachable_witness :
  exists d, (commit_leave (note_departure demo_authority 1 (mkDepartureStamps (Some 39) (Some 40) None None false)
    LEAVE_REASON_LEFT None) 1 LEAVE_REASON_LEFT 7).1 = Some d /\ ld_apply_at_frame d <= 40 + 1.
Proof.
  exact (proj1 (leave_frame_reachable demo_authority 1 LEAVE_REASON_LEFT 39 40 7
    (mkDepartureStamps (Some 39) (Some 40) None None false) default_slot eq_refl eq_refl eq_refl eq_refl eq_refl)).
Defined.

Lemma promotion_decides_exactly_witness :
  exists fresh m', set_authority demo_maker AuthSelf {[2]} 9 =
    Some ((map_to_list (decided_leaves (lv demo_maker))).*2 ++ fresh, fresh, m') /\
    decided_leaves (lv m') !! 1 = Some demo_left.
Proof.
  destruct (promotion_decides_exactly demo_bounds default_law true false demo_session [demo_left] demo_maker {[2]} 9)
    as (fresh & m' & E & Hk & _); [vm_compute; reflexivity|reflexivity|].
  exists fresh, m'. split; [exact E|]. apply Hk. vm_compute. reflexivity.
Defined.

Lemma return_restores_progress_witness :
  exists m', reinstate_slot (note_departure demo_authority 1 demo_home LEAVE_REASON_DROPPED (Some 5)) 1 9 = (true, m').
Proof.
  destruct (slots (conns demo_authority) !! 1) as [s|] eqn:E; [|by vm_compute in E].
  destruct (return_restores_progress demo_authority 1 LEAVE_REASON_DROPPED 9 s demo_home (Some 5) E eq_refl eq_refl) as (m' & H & _).
  by exists m'.
Defined.
