(* ===== verification/F64.v ===== *)
(** * Double-precision arithmetic of the buffer law

    The buffer law divides and multiplies 64-bit floats and rounds the results
    up to whole turns.  Floats are the Standard Library's specification floats
    at the binary64 format, so every operation is an ordinary function that
    rounds to nearest, ties to even.  The file shows that a quotient of two
    32-bit integers, rounded up, is the exact integer ceiling. *)

From Stdlib Require Import ZArith Lia SpecFloat.
From stdpp Require Import gmap list.
From S2P Require Import Prelude.

Open Scope Z_scope.

Definition prec : Z := 53.
Definition emax : Z := 1024.

Definition f64 : Type := spec_float.
Definition f64_zero : f64 := S754_zero false.

(** [x as f64] of an unsigned integer. *)
Definition f64_of_Z (z : Z) : f64 := binary_normalize prec emax z 0 false.
Definition f64_div (x y : f64) : f64 := SFdiv prec emax x y.
Definition f64_mul (x y : f64) : f64 := SFmul prec emax x y.
Definition f64_gt (x y : f64) : bool := SFltb y x.

Definition is_nan (x : f64) : bool := match x with S754_nan => true | _ => false end.

(** [f64::min] and [f64::max]: a NaN operand is ignored. *)
Definition f64_min (x y : f64) : f64 :=
  if is_nan x then y else if is_nan y then x else if f64_gt x y then y else x.
Definition f64_max (x y : f64) : f64 :=
  if is_nan x then y else if is_nan y then x else if f64_gt y x then y else x.

(** [m * 2^e] rounded up. *)
Definition ceil_scaled (m e : Z) : Z := if 0 <=? e then m * 2 ^ e else - (- m / 2 ^ (- e)).

(** [x.ceil() as u32]: the cast saturates and sends NaN to zero. *)
Definition ceil_as_u32 (x : f64) : Z :=
  match x with
  | S754_zero _ | S754_nan => 0
  | S754_infinity s => if s then 0 else u32_max
  | S754_finite s m e => Z.max 0 (Z.min u32_max (ceil_scaled (if s then Z.neg m else Z.pos m) e))
  end.

(** ** Digits *)

Lemma digits_log2 p : Z.pos (digits2_pos p) = Z.log2 (Z.pos p) + 1.
Proof.
  induction p as [p IH|p IH|]; cbn [digits2_pos]; [..|reflexivity].
  - rewrite Pos2Z.inj_succ, IH, Pos2Z.inj_xI, Z.log2_succ_double by lia. lia.
  - rewrite Pos2Z.inj_succ, IH, Pos2Z.inj_xO, Z.log2_double by lia. lia.
Qed.

Lemma digits_range p d : 0 < d -> Z.pos (digits2_pos p) = d <-> 2 ^ (d - 1) <= Z.pos p < 2 ^ d.
Proof.
  intros Hd. rewrite digits_log2. split.
  - intros H. pose proof (Z.log2_spec (Z.pos p) ltac:(lia)). replace (d - 1) with (Z.log2 (Z.pos p)) by lia.
    replace d with (Z.succ (Z.log2 (Z.pos p))) by lia. lia.
  - intros H. assert (Z.log2 (Z.pos p) = d - 1); [|lia]. apply Z.log2_unique; [lia|]. by replace (Z.succ (d - 1)) with d by lia.
Qed.

Lemma iter_xO p n : Z.pos (Pos.iter xO p n) = Z.pos p * 2 ^ Z.pos n.
Proof.
  induction n as [|n IH] using Pos.peano_ind; [cbn; lia|].
  rewrite Pos.iter_succ, Pos2Z.inj_xO, IH, Pos2Z.inj_succ, Z.pow_succ_r by lia. lia.
Qed.

(** ** Rounding *)

(** The exponent of a 53-digit mantissa is its own. *)
Lemma fexp_53 e : -1074 <= e -> fexp prec emax (53 + e) - e = 0.
Proof. unfold fexp, emin, prec, emax. lia. Qed.
Lemma fexp_54 e : -1074 <= e -> fexp prec emax (54 + e) - e = 1.
Proof. unfold fexp, emin, prec, emax. lia. Qed.

Lemma loc_round_trip m l : loc_of_shr_record (shr_record_of_loc m l) = l.
Proof. by destruct l as [|[]]. Qed.
Lemma loc_mantissa m l : shr_m (shr_record_of_loc m l) = m.
Proof. by destruct l as [|[]]. Qed.

Lemma round_near m l : round_nearest_even m l = m \/ round_nearest_even m l = m + 1.
Proof. destruct l as [|[]]; cbn; auto. destruct (Z.even m); auto. Qed.

(** The second half of rounding: a mantissa of 53 digits, or the power of two
    a carry produced, becomes a finite float of the same value. *)
Lemma settle m e :
  2 ^ 52 <= m <= 2 ^ 53 -> -1074 <= e <= 900 ->
  exists m' e', (let '(mrs, e2) := shr_fexp prec emax m e loc_Exact in
    match shr_m mrs with
    | Z0 => S754_zero false
    | Zpos p => if Z.leb e2 (emax - prec) then S754_finite false p e2 else S754_infinity false
    | _ => S754_nan
    end) = S754_finite false m' e' /\ 0 <= e' - e <= 1 /\ Z.pos m' * 2 ^ (e' - e) = m.
Proof.
  intros Hm He. unfold shr_fexp. destruct m as [|p|p]; [lia| |lia]. cbn [Zdigits2 shr_record_of_loc].
  destruct (Z.eq_dec (Z.pos p) (2 ^ 53)) as [Hp|Hp].
  - assert (Hp' : p = Pos.pow 2 53) by lia. subst p. change (Z.pos (digits2_pos (2 ^ 53))) with 54.
    rewrite fexp_54 by lia. exists (2 ^ 52)%positive, (e + 1). change (shr _ e 1) with
      ({| shr_m := Z.pos (2 ^ 52); shr_r := false; shr_s := false |}, e + 1). cbn [shr_m].
    destruct (Z.leb_spec (e + 1) (emax - prec)); [|unfold emax, prec in *; lia].
    split; [done|]. replace (e + 1 - e) with 1 by lia. split; [lia|reflexivity].
  - assert (Hd : Z.pos (digits2_pos p) = 53) by (apply digits_range; [lia|]; change (53 - 1) with 52; lia).
    rewrite Hd, fexp_53 by lia. cbn [shr shr_m]. exists p, e.
    destruct (Z.leb_spec e (emax - prec)); [|unfold emax, prec in *; lia].
    split; [done|]. rewrite Z.sub_diag. split; [lia|]. cbn. lia.
Qed.

(** Rounding keeps a mantissa of 53 or 54 digits within one unit of the kept
    precision: [u] is 1 or 2. *)
Lemma round_aux_near m e l :
  2 ^ 52 <= m < 2 ^ 54 -> -1074 <= e <= 800 ->
  exists u m' e', (u = 1 \/ u = 2) /\ u * 2 ^ 52 <= m /\ binary_round_aux prec emax false m e l = S754_finite false m' e' /\
    0 <= e' - e <= 2 /\
    (Z.pos m' * 2 ^ (e' - e) = m - m mod u \/ Z.pos m' * 2 ^ (e' - e) = m - m mod u + u) /\
    (l = loc_Exact -> m mod u = 0 -> Z.pos m' * 2 ^ (e' - e) = m).
Proof.
  intros Hm He. unfold binary_round_aux. destruct m as [|p|p]; [lia| |lia].
  destruct (Z.lt_ge_cases (Z.pos p) (2 ^ 53)) as [Hs|Hb].
  - assert (Hd : Z.pos (digits2_pos p) = 53) by (apply digits_range; [lia|]; change (53 - 1) with 52; lia).
    unfold shr_fexp at 1. cbn [Zdigits2]. rewrite Hd, fexp_53 by lia. cbn [shr]. rewrite loc_mantissa, loc_round_trip.
    destruct (settle (round_nearest_even (Z.pos p) l) e) as (m' & e' & E & Hr & Hv);
      [destruct (round_near (Z.pos p) l) as [-> | ->]; lia|lia|].
    exists 1, m', e'. split; [by left|]. split; [lia|]. split; [exact E|]. split; [lia|]. rewrite Z.mod_1_r, Hv. split.
    + destruct (round_near (Z.pos p) l) as [-> | ->]; [left|right]; lia.
    + by intros -> _.
  - assert (Hd : Z.pos (digits2_pos p) = 54) by (apply digits_range; [lia|]; change (54 - 1) with 53; lia).
    unfold shr_fexp at 1. cbn [Zdigits2]. rewrite Hd, fexp_54 by lia.
    change (shr ?x e 1) with (shr_1 x, e + 1).
    assert (Hhalf : shr_m (shr_1 (shr_record_of_loc (Z.pos p) l)) = Z.pos p / 2 /\
      (l = loc_Exact -> Z.pos p mod 2 = 0 -> loc_of_shr_record (shr_1 (shr_record_of_loc (Z.pos p) l)) = loc_Exact)).
    { destruct p as [p|p|]; [| |lia].
      - split; [|intros _ H0; exfalso; rewrite Pos2Z.inj_xI in H0; Z.div_mod_to_equations; lia].
        assert (Hq : Z.pos p~1 / 2 = Z.pos p) by (rewrite Pos2Z.inj_xI; Z.div_mod_to_equations; lia).
        rewrite Hq. by destruct l as [|[]].
      - split; [|by intros ->]. assert (Hq : Z.pos p~0 / 2 = Z.pos p) by (rewrite Pos2Z.inj_xO; Z.div_mod_to_equations; lia).
        rewrite Hq. by destruct l as [|[]]. }
    destruct Hhalf as [Hh Hx]. cbn [fst snd]. set (lc := loc_of_shr_record _) in *. rewrite Hh.
    pose proof (Z.div_mod (Z.pos p) 2 ltac:(lia)) as Hdm. pose proof (Z.mod_pos_bound (Z.pos p) 2 ltac:(lia)) as Hmb.
    destruct (settle (round_nearest_even (Z.pos p / 2) lc) (e + 1)) as (m' & e' & E & Hr & Hv);
      [destruct (round_near (Z.pos p / 2) lc) as [-> | ->]; lia|lia|].
    exists 2, m', e'. split; [by right|]. split; [lia|]. split; [exact E|]. split; [lia|].
    assert (Hval : Z.pos m' * 2 ^ (e' - e) = 2 * round_nearest_even (Z.pos p / 2) lc).
    { rewrite <- Hv. replace (e' - e) with (Z.succ (e' - (e + 1))) by lia. rewrite Z.pow_succ_r by lia. lia. }
    rewrite Hval. split.
    + destruct (round_near (Z.pos p / 2) lc) as [-> | ->]; [left|right]; lia.
    + intros Hl H0. rewrite (Hx Hl H0). cbn. lia.
Qed.

(** ** Integers below [2^53] are exact *)

(** The scale that brings [z] to 53 digits. *)
Definition scale (z : Z) : Z := 52 - Z.log2 z.

Lemma scale_spec z : 0 < z < 2 ^ 53 -> 0 <= scale z <= 52 /\ 2 ^ 52 <= z * 2 ^ scale z < 2 ^ 53.
Proof.
  intros Hz. unfold scale. pose proof (Z.log2_nonneg z). pose proof (Z.log2_spec z ltac:(lia)) as Hl.
  assert (Z.log2 z < 53) by (apply Z.log2_lt_pow2; lia). split; [lia|].
  replace (2 ^ 52) with (2 ^ Z.log2 z * 2 ^ (52 - Z.log2 z)) by (rewrite <- Z.pow_add_r by lia; f_equal; lia).
  replace (2 ^ 53) with (2 ^ Z.succ (Z.log2 z) * 2 ^ (52 - Z.log2 z)) by (rewrite <- Z.pow_add_r by lia; f_equal; lia).
  pose proof (Z.pow_pos_nonneg 2 (52 - Z.log2 z) ltac:(lia) ltac:(lia)). nia.
Qed.

Lemma f64_of_Z_exact z : 0 < z < 2 ^ 53 ->
  exists m, f64_of_Z z = S754_finite false m (- scale z) /\ Z.pos m = z * 2 ^ scale z.
Proof.
  intros Hz. destruct (scale_spec z Hz) as [Hs Hr]. destruct z as [|p|p]; [lia| |lia].
  unfold f64_of_Z, binary_normalize, binary_round.
  assert (Hd : Z.pos (digits2_pos p) = 53 - scale (Z.pos p)) by (rewrite digits_log2; unfold scale; lia).
  rewrite Hd. assert (Hf : fexp prec emax (53 - scale (Z.pos p) + 0) = - scale (Z.pos p)) by (unfold fexp, emin, prec, emax; lia).
  rewrite Hf. unfold shl_align. set (s := scale (Z.pos p)) in *.
  assert (Hal : exists mz, match - s - 0 with Zneg d => (Pos.iter xO p d, - s) | _ => (p, 0) end = (mz, - s) /\
    Z.pos mz = Z.pos p * 2 ^ s).
  { rewrite Z.sub_0_r. destruct s as [|d|d] eqn:Es; [|cbn [Z.opp]|lia].
    - exists p. split; [done|]. cbn. lia.
    - exists (Pos.iter xO p d). split; [done|]. apply iter_xO. }
  destruct Hal as (mz & -> & Hmz). unfold binary_round_aux, shr_fexp at 1. cbn [Zdigits2].
  assert (Hmd : Z.pos (digits2_pos mz) = 53) by (apply digits_range; [lia|]; change (53 - 1) with 52; lia).
  rewrite Hmd, fexp_53 by lia. cbn [shr shr_record_of_loc loc_of_shr_record shr_m round_nearest_even].
  unfold shr_fexp. cbn [Zdigits2]. rewrite Hmd, fexp_53 by lia. cbn [shr shr_record_of_loc shr_m].
  exists mz. destruct (Z.leb_spec (- s) (emax - prec)); [done|unfold emax, prec in *; lia].
Qed.

(** ** Quotients rounded up *)

(** The integer ceiling of a quotient. *)
Definition div_ceil (a b : Z) : Z := - (- a / b).

Lemma div_ceil_spec a b q : 0 < b -> (q - 1) * b < a <= q * b -> div_ceil a b = q.
Proof. intros Hb H. unfold div_ceil. assert (- a / b = - q); [|lia]. symmetry. apply (Z.div_unique _ _ _ (q * b - a)); lia. Qed.

Lemma div_core a b :
  0 < a < 2 ^ 53 -> 0 < b < 2 ^ 53 -> forall ma mb, Z.pos ma = a * 2 ^ scale a -> Z.pos mb = b * 2 ^ scale b ->
  let k := 53 + scale a - scale b in
  exists l, SFdiv_core_binary prec emax (Z.pos ma) (- scale a) (Z.pos mb) (- scale b) = (a * 2 ^ k / b, - k, l) /\
    (a * 2 ^ k mod b = 0 -> l = loc_Exact) /\ 2 ^ 52 <= a * 2 ^ k / b < 2 ^ 54.
Proof.
  intros Ha Hb ma mb Hma Hmb k. destruct (scale_spec a Ha) as [Hsa Hra]. destruct (scale_spec b Hb) as [Hsb Hrb].
  assert (Hk : 0 < k) by (unfold k; lia).
  unfold SFdiv_core_binary. cbn [Zdigits2].
  assert (Hda : Z.pos (digits2_pos ma) = 53) by (apply digits_range; [lia|]; change (53 - 1) with 52; lia).
  assert (Hdb : Z.pos (digits2_pos mb) = 53) by (apply digits_range; [lia|]; change (53 - 1) with 52; lia).
  rewrite Hda, Hdb.
  assert (He : Z.min (fexp prec emax (53 + - scale a - (53 + - scale b))) (- scale a - - scale b) = - k)
    by (unfold fexp, emin, prec, emax, k; lia).
  rewrite He. replace (- scale a - - scale b - - k) with 53 by (unfold k; lia).
  rewrite Z.shiftl_mul_pow2, Hma, Hmb by lia.
  assert (Hnum : a * 2 ^ scale a * 2 ^ 53 = a * 2 ^ k * 2 ^ scale b).
  { rewrite <- !Z.mul_assoc, <- !Z.pow_add_r by lia. do 2 f_equal. unfold k. lia. }
  rewrite Hnum. pose proof (Z.pow_pos_nonneg 2 (scale b) ltac:(lia) ltac:(lia)) as Hpow.
  pose proof (Z.div_mul_cancel_r (a * 2 ^ k) b (2 ^ scale b) ltac:(lia) ltac:(lia)) as Hq.
  pose proof (Z.mul_mod_distr_r (a * 2 ^ k) b (2 ^ scale b) ltac:(lia) ltac:(lia)) as Hr.
  unfold Z.div, Z.modulo in Hq, Hr |- *.
  destruct (Z.div_eucl (a * 2 ^ k * 2 ^ scale b) (b * 2 ^ scale b)) as [q r]. cbn in Hq, Hr.
  eexists. split; [by rewrite Hq|]. fold (Z.modulo (a * 2 ^ k) b). fold (Z.div (a * 2 ^ k) b). split.
  - intros H0. unfold Z.modulo in H0. destruct (Z.div_eucl (a * 2 ^ k) b) as [q' r']. subst.
    unfold new_location. by destruct (Z.even _).
  - fold (Z.div (a * 2 ^ k) b). assert (Hd : a * 2 ^ k / b = a * 2 ^ k * 2 ^ scale b / (b * 2 ^ scale b))
      by (symmetry; apply Z.div_mul_cancel_r; lia). rewrite Hd, <- Hnum. split.
    + apply Z.div_le_lower_bound; nia.
    + apply Z.div_lt_upper_bound; nia.
Qed.

(** Rounding to a multiple of [u] never carries a quotient onto or past the
    integer it lies above, when [u] is fine enough. *)
Lemma ceil_survives a b k u v :
  0 < b -> 0 < a <= 2 ^ 52 -> 0 < k -> (u = 1 \/ u = 2) -> u * 2 ^ 52 <= a * 2 ^ k / b ->
  (v = a * 2 ^ k / b - (a * 2 ^ k / b) mod u \/ v = a * 2 ^ k / b - (a * 2 ^ k / b) mod u + u) ->
  (a * 2 ^ k mod b = 0 -> (a * 2 ^ k / b) mod u = 0 -> v = a * 2 ^ k / b) ->
  div_ceil v (2 ^ k) = div_ceil a b.
Proof.
  intros Hb Ha Hk Hu Hq Hv Hx.
  assert (HP : exists h, 2 ^ k = 2 * h /\ 0 < h).
  { exists (2 ^ (k - 1)). split; [rewrite <- Z.pow_succ_r by lia; f_equal; lia|apply Z.pow_pos_nonneg; lia]. }
  destruct HP as (h & HP & Hh). rewrite HP in *. clear HP.
  set (q := a * (2 * h) / b) in *. set (n := a / b). pose proof (Z.div_mod a b ltac:(lia)) as Hn. fold n in Hn.
  pose proof (Z.mod_pos_bound a b Hb) as Hm. pose proof (Z.div_mod (a * (2 * h)) b ltac:(lia)) as Hqd. fold q in Hqd.
  pose proof (Z.mod_pos_bound (a * (2 * h)) b Hb) as Hqm.
  assert (Hqu : u * b <= 2 * h).
  { assert (u * 2 ^ 52 * b <= q * b) by nia. assert (a * (2 * h) <= 2 ^ 52 * (2 * h)) by nia.
    assert (q * b <= a * (2 * h)) by nia. nia. }
  pose proof (Z.mod_pos_bound q u ltac:(lia)) as Hum. pose proof (Z.div_mod q u ltac:(lia)) as Hud.
  destruct (Z.eq_dec (a mod b) 0) as [H0|H0].
  - assert (Hqn : q = n * (2 * h)) by (unfold q; rewrite Hn, H0; replace ((b * n + 0) * (2 * h)) with (n * (2 * h) * b) by lia;
      apply Z.div_mul; lia).
    assert (Hqz : q mod u = 0) by (rewrite Hqn; destruct Hu as [-> | ->]; [apply Z.mod_1_r|];
      replace (n * (2 * h)) with (n * h * 2) by lia; apply Z.mod_mul; lia).
    rewrite Hx; [|nia|done]. rewrite Hqn. rewrite (div_ceil_spec _ _ n) by nia. symmetry. apply div_ceil_spec; nia.
  - assert (Hlo : n * (2 * h) + u <= q) by (unfold q; apply Z.div_le_lower_bound; nia).
    assert (Hhi : q < (n + 1) * (2 * h)) by (unfold q; apply Z.div_lt_upper_bound; nia).
    assert (Hmult : forall z, exists w, z * (2 * h) = u * w) by
      (intros z; destruct Hu as [-> | ->]; [exists (z * (2 * h))|exists (z * h)]; lia).
    destruct (Hmult n) as [w1 Hw1]. destruct (Hmult (n + 1)) as [w2 Hw2].
    rewrite (div_ceil_spec v _ (n + 1)); [symmetry; apply div_ceil_spec; nia|lia|].
    destruct Hv as [-> | ->]; nia.
Qed.

(** Rounding up the float quotient of two integers gives the exact integer
    ceiling, saturated to 32 bits: no rounding error reaches the result. *)
Theorem quotient_ceil_exact (a b : Z) :
  0 <= a <= 2 ^ 52 -> 0 < b < 2 ^ 53 ->
  ceil_as_u32 (f64_div (f64_of_Z a) (f64_of_Z b)) = Z.min u32_max (div_ceil a b).
Proof.
  intros Ha Hb. destruct (f64_of_Z_exact b Hb) as (mb & Eb & Hmb). rewrite Eb.
  destruct (Z.eq_dec a 0) as [->|H0].
  { cbn. rewrite (div_ceil_spec 0 b 0) by lia. reflexivity. }
  assert (Ha' : 0 < a < 2 ^ 53) by lia. destruct (f64_of_Z_exact a Ha') as (ma & Ea & Hma). rewrite Ea.
  destruct (div_core a b Ha' Hb ma mb Hma Hmb) as (l & Ec & Hl & Hr). set (k := 53 + scale a - scale b) in *.
  destruct (scale_spec a Ha') as [Hsa _]. destruct (scale_spec b Hb) as [Hsb _].
  unfold f64_div, SFdiv. rewrite Ec. cbn [xorb].
  destruct (round_aux_near (a * 2 ^ k / b) (- k) l Hr ltac:(unfold k; lia)) as (u & m & e & Hu & Hq & -> & He & Hv & Hx).
  cbn [ceil_as_u32]. assert (Hc : ceil_scaled (Z.pos m) e = div_ceil a b).
  { set (v := Z.pos m * 2 ^ (e - - k)) in *.
    rewrite <- (ceil_survives a b k u v ltac:(lia) ltac:(lia) ltac:(unfold k; lia) Hu Hq Hv (fun H1 H2 => Hx (Hl H1) H2)).
    unfold ceil_scaled, v, div_ceil. destruct (Z.leb_spec 0 e) as [He0|He0].
    - replace (e - - k) with (e + k) by lia. rewrite Z.pow_add_r, Z.mul_assoc by (unfold k in *; lia).
      rewrite <- Z.mul_opp_l, Z.div_mul by (apply Z.pow_nonzero; unfold k; lia). lia.
    - replace (2 ^ k) with (2 ^ (- e) * 2 ^ (e - - k)) by (rewrite <- Z.pow_add_r by lia; f_equal; lia).
      rewrite <- Z.mul_opp_l, Z.div_mul_cancel_r; [done|apply Z.pow_nonzero; lia..]. }
  rewrite Hc. assert (0 <= div_ceil a b) by (unfold div_ceil; pose proof (Z.div_le_upper_bound (- a) b 0); lia).
  unfold u32_max. lia.
Qed.
