(* ===== verification/Buffer.v ===== *)
(** * The latency-buffer law ([relay/src/consensus/maker/buffer.rs],
    [maker/connection.rs], [maker/session_start.rs], [maker/authority.rs],
    [slot.rs])

    How a relay turns link conditions into the buffer depth every client runs:
    the loss rates of a slot, the target they and the path give, the asymmetric
    movement towards it, the directive that carries a change, and the depth a
    session starts with.  Accesses of the fixed-size windows are partial, so an
    operation whose result is [None] would have panicked; the diagnostic records
    attached to a decision are left out. *)

From Stdlib Require Import ZArith Lia.
From stdpp Require Import gmap sorting list.
From S2P Require Import Prelude.
From S2P Require Import Wire.
From S2P Require Import F64.
From S2P Require Import Presence.
From S2P Require Import Law.
From S2P Require Import SyncTurns.
From S2P Require Import Delivery.
From S2P Require Import Phase.
From S2P Require Import SyncTracker.
From S2P Require Import Lead.
From S2P Require Import Clock.
From S2P Require Import Slot.
From S2P Require Import Maker.
From S2P Require Import Departure.

Open Scope Z_scope.

(** ** Loss rates of a slot *)

Definition loss_rate_since (c : Counters) (sn : LossSnapshot) : option f64 :=
  let delta_sent := saturating_sub (curr_sent c) (sn_sent sn) in
  if delta_sent <? MIN_LOSS_WINDOW_SENT then None
  else
    let delta_lost := saturating_sub (curr_lost c) (sn_lost sn) in
    Some (f64_min (f64_div (f64_of_Z delta_lost) (f64_of_Z delta_sent)) (f64_of_Z 1)).

(** The walk from the newest snapshot back to the first one old enough. *)
Fixpoint attack_anchor (c : Counters) (attack_samples : Z) (ages : list nat) (anchor : LossSnapshot) : option LossSnapshot :=
  match ages with
  | [] => Some anchor
  | age :: ages =>
      sn ← loss_snapshots c !! ((loss_snapshot_head c + SNAPSHOTS - 1 - age) mod SNAPSHOTS)%nat;
      if attack_samples <=? saturating_sub (advancing_samples c) (at_sample sn) then Some sn
      else attack_anchor c attack_samples ages anchor
  end.

Definition windowed_loss_rate (c : Counters) (attack_samples : Z) : option (option f64) :=
  if (loss_snapshot_len c =? 0)%nat then Some None
  else
    let oldest_index := if (loss_snapshot_len c =? SNAPSHOTS)%nat then loss_snapshot_head c else 0%nat in
    oldest ← loss_snapshots c !! oldest_index;
    let memory := loss_rate_since c oldest in
    anchor ← attack_anchor c attack_samples (List.seq 0 (loss_snapshot_len c)) oldest;
    let attack := loss_rate_since c anchor in
    mret match attack, memory with
         | Some a, Some m => Some (f64_max a m)
         | _, _ => or_else attack memory
         end.

Definition burst_turns (c : Counters) : option Z :=
  r ← max_over_last BLACKOUT_RUN_BUCKETS (blackout_runs c) BLACKOUT_RUN_BUCKETS;
  mret (Z.min r BURST_TURNS_CAP).

(** ** The target *)

(** The accumulators of the pass over the slots. *)
Record Scan : Type := mkScan {
  measured : Z;
  highest : Z;
  second_highest : Z;
  worst_loss_risk : f64;
  sc_burst_turns : Z;
}.

Record TargetInputs : Type := mkTargetInputs {
  ti_target : Z;
  ti_shrink_target : Z;
  ti_path_us : Z;
  ti_worst_loss_risk : f64;
  ti_burst_turns : Z;
}.

Definition scan_slot (attack_samples : Z) (acc : Scan) (s : SlotState) : option Scan :=
  e ← eff_rtt s;
  let '(n, h1, h2) :=
    if 0 <? e then
      if highest acc <=? e then (measured acc + 1, e, highest acc)
      else if second_highest acc <? e then (measured acc + 1, highest acc, e)
      else (measured acc + 1, highest acc, second_highest acc)
    else (measured acc, highest acc, second_highest acc) in
  rate ← windowed_loss_rate (counters (link s)) attack_samples;
  let risk :=
    match rate with
    | Some r =>
        let loss_risk := f64_mul r (f64_of_Z e) in
        if f64_gt loss_risk (worst_loss_risk acc) then loss_risk else worst_loss_risk acc
    | None => worst_loss_risk acc
    end in
  b ← burst_turns (counters (link s));
  mret (mkScan n h1 h2 risk (Z.max (sc_burst_turns acc) b)).

Fixpoint scan_slots (attack_samples : Z) (acc : Scan) (ss : list SlotState) : option Scan :=
  match ss with
  | [] => Some acc
  | s :: ss => acc' ← scan_slot attack_samples acc s; scan_slots attack_samples acc' ss
  end.

Definition path_us_of (sc : Scan) : Z :=
  if 2 <=? measured sc then (highest sc + second_highest sc) / 2 else highest sc.

(** [(us as f64 / turn_us).ceil() as u32]. *)
Definition turns_of (us turn_us : Z) : Z := ceil_as_u32 (f64_div (f64_of_Z us) (f64_of_Z turn_us)).

Definition target_of (l : ControlLaw) (sc : Scan) : TargetInputs :=
  let path_us := path_us_of sc in
  let turn_us := turn_duration_us l in
  let loss_turns := ceil_as_u32 (f64_div (worst_loss_risk sc) (f64_of_Z turn_us)) in
  let loss_delay_turns := Z.max loss_turns (sc_burst_turns sc) in
  mkTargetInputs (saturating_add u32_max (turns_of path_us turn_us) loss_delay_turns)
    (saturating_add u32_max (turns_of (saturating_add u32_max path_us (shrink_headroom_us l)) turn_us) loss_delay_turns)
    path_us (worst_loss_risk sc) (sc_burst_turns sc).

Definition target_inputs (m : Maker) : option (option TargetInputs) :=
  sc ← scan_slots (loss_attack_samples (law m)) (mkScan 0 0 0 f64_zero 0) (map_to_list (slots (conns m))).*2;
  mret (if measured sc =? 0 then None else Some (target_of (law m) sc)).

Definition target (m : Maker) : option (option Z) := i ← target_inputs m; Some (option_map ti_target i).

(** ** Clamps and coverage *)

(** [BufferBounds::clamp]: inverted bounds are read as swapped. *)
Definition clamp (b : BufferBounds) (v : Z) : Z :=
  let '(lo, hi) := if bmin b <=? bmax b then (bmin b, bmax b) else (bmax b, bmin b) in
  Z.min (Z.max v lo) hi.

Definition game_safe_clamp (m : Maker) (depth : Z) : Z := Z.min (clamp (bounds m) depth) GAME_SYNC_SAFE_BUFFER_MAX.

Definition all_expected_slots_have_rtt (m : Maker) : option bool :=
  foldr (fun slot acc =>
    rest ← acc;
    if bool_decide (is_Some (departures (lv m) !! slot)) then mret rest
    else match slots (conns m) !! slot with
         | Some s => r ← rtt s; mret ((0 <? r) && rest)
         | None => mret false
         end) (Some true) (elements (expected_slots (roster m))).

(** ** Directives *)

Record Decision : Type := mkDecision { dec_buffer : Z; applied_frame : Z }.

Definition set_buffer (b : BufferState) (v : Z) : BufferState :=
  mkBufferState v (last_decision_frame b) (target_peaks b) (last_shrink b) (edge_burned b) (last_burn_frame b)
    (decision_seq_at b) (decision_seq_tiebreak b) (pending_directive b) (initial_directive_sent b) (last_trace_frame b)
    (own_relay_id b) (initial_buffer_turns b) (latency_hint_ms b) (single_relay b).

Definition queue_directive (m : Maker) (new_buffer f : Z) : Decision * Maker :=
  let b := buf m in
  let new_buffer := Z.min new_buffer GAME_SYNC_SAFE_BUFFER_MAX in
  let span := Z.max (buffer b) new_buffer in
  let applied := saturating_add u32_max (saturating_add u32_max f span) APPLY_HORIZON in
  let seq := wrap_u32 (decision_seq_at b + 1) in
  (mkDecision new_buffer applied,
   set_buf m (mkBufferState new_buffer (Some f) (target_peaks b) (last_shrink b) (edge_burned b) (last_burn_frame b)
     seq (own_relay_id b) (Some (mkBufferDirective new_buffer applied seq (own_relay_id b))) (initial_directive_sent b)
     (last_trace_frame b) (own_relay_id b) (initial_buffer_turns b) (latency_hint_ms b) (single_relay b))).

Definition mark_sent (b : BufferState) : BufferState :=
  mkBufferState (buffer b) (last_decision_frame b) (target_peaks b) (last_shrink b) (edge_burned b) (last_burn_frame b)
    (decision_seq_at b) (decision_seq_tiebreak b) (pending_directive b) true (last_trace_frame b)
    (own_relay_id b) (initial_buffer_turns b) (latency_hint_ms b) (single_relay b).

Definition active_directive (m : Maker) : option BufferDirective * Maker :=
  match pending_directive (buf m) with
  | None => (None, m)
  | Some d =>
      if match session_frame m with Some f => apply_at_frame d <=? f | None => false end
      then (None, set_buf m (drop_directive (buf m)))
      else (Some d, m)
  end.

(** The order of [Option<u64>]: none before any. *)
Definition id_gt (a b : option Z) : bool :=
  match a, b with
  | Some x, Some y => y <? x
  | Some _, None => true
  | None, _ => false
  end.

Definition observe_directive (m : Maker) (d : BufferDirective) : Maker :=
  let b := buf m in
  let newer :=
    match decision_seq d ?= decision_seq_at b with
    | Gt => true
    | Eq => id_gt (authority_relay_id d) (decision_seq_tiebreak b)
    | Lt => false
    end in
  if newer then
    set_buf m (mkBufferState (buffer_turns d) (last_decision_frame b) (target_peaks b) (last_shrink b) (edge_burned b)
      (last_burn_frame b) (decision_seq d) (authority_relay_id d) (pending_directive b) (initial_directive_sent b)
      (last_trace_frame b) (own_relay_id b) (initial_buffer_turns b) (latency_hint_ms b) (single_relay b))
  else m.

(** ** Moving towards the target *)

Definition set_trace (b : BufferState) (f : option Z) : BufferState :=
  mkBufferState (buffer b) (last_decision_frame b) (target_peaks b) (last_shrink b) (edge_burned b) (last_burn_frame b)
    (decision_seq_at b) (decision_seq_tiebreak b) (pending_directive b) (initial_directive_sent b) f
    (own_relay_id b) (initial_buffer_turns b) (latency_hint_ms b) (single_relay b).

Definition trace_control_inputs (b : BufferState) (f : Z) : BufferState :=
  if match last_trace_frame b with None => true | Some last => BUFFER_TRACE_INTERVAL_TURNS <=? saturating_sub f last end
  then set_trace b (Some f) else b.

Definition set_peaks (b : BufferState) (w : BucketedMax) : BufferState :=
  mkBufferState (buffer b) (last_decision_frame b) w (last_shrink b) (edge_burned b) (last_burn_frame b)
    (decision_seq_at b) (decision_seq_tiebreak b) (pending_directive b) (initial_directive_sent b) (last_trace_frame b)
    (own_relay_id b) (initial_buffer_turns b) (latency_hint_ms b) (single_relay b).

Definition set_edge (b : BufferState) (sh : option ShrinkRecord) (burned : bool) (at_ : option Z) : BufferState :=
  mkBufferState (buffer b) (last_decision_frame b) (target_peaks b) sh burned at_
    (decision_seq_at b) (decision_seq_tiebreak b) (pending_directive b) (initial_directive_sent b) (last_trace_frame b)
    (own_relay_id b) (initial_buffer_turns b) (latency_hint_ms b) (single_relay b).

Definition saturating_mul (mx a b : Z) : Z := Z.min mx (a * b).

(** Burns go stale after eight lookbacks. *)
Definition expire_burn (l : ControlLaw) (b : BufferState) (f : Z) : BufferState :=
  match last_burn_frame b with
  | Some burned =>
      if saturating_mul u32_max (shrink_lookback_turns l) 8 <? saturating_sub f burned
      then set_edge b (last_shrink b) false None else b
  | None => b
  end.

(** A raise back to the level of a recent shrink burns the edge. *)
Definition raise_edge (l : ControlLaw) (b : BufferState) (target_ f : Z) : BufferState :=
  match last_shrink b with
  | None => b
  | Some sh =>
      if (shrink_from sh <=? target_) &&
         (saturating_sub f (shrink_frame sh) <=? saturating_mul u32_max (shrink_lookback_turns l) 2)
      then set_edge b None true (Some f)
      else set_edge b None (edge_burned b) (last_burn_frame b)
  end.

Definition lowered (l : ControlLaw) (b : BufferState) (shrink_target : Z) : Z :=
  Z.max (saturating_sub (buffer b) (lower_step l)) shrink_target.

(** Whether a shrink to [low] is earned: it stays above the trailing peaks, over
    the whole window when it lands on the floor of a burned edge. *)
Definition shrink_allowed (b : BufferState) (low : Z) : option bool :=
  base_floor ← max_over_last TARGET_FLOOR_BUCKETS (target_peaks b) TARGET_FLOOR_BASE_BUCKETS;
  if low =? base_floor then
    floor ← max_over_last TARGET_FLOOR_BUCKETS (target_peaks b)
              (if edge_burned b then EDGE_PROBATION_BUCKETS else TARGET_FLOOR_BASE_BUCKETS);
    mret (floor <=? low)
  else mret (base_floor <=? low).

Definition dwell_elapsed (l : ControlLaw) (b : BufferState) (f : Z) : bool :=
  match last_decision_frame b with
  | None => true
  | Some last => min_dwell_turns l <=? saturating_sub f last
  end.

(** The size the law asks for, with the shrink and burn records it leaves. *)
Definition move (m : Maker) (b : BufferState) (f target_ shrink_target : Z) : option (option Z * BufferState) :=
  if buffer b <? target_ then Some (Some target_, raise_edge (law m) b target_ f)
  else
    match if shrink_target <? buffer b then all_expected_slots_have_rtt m else Some false with
    | None => None
    | Some false => Some (None, b)
    | Some true =>
        let low := lowered (law m) b shrink_target in
        allowed ← shrink_allowed b low;
        mret (if dwell_elapsed (law m) b f && allowed
              then (Some low, set_edge b (Some (mkShrinkRecord (buffer b) f)) (edge_burned b) (last_burn_frame b))
              else (None, b))
    end.

(** One run of the law on a framed turn with measurements: the new size when it
    differs from the current one, and the target the floor observed. *)
Definition run_law (m : Maker) (i : TargetInputs) (f now : Z) : option (option Z * Z * Maker) :=
  let '(stretch, p) := stretch_turns (phase_ctl m) now in
  let additive := saturating_add u32_max (cushion_turns (delivery m)) stretch in
  let target_ := saturating_add u32_max (ti_target i) additive in
  let shrink_target := saturating_add u32_max (ti_shrink_target i) additive in
  let b := trace_control_inputs (buf m) f in
  w ← Law.observe TARGET_FLOOR_BUCKETS (target_peaks b) f target_ (target_floor_bucket_span (law m));
  '((asked, b') : option Z * BufferState) ← move m (expire_burn (law m) (set_peaks b w) f) f target_ shrink_target;
  let m' := set_buf (set_phase_ctl m p) b' in
  mret (match asked with
        | Some v => if game_safe_clamp m' v =? buffer b' then None else Some (game_safe_clamp m' v)
        | None => None
        end, target_, m').

(** A change is broadcast; otherwise the current size is, once. *)
Definition broadcast (m : Maker) (moved : option Z) (f : Z) : option Decision * Maker :=
  match moved with
  | Some v => let r := queue_directive (set_buf m (mark_sent (buf m))) v f in (Some r.1, r.2)
  | None =>
      if initial_directive_sent (buf m) then (None, m)
      else let r := queue_directive (set_buf m (mark_sent (buf m))) (buffer (buf m)) f in (Some r.1, r.2)
  end.

(** [decide]: the decision and, when the law ran, the target it observed. *)
Definition decide_buffer (m : Maker) (now : Z) : option (option Decision * option Z * Maker) :=
  match session_frame m with
  | None => Some (None, None, m)
  | Some f =>
      inputs ← target_inputs m;
      match inputs with
      | None => let r := broadcast m None f in Some (r.1, None, r.2)
      | Some i => '((moved, target_, m1) : option Z * Z * Maker) ← run_law m i f now; let r := broadcast m1 moved f in mret (r.1, Some target_, r.2)
      end
  end.

(** ** Conditions *)

Record MeshRtt : Type := mkMeshRtt { mr_rtt_us : Z; floor_us : Z }.
Definition local_rtt : MeshRtt := mkMeshRtt 0 0.

Record SlotConditions : Type := mkSlotConditions {
  c_slot : Z;
  c_rtt_us : Z;
  c_lost_packets : Z;
  c_sent_packets : Z;
  c_connection_epoch : option Z;
}.

(** The generation a sample must belong to. *)
Definition sample_current (m : Maker) (c : SlotConditions) : bool :=
  match connection_states (conns m) !! c_slot c, c_connection_epoch c with
  | Some (Up current), Some observed => current =? observed
  | None, None => true
  | _, _ => false
  end.

Definition admit_sender_rtt (u : CounterUpdate) (last : option Z) (r : Z) : bool :=
  match u with
  | Baseline | Advanced | OutageRebaselined | LossAdvanced => true
  | NonAdvancing => negb (bool_decide (last = Some r))
  | Stale => false
  end.

Definition ingest_link (l : ControlLaw) (lk : LinkState) (c : SlotConditions) (mesh : MeshRtt) (now : Z) : option LinkState :=
  '(u, cs) ← update_counters (counters lk) (c_lost_packets c) (c_sent_packets c) (loss_snapshot_interval l)
               (blackout_run_bucket_span l) now;
  let r := Z.min (c_rtt_us c) MAX_INGEST_RTT_US in
  '(w, last) ←
    (if admit_sender_rtt u (last_sender_rtt_us lk) r
     then w ← Law.push (rtt_window lk) r; mret (w, Some r)
     else Some (rtt_window lk, last_sender_rtt_us lk));
  mret (mkLinkState w (mr_rtt_us mesh) (Some (floor_us mesh)) cs last).

Definition ingest_slot (m : Maker) (c : SlotConditions) (mesh : MeshRtt) (now : Z) : option Maker :=
  if u8_max <? c_slot c then Some m
  else if bool_decide (is_Some (departures (lv m) !! c_slot c)) then Some m
  else if negb (sample_current m c) then Some m
  else
    let s := default default_slot (slots (conns m) !! c_slot c) in
    lk ← ingest_link (law m) (link s) c mesh now;
    mret (put_slot m (c_slot c) (set_link s lk)).

Fixpoint ingest_each (m : Maker) (cs : list SlotConditions) (mesh : MeshRtt) (now : Z) : option Maker :=
  match cs with
  | [] => Some m
  | c :: cs => m' ← ingest_slot m c mesh now; ingest_each m' cs mesh now
  end.

Definition is_authority (m : Maker) : bool := match authority m with AuthSelf => true | AuthPeer => false end.

Definition ingest_slots (m : Maker) (cs : list SlotConditions) (mesh : MeshRtt) (now : Z) :
    option (option Decision * option Z * Maker) :=
  m1 ← ingest_each m cs mesh now;
  if negb (is_authority m1) then mret (None, None, m1)
  else if rollback_enabled m1 && initial_directive_sent (buf m1) then mret (None, None, m1)
  else decide_buffer m1 now.

Definition activate_local (now : Z) (m : Maker) (c : SlotConditions) : Maker :=
  match c_connection_epoch c with
  | Some epoch =>
      if (u8_max <? c_slot c) || departed m (c_slot c) || leave_decided m (c_slot c) then m
      else (activate_connection_epoch m (c_slot c) epoch now).2
  | None => m
  end.

Definition activate_local_epochs (m : Maker) (cs : list SlotConditions) (now : Z) : Maker := foldl (activate_local now) m cs.

Definition ingest_local (m : Maker) (cs : list SlotConditions) (now : Z) :=
  ingest_slots (activate_local_epochs m cs now) cs local_rtt now.

Definition ingest_remote (m : Maker) (cs : list SlotConditions) (mesh : MeshRtt) (now : Z) := ingest_slots m cs mesh now.

(** ** The depth a session starts with *)

Definition latency_hint_turns (m : Maker) : option Z :=
  let turn_us := turn_duration_us (law m) in
  if turn_us =? 0 then None
  else ms ← latency_hint_ms (buf m);
       mret (Z.min (div_ceil (saturating_mul u64_max ms 1000) turn_us) u32_max).

Definition compute_initial_depth (m : Maker) : option Z :=
  observed ← target m;
  let hint := latency_hint_turns m in
  all ← (if single_relay (buf m) then all_expected_slots_have_rtt m else Some false : option bool);
  let depth :=
    if (all : bool) then default (bmin (bounds m)) observed
    else match observed, hint with
         | None, None => bmin (bounds m)
         | _, _ => saturating_add u32_max (Z.max (default 0 observed) (default 0 hint)) (if single_relay (buf m) then 0 else 1)
         end in
  mret (game_safe_clamp m depth).

Definition set_initial (b : BufferState) (v : Z) : BufferState :=
  mkBufferState v (last_decision_frame b) (target_peaks b) (last_shrink b) (edge_burned b) (last_burn_frame b)
    (decision_seq_at b) (decision_seq_tiebreak b) (pending_directive b) (initial_directive_sent b) (last_trace_frame b)
    (own_relay_id b) (Some v) (latency_hint_ms b) (single_relay b).

Definition maybe_start (m : Maker) (now : Z) : option (bool * Maker) :=
  if started (roster m) || negb (is_authority m) || bool_decide (expected_slots (roster m) = ∅) then Some (false, m)
  else if bool_decide (expected_slots (roster m) ⊆ live_slots (roster m)) then
    let m1 := start_as_authority (mark_started m now) in
    depth ← compute_initial_depth m1;
    mret (true, set_buf m1 (set_initial (buf m1) depth))
  else Some (false, m).

Definition note_slot_present (m : Maker) (slot now : Z) : option (bool * Maker) :=
  if departed m slot || leave_decided m slot then Some (false, m)
  else maybe_start (set_roster m (set_live (roster m) ({[slot]} ∪ live_slots (roster m)))) now.

Definition reevaluate_start (m : Maker) (now : Z) : option (bool * Maker) := maybe_start m now.

Definition adopt_session_start (m : Maker) (depth : option Z) (now : Z) : Maker :=
  let m1 := mark_started m now in
  if started (roster m) then m1
  else match depth with
       | Some d => set_buf m1 (set_initial (buf m1) (game_safe_clamp m1 d))
       | None => m1
       end.

Definition set_session_shape (m : Maker) (hint : option Z) (single : bool) : Maker :=
  let b := buf m in
  set_buf m (mkBufferState (buffer b) (last_decision_frame b) (target_peaks b) (last_shrink b) (edge_burned b)
    (last_burn_frame b) (decision_seq_at b) (decision_seq_tiebreak b) (pending_directive b) (initial_directive_sent b)
    (last_trace_frame b) (own_relay_id b) (initial_buffer_turns b) hint single).

Definition set_own_relay_id (m : Maker) (id : Z) : Maker :=
  let b := buf m in
  set_buf m (mkBufferState (buffer b) (last_decision_frame b) (target_peaks b) (last_shrink b) (edge_burned b)
    (last_burn_frame b) (decision_seq_at b) (decision_seq_tiebreak b) (pending_directive b) (initial_directive_sent b)
    (last_trace_frame b) (Some id) (initial_buffer_turns b) (latency_hint_ms b) (single_relay b)).

Definition set_expected_slots (m : Maker) (e : gset Z) : Maker := set_roster m (set_expected (roster m) e).

(** ** Arrival phases *)

Definition ingest_arrival_phase (m : Maker) (slot sq now : Z) : list (Z * Z) * Maker :=
  if negb (started (roster m)) || rollback_enabled m then ([], m)
  else
    let p := note_arrival (phase_ctl m) slot sq now in
    let r := Phase.evaluate p now in (r.1, set_phase_ctl m r.2).
