(* ===== verification/BufferInv.v ===== *)
(** * Invariants behind the buffer law

    The measurements of every tracked or suspended slot are well formed in any
    history, so no window access of the law is out of range; and no operation
    on departures, leaves or connections touches the buffer, but for a change
    of authority. *)

From Stdlib Require Import ZArith Lia.
From stdpp Require Import gmap sorting list.
From S2P Require Import Prelude.
From S2P Require Import Wire.
From S2P Require Import F64.
From S2P Require Import Presence.
From S2P Require Import Law.
From S2P Require Import SyncTurns.
From S2P Require Import Delivery.
From S2P Require Import Phase.
From S2P Require Import SyncTracker.
From S2P Require Import Seen.
From S2P Require Import Lead.
From S2P Require Import Clock.
From S2P Require Import Slot.
From S2P Require Import Maker.
From S2P Require Import Departure.
From S2P Require Import LeaveFinality.
From S2P Require Import Buffer.

Open Scope Z_scope.

(** ** Well-formed measurements *)

Definition frame_ok (o : option Z) : Prop := forall f, o = Some f -> 0 <= f.

Definition rtt_ok (w : RttWindow) : Prop := exists h js, rtt_inv w h js /\ (forall x, x ∈ h -> 0 <= x).

Record link_ok (span : Z) (lk : LinkState) : Prop := {
  lo_rtt : rtt_ok (rtt_window lk);
  lo_mesh : 0 <= mesh_rtt_us lk;
  lo_counters : counters_ok span (counters lk);
  lo_fresh : fresh_ok (counters lk);
}.

Definition slot_ok (span : Z) (s : SlotState) : Prop := link_ok span (link s) /\ frame_ok (frame s).

Definition span_of (m : Maker) : Z := blackout_run_bucket_span (law m).

Definition slots_ok (m : Maker) : Prop :=
  (forall k s, slots (conns m) !! k = Some s -> slot_ok (span_of m) s) /\
  (forall k d, departures (lv m) !! k = Some d -> frame_ok (last_frame d) /\
     forall s, slot_state d = Some s -> slot_ok (span_of m) s).

Lemma default_link_ok span : link_ok span default_link.
Proof.
  split; cbn.
  - exists [], []. split; [apply rtt_inv_default|]. intros x []%elem_of_nil.
  - lia.
  - apply default_counters_ok.
  - done.
Qed.

Lemma default_slot_ok span : slot_ok span default_slot.
Proof. split; [apply default_link_ok|done]. Qed.

Lemma raise_frame_ok span s f : slot_ok span s -> 0 <= f -> slot_ok span (raise_frame s f).
Proof.
  intros H Hf. unfold raise_frame. destruct (frame s) as [g|]; [destruct (g <? f); [|done]|]; (split; [apply H|]; by intros x [= <-]).
Qed.

Lemma max_known_ok a b : frame_ok a -> frame_ok b -> frame_ok (max_known a b).
Proof.
  intros Ha Hb f. destruct a as [x|], b as [y|]; cbn; intros [= <-]; auto.
  pose proof (Ha x eq_refl). lia.
Qed.

Lemma lift_state_ok span o f s : (forall s, o = Some s -> slot_ok span s) -> frame_ok f -> lift_state o f = Some s -> slot_ok span s.
Proof.
  intros Ho Hf. unfold lift_state. destruct o as [st|]; [|done]. destruct f as [fr|]; intros [= <-]; auto.
  apply raise_frame_ok; auto.
Qed.

(** ** Operations that leave the buffer alone *)

Record tame (m m' : Maker) : Prop := {
  tm_law : law m' = law m;
  tm_bounds : bounds m' = bounds m;
  tm_authority : authority m' = authority m;
  tm_buf : buf m' = buf m;
  tm_slots : slots_ok m -> slots_ok m';
}.

Lemma tame_refl m : tame m m.
Proof. done. Qed.

Lemma tame_trans m1 m2 m3 : tame m1 m2 -> tame m2 m3 -> tame m1 m3.
Proof. intros [L1 D1 A1 B1 S1] [L2 D2 A2 B2 S2]. split; [congruence..|auto]. Qed.

(** Nothing but fields the invariant does not read. *)
Lemma tame_frame m m' :
  law m' = law m -> bounds m' = bounds m -> authority m' = authority m -> buf m' = buf m -> slots (conns m') = slots (conns m) ->
  departures (lv m') = departures (lv m) -> tame m m'.
Proof. intros Hl Hbd Ha Hb Hs Hd. split; [done|done|done|done|]. unfold slots_ok, span_of. by rewrite Hl, Hs, Hd. Qed.

Lemma tame_forget m slot : tame m (forget_delivery m slot).
Proof. by apply tame_frame. Qed.

Lemma tame_put m slot s : (slots_ok m -> slot_ok (span_of m) s) -> tame m (put_slot m slot s).
Proof.
  intros Hs. split; [done|done|done|done|]. intros Hok. split; [|apply Hok]. intros k s'. cbn.
  destruct (decide (slot = k)) as [->|Hne]; [rewrite lookup_insert_eq; intros [= <-]; by apply Hs|].
  rewrite lookup_insert_ne by done. apply Hok.
Qed.

Lemma slot_or_default m slot : slots_ok m -> slot_ok (span_of m) (default default_slot (slots (conns m) !! slot)).
Proof. intros Hok. destruct (slots (conns m) !! slot) eqn:E; [by apply (proj1 Hok slot)|apply default_slot_ok]. Qed.

Lemma tame_note m slot st why epoch : frame_ok (st_last_frame st) -> tame m (note_departure m slot st why epoch).
Proof.
  intros Hst. split; [done|done|done|done|]. intros [Hs Hd]. split; cbn.
  - intros k s [_ H]%lookup_delete_Some. by apply (Hs k).
  - set (own := slots (conns m) !! slot). set (merged := max_known (st_last_frame st) (own ≫= frame)).
    assert (Hmg : frame_ok merged).
    { apply max_known_ok; [done|]. unfold own. destruct (slots (conns m) !! slot) eqn:E; [|done]. apply (proj2 (Hs _ _ E)). }
    assert (Hown : forall s, lift_state own merged = Some s -> slot_ok (span_of m) s).
    { intros s. apply lift_state_ok; [|done]. intros s' E. by apply (Hs slot). }
    intros k d. destruct (decide (slot = k)) as [->|Hne]; [rewrite lookup_insert_eq|rewrite lookup_insert_ne by done; apply Hd].
    intros [= <-]. unfold merge_departure. destruct (departures (lv m) !! k) as [d0|] eqn:E0; cbn; [|done].
    destruct (Hd k d0 E0) as [Hf0 Hs0]. assert (Hlf : frame_ok (max_known (last_frame d0) merged)) by by apply max_known_ok.
    split; [done|]. intros s. apply lift_state_ok; [|done]. intros s'. destruct (slot_state d0) as [sd|]; cbn; [|apply Hown].
    intros [= <-]. by apply Hs0.
Qed.

Lemma tame_cache m slot fin why f count now : tame m (cache_leave m slot fin why f count now).2.
Proof. by apply tame_frame. Qed.

Lemma tame_commit m slot why now : tame m (commit_leave m slot why now).2.
Proof.
  unfold commit_leave. destruct (leave_decided m slot); [apply tame_refl|].
  destruct (scheduled_frame m slot why); [|apply tame_refl]. apply tame_cache.
Qed.

Lemma no_stamps_ok : frame_ok (st_last_frame no_stamps).
Proof. done. Qed.

Lemma tame_decide m slot why now : tame m (decide_leave m slot why now).2.
Proof.
  unfold decide_leave. pose proof (tame_note m slot no_stamps why None no_stamps_ok) as H.
  destruct (authority _); [|exact H]. exact (tame_trans _ _ _ H (tame_commit _ slot why now)).
Qed.

Lemma tame_force m slot why now : tame m (force_decide_leave m slot why now).2.
Proof.
  unfold force_decide_leave. pose proof (tame_note m slot no_stamps why None no_stamps_ok) as H.
  pose proof (tame_commit (note_departure m slot no_stamps why None) slot why now) as Hc.
  destruct (commit_leave _ slot why now) as [[d|] m']; cbn [snd] in *; [by eapply tame_trans|].
  pose proof (tame_trans _ _ _ H Hc). destruct (leave_decided m' slot); [done|]. eapply tame_trans; [done|apply tame_cache].
Qed.

Lemma tame_force_all m todo now : tame m (force_all m todo now).2.
Proof.
  revert m. induction todo as [|[s w] todo IH]; intros m; cbn [force_all]; [apply tame_refl|].
  pose proof (tame_force m s w now) as H. destruct (force_decide_leave m s w now) as [o m1]. specialize (IH m1).
  destruct (force_all m1 todo now). by eapply tame_trans.
Qed.

Lemma tame_derive m todo now : tame m (derive_leaves m todo now).2.
Proof.
  revert m. induction todo as [|[s w] todo IH]; intros m; cbn [derive_leaves]; [apply tame_refl|].
  pose proof (tame_decide m s w now) as H. destruct (decide_leave m s w now) as [o m1]. specialize (IH m1).
  destruct (derive_leaves m1 todo now). by eapply tame_trans.
Qed.

Lemma tame_down m slot observed : tame m (mark_connection_down m slot observed).2.
Proof.
  unfold mark_connection_down. destruct (connection_states (conns m) !! slot) as [[|]|], observed; try apply tame_refl;
    try (destruct (_ =? _)); try apply tame_refl; by apply tame_frame.
Qed.

Lemma reset_ok span s : frame_ok (frame s) -> slot_ok span (reset_link_conditions s).
Proof. intros H. split; [apply default_link_ok|done]. Qed.

Lemma tame_replace m slot epoch now : tame m (replace_epoch m slot epoch now).
Proof.
  assert (H : forall x, tame m (set_conns m (mkConnections
    (match slots (conns m) !! slot with Some s => <[slot := set_up_at (reset_link_conditions s) now]> (slots (conns m)) | None => slots (conns m) end)
    (<[slot := Up epoch]> (connection_states (conns m))) x))).
  { intros x. split; [done|done|done|done|]. intros [Hs Hd]. split; [|done]. intros k s'. cbn. destruct (slots (conns m) !! slot) as [s|] eqn:E; [|apply Hs].
    destruct (decide (slot = k)) as [->|Hne]; [rewrite lookup_insert_eq; intros [= <-]|rewrite lookup_insert_ne by done; apply Hs].
    apply (reset_ok _ s). apply (proj2 (Hs k s E)). }
  unfold replace_epoch. cbv zeta. destruct (_ && _ && _); [|apply H]. eapply tame_trans; [apply H|by apply tame_frame].
Qed.

Lemma tame_activate m slot epoch now : tame m (activate_connection_epoch m slot epoch now).2.
Proof.
  unfold activate_connection_epoch. destruct (_ || _); [apply tame_refl|]. destruct (is_retired m slot epoch); [apply tame_refl|].
  destruct (connection_states (conns m) !! slot) as [[c|c]|]; [destruct (c =? epoch); [apply tame_refl|]..|]; apply tame_replace.
Qed.

Lemma tame_admit m slot observed now : tame m (admit_connection_up m slot observed now).2.
Proof.
  unfold admit_connection_up. destruct (_ || _); [apply tame_refl|]. destruct observed; [apply tame_activate|apply tame_refl].
Qed.

Lemma tame_reinstate m slot now : tame m (reinstate_slot m slot now).2.
Proof.
  unfold reinstate_slot. destruct (leave_decided m slot); [apply tame_refl|].
  destruct (departures (lv m) !! slot) as [d|] eqn:E; [|apply tame_refl]. cbn [snd].
  set (m1 := set_lv m _). assert (H1 : tame m m1).
  { split; [done|done|done|done|]. intros [Hs Hd]. split; [done|]. cbn. intros k d' [_ H]%lookup_delete_Some. by apply (Hd k). }
  split; [done|done|done|done|]. intros Hok. apply (tame_put m1); [|by apply H1]. intros _.
  destruct (proj2 Hok slot d E) as [Hf Hs]. apply (reset_ok _ (match last_frame d with Some f => _ | None => _ end)).
  assert (Hd : slot_ok (span_of m) (default default_slot (slot_state d))).
  { destruct (slot_state d); [by apply Hs|apply default_slot_ok]. }
  destruct (last_frame d) as [f|]; [|apply Hd]. apply (raise_frame_ok (span_of m)); [done|by apply Hf].
Qed.

Lemma tame_reconnect m slot observed hold now : tame m (resolve_reconnect m slot observed hold now).2.
Proof.
  unfold resolve_reconnect. destruct (leave_decided m slot); [apply tame_refl|].
  destruct (bool_decide (is_Some _)); [apply tame_refl|]. destruct (bool_decide (slot ∈ _)); [apply tame_refl|].
  destruct (connection_activation m slot observed); [| |apply tame_refl];
    (destruct (departed m slot); cbn [andb]; [destruct (negb hold); [apply tame_refl|]|]).
  all: try (pose proof (tame_reinstate m slot now) as Hr; destruct (reinstate_slot m slot now) as [ok m1]; destruct (negb ok); [done|];
    cbn [snd] in Hr; pose proof (tame_admit m1 slot observed now) as Ha; destruct (admit_connection_up m1 slot observed now);
    by eapply tame_trans).
  all: cbn [negb]; pose proof (tame_admit m slot observed now) as Ha; by destruct (admit_connection_up m slot observed now).
Qed.

Lemma tame_observe_leave m d now : tame m (observe_leave m d now).2.
Proof.
  unfold observe_leave. destruct (u8_try_from _) as [slot|]; [|apply tame_refl].
  destruct (leave_decided m slot); [apply tame_frame; try done; unfold raise_leave_seq; cbn; by destruct (_ <? _)|]. cbn [snd].
  set (m1 := set_lv m _). assert (H1 : tame m m1) by (apply tame_frame; try done; unfold m1, raise_leave_seq; cbn; by destruct (_ <? _)).
  set (m2 := match connection_states (conns m1) !! slot with Some (Up e) => _ | _ => _ end).
  assert (H2 : tame m1 m2) by (unfold m2; destruct (connection_states (conns m1) !! slot) as [[|]|]; try apply tame_refl; by apply tame_frame).
  set (m3 := note_departure m2 slot _ _ None). assert (H3 : tame m2 m3) by by apply tame_note.
  eapply tame_trans; [exact (tame_trans _ _ _ (tame_trans _ _ _ H1 H2) H3)|apply tame_forget].
Qed.

Lemma tame_seed m d now : tame m (seed_departed m d now).2.
Proof.
  unfold seed_departed. cbv zeta. set (m1 := note_departure m _ _ _ _). assert (H : tame m m1) by by apply tame_note.
  destruct (leave_decided m1 (ds_slot d)); [done|]. eapply tame_trans; [exact H|apply tame_cache].
Qed.

Lemma tame_seed_all m ds now : tame m (seed_all m ds now).2.
Proof.
  revert m. induction ds as [|d ds IH]; intros m; cbn [seed_all]; [apply tame_refl|].
  pose proof (tame_seed m d now) as H. destruct (seed_departed m d now) as [o m1]. specialize (IH m1).
  destruct (seed_all m1 ds now). by eapply tame_trans.
Qed.

(** ** The operations of the session's maker *)

(** The frames an operation brings in are unsigned. *)
Definition maker_op_ok (o : MakerOp) : Prop :=
  match o with
  | OTurn _ _ f => 0 <= f
  | ORecord _ st _ _ | OStamp _ st _ => frame_ok (st_last_frame st)
  | _ => True
  end.

(** A change of authority. *)
Definition verdict_of (o : MakerOp) : option Authority :=
  match o with ODescriptor _ _ a _ | OAuthority a _ => Some a | _ => None end.

(** What a change of authority leaves of the buffer: a loser drops its
    directive, a winner re-affirms. *)
Definition handed (m : Maker) (a : Authority) : option BufferState :=
  match authority m, a with
  | AuthSelf, AuthPeer => Some (drop_directive (buf m))
  | AuthPeer, AuthSelf => promote_buffer m
  | _, _ => Some (buf m)
  end.

Lemma set_authority_law m a held now all fresh m' :
  set_authority m a held now = Some (all, fresh, m') ->
  law m' = law m /\ handed m a = Some (buf m') /\ (slots_ok m -> slots_ok m') /\ bounds m' = bounds m.
Proof.
  unfold set_authority, handed. destruct (authority m) eqn:Ea, a; try (by intros [= <- <- <-]).
  intros E. set (m1 := set_sync_tracker (take_verdict m AuthSelf) default_sync_tracker) in *.
  change (promote_buffer m) with (promote_buffer m1). destruct (promote_buffer m1) as [b|]; [|done].
  cbn [mbind option_bind mret option_ret] in E. unfold drain_handoff_leaves in E.
  pose proof (tame_derive (set_buf m1 b) (filter (fun p => p.1 ∉ held) (undecided_departures (set_buf m1 b))) now) as H.
  destruct (derive_leaves _ _ now) as [fr m2]. injection E as _ _ <-. cbn [snd] in H. destruct H as [Hl Hd _ Hb Hs].
  split; [by rewrite Hl|]. split; [by rewrite Hb|]. split; [|by rewrite Hd]. intros Hok. apply Hs. exact Hok.
Qed.

Lemma set_authority_verdict m a held now all fresh m' : set_authority m a held now = Some (all, fresh, m') -> authority m' = a.
Proof.
  unfold set_authority. destruct (authority m) eqn:Ea, a; try (by intros [= _ _ <-]).
  intros E. destruct (promote_buffer _) as [b|]; [|done]. cbn [mbind option_bind mret option_ret] in E. unfold drain_handoff_leaves in E.
  match type of E with context [derive_leaves ?x ?y ?z] => pose proof (tame_derive x y z) as H; destruct (derive_leaves x y z) end.
  injection E as _ _ <-. exact (tm_authority _ _ H).
Qed.

Lemma maker_step_law m now o n m' :
  maker_op_ok o -> maker_step m (now, o) = Some (n, m') ->
  law m' = law m /\ (slots_ok m -> slots_ok m') /\
  match verdict_of o with Some a => handed m a = Some (buf m') | None => buf m' = buf m end /\
  bounds m' = match o with ODescriptor b _ _ _ => b | _ => bounds m end.
Proof.
  intros Ho. unfold maker_step. cbn [fst snd].
  assert (Htame : forall m1 (l : list LeaveDirective), tame m m1 -> Some (l, m1) = Some (n, m') ->
    law m' = law m /\ (slots_ok m -> slots_ok m') /\ buf m' = buf m /\ bounds m' = bounds m) by (intros m1 l [Hl Hd _ Hb Hs] [= _ <-]; auto).
  destruct o; cbn [verdict_of maker_op_ok] in *.
  - apply Htame. unfold observe_turn_frame. destruct (bool_decide _); [apply tame_refl|]. apply tame_put. intros Hok.
    destruct (raise_frame_ok (span_of m) _ f (slot_or_default m slot Hok) Ho) as [Hl Hf]. by split.
  - apply Htame. unfold record_departure_outcome. destruct (leave_decided m slot).
    + eapply tame_trans; [by apply tame_note|apply tame_forget].
    + unfold record_departure_for_epoch. pose proof (tame_down m slot epoch) as H1.
      destruct (mark_connection_down m slot epoch) as [[|] m1]; cbn [snd] in *; [|done].
      eapply tame_trans; [exact H1|]. eapply tame_trans; [by apply tame_note|apply tame_forget].
  - apply Htame. eapply tame_trans; [by apply tame_note|apply tame_forget].
  - apply Htame, tame_decide.
  - unfold decide_abandoned_departures. pose proof (tame_force_all m (undecided_departures m) now) as H.
    destruct (force_all _ _ now) as [l m1]. by apply Htame.
  - apply Htame, tame_observe_leave.
  - apply Htame. unfold seed_resumed. pose proof (tame_seed_all m ds now) as H. destruct (seed_all m ds now) as [l m1].
    cbn [snd] in *. eapply tame_trans; [exact H|by apply tame_frame].
  - apply Htame, tame_reconnect.
  - apply Htame, tame_activate.
  - apply Htame, tame_down.
  - apply Htame. unfold remove_slot_for_epoch. destruct (connection_epoch_matches m slot epoch); [|apply tame_refl].
    split; [done|done|done|done|]. intros [Hs Hd]. split; [|done]. cbn. intros k s [_ H]%lookup_delete_Some. by apply (Hs k).
  - apply Htame. unfold record_result. destruct (negb _); [apply tame_refl|].
    destruct (results (lv m) !! slot); [apply tame_refl|by apply tame_frame].
  - apply Htame. unfold seal_for_finalize. destruct (decided_leaves (lv m) !! slot); [apply tame_refl|].
    destruct (connection_is_up m slot); [apply tame_refl|]. destruct (negb _); [apply tame_refl|].
    destruct (bool_decide (slot ∈ _)); [apply tame_refl|]. destruct (negb _); [apply tame_refl|by apply tame_frame].
  - apply Htame. unfold finish_finalize. destruct (match reading with Count n => Some n | _ => _ end); cbn [snd];
      [by apply tame_note|by apply tame_frame].
  - unfold sync_maker. set (m1 := set_bounds (rehome_homed_slots m homed) b).
    destruct (set_authority m1 a held now) as [[[all fresh] m2]|] eqn:E; [|done]. intros [= _ <-].
    destruct (set_authority_law m1 a held now all fresh m2 E) as (Hl & Hb & Hs & Hd). split; [done|]. split; [exact Hs|]. split; [exact Hb|by rewrite Hd].
  - destruct (set_authority m a held now) as [[[all fresh] m2]|] eqn:E; [|done]. intros [= _ <-].
    by destruct (set_authority_law m a held now all fresh m2 E) as (Hl & Hb & Hs & Hd).
  - apply Htame. destruct peer; by apply tame_frame.
  - apply Htame. by apply tame_frame.
  - apply Htame. by apply tame_frame.
  - apply Htame. destruct claim; by apply tame_frame.
Qed.

(** ** No access of the law is out of range *)

Lemma max_over_last_total N w k : (0 < N)%nat -> bm_shape N w -> exists v, max_over_last N w k = Some v /\ 0 <= v.
Proof.
  intros HN [Hl Hh]. unfold max_over_last.
  destruct (mapM _ _) as [vs|] eqn:E; cbn [mbind option_bind]; [exists (maxz vs); split; [done|apply maxz_nonneg]|].
  apply mapM_None, Exists_exists in E as (age & _ & Hn). exfalso.
  apply lookup_ge_None in Hn. pose proof (Nat.mod_upper_bound (bm_head w + N - age) N ltac:(lia)). lia.
Qed.

Lemma window_inv_shape N span w E a : (0 < N)%nat -> window_inv N span w E a -> bm_shape N w.
Proof.
  intros HN. unfold window_inv. destruct (head_start w); [intros [[] _]; by split|]. intros [_ ->].
  split; [apply length_replicate|done].
Qed.

Lemma burst_total span c : counters_ok span c -> exists b, burst_turns c = Some b /\ 0 <= b.
Proof.
  intros Hok. destruct (co_runs _ _ Hok) as (E & a & Hw & _).
  destruct (max_over_last_total BLACKOUT_RUN_BUCKETS (blackout_runs c) BLACKOUT_RUN_BUCKETS) as (v & Ev & Hv);
    [unfold BLACKOUT_RUN_BUCKETS; lia|eapply window_inv_shape; [unfold BLACKOUT_RUN_BUCKETS; lia|done]|].
  unfold burst_turns. rewrite Ev. cbn. exists (Z.min v BURST_TURNS_CAP). split; [done|]. unfold BURST_TURNS_CAP. lia.
Qed.

Lemma SNAPSHOTS_pos : (0 < SNAPSHOTS)%nat.
Proof. vm_compute. lia. Qed.

Lemma windowed_total span c attack : counters_ok span c -> exists r, windowed_loss_rate c attack = Some r.
Proof.
  intros Hok. unfold windowed_loss_rate. destruct (_ =? 0)%nat; [by eexists|]. pose proof SNAPSHOTS_pos as HS.
  pose proof (co_ring _ _ Hok) as Hring. pose proof (co_head _ _ Hok).
  destruct (lookup_lt_is_Some_2 (loss_snapshots c) (if (loss_snapshot_len c =? SNAPSHOTS)%nat then loss_snapshot_head c else 0%nat))
    as [old ->]; [destruct (_ =? _)%nat; lia|]. cbn [mbind option_bind].
  assert (Ha : forall ages, exists sn, attack_anchor c attack ages old = Some sn).
  { induction ages as [|age ages IH]; cbn [attack_anchor]; [by eexists|].
    destruct (lookup_lt_is_Some_2 (loss_snapshots c) ((loss_snapshot_head c + SNAPSHOTS - 1 - age) mod SNAPSHOTS)%nat) as [sn ->];
      [rewrite Hring; apply Nat.mod_upper_bound; lia|]. cbn [mbind option_bind]. destruct (_ <=? _); [by eexists|done]. }
  destruct (Ha (List.seq 0 (loss_snapshot_len c))) as [sn ->]. by eexists.
Qed.

Lemma rtt_total span s : link_ok span (link s) -> exists r, rtt s = Some r /\ 0 <= r.
Proof.
  intros Hok. destruct (lo_rtt _ _ Hok) as (h & js & Hi & Hp). unfold rtt. rewrite (rtt_max_spec _ _ _ Hi Hp).
  eexists. split; [done|apply maxz_nonneg].
Qed.

Lemma eff_rtt_total span s : link_ok span (link s) -> exists e, eff_rtt s = Some e /\ 0 <= e <= u32_max.
Proof.
  intros Hok. destruct (rtt_total span s Hok) as (r & Er & Hr). unfold eff_rtt. rewrite Er. cbn.
  eexists. split; [done|]. pose proof (lo_mesh _ _ Hok). unfold saturating_add, u32_max. lia.
Qed.

Record scan_ok (sc : Scan) : Prop := {
  sk_count : 0 <= measured sc;
  sk_second : 0 <= second_highest sc <= highest sc;
  sk_high : highest sc <= u32_max;
  sk_burst : 0 <= sc_burst_turns sc;
}.

Lemma scan_slot_total span attack acc s :
  slot_ok span s -> scan_ok acc -> exists acc', scan_slot attack acc s = Some acc' /\ scan_ok acc'.
Proof.
  intros [Hl _] [H1 H2 H3 H4]. unfold scan_slot. destruct (eff_rtt_total span s Hl) as (e & -> & He). cbn [mbind option_bind].
  destruct (windowed_total span (counters (link s)) attack (lo_counters _ _ Hl)) as [rate Er].
  destruct (burst_total span (counters (link s)) (lo_counters _ _ Hl)) as (b & Eb & Hb).
  destruct (Z.ltb_spec 0 e); [destruct (Z.leb_spec (highest acc) e); [|destruct (Z.ltb_spec (second_highest acc) e)]|];
    rewrite Er; cbn [mbind option_bind]; rewrite Eb; cbn [mbind option_bind mret option_ret];
    (eexists; split; [reflexivity|]; split; cbn [measured highest second_highest sc_burst_turns]; lia).
Qed.

Lemma scan_slots_total span attack ss acc :
  Forall (slot_ok span) ss -> scan_ok acc -> exists acc', scan_slots attack acc ss = Some acc' /\ scan_ok acc'.
Proof.
  intros Hss. revert acc. induction Hss as [|s ss Hs Hss IH]; intros acc Ha; cbn [scan_slots]; [by exists acc|].
  destruct (scan_slot_total span attack acc s Hs Ha) as (acc1 & -> & Ha1). cbn [mbind option_bind]. by apply IH.
Qed.

Lemma ceil_as_u32_range x : 0 <= ceil_as_u32 x <= u32_max.
Proof. unfold ceil_as_u32. destruct x as [|[]| |[]]; unfold u32_max; lia. Qed.

Record inputs_ok (i : TargetInputs) : Prop := {
  io_target : 0 <= ti_target i <= u32_max;
  io_shrink : 0 <= ti_shrink_target i <= u32_max;
}.

Lemma target_inputs_total m : slots_ok m -> exists i, target_inputs m = Some i /\ forall x, i = Some x -> inputs_ok x.
Proof.
  intros [Hs _]. unfold target_inputs.
  destruct (scan_slots_total (span_of m) (loss_attack_samples (law m)) (map_to_list (slots (conns m))).*2 (mkScan 0 0 0 f64_zero 0))
    as (sc & -> & Hsc).
  { apply Forall_forall. intros s ([k s'] & -> & Hin%elem_of_map_to_list)%list_elem_of_fmap. by apply (Hs k). }
  { split; cbn; unfold u32_max; lia. }
  cbn [mbind option_bind mret option_ret]. eexists. split; [reflexivity|]. intros x. destruct (measured sc =? 0); [done|].
  intros [= <-]. unfold target_of, saturating_add, turns_of. split; cbn.
  - pose proof (ceil_as_u32_range (f64_div (f64_of_Z (path_us_of sc)) (f64_of_Z (turn_duration_us (law m))))).
    pose proof (ceil_as_u32_range (f64_div (worst_loss_risk sc) (f64_of_Z (turn_duration_us (law m))))). unfold u32_max in *. lia.
  - pose proof (ceil_as_u32_range (f64_div (f64_of_Z (Z.min u32_max (path_us_of sc + shrink_headroom_us (law m)))) (f64_of_Z (turn_duration_us (law m))))).
    pose proof (ceil_as_u32_range (f64_div (worst_loss_risk sc) (f64_of_Z (turn_duration_us (law m))))). unfold u32_max in *. lia.
Qed.

Lemma all_expected_total m : slots_ok m -> exists b, all_expected_slots_have_rtt m = Some b.
Proof.
  intros [Hs _]. unfold all_expected_slots_have_rtt. induction (elements _) as [|k ks [b IH]]; cbn [foldr]; [by eexists|].
  rewrite IH. cbn [mbind option_bind]. destruct (bool_decide _); [by eexists|].
  destruct (slots (conns m) !! k) as [s|] eqn:E; [|by eexists].
  destruct (rtt_total (span_of m) s (proj1 (Hs k s E))) as (r & -> & _). by eexists.
Qed.

(** Covering means a positive measurement of every expected slot present. *)
Lemma all_expected_spec m :
  all_expected_slots_have_rtt m = Some true ->
  forall k, k ∈ expected_slots (roster m) -> is_Some (departures (lv m) !! k) \/
    exists s r, slots (conns m) !! k = Some s /\ rtt s = Some r /\ 0 < r.
Proof.
  unfold all_expected_slots_have_rtt. intros H k Hk%elem_of_elements. revert H. induction (elements _) as [|x xs IH]; cbn [foldr]; [by apply elem_of_nil in Hk|].
  destruct (foldr _ _ xs) as [rest|] eqn:Er; [|done]. cbn [mbind option_bind]. intros H.
  apply elem_of_cons in Hk as [<-|Hk].
  - case_bool_decide as Hd; [by left|]. right. destruct (slots (conns m) !! k) as [s|]; [|done].
    destruct (rtt s) as [r|] eqn:Err; [|done]. cbn in H. injection H as [Hr _]%andb_true_iff. apply Z.ltb_lt in Hr. by exists s, r.
  - apply IH; [done|]. destruct rest; [done|]. exfalso. destruct (bool_decide _); [done|].
    destruct (slots (conns m) !! x) as [s|]; [|done]. destruct (rtt s); [|done]. cbn in H. by rewrite andb_false_r in H.
Qed.

Lemma session_frame_ok m : slots_ok m -> frame_ok (session_frame m).
Proof.
  intros [Hs _]. unfold session_frame.
  assert (H : forall ss : gmap Z SlotState, (forall k s, ss !! k = Some s -> frame_ok (frame s)) ->
    frame_ok (map_fold (fun _ s acc => min_frame acc s) None ss)).
  { apply (map_fold_weak_ind (fun acc ss => (forall k s, ss !! k = Some s -> frame_ok (frame s)) -> frame_ok acc)); [done|].
    intros k s ss acc Hn IH Hall f. assert (Ha : frame_ok acc).
    { apply IH. intros k' s' E. apply (Hall k'). rewrite lookup_insert_ne; [done|]. congruence. }
    pose proof (Hall k s ltac:(by rewrite lookup_insert_eq)) as Hf. unfold min_frame.
    destruct acc as [a|], (frame s) as [g|]; intros [= <-]; auto. pose proof (Ha a eq_refl). pose proof (Hf g eq_refl). lia. }
  apply H. intros k s E. apply (proj2 (Hs k s E)).
Qed.

(** ** Conditions keep the measurements well formed *)

Definition conditions_ok (c : SlotConditions) : Prop :=
  is_u32 (c_rtt_us c) /\ is_u64 (c_lost_packets c) /\ is_u64 (c_sent_packets c).

Lemma ingest_link_ok l lk c mesh now :
  link_ok (blackout_run_bucket_span l) lk -> conditions_ok c -> 0 <= mr_rtt_us mesh ->
  exists lk', ingest_link l lk c mesh now = Some lk' /\ link_ok (blackout_run_bucket_span l) lk'.
Proof.
  intros [(h & js & Hi & Hp) Hm Hc Hf] (Hr & Hlo & Hse) Hmesh. unfold ingest_link.
  destruct (accept_sample_spec (loss_snapshot_interval l) (blackout_run_bucket_span l) (counters lk)
    (c_lost_packets c, c_sent_packets c, now) Hc Hf) as (u & cs & E & Ha & _); [by split|].
  unfold accept in E. cbn [fst snd] in E. rewrite E. cbn [mbind option_bind].
  assert (Hcs : counters_ok (blackout_run_bucket_span l) cs /\ fresh_ok cs).
  { split; [apply Ha|]. intros Hn. by rewrite (ac_seen _ _ _ _ _ Ha) in Hn. }
  set (r := Z.min (c_rtt_us c) MAX_INGEST_RTT_US). assert (Hr0 : 0 <= r) by (unfold r, is_u32, MAX_INGEST_RTT_US in *; lia).
  assert (Hpush : exists w, Law.push (rtt_window lk) r = Some w /\ rtt_ok w).
  { destruct (Z.eq_dec r 0) as [E0|Hne]; [exists (rtt_window lk); unfold Law.push; rewrite E0; split; [done|by exists h, js]|].
    destruct (push_inv _ h js r Hi Hne) as (w & js' & -> & Hi'). exists w. split; [done|]. exists (h ++ [r]), js'.
    split; [done|]. intros x [Hx|Hx%list_elem_of_singleton]%elem_of_app; [auto|lia]. }
  destruct Hpush as (w & Ew & Hw).
  destruct (admit_sender_rtt u (last_sender_rtt_us lk) r).
  - rewrite Ew. cbn. eexists. split; [reflexivity|]. split; cbn; [done|done|apply Hcs..].
  - cbn. eexists. split; [reflexivity|]. split; cbn; [by exists h, js|done|apply Hcs..].
Qed.

Lemma ingest_slot_ok m c mesh now :
  slots_ok m -> conditions_ok c -> 0 <= mr_rtt_us mesh ->
  exists m', ingest_slot m c mesh now = Some m' /\ tame m m' /\
    (m' = m \/ exists s, departures (lv m) !! c_slot c = None /\ m' = put_slot m (c_slot c) s).
Proof.
  intros Hok Hc Hm. unfold ingest_slot. destruct (_ <? _); [exists m; auto using tame_refl|].
  case_bool_decide as Hd; [exists m; auto using tame_refl|]. destruct (negb _); [exists m; auto using tame_refl|].
  destruct (slot_or_default m (c_slot c) Hok) as [Hl Hf].
  destruct (ingest_link_ok (law m) _ c mesh now Hl Hc Hm) as (lk & -> & Hlk). cbn [mbind option_bind mret option_ret].
  eexists. split; [reflexivity|]. split; [apply tame_put; intros _; by split|]. right. eexists. split; [|reflexivity].
  by apply eq_None_not_Some.
Qed.

Lemma ingest_each_ok cs mesh now m :
  slots_ok m -> maker_ok m -> Forall conditions_ok cs -> 0 <= mr_rtt_us mesh ->
  exists m', ingest_each m cs mesh now = Some m' /\ tame m m' /\ maker_ok m'.
Proof.
  intros Hok Hmk Hcs Hm. revert m Hok Hmk. induction Hcs as [|c cs Hc Hcs IH]; intros m Hok Hmk; cbn [ingest_each].
  { exists m. split; [done|]. split; [apply tame_refl|done]. }
  destruct (ingest_slot_ok m c mesh now Hok Hc Hm) as (m1 & -> & Ht & Hcase). cbn [mbind option_bind].
  assert (Hmk1 : maker_ok m1) by (destruct Hcase as [->|(s & Hd & ->)]; [done|by apply put_slot_evolves]).
  destruct (IH m1 (tm_slots _ _ Ht Hok) Hmk1) as (m2 & E & Ht2 & Hmk2). exists m2. split; [done|].
  split; [by eapply tame_trans|done].
Qed.

Lemma activate_local_ok cs now m : maker_ok m -> tame m (activate_local_epochs m cs now) /\ maker_ok (activate_local_epochs m cs now).
Proof.
  unfold activate_local_epochs. revert m. induction cs as [|c cs IH]; intros m Hmk; cbn [foldl]; [split; [apply tame_refl|done]|].
  assert (H : tame m (activate_local now m c) /\ maker_ok (activate_local now m c)).
  { unfold activate_local. destruct (c_connection_epoch c) as [e|]; [|split; [apply tame_refl|done]].
    destruct (_ || _); [split; [apply tame_refl|done]|]. split; [apply tame_activate|by apply activate_evolves]. }
  destruct H as [H1 H2]. destruct (IH _ H2) as [H3 H4]. split; [by eapply tame_trans|done].
Qed.
