(* ===== verification/BufferLaw.v ===== *)
(** * Sessions under the buffer law

    Link conditions, directives and start signals interleaved with every
    operation on departures, leaves, connections and authority.  A session's log
    keeps the values the shrink floor observed and the directives authored or
    forwarded.  Every operation succeeds in every reachable state, and one run
    of the law is described case by case. *)

From Stdlib Require Import ZArith Lia.
From stdpp Require Import gmap sorting list.
From S2P Require Import Prelude.
From S2P Require Import BTree.
From S2P Require Import Wire.
From S2P Require Import F64.
From S2P Require Import Directive.
From S2P Require Import Presence.
From S2P Require Import Law.
From S2P Require Import SyncTurns.
From S2P Require Import Delivery.
From S2P Require Import Phase.
From S2P Require Import SyncTracker.
From S2P Require Import Seen.
From S2P Require Import Lead.
From S2P Require Import Clock.
From S2P Require Import Slot.
From S2P Require Import Maker.
From S2P Require Import Departure.
From S2P Require Import LeaveFinality.
From S2P Require Import Buffer.
From S2P Require Import BufferInv.

Open Scope Z_scope.

(** ** Sessions *)

Inductive LawOp : Type :=
| LLocal (cs : list SlotConditions)
| LRemote (cs : list SlotConditions) (mesh : MeshRtt)
| LForwarded (d : BufferDirective)
| LStamp
| LPresent (slot : Z)
| LReevaluate
| LAdopt (depth : option Z)
| LDescriptor (hint : option Z) (single : bool) (expected : gset Z) (id : Z)
| LArrival (slot sq : Z)
| LApplied (slot delay : Z)
| LOrigin (slot cursor : Z) (home : DeliveryHome)
| LDelivered (dest slot cursor : Z) (home : DeliveryHome)
| LMaker (o : MakerOp).

(** What a step leaves in the log: observations of the shrink floor, and the
    directives the relay authored or forwarded. *)
Record Log : Type := mkLog { peaks : list (Z * Z); stamps : list BufferDirective }.
Definition no_log : Log := mkLog [] [].
Definition log_app (a b : Log) : Log := mkLog (peaks a ++ peaks b) (stamps a ++ stamps b).

(** The directive a decision queued. *)
Definition authored (d : option Decision) (m : Maker) : list BufferDirective :=
  match d with Some _ => to_list (pending_directive (buf m)) | None => [] end.

(** What the shrink floor observed when the law computed the target [t]. *)
Definition observed (m : Maker) (t : option Z) : list (Z * Z) :=
  match session_frame m, t with Some f, Some v => [(f, v)] | _, _ => [] end.

Definition ingested (r : option (option Decision * option Z * Maker)) : option (option Decision * Log * Maker) :=
  '((d, t, m') : option Decision * option Z * Maker) ← r;
  mret (d, mkLog (observed m' t) (authored d m'), m').

(** A promoted relay seeds the floor with the buffer it inherits. *)
Definition seeded_peak (m : Maker) (o : MakerOp) : list (Z * Z) :=
  match authority m, verdict_of o, session_frame m with
  | AuthPeer, Some AuthSelf, Some f => [(f, buffer (buf m))]
  | _, _, _ => []
  end.

Definition law_step (m : Maker) (o : Z * LawOp) : option (option Decision * Log * Maker) :=
  let now := o.1 in
  match o.2 with
  | LLocal cs => ingested (ingest_local m cs now)
  | LRemote cs mesh => ingested (ingest_remote m cs mesh now)
  | LForwarded d => Some (None, mkLog [] [d], observe_directive m d)
  | LStamp => Some (None, no_log, (active_directive m).2)
  | LPresent slot => r ← note_slot_present m slot now; mret (None, no_log, r.2)
  | LReevaluate => r ← reevaluate_start m now; mret (None, no_log, r.2)
  | LAdopt depth => Some (None, no_log, adopt_session_start m depth now)
  | LDescriptor hint single expected id =>
      Some (None, no_log, set_own_relay_id (set_expected_slots (set_session_shape m hint single) expected) id)
  | LArrival slot sq => Some (None, no_log, (ingest_arrival_phase m slot sq now).2)
  | LApplied slot delay => Some (None, no_log, set_phase_ctl m (note_applied (phase_ctl m) slot delay now))
  | LOrigin slot cursor home => Some (None, no_log, set_delivery m (observe_origin (delivery m) slot cursor home))
  | LDelivered dest slot cursor home =>
      Some (None, no_log, set_delivery m (observe_delivery (delivery m) dest slot cursor home))
  | LMaker op => r ← maker_step m (now, op); mret (None, mkLog (seeded_peak m op) [], r.2)
  end.

Fixpoint law_run (m : Maker) (ops : list (Z * LawOp)) : option (Log * Maker) :=
  match ops with
  | [] => Some (no_log, m)
  | o :: ops =>
      '((_, g1, m1) : option Decision * Log * Maker) ← law_step m o;
      '((g2, m2) : Log * Maker) ← law_run m1 ops;
      mret (log_app g1 g2, m2)
  end.

(** ** The shrink floor's window *)

Local Abbreviation FLOOR := TARGET_FLOOR_BUCKETS.

Record peaks_ok (span : Z) (w : BucketedMax) (obs : list (Z * Z)) : Prop := {
  po_obs : Forall (fun o => 0 <= o.1 /\ 0 <= o.2) obs;
  po_window : window_inv FLOOR span w (effective [] 0 obs) (latest obs);
}.

Lemma effective_snoc past a obs o :
  effective past a (obs ++ [o]) = (Z.max (foldl (fun a o => Z.max a o.1) a obs) o.1, o.2) :: effective past a obs.
Proof. revert past a. induction obs as [|x obs IH]; intros past a; cbn; [done|]. apply IH. Qed.

Lemma latest_snoc obs o : latest (obs ++ [o]) = Z.max (latest obs) o.1.
Proof. unfold latest. by rewrite foldl_app. Qed.

Lemma effective_below past a obs e x :
  (forall e x, (e, x) ∈ past -> e <= a) -> (e, x) ∈ effective past a obs -> e <= foldl (fun a o => Z.max a o.1) a obs.
Proof.
  revert past a. induction obs as [|o obs IH]; intros past a Hp; cbn; [apply Hp|]. apply IH.
  intros e' x' [[= -> ->]|Hin]%elem_of_cons; [lia|]. pose proof (Hp e' x' Hin). lia.
Qed.

Lemma latest_nonneg obs : 0 <= latest obs.
Proof.
  unfold latest. assert (H : forall a, 0 <= a -> 0 <= foldl (fun a (o : Z * Z) => Z.max a o.1) a obs); [|by apply H].
  induction obs as [|o obs IH]; intros a Ha; cbn; [done|]. apply IH. lia.
Qed.

Lemma peaks_start span : peaks_ok span (default_buckets FLOOR) [].
Proof. split; [constructor|]. by split. Qed.

Lemma peaks_observe span w obs f v :
  peaks_ok span w obs -> 0 <= f -> 0 <= v ->
  exists w', Law.observe FLOOR w f v span = Some w' /\ peaks_ok span w' (obs ++ [(f, v)]) /\ is_Some (head_start w').
Proof.
  intros [Ho Hw] Hf Hv.
  destruct (bucket_observe_inv FLOOR ltac:(unfold TARGET_FLOOR_BUCKETS; lia) span w _ (latest obs) f v Hw (latest_nonneg obs))
    as (w' & E & Hw' & Hst); [|done|intros e x; by apply effective_below; intros ? ? []%elem_of_nil|].
  { intros Hn. unfold window_inv in Hw. rewrite Hn in Hw. destruct Hw as [HE _]. destruct obs as [|o obs _] using rev_ind; [done|].
    by rewrite effective_snoc in HE. }
  exists w'. split; [done|]. split; [|done]. split.
  - apply Forall_app. split; [done|]. by constructor.
  - rewrite effective_snoc, latest_snoc. exact Hw'.
Qed.

(** A reading over [k] buckets is at least every recent observation. *)
Lemma peaks_floor span w obs k f v :
  peaks_ok span w obs -> is_Some (head_start w) -> (1 <= k <= FLOOR)%nat -> (f, v) ∈ obs ->
  latest obs - (Z.of_nat k - 1) * Z.max span 1 <= f ->
  exists x, max_over_last FLOOR w k = Some x /\ v <= x.
Proof.
  intros [_ Hw] Hst Hk Hin Hf.
  destruct (max_over_last_spec FLOOR ltac:(unfold TARGET_FLOOR_BUCKETS; lia) span w _ _ k Hw Hst Hk) as (x & E & Hlo & _).
  exists x. split; [done|]. destruct (effective_obs [] 0 obs f v Hin) as (e & He & HinE). eapply Hlo; [exact HinE|lia].
Qed.

(** ** The invariant of a session *)

Definition floor_span (m : Maker) : Z := target_floor_bucket_span (law m).

Record law_ok (m : Maker) (obs : list (Z * Z)) : Prop := {
  la_maker : maker_ok m;
  la_slots : slots_ok m;
  la_peaks : peaks_ok (floor_span m) (target_peaks (buf m)) obs;
  la_buffer : 0 <= buffer (buf m);
  la_bounds : 0 <= bmin (bounds m) /\ 0 <= bmax (bounds m);
}.

Lemma clamp_nonneg m v : 0 <= bmin (bounds m) /\ 0 <= bmax (bounds m) -> 0 <= game_safe_clamp m v <= GAME_SYNC_SAFE_BUFFER_MAX.
Proof.
  intros []. unfold game_safe_clamp, clamp, GAME_SYNC_SAFE_BUFFER_MAX. destruct (Z.leb_spec (bmin (bounds m)) (bmax (bounds m))); lia.
Qed.

Lemma clamp_mono m a b : a <= b -> game_safe_clamp m a <= game_safe_clamp m b.
Proof. intros. unfold game_safe_clamp, clamp. destruct (bmin (bounds m) <=? bmax (bounds m)); lia. Qed.

(** A step that changes only the buffer record and fields the invariant does
    not read. *)
Lemma law_ok_buf m m' obs obs' :
  law_ok m obs -> law m' = law m -> bounds m' = bounds m -> conns m' = conns m -> lv m' = lv m ->
  peaks_ok (floor_span m) (target_peaks (buf m')) obs' -> 0 <= buffer (buf m') -> law_ok m' obs'.
Proof.
  intros [Hm Hs Hp Hb Hbd] El Eb Ec Ev Hp' Hb'.
  assert (maker_ok m').
  { destruct Hm as [A1 A2 A3 A4]. split; rewrite ?Ev, ?Ec; try done. eapply window_inv_shape; [|apply Hp']. unfold TARGET_FLOOR_BUCKETS; lia. }
  split; [done| | |done|by rewrite Eb].
  - unfold slots_ok, span_of in *. by rewrite El, Ec, Ev.
  - unfold floor_span in *. by rewrite El.
Qed.

(** ** One run of the law *)

Lemma expire_burn_fields l b f :
  buffer (expire_burn l b f) = buffer b /\ last_decision_frame (expire_burn l b f) = last_decision_frame b /\
  target_peaks (expire_burn l b f) = target_peaks b /\ initial_directive_sent (expire_burn l b f) = initial_directive_sent b /\
  decision_seq_at (expire_burn l b f) = decision_seq_at b /\ own_relay_id (expire_burn l b f) = own_relay_id b.
Proof. unfold expire_burn. destruct (last_burn_frame b); [destruct (_ <? _)|]; done. Qed.

Lemma trace_fields b f :
  buffer (trace_control_inputs b f) = buffer b /\ last_decision_frame (trace_control_inputs b f) = last_decision_frame b /\
  target_peaks (trace_control_inputs b f) = target_peaks b /\
  initial_directive_sent (trace_control_inputs b f) = initial_directive_sent b /\
  decision_seq_at (trace_control_inputs b f) = decision_seq_at b /\ own_relay_id (trace_control_inputs b f) = own_relay_id b.
Proof. unfold trace_control_inputs. by destruct (match last_trace_frame b with None => true | Some _ => _ end). Qed.

Lemma raise_edge_fields l b t f :
  buffer (raise_edge l b t f) = buffer b /\ target_peaks (raise_edge l b t f) = target_peaks b /\
  initial_directive_sent (raise_edge l b t f) = initial_directive_sent b /\ decision_seq_at (raise_edge l b t f) = decision_seq_at b /\
  own_relay_id (raise_edge l b t f) = own_relay_id b.
Proof. unfold raise_edge. destruct (last_shrink b); [destruct (_ && _)|]; done. Qed.

(** What [move] asks for, and why. *)
Record moved (m : Maker) (b : BufferState) (f t st : Z) (asked : option Z) (b' : BufferState) : Prop := {
  mv_buffer : buffer b' = buffer b;
  mv_peaks : target_peaks b' = target_peaks b;
  mv_sent : initial_directive_sent b' = initial_directive_sent b;
  mv_seq : decision_seq_at b' = decision_seq_at b;
  mv_id : own_relay_id b' = own_relay_id b;
  mv_edge : t <= buffer b -> edge_burned b' = edge_burned b;
  mv_raise : buffer b < t -> asked = Some t;
  mv_hold : t <= buffer b <= st -> asked = None;
  mv_lower : forall v, asked = Some v -> t <= buffer b ->
    v = lowered (law m) b st /\ st < buffer b /\ dwell_elapsed (law m) b f = true /\
    all_expected_slots_have_rtt m = Some true /\ shrink_allowed b v = Some true;
}.

Lemma move_spec m b f t st :
  slots_ok m -> bm_shape FLOOR (target_peaks b) -> exists asked b', move m b f t st = Some (asked, b') /\ moved m b f t st asked b'.
Proof.
  intros Hs Hw. unfold move. destruct (Z.ltb_spec (buffer b) t) as [Hr|Hr].
  { eexists _, _. split; [reflexivity|]. destruct (raise_edge_fields (law m) b t f) as (? & ? & ? & ? & ?). split; try done; lia. }
  destruct (Z.ltb_spec st (buffer b)) as [Hl|Hl].
  2:{ exists None, b. split; [done|]. split; try done; lia. }
  destruct (all_expected_total m Hs) as [[|] Ec]; rewrite Ec; [|exists None, b; split; [done|]; split; try done; lia].
  set (low := lowered (law m) b st).
  assert (Ha : exists ok, shrink_allowed b low = Some ok).
  { unfold shrink_allowed. assert (HF : (0 < FLOOR)%nat) by (unfold TARGET_FLOOR_BUCKETS; lia).
    destruct (max_over_last_total FLOOR _ TARGET_FLOOR_BASE_BUCKETS HF Hw) as (x & -> & _).
    cbn [mbind option_bind]. destruct (low =? x); [|by eexists].
    destruct (max_over_last_total FLOOR _ (if edge_burned b then EDGE_PROBATION_BUCKETS else TARGET_FLOOR_BASE_BUCKETS) HF Hw)
      as (y & -> & _). by eexists. }
  destruct Ha as [ok Ea]. rewrite Ea. cbn [mbind option_bind mret option_ret].
  destruct (dwell_elapsed (law m) b f) eqn:Ed; cbn [andb]; [destruct ok|];
    (eexists _, _; split; [reflexivity|]; split; try done; try lia; by intros v [= <-]).
Qed.

(** The additive terms of a target. *)
Definition additive (m : Maker) (now : Z) : Z :=
  saturating_add u32_max (cushion_turns (delivery m)) (stretch_turns (phase_ctl m) now).1.

Lemma additive_nonneg m now : 0 <= additive m now.
Proof.
  unfold additive, saturating_add. pose proof (cushion_range (delivery m)). assert (0 <= (stretch_turns (phase_ctl m) now).1); [|unfold u32_max; lia].
  unfold stretch_turns. destruct (negb _); [done|]. by destruct (_ <? _).
Qed.

Definition law_target (m : Maker) (i : TargetInputs) (now : Z) : Z := saturating_add u32_max (ti_target i) (additive m now).
Definition law_shrink_target (m : Maker) (i : TargetInputs) (now : Z) : Z := saturating_add u32_max (ti_shrink_target i) (additive m now).

(** The buffer record the law starts from, its floor being [w]. *)
Definition ready (m : Maker) (w : BucketedMax) (f : Z) : BufferState :=
  expire_burn (law m) (set_peaks (trace_control_inputs (buf m) f) w) f.

Lemma ready_fields m w f :
  buffer (ready m w f) = buffer (buf m) /\ last_decision_frame (ready m w f) = last_decision_frame (buf m) /\
  target_peaks (ready m w f) = w /\ initial_directive_sent (ready m w f) = initial_directive_sent (buf m) /\
  decision_seq_at (ready m w f) = decision_seq_at (buf m) /\ own_relay_id (ready m w f) = own_relay_id (buf m).
Proof.
  unfold ready. destruct (expire_burn_fields (law m) (set_peaks (trace_control_inputs (buf m) f) w) f) as (-> & -> & -> & -> & -> & ->).
  cbn. destruct (trace_fields (buf m) f) as (-> & -> & _ & -> & -> & ->). done.
Qed.

Lemma run_law_spec m obs i f now :
  law_ok m obs -> inputs_ok i -> 0 <= f ->
  exists w asked b', let t := law_target m i now in let m1 := set_buf (set_phase_ctl m (stretch_turns (phase_ctl m) now).2) b' in
    run_law m i f now = Some (match asked with
      | Some v => if game_safe_clamp m v =? buffer (buf m) then None else Some (game_safe_clamp m v) | None => None end, t, m1) /\
    0 <= t /\ peaks_ok (floor_span m) w (obs ++ [(f, t)]) /\ is_Some (head_start w) /\
    moved m (ready m w f) f t (law_shrink_target m i now) asked b'.
Proof.
  intros Hok Hi Hf. pose proof (additive_nonneg m now) as Ha. destruct Hi as [Ht _].
  assert (Ht0 : 0 <= law_target m i now) by (unfold law_target, saturating_add, u32_max in *; lia).
  destruct (peaks_observe (floor_span m) _ obs f (law_target m i now) (la_peaks _ _ Hok) Hf Ht0) as (w & Ew & Hw & Hst).
  destruct (ready_fields m w f) as (Eb & _ & Ep & _).
  destruct (move_spec m (ready m w f) f (law_target m i now) (law_shrink_target m i now) (la_slots _ _ Hok)) as (asked & b' & Em & Hm).
  { rewrite Ep. eapply window_inv_shape; [unfold TARGET_FLOOR_BUCKETS; lia|apply Hw]. }
  exists w, asked, b'. cbv zeta. split; [|split; [done|]; split; [done|]; split; done].
  unfold run_law. unfold law_target, law_shrink_target, additive, floor_span in *.
  destruct (stretch_turns (phase_ctl m) now) as [stretch p]. cbn [fst snd] in *.
  destruct (trace_fields (buf m) f) as (_ & _ & Etp & _). rewrite Etp, Ew. cbn [mbind option_bind].
  unfold ready in Em. rewrite Em. cbn [mbind option_bind mret option_ret]. do 2 f_equal.
  rewrite (mv_buffer _ _ _ _ _ _ _ Hm), Eb. done.
Qed.

(** ** Broadcasting *)

(** A queued directive of depth [v], made at frame [f]. *)
Record queued_from (m : Maker) (v f : Z) (d : Decision) (m' : Maker) : Prop := {
  qd_depth : dec_buffer d = Z.min v GAME_SYNC_SAFE_BUFFER_MAX;
  qd_frame : applied_frame d =
    saturating_add u32_max (saturating_add u32_max f (Z.max (buffer (buf m)) (dec_buffer d))) APPLY_HORIZON;
  qd_buffer : buffer (buf m') = dec_buffer d;
  qd_pending : pending_directive (buf m') =
    Some (mkBufferDirective (dec_buffer d) (applied_frame d) (wrap_u32 (decision_seq_at (buf m) + 1)) (own_relay_id (buf m)));
  qd_seq : decision_seq_at (buf m') = wrap_u32 (decision_seq_at (buf m) + 1);
  qd_decided : last_decision_frame (buf m') = Some f;
  qd_sent : initial_directive_sent (buf m') = true;
}.

Lemma broadcast_spec m v f :
  let r := broadcast m v f in
  (law r.2 = law m /\ bounds r.2 = bounds m /\ conns r.2 = conns m /\ lv r.2 = lv m /\ roster r.2 = roster m /\
   target_peaks (buf r.2) = target_peaks (buf m) /\ edge_burned (buf r.2) = edge_burned (buf m)) /\
  match r.1 with
  | Some d => queued_from m (default (buffer (buf m)) v) f d r.2
  | None => v = None /\ initial_directive_sent (buf m) = true /\ r.2 = m
  end.
Proof.
  unfold broadcast. destruct v as [v|]; [|destruct (initial_directive_sent (buf m)) eqn:E]; cbn [fst snd]; (split; [done|]); try done;
    split; done.
Qed.

Lemma broadcast_ok m v f obs :
  law_ok m obs -> (forall x, v = Some x -> 0 <= x) -> law_ok (broadcast m v f).2 obs.
Proof.
  intros Hok Hv. destruct (broadcast_spec m v f) as [(El & Eb & Ec & Ev & _ & Ep & _) H].
  apply (law_ok_buf m _ obs); try done; [rewrite Ep; apply Hok|]. destruct (broadcast m v f) as [[d|] m']; cbn [fst snd] in *.
  - rewrite (qd_buffer _ _ _ _ _ H), (qd_depth _ _ _ _ _ H). pose proof (la_buffer _ _ Hok). unfold GAME_SYNC_SAFE_BUFFER_MAX.
    destruct v as [x|]; cbn; [specialize (Hv x eq_refl)|]; lia.
  - destruct H as (_ & _ & ->). apply Hok.
Qed.

(** How [decide] came about. *)
Inductive decided_by (m : Maker) (obs : list (Z * Z)) (now : Z) : option Decision -> option Z -> Maker -> Prop :=
| by_lobby : session_frame m = None -> decided_by m obs now None None m
| by_default f : session_frame m = Some f -> target_inputs m = Some None ->
    decided_by m obs now (broadcast m None f).1 None (broadcast m None f).2
| by_law f i w asked b' :
    session_frame m = Some f -> 0 <= f -> target_inputs m = Some (Some i) ->
    let m1 := set_buf (set_phase_ctl m (stretch_turns (phase_ctl m) now).2) b' in
    let v := match asked with
      | Some v => if game_safe_clamp m v =? buffer (buf m) then None else Some (game_safe_clamp m v) | None => None end in
    peaks_ok (floor_span m) w (obs ++ [(f, law_target m i now)]) -> is_Some (head_start w) ->
    moved m (ready m w f) f (law_target m i now) (law_shrink_target m i now) asked b' ->
    law_ok m1 (obs ++ [(f, law_target m i now)]) ->
    decided_by m obs now (broadcast m1 v f).1 (Some (law_target m i now)) (broadcast m1 v f).2.

Lemma decide_spec m obs now :
  law_ok m obs -> exists d t m', decide_buffer m now = Some (d, t, m') /\ decided_by m obs now d t m' /\
    law_ok m' (obs ++ observed m' t) /\ conns m' = conns m.
Proof.
  intros Hok. pose proof (session_frame_ok m (la_slots _ _ Hok)) as Hf0. unfold decide_buffer.
  destruct (session_frame m) as [f|] eqn:Ef.
  2:{ exists None, None, m. split; [done|]. split; [by constructor|]. split; [|done]. unfold observed. by rewrite Ef, app_nil_r. }
  specialize (Hf0 f eq_refl). destruct (target_inputs_total m (la_slots _ _ Hok)) as (i & Ei & Hi). rewrite Ei. cbn [mbind option_bind].
  destruct i as [i|].
  - destruct (run_law_spec m obs i f now Hok (Hi i eq_refl) Hf0) as (w & asked & b' & E & Ht & Hw & Hst & Hm). rewrite E.
    cbn [mbind option_bind mret option_ret]. set (m1 := set_buf _ b') in *. set (v := match asked with Some _ => _ | None => _ end) in *.
    assert (Hok1 : law_ok m1 (obs ++ [(f, law_target m i now)])).
    { destruct (ready_fields m w f) as (Eb & _ & Ep & _).
      apply (law_ok_buf m _ obs); try done; cbn; [by rewrite (mv_peaks _ _ _ _ _ _ _ Hm), Ep|].
      rewrite (mv_buffer _ _ _ _ _ _ _ Hm), Eb. apply Hok. }
    eexists _, _, _. split; [reflexivity|]. split; [by eapply by_law|].
    destruct (broadcast_spec m1 v f) as [(_ & _ & Ec & _) _]. split; [|done].
    assert (Hob : observed (broadcast m1 v f).2 (Some (law_target m i now)) = [(f, law_target m i now)]).
    { unfold observed. assert (session_frame (broadcast m1 v f).2 = Some f) as ->; [|done].
      unfold session_frame in *. by rewrite Ec. }
    rewrite Hob. apply broadcast_ok; [done|]. intros x Hx. unfold v in Hx. destruct asked as [y|]; [|done].
    destruct (_ =? _); [done|]. injection Hx as <-. apply clamp_nonneg. apply Hok.
  - eexists _, _, _. split; [reflexivity|]. split; [by apply by_default|].
    destruct (broadcast_spec m None f) as [(_ & _ & Ec & _) _]. split; [|done].
    assert (observed (broadcast m None f).2 None = []) as -> by (unfold observed; by destruct (session_frame (broadcast m None f).2)).
    rewrite app_nil_r. by apply broadcast_ok.
Qed.

(** ** Every operation succeeds *)

Definition bounds_ok (b : BufferBounds) : Prop := 0 <= bmin b /\ 0 <= bmax b.

(** The widths of what arrives. *)
Definition law_op_ok (o : LawOp) : Prop :=
  match o with
  | LLocal cs => Forall conditions_ok cs
  | LRemote cs mesh => Forall conditions_ok cs /\ 0 <= mr_rtt_us mesh
  | LForwarded d => 0 <= buffer_turns d
  | LMaker op => maker_op_ok op /\ match op with ODescriptor b _ _ _ => bounds_ok b | _ => True end
  | _ => True
  end.

Lemma law_ok_tame m m' obs : law_ok m obs -> tame m m' -> maker_ok m' -> law_ok m' obs.
Proof.
  intros [_ Hs Hp Hb Hd] [El Ed _ Eb Hs'] Hm. split; [done|auto|..].
  - unfold floor_span. by rewrite El, Eb.
  - by rewrite Eb.
  - by rewrite Ed.
Qed.

(** The state [decide] runs on, when it runs. *)
Lemma ingest_slots_spec m cs mesh now obs :
  law_ok m obs -> Forall conditions_ok cs -> 0 <= mr_rtt_us mesh ->
  exists m1 d t m', ingest_slots m cs mesh now = Some (d, t, m') /\ tame m m1 /\ law_ok m1 obs /\
    law_ok m' (obs ++ observed m' t) /\ conns m' = conns m1 /\
    ((d = None /\ t = None /\ m' = m1 /\ (is_authority m1 = false \/ initial_directive_sent (buf m1) = true)) \/ is_authority m1 = true /\ decided_by m1 obs now d t m').
Proof.
  intros Hok Hcs Hm. destruct (ingest_each_ok cs mesh now m (la_slots _ _ Hok) (la_maker _ _ Hok) Hcs Hm) as (m1 & E & Ht & Hmk).
  pose proof (law_ok_tame _ _ _ Hok Ht Hmk) as Hok1. unfold ingest_slots. rewrite E. cbn [mbind option_bind].
  assert (Hnone : (is_authority m1 = false \/ initial_directive_sent (buf m1) = true) -> exists m2 d t m', Some (@None Decision, @None Z, m1) = Some (d, t, m') /\ tame m m2 /\ law_ok m2 obs /\
    law_ok m' (obs ++ observed m' t) /\ conns m' = conns m2 /\
    ((d = None /\ t = None /\ m' = m2 /\ (is_authority m2 = false \/ initial_directive_sent (buf m2) = true)) \/ is_authority m2 = true /\ decided_by m2 obs now d t m')).
  { intros Hwhy. exists m1, None, None, m1. split; [done|]. split; [done|]. split; [done|]. split; [|split; [done|by left]].
    unfold observed. destruct (session_frame m1); by rewrite app_nil_r. }
  destruct (is_authority m1) eqn:Ea; cbn [negb]; [|apply Hnone; by left].
  destruct (rollback_enabled m1 && initial_directive_sent (buf m1)) eqn:Er; [apply Hnone; right; by apply andb_true_iff in Er as [_ Er]|].
  destruct (decide_spec m1 obs now Hok1) as (d & t & m' & Ed & Hd & Hok' & Hc). exists m1, d, t, m'.
  split; [done|]. split; [done|]. split; [done|]. split; [done|]. split; [done|]. by right.
Qed.

(** The conditions of a step, as they reach [decide]. *)
Definition brings (o : Z * LawOp) (m m0 : Maker) (cs : list SlotConditions) (mesh : MeshRtt) : Prop :=
  (o.2 = LLocal cs /\ mesh = local_rtt /\ m0 = activate_local_epochs m cs o.1) \/ (o.2 = LRemote cs mesh /\ m0 = m).

Lemma ingest_step_spec m obs o m0 cs mesh :
  law_ok m obs -> law_op_ok o.2 -> brings o m m0 cs mesh ->
  exists m1 d t m', law_step m o = Some (d, mkLog (observed m' t) (authored d m'), m') /\ tame m m1 /\ law_ok m1 obs /\
    law_ok m' (obs ++ observed m' t) /\ conns m' = conns m1 /\
    ((d = None /\ t = None /\ m' = m1 /\ (is_authority m1 = false \/ initial_directive_sent (buf m1) = true)) \/ is_authority m1 = true /\ decided_by m1 obs o.1 d t m').
Proof.
  intros Hok Ho Hb. assert (Hcs : Forall conditions_ok cs /\ 0 <= mr_rtt_us mesh).
  { destruct Hb as [(E & -> & _)|(E & _)]; rewrite E in Ho; cbn in *; [|done]. split; [done|lia]. }
  assert (H0 : tame m m0 /\ law_ok m0 obs).
  { destruct Hb as [(_ & _ & ->)|(_ & ->)]; [|split; [apply tame_refl|done]].
    destruct (activate_local_ok cs o.1 m (la_maker _ _ Hok)) as [Ht Hmk]. split; [done|by eapply law_ok_tame]. }
  destruct H0 as [Ht0 Hok0].
  destruct (ingest_slots_spec m0 cs mesh o.1 obs Hok0 (proj1 Hcs) (proj2 Hcs)) as (m1 & d & t & m' & E & Ht & H).
  exists m1, d, t, m'. split; [|split; [by eapply tame_trans|exact H]].
  unfold law_step. destruct Hb as [(-> & Hm & Hmo)|(-> & Hmo)]; subst.
  - unfold ingest_local. by rewrite E.
  - unfold ingest_remote. by rewrite E.
Qed.

Lemma maybe_start_ok m obs now :
  law_ok m obs -> exists r, maybe_start m now = Some r /\ law_ok r.2 obs.
Proof.
  intros Hok. unfold maybe_start. destruct (_ || _); [by eexists|]. destruct (bool_decide _); [|by eexists].
  set (m1 := start_as_authority _). assert (Hok1 : law_ok m1 obs) by (apply (law_ok_buf m _ obs); try done; apply Hok).
  assert (Hd : exists d, compute_initial_depth m1 = Some d /\ 0 <= d).
  { unfold compute_initial_depth, target. destruct (target_inputs_total m1 (la_slots _ _ Hok1)) as (i & -> & _). cbn [mbind option_bind].
    assert (Ha : exists a, (if single_relay (buf m1) then all_expected_slots_have_rtt m1 else Some false) = Some a).
    { destruct (single_relay (buf m1)); [apply all_expected_total, Hok1|by eexists]. }
    destruct Ha as [a ->]. cbn [mbind option_bind mret option_ret]. eexists. split; [reflexivity|]. apply clamp_nonneg, Hok1. }
  destruct Hd as (d & -> & Hd). cbn. eexists. split; [reflexivity|]. apply (law_ok_buf m1 _ obs); try done. apply Hok1.
Qed.

Lemma law_step_ok m obs o :
  law_ok m obs -> law_op_ok o.2 -> exists d g m', law_step m o = Some (d, g, m') /\ law_ok m' (obs ++ peaks g).
Proof.
  intros Hok Ho. destruct o as [now op]. cbn [snd] in Ho.
  assert (Hplain : forall m', law_ok m' obs -> exists d g m'', Some (@None Decision, no_log, m') = Some (d, g, m'') /\ law_ok m'' (obs ++ peaks g)).
  { intros m' H. exists None, no_log, m'. split; [done|]. cbn. by rewrite app_nil_r. }
  destruct op; unfold law_step; cbn [fst snd].
  - destruct (ingest_step_spec m obs (now, LLocal cs) (activate_local_epochs m cs now) cs local_rtt Hok Ho) as (m1 & d & t & m' & E & _ & _ & Hok' & _);
      [by left|]. unfold law_step in E. cbn [fst snd] in E. by eexists _, _, _.
  - destruct (ingest_step_spec m obs (now, LRemote cs mesh) m cs mesh Hok Ho) as (m1 & d & t & m' & E & _ & _ & Hok' & _);
      [by right|]. unfold law_step in E. cbn [fst snd] in E. by eexists _, _, _.
  - exists None, (mkLog [] [d]), (observe_directive m d). split; [done|]. cbn. rewrite app_nil_r. unfold observe_directive.
    destruct (match _ ?= _ with Eq => _ | Lt => _ | Gt => _ end); [|done]. apply (law_ok_buf m _ obs); try done. apply Hok.
  - apply Hplain. unfold active_directive. destruct (pending_directive (buf m)); [|done]. destruct (match session_frame m with Some _ => _ | None => _ end); [|done].
    apply (law_ok_buf m _ obs); try done; apply Hok.
  - unfold note_slot_present. destruct (_ || _); [by apply Hplain|].
    destruct (maybe_start_ok (set_roster m (set_live (roster m) ({[slot]} ∪ live_slots (roster m)))) obs now) as (r & -> & Hr);
      [apply (law_ok_buf m _ obs); try done; apply Hok|]. by apply Hplain.
  - unfold reevaluate_start. destruct (maybe_start_ok m obs now Hok) as (r & -> & Hr). by apply Hplain.
  - apply Hplain. unfold adopt_session_start. destruct (started (roster m)); [apply (law_ok_buf m _ obs); try done; apply Hok|].
    destruct depth; apply (law_ok_buf m _ obs); try done; try apply Hok. apply clamp_nonneg. apply Hok.
  - apply Hplain. apply (law_ok_buf m _ obs); try done; apply Hok.
  - apply Hplain. unfold ingest_arrival_phase. destruct (_ || _); [done|]. apply (law_ok_buf m _ obs); try done; apply Hok.
  - apply Hplain. apply (law_ok_buf m _ obs); try done; apply Hok.
  - apply Hplain. apply (law_ok_buf m _ obs); try done; apply Hok.
  - apply Hplain. apply (law_ok_buf m _ obs); try done; apply Hok.
  - destruct Ho as [Ho Hbd]. destruct (maker_step_evolves m (now, o) (la_maker _ _ Hok)) as (n & m' & q & E & Hev & _). rewrite E.
    cbn [mbind option_bind mret option_ret snd]. eexists _, _, _. split; [reflexivity|]. cbn [peaks].
    destruct (maker_step_law m now o n m' Ho E) as (El & Hs & Hb & Hd).
    assert (Hok' : forall obs', buf m' = buf m \/ buf m' = drop_directive (buf m) -> obs' = [] -> law_ok m' (obs ++ obs')).
    { intros obs' Hbb ->. rewrite app_nil_r. split; [apply Hev|apply Hs, Hok| | |]; unfold floor_span; rewrite ?El;
        [destruct Hbb as [-> | ->]; apply Hok..|]. rewrite Hd. destruct o; try apply Hok. exact Hbd. }
    unfold seeded_peak. destruct (verdict_of o) as [a|]; [|apply Hok'; [by left|by destruct (authority m)]].
    unfold handed in Hb. destruct (authority m), a; try (injection Hb as Hb; apply Hok'; [|done]; (by left) || (by right)).
    + unfold promote_buffer in Hb. cbv zeta in Hb. destruct (session_frame m) as [f|] eqn:Ef.
      * destruct (peaks_observe (floor_span m) _ obs f (buffer (buf m)) (la_peaks _ _ Hok)) as (w & Ew & Hw & _);
          [by apply (session_frame_ok m (la_slots _ _ Hok))|apply Hok|]. unfold floor_span in Ew. rewrite Ew in Hb.
        cbn in Hb. injection Hb as Hb. split; [apply Hev|apply Hs, Hok| | |]; unfold floor_span; rewrite ?El, <- ?Hb;
          [exact Hw|apply Hok|]. rewrite Hd. destruct o; try apply Hok. exact Hbd.
      * cbn in Hb. injection Hb as Hb. rewrite app_nil_r. split; [apply Hev|apply Hs, Hok| | |]; unfold floor_span;
          rewrite ?El, <- ?Hb; [apply Hok..|]. rewrite Hd. destruct o; try apply Hok. exact Hbd.
Qed.

Lemma law_run_ok m obs ops :
  law_ok m obs -> Forall (fun o => law_op_ok o.2) ops -> exists g m', law_run m ops = Some (g, m') /\ law_ok m' (obs ++ peaks g).
Proof.
  intros Hok Hops. revert m obs Hok. induction Hops as [|o ops Ho Hops IH]; intros m obs Hok; cbn [law_run].
  { exists no_log, m. split; [done|]. cbn. by rewrite app_nil_r. }
  destruct (law_step_ok m obs o Hok Ho) as (d & g & m1 & -> & Hok1). cbn [mbind option_bind].
  destruct (IH m1 _ Hok1) as (g2 & m2 & -> & Hok2). cbn [mbind option_bind mret option_ret].
  eexists _, _. split; [reflexivity|]. cbn. by rewrite app_assoc.
Qed.

Lemma new_maker_law b l a fin rb : bounds_ok b -> law_ok (new_maker b l a fin rb) [].
Proof.
  intros Hb. split; [apply new_maker_ok| |apply peaks_start|apply Hb|exact Hb]. split; cbn; intros k x; by rewrite lookup_empty.
Qed.
