(* ===== verification/BufferSafety.v ===== *)
(** * What the buffer law guarantees

    Over every session: authored depths stay within what the game survives and
    reach every client; a raise is immediate and a shrink is paced and earned; a
    new authority re-affirms; relays follow the same winner as clients; the
    depth a session starts with is the same on every relay; and the rounding of
    the target never lets the raise and shrink tests overlap. *)

From Stdlib Require Import ZArith Lia.
From stdpp Require Import gmap sorting list.
From S2P Require Import Prelude.
From S2P Require Import BTree.
From S2P Require Import Wire.
From S2P Require Import F64.
From S2P Require Import Directive.
From S2P Require Import Presence.
From S2P Require Import Law.
From S2P Require Import SyncTurns.
From S2P Require Import Delivery.
From S2P Require Import Phase.
From S2P Require Import SyncTracker.
From S2P Require Import Seen.
From S2P Require Import Slot.
From S2P Require Import Maker.
From S2P Require Import Departure.
From S2P Require Import LeaveFinality.
From S2P Require Import Buffer.
From S2P Require Import BufferInv.
From S2P Require Import BufferLaw.

Open Scope Z_scope.

(** ** Numbers of directives *)

(** What a step does to the decision number: it forwards a stamp, authors one
    numbered one above, or leaves the number. *)
Inductive numbered (m : Maker) (o : LawOp) : option Decision -> list BufferDirective -> Maker -> Prop :=
| num_same m' : decision_seq_at (buf m') = decision_seq_at (buf m) -> numbered m o None [] m'
| num_forwarded d m' : o = LForwarded d -> decision_seq_at (buf m') = Z.max (decision_seq_at (buf m)) (decision_seq d) ->
    numbered m o None [d] m'
| num_authored x m' :
    0 <= dec_buffer x <= GAME_SYNC_SAFE_BUFFER_MAX -> decision_seq_at (buf m') = wrap_u32 (decision_seq_at (buf m) + 1) ->
    numbered m o (Some x) [mkBufferDirective (dec_buffer x) (applied_frame x) (wrap_u32 (decision_seq_at (buf m) + 1)) (own_relay_id (buf m))] m'.

Lemma decided_numbered m obs now o d t m' :
  law_ok m obs -> decided_by m obs now d t m' -> numbered m o d (authored d m') m'.
Proof.
  intros Hok Hd. assert (Hq : forall m1 v f x m2, queued_from m1 v f x m2 -> 0 <= v -> decision_seq_at (buf m1) = decision_seq_at (buf m) ->
    own_relay_id (buf m1) = own_relay_id (buf m) -> numbered m o (Some x) (authored (Some x) m2) m2).
  { intros m1 v f x m2 [H1 _ _ H3 H4 _ _] Hv Es Ei. unfold authored. rewrite H3, Es, Ei in *. cbn [to_list]. apply num_authored; [|done].
    rewrite H1. unfold GAME_SYNC_SAFE_BUFFER_MAX. lia. }
  destruct Hd as [Hn|f Hf Hi|f i w asked b' Hf H0 Hi m1 v Hw Hst Hm Hok1].
  - by apply num_same.
  - destruct (broadcast_spec m None f) as [_ H]. destruct (broadcast m None f) as [[x|] m2]; cbn [fst snd] in *.
    + eapply (Hq m); [exact H|apply Hok|done|done].
    + destruct H as (_ & _ & ->). by apply num_same.
  - assert (Es : decision_seq_at (buf m1) = decision_seq_at (buf m)).
    { cbn. rewrite (mv_seq _ _ _ _ _ _ _ Hm). apply ready_fields. }
    destruct (broadcast_spec m1 v f) as [_ H]. destruct (broadcast m1 v f) as [[x|] m2]; cbn [fst snd] in *.
    + eapply (Hq m1); [exact H| |done|].
      * unfold v. destruct asked as [y|]; cbn [default]; [|apply Hok1]. destruct (_ =? _); cbn [default]; [apply Hok1|].
        apply clamp_nonneg. apply Hok.
      * cbn. rewrite (mv_id _ _ _ _ _ _ _ Hm). apply ready_fields.
    + destruct H as (_ & _ & ->). by apply num_same.
Qed.

Lemma set_initial_seq m b v : decision_seq_at (buf (set_buf m (set_initial b v))) = decision_seq_at b.
Proof. done. Qed.

Lemma maybe_start_seq m now r : maybe_start m now = Some r -> decision_seq_at (buf r.2) = decision_seq_at (buf m).
Proof.
  unfold maybe_start. destruct (_ || _); [by intros [= <-]|]. destruct (bool_decide _); [|by intros [= <-]].
  destruct (compute_initial_depth _); [|done]. by intros [= <-].
Qed.

Lemma handed_seq m a b : handed m a = Some b -> decision_seq_at b = decision_seq_at (buf m).
Proof.
  unfold handed. destruct (authority m), a; try (by intros [= <-]). unfold promote_buffer. cbv zeta.
  destruct (match session_frame m with Some _ => _ | None => _ end); [|done]. by intros [= <-].
Qed.

Lemma law_step_numbered m obs o d g m' :
  law_ok m obs -> law_op_ok o.2 -> law_step m o = Some (d, g, m') -> numbered m o.2 d (stamps g) m'.
Proof.
  intros Hok Ho E. destruct o as [now op]. cbn [snd] in *.
  assert (Hing : forall m0 cs mesh, brings (now, op) m m0 cs mesh -> numbered m op d (stamps g) m').
  { intros m0 cs mesh Hb. destruct (ingest_step_spec m obs (now, op) m0 cs mesh Hok Ho Hb) as (m1 & d1 & t & m2 & E1 & Ht & Hok1 & _ & _ & Hc).
    rewrite E1 in E. injection E as <- <- <-. cbn [stamps]. assert (Eb : buf m1 = buf m) by apply Ht.
    destruct Hc as [(-> & _ & -> & _)|(_ & Hd)]; [apply num_same; by rewrite Eb|].
    destruct (decided_numbered m1 obs now op d1 t m2 Hok1 Hd) as [m3 Hs|x m3 -> Hs|x m3 Hx Hs].
    - apply num_same. by rewrite Hs, Eb.
    - apply num_forwarded; [done|]. by rewrite Hs, Eb.
    - rewrite Eb in *. by apply num_authored. }
  destruct op; try (by eapply Hing; left); try (by eapply Hing; right); unfold law_step in E; cbn [fst snd] in E.
  - injection E as <- <- <-. apply num_forwarded; [done|]. unfold observe_directive. cbn [stamps].
    destruct (Z.compare_spec (decision_seq d0) (decision_seq_at (buf m))) as [He|He|He]; cbn; [|lia..].
    destruct (id_gt _ _); cbn; lia.
  - injection E as <- <- <-. apply num_same. unfold active_directive. destruct (pending_directive (buf m)); [|done].
    by destruct (match session_frame m with Some _ => _ | None => _ end).
  - unfold note_slot_present in E. destruct (_ || _); [injection E as <- <- <-; by apply num_same|].
    destruct (maybe_start _ now) as [r|] eqn:Es; [|done]. injection E as <- <- <-. apply num_same. by rewrite (maybe_start_seq _ _ _ Es).
  - unfold reevaluate_start in E. destruct (maybe_start m now) as [r|] eqn:Es; [|done]. injection E as <- <- <-. apply num_same.
    by rewrite (maybe_start_seq _ _ _ Es).
  - injection E as <- <- <-. apply num_same. unfold adopt_session_start. destruct (started (roster m)); [done|]. by destruct depth.
  - injection E as <- <- <-. by apply num_same.
  - injection E as <- <- <-. apply num_same. unfold ingest_arrival_phase. by destruct (_ || _).
  - injection E as <- <- <-. by apply num_same.
  - injection E as <- <- <-. by apply num_same.
  - injection E as <- <- <-. by apply num_same.
  - destruct (maker_step m (now, o)) as [[n m1]|] eqn:Es; [|done]. injection E as <- <- <-. apply num_same.
    destruct (maker_step_law m now o n m1 (proj1 Ho) Es) as (_ & _ & Hb & _). cbn [snd]. destruct (verdict_of o); [by eapply handed_seq|by rewrite Hb].
Qed.

(** ** Numbers over a session *)

(** The numbers seen so far are at most the relay's, which is at most [n]. *)
Definition seqs_ok (n : Z) (m : Maker) (known : list BufferDirective) : Prop :=
  0 <= decision_seq_at (buf m) <= n /\ forall d, d ∈ known -> decision_seq d <= decision_seq_at (buf m).

Lemma wrap_small x : 0 <= x < 2 ^ 32 -> wrap_u32 x = x.
Proof. intros. unfold wrap_u32. by apply Z.mod_small. Qed.

Definition forwards_below (n : Z) (o : LawOp) : Prop :=
  match o with LForwarded d => 0 <= decision_seq d <= n | _ => True end.

Lemma seqs_step n m o d g m' known :
  numbered m o d (stamps g) m' -> seqs_ok n m known -> n < u32_max -> forwards_below n o -> seqs_ok (n + 1) m' (known ++ stamps g).
Proof.
  intros Hnum [Hr Hk] Hn Hf. assert (Hall : forall l, decision_seq_at (buf m) <= decision_seq_at (buf m') ->
    (forall x, x ∈ l -> decision_seq x <= decision_seq_at (buf m')) -> forall x, x ∈ known ++ l -> decision_seq x <= decision_seq_at (buf m')).
  { intros l Hle Hl x [Hx|Hx]%elem_of_app; [|by apply Hl]. pose proof (Hk x Hx). lia. }
  destruct Hnum as [m' Es|x m' -> Es|x m' Hx Es]; cbn [forwards_below] in *.
  - split; [lia|]. apply Hall; [lia|]. intros y []%elem_of_nil.
  - split; [lia|]. apply Hall; [lia|]. intros y ->%list_elem_of_singleton. lia.
  - rewrite wrap_small in Es by (unfold u32_max in *; lia). split; [lia|]. apply Hall; [lia|].
    intros y ->%list_elem_of_singleton. cbn. rewrite wrap_small by (unfold u32_max in *; lia). lia.
Qed.

Lemma seqs_run n ops : forall m obs g m' known,
  law_ok m obs -> Forall (fun o => law_op_ok o.2 /\ forwards_below n o.2) ops -> law_run m ops = Some (g, m') ->
  seqs_ok n m known -> n + Z.of_nat (length ops) <= u32_max -> seqs_ok (n + Z.of_nat (length ops)) m' (known ++ stamps g).
Proof.
  intros m obs g m' known Hok Hops. revert n Hops m obs g m' known Hok.
  induction ops as [|o ops IH]; intros n Hops m obs g m' known Hok E Hs Hn; cbn [law_run length] in *.
  { injection E as <- <-. cbn. by rewrite app_nil_r, Z.add_0_r. }
  apply Forall_cons in Hops as [[Ho Hf] Hops].
  destruct (law_step_ok m obs o Hok Ho) as (d & g1 & m1 & E1 & Hok1). rewrite E1 in E. cbn [mbind option_bind] in E.
  destruct (law_run m1 ops) as [[g2 m2]|] eqn:E2; [|done]. injection E as <- <-. cbn [stamps log_app].
  pose proof (seqs_step n m o.2 d g1 m1 known (law_step_numbered m obs o d g1 m1 Hok Ho E1) Hs ltac:(lia) Hf) as Hs1.
  rewrite app_assoc. replace (n + Z.of_nat (S (length ops))) with (n + 1 + Z.of_nat (length ops)) by lia.
  eapply (IH (n + 1)); [|exact Hok1|exact E2|exact Hs1|lia].
  eapply Forall_impl; [exact Hops|]. intros x [Hx1 Hx2]. split; [done|]. destruct x.2; cbn in *; try done. lia.
Qed.

(** ** Steps on which the law ran *)

Definition plain (o : LawOp) : Prop := match o with LMaker _ => False | _ => True end.

(** The law ran on [m1], the state with the step's conditions taken in, observed
    the target [t] at frame [f], and asked for [asked]. *)
Record law_ran (m m1 : Maker) (obs : list (Z * Z)) (now f t : Z) (d : option Decision) (m' : Maker) (asked : option Z)
    (w : BucketedMax) (shrink_target : Z) : Prop := {
  lr_tame : tame m m1;
  lr_ok : law_ok m1 obs;
  lr_frame : session_frame m1 = Some f;
  lr_peaks : peaks_ok (floor_span m1) w (obs ++ [(f, t)]);
  lr_started : is_Some (head_start w);
  lr_moved : exists b', moved m1 (ready m1 w f) f t shrink_target asked b' /\
    let m2 := set_buf (set_phase_ctl m1 (stretch_turns (phase_ctl m1) now).2) b' in
    let v := match asked with
      | Some v => if game_safe_clamp m1 v =? buffer (buf m1) then None else Some (game_safe_clamp m1 v) | None => None end in
    d = (broadcast m2 v f).1 /\ m' = (broadcast m2 v f).2;
}.

Lemma step_law_ran m obs o d g m' f t :
  law_ok m obs -> law_op_ok o.2 -> plain o.2 -> law_step m o = Some (d, g, m') -> peaks g = [(f, t)] ->
  exists m1 asked w st, law_ran m m1 obs o.1 f t d m' asked w st.
Proof.
  intros Hok Ho Hp E Hg. destruct o as [now op]. cbn [fst snd] in *.
  assert (Hing : forall m0 cs mesh, brings (now, op) m m0 cs mesh -> exists m1 asked w st, law_ran m m1 obs now f t d m' asked w st).
  { intros m0 cs mesh Hb. destruct (ingest_step_spec m obs (now, op) m0 cs mesh Hok Ho Hb) as (m1 & d1 & t1 & m2 & E1 & Ht & Hok1 & _ & Hc & Hd).
    rewrite E1 in E. injection E as <- <- <-. cbn [peaks] in Hg. destruct Hd as [(_ & -> & _)|(_ & Hd)].
    { unfold observed in Hg. by destruct (session_frame m2). }
    assert (Hf : session_frame m2 = session_frame m1) by (unfold session_frame; by rewrite Hc).
    unfold observed in Hg. rewrite Hf in Hg. destruct Hd as [Hn|f' Hf' Hi|f' i w asked b' Hf' H0 Hi m3 v Hw Hst Hm Hok3].
    - by rewrite Hn in Hg.
    - by rewrite Hf' in Hg.
    - rewrite Hf' in Hg. injection Hg as <- <-. exists m1, asked, w, (law_shrink_target m1 i now). split; try done. by exists b'. }
  destruct op; try done; try (by eapply Hing; left); try (by eapply Hing; right); exfalso; unfold law_step in E; cbn [fst snd] in E;
    try (by injection E as <- <- <-).
  - unfold note_slot_present in E. destruct (_ || _); [by injection E as <- <- <-|]. destruct (maybe_start _ now); [|done]. by injection E as <- <- <-.
  - unfold reevaluate_start in E. destruct (maybe_start _ now); [|done]. by injection E as <- <- <-.
Qed.

(** What an allowed shrink has been checked against. *)
Lemma shrink_allowed_spec span b low obs :
  peaks_ok span (target_peaks b) obs -> is_Some (head_start (target_peaks b)) -> shrink_allowed b low = Some true ->
  (forall e v, (e, v) ∈ obs -> latest obs - 7 * Z.max span 1 <= e -> v <= low) /\
  (edge_burned b = true ->
     (forall e v, (e, v) ∈ obs -> latest obs - 7 * Z.max span 1 <= e -> v < low) \/
     (forall e v, (e, v) ∈ obs -> latest obs - 31 * Z.max span 1 <= e -> v <= low)).
Proof.
  intros Hp Hst Ha. unfold shrink_allowed in Ha.
  assert (Hbase : forall e v, (e, v) ∈ obs -> latest obs - 7 * Z.max span 1 <= e ->
    exists x, max_over_last TARGET_FLOOR_BUCKETS (target_peaks b) TARGET_FLOOR_BASE_BUCKETS = Some x /\ v <= x).
  { intros e v Hin He. apply (peaks_floor span _ obs _ e); try done; unfold TARGET_FLOOR_BASE_BUCKETS, TARGET_FLOOR_BUCKETS; lia. }
  assert (Hfull : forall e v, (e, v) ∈ obs -> latest obs - 31 * Z.max span 1 <= e ->
    exists x, max_over_last TARGET_FLOOR_BUCKETS (target_peaks b) EDGE_PROBATION_BUCKETS = Some x /\ v <= x).
  { intros e v Hin He. apply (peaks_floor span _ obs _ e); try done; unfold EDGE_PROBATION_BUCKETS, TARGET_FLOOR_BUCKETS; lia. }
  destruct (max_over_last _ _ TARGET_FLOOR_BASE_BUCKETS) as [base|] eqn:Eb; [|done]. cbn [mbind option_bind] in Ha.
  destruct (Z.eqb_spec low base) as [->|Hne].
  - split; [intros e v Hin He; by destruct (Hbase e v Hin He) as (x & [= <-] & Hx)|]. intros Hburn. right. intros e v Hin He.
    rewrite Hburn in Ha. destruct (Hfull e v Hin He) as (x & Ex & Hx). rewrite Ex in Ha. cbn in Ha.
    injection Ha as Hle%Z.leb_le. lia.
  - injection Ha as Hle%Z.leb_le. assert (Hlt : forall e v, (e, v) ∈ obs -> latest obs - 7 * Z.max span 1 <= e -> v < low).
    { intros e v Hin He. destruct (Hbase e v Hin He) as (x & [= <-] & Hx). lia. }
    split; [intros e v Hin He; pose proof (Hlt e v Hin He); lia|]. intros _. by left.
Qed.

Lemma clamp_bounds m m' v : bounds m' = bounds m -> game_safe_clamp m' v = game_safe_clamp m v.
Proof. unfold game_safe_clamp. by intros ->. Qed.

(** The size and the directive a run of the law leaves, from what it asked. *)
Lemma law_ran_result m m1 obs now f t d m' asked w st :
  law_ran m m1 obs now f t d m' asked w st ->
  bounds m' = bounds m1 /\ law m' = law m1 /\ conns m' = conns m1 /\ lv m' = lv m1 /\ roster m' = roster m1 /\ buf m1 = buf m /\
  match asked with
  | Some v =>
      buffer (buf m') = game_safe_clamp m1 v /\ (forall x, d = Some x -> dec_buffer x = game_safe_clamp m1 v) /\
      (game_safe_clamp m1 v <> buffer (buf m) -> exists x, d = Some x /\ dec_buffer x = game_safe_clamp m1 v /\
        applied_frame x = saturating_add u32_max (saturating_add u32_max f (Z.max (buffer (buf m)) (dec_buffer x))) APPLY_HORIZON)
  | None => forall x, d = Some x -> dec_buffer x = Z.min (buffer (buf m)) GAME_SYNC_SAFE_BUFFER_MAX
  end.
Proof.
  intros [Ht _ _ _ _ (b' & Hm & Hd & Hm')]. assert (Eb : buf m1 = buf m) by apply Ht. rewrite Eb in *.
  set (m2 := set_buf _ b') in *. set (v := match asked with Some _ => _ | None => _ end) in *.
  assert (E2 : buffer (buf m2) = buffer (buf m)).
  { cbn. rewrite (mv_buffer _ _ _ _ _ _ _ Hm). destruct (ready_fields m1 w f) as (-> & _). by rewrite Eb. }
  destruct (broadcast_spec m2 v f) as [(El & Ebd & Ec & Ev & Er & _ & _) H]. rewrite <- Hm', <- Hd in *.
  repeat (split; [done|]). subst v. destruct asked as [v|].
  - assert (Hcap : game_safe_clamp m1 v <= GAME_SYNC_SAFE_BUFFER_MAX) by (unfold game_safe_clamp; lia).
    destruct (Z.eqb_spec (game_safe_clamp m1 v) (buffer (buf m))) as [He|Hne]; destruct d as [x|]; cbn [default] in H.
    + assert (Hx : dec_buffer x = game_safe_clamp m1 v) by (rewrite (qd_depth _ _ _ _ _ H), E2, <- He; by apply Z.min_l).
      split; [by rewrite (qd_buffer _ _ _ _ _ H)|]. split; [by intros y [= <-]|done].
    + destruct H as (_ & _ & ->). split; [by rewrite E2|]. split; done.
    + split; [rewrite (qd_buffer _ _ _ _ _ H), (qd_depth _ _ _ _ _ H); by apply Z.min_l|].
      split; [intros y [= <-]; rewrite (qd_depth _ _ _ _ _ H); by apply Z.min_l|]. intros _. exists x. split; [done|].
      split; [rewrite (qd_depth _ _ _ _ _ H); by apply Z.min_l|]. by rewrite (qd_frame _ _ _ _ _ H), E2.
    + by destruct H.
  - intros x ->. cbn [default] in H. by rewrite (qd_depth _ _ _ _ _ H), E2.
Qed.

(** ** Theorems *)

Section theorems.
Context (b : BufferBounds) (l : ControlLaw) (a : Authority) (fin rb : bool).
Local Abbreviation start := (new_maker b l a fin rb).

Lemma reached ops g m : bounds_ok b -> Forall (fun o => law_op_ok o.2) ops -> law_run start ops = Some (g, m) -> law_ok m (peaks g).
Proof.
  intros Hb Hops E. destruct (law_run_ok start [] ops (new_maker_law b l a fin rb Hb) Hops) as (g' & m' & E' & Hok).
  rewrite E in E'. by injection E' as <- <-.
Qed.

(** C4 Every directive a relay authors is within the depth the game survives, and
    every client adopts it, whatever stamps the relay knows of that client has
    taken in, in any order: a handed-over authority numbers above all of
    them. *)
Theorem authored_directives_reach (ops : list (Z * LawOp)) (o : Z * LawOp) (n : Z) (g g' : Log) (m m' : Maker) (x : Decision) :
  bounds_ok b -> Forall (fun o => law_op_ok o.2 /\ forwards_below n o.2) (ops ++ [o]) ->
  0 <= n -> n + Z.of_nat (length ops) < u32_max ->
  law_run start ops = Some (g, m) -> law_step m o = Some (Some x, g', m') ->
  exists d, stamps g' = [d] /\ buffer_turns d = dec_buffer x /\ apply_at_frame d = applied_frame x /\
    0 <= buffer_turns d <= GAME_SYNC_SAFE_BUFFER_MAX /\
    forall seen_by_client next_frame, Forall (fun y => y.1 ∈ stamps g) seen_by_client ->
      Directive.observe (Directive.observe_all new_tracker seen_by_client) d next_frame = won d next_frame.
Proof.
  intros Hb Hops Hn Hlen E Es. apply Forall_app in Hops as [Hops [Ho _]%Forall_cons].
  assert (Hok : law_ok m (peaks g)) by (eapply reached; [done| |exact E]; eapply Forall_impl; [exact Hops|by intros ? []]).
  assert (Hseq : seqs_ok (n + Z.of_nat (length ops)) m (stamps g)).
  { eapply (seqs_run n ops start [] g m []); [by apply new_maker_law|done|done| |lia]. split; [cbn; lia|]. intros y []%elem_of_nil. }
  destruct Hseq as [Hr Hk]. pose proof (law_step_numbered m _ o _ _ _ Hok (proj1 Ho) Es) as Hnum. inversion Hnum as [| |? ? Hx Hs He1 He2 He3]. subst.
  eexists. split; [reflexivity|]. cbn. split; [done|]. split; [done|]. split; [done|]. intros l0 nf Hl0.
  rewrite wrap_small by (unfold u32_max in *; lia).
  assert (Hhigh : highest_seq (Directive.observe_all new_tracker l0) <= decision_seq_at (buf m)).
  { assert (Hgen : forall t, highest_seq t <= decision_seq_at (buf m) -> highest_seq (Directive.observe_all t l0) <= decision_seq_at (buf m)).
    { clear -Hl0 Hk. unfold Directive.observe_all. induction Hl0 as [|y ys Hy Hys IH]; intros t Ht; cbn [foldl]; [done|]. apply IH.
      unfold Directive.observe. pose proof (Hk _ Hy). destruct (_ ?= _); [destruct (option_le _ _)|..]; cbn; lia. }
    apply Hgen. cbn. lia. }
  unfold Directive.observe at 1. cbn [decision_seq authority_relay_id].
  destruct (Z.compare_spec (decision_seq_at (buf m) + 1) (highest_seq (Directive.observe_all new_tracker l0))); [lia|lia|done].
Qed.

(** A raise is immediate: whenever a sample puts the law's target above the
    buffer, that very step leaves the buffer at the clamped target, and if the
    size changed the directive for it is on its way. *)
Theorem raise_is_immediate (ops : list (Z * LawOp)) (o : Z * LawOp) (g g' : Log) (m m' : Maker) (d : option Decision) (f t : Z) :
  bounds_ok b -> Forall (fun o => law_op_ok o.2) (ops ++ [o]) ->
  law_run start ops = Some (g, m) -> law_step m o = Some (d, g', m') ->
  match o.2 with LMaker _ => False | _ => True end -> peaks g' = [(f, t)] -> buffer (buf m) < t ->
  buffer (buf m') = game_safe_clamp m' t /\
  (buffer (buf m') <> buffer (buf m) -> exists x, d = Some x /\ dec_buffer x = game_safe_clamp m' t /\
     applied_frame x = saturating_add u32_max (saturating_add u32_max f (Z.max (buffer (buf m)) (dec_buffer x))) APPLY_HORIZON).
Proof.
  intros Hb Hops E Es Hp Hg Ht. apply Forall_app in Hops as [Hops [Ho _]%Forall_cons].
  destruct (step_law_ran m _ o d g' m' f t (reached ops g m Hb Hops E) Ho Hp Es Hg) as (m1 & asked & w & st & Hr).
  destruct (law_ran_result _ _ _ _ _ _ _ _ _ _ _ Hr) as (Ebd & _ & _ & _ & _ & Eb & Hres).
  destruct (lr_moved _ _ _ _ _ _ _ _ _ _ _ Hr) as (b' & Hm & _).
  assert (asked = Some t) as ->.
  { apply (mv_raise _ _ _ _ _ _ _ Hm). destruct (ready_fields m1 w f) as (-> & _). by rewrite Eb. }
  rewrite (clamp_bounds m1 m' t Ebd). destruct Hres as (Hbuf & _ & Hdec). split; [done|]. rewrite Hbuf. exact Hdec.
Qed.


(** C26 No operation of a session fails: whatever arrives, in whatever order, every
    window access is in range, every slot's measurements stay well formed and
    the buffer stays unsigned. *)
Theorem sessions_never_fail (ops : list (Z * LawOp)) :
  bounds_ok b -> Forall (fun o => law_op_ok o.2) ops ->
  exists g m, law_run start ops = Some (g, m) /\ slots_ok m /\ maker_ok m /\ 0 <= buffer (buf m) /\
    peaks_ok (target_floor_bucket_span (law m)) (target_peaks (buf m)) (peaks g).
Proof.
  intros Hb Hops. destruct (law_run_ok start [] ops (new_maker_law b l a fin rb Hb) Hops) as (g & m & E & Hok).
  exists g, m. split; [done|]. split; [apply Hok|]. split; [apply Hok|]. split; [apply Hok|]. apply (la_peaks _ _ Hok).
Qed.

(** A new authority re-affirms: after gaining the authority, the first sample
    taken in once a framed turn is known queues a directive, whatever the law
    makes of it, so no client keeps a depth it was seeded with. *)
Theorem authority_reaffirms (ops : list (Z * LawOp)) (now now' : Z) (held : gset Z) (cs : list SlotConditions) (mesh : MeshRtt)
    (g : Log) (m : Maker) :
  bounds_ok b -> Forall (fun o => law_op_ok o.2) ops -> Forall conditions_ok cs -> 0 <= mr_rtt_us mesh ->
  law_run start ops = Some (g, m) -> authority m = AuthPeer ->
  exists g1 m1, law_step m (now, LMaker (OAuthority AuthSelf held)) = Some (None, g1, m1) /\
  exists d g2 m2, law_step m1 (now', LRemote cs mesh) = Some (d, g2, m2) /\
    (is_Some (session_frame m2) -> exists x, d = Some x /\ buffer (buf m2) = dec_buffer x /\
       initial_directive_sent (buf m2) = true /\ pending_directive (buf m2) <> None).
Proof.
  intros Hb Hops Hcs Hmesh E Ha. pose proof (reached ops g m Hb Hops E) as Hok.
  destruct (law_step_ok m (peaks g) (now, LMaker (OAuthority AuthSelf held)) Hok) as (d1 & g1 & m1 & E1 & Hok1); [by split|].
  assert (Hd1 : d1 = None /\ initial_directive_sent (buf m1) = false /\ authority m1 = AuthSelf).
  { unfold law_step in E1. cbn [fst snd maker_step] in E1. destruct (set_authority m AuthSelf held now) as [[[all fresh] mx]|] eqn:Es; [|done].
    cbn in E1. injection E1 as <- _ <-. destruct (set_authority_law m AuthSelf held now all fresh mx Es) as (_ & Hh & _).
    split; [done|]. split; [|by eapply set_authority_verdict]. unfold handed in Hh. rewrite Ha in Hh. unfold promote_buffer in Hh. cbv zeta in Hh.
    destruct (match session_frame m with Some _ => _ | None => _ end); [|done]. by injection Hh as <-. }
  destruct Hd1 as (-> & Hs1 & Ha1). exists g1, m1. split; [done|].
  destruct (ingest_step_spec m1 _ (now', LRemote cs mesh) m1 cs mesh Hok1) as (m3 & d & t & m2 & E2 & Ht & Hok3 & _ & Hc & Hd);
    [by split|by right|]. eexists d, _, m2. split; [exact E2|]. intros [f Hf].
  assert (Hf3 : session_frame m3 = Some f) by (unfold session_frame in *; by rewrite <- Hc).
  assert (Hs3 : initial_directive_sent (buf m3) = false) by (by rewrite (tm_buf _ _ Ht)).
  destruct Hd as [(-> & -> & -> & [Hw|Hw])|(_ & Hd)]; [unfold is_authority in Hw; by rewrite (tm_authority _ _ Ht), Ha1 in Hw|by rewrite Hw in Hs3|].
  assert (Hq : forall mx v f' r, initial_directive_sent (buf mx) = false -> broadcast mx v f' = r ->
    exists x, r.1 = Some x /\ buffer (buf r.2) = dec_buffer x /\ initial_directive_sent (buf r.2) = true /\ pending_directive (buf r.2) <> None).
  { intros mx v f' r Hi <-. destruct (broadcast_spec mx v f') as [_ H]. destruct (broadcast mx v f').1 as [x|]; [|destruct H as (_ & H & _); by rewrite H in Hi].
    exists x. split; [done|]. split; [by apply H|]. split; [by apply H|]. by rewrite (qd_pending _ _ _ _ _ H). }
  destruct Hd as [Hn|f' Hf' Hi|f' i w asked b' Hf' H0 Hi mx v Hw Hst Hm Hokx]; [congruence|by eapply Hq|].
  eapply Hq; [|reflexivity]. cbn. rewrite (mv_sent _ _ _ _ _ _ _ Hm). destruct (ready_fields m3 w f') as (_ & _ & _ & -> & _). done.
Qed.

End theorems.

(** ** Relays and clients pick the same winner *)

(** The relay's number and tie-break are the client's. *)
Definition tracks (m : Maker) (t : DirectiveTracker) : Prop :=
  decision_seq_at (buf m) = highest_seq t /\ decision_seq_tiebreak (buf m) = highest_seq_tiebreak t /\
  forall d, Directive.pending t = Some d -> buffer (buf m) = buffer_turns d.

Lemma id_gt_option_le x y : id_gt x y = negb (option_le x y).
Proof. destruct x as [x|], y as [y|]; cbn; try done. destruct (Z.ltb_spec y x), (Z.leb_spec x y); try done; lia. Qed.

Lemma observe_tracks m t d f : tracks m t -> tracks (observe_directive m d) (Directive.observe t d f).
Proof.
  intros (Hs & Ht & Hp). unfold observe_directive, Directive.observe. rewrite Hs, Ht, id_gt_option_le.
  assert (Hnew : tracks (set_buf m (mkBufferState (buffer_turns d) (last_decision_frame (buf m)) (target_peaks (buf m)) (last_shrink (buf m))
      (edge_burned (buf m)) (last_burn_frame (buf m)) (decision_seq d) (authority_relay_id d) (pending_directive (buf m))
      (initial_directive_sent (buf m)) (last_trace_frame (buf m)) (own_relay_id (buf m)) (initial_buffer_turns (buf m))
      (latency_hint_ms (buf m)) (single_relay (buf m))))
    (mkDirectiveTracker (decision_seq d) (authority_relay_id d) (if f <=? apply_at_frame d then Some d else None))).
  { split; [done|]. split; [done|]. cbn. intros d'. destruct (f <=? apply_at_frame d); [by intros [= <-]|done]. }
  destruct (_ ?= _); [destruct (option_le _ _)|..]; cbn [negb]; try done; by split.
Qed.

(** A relay that forwards stamps follows the session as a client does: after
    any stamps in any order, its number and tie-break are those of a client
    that saw the same stamps, at whatever frames, and the depth it would
    continue from is the one the client is about to apply. *)
Theorem relay_follows_clients (b : BufferBounds) (l : ControlLaw) (a : Authority) (fin rb : bool) (seen_stamps : list (BufferDirective * Z)) :
  tracks (foldl (fun m x => observe_directive m x.1) (new_maker b l a fin rb) seen_stamps)
    (Directive.observe_all new_tracker seen_stamps).
Proof.
  assert (H : forall m t, tracks m t -> tracks (foldl (fun m x => observe_directive m x.1) m seen_stamps) (Directive.observe_all t seen_stamps)).
  { unfold Directive.observe_all. induction seen_stamps as [|x xs IH]; intros m t Ht; cbn [foldl]; [done|]. apply IH. by apply observe_tracks. }
  by apply H.
Qed.

(** ** The depth a session starts with *)

Lemma clamp_idem m v : game_safe_clamp m (game_safe_clamp m v) = game_safe_clamp m v.
Proof.
  unfold game_safe_clamp, clamp, GAME_SYNC_SAFE_BUFFER_MAX. destruct (Z.leb_spec (bmin (bounds m)) (bmax (bounds m))); lia.
Qed.

(** The authority starts a session at most once, exactly when it knows every
    expected slot present, at a depth within the ceiling; every relay with the
    same bounds that adopts the start runs the identical depth, and one that
    started itself keeps its own. *)
Theorem start_depth_agrees (m m1 : Maker) (now : Z) (fired : bool) :
  maybe_start m now = Some (fired, m1) -> started (roster m) = false ->
  (fired = true <-> is_authority m = true /\ expected_slots (roster m) <> ∅ /\ expected_slots (roster m) ⊆ live_slots (roster m)) /\
  (fired = false -> m1 = m) /\
  (fired = true -> exists d, initial_buffer_turns (buf m1) = Some d /\ buffer (buf m1) = d /\ d <= GAME_SYNC_SAFE_BUFFER_MAX /\
     (forall now', maybe_start m1 now' = Some (false, m1)) /\
     (forall peer now', bounds peer = bounds m -> started (roster peer) = false ->
        buffer (buf (adopt_session_start peer (Some d) now')) = d /\ initial_buffer_turns (buf (adopt_session_start peer (Some d) now')) = Some d) /\
     (forall other now', buffer (buf (adopt_session_start m1 other now')) = d)).
Proof.
  intros E Hs. unfold maybe_start in E. rewrite Hs in E. cbn [orb] in E. destruct (is_authority m) eqn:Ea; cbn [negb orb] in E.
  2:{ injection E as <- <-. split; [split; [done|by intros [? _]]|]. done. }
  case_bool_decide as He; [injection E as <- <-; split; [split; [done|by intros (_ & ? & _)]|]; done|].
  case_bool_decide as Hc; [|injection E as <- <-; split; [split; [done|by intros (_ & _ & ?)]|]; done].
  set (m2 := start_as_authority (mark_started m now)) in *.
  destruct (compute_initial_depth m2) as [d|] eqn:Ed; [|done]. cbn in E. injection E as <- <-. split; [done|]. split; [done|]. intros _.
  assert (Hd : exists v, d = game_safe_clamp m2 v).
  { unfold compute_initial_depth in Ed. destruct (target m2); [|done]. cbn [mbind option_bind] in Ed.
    destruct (if single_relay (buf m2) then all_expected_slots_have_rtt m2 else Some false); [|done]. cbn [mbind option_bind mret option_ret] in Ed. injection Ed as <-. by eexists. }
  destruct Hd as [v Hv]. exists d. split; [done|]. split; [done|]. split; [rewrite Hv; unfold game_safe_clamp; lia|].
  split; [done|]. split; [|by intros []]. intros peer now' Hb Hsp. unfold adopt_session_start. rewrite Hsp. cbn.
  assert (Hcl : game_safe_clamp (mark_started peer now') d = d); [|by rewrite Hcl].
  rewrite (clamp_bounds m2) by (cbn; by rewrite Hb). rewrite Hv. apply clamp_idem.
Qed.

(** ** The target formula *)

(** The positive effective round trips [es] were scanned into [sc]: its two
    values are the two largest. *)
Definition top_two (es : list Z) (sc : Scan) : Prop :=
  measured sc = Z.of_nat (length es) /\
  match es with
  | [] => highest sc = 0 /\ second_highest sc = 0
  | [e] => highest sc = e /\ second_highest sc = 0
  | _ => exists rest, es ≡ₚ highest sc :: second_highest sc :: rest /\ Forall (fun r => r <= second_highest sc) rest /\
           second_highest sc <= highest sc
  end.

Lemma scan_slot_top attack acc s acc' es :
  scan_slot attack acc s = Some acc' -> top_two es acc -> Forall (fun e => 0 < e) es ->
  exists e, eff_rtt s = Some e /\ if 0 <? e then top_two (e :: es) acc' else top_two es acc'.
Proof.
  unfold scan_slot. destruct (eff_rtt s) as [e|]; [|done]. cbn [mbind option_bind]. intros E [Hn Ht] Hpos. exists e. split; [done|].
  assert (Hacc : exists n h1 h2, (measured acc', highest acc', second_highest acc') = (n, h1, h2) /\ (n, h1, h2) =
    if 0 <? e then if highest acc <=? e then (measured acc + 1, e, highest acc)
      else if second_highest acc <? e then (measured acc + 1, highest acc, e) else (measured acc + 1, highest acc, second_highest acc)
    else (measured acc, highest acc, second_highest acc)).
  { destruct (0 <? e); [destruct (_ <=? e); [|destruct (_ <? e)]|]; (destruct (windowed_loss_rate _ _); [|done]); cbn [mbind option_bind] in E;
      (destruct (burst_turns _); [|done]); cbn in E; injection E as <-; by eexists _, _, _. }
  destruct Hacc as (n & h1 & h2 & [= Em Eh E2] & Hv). destruct (Z.ltb_spec 0 e) as [He|He].
  2:{ injection Hv as -> -> ->. unfold top_two. by rewrite Em, Eh, E2. }
  assert (Hlen : measured acc + 1 = Z.of_nat (length (e :: es))) by (rewrite Hn; cbn; lia).
  destruct es as [|e1 [|e2 es]]; cbn [top_two].
  - destruct Ht as [Hh1 Hh2]. rewrite Hh1, Hh2 in Hv. destruct (Z.leb_spec 0 e); [|lia]. injection Hv as -> -> ->.
    split; [lia|]. by rewrite Eh, E2.
  - destruct Ht as [Hh1 Hh2]. apply Forall_cons in Hpos as [Hp1 _]. rewrite Hh1, Hh2 in Hv.
    destruct (Z.leb_spec e1 e); [|destruct (Z.ltb_spec 0 e); [|lia]]; injection Hv as -> -> ->; (split; [lia|]);
      exists []; rewrite Eh, E2; (split; [|split; [constructor|lia]]); [done|apply perm_swap].
  - destruct Ht as (rest & Hp & Hr & Hle). destruct (Z.leb_spec (highest acc) e) as [Hc|Hc]; [|destruct (Z.ltb_spec (second_highest acc) e) as [Hd|Hd]];
      injection Hv as -> -> ->; (split; [lia|]); rewrite Eh, E2.
    + exists (second_highest acc :: rest). split; [by rewrite Hp|]. split; [|lia]. constructor; [lia|].
      eapply Forall_impl; [exact Hr|]. cbn. lia.
    + exists (second_highest acc :: rest). split; [rewrite Hp; solve_Permutation|]. split; [|lia]. constructor; [lia|].
      eapply Forall_impl; [exact Hr|]. cbn. lia.
    + exists (e :: rest). split; [rewrite Hp; solve_Permutation|]. split; [|lia]. constructor; [lia|done].
Qed.

(** The positive effective round trips of slots. *)
Fixpoint positive_rtts (ss : list SlotState) : list Z :=
  match ss with
  | [] => []
  | s :: ss => match eff_rtt s with Some e => if 0 <? e then e :: positive_rtts ss else positive_rtts ss | None => positive_rtts ss end
  end.

Lemma top_two_perm es es' sc : es ≡ₚ es' -> top_two es sc -> top_two es' sc.
Proof.
  intros Hp [Hn Ht]. split; [by rewrite Hn, (Permutation_length Hp)|]. destruct es as [|e [|e2 es]].
  - by apply Permutation_nil_l in Hp as <-.
  - by apply Permutation_singleton_l in Hp as <-.
  - destruct Ht as (rest & Hr & H). pose proof (Permutation_length Hp) as Hl. destruct es' as [|x [|y es']]; [done|done|].
    exists rest. split; [by rewrite <- Hp|done].
Qed.

Lemma scan_top_two attack ss : forall acc sc es,
  scan_slots attack acc ss = Some sc -> top_two es acc -> Forall (fun e => 0 < e) es -> top_two (positive_rtts ss ++ es) sc.
Proof.
  induction ss as [|s ss IH]; intros acc sc es E Ht Hpos; cbn [scan_slots positive_rtts] in *; [by injection E as <-|].
  destruct (scan_slot attack acc s) as [acc'|] eqn:Es; [|done]. cbn [mbind option_bind] in E.
  destruct (scan_slot_top attack acc s acc' es Es Ht Hpos) as (e & -> & H). destruct (Z.ltb_spec 0 e).
  - eapply top_two_perm; [|eapply (IH acc' sc (e :: es)); [done|done|by constructor]]. cbn. by rewrite <- Permutation_middle.
  - by eapply IH.
Qed.

(** The target in whole numbers: half the sum of the two largest effective
    round trips (or the only one), divided by the turn and rounded up exactly,
    plus the loss delay.  The margined target of the shrink test is never
    below it, so a raise and a shrink can never both apply. *)
Theorem target_formula (m : Maker) (i : TargetInputs) :
  slots_ok m -> 0 < turn_duration_us (law m) <= u32_max -> 0 <= shrink_headroom_us (law m) -> target_inputs m = Some (Some i) ->
  let turn := turn_duration_us (law m) in
  let es := positive_rtts (map_to_list (slots (conns m))).*2 in
  exists sc loss, top_two es sc /\ es <> [] /\ 0 <= loss /\
    ti_path_us i = (if 2 <=? Z.of_nat (length es) then (highest sc + second_highest sc) / 2 else highest sc) /\
    ti_target i = Z.min u32_max (div_ceil (ti_path_us i) turn + loss) /\
    ti_shrink_target i = Z.min u32_max (div_ceil (Z.min u32_max (ti_path_us i + shrink_headroom_us (law m))) turn + loss) /\
    ti_target i <= ti_shrink_target i.
Proof.
  intros [Hs _] Hturn Hhead E turn es. unfold target_inputs in E. set (ss := (map_to_list (slots (conns m))).*2) in *.
  destruct (scan_slots_total (span_of m) (loss_attack_samples (law m)) ss (mkScan 0 0 0 f64_zero 0)) as (sc & Esc & Hsc).
  { apply Forall_forall. intros s ([k s'] & -> & Hin%elem_of_map_to_list)%list_elem_of_fmap. by apply (Hs k). }
  { split; cbn; unfold u32_max; lia. }
  rewrite Esc in E. cbn [mbind option_bind mret option_ret] in E. destruct (Z.eqb_spec (measured sc) 0) as [|Hm]; [done|]. injection E as <-.
  pose proof (scan_top_two _ _ _ sc [] Esc ltac:(by split) ltac:(constructor)) as Htop. rewrite app_nil_r in Htop. fold es in Htop.
  pose proof (proj1 Htop) as Hlen. destruct Hsc as [K1 K2 K3 K4].
  assert (Hp : 0 <= path_us_of sc <= u32_max).
  { unfold path_us_of. destruct (2 <=? measured sc); [|lia]. split; [apply Z.div_pos; lia|]. apply Z.div_le_upper_bound; lia. }
  set (loss := Z.max (ceil_as_u32 (f64_div (worst_loss_risk sc) (f64_of_Z (turn_duration_us (law m))))) (sc_burst_turns sc)).
  assert (Hloss : 0 <= loss) by (unfold loss; lia).
  assert (Hq : forall v, 0 <= v <= u32_max -> turns_of v turn = Z.min u32_max (div_ceil v turn)).
  { intros v Hv. unfold turns_of. apply quotient_ceil_exact; unfold turn, u32_max in *; lia. }
  assert (Hceil : forall v, 0 <= v -> 0 <= div_ceil v turn).
  { intros v Hv. unfold div_ceil. pose proof (Z.div_le_upper_bound (- v) turn 0). unfold turn in *. lia. }
  assert (Hmono : forall v v', v <= v' -> div_ceil v turn <= div_ceil v' turn).
  { intros v v' Hv. unfold div_ceil. pose proof (Z.div_le_mono (- v') (- v) turn). unfold turn in *. lia. }
  exists sc, loss. split; [done|]. split; [intros He; rewrite He in Hlen; cbn in Hlen; lia|]. split; [done|].
  unfold target_of. cbn [ti_path_us ti_target ti_shrink_target]. fold loss. fold turn. unfold saturating_add.
  split; [unfold path_us_of; by rewrite Hlen|].
  rewrite !Hq by (unfold u32_max in *; lia). pose proof (Hceil (path_us_of sc) ltac:(lia)).
  pose proof (Hmono (path_us_of sc) (Z.min u32_max (path_us_of sc + shrink_headroom_us (law m))) ltac:(lia)).
  unfold u32_max in *. lia.
Qed.

(** ** Witnesses *)

Definition demo_law_bounds : BufferBounds := mkBufferBounds 1 10.
Definition demo_sample (rtt_us sent : Z) : LawOp := LLocal [mkSlotConditions 0 rtt_us 0 sent None].

(** A slow link, then forty samples of a fast one, then a late frame. *)
Definition demo_raise : list (Z * LawOp) := [(0, LMaker (OTurn 0 1 10))].
Definition demo_calm : list (Z * LawOp) :=
  demo_raise ++ [(1, demo_sample 300000 100)] ++
  map (fun k => (2, demo_sample 40000 (101 + Z.of_nat k))) (List.seq 0 40) ++ [(3, LMaker (OTurn 0 2 1000))].

Definition demo_law_start : Maker := new_maker demo_law_bounds default_law AuthSelf false false.
Definition run_to (ops : list (Z * LawOp)) : Log * Maker := default (no_log, demo_law_start) (law_run demo_law_start ops).
Definition step_to (ops : list (Z * LawOp)) (o : Z * LawOp) : option Decision * Log * Maker :=
  default (None, no_log, demo_law_start) (law_step (run_to ops).2 o).

Lemma authored_directives_reach_witness :
  exists d, stamps (step_to demo_raise (1, demo_sample 300000 100)).1.2 = [d] /\ buffer_turns d = 8.
Proof.
  destruct (authored_directives_reach demo_law_bounds default_law AuthSelf false false demo_raise (1, demo_sample 300000 100) 0
    (run_to demo_raise).1 (step_to demo_raise (1, demo_sample 300000 100)).1.2 (run_to demo_raise).2
    (step_to demo_raise (1, demo_sample 300000 100)).2 (mkDecision 8 21)) as (d & Hd & Hb & _).
  - split; vm_compute; discriminate.
  - repeat constructor; vm_compute; discriminate.
  - reflexivity.
  - reflexivity.
  - vm_compute. reflexivity.
  - vm_compute. reflexivity.
  - exists d. split; [exact Hd|exact Hb].
Defined.

Lemma sessions_never_fail_witness : exists g m, law_run demo_law_start demo_calm = Some (g, m) /\ 0 <= buffer (buf m).
Proof.
  destruct (sessions_never_fail demo_law_bounds default_law AuthSelf false false demo_calm) as (g & m & E & _ & _ & H & _).
  - split; vm_compute; discriminate.
  - repeat constructor; vm_compute; discriminate.
  - exists g, m. split; [exact E|exact H].
Defined.

Lemma raise_is_immediate_witness :
  let m' := (step_to demo_raise (1, demo_sample 300000 100)).2 in
  buffer (buf m') = game_safe_clamp m' 8 /\ buffer (buf m') = 8.
Proof.
  split; [|vm_compute; reflexivity].
  apply (raise_is_immediate demo_law_bounds default_law AuthSelf false false demo_raise (1, demo_sample 300000 100)
    (run_to demo_raise).1 (step_to demo_raise (1, demo_sample 300000 100)).1.2 (run_to demo_raise).2
    (step_to demo_raise (1, demo_sample 300000 100)).2 (Some (mkDecision 8 21)) 10 8).
  - split; vm_compute; discriminate.
  - repeat constructor; vm_compute; discriminate.
  - vm_compute. reflexivity.
  - vm_compute. reflexivity.
  - exact I.
  - vm_compute. reflexivity.
  - vm_compute. reflexivity.
Defined.

Definition demo_shrink : option Decision * Log * Maker := step_to demo_calm (4, demo_sample 40000 200).


Definition demo_peer_start : Maker := new_maker demo_law_bounds default_law AuthPeer false false.

Lemma authority_reaffirms_witness :
  exists g1 m1, law_step demo_peer_start (0, LMaker (OAuthority AuthSelf ∅)) = Some (None, g1, m1).
Proof.
  destruct (authority_reaffirms demo_law_bounds default_law AuthPeer false false [] 0 1 ∅ [mkSlotConditions 0 300000 0 100 None]
    local_rtt no_log demo_peer_start) as (g1 & m1 & E & _).
  - split; vm_compute; discriminate.
  - constructor.
  - repeat constructor; vm_compute; discriminate.
  - vm_compute. discriminate.
  - reflexivity.
  - reflexivity.
  - exists g1, m1. exact E.
Defined.

Definition demo_lobby : Maker :=
  set_roster (set_expected_slots demo_law_start {[0; 1]}) (set_live (set_expected (roster demo_law_start) {[0; 1]}) {[0; 1]}).
Definition demo_started : bool * Maker := default (false, demo_lobby) (maybe_start demo_lobby 5).

Lemma start_depth_agrees_witness :
  demo_started.1 = true /\ exists d, initial_buffer_turns (buf demo_started.2) = Some d /\ d <= GAME_SYNC_SAFE_BUFFER_MAX.
Proof.
  destruct (start_depth_agrees demo_lobby demo_started.2 5 true) as (_ & _ & H).
  - vm_compute. reflexivity.
  - reflexivity.
  - split; [vm_compute; reflexivity|]. destruct (H eq_refl) as (d & Hd & _ & Hle & _). exists d. split; [exact Hd|exact Hle].
Defined.

Definition demo_measured : Maker := (step_to demo_raise (1, demo_sample 300000 100)).2.
Definition demo_inputs : TargetInputs := mkTargetInputs 8 8 300000 f64_zero 0.

Lemma target_formula_witness :
  target_inputs demo_measured = Some (Some demo_inputs) /\ ti_target demo_inputs <= ti_shrink_target demo_inputs.
Proof.
  split; [vm_compute; reflexivity|].
  assert (Hok : law_ok demo_measured ([] ++ peaks (log_app (run_to demo_raise).1 (step_to demo_raise (1, demo_sample 300000 100)).1.2))).
  { destruct (law_run_ok demo_law_start [] (demo_raise ++ [(1, demo_sample 300000 100)])) as (g & m & E & Hok).
    - apply new_maker_law. split; vm_compute; discriminate.
    - repeat constructor; vm_compute; discriminate.
    - vm_compute in E. injection E as <- <-. vm_compute. vm_compute in Hok. exact Hok. }
  destruct (target_formula demo_measured demo_inputs (la_slots _ _ Hok)) as (sc & loss & _ & _ & _ & _ & _ & _ & H).
  - vm_compute. split; [reflexivity|discriminate].
  - vm_compute. discriminate.
  - vm_compute. reflexivity.
  - exact H.
Defined.
