(* ===== verification/Registry.v ===== *)
(** * The coordinator's relay registry ([coordinator/src/registry/mod.rs])

    Which relays are enrolled, under which connection generation and pinned
    certificate, which drain, the mesh-peer list every relay is told, and the
    process identities behind each id.  One mutex guards the map, so every
    function is one step; the fingerprint is SHA-256 of the certificate, code of
    the [ring] library, and a parameter here.  Wake-ups are left out. *)

From Stdlib Require Import ZArith Lia.
From stdpp Require Import gmap sorting list strings.
From S2P Require Import Prelude.

Open Scope Z_scope.

(** [digest::sha256], which calls the [ring] library. *)
Class Sha256 : Type := sha256 : list Z -> list Z.

Record RelayHello : Type := mkRelayHello {
  hello_id : Z;
  hello_addr : string;
  hello_protocol : Z;
  hello_cert : list Z;
  hello_min_protocol : option Z;
  hello_capabilities : list string;
  hello_addrs : list string;
  hello_region : option string;
  hello_enroll_token : option string;
}.

Record RelayEntry : Type := mkRelayEntry {
  relay_id : Z;
  relay_addr : string;
  protocol : Z;
  cert_der : list Z;
  relay_addrs : list string;
  capabilities : list string;
  region : option string;
}.

(** [RelayEndpoint] and [RelayPeer], which carry the same fields. *)
Record RelayEndpoint : Type := mkRelayEndpoint { ep_id : Z; ep_addr : string; ep_cert : list Z; ep_addrs : list string }.

Definition endpoint_of (e : RelayEntry) : RelayEndpoint := mkRelayEndpoint (relay_id e) (relay_addr e) (cert_der e) (relay_addrs e).

#[export] Instance relay_entry_eq : EqDecision RelayEntry.
Proof. solve_decision. Defined.
#[export] Instance relay_endpoint_eq : EqDecision RelayEndpoint.
Proof. solve_decision. Defined.

Record Registered : Type := mkRegistered { entry_of : RelayEntry; generation : Z; fingerprint : list Z; draining : bool }.

Record MeshPeerIdentity : Type := mkMeshPeerIdentity { peer_id : Z; cert_sha256 : list Z }.

Record RelayRegistry : Type := mkRelayRegistry {
  relays : gmap Z Registered;
  next_generation : Z;
  mesh_peers : list MeshPeerIdentity;
  boot_ids : gmap Z (option Z);
}.

Definition new_registry : RelayRegistry := mkRelayRegistry ∅ 0 [] ∅.

Inductive BootLineage : Type := Continuous | Broken.

(** Ascending by relay id. *)
Definition by_peer_id (x y : MeshPeerIdentity) : Prop := peer_id x <= peer_id y.
#[export] Instance by_peer_id_dec x y : Decision (by_peer_id x y).
Proof. unfold by_peer_id. apply _. Defined.

Definition peer_of (r : Registered) : MeshPeerIdentity := mkMeshPeerIdentity (relay_id (entry_of r)) (fingerprint r).

(** What [publish_mesh_peers] leaves in the watch channel. *)
Definition publish_mesh_peers (rs : gmap Z Registered) : list MeshPeerIdentity :=
  merge_sort by_peer_id (peer_of <$> (map_to_list rs).*2).

Definition set_relays (g : RelayRegistry) (rs : gmap Z Registered) : RelayRegistry :=
  mkRelayRegistry rs (next_generation g) (mesh_peers g) (boot_ids g).

Definition republish (g : RelayRegistry) (rs : gmap Z Registered) : RelayRegistry :=
  mkRelayRegistry rs (next_generation g) (publish_mesh_peers rs) (boot_ids g).

Section registry.
Context {sha : Sha256}.

Definition cert_fingerprint (cert : list Z) : list Z := sha256 cert.

Definition entry_of_hello (h : RelayHello) : RelayEntry :=
  mkRelayEntry (hello_id h) (hello_addr h) (hello_protocol h) (hello_cert h) (hello_addrs h) (hello_capabilities h) (hello_region h).

Definition insert_locked (g : RelayRegistry) (h : RelayHello) (fp : list Z) : Z * RelayRegistry :=
  let e := entry_of_hello h in
  let gen := next_generation g in
  let rs := <[relay_id e := mkRegistered e gen fp false]> (relays g) in
  (gen, mkRelayRegistry rs ((gen + 1) mod 2 ^ 64) (publish_mesh_peers rs) (boot_ids g)).

Definition enroll (g : RelayRegistry) (h : RelayHello) : Z * RelayRegistry :=
  insert_locked g h (cert_fingerprint (hello_cert h)).

(** [Err(EnrollConflict)] is [None] and leaves the registry alone. *)
Definition try_enroll (g : RelayRegistry) (h : RelayHello) : option (Z * RelayRegistry) :=
  let fp := cert_fingerprint (hello_cert h) in
  match relays g !! hello_id h with
  | Some existing => if decide (fingerprint existing = fp) then Some (insert_locked g h fp) else None
  | None => Some (insert_locked g h fp)
  end.

End registry.

Definition set_draining (r : Registered) (v : bool) : Registered := mkRegistered (entry_of r) (generation r) (fingerprint r) v.

Definition put_draining (g : RelayRegistry) (id gen : Z) (v : bool) : bool * RelayRegistry :=
  match relays g !! id with
  | Some r => if generation r =? gen then (true, set_relays g (<[id := set_draining r v]> (relays g))) else (false, g)
  | None => (false, g)
  end.

Definition mark_draining (g : RelayRegistry) (id gen : Z) : bool * RelayRegistry := put_draining g id gen true.
Definition clear_draining (g : RelayRegistry) (id gen : Z) : bool * RelayRegistry := put_draining g id gen false.

Definition is_draining_at (g : RelayRegistry) (id gen : Z) : bool :=
  match relays g !! id with Some r => (generation r =? gen) && draining r | None => false end.

Definition is_available (g : RelayRegistry) (id : Z) : bool :=
  match relays g !! id with Some r => negb (draining r) | None => false end.

Definition is_enrolled (g : RelayRegistry) (id : Z) : bool := bool_decide (is_Some (relays g !! id)).

Definition generation_is_current (g : RelayRegistry) (id gen : Z) : bool :=
  match relays g !! id with Some r => generation r =? gen | None => false end.

Definition entry (g : RelayRegistry) (id : Z) : option RelayEntry := entry_of <$> relays g !! id.
Definition peer (g : RelayRegistry) (id : Z) : option RelayEndpoint := endpoint_of <$> entry g id.

Definition available_entries (g : RelayRegistry) : list RelayEntry :=
  entry_of <$> filter (fun r => draining r = false) (map_to_list (relays g)).*2.

Definition available_in_region (g : RelayRegistry) (rg : string) : Z :=
  Z.of_nat (length (filter (fun r => draining r = false /\ region (entry_of r) = Some rg) (map_to_list (relays g)).*2)).

Definition remove (g : RelayRegistry) (id : Z) : RelayRegistry :=
  match relays g !! id with
  | Some _ => republish g (base.delete id (relays g))
  | None => g
  end.

Definition remove_if_current (g : RelayRegistry) (id gen : Z) : bool * RelayRegistry :=
  match relays g !! id with
  | Some r => if generation r =? gen then (true, republish g (base.delete id (relays g))) else (false, g)
  | None => (false, g)
  end.

Definition set_boots (g : RelayRegistry) (b : gmap Z (option Z)) : RelayRegistry :=
  mkRelayRegistry (relays g) (next_generation g) (mesh_peers g) b.

Definition note_boot_id (g : RelayRegistry) (id : Z) (boot : option Z) : BootLineage * RelayRegistry :=
  (match boot_ids g !! id, boot with
   | Some (Some previous), Some current => if previous =? current then Continuous else Broken
   | None, Some _ => Continuous
   | _, _ => Broken
   end, set_boots g (<[id := boot]> (boot_ids g))).

Definition forget_boot_id (g : RelayRegistry) (id : Z) : RelayRegistry := set_boots g (base.delete id (boot_ids g)).
Definition boot_id (g : RelayRegistry) (id : Z) : option Z := mjoin (boot_ids g !! id).

(** ** The registry over time *)

Inductive RegOp : Type :=
| REnroll (h : RelayHello)
| RTryEnroll (h : RelayHello)
| RDrain (id gen : Z)
| RUndrain (id gen : Z)
| RRemove (id : Z)
| RRemoveCurrent (id gen : Z)
| RBoot (id : Z) (boot : option Z)
| RForget (id : Z).

Section run.
Context {sha : Sha256}.

Definition reg_step (g : RelayRegistry) (o : RegOp) : RelayRegistry :=
  match o with
  | REnroll h => (enroll g h).2
  | RTryEnroll h => default g (snd <$> try_enroll g h)
  | RDrain id gen => (mark_draining g id gen).2
  | RUndrain id gen => (clear_draining g id gen).2
  | RRemove id => remove g id
  | RRemoveCurrent id gen => (remove_if_current g id gen).2
  | RBoot id boot => (note_boot_id g id boot).2
  | RForget id => forget_boot_id g id
  end.

(** The map is keyed by the entries' ids, fingerprints are those of the entries'
    certificates, the published peers are the enrolled relays, and every
    generation was handed out. *)
Record reg_ok (g : RelayRegistry) : Prop := mkRegOk {
  ro_keys : forall id r, relays g !! id = Some r -> relay_id (entry_of r) = id;
  ro_certs : forall id r, relays g !! id = Some r -> fingerprint r = sha256 (cert_der (entry_of r));
  ro_peers : mesh_peers g = publish_mesh_peers (relays g);
  ro_gens : forall id r, relays g !! id = Some r -> 0 <= generation r < next_generation g;
  ro_next : 0 <= next_generation g;
}.

Definition reg_run (g : RelayRegistry) (ops : list RegOp) : RelayRegistry := foldl reg_step g ops.

Lemma publish_draining rs id r v : rs !! id = Some r -> publish_mesh_peers (<[id := set_draining r v]> rs) = publish_mesh_peers rs.
Proof.
  intros Hr. unfold publish_mesh_peers. f_equal.
  assert (Hmap : forall rs' : gmap Z Registered, peer_of <$> (map_to_list rs').*2 = (map_to_list (peer_of <$> rs')).*2).
  { intros rs'. by rewrite map_to_list_fmap, <- !list_fmap_compose. }
  rewrite !Hmap, fmap_insert. f_equal. f_equal. apply insert_id. by rewrite lookup_fmap, Hr.
Qed.

Lemma insert_locked_ok g h : reg_ok g -> next_generation g < u64_max ->
  let r := insert_locked g h (cert_fingerprint (hello_cert h)) in
  reg_ok r.2 /\ r.1 = next_generation g /\ next_generation r.2 = next_generation g + 1.
Proof.
  intros [H1 H2 H3 H4 H5] Hb r. assert (Hn : (next_generation g + 1) mod 2 ^ 64 = next_generation g + 1).
  { apply Z.mod_small. unfold u64_max in Hb. lia. }
  split; [|by split]. unfold r, insert_locked. rewrite Hn.
  split; cbn; [..|lia]; try done; intros id r'; rewrite lookup_insert; case_decide as E;
    try (intros [= <-]; subst; cbn; (done || lia)); try apply H1; try apply H2; intros H; apply H4 in H; lia.
Qed.

Lemma put_draining_ok g id gen v : reg_ok g -> reg_ok (put_draining g id gen v).2 /\
  next_generation (put_draining g id gen v).2 = next_generation g.
Proof.
  intros Hok. unfold put_draining. destruct (relays g !! id) as [r|] eqn:E; [|done]. destruct (_ =? _); [|done]. split; [|done].
  destruct Hok as [H1 H2 H3 H4 H5]. split; cbn; [..|done]; try (by rewrite publish_draining);
    intros id' r'; rewrite lookup_insert; case_decide; subst; try (intros [= <-]; cbn; eauto); eauto.
Qed.

Lemma delete_ok g id : reg_ok g -> reg_ok (republish g (base.delete id (relays g))).
Proof.
  intros [H1 H2 H3 H4 H5]. split; cbn; try done; intros id' r [_ H]%lookup_delete_Some; eauto.
Qed.

Lemma reg_step_ok g o : reg_ok g -> next_generation g < u64_max ->
  reg_ok (reg_step g o) /\ next_generation g <= next_generation (reg_step g o) <= next_generation g + 1.
Proof.
  intros Hok Hb. destruct o as [h|h|id gen|id gen|id|id gen|id boot|id]; cbn [reg_step].
  - destruct (insert_locked_ok g h Hok Hb) as (H & _ & E). split; [exact H|]. unfold enroll. lia.
  - unfold try_enroll. destruct (insert_locked_ok g h Hok Hb) as (H & _ & E).
    destruct (relays g !! _) as [r|]; [case_decide|]; cbn [fmap option_fmap option_map from_option id]; (split; [done|lia]).
  - destruct (put_draining_ok g id gen true Hok) as [H E]. split; [done|]. unfold mark_draining. lia.
  - destruct (put_draining_ok g id gen false Hok) as [H E]. split; [done|]. unfold clear_draining. lia.
  - unfold remove. destruct (relays g !! id); (split; [|cbn; lia]); [by apply delete_ok|done].
  - unfold remove_if_current. destruct (relays g !! id); [destruct (_ =? _)|]; (split; [|cbn; lia]); [by apply delete_ok|done|done].
  - split; [|cbn; lia]. by destruct Hok.
  - split; [|cbn; lia]. by destruct Hok.
Qed.

Lemma reg_run_ok ops : forall g, reg_ok g -> next_generation g + Z.of_nat (length ops) <= u64_max ->
  reg_ok (reg_run g ops) /\ next_generation g <= next_generation (reg_run g ops) <= next_generation g + Z.of_nat (length ops).
Proof.
  induction ops as [|o ops IH]; intros g Hok Hb; cbn [length] in *; [split; [done|cbn; lia]|]. change (reg_run g (o :: ops)) with (reg_run (reg_step g o) ops).
  destruct (reg_step_ok g o Hok) as [H1 H2]; [lia|]. destruct (IH (reg_step g o) H1) as [H3 H4]; [lia|]. split; [done|lia].
Qed.

Lemma new_registry_ok : reg_ok new_registry.
Proof. by split. Qed.

(** Frames a superseded connection still sends (a drain mark, a withdrawal of
    it, a disconnect) change nothing, however late they come: no generation is
    handed out twice.  The peers every relay is told are the enrolled ones. *)
Theorem stale_connection_harmless (ops ops' : list RegOp) (h : RelayHello) :
  Z.of_nat (length ops) + Z.of_nat (length ops') < u64_max ->
  let old := enroll (reg_run new_registry ops) h in
  let g := reg_run old.2 ops' in
  forall r, relays g !! hello_id h = Some r -> generation r <> old.1 ->
  mesh_peers g = publish_mesh_peers (relays g) /\
  mark_draining g (hello_id h) old.1 = (false, g) /\ clear_draining g (hello_id h) old.1 = (false, g) /\
  remove_if_current g (hello_id h) old.1 = (false, g) /\
  forall ops'', Z.of_nat (length ops) + Z.of_nat (length ops') + Z.of_nat (length ops'') < u64_max ->
    generation_is_current (reg_run g ops'') (hello_id h) old.1 = false.
Proof.
  intros Hlen old g r Hr Hne. destruct (reg_run_ok ops _ new_registry_ok) as [H1 H2]; [cbn [new_registry next_generation]; lia|]. cbn [new_registry next_generation] in H2.
  destruct (insert_locked_ok (reg_run new_registry ops) h H1) as (H3 & H4 & H5); [lia|].
  destruct (reg_run_ok ops' old.2 H3) as [H6 H7]; [unfold old, enroll; lia|]. fold g in H6, H7.
  split; [apply H6|]. unfold mark_draining, clear_draining, put_draining, remove_if_current. rewrite Hr.
  destruct (Z.eqb_spec (generation r) old.1) as [|_]; [done|]. do 3 (split; [done|]).
  assert (Hg : forall ops'' g', reg_ok g' -> old.1 < next_generation g' -> next_generation g' + Z.of_nat (length ops'') <= u64_max ->
    generation_is_current g' (hello_id h) old.1 = false -> generation_is_current (reg_run g' ops'') (hello_id h) old.1 = false).
  { intros ops''. induction ops'' as [|o ops'' IH]; intros g' Hok Ho Hb Hc; [done|]. cbn [length] in Hb. change (reg_run g' (o :: ops'')) with (reg_run (reg_step g' o) ops'').
    destruct (reg_step_ok g' o Hok) as [K1 K2]; [lia|]. apply IH; [done|lia|lia|].
    assert (Hi : forall h', generation_is_current (insert_locked g' h' (cert_fingerprint (hello_cert h'))).2 (hello_id h) old.1 = false).
    { intros h'. unfold generation_is_current, insert_locked. cbn [snd relays]. rewrite lookup_insert. case_decide; [|done].
      cbn [generation]. apply Z.eqb_neq. lia. }
    unfold generation_is_current in *. destruct o as [h'|h'|id gen|id gen|id|id gen|id boot|id]; cbn; [apply Hi| |..].
    - unfold try_enroll. destruct (relays g' !! hello_id h') as [x|]; [case_decide|]; cbn; first [apply Hi|done].
    - unfold mark_draining, put_draining. destruct (relays g' !! id) as [x|] eqn:Ex; [|done]. destruct (_ =? _); [|done]. cbn.
      rewrite lookup_insert. case_decide; [|done]. subst. by rewrite Ex in Hc.
    - unfold clear_draining, put_draining. destruct (relays g' !! id) as [x|] eqn:Ex; [|done]. destruct (_ =? _); [|done]. cbn.
      rewrite lookup_insert. case_decide; [|done]. subst. by rewrite Ex in Hc.
    - unfold remove. destruct (relays g' !! id); [|done]. cbn. rewrite lookup_delete. by case_decide.
    - unfold remove_if_current. destruct (relays g' !! id); [|done]. destruct (_ =? _); [|done]. cbn. rewrite lookup_delete. by case_decide.
    - done.
    - done. }
  intros ops'' Hb. apply Hg; [done|unfold old, enroll in *; lia|unfold old, enroll in *; lia|].
  unfold generation_is_current. rewrite Hr. by apply Z.eqb_neq.
Qed.

End run.
