(* ===== verification/PairRtts.v ===== *)
(** * Backbone round trips between regions ([coordinator/src/pair_rtts/mod.rs])

    Relays report the round trips they measure to other regions; the table keeps
    the latest value per direction behind a dead band, serves one value per
    unordered pair, and is written through to the ledger direction by direction
    when a value moves ([RegionRttIngest::ingest] of [lifecycle/heartbeat.rs]).
    Regions are strings compared by bytes; round trips are milliseconds. *)

From Stdlib Require Import ZArith Lia.
From stdpp Require Import gmap sorting list strings.
From S2P Require Import Prelude.

Open Scope Z_scope.

Definition RTT_DEADBAND_MIN_MS : Z := 5.

Definition deadband_ms (stored : Z) : Z := Z.max RTT_DEADBAND_MIN_MS (stored / 20).

Record DirectionRtt : Type := mkDirectionRtt { rtt_ms : Z; measured_at : Z }.

Record PairDirections : Type := mkPairDirections { from_a : option DirectionRtt; from_b : option DirectionRtt }.

(** The two directions averaged, rounded up, in 64 bits. *)
Definition served (d : PairDirections) : option DirectionRtt :=
  match from_a d, from_b d with
  | Some a, Some b => Some (mkDirectionRtt (((rtt_ms a + rtt_ms b + 1) / 2) mod 2 ^ 32) (Z.max (measured_at a) (measured_at b)))
  | Some one, None | None, Some one => Some one
  | None, None => None
  end.

Record DirectionRttRow : Type := mkDirectionRttRow { row_a : string; row_b : string; origin : string; row_rtt_ms : Z; row_measured_at : Z }.

Abbreviation PairRttStore := (gmap (string * string) PairDirections).

(** [str]'s [<=], by bytes. *)
Definition canonical_pair (x y : string) : string * string := if String.leb x y then (x, y) else (y, x).

Definition no_directions : PairDirections := mkPairDirections None None.

Definition direction (d : PairDirections) (origin_is_a : bool) : option DirectionRtt := if origin_is_a then from_a d else from_b d.
Definition set_direction (d : PairDirections) (origin_is_a : bool) (v : DirectionRtt) : PairDirections :=
  if origin_is_a then mkPairDirections (Some v) (from_b d) else mkPairDirections (from_a d) (Some v).

(** Whether the value changed, and the store. *)
Definition record (s : PairRttStore) (relay_region reported_region : string) (rtt now : Z) : bool * PairRttStore :=
  if decide (relay_region = reported_region) then (false, s)
  else
    let key := canonical_pair relay_region reported_region in
    let is_a := bool_decide (relay_region = key.1) in
    let d := default no_directions (s !! key) in
    match direction d is_a with
    | Some existing =>
        if Z.abs (rtt_ms existing - rtt) <=? deadband_ms (rtt_ms existing)
        then (false, <[key := set_direction d is_a (mkDirectionRtt (rtt_ms existing) now)]> s)
        else (true, <[key := set_direction d is_a (mkDirectionRtt rtt now)]> s)
    | None => (true, <[key := set_direction d is_a (mkDirectionRtt rtt now)]> s)
    end.

Definition rows_of (k : string * string) (d : PairDirections) : list DirectionRttRow :=
  (match from_a d with Some x => [mkDirectionRttRow k.1 k.2 k.1 (rtt_ms x) (measured_at x)] | None => [] end) ++
  (match from_b d with Some x => [mkDirectionRttRow k.1 k.2 k.2 (rtt_ms x) (measured_at x)] | None => [] end).

Definition direction_snapshot (s : PairRttStore) : list DirectionRttRow :=
  '(k, d) ← map_to_list s; rows_of k d.

(** The region at the other end of a pair that names [r]. *)
Definition other_end (r : string) (k : string * string) : option string :=
  if decide (k.1 = r) then Some k.2 else if decide (k.2 = r) then Some k.1 else None.

Definition rtts_from (s : PairRttStore) (r : string) : gmap string Z :=
  list_to_map (omap (fun p => other ← other_end r p.1; v ← served p.2; Some (other, rtt_ms v)) (map_to_list s)).

Definition seed_row (s : PairRttStore) (row : DirectionRttRow) : PairRttStore :=
  let key := canonical_pair (row_a row) (row_b row) in
  let is_a := bool_decide (origin row = key.1) in
  if negb is_a && negb (bool_decide (origin row = key.2)) then s
  else <[key := set_direction (default no_directions (s !! key)) is_a (mkDirectionRtt (row_rtt_ms row) (row_measured_at row))]> s.

Definition seed (s : PairRttStore) (rows : list DirectionRttRow) : PairRttStore := foldl seed_row s rows.

(** One report folded in: dropped when its region is not configured, and written
    through to the ledger's rows, keyed by pair and origin, when it changed. *)
Definition ingest_report (regions : list string) (relay_region : string) (st : PairRttStore * gmap (string * string * string) (Z * Z))
    (report : string * Z) (now : Z) : PairRttStore * gmap (string * string * string) (Z * Z) :=
  if bool_decide (report.1 ∈ regions) then
    let '(changed, s) := record st.1 relay_region report.1 report.2 now in
    (s, if changed then <[(canonical_pair relay_region report.1, relay_region) := (report.2, now)]> st.2 else st.2)
  else st.

Definition ingest (regions : list string) (relay_region : option string) (st : PairRttStore * gmap (string * string * string) (Z * Z))
    (reports : list (string * Z)) (now : Z) : PairRttStore * gmap (string * string * string) (Z * Z) :=
  match relay_region with
  | None => st
  | Some r => foldl (fun st report => ingest_report regions r st report now) st reports
  end.

(** ** Facts about the order of regions *)

Lemma string_leb_antisym x y : String.leb x y = true -> String.leb y x = true -> x = y.
Proof.
  unfold String.leb. rewrite (String.compare_antisym x y). destruct (String.compare y x) eqn:E; cbn; try done.
  intros _ _. symmetry. by apply String.compare_eq_iff.
Qed.

Lemma string_leb_total x y : String.leb x y = true \/ String.leb y x = true.
Proof. unfold String.leb. rewrite (String.compare_antisym x y). destruct (String.compare y x); cbn; auto. Qed.

Lemma string_leb_refl x : String.leb x x = true.
Proof. by destruct (string_leb_total x x). Qed.

Lemma canonical_pair_comm x y : canonical_pair x y = canonical_pair y x.
Proof.
  unfold canonical_pair. destruct (String.leb x y) eqn:E1, (String.leb y x) eqn:E2; try done.
  - by rewrite (string_leb_antisym x y).
  - destruct (string_leb_total x y); congruence.
Qed.

Lemma canonical_pair_of x y : String.leb x y = true -> canonical_pair x y = (x, y).
Proof. unfold canonical_pair. by intros ->. Qed.

Lemma canonical_pair_ordered x y : String.leb (canonical_pair x y).1 (canonical_pair x y).2 = true.
Proof. unfold canonical_pair. destruct (String.leb x y) eqn:E; cbn; [done|]. destruct (string_leb_total x y); congruence. Qed.

Lemma canonical_pair_ends x y : (canonical_pair x y = (x, y) \/ canonical_pair x y = (y, x)).
Proof. unfold canonical_pair. destruct (String.leb x y); auto. Qed.

(** ** The table over time *)

(** Every key is in order, every entry has a direction, and a region paired with
    itself only has the first. *)
Definition pair_ok (k : string * string) (d : PairDirections) : Prop :=
  String.leb k.1 k.2 = true /\ (from_a d <> None \/ from_b d <> None) /\ (k.1 = k.2 -> from_b d = None).
Definition pairs_ok (s : PairRttStore) : Prop := forall k d, s !! k = Some d -> pair_ok k d.

(** The direction from [r] to [t]. *)
Definition stored (s : PairRttStore) (r t : string) : option DirectionRtt :=
  let key := canonical_pair r t in d ← s !! key; direction d (bool_decide (r = key.1)).

Lemma set_direction_same d b v : direction (set_direction d b v) b = Some v.
Proof. by destruct b. Qed.
Lemma set_direction_other d b b' v : b <> b' -> direction (set_direction d b v) b' = direction d b'.
Proof. by destruct b, b'. Qed.

(** What [record] did to the direction it was told of; no other changed. *)
Lemma record_spec s r t v now : r <> t ->
  stored (record s r t v now).2 r t =
    Some (mkDirectionRtt
      (match stored s r t with
       | Some e => if Z.abs (rtt_ms e - v) <=? deadband_ms (rtt_ms e) then rtt_ms e else v
       | None => v end) now) /\
  (record s r t v now).1 = match stored s r t with
       | Some e => negb (Z.abs (rtt_ms e - v) <=? deadband_ms (rtt_ms e)) | None => true end /\
  (forall r' t', (r', t') <> (r, t) -> r' <> t' -> stored (record s r t v now).2 r' t' = stored s r' t') /\
  (pairs_ok s -> pairs_ok (record s r t v now).2).
Proof.
  intros Hne. unfold record. rewrite decide_False by done. set (key := canonical_pair r t).
  set (is_a := bool_decide (r = key.1)). set (d := default no_directions (s !! key)).
  assert (Hs : stored s r t = direction d is_a).
  { unfold stored, d, is_a. cbv zeta. fold key. destruct (s !! key); [done|]. cbn. by destruct (bool_decide _). }
  assert (Hput : forall x, stored (<[key := set_direction d is_a x]> s) r t = Some x /\
    (forall r' t', (r', t') <> (r, t) -> r' <> t' -> stored (<[key := set_direction d is_a x]> s) r' t' = stored s r' t') /\
    (pairs_ok s -> pairs_ok (<[key := set_direction d is_a x]> s))).
  { intros x. split; [|split].
    - unfold stored. cbv zeta. fold key. rewrite lookup_insert_eq. apply set_direction_same.
    - intros r' t' Hd Hne'. unfold stored. cbv zeta. rewrite lookup_insert. case_decide as Ek; [|done].
      assert (Hflip : r' = t /\ t' = r).
      { destruct (canonical_pair_ends r t) as [E1|E1], (canonical_pair_ends r' t') as [E2|E2]; fold key in E1; rewrite E1, E2 in Ek; injection Ek; intros; subst; try done; congruence. }
      destruct Hflip as [-> ->]. rewrite (canonical_pair_comm t r). fold key. cbn.
      assert (Hb : bool_decide (t = key.1) <> is_a).
      { unfold is_a, key. destruct (canonical_pair_ends r t) as [E1|E1]; rewrite E1; cbn; repeat case_bool_decide; congruence. }
      rewrite set_direction_other by done. unfold d. destruct (s !! key); [done|]. by destruct (bool_decide (t = key.1)).
    - intros Hok k e. rewrite lookup_insert. case_decide as Ek; [|apply Hok]. intros [= <-]. subst k. split; [apply canonical_pair_ordered|].
      assert (Hnk : key.1 <> key.2) by (unfold key; destruct (canonical_pair_ends r t) as [E1|E1]; rewrite E1; cbn; congruence).
      split; [|done]. unfold set_direction. destruct is_a; [left|right]; done. }
  rewrite Hs. destruct (direction d is_a) as [e|] eqn:Ed; [destruct (_ <=? _)|]; cbn [fst snd negb];
    match goal with |- stored (<[_ := set_direction _ _ ?x]> _) _ _ = _ /\ _ => destruct (Hput x) as (H1 & H2 & H3) end; by rewrite H1.
Qed.

(** ** What is served *)

Lemma other_end_spec r k t : String.leb k.1 k.2 = true -> other_end r k = Some t <-> k = canonical_pair r t.
Proof.
  intros Hk. unfold other_end. destruct k as [a b]. cbn in *. split.
  - case_decide; [intros [= <-]; subst; by rewrite canonical_pair_of|]. case_decide; [|done]. intros [= <-]. subst.
    by rewrite canonical_pair_comm, canonical_pair_of.
  - intros E. destruct (canonical_pair_ends r t) as [H|H]; rewrite H in E; injection E as -> ->; [by rewrite decide_True|].
    case_decide; [by subst|]. by rewrite decide_True.
Qed.

Lemma rtts_from_lookup s r t : pairs_ok s -> rtts_from s r !! t = (d ← s !! canonical_pair r t; rtt_ms <$> served d).
Proof.
  intros Hok. unfold rtts_from. set (l := omap _ _).
  assert (Hl : forall t v, (t, v) ∈ l <-> exists d, s !! canonical_pair r t = Some d /\ rtt_ms <$> served d = Some v).
  { intros t' v. unfold l. rewrite list_elem_of_omap. split.
    - intros ([k d] & Hin%elem_of_map_to_list & Hf). cbn in Hf. destruct (other_end r k) as [t''|] eqn:E; [|done]. cbn in Hf.
      destruct (served d) eqn:Ed; [|done]. cbn in Hf. injection Hf as <- <-. apply other_end_spec in E; [|by apply (Hok k d)]. subst k.
      exists d. split; [done|]. by rewrite Ed.
    - intros (d & Hd & Hv). exists (canonical_pair r t', d). split; [by apply elem_of_map_to_list|]. cbn.
      rewrite (proj2 (other_end_spec r (canonical_pair r t') t' (canonical_pair_ordered r t')) eq_refl). cbn.
      destruct (served d); [|done]. cbn in *. by injection Hv as ->. }
  destruct (s !! canonical_pair r t) as [d|] eqn:E; [destruct (served d) as [x|] eqn:Ex|]; cbn.
  - rewrite Ex. cbn. apply elem_of_list_to_map_1'; [|apply Hl; exists d; by rewrite Ex].
    intros y (d' & Hd' & Hy)%Hl. rewrite E in Hd'. injection Hd' as <-. rewrite Ex in Hy. by injection Hy.
  - rewrite Ex. apply not_elem_of_list_to_map_1. intros ([t' v] & -> & Hin)%list_elem_of_fmap. cbn in E.
    apply Hl in Hin as (d' & Hd' & Hy). rewrite E in Hd'. injection Hd' as <-. by rewrite Ex in Hy.
  - apply not_elem_of_list_to_map_1. intros ([t' v] & -> & Hin)%list_elem_of_fmap. apply Hl in Hin as (d' & Hd' & _). cbn in E. congruence.
Qed.

(** The served value is a function of the two stored directions. *)
Definition distinct_ends (s : PairRttStore) : Prop := forall k d, s !! k = Some d -> k.1 <> k.2.

Lemma served_stored s r t : pairs_ok s -> distinct_ends s -> r <> t ->
  rtts_from s r !! t = match stored s r t, stored s t r with
    | Some a, Some b => Some (((rtt_ms a + rtt_ms b + 1) / 2) mod 2 ^ 32)
    | Some a, None | None, Some a => Some (rtt_ms a)
    | None, None => None end.
Proof.
  intros Hok Hd Hne. rewrite rtts_from_lookup by done. unfold stored. cbv zeta. rewrite (canonical_pair_comm t r).
  destruct (s !! canonical_pair r t) as [d|] eqn:E; [|done]. cbn. unfold direction, served.
  destruct (canonical_pair_ends r t) as [E1|E1]; rewrite E1; cbn; repeat case_bool_decide; try congruence;
    destruct (from_a d), (from_b d); cbn; try done. by rewrite (Z.add_comm (rtt_ms d0)).
Qed.

Lemma served_self s r : pairs_ok s -> distinct_ends s -> rtts_from s r !! r = None.
Proof.
  intros Hok Hd. rewrite rtts_from_lookup by done. rewrite canonical_pair_of by apply string_leb_refl.
  destruct (s !! (r, r)) as [d|] eqn:E; [|done]. by destruct (Hd _ _ E).
Qed.

Lemma record_distinct s r t v now : distinct_ends s -> distinct_ends (record s r t v now).2.
Proof.
  intros Hd. unfold record. case_decide as Hne; [done|].
  assert (H : forall x, distinct_ends (<[canonical_pair r t := x]> s)).
  { intros x k d. rewrite lookup_insert. case_decide; [|apply Hd]. intros _. subst. destruct (canonical_pair_ends r t) as [->| ->]; cbn; congruence. }
  destruct (direction _ _); [destruct (_ <=? _)|]; apply H.
Qed.

(** ** The ledger and restarts *)

(** The rows the ledger would load, from its keyed records. *)
Definition ledger_rows (l : gmap (string * string * string) (Z * Z)) : list DirectionRttRow :=
  (fun p => mkDirectionRttRow p.1.1.1 p.1.1.2 p.1.2 p.2.1 p.2.2) <$> map_to_list l.

(** A row of the direction from [r] to [t]. *)
Definition row_for (row : DirectionRttRow) (r t : string) : Prop := canonical_pair (row_a row) (row_b row) = canonical_pair r t /\ origin row = r.

Lemma seed_row_spec s row r t : r <> t ->
  stored (seed_row s row) r t =
    (if decide (row_for row r t) then Some (mkDirectionRtt (row_rtt_ms row) (row_measured_at row)) else stored s r t).
Proof.
  intros Hne. unfold seed_row. set (key := canonical_pair (row_a row) (row_b row)).
  destruct (negb _ && _) eqn:Eo.
  - apply andb_true_iff in Eo as [H1%negb_true_iff%bool_decide_eq_false H2%negb_true_iff%bool_decide_eq_false].
    rewrite decide_False; [done|]. intros [E Er]. fold key in E. rewrite Er, E in H1, H2.
    destruct (canonical_pair_ends r t) as [E1|E1]; rewrite E1 in *; cbn in *; congruence.
  - unfold stored. cbv zeta. rewrite lookup_insert. destruct (decide (key = canonical_pair r t)) as [Ek|Ek].
    2:{ rewrite decide_False; [done|]. intros [E _]. by fold key in E. }
    cbn [mbind option_bind]. destruct (decide (row_for row r t)) as [Hr|Hr].
    + destruct Hr as [_ Er]. rewrite Er, Ek. apply set_direction_same.
    + rewrite <- Ek. rewrite set_direction_other.
      * destruct (s !! key); [done|]. cbn. by destruct (bool_decide (r = key.1)).
      * apply andb_false_iff in Eo as [Eo|Eo]; apply negb_false_iff, bool_decide_eq_true in Eo;
          destruct (canonical_pair_ends r t) as [E1|E1]; rewrite Ek, E1 in *; cbn in *;
          repeat case_bool_decide; try congruence; exfalso; apply Hr; split; try done; fold key; congruence.
Qed.

Lemma seed_spec rows : forall s r t x, r <> t -> (forall row, row ∈ rows -> row_for row r t -> mkDirectionRtt (row_rtt_ms row) (row_measured_at row) = x) ->
  stored (seed s rows) r t = (if decide (Exists (fun row => row_for row r t) rows) then Some x else stored s r t).
Proof.
  induction rows as [|row rows IH]; intros s r t x Hne Hx; [done|]. change (seed s (row :: rows)) with (seed (seed_row s row) rows).
  rewrite (IH _ r t x Hne) by (intros row' Hin; apply Hx; by right). rewrite seed_row_spec by done.
  destruct (decide (Exists _ rows)) as [He|He].
  - rewrite decide_True; [done|by right].
  - destruct (decide (row_for row r t)) as [Hr|Hr].
    + rewrite decide_True by (by left). f_equal. apply Hx; [by left|done].
    + rewrite decide_False; [done|]. by intros [|]%Exists_cons.
Qed.

Lemma seed_row_ok s row : row_a row <> row_b row -> pairs_ok s /\ distinct_ends s -> pairs_ok (seed_row s row) /\ distinct_ends (seed_row s row).
Proof.
  intros Hne [Hok Hd]. unfold seed_row. destruct (negb _ && _); [done|]. set (key := canonical_pair _ _).
  assert (Hk : key.1 <> key.2) by (unfold key; destruct (canonical_pair_ends (row_a row) (row_b row)) as [E|E]; rewrite E; cbn; congruence).
  split; intros k d; rewrite lookup_insert; case_decide as Ek; try apply Hok; try apply Hd; intros [= <-]; subst k; [|done].
  split; [apply canonical_pair_ordered|]. split; [|done]. unfold set_direction. destruct (bool_decide _); [left|right]; done.
Qed.

Lemma seed_ok rows : forall s, Forall (fun row => row_a row <> row_b row) rows -> pairs_ok s /\ distinct_ends s ->
  pairs_ok (seed s rows) /\ distinct_ends (seed s rows).
Proof.
  induction rows as [|row rows IH]; intros s Hr Hok; [done|]. apply Forall_cons in Hr as [H1 H2].
  change (seed s (row :: rows)) with (seed (seed_row s row) rows). apply IH; [done|]. by apply seed_row_ok.
Qed.

(** The table, the ledger and the latest report of each direction agree. *)
Record table_ok (s : PairRttStore) (l : gmap (string * string * string) (Z * Z)) (last : string -> string -> option Z) : Prop := mkTableOk {
  to_pairs : pairs_ok s;
  to_ends : distinct_ends s;
  to_keys : forall k v, l !! k = Some v -> exists t, k.2 <> t /\ k.1 = canonical_pair k.2 t;
  to_ledger : forall r t, r <> t -> fst <$> l !! (canonical_pair r t, r) = rtt_ms <$> stored s r t;
  to_last : forall r t, r <> t -> match last r t, stored s r t with
    | Some v, Some e => rtt_ms e = v \/ Z.abs (rtt_ms e - v) <= deadband_ms (rtt_ms e)
    | None, None => True | _, _ => False end;
}.

Definition note_last (last : string -> string -> option Z) (r t : string) (v : Z) : string -> string -> option Z :=
  fun r' t' => if decide (r' = r /\ t' = t) then Some v else last r' t'.

(** The report each direction was last given, over the beats folded in so far. *)
Definition last_in (regions : list string) (relay_region : option string) (last : string -> string -> option Z) (reports : list (string * Z)) :
    string -> string -> option Z :=
  match relay_region with
  | None => last
  | Some r => foldl (fun last report => if decide (report.1 ∈ regions /\ report.1 <> r) then note_last last r report.1 report.2 else last) last reports
  end.

Lemma record_self s r v now : record s r r v now = (false, s).
Proof. unfold record. by rewrite decide_True. Qed.

Lemma ingest_report_ok regions r s l last report now : table_ok s l last ->
  let st := ingest_report regions r (s, l) report now in
  table_ok st.1 st.2 (if decide (report.1 ∈ regions /\ report.1 <> r) then note_last last r report.1 report.2 else last).
Proof.
  intros Hok. unfold ingest_report. destruct report as [t v]. cbn [fst snd]. case_bool_decide as Hin; [|by rewrite decide_False by naive_solver].
  destruct (decide (t = r)) as [->|Hne]; [rewrite record_self, decide_False by naive_solver; done|]. rewrite decide_True by done.
  destruct (record_spec s r t v now ltac:(congruence)) as (R1 & R2 & R3 & R4). pose proof (record_distinct s r t v now (to_ends _ _ _ Hok)) as R5.
  destruct (record s r t v now) as [changed s'] eqn:Er. cbn [fst snd] in *.
  assert (Hlast : forall r' t', (r', t') <> (r, t) -> r' <> t' -> stored s' r' t' = stored s r' t') by done.
  assert (Hr : table_ok s l last -> (fst <$> (if changed then <[(canonical_pair r t, r) := (v, now)]> l else l) !! (canonical_pair r t, r)) = rtt_ms <$> stored s' r t).
  { intros _. rewrite R1. cbn. pose proof (to_ledger _ _ _ Hok r t ltac:(congruence)) as Hl. rewrite R2. destruct (stored s r t) as [e|]; [destruct (_ <=? _)|]; cbn [negb].
    - exact Hl.
    - by rewrite lookup_insert_eq.
    - by rewrite lookup_insert_eq. }
  split; [by apply R4, Hok|done| | |].
  - intros k x Hk. destruct changed; [|by eapply to_keys]. apply lookup_insert_Some in Hk as [[<- _]|[_ Hk]]; [|by eapply to_keys]. exists t. cbn. split; [by apply not_eq_sym|done].
  - intros r' t' Hne'. destruct (decide ((r', t') = (r, t))) as [[= -> ->]|Hd]; [by apply Hr|]. rewrite Hlast by done.
    rewrite <- (to_ledger _ _ _ Hok r' t' Hne'). destruct changed; [|done]. rewrite lookup_insert_ne; [done|].
    intros [= E1 E2]. subst r'. apply Hd. f_equal. destruct (canonical_pair_ends r t) as [E|E], (canonical_pair_ends r t') as [E'|E']; rewrite E, E' in E1; congruence.
  - intros r' t' Hne'. unfold note_last. destruct (decide (r' = r /\ t' = t)) as [[-> ->]|Hd].
    + rewrite R1. cbn. destruct (stored s r t) as [e|]; [|by left]. destruct (Z.leb_spec (Z.abs (rtt_ms e - v)) (deadband_ms (rtt_ms e))); [by right|by left].
    + rewrite Hlast by naive_solver. by apply (to_last _ _ _ Hok).
Qed.

(** Beats from relays, folded in one after another. *)
Fixpoint backbone (regions : list string) (beats : list (option string * list (string * Z) * Z)) :
    PairRttStore * gmap (string * string * string) (Z * Z) * (string -> string -> option Z) :=
  match beats with
  | [] => (∅, ∅, fun _ _ => None)
  | (r, reports, now) :: beats =>
      let '(st, last) := backbone regions beats in (ingest regions r st reports now, last_in regions r last reports)
  end.

Lemma backbone_ok regions beats : let '(st, last) := backbone regions beats in table_ok st.1 st.2 last.
Proof.
  induction beats as [|[[r reports] now] beats IH]; cbn [backbone].
  { split; cbn; try done; intros r t _; unfold stored; by rewrite ?lookup_empty. }
  destruct (backbone regions beats) as [st last]. unfold ingest, last_in. destruct r as [r|]; [|done].
  revert st last IH. induction reports as [|x xs IHx]; intros st last IH; [done|]. cbn [foldl]. apply IHx.
  destruct st as [s l]. by apply ingest_report_ok.
Qed.

Lemma ledger_row_for l r t row : (forall k v, l !! k = Some v -> exists t, k.2 <> t /\ k.1 = canonical_pair k.2 t) ->
  row ∈ ledger_rows l -> row_a row <> row_b row /\
  (row_for row r t <-> l !! (canonical_pair r t, r) = Some (row_rtt_ms row, row_measured_at row) /\ origin row = r /\ canonical_pair (row_a row) (row_b row) = canonical_pair r t).
Proof.
  intros Hk. unfold ledger_rows. rewrite list_elem_of_fmap. intros ([[[a b] o] [v w]] & -> & Hin%elem_of_map_to_list). cbn.
  destruct (Hk _ _ Hin) as (x & Hne & E). cbn in *.
  assert (Hab : canonical_pair a b = (a, b)) by (apply canonical_pair_of; change (String.leb (a, b).1 (a, b).2 = true); rewrite E; apply canonical_pair_ordered).
  split; [destruct (canonical_pair_ends o x) as [E1|E1]; congruence|]. unfold row_for. cbn. rewrite Hab. split; [|naive_solver].
  intros [E1 ->]. by rewrite <- E1.
Qed.

(** Over any beats of any relays: the two ends of a pair read the same value;
    every direction holds a value within its own dead band of the last report;
    and a coordinator restarted from its ledger, which is only written when a
    value moves, serves every pair exactly as before. *)
Theorem backbone_table_tracks (regions : list string) (beats : list (option string * list (string * Z) * Z)) :
  let '(s, ledger, last) := backbone regions beats in
  (forall r t, rtts_from s r !! t = rtts_from s t !! r) /\
  (forall r t, r <> t -> match last r t, stored s r t with
     | Some v, Some e => Z.abs (rtt_ms e - v) <= deadband_ms (rtt_ms e)
     | None, None => True | _, _ => False end) /\
  (forall r, rtts_from (seed ∅ (ledger_rows ledger)) r = rtts_from s r).
Proof.
  pose proof (backbone_ok regions beats) as Hok. destruct (backbone regions beats) as [[s l] last]. cbn [fst snd] in Hok.
  assert (Hband : forall e v, rtt_ms e = v \/ Z.abs (rtt_ms e - v) <= deadband_ms (rtt_ms e) -> Z.abs (rtt_ms e - v) <= deadband_ms (rtt_ms e)).
  { intros e v [<-|]; [|done]. unfold deadband_ms, RTT_DEADBAND_MIN_MS. lia. }
  split; [|split].
  - intros r t. rewrite !rtts_from_lookup by apply Hok. by rewrite canonical_pair_comm.
  - intros r t Hne. pose proof (to_last _ _ _ Hok r t Hne). destruct (last r t), (stored s r t); try done. by apply Hband.
  - set (s' := seed ∅ (ledger_rows l)).
    assert (Hs' : pairs_ok s' /\ distinct_ends s').
    { apply seed_ok; [|by split; intros k d; rewrite lookup_empty]. apply Forall_forall. intros row Hin. by apply (ledger_row_for l "" "" row (to_keys _ _ _ Hok)). }
    assert (Hst : forall r t, r <> t -> rtt_ms <$> stored s' r t = rtt_ms <$> stored s r t).
    { intros r t Hne. rewrite <- (to_ledger _ _ _ Hok r t Hne). destruct (l !! (canonical_pair r t, r)) as [[v w]|] eqn:E.
      - unfold s'. rewrite (seed_spec _ ∅ r t (mkDirectionRtt v w) Hne).
        + rewrite decide_True; [done|]. apply Exists_exists. exists (mkDirectionRttRow (canonical_pair r t).1 (canonical_pair r t).2 r v w). split.
          * unfold ledger_rows. apply list_elem_of_fmap. exists ((canonical_pair r t, r), (v, w)). split; [done|]. by apply elem_of_map_to_list.
          * split; [|done]. cbn. rewrite (canonical_pair_of _ _ (canonical_pair_ordered r t)). by destruct (canonical_pair r t).
        + intros row Hin Hr. apply (ledger_row_for l r t row (to_keys _ _ _ Hok)) in Hr as (Hl & _); [|done]. rewrite E in Hl. by injection Hl as -> ->.
      - unfold s'. rewrite (seed_spec _ ∅ r t (mkDirectionRtt 0 0) Hne).
        + rewrite decide_False; [unfold stored; by rewrite lookup_empty|]. intros (row & Hin & Hr)%Exists_exists.
          apply (ledger_row_for l r t row (to_keys _ _ _ Hok)) in Hr as (Hl & _); [|done]. congruence.
        + intros row Hin Hr. apply (ledger_row_for l r t row (to_keys _ _ _ Hok)) in Hr as (Hl & _); [|done]. congruence. }
    intros r. apply map_eq. intros t. destruct (decide (r = t)) as [<-|Hne]; [rewrite !served_self; try apply Hok; by try apply Hs'|].
    rewrite !served_stored by (done || apply Hs' || apply Hok). pose proof (Hst r t Hne) as H1. pose proof (Hst t r (not_eq_sym Hne)) as H2.
    destruct (stored s' r t), (stored s r t), (stored s' t r), (stored s t r); cbn in *; congruence.
Qed.
