(* ===== verification/Placement.v ===== *)
(** * Where a session's slots home ([coordinator/src/session/placement.rs])

    Region-aware placement over the available relays, the nearest-relay choice it
    shares with a re-home, and the hold of a create for a cold region.  A panic
    (an index or an [expect]) is [None]; an error is [Err].  The iteration order
    of the registry's map is immaterial, since the candidates are sorted by id. *)

From Stdlib Require Import ZArith Lia.
From stdpp Require Import gmap sorting list strings.
From S2P Require Import Prelude.
From S2P Require Import BTree.
From S2P Require Import Registry.
From S2P Require Import PairRtts.

Open Scope Z_scope.

Definition CAPABILITY_FINALIZED_DROP_V1 : string := "finalized_drop_v1".
Definition CAPABILITY_ROLLBACK_V1 : string := "rollback_v1".
Definition CAPABILITY_EVIDENCE_V1 : string := "evidence_v1".
Definition SERVING_RELAY_MARGIN_MS : Z := 15.
Definition PENDING_PRUNE_MIN_SLACK : Z := 600.

Inductive SessionSetupError : Type :=
| NoRelaysAvailable
| SessionCeilingReached
| InvalidEvidenceKeys
| SlotOutOfRange (slot : Z)
| TenantNotFound (tenant : string)
| NoPlayers
| DuplicateSlot (slot : Z)
| ExternalIdTooLong
| ExternalRefTooLong (slot : Z)
| LobbyPolicyTooManyEntries
| LobbyPolicyPayloadsTooLarge
| LobbyPolicySlotNotInRoster (slot : Z)
| IdempotentCreateMismatch.

Record PlayerHandoff : Type := mkPlayerHandoff {
  pl_slot : Z;
  client_pubkey : list Z;
  pl_observer : bool;
  external_ref : option string;
  pl_region : option string;
  require_evidence : bool;
}.

Record LobbyPolicyEntry : Type := mkLobbyPolicyEntry { lp_slot : Z; lp_payload : list Z }.

Record SessionRequest : Type := mkSessionRequest {
  rq_periodic_evidence : bool;
  rq_evidence_keys : list (Z * list Z);
  rq_tenant : string;
  players : list PlayerHandoff;
  rq_external_id : option string;
  rq_latency_estimate_ms : option Z;
  rq_rollback : bool;
  rq_lobby_policy : option (list LobbyPolicyEntry);
}.

Record Placement : Type := mkPlacement {
  pm_home : RelayEndpoint;
  slot_homes : list (Z * RelayEndpoint);
  relay_ids : list Z;
  pm_homes : gmap Z Z;
  pm_finalized_drops : bool;
  pm_capable_cohort : bool;
  pm_rollback : bool;
  pm_relay_certs : gmap Z (list Z);
  pm_relay_regions : gmap Z (option string);
}.

Definition has_capability (e : RelayEntry) (c : string) : bool := bool_decide (c ∈ capabilities e).
Definition relay_finalize_capable (e : RelayEntry) : bool := has_capability e CAPABILITY_FINALIZED_DROP_V1.
Definition relay_rollback_capable (e : RelayEntry) : bool := relay_finalize_capable e && has_capability e CAPABILITY_ROLLBACK_V1.
Definition relay_evidence_capable (e : RelayEntry) : bool := has_capability e CAPABILITY_EVIDENCE_V1.

(** ** The nearest relay *)

(** [Iterator::min_by_key] with pairs as keys: the first of the least. *)
Definition key_lt (x y : Z * Z) : bool := (x.1 <? y.1) || ((x.1 =? y.1) && (x.2 <? y.2)).
Definition min_by_key {A} (key : A -> Z * Z) (l : list A) : option A :=
  foldl (fun acc x => match acc with Some y => if key_lt (key x) (key y) then Some x else acc | None => Some x end) None l.

Definition score (rtts : gmap string Z) (requested : string) (e : RelayEntry) : option Z :=
  r ← region e; if decide (r = requested) then Some 0 else rtts !! r.

Definition scored (rtts : gmap string Z) (requested : string) (entries : list RelayEntry) : list (Z * RelayEntry) :=
  omap (fun e => v ← score rtts requested e; Some (v, e)) entries.

Definition find_entry (entries : list RelayEntry) (id : Z) : option RelayEntry := snd <$> list_find (fun e => relay_id e = id) entries.

(** The serving relays within the margin of [best], each with its score and its
    rank in the serving list. *)
Fixpoint serving_scored (rtts : gmap string Z) (requested : string) (entries : list RelayEntry) (best rank : Z) (serving : list Z) :
    list (Z * Z * RelayEntry) :=
  match serving with
  | [] => []
  | id :: serving =>
      let rest := serving_scored rtts requested entries best (rank + 1) serving in
      match find_entry entries id ≫= (fun e => v ← score rtts requested e; Some (v, e)) with
      | Some (v, e) => if v <=? saturating_add u32_max best SERVING_RELAY_MARGIN_MS then (v, rank, e) :: rest else rest
      | None => rest
      end
  end.

Definition nearest_relay (entries : list RelayEntry) (requested : string) (serving : list Z) (pairs : PairRttStore) : option RelayEntry :=
  let rtts := rtts_from pairs requested in
  '(best, best_entry) ← min_by_key (fun p => (p.1, relay_id p.2)) (scored rtts requested entries);
  mret (match min_by_key (fun p => p.1) (serving_scored rtts requested entries best 0 serving) with
        | Some (_, e) => e
        | None => best_entry
        end).

(** ** Holds for cold regions *)

Fixpoint unlit_from (entries : list RelayEntry) (unlit : list string) (ps : list PlayerHandoff) : list string :=
  match ps with
  | [] => unlit
  | p :: ps =>
      match pl_region p with
      | Some r =>
          if bool_decide (r ∈ unlit) || bool_decide (Exists (fun e => region e = Some r) entries)
          then unlit_from entries unlit ps else unlit_from entries (unlit ++ [r]) ps
      | None => unlit_from entries unlit ps
      end
  end.

Definition unlit_requested_regions (g : RelayRegistry) (rq : SessionRequest) : list string :=
  unlit_from (available_entries g) [] (players rq).

(** Whether the create is held, and the anchors.  [u64::MAX] marks an unusable
    clock. *)
Definition hold_pending_create (pending : gmap (string * string) Z) (key : string * string) (now create_hold : Z) :
    bool * gmap (string * string) Z :=
  if now =? u64_max then (false, base.delete key pending)
  else
    let cap := create_hold in
    let prune_horizon := Z.max (Z.min u64_max (cap * 10)) PENDING_PRUNE_MIN_SLACK in
    let map := filter (fun p => saturating_sub now p.2 <= prune_horizon) pending in
    match map !! key with
    | None => (true, <[key := now]> map)
    | Some first => if saturating_sub now first <? cap then (true, map) else (false, base.delete key map)
    end.

(** ** Placement *)

Definition by_relay_id (x y : RelayEntry) : Prop := relay_id x <= relay_id y.
#[export] Instance by_relay_id_dec x y : Decision (by_relay_id x y).
Proof. unfold by_relay_id. apply _. Defined.

(** The state of the loops that resolve regions: each resolved region's relay,
    the regions still unlit, the relays chosen so far in ascending order. *)
Record Regions : Type := mkRegions { region_relay : gmap string RelayEntry; unlit : list string; chosen : list Z }.

Fixpoint resolve_lit (entries : list RelayEntry) (blind : RelayEntry) (st : Regions) (ps : list PlayerHandoff) : Regions :=
  match ps with
  | [] => st
  | p :: ps =>
      resolve_lit entries blind
        (match pl_region p with
         | None => mkRegions (region_relay st) (unlit st) (BTreeSet.insert (relay_id blind) (chosen st))
         | Some r =>
             if bool_decide (is_Some (region_relay st !! r)) || bool_decide (r ∈ unlit st) then st
             else
               match list_find (fun e => region e = Some r) entries with
               | Some (_, e) => mkRegions (<[r := e]> (region_relay st)) (unlit st) (BTreeSet.insert (relay_id e) (chosen st))
               | None => mkRegions (region_relay st) (unlit st ++ [r]) (chosen st)
               end
         end) ps
  end.

Definition resolve_unlit (entries : list RelayEntry) (blind : RelayEntry) (pairs : PairRttStore) (st : Regions) : Regions :=
  foldl (fun st r =>
    let e := default blind (nearest_relay entries r (chosen st) pairs) in
    mkRegions (<[r := e]> (region_relay st)) (unlit st) (BTreeSet.insert (relay_id e) (chosen st))) st (unlit st).

(** [region_relay\[region\]] panics on an unresolved region. *)
Fixpoint slot_relays (st : Regions) (blind : RelayEntry) (ps : list PlayerHandoff) : option (list (Z * RelayEntry)) :=
  match ps with
  | [] => Some []
  | p :: ps =>
      e ← match pl_region p with None => Some blind | Some r => region_relay st !! r end;
      rest ← slot_relays st blind ps;
      Some ((pl_slot p, e) :: rest)
  end.

Definition count_slots (l : list (Z * RelayEntry)) : gmap Z Z :=
  foldl (fun c x => <[relay_id x.2 := default 0 (c !! relay_id x.2) + 1]> c) ∅ l.

(** [Iterator::max] of counts, [None] on none. *)
Definition max_of (l : list Z) : option Z := foldl (fun acc x => Some (match acc with Some y => Z.max y x | None => x end)) None l.

Definition sorted_keys (c : gmap Z Z) : list Z := merge_sort Z.le (map_to_list c).*1.

Section placement.
Context {sha : Sha256}.

Definition candidates (g : RelayRegistry) (rq : SessionRequest) : list RelayEntry :=
  let entries := available_entries g in
  if bool_decide (Exists (fun p => require_evidence p = true) (players rq)) then filter relay_evidence_capable entries else entries.

(** The cohort: the candidates on one side of the capability boundaries. *)
Definition cohort (rq : SessionRequest) (entries : list RelayEntry) : bool * bool * list RelayEntry :=
  let rollback := rq_rollback rq && bool_decide (Exists relay_rollback_capable entries) in
  let entries := if rollback then filter relay_rollback_capable entries else entries in
  let capable := bool_decide (Exists relay_finalize_capable entries) in
  (rollback, capable, if capable then filter relay_finalize_capable entries else entries).

(** The assigned relays distilled into the response and the records. *)
Definition distill (entries : list RelayEntry) (slot_relay : list (Z * RelayEntry)) (session : Z) (rollback capable finalize_feature : bool) :
    option Placement :=
  let counts := count_slots slot_relay in
  max_count ← max_of (map_to_list counts).*2;
  let home_candidates := filter (fun id => counts !! id = Some max_count) (sorted_keys counts) in
  home_id ← home_candidates !! Z.to_nat (session mod Z.of_nat (length home_candidates));
  let ids := home_id :: filter (fun id => id <> home_id) (sorted_keys counts) in
  home_entry ← find_entry entries home_id;
  serving ← mapM (find_entry entries) ids;
  Some (mkPlacement (endpoint_of home_entry)
    ((fun x => (x.1, endpoint_of x.2)) <$> filter (fun x => relay_id x.2 <> home_id) slot_relay)
    ids
    (foldl (fun m x => <[x.1 := relay_id x.2]> m) ∅ slot_relay)
    (capable && (finalize_feature || rollback)) capable rollback
    (list_to_map (zip ids ((fun e => cert_fingerprint (cert_der e)) <$> serving)))
    (list_to_map (zip ids (region <$> serving)))).

Definition place_by_region (g : RelayRegistry) (pairs : PairRttStore) (rq : SessionRequest) (session : Z) (finalize_feature : bool) :
    option (result Placement SessionSetupError) :=
  let entries := candidates g rq in
  match entries with
  | [] => Some (Err NoRelaysAvailable)
  | _ =>
      let '(rollback, capable, entries) := cohort rq entries in
      let entries := merge_sort by_relay_id entries in
      blind ← head entries;
      let st := resolve_unlit entries blind pairs (resolve_lit entries blind (mkRegions ∅ [] []) (players rq)) in
      slot_relay ← slot_relays st blind (players rq);
      p ← distill entries slot_relay session rollback capable finalize_feature;
      Some (Ok p)
  end.

End placement.
