(* ===== verification/PlacementSound.v ===== *)
(** * Placement is sound

    What [place_by_region] and [nearest_relay] guarantee: no panic, one
    capability cohort, every slot homed on an available relay of its region when
    there is one and near it otherwise, a response that tells every client its
    own home, and a serving set that is exactly the homes. *)

From Stdlib Require Import ZArith Lia.
From stdpp Require Import gmap sorting list strings.
From S2P Require Import Prelude.
From S2P Require Import BTree.
From S2P Require Import Registry.
From S2P Require Import PairRtts.
From S2P Require Import Placement.

Open Scope Z_scope.

(** ** Least elements *)

Lemma key_lt_trans x y z : key_lt x y = false -> key_lt y z = false -> key_lt x z = false.
Proof. unfold key_lt. lia. Qed.

Lemma min_by_key_from {A} (key : A -> Z * Z) l : forall acc,
  foldl (fun acc x => match acc with Some y => if key_lt (key x) (key y) then Some x else acc | None => Some x end) acc l =
    match acc, min_by_key key l with
    | Some y, Some x => Some (if key_lt (key x) (key y) then x else y)
    | None, r => r
    | Some y, None => Some y end.
Proof.
  induction l as [|x l IH]; intros acc; cbn [foldl]; [by destruct acc|].
  change (min_by_key key (x :: l)) with (foldl (fun acc x => match acc with Some y => if key_lt (key x) (key y) then Some x else acc | None => Some x end) (Some x) l).
  rewrite (IH (Some x)). destruct acc as [y|]; [|by rewrite IH].
  destruct (key_lt (key x) (key y)) eqn:E1; rewrite IH; destruct (min_by_key key l) as [z|]; try (by rewrite ?E1);
    destruct (key_lt (key z) (key x)) eqn:E2, (key_lt (key z) (key y)) eqn:E3; rewrite ?E1; try done; exfalso; unfold key_lt in *; lia.
Qed.

Lemma min_by_key_spec {A} (key : A -> Z * Z) l :
  match min_by_key key l with
  | Some x => x ∈ l /\ forall y, y ∈ l -> key_lt (key y) (key x) = false
  | None => l = [] end.
Proof.
  induction l as [|x l IH]; [done|]. unfold min_by_key. cbn [foldl]. rewrite min_by_key_from.
  destruct (min_by_key key l) as [y|] eqn:E.
  - destruct IH as [Hy Hmin]. destruct (key_lt (key y) (key x)) eqn:Hl.
    + split; [by right|]. intros z [->|Hz]%elem_of_cons; [unfold key_lt in *; lia|by apply Hmin].
    + split; [by left|]. intros z [->|Hz]%elem_of_cons; [unfold key_lt; lia|]. apply key_lt_trans with (key y); [by apply Hmin|done].
  - subst l. split; [by left|]. intros z [->|Hz]%elem_of_cons; [unfold key_lt; lia|by apply not_elem_of_nil in Hz].
Qed.

Lemma find_entry_Some entries id e : find_entry entries id = Some e -> e ∈ entries /\ relay_id e = id.
Proof.
  unfold find_entry. destruct (list_find _ entries) as [[i x]|] eqn:E; [|done]. intros [= <-].
  apply list_find_Some in E as (Hi & Hid & _). split; [by eapply list_elem_of_lookup_2|done].
Qed.

Lemma find_entry_is_Some entries id : (exists e, e ∈ entries /\ relay_id e = id) -> is_Some (find_entry entries id).
Proof.
  intros (e & He & Hid). unfold find_entry. destruct (list_find_elem_of (fun e => relay_id e = id) entries e He Hid) as [x ->]. by eexists.
Qed.

(** ** The nearest relay *)

Lemma scored_elem rtts rg entries v e : (v, e) ∈ scored rtts rg entries <-> e ∈ entries /\ score rtts rg e = Some v.
Proof.
  unfold scored. rewrite list_elem_of_omap. split.
  - intros (x & Hx & H). destruct (score rtts rg x) eqn:E; [|done]. cbn in H. by injection H as <- <-.
  - intros [He Hs]. exists e. by rewrite Hs.
Qed.

Lemma serving_scored_elem rtts rg entries best serving : forall rank v k e,
  (v, k, e) ∈ serving_scored rtts rg entries best rank serving ->
  relay_id e ∈ serving /\ find_entry entries (relay_id e) = Some e /\ score rtts rg e = Some v /\ v <= best + SERVING_RELAY_MARGIN_MS.
Proof.
  induction serving as [|id serving IH]; intros rank v k e; cbn [serving_scored]; [by intros ?%not_elem_of_nil|].
  assert (Hrest : (v, k, e) ∈ serving_scored rtts rg entries best (rank + 1) serving ->
    relay_id e ∈ id :: serving /\ find_entry entries (relay_id e) = Some e /\ score rtts rg e = Some v /\ v <= best + SERVING_RELAY_MARGIN_MS).
  { intros (H1 & H2)%IH. split; [by right|done]. }
  destruct (find_entry entries id) as [x|] eqn:Ex; [|done]. cbn [mbind option_bind]. destruct (score rtts rg x) as [w|] eqn:Ew; [|done]. cbn [mbind option_bind].
  destruct (Z.leb_spec w (saturating_add u32_max best SERVING_RELAY_MARGIN_MS)); [|done]. intros [[= -> -> ->]|Hin]%elem_of_cons; [|by apply Hrest].
  destruct (find_entry_Some _ _ _ Ex) as [_ <-]. split; [by left|]. repeat split; [done|done|]. unfold saturating_add in *. lia.
Qed.

Lemma serving_scored_intro rtts rg entries best serving : forall rank e v,
  relay_id e ∈ serving -> find_entry entries (relay_id e) = Some e -> score rtts rg e = Some v ->
  v <= saturating_add u32_max best SERVING_RELAY_MARGIN_MS -> exists k, (v, k, e) ∈ serving_scored rtts rg entries best rank serving.
Proof.
  induction serving as [|id serving IH]; intros rank e v Hin Hf Hs Hv; [by apply not_elem_of_nil in Hin|]. cbn [serving_scored].
  apply elem_of_cons in Hin as [Hid|Hin].
  - rewrite <- Hid, Hf. cbn [mbind option_bind]. rewrite Hs. cbn [mbind option_bind]. destruct (Z.leb_spec v (saturating_add u32_max best SERVING_RELAY_MARGIN_MS)); [|lia].
    eexists. by left.
  - destruct (IH (rank + 1) e v Hin Hf Hs Hv) as [k Hk]. exists k.
    destruct (find_entry entries id) as [x|]; [|done]. cbn [mbind option_bind]. destruct (score rtts rg x) as [w|]; [|done]. cbn [mbind option_bind].
    destruct (_ <=? _); [by right|done].
Qed.

(** The choice is a rankable candidate that no rankable candidate beats by more
    than the margin; a serving relay within the margin of the best is preferred,
    and otherwise nothing beats the choice at all, ties going to the lower id. *)
Lemma nearest_relay_spec entries rg serving pairs :
  let rtts := rtts_from pairs rg in
  match nearest_relay entries rg serving pairs with
  | Some e => e ∈ entries /\ exists v, score rtts rg e = Some v /\
      (forall e' v', e' ∈ entries -> score rtts rg e' = Some v' -> v <= v' + SERVING_RELAY_MARGIN_MS) /\
      (relay_id e ∈ serving \/
       forall e' v', e' ∈ entries -> score rtts rg e' = Some v' -> v < v' \/ (v = v' /\ relay_id e <= relay_id e'))
  | None => forall e, e ∈ entries -> score rtts rg e = None
  end.
Proof.
  intros rtts. unfold nearest_relay. fold rtts. pose proof (min_by_key_spec (fun p => (p.1, relay_id p.2)) (scored rtts rg entries)) as Hm.
  destruct (min_by_key _ (scored rtts rg entries)) as [[best be]|] eqn:E; cbn [mbind option_bind].
  2:{ intros e He. destruct (score rtts rg e) as [v|] eqn:Ev; [|done]. assert (Hin : (v, e) ∈ scored rtts rg entries) by (by apply scored_elem).
      rewrite Hm in Hin. by apply not_elem_of_nil in Hin. }
  destruct Hm as [[Hbe Hbs]%scored_elem Hmin].
  assert (Hbest : forall e' v', e' ∈ entries -> score rtts rg e' = Some v' -> best < v' \/ (best = v' /\ relay_id be <= relay_id e')).
  { intros e' v' He' Hv'. specialize (Hmin (v', e') ltac:(by apply scored_elem)). unfold key_lt in Hmin. cbn in Hmin. lia. }
  cbn [mret option_ret]. pose proof (min_by_key_spec (fun p : Z * Z * RelayEntry => p.1) (serving_scored rtts rg entries best 0 serving)) as Hs.
  destruct (min_by_key _ (serving_scored _ _ _ _ _ _)) as [[[v k] e]|].
  - destruct Hs as [(Hid & Hf & Hv & Hle)%serving_scored_elem _]. apply find_entry_Some in Hf as [He _]. split; [done|]. exists v. split; [done|].
    split; [|by left]. intros e' v' He' Hv'. specialize (Hbest e' v' He' Hv'). lia.
  - split; [done|]. exists best. split; [done|]. split; [|by right]. intros e' v' He' Hv'. specialize (Hbest e' v' He' Hv'). unfold SERVING_RELAY_MARGIN_MS. lia.
Qed.

(** ** Regions *)

(** What the first loop keeps: a resolved region has the first relay in it, an
    unlit one has none. *)
Record lit_ok (entries : list RelayEntry) (st : Regions) : Prop := mkLitOk {
  lo_lit : forall r e, region_relay st !! r = Some e -> snd <$> list_find (fun e => region e = Some r) entries = Some e;
  lo_unlit : forall r, r ∈ unlit st -> list_find (fun e => region e = Some r) entries = None;
}.

Definition resolved (st : Regions) (r : string) : Prop := is_Some (region_relay st !! r) \/ r ∈ unlit st.

Lemma resolve_lit_spec entries blind ps : forall st, lit_ok entries st ->
  lit_ok entries (resolve_lit entries blind st ps) /\
  (forall r, resolved st r -> resolved (resolve_lit entries blind st ps) r) /\
  (forall p r, p ∈ ps -> pl_region p = Some r -> resolved (resolve_lit entries blind st ps) r).
Proof.
  induction ps as [|p ps IH]; intros st Hok; cbn [resolve_lit]; [split; [done|split; [done|by intros ? ? ?%not_elem_of_nil]]|].
  match goal with |- lit_ok _ (resolve_lit _ _ ?x _) /\ _ => set (st' := x) end.
  assert (Hst : lit_ok entries st' /\ (forall r, resolved st r -> resolved st' r) /\ forall r, pl_region p = Some r -> resolved st' r).
  { unfold st'. destruct (pl_region p) as [r|]; [|split; [by destruct Hok|done]].
    destruct (bool_decide _ || _) eqn:Eb.
    { split; [done|]. split; [done|]. intros r' [= <-]. apply orb_true_iff in Eb as [H%bool_decide_eq_true|H%bool_decide_eq_true]; [by left|by right]. }
    destruct (list_find _ entries) as [[i e]|] eqn:Ef.
    - split; [split; cbn; [|apply Hok]|].
      + intros r' e' [[<- <-]|[_ Hr']]%lookup_insert_Some; [by rewrite Ef|by apply Hok].
      + split; [intros r' [H|H]; [|by right]|intros r' [= <-]; left; cbn; by rewrite lookup_insert_eq].
        left. cbn. rewrite lookup_insert_is_Some. destruct (decide (r = r')); [by left|by right].
    - split; [split; cbn; [apply Hok|]|].
      + intros r' [H|H]%elem_of_app; [by apply Hok|]. apply list_elem_of_singleton in H as ->. done.
      + split; [intros r' [H|H]; [by left|right; cbn; apply elem_of_app; by left]|intros r' [= <-]; right; cbn; apply elem_of_app; right; by left]. }
  destruct Hst as (H1 & H2 & H3). destruct (IH st' H1) as (H4 & H5 & H6). split; [done|]. split; [auto|].
  intros p' r [->|Hin]%elem_of_cons Hr; [by apply H5, H3|by eapply H6].
Qed.

(** A region without a relay of its own goes to the nearest one, or to the blind
    pick when nothing can be ranked. *)
Definition near (entries : list RelayEntry) (blind : RelayEntry) (pairs : PairRttStore) (r : string) (e : RelayEntry) : Prop :=
  exists serving, e = default blind (nearest_relay entries r serving pairs).

Lemma resolve_unlit_spec entries blind pairs us : forall st,
  let st' := foldl (fun st r =>
    let e := default blind (nearest_relay entries r (chosen st) pairs) in
    mkRegions (<[r := e]> (region_relay st)) (unlit st) (BTreeSet.insert (relay_id e) (chosen st))) st us in
  (forall r, r ∉ us -> region_relay st' !! r = region_relay st !! r) /\
  (forall r, r ∈ us -> exists e, region_relay st' !! r = Some e /\ near entries blind pairs r e).
Proof.
  induction us as [|u us IH]; intros st; cbn [foldl]; [split; [done|by intros ? ?%not_elem_of_nil]|].
  match goal with |- context [foldl ?f ?s us] => destruct (IH s) as [H1 H2]; set (st' := foldl f s us) in * end. cbn in H1.
  split.
  - intros r Hr. apply not_elem_of_cons in Hr as [Hne Hr]. rewrite H1 by done. by rewrite lookup_insert_ne.
  - intros r [->|Hr]%elem_of_cons; [|by apply H2]. destruct (decide (u ∈ us)) as [Hu|Hu]; [by apply H2|].
    rewrite H1 by done. rewrite lookup_insert_eq. eexists. split; [done|]. by exists (chosen st).
Qed.

(** The relay a region resolves to. *)
Definition home_for (entries : list RelayEntry) (blind : RelayEntry) (pairs : PairRttStore) (rg : option string) (e : RelayEntry) : Prop :=
  match rg with
  | None => e = blind
  | Some r => match list_find (fun e => region e = Some r) entries with
              | Some (_, x) => e = x | None => near entries blind pairs r e end
  end.

Lemma near_elem entries blind pairs r e : blind ∈ entries -> near entries blind pairs r e -> e ∈ entries.
Proof.
  intros Hb [serving ->]. pose proof (nearest_relay_spec entries r serving pairs) as H. destruct (nearest_relay _ _ _ _); [apply H|done].
Qed.

Lemma home_for_elem entries blind pairs rg e : blind ∈ entries -> home_for entries blind pairs rg e -> e ∈ entries.
Proof.
  intros Hb. destruct rg as [r|]; [|by intros ->]. cbn. destruct (list_find _ entries) as [[i x]|] eqn:E; [|by apply near_elem].
  intros ->. apply list_find_Some in E as (Hi & _). by eapply list_elem_of_lookup_2.
Qed.

Lemma slot_relays_spec entries blind pairs ps qs : (forall p, p ∈ qs -> p ∈ ps) ->
  let st := resolve_unlit entries blind pairs (resolve_lit entries blind (mkRegions ∅ [] []) ps) in
  exists l, slot_relays st blind qs = Some l /\
    Forall2 (fun p x => x.1 = pl_slot p /\ home_for entries blind pairs (pl_region p) x.2) qs l.
Proof.
  intros Hsub st. destruct (resolve_lit_spec entries blind ps (mkRegions ∅ [] [])) as (H1 & _ & H3).
  { split; cbn; [intros r e; by rewrite lookup_empty|by intros r ?%not_elem_of_nil]. }
  unfold st, resolve_unlit. set (st0 := resolve_lit _ _ _ _) in *. destruct (resolve_unlit_spec entries blind pairs (unlit st0) st0) as [H4 H5].
  set (st1 := foldl _ _ _) in *.
  assert (Hr : forall p r, p ∈ ps -> pl_region p = Some r -> exists e, region_relay st1 !! r = Some e /\ home_for entries blind pairs (Some r) e).
  { intros p r Hp Hpr. cbn. destruct (decide (r ∈ unlit st0)) as [Hu|Hu].
    - rewrite (lo_unlit _ _ H1 r Hu). by apply H5.
    - destruct (H3 p r Hp Hpr) as [[e He]|]; [|done]. exists e. rewrite H4 by done. split; [done|].
      pose proof (lo_lit _ _ H1 r e He) as Hl. destruct (list_find _ _) as [[i x]|]; [|done]. by injection Hl. }
  clearbody st1. clear -Hr Hsub. induction qs as [|q qs IH]; [by exists []|]. cbn [slot_relays].
  destruct IH as (l & El & Hl); [intros; apply Hsub; by right|]. destruct (pl_region q) as [r|] eqn:Er.
  - destruct (Hr q r) as (e & -> & He); [apply Hsub; by left|done|]. cbn [mbind option_bind]. rewrite El. cbn. eexists. split; [done|].
    constructor; [|done]. by rewrite Er.
  - cbn [mbind option_bind]. rewrite El. cbn. eexists. split; [done|]. constructor; [|done]. by rewrite Er.
Qed.

(** ** Counts *)

Definition homed_count (l : list (Z * RelayEntry)) (id : Z) : Z := Z.of_nat (length (filter (fun x => relay_id x.2 = id) l)).

Lemma count_slots_spec l id : count_slots l !! id = if homed_count l id =? 0 then None else Some (homed_count l id).
Proof.
  unfold count_slots. induction l as [|x l IH] using rev_ind; [done|]. rewrite foldl_app. cbn [foldl].
  unfold homed_count in *. rewrite filter_app, length_app.
  destruct (decide (relay_id x.2 = id)) as [E|E].
  - rewrite E, lookup_insert_eq, IH, filter_cons_True, filter_nil by done. cbn [length]. set (n := length _).
    destruct (Z.eqb_spec (Z.of_nat n) 0), (Z.eqb_spec (Z.of_nat (n + 1)) 0); cbn; try lia; f_equal; lia.
  - rewrite lookup_insert_ne, IH, filter_cons_False, filter_nil by done. cbn [length]. by rewrite Nat.add_0_r.
Qed.

Lemma sorted_keys_elem c id : id ∈ sorted_keys c <-> is_Some (c !! id).
Proof.
  unfold sorted_keys. rewrite merge_sort_Permutation, list_elem_of_fmap. split.
  - intros ([k v] & -> & H%elem_of_map_to_list). by eexists.
  - intros [v Hv]. exists (id, v). split; [done|]. by apply elem_of_map_to_list.
Qed.

Lemma sorted_keys_sorted c : StronglySorted Z.le (sorted_keys c) /\ NoDup (sorted_keys c).
Proof.
  split; [apply StronglySorted_merge_sort; apply _|]. unfold sorted_keys. rewrite merge_sort_Permutation. apply NoDup_fst_map_to_list.
Qed.

Lemma count_slots_elem l id : is_Some (count_slots l !! id) <-> exists x, x ∈ l /\ relay_id x.2 = id.
Proof.
  rewrite count_slots_spec. destruct (Z.eqb_spec (homed_count l id) 0) as [E|E]; unfold homed_count in E.
  - split; [by intros []|]. intros (x & Hx & Hid). destruct (filter _ l) as [|y ys] eqn:Ef; [|cbn in E; lia].
    assert (Hin : x ∈ filter (fun x => relay_id x.2 = id) l) by (by apply list_elem_of_filter). rewrite Ef in Hin. by apply not_elem_of_nil in Hin.
  - split; [intros _|by eexists]. destruct (filter _ l) as [|y ys] eqn:Ef; [by cbn in E|]. exists y.
    assert (Hin : y ∈ filter (fun x => relay_id x.2 = id) l) by (rewrite Ef; by left). apply list_elem_of_filter in Hin. naive_solver.
Qed.

Lemma max_of_from l : forall acc, foldl (fun acc x => Some (match acc with Some y => Z.max y x | None => x end)) acc l =
  match acc, max_of l with Some y, Some x => Some (Z.max y x) | None, r => r | Some y, None => Some y end.
Proof.
  induction l as [|x l IH]; intros acc; cbn [foldl]; [by destruct acc|]. change (max_of (x :: l)) with (foldl (fun acc x => Some (match acc with Some y => Z.max y x | None => x end)) (Some x) l).
  rewrite IH, (IH (Some x)). destruct acc as [y|], (max_of l); f_equal; lia.
Qed.

Lemma max_of_spec l : match max_of l with Some m => m ∈ l /\ forall x, x ∈ l -> x <= m | None => l = [] end.
Proof.
  induction l as [|x l IH]; [done|]. change (max_of (x :: l)) with (foldl (fun acc x => Some (match acc with Some y => Z.max y x | None => x end)) (Some x) l).
  rewrite max_of_from. destruct (max_of l) as [m|].
  - destruct IH as [Hm Hle]. destruct (Z.max_spec x m) as [[? ->]|[? ->]].
    + split; [by right|]. intros y [->|Hy]%elem_of_cons; [lia|by apply Hle].
    + split; [by left|]. intros y [->|Hy]%elem_of_cons; [lia|]. specialize (Hle y Hy). lia.
  - subst. split; [by left|]. intros y [->|Hy]%elem_of_cons; [lia|by apply not_elem_of_nil in Hy].
Qed.

(** ** The distilled placement *)

Definition unique_ids (entries : list RelayEntry) : Prop := forall e e', e ∈ entries -> e' ∈ entries -> relay_id e = relay_id e' -> e = e'.

Lemma find_entry_unique entries e : unique_ids entries -> e ∈ entries -> find_entry entries (relay_id e) = Some e.
Proof.
  intros Hu He. destruct (find_entry_is_Some entries (relay_id e)) as [x Hx]; [by exists e|]. rewrite Hx. f_equal.
  apply find_entry_Some in Hx as [Hx Hid]. by apply Hu.
Qed.

Lemma mapM_Some_intro {A B} (f : A -> option B) l : (forall x, x ∈ l -> is_Some (f x)) -> exists k, mapM f l = Some k.
Proof.
  intros H. destruct (mapM f l) as [k|] eqn:E; [by exists k|]. apply mapM_None, Exists_exists in E as (x & Hx & Hn).
  destruct (H x Hx). congruence.
Qed.

(** What [distill] makes of assigned relays. *)
Record distilled (entries : list RelayEntry) (l : list (Z * RelayEntry)) (p : Placement) : Prop := mkDistilled {
  di_home : exists h rest e, relay_ids p = h :: rest /\ StronglySorted Z.lt rest /\ e ∈ entries /\ relay_id e = h /\ pm_home p = endpoint_of e /\
    slot_homes p = (fun x => (x.1, endpoint_of x.2)) <$> filter (fun x => relay_id x.2 <> h) l /\
    forall id, homed_count l id <= homed_count l h;
  di_nodup : NoDup (relay_ids p);
  di_ids : forall id, id ∈ relay_ids p <-> exists x, x ∈ l /\ relay_id x.2 = id;
  di_homes : pm_homes p = foldl (fun m x => <[x.1 := relay_id x.2]> m) ∅ l;
  di_certs : forall id, is_Some (pm_relay_certs p !! id) <-> id ∈ relay_ids p;
  di_regions : forall id, is_Some (pm_relay_regions p !! id) <-> id ∈ relay_ids p;
}.

Lemma zip_map_dom {A} (ids : list Z) (vs : list A) id : length ids = length vs ->
  is_Some (list_to_map (M := gmap Z A) (zip ids vs) !! id) <-> id ∈ ids.
Proof.
  intros Hlen. split.
  - intros [v Hv%elem_of_list_to_map_2]. by apply elem_of_zip_l in Hv.
  - intros Hin. destruct (list_to_map (zip ids vs) !! id) eqn:E; [by eexists|]. apply not_elem_of_list_to_map_2 in E.
    rewrite fst_zip in E by lia. done.
Qed.

Lemma strict_of_sorted (l : list Z) : StronglySorted Z.le l -> NoDup l -> StronglySorted Z.lt l.
Proof.
  induction 1 as [|x l Hs IH Hf]; [constructor|]. intros [Hx Hn]%NoDup_cons. constructor; [by apply IH|].
  apply Forall_forall. intros y Hy. rewrite Forall_forall in Hf. specialize (Hf y Hy). assert (x <> y) by (intros ->; done). lia.
Qed.

Lemma distill_spec {sha : Sha256} entries l session rollback capable ff :
  l <> [] -> (forall x, x ∈ l -> x.2 ∈ entries) ->
  exists p, distill entries l session rollback capable ff = Some p /\ distilled entries l p /\
    pm_capable_cohort p = capable /\ pm_rollback p = rollback /\ pm_finalized_drops p = capable && (ff || rollback).
Proof.
  intros Hne Hin. unfold distill. set (counts := count_slots l).
  assert (Hkey : forall id, is_Some (counts !! id) <-> exists x, x ∈ l /\ relay_id x.2 = id) by (intros id; apply count_slots_elem).
  pose proof (max_of_spec (map_to_list counts).*2) as Hmax. destruct (max_of _) as [mx|].
  2:{ destruct l as [|x l]; [done|]. destruct (proj2 (Hkey (relay_id x.2))) as [v Hv%elem_of_map_to_list]; [exists x; split; [by left|done]|].
      apply (list_elem_of_fmap_2 snd) in Hv. rewrite Hmax in Hv. by apply not_elem_of_nil in Hv. }
  cbn [mbind option_bind]. destruct Hmax as [([k v] & -> & Hk%elem_of_map_to_list)%list_elem_of_fmap Hle]. cbn [snd] in *.
  set (hc := filter _ (sorted_keys counts)).
  assert (Hhc : k ∈ hc) by (unfold hc; apply list_elem_of_filter; split; [done|]; apply sorted_keys_elem; by eexists).
  assert (Hlen : (length hc > 0)%nat) by (destruct hc; [by apply not_elem_of_nil in Hhc|cbn; lia]).
  destruct (lookup_lt_is_Some_2 hc (Z.to_nat (session mod Z.of_nat (length hc)))) as [h Hh].
  { pose proof (Z.mod_pos_bound session (Z.of_nat (length hc))). lia. }
  rewrite Hh. cbn [mbind option_bind]. apply list_elem_of_lookup_2 in Hh. unfold hc in Hh. apply list_elem_of_filter in Hh as [Hcv Hhk].
  set (ids := h :: filter (fun id => id <> h) (sorted_keys counts)).
  assert (Hids : forall id, id ∈ ids <-> exists x, x ∈ l /\ relay_id x.2 = id).
  { intros id. rewrite <- Hkey, <- sorted_keys_elem. unfold ids. rewrite elem_of_cons, list_elem_of_filter.
    destruct (decide (id = h)) as [->|]; naive_solver. }
  assert (Hfind : forall id, id ∈ ids -> is_Some (find_entry entries id)).
  { intros id (x & Hx & Hid)%Hids. apply find_entry_is_Some. exists x.2. by split; [apply Hin|]. }
  destruct (Hfind h) as [he Hhe]; [by left|]. rewrite Hhe. cbn [mbind option_bind].
  destruct (mapM_Some_intro (find_entry entries) ids Hfind) as [srv Hsrv]. rewrite Hsrv. cbn [mbind option_bind].
  eexists. split; [done|]. apply find_entry_Some in Hhe as [Hhe Hid]. destruct (sorted_keys_sorted counts) as [Hs Hn].
  split; [|done]. split; cbn [relay_ids pm_home slot_homes pm_homes pm_relay_certs pm_relay_regions].
  - exists h, (filter (fun id => id <> h) (sorted_keys counts)), he. split; [done|]. split; [|].
    { apply strict_of_sorted; [by apply StronglySorted_filter|by apply NoDup_filter]. }
    do 3 (split; [done|]). split; [done|]. intros id. unfold counts in Hcv. rewrite count_slots_spec in Hcv.
    destruct (homed_count l h =? 0); [done|]. injection Hcv as ->.
    destruct (decide (is_Some (counts !! id))) as [[w Hw]|Hw].
    + pose proof (Hle w ltac:(by eapply (list_elem_of_fmap_2 snd _ (id, w)), elem_of_map_to_list)). unfold counts in Hw. rewrite count_slots_spec in Hw.
      destruct (homed_count l id =? 0); [done|]. injection Hw as ->. lia.
    + unfold counts in Hk, Hw. rewrite count_slots_spec in Hw, Hk. destruct (Z.eqb_spec (homed_count l id) 0) as [->|]; [|by destruct Hw].
      destruct (homed_count l k =? 0); [done|]. injection Hk as <-. unfold homed_count. lia.
  - apply NoDup_cons. split; [|by apply NoDup_filter]. by intros [? _]%list_elem_of_filter.
  - exact Hids.
  - done.
  - intros id. apply zip_map_dom. by rewrite length_fmap, (length_mapM _ _ _ Hsrv).
  - intros id. apply zip_map_dom. by rewrite length_fmap, (length_mapM _ _ _ Hsrv).
Qed.

(** ** The guarantee *)

Lemma NoDup_key_unique {A B} (f : A -> B) l x y : NoDup (f <$> l) -> x ∈ l -> y ∈ l -> f x = f y -> x = y.
Proof.
  intros Hn [i Hi]%list_elem_of_lookup [j Hj]%list_elem_of_lookup E.
  assert (i = j); [|congruence]. eapply NoDup_lookup; [exact Hn| |]; rewrite list_lookup_fmap; [by rewrite Hi|]. rewrite Hj. cbn. by rewrite E.
Qed.

Lemma strongly_sorted_lookup {A} (R : relation A) l : StronglySorted R l -> forall i j x y, (i < j)%nat -> l !! i = Some x -> l !! j = Some y -> R x y.
Proof.
  induction 1 as [|z l Hs IH Hf]; intros i j x y Hij Hi Hj; [done|]. destruct j as [|j]; [lia|]. destruct i as [|i]; cbn in *.
  - injection Hi as ->. rewrite Forall_forall in Hf. by apply Hf, list_elem_of_lookup_2 with j.
  - apply (IH i j); [lia|done|done].
Qed.

Lemma homes_lookup l : forall m x, NoDup l.*1 -> x ∈ l -> foldl (fun (m : gmap Z Z) (x : Z * RelayEntry) => <[x.1 := relay_id x.2]> m) m l !! x.1 = Some (relay_id x.2).
Proof.
  assert (Hother : forall (l : list (Z * RelayEntry)) m s, s ∉ l.*1 -> foldl (fun (m : gmap Z Z) (x : Z * RelayEntry) => <[x.1 := relay_id x.2]> m) m l !! s = m !! s).
  { intros l'. induction l' as [|y l' IH]; intros m s Hs; [done|]. rewrite fmap_cons in Hs. apply not_elem_of_cons in Hs as [Hne Hs]. cbn [foldl]. rewrite IH by done. by rewrite lookup_insert_ne. }
  induction l as [|y l IH]; intros m x Hn Hx; [by apply not_elem_of_nil in Hx|]. rewrite fmap_cons in Hn. apply NoDup_cons in Hn as [Hy Hn]. cbn [foldl].
  apply elem_of_cons in Hx as [->|Hx]; [|by apply IH]. rewrite Hother by done. by rewrite lookup_insert_eq.
Qed.

Lemma homes_lookup_inv l : forall s id, foldl (fun (m : gmap Z Z) (x : Z * RelayEntry) => <[x.1 := relay_id x.2]> m) ∅ l !! s = Some id ->
  exists x, x ∈ l /\ x.1 = s /\ relay_id x.2 = id.
Proof.
  induction l as [|y l IH] using rev_ind; intros s id; [cbn; by rewrite lookup_empty|]. rewrite foldl_app. cbn [foldl].
  intros [[<- <-]|[_ H]]%lookup_insert_Some; [exists y; split; [apply elem_of_app; right; by left|done]|].
  destruct (IH s id H) as (x & Hx & E). exists x. split; [apply elem_of_app; by left|done].
Qed.

(** The endpoint the response tells the client of a slot to dial. *)
Definition told (p : Placement) (slot : Z) : RelayEndpoint :=
  match list_find (fun x => x.1 = slot) (slot_homes p) with Some (_, x) => x.2 | None => pm_home p end.

Lemma told_spec entries l p x : unique_ids entries -> (forall x, x ∈ l -> x.2 ∈ entries) -> NoDup l.*1 -> distilled entries l p -> x ∈ l -> told p x.1 = endpoint_of x.2.
Proof.
  intros Hu Hin Hn Hd Hx. destruct (di_home _ _ _ Hd) as (h & rest & e & _ & _ & He & Hid & Hhome & Hsh & _). unfold told. rewrite Hhome, Hsh.
  destruct (list_find _ _) as [[i y]|] eqn:E; cbn.
  - apply list_find_Some in E as (Hy & Hk & _). apply list_elem_of_lookup_2, list_elem_of_fmap in Hy as (z & -> & [_ Hz]%list_elem_of_filter). cbn in *.
    f_equal. f_equal. by apply (NoDup_key_unique fst l).
  - f_equal. destruct (decide (relay_id x.2 = h)) as [Eh|Eh]; [apply Hu; auto; congruence|]. apply list_find_None in E. rewrite Forall_forall in E.
    exfalso. apply (E (x.1, endpoint_of x.2)); [|done]. apply list_elem_of_fmap. exists x. split; [done|]. by apply list_elem_of_filter.
Qed.

Section sound.
Context {sha : Sha256}.

Lemma available_spec g e : reg_ok g -> e ∈ available_entries g -> entry g (relay_id e) = Some e /\ is_available g (relay_id e) = true.
Proof.
  intros Hok. unfold available_entries. intros (r & -> & [Hd ([k r'] & -> & Hk%elem_of_map_to_list)%list_elem_of_fmap]%list_elem_of_filter)%list_elem_of_fmap.
  cbn in *. pose proof (ro_keys g Hok k r' Hk) as E. unfold entry, is_available. rewrite E, Hk. cbn. by rewrite Hd.
Qed.

Lemma candidates_sub g rq e : e ∈ candidates g rq -> e ∈ available_entries g /\
  (Exists (fun p => require_evidence p = true) (players rq) -> relay_evidence_capable e = true).
Proof.
  unfold candidates. case_bool_decide as H; [intros [Hc He]%list_elem_of_filter|intros He]; (split; [done|]); [intros _; by destruct (relay_evidence_capable e)|done].
Qed.

Lemma cohort_spec rq entries : entries <> [] -> let '(rb, cap, l) := cohort rq entries in
  l <> [] /\ forall e, e ∈ l -> e ∈ entries /\ relay_finalize_capable e = cap /\ (rb = true -> relay_rollback_capable e = true) .
Proof.
  intros Hne. unfold cohort. set (rb := rq_rollback rq && _). set (es := if rb then _ else _).
  assert (Hes : es <> [] /\ forall e, e ∈ es -> e ∈ entries /\ (rb = true -> relay_rollback_capable e = true)).
  { unfold es. destruct rb eqn:Erb; [|by split; [|done]]. unfold rb in Erb. apply andb_true_iff in Erb as [_ (x & Hx & Hc)%bool_decide_eq_true%Exists_exists]. split.
    - intros E. assert (Hin : x ∈ filter relay_rollback_capable entries) by (by apply list_elem_of_filter). rewrite E in Hin. by apply not_elem_of_nil in Hin.
    - intros e [Hr He]%list_elem_of_filter. split; [done|]. intros _. by destruct (relay_rollback_capable e). }
  clearbody es. destruct Hes as [H1 H2]. case_bool_decide as Hc.
  - apply Exists_exists in Hc as (x & Hx & Hc). split.
    + intros E. assert (Hin : x ∈ filter relay_finalize_capable es) by (by apply list_elem_of_filter). rewrite E in Hin. by apply not_elem_of_nil in Hin.
    + intros e [Hr He]%list_elem_of_filter. destruct (H2 e He). split; [done|]. split; [by destruct (relay_finalize_capable e)|done].
  - split; [done|]. intros e He. destruct (H2 e He). split; [done|]. split; [|done]. destruct (relay_finalize_capable e) eqn:E; [|done].
    destruct Hc. apply Exists_exists. exists e. by rewrite E.
Qed.

(** The relay [e] is right for a player that asked for [rg], among [entries]:
    the lowest-numbered relay of the region if it has one; otherwise no relay is
    nearer by more than the margin; the lowest-numbered relay for no region. *)
Definition well_homed (entries : list RelayEntry) (pairs : PairRttStore) (rg : option string) (e : RelayEntry) : Prop :=
  match rg with
  | None => forall e', e' ∈ entries -> relay_id e <= relay_id e'
  | Some r =>
      (forall e', e' ∈ entries -> region e' = Some r -> region e = Some r /\ relay_id e <= relay_id e') /\
      (forall e' v', e' ∈ entries -> score (rtts_from pairs r) r e' = Some v' ->
         exists v, score (rtts_from pairs r) r e = Some v /\ v <= v' + SERVING_RELAY_MARGIN_MS)
  end.

Lemma home_for_well entries blind pairs rg e :
  Sorted by_relay_id entries -> head entries = Some blind -> (forall r x v, x ∈ entries -> score (rtts_from pairs r) r x = Some v -> 0 <= v) ->
  home_for entries blind pairs rg e -> well_homed entries pairs rg e.
Proof.
  intros Hs Hb Hpos He. assert (Hss : StronglySorted by_relay_id entries).
  { apply Sorted_StronglySorted; [|done]. intros x y z. unfold by_relay_id. lia. }
  destruct rg as [r|]; cbn in *.
  2:{ subst e. intros e' He'. destruct entries as [|x xs]; [done|]. injection Hb as <-. apply StronglySorted_inv in Hss as [_ Hf].
      apply elem_of_cons in He' as [->|He']; [lia|]. rewrite Forall_forall in Hf. by apply Hf. }
  destruct (list_find _ entries) as [[i x]|] eqn:E.
  - subst e. apply list_find_Some in E as (Hi & Hr & Hfirst). split.
    + intros e' He' Hr'. split; [done|]. apply list_elem_of_lookup in He' as [j Hj]. destruct (decide (j < i)%nat) as [Hlt|Hlt]; [by destruct (Hfirst j e' Hj Hlt)|].
      destruct (decide (i = j)) as [->|]; [rewrite Hi in Hj; injection Hj as ->; lia|].
      apply (strongly_sorted_lookup by_relay_id entries Hss i j); [lia|done|done].
    + intros e' v' He' Hv'. exists 0. unfold score. rewrite Hr. cbn. rewrite decide_True by done. split; [done|]. specialize (Hpos r e' v' He' Hv'). unfold SERVING_RELAY_MARGIN_MS. lia.
  - apply list_find_None in E. rewrite Forall_forall in E. split; [intros e' He' Hr; by destruct (E e' He')|].
    destruct He as [serving ->]. pose proof (nearest_relay_spec entries r serving pairs) as Hn. destruct (nearest_relay _ _ _ _) as [x|]; cbn.
    + destruct Hn as (_ & v & Hv & Hle & _). intros e' v' He' Hv'. exists v. split; [done|]. by eapply Hle.
    + intros e' v' He' Hv'. by rewrite (Hn e' He') in Hv'.
Qed.

(** Round trips are unsigned. *)
Definition pairs_unsigned (pairs : PairRttStore) : Prop :=
  forall k d x, pairs !! k = Some d -> from_a d = Some x \/ from_b d = Some x -> 0 <= rtt_ms x.

Lemma score_unsigned pairs r e v : pairs_unsigned pairs -> score (rtts_from pairs r) r e = Some v -> 0 <= v.
Proof.
  intros Hu. unfold score. destruct (region e) as [t|]; [|done]. cbn. case_decide; [intros [= <-]; lia|].
  unfold rtts_from. intros Hv%elem_of_list_to_map_2. apply list_elem_of_omap in Hv as ([k d] & Hk%elem_of_map_to_list & Hf). cbn in Hf.
  destruct (other_end r k); [|done]. cbn in Hf. destruct (served d) as [x|] eqn:Ex; [|done]. cbn in Hf. injection Hf as _ <-.
  unfold served in Ex. destruct (from_a d) as [a|] eqn:Ea, (from_b d) as [b|] eqn:Eb; try done; injection Ex as <-; cbn.
  - by apply Z.mod_pos_bound.
  - apply (Hu k d); auto.
  - apply (Hu k d); auto.
Qed.

Lemma place_unfold g pairs rq session ff :
  reg_ok g -> players rq <> [] -> NoDup (pl_slot <$> players rq) -> pairs_unsigned pairs -> candidates g rq <> [] ->
  exists p l entries, place_by_region g pairs rq session ff = Some (Ok p) /\
    let '(rb, cap, c) := cohort rq (candidates g rq) in
    distilled entries l p /\ (forall e, e ∈ entries <-> e ∈ c) /\ unique_ids entries /\ NoDup l.*1 /\
    Forall2 (fun pl x => x.1 = pl_slot pl /\ x.2 ∈ entries /\ well_homed entries pairs (pl_region pl) x.2) (players rq) l /\
    pm_capable_cohort p = cap /\ pm_rollback p = rb /\ pm_finalized_drops p = cap && (ff || rb).
Proof.
  intros Hok Hpl Hnd Hu Hc. unfold place_by_region. destruct (candidates g rq) as [|c0 cs] eqn:Ec; [done|]. rewrite <- Ec in *.
  pose proof (cohort_spec rq (candidates g rq) Hc) as Hco. destruct (cohort rq (candidates g rq)) as [[rb cap] c]. destruct Hco as [Hcne Hco].
  set (entries := merge_sort by_relay_id c).
  assert (Hmem : forall e, e ∈ entries <-> e ∈ c) by (intros e; unfold entries; by rewrite merge_sort_Permutation).
  destruct (head entries) as [blind|] eqn:Eb.
  2:{ exfalso. destruct c as [|x c]; [done|]. assert (Hx : x ∈ entries) by (apply Hmem; by left). destruct entries; [by apply not_elem_of_nil in Hx|done]. }
  cbn [mbind option_bind].
  assert (Hblind : blind ∈ entries) by (destruct entries; [done|]; injection Eb as <-; by left).
  destruct (slot_relays_spec entries blind pairs (players rq) (players rq) (fun _ H => H)) as (l & El & Hl). rewrite El. cbn [mbind option_bind].
  assert (Hsort : Sorted by_relay_id entries) by (apply Sorted_merge_sort; intros x y; unfold by_relay_id; lia).
  assert (Hl' : Forall2 (fun pl x => x.1 = pl_slot pl /\ x.2 ∈ entries /\ well_homed entries pairs (pl_region pl) x.2) (players rq) l).
  { eapply Forall2_impl; [exact Hl|]. intros pl x [H1 H2]. split; [done|]. split; [by eapply home_for_elem|].
    eapply home_for_well; [exact Hsort|exact Eb| |exact H2]. intros r e v _. by apply score_unsigned. }
  assert (Hls : l.*1 = pl_slot <$> players rq).
  { clear -Hl. induction Hl as [|pl x ps xs [E _] _ IH]; [done|]. rewrite !fmap_cons, E, IH. done. }
  destruct (distill_spec entries l session rb cap ff) as (p & Ep & Hd & H1 & H2 & H3).
  { intros ->. inversion Hl; congruence. }
  { intros x Hx. apply list_elem_of_lookup in Hx as [i Hi]. destruct (Forall2_lookup_r _ _ _ _ _ Hl' Hi) as (pl & _ & _ & He & _). done. }
  rewrite Ep. cbn [mbind option_bind]. exists p, l, entries. split; [done|]. split; [done|]. split; [done|]. split.
  { intros e e' He He' Hid. apply Hmem, Hco in He as [He _]. apply Hmem, Hco in He' as [He' _]. apply candidates_sub in He as [He _]. apply candidates_sub in He' as [He' _].
    destruct (available_spec g e Hok He) as [E1 _]. destruct (available_spec g e' Hok He') as [E2 _]. congruence. }
  split; [by rewrite Hls|]. split; [done|]. by split.
Qed.

(** C13 Placement never panics and fails only when no relay can be used.  Otherwise
    every slot homes on an enrolled, undrained relay that holds the evidence
    capability if any slot needs it; all serving relays are on one side of the
    finalized-drop boundary, the side the session records, and compare state
    hashes if it rolls back.  A slot's relay is the lowest-numbered of its region
    if the region has one, and otherwise no usable relay is nearer by more than
    the margin.  Every client is told its own slot's relay.  The serving relays
    are exactly the homes, without duplicates, the one with most slots first and
    the rest ascending. *)
Theorem placement_sound (g : RelayRegistry) (pairs : PairRttStore) (rq : SessionRequest) (session : Z) (ff : bool) :
  reg_ok g -> players rq <> [] -> NoDup (pl_slot <$> players rq) -> pairs_unsigned pairs ->
  let usable := (cohort rq (candidates g rq)).2 in
  match place_by_region g pairs rq session ff with
  | None => False
  | Some (Err e) => e = NoRelaysAvailable /\ candidates g rq = []
  | Some (Ok p) =>
      (forall pl, pl ∈ players rq -> exists e,
         entry g (relay_id e) = Some e /\ is_available g (relay_id e) = true /\
         pm_homes p !! pl_slot pl = Some (relay_id e) /\ told p (pl_slot pl) = endpoint_of e /\
         relay_finalize_capable e = pm_capable_cohort p /\ (pm_rollback p = true -> relay_rollback_capable e = true) /\
         (Exists (fun q => require_evidence q = true) (players rq) -> relay_evidence_capable e = true) /\
         e ∈ usable /\ well_homed usable pairs (pl_region pl) e) /\
      (pm_finalized_drops p = true -> pm_capable_cohort p = true) /\
      NoDup (relay_ids p) /\
      (forall id, id ∈ relay_ids p <-> exists pl, pl ∈ players rq /\ pm_homes p !! pl_slot pl = Some id) /\
      exists home rest, relay_ids p = home :: rest /\ StronglySorted Z.lt rest /\
        forall id, (length (filter (fun pl => pm_homes p !! pl_slot pl = Some id) (players rq)) <=
                    length (filter (fun pl => pm_homes p !! pl_slot pl = Some home) (players rq)))%nat
  end.
Proof.
  intros Hok Hpl Hnd Hu usable. destruct (decide (candidates g rq = [])) as [Hc|Hc].
  { unfold place_by_region. by rewrite Hc. }
  destruct (place_unfold g pairs rq session ff Hok Hpl Hnd Hu Hc) as (p & l & entries & -> & H).
  pose proof (cohort_spec rq (candidates g rq) Hc) as Hco. unfold usable. destruct (cohort rq (candidates g rq)) as [[rb cap] c]. cbn [snd].
  destruct H as (Hd & Hmem & Huniq & Hn & Hl & Ecap & Erb & Efin). destruct Hco as [_ Hco].
  assert (Hin : forall x, x ∈ l -> x.2 ∈ entries).
  { intros x Hx. apply list_elem_of_lookup in Hx as [i Hi]. by destruct (Forall2_lookup_r _ _ _ _ _ Hl Hi) as (pl & _ & _ & He & _). }
  assert (Hhome : forall pl x, x ∈ l -> x.1 = pl_slot pl -> pm_homes p !! pl_slot pl = Some (relay_id x.2)).
  { intros pl x Hx <-. rewrite (di_homes _ _ _ Hd). by apply homes_lookup. }
  assert (Hwell : forall rg e, well_homed entries pairs rg e -> well_homed c pairs rg e).
  { intros [r|] e; cbn; [intros [H1 H2]; split|intros H1]; setoid_rewrite <- Hmem; done. }
  split; [|split; [|split; [|split]]].
  - intros pl Hpl'. apply list_elem_of_lookup in Hpl' as [i Hi]. destruct (Forall2_lookup_l _ _ _ _ _ Hl Hi) as (x & Hx & Hs & He & Hw).
    apply list_elem_of_lookup_2 in Hx. destruct (Hco x.2 (proj1 (Hmem _) He)) as (Hcand & Hcap & Hrb). destruct (candidates_sub g rq x.2 Hcand) as [Hav Hev].
    destruct (available_spec g x.2 Hok Hav) as [E1 E2]. exists x.2. rewrite Ecap, Erb. repeat (split; [done|]). split; [by apply Hhome|]. split; [rewrite <- Hs; by eapply told_spec|].
    repeat (split; [done|]). split; [by apply Hmem|]. by apply Hwell.
  - rewrite Efin, Ecap. by destruct cap.
  - apply Hd.
  - intros id. rewrite (di_ids _ _ _ Hd). split.
    + intros (x & Hx & <-). pose proof Hx as Hx'. apply list_elem_of_lookup in Hx' as [i Hi]. destruct (Forall2_lookup_r _ _ _ _ _ Hl Hi) as (pl & Hp & Hs & _).
      exists pl. split; [by eapply list_elem_of_lookup_2|]. by apply Hhome.
    + intros (pl & Hp & Hh). apply list_elem_of_lookup in Hp as [i Hi]. destruct (Forall2_lookup_l _ _ _ _ _ Hl Hi) as (x & Hx & Hs & _). apply list_elem_of_lookup_2 in Hx.
      exists x. split; [done|]. rewrite (Hhome pl x Hx Hs) in Hh. by injection Hh.
  - destruct (di_home _ _ _ Hd) as (h & rest & e & E1 & E2 & _ & _ & _ & _ & Hmax). exists h, rest. split; [done|]. split; [done|]. intros id.
    assert (Hcount : forall id, Z.of_nat (length (filter (fun pl => pm_homes p !! pl_slot pl = Some id) (players rq))) = homed_count l id).
    { intros id'. unfold homed_count. f_equal. assert (Hh : forall x, x ∈ l -> pm_homes p !! x.1 = Some (relay_id x.2)) by (intros x Hx; rewrite (di_homes _ _ _ Hd); by apply homes_lookup).
      clear -Hl Hh. induction Hl as [|pl x ps xs [Hs _] _ IH]; [done|]. rewrite !filter_cons. rewrite <- Hs, (Hh x) by (by left).
      specialize (IH ltac:(intros; apply Hh; by right)). repeat case_decide; cbn [length]; congruence. }
    pose proof (Hmax id). rewrite <- !Hcount in *. lia.
Qed.

End sound.
