(* ===== verification/Outbox.v ===== *)
(** * The coordinator's per-relay outboxes ([coordinator/src/descriptors/mod.rs])

    [RelayDescriptors]: the declarative set of session descriptors each relay
    should serve, behind a watch channel (its value is the set).  [RelayReaps]:
    the slot closes still pending for each relay, replayed to every new control
    connection; a connection's unbounded channel is the list of directives sent
    on it, with whether its receiver still exists.  The installation proofs of
    [delivery.rs] and wake-ups are left out. *)

From Stdlib Require Import ZArith Lia.
From stdpp Require Import gmap sorting list strings.
From S2P Require Import Prelude.
From S2P Require Import Registry.
From S2P Require Import PairRtts.
From S2P Require Import Placement.

Open Scope Z_scope.

Inductive DepartureKind : Type := Left | Dropped.

Record DepartedSlot : Type := mkDepartedSlot { ds_slot : Z; ds_kind : DepartureKind; ds_final_turn_count : option Z; ds_finalized : bool }.

Record SessionDescriptor : Type := mkSessionDescriptor {
  sd_periodic_evidence : bool;
  sd_evidence_keys : list (Z * list Z);
  sd_required_evidence_slots : list Z;
  sd_evidence_assignments : list (Z * Z);
  sd_lobby_policy : option (list LobbyPolicyEntry);
  sd_lobby_settled : bool;
  sd_rollback : bool;
  sd_finalized_drops : bool;
  sd_tenant : string;
  sd_session : Z;
  peers : list RelayEndpoint;
  sd_bounds : Z * Z;
  authority_order : list Z;
  sd_external_id : option string;
  slot_refs : list (Z * string);
  observer_slots : list Z;
  expected_slots : list Z;
  homed_slots : list Z;
  resumed : bool;
  sd_departed_slots : list DepartedSlot;
  sd_latency_estimate_ms : option Z;
  sd_relay_regions : list (Z * string);
}.

#[export] Instance departure_kind_eq : EqDecision DepartureKind.
Proof. solve_decision. Defined.
#[export] Instance departed_slot_eq : EqDecision DepartedSlot.
Proof. solve_decision. Defined.
#[export] Instance lobby_policy_entry_eq : EqDecision LobbyPolicyEntry.
Proof. solve_decision. Defined.
#[export] Instance session_descriptor_eq : EqDecision SessionDescriptor.
Proof. solve_decision. Defined.

(** ** Descriptors *)

Abbreviation RelayDescriptors := (gmap Z (list SessionDescriptor)).

Definition is_session (tenant : string) (session : Z) (d : SessionDescriptor) : Prop := sd_tenant d = tenant /\ sd_session d = session.
#[export] Instance is_session_dec t s d : Decision (is_session t s d).
Proof. unfold is_session. apply _. Defined.

(** Ordered by session, then tenant. *)
Definition by_key (x y : SessionDescriptor) : Prop :=
  sd_session x < sd_session y \/ (sd_session x = sd_session y /\ String.leb (sd_tenant x) (sd_tenant y) = true).
#[export] Instance by_key_dec x y : Decision (by_key x y).
Proof. unfold by_key. apply _. Defined.

(** Whether the set changed, and the set. *)
Definition upsert (set : list SessionDescriptor) (d : SessionDescriptor) : bool * list SessionDescriptor :=
  match list_find (is_session (sd_tenant d) (sd_session d)) set with
  | Some (i, x) => if decide (x = d) then (false, set) else (true, <[i := d]> set)
  | None => (true, merge_sort by_key (set ++ [d]))
  end.

Definition current_for (o : RelayDescriptors) (relay : Z) : list SessionDescriptor := default [] (o !! relay).

Definition record_descriptor (o : RelayDescriptors) (relay : Z) (d : SessionDescriptor) : RelayDescriptors :=
  <[relay := (upsert (current_for o relay) d).2]> o.

Definition remove_descriptor (o : RelayDescriptors) (relay : Z) (tenant : string) (session : Z) : RelayDescriptors :=
  match o !! relay with
  | Some set => <[relay := filter (fun d => ~ is_session tenant session d) set]> o
  | None => o
  end.

Definition current_descriptor (o : RelayDescriptors) (relay : Z) (tenant : string) (session : Z) : option SessionDescriptor :=
  match list_find (is_session tenant session) (current_for o relay) with Some (_, d) => Some d | None => None end.

Definition current_keys_for (o : RelayDescriptors) (relay : Z) : list (string * Z) :=
  (fun d => (sd_tenant d, sd_session d)) <$> current_for o relay.

Definition forget_descriptors (o : RelayDescriptors) (relay : Z) : RelayDescriptors := base.delete relay o.

(** ** Reaps *)

Record SlotClose : Type := mkSlotClose { sc_tenant : string; sc_session : Z; sc_slots : list Z }.

(** A control connection's receiver: whether it still exists, and what was sent
    to it, newest last. *)
Record ReapChannel : Type := mkReapChannel { receiver : bool; sent : list SlotClose }.

Record RelayReapState : Type := mkRelayReapState { pending : gmap (string * Z) (list Z); sender : option ReapChannel }.

Definition no_reaps : RelayReapState := mkRelayReapState ∅ None.

Abbreviation RelayReaps := (gmap Z RelayReapState).

Definition close_of (p : string * Z * list Z) : SlotClose := mkSlotClose p.1.1 p.1.2 p.2.

Definition subscribe (o : RelayReaps) (relay : Z) : RelayReaps :=
  let st := default no_reaps (o !! relay) in
  <[relay := mkRelayReapState (pending st) (Some (mkReapChannel true (close_of <$> map_to_list (pending st))))]> o.

(** [slots.push] of those not there yet. *)
Definition union_slots (slots add : list Z) : list Z := foldl (fun l s => if bool_decide (s ∈ l) then l else l ++ [s]) slots add.

Definition send_reap (o : RelayReaps) (relay : Z) (close : SlotClose) : RelayReaps :=
  let st := default no_reaps (o !! relay) in
  let key := (sc_tenant close, sc_session close) in
  let slots := union_slots (default [] (pending st !! key)) (sc_slots close) in
  let merged := mkSlotClose (sc_tenant close) (sc_session close) slots in
  <[relay := mkRelayReapState (<[key := slots]> (pending st))
      (match sender st with
       | Some tx => if receiver tx then Some (mkReapChannel true (sent tx ++ [merged])) else None
       | None => None
       end)]> o.

Definition retire_reaps (o : RelayReaps) (tenant : string) (session : Z) : RelayReaps :=
  (fun st => mkRelayReapState (base.delete (tenant, session) (pending st)) (sender st)) <$> o.

Definition forget_reaps (o : RelayReaps) (relay : Z) : RelayReaps := base.delete relay o.

Definition export_pending (o : RelayReaps) : list (Z * SlotClose) :=
  '(relay, st) ← map_to_list o; (fun p => (relay, close_of p)) <$> map_to_list (pending st).

(** The connection's task ends and drops its receiver. *)
Definition hang_up (o : RelayReaps) (relay : Z) : RelayReaps :=
  match o !! relay with
  | Some st => <[relay := mkRelayReapState (pending st) ((fun tx => mkReapChannel false (sent tx)) <$> sender st)]> o
  | None => o
  end.

(** ** Lemmas on the descriptor sets *)

(** One descriptor per session in each relay's set. *)
Definition outbox_ok (o : RelayDescriptors) : Prop :=
  forall relay set, o !! relay = Some set -> NoDup ((fun d => (sd_tenant d, sd_session d)) <$> set).

Lemma upsert_elem set d x : NoDup ((fun d => (sd_tenant d, sd_session d)) <$> set) ->
  x ∈ (upsert set d).2 <-> x = d \/ (x ∈ set /\ ~ is_session (sd_tenant d) (sd_session d) x).
Proof.
  intros Hn. unfold upsert. destruct (list_find _ set) as [[i y]|] eqn:E.
  - apply list_find_Some in E as (Hi & Hy & _).
    assert (Huniq : forall x, x ∈ set -> is_session (sd_tenant d) (sd_session d) x -> x = y).
    { intros z Hz [H1 H2]. destruct Hy as [H3 H4]. apply list_elem_of_lookup in Hz as [j Hj].
      assert (i = j); [|congruence]. eapply NoDup_lookup; [exact Hn| |]; rewrite list_lookup_fmap; [by rewrite Hi|]. rewrite Hj. cbn. congruence. }
    case_decide as Heq; cbn.
    + subst y. split; [|naive_solver eauto using list_elem_of_lookup_2]. intros Hx. destruct (decide (x = d)) as [->|]; [by left|right]. split; [done|]. intros Hs. by rewrite (Huniq x Hx Hs) in *.
    + split.
      * intros Hx. apply list_elem_of_lookup in Hx as [j Hj]. destruct (decide (i = j)) as [<-|Hne].
        { left. rewrite list_lookup_insert_eq in Hj by (by eapply lookup_lt_Some). by injection Hj. }
        rewrite list_lookup_insert_ne in Hj by done. right. split; [by eapply list_elem_of_lookup_2|]. intros Hs.
        assert (Hxy : x = y) by (apply Huniq; [by eapply list_elem_of_lookup_2|done]). subst x. apply Hne.
        eapply NoDup_lookup; [exact Hn| |]; rewrite list_lookup_fmap; [by rewrite Hi|]. by rewrite Hj.
      * intros [->|[Hx Hs]].
        { apply list_elem_of_lookup. exists i. apply list_lookup_insert_eq. by eapply lookup_lt_Some. }
        apply list_elem_of_lookup in Hx as [j Hj]. apply list_elem_of_lookup. exists j. rewrite list_lookup_insert_ne; [done|]. intros ->. congruence.
  - apply list_find_None in E. rewrite Forall_forall in E. cbn. rewrite merge_sort_Permutation, elem_of_app, list_elem_of_singleton. split.
    + intros [Hx|Hx]; [right|by left]. split; [done|]. by apply E.
    + intros [Hx|[Hx _]]; [by right|by left].
Qed.

Lemma upsert_NoDup set d : NoDup ((fun d => (sd_tenant d, sd_session d)) <$> set) -> NoDup ((fun d => (sd_tenant d, sd_session d)) <$> (upsert set d).2).
Proof.
  intros Hn. unfold upsert. destruct (list_find _ set) as [[i y]|] eqn:E.
  - apply list_find_Some in E as (Hi & [H1 H2] & _). case_decide; cbn; [done|]. rewrite list_fmap_insert. rewrite list_insert_id; [done|]. rewrite list_lookup_fmap, Hi. cbn. congruence.
  - apply list_find_None in E. rewrite Forall_forall in E. cbn. rewrite merge_sort_Permutation, fmap_app. apply NoDup_app. split; [done|]. split; [|apply NoDup_singleton].
    intros k (x & -> & Hx)%list_elem_of_fmap Hk. apply list_elem_of_singleton in Hk. apply (E x Hx). split; congruence.
Qed.

Lemma record_descriptor_elem o relay d relay' x : outbox_ok o ->
  x ∈ current_for (record_descriptor o relay d) relay' <->
  (relay' = relay /\ (x = d \/ (x ∈ current_for o relay /\ ~ is_session (sd_tenant d) (sd_session d) x))) \/ (relay' <> relay /\ x ∈ current_for o relay').
Proof.
  intros Hok. unfold record_descriptor. destruct (decide (relay' = relay)) as [->|Hne].
  - unfold current_for at 1. rewrite lookup_insert_eq. cbn. rewrite upsert_elem; [naive_solver|].
    unfold current_for. destruct (o !! relay) as [set|] eqn:E; [by eapply Hok|apply NoDup_nil_2].
  - unfold current_for at 1. rewrite lookup_insert_ne by done. fold (current_for o relay'). naive_solver.
Qed.

Lemma record_descriptor_ok o relay d : outbox_ok o -> outbox_ok (record_descriptor o relay d).
Proof.
  intros Hok r set. unfold record_descriptor. intros [[<- <-]|[_ H]]%lookup_insert_Some; [|by eapply Hok].
  apply upsert_NoDup. unfold current_for. destruct (o !! relay) as [x|] eqn:E; [by eapply Hok|apply NoDup_nil_2].
Qed.

Lemma remove_descriptor_elem o relay t s relay' x :
  x ∈ current_for (remove_descriptor o relay t s) relay' <-> x ∈ current_for o relay' /\ ~ (relay' = relay /\ is_session t s x).
Proof.
  unfold remove_descriptor, current_for. destruct (o !! relay) as [set|] eqn:E.
  - destruct (decide (relay' = relay)) as [->|Hne].
    + rewrite lookup_insert_eq, E. cbn. rewrite list_elem_of_filter. naive_solver.
    + rewrite lookup_insert_ne by done. naive_solver.
  - split; [|naive_solver]. intros Hx. split; [done|]. intros [-> _]. rewrite E in Hx. by apply not_elem_of_nil in Hx.
Qed.

Lemma remove_descriptor_ok o relay t s : outbox_ok o -> outbox_ok (remove_descriptor o relay t s).
Proof.
  intros Hok r set. unfold remove_descriptor. destruct (o !! relay) as [x|] eqn:E; [|apply Hok].
  intros [[<- <-]|[_ H]]%lookup_insert_Some; [|by eapply Hok]. specialize (Hok relay x E).
  eapply sublist_NoDup; [exact Hok|]. apply fmap_sublist, sublist_filter.
Qed.

(** ** No reap is lost *)

Lemma union_slots_elem add : forall slots x, x ∈ union_slots slots add <-> x ∈ slots \/ x ∈ add.
Proof.
  unfold union_slots. induction add as [|s add IH]; intros slots x; cbn [foldl]; [split; [by left|intros [|H]; [done|by apply not_elem_of_nil in H]]|].
  rewrite IH, elem_of_cons. case_bool_decide as Hs; [naive_solver|]. rewrite elem_of_app, list_elem_of_singleton. naive_solver.
Qed.

Inductive ReapOp : Type :=
| OSubscribe (relay : Z)
| OSend (relay : Z) (close : SlotClose)
| ORetire (tenant : string) (session : Z)
| OForget (relay : Z)
| OHangUp (relay : Z).

Definition reap_step (o : RelayReaps) (x : ReapOp) : RelayReaps :=
  match x with
  | OSubscribe r => subscribe o r
  | OSend r c => send_reap o r c
  | ORetire t s => retire_reaps o t s
  | OForget r => forget_reaps o r
  | OHangUp r => hang_up o r
  end.

(** The directives asked for and not retired or forgotten since. *)
Fixpoint asked (ops : list ReapOp) (relay : Z) (tenant : string) (session slot : Z) : Prop :=
  match ops with
  | [] => False
  | x :: ops =>
      match x with
      | OSend r c => (r = relay /\ sc_tenant c = tenant /\ sc_session c = session /\ slot ∈ sc_slots c) \/ asked ops relay tenant session slot
      | ORetire t s => ~ (t = tenant /\ s = session) /\ asked ops relay tenant session slot
      | OForget r => r <> relay /\ asked ops relay tenant session slot
      | _ => asked ops relay tenant session slot
      end
  end.

Definition reaps_after (ops : list ReapOp) : RelayReaps := foldr (fun x o => reap_step o x) ∅ ops.

Definition pending_slots (o : RelayReaps) (relay : Z) (tenant : string) (session : Z) : list Z :=
  default [] (st ← o !! relay; pending st !! (tenant, session)).

(** Pending is what was asked for; a live connection has been sent all of it. *)
Lemma reaps_exact ops :
  (forall relay t s slot, slot ∈ pending_slots (reaps_after ops) relay t s <-> asked ops relay t s slot) /\
  (forall relay st tx, reaps_after ops !! relay = Some st -> sender st = Some tx ->
     forall k slots, pending st !! k = Some slots -> close_of (k, slots) ∈ sent tx).
Proof.
  induction ops as [|x ops [IH1 IH2]]; cbn [reaps_after foldr asked].
  { split; [|intros relay st tx; by rewrite lookup_empty]. intros. split; [|done]. unfold pending_slots. rewrite lookup_empty. cbn. by intros ?%not_elem_of_nil. }
  fold (reaps_after ops). set (o := reaps_after ops) in *. destruct x as [r|r c|t s|r|r]; cbn [reap_step].
  - assert (Hp : forall relay t s, pending_slots (subscribe o r) relay t s = pending_slots o relay t s).
    { intros relay t s. unfold pending_slots, subscribe. destruct (decide (relay = r)) as [->|]; [rewrite lookup_insert_eq|by rewrite lookup_insert_ne].
      cbn. destruct (o !! r); [done|]. cbn. by rewrite lookup_empty. }
    split; [intros; rewrite Hp; apply IH1|]. intros relay st tx. unfold subscribe. intros [[<- <-]|[_ H]]%lookup_insert_Some; [|by eapply IH2].
    cbn. intros [= <-] k slots Hk. cbn. apply list_elem_of_fmap. exists (k, slots). split; [done|]. by apply elem_of_map_to_list.
  - set (slots := union_slots (default [] (pending (default no_reaps (o !! r)) !! (sc_tenant c, sc_session c))) (sc_slots c)).
    split.
    + intros relay t s slot. unfold pending_slots, send_reap. destruct (decide (relay = r)) as [->|Hne].
      * rewrite lookup_insert_eq. cbn. destruct (decide ((t, s) = (sc_tenant c, sc_session c))) as [[= -> ->]|Hk].
        { rewrite lookup_insert_eq. cbn. rewrite union_slots_elem, <- IH1. unfold pending_slots. destruct (o !! r) as [st|]; cbn; [naive_solver|]. rewrite lookup_empty. naive_solver. }
        rewrite lookup_insert_ne by done. rewrite <- IH1. unfold pending_slots. destruct (o !! r) as [st|]; cbn; [naive_solver|]. rewrite lookup_empty. naive_solver.
      * rewrite lookup_insert_ne by done. rewrite <- IH1. unfold pending_slots. naive_solver.
    + intros relay st tx. unfold send_reap. intros [[<- <-]|[_ H]]%lookup_insert_Some; [|by eapply IH2]. cbn.
      destruct (o !! r) as [st0|] eqn:E; [|done]. cbn. destruct (sender st0) as [tx0|] eqn:Es; [|done]. destruct (receiver tx0); [|done].
      intros [= <-] k sl [[<- <-]|[_ Hk]]%lookup_insert_Some; cbn; apply elem_of_app; [right; apply list_elem_of_singleton; unfold close_of; cbn; by rewrite ?E|].
      left. by eapply IH2.
  - split.
    + intros relay t' s' slot. rewrite <- IH1. unfold pending_slots, retire_reaps. rewrite lookup_fmap. destruct (o !! relay) as [st|]; cbn.
      * rewrite lookup_delete. case_decide as Hk; cbn; [injection Hk as -> ->; split; [by intros ?%not_elem_of_nil|naive_solver]|]. naive_solver.
      * split; [by intros ?%not_elem_of_nil|naive_solver].
    + intros relay st tx. unfold retire_reaps. rewrite lookup_fmap. destruct (o !! relay) as [st0|] eqn:E; [|done]. intros [= <-]. cbn. intros Hs k slots [_ Hk]%lookup_delete_Some. by eapply IH2.
  - split.
    + intros relay t s slot. rewrite <- IH1. unfold pending_slots, forget_reaps. rewrite lookup_delete. case_decide as Hk; cbn; [|naive_solver]. subst. split; [by intros ?%not_elem_of_nil|naive_solver].
    + intros relay st tx. unfold forget_reaps. intros [_ H]%lookup_delete_Some. by eapply IH2.
  - unfold hang_up. destruct (o !! r) as [st0|] eqn:E; [|done]. split.
    + intros relay t s slot. rewrite <- IH1. unfold pending_slots. destruct (decide (relay = r)) as [->|]; [by rewrite lookup_insert_eq, E|by rewrite lookup_insert_ne].
    + intros relay st tx. intros [[<- <-]|[_ H]]%lookup_insert_Some; [|by eapply IH2]. cbn. destruct (sender st0) as [tx0|] eqn:Es; [|done]. intros [= <-]. cbn. by eapply IH2.
Qed.
