(* ===== verification/EvidenceHistory.v ===== *)
(** * Evidence authority that outlives a home ([coordinator/src/session/evidence_history.rs])

    A relay process reports what it observed of a slot under the revision it was
    assigned.  When the slot moves, the identity it leaves behind is kept for a
    grace period, at most four to a slot and sixty-four to a session, newest
    first; when the session closes, its identities go to a process-wide cache
    that only lets late reports be dropped quietly. *)

From Stdlib Require Import ZArith Lia.
From stdpp Require Import gmap sorting list strings.
From S2P Require Import Prelude.

Open Scope Z_scope.

Definition RETIREMENT_GRACE_SECS : Z := 600.
Definition MAX_RETIRED_PER_SLOT : Z := 4.
Definition MAX_RETIRED_PER_SESSION : Z := 64.

Record RetiredAssignment : Type := mkRetiredAssignment { ra_slot : Z; ra_relay : Z; ra_boot_id : Z; ra_revision : Z; ra_expires_at : Z }.

(** A [BTreeMap] held as a finite map: its entries, ascending by key. *)
Definition by_fst {A} (x y : Z * A) : Prop := x.1 <= y.1.
#[export] Instance by_fst_dec {A} (x y : Z * A) : Decision (by_fst x y).
Proof. unfold by_fst. apply _. Defined.
Definition btree_list {A} (m : gmap Z A) : list (Z * A) := merge_sort by_fst (map_to_list m).

(** The deadline a retirement at [now] is given. *)
Definition grace_end (now : Z) : Z := saturating_add u64_max now RETIREMENT_GRACE_SECS.

Definition clamp_deadline (now : Z) (e : RetiredAssignment) : RetiredAssignment :=
  mkRetiredAssignment (ra_slot e) (ra_relay e) (ra_boot_id e) (ra_revision e) (Z.min (ra_expires_at e) (grace_end now)).

(** The [retain_mut] walk, newest first. *)
Fixpoint prune_walk (now : Z) (slots : gmap Z Z) (total : Z) (l : list RetiredAssignment) : list RetiredAssignment :=
  match l with
  | [] => []
  | e :: l =>
      if ra_expires_at e <=? now then prune_walk now slots total l
      else
        let count := default 0 (slots !! ra_slot e) in
        if (MAX_RETIRED_PER_SLOT <=? count) || (MAX_RETIRED_PER_SESSION <=? total) then prune_walk now slots total l
        else clamp_deadline now e :: prune_walk now (<[ra_slot e := count + 1]> slots) (total + 1) l
  end.

Definition prune_retired_evidence_assignments (now : Z) (l : list RetiredAssignment) : list RetiredAssignment :=
  reverse (prune_walk now ∅ 0 (reverse l)).

(** The identities the slots homed on [relay] hold; a slot whose process or
    revision is unknown has none. *)
Definition held_by (now : Z) (boots assignments : gmap Z Z) (l : list (Z * Z)) : list RetiredAssignment :=
  omap (fun p => b ← boots !! p.1; v ← assignments !! p.1; Some (mkRetiredAssignment p.1 p.2 b v (grace_end now))) l.

Definition retire_evidence_assignments (now : Z) (retired : list RetiredAssignment) (homes boots assignments : gmap Z Z) (relay : Z) : list RetiredAssignment :=
  prune_retired_evidence_assignments now
    (prune_retired_evidence_assignments now retired ++ held_by now boots assignments (filter (fun p => p.2 = relay) (btree_list homes))).

(** ** Closed sessions *)

Record ClosedEvidenceAssignment : Type := mkClosedEvidenceAssignment {
  cl_tenant : string; cl_session : Z; cl_assignments : list RetiredAssignment; cl_expires : Z }.

Record ClosedEvidenceAssignments : Type := mkClosedEvidenceAssignments { cl_entries : list ClosedEvidenceAssignment; cl_total : Z }.

Definition no_closed : ClosedEvidenceAssignments := mkClosedEvidenceAssignments [] 0.

Definition held_count (e : ClosedEvidenceAssignment) : Z := Z.of_nat (length (cl_assignments e)).

(** Pop expired entries from the front; instants are nanoseconds. *)
Fixpoint expire_from (instant : Z) (entries : list ClosedEvidenceAssignment) (total : Z) : ClosedEvidenceAssignments :=
  match entries with
  | e :: es => if cl_expires e <=? instant then expire_from instant es (total - held_count e) else mkClosedEvidenceAssignments entries total
  | [] => mkClosedEvidenceAssignments [] total
  end.
Definition expire (c : ClosedEvidenceAssignments) (instant : Z) : ClosedEvidenceAssignments := expire_from instant (cl_entries c) (cl_total c).

(** Pop the oldest until [n] more fit. *)
Fixpoint make_room (n : Z) (entries : list ClosedEvidenceAssignment) (total : Z) : ClosedEvidenceAssignments :=
  if (4096 <=? Z.of_nat (length entries)) || (65536 <? saturating_add usize_max total n)
  then match entries with
       | [] => mkClosedEvidenceAssignments [] total
       | e :: es => make_room n es (total - held_count e)
       end
  else mkClosedEvidenceAssignments entries total.

Definition retain_session (c : ClosedEvidenceAssignments) (tenant : string) (session : Z) (periodic : bool)
    (retired : list RetiredAssignment) (homes boots assignments : gmap Z Z) (now instant : Z) : ClosedEvidenceAssignments :=
  if negb periodic then c
  else
    let c := expire c instant in
    let held := take 80 (filter (fun e => now < ra_expires_at e /\ ra_expires_at e <= grace_end now) retired ++ held_by now boots assignments (btree_list homes)) in
    match held with
    | [] => c
    | _ =>
        let n := Z.of_nat (length held) in
        let c := make_room n (cl_entries c) (cl_total c) in
        mkClosedEvidenceAssignments
          (cl_entries c ++ [mkClosedEvidenceAssignment tenant session held (instant + RETIREMENT_GRACE_SECS * 10 ^ 9)]) (cl_total c + n)
    end.

(** ** What the limits keep *)

Lemma btree_list_elem {A} (m : gmap Z A) k v : (k, v) ∈ btree_list m <-> m !! k = Some v.
Proof. unfold btree_list. rewrite merge_sort_Permutation. apply elem_of_map_to_list. Qed.

Lemma btree_list_nodup {A} (m : gmap Z A) : NoDup (btree_list m).*1.
Proof. unfold btree_list. rewrite merge_sort_Permutation. apply NoDup_fst_map_to_list. Qed.

Definition same_identity (e e' : RetiredAssignment) : Prop :=
  ra_slot e = ra_slot e' /\ ra_relay e = ra_relay e' /\ ra_boot_id e = ra_boot_id e' /\ ra_revision e = ra_revision e'.

Definition kept_of (slot : Z) (l : list RetiredAssignment) : Z := Z.of_nat (length (filter (fun e => ra_slot e = slot) l)).

Lemma kept_of_cons slot e l : kept_of slot (e :: l) = (if decide (ra_slot e = slot) then 1 else 0) + kept_of slot l.
Proof. unfold kept_of. rewrite filter_cons. case_decide; cbn [length]; lia. Qed.

Lemma kept_of_app slot l l' : kept_of slot (l ++ l') = kept_of slot l + kept_of slot l'.
Proof. unfold kept_of. rewrite filter_app, length_app. lia. Qed.

Lemma prune_walk_sub now l : forall slots total e, e ∈ prune_walk now slots total l ->
  exists e', e' ∈ l /\ e = clamp_deadline now e' /\ now < ra_expires_at e'.
Proof.
  induction l as [|x l IH]; intros slots total e; cbn [prune_walk]; [by intros ?%not_elem_of_nil|].
  destruct (Z.leb_spec (ra_expires_at x) now) as [|Hx]; [intros (e' & H1 & H2)%IH; exists e'; split; [by right|done]|].
  destruct (_ || _); [intros (e' & H1 & H2)%IH; exists e'; split; [by right|done]|].
  intros [->|(e' & H1 & H2)%IH]%elem_of_cons; [exists x; split; [by left|done]|exists e'; split; [by right|done]].
Qed.

Lemma prune_walk_bounds now l : forall slots total, (forall s, 0 <= default 0 (slots !! s) <= MAX_RETIRED_PER_SLOT) -> 0 <= total <= MAX_RETIRED_PER_SESSION ->
  (forall s, default 0 (slots !! s) + kept_of s (prune_walk now slots total l) <= MAX_RETIRED_PER_SLOT) /\
  total + Z.of_nat (length (prune_walk now slots total l)) <= MAX_RETIRED_PER_SESSION.
Proof.
  induction l as [|x l IH]; intros slots total Hs Ht; cbn [prune_walk].
  { unfold kept_of. cbn. split; [intros s; specialize (Hs s); lia|lia]. }
  destruct (_ <=? now); [by apply IH|]. destruct (_ || _) eqn:E; [by apply IH|]. apply orb_false_iff in E as [E1%Z.leb_gt E2%Z.leb_gt].
  destruct (IH (<[ra_slot x := default 0 (slots !! ra_slot x) + 1]> slots) (total + 1)) as [H1 H2].
  - intros s. destruct (decide (ra_slot x = s)) as [<-|]; [rewrite lookup_insert_eq; cbn; specialize (Hs (ra_slot x)); lia|rewrite lookup_insert_ne by done; apply Hs].
  - lia.
  - cbn [length]. split; [|lia]. intros s. specialize (H1 s). rewrite kept_of_cons. change (ra_slot (clamp_deadline now x)) with (ra_slot x).
    destruct (decide (ra_slot x = s)) as [<-|]; [rewrite lookup_insert_eq in H1; cbn in H1; lia|rewrite lookup_insert_ne in H1 by done; lia].
Qed.

(** A live entry with few newer ones of its slot and of its session survives. *)
Lemma prune_walk_keeps now l1 e l2 : forall slots total, now < ra_expires_at e -> (forall s, 0 <= default 0 (slots !! s)) -> 0 <= total ->
  default 0 (slots !! ra_slot e) + kept_of (ra_slot e) l1 < MAX_RETIRED_PER_SLOT -> total + Z.of_nat (length l1) < MAX_RETIRED_PER_SESSION ->
  clamp_deadline now e ∈ prune_walk now slots total (l1 ++ e :: l2).
Proof.
  induction l1 as [|x l1 IH]; intros slots total He Hs Ht Hk Hn; cbn [app prune_walk].
  { replace (ra_expires_at e <=? now) with false by lia. unfold kept_of in Hk. cbn in Hk, Hn.
    replace (_ || _) with false; [by left|]. symmetry. apply orb_false_iff. split; lia. }
  rewrite kept_of_cons in Hk. cbn [length] in Hn.
  assert (Hskip : clamp_deadline now e ∈ prune_walk now slots total (l1 ++ e :: l2)) by (apply IH; [done|done|done|case_decide; lia|lia]).
  destruct (_ <=? now); [done|]. destruct (_ || _); [done|]. right. apply IH; [done| |lia| |lia].
  - intros s. destruct (decide (ra_slot x = s)) as [<-|]; [rewrite lookup_insert_eq; cbn; specialize (Hs (ra_slot x)); lia|rewrite lookup_insert_ne by done; apply Hs].
  - destruct (decide (ra_slot x = ra_slot e)) as [E|]; [rewrite E, lookup_insert_eq; cbn; lia|rewrite lookup_insert_ne by done; lia].
Qed.

Lemma prune_sub now l e : e ∈ prune_retired_evidence_assignments now l -> exists e', e' ∈ l /\ e = clamp_deadline now e' /\ now < ra_expires_at e'.
Proof.
  unfold prune_retired_evidence_assignments. rewrite elem_of_reverse.
  intros (e' & H & ?)%prune_walk_sub. exists e'. by rewrite elem_of_reverse in H.
Qed.

Lemma held_by_elem now boots assignments l e : e ∈ held_by now boots assignments l <->
  (ra_slot e, ra_relay e) ∈ l /\ boots !! ra_slot e = Some (ra_boot_id e) /\ assignments !! ra_slot e = Some (ra_revision e) /\ ra_expires_at e = grace_end now.
Proof.
  unfold held_by. rewrite list_elem_of_omap. split.
  - intros ([slot relay] & Hin & E). cbn in E. destruct (boots !! slot) as [b|] eqn:Eb; [|done]. cbn in E. destruct (assignments !! slot) as [v|] eqn:Ev; [|done]. cbn in E.
    injection E as <-. done.
  - intros (Hin & Hb & Hv & He). exists (ra_slot e, ra_relay e). split; [done|]. cbn. rewrite Hb. cbn. rewrite Hv. cbn. rewrite <- He. by destruct e.
Qed.
