(* ===== verification/Setup.v ===== *)
(** * Session setup ([coordinator/src/session/])

    The registries and per-session maps that creating, re-homing and retiring a
    session read and write ([setup.rs]), the descriptors built from them
    ([descriptor.rs]), re-homing ([rehome.rs]), and creating ([create.rs],
    [gate.rs]).  The assignment lock is held across each operation, so each is
    one step; a re-home is split where the lifecycle's commit hook runs.  Signing
    a token is a parameter (its cryptography is a library's).  The rate-limit
    buckets and the load-state broker are left out.  The clocks the code reads are
    two fields, wall seconds and monotonic nanoseconds. *)

From Stdlib Require Import ZArith Lia.
From stdpp Require Import gmap sorting list strings.
From S2P Require Import Prelude.
From S2P Require Import Registry.
From S2P Require Import PairRtts.
From S2P Require Import Placement.
From S2P Require Import Outbox.
From S2P Require Import EvidenceHistory.

Open Scope Z_scope.

Definition CAPABILITY_PERIODIC_EVIDENCE_V1 : string := "periodic_evidence_v1".
Definition MAX_SLOT : Z := 11.
Definition MAX_EXTERNAL_STRING_LEN : Z := 256.
Definition MAX_LOBBY_POLICY_ENTRIES : Z := 1024.
Definition MAX_LOBBY_POLICY_PAYLOAD_BYTES : Z := 256 * 1024.
Definition MAX_EVIDENCE_KEYS : Z := 16.

Record SessionRefs : Type := mkSessionRefs {
  periodic_evidence : bool;
  evidence_keys : list (Z * list Z);
  required_evidence_slots : list Z;
  evidence_assignments : gmap Z Z;
  evidence_home_boots : gmap Z Z;
  retired_evidence_assignments : list RetiredAssignment;
  external_id : option string;
  finalized_drops : bool;
  capable_cohort : bool;
  rollback : bool;
  ref_slots : gmap Z string;
  observers : list Z;
  expected : list Z;
  homes : gmap Z Z;
  relay_certs : gmap Z (list Z);
  relay_regions : gmap Z (option string);
  latency_estimate_ms : option Z;
  lobby_policy : option (list LobbyPolicyEntry);
  lobby_settled : bool;
}.

Definition no_refs : SessionRefs := mkSessionRefs false [] [] ∅ ∅ [] None false false false ∅ [] [] ∅ ∅ ∅ None None false.

(** ** Creates: the fingerprint of a request *)

Record FingerprintPlayer : Type := mkFingerprintPlayer {
  fp_require_evidence : bool;
  fp_slot : Z;
  fp_pubkey : list Z;
  fp_observer : bool;
  fp_external_ref : option string;
  fp_region : option string;
}.

Record CreateFingerprint : Type := mkCreateFingerprint {
  cf_players : list FingerprintPlayer;
  cf_evidence_keys : list (Z * list Z);
  cf_periodic_evidence : bool;
  cf_latency_estimate_ms : option Z;
  cf_lobby_policy : option (list LobbyPolicyEntry);
}.

#[export] Instance fingerprint_player_eq : EqDecision FingerprintPlayer.
Proof. solve_decision. Defined.
#[export] Instance create_fingerprint_eq : EqDecision CreateFingerprint.
Proof. solve_decision. Defined.

Definition by_fp_slot (x y : FingerprintPlayer) : Prop := fp_slot x <= fp_slot y.
#[export] Instance by_fp_slot_dec x y : Decision (by_fp_slot x y).
Proof. unfold by_fp_slot. apply _. Defined.
Definition by_key_id (x y : Z * list Z) : Prop := x.1 <= y.1.
#[export] Instance by_key_id_dec x y : Decision (by_key_id x y).
Proof. unfold by_key_id. apply _. Defined.

Definition from_request (rq : SessionRequest) : CreateFingerprint :=
  mkCreateFingerprint
    (merge_sort by_fp_slot ((fun p => mkFingerprintPlayer (require_evidence p) (pl_slot p) (client_pubkey p) (pl_observer p) (external_ref p) (pl_region p)) <$> players rq))
    (merge_sort by_key_id (rq_evidence_keys rq))
    (rq_periodic_evidence rq) (rq_latency_estimate_ms rq) (rq_lobby_policy rq).

Record SessionResponse : Type := mkSessionResponse {
  rs_rollback : bool;
  rs_session : Z;
  home_relay : RelayEndpoint;
  rs_slot_homes : list (Z * RelayEndpoint);
  tokens : list (Z * list Z);
  rs_bounds : Z * Z;
  rs_relay_regions : list (Z * string);
}.

Record CachedCreate : Type := mkCachedCreate { cc_fingerprint : CreateFingerprint; cc_response : SessionResponse }.

(** ** The setup *)

Record SessionSetup : Type := mkSessionSetup {
  registry : RelayRegistry;
  tenants : gmap string (Z * Z);
  session_relays : gmap (string * Z) (list Z);
  session_refs : gmap (string * Z) SessionRefs;
  descriptors : RelayDescriptors;
  reaps : RelayReaps;
  next_session : Z;
  rehomes : gmap (string * Z * Z) Z;
  create_idempotency : gmap (string * string) CachedCreate;
  warm : gmap string Z;
  warm_ttl : Z;
  create_hold : option Z;
  pending_creates : gmap (string * string) Z;
  session_ceiling : option Z;
  finalize_feature : bool;
  pair_rtts : PairRttStore;
  closed_evidence_assignments : ClosedEvidenceAssignments;
  wall_secs : Z;
  instant_ns : Z;
}.

Definition with_registry (s : SessionSetup) (g : RelayRegistry) : SessionSetup :=
  mkSessionSetup g (tenants s) (session_relays s) (session_refs s) (descriptors s) (reaps s) (next_session s) (rehomes s) (create_idempotency s) (warm s) (warm_ttl s)
    (create_hold s) (pending_creates s) (session_ceiling s) (finalize_feature s) (pair_rtts s) (closed_evidence_assignments s) (wall_secs s) (instant_ns s).
Definition with_relays (s : SessionSetup) (m : gmap (string * Z) (list Z)) : SessionSetup :=
  mkSessionSetup (registry s) (tenants s) m (session_refs s) (descriptors s) (reaps s) (next_session s) (rehomes s) (create_idempotency s) (warm s) (warm_ttl s)
    (create_hold s) (pending_creates s) (session_ceiling s) (finalize_feature s) (pair_rtts s) (closed_evidence_assignments s) (wall_secs s) (instant_ns s).
Definition with_refs (s : SessionSetup) (m : gmap (string * Z) SessionRefs) : SessionSetup :=
  mkSessionSetup (registry s) (tenants s) (session_relays s) m (descriptors s) (reaps s) (next_session s) (rehomes s) (create_idempotency s) (warm s) (warm_ttl s)
    (create_hold s) (pending_creates s) (session_ceiling s) (finalize_feature s) (pair_rtts s) (closed_evidence_assignments s) (wall_secs s) (instant_ns s).
Definition with_descriptors (s : SessionSetup) (o : RelayDescriptors) : SessionSetup :=
  mkSessionSetup (registry s) (tenants s) (session_relays s) (session_refs s) o (reaps s) (next_session s) (rehomes s) (create_idempotency s) (warm s) (warm_ttl s)
    (create_hold s) (pending_creates s) (session_ceiling s) (finalize_feature s) (pair_rtts s) (closed_evidence_assignments s) (wall_secs s) (instant_ns s).
Definition with_reaps (s : SessionSetup) (o : RelayReaps) : SessionSetup :=
  mkSessionSetup (registry s) (tenants s) (session_relays s) (session_refs s) (descriptors s) o (next_session s) (rehomes s) (create_idempotency s) (warm s) (warm_ttl s)
    (create_hold s) (pending_creates s) (session_ceiling s) (finalize_feature s) (pair_rtts s) (closed_evidence_assignments s) (wall_secs s) (instant_ns s).
Definition with_next_session (s : SessionSetup) (n : Z) : SessionSetup :=
  mkSessionSetup (registry s) (tenants s) (session_relays s) (session_refs s) (descriptors s) (reaps s) n (rehomes s) (create_idempotency s) (warm s) (warm_ttl s)
    (create_hold s) (pending_creates s) (session_ceiling s) (finalize_feature s) (pair_rtts s) (closed_evidence_assignments s) (wall_secs s) (instant_ns s).
Definition with_rehomes (s : SessionSetup) (m : gmap (string * Z * Z) Z) : SessionSetup :=
  mkSessionSetup (registry s) (tenants s) (session_relays s) (session_refs s) (descriptors s) (reaps s) (next_session s) m (create_idempotency s) (warm s) (warm_ttl s)
    (create_hold s) (pending_creates s) (session_ceiling s) (finalize_feature s) (pair_rtts s) (closed_evidence_assignments s) (wall_secs s) (instant_ns s).
Definition with_creates (s : SessionSetup) (i : gmap (string * string) CachedCreate) (p : gmap (string * string) Z) (w : gmap string Z) : SessionSetup :=
  mkSessionSetup (registry s) (tenants s) (session_relays s) (session_refs s) (descriptors s) (reaps s) (next_session s) (rehomes s) i w (warm_ttl s)
    (create_hold s) p (session_ceiling s) (finalize_feature s) (pair_rtts s) (closed_evidence_assignments s) (wall_secs s) (instant_ns s).

Definition with_closed (s : SessionSetup) (c : ClosedEvidenceAssignments) : SessionSetup :=
  mkSessionSetup (registry s) (tenants s) (session_relays s) (session_refs s) (descriptors s) (reaps s) (next_session s) (rehomes s) (create_idempotency s) (warm s) (warm_ttl s)
    (create_hold s) (pending_creates s) (session_ceiling s) (finalize_feature s) (pair_rtts s) c (wall_secs s) (instant_ns s).

Definition serving_relays (s : SessionSetup) (k : string * Z) : list Z := default [] (session_relays s !! k).

Definition relay_serves_session (s : SessionSetup) (relay : Z) (k : string * Z) : bool :=
  let serving := serving_relays s k in
  match serving with [] => true | _ => bool_decide (relay ∈ serving) end.

Definition relay_homes_slot (s : SessionSetup) (relay : Z) (k : string * Z) (slot : Z) : bool :=
  bool_decide ((session_refs s !! k ≫= (fun r => homes r !! slot)) = Some relay).

(** Counts over the recorded serving sets. *)
Definition session_count_for_relay (s : SessionSetup) (relay : Z) : Z :=
  Z.of_nat (length (filter (fun p : string * Z * list Z => relay ∈ p.2) (map_to_list (session_relays s)))).
Definition live_session_count (s : SessionSetup) : Z :=
  Z.of_nat (length (filter (fun p : string * Z * list Z => p.2 <> []) (map_to_list (session_relays s)))).

Definition forget_rehomes (s : SessionSetup) (k : string * Z) : SessionSetup :=
  with_rehomes s (filter (fun p => p.1.1 <> k) (rehomes s)).

Definition take_session_membership (s : SessionSetup) (k : string * Z) : list Z * SessionSetup :=
  let taken := serving_relays s k in
  let refs := session_refs s !! k in
  let s := with_refs (with_relays s (base.delete k (session_relays s))) (base.delete k (session_refs s)) in
  let s := match refs with
           | Some r => with_closed s (retain_session (closed_evidence_assignments s) k.1 k.2 (periodic_evidence r) (retired_evidence_assignments r)
                                        (homes r) (evidence_home_boots r) (evidence_assignments r) (wall_secs s) (instant_ns s))
           | None => s
           end in
  (taken,
   match refs ≫= external_id with
   | Some x =>
       let idem := (k.1, x) in
       match create_idempotency s !! idem with
       | Some cached => if rs_session (cc_response cached) =? k.2
                        then with_creates s (base.delete idem (create_idempotency s)) (pending_creates s) (warm s) else s
       | None => s
       end
   | None => s
   end).

Definition retire_session (s : SessionSetup) (k : string * Z) : SessionSetup :=
  let s := with_reaps s (retire_reaps (reaps s) k.1 k.2) in
  let '(serving, s) := take_session_membership s k in
  let s := with_descriptors s (foldl (fun o r => remove_descriptor o r k.1 k.2) (descriptors s) serving) in
  forget_rehomes s k.

(** ** Who may report on a slot *)

(** [authority] of one revision of a slot: the process it was assigned to. *)
Definition current_evidence_history_assignment (s : SessionSetup) (relay boot : Z) (k : string * Z) (slot revision : Z) : bool :=
  match session_refs s !! k with
  | Some r => bool_decide (homes r !! slot = Some relay) && bool_decide (evidence_assignments r !! slot = Some revision) && bool_decide (evidence_home_boots r !! slot = Some boot)
  | None => false
  end.

Definition names_identity (relay boot slot revision : Z) (e : RetiredAssignment) : Prop :=
  ra_slot e = slot /\ ra_relay e = relay /\ ra_boot_id e = boot /\ ra_revision e = revision.
#[export] Instance names_identity_dec relay boot slot revision e : Decision (names_identity relay boot slot revision e).
Proof. unfold names_identity. apply _. Defined.

Definition evidence_history_assignment (s : SessionSetup) (relay boot : Z) (k : string * Z) (slot revision : Z) : bool :=
  match session_refs s !! k with
  | Some r => bool_decide (Exists (fun e => names_identity relay boot slot revision e /\ wall_secs s < ra_expires_at e /\ ra_expires_at e <= grace_end (wall_secs s))
                (retired_evidence_assignments r))
  | None => false
  end.

Definition closed_evidence_history_assignment (s : SessionSetup) (relay boot : Z) (k : string * Z) (slot revision : Z) : bool * SessionSetup :=
  let c := expire (closed_evidence_assignments s) (instant_ns s) in
  (bool_decide (Exists (fun e => (cl_tenant e, cl_session e) = k /\ Exists (fun a => names_identity relay boot slot revision a /\ wall_secs s < ra_expires_at a) (cl_assignments e))
     (cl_entries c)), with_closed s c).

Definition retained_evidence_history_assignment (s : SessionSetup) (relay boot : Z) (k : string * Z) (slot revision : Z) : bool :=
  match session_refs s !! k with
  | Some r => (bool_decide (homes r !! slot = Some relay) && bool_decide (evidence_home_boots r !! slot = Some boot) && bool_decide (evidence_assignments r !! slot = Some revision))
              || bool_decide (Exists (names_identity relay boot slot revision) (retired_evidence_assignments r))
  | None => false
  end.

(** ** Descriptors *)

(** A relay-region map's labels, ascending by relay id, untagged ones dropped. *)
Definition relay_region_labels (m : gmap Z (option string)) : list (Z * string) :=
  omap (fun p => (fun r => (p.1, r)) <$> p.2) (btree_list m).

Definition build_descriptor (s : SessionSetup) (k : string * Z) (relay : Z) (is_resumed : bool) (departed : list DepartedSlot) : option SessionDescriptor :=
  b ← tenants s !! k.1;
  ids ← session_relays s !! k;
  let refs := default no_refs (session_refs s !! k) in
  mret (mkSessionDescriptor
    (periodic_evidence refs && match entry (registry s) relay with Some e => has_capability e CAPABILITY_PERIODIC_EVIDENCE_V1 | None => false end)
    (evidence_keys refs) (required_evidence_slots refs) (btree_list (evidence_assignments refs))
    (lobby_policy refs) (lobby_settled refs) (rollback refs) (finalized_drops refs) k.1 k.2
    (omap (peer (registry s)) (filter (fun id => id <> relay) ids)) b ids
    (external_id refs) (map_to_list (ref_slots refs)) (observers refs) (expected refs)
    (fst <$> filter (fun p => p.2 = relay) (btree_list (homes refs)))
    is_resumed departed (latency_estimate_ms refs) (relay_region_labels (relay_regions refs))).

Definition descriptor_for (s : SessionSetup) (k : string * Z) (relay : Z) : option SessionDescriptor := build_descriptor s k relay false [].

(** Build and record the descriptor of each relay in turn. *)
Definition stage (s : SessionSetup) (k : string * Z) (ids : list Z) (is_resumed : bool) (departed : list DepartedSlot) : SessionSetup :=
  with_descriptors s (foldl (fun o r => match build_descriptor s k r is_resumed departed with Some d => record_descriptor o r d | None => o end) (descriptors s) ids).

Definition settle_lobby (s : SessionSetup) (k : string * Z) (expect : list Z) (still_current : bool) : bool * SessionSetup :=
  let serving := merge_sort Z.le (serving_relays s k) in
  let expect := merge_sort Z.le expect in
  if negb (bool_decide (serving = expect)) || bool_decide (serving = []) || negb still_current then (false, s)
  else
    match session_refs s !! k with
    | None => (false, s)
    | Some r =>
        let r := mkSessionRefs (periodic_evidence r) (evidence_keys r) (required_evidence_slots r) (evidence_assignments r) (evidence_home_boots r) (retired_evidence_assignments r) (external_id r)
                   (finalized_drops r) (capable_cohort r) (rollback r) (ref_slots r) (observers r) (expected r) (homes r) (relay_certs r) (relay_regions r)
                   (latency_estimate_ms r) (lobby_policy r) true in
        (true, stage (with_refs s (<[k := r]> (session_refs s))) k serving false [])
    end.

Definition refresh_resumed_descriptors (s : SessionSetup) (k : string * Z) (departed : list DepartedSlot) : SessionSetup :=
  let serving := serving_relays s k in
  if bool_decide (Exists (fun r => Exists (fun d => is_session k.1 k.2 d /\ resumed d = true) (current_for (descriptors s) r)) serving)
  then stage s k serving true departed else s.

(** A re-enrolled relay's capability is written into its descriptors. *)
Definition with_periodic (d : SessionDescriptor) (b : bool) : SessionDescriptor :=
  mkSessionDescriptor b (sd_evidence_keys d) (sd_required_evidence_slots d) (sd_evidence_assignments d) (sd_lobby_policy d) (sd_lobby_settled d) (sd_rollback d)
    (sd_finalized_drops d) (sd_tenant d) (sd_session d) (peers d) (sd_bounds d) (authority_order d) (sd_external_id d) (slot_refs d) (observer_slots d) (expected_slots d)
    (homed_slots d) (resumed d) (sd_departed_slots d) (sd_latency_estimate_ms d) (sd_relay_regions d).

Definition restage_periodic (s : SessionSetup) (relay : Z) : SessionSetup :=
  let capable := match entry (registry s) relay with Some e => has_capability e CAPABILITY_PERIODIC_EVIDENCE_V1 | None => false end in
  with_descriptors s (foldl (fun o d =>
    record_descriptor o relay (with_periodic d (capable && match session_refs s !! (sd_tenant d, sd_session d) with Some r => periodic_evidence r | None => false end)))
    (descriptors s) (current_for (descriptors s) relay)).

Definition forget_relay (s : SessionSetup) (relay : Z) : SessionSetup :=
  with_registry (with_reaps (with_descriptors s (forget_descriptors (descriptors s) relay)) (forget_reaps (reaps s) relay)) (forget_boot_id (registry s) relay).

(** ** Re-homing *)

Inductive RehomeOutcome : Type := Stay | Unavailable | NewTarget (e : RelayEndpoint).

Section rehome.
Context {sha : Sha256}.

Definition evidence_capability_matches (s : SessionSetup) (k : string * Z) (e : RelayEntry) : bool :=
  match session_refs s !! k with
  | Some r => bool_decide (required_evidence_slots r = []) || relay_evidence_capable e
  | None => false
  end.

Definition cert_matches_pin (s : SessionSetup) (k : string * Z) (relay : Z) (der : list Z) : bool :=
  match session_refs s !! k ≫= (fun r => relay_certs r !! relay) with
  | Some recorded => bool_decide (recorded = cert_fingerprint der)
  | None => true
  end.

Definition recorded_rehome (s : SessionSetup) (k : string * Z) (dead : Z) : option RelayEndpoint :=
  existing ← rehomes s !! (k, dead);
  e ← entry (registry s) existing;
  if evidence_capability_matches s k e then Some (endpoint_of e) else None.

(** The candidates a replacement is picked from, ascending by id. *)
Definition rehome_entries (s : SessionSetup) (k : string * Z) : list RelayEntry :=
  let '(cohort_capable, rb) := match session_refs s !! k with Some r => (capable_cohort r, rollback r) | None => (false, false) end in
  merge_sort by_relay_id
    (filter (fun e => Bool.eqb (relay_finalize_capable e) cohort_capable && (negb rb || relay_rollback_capable e) && evidence_capability_matches s k e)
       (available_entries (registry s))).

Definition pick_replacement (s : SessionSetup) (k : string * Z) (dead : Z) : option Z :=
  let serving := serving_relays s k in
  let dead_region := mjoin (session_refs s !! k ≫= (fun r => relay_regions r !! dead)) in
  let entries := rehome_entries s k in
  let serving_candidates := filter (fun id => Exists (fun e => relay_id e = id) entries) serving in
  match relay_id <$> (dead_region ≫= (fun rg => nearest_relay entries rg serving_candidates (pair_rtts s))) with
  | Some id => Some id
  | None => match head serving_candidates with Some id => Some id | None => relay_id <$> head entries end
  end.

(** The successor revision of every slot homed on the dead relay, [None] when
    one would wrap. *)
Definition successor_revisions (s : SessionSetup) (k : string * Z) (dead : Z) : option (list (Z * Z)) :=
  match session_refs s !! k with
  | None => Some []
  | Some r =>
      mapM (fun p => v ← checked_add u64_max (default 0 (evidence_assignments r !! p.1)) 1; Some (p.1, v))
        (filter (fun p => p.2 = dead) (btree_list (homes r)))
  end.

(** What a re-home decides before it mutates: an answer, or a replacement with
    its entry and the new revisions. *)
Inductive RehomePick : Type :=
| Answer (o : RehomeOutcome)
| Move (r_new : Z) (e : RelayEntry) (revisions : list (Z * Z)).

Definition rehome_pick (s : SessionSetup) (k : string * Z) (dead : Z) (allow_stay : bool) : RehomePick :=
  let serving := serving_relays s k in
  match serving with
  | [] => Answer Unavailable
  | _ =>
      match recorded_rehome s k dead with
      | Some ep => Answer (NewTarget ep)
      | None =>
          if allow_stay && bool_decide (dead ∈ serving) &&
             match entry (registry s) dead with
             | Some e => cert_matches_pin s k dead (cert_der e) && evidence_capability_matches s k e
             | None => false
             end
          then Answer Stay
          else if negb (bool_decide (dead ∈ serving)) then Answer Unavailable
          else
            match pick_replacement s k dead with
            | None => Answer Unavailable
            | Some r_new =>
                match entry (registry s) r_new, successor_revisions s k dead with
                | Some e, Some revisions => Move r_new e revisions
                | _, _ => Answer Unavailable
                end
            end
      end
  end.

Definition swap_member (members : list Z) (dead r_new : Z) : list Z :=
  if dead =? r_new then members
  else if bool_decide (r_new ∈ members) then filter (fun id => id <> dead) members
  else (fun id => if id =? dead then r_new else id) <$> members.

Definition move_refs (s : SessionSetup) (r : SessionRefs) (dead r_new : Z) (e : RelayEntry) (revisions : list (Z * Z)) : SessionRefs :=
  let boots := foldl (fun m p => match boot_id (registry s) r_new with Some b => <[p.1 := b]> m | None => base.delete p.1 m end) (evidence_home_boots r) revisions in
  mkSessionRefs (periodic_evidence r) (evidence_keys r) (required_evidence_slots r)
    (foldl (fun m p => <[p.1 := p.2]> m) (evidence_assignments r) revisions) boots
    (retire_evidence_assignments (wall_secs s) (retired_evidence_assignments r) (homes r) (evidence_home_boots r) (evidence_assignments r) dead) (external_id r) (finalized_drops r) (capable_cohort r) (rollback r)
    (ref_slots r) (observers r) (expected r) ((fun h => if h =? dead then r_new else h) <$> homes r)
    (<[r_new := cert_fingerprint (cert_der e)]> (base.delete dead (relay_certs r)))
    (<[r_new := region e]> (base.delete dead (relay_regions r)))
    (latency_estimate_ms r) (lobby_policy r) (lobby_settled r).

(** The mutation up to the commit hook; the membership is re-read under its lock
    and [None] is the [Unavailable] of a session that closed meanwhile. *)
Definition rehome_commit (s : SessionSetup) (k : string * Z) (dead r_new : Z) (e : RelayEntry) (revisions : list (Z * Z)) : option SessionSetup :=
  members ← session_relays s !! k;
  if negb (bool_decide (dead ∈ members)) then None
  else
    let s := with_relays s (<[k := swap_member members dead r_new]> (session_relays s)) in
    let s := with_descriptors s (remove_descriptor (descriptors s) dead k.1 k.2) in
    Some (match session_refs s !! k with
          | Some r => with_refs s (<[k := move_refs s r dead r_new e revisions]> (session_refs s))
          | None => s
          end).

(** The rest, once the hook ran and the departed slots were read. *)
Definition rehome_publish (s : SessionSetup) (k : string * Z) (dead r_new : Z) (departed : list DepartedSlot) : SessionSetup :=
  let serving := serving_relays s k in
  let s := stage s k (filter (fun id => id = r_new) serving ++ filter (fun id => id <> r_new) serving) true departed in
  with_rehomes s (<[(k, dead) := r_new]> (map_imap (fun x target => Some (if bool_decide (x.1 = k) && (target =? dead) then r_new else target)) (rehomes s))).

(** A re-home whose hook does nothing: [rehome], and [rehome_evicting] when
    staying is not allowed. *)
Definition rehome_inner (s : SessionSetup) (k : string * Z) (dead : Z) (allow_stay : bool) (departed : list DepartedSlot) : RehomeOutcome * SessionSetup :=
  match rehome_pick s k dead allow_stay with
  | Answer o => (o, s)
  | Move r_new e revisions =>
      match rehome_commit s k dead r_new e revisions with
      | None => (Unavailable, s)
      | Some s => (NewTarget (endpoint_of e), rehome_publish s k dead r_new departed)
      end
  end.

Definition rehome_evicting (s : SessionSetup) (k : string * Z) (relay : Z) (departed : list DepartedSlot) : RehomeOutcome * SessionSetup :=
  rehome_inner s k relay false departed.

End rehome.

(** ** Creating *)

(** [tenant::mint_token] and its encoding; [None] is a failure to sign. *)
Class MintToken : Type := mint_token : string -> Z -> Z -> list Z -> Z -> option (list Z).

(** [HashSet::insert] down a list: whether every key is new. *)
Fixpoint all_new (seen : list Z) (l : list Z) : bool :=
  match l with [] => true | x :: l => negb (bool_decide (x ∈ seen)) && all_new (x :: seen) l end.

Fixpoint validate_players (seen : list Z) (ps : list PlayerHandoff) : result (list Z) SessionSetupError :=
  match ps with
  | [] => Ok seen
  | p :: ps =>
      if MAX_SLOT <? pl_slot p then Err (SlotOutOfRange (pl_slot p))
      else if bool_decide (pl_slot p ∈ seen) then Err (DuplicateSlot (pl_slot p))
      else if match external_ref p with Some x => MAX_EXTERNAL_STRING_LEN <? Z.of_nat (String.length x) | None => false end then Err (ExternalRefTooLong (pl_slot p))
      else validate_players (pl_slot p :: seen) ps
  end.

Fixpoint validate_policy (roster : list Z) (bytes : Z) (allowed : list LobbyPolicyEntry) : result unit SessionSetupError :=
  match allowed with
  | [] => Ok tt
  | x :: allowed =>
      if negb (bool_decide (lp_slot x ∈ roster)) then Err (LobbyPolicySlotNotInRoster (lp_slot x))
      else
        match checked_add usize_max bytes (Z.of_nat (length (lp_payload x))) with
        | None => Err LobbyPolicyPayloadsTooLarge
        | Some bytes => if MAX_LOBBY_POLICY_PAYLOAD_BYTES <? bytes then Err LobbyPolicyPayloadsTooLarge else validate_policy roster bytes allowed
        end
  end.

Definition validate_request (rq : SessionRequest) : result unit SessionSetupError :=
  match players rq with
  | [] => Err NoPlayers
  | _ =>
      if MAX_EVIDENCE_KEYS <? Z.of_nat (length (rq_evidence_keys rq)) then Err InvalidEvidenceKeys
      else if negb (all_new [] (fst <$> rq_evidence_keys rq)) ||
              (bool_decide (rq_evidence_keys rq = []) && (rq_periodic_evidence rq || bool_decide (Exists (fun p => require_evidence p = true) (players rq))))
      then Err InvalidEvidenceKeys
      else
        match validate_players [] (players rq) with
        | Err e => Err e
        | Ok seen =>
            if match rq_external_id rq with Some x => MAX_EXTERNAL_STRING_LEN <? Z.of_nat (String.length x) | None => false end then Err ExternalIdTooLong
            else
              match rq_lobby_policy rq with
              | Some policy =>
                  if MAX_LOBBY_POLICY_ENTRIES <? Z.of_nat (length policy) then Err LobbyPolicyTooManyEntries else validate_policy seen 0 policy
              | None => Ok tt
              end
        end
  end.

Inductive CreateOutcome : Type :=
| Created (response : SessionResponse) (ids : list Z) (replayed : bool)
| Provisioning (regions : list string).

Section create.
Context {sha : Sha256} {mint : MintToken}.

(** A live cached create of the same id. *)
Definition cached_create (s : SessionSetup) (rq : SessionRequest) : option CachedCreate :=
  x ← rq_external_id rq;
  cached ← create_idempotency s !! (rq_tenant rq, x);
  match serving_relays s (rq_tenant rq, rs_session (cc_response cached)) with [] => None | _ => Some cached end.

Definition fresh_refs (s : SessionSetup) (rq : SessionRequest) (p : Placement) : SessionRefs :=
  mkSessionRefs (rq_periodic_evidence rq) (rq_evidence_keys rq)
    (pl_slot <$> filter (fun p => require_evidence p = true) (players rq))
    (list_to_map ((fun p => (pl_slot p, 1)) <$> players rq))
    (omap (fun relay => boot_id (registry s) relay) (pm_homes p)) []
    (rq_external_id rq) (pm_finalized_drops p) (pm_capable_cohort p) (pm_rollback p)
    (list_to_map (omap (fun p => (fun r => (pl_slot p, r)) <$> external_ref p) (players rq)))
    (pl_slot <$> filter (fun p => pl_observer p = true) (players rq)) (pl_slot <$> players rq)
    (pm_homes p) (pm_relay_certs p) (pm_relay_regions p) (rq_latency_estimate_ms rq) (rq_lobby_policy rq) false.

Definition mint_all (tenant : string) (session expires_at : Z) (ps : list PlayerHandoff) : option (list (Z * list Z)) :=
  mapM (fun p => t ← mint_token tenant session (pl_slot p) (client_pubkey p) expires_at; Some (pl_slot p, t)) ps.

(** The hold of a create for a cold region: [Some] regions when it is held. *)
Definition hold_until_ready (s : SessionSetup) (rq : SessionRequest) (now : option Z) (unix : Z) : option (list string) * SessionSetup :=
  match now, create_hold s, rq_external_id rq with
  | Some now, Some hold, Some x =>
      match unlit_requested_regions (registry s) rq with
      | [] => (None, s)
      | cold =>
          let w := foldl (fun w r => <[r := Z.min u64_max (unix + warm_ttl s)]> w) (warm s) cold in
          let '(held, p) := hold_pending_create (pending_creates s) (rq_tenant rq, x) now hold in
          (if held then Some cold else None, with_creates s (create_idempotency s) p w)
      end
  | _, _, _ => (None, s)
  end.

Definition commit_create (s : SessionSetup) (rq : SessionRequest) (p : Placement) (b : Z * Z) (expires_at : Z) : result CreateOutcome SessionSetupError * SessionSetup :=
  let session := next_session s in
  let k := (rq_tenant rq, session) in
  let s := with_next_session s ((session + 1) mod 2 ^ 64) in
  let s := with_relays s (<[k := relay_ids p]> (session_relays s)) in
  let s := with_refs s (<[k := fresh_refs s rq p]> (session_refs s)) in
  let s := stage s k (relay_ids p) false [] in
  match mint_all (rq_tenant rq) session expires_at (players rq) with
  | None => (Err (TenantNotFound (rq_tenant rq)), s)
  | Some toks =>
      let response := mkSessionResponse (pm_rollback p) session (pm_home p) (slot_homes p) toks b (relay_region_labels (pm_relay_regions p)) in
      (Ok (Created response (relay_ids p) false),
       match rq_external_id rq with
       | Some x =>
           with_creates s (<[(rq_tenant rq, x) := mkCachedCreate (from_request rq) response]> (create_idempotency s))
             (base.delete (rq_tenant rq, x) (pending_creates s)) (warm s)
       | None => s
       end)
  end.

(** [now] is the hold clock, absent for an immediate create; [unix] stamps the
    warm demand.  The outer [None] is a panic. *)
Definition create_body (s : SessionSetup) (rq : SessionRequest) (expires_at : Z) (now : option Z) (unix : Z) :
    option (result CreateOutcome SessionSetupError * SessionSetup) :=
  match cached_create s rq with
  | Some cached =>
      Some (if decide (cc_fingerprint cached = from_request rq) then Ok (Created (cc_response cached) [] true) else Err IdempotentCreateMismatch, s)
  | None =>
      match validate_request rq with
      | Err e => Some (Err e, s)
      | Ok _ =>
          if match session_ceiling s with Some c => c <=? live_session_count s | None => false end then Some (Err SessionCeilingReached, s)
          else
            let '(held, s) := hold_until_ready s rq now unix in
            match held with
            | Some regions => Some (Ok (Provisioning regions), s)
            | None =>
                placed ← place_by_region (registry s) (pair_rtts s) rq (next_session s) (finalize_feature s);
                match placed with
                | Err e => Some (Err e, s)
                | Ok p =>
                    match tenants s !! rq_tenant rq with
                    | None => Some (Err (TenantNotFound (rq_tenant rq)), s)
                    | Some b => Some (commit_create s rq p b expires_at)
                    end
                end
            end
      end
  end.

End create.
