(* ===== verification/SetupInv.v ===== *)
(** * What session setup keeps consistent

    The invariant of the setup maps over every operation, and what follows for
    clients and for sessions that ended. *)

From Stdlib Require Import ZArith Lia.
From stdpp Require Import gmap sorting list strings.
From S2P Require Import Prelude.
From S2P Require Import BTree.
From S2P Require Import Registry.
From S2P Require Import PairRtts.
From S2P Require Import Placement.
From S2P Require Import PlacementSound.
From S2P Require Import Outbox.
From S2P Require Import EvidenceHistory.
From S2P Require Import Setup.

Open Scope Z_scope.

(** A session's membership and records fit together: the serving relays are
    exactly the homes of its slots, each with its pinned certificate and region. *)
Record members_ok (l : list Z) (r : SessionRefs) : Prop := mkMembersOk {
  mo_nonempty : l <> [];
  mo_nodup : NoDup l;
  mo_homes : forall id, id ∈ l <-> exists slot, homes r !! slot = Some id;
  mo_certs : forall id, is_Some (relay_certs r !! id) <-> id ∈ l;
  mo_regions : forall id, is_Some (relay_regions r !! id) <-> id ∈ l;
}.

(** A descriptor in a relay's outbox is current. *)
Definition descriptor_ok (s : SessionSetup) (relay : Z) (d : SessionDescriptor) : Prop :=
  let k := (sd_tenant d, sd_session d) in
  relay ∈ serving_relays s k /\ authority_order d = serving_relays s k /\
  forall r, session_refs s !! k = Some r -> forall slot, slot ∈ homed_slots d <-> homes r !! slot = Some relay.

Record setup_ok {sha : Sha256} (s : SessionSetup) : Prop := mkSetupOk {
  so_registry : reg_ok (registry s);
  so_outbox : outbox_ok (descriptors s);
  so_dom : forall k, is_Some (session_refs s !! k) <-> is_Some (session_relays s !! k);
  so_members : forall k l r, session_relays s !! k = Some l -> session_refs s !! k = Some r -> members_ok l r;
  so_tenants : forall k, is_Some (session_relays s !! k) -> is_Some (tenants s !! k.1);
  so_descriptors : forall relay d, d ∈ current_for (descriptors s) relay -> descriptor_ok s relay d;
  so_staged : forall k relay, relay ∈ serving_relays s k -> exists d, d ∈ current_for (descriptors s) relay /\ is_session k.1 k.2 d;
  so_rehomes : forall k dead target, rehomes s !! (k, dead) = Some target -> target ∈ serving_relays s k;
  so_pairs : pairs_unsigned (pair_rtts s);
}.

(** ** Staging descriptors *)

Lemma homed_slots_elem (m : gmap Z Z) relay slot : slot ∈ (fst <$> filter (fun p => p.2 = relay) (btree_list m)) <-> m !! slot = Some relay.
Proof.
  rewrite list_elem_of_fmap. setoid_rewrite list_elem_of_filter. split.
  - intros ([k v] & -> & Hv & Hin). cbn in *. subst. by apply btree_list_elem.
  - intros H. exists (slot, relay). split; [done|]. split; [done|]. by apply btree_list_elem.
Qed.

Lemma build_descriptor_spec s k relay res dep :
  is_Some (tenants s !! k.1) -> is_Some (session_relays s !! k) -> exists d, build_descriptor s k relay res dep = Some d /\
    is_session k.1 k.2 d /\ authority_order d = serving_relays s k /\ resumed d = res /\ sd_departed_slots d = dep /\
    forall r, session_refs s !! k = Some r -> forall slot, slot ∈ homed_slots d <-> homes r !! slot = Some relay.
Proof.
  intros [b Hb] [l Hl]. unfold build_descriptor, serving_relays. rewrite Hb, Hl. cbn. eexists. split; [done|]. split; [done|]. do 3 (split; [done|]).
  intros r ->. cbn. apply homed_slots_elem.
Qed.

(** The descriptors [stage] leaves. *)
Lemma staged_spec s k ids res dep :
  outbox_ok (descriptors s) -> is_Some (tenants s !! k.1) -> is_Some (session_relays s !! k) ->
  let o := descriptors (stage s k ids res dep) in
  outbox_ok o /\
  (forall relay d, d ∈ current_for o relay <->
     (relay ∈ ids /\ build_descriptor s k relay res dep = Some d) \/
     (d ∈ current_for (descriptors s) relay /\ ~ (relay ∈ ids /\ is_session k.1 k.2 d))).
Proof.
  intros Hok Ht Hl. unfold stage. cbn. revert Hok. generalize (descriptors s) as o. induction ids as [|r ids IH]; intros o Hok; cbn [foldl].
  { split; [done|]. intros. split; [intros; right; split; [done|by intros [?%not_elem_of_nil _]]|]. intros [[?%not_elem_of_nil _]|[? _]]; done. }
  destruct (build_descriptor_spec s k r res dep Ht Hl) as (d0 & E0 & [K1 K2] & _). rewrite E0.
  destruct (IH (record_descriptor o r d0) (record_descriptor_ok o r d0 Hok)) as [H1 H2]. split; [done|].
  intros relay d. rewrite H2, record_descriptor_elem by done. rewrite elem_of_cons, K1, K2.
  destruct (decide (relay = r)) as [->|Hne].
  - destruct (build_descriptor_spec s k r res dep Ht Hl) as (d1 & E1 & K3 & _). assert (d1 = d0) as -> by congruence. clear E1.
    destruct (decide (r ∈ ids)); rewrite E0; split; naive_solver.
  - naive_solver.
Qed.

(** Rebuilding all of a session's descriptors leaves them current, given that
    nobody else had one. *)
Lemma restage_ok {sha : Sha256} (s : SessionSetup) k ids res dep :
  outbox_ok (descriptors s) -> is_Some (tenants s !! k.1) -> is_Some (session_relays s !! k) ->
  (forall id, id ∈ ids <-> id ∈ serving_relays s k) ->
  (forall relay d, d ∈ current_for (descriptors s) relay -> is_session k.1 k.2 d -> relay ∈ serving_relays s k) ->
  (forall relay d, d ∈ current_for (descriptors s) relay -> ~ is_session k.1 k.2 d -> descriptor_ok s relay d) ->
  (forall k' relay, k' <> k -> relay ∈ serving_relays s k' -> exists d, d ∈ current_for (descriptors s) relay /\ is_session k'.1 k'.2 d) ->
  let s' := stage s k ids res dep in
  outbox_ok (descriptors s') /\
  (forall relay d, d ∈ current_for (descriptors s') relay -> descriptor_ok s' relay d) /\
  (forall k' relay, relay ∈ serving_relays s' k' -> exists d, d ∈ current_for (descriptors s') relay /\ is_session k'.1 k'.2 d).
Proof.
  intros Hok Ht Hl Hids Hown Hother Hst s'. destruct (staged_spec s k ids res dep Hok Ht Hl) as [H1 H2]. fold s' in H1, H2. split; [done|]. split.
  - intros relay d [[Hr Hb]|[Hd Hn]]%H2.
    + destruct (build_descriptor_spec s k relay res dep Ht Hl) as (d' & E' & [K1 K2] & K3 & _ & _ & K4). assert (d' = d) as -> by congruence.
      unfold descriptor_ok. rewrite K1, K2. destruct k as [t n]. cbn in *. split; [by apply Hids|]. split; [done|]. exact K4.
    + destruct (decide (is_session k.1 k.2 d)) as [Hs|Hs]; [|by apply (Hother relay d)]. destruct Hn. split; [|done]. apply Hids. by eapply Hown.
  - intros k' relay Hr. destruct (decide (k' = k)) as [->|Hne].
    + destruct (build_descriptor_spec s k relay res dep Ht Hl) as (d & E & K & _). exists d. split; [|done]. apply H2. left. split; [by apply Hids|done].
    + destruct (Hst k' relay Hne Hr) as (d & Hd & Hs). exists d. split; [|done]. apply H2. right. split; [done|]. intros [_ [E1 E2]].
      destruct Hs as [E3 E4]. apply Hne. destruct k, k'. cbn in *. congruence.
Qed.

(** ** Retiring *)

Lemma remove_all_elem t n ids : forall o relay d,
  d ∈ current_for (foldl (fun o r => remove_descriptor o r t n) o ids) relay <-> d ∈ current_for o relay /\ ~ (relay ∈ ids /\ is_session t n d).
Proof.
  induction ids as [|r ids IH]; intros o relay d; cbn [foldl]; [split; [intros; split; [done|by intros [?%not_elem_of_nil _]]|by intros [? _]]|].
  rewrite IH, remove_descriptor_elem, elem_of_cons. naive_solver.
Qed.

Lemma remove_all_ok t n ids : forall o, outbox_ok o -> outbox_ok (foldl (fun o r => remove_descriptor o r t n) o ids).
Proof. induction ids as [|r ids IH]; intros o Hok; cbn [foldl]; [done|]. by apply IH, remove_descriptor_ok. Qed.

(** What [take_session_membership] leaves, whatever becomes of the idempotency
    entry. *)
Lemma take_spec s k : let '(taken, s') := take_session_membership s k in
  taken = serving_relays s k /\ session_relays s' = base.delete k (session_relays s) /\ session_refs s' = base.delete k (session_refs s) /\
  registry s' = registry s /\ tenants s' = tenants s /\ descriptors s' = descriptors s /\ reaps s' = reaps s /\ rehomes s' = rehomes s /\
  pair_rtts s' = pair_rtts s /\ next_session s' = next_session s /\
  (forall t x c, create_idempotency s' !! (t, x) = Some c -> create_idempotency s !! (t, x) = Some c) /\
  (forall t x c, create_idempotency s !! (t, x) = Some c -> create_idempotency s' !! (t, x) = Some c \/ (t = k.1 /\ rs_session (cc_response c) = k.2)).
Proof.
  unfold take_session_membership. destruct (session_refs s !! k) as [r|]; [|by repeat split; auto]. cbn [mbind option_bind].
  destruct (external_id r) as [x|]; [|by repeat split; auto]. cbn. destruct (create_idempotency s !! (k.1, x)) as [c|] eqn:Ec; [|by repeat split; auto].
  destruct (Z.eqb_spec (rs_session (cc_response c)) k.2) as [E|E]; [|by repeat split; auto]. do 10 (split; [done|]). split.
  - intros t y c'. cbn. by intros [_ H]%lookup_delete_Some.
  - intros t y c' Hc'. cbn. rewrite lookup_delete. case_decide as Hk; [|by left]. injection Hk as <- <-. right. rewrite Ec in Hc'. injection Hc' as <-. done.
Qed.

Lemma retire_spec s k : let s' := retire_session s k in
  session_relays s' = base.delete k (session_relays s) /\ session_refs s' = base.delete k (session_refs s) /\
  registry s' = registry s /\ tenants s' = tenants s /\ reaps s' = retire_reaps (reaps s) k.1 k.2 /\
  rehomes s' = filter (fun p => p.1.1 <> k) (rehomes s) /\ pair_rtts s' = pair_rtts s /\
  descriptors s' = foldl (fun o r => remove_descriptor o r k.1 k.2) (descriptors s) (serving_relays s k).
Proof.
  unfold retire_session. set (s1 := with_reaps _ _). pose proof (take_spec s1 k) as H. destruct (take_session_membership s1 k) as [taken s2].
  destruct H as (-> & H1 & H2 & H3 & H4 & H5 & H6 & H7 & H8 & _). cbn. by rewrite H1, H2, H3, H4, H5, H6, H7, H8.
Qed.

Lemma serving_delete s s' k k' : session_relays s' = base.delete k (session_relays s) -> k' <> k -> serving_relays s' k' = serving_relays s k'.
Proof. intros E Hne. unfold serving_relays. rewrite E. by rewrite lookup_delete_ne. Qed.

Lemma serving_deleted s s' k : session_relays s' = base.delete k (session_relays s) -> serving_relays s' k = [].
Proof. intros E. unfold serving_relays. rewrite E. by rewrite lookup_delete_eq. Qed.

Lemma is_session_key d k : is_session k.1 k.2 d <-> (sd_tenant d, sd_session d) = k.
Proof. destruct k. unfold is_session. cbn. split; [intros [-> ->]; done|by intros [= -> ->]]. Qed.

Lemma retire_ok {sha : Sha256} s k : setup_ok s -> setup_ok (retire_session s k).
Proof.
  intros Hok. destruct (retire_spec s k) as (E1 & E2 & E3 & E4 & E5 & E6 & E7 & E8). set (s' := retire_session s k) in *.
  assert (Hd : forall relay d, d ∈ current_for (descriptors s') relay <-> d ∈ current_for (descriptors s) relay /\ (sd_tenant d, sd_session d) <> k).
  { intros relay d. rewrite E8, remove_all_elem, is_session_key. split; intros [H1 H2]; (split; [done|]); [|naive_solver].
    intros <-. apply H2. split; [by apply (so_descriptors _ Hok relay d)|done]. }
  split.
  - rewrite E3. apply Hok.
  - rewrite E8. apply remove_all_ok, Hok.
  - intros k'. rewrite E1, E2, !lookup_delete_is_Some. rewrite (so_dom _ Hok k'). naive_solver.
  - intros k' l r. rewrite E1, E2. intros [_ H1]%lookup_delete_Some [_ H2]%lookup_delete_Some. by eapply so_members.
  - intros k'. rewrite E1, E4, lookup_delete_is_Some. intros [_ H]. by apply (so_tenants _ Hok).
  - intros relay d [H1 H2]%Hd. destruct (so_descriptors _ Hok relay d H1) as (K1 & K2 & K3). unfold descriptor_ok. rewrite (serving_delete s s' k) by done.
    split; [done|]. split; [done|]. intros r. rewrite E2, lookup_delete_ne by done. apply K3.
  - intros k' relay Hr. destruct (decide (k' = k)) as [->|Hne]; [rewrite (serving_deleted s s' k) in Hr by done; by apply not_elem_of_nil in Hr|].
    rewrite (serving_delete s s' k) in Hr by done. destruct (so_staged _ Hok k' relay Hr) as (d & H1 & H2). exists d. split; [|done]. apply Hd. split; [done|]. apply is_session_key in H2. congruence.
  - intros k' dead target. rewrite E6. intros [H1 H2]%map_lookup_filter_Some. cbn in H2. rewrite (serving_delete s s' k) by done. by eapply so_rehomes.
  - rewrite E7. apply Hok.
Qed.

(** A retired session leaves no trace: no membership, no descriptor in any
    relay's outbox, no pending slot close, no recorded re-home; so no later ask
    about it finds a relay and no reconnecting relay is told of it. *)
Lemma retire_leaves_nothing {sha : Sha256} s k : setup_ok s ->
  let s' := retire_session s k in
  serving_relays s' k = [] /\ session_refs s' !! k = None /\
  (forall relay d, d ∈ current_for (descriptors s') relay -> (sd_tenant d, sd_session d) <> k) /\
  (forall relay, pending_slots (reaps s') relay k.1 k.2 = []) /\
  (forall dead, rehomes s' !! (k, dead) = None) /\
  (forall dead allow, rehome_pick s' k dead allow = Answer Unavailable).
Proof.
  intros Hok. destruct (retire_spec s k) as (E1 & E2 & E3 & E4 & E5 & E6 & E7 & E8). set (s' := retire_session s k) in *.
  assert (Hs : serving_relays s' k = []) by by apply (serving_deleted s s' k).
  split; [done|]. split; [by rewrite E2, lookup_delete_eq|]. split; [|split; [|split]].
  - intros relay d. rewrite E8, remove_all_elem, is_session_key. intros [H1 H2] <-. apply H2. split; [by apply (so_descriptors _ Hok relay d)|done].
  - intros relay. rewrite E5. unfold pending_slots, retire_reaps. rewrite lookup_fmap. destruct (reaps s !! relay); [|done]. cbn. destruct k. by rewrite lookup_delete_eq.
  - intros dead. rewrite E6. destruct (filter _ _ !! _) eqn:E; [|done]. apply map_lookup_filter_Some in E as [_ E]. by cbn in E.
  - intros dead allow. unfold rehome_pick. by rewrite Hs.
Qed.

(** ** Re-homing *)

Lemma swap_member_elem l dead r_new id : dead ∈ l -> id ∈ swap_member l dead r_new <-> id = r_new \/ (id <> dead /\ id ∈ l).
Proof.
  intros Hd. unfold swap_member. destruct (Z.eqb_spec dead r_new) as [<-|Hne]; [destruct (decide (id = dead)); naive_solver|].
  case_bool_decide as Hr.
  - rewrite list_elem_of_filter. destruct (decide (id = r_new)) as [->|]; naive_solver.
  - rewrite list_elem_of_fmap. split.
    + intros (x & -> & Hx). destruct (Z.eqb_spec x dead); naive_solver.
    + intros [->|[Hi Hl]]; [exists dead; by rewrite Z.eqb_refl|]. exists id. destruct (Z.eqb_spec id dead); done.
Qed.

Lemma swap_member_nodup l dead r_new : NoDup l -> NoDup (swap_member l dead r_new).
Proof.
  intros Hn. unfold swap_member. destruct (dead =? r_new); [done|]. case_bool_decide as Hr; [by apply NoDup_filter|].
  induction Hn as [|x l Hx Hn IH]; [constructor|]. apply not_elem_of_cons in Hr as [Hrx Hr]. rewrite fmap_cons. apply NoDup_cons. split; [|by apply IH].
  intros (y & E & Hy)%list_elem_of_fmap. destruct (Z.eqb_spec x dead), (Z.eqb_spec y dead); subst; naive_solver.
Qed.

Lemma move_members_ok {sha : Sha256} s l r dead r_new e revs : members_ok l r -> dead ∈ l -> members_ok (swap_member l dead r_new) (move_refs s r dead r_new e revs).
Proof.
  intros [H1 H2 H3 H4 H5] Hd.
  assert (Hmap : forall {A} (m : gmap Z A) (v : A), (forall id, is_Some (m !! id) <-> id ∈ l) -> forall id, is_Some (<[r_new := v]> (base.delete dead m) !! id) <-> id ∈ swap_member l dead r_new).
  { intros A m v Hm id. rewrite swap_member_elem by done. rewrite lookup_insert_is_Some, lookup_delete_is_Some, Hm. destruct (decide (r_new = id)); naive_solver. }
  split; [|by apply swap_member_nodup| |by apply Hmap|by apply Hmap].
  - intros E. assert (Hin : r_new ∈ swap_member l dead r_new) by (apply swap_member_elem; auto). rewrite E in Hin. by apply not_elem_of_nil in Hin.
  - intros id. rewrite swap_member_elem by done. cbn. setoid_rewrite lookup_fmap. split.
    + intros [->|[Hi Hl]].
      * apply H3 in Hd as [slot Hs]. exists slot. rewrite Hs. cbn. by rewrite Z.eqb_refl.
      * apply H3 in Hl as [slot Hs]. exists slot. rewrite Hs. cbn. by destruct (Z.eqb_spec id dead).
    + intros (slot & Hs). destruct (homes r !! slot) as [h|] eqn:E; [|done]. cbn in Hs. injection Hs as <-. destruct (Z.eqb_spec h dead); [by left|]. right. split; [done|]. apply H3. by exists slot.
Qed.

(** The state a re-home that moves leaves. *)
Definition rehome_apply {sha : Sha256} (s : SessionSetup) (k : string * Z) (dead r_new : Z) (e : RelayEntry) (revs : list (Z * Z)) (dep : list DepartedSlot) : SessionSetup :=
  match rehome_commit s k dead r_new e revs with Some s' => rehome_publish s' k dead r_new dep | None => s end.

Lemma rehome_commit_spec {sha : Sha256} s k dead r_new e revs : setup_ok s -> dead ∈ serving_relays s k ->
  exists r s1, session_refs s !! k = Some r /\ rehome_commit s k dead r_new e revs = Some s1 /\
    session_relays s1 = <[k := swap_member (serving_relays s k) dead r_new]> (session_relays s) /\
    (exists r', session_refs s1 = <[k := r']> (session_refs s) /\ members_ok (swap_member (serving_relays s k) dead r_new) r' /\
       homes r' = (fun h => if h =? dead then r_new else h) <$> homes r /\ required_evidence_slots r' = required_evidence_slots r /\
       relay_certs r' !! r_new = Some (cert_fingerprint (cert_der e))) /\
    descriptors s1 = remove_descriptor (descriptors s) dead k.1 k.2 /\ rehomes s1 = rehomes s /\ registry s1 = registry s /\ tenants s1 = tenants s /\ pair_rtts s1 = pair_rtts s.
Proof.
  intros Hok Hd. unfold serving_relays in Hd. destruct (session_relays s !! k) as [l|] eqn:El; [|by apply not_elem_of_nil in Hd]. cbn in Hd.
  destruct (proj2 (so_dom _ Hok k)) as [r Er]; [by rewrite El|]. exists r.
  unfold rehome_commit, serving_relays. rewrite El. cbn. rewrite bool_decide_true by done. cbn. rewrite Er. eexists. split; [done|]. split; [done|]. split; [done|].
  split; [|done]. eexists. split; [done|]. split; [apply move_members_ok; [by eapply so_members|done]|]. split; [done|]. split; [done|]. cbn. by rewrite lookup_insert_eq.
Qed.

Lemma rehome_apply_ok {sha : Sha256} s k dead r_new e revs dep : setup_ok s -> dead ∈ serving_relays s k ->
  let s' := rehome_apply s k dead r_new e revs dep in
  setup_ok s' /\ serving_relays s' k = swap_member (serving_relays s k) dead r_new /\ (forall k', k' <> k -> serving_relays s' k' = serving_relays s k') /\
  (forall slot r r', session_refs s !! k = Some r -> session_refs s' !! k = Some r' -> homes r' !! slot = (fun h => if h =? dead then r_new else h) <$> homes r !! slot) /\
  registry s' = registry s.
Proof.
  intros Hok Hd s'. destruct (rehome_commit_spec s k dead r_new e revs Hok Hd) as (r & s1 & Er & Ec & E1 & (r' & E2 & Hm & Hh & _ & _) & E3 & E4 & E5 & E6 & E7).
  assert (Hserve : serving_relays s1 k = swap_member (serving_relays s k) dead r_new) by (unfold serving_relays at 1; rewrite E1; by rewrite lookup_insert_eq).
  assert (Hserve' : forall k', k' <> k -> serving_relays s1 k' = serving_relays s k') by (intros k' Hne; unfold serving_relays; rewrite E1; by rewrite lookup_insert_ne).
  assert (Hk : is_Some (session_relays s !! k)) by (unfold serving_relays in Hd; destruct (session_relays s !! k); [by eexists|by apply not_elem_of_nil in Hd]).
  assert (Hdesc : forall relay d, d ∈ current_for (descriptors s1) relay <-> d ∈ current_for (descriptors s) relay /\ ~ (relay = dead /\ (sd_tenant d, sd_session d) = k)).
  { intros relay d. rewrite E3, remove_descriptor_elem, is_session_key. done. }
  unfold s', rehome_apply. rewrite Ec. unfold rehome_publish. set (ids := filter _ _ ++ filter _ _).
  destruct (restage_ok s1 k ids true dep) as (R1 & R2 & R3).
  - rewrite E3. apply remove_descriptor_ok, Hok.
  - rewrite E6. by apply (so_tenants _ Hok).
  - rewrite E1. rewrite lookup_insert_eq. by eexists.
  - intros id. unfold ids. rewrite elem_of_app, !list_elem_of_filter. destruct (decide (id = r_new)); naive_solver.
  - intros relay d [H1 H2]%Hdesc Hs%is_session_key. rewrite Hserve, swap_member_elem by done. destruct (so_descriptors _ Hok relay d H1) as [H3 _].
    rewrite Hs in H3. destruct (decide (relay = r_new)); [by left|right]. split; [|done]. intros ->. by apply H2.
  - intros relay d [H1 H2]%Hdesc Hs. rewrite is_session_key in Hs. destruct (so_descriptors _ Hok relay d H1) as (K1 & K2 & K3). unfold descriptor_ok. rewrite Hserve' by done.
    split; [done|]. split; [done|]. rewrite E2, lookup_insert_ne by done. exact K3.
  - intros k' relay Hne. rewrite Hserve' by done. intros Hr. destruct (so_staged _ Hok k' relay Hr) as (d & H1 & H2). exists d. split; [|done]. apply Hdesc. split; [done|]. intros [_ E]. apply is_session_key in H2. congruence.
  - set (s2 := stage s1 k ids true dep) in *. split; [|split; [exact Hserve|split; [exact Hserve'|split; [|exact E5]]]].
    2:{ intros slot x x' Hx Hx'. change (session_refs s1 !! k = Some x') in Hx'. rewrite E2, lookup_insert_eq in Hx'. injection Hx' as <-. rewrite Er in Hx. injection Hx as <-. by rewrite Hh, lookup_fmap. }
    split.
    + change (reg_ok (registry s1)). rewrite E5. apply Hok.
    + exact R1.
    + intros k'. change (is_Some (session_refs s1 !! k') <-> is_Some (session_relays s1 !! k')). rewrite E1, E2, !lookup_insert_is_Some. rewrite (so_dom _ Hok k'). done.
    + intros k' l x. change (session_relays s1 !! k' = Some l -> session_refs s1 !! k' = Some x -> members_ok l x). rewrite E1, E2.
      destruct (decide (k = k')) as [<-|Hne]; [rewrite !lookup_insert_eq; by intros [= <-] [= <-]|]. rewrite !lookup_insert_ne by done. by eapply so_members.
    + intros k'. change (is_Some (session_relays s1 !! k') -> is_Some (tenants s1 !! k'.1)). rewrite E1, E6, lookup_insert_is_Some. intros [<-|[_ H]]; [by apply (so_tenants _ Hok)|by apply (so_tenants _ Hok)].
    + exact R2.
    + exact R3.
    + intros k' d' target. change (serving_relays (with_rehomes s2 _) k') with (serving_relays s1 k'). cbn. rewrite E4. intros [[[= <- <-] <-]|[Hne Ht]]%lookup_insert_Some.
      { rewrite Hserve. apply swap_member_elem; auto. }
      rewrite map_lookup_imap in Ht. destruct (rehomes s !! (k', d')) as [t0|] eqn:Et; [|done]. cbn in Ht. injection Ht as <-. pose proof (so_rehomes _ Hok _ _ _ Et) as Hin.
      case_bool_decide as Hk'; cbn [andb]; [|by rewrite Hserve']. subst k'. rewrite Hserve, swap_member_elem by done. destruct (Z.eqb_spec t0 dead); [by left|by right].
    + change (pairs_unsigned (pair_rtts s1)). rewrite E7. apply Hok.
Qed.

Lemma entry_unique {sha : Sha256} g e : reg_ok g -> e ∈ available_entries g -> entry g (relay_id e) = Some e.
Proof. intros Hok He. by apply available_spec. Qed.

(** A picked replacement is one of the candidates. *)
Lemma pick_replacement_entry s k dead r_new : pick_replacement s k dead = Some r_new -> exists e, e ∈ rehome_entries s k /\ relay_id e = r_new.
Proof.
  unfold pick_replacement. intros E. set (entries := rehome_entries s k) in *. set (sc := filter _ (serving_relays s k)) in *.
  assert (Hsc : forall id, id ∈ sc -> exists e, e ∈ entries /\ relay_id e = id) by (intros id [H _]%list_elem_of_filter; by apply Exists_exists in H).
  assert (Hrest : match head sc with Some id => Some id | None => relay_id <$> head entries end = Some r_new -> exists e, e ∈ entries /\ relay_id e = r_new).
  { destruct sc as [|x xs]; cbn; [|intros [= <-]; apply Hsc; by left]. destruct entries as [|y ys]; [done|]. intros [= <-]. exists y. split; [by left|done]. }
  destruct (mjoin _) as [rg|]; [|by apply Hrest]. cbn [mbind option_bind] in E. pose proof (nearest_relay_spec entries rg sc (pair_rtts s)) as Hn.
  destruct (nearest_relay entries rg sc (pair_rtts s)) as [e|]; [|by apply Hrest]. cbn in E. injection E as <-. exists e. split; [apply Hn|done].
Qed.

(** It is available and on the session's side of every capability boundary. *)
Lemma pick_replacement_spec {sha : Sha256} s k dead r_new : setup_ok s -> pick_replacement s k dead = Some r_new ->
  exists e, entry (registry s) r_new = Some e /\ relay_id e = r_new /\ is_available (registry s) r_new = true /\ evidence_capability_matches s k e = true /\
    forall r, session_refs s !! k = Some r -> relay_finalize_capable e = capable_cohort r /\ (rollback r = true -> relay_rollback_capable e = true).
Proof.
  intros Hok E. pose proof (pick_replacement_entry s k dead r_new E) as He.
  destruct He as (e & He & <-). unfold rehome_entries in He. destruct (match session_refs s !! k with Some r => _ | None => _ end) as [cap rb] eqn:Ec.
  rewrite merge_sort_Permutation in He. apply list_elem_of_filter in He as [Hc Hav].
  destruct (relay_finalize_capable e) eqn:Ef; destruct cap; try done; destruct rb; cbn in Hc; try done; destruct (relay_rollback_capable e) eqn:Er; cbn in Hc; try done;
    destruct (evidence_capability_matches s k e) eqn:Ee; try done; exists e; (destruct (available_spec (registry s) e (so_registry _ Hok) Hav) as [-> ->]);
    (do 3 (split; [done|])); (split; [done|]); intros r Hr; rewrite Hr in Ec; injection Ec as E1 E2; by rewrite Ef, Er, E1, E2.
Qed.

(** C11 What a re-home answers is true.  Stay: the relay serves the session and
    presents the certificate the clients pinned.  A new target: it serves the
    session from now on, is enrolled with the certificate handed out, and can
    carry the evidence the session needs; either an earlier move recorded it, or
    every slot homed on the relay left behind, and no other, now homes on it, and
    it takes work and is on the session's side of the capability boundaries.
    Unavailable: nothing changed, and the session is over, never used the named
    relay, or cannot be moved. *)
Theorem rehome_answers_true {sha : Sha256} (s : SessionSetup) (k : string * Z) (dead : Z) (allow_stay : bool) (departed : list DepartedSlot) :
  setup_ok s ->
  let '(o, s') := rehome_inner s k dead allow_stay departed in
  setup_ok s' /\
  match o with
  | Stay => s' = s /\ allow_stay = true /\ dead ∈ serving_relays s k /\
      exists e r, entry (registry s) dead = Some e /\ session_refs s !! k = Some r /\ relay_certs r !! dead = Some (sha256 (cert_der e))
  | Unavailable => s' = s /\ (dead ∉ serving_relays s k \/ pick_replacement s k dead = None \/ successor_revisions s k dead = None)
  | NewTarget ep => ep_id ep ∈ serving_relays s' k /\
      exists e r', entry (registry s') (ep_id ep) = Some e /\ ep = endpoint_of e /\ session_refs s' !! k = Some r' /\
        evidence_capability_matches s' k e = true /\
        ((s' = s /\ exists target, rehomes s !! (k, dead) = Some target) \/
         exists r, session_refs s !! k = Some r /\ is_available (registry s') (ep_id ep) = true /\
           relay_finalize_capable e = capable_cohort r /\ (rollback r = true -> relay_rollback_capable e = true) /\
           forall slot, homes r' !! slot = (fun h => if h =? dead then ep_id ep else h) <$> homes r !! slot)
  end.
Proof.
  intros Hok. unfold rehome_inner, rehome_pick. set (serving := serving_relays s k).
  destruct (decide (serving = [])) as [Es|Es].
  { rewrite Es. split; [done|]. split; [done|]. left. apply not_elem_of_nil. }
  replace (match serving with [] => _ | _ :: _ => _ end) with
    (match recorded_rehome s k dead with
      | Some ep => Answer (NewTarget ep)
      | None =>
          if allow_stay && bool_decide (dead ∈ serving) && match entry (registry s) dead with Some e => cert_matches_pin s k dead (cert_der e) && evidence_capability_matches s k e | None => false end
          then Answer Stay
          else if negb (bool_decide (dead ∈ serving)) then Answer Unavailable
          else match pick_replacement s k dead with
            | None => Answer Unavailable
            | Some r_new => match entry (registry s) r_new, successor_revisions s k dead with Some e, Some revisions => Move r_new e revisions | _, _ => Answer Unavailable end
            end
      end) by (destruct serving; done).
  destruct (recorded_rehome s k dead) as [ep|] eqn:Er.
  { split; [done|]. unfold recorded_rehome in Er. destruct (rehomes s !! (k, dead)) as [t|] eqn:Et; [|done]. cbn in Er. destruct (entry (registry s) t) as [e|] eqn:Ee; [|done]. cbn in Er.
    destruct (evidence_capability_matches s k e) eqn:Ev; [|done]. injection Er as <-.
    assert (Hid : relay_id e = t).
    { unfold entry in Ee. destruct (relays (registry s) !! t) as [x|] eqn:Ex; [|done]. injection Ee as <-. by apply (ro_keys _ (so_registry _ Hok)). }
    change (ep_id (endpoint_of e)) with (relay_id e). rewrite Hid. split; [by apply (so_rehomes _ Hok k dead)|].
    unfold evidence_capability_matches in Ev. destruct (session_refs s !! k) as [r|] eqn:Ek; [|done]. exists e, r. do 3 (split; [done|]). split; [|left; split; [done|by exists t]]. unfold evidence_capability_matches. by rewrite Ek. }
  destruct (allow_stay && _ && _) eqn:Est.
  { split; [done|]. split; [done|]. apply andb_true_iff in Est as [[Ha Hd%bool_decide_eq_true]%andb_true_iff Hm]. split; [done|]. split; [done|].
    destruct (entry (registry s) dead) as [e|]; [|done]. apply andb_true_iff in Hm as [Hm _]. unfold cert_matches_pin in Hm.
    unfold serving, serving_relays in Hd. destruct (session_relays s !! k) as [l|] eqn:El; [|by apply not_elem_of_nil in Hd]. cbn in Hd.
    destruct (proj2 (so_dom _ Hok k)) as [r Ek]; [by rewrite El|]. rewrite Ek in Hm. cbn in Hm. destruct (proj2 (mo_certs _ _ (so_members _ Hok k l r El Ek) dead) Hd) as [c Hc].
    rewrite Hc in Hm. apply bool_decide_eq_true in Hm. exists e, r. rewrite Hc. by subst c. }
  case_bool_decide as Hd; cbn [negb]; [|by split; [|split; [|left]]].
  destruct (pick_replacement s k dead) as [r_new|] eqn:Ep; [|by split; [|split; [|right; left]]].
  destruct (pick_replacement_spec s k dead r_new Hok Ep) as (e & Ee & Hid & Hav & Hev & Hcap). rewrite Ee.
  destruct (successor_revisions s k dead) as [revs|] eqn:Erv; [|by split; [|split; [|right; right]]].
  destruct (rehome_commit_spec s k dead r_new e revs Hok Hd) as (r & s1 & Ek & Ec & _ & (r' & E2 & _ & Hh & Hreq & _) & _ & _ & E5 & _).
  destruct (rehome_apply_ok s k dead r_new e revs departed Hok Hd) as (A1 & A2 & _ & A4 & A5). unfold rehome_apply in *. rewrite Ec in *.
  split; [done|]. change (ep_id (endpoint_of e)) with (relay_id e). rewrite Hid. split; [rewrite A2; apply swap_member_elem; auto|].
  exists e, r'. rewrite A5. split; [done|]. split; [done|]. change (session_refs (rehome_publish s1 k dead r_new departed)) with (session_refs s1).
  assert (Ek' : session_refs s1 !! k = Some r') by (by rewrite E2, lookup_insert_eq). split; [done|]. split.
  { unfold evidence_capability_matches in *. change (session_refs (rehome_publish s1 k dead r_new departed)) with (session_refs s1). rewrite Ek', Hreq. by rewrite Ek in Hev. }
  right. exists r. destruct (Hcap r Ek). do 4 (split; [done|]). intros slot. by rewrite Hh, lookup_fmap.
Qed.
