(* ===== verification/SetupRun.v ===== *)
(** * Sessions over the coordinator's life

    Creates, re-homes, evictions, retirements, lobby settlements, late
    departures, registry changes and slot closes in any order: the setup stays
    consistent, no create panics, and a tenant's id never names two live
    sessions. *)

From Stdlib Require Import ZArith Lia.
From stdpp Require Import gmap sorting list strings.
From S2P Require Import Prelude.
From S2P Require Import BTree.
From S2P Require Import Registry.
From S2P Require Import PairRtts.
From S2P Require Import Placement.
From S2P Require Import PlacementSound.
From S2P Require Import Outbox.
From S2P Require Import EvidenceHistory.
From S2P Require Import Setup.
From S2P Require Import SetupInv.

Open Scope Z_scope.

(** The fields the invariant reads. *)
Definition same_core (s s' : SessionSetup) : Prop :=
  registry s' = registry s /\ tenants s' = tenants s /\ session_relays s' = session_relays s /\ session_refs s' = session_refs s /\
  descriptors s' = descriptors s /\ rehomes s' = rehomes s /\ pair_rtts s' = pair_rtts s /\ next_session s' = next_session s.

Lemma setup_ok_core {sha : Sha256} s s' : same_core s s' -> setup_ok s -> setup_ok s'.
Proof.
  intros (E1 & E2 & E3 & E4 & E5 & E6 & E7 & _) [H1 H2 H3 H4 H5 H6 H7 H8 H9]. split; rewrite ?E1, ?E2, ?E3, ?E4, ?E5, ?E6, ?E7; try done.
  - intros relay d Hd. unfold descriptor_ok, serving_relays. rewrite E3, E4. by apply H6.
  - intros k relay. unfold serving_relays. rewrite E3. apply H7.
  - intros k dead target. unfold serving_relays. rewrite E3. apply H8.
Qed.

(** Session ids in use are below the counter, and a live session's external id
    is bound to it. *)
Definition ids_below (s : SessionSetup) : Prop := forall k, is_Some (session_relays s !! k) -> k.2 < next_session s.
Definition ids_bound (s : SessionSetup) : Prop := forall k r x, session_refs s !! k = Some r -> external_id r = Some x ->
  exists c, create_idempotency s !! (k.1, x) = Some c /\ rs_session (cc_response c) = k.2.

Record run_ok {sha : Sha256} (s : SessionSetup) : Prop := mkRunOk { rk_setup : setup_ok s; rk_below : ids_below s; rk_bound : ids_bound s; rk_next : 0 <= next_session s }.

Section run.
Context {sha : Sha256} {mint : MintToken}.

Lemma hold_core s rq now unix : let '(_, s') := hold_until_ready s rq now unix in
  same_core s s' /\ create_idempotency s' = create_idempotency s /\ finalize_feature s' = finalize_feature s.
Proof.
  unfold hold_until_ready. destruct now as [now|]; [|by repeat split]. destruct (create_hold s) as [h|]; [|by repeat split]. destruct (rq_external_id rq) as [x|]; [|by repeat split].
  destruct (unlit_requested_regions (registry s) rq) as [|a l]; [by repeat split|]. by destruct (hold_pending_create _ _ _ _).
Qed.

Lemma validate_players_nodup ps : forall seen l, validate_players seen ps = Ok l -> NoDup (pl_slot <$> ps) /\ forall p, p ∈ ps -> pl_slot p ∉ seen.
Proof.
  induction ps as [|p ps IH]; intros seen l; cbn [validate_players]; [intros _; split; [constructor|by intros ? ?%not_elem_of_nil]|].
  destruct (_ <? _); [done|]. case_bool_decide as Hs; [done|]. match goal with |- context [if ?b then Err (ExternalRefTooLong _) else _] => destruct b end; [done|]. intros H. destruct (IH _ _ H) as [H1 H2]. split.
  - rewrite fmap_cons. apply NoDup_cons. split; [|done]. intros (q & E & Hq)%list_elem_of_fmap. apply (H2 q Hq). rewrite <- E. by left.
  - intros q [->|Hq]%elem_of_cons; [done|]. intros Hin. apply (H2 q Hq). by right.
Qed.

Lemma validate_request_spec rq : validate_request rq = Ok tt -> players rq <> [] /\ NoDup (pl_slot <$> players rq).
Proof.
  unfold validate_request. destruct (players rq) as [|p ps] eqn:E; [done|]. rewrite <- E. destruct (_ <? _); [done|]. destruct (negb _ || _); [done|].
  destruct (validate_players [] (players rq)) as [seen|] eqn:Ev; [|done]. intros _. split; [congruence|]. by eapply validate_players_nodup.
Qed.

Lemma placed_members g pairs rq session ff p s : reg_ok g -> players rq <> [] -> NoDup (pl_slot <$> players rq) -> pairs_unsigned pairs ->
  place_by_region g pairs rq session ff = Some (Ok p) -> members_ok (relay_ids p) (fresh_refs s rq p).
Proof.
  intros Hg Hp Hn Hu E. assert (Hc : candidates g rq <> []) by (intros Hc; unfold place_by_region in E; by rewrite Hc in E).
  destruct (place_unfold g pairs rq session ff Hg Hp Hn Hu Hc) as (p' & l & entries & E' & H). rewrite E in E'. injection E' as <-.
  destruct (cohort rq (candidates g rq)) as [[rb cap] c]. destruct H as (Hd & _ & _ & Hnd & _). split; [|apply Hd| |apply Hd|apply Hd].
  - destruct (di_home _ _ _ Hd) as (h & rest & e & -> & _). done.
  - intros id. cbn. rewrite (di_ids _ _ _ Hd), (di_homes _ _ _ Hd). split.
    + intros (x & Hx & <-). exists x.1. by apply homes_lookup.
    + intros (slot & Hs). apply homes_lookup_inv in Hs as (x & Hx & _ & E2). by exists x.
Qed.

(** A create keeps the setup consistent; with signing available, it binds the id. *)
Lemma commit_create_ok s rq p b expires : run_ok s -> next_session s < u64_max -> tenants s !! rq_tenant rq = Some b -> cached_create s rq = None ->
  (forall s', members_ok (relay_ids p) (fresh_refs s' rq p)) -> (forall t n sl pk ex, is_Some (mint_token t n sl pk ex)) ->
  let '(o, s') := commit_create s rq p b expires in run_ok s' /\ next_session s' = next_session s + 1 /\ registry s' = registry s.
Proof.
  intros [Hok Hb Hi H0] Hn Ht Hcache Hm Hmint. unfold commit_create. set (session := next_session s). set (k := (rq_tenant rq, session)).
  assert (Hmod : (session + 1) mod 2 ^ 64 = session + 1) by (apply Z.mod_small; unfold session, u64_max in *; lia). rewrite Hmod.
  set (s1 := with_relays _ _). set (r := fresh_refs s1 rq p). set (s2 := with_refs s1 _).
  assert (Hfresh : session_relays s !! k = None).
  { destruct (session_relays s !! k) eqn:E; [|done]. assert (k.2 < next_session s) by (apply Hb; by rewrite E). unfold k, session in *. cbn in *. lia. }
  assert (Hfresh2 : session_refs s !! k = None) by (destruct (session_refs s !! k) eqn:E; [|done]; destruct (proj1 (so_dom _ Hok k)); [by rewrite E|congruence]).
  assert (Hs0 : serving_relays s k = []) by (unfold serving_relays; by rewrite Hfresh).
  assert (Hsk : serving_relays s2 k = relay_ids p) by (unfold serving_relays; cbn; by rewrite lookup_insert_eq).
  assert (Hso : forall k', k' <> k -> serving_relays s2 k' = serving_relays s k') by (intros k' Hne; unfold serving_relays; cbn; by rewrite lookup_insert_ne).
  assert (Hnone : forall relay d, d ∈ current_for (descriptors s) relay -> (sd_tenant d, sd_session d) <> k).
  { intros relay d Hd E. destruct (so_descriptors _ Hok relay d Hd) as [H _]. rewrite E, Hs0 in H. by apply not_elem_of_nil in H. }
  destruct (restage_ok s2 k (relay_ids p) false []) as (R1 & R2 & R3).
  - apply Hok.
  - cbn. by rewrite Ht.
  - cbn. rewrite lookup_insert_eq. by eexists.
  - intros id. by rewrite Hsk.
  - intros relay d Hd Hs%is_session_key. by destruct (Hnone relay d Hd).
  - intros relay d Hd Hs. rewrite is_session_key in Hs. destruct (so_descriptors _ Hok relay d Hd) as (K1 & K2 & K3). unfold descriptor_ok. rewrite Hso by done. split; [done|]. split; [done|].
    cbn. rewrite lookup_insert_ne by done. exact K3.
  - intros k' relay Hne. rewrite Hso by done. apply Hok.
  - set (s3 := stage s2 k (relay_ids p) false []) in *.
    assert (Hok3 : setup_ok s3).
    { split; [apply Hok|exact R1| | | |exact R2|exact R3| |apply Hok].
      - intros k'. cbn. rewrite !lookup_insert_is_Some. rewrite (so_dom _ Hok k'). done.
      - intros k' l x. cbn. destruct (decide (k = k')) as [<-|Hne]; [rewrite !lookup_insert_eq; intros [= <-] [= <-]; apply Hm|]. rewrite !lookup_insert_ne by done. by eapply so_members.
      - intros k'. cbn. rewrite lookup_insert_is_Some. intros [<-|[_ H]]; [cbn; by rewrite Ht|by apply (so_tenants _ Hok)].
      - intros k' dead target Hr. change (serving_relays s3 k') with (serving_relays s2 k'). pose proof (so_rehomes _ Hok k' dead target Hr) as Hin. rewrite Hso; [done|]. intros ->. rewrite Hs0 in Hin. by apply not_elem_of_nil in Hin. }
    assert (Hbel : ids_below s3) by (intros k'; cbn; rewrite lookup_insert_is_Some; intros [<-|[_ H]]; [cbn; lia|apply Hb in H; unfold session; lia]).
    destruct (mapM_Some_intro (fun q => t ← mint_token (rq_tenant rq) session (pl_slot q) (client_pubkey q) expires; Some (pl_slot q, t)) (players rq)) as [toks Et].
    { intros q _. destruct (Hmint (rq_tenant rq) session (pl_slot q) (client_pubkey q) expires) as [t ->]. by eexists. }
    unfold mint_all. rewrite Et. destruct (rq_external_id rq) as [x|] eqn:Ex.
    + split; [|done]. split; [|exact Hbel| |cbn; unfold session; lia]. { by apply (setup_ok_core s3). }
      intros k' r' y. cbn. intros [[<- <-]|[Hne Hr']]%lookup_insert_Some.
      { cbn. rewrite Ex. intros [= <-]. rewrite lookup_insert_eq. by eexists. }
      intros Hy. destruct (Hi k' r' y Hr' Hy) as (c & Hc & E). exists c. split; [|done]. rewrite lookup_insert_ne; [done|]. intros [= E1 <-].
      unfold cached_create in Hcache. rewrite Ex in Hcache. cbn in Hcache. rewrite E1, Hc in Hcache. cbn in Hcache. rewrite E in Hcache. unfold serving_relays in Hcache.
      destruct k' as [t' n']. cbn in *. destruct (proj1 (so_dom _ Hok (t', n'))) as [l Hl]; [by rewrite Hr'|]. rewrite Hl in Hcache. cbn in Hcache. destruct l; [|done].
      by destruct (mo_nonempty _ _ (so_members _ Hok _ _ _ Hl Hr')).
    + split; [|done]. split; [exact Hok3|exact Hbel| |cbn; unfold session; lia]. intros k' r' y. cbn. intros [[<- <-]|[Hne Hr']]%lookup_insert_Some; [cbn; by rewrite Ex|]. by apply Hi.
Qed.

Lemma create_body_ok s rq expires now unix : run_ok s -> next_session s < u64_max -> (forall t n sl pk ex, is_Some (mint_token t n sl pk ex)) ->
  exists o s', create_body s rq expires now unix = Some (o, s') /\ run_ok s' /\ next_session s <= next_session s' <= next_session s + 1 /\ registry s' = registry s.
Proof.
  intros Hr Hn Hmint. unfold create_body. destruct (cached_create s rq) as [c|] eqn:Ec; [eexists _, s; split; [done|]; split; [done|]; split; [lia|done]|].
  destruct (validate_request rq) as [[]|e] eqn:Ev; [|eexists _, s; split; [done|]; split; [done|]; split; [lia|done]].
  destruct (match session_ceiling s with Some c => c <=? live_session_count s | None => false end); [eexists _, s; split; [done|]; split; [done|]; split; [lia|done]|].
  pose proof (hold_core s rq now unix) as Hh. destruct (hold_until_ready s rq now unix) as [held s1]. destruct Hh as (Hcore & Hid & Hff).
  pose proof Hcore as (E1 & E2 & E3 & E4 & E5 & E6 & E7 & E8).
  assert (Hr1 : run_ok s1).
  { destruct Hr as [K1 K2 K3 K4]. split; [by apply (setup_ok_core s)| | |by rewrite E8].
    - intros k. rewrite E3, E8. apply K2.
    - intros k r x. rewrite E4, Hid. apply K3. }
  destruct held as [regions|]; [eexists _, s1; split; [done|]; split; [done|]; rewrite E8; split; [lia|done]|].
  destruct (validate_request_spec rq Ev) as [Hp Hnd]. set (pl := place_by_region _ _ _ _ _).
  assert (Hpl : match pl with None => False | Some (Err _) => True | Some (Ok p) => forall s', members_ok (relay_ids p) (fresh_refs s' rq p) end).
  { unfold pl. destruct (decide (candidates (registry s1) rq = [])) as [Hc|Hc]; [unfold place_by_region; by rewrite Hc|].
    destruct (place_unfold (registry s1) (pair_rtts s1) rq (next_session s1) (finalize_feature s1)) as (p & _ & _ & Ep & _); try done; try apply (rk_setup _ Hr1). rewrite Ep. intros s'.
    eapply placed_members; [apply (rk_setup _ Hr1)|done|done|apply (rk_setup _ Hr1)|exact Ep]. }
  destruct pl as [[p|e]|]; [| |done]; cbn [mbind option_bind].
  2:{ eexists _, s1. split; [done|]. split; [done|]. rewrite E8. split; [lia|done]. }
  destruct (tenants s1 !! rq_tenant rq) as [b|] eqn:Et; [|eexists _, s1; split; [done|]; split; [done|]; rewrite E8; split; [lia|done]].
  assert (Hc1 : cached_create s1 rq = None) by (unfold cached_create, serving_relays in *; by rewrite Hid, E3).
  pose proof (commit_create_ok s1 rq p b expires Hr1 ltac:(by rewrite E8) Et Hc1 Hpl Hmint) as H. destruct (commit_create s1 rq p b expires) as [o s']. destruct H as (H1 & H2 & H3).
  exists o, s'. split; [done|]. split; [done|]. split; [lia|by rewrite H3].
Qed.

(** Rewriting one field of the descriptors a relay holds. *)
Lemma restage_fold_ok s relay f l : forall o,
  (forall d, is_session (sd_tenant d) (sd_session d) (f d) /\ authority_order (f d) = authority_order d /\ homed_slots (f d) = homed_slots d) ->
  outbox_ok o -> (forall d, d ∈ l -> descriptor_ok s relay d) -> (forall r d, d ∈ current_for o r -> descriptor_ok s r d) ->
  (forall k r, r ∈ serving_relays s k -> exists d, d ∈ current_for o r /\ is_session k.1 k.2 d) ->
  let o' := foldl (fun o d => record_descriptor o relay (f d)) o l in
  outbox_ok o' /\ (forall r d, d ∈ current_for o' r -> descriptor_ok s r d) /\
  (forall k r, r ∈ serving_relays s k -> exists d, d ∈ current_for o' r /\ is_session k.1 k.2 d).
Proof.
  induction l as [|d l IH]; intros o Hf H1 H2 H3 H4; cbn [foldl]; [done|]. destruct (Hf d) as (Fk & Fa & Fh). pose proof (proj1 (is_session_key _ (_, _)) Fk) as Ek. apply IH; [done|by apply record_descriptor_ok|intros x Hx; apply H2; by right| |].
  - intros r x Hx. apply record_descriptor_elem in Hx; [|done]. destruct Hx as [(-> & [->|[Hx _]])|[_ Hx]]; [|by apply H3|by apply H3].
    destruct (H2 d ltac:(by left)) as (K1 & K2 & K3). unfold descriptor_ok. cbn in Ek. rewrite Ek, Fa, Fh. done.
  - intros k r Hr. destruct (H4 k r Hr) as (x & Hx & Hs). destruct (decide (r = relay /\ is_session (sd_tenant (f d)) (sd_session (f d)) x)) as [[-> Hs']|Hn].
    + exists (f d). split; [apply record_descriptor_elem; [done|left; by split; [|left]]|]. unfold is_session in *. destruct Hs as [S1 S2], Hs' as [T1 T2]. split; congruence.
    + exists x. split; [|done]. apply record_descriptor_elem; [done|]. destruct (decide (r = relay)) as [->|]; [left; split; [done|right; naive_solver]|by right].
Qed.

Lemma restage_periodic_ok s relay : setup_ok s -> setup_ok (restage_periodic s relay).
Proof.
  intros Hok. unfold restage_periodic. set (cap := match entry (registry s) relay with Some e => _ | None => _ end).
  destruct (restage_fold_ok s relay (fun d => with_periodic d (cap && match session_refs s !! (sd_tenant d, sd_session d) with Some r => periodic_evidence r | None => false end)) (current_for (descriptors s) relay) (descriptors s)) as (R1 & R2 & R3); [done|apply Hok|intros d; apply Hok|apply Hok|apply Hok|].
  destruct Hok as [K1 K2 K3 K4 K5 K6 K7 K8 K9]. by split.
Qed.

Inductive SetupOp : Type :=
| SCreate (rq : SessionRequest) (expires_at : Z) (now : option Z) (unix : Z)
| SRehome (k : string * Z) (dead : Z) (allow_stay : bool) (departed : list DepartedSlot)
| SRetire (k : string * Z)
| SSettle (k : string * Z) (expect : list Z) (still_current : bool)
| SRefresh (k : string * Z) (departed : list DepartedSlot)
| SRegistry (o : RegOp)
| SReap (o : ReapOp)
| SPairs (p : PairRttStore)
| SClock (wall instant : Z)
| SRestage (relay : Z).

Definition setup_op_ok (o : SetupOp) : Prop := match o with SPairs p => pairs_unsigned p | _ => True end.

Definition with_pairs (s : SessionSetup) (p : PairRttStore) : SessionSetup :=
  mkSessionSetup (registry s) (tenants s) (session_relays s) (session_refs s) (descriptors s) (reaps s) (next_session s) (rehomes s) (create_idempotency s) (warm s) (warm_ttl s)
    (create_hold s) (pending_creates s) (session_ceiling s) (finalize_feature s) p (closed_evidence_assignments s) (wall_secs s) (instant_ns s).

Definition with_clocks (s : SessionSetup) (wall instant : Z) : SessionSetup :=
  mkSessionSetup (registry s) (tenants s) (session_relays s) (session_refs s) (descriptors s) (reaps s) (next_session s) (rehomes s) (create_idempotency s) (warm s) (warm_ttl s)
    (create_hold s) (pending_creates s) (session_ceiling s) (finalize_feature s) (pair_rtts s) (closed_evidence_assignments s) wall instant.

Definition setup_step (s : SessionSetup) (o : SetupOp) : option SessionSetup :=
  match o with
  | SCreate rq expires now unix => snd <$> create_body s rq expires now unix
  | SRehome k dead allow departed => Some (rehome_inner s k dead allow departed).2
  | SRetire k => Some (retire_session s k)
  | SSettle k expect cur => Some (settle_lobby s k expect cur).2
  | SRefresh k departed => Some (refresh_resumed_descriptors s k departed)
  | SRegistry o => Some (with_registry s (reg_step (registry s) o))
  | SReap o => Some (with_reaps s (reap_step (reaps s) o))
  | SPairs p => Some (with_pairs s p)
  | SClock wall instant => Some (with_clocks s wall instant)
  | SRestage relay => Some (restage_periodic s relay)
  end.

Fixpoint setup_run (s : SessionSetup) (ops : list SetupOp) : option SessionSetup :=
  match ops with [] => Some s | o :: ops => s' ← setup_step s o; setup_run s' ops end.

(** A coordinator just started: its tenants, and the first session id. *)
Definition new_setup (tenants : gmap string (Z * Z)) (first : Z) (hold : option Z) (ttl : Z) (ceiling : option Z) (feature : bool) : SessionSetup :=
  mkSessionSetup new_registry tenants ∅ ∅ ∅ ∅ first ∅ ∅ ∅ ttl hold ∅ ceiling feature ∅ no_closed 0 0.

Lemma new_setup_ok tn first hold ttl ceiling feature : 0 <= first -> run_ok (new_setup tn first hold ttl ceiling feature).
Proof.
  intros Hf. split; [|intros k; cbn; rewrite lookup_empty; by intros []|intros k r x; cbn; by rewrite lookup_empty|done].
  split; cbn; try done.
  - intros k. by rewrite !lookup_empty, !is_Some_alt.
  - intros k. rewrite lookup_empty. by intros [].
  - intros relay d. unfold current_for. rewrite lookup_empty. cbn. by intros ?%not_elem_of_nil.
  - intros k relay. unfold serving_relays. cbn. rewrite lookup_empty. cbn. by intros ?%not_elem_of_nil.
Qed.

(** Restaging a live session's own descriptors changes nothing else. *)
Lemma stage_live_ok s k ids res dep : setup_ok s -> is_Some (session_relays s !! k) -> (forall id, id ∈ ids <-> id ∈ serving_relays s k) -> setup_ok (stage s k ids res dep).
Proof.
  intros Hok Hk Hids. destruct (restage_ok s k ids res dep) as (R1 & R2 & R3); [apply Hok|by apply (so_tenants _ Hok)|done|done| | | |].
  - intros relay d Hd Hs%is_session_key. destruct (so_descriptors _ Hok relay d Hd) as [H _]. by rewrite Hs in H.
  - intros relay d Hd _. by apply (so_descriptors _ Hok).
  - intros k' relay _. apply Hok.
  - destruct Hok. by split.
Qed.

Lemma live_key s k : serving_relays s k <> [] -> is_Some (session_relays s !! k).
Proof. unfold serving_relays. by destruct (session_relays s !! k). Qed.

Lemma rehome_inner_cases s k dead allow dep : setup_ok s ->
  (rehome_inner s k dead allow dep).2 = s \/
  exists r_new e revs, dead ∈ serving_relays s k /\ (rehome_inner s k dead allow dep).2 = rehome_apply s k dead r_new e revs dep.
Proof.
  intros Hok. unfold rehome_inner. destruct (rehome_pick s k dead allow) as [o|r_new e revs] eqn:Ep; [by left|].
  unfold rehome_apply. destruct (rehome_commit s k dead r_new e revs) as [s1|] eqn:Ec; [|by left]. right. exists r_new, e, revs. rewrite Ec. split; [|done].
  unfold rehome_commit in Ec. unfold serving_relays. destruct (session_relays s !! k) as [l|]; [|done]. cbn in *. by case_bool_decide.
Qed.

Lemma rehome_apply_run s k dead r_new e revs dep : run_ok s -> dead ∈ serving_relays s k -> run_ok (rehome_apply s k dead r_new e revs dep).
Proof.
  intros [Hok Hb Hi H0] Hd. destruct (rehome_apply_ok s k dead r_new e revs dep Hok Hd) as (A1 & _). split; [done| | |].
  - unfold rehome_apply. destruct (rehome_commit s k dead r_new e revs) as [s1|] eqn:Ec; [|done]. unfold rehome_commit in Ec. destruct (session_relays s !! k) as [l|] eqn:El; [|done]. cbn in Ec.
    destruct (bool_decide _); [|done]. cbn in Ec. destruct (session_refs s !! k); injection Ec as <-; intros k'; cbn; rewrite lookup_insert_is_Some; (intros [<-|[_ H]]; [apply Hb; by rewrite El|by apply Hb]).
  - unfold rehome_apply. destruct (rehome_commit s k dead r_new e revs) as [s1|] eqn:Ec; [|done]. unfold rehome_commit in Ec. destruct (session_relays s !! k) as [l|]; [|done]. cbn in Ec.
    destruct (bool_decide _); [|done]. cbn in Ec. destruct (session_refs s !! k) as [r|] eqn:Er; injection Ec as <-; [|done]. intros k' r' x. cbn.
    intros [[<- <-]|[_ H]]%lookup_insert_Some; [cbn; by apply Hi|by apply Hi].
  - unfold rehome_apply. destruct (rehome_commit s k dead r_new e revs) as [s1|] eqn:Ec; [|done]. unfold rehome_commit in Ec. destruct (session_relays s !! k) as [l|]; [|done]. cbn in Ec.
    destruct (bool_decide _); [|done]. cbn in Ec. destruct (session_refs s !! k); by injection Ec as <-.
Qed.

Lemma retire_run s k : run_ok s -> run_ok (retire_session s k).
Proof.
  intros [Hok Hb Hi H0]. destruct (retire_spec s k) as (E1 & E2 & _). pose proof (take_spec (with_reaps s (retire_reaps (reaps s) k.1 k.2)) k) as Ht.
  assert (En : next_session (retire_session s k) = next_session s /\ (forall t x c, create_idempotency s !! (t, x) = Some c ->
    create_idempotency (retire_session s k) !! (t, x) = Some c \/ (t = k.1 /\ rs_session (cc_response c) = k.2))).
  { unfold retire_session. destruct (take_session_membership _ k) as [taken s2]. destruct Ht as (_ & _ & _ & _ & _ & _ & _ & _ & _ & E3 & _ & E4). by split. }
  destruct En as [En Ei]. split; [by apply retire_ok| | |by rewrite En].
  - intros k'. rewrite E1, En, lookup_delete_is_Some. intros [_ H]. by apply Hb.
  - intros k' r x. rewrite E2. intros [Hne Hr]%lookup_delete_Some Hx. destruct (Hi k' r x Hr Hx) as (c & Hc & E). exists c. split; [|done].
    destruct (Ei _ _ _ Hc) as [|[E3 E4]]; [done|]. exfalso. apply Hne. destruct k, k'. cbn in *. congruence.
Qed.

Lemma setup_step_ok s o : run_ok s -> next_session s < u64_max -> next_generation (registry s) < u64_max -> setup_op_ok o -> (forall t n sl pk ex, is_Some (mint_token t n sl pk ex)) ->
  exists s', setup_step s o = Some s' /\ run_ok s' /\ next_session s <= next_session s' <= next_session s + 1 /\
    next_generation (registry s) <= next_generation (registry s') <= next_generation (registry s) + 1.
Proof.
  intros Hr Hn Hg Ho Hmint. pose proof Hr as [Hok Hb Hi H0].
  assert (Hrefresh : forall k, serving_relays s k <> [] -> forall id, id ∈ serving_relays s k <-> id ∈ serving_relays s k) by done.
  destruct o as [rq expires now unix|k dead allow dep|k|k expect cur|k dep|o|o|p|wall instant|relay]; cbn [setup_step].
  - destruct (create_body_ok s rq expires now unix Hr Hn Hmint) as (o & s' & -> & H1 & H2 & H3). exists s'. rewrite H3. split; [done|]. split; [done|]. split; [lia|lia].
  - eexists. split; [done|]. destruct (rehome_inner_cases s k dead allow dep Hok) as [->|(r_new & e & revs & Hd & ->)]; [split; [done|lia]|].
    split; [by apply rehome_apply_run|]. pose proof (rehome_apply_run s k dead r_new e revs dep Hr Hd) as _. destruct (rehome_apply_ok s k dead r_new e revs dep Hok Hd) as (_ & _ & _ & _ & ->).
    destruct (rehome_commit_spec s k dead r_new e revs Hok Hd) as (r & s1 & Er & Ec & _). unfold rehome_apply. rewrite Ec. change (next_session (rehome_publish s1 k dead r_new dep)) with (next_session s1).
    assert (Es : next_session s1 = next_session s); [|rewrite Es; lia]. unfold rehome_commit in Ec. destruct (session_relays s !! k); [|done]. cbn in Ec. destruct (bool_decide _); [|done]. cbn in Ec. rewrite Er in Ec. by injection Ec as <-.
  - eexists. split; [done|]. split; [by apply retire_run|]. destruct (retire_spec s k) as (_ & _ & -> & _).
    assert (Es : next_session (retire_session s k) = next_session s); [|rewrite Es; lia].
    unfold retire_session. pose proof (take_spec (with_reaps s (retire_reaps (reaps s) k.1 k.2)) k) as Ht. destruct (take_session_membership _ k) as [taken s2]. cbn. by apply Ht.
  - eexists. split; [done|]. unfold settle_lobby. destruct (negb _ || _ || _) eqn:Eb; [split; [done|cbn; lia]|]. destruct (session_refs s !! k) as [r|] eqn:Er; [|split; [done|cbn; lia]].
    set (r' := mkSessionRefs _ _ _ _ _ _ _ _ _ _ _ _ _ _ _ _ _ _ _). set (s1 := with_refs s _). destruct (proj1 (so_dom _ Hok k)) as [l El]; [by rewrite Er|].
    assert (Hok1 : setup_ok s1).
    { destruct Hok as [K1 K2 K3 K4 K5 K6 K7 K8 K9]. split; cbn; try done.
      - intros k'. rewrite lookup_insert_is_Some, <- K3. destruct (decide (k = k')) as [<-|]; [rewrite Er; naive_solver|naive_solver].
      - intros k' l' x Hl'. destruct (decide (k = k')) as [<-|Hne]; [rewrite lookup_insert_eq; intros [= <-]; destruct (K4 k l' r Hl' Er); by split|]. rewrite lookup_insert_ne by done. by eapply K4.
      - intros relay d Hd. destruct (K6 relay d Hd) as (L1 & L2 & L3). split; [done|]. split; [done|]. intros x. cbn. destruct (decide (k = (sd_tenant d, sd_session d))) as [E|E].
        + rewrite <- E, lookup_insert_eq. intros [= <-]. exact (L3 r ltac:(by rewrite <- E)).
        + rewrite lookup_insert_ne by done. apply L3. }
    split; [split; [|exact Hb| |done]|cbn; lia].
    + apply stage_live_ok; [done|cbn; by rewrite El|]. intros id. rewrite merge_sort_Permutation. done.
    + intros k' x y. cbn. intros [[<- <-]|[_ H]]%lookup_insert_Some; [cbn; by apply Hi|by apply Hi].
  - eexists. split; [done|]. unfold refresh_resumed_descriptors. case_bool_decide as He; [|split; [done|lia]]. split; [|cbn; lia].
    assert (Hne : serving_relays s k <> []) by (intros E; rewrite E in He; by apply Exists_nil in He). split; [|done|done|done]. apply stage_live_ok; [done|by apply live_key|done].
  - eexists. split; [done|]. destruct (reg_step_ok (registry s) o (so_registry _ Hok) Hg) as [K1 K2]. split; [|cbn; lia]. split; [|done|done|done]. destruct Hok. by split.
  - eexists. split; [done|]. split; [|cbn; lia]. split; [|done|done|done]. by apply (setup_ok_core s).
  - eexists. split; [done|]. split; [|cbn; lia]. split; [|done|done|done]. destruct Hok as [K1 K2 K3 K4 K5 K6 K7 K8 _]. split; [exact K1|exact K2|exact K3|exact K4|exact K5|exact K6|exact K7|exact K8|exact Ho].
  - eexists. split; [done|]. split; [|cbn; lia]. split; [|done|done|done]. by apply (setup_ok_core s).
  - eexists. split; [done|]. split; [|cbn; lia]. split; [|done|done|done]. by apply restage_periodic_ok.
Qed.

Lemma setup_run_ok ops : forall s, run_ok s -> next_session s + Z.of_nat (length ops) <= u64_max -> next_generation (registry s) + Z.of_nat (length ops) <= u64_max ->
  Forall setup_op_ok ops -> (forall t n sl pk ex, is_Some (mint_token t n sl pk ex)) -> exists s', setup_run s ops = Some s' /\ run_ok s'.
Proof.
  induction ops as [|o ops IH]; intros s Hr Hn Hg Ho Hmint; [by exists s|]. cbn [length] in *. apply Forall_cons in Ho as [Ho1 Ho2].
  destruct (setup_step_ok s o Hr ltac:(lia) ltac:(lia) Ho1 Hmint) as (s1 & E1 & H1 & H2 & H3). cbn [setup_run]. rewrite E1. cbn [mbind option_bind]. apply IH; [done|lia|lia|done|done].
Qed.


(** An ended session's id is not taken again. *)
Lemma gone_stays s o s' k : run_ok s -> session_relays s !! k = None -> k.2 < next_session s -> next_session s < u64_max -> setup_step s o = Some s' ->
  session_relays s' !! k = None.
Proof.
  intros Hr Hk Hlt Hn. pose proof (rk_setup _ Hr) as Hok. destruct o as [rq expires now unix|k' dead allow dep|k'|k' expect cur|k' dep|o|o|p|wall instant|relay]; cbn [setup_step].
  - unfold create_body. destruct (cached_create s rq); [by intros [= <-]|]. destruct (validate_request rq); [|by intros [= <-]].
    destruct (match session_ceiling s with Some c => c <=? live_session_count s | None => false end); [by intros [= <-]|].
    pose proof (hold_core s rq now unix) as Hh. destruct (hold_until_ready s rq now unix) as [held s1]. destruct Hh as ((_ & _ & E3 & _ & _ & _ & _ & E8) & _).
    destruct held; [intros [= <-]; by rewrite E3|]. destruct (place_by_region _ _ _ _ _) as [[p|e]|]; cbn [mbind option_bind]; [|intros [= <-]; by rewrite E3|done].
    destruct (tenants s1 !! rq_tenant rq) as [b|]; [|intros [= <-]; by rewrite E3]. intros [= <-]. unfold commit_create.
    assert (Hins : <[(rq_tenant rq, next_session s1) := relay_ids p]> (session_relays s1) !! k = None).
    { rewrite E3, E8. rewrite lookup_insert_ne; [done|]. intros <-. cbn in Hlt. lia. }
    destruct (mint_all _ _ _ _); [destruct (rq_external_id rq)|]; exact Hins.
  - intros [= <-]. destruct (rehome_inner_cases s k' dead allow dep Hok) as [->|(r_new & e & revs & Hd & ->)]; [done|].
    destruct (rehome_commit_spec s k' dead r_new e revs Hok Hd) as (r & s1 & _ & Ec & E1 & _). unfold rehome_apply. rewrite Ec. change (session_relays (rehome_publish s1 k' dead r_new dep)) with (session_relays s1).
    rewrite E1. rewrite lookup_insert_ne; [done|]. intros ->. unfold serving_relays in Hd. rewrite Hk in Hd. by apply not_elem_of_nil in Hd.
  - intros [= <-]. destruct (retire_spec s k') as (-> & _). rewrite lookup_delete. by case_decide.
  - intros [= <-]. unfold settle_lobby. destruct (negb _ || _ || _); [done|]. by destruct (session_refs s !! k').
  - intros [= <-]. unfold refresh_resumed_descriptors. by case_bool_decide.
  - by intros [= <-].
  - by intros [= <-].
  - by intros [= <-].
  - by intros [= <-].
  - by intros [= <-].
Qed.

Section theorems.
Context (tn : gmap string (Z * Z)) (first : Z) (hold : option Z) (ttl : Z) (ceiling : option Z) (feature : bool).
Context (signing : forall t n sl pk ex, is_Some (mint_token t n sl pk ex)).

Local Abbreviation start := (new_setup tn first hold ttl ceiling feature).

Lemma setup_reached ops s : 0 <= first -> first + Z.of_nat (length ops) < u64_max -> Forall setup_op_ok ops -> setup_run start ops = Some s -> run_ok s.
Proof.
  intros Hf Hn Ho E. destruct (setup_run_ok ops start (new_setup_ok tn first hold ttl ceiling feature Hf)) as (s' & E' & H); cbn; try done; try lia. congruence.
Qed.

(** C12 Every sequence of operations runs without a panic, and while a session lives
    its tenant's id names it alone: two live sessions never share one, and a
    create with that id mints nothing, changes nothing, and either replays the
    answer first given or is refused as a different roster. *)
Theorem one_live_session_per_id (ops : list SetupOp) :
  0 <= first -> first + Z.of_nat (length ops) < u64_max -> Forall setup_op_ok ops ->
  exists s, setup_run start ops = Some s /\
  forall t n x r, session_refs s !! (t, n) = Some r -> external_id r = Some x ->
    (forall n' r', session_refs s !! (t, n') = Some r' -> external_id r' = Some x -> n' = n) /\
    exists cached, rs_session (cc_response cached) = n /\
      forall rq expires now unix, rq_tenant rq = t -> rq_external_id rq = Some x ->
        create_body s rq expires now unix = Some ((if decide (cc_fingerprint cached = from_request rq) then Ok (Created (cc_response cached) [] true) else Err IdempotentCreateMismatch), s).
Proof.
  intros Hf Hn Ho. destruct (setup_run_ok ops start (new_setup_ok tn first hold ttl ceiling feature Hf)) as (s & E & Hr); cbn; try done; try lia. exists s. split; [done|].
  intros t n x r Hk Hx. destruct (rk_bound _ Hr (t, n) r x Hk Hx) as (c & Hc & En). cbn in Hc, En. split.
  - intros n' r' Hk' Hx'. destruct (rk_bound _ Hr (t, n') r' x Hk' Hx') as (c' & Hc' & En'). cbn in Hc', En'. congruence.
  - exists c. split; [done|]. intros rq expires now unix Et Ex. unfold create_body, cached_create. rewrite Ex. cbn. rewrite Et, Hc. cbn. rewrite En.
    unfold serving_relays. pose proof (rk_setup _ Hr) as Hok. destruct (proj1 (so_dom _ Hok (t, n))) as [l Hl]; [by rewrite Hk|]. rewrite Hl. cbn.
    destruct l; [by destruct (mo_nonempty _ _ (so_members _ Hok _ _ _ Hl Hk))|done].
Qed.

(** C14 A retired session is gone for good: at once no slot close is pending for it,
    and whatever happens afterwards no relay's outbox names it, no move is
    recorded for it, and every ask where to move answers that it cannot. *)
Theorem retired_session_gone (ops ops' : list SetupOp) (k : string * Z) (s s' : SessionSetup) :
  0 <= first -> first + Z.of_nat (length ops) + Z.of_nat (length ops') + 1 < u64_max -> Forall setup_op_ok (ops ++ ops') ->
  setup_run start ops = Some s -> is_Some (session_relays s !! k) -> setup_run (retire_session s k) ops' = Some s' ->
  (forall relay, pending_slots (reaps (retire_session s k)) relay k.1 k.2 = []) /\
  session_relays s' !! k = None /\ session_refs s' !! k = None /\
  (forall relay d, d ∈ current_for (descriptors s') relay -> (sd_tenant d, sd_session d) <> k) /\
  (forall dead, rehomes s' !! (k, dead) = None) /\
  (forall dead allow, rehome_pick s' k dead allow = Answer Unavailable).
Proof.
  intros Hf Hn [Ho1 Ho2]%Forall_app E Hk E'. pose proof (setup_reached ops s Hf ltac:(lia) Ho1 E) as Hr. pose proof (retire_run s k Hr) as Hr1.
  split; [by apply retire_leaves_nothing; apply (rk_setup _ Hr)|].
  assert (Hstay : forall ops' s1, run_ok s1 -> session_relays s1 !! k = None -> k.2 < next_session s1 -> next_session s1 + Z.of_nat (length ops') < u64_max ->
    next_generation (registry s1) + Z.of_nat (length ops') < u64_max -> Forall setup_op_ok ops' -> setup_run s1 ops' = Some s' -> run_ok s' /\ session_relays s' !! k = None).
  { intros os. induction os as [|o os IH]; intros s1 K1 K2 K3 K4 K5 K6; cbn [setup_run length] in *; [intros [= <-]; done|]. apply Forall_cons in K6 as [K6 K7].
    destruct (setup_step_ok s1 o K1 ltac:(lia) ltac:(lia) K6 signing) as (s2 & E2 & L1 & L2 & L3). rewrite E2. cbn [mbind option_bind]. apply IH; [done| |lia|lia|lia|done].
    eapply gone_stays; [exact K1|done|done|lia|exact E2]. }
  assert (Hbounds : forall ops s0 s1, run_ok s0 -> next_session s0 + Z.of_nat (length ops) < u64_max -> next_generation (registry s0) + Z.of_nat (length ops) < u64_max -> Forall setup_op_ok ops ->
    setup_run s0 ops = Some s1 -> next_session s1 <= next_session s0 + Z.of_nat (length ops) /\ next_generation (registry s1) <= next_generation (registry s0) + Z.of_nat (length ops)).
  { intros os. induction os as [|o os IH]; intros s0 s1 K1 K4 K5 K6; cbn [setup_run length] in *; [intros [= <-]; lia|]. apply Forall_cons in K6 as [K6 K7].
    destruct (setup_step_ok s0 o K1 ltac:(lia) ltac:(lia) K6 signing) as (s2 & E2 & L1 & L2 & L3). rewrite E2. cbn [mbind option_bind]. intros Er.
    destruct (IH s2 s1 L1 ltac:(lia) ltac:(lia) K7 Er). lia. }
  destruct (Hbounds ops start s (new_setup_ok _ _ _ _ _ _ Hf)) as [B1 B2]; [cbn; lia|cbn; lia|done|done|]. cbn in B1, B2.
  destruct (retire_spec s k) as (E1 & _ & E3 & _).
  assert (En : next_session (retire_session s k) = next_session s).
  { unfold retire_session. pose proof (take_spec (with_reaps s (retire_reaps (reaps s) k.1 k.2)) k) as Ht. destruct (take_session_membership _ k) as [taken s2]. cbn. by apply Ht. }
  destruct (Hstay ops' (retire_session s k) Hr1) as [Hr' Hgone]; [by rewrite E1, lookup_delete_eq|rewrite En; by apply (rk_below _ Hr)|rewrite En; lia|rewrite E3; lia|done|done|].
  pose proof (rk_setup _ Hr') as Hok'. assert (Hs : serving_relays s' k = []) by (unfold serving_relays; by rewrite Hgone). split; [done|]. split; [|split; [|split]].
  - destruct (session_refs s' !! k) eqn:Ek; [|done]. destruct (proj1 (so_dom _ Hok' k)); [by rewrite Ek|congruence].
  - intros relay d Hd Ek. destruct (so_descriptors _ Hok' relay d Hd) as [H _]. rewrite Ek, Hs in H. by apply not_elem_of_nil in H.
  - intros dead. destruct (rehomes s' !! (k, dead)) as [t|] eqn:Er; [|done]. pose proof (so_rehomes _ Hok' _ _ _ Er) as H. rewrite Hs in H. by apply not_elem_of_nil in H.
  - intros dead allow. unfold rehome_pick. by rewrite Hs.
Qed.

End theorems.
End run.
