(* ===== verification/SetupWitness.v ===== *)
(** * Concrete sessions

    Two relays in two regions, a third to move to, and a session created over
    them: the inputs at which the theorems on placement and setup are applied. *)

From Stdlib Require Import ZArith Lia.
From stdpp Require Import gmap sorting list strings.
From S2P Require Import Prelude.
From S2P Require Import Registry.
From S2P Require Import PairRtts.
From S2P Require Import Placement.
From S2P Require Import PlacementSound.
From S2P Require Import Outbox.
From S2P Require Import Setup.
From S2P Require Import SetupInv.
From S2P Require Import SetupRun.

Open Scope Z_scope.

Definition plain_sha : Sha256 := fun cert => cert.
Definition plain_mint : MintToken := fun tenant session slot pubkey expires => Some [session; slot].

Definition sample_hello (id : Z) (rg : string) : RelayHello :=
  mkRelayHello id "relay.example:443" 1 [id; id] None [] [] (Some rg) None.
Definition sample_player (slot : Z) (rg : string) : PlayerHandoff :=
  mkPlayerHandoff slot [slot] false None (Some rg) false.
Definition sample_request : SessionRequest :=
  mkSessionRequest false [] "sb" [sample_player 0 "us"; sample_player 1 "eu"; sample_player 2 "eu"] (Some "game-1") None false None.

Definition sample_ops : list (SetupOp) :=
  [SRegistry (REnroll (sample_hello 1 "us")); SRegistry (REnroll (sample_hello 2 "eu")); SRegistry (REnroll (sample_hello 3 "ap"));
   SCreate sample_request 1000 None 0].
Definition sample_start : SessionSetup := new_setup {["sb" := (1, 8)]} 7 None 60 None true.
Definition sample_setup : SessionSetup := default sample_start (@setup_run plain_sha plain_mint sample_start sample_ops).

Lemma sample_runs : @setup_run plain_sha plain_mint sample_start sample_ops = Some sample_setup.
Proof. vm_compute. reflexivity. Qed.

Lemma sample_run_ok : @run_ok plain_sha sample_setup.
Proof.
  destruct (@setup_run_ok plain_sha plain_mint sample_ops sample_start) as (s & E & H).
  - by apply new_setup_ok.
  - done.
  - done.
  - by repeat constructor.
  - intros. by eexists.
  - rewrite sample_runs in E. by injection E as ->.
Qed.

(** Slots 1 and 2 home in their own region, slot 0 in its. *)
Lemma placement_sound_witness :
  exists p, @place_by_region plain_sha (registry sample_setup) ∅ sample_request 7 true = Some (Ok p) /\ relay_ids p = [2; 1] /\ pm_homes p !! 0 = Some 1 /\
    NoDup (relay_ids p).
Proof.
  assert (H : @reg_ok plain_sha (registry sample_setup)) by apply sample_run_ok.
  pose proof (@placement_sound plain_sha (registry sample_setup) ∅ sample_request 7 true H ltac:(done) ltac:(vm_compute; repeat constructor; set_solver) ltac:(done)) as Hs.
  cbv zeta in Hs. destruct (place_by_region (registry sample_setup) ∅ sample_request 7 true) as [[p|e]|] eqn:E; [|vm_compute in E; discriminate|vm_compute in E; discriminate].
  exists p. split; [done|]. destruct Hs as (_ & _ & Hn & _). split; [|split; [|exact Hn]]; vm_compute in E; injection E as <-; reflexivity.
Defined.

(** The relay of slots 1 and 2 is left behind: they move, slot 0 stays. *)
Lemma rehome_answers_true_witness :
  exists ep s', @rehome_inner plain_sha sample_setup ("sb", 7) 2 false [] = (NewTarget ep, s') /\ @setup_ok plain_sha s' /\ ep_id ep ∈ serving_relays s' ("sb", 7).
Proof.
  pose proof (@rehome_answers_true plain_sha sample_setup ("sb", 7) 2 false [] (@rk_setup plain_sha _ sample_run_ok)) as H.
  destruct (rehome_inner sample_setup ("sb", 7) 2 false []) as [o s'] eqn:E. destruct o as [| |ep].
  - exfalso. vm_compute in E. discriminate.
  - exfalso. vm_compute in E. discriminate.
  - exists ep, s'. split; [done|]. split; [apply H|]. by destruct H as (_ & H & _).
Defined.

Lemma one_live_session_per_id_witness :
  exists s r, @setup_run plain_sha plain_mint sample_start sample_ops = Some s /\ session_refs s !! ("sb", 7) = Some r /\ external_id r = Some "game-1"%string /\
    forall n' r', session_refs s !! ("sb"%string, n') = Some r' -> external_id r' = Some "game-1"%string -> n' = 7.
Proof.
  destruct (@one_live_session_per_id plain_sha plain_mint {["sb" := (1, 8)]} 7 None 60 None true (fun _ _ _ _ _ => ltac:(by eexists)) sample_ops) as (s & E & H).
  - lia.
  - done.
  - by repeat constructor.
  - fold sample_start in E. pose proof sample_runs as Es. rewrite E in Es. injection Es as ->.
    destruct (session_refs sample_setup !! ("sb", 7)) as [r|] eqn:Er; [|vm_compute in Er; discriminate].
    assert (Hx : external_id r = Some "game-1"%string) by (vm_compute in Er; injection Er as <-; reflexivity).
    exists sample_setup, r. split; [exact E|]. split; [exact Er|]. split; [exact Hx|]. apply (H _ _ _ r Er Hx).
Defined.

(** Retired, then the same id is created again: it is a new session. *)
Lemma retired_session_gone_witness :
  exists s', @setup_run plain_sha plain_mint (retire_session sample_setup ("sb", 7)) [SCreate sample_request 2000 None 0] = Some s' /\
    session_relays s' !! ("sb"%string, 7) = None /\ session_relays s' !! ("sb"%string, 8) = Some [2; 1] /\ rehomes s' !! ("sb"%string, 7, 2) = None.
Proof.
  destruct (@setup_run plain_sha plain_mint (retire_session sample_setup ("sb", 7)) [SCreate sample_request 2000 None 0]) as [s'|] eqn:E; [|vm_compute in E; discriminate].
  exists s'. split; [done|].
  destruct (@retired_session_gone plain_sha plain_mint {["sb" := (1, 8)]} 7 None 60 None true (fun _ _ _ _ _ => ltac:(by eexists))
    sample_ops [SCreate sample_request 2000 None 0] ("sb"%string, 7) sample_setup s') as (_ & H1 & _ & _ & H2 & _).
  - lia.
  - done.
  - by repeat constructor.
  - exact sample_runs.
  - destruct (session_relays sample_setup !! ("sb"%string, 7)) eqn:E2; [by eexists|vm_compute in E2; discriminate].
  - exact E.
  - split; [exact H1|]. split; [|apply H2]. vm_compute in E. injection E as <-. reflexivity.
Defined.
