(* ===== verification/EvidenceRun.v ===== *)
(** * One process per revision

    Over the coordinator's life: a slot's revision authorises one relay process,
    whatever moves; what is authorised is retained; the retired identities stay
    within their limits; and the process a slot leaves may still report what it
    saw for the whole grace period. *)

From Stdlib Require Import ZArith Lia.
From stdpp Require Import gmap sorting list strings.
From S2P Require Import Prelude.
From S2P Require Import BTree.
From S2P Require Import Registry.
From S2P Require Import PairRtts.
From S2P Require Import Placement.
From S2P Require Import PlacementSound.
From S2P Require Import Outbox.
From S2P Require Import EvidenceHistory.
From S2P Require Import Setup.
From S2P Require Import SetupInv.
From S2P Require Import SetupRun.
From S2P Require Import SetupWitness.

Open Scope Z_scope.

Record evidence_ok (r : SessionRefs) : Prop := mkEvidenceOk {
  eo_homes : forall slot relay, homes r !! slot = Some relay -> is_Some (evidence_assignments r !! slot);
  eo_below : forall e, e ∈ retired_evidence_assignments r -> exists v, evidence_assignments r !! ra_slot e = Some v /\ ra_revision e < v;
  eo_unique : forall e e', e ∈ retired_evidence_assignments r -> e' ∈ retired_evidence_assignments r ->
    ra_slot e = ra_slot e' -> ra_revision e = ra_revision e' -> ra_relay e = ra_relay e' /\ ra_boot_id e = ra_boot_id e';
  eo_slot : forall slot, kept_of slot (retired_evidence_assignments r) <= MAX_RETIRED_PER_SLOT;
  eo_total : Z.of_nat (length (retired_evidence_assignments r)) <= MAX_RETIRED_PER_SESSION;
}.

(** ** A move *)

Lemma insert_all_lookup (g : Z -> Z) (l : list (Z * Z)) : forall (m : gmap Z Z) revs,
  mapM (fun p : Z * Z => v ← checked_add u64_max (g p.1) 1; Some (p.1, v)) l = Some revs ->
  forall slot, foldl (fun m p => <[p.1 := p.2]> m) m revs !! slot = if decide (slot ∈ l.*1) then Some (g slot + 1) else m !! slot.
Proof.
  induction l as [|[x h] l IH]; intros m revs; [intros [= <-] slot; cbn; by rewrite decide_False by apply not_elem_of_nil|].
  cbn [mapM]. destruct (checked_add u64_max (g x) 1) as [v|] eqn:Ev; [|by intros Hm; cbn in Hm; rewrite Ev in Hm]. cbn. rewrite Ev. cbn. destruct (mapM _ l) as [rest|] eqn:Er; [|done]. intros [= <-] slot.
  cbn [foldl fst snd]. rewrite (IH _ rest eq_refl slot). apply checked_add_Some in Ev as [-> _].
  destruct (decide (slot ∈ l.*1)) as [Hin|Hin]; [rewrite decide_True; [done|by right]|].
  destruct (decide (x = slot)) as [<-|Hne]; [rewrite lookup_insert_eq, decide_True; [done|by left]|].
  rewrite lookup_insert_ne by done. rewrite decide_False; [done|]. by intros [->|?]%elem_of_cons.
Qed.

Lemma moved_slots (m : gmap Z Z) dead slot : slot ∈ (filter (fun p => p.2 = dead) (btree_list m)).*1 <-> m !! slot = Some dead.
Proof. apply homed_slots_elem. Qed.

Lemma successor_lookup s k dead r revs : session_refs s !! k = Some r -> successor_revisions s k dead = Some revs ->
  forall slot, foldl (fun m p => <[p.1 := p.2]> m) (evidence_assignments r) revs !! slot =
    if decide (homes r !! slot = Some dead) then Some (default 0 (evidence_assignments r !! slot) + 1) else evidence_assignments r !! slot.
Proof.
  unfold successor_revisions. intros -> E slot. rewrite (insert_all_lookup (fun sl => default 0 (evidence_assignments r !! sl)) _ _ _ E).
  destruct (decide (homes r !! slot = Some dead)) as [H|H]; [rewrite decide_True; [done|by apply moved_slots]|]. rewrite decide_False; [done|]. by intros ?%moved_slots.
Qed.

(** What is kept of the identities: those kept before, and those just left. *)
Lemma retire_sub now retired hm boots assigns relay e : e ∈ retire_evidence_assignments now retired hm boots assigns relay ->
  (exists e', e' ∈ retired /\ same_identity e e') \/
  (hm !! ra_slot e = Some relay /\ ra_relay e = relay /\ boots !! ra_slot e = Some (ra_boot_id e) /\ assigns !! ra_slot e = Some (ra_revision e)).
Proof.
  unfold retire_evidence_assignments. intros (e1 & H1 & -> & _)%prune_sub. apply elem_of_app in H1 as [(e2 & H2 & -> & _)%prune_sub|H1].
  - left. exists e2. by split.
  - apply held_by_elem in H1 as (H1 & H2 & H3 & _). apply list_elem_of_filter in H1 as [H4 H1]. cbn in H4. apply btree_list_elem in H1. right. cbn. subst relay. done.
Qed.

Lemma retire_limits now retired hm boots assigns relay : let l := retire_evidence_assignments now retired hm boots assigns relay in
  (forall slot, kept_of slot l <= MAX_RETIRED_PER_SLOT) /\ Z.of_nat (length l) <= MAX_RETIRED_PER_SESSION.
Proof.
  intros l. unfold l, retire_evidence_assignments, prune_retired_evidence_assignments at 1 3. set (x := reverse (_ ++ _)).
  destruct (prune_walk_bounds now x ∅ 0) as [H1 H2]; [intros s; by rewrite lookup_empty|unfold MAX_RETIRED_PER_SESSION; lia|]. split.
  - intros slot. specialize (H1 slot). rewrite lookup_empty in H1. cbn in H1. unfold kept_of in *. rewrite filter_reverse, length_reverse. lia.
  - rewrite length_reverse. lia.
Qed.

Lemma move_evidence_ok {sha : Sha256} s k r dead r_new e revs : session_refs s !! k = Some r -> successor_revisions s k dead = Some revs -> evidence_ok r ->
  evidence_ok (move_refs s r dead r_new e revs).
Proof.
  intros Hr Hs [H1 H2 H3 _ _]. pose proof (successor_lookup s k dead r revs Hr Hs) as Hl.
  assert (Hsub : forall x, x ∈ retired_evidence_assignments (move_refs s r dead r_new e revs) -> _) by (intros x; apply retire_sub).
  split; cbn [move_refs homes evidence_assignments evidence_home_boots].
  - intros slot relay. rewrite lookup_fmap, Hl. destruct (homes r !! slot) as [h|] eqn:Eh; [|done]. intros _. case_decide; [by eexists|by eapply H1].
  - intros x Hx. rewrite Hl. destruct (Hsub x Hx) as [(y & Hy & E1 & _ & _ & E4)|(E1 & _ & _ & E4)].
    + destruct (H2 y Hy) as (v & Hv & Hlt). rewrite E1, Hv, E4. case_decide; eexists; (split; [done|]); cbn; lia.
    + rewrite decide_True by done. rewrite E4. eexists. split; [done|]. cbn. lia.
  - intros x y Hx Hy E E'. destruct (Hsub x Hx) as [(x' & Hx' & X1 & X2 & X3 & X4)|(X1 & X2 & X3 & X4)], (Hsub y Hy) as [(y' & Hy' & Y1 & Y2 & Y3 & Y4)|(Y1 & Y2 & Y3 & Y4)].
    + rewrite X2, X3, Y2, Y3. apply H3; [done|done|congruence|congruence].
    + exfalso. destruct (H2 x' Hx') as (v & Hv & Hlt). rewrite <- X1, E, Y4 in Hv. injection Hv as <-. lia.
    + exfalso. destruct (H2 y' Hy') as (v & Hv & Hlt). rewrite <- Y1, <- E, X4 in Hv. injection Hv as <-. lia.
    + rewrite X2, Y2. split; [done|]. rewrite <- E, X3 in Y3. congruence.
  - apply retire_limits.
  - apply retire_limits.
Qed.

(** The identities just left are the newest, so the limits spare them. *)
Lemma retire_keeps now retired hm boots assigns relay slot b v : hm !! slot = Some relay -> boots !! slot = Some b -> assigns !! slot = Some v ->
  now < grace_end now -> (size hm <= 64)%nat ->
  mkRetiredAssignment slot relay b v (grace_end now) ∈ retire_evidence_assignments now retired hm boots assigns relay.
Proof.
  intros Hh Hb Hv Hg Hn. set (e := mkRetiredAssignment slot relay b v (grace_end now)). set (moved := filter (fun p => p.2 = relay) (btree_list hm)).
  assert (He : e ∈ held_by now boots assigns moved).
  { apply held_by_elem. cbn. split; [|done]. apply list_elem_of_filter. split; [done|]. by apply btree_list_elem. }
  assert (Hnd : NoDup (ra_slot <$> held_by now boots assigns moved)).
  { assert (Hm : NoDup moved.*1) by (eapply sublist_NoDup; [apply (btree_list_nodup hm)|apply (fmap_sublist fst), sublist_filter]).
    clear -Hm. unfold held_by. induction moved as [|[s h] l IH]; [constructor|]. rewrite fmap_cons in Hm. apply NoDup_cons in Hm as [H1 H2]. cbn.
    destruct (boots !! s) as [b'|]; cbn; [|by apply IH]. destruct (assigns !! s) as [v'|]; cbn; [|by apply IH]. apply NoDup_cons. split; [|by apply IH].
    intros (x & Ex & Hx)%list_elem_of_fmap. apply (held_by_elem now boots assigns) in Hx as [Hx _]. apply H1. rewrite list_elem_of_fmap. exists (ra_slot x, ra_relay x). by split. }
  assert (Hlen : (length (held_by now boots assigns moved) <= 64)%nat).
  { assert (Hm : (length moved <= 64)%nat) by (etransitivity; [apply length_filter|]; unfold btree_list; by rewrite merge_sort_Permutation, length_map_to_list).
    rewrite <- (length_fmap ra_slot). etransitivity; [|exact Hm]. rewrite <- (length_fmap fst). apply submseteq_length, NoDup_submseteq; [done|].
    intros x (y & -> & Hy)%list_elem_of_fmap. apply held_by_elem in Hy as [Hy _]. apply list_elem_of_fmap. by exists (ra_slot y, ra_relay y). }
  unfold retire_evidence_assignments. fold moved. unfold prune_retired_evidence_assignments at 1. rewrite elem_of_reverse, reverse_app.
  apply elem_of_reverse_2, list_elem_of_split in He as (l1 & l2 & El). rewrite El. rewrite <- app_assoc. cbn [app].
  assert (Ec : clamp_deadline now e = e) by (unfold clamp_deadline, e; cbn; by rewrite Z.min_id). rewrite <- Ec at 1.
  assert (Hn1 : NoDup (ra_slot <$> l1 ++ e :: l2)) by (rewrite <- El, fmap_reverse; by rewrite reverse_Permutation).
  assert (Hl1 : (length l1 < 64)%nat) by (apply (f_equal length) in El; rewrite length_reverse, length_app in El; cbn in El; lia).
  apply prune_walk_keeps; [done|intros s; by rewrite lookup_empty|lia| |unfold MAX_RETIRED_PER_SESSION; lia].
  rewrite lookup_empty. cbn. unfold kept_of. destruct (filter _ l1) as [|x xs] eqn:Ef; [done|]. exfalso.
  assert (Hx : x ∈ filter (fun y => ra_slot y = slot) l1) by (rewrite Ef; by left). apply list_elem_of_filter in Hx as [Ex Hx]. rewrite fmap_app in Hn1. apply NoDup_app in Hn1 as (_ & Hd & _). apply (Hd slot); [rewrite <- Ex; by apply list_elem_of_fmap_2|]. by left.
Qed.

Lemma move_pick {sha : Sha256} s k dead allow r_new e revs : rehome_pick s k dead allow = Move r_new e revs ->
  successor_revisions s k dead = Some revs /\ pick_replacement s k dead = Some r_new /\ entry (registry s) r_new = Some e.
Proof.
  unfold rehome_pick. destruct (serving_relays s k) eqn:Es; [done|]. destruct (recorded_rehome _ _ _); [done|]. destruct (_ && _ && _); [done|]. destruct (negb _); [done|].
  destruct (pick_replacement s k dead) as [x|]; [|done]. destruct (entry (registry s) x) eqn:Ex; [|done]. destruct (successor_revisions s k dead); [|done]. by intros [= <- <- <-].
Qed.

Lemma rehome_moves {sha : Sha256} s k dead allow dep : setup_ok s ->
  let s' := (rehome_inner s k dead allow dep).2 in
  s' = s \/ exists r r_new e revs, session_refs s !! k = Some r /\ successor_revisions s k dead = Some revs /\
    session_refs s' = <[k := move_refs s r dead r_new e revs]> (session_refs s) /\ wall_secs s' = wall_secs s.
Proof.
  intros Hok. unfold rehome_inner. destruct (rehome_pick s k dead allow) as [o|r_new e revs] eqn:Ep; [by left|].
  destruct (rehome_commit s k dead r_new e revs) as [s1|] eqn:Ec; [|by left]. right. cbn [snd].
  destruct (move_pick s k dead allow r_new e revs Ep) as (Hrev & _).
  unfold rehome_commit in Ec. destruct (session_relays s !! k) as [l|] eqn:El; [|done]. cbn in Ec. destruct (bool_decide _); [|done]. cbn in Ec.
  destruct (proj2 (so_dom _ Hok k)) as [r Er]; [by rewrite El|]. rewrite Er in Ec. injection Ec as <-. by exists r, r_new, e, revs.
Qed.

Section run.
Context {sha : Sha256} {mint : MintToken}.

Definition evidence_all (s : SessionSetup) : Prop := forall k r, session_refs s !! k = Some r -> evidence_ok r.

Lemma fresh_evidence_ok s rq p : (forall slot relay, pm_homes p !! slot = Some relay -> exists pl, pl ∈ players rq /\ pl_slot pl = slot) -> evidence_ok (fresh_refs s rq p).
Proof.
  intros Hh. split; cbn.
  - intros slot relay Hr. destruct (Hh slot relay Hr) as (pl & Hpl & <-). apply not_eq_None_Some. intros Hn%not_elem_of_list_to_map_2. apply Hn.
    rewrite <- list_fmap_compose. apply list_elem_of_fmap. by exists pl.
  - by intros e ?%not_elem_of_nil.
  - by intros e e' ?%not_elem_of_nil.
  - intros slot. by unfold kept_of.
  - done.
Qed.

Lemma placed_homes g pairs rq session ff p : reg_ok g -> players rq <> [] -> NoDup (pl_slot <$> players rq) -> pairs_unsigned pairs ->
  place_by_region g pairs rq session ff = Some (Ok p) -> forall slot relay, pm_homes p !! slot = Some relay -> exists pl, pl ∈ players rq /\ pl_slot pl = slot.
Proof.
  intros Hg Hp Hn Hu E slot relay Hs. assert (Hc : candidates g rq <> []) by (intros Hc; unfold place_by_region in E; by rewrite Hc in E).
  destruct (place_unfold g pairs rq session ff Hg Hp Hn Hu Hc) as (p' & l & entries & E' & H). rewrite E in E'. injection E' as <-.
  destruct (cohort rq (candidates g rq)) as [[rb cap] c]. destruct H as (Hd & _ & _ & _ & Hl & _). rewrite (di_homes _ _ _ Hd) in Hs. apply homes_lookup_inv in Hs as (x & Hx & E1 & _).
  apply list_elem_of_lookup in Hx as [i Hi]. destruct (Forall2_lookup_r _ _ _ _ _ Hl Hi) as (pl & Hpl & E2 & _). exists pl. split; [by eapply list_elem_of_lookup_2|congruence].
Qed.

Lemma evidence_step s o s' : run_ok s -> evidence_all s -> setup_step s o = Some s' -> evidence_all s'.
Proof.
  intros Hr He. pose proof (rk_setup _ Hr) as Hok. destruct o as [rq expires now unix|k dead allow dep|k|k expect cur|k dep|o|o|p|wall instant|relay]; cbn [setup_step].
  - unfold create_body. destruct (cached_create s rq); [by intros [= <-]|]. destruct (validate_request rq) as [[]|] eqn:Ev; [|by intros [= <-]].
    destruct (match session_ceiling s with Some c => c <=? live_session_count s | None => false end); [by intros [= <-]|].
    pose proof (hold_core s rq now unix) as Hh. destruct (hold_until_ready s rq now unix) as [held s1]. destruct Hh as ((E1 & E2 & E3 & E4 & E5 & E6 & E7 & E8) & _).
    assert (He1 : evidence_all s1) by (intros k r; rewrite E4; apply He).
    destruct held; [by intros [= <-]|]. destruct (place_by_region _ _ _ _ _) as [[p|e]|] eqn:Ep; cbn [mbind option_bind]; [|by intros [= <-]|done].
    destruct (tenants s1 !! rq_tenant rq) as [b|]; [|by intros [= <-]]. intros [= <-]. unfold commit_create. destruct (validate_request_spec rq Ev) as [Hp Hnd].
    assert (Hins : forall s2, evidence_ok (fresh_refs s2 rq p)).
    { intros s2. apply fresh_evidence_ok. eapply placed_homes; [|done|done| |exact Ep]; [rewrite E1; apply Hok|rewrite E7; apply Hok]. }
    assert (Hall : forall k0 s2 m, session_refs m = <[k0 := fresh_refs s2 rq p]> (session_refs s1) -> evidence_all m).
    { intros k0 s2 m Em k r. rewrite Em. intros [[_ <-]|[_ H]]%lookup_insert_Some; [apply Hins|by eapply He1]. }
    destruct (mint_all _ _ _ _); [destruct (rq_external_id rq)|]; (eapply Hall; reflexivity).
  - intros [= <-]. destruct (rehome_moves s k dead allow dep Hok) as [E|(r & r_new & e & revs & Hk & Hs & E & _)]; [by rewrite E|].
    intros k' r'. rewrite E. intros [[<- <-]|[_ H]]%lookup_insert_Some; [by eapply move_evidence_ok, He|by eapply He].
  - intros [= <-]. destruct (retire_spec s k) as (_ & E2 & _). intros k' r'. rewrite E2. intros [_ H]%lookup_delete_Some. by eapply He.
  - intros [= <-]. unfold settle_lobby. destruct (negb _ || _ || _); [done|]. destruct (session_refs s !! k) as [r|] eqn:Er; [|done].
    intros k' r'. cbn. intros [[<- <-]|[_ H]]%lookup_insert_Some; [|by eapply He]. destruct (He k r Er). by split.
  - intros [= <-]. unfold refresh_resumed_descriptors. by case_bool_decide.
  - by intros [= <-].
  - by intros [= <-].
  - by intros [= <-].
  - by intros [= <-].
  - by intros [= <-].
Qed.

Section theorems.
Context (tn : gmap string (Z * Z)) (first : Z) (hold : option Z) (ttl : Z) (ceiling : option Z) (feature : bool).
Context (signing : forall t n sl pk ex, is_Some (mint_token t n sl pk ex)).

Local Abbreviation start := (new_setup tn first hold ttl ceiling feature).

Lemma evidence_reached ops s : 0 <= first -> first + Z.of_nat (length ops) < u64_max -> Forall setup_op_ok ops -> setup_run start ops = Some s -> run_ok s /\ evidence_all s.
Proof.
  intros Hf Hn Ho. assert (Hgo : forall ops s0, run_ok s0 -> evidence_all s0 -> next_session s0 + Z.of_nat (length ops) < u64_max ->
    next_generation (registry s0) + Z.of_nat (length ops) < u64_max -> Forall setup_op_ok ops -> setup_run s0 ops = Some s -> run_ok s /\ evidence_all s).
  { clear Ho Hn. intros os. induction os as [|o os IH]; intros s0 K1 K2 K4 K5 K6; cbn [setup_run length] in *; [by intros [= <-]|]. apply Forall_cons in K6 as [K6 K7].
    destruct (setup_step_ok s0 o K1 ltac:(lia) ltac:(lia) K6 signing) as (s2 & E2 & L1 & L2 & L3). pose proof (evidence_step s0 o s2 K1 K2 E2) as L4. rewrite E2. cbn [mbind option_bind]. apply IH; [done|done|lia|lia|done]. }
  apply Hgo; [by apply new_setup_ok| |cbn; lia|cbn; lia|done]. intros k r. cbn. by rewrite lookup_empty.
Qed.

(** Who may report on a slot under a revision. *)
Definition authorised (s : SessionSetup) (relay boot : Z) (k : string * Z) (slot revision : Z) : bool :=
  current_evidence_history_assignment s relay boot k slot revision || evidence_history_assignment s relay boot k slot revision.

(** C15 However sessions are created, moved and retired and whatever the clocks read,
    one revision of a slot authorises one relay process, every authorised
    identity is also retained, and a session keeps at most four retired identities
    to a slot and sixty-four in all. *)
Theorem evidence_authority_unique (ops : list SetupOp) (s : SessionSetup) (k : string * Z) (r : SessionRefs) :
  0 <= first -> first + Z.of_nat (length ops) < u64_max -> Forall setup_op_ok ops -> setup_run start ops = Some s -> session_refs s !! k = Some r ->
  (forall slot revision relay boot relay' boot', authorised s relay boot k slot revision = true -> authorised s relay' boot' k slot revision = true ->
     relay = relay' /\ boot = boot') /\
  (forall slot revision relay boot, authorised s relay boot k slot revision = true -> retained_evidence_history_assignment s relay boot k slot revision = true) /\
  (forall slot, kept_of slot (retired_evidence_assignments r) <= 4) /\ (length (retired_evidence_assignments r) <= 64)%nat.
Proof.
  intros Hf Hn Ho E Hk. destruct (evidence_reached ops s Hf Hn Ho E) as [_ He]. destruct (He k r Hk) as [_ H2 H3 H4 H5].
  assert (Hau : forall slot revision relay boot, authorised s relay boot k slot revision = true ->
    (homes r !! slot = Some relay /\ evidence_assignments r !! slot = Some revision /\ evidence_home_boots r !! slot = Some boot) \/
    exists e, e ∈ retired_evidence_assignments r /\ names_identity relay boot slot revision e).
  { intros slot revision relay boot. unfold authorised, current_evidence_history_assignment, evidence_history_assignment. rewrite Hk.
    rewrite orb_true_iff, !andb_true_iff, !bool_decide_eq_true, Exists_exists. naive_solver. }
  split; [|split; [|split; [exact H4|unfold MAX_RETIRED_PER_SESSION in H5; lia]]].
  - intros slot revision relay boot relay' boot' [(A1 & A2 & A3)|(e & A1 & A2 & A3 & A4 & A5)]%Hau [(B1 & B2 & B3)|(e' & B1 & B2 & B3 & B4 & B5)]%Hau.
    + split; congruence.
    + exfalso. destruct (H2 e' B1) as (v & Hv & Hlt). rewrite B2, A2 in Hv. injection Hv as <-. lia.
    + exfalso. destruct (H2 e A1) as (v & Hv & Hlt). rewrite A2, B2 in Hv. injection Hv as <-. lia.
    + destruct (H3 e e' A1 B1); [congruence|congruence|]. split; congruence.
  - intros slot revision relay boot H%Hau. unfold retained_evidence_history_assignment. rewrite Hk. apply orb_true_iff. rewrite !andb_true_iff, !bool_decide_eq_true, Exists_exists. naive_solver.
Qed.

(** The process a slot moves away from may still report under its revision at any
    time in the ten minutes that follow, and the slot goes on under the next one. *)
Theorem moved_identity_still_reports (ops : list SetupOp) (s : SessionSetup) (k : string * Z) (r : SessionRefs) (dead slot boot revision : Z) (allow_stay : bool)
    (departed : list DepartedSlot) (ep : RelayEndpoint) (s' : SessionSetup) (wall instant : Z) :
  0 <= first -> first + Z.of_nat (length ops) < u64_max -> Forall setup_op_ok ops -> setup_run start ops = Some s -> session_refs s !! k = Some r ->
  homes r !! slot = Some dead -> evidence_home_boots r !! slot = Some boot -> evidence_assignments r !! slot = Some revision -> (size (homes r) <= 64)%nat ->
  rehome_inner s k dead allow_stay departed = (NewTarget ep, s') -> recorded_rehome s k dead = None ->
  wall_secs s <= wall < wall_secs s + 600 -> wall + 600 <= u64_max ->
  evidence_history_assignment (with_clocks s' wall instant) dead boot k slot revision = true /\
  exists r', session_refs s' !! k = Some r' /\ evidence_assignments r' !! slot = Some (revision + 1) /\ homes r' !! slot = Some (ep_id ep).
Proof.
  intros Hf Hn Ho E Hk Hh Hb Hv Hsz Em Hrec Hw Hmax. destruct (evidence_reached ops s Hf Hn Ho E) as [Hr _]. pose proof (rk_setup _ Hr) as Hok.
  unfold rehome_inner in Em. destruct (rehome_pick s k dead allow_stay) as [o|r_new e revs] eqn:Ep.
  { exfalso. injection Em as -> _. unfold rehome_pick in Ep. destruct (serving_relays s k); [done|]. rewrite Hrec in Ep. destruct (_ && _ && _); [done|]. destruct (negb _); [done|].
    destruct (pick_replacement s k dead) as [x|]; [|done]. destruct (entry (registry s) x); [|done]. by destruct (successor_revisions s k dead). }
  destruct (move_pick s k dead allow_stay r_new e revs Ep) as (Hrev & Hp & Hent). destruct (pick_replacement_spec s k dead r_new Hok Hp) as (e' & He' & Hid & _). rewrite Hent in He'. injection He' as <-.
  unfold rehome_commit in Em. destruct (session_relays s !! k) as [l|] eqn:El; [|done]. cbn in Em. destruct (bool_decide _); [|done]. cbn in Em. rewrite Hk in Em. injection Em as <- <-.
  set (r' := move_refs s r dead r_new e revs). unfold evidence_history_assignment. cbn [session_refs with_clocks rehome_publish with_rehomes stage with_descriptors with_refs wall_secs].
  rewrite lookup_insert_eq. split.
  - apply bool_decide_eq_true, Exists_exists. exists (mkRetiredAssignment slot dead boot revision (grace_end (wall_secs s))). split.
    + apply (retire_keeps (wall_secs s)); try done. unfold grace_end, saturating_add, RETIREMENT_GRACE_SECS. lia.
    + cbn. split; [done|]. unfold grace_end, saturating_add, RETIREMENT_GRACE_SECS. lia.
  - exists r'. split; [done|]. split; [|unfold r'; cbn; rewrite lookup_fmap, Hh; cbn; rewrite Z.eqb_refl; by rewrite Hid].
    unfold r'. cbn. rewrite (successor_lookup s k dead r revs Hk Hrev), decide_True by done. by rewrite Hv.
Qed.

End theorems.
End run.

(** ** Concrete moves *)

Definition boot_ops : list SetupOp :=
  [SRegistry (REnroll (sample_hello 1 "us")); SRegistry (RBoot 1 (Some 71)); SRegistry (REnroll (sample_hello 2 "eu")); SRegistry (RBoot 2 (Some 72));
   SClock 5000 0; SCreate sample_request 1000 None 0].
Definition boot_setup : SessionSetup := default sample_start (@setup_run plain_sha plain_mint sample_start boot_ops).

Lemma boot_runs : @setup_run plain_sha plain_mint sample_start boot_ops = Some boot_setup.
Proof. vm_compute. reflexivity. Qed.

(** Slot 1 left process 72 of relay 2; the revision authorises no other. *)
Lemma evidence_authority_unique_witness :
  exists s, @setup_run plain_sha plain_mint sample_start (boot_ops ++ [SRehome ("sb"%string, 7) 2 false []]) = Some s /\
    authorised s 2 72 ("sb"%string, 7) 1 1 = true /\ forall relay boot, authorised s relay boot ("sb"%string, 7) 1 1 = true -> relay = 2 /\ boot = 72.
Proof.
  destruct (@setup_run plain_sha plain_mint sample_start (boot_ops ++ [SRehome ("sb"%string, 7) 2 false []])) as [s|] eqn:E; [|vm_compute in E; discriminate].
  exists s. split; [done|]. assert (Ha : authorised s 2 72 ("sb"%string, 7) 1 1 = true) by (vm_compute in E; injection E as <-; vm_compute; reflexivity).
  split; [done|]. intros relay boot H. destruct (session_refs s !! ("sb"%string, 7)) as [r|] eqn:Er; [|vm_compute in E; injection E as <-; vm_compute in Er; discriminate].
  destruct (@evidence_authority_unique plain_sha plain_mint {["sb" := (1, 8)]} 7 None 60 None true (fun _ _ _ _ _ => ltac:(by eexists))
    (boot_ops ++ [SRehome ("sb"%string, 7) 2 false []]) s ("sb"%string, 7) r ltac:(lia) ltac:(done) ltac:(by repeat constructor) E Er) as [Hu _].
  exact (Hu 1 1 relay boot 2 72 H Ha).
Defined.

Lemma moved_identity_still_reports_witness :
  exists s', (@rehome_inner plain_sha boot_setup ("sb", 7) 2 false []).2 = s' /\
    evidence_history_assignment (with_clocks s' 5599 0) 2 72 ("sb"%string, 7) 1 1 = true.
Proof.
  destruct (@rehome_inner plain_sha boot_setup ("sb"%string, 7) 2 false []) as [o s'] eqn:E. exists s'. split; [done|].
  destruct o as [| |ep]; [exfalso; vm_compute in E; discriminate|exfalso; vm_compute in E; discriminate|].
  destruct (session_refs boot_setup !! ("sb"%string, 7)) as [r|] eqn:Er; [|vm_compute in Er; discriminate].
  apply (@moved_identity_still_reports plain_sha plain_mint {["sb" := (1, 8)]} 7 None 60 None true (fun _ _ _ _ _ => ltac:(by eexists))
    boot_ops boot_setup ("sb"%string, 7) r 2 1 72 1 false [] ep s' 5599 0).
  - lia.
  - done.
  - by repeat constructor.
  - exact boot_runs.
  - exact Er.
  - vm_compute in Er. injection Er as <-. reflexivity.
  - vm_compute in Er. injection Er as <-. reflexivity.
  - vm_compute in Er. injection Er as <-. reflexivity.
  - vm_compute in Er. injection Er as <-. vm_compute. lia.
  - exact E.
  - vm_compute. reflexivity.
  - vm_compute. split; [discriminate|reflexivity].
  - vm_compute. discriminate.
Defined.
