(* ===== verification/Lifecycle.v ===== *)
(** * Session lifecycle ([coordinator/src/lifecycle/])

    What the coordinator does with the facts relays report on a session: the
    accounting of its slots, the relays that reported it closed, the evidence
    that it stands empty, the timers of the reap policies, and the queue of
    webhooks whose last entry is [sessionClosed].  Each operation that runs under
    one hold of the locks is one step.

    A timer is a task that sleeps until its deadline, wakes, and then takes the
    locks: aborting it stops it only while it sleeps, so a woken task still runs,
    as in the runtime.  A queue is a bounded channel with its drain task: what is
    buffered, what is being delivered, and what was delivered.  The observations of
    connections (evidence samples) and the presence store are left out; a notice's
    body is reduced to its kind, its key and its correlation id. *)

From Stdlib Require Import ZArith Lia.
From stdpp Require Import gmap sorting list strings.
From S2P Require Import Prelude.
From S2P Require Import Registry.
From S2P Require Import PairRtts.
From S2P Require Import Placement.
From S2P Require Import Outbox.
From S2P Require Import EvidenceHistory.
From S2P Require Import Setup.

Open Scope Z_scope.

(** Durations are nanoseconds. *)
Definition secs (n : Z) : Z := n * 10 ^ 9.
Definition HOLDOUT_REAP_GRACE : Z := secs 60.
Definition LINGER_REAP_GRACE : Z := secs 60.
Definition WEBHOOK_ONLY_REAP_GRACE : Z := secs 300.
Definition NEVER_STARTED_REAP_GRACE : Z := secs (15 * 60).
Definition EMPTY_SESSION_REAP_GRACE : Z := secs (15 * 60).
Definition EMPTY_ROSTER_FRESHNESS : Z := secs 35.
Definition NOTICE_QUEUE_CAPACITY : Z := 128.
Definition DESYNC_MARK_TTL : Z := secs (60 * 60).
Definition MAX_HEARTBEAT_SESSIONS : Z := 4096.
Definition MAX_HEARTBEAT_SESSION_SLOTS : Z := MAX_SLOT + 1.

Record LifecycleTunables : Type := mkLifecycleTunables {
  holdout_grace : Z;
  linger_grace : Z;
  webhook_grace : Z;
  never_started_grace : Z;
  empty_session_grace : Z;
  empty_roster_freshness : Z;
  queue_capacity : Z;
}.
Definition default_tunables : LifecycleTunables :=
  mkLifecycleTunables HOLDOUT_REAP_GRACE LINGER_REAP_GRACE WEBHOOK_ONLY_REAP_GRACE NEVER_STARTED_REAP_GRACE EMPTY_SESSION_REAP_GRACE EMPTY_ROSTER_FRESHNESS NOTICE_QUEUE_CAPACITY.

Record EmptyRosterEvidence : Type := mkEmptyRosterEvidence { ev_generation : Z; last_seen : Z }.
Record RelayEpoch : Type := mkRelayEpoch { ep_generation : Z; ep_connected : bool }.
Record DepartureSeed : Type := mkDepartureSeed { seed_kind : DepartureKind; seed_count : option Z; seed_finalized : bool }.

(** The timer's token, and the task behind its abort handle. *)
Record EmptyTimer : Type := mkEmptyTimer { et_token : Z; et_task : Z }.

Inductive NoticeKind : Type := NDeparture | NDesync | NResult | NSlotConnected | NSessionStarted | NSlotStarted | NLobbyViolation | NSessionClosed.

#[export] Instance notice_kind_eq : EqDecision NoticeKind.
Proof. solve_decision. Defined.
#[export] Instance notice_kind_countable : Countable NoticeKind.
Proof.
  refine (inj_countable'
    (fun k => match k with NDeparture => 0%nat | NDesync => 1%nat | NResult => 2%nat | NSlotConnected => 3%nat | NSessionStarted => 4%nat | NSlotStarted => 5%nat | NLobbyViolation => 6%nat | NSessionClosed => 7%nat end)
    (fun n => match n with 0%nat => NDeparture | 1%nat => NDesync | 2%nat => NResult | 3%nat => NSlotConnected | 4%nat => NSessionStarted | 5%nat => NSlotStarted | 6%nat => NLobbyViolation | _ => NSessionClosed end) _).
  by intros [].
Defined.

(** A webhook: the session it is about, the notice's kind and key (a slot, a sync
    ordinal, or zero), and the correlation id. *)
Record WebhookJob : Type := mkWebhookJob { job_session : string * Z; job_kind : NoticeKind; job_key : Z; job_external_id : option string }.

(** ** The runtime: timer tasks and queues *)

Inductive TaskKind : Type :=
| THoldout (k : string * Z) (slot : Z)
| TLinger (k : string * Z)
| TWebhook (k : string * Z)
| TNeverStarted (k : string * Z)
| TEmpty (k : string * Z) (token : Z).

Record Task : Type := mkTask { task_kind : TaskKind; task_due : Z; task_awake : bool }.

(** [q_waiting] holds jobs whose sender waits for room. *)
Record Queue : Type := mkQueue { q_capacity : Z; q_buffer : list WebhookJob; q_waiting : list WebhookJob; q_delivering : option WebhookJob; q_delivered : list WebhookJob }.

Record Runtime : Type := mkRuntime {
  rt_tasks : gmap Z Task;
  rt_queues : gmap Z Queue;
  rt_next : Z;
  next_empty_timer_token : Z;
  pending_webhooks : Z;
  dropped_notices : Z;
}.

Definition set_rt_tasks (v : gmap Z Task) (rt : Runtime) : Runtime := mkRuntime v (rt_queues rt) (rt_next rt) (next_empty_timer_token rt) (pending_webhooks rt) (dropped_notices rt).
Definition set_rt_queues (v : gmap Z Queue) (rt : Runtime) : Runtime := mkRuntime (rt_tasks rt) v (rt_next rt) (next_empty_timer_token rt) (pending_webhooks rt) (dropped_notices rt).
Definition set_rt_next (v : Z) (rt : Runtime) : Runtime := mkRuntime (rt_tasks rt) (rt_queues rt) v (next_empty_timer_token rt) (pending_webhooks rt) (dropped_notices rt).
Definition set_next_empty_timer_token (v : Z) (rt : Runtime) : Runtime := mkRuntime (rt_tasks rt) (rt_queues rt) (rt_next rt) v (pending_webhooks rt) (dropped_notices rt).
Definition set_pending_webhooks (v : Z) (rt : Runtime) : Runtime := mkRuntime (rt_tasks rt) (rt_queues rt) (rt_next rt) (next_empty_timer_token rt) v (dropped_notices rt).
Definition set_dropped_notices (v : Z) (rt : Runtime) : Runtime := mkRuntime (rt_tasks rt) (rt_queues rt) (rt_next rt) (next_empty_timer_token rt) (pending_webhooks rt) v.

Definition spawn (kind : TaskKind) (due : Z) (rt : Runtime) : Z * Runtime :=
  (rt_next rt, set_rt_next (rt_next rt + 1) (set_rt_tasks (<[rt_next rt := mkTask kind due false]> (rt_tasks rt)) rt)).

(** [AbortHandle::abort]: a task past its sleep is not stopped. *)
Definition abort (id : Z) (rt : Runtime) : Runtime :=
  match rt_tasks rt !! id with
  | Some t => if task_awake t then rt else set_rt_tasks (base.delete id (rt_tasks rt)) rt
  | None => rt
  end.
Definition abort_opt (h : option Z) (rt : Runtime) : Runtime := match h with Some id => abort id rt | None => rt end.

Definition open_queue (capacity : Z) (rt : Runtime) : Z * Runtime :=
  (rt_next rt, set_rt_next (rt_next rt + 1) (set_rt_queues (<[rt_next rt := mkQueue capacity [] [] None []]> (rt_queues rt)) rt)).

Definition free (q : Queue) : Z := q_capacity q - Z.of_nat (length (q_buffer q)).

Definition on_queue (id : Z) (f : Queue -> Queue) (rt : Runtime) : Runtime := set_rt_queues (alter f id (rt_queues rt)) rt.
Definition buffer_job (job : WebhookJob) (q : Queue) : Queue := mkQueue (q_capacity q) (q_buffer q ++ [job]) (q_waiting q) (q_delivering q) (q_delivered q).

(** An ordinary notice leaves the last place free. *)
Definition push_ordinary (id : Z) (job : WebhookJob) (rt : Runtime) : Runtime :=
  match rt_queues rt !! id with
  | Some q =>
      if free q <=? 1 then set_dropped_notices (dropped_notices rt + 1) rt
      else on_queue id (buffer_job job) (set_pending_webhooks (pending_webhooks rt + 1) rt)
  | None => rt
  end.

Definition push_terminal (id : Z) (job : WebhookJob) (rt : Runtime) : Runtime :=
  match rt_queues rt !! id with
  | Some q =>
      on_queue id (fun q => if 0 <? free q then buffer_job job q else mkQueue (q_capacity q) (q_buffer q) (q_waiting q ++ [job]) (q_delivering q) (q_delivered q))
        (set_pending_webhooks (pending_webhooks rt + 1) rt)
  | None => rt
  end.

(** The drain task: take the next job, and count it off once delivered; and a
    waiting sender that finds room. *)
Definition drain_recv (id : Z) (rt : Runtime) : Runtime :=
  on_queue id (fun q => match q_delivering q, q_buffer q with
                        | None, job :: rest => mkQueue (q_capacity q) rest (q_waiting q) (Some job) (q_delivered q)
                        | _, _ => q
                        end) rt.
Definition drain_done (id : Z) (rt : Runtime) : Runtime :=
  match rt_queues rt !! id ≫= q_delivering with
  | Some job => set_pending_webhooks (pending_webhooks rt - 1)
      (on_queue id (fun q => mkQueue (q_capacity q) (q_buffer q) (q_waiting q) None (q_delivered q ++ [job])) rt)
  | None => rt
  end.
Definition waiting_send (id : Z) (rt : Runtime) : Runtime :=
  on_queue id (fun q => match q_waiting q with
                        | job :: rest => if 0 <? free q then buffer_job job (mkQueue (q_capacity q) (q_buffer q) rest (q_delivering q) (q_delivered q)) else q
                        | [] => q
                        end) rt.

(** ** A session's state *)

Record SessionState : Type := mkSessionState {
  ss_serving : list Z;
  created_here : bool;
  ss_players : gset Z;
  ss_observers : gset Z;
  accounted : gset Z;
  connected_slots : gset Z;
  started_slots : gset Z;
  forwarded_slots : gset Z;
  lobby_violation_slots : gset Z;
  attestable : bool;
  started_at_ms : option Z;
  ss_departures : gmap Z DepartureSeed;
  closed_relays : gmap Z Z;
  session_closed_enqueued : bool;
  ss_queue : Z;
  holdout_timer : option Z;
  linger_timer : option Z;
  webhook_timer : option Z;
  ss_started : bool;
  never_started_timer : option Z;
  empty_relays : gmap Z EmptyRosterEvidence;
  empty_timer : option EmptyTimer;
}.

Definition set_ss_serving (v : list Z) (st : SessionState) : SessionState := mkSessionState v (created_here st) (ss_players st) (ss_observers st) (accounted st) (connected_slots st) (started_slots st) (forwarded_slots st) (lobby_violation_slots st) (attestable st) (started_at_ms st) (ss_departures st) (closed_relays st) (session_closed_enqueued st) (ss_queue st) (holdout_timer st) (linger_timer st) (webhook_timer st) (ss_started st) (never_started_timer st) (empty_relays st) (empty_timer st).
Definition set_created_here (v : bool) (st : SessionState) : SessionState := mkSessionState (ss_serving st) v (ss_players st) (ss_observers st) (accounted st) (connected_slots st) (started_slots st) (forwarded_slots st) (lobby_violation_slots st) (attestable st) (started_at_ms st) (ss_departures st) (closed_relays st) (session_closed_enqueued st) (ss_queue st) (holdout_timer st) (linger_timer st) (webhook_timer st) (ss_started st) (never_started_timer st) (empty_relays st) (empty_timer st).
Definition set_ss_players (v : gset Z) (st : SessionState) : SessionState := mkSessionState (ss_serving st) (created_here st) v (ss_observers st) (accounted st) (connected_slots st) (started_slots st) (forwarded_slots st) (lobby_violation_slots st) (attestable st) (started_at_ms st) (ss_departures st) (closed_relays st) (session_closed_enqueued st) (ss_queue st) (holdout_timer st) (linger_timer st) (webhook_timer st) (ss_started st) (never_started_timer st) (empty_relays st) (empty_timer st).
Definition set_ss_observers (v : gset Z) (st : SessionState) : SessionState := mkSessionState (ss_serving st) (created_here st) (ss_players st) v (accounted st) (connected_slots st) (started_slots st) (forwarded_slots st) (lobby_violation_slots st) (attestable st) (started_at_ms st) (ss_departures st) (closed_relays st) (session_closed_enqueued st) (ss_queue st) (holdout_timer st) (linger_timer st) (webhook_timer st) (ss_started st) (never_started_timer st) (empty_relays st) (empty_timer st).
Definition set_accounted (v : gset Z) (st : SessionState) : SessionState := mkSessionState (ss_serving st) (created_here st) (ss_players st) (ss_observers st) v (connected_slots st) (started_slots st) (forwarded_slots st) (lobby_violation_slots st) (attestable st) (started_at_ms st) (ss_departures st) (closed_relays st) (session_closed_enqueued st) (ss_queue st) (holdout_timer st) (linger_timer st) (webhook_timer st) (ss_started st) (never_started_timer st) (empty_relays st) (empty_timer st).
Definition set_connected_slots (v : gset Z) (st : SessionState) : SessionState := mkSessionState (ss_serving st) (created_here st) (ss_players st) (ss_observers st) (accounted st) v (started_slots st) (forwarded_slots st) (lobby_violation_slots st) (attestable st) (started_at_ms st) (ss_departures st) (closed_relays st) (session_closed_enqueued st) (ss_queue st) (holdout_timer st) (linger_timer st) (webhook_timer st) (ss_started st) (never_started_timer st) (empty_relays st) (empty_timer st).
Definition set_started_slots (v : gset Z) (st : SessionState) : SessionState := mkSessionState (ss_serving st) (created_here st) (ss_players st) (ss_observers st) (accounted st) (connected_slots st) v (forwarded_slots st) (lobby_violation_slots st) (attestable st) (started_at_ms st) (ss_departures st) (closed_relays st) (session_closed_enqueued st) (ss_queue st) (holdout_timer st) (linger_timer st) (webhook_timer st) (ss_started st) (never_started_timer st) (empty_relays st) (empty_timer st).
Definition set_forwarded_slots (v : gset Z) (st : SessionState) : SessionState := mkSessionState (ss_serving st) (created_here st) (ss_players st) (ss_observers st) (accounted st) (connected_slots st) (started_slots st) v (lobby_violation_slots st) (attestable st) (started_at_ms st) (ss_departures st) (closed_relays st) (session_closed_enqueued st) (ss_queue st) (holdout_timer st) (linger_timer st) (webhook_timer st) (ss_started st) (never_started_timer st) (empty_relays st) (empty_timer st).
Definition set_lobby_violation_slots (v : gset Z) (st : SessionState) : SessionState := mkSessionState (ss_serving st) (created_here st) (ss_players st) (ss_observers st) (accounted st) (connected_slots st) (started_slots st) (forwarded_slots st) v (attestable st) (started_at_ms st) (ss_departures st) (closed_relays st) (session_closed_enqueued st) (ss_queue st) (holdout_timer st) (linger_timer st) (webhook_timer st) (ss_started st) (never_started_timer st) (empty_relays st) (empty_timer st).
Definition set_attestable (v : bool) (st : SessionState) : SessionState := mkSessionState (ss_serving st) (created_here st) (ss_players st) (ss_observers st) (accounted st) (connected_slots st) (started_slots st) (forwarded_slots st) (lobby_violation_slots st) v (started_at_ms st) (ss_departures st) (closed_relays st) (session_closed_enqueued st) (ss_queue st) (holdout_timer st) (linger_timer st) (webhook_timer st) (ss_started st) (never_started_timer st) (empty_relays st) (empty_timer st).
Definition set_started_at_ms (v : option Z) (st : SessionState) : SessionState := mkSessionState (ss_serving st) (created_here st) (ss_players st) (ss_observers st) (accounted st) (connected_slots st) (started_slots st) (forwarded_slots st) (lobby_violation_slots st) (attestable st) v (ss_departures st) (closed_relays st) (session_closed_enqueued st) (ss_queue st) (holdout_timer st) (linger_timer st) (webhook_timer st) (ss_started st) (never_started_timer st) (empty_relays st) (empty_timer st).
Definition set_ss_departures (v : gmap Z DepartureSeed) (st : SessionState) : SessionState := mkSessionState (ss_serving st) (created_here st) (ss_players st) (ss_observers st) (accounted st) (connected_slots st) (started_slots st) (forwarded_slots st) (lobby_violation_slots st) (attestable st) (started_at_ms st) v (closed_relays st) (session_closed_enqueued st) (ss_queue st) (holdout_timer st) (linger_timer st) (webhook_timer st) (ss_started st) (never_started_timer st) (empty_relays st) (empty_timer st).
Definition set_closed_relays (v : gmap Z Z) (st : SessionState) : SessionState := mkSessionState (ss_serving st) (created_here st) (ss_players st) (ss_observers st) (accounted st) (connected_slots st) (started_slots st) (forwarded_slots st) (lobby_violation_slots st) (attestable st) (started_at_ms st) (ss_departures st) v (session_closed_enqueued st) (ss_queue st) (holdout_timer st) (linger_timer st) (webhook_timer st) (ss_started st) (never_started_timer st) (empty_relays st) (empty_timer st).
Definition set_session_closed_enqueued (v : bool) (st : SessionState) : SessionState := mkSessionState (ss_serving st) (created_here st) (ss_players st) (ss_observers st) (accounted st) (connected_slots st) (started_slots st) (forwarded_slots st) (lobby_violation_slots st) (attestable st) (started_at_ms st) (ss_departures st) (closed_relays st) v (ss_queue st) (holdout_timer st) (linger_timer st) (webhook_timer st) (ss_started st) (never_started_timer st) (empty_relays st) (empty_timer st).
Definition set_ss_queue (v : Z) (st : SessionState) : SessionState := mkSessionState (ss_serving st) (created_here st) (ss_players st) (ss_observers st) (accounted st) (connected_slots st) (started_slots st) (forwarded_slots st) (lobby_violation_slots st) (attestable st) (started_at_ms st) (ss_departures st) (closed_relays st) (session_closed_enqueued st) v (holdout_timer st) (linger_timer st) (webhook_timer st) (ss_started st) (never_started_timer st) (empty_relays st) (empty_timer st).
Definition set_holdout_timer (v : option Z) (st : SessionState) : SessionState := mkSessionState (ss_serving st) (created_here st) (ss_players st) (ss_observers st) (accounted st) (connected_slots st) (started_slots st) (forwarded_slots st) (lobby_violation_slots st) (attestable st) (started_at_ms st) (ss_departures st) (closed_relays st) (session_closed_enqueued st) (ss_queue st) v (linger_timer st) (webhook_timer st) (ss_started st) (never_started_timer st) (empty_relays st) (empty_timer st).
Definition set_linger_timer (v : option Z) (st : SessionState) : SessionState := mkSessionState (ss_serving st) (created_here st) (ss_players st) (ss_observers st) (accounted st) (connected_slots st) (started_slots st) (forwarded_slots st) (lobby_violation_slots st) (attestable st) (started_at_ms st) (ss_departures st) (closed_relays st) (session_closed_enqueued st) (ss_queue st) (holdout_timer st) v (webhook_timer st) (ss_started st) (never_started_timer st) (empty_relays st) (empty_timer st).
Definition set_webhook_timer (v : option Z) (st : SessionState) : SessionState := mkSessionState (ss_serving st) (created_here st) (ss_players st) (ss_observers st) (accounted st) (connected_slots st) (started_slots st) (forwarded_slots st) (lobby_violation_slots st) (attestable st) (started_at_ms st) (ss_departures st) (closed_relays st) (session_closed_enqueued st) (ss_queue st) (holdout_timer st) (linger_timer st) v (ss_started st) (never_started_timer st) (empty_relays st) (empty_timer st).
Definition set_ss_started (v : bool) (st : SessionState) : SessionState := mkSessionState (ss_serving st) (created_here st) (ss_players st) (ss_observers st) (accounted st) (connected_slots st) (started_slots st) (forwarded_slots st) (lobby_violation_slots st) (attestable st) (started_at_ms st) (ss_departures st) (closed_relays st) (session_closed_enqueued st) (ss_queue st) (holdout_timer st) (linger_timer st) (webhook_timer st) v (never_started_timer st) (empty_relays st) (empty_timer st).
Definition set_never_started_timer (v : option Z) (st : SessionState) : SessionState := mkSessionState (ss_serving st) (created_here st) (ss_players st) (ss_observers st) (accounted st) (connected_slots st) (started_slots st) (forwarded_slots st) (lobby_violation_slots st) (attestable st) (started_at_ms st) (ss_departures st) (closed_relays st) (session_closed_enqueued st) (ss_queue st) (holdout_timer st) (linger_timer st) (webhook_timer st) (ss_started st) v (empty_relays st) (empty_timer st).
Definition set_empty_relays (v : gmap Z EmptyRosterEvidence) (st : SessionState) : SessionState := mkSessionState (ss_serving st) (created_here st) (ss_players st) (ss_observers st) (accounted st) (connected_slots st) (started_slots st) (forwarded_slots st) (lobby_violation_slots st) (attestable st) (started_at_ms st) (ss_departures st) (closed_relays st) (session_closed_enqueued st) (ss_queue st) (holdout_timer st) (linger_timer st) (webhook_timer st) (ss_started st) (never_started_timer st) v (empty_timer st).
Definition set_empty_timer (v : option EmptyTimer) (st : SessionState) : SessionState := mkSessionState (ss_serving st) (created_here st) (ss_players st) (ss_observers st) (accounted st) (connected_slots st) (started_slots st) (forwarded_slots st) (lobby_violation_slots st) (attestable st) (started_at_ms st) (ss_departures st) (closed_relays st) (session_closed_enqueued st) (ss_queue st) (holdout_timer st) (linger_timer st) (webhook_timer st) (ss_started st) (never_started_timer st) (empty_relays st) v.

Definition all_relays_closed (st : SessionState) : bool :=
  negb (bool_decide (ss_serving st = [])) && forallb (fun r => bool_decide (is_Some (closed_relays st !! r))) (ss_serving st).

Definition unaccounted_players (st : SessionState) : list Z := elements (ss_players st ∖ accounted st).

Definition since (now last : Z) : Z := Z.max 0 (now - last).

Definition all_relays_confirmed_empty (st : SessionState) (now freshness : Z) : bool :=
  negb (bool_decide (ss_serving st = [])) &&
  forallb (fun r => bool_decide (is_Some (closed_relays st !! r)) ||
             match empty_relays st !! r with Some e => since now (last_seen e) <=? freshness | None => false end) (ss_serving st).

Definition empty_evidence_matches_epochs (st : SessionState) (epochs : gmap Z RelayEpoch) : bool :=
  forallb (fun r => bool_decide (is_Some (closed_relays st !! r)) ||
             match empty_relays st !! r, epochs !! r with Some e, Some p => ep_connected p && (ep_generation p =? ev_generation e) | _, _ => false end) (ss_serving st).

Definition new_state (capacity : Z) (serving : list Z) (rt : Runtime) : SessionState * Runtime :=
  let '(q, rt) := open_queue capacity rt in
  (mkSessionState serving false ∅ ∅ ∅ ∅ ∅ ∅ ∅ false None ∅ ∅ false q None None None false None ∅ None, rt).

Definition mark_started (st : SessionState) (rt : Runtime) : SessionState * Runtime :=
  (set_never_started_timer None (set_ss_started true st), abort_opt (never_started_timer st) rt).

Definition invalidate_empty_timer (st : SessionState) (rt : Runtime) : SessionState * Runtime :=
  (set_empty_timer None st, abort_opt (et_task <$> empty_timer st) rt).

Definition reset_empty_evidence (st : SessionState) (rt : Runtime) : SessionState * Runtime :=
  invalidate_empty_timer (set_empty_relays ∅ st) rt.

Definition abort_timers (st : SessionState) (rt : Runtime) : Runtime :=
  abort_opt (et_task <$> empty_timer st) (abort_opt (never_started_timer st) (abort_opt (webhook_timer st) (abort_opt (linger_timer st) (abort_opt (holdout_timer st) rt)))).

Section policies.
Context (tun : LifecycleTunables).

Definition arm_webhook_reap_if_orphan (k : string * Z) (now : Z) (st : SessionState) (rt : Runtime) : SessionState * Runtime :=
  if negb (bool_decide (ss_serving st = [])) then (st, rt)
  else let '(id, rt) := spawn (TWebhook k) (now + webhook_grace tun) (abort_opt (webhook_timer st) rt) in
       (set_webhook_timer (Some id) st, rt).

(** The holdout half of [reevaluate_reaps], then its linger half. *)
Definition reevaluate_holdout (k : string * Z) (now : Z) (st : SessionState) (rt : Runtime) : SessionState * Runtime :=
  match unaccounted_players st with
  | [holdout] =>
      if (2 <=? Z.of_nat (size (ss_players st)))
      then match holdout_timer st with
           | None => let '(id, rt) := spawn (THoldout k holdout) (now + holdout_grace tun) rt in (set_holdout_timer (Some id) st, rt)
           | Some _ => (st, rt)
           end
      else (set_holdout_timer None st, abort_opt (holdout_timer st) rt)
  | _ => (set_holdout_timer None st, abort_opt (holdout_timer st) rt)
  end.

Definition reevaluate_linger (k : string * Z) (now : Z) (st : SessionState) (rt : Runtime) : SessionState * Runtime :=
  if negb (bool_decide (ss_players st = ∅)) && bool_decide (unaccounted_players st = []) && negb (all_relays_closed st)
  then match linger_timer st with
       | None => let '(id, rt) := spawn (TLinger k) (now + linger_grace tun) rt in (set_linger_timer (Some id) st, rt)
       | Some _ => (st, rt)
       end
  else (set_linger_timer None st, abort_opt (linger_timer st) rt).

Definition reevaluate_reaps (k : string * Z) (now : Z) (st : SessionState) (rt : Runtime) : SessionState * Runtime :=
  let '(st, rt) := reevaluate_holdout k now st rt in reevaluate_linger k now st rt.

Definition reevaluate_empty_reap (k : string * Z) (now : Z) (st : SessionState) (rt : Runtime) : SessionState * Runtime :=
  if ss_started st && negb (all_relays_closed st) && all_relays_confirmed_empty st now (empty_roster_freshness tun)
  then match empty_timer st with
       | None =>
           let token := next_empty_timer_token rt in
           let '(id, rt) := spawn (TEmpty k token) (now + empty_session_grace tun) (set_next_empty_timer_token ((token + 1) mod 2 ^ 64) rt) in
           (set_empty_timer (Some (mkEmptyTimer token id)) st, rt)
       | Some _ => (st, rt)
       end
  else invalidate_empty_timer st rt.

End policies.

(** ** The coordinator *)

Record Lifecycle : Type := mkLifecycle {
  lc_setup : SessionSetup;
  lc_sessions : gmap (string * Z) SessionState;
  relay_epochs : gmap Z RelayEpoch;
  lc_rt : Runtime;
  lc_notices : gset (NoticeKind * (string * Z) * Z);
  desync_marks : gmap (string * Z) Z;
  notify_tenants : gset string;
  lc_closes : list (Z * SlotClose);
}.

Definition set_lc_setup (v : SessionSetup) (c : Lifecycle) : Lifecycle := mkLifecycle v (lc_sessions c) (relay_epochs c) (lc_rt c) (lc_notices c) (desync_marks c) (notify_tenants c) (lc_closes c).
Definition set_lc_sessions (v : gmap (string * Z) SessionState) (c : Lifecycle) : Lifecycle := mkLifecycle (lc_setup c) v (relay_epochs c) (lc_rt c) (lc_notices c) (desync_marks c) (notify_tenants c) (lc_closes c).
Definition set_relay_epochs (v : gmap Z RelayEpoch) (c : Lifecycle) : Lifecycle := mkLifecycle (lc_setup c) (lc_sessions c) v (lc_rt c) (lc_notices c) (desync_marks c) (notify_tenants c) (lc_closes c).
Definition set_lc_rt (v : Runtime) (c : Lifecycle) : Lifecycle := mkLifecycle (lc_setup c) (lc_sessions c) (relay_epochs c) v (lc_notices c) (desync_marks c) (notify_tenants c) (lc_closes c).
Definition set_lc_notices (v : gset (NoticeKind * (string * Z) * Z)) (c : Lifecycle) : Lifecycle := mkLifecycle (lc_setup c) (lc_sessions c) (relay_epochs c) (lc_rt c) v (desync_marks c) (notify_tenants c) (lc_closes c).
Definition set_desync_marks (v : gmap (string * Z) Z) (c : Lifecycle) : Lifecycle := mkLifecycle (lc_setup c) (lc_sessions c) (relay_epochs c) (lc_rt c) (lc_notices c) v (notify_tenants c) (lc_closes c).
Definition set_notify_tenants (v : gset string) (c : Lifecycle) : Lifecycle := mkLifecycle (lc_setup c) (lc_sessions c) (relay_epochs c) (lc_rt c) (lc_notices c) (desync_marks c) v (lc_closes c).
Definition set_lc_closes (v : list (Z * SlotClose)) (c : Lifecycle) : Lifecycle := mkLifecycle (lc_setup c) (lc_sessions c) (relay_epochs c) (lc_rt c) (lc_notices c) (desync_marks c) (notify_tenants c) v.



(** What the tenant store says of a tenant: whether it takes webhooks. *)
Definition new_lifecycle (s : SessionSetup) (tenants : gset string) : Lifecycle :=
  mkLifecycle s ∅ ∅ (mkRuntime ∅ ∅ 0 1 0 0) ∅ ∅ tenants [].

Definition instant_now (c : Lifecycle) : Z := instant_ns (lc_setup c).

Section lifecycle.
Context {sha : Sha256} {mint : MintToken}.
Context (tun : LifecycleTunables).

Definition put_state (c : Lifecycle) (k : string * Z) (p : SessionState * Runtime) : Lifecycle :=
  set_lc_sessions (<[k := p.1]> (lc_sessions c)) (set_lc_rt p.2 c).

(** [entry(..).or_insert_with(new_state)]. *)
Definition on_entry (c : Lifecycle) (k : string * Z) (f : SessionState -> Runtime -> SessionState * Runtime) : Lifecycle :=
  let '(st, rt) := match lc_sessions c !! k with Some st => (st, lc_rt c) | None => new_state (queue_capacity tun) [] (lc_rt c) end in
  put_state c k (f st rt).

Definition on_state (c : Lifecycle) (k : string * Z) (f : SessionState -> Runtime -> SessionState * Runtime) : Lifecycle :=
  match lc_sessions c !! k with Some st => put_state c k (f st (lc_rt c)) | None => c end.

(** ** Facts of a session *)

(** An orphan that gains a serving set leaves the idle reap. *)
Definition drop_webhook_timer (st : SessionState) (rt : Runtime) : SessionState * Runtime :=
  if negb (bool_decide (ss_serving st = [])) then (set_webhook_timer None st, abort_opt (webhook_timer st) rt) else (st, rt).

Definition rearm_never_started (k : string * Z) (now : Z) (st : SessionState) (rt : Runtime) : SessionState * Runtime :=
  let rt := abort_opt (never_started_timer st) rt in
  if ss_started st then (set_never_started_timer None st, rt)
  else let '(id, rt) := spawn (TNeverStarted k) (now + never_started_grace tun) rt in (set_never_started_timer (Some id) st, rt).

Definition registered (serving : list Z) (players observers : gset Z) (st : SessionState) : SessionState :=
  set_attestable true (set_closed_relays ∅ (set_ss_observers observers (set_ss_players players (set_created_here true (set_ss_serving serving st))))).

Definition register_session (c : Lifecycle) (k : string * Z) (serving : list Z) (players observers : gset Z) : Lifecycle :=
  on_entry c k (fun st rt =>
    let '(st, rt) := drop_webhook_timer (registered serving players observers st) rt in
    let '(st, rt) := rearm_never_started k (instant_now c) st rt in
    reset_empty_evidence st rt).

Definition prepare_rehome (c : Lifecycle) (k : string * Z) : Lifecycle := on_state c k reset_empty_evidence.

(** The cached serving set follows the move as the membership did. *)
Fixpoint replace_first (dead r_new : Z) (l : list Z) : list Z :=
  match l with [] => [] | x :: l => if x =? dead then r_new :: l else x :: replace_first dead r_new l end.
Fixpoint remove_first (dead : Z) (l : list Z) : list Z :=
  match l with [] => [] | x :: l => if x =? dead then l else x :: remove_first dead l end.

Definition on_rehome (c : Lifecycle) (k : string * Z) (dead r_new : Z) : Lifecycle :=
  on_state c k (fun st rt =>
    if dead =? r_new then
      let '(st, rt) := reset_empty_evidence st rt in
      (set_attestable false (set_closed_relays (base.delete dead (closed_relays st)) st), rt)
    else if negb (bool_decide (dead ∈ ss_serving st)) then (st, rt)
    else
      let '(st, rt) := reset_empty_evidence st rt in
      let st := set_attestable false (set_closed_relays (base.delete r_new (base.delete dead (closed_relays st))) st) in
      (set_ss_serving (if bool_decide (r_new ∈ ss_serving st) then remove_first dead (ss_serving st) else replace_first dead r_new (ss_serving st)) st, rt)).

Definition note_accounted (slot : Z) (st : SessionState) : SessionState :=
  if bool_decide (slot ∈ ss_players st) then set_accounted ({[slot]} ∪ accounted st) st else st.

(** Up to the release of the sessions lock; the refresh of resumed descriptors
    follows as a step of its own. *)
Definition on_departure (c : Lifecycle) (k : string * Z) (slot : Z) (kind : DepartureKind) (count : option Z) (finalized : bool) : Lifecycle :=
  on_entry c k (fun st rt =>
    let finalized := bool_decide (kind = Dropped) && finalized in
    let count := if bool_decide (kind = Dropped) && negb finalized then None else count in
    let st := match ss_departures st !! slot with
              | Some _ => st
              | None => set_ss_departures (<[slot := mkDepartureSeed kind count finalized]> (ss_departures st)) st
              end in
    let '(st, rt) := mark_started (note_accounted slot st) rt in
    let '(st, rt) := reevaluate_reaps tun k (instant_now c) st rt in
    arm_webhook_reap_if_orphan tun k (instant_now c) st rt).

Definition departed_slots (c : Lifecycle) (k : string * Z) : list DepartedSlot :=
  match lc_sessions c !! k with
  | Some st => (fun p => mkDepartedSlot p.1 (seed_kind p.2) (seed_count p.2) (seed_finalized p.2)) <$> map_to_list (ss_departures st)
  | None => []
  end.

Definition refresh_departed (c : Lifecycle) (k : string * Z) : Lifecycle :=
  set_lc_setup (refresh_resumed_descriptors (lc_setup c) k (departed_slots c k)) c.

Definition on_result (c : Lifecycle) (k : string * Z) (slot : Z) : Lifecycle :=
  on_entry c k (fun st rt =>
    let '(st, rt) := mark_started (note_accounted slot st) rt in
    let '(st, rt) := reevaluate_reaps tun k (instant_now c) st rt in
    arm_webhook_reap_if_orphan tun k (instant_now c) st rt).

Definition on_slot_connected (c : Lifecycle) (k : string * Z) (slot : Z) : Lifecycle :=
  on_entry c k (fun st rt =>
    let '(st, rt) := mark_started (set_connected_slots ({[slot]} ∪ connected_slots st) st) rt in arm_webhook_reap_if_orphan tun k (instant_now c) st rt).

Definition on_session_started (c : Lifecycle) (k : string * Z) (at_ms : Z) : Lifecycle :=
  on_entry c k (fun st rt =>
    let '(st, rt) := mark_started (set_started_at_ms (match started_at_ms st with Some t => Some t | None => Some at_ms end) st) rt in
    arm_webhook_reap_if_orphan tun k (instant_now c) st rt).

Definition on_slot_started (c : Lifecycle) (k : string * Z) (slot : Z) : Lifecycle :=
  on_entry c k (fun st rt =>
    let '(st, rt) := mark_started (set_started_slots ({[slot]} ∪ started_slots st) st) rt in arm_webhook_reap_if_orphan tun k (instant_now c) st rt).

Definition on_lobby_violation (c : Lifecycle) (k : string * Z) (slot : Z) : Lifecycle :=
  on_entry c k (fun st rt => arm_webhook_reap_if_orphan tun k (instant_now c) (set_lobby_violation_slots ({[slot]} ∪ lobby_violation_slots st) st) rt).

Definition on_relay_lineage_break (c : Lifecycle) (relay : Z) : Lifecycle :=
  set_lc_sessions ((fun st => if bool_decide (relay ∈ ss_serving st) then set_attestable false st else st) <$> lc_sessions c) c.

Record SessionPresence : Type := mkSessionPresence {
  sp_session : string * Z; sp_slots : list Z; ever_connected : list Z; sp_started : list Z; sp_forwarded : list Z; sp_lobby_violations : list Z; sp_started_at_ms : option Z }.

Definition merge_turn_evidence (c : Lifecycle) (p : SessionPresence) : Lifecycle :=
  match sp_forwarded p with
  | [] => c
  | slots => on_entry c (sp_session p) (fun st rt => arm_webhook_reap_if_orphan tun (sp_session p) (instant_now c) (set_forwarded_slots (list_to_set slots ∪ forwarded_slots st) st) rt)
  end.

Definition merge_one (c : Lifecycle) (p : SessionPresence) : Lifecycle :=
  let k := sp_session p in
  let c := foldl (fun c slot => on_slot_connected c k slot) c (sp_slots p ++ ever_connected p) in
  let c := foldl (fun c slot => on_slot_started c k slot) c (sp_started p) in
  let c := foldl (fun c slot => on_lobby_violation c k slot) c (sp_lobby_violations p) in
  let c := merge_turn_evidence c p in
  match sp_started_at_ms p with Some t => on_session_started c k t | None => c end.
Definition merge_load_state (c : Lifecycle) (l : list SessionPresence) : Lifecycle := foldl merge_one c l.

(** ** The end of a session *)

Definition prune_session (k : string * Z) (d : gset (NoticeKind * (string * Z) * Z)) : gset (NoticeKind * (string * Z) * Z) := filter (fun e => e.1.2 <> k) d.

Definition session_closed_job (c : Lifecycle) (k : string * Z) : option WebhookJob :=
  if bool_decide (k.1 ∈ notify_tenants c) then Some (mkWebhookJob k NSessionClosed 0 (session_refs (lc_setup c) !! k ≫= external_id)) else None.

Definition close_and_retire (c : Lifecycle) (k : string * Z) (st : SessionState) : Lifecycle :=
  let rt := match session_closed_job c k with Some job => push_terminal (ss_queue st) job (lc_rt c) | None => lc_rt c end in
  let c := set_lc_notices (prune_session k (lc_notices c)) (set_lc_rt (abort_timers st rt) c) in
  set_lc_setup (retire_session (lc_setup c) k) c.

(** Take the state out, then close. *)
Definition remove_and_close (c : Lifecycle) (k : string * Z) (st : SessionState) : Lifecycle :=
  close_and_retire (set_lc_sessions (base.delete k (lc_sessions c)) c) k st.

Definition finish_if_all_closed (c : Lifecycle) (k : string * Z) : Lifecycle :=
  match lc_sessions c !! k with
  | Some st => if negb (all_relays_closed st) || session_closed_enqueued st then c else remove_and_close c k (set_session_closed_enqueued true st)
  | None => c
  end.

Definition epoch_current (c : Lifecycle) (relay gen : Z) : bool :=
  match relay_epochs c !! relay with Some e => ep_connected e && (ep_generation e =? gen) | None => false end.

(** A relay's close, noted. *)
Definition close_state (relay gen : Z) (k : string * Z) (now : Z) (st : SessionState) (rt : Runtime) : SessionState * Runtime :=
  let '(st, rt) := invalidate_empty_timer (set_empty_relays (base.delete relay (empty_relays st)) (set_closed_relays (<[relay := gen]> (closed_relays st)) st)) rt in
  reevaluate_empty_reap tun k now st rt.

Definition on_session_closed (c : Lifecycle) (k : string * Z) (relay gen : Z) : Lifecycle :=
  if negb (epoch_current c relay gen) then c
  else if negb (bool_decide (relay ∈ serving_relays (lc_setup c) k)) then c
  else
    match lc_sessions c !! k with
    | None => c
    | Some st =>
        if negb (bool_decide (relay ∈ ss_serving st)) then c
        else
          finish_if_all_closed (put_state c k (close_state relay gen k (instant_now c) st (lc_rt c))) k
    end.

Definition enqueue_webhook (c : Lifecycle) (k : string * Z) (job : WebhookJob) : Lifecycle :=
  on_entry c k (fun st rt => arm_webhook_reap_if_orphan tun k (instant_now c) st (push_ordinary (ss_queue st) job rt)).

Definition ensure_orphan_tracked (c : Lifecycle) (k : string * Z) : Lifecycle := on_entry c k (arm_webhook_reap_if_orphan tun k (instant_now c)).

Definition is_alive (c : Lifecycle) (k : string * Z) : bool :=
  match lc_sessions c !! k with Some st => negb (bool_decide (ss_serving st = [])) && negb (all_relays_closed st) | None => false end.

(** ** The reaps *)

(** The directives a reap sends, one to each relay, in the order it sends them. *)
Definition close_slots (c : Lifecycle) (k : string * Z) (slots relays : list Z) : Lifecycle :=
  set_lc_closes (lc_closes c ++ ((fun r => (r, mkSlotClose k.1 k.2 slots)) <$> relays)) c.
Definition send_next_close (c : Lifecycle) : Lifecycle :=
  match lc_closes c with
  | (relay, close) :: rest => set_lc_closes rest (set_lc_setup (with_reaps (lc_setup c) (send_reap (reaps (lc_setup c)) relay close)) c)
  | [] => c
  end.

Definition fire_holdout (c : Lifecycle) (k : string * Z) (holdout : Z) : Lifecycle :=
  match lc_sessions c !! k with
  | None => c
  | Some st =>
      let c := put_state c k (set_holdout_timer None st, lc_rt c) in
      if bool_decide (holdout ∈ accounted st) then c else close_slots c k [holdout] (ss_serving st)
  end.

Definition fire_linger (c : Lifecycle) (k : string * Z) : Lifecycle :=
  match lc_sessions c !! k with
  | None => c
  | Some st =>
      let c := put_state c k (set_linger_timer None st, lc_rt c) in
      if negb (bool_decide (unaccounted_players st = [])) || all_relays_closed st then c
      else
        match filter (fun s => ss_departures st !! s = None) (elements (ss_players st) ++ elements (ss_observers st)) with
        | [] => c
        | targets => close_slots c k targets (ss_serving st)
        end
  end.

Definition fire_never_started (c : Lifecycle) (k : string * Z) : Lifecycle :=
  match lc_sessions c !! k with
  | None => c
  | Some st =>
      let st := set_never_started_timer None st in
      if ss_started st then put_state c k (st, lc_rt c) else remove_and_close c k st
  end.

Definition fire_empty_session (c : Lifecycle) (k : string * Z) (token : Z) : Lifecycle :=
  match lc_sessions c !! k with
  | None => c
  | Some st =>
      if bool_decide ((et_token <$> empty_timer st) = Some token)
      then
        let st := set_empty_timer None st in
        if negb (ss_started st) || all_relays_closed st || negb (all_relays_confirmed_empty st (instant_now c) (empty_roster_freshness tun)) ||
           negb (empty_evidence_matches_epochs st (relay_epochs c))
        then put_state c k (st, lc_rt c)
        else remove_and_close c k st
      else c
  end.

Definition fire_webhook_reap (c : Lifecycle) (k : string * Z) : Lifecycle :=
  match lc_sessions c !! k with
  | None => c
  | Some st =>
      if negb (bool_decide (ss_serving st = [])) then c
      else
        let c := set_lc_sessions (base.delete k (lc_sessions c)) c in
        let c := set_lc_notices (prune_session k (lc_notices c)) (set_lc_rt (abort_timers st (lc_rt c)) c) in
        set_lc_setup (retire_session (lc_setup c) k) c
  end.

(** A woken task takes the locks and runs. *)
Definition fire (c : Lifecycle) (id : Z) : Lifecycle :=
  match rt_tasks (lc_rt c) !! id with
  | Some t =>
      if task_awake t
      then
        let c := set_lc_rt (set_rt_tasks (base.delete id (rt_tasks (lc_rt c))) (lc_rt c)) c in
        match task_kind t with
        | THoldout k slot => fire_holdout c k slot
        | TLinger k => fire_linger c k
        | TWebhook k => fire_webhook_reap c k
        | TNeverStarted k => fire_never_started c k
        | TEmpty k token => fire_empty_session c k token
        end
      else c
  | None => c
  end.

Definition wake (c : Lifecycle) (id : Z) : Lifecycle :=
  match rt_tasks (lc_rt c) !! id with
  | Some t => if task_due t <=? instant_now c
              then set_lc_rt (set_rt_tasks (<[id := mkTask (task_kind t) (task_due t) true]> (rt_tasks (lc_rt c))) (lc_rt c)) c else c
  | None => c
  end.

(** ** Relays *)

Definition reopen (relay gen : Z) (k : string * Z) (now : Z) (st : SessionState) (rt : Runtime) : SessionState * Runtime :=
  let invalidated := match empty_relays st !! relay with Some e => ev_generation e <? gen | None => false end in
  let reopened := bool_decide (is_Some (closed_relays st !! relay)) in
  let st := set_closed_relays (base.delete relay (closed_relays st)) st in
  if invalidated || reopened
  then let '(st, rt) := invalidate_empty_timer (set_empty_relays (base.delete relay (empty_relays st)) st) rt in reevaluate_empty_reap tun k now st rt
  else (st, rt).

Definition each_session (c : Lifecycle) (f : string * Z -> SessionState -> Runtime -> SessionState * Runtime) : Lifecycle :=
  foldl (fun c p => on_state c p.1 (f p.1)) c (map_to_list (lc_sessions c)).

Definition apply_relay_enrolled (c : Lifecycle) (relay gen : Z) : Lifecycle :=
  if match relay_epochs c !! relay with Some e => gen <=? ep_generation e | None => false end then c
  else
    let c := set_relay_epochs (<[relay := mkRelayEpoch gen true]> (relay_epochs c)) c in
    each_session c (fun k => reopen relay gen k (instant_now c)).

Definition lapse (relay gen : Z) (k : string * Z) (now : Z) (st : SessionState) (rt : Runtime) : SessionState * Runtime :=
  if match empty_relays st !! relay with Some e => ev_generation e =? gen | None => false end
  then let '(st, rt) := invalidate_empty_timer (set_empty_relays (base.delete relay (empty_relays st)) st) rt in reevaluate_empty_reap tun k now st rt
  else (st, rt).

Definition apply_relay_disconnected (c : Lifecycle) (relay gen : Z) : Lifecycle :=
  match relay_epochs c !! relay with
  | Some e =>
      if negb (ep_generation e =? gen) || negb (ep_connected e) then c
      else
        let c := set_relay_epochs (base.delete relay (relay_epochs c)) c in
        each_session c (fun k => lapse relay gen k (instant_now c))
  | None => c
  end.

(** One assigned session of a heartbeat. *)
Definition beat_state (relay gen : Z) (occupied complete : bool) (k : string * Z) (now : Z) (st : SessionState) (rt : Runtime) : SessionState * Runtime :=
  if negb (bool_decide (relay ∈ ss_serving st)) then (st, rt)
  else
    let '(reset, (st, rt)) :=
      if occupied then
        (bool_decide (is_Some (empty_relays st !! relay)) || bool_decide (is_Some (closed_relays st !! relay)),
         mark_started (set_closed_relays (base.delete relay (closed_relays st)) (set_empty_relays (base.delete relay (empty_relays st)) st)) rt)
      else if complete then
        (negb match empty_relays st !! relay with Some e => (ev_generation e =? gen) && (since now (last_seen e) <=? empty_roster_freshness tun) | None => false end,
         (set_empty_relays (<[relay := mkEmptyRosterEvidence gen now]> (empty_relays st)) st, rt))
      else (bool_decide (is_Some (empty_relays st !! relay)), (set_empty_relays (base.delete relay (empty_relays st)) st, rt)) in
    let '(st, rt) := if reset then invalidate_empty_timer st rt else (st, rt) in
    reevaluate_empty_reap tun k now st rt.

Definition on_relay_heartbeat (c : Lifecycle) (relay gen : Z) (roster : list SessionPresence) (complete : bool) : Lifecycle :=
  if negb (epoch_current c relay gen) then c
  else
    let occupied := sp_session <$> filter (fun p => sp_slots p <> []) roster in
    foldl (fun c k => on_state c k (beat_state relay gen (bool_decide (k ∈ occupied)) complete k (instant_now c))) c (current_keys_for (descriptors (lc_setup c)) relay).

Definition cap_slots (l : list Z) : list Z := take (Z.to_nat MAX_HEARTBEAT_SESSION_SLOTS) l.
Definition bound_session_slot_lists (p : SessionPresence) : SessionPresence :=
  mkSessionPresence (sp_session p) (cap_slots (sp_slots p)) (cap_slots (ever_connected p)) (cap_slots (sp_started p)) (cap_slots (sp_forwarded p))
    (cap_slots (sp_lobby_violations p)) (sp_started_at_ms p).

(** What only the home relay of a slot may state of it. *)
Definition retain_homed (s : SessionSetup) (relay : Z) (p : SessionPresence) : SessionPresence :=
  let homed := filter (fun slot => relay_homes_slot s relay (sp_session p) slot = true) in
  mkSessionPresence (sp_session p) (sp_slots p) (ever_connected p) (sp_started p) (homed (sp_forwarded p)) (homed (sp_lobby_violations p)) (sp_started_at_ms p).

(** A heartbeat's roster; its round trips are folded into their own table. *)
Definition ingest_heartbeat (c : Lifecycle) (relay gen : Z) (roster_complete : bool) (roster : list SessionPresence) : Lifecycle :=
  let complete := roster_complete && (Z.of_nat (length roster) <=? MAX_HEARTBEAT_SESSIONS) in
  let roster := bound_session_slot_lists <$> take (Z.to_nat MAX_HEARTBEAT_SESSIONS) roster in
  if negb (generation_is_current (registry (lc_setup c)) relay gen) then c
  else
    let roster := retain_homed (lc_setup c) relay <$> filter (fun p => relay_serves_session (lc_setup c) relay (sp_session p) = true) roster in
    merge_load_state (on_relay_heartbeat c relay gen roster complete) roster.

End lifecycle.

