(* ===== verification/LifecycleOps.v ===== *)
(** * The coordinator's handlers

    Where setup and lifecycle meet: a create registers its session in the commit
    ([api/sessions.rs]), a re-home moves the cached serving set under the
    assignment lock, enrolment opens a relay's epoch and evicts the sessions its
    build cannot serve ([api/control_enroll.rs]), a notice is authorised, recorded
    and announced once ([lifecycle/notices.rs], [notify/]), and the accumulated
    facts survive a restart ([lifecycle/persist.rs]).  The run of the whole takes
    these steps in any order, with timers that wake late and queues that drain when
    they may. *)

From Stdlib Require Import ZArith Lia.
From stdpp Require Import gmap sorting list strings.
From S2P Require Import Prelude.
From S2P Require Import Registry.
From S2P Require Import PairRtts.
From S2P Require Import Placement.
From S2P Require Import Outbox.
From S2P Require Import EvidenceHistory.
From S2P Require Import Setup.
From S2P Require Import SetupRun.
From S2P Require Import Lifecycle.

Open Scope Z_scope.

Section handlers.
Context {sha : Sha256} {mint : MintToken}.
Context (tun : LifecycleTunables).

(** ** Creates *)

Definition players_of (rq : SessionRequest) : gset Z := list_to_set (pl_slot <$> filter (fun p => pl_observer p = false) (players rq)).
Definition observers_of (rq : SessionRequest) : gset Z := list_to_set (pl_slot <$> filter (fun p => pl_observer p = true) (players rq)).

(** The commit hook runs for a create that minted, never for a replay. *)
Definition create_session (c : Lifecycle) (rq : SessionRequest) (expires_at : Z) (hold : option Z) (unix : Z) :
    option (result CreateOutcome SessionSetupError * Lifecycle) :=
  p ← create_body (lc_setup c) rq expires_at hold unix;
  let '(o, s) := p in
  let c := set_lc_setup s c in
  Some (o, match o with
           | Ok (Created response ids false) => register_session tun c (rq_tenant rq, rs_session response) ids (players_of rq) (observers_of rq)
           | _ => c
           end).

(** ** Moves *)

(** [rehome_with_assignment_commit] with the lifecycle's hook and reader. *)
Definition rehome_session (c : Lifecycle) (k : string * Z) (dead : Z) : RehomeOutcome * Lifecycle :=
  match rehome_pick (lc_setup c) k dead true with
  | Answer o => (o, c)
  | Move r_new e revisions =>
      match rehome_commit (lc_setup c) k dead r_new e revisions with
      | None => (Unavailable, c)
      | Some s =>
          let c := on_rehome (set_lc_setup s c) k dead r_new in
          (NewTarget (endpoint_of e), set_lc_setup (rehome_publish (lc_setup c) k dead r_new (departed_slots c k)) c)
      end
  end.

(** The eviction of a session whose cohort the re-enrolled relay left: the
    departed slots were read before, and the hook does nothing. *)
Definition evict_cohort (c : Lifecycle) (k : string * Z) (relay : Z) (departed : list DepartedSlot) : Lifecycle :=
  set_lc_setup (rehome_evicting (lc_setup c) k relay departed).2 c.

(** The second half of [evict_evidence_session], when no replacement was found. *)
Definition retire_unsupported (c : Lifecycle) (k : string * Z) (relay : Z) : Lifecycle :=
  let s := lc_setup c in
  if bool_decide (relay ∈ serving_relays s k) &&
     match session_refs s !! k with Some r => negb (bool_decide (required_evidence_slots r = [])) | None => false end &&
     negb match entry (registry s) relay with Some e => relay_evidence_capable e | None => false end
  then
    match lc_sessions c !! k with
    | Some st => remove_and_close c k st
    | None => let '(st, rt) := new_state (queue_capacity tun) [] (lc_rt c) in close_and_retire (set_lc_rt rt c) k st
    end
  else c.

Definition evict_evidence_session (c : Lifecycle) (k : string * Z) (relay : Z) : Lifecycle :=
  match rehome_session c k relay with
  | (Unavailable, c) => retire_unsupported c k relay
  | (_, c) => c
  end.

(** ** Relays *)

(** Sessions assigned to the relay that its build no longer fits. *)
Definition mismatched (s : SessionSetup) (relay : Z) (e : RelayEntry) : list (string * Z) :=
  (fun d => (sd_tenant d, sd_session d)) <$>
  filter (fun d => match session_refs s !! (sd_tenant d, sd_session d) with Some r => negb (Bool.eqb (capable_cohort r) (relay_finalize_capable e)) | None => false end
                   || (sd_rollback d && negb (relay_rollback_capable e)) = true) (current_for (descriptors s) relay).
Definition unsupported (s : SessionSetup) (relay : Z) (e : RelayEntry) : list (string * Z) :=
  if relay_evidence_capable e then []
  else (fun d => (sd_tenant d, sd_session d)) <$> filter (fun d => sd_required_evidence_slots d <> []) (current_for (descriptors s) relay).

(** The part of [enroll] under the assignment lock; the sessions to evict are
    handled after it, each by its own step. *)
Definition enroll_relay (c : Lifecycle) (h : RelayHello) (boot : option Z) : option (Z * list (string * Z) * list (string * Z) * Lifecycle) :=
  p ← try_enroll (registry (lc_setup c)) h;
  let '(gen, g) := p in
  let id := hello_id h in
  let c := apply_relay_enrolled tun (set_lc_setup (with_registry (lc_setup c) g) c) id gen in
  let '(lineage, g) := note_boot_id (registry (lc_setup c)) id boot in
  let c := set_lc_setup (with_registry (lc_setup c) g) c in
  let c := match lineage with Broken => on_relay_lineage_break c id | Continuous => c end in
  let c := set_lc_setup (restage_periodic (lc_setup c) id) c in
  let evict := mismatched (lc_setup c) id (entry_of_hello h) in
  let evidence := unsupported (lc_setup c) id (entry_of_hello h) in
  let c := if negb (bool_decide (evict = [])) && negb (relay_finalize_capable (entry_of_hello h))
           then set_lc_setup (with_registry (lc_setup c) (mark_draining (registry (lc_setup c)) id gen).2) c else c in
  Some (gen, evict, evidence, c).

Definition disconnect_relay (c : Lifecycle) (relay gen : Z) : Lifecycle :=
  match remove_if_current (registry (lc_setup c)) relay gen with
  | (true, g) => apply_relay_disconnected tun (set_lc_setup (with_registry (lc_setup c) g) c) relay gen
  | (false, _) => c
  end.

(** ** Notices *)

Inductive SessionNotice : Type :=
| Departure (k : string * Z) (slot : Z) (kind : DepartureKind) (count : option Z) (finalized : bool) (ext : option string)
| Desync (k : string * Z) (ordinal : Z) (ext : option string)
| ResultN (k : string * Z) (slot : Z) (ext : option string)
| SlotConnected (k : string * Z) (slot : Z) (ext : option string)
| SessionStarted (k : string * Z) (at_ms : Z) (ext : option string)
| SlotStarted (k : string * Z) (slot : Z) (ext : option string)
| LobbyViolation (k : string * Z) (slot : Z).

Definition notice_session (n : SessionNotice) : string * Z :=
  match n with
  | Departure k _ _ _ _ _ | Desync k _ _ | ResultN k _ _ | SlotConnected k _ _ | SessionStarted k _ _ | SlotStarted k _ _ | LobbyViolation k _ => k
  end.
Definition notice_kind (n : SessionNotice) : NoticeKind :=
  match n with
  | Departure _ _ _ _ _ _ => NDeparture | Desync _ _ _ => NDesync | ResultN _ _ _ => NResult | SlotConnected _ _ _ => NSlotConnected
  | SessionStarted _ _ _ => NSessionStarted | SlotStarted _ _ _ => NSlotStarted | LobbyViolation _ _ => NLobbyViolation
  end.
Definition notice_key (n : SessionNotice) : Z :=
  match n with
  | Departure _ slot _ _ _ _ | ResultN _ slot _ | SlotConnected _ slot _ | SlotStarted _ slot _ | LobbyViolation _ slot => slot
  | Desync _ ordinal _ => ordinal
  | SessionStarted _ _ _ => 0
  end.
Definition notice_external_id (n : SessionNotice) : option string :=
  match n with
  | Departure _ _ _ _ _ x | Desync _ _ x | ResultN _ _ x | SlotConnected _ _ x | SessionStarted _ _ x | SlotStarted _ _ x => x
  | LobbyViolation _ _ => None
  end.

(** The tenant takes webhooks and the game can be named. *)
Definition resolve_notice_prefix (c : Lifecycle) (n : SessionNotice) : option string :=
  let k := notice_session n in
  if bool_decide (k.1 ∈ notify_tenants c)
  then match notice_external_id n with Some x => Some x | None => session_refs (lc_setup c) !! k ≫= external_id end
  else None.

Definition mark_session_desynced (c : Lifecycle) (k : string * Z) : Lifecycle :=
  set_desync_marks (<[k := instant_now c]> (filter (fun p => since (instant_now c) p.2 < DESYNC_MARK_TTL) (desync_marks c))) c.

(** The [handle_*] functions: claim the dedup entry, resolve, enqueue. *)
Definition handle_notice (c : Lifecycle) (n : SessionNotice) : Lifecycle :=
  let k := notice_session n in
  let claim := (notice_kind n, k, notice_key n) in
  let c := match n with Desync _ _ _ => mark_session_desynced c k | _ => c end in
  let is_new := bool_decide (claim ∉ lc_notices c) in
  let c := set_lc_notices ({[claim]} ∪ lc_notices c) c in
  let c := match n with Desync _ _ _ => if is_new then ensure_orphan_tracked tun c k else c | _ => c end in
  if is_new
  then match resolve_notice_prefix c n with
       | Some x => enqueue_webhook tun c k (mkWebhookJob k (notice_kind n) (notice_key n) (Some x))
       | None => c
       end
  else c.

(** The accounting of a notice, before its webhook. *)
Definition record_notice (c : Lifecycle) (n : SessionNotice) : Lifecycle :=
  match n with
  | Departure k slot kind count finalized _ => refresh_departed (on_departure tun c k slot kind count finalized) k
  | Desync _ _ _ | LobbyViolation _ _ => c
  | ResultN k slot _ => on_result tun c k slot
  | SlotConnected k slot _ => on_slot_connected tun c k slot
  | SessionStarted k at_ms _ => on_session_started tun c k at_ms
  | SlotStarted k slot _ => on_slot_started tun c k slot
  end.

Definition notice_allowed (c : Lifecycle) (relay : Z) (n : SessionNotice) : bool :=
  relay_serves_session (lc_setup c) relay (notice_session n) &&
  match n with LobbyViolation k slot => relay_homes_slot (lc_setup c) relay k slot | _ => true end.

Definition ingest_notice (c : Lifecycle) (relay : Z) (n : SessionNotice) : Lifecycle :=
  if notice_allowed c relay n then handle_notice (record_notice c n) n else c.

(** ** Restarts *)

Record LifecycleFacts : Type := mkLifecycleFacts {
  lf_started : bool;
  lf_started_at_ms : option Z;
  lf_attestable : bool;
  lf_accounted : list Z;
  lf_connected : list Z;
  lf_started_slots : list Z;
  lf_forwarded : list Z;
  lf_violations : list Z;
  lf_departures : list (Z * DepartureSeed);
}.

Definition sorted_slots (s : gset Z) : list Z := merge_sort Z.le (elements s).

Definition facts_of (st : SessionState) : LifecycleFacts :=
  mkLifecycleFacts (ss_started st) (started_at_ms st) (attestable st) (sorted_slots (accounted st)) (sorted_slots (connected_slots st)) (sorted_slots (started_slots st))
    (sorted_slots (forwarded_slots st)) (sorted_slots (lobby_violation_slots st)) (btree_list (ss_departures st)).
Definition export_facts (c : Lifecycle) : gmap (string * Z) LifecycleFacts :=
  omap (fun st => if created_here st && negb (bool_decide (ss_serving st = [])) then Some (facts_of st) else None) (lc_sessions c).

Definition restore_facts (f : LifecycleFacts) (st : SessionState) : SessionState :=
  let st := set_started_at_ms (lf_started_at_ms f) (set_attestable (lf_attestable f) st) in
  let st := set_connected_slots (list_to_set (lf_connected f) ∪ connected_slots st) (set_accounted (list_to_set (lf_accounted f) ∪ accounted st) st) in
  let st := set_forwarded_slots (list_to_set (lf_forwarded f) ∪ forwarded_slots st) (set_started_slots (list_to_set (lf_started_slots f) ∪ started_slots st) st) in
  let st := set_lobby_violation_slots (list_to_set (lf_violations f) ∪ lobby_violation_slots st) st in
  set_ss_departures (foldl (fun m p => <[p.1 := p.2]> m) (ss_departures st) (lf_departures f)) st.

Definition restore_session (c : Lifecycle) (k : string * Z) (serving : list Z) (players observers : gset Z) (f : LifecycleFacts) : Lifecycle :=
  let c := register_session tun c k serving players observers in
  on_state c k (fun st rt =>
    let '(st, rt) := if lf_started f then mark_started (restore_facts f st) rt else (restore_facts f st, rt) in
    reevaluate_reaps tun k (instant_now c) st rt).

(** ** Everything that happens *)

Inductive LOp : Type :=
| LCreate (rq : SessionRequest) (expires_at : Z) (hold : option Z) (unix : Z)
| LPrepareRehome (k : string * Z)
| LRehome (k : string * Z) (dead : Z)
| LEvictCohort (k : string * Z) (relay : Z) (departed : list DepartedSlot)
| LEvictEvidence (k : string * Z) (relay : Z)
| LEnroll (h : RelayHello) (boot : option Z)
| LDisconnect (relay gen : Z)
| LDrain (relay gen : Z) (v : bool)
| LRecord (n : SessionNotice)
| LHandle (n : SessionNotice)
| LRefresh (k : string * Z)
| LBeat (relay gen : Z) (roster : list SessionPresence) (complete : bool)
| LForwarded (p : SessionPresence)
| LViolation (k : string * Z) (slot : Z)
| LClosed (k : string * Z) (relay gen : Z)
| LSettle (k : string * Z) (expect : list Z) (still_current : bool)
| LSubscribe (relay : Z)
| LPairs (p : PairRttStore)
| LTick (d : Z) (wall : Z)
| LWake (id : Z)
| LFire (id : Z)
| LSendClose
| LRecv (q : Z)
| LDone (q : Z)
| LWaiting (q : Z).

Definition on_setup (f : SessionSetup -> SessionSetup) (c : Lifecycle) : Lifecycle := set_lc_setup (f (lc_setup c)) c.
Definition on_rt (f : Runtime -> Runtime) (c : Lifecycle) : Lifecycle := set_lc_rt (f (lc_rt c)) c.

Definition lc_step (c : Lifecycle) (o : LOp) : option Lifecycle :=
  match o with
  | LCreate rq expires hold unix => snd <$> create_session c rq expires hold unix
  | LPrepareRehome k => Some (prepare_rehome c k)
  | LRehome k dead => Some (rehome_session c k dead).2
  | LEvictCohort k relay departed => Some (evict_cohort c k relay departed)
  | LEvictEvidence k relay => Some (evict_evidence_session c k relay)
  | LEnroll h boot => Some (default c (snd <$> enroll_relay c h boot))
  | LDisconnect relay gen => Some (disconnect_relay c relay gen)
  | LDrain relay gen v => Some (on_setup (fun s => with_registry s (put_draining (registry s) relay gen v).2) c)
  | LRecord n => Some (record_notice c n)
  | LHandle n => Some (handle_notice c n)
  | LRefresh k => Some (refresh_departed c k)
  | LBeat relay gen roster complete => Some (on_relay_heartbeat tun c relay gen roster complete)
  | LForwarded p => Some (merge_turn_evidence tun c p)
  | LViolation k slot => Some (on_lobby_violation tun c k slot)
  | LClosed k relay gen => Some (on_session_closed tun c k relay gen)
  | LSettle k expect cur => Some (on_setup (fun s => (settle_lobby s k expect cur).2) c)
  | LSubscribe relay => Some (on_setup (fun s => with_reaps s (subscribe (reaps s) relay)) c)
  | LPairs p => Some (on_setup (fun s => with_pairs s p) c)
  | LTick d wall => Some (on_setup (fun s => with_clocks s wall (instant_ns s + d)) c)
  | LWake id => Some (wake c id)
  | LFire id => Some (fire tun c id)
  | LSendClose => Some (send_next_close c)
  | LRecv q => Some (on_rt (drain_recv q) c)
  | LDone q => Some (on_rt (drain_done q) c)
  | LWaiting q => Some (on_rt (waiting_send q) c)
  end.

Fixpoint lc_run (c : Lifecycle) (ops : list LOp) : option Lifecycle :=
  match ops with [] => Some c | o :: ops => c' ← lc_step c o; lc_run c' ops end.

End handlers.
