(* ===== verification/LifecycleInv.v ===== *)
(** * The lifecycle follows the setup

    Each handler's effect on the setup is a sequence of setup operations, so the
    setup's invariant holds throughout; and the serving set the lifecycle caches
    for a session is the setup's. *)

From Stdlib Require Import ZArith Lia.
From stdpp Require Import gmap sorting list strings.
From S2P Require Import Prelude.
From S2P Require Import BTree.
From S2P Require Import Registry.
From S2P Require Import PairRtts.
From S2P Require Import Placement.
From S2P Require Import PlacementSound.
From S2P Require Import Outbox.
From S2P Require Import EvidenceHistory.
From S2P Require Import Setup.
From S2P Require Import SetupInv.
From S2P Require Import SetupRun.
From S2P Require Import Lifecycle.
From S2P Require Import LifecycleOps.

Open Scope Z_scope.

(** ** Updates that leave a session's identity and the queues alone *)

Definition core (st : SessionState) : list Z * bool * Z := (ss_serving st, created_here st, ss_queue st).

Lemma core_fields st st' : core st = core st' -> ss_serving st = ss_serving st' /\ created_here st = created_here st'.
Proof. unfold core. intros [= H1 H2 _]. done. Qed.
Lemma core_queue st st' : core st = core st' -> ss_queue st = ss_queue st'.
Proof. unfold core. by intros [= _ _ H]. Qed.

Definition rt_quiet (rt rt' : Runtime) : Prop :=
  rt_queues rt' = rt_queues rt /\ rt_next rt <= rt_next rt' /\ pending_webhooks rt' = pending_webhooks rt /\ dropped_notices rt' = dropped_notices rt.

Definition quiet_at (st : SessionState) (rt : Runtime) (p : SessionState * Runtime) : Prop := core p.1 = core st /\ rt_quiet rt p.2.
Definition quiet (f : SessionState -> Runtime -> SessionState * Runtime) : Prop := forall st rt, quiet_at st rt (f st rt).

Lemma rt_quiet_refl rt : rt_quiet rt rt.
Proof. split; [done|]. split; [lia|done]. Qed.

Lemma rt_quiet_trans rt1 rt2 rt3 : rt_quiet rt1 rt2 -> rt_quiet rt2 rt3 -> rt_quiet rt1 rt3.
Proof. intros (A1 & A2 & A3 & A4) (B1 & B2 & B3 & B4). split; [congruence|]. split; [lia|]. split; congruence. Qed.

Lemma abort_quiet id rt : rt_quiet rt (abort id rt).
Proof. unfold abort. destruct (rt_tasks rt !! id) as [t|]; [destruct (task_awake t)|]; try apply rt_quiet_refl. split; [done|]. split; [cbn; lia|done]. Qed.

Lemma abort_opt_quiet h rt : rt_quiet rt (abort_opt h rt).
Proof. destruct h; [apply abort_quiet|apply rt_quiet_refl]. Qed.

Lemma spawn_quiet kind due rt : rt_quiet rt (spawn kind due rt).2.
Proof. split; [done|]. split; [cbn; lia|done]. Qed.

(** Follow a chain of updates. *)
Lemma quiet_seq st0 rt0 st rt p : core st = core st0 -> rt_quiet rt0 rt -> quiet_at st rt p -> quiet_at st0 rt0 p.
Proof. intros E1 E2 [E3 E4]. split; [congruence|by eapply rt_quiet_trans]. Qed.

Lemma quiet_bind st rt (p : SessionState * Runtime) (f : SessionState -> Runtime -> SessionState * Runtime) :
  quiet_at st rt p -> quiet f -> quiet_at st rt (let '(st, rt) := p in f st rt).
Proof. destruct p as [st1 rt1]. intros [E1 E2] Hf. by eapply quiet_seq. Qed.

Lemma mark_started_quiet : quiet mark_started.
Proof. intros st rt. split; [done|]. apply abort_opt_quiet. Qed.
Lemma invalidate_quiet : quiet invalidate_empty_timer.
Proof. intros st rt. split; [done|]. apply abort_opt_quiet. Qed.
Lemma reset_quiet : quiet reset_empty_evidence.
Proof. intros st rt. eapply (quiet_seq st rt (set_empty_relays ∅ st) rt); [done|apply rt_quiet_refl|apply invalidate_quiet]. Qed.

Lemma abort_timers_quiet st rt : rt_quiet rt (abort_timers st rt).
Proof. unfold abort_timers. do 4 (eapply rt_quiet_trans; [|apply abort_opt_quiet]). apply abort_opt_quiet. Qed.

Section policies.
Context (tun : LifecycleTunables).

Lemma arm_webhook_quiet k now : quiet (arm_webhook_reap_if_orphan tun k now).
Proof.
  intros st rt. unfold arm_webhook_reap_if_orphan. destruct (negb _); [split; [done|apply rt_quiet_refl]|]. split; [done|]. eapply rt_quiet_trans; [apply abort_opt_quiet|apply spawn_quiet].
Qed.

Lemma reevaluate_holdout_quiet k now : quiet (reevaluate_holdout tun k now).
Proof.
  intros st rt. unfold reevaluate_holdout.
  destruct (unaccounted_players st) as [|x [|]]; [split; [done|apply abort_opt_quiet]| |split; [done|apply abort_opt_quiet]].
  destruct (_ <=? _); [|split; [done|apply abort_opt_quiet]]. destruct (holdout_timer st); [split; [done|apply rt_quiet_refl]|split; [done|apply spawn_quiet]].
Qed.

Lemma reevaluate_linger_quiet k now : quiet (reevaluate_linger tun k now).
Proof.
  intros st rt. unfold reevaluate_linger. destruct (_ && _ && _); [|split; [done|apply abort_opt_quiet]].
  destruct (linger_timer st); [split; [done|apply rt_quiet_refl]|split; [done|apply spawn_quiet]].
Qed.

Lemma reevaluate_reaps_quiet k now : quiet (reevaluate_reaps tun k now).
Proof. intros st rt. apply quiet_bind; [apply reevaluate_holdout_quiet|apply reevaluate_linger_quiet]. Qed.

Lemma reevaluate_empty_quiet k now : quiet (reevaluate_empty_reap tun k now).
Proof.
  intros st rt. unfold reevaluate_empty_reap. destruct (_ && _ && _); [|apply invalidate_quiet].
  destruct (empty_timer st); [split; [done|apply rt_quiet_refl]|]. split; [done|]. eapply rt_quiet_trans; [|apply spawn_quiet]. split; [done|]. split; [cbn; lia|done].
Qed.

Lemma reopen_quiet relay gen k now : quiet (reopen tun relay gen k now).
Proof.
  intros st rt. unfold reopen. destruct (_ || _); [|split; [done|apply rt_quiet_refl]]. apply quiet_bind; [|apply reevaluate_empty_quiet].
  eapply quiet_seq; [| |apply invalidate_quiet]; [done|apply rt_quiet_refl].
Qed.

Lemma close_quiet relay gen k now : quiet (close_state tun relay gen k now).
Proof.
  intros st rt. unfold close_state. apply quiet_bind; [|apply reevaluate_empty_quiet]. eapply quiet_seq; [| |apply invalidate_quiet]; [done|apply rt_quiet_refl].
Qed.

Lemma lapse_quiet relay gen k now : quiet (lapse tun relay gen k now).
Proof.
  intros st rt. unfold lapse. destruct (match empty_relays st !! relay with Some e => _ | None => _ end); [|split; [done|apply rt_quiet_refl]].
  apply quiet_bind; [|apply reevaluate_empty_quiet]. eapply quiet_seq; [| |apply invalidate_quiet]; [done|apply rt_quiet_refl].
Qed.

Lemma beat_quiet relay gen occ complete k now : quiet (beat_state tun relay gen occ complete k now).
Proof.
  intros st rt. unfold beat_state. destruct (negb _); [split; [done|apply rt_quiet_refl]|].
  assert (H : forall b p, quiet_at st rt p -> quiet_at st rt (let '(st, rt) := if (b : bool) then invalidate_empty_timer p.1 p.2 else p in reevaluate_empty_reap tun k now st rt)).
  { intros b p Hp. apply quiet_bind; [|apply reevaluate_empty_quiet]. destruct b; [|done]. destruct Hp. by eapply quiet_seq; [| |apply invalidate_quiet]. }
  destruct occ; [|destruct complete].
  - set (p := mark_started _ rt). assert (Hp : quiet_at st rt p) by (eapply quiet_seq; [| |apply mark_started_quiet]; [done|apply rt_quiet_refl]). clearbody p.
    destruct p as [st1 rt1]. by apply (H _ (st1, rt1)).
  - apply (H _ (set_empty_relays _ st, rt)). split; [done|apply rt_quiet_refl].
  - apply (H _ (set_empty_relays _ st, rt)). split; [done|apply rt_quiet_refl].
Qed.

Lemma drop_webhook_quiet : quiet drop_webhook_timer.
Proof. intros st rt. unfold drop_webhook_timer. destruct (negb _); (split; [done|]); [apply abort_opt_quiet|apply rt_quiet_refl]. Qed.

Lemma rearm_quiet k now : quiet (rearm_never_started tun k now).
Proof.
  intros st rt. unfold rearm_never_started. destruct (ss_started st); (split; [done|]); [apply abort_opt_quiet|]. eapply rt_quiet_trans; [apply abort_opt_quiet|apply spawn_quiet].
Qed.

(** What follows a registration's own fields. *)
Lemma register_tail_quiet k now : quiet (fun st rt => let '(st, rt) := drop_webhook_timer st rt in let '(st, rt) := rearm_never_started tun k now st rt in reset_empty_evidence st rt).
Proof.
  intros st rt. apply (quiet_bind st rt (drop_webhook_timer st rt)); [apply drop_webhook_quiet|]. intros st1 rt1. apply (quiet_bind st1 rt1 (rearm_never_started tun k now st1 rt1)); [apply rearm_quiet|apply reset_quiet].
Qed.

Lemma note_accounted_core slot st : core (note_accounted slot st) = core st.
Proof. unfold note_accounted. by destruct (bool_decide _). Qed.

End policies.

(** ** Lifecycle updates and what they leave alone *)

Lemma put_state_setup c k p : lc_setup (put_state c k p) = lc_setup c.
Proof. done. Qed.

Section frames.
Context {sha : Sha256} {mint : MintToken}.
Context (tun : LifecycleTunables).

Lemma on_entry_setup c k f : lc_setup (on_entry tun c k f) = lc_setup c.
Proof. unfold on_entry. by destruct (match lc_sessions c !! k with Some st => _ | None => _ end). Qed.
Lemma on_state_setup c k f : lc_setup (on_state c k f) = lc_setup c.
Proof. unfold on_state. by destruct (lc_sessions c !! k). Qed.
Lemma each_session_setup c f : lc_setup (each_session c f) = lc_setup c.
Proof.
  unfold each_session. generalize (map_to_list (lc_sessions c)) as l. intros l. revert c. induction l as [|p l IH]; intros c; cbn [foldl]; [done|]. by rewrite IH, on_state_setup.
Qed.
Lemma heartbeat_setup c relay gen roster complete : lc_setup (on_relay_heartbeat tun c relay gen roster complete) = lc_setup c.
Proof.
  unfold on_relay_heartbeat. destruct (negb _); [done|]. generalize (current_keys_for (descriptors (lc_setup c)) relay) as l. intros l.
  revert c. induction l as [|p l IH]; intros c; cbn [foldl]; [done|]. by rewrite IH, on_state_setup.
Qed.
Lemma enrolled_setup c relay gen : lc_setup (apply_relay_enrolled tun c relay gen) = lc_setup c.
Proof. unfold apply_relay_enrolled. destruct (match relay_epochs c !! relay with Some e => _ | None => _ end); [done|]. by rewrite each_session_setup. Qed.
Lemma disconnected_setup c relay gen : lc_setup (apply_relay_disconnected tun c relay gen) = lc_setup c.
Proof. unfold apply_relay_disconnected. destruct (relay_epochs c !! relay); [|done]. destruct (_ || _); [done|]. by rewrite each_session_setup. Qed.
Lemma on_rehome_setup c k dead r_new : lc_setup (on_rehome c k dead r_new) = lc_setup c.
Proof. apply on_state_setup. Qed.

Lemma remove_and_close_setup c k st : lc_setup (remove_and_close c k st) = retire_session (lc_setup c) k.
Proof. done. Qed.

Lemma close_and_retire_setup c k st : lc_setup (close_and_retire c k st) = retire_session (lc_setup c) k.
Proof. reflexivity. Qed.

Lemma finish_setup c k : lc_setup (finish_if_all_closed c k) = lc_setup c \/ lc_setup (finish_if_all_closed c k) = retire_session (lc_setup c) k.
Proof. unfold finish_if_all_closed. destruct (lc_sessions c !! k); [|by left]. destruct (_ || _); [by left|right]. apply remove_and_close_setup. Qed.

Lemma fire_setup c id : lc_setup (fire tun c id) = lc_setup c \/ exists k, lc_setup (fire tun c id) = retire_session (lc_setup c) k.
Proof.
  unfold fire. destruct (rt_tasks (lc_rt c) !! id) as [t|]; [|by left]. destruct (task_awake t); [|by left]. set (c1 := set_lc_rt _ c).
  change (lc_setup c) with (lc_setup c1). clearbody c1. destruct (task_kind t) as [k slot|k|k|k|k token].
  - left. unfold fire_holdout. destruct (lc_sessions c1 !! k); [|done]. by destruct (bool_decide _).
  - left. unfold fire_linger. destruct (lc_sessions c1 !! k); [|done]. destruct (_ || _); [done|]. by destruct (filter _ _).
  - unfold fire_webhook_reap. destruct (lc_sessions c1 !! k); [|by left]. destruct (negb _); [by left|]. right. by exists k.
  - unfold fire_never_started. destruct (lc_sessions c1 !! k) as [st|]; [|by left]. destruct (ss_started _); [by left|]. right. by exists k.
  - unfold fire_empty_session. destruct (lc_sessions c1 !! k) as [st|]; [|by left]. destruct (bool_decide _); [|by left]. destruct (_ || _ || _ || _); [by left|]. right. by exists k.
Qed.

Lemma rehome_session_setup c k dead : exists dep, lc_setup (rehome_session c k dead).2 = (rehome_inner (lc_setup c) k dead true dep).2 /\
  (rehome_session c k dead).1 = (rehome_inner (lc_setup c) k dead true dep).1.
Proof.
  unfold rehome_session, rehome_inner. destruct (rehome_pick (lc_setup c) k dead true) as [o|r_new e revs]; [by exists []|].
  destruct (rehome_commit (lc_setup c) k dead r_new e revs) as [s|]; [|by exists []]. eexists (departed_slots (on_rehome (set_lc_setup s c) k dead r_new) k). by rewrite on_rehome_setup.
Qed.

Definition lop_ok (o : LOp) : Prop := match o with LPairs p => pairs_unsigned p | LTick d _ => 0 <= d | _ => True end.

(** A step of the coordinator is at most four of its setup. *)
Lemma lc_step_setup c o c' : lop_ok o -> lc_step tun c o = Some c' ->
  exists sops, setup_run (lc_setup c) sops = Some (lc_setup c') /\ (length sops <= 4)%nat /\ Forall setup_op_ok sops.
Proof.
  intros Ho. assert (Hnone : forall c1, lc_setup c1 = lc_setup c -> exists sops, setup_run (lc_setup c) sops = Some (lc_setup c1) /\ (length sops <= 4)%nat /\ Forall setup_op_ok sops).
  { intros c1 E. exists []. cbn. rewrite E. split; [done|]. split; [lia|constructor]. }
  assert (Hone : forall c1 x, setup_step (lc_setup c) x = Some (lc_setup c1) -> setup_op_ok x -> exists sops, setup_run (lc_setup c) sops = Some (lc_setup c1) /\ (length sops <= 4)%nat /\ Forall setup_op_ok sops).
  { intros c1 x E Hx. exists [x]. cbn. rewrite E. split; [done|]. split; [lia|by constructor]. }
  destruct o as [rq expires hold unix|k|k dead|k relay dep|k relay|h boot|relay gen|relay gen v|n|n|k|relay gen roster complete|p|k slot|k relay gen|k expect cur|relay|p|d wall|id|id| |q|q|q]; cbn [lc_step].
  - unfold create_session. destruct (create_body _ _ _ _ _) as [[r s]|] eqn:E; cbn [mbind option_bind fmap option_fmap option_map snd]; [|done]. intros [= <-].
    eapply (Hone _ (SCreate rq expires hold unix)); [|done]. cbn. rewrite E. cbn. f_equal. destruct r as [[response ids []|]|]; try done. unfold register_session. by rewrite on_entry_setup.
  - intros [= <-]. apply Hnone, on_state_setup.
  - intros [= <-]. destruct (rehome_session_setup c k dead) as (dep & E & _). eapply (Hone _ (SRehome k dead true dep)); [cbn; by rewrite E|done].
  - intros [= <-]. by eapply (Hone _ (SRehome k relay false dep)).
  - intros [= <-]. unfold evict_evidence_session. destruct (rehome_session_setup c k relay) as (dep & E & E'). destruct (rehome_session c k relay) as [o1 c1]. cbn in E, E'.
    assert (Hr : setup_step (lc_setup c) (SRehome k relay true dep) = Some (lc_setup c1)) by (cbn; by rewrite E).
    destruct o1; [by eapply Hone| |by eapply Hone]. unfold retire_unsupported. destruct (_ && _ && _); [|by eapply Hone].
    exists [SRehome k relay true dep; SRetire k]. cbn [setup_run]. rewrite Hr. cbn [mbind option_bind setup_step]. split; [|split; [cbn; lia|by repeat constructor]].
    f_equal. destruct (lc_sessions c1 !! k); [by rewrite remove_and_close_setup|]. destruct (new_state _ _ (lc_rt c1)) as [st rt]. by rewrite close_and_retire_setup.
  - intros [= <-]. unfold enroll_relay. destruct (try_enroll (registry (lc_setup c)) h) as [[gen g]|] eqn:E; cbn [mbind option_bind fmap option_fmap option_map snd default]; [|by apply Hnone].
    set (c1 := apply_relay_enrolled tun _ _ gen). assert (E1 : lc_setup c1 = with_registry (lc_setup c) g) by apply enrolled_setup. clearbody c1.
    destruct (note_boot_id (registry (lc_setup c1)) (hello_id h) boot) as [lin g2] eqn:Eb. set (c2 := set_lc_setup (with_registry _ g2) c1).
    set (c3 := match lin with Continuous => _ | Broken => _ end). assert (E3 : lc_setup c3 = with_registry (lc_setup c1) g2) by (by destruct lin). clearbody c3. clear c2.
    assert (Hpre : forall rest s', setup_run (restage_periodic (lc_setup c3) (hello_id h)) rest = Some s' ->
      setup_run (lc_setup c) ([SRegistry (RTryEnroll h); SRegistry (RBoot (hello_id h) boot); SRestage (hello_id h)] ++ rest) = Some s').
    { intros rest s' Hr. cbn [setup_run app setup_step reg_step]. rewrite E. cbn [fmap option_fmap option_map snd default mbind option_bind setup_step reg_step]. change (id g) with g. rewrite <- E1, Eb. cbn [snd mbind option_bind setup_step]. by rewrite <- E3. }
    match goal with |- context [if ?b then _ else _] => destruct b end.
    + exists ([SRegistry (RTryEnroll h); SRegistry (RBoot (hello_id h) boot); SRestage (hello_id h)] ++ [SRegistry (RDrain (hello_id h) gen)]). split; [by apply Hpre|]. split; [cbn; lia|by repeat constructor].
    + exists ([SRegistry (RTryEnroll h); SRegistry (RBoot (hello_id h) boot); SRestage (hello_id h)] ++ []). split; [by apply Hpre|]. split; [cbn; lia|by repeat constructor].
  - intros [= <-]. unfold disconnect_relay. destruct (remove_if_current (registry (lc_setup c)) relay gen) as [b g] eqn:E. destruct b; [|by apply Hnone].
    eapply (Hone _ (SRegistry (RRemoveCurrent relay gen))); [|done]. cbn. rewrite E. by rewrite disconnected_setup.
  - intros [= <-]. destruct v; [by eapply (Hone _ (SRegistry (RDrain relay gen)))|by eapply (Hone _ (SRegistry (RUndrain relay gen)))].
  - intros [= <-]. destruct n as [k slot kind count fin x|k ord x|k slot x|k slot x|k t x|k slot x|k slot]; cbn [record_notice]; try (apply Hnone; first [done|apply on_entry_setup]).
    set (c1 := on_departure _ _ _ _ _ _ _). assert (E1 : lc_setup c1 = lc_setup c) by apply on_entry_setup. clearbody c1.
    eapply (Hone _ (SRefresh k (departed_slots c1 k))); [|done]. cbn. by rewrite E1.
  - intros [= <-]. apply Hnone. unfold handle_notice. set (c1 := match n with Departure _ _ _ _ _ _ => c | _ => _ end). assert (E1 : lc_setup c1 = lc_setup c) by (unfold c1; by destruct n).
    set (c2 := set_lc_notices _ c1). set (c3 := match n with Departure _ _ _ _ _ _ => c2 | _ => _ end).
    assert (E3 : lc_setup c3 = lc_setup c) by (rewrite <- E1; unfold c3; destruct n; try done; destruct (bool_decide _); [unfold ensure_orphan_tracked; by rewrite on_entry_setup|done]).
    destruct (bool_decide _); [|done]. destruct (resolve_notice_prefix c3 n); [|done]. unfold enqueue_webhook. by rewrite on_entry_setup.
  - intros [= <-]. by eapply (Hone _ (SRefresh k (departed_slots c k))).
  - intros [= <-]. apply Hnone, heartbeat_setup.
  - intros [= <-]. apply Hnone. unfold merge_turn_evidence. destruct (sp_forwarded p); [done|apply on_entry_setup].
  - intros [= <-]. apply Hnone, on_entry_setup.
  - intros [= <-]. unfold on_session_closed. destruct (negb _); [by apply Hnone|]. destruct (negb _); [by apply Hnone|]. destruct (lc_sessions c !! k) as [st|]; [|by apply Hnone]. destruct (negb _); [by apply Hnone|].
    match goal with |- context [finish_if_all_closed ?x k] => destruct (finish_setup x k) as [E|E] end.
    + by apply Hnone.
    + eapply (Hone _ (SRetire k)); [|done]. cbn [setup_step]. by rewrite E.
  - intros [= <-]. by eapply (Hone _ (SSettle k expect cur)).
  - intros [= <-]. by eapply (Hone _ (SReap (OSubscribe relay))).
  - intros [= <-]. by eapply (Hone _ (SPairs p)).
  - intros [= <-]. by eapply (Hone _ (SClock wall (instant_ns (lc_setup c) + d))).
  - intros [= <-]. apply Hnone. unfold wake. destruct (rt_tasks (lc_rt c) !! id); [|done]. by destruct (_ <=? _).
  - intros [= <-]. destruct (fire_setup c id) as [E|(k & E)]; [by apply Hnone|]. eapply (Hone _ (SRetire k)); [|done]. cbn [setup_step]. by rewrite E.
  - intros [= <-]. unfold send_next_close. destruct (lc_closes c) as [|[relay close] rest] eqn:E; [by apply Hnone|]. by eapply (Hone _ (SReap (OSend relay close))).
  - intros [= <-]. by apply Hnone.
  - intros [= <-]. by apply Hnone.
  - intros [= <-]. by apply Hnone.
Qed.

End frames.

(** ** The setup's invariant along a run *)

Section run.
Context {sha : Sha256} {mint : MintToken}.
Context (tun : LifecycleTunables).
Context (signing : forall t n sl pk ex, is_Some (mint_token t n sl pk ex)).

Lemma setup_run_growth ops : forall s s', run_ok s -> next_session s + Z.of_nat (length ops) < u64_max -> next_generation (registry s) + Z.of_nat (length ops) < u64_max ->
  Forall setup_op_ok ops -> setup_run s ops = Some s' ->
  run_ok s' /\ next_session s' <= next_session s + Z.of_nat (length ops) /\ next_generation (registry s') <= next_generation (registry s) + Z.of_nat (length ops).
Proof.
  induction ops as [|o ops IH]; intros s s' Hr Hn Hg Ho; cbn [setup_run length] in *; [intros [= <-]; split; [done|lia]|]. apply Forall_cons in Ho as [Ho1 Ho2].
  destruct (setup_step_ok s o Hr ltac:(lia) ltac:(lia) Ho1 signing) as (s1 & E1 & H1 & H2 & H3). rewrite E1. cbn [mbind option_bind]. intros E.
  destruct (IH s1 s' H1 ltac:(lia) ltac:(lia) Ho2 E) as (K1 & K2 & K3). split; [done|lia].
Qed.

(** Room for [n] more steps before an id counter wraps. *)
Definition room (c : Lifecycle) (n : Z) : Prop :=
  next_session (lc_setup c) + 4 * n < u64_max /\ next_generation (registry (lc_setup c)) + 4 * n < u64_max.

Lemma lc_step_total c o n : run_ok (lc_setup c) -> room c (n + 1) -> 0 <= n -> lop_ok o ->
  exists c', lc_step tun c o = Some c' /\ run_ok (lc_setup c') /\ room c' n.
Proof.
  intros Hr [Hn Hg] H0 Ho. assert (Hex : exists c', lc_step tun c o = Some c').
  { destruct o; try by eexists. cbn [lc_step]. unfold create_session.
    destruct (create_body_ok (lc_setup c) rq expires_at hold unix Hr ltac:(lia) signing) as (x & s' & -> & _). cbn. by eexists. }
  destruct Hex as [c' E]. exists c'. split; [done|]. destruct (lc_step_setup tun c o c' Ho E) as (sops & Es & Hl & Hf).
  destruct (setup_run_growth sops (lc_setup c) (lc_setup c')) as (K1 & K2 & K3); [done|lia|lia|done|done|]. split; [done|]. split; lia.
Qed.

(** A create's effect on the membership. *)
Lemma create_relays s rq expires hold unix o s' : run_ok s -> next_session s < u64_max -> create_body s rq expires hold unix = Some (o, s') ->
  match o with
  | Ok (Created response ids false) => session_relays s' = <[(rq_tenant rq, rs_session response) := ids]> (session_relays s) /\ ids <> []
  | _ => session_relays s' = session_relays s
  end.
Proof.
  intros Hr Hn. unfold create_body. destruct (cached_create s rq); [intros [= <- <-]; by destruct (decide _)|]. destruct (validate_request rq) as [[]|] eqn:Ev; [|by intros [= <- <-]].
  destruct (match session_ceiling s with Some c => c <=? live_session_count s | None => false end); [by intros [= <- <-]|].
  pose proof (hold_core s rq hold unix) as Hh. destruct (hold_until_ready s rq hold unix) as [held s1]. destruct Hh as ((E1 & E2 & E3 & E4 & E5 & E6 & E7 & E8) & _).
  destruct held; [intros [= <- <-]; by rewrite E3|]. destruct (place_by_region _ _ _ _ _) as [[p|e]|] eqn:Ep; cbn [mbind option_bind]; [|intros [= <- <-]; by rewrite E3|done].
  destruct (tenants s1 !! rq_tenant rq) as [b|]; [|intros [= <- <-]; by rewrite E3]. intros [= E]. unfold commit_create in E. destruct (validate_request_spec rq Ev) as [Hp Hnd].
  assert (Hids : relay_ids p <> []).
  { pose proof (rk_setup _ Hr) as Hok. refine (mo_nonempty _ _ (placed_members _ _ _ _ _ p s _ Hp Hnd _ Ep)); [rewrite E1; apply Hok|rewrite E7; apply Hok]. }
  destruct (mapM_Some_intro (fun q => t ← mint_token (rq_tenant rq) (next_session s1) (pl_slot q) (client_pubkey q) expires; Some (pl_slot q, t)) (players rq)) as [toks Et].
  { intros q _. destruct (signing (rq_tenant rq) (next_session s1) (pl_slot q) (client_pubkey q) expires) as [t ->]. by eexists. }
  unfold mint_all in E. rewrite Et in E. injection E as <- <-. cbn [rs_session]. split; [|done]. rewrite <- E3. by destruct (rq_external_id rq).
Qed.

(** ** The cached serving sets *)

Record tracks (c : Lifecycle) : Prop := mkTracks {
  tr_live : forall k l, session_relays (lc_setup c) !! k = Some l -> exists st, lc_sessions c !! k = Some st /\ ss_serving st = l /\ created_here st = true;
  tr_cached : forall k st, lc_sessions c !! k = Some st -> ss_serving st <> [] -> session_relays (lc_setup c) !! k = Some (ss_serving st);
}.

Lemma tracks_ext c c' : session_relays (lc_setup c') = session_relays (lc_setup c) -> lc_sessions c' = lc_sessions c -> tracks c -> tracks c'.
Proof. intros E1 E2 [H1 H2]. split; rewrite E1, E2; done. Qed.

Lemma tracks_put c k st st' rt : session_relays (lc_setup (put_state c k (st', rt))) = session_relays (lc_setup c) -> lc_sessions c !! k = Some st -> core st' = core st -> tracks c -> tracks (put_state c k (st', rt)).
Proof.
  intros _ Hk Hc [H1 H2]. injection Hc as C1 C2 C3. split; cbn.
  - intros k' l Hl. destruct (H1 k' l Hl) as (x & Hx & K1 & K2). destruct (decide (k = k')) as [<-|Hne]; [|exists x; by rewrite lookup_insert_ne].
    exists st'. rewrite lookup_insert_eq. rewrite Hk in Hx. injection Hx as <-. split; [done|]. by rewrite C1, C2.
  - intros k' x. intros [[<- <-]|[_ Hx]]%lookup_insert_Some; [rewrite C1; by apply H2|by apply H2].
Qed.

Lemma tracks_on_state c k f : (forall st rt, core (f st rt).1 = core st) -> tracks c -> tracks (on_state c k f).
Proof.
  intros Hf Ht. unfold on_state. destruct (lc_sessions c !! k) as [st|] eqn:Hk; [|done]. specialize (Hf st (lc_rt c)). destruct (f st (lc_rt c)) as [st' rt']. by eapply tracks_put.
Qed.

Lemma tracks_on_entry c k f : (forall st rt, core (f st rt).1 = core st) -> tracks c -> tracks (on_entry tun c k f).
Proof.
  intros Hf Ht. unfold on_entry. destruct (lc_sessions c !! k) as [st|] eqn:Hk.
  { specialize (Hf st (lc_rt c)). destruct (f st (lc_rt c)) as [st' rt']. by eapply tracks_put. }
  destruct (new_state (queue_capacity tun) [] (lc_rt c)) as [st0 rt0] eqn:E0. specialize (Hf st0 rt0). destruct (f st0 rt0) as [st' rt']. cbn in Hf. injection E0 as <- <-. injection Hf as C1 C2 C3.
  destruct Ht as [H1 H2]. split; cbn.
  - intros k' l Hl. destruct (H1 k' l Hl) as (x & Hx & K). exists x. rewrite lookup_insert_ne; [done|]. congruence.
  - intros k' x [[<- <-]|[_ Hx]]%lookup_insert_Some; [by rewrite C1|by apply H2].
Qed.

Lemma quiet_core f : quiet f -> forall st rt, core (f st rt).1 = core st.
Proof. intros H st rt. apply H. Qed.

Lemma tracks_fold {A} (key : A -> string * Z) (f : Lifecycle -> A -> SessionState -> Runtime -> SessionState * Runtime) l :
  (forall c x, quiet (f c x)) -> forall c, tracks c -> tracks (foldl (fun c x => on_state c (key x) (f c x)) c l).
Proof. intros Hf. induction l as [|x l IH]; intros c Ht; cbn [foldl]; [done|]. apply IH, tracks_on_state; [apply quiet_core, Hf|done]. Qed.

(** A session taken out of both maps. *)
Lemma tracks_removed c c' k : session_relays (lc_setup c') = base.delete k (session_relays (lc_setup c)) -> lc_sessions c' = base.delete k (lc_sessions c) -> tracks c -> tracks c'.
Proof.
  intros E1 E2 [H1 H2]. split; rewrite E1, E2.
  - intros k' l [Hne Hl]%lookup_delete_Some. destruct (H1 k' l Hl) as (st & Hs & K). exists st. by rewrite lookup_delete_ne.
  - intros k' st [Hne Hs]%lookup_delete_Some Hst. rewrite lookup_delete_ne by done. by apply H2.
Qed.

Lemma tracks_remove_and_close c k st : tracks c -> tracks (remove_and_close c k st).
Proof. apply (tracks_removed c _ k); [|done]. rewrite remove_and_close_setup. apply retire_spec. Qed.

(** A serving set without duplicates moves the same way in both places. *)
Lemma remove_first_filter dead l : NoDup l -> remove_first dead l = filter (fun id => id <> dead) l.
Proof.
  induction l as [|x l IH]; [done|]. intros [H1 H2]%NoDup_cons. cbn [remove_first]. rewrite filter_cons. destruct (Z.eqb_spec x dead) as [->|Hne].
  - rewrite decide_False by naive_solver. clear -H1. induction l as [|y l IH]; [done|]. rewrite filter_cons. rewrite not_elem_of_cons in H1. destruct H1 as [H1 H2]. rewrite decide_True by done. f_equal. by apply IH.
  - rewrite decide_True by done. f_equal. by apply IH.
Qed.
Lemma replace_first_fmap dead r_new l : NoDup l -> replace_first dead r_new l = (fun id => if id =? dead then r_new else id) <$> l.
Proof.
  induction l as [|x l IH]; [done|]. intros [H1 H2]%NoDup_cons. cbn [replace_first]. rewrite fmap_cons. destruct (Z.eqb_spec x dead) as [->|Hne]; [|f_equal; by apply IH].
  f_equal. clear -H1. induction l as [|y l IH]; [done|]. rewrite fmap_cons. rewrite not_elem_of_cons in H1. destruct H1 as [H1 H2]. destruct (Z.eqb_spec y dead); [congruence|]. f_equal. by apply IH.
Qed.

Lemma on_rehome_serving c k dead r_new st : lc_sessions c !! k = Some st -> NoDup (ss_serving st) -> dead ∈ ss_serving st ->
  exists st', lc_sessions (on_rehome c k dead r_new) = <[k := st']> (lc_sessions c) /\ ss_serving st' = swap_member (ss_serving st) dead r_new /\ created_here st' = created_here st.
Proof.
  intros Hk Hn Hd. unfold on_rehome, on_state. rewrite Hk. unfold swap_member. destruct (dead =? r_new); [eexists; by split|]. rewrite bool_decide_true by done. cbn [negb].
  eexists. split; [done|]. split; [|done]. cbn. destruct (bool_decide _); [by apply remove_first_filter|by apply replace_first_fmap].
Qed.

End run.
