(* ===== verification/LifecycleTrack.v ===== *)
(** * Cached and assigned serving sets agree

    As long as no session is evicted across the finalized-drop boundary, a
    session is known to the lifecycle with a serving set exactly when the setup
    has assigned it that set: what closes, empties and is reaped is what was
    placed.  After such an eviction it is not, and the session cannot end. *)

From Stdlib Require Import ZArith Lia.
From stdpp Require Import gmap sorting list strings.
From S2P Require Import Prelude.
From S2P Require Import BTree.
From S2P Require Import Registry.
From S2P Require Import PairRtts.
From S2P Require Import Placement.
From S2P Require Import PlacementSound.
From S2P Require Import Outbox.
From S2P Require Import EvidenceHistory.
From S2P Require Import Setup.
From S2P Require Import SetupInv.
From S2P Require Import SetupRun.
From S2P Require Import Lifecycle.
From S2P Require Import LifecycleOps.
From S2P Require Import LifecycleInv.

Open Scope Z_scope.

Section track.
Context {sha : Sha256} {mint : MintToken}.
Context (tun : LifecycleTunables).
Context (signing : forall t n sl pk ex, is_Some (mint_token t n sl pk ex)).

Lemma on_entry_put c k f : exists st rt, lc_sessions (on_entry tun c k f) = <[k := (f st rt).1]> (lc_sessions c).
Proof. unfold on_entry. destruct (match lc_sessions c !! k with Some st => _ | None => _ end) as [st rt]. by exists st, rt. Qed.

Lemma register_session_entry c k ids ps obs :
  exists st, lc_sessions (register_session tun c k ids ps obs) = <[k := st]> (lc_sessions c) /\ ss_serving st = ids /\ created_here st = true.
Proof.
  unfold register_session. match goal with |- context [on_entry tun c k ?f] => destruct (on_entry_put c k f) as (st & rt & E) end.
  pose proof (core_fields _ _ (proj1 (register_tail_quiet tun k (instant_now c) (registered ids ps obs st) rt))) as K.
  cbv beta in E, K. eexists. split; [exact E|]. exact K.
Qed.

Lemma tracks_create c rq expires hold unix c' : run_ok (lc_setup c) -> next_session (lc_setup c) < u64_max -> tracks c ->
  snd <$> create_session tun c rq expires hold unix = Some c' -> tracks c'.
Proof.
  intros Hr Hn Ht. unfold create_session. destruct (create_body (lc_setup c) rq expires hold unix) as [[o s]|] eqn:E; cbn [mbind option_bind fmap option_fmap option_map snd]; [|done]. intros [= <-].
  pose proof (create_relays signing (lc_setup c) rq expires hold unix o s Hr Hn E) as Hc.
  destruct o as [[response ids []|]|]; [by apply (tracks_ext c)| |by apply (tracks_ext c)|by apply (tracks_ext c)].
  destruct Ht as [H1 H2]. destruct Hc as [Hc Hne]. set (k := (rq_tenant rq, rs_session response)) in *.
  set (c1 := register_session _ _ _ _ _ _). assert (Hs : exists st', lc_sessions c1 = <[k := st']> (lc_sessions c) /\ ss_serving st' = ids /\ created_here st' = true) by apply (register_session_entry (set_lc_setup s c)).
  destruct Hs as (st' & Hs & Hids & Hch). assert (Ec : session_relays (lc_setup c1) = <[k := ids]> (session_relays (lc_setup c))) by (unfold c1, register_session; by rewrite on_entry_setup). clearbody c1. split; rewrite Hs, Ec.
  - intros k' l [[<- <-]|[Hk Hl]]%lookup_insert_Some; [exists st'; by rewrite lookup_insert_eq|]. destruct (H1 k' l Hl) as (x & Hx & K). exists x. by rewrite lookup_insert_ne.
  - intros k' x [[<- <-]|[Hk Hx]]%lookup_insert_Some Hx'; [rewrite lookup_insert_eq; by rewrite Hids|]. rewrite lookup_insert_ne by done. by apply H2.
Qed.

Lemma tracks_rehome c k dead : run_ok (lc_setup c) -> tracks c -> tracks (rehome_session c k dead).2.
Proof.
  intros Hr Ht. unfold rehome_session. destruct (rehome_pick (lc_setup c) k dead true) as [o|r_new e revs]; [done|].
  destruct (rehome_commit (lc_setup c) k dead r_new e revs) as [s|] eqn:Ec; [|done]. cbn [snd].
  pose proof (rk_setup _ Hr) as Hok. unfold rehome_commit in Ec. destruct (session_relays (lc_setup c) !! k) as [l|] eqn:El; [|done]. cbn in Ec.
  destruct (bool_decide (dead ∈ l)) eqn:Ed; [|done]. apply bool_decide_eq_true in Ed. cbn in Ec.
  assert (Es : session_relays s = <[k := swap_member l dead r_new]> (session_relays (lc_setup c))).
  { destruct (session_refs (lc_setup c) !! k); injection Ec as <-; done. }
  destruct (tr_live _ Ht k l El) as (st & Hk & Hl & Hch). destruct (proj2 (so_dom _ Hok k)) as [r Er]; [by rewrite El|].
  pose proof (so_members _ Hok k l r El Er) as Hm. rewrite <- Hl in Ed.
  destruct (on_rehome_serving (set_lc_setup s c) k dead r_new st Hk ltac:(rewrite Hl; apply Hm) Ed) as (st' & E1 & E2 & E3). rewrite Hl in E2.
  assert (Hsw : swap_member l dead r_new <> []).
  { intros E. assert (Hin : r_new ∈ swap_member l dead r_new) by (apply swap_member_elem; [by rewrite <- Hl|by left]). rewrite E in Hin. by apply not_elem_of_nil in Hin. }
  set (c2 := on_rehome (set_lc_setup s c) k dead r_new) in *. assert (E4 : lc_setup c2 = s) by apply on_rehome_setup.
  assert (E5 : lc_sessions c2 = <[k := st']> (lc_sessions c)) by exact E1. clearbody c2.
  apply (tracks_ext (set_lc_setup s c2)); [cbn; by rewrite E4|done|]. destruct Ht as [H1 H2]. split; cbn; rewrite E5, Es.
  - intros k' x [[<- <-]|[Hne Hx]]%lookup_insert_Some; [exists st'; rewrite lookup_insert_eq; by rewrite E2, E3|]. destruct (H1 k' x Hx) as (y & Hy & K). exists y. by rewrite lookup_insert_ne.
  - intros k' x [[<- <-]|[Hne Hx]]%lookup_insert_Some Hx'; [rewrite lookup_insert_eq; by rewrite E2|]. rewrite lookup_insert_ne by done. by apply H2.
Qed.

Lemma tracks_finish c k : tracks c -> tracks (finish_if_all_closed c k).
Proof. intros Ht. unfold finish_if_all_closed. destruct (lc_sessions c !! k); [|done]. destruct (_ || _); [done|]. by apply tracks_remove_and_close. Qed.

Lemma tracks_fire c id : run_ok (lc_setup c) -> tracks c -> tracks (fire tun c id).
Proof.
  intros Hr Ht. unfold fire. destruct (rt_tasks (lc_rt c) !! id) as [t|]; [|done]. destruct (task_awake t); [|done]. set (c1 := set_lc_rt _ c).
  assert (Ht1 : tracks c1) by (by apply (tracks_ext c)). change (lc_setup c) with (lc_setup c1) in Hr. clearbody c1. destruct (task_kind t) as [k slot|k|k|k|k token].
  - unfold fire_holdout. destruct (lc_sessions c1 !! k) as [st|] eqn:Hk; [|done]. assert (H : tracks (put_state c1 k (set_holdout_timer None st, lc_rt c1))) by (by eapply tracks_put).
    destruct (bool_decide _); [done|]. by refine (tracks_ext _ _ _ _ H).
  - unfold fire_linger. destruct (lc_sessions c1 !! k) as [st|] eqn:Hk; [|done]. assert (H : tracks (put_state c1 k (set_linger_timer None st, lc_rt c1))) by (by eapply tracks_put).
    destruct (_ || _); [done|]. destruct (filter _ _); [done|]. by refine (tracks_ext _ _ _ _ H).
  - unfold fire_webhook_reap. destruct (lc_sessions c1 !! k) as [st|] eqn:Hk; [|done]. destruct (bool_decide (ss_serving st = [])) eqn:Es; [|done]. apply bool_decide_eq_true in Es. cbn [negb].
    apply (tracks_removed c1 _ k); [|done|done]. apply (proj1 (retire_spec (lc_setup c1) k)).
  - unfold fire_never_started. destruct (lc_sessions c1 !! k) as [st|] eqn:Hk; [|done]. destruct (ss_started _); [by eapply tracks_put|by apply tracks_remove_and_close].
  - unfold fire_empty_session. destruct (lc_sessions c1 !! k) as [st|] eqn:Hk; [|done]. destruct (bool_decide _); [|done]. destruct (_ || _ || _ || _); [by eapply tracks_put|by apply tracks_remove_and_close].
Qed.

Lemma each_session_tracks c f : (forall k, quiet (f k)) -> tracks c -> tracks (each_session c f).
Proof. intros Hf. apply (tracks_fold fst (fun _ p => f p.1)). by intros. Qed.

Lemma tracks_handle c n : tracks c -> tracks (handle_notice tun c n).
Proof.
  intros Ht. unfold handle_notice. set (c1 := match n with Departure _ _ _ _ _ _ => c | _ => _ end). assert (H1 : tracks c1) by (unfold c1; destruct n; try done; by apply (tracks_ext c)).
  set (c2 := set_lc_notices _ c1). assert (H2 : tracks c2) by (by apply (tracks_ext c1)). set (c3 := match n with Departure _ _ _ _ _ _ => c2 | _ => _ end).
  assert (H3 : tracks c3) by (unfold c3; destruct n; try done; destruct (bool_decide _); [apply tracks_on_entry; [apply quiet_core, arm_webhook_quiet|done]|done]).
  destruct (bool_decide _); [|done]. destruct (resolve_notice_prefix c3 n); [|done]. apply tracks_on_entry; [|done]. intros st rt. apply arm_webhook_quiet.
Qed.

Lemma tracks_notice c n : tracks c -> tracks (record_notice tun c n).
Proof.
  assert (Hseq : forall st rt slot k now, core (let '(st, rt) := mark_started (note_accounted slot st) rt in
    let '(st, rt) := reevaluate_reaps tun k now st rt in arm_webhook_reap_if_orphan tun k now st rt).1 = core st).
  { intros st rt slot k now. destruct (mark_started (note_accounted slot st) rt) as [s1 r1] eqn:E1. pose proof (mark_started_quiet (note_accounted slot st) rt) as [K1 _]. rewrite E1 in K1. cbn in K1.
    destruct (reevaluate_reaps tun k now s1 r1) as [s2 r2] eqn:E2. pose proof (reevaluate_reaps_quiet tun k now s1 r1) as [K2 _]. rewrite E2 in K2. cbn in K2.
    pose proof (arm_webhook_quiet tun k now s2 r2) as [K3 _]. rewrite K3, K2, K1. apply note_accounted_core. }
  assert (Hone : forall st0 st rt k now, core st = core st0 -> core (let '(st, rt) := mark_started st rt in arm_webhook_reap_if_orphan tun k now st rt).1 = core st0).
  { intros st0 st rt k now <-. cbn [mark_started]. destruct (arm_webhook_quiet tun k now (set_never_started_timer None (set_ss_started true st)) (abort_opt (never_started_timer st) rt)) as [K _]. exact K. }
  intros Ht. destruct n as [k slot kind count fin x|k ord x|k slot x|k slot x|k t x|k slot x|k slot]; cbn [record_notice]; try done.
  - set (c1 := on_departure _ _ _ _ _ _ _). assert (H1 : tracks c1).
    { apply tracks_on_entry; [|done]. intros st rt. destruct (ss_departures st !! slot); [apply Hseq|]. by rewrite Hseq. }
    apply (tracks_ext c1); [|done|done]. cbn. unfold refresh_resumed_descriptors. by destruct (bool_decide _).
  - apply tracks_on_entry; [|done]. intros. apply Hseq.
  - apply tracks_on_entry; [|done]. intros. by apply Hone.
  - apply tracks_on_entry; [|done]. intros. by apply Hone.
  - apply tracks_on_entry; [|done]. intros. by apply Hone.
Qed.

Definition no_cohort_eviction (o : LOp) : Prop := match o with LEvictCohort _ _ _ => False | _ => True end.

Lemma tracks_step c o c' : run_ok (lc_setup c) -> next_session (lc_setup c) < u64_max -> no_cohort_eviction o -> tracks c -> lc_step tun c o = Some c' -> tracks c'.
Proof.
  intros Hr Hn Ho Ht.
  destruct o as [rq expires hold unix|k|k dead|k relay dep|k relay|h boot|relay gen|relay gen v|n|n|k|relay gen roster complete|p|k slot|k relay gen|k expect cur|relay|p|d wall|id|id| |q|q|q]; cbn [lc_step].
  - by apply tracks_create.
  - intros [= <-]. apply tracks_on_state; [apply quiet_core, reset_quiet|done].
  - intros [= <-]. by apply tracks_rehome.
  - done.
  - intros [= <-]. unfold evict_evidence_session. pose proof (tracks_rehome c k relay Hr Ht) as H. destruct (rehome_session c k relay) as [[| |ep] c1]; [done| |done]. cbn in H.
    unfold retire_unsupported. destruct (bool_decide (relay ∈ serving_relays (lc_setup c1) k)) eqn:Es; [|done]. apply bool_decide_eq_true in Es. cbn [andb]. destruct (_ && _); [|done].
    destruct (lc_sessions c1 !! k) as [st|] eqn:Hk; [by apply tracks_remove_and_close|]. exfalso. unfold serving_relays in Es.
    destruct (session_relays (lc_setup c1) !! k) as [l|] eqn:El; [|by apply not_elem_of_nil in Es]. destruct (tr_live _ H k l El) as (x & Hx & _). congruence.
  - intros [= <-]. unfold enroll_relay. destruct (try_enroll (registry (lc_setup c)) h) as [[gen g]|]; cbn [mbind option_bind fmap option_fmap option_map snd default]; [|done].
    set (c1 := apply_relay_enrolled tun _ _ gen). assert (H1 : tracks c1).
    { unfold c1, apply_relay_enrolled. match goal with |- context [if ?b then _ else _] => destruct b end; [by apply (tracks_ext c)|]. apply each_session_tracks; [intros k; apply reopen_quiet|]. by apply (tracks_ext c). }
    clearbody c1. destruct (note_boot_id _ _ _) as [lin g2]. set (c2 := set_lc_setup (with_registry _ g2) c1). assert (H2 : tracks c2) by (by apply (tracks_ext c1)).
    set (c3 := match lin with Continuous => _ | Broken => _ end). assert (H3 : tracks c3).
    { unfold c3. destruct lin; [done|]. destruct H2 as [K1 K2]. split; cbn; setoid_rewrite lookup_fmap.
      - intros k l Hl. destruct (K1 k l Hl) as (st & Hs & E1 & E2). exists (if bool_decide (hello_id h ∈ ss_serving st) then set_attestable false st else st).
        change (lc_sessions c1 !! k = Some st) in Hs. rewrite Hs. split; [done|]. by destruct (bool_decide _).
      - intros k st. destruct (lc_sessions c1 !! k) as [x|] eqn:Hx; [|done]. cbn. intros [= <-]. destruct (bool_decide _); exact (K2 k x Hx). }
    clearbody c3. match goal with |- context [if ?b then _ else _] => destruct b end; by apply (tracks_ext c3).
  - intros [= <-]. unfold disconnect_relay. destruct (remove_if_current _ _ _) as [[] g]; [|done]. unfold apply_relay_disconnected. cbn [relay_epochs set_lc_setup].
    destruct (relay_epochs c !! relay); [|by apply (tracks_ext c)]. destruct (_ || _); [by apply (tracks_ext c)|]. apply each_session_tracks; [intros k; apply lapse_quiet|]. by apply (tracks_ext c).
  - intros [= <-]. by apply (tracks_ext c).
  - intros [= <-]. by apply tracks_notice.
  - intros [= <-]. by apply tracks_handle.
  - intros [= <-]. apply (tracks_ext c); [|done|done]. cbn. unfold refresh_resumed_descriptors. by destruct (bool_decide _).
  - intros [= <-]. unfold on_relay_heartbeat. destruct (negb _); [done|]. set (occ := sp_session <$> _).
    apply (tracks_fold id (fun c k => beat_state tun relay gen (bool_decide (k ∈ occ)) complete k (instant_now c))); [|done]. intros c1 k. apply beat_quiet.
  - intros [= <-]. unfold merge_turn_evidence. destruct (sp_forwarded p); [done|]. apply tracks_on_entry; [|done]. intros st rt.
    match goal with |- context [arm_webhook_reap_if_orphan ?t ?k ?n ?s ?r] => destruct (arm_webhook_quiet t k n s r) as [K _] end. exact K.
  - intros [= <-]. apply tracks_on_entry; [|done]. intros st rt.
    match goal with |- context [arm_webhook_reap_if_orphan ?t ?k ?n ?s ?r] => destruct (arm_webhook_quiet t k n s r) as [K _] end. exact K.
  - intros [= <-]. unfold on_session_closed. destruct (negb _); [done|]. destruct (negb _); [done|]. destruct (lc_sessions c !! k) as [st|] eqn:Hk; [|done]. destruct (negb _); [done|]. apply tracks_finish.
    destruct (close_quiet tun relay gen k (instant_now c) st (lc_rt c)) as [K _]. destruct (close_state _ _ _ _ _ _ _) as [st1 rt1]. by eapply tracks_put.
  - intros [= <-]. apply (tracks_ext c); [|done|done]. cbn. unfold settle_lobby. destruct (_ || _ || _); [done|]. by destruct (session_refs (lc_setup c) !! k).
  - intros [= <-]. by apply (tracks_ext c).
  - intros [= <-]. by apply (tracks_ext c).
  - intros [= <-]. by apply (tracks_ext c).
  - intros [= <-]. unfold wake. destruct (rt_tasks (lc_rt c) !! id); [|done]. destruct (_ <=? _); [|done]. by apply (tracks_ext c).
  - intros [= <-]. by apply tracks_fire.
  - intros [= <-]. unfold send_next_close. destruct (lc_closes c) as [|[r x] rest]; [done|]. by apply (tracks_ext c).
  - intros [= <-]. by apply (tracks_ext c).
  - intros [= <-]. by apply (tracks_ext c).
  - intros [= <-]. by apply (tracks_ext c).
Qed.

(** ** Runs *)

Section theorems.
Context (tn : gmap string (Z * Z)) (first : Z) (hold : option Z) (ttl : Z) (ceiling : option Z) (feature : bool) (nt : gset string).

Local Abbreviation start := (new_lifecycle (new_setup tn first hold ttl ceiling feature) nt).

(** An invariant of single steps holds along every run, and no step panics. *)
Lemma lc_run_ind (I : Lifecycle -> Prop) (allowed : LOp -> Prop) :
  (forall c o c', run_ok (lc_setup c) -> next_session (lc_setup c) < u64_max -> lop_ok o -> allowed o -> I c -> lc_step tun c o = Some c' -> I c') ->
  forall ops c, run_ok (lc_setup c) -> room c (Z.of_nat (length ops)) -> Forall (fun o => lop_ok o /\ allowed o) ops -> I c ->
  exists c', lc_run tun c ops = Some c' /\ run_ok (lc_setup c') /\ I c'.
Proof.
  intros Hstep. induction ops as [|o ops IH]; intros c Hr Hroom Ho HI; [by exists c|]. apply Forall_cons in Ho as [[Ho1 Ho2] Ho3]. cbn [length] in Hroom. rewrite Nat2Z.inj_succ in Hroom. unfold Z.succ in Hroom.
  destruct (lc_step_total tun signing c o (Z.of_nat (length ops)) Hr Hroom ltac:(lia) Ho1) as (c1 & E1 & Hr1 & Hroom1).
  cbn [lc_run]. rewrite E1. cbn [mbind option_bind]. apply IH; [done|done|done|]. destruct Hroom as [Hroom _]. eapply (Hstep c o c1); [done|lia|done|done|done|done].
Qed.

Lemma start_room n : 0 <= first -> first + 4 * n < u64_max -> 4 * n < u64_max -> room start n.
Proof. intros H1 H2 H3. split; [exact H2|cbn; lia]. Qed.

Lemma start_run_ok : 0 <= first -> run_ok (lc_setup start).
Proof. apply new_setup_ok. Qed.

Lemma start_tracks : tracks start.
Proof. split; cbn; intros k ?; by rewrite lookup_empty. Qed.

(** C20 Whatever happens short of an eviction across the finalized-drop boundary,
    nothing panics, and the lifecycle holds a state with a serving set for exactly
    the sessions the setup has placed, and the same set in the same order. *)
Theorem lifecycle_tracks_setup (ops : list LOp) :
  0 <= first -> first + 4 * Z.of_nat (length ops) < u64_max -> Forall (fun o => lop_ok o /\ no_cohort_eviction o) ops ->
  exists c, lc_run tun start ops = Some c /\
    forall k, session_relays (lc_setup c) !! k =
      match lc_sessions c !! k with Some st => if decide (ss_serving st = []) then None else Some (ss_serving st) | None => None end.
Proof.
  intros Hf Hn Ho.
  destruct (lc_run_ind tracks no_cohort_eviction (fun c o c' H1 H2 _ H3 H4 H5 => tracks_step c o c' H1 H2 H3 H4 H5) ops start (start_run_ok Hf) (start_room _ Hf Hn ltac:(lia)) Ho start_tracks) as (c & E & Hr & [H1 H2]).
  exists c. split; [done|]. intros k. pose proof (rk_setup _ Hr) as Hok. destruct (session_relays (lc_setup c) !! k) as [l|] eqn:El.
  - destruct (H1 k l El) as (st & -> & <- & _). destruct (proj2 (so_dom _ Hok k)) as [r Er]; [by rewrite El|]. rewrite decide_False; [done|]. apply (so_members _ Hok k _ r El Er).
  - destruct (lc_sessions c !! k) as [st|] eqn:Es; [|done]. destruct (decide (ss_serving st = [])) as [|Hne]; [done|]. by rewrite (H2 k st Es Hne) in El.
Qed.

End theorems.

End track.
