(* ===== verification/LifecycleStuck.v ===== *)
(** * A session evicted across the boundary cannot end

    The eviction of a session from a relay that re-enrolled on the other side of
    the finalized-drop boundary moves the assignment but not the lifecycle's
    cached serving set.  From then on no relay can close the session: the old
    relay's close is refused because it no longer serves, and the replacement's
    because the cached set does not name it. *)

From Stdlib Require Import ZArith Lia.
From stdpp Require Import gmap sorting list strings.
From S2P Require Import Prelude.
From S2P Require Import Registry.
From S2P Require Import PairRtts.
From S2P Require Import Placement.
From S2P Require Import Outbox.
From S2P Require Import EvidenceHistory.
From S2P Require Import Setup.
From S2P Require Import SetupInv.
From S2P Require Import SetupRun.
From S2P Require Import SetupWitness.
From S2P Require Import Lifecycle.
From S2P Require Import LifecycleOps.
From S2P Require Import LifecycleInv.
From S2P Require Import LifecycleTrack.

Open Scope Z_scope.

(** What the ways to end a session look at. *)
Definition ending (st : SessionState) : list Z * bool * gmap Z Z * gmap Z EmptyRosterEvidence := (ss_serving st, ss_started st, closed_relays st, empty_relays st).

Section ending.
Context (tun : LifecycleTunables).

Lemma arm_webhook_ending k now st rt : ending (arm_webhook_reap_if_orphan tun k now st rt).1 = ending st.
Proof. unfold arm_webhook_reap_if_orphan. by destruct (negb _). Qed.

Lemma reevaluate_reaps_ending k now st rt : ending (reevaluate_reaps tun k now st rt).1 = ending st.
Proof.
  unfold reevaluate_reaps. assert (H1 : ending (reevaluate_holdout tun k now st rt).1 = ending st).
  { unfold reevaluate_holdout. destruct (unaccounted_players st) as [|x [|]]; [done| |done]. destruct (_ <=? _); [|done]. by destruct (holdout_timer st). }
  destruct (reevaluate_holdout tun k now st rt) as [st1 rt1]. cbn in H1. rewrite <- H1. unfold reevaluate_linger. destruct (_ && _ && _); [|done]. by destruct (linger_timer st1).
Qed.

Lemma reevaluate_empty_ending k now st rt : ending (reevaluate_empty_reap tun k now st rt).1 = ending st.
Proof. unfold reevaluate_empty_reap. destruct (_ && _ && _); [|done]. by destruct (empty_timer st). Qed.

End ending.

(** A started session with an unclosed relay that will not report on it. *)
Record stuck_state (x : Z) (st : SessionState) : Prop := mkStuckState {
  sk_serving : x ∈ ss_serving st;
  sk_started : ss_started st = true;
  sk_closed : closed_relays st !! x = None;
  sk_empty : empty_relays st !! x = None;
}.

Lemma stuck_ending x st st' : ending st' = ending st -> stuck_state x st -> stuck_state x st'.
Proof. intros [= E1 E2 E3 E4] [H1 H2 H3 H4]. split; congruence. Qed.

Definition spares (x : Z) (f : SessionState -> Runtime -> SessionState * Runtime) : Prop := forall st rt, stuck_state x st -> stuck_state x (f st rt).1.

Lemma spares_bind x (p : SessionState * Runtime) f : stuck_state x p.1 -> spares x f -> stuck_state x (let '(st, rt) := p in f st rt).1.
Proof. destruct p as [st1 rt1]. intros H1 H2. by apply H2. Qed.

Lemma stuck_not_closed x st : stuck_state x st -> all_relays_closed st = false.
Proof.
  intros [H1 _ H3 _]. unfold all_relays_closed. apply andb_false_iff. right. apply not_true_iff_false. rewrite forallb_forall. intros H. specialize (H x). rewrite <- list_elem_of_In in H. specialize (H H1).
  apply bool_decide_eq_true in H as [? H]. congruence.
Qed.

Lemma stuck_not_empty x st now fresh : stuck_state x st -> all_relays_confirmed_empty st now fresh = false.
Proof.
  intros [H1 _ H3 H4]. unfold all_relays_confirmed_empty. apply andb_false_iff. right. apply not_true_iff_false. rewrite forallb_forall. intros H. specialize (H x). rewrite <- list_elem_of_In in H. specialize (H H1).
  rewrite H3, H4 in H. done.
Qed.

Section spares.
Context (tun : LifecycleTunables).

Lemma mark_started_spares x : spares x mark_started.
Proof. intros st rt [H1 H2 H3 H4]. by split. Qed.
Lemma invalidate_spares x : spares x invalidate_empty_timer.
Proof. intros st rt H. by apply (stuck_ending x st). Qed.
Lemma reset_spares x : spares x reset_empty_evidence.
Proof. intros st rt [H1 H2 H3 H4]. by split. Qed.
Lemma arm_webhook_spares x k now : spares x (arm_webhook_reap_if_orphan tun k now).
Proof. intros st rt. apply stuck_ending, arm_webhook_ending. Qed.
Lemma reevaluate_reaps_spares x k now : spares x (reevaluate_reaps tun k now).
Proof. intros st rt. apply stuck_ending, reevaluate_reaps_ending. Qed.
Lemma reevaluate_empty_spares x k now : spares x (reevaluate_empty_reap tun k now).
Proof. intros st rt. apply stuck_ending, reevaluate_empty_ending. Qed.

Lemma delete_empty_stuck x relay st : stuck_state x st -> stuck_state x (set_empty_relays (base.delete relay (empty_relays st)) st).
Proof. intros [H1 H2 H3 H4]. split; try done. cbn. rewrite lookup_delete. by case_decide. Qed.
Lemma delete_closed_stuck x relay st : stuck_state x st -> stuck_state x (set_closed_relays (base.delete relay (closed_relays st)) st).
Proof. intros [H1 H2 H3 H4]. split; try done. cbn. rewrite lookup_delete. by case_decide. Qed.

Lemma reopen_spares x relay gen k now : spares x (reopen tun relay gen k now).
Proof.
  intros st rt H. unfold reopen. pose proof (delete_closed_stuck x relay st H) as H1. destruct (_ || _); [|done]. apply spares_bind; [|apply reevaluate_empty_spares].
  apply invalidate_spares. by apply (delete_empty_stuck x relay (set_closed_relays _ st)).
Qed.

Lemma lapse_spares x relay gen k now : spares x (lapse tun relay gen k now).
Proof.
  intros st rt H. unfold lapse. destruct (match empty_relays st !! relay with Some e => _ | None => _ end); [|done]. apply spares_bind; [|apply reevaluate_empty_spares].
  by apply invalidate_spares, delete_empty_stuck.
Qed.

Lemma close_spares x relay gen k now : relay <> x -> spares x (close_state tun relay gen k now).
Proof.
  intros Hne st rt H. unfold close_state. apply spares_bind; [|apply reevaluate_empty_spares]. apply invalidate_spares.
  destruct H as [H1 H2 H3 H4]. split; try done; cbn; [by rewrite lookup_insert_ne|]. rewrite lookup_delete. by case_decide.
Qed.

Lemma beat_spares x relay gen occ complete k now : relay <> x -> spares x (beat_state tun relay gen occ complete k now).
Proof.
  intros Hne st rt H. unfold beat_state. destruct (negb _); [done|].
  assert (Hend : forall b p, stuck_state x p.1 -> stuck_state x (let '(st, rt) := if (b : bool) then invalidate_empty_timer p.1 p.2 else p in reevaluate_empty_reap tun k now st rt).1).
  { intros b p Hp. apply spares_bind; [|apply reevaluate_empty_spares]. destruct b; [by apply invalidate_spares|done]. }
  destruct occ; [|destruct complete].
  - set (p := mark_started _ rt). assert (Hp : stuck_state x p.1).
    { apply mark_started_spares. by apply (delete_closed_stuck x relay (set_empty_relays _ st)), delete_empty_stuck. }
    clearbody p. destruct p as [st1 rt1]. by apply (Hend _ (st1, rt1)).
  - apply (Hend _ (set_empty_relays _ st, rt)). destruct H as [H1 H2 H3 H4]. split; try done. cbn. by rewrite lookup_insert_ne.
  - apply (Hend _ (set_empty_relays _ st, rt)). by apply delete_empty_stuck.
Qed.

End spares.

(** ** Steps *)

Definition stuck (c : Lifecycle) (k : string * Z) (x : Z) : Prop :=
  (exists st, lc_sessions c !! k = Some st /\ stuck_state x st) /\ is_Some (session_relays (lc_setup c) !! k) /\ x ∉ serving_relays (lc_setup c) k.

Lemma stuck_ext c c' k x : lc_sessions c' !! k = lc_sessions c !! k -> session_relays (lc_setup c') !! k = session_relays (lc_setup c) !! k -> stuck c k x -> stuck c' k x.
Proof. intros E1 E2. unfold stuck, serving_relays. by rewrite E1, E2. Qed.

Lemma stuck_put c k st rt x : stuck_state x st -> stuck c k x -> stuck (put_state c k (st, rt)) k x.
Proof. intros H (_ & H2 & H3). split; [|done]. exists st. cbn. by rewrite lookup_insert_eq. Qed.

Lemma stuck_put_ne c k k' p x : k' <> k -> stuck c k x -> stuck (put_state c k' p) k x.
Proof. intros H. apply stuck_ext; [|done]. cbn. by rewrite lookup_insert_ne. Qed.

Section steps.
Context {sha : Sha256} {mint : MintToken}.
Context (tun : LifecycleTunables).
Context (signing : forall t n sl pk ex, is_Some (mint_token t n sl pk ex)).

Lemma stuck_on_state c k k' f x : (k' = k -> spares x f) -> stuck c k x -> stuck (on_state c k' f) k x.
Proof.
  intros Hf H. unfold on_state. destruct (decide (k' = k)) as [->|Hne].
  - destruct H as ((st & Hs & Hk) & H2 & H3). rewrite Hs. specialize (Hf eq_refl st (lc_rt c) Hk). destruct (f st (lc_rt c)). apply stuck_put; [done|]. split; [by exists st|done].
  - destruct (lc_sessions c !! k'); [|done]. by apply stuck_put_ne.
Qed.

Lemma stuck_on_entry c k k' f x : (k' = k -> spares x f) -> stuck c k x -> stuck (on_entry tun c k' f) k x.
Proof.
  intros Hf H. unfold on_entry. destruct (decide (k' = k)) as [->|Hne].
  - destruct H as ((st & Hs & Hk) & H2 & H3). rewrite Hs. specialize (Hf eq_refl st (lc_rt c) Hk). destruct (f st (lc_rt c)). apply stuck_put; [done|]. split; [by exists st|done].
  - destruct (match lc_sessions c !! k' with Some st => _ | None => _ end) as [st rt]. by apply stuck_put_ne.
Qed.

Lemma stuck_fold {A} (key : A -> string * Z) (f : Lifecycle -> A -> SessionState -> Runtime -> SessionState * Runtime) l k x :
  (forall c y, y ∈ l -> key y = k -> spares x (f c y)) -> forall c, stuck c k x -> stuck (foldl (fun c y => on_state c (key y) (f c y)) c l) k x.
Proof.
  induction l as [|y l IH]; intros Hf c H; cbn [foldl]; [done|]. apply IH; [intros c1 z Hz; apply Hf; by right|]. apply stuck_on_state; [|done]. intros E. apply Hf; [by left|done].
Qed.

(** An operation that moves no assignment of [k]. *)
Definition moves_not (k : string * Z) (o : LOp) : Prop :=
  match o with LRehome k' _ | LEvictCohort k' _ _ | LEvictEvidence k' _ => k' <> k | _ => True end.

Lemma stuck_retired c c' k k' x : k' <> k -> lc_sessions c' = base.delete k' (lc_sessions c) -> lc_setup c' = retire_session (lc_setup c) k' -> stuck c k x -> stuck c' k x.
Proof.
  intros Hne E1 E2. apply stuck_ext; [rewrite E1; by rewrite lookup_delete_ne|]. rewrite E2. destruct (retire_spec (lc_setup c) k') as (-> & _). by rewrite lookup_delete_ne.
Qed.

Lemma stuck_remove c k k' st x : k' <> k -> stuck c k x -> stuck (remove_and_close c k' st) k x.
Proof. intros Hne. by apply (stuck_retired c _ k k'). Qed.

Lemma stuck_fire c id k x : stuck c k x -> stuck (fire tun c id) k x.
Proof.
  intros H. unfold fire. destruct (rt_tasks (lc_rt c) !! id) as [t|]; [|done]. destruct (task_awake t); [|done]. set (c1 := set_lc_rt _ c).
  assert (H1 : stuck c1 k x) by (by apply (stuck_ext c)). clearbody c1. clear H c. pose proof H1 as ((st0 & Hs0 & Hk0) & _).
  destruct (task_kind t) as [k' slot|k'|k'|k'|k' token].
  - unfold fire_holdout. destruct (lc_sessions c1 !! k') as [st|] eqn:Hk; [|done]. assert (H2 : stuck (put_state c1 k' (set_holdout_timer None st, lc_rt c1)) k x).
    { destruct (decide (k' = k)) as [->|]; [|by apply stuck_put_ne]. apply stuck_put; [|done]. rewrite Hs0 in Hk. injection Hk as <-. by apply (stuck_ending x st0). }
    destruct (bool_decide _); [done|]. by refine (stuck_ext _ _ k x _ _ H2).
  - unfold fire_linger. destruct (lc_sessions c1 !! k') as [st|] eqn:Hk; [|done]. assert (H2 : stuck (put_state c1 k' (set_linger_timer None st, lc_rt c1)) k x).
    { destruct (decide (k' = k)) as [->|]; [|by apply stuck_put_ne]. apply stuck_put; [|done]. rewrite Hs0 in Hk. injection Hk as <-. by apply (stuck_ending x st0). }
    destruct (_ || _); [done|]. destruct (filter _ _); [done|]. by refine (stuck_ext _ _ k x _ _ H2).
  - unfold fire_webhook_reap. destruct (lc_sessions c1 !! k') as [st|] eqn:Hk; [|done]. destruct (bool_decide (ss_serving st = [])) eqn:Es; [|done]. apply bool_decide_eq_true in Es. cbn [negb].
    apply (stuck_retired c1 _ k k'); [|done|done|done]. intros ->. rewrite Hs0 in Hk. injection Hk as <-. destruct Hk0 as [K _ _ _]. rewrite Es in K. by apply not_elem_of_nil in K.
  - unfold fire_never_started. destruct (lc_sessions c1 !! k') as [st|] eqn:Hk; [|done]. cbn [ss_started set_never_started_timer]. destruct (decide (k' = k)) as [->|Hne].
    + rewrite Hs0 in Hk. injection Hk as <-. rewrite (sk_started _ _ Hk0). apply stuck_put; [by apply (stuck_ending x st0)|done].
    + destruct (ss_started st); [by apply stuck_put_ne|by apply stuck_remove].
  - unfold fire_empty_session. destruct (lc_sessions c1 !! k') as [st|] eqn:Hk; [|done]. destruct (bool_decide _); [|done]. destruct (decide (k' = k)) as [->|Hne].
    + rewrite Hs0 in Hk. injection Hk as <-. assert (H2 : stuck_state x (set_empty_timer None st0)) by (by apply (stuck_ending x st0)). rewrite (stuck_not_empty x _ _ _ H2). cbn [negb].
      rewrite orb_true_r. by apply stuck_put.
    + destruct (_ || _ || _ || _); [by apply stuck_put_ne|by apply stuck_remove].
Qed.

Lemma stuck_finish c k k' x : stuck c k x -> stuck (finish_if_all_closed c k') k x.
Proof.
  intros H. unfold finish_if_all_closed. destruct (lc_sessions c !! k') as [st|] eqn:Hk; [|done]. destruct (decide (k' = k)) as [->|Hne].
  - pose proof H as ((st0 & Hs0 & Hk0) & _). rewrite Hs0 in Hk. injection Hk as <-. by rewrite (stuck_not_closed x _ Hk0).
  - destruct (_ || _); [done|]. by apply stuck_remove.
Qed.

Lemma stuck_handle c n k x : stuck c k x -> stuck (handle_notice tun c n) k x.
Proof.
  intros H. unfold handle_notice. set (c1 := match n with Departure _ _ _ _ _ _ => c | _ => _ end). assert (H1 : stuck c1 k x) by (unfold c1; destruct n; try done; by apply (stuck_ext c)).
  set (c2 := set_lc_notices _ c1). assert (H2 : stuck c2 k x) by (by apply (stuck_ext c1)). set (c3 := match n with Departure _ _ _ _ _ _ => c2 | _ => _ end).
  assert (H3 : stuck c3 k x) by (unfold c3; destruct n; try done; destruct (bool_decide _); [apply stuck_on_entry; [intros _; apply arm_webhook_spares|done]|done]).
  destruct (bool_decide _); [|done]. destruct (resolve_notice_prefix c3 n); [|done]. apply stuck_on_entry; [|done]. intros _ st rt Hs. by apply arm_webhook_spares.
Qed.

Lemma note_accounted_stuck x slot st : stuck_state x st -> stuck_state x (note_accounted slot st).
Proof. apply stuck_ending. unfold note_accounted. by destruct (bool_decide _). Qed.

Lemma stuck_record c n k x : stuck c k x -> stuck (record_notice tun c n) k x.
Proof.
  assert (Hseq : forall st rt k' now, stuck_state x st -> stuck_state x (let '(st, rt) := mark_started st rt in
    let '(st, rt) := reevaluate_reaps tun k' now st rt in arm_webhook_reap_if_orphan tun k' now st rt).1).
  { intros st rt k' now Hs. apply (spares_bind x (mark_started st rt)); [by apply mark_started_spares|]. intros st1 rt1 H1.
    apply (spares_bind x (reevaluate_reaps tun k' now st1 rt1)); [by apply reevaluate_reaps_spares|apply arm_webhook_spares]. }
  assert (Hone : forall st0 st rt k' now, ending st = ending st0 -> stuck_state x st0 -> stuck_state x (let '(st, rt) := mark_started st rt in arm_webhook_reap_if_orphan tun k' now st rt).1).
  { intros st0 st rt k' now E Hs. apply (spares_bind x (mark_started st rt)); [by apply mark_started_spares, (stuck_ending x st0)|apply arm_webhook_spares]. }
  intros Ht. destruct n as [k' slot kind count fin y|k' ord y|k' slot y|k' slot y|k' t y|k' slot y|k' slot]; cbn [record_notice]; try done.
  - set (c1 := on_departure _ _ _ _ _ _ _). assert (H1 : stuck c1 k x).
    { apply stuck_on_entry; [|done]. intros _ st rt Hs. destruct (ss_departures st !! slot); apply Hseq, note_accounted_stuck; [done|]. by apply (stuck_ending x st). }
    apply (stuck_ext c1); [done| |done]. cbn. unfold refresh_resumed_descriptors. by destruct (bool_decide _).
  - apply stuck_on_entry; [|done]. intros _ st rt Hs. by apply Hseq, note_accounted_stuck.
  - apply stuck_on_entry; [|done]. intros _ st rt Hs. by apply (Hone st).
  - apply stuck_on_entry; [|done]. intros _ st rt Hs. by apply (Hone st).
  - apply stuck_on_entry; [|done]. intros _ st rt Hs. by apply (Hone st).
Qed.

(** The setup's own view of [k] changes only when [k] moves. *)
Lemma rehome_other s k dead allow dep k' : setup_ok s -> k <> k' -> session_relays (rehome_inner s k dead allow dep).2 !! k' = session_relays s !! k'.
Proof.
  intros Hok Hne. destruct (rehome_inner_cases s k dead allow dep Hok) as [->|(r_new & e & revs & Hd & ->)]; [done|].
  destruct (rehome_commit_spec s k dead r_new e revs Hok Hd) as (r & s1 & _ & Ec & E1 & _). unfold rehome_apply. rewrite Ec. change (session_relays (rehome_publish s1 k dead r_new dep)) with (session_relays s1).
  rewrite E1. by rewrite lookup_insert_ne.
Qed.

Lemma rehome_session_other c k dead k' : k <> k' -> lc_sessions (rehome_session c k dead).2 !! k' = lc_sessions c !! k'.
Proof.
  intros Hne. unfold rehome_session. destruct (rehome_pick _ _ _ _) as [o|r_new e revs]; [done|]. destruct (rehome_commit _ _ _ _ _ _) as [s|]; [|done]. cbn.
  unfold on_rehome, on_state. cbn. destruct (lc_sessions c !! k); [|done]. cbn. by rewrite lookup_insert_ne.
Qed.

Lemma stuck_rehome c k dead k' x : run_ok (lc_setup c) -> k <> k' -> stuck c k' x -> stuck (rehome_session c k dead).2 k' x.
Proof.
  intros Hr Hne. apply stuck_ext; [by apply rehome_session_other|]. destruct (rehome_session_setup c k dead) as (dep & -> & _). apply rehome_other; [apply Hr|done].
Qed.

Lemma stuck_create c rq expires hold unix c' k x : run_ok (lc_setup c) -> next_session (lc_setup c) < u64_max -> stuck c k x ->
  snd <$> create_session tun c rq expires hold unix = Some c' -> stuck c' k x.
Proof.
  intros Hr Hn H E. assert (Hstep : setup_step (lc_setup c) (SCreate rq expires hold unix) = Some (lc_setup c')).
  { cbn [setup_step]. unfold create_session in E. destruct (create_body _ _ _ _ _) as [[o s]|]; cbn in E |- *; [|done]. injection E as <-. f_equal. destruct o as [[response ids []|]|]; try done. unfold register_session. by rewrite on_entry_setup. }
  unfold create_session in E. destruct (create_body (lc_setup c) rq expires hold unix) as [[o s]|] eqn:Eb; cbn [mbind option_bind fmap option_fmap option_map snd] in E; [|done]. injection E as <-.
  pose proof (create_relays signing (lc_setup c) rq expires hold unix o s Hr Hn Eb) as Hc. destruct H as (H1 & H2 & H3).
  destruct o as [[response ids []|]|]; try (apply (stuck_ext c); [done|cbn; by rewrite Hc|done]).
  destruct Hc as [Hc _]. set (k' := (rq_tenant rq, rs_session response)) in *. assert (Hne : k' <> k).
  { intros Ek. pose proof (rk_below _ Hr k H2) as Hb. assert (Hs : rs_session response = next_session (lc_setup c)).
    { clear -Eb. unfold create_body in Eb. destruct (cached_create _ _); [destruct (decide _) in Eb; by injection Eb|]. destruct (validate_request rq); [|by injection Eb].
      destruct (match session_ceiling _ with Some c => _ | None => false end); [by injection Eb|]. pose proof (hold_core (lc_setup c) rq hold unix) as Hh.
      destruct (hold_until_ready _ _ _ _) as [held s1]. destruct Hh as ((_ & _ & _ & _ & _ & _ & _ & E8) & _). destruct held; [by injection Eb|].
      destruct (place_by_region _ _ _ _ _) as [[p|e]|]; cbn [mbind option_bind] in Eb; [|by injection Eb|done]. destruct (tenants s1 !! rq_tenant rq); [|by injection Eb].
      unfold commit_create in Eb. destruct (mint_all _ _ _ _); [|by injection Eb]. injection Eb as <- _ _. cbn. exact E8. }
    rewrite <- Ek in Hb. unfold k' in Hb. cbn in Hb. lia. }
  apply (stuck_ext c); [|rewrite <- (lookup_insert_ne (session_relays (lc_setup c)) k' k ids Hne), <- Hc; unfold register_session; by rewrite on_entry_setup|by split].
  unfold register_session, on_entry. destruct (match lc_sessions (set_lc_setup s c) !! k' with Some st => _ | None => _ end) as [st rt]. cbn [lc_sessions put_state set_lc_sessions]. by rewrite lookup_insert_ne.
Qed.

Lemma stuck_step c o c' k x : run_ok (lc_setup c) -> next_session (lc_setup c) < u64_max -> moves_not k o -> stuck c k x -> lc_step tun c o = Some c' -> stuck c' k x.
Proof.
  intros Hr Hn Ho Ht. pose proof (rk_setup _ Hr) as Hok. pose proof Ht as (Hst & [l0 Hl0] & Hx).
  destruct o as [rq expires hold unix|k'|k' dead|k' relay dep|k' relay|h boot|relay gen|relay gen v|n|n|k'|relay gen roster complete|p|k' slot|k' relay gen|k' expect cur|relay|p|d wall|id|id| |q|q|q]; cbn [lc_step].
  - by apply stuck_create.
  - intros [= <-]. apply stuck_on_state; [intros _; apply reset_spares|done].
  - intros [= <-]. by apply stuck_rehome.
  - intros [= <-]. apply (stuck_ext c); [done| |done]. by apply rehome_other.
  - intros [= <-]. unfold evict_evidence_session. pose proof (stuck_rehome c k' relay k x Hr Ho Ht) as H. destruct (rehome_session c k' relay) as [[| |ep] c1]; [done| |done]. cbn in H.
    unfold retire_unsupported. destruct (_ && _ && _); [|done]. destruct (lc_sessions c1 !! k') as [st|]; [by apply stuck_remove|].
    destruct (new_state _ _ (lc_rt c1)) as [st rt]. apply (stuck_ext c1); [done| |done]. rewrite close_and_retire_setup. destruct (retire_spec (lc_setup c1) k') as (E & _). cbn [lc_setup set_lc_rt]. rewrite E. by rewrite lookup_delete_ne.
  - intros [= <-]. unfold enroll_relay. destruct (try_enroll (registry (lc_setup c)) h) as [[gen g]|]; cbn [mbind option_bind fmap option_fmap option_map snd default]; [|done].
    set (c1 := apply_relay_enrolled tun _ _ gen). assert (H1 : stuck c1 k x).
    { unfold c1, apply_relay_enrolled. match goal with |- context [if ?b then _ else _] => destruct b end; [by apply (stuck_ext c)|].
      apply (stuck_fold fst (fun _ p => reopen tun (hello_id h) gen p.1 _)); [intros; apply reopen_spares|]. by apply (stuck_ext c). }
    clearbody c1. destruct (note_boot_id _ _ _) as [lin g2]. set (c2 := set_lc_setup (with_registry _ g2) c1). assert (H2 : stuck c2 k x) by (by apply (stuck_ext c1)).
    set (c3 := match lin with Continuous => _ | Broken => _ end). assert (H3 : stuck c3 k x).
    { unfold c3. destruct lin; [done|]. destruct H2 as ((st & Hs & Hk) & K2). split; [|done]. exists (if bool_decide (hello_id h ∈ ss_serving st) then set_attestable false st else st).
      cbn. rewrite lookup_fmap. change (lc_sessions c1 !! k = Some st) in Hs. rewrite Hs. split; [done|]. destruct (bool_decide _); [by apply (stuck_ending x st)|done]. }
    clearbody c3. match goal with |- context [if ?b then _ else _] => destruct b end; by apply (stuck_ext c3).
  - intros [= <-]. unfold disconnect_relay. destruct (remove_if_current _ _ _) as [[] g]; [|done]. unfold apply_relay_disconnected. cbn [relay_epochs set_lc_setup].
    destruct (relay_epochs c !! relay); [|by apply (stuck_ext c)]. destruct (_ || _); [by apply (stuck_ext c)|].
    apply (stuck_fold fst (fun _ p => lapse tun relay gen p.1 _)); [intros; apply lapse_spares|]. by apply (stuck_ext c).
  - intros [= <-]. by apply (stuck_ext c).
  - intros [= <-]. by apply stuck_record.
  - intros [= <-]. by apply stuck_handle.
  - intros [= <-]. apply (stuck_ext c); [done| |done]. cbn. unfold refresh_resumed_descriptors. by destruct (bool_decide _).
  - intros [= <-]. unfold on_relay_heartbeat. destruct (negb _); [done|]. set (occ := sp_session <$> _).
    apply (stuck_fold (fun y => y) (fun c k => beat_state tun relay gen (bool_decide (k ∈ occ)) complete k (instant_now c))); [|done]. intros c1 y Hy ->. apply beat_spares. intros ->.
    unfold current_keys_for in Hy. apply list_elem_of_fmap in Hy as (d & -> & Hd). apply Hx. by apply (so_descriptors _ Hok x d Hd).
  - intros [= <-]. unfold merge_turn_evidence. destruct (sp_forwarded p); [done|]. apply stuck_on_entry; [|done]. intros _ st rt Hs. apply arm_webhook_spares. by apply (stuck_ending x st).
  - intros [= <-]. apply stuck_on_entry; [|done]. intros _ st rt Hs. apply arm_webhook_spares. by apply (stuck_ending x st).
  - intros [= <-]. unfold on_session_closed. destruct (negb _); [done|]. destruct (bool_decide (relay ∈ _)) eqn:Er; cbn [negb]; [|done]. apply bool_decide_eq_true in Er.
    destruct (lc_sessions c !! k') as [st|] eqn:Hk; [|done]. destruct (negb _); [done|]. apply stuck_finish. destruct (decide (k' = k)) as [->|Hne]; [|by apply stuck_put_ne].
    assert (Hxr : relay <> x) by (intros ->; done). destruct Hst as (st0 & Hs0 & Hk0). rewrite Hs0 in Hk. injection Hk as <-. pose proof (close_spares tun x relay gen k (instant_now c) Hxr st0 (lc_rt c) Hk0) as K.
    destruct (close_state _ _ _ _ _ _ _) as [st1 rt1]. by apply stuck_put.
  - intros [= <-]. apply (stuck_ext c); [done| |done]. cbn. unfold settle_lobby. destruct (_ || _ || _); [done|]. by destruct (session_refs (lc_setup c) !! k').
  - intros [= <-]. by apply (stuck_ext c).
  - intros [= <-]. by apply (stuck_ext c).
  - intros [= <-]. by apply (stuck_ext c).
  - intros [= <-]. unfold wake. destruct (rt_tasks (lc_rt c) !! id); [|done]. destruct (_ <=? _); [|done]. by apply (stuck_ext c).
  - intros [= <-]. by apply stuck_fire.
  - intros [= <-]. unfold send_next_close. destruct (lc_closes c) as [|[r y] rest]; [done|]. by apply (stuck_ext c).
  - intros [= <-]. by apply (stuck_ext c).
  - intros [= <-]. by apply (stuck_ext c).
  - intros [= <-]. by apply (stuck_ext c).
Qed.

Section theorems.
Context (tn : gmap string (Z * Z)) (first : Z) (hold : option Z) (ttl : Z) (ceiling : option Z) (feature : bool) (nt : gset string).

Local Abbreviation start := (new_lifecycle (new_setup tn first hold ttl ceiling feature) nt).

(** C21 After an eviction across the finalized-drop boundary that moved a started
    session off the relay that re-enrolled, no event but another move of it ends
    the session: it stays alive and assigned whatever any relay reports, however
    long it stands empty. *)
Theorem evicted_session_never_ends (ops ops' : list LOp) (k : string * Z) (x : Z) (departed : list DepartedSlot) (c c1 : Lifecycle) (st : SessionState) :
  0 <= first -> first + 4 * Z.of_nat (length ops + 1 + length ops') < u64_max -> Forall lop_ok ops -> Forall (fun o => lop_ok o /\ moves_not k o) ops' ->
  lc_run tun start ops = Some c -> lc_step tun c (LEvictCohort k x departed) = Some c1 ->
  lc_sessions c !! k = Some st -> ss_started st = true -> x ∈ ss_serving st -> closed_relays st !! x = None -> empty_relays st !! x = None ->
  x ∈ serving_relays (lc_setup c) k -> x ∉ serving_relays (lc_setup c1) k ->
  exists c2, lc_run tun c1 ops' = Some c2 /\ is_alive c2 k = true /\ is_Some (session_relays (lc_setup c2) !! k).
Proof.
  intros Hf Hn Ho Ho' E E1 Hk Hs Hx Hc He Hin Hout. assert (Hroom : room start (Z.of_nat (length (ops ++ [LEvictCohort k x departed])) + Z.of_nat (length ops'))).
  { apply start_room; [done| |]; rewrite length_app; cbn; lia. }
  assert (Hgo : forall l n s, run_ok (lc_setup s) -> room s (Z.of_nat (length l) + n) -> 0 <= n -> Forall lop_ok l -> exists s', lc_run tun s l = Some s' /\ run_ok (lc_setup s') /\ room s' n).
  { clear -signing. induction l as [|o l IH]; intros n s Hr Hro H0 Hl; [by exists s|]. apply Forall_cons in Hl as [Hl1 Hl2]. cbn [length] in Hro. rewrite Nat2Z.inj_succ in Hro.
    destruct (lc_step_total tun signing s o (Z.of_nat (length l) + n) Hr) as (s1 & E1 & Hr1 & Hro1); [by replace (Z.of_nat (length l) + n + 1) with (Z.succ (Z.of_nat (length l)) + n) by lia|lia|done|].
    cbn [lc_run]. rewrite E1. cbn [mbind option_bind]. by apply IH. }
  destruct (Hgo (ops ++ [LEvictCohort k x departed]) (Z.of_nat (length ops')) start (start_run_ok tn first hold ttl ceiling feature nt Hf) Hroom ltac:(lia)) as (c1' & Erun & Hr1 & Hroom1).
  { apply Forall_app. split; [done|by repeat constructor]. }
  assert (Hsplit : forall l s, lc_run tun s (l ++ [LEvictCohort k x departed]) = (s' ← lc_run tun s l; lc_step tun s' (LEvictCohort k x departed))).
  { clear. induction l as [|o l IH]; intros s; cbn [lc_run app]; [cbn [mbind option_bind]; by destruct (lc_step tun s _)|]. destruct (lc_step tun s o); [|done]. cbn [mbind option_bind]. apply IH. }
  rewrite Hsplit, E in Erun. cbn [mbind option_bind] in Erun. rewrite E1 in Erun. injection Erun as <-.
  destruct (Hgo ops (Z.of_nat (1 + length ops')) start (start_run_ok tn first hold ttl ceiling feature nt Hf)) as (c' & E' & Hr & _); [|lia|done|]. { destruct Hroom as [R1 R2]. rewrite length_app in R1, R2. cbn in R1, R2. split; cbn; lia. }
  rewrite E in E'. injection E' as <-.
  assert (Hstuck : stuck c1 k x).
  { injection E1 as <-. split; [|split; [|done]].
    - exists st. split; [done|by split].
    - cbn. unfold rehome_evicting. destruct (rehome_inner_cases (lc_setup c) k x false departed (rk_setup _ Hr)) as [->|(r_new & e & revs & Hd & ->)].
      + unfold serving_relays in Hin. destruct (session_relays (lc_setup c) !! k); [by eexists|by apply not_elem_of_nil in Hin].
      + destruct (rehome_commit_spec (lc_setup c) k x r_new e revs (rk_setup _ Hr) Hd) as (r & s1 & _ & Ec & Es & _). unfold rehome_apply. rewrite Ec.
        change (session_relays (rehome_publish s1 k x r_new departed)) with (session_relays s1). rewrite Es, lookup_insert_eq. by eexists. }
  destruct (lc_run_ind tun signing (fun c => stuck c k x) (moves_not k) (fun c o c' H1 H2 _ H3 H4 H5 => stuck_step c o c' k x H1 H2 H3 H4 H5) ops' c1 Hr1 Hroom1 Ho' Hstuck) as (c2 & E2 & _ & (st2 & K1 & K2) & K3 & _).
  exists c2. split; [done|]. split; [|done]. unfold is_alive. rewrite K1, (stuck_not_closed x st2 K2). rewrite bool_decide_false; [done|]. intros En. destruct K2 as [K2 _ _ _]. rewrite En in K2. by apply not_elem_of_nil in K2.
Qed.

End theorems.
End steps.

(** ** A relay upgraded in place *)

Definition upgraded_hello (id : Z) (rg : string) : RelayHello := mkRelayHello id "relay.example:443" 1 [id; id] None [CAPABILITY_FINALIZED_DROP_V1] [] (Some rg) None.

Definition upgrade_ops : list LOp :=
  [LEnroll (sample_hello 1 "us") (Some 71); LEnroll (sample_hello 2 "eu") (Some 72); LEnroll (sample_hello 3 "ap") (Some 73);
   LCreate sample_request 1000 None 0; LRecord (SlotConnected ("sb"%string, 7) 1 None); LDisconnect 2 1; LEnroll (upgraded_hello 2 "eu") (Some 82)].
Definition upgrade_start : Lifecycle := new_lifecycle sample_start {["sb"%string]}.
Definition upgraded : Lifecycle := default upgrade_start (@lc_run plain_sha plain_mint default_tunables upgrade_start upgrade_ops).
Definition evicted : Lifecycle := default upgraded (@lc_step plain_sha plain_mint default_tunables upgraded (LEvictCohort ("sb"%string, 7) 2 [])).

(** Every relay left closes the session and it stands for an hour: still alive. *)
Definition aftermath : list LOp :=
  [LClosed ("sb"%string, 7) 1 0; LClosed ("sb"%string, 7) 2 3; LClosed ("sb"%string, 7) 3 2; LBeat 1 0 [] true; LBeat 2 3 [] true; LBeat 3 2 [] true; LTick (secs 3600) 9000; LBeat 1 0 [] true].

Lemma evicted_session_never_ends_witness :
  exists c2, @lc_run plain_sha plain_mint default_tunables evicted aftermath = Some c2 /\ is_alive c2 ("sb"%string, 7) = true.
Proof.
  destruct (lc_sessions upgraded !! ("sb"%string, 7)) as [st|] eqn:Es; [|vm_compute in Es; discriminate].
  destruct (@evicted_session_never_ends plain_sha plain_mint default_tunables (fun _ _ _ _ _ => ltac:(by eexists)) {["sb" := (1, 8)]} 7 None 60 None true {["sb"%string]}
    upgrade_ops aftermath ("sb"%string, 7) 2 [] upgraded evicted st) as (c2 & E & H & _).
  - lia.
  - vm_compute. reflexivity.
  - by repeat constructor.
  - repeat constructor; cbn; unfold secs; lia.
  - vm_compute. reflexivity.
  - vm_compute. reflexivity.
  - exact Es.
  - vm_compute in Es. injection Es as <-. reflexivity.
  - vm_compute in Es. injection Es as <-. apply (bool_decide_unpack _); vm_compute; exact I.
  - vm_compute in Es. injection Es as <-. reflexivity.
  - vm_compute in Es. injection Es as <-. reflexivity.
  - apply (bool_decide_unpack _); vm_compute; exact I.
  - apply (bool_decide_unpack _); vm_compute; exact I.
  - exists c2. split; [exact E|exact H].
Defined.
