(* ===== verification/LifecycleQueues.v ===== *)
(** * The webhook queues

    Every session's queue carries its own notices in order, [sessionClosed] comes
    last and is never held up for room, and the count of pending webhooks is
    exactly what is still to be delivered. *)

From Stdlib Require Import ZArith Lia.
From stdpp Require Import gmap sorting list strings.
From S2P Require Import Prelude.
From S2P Require Import Registry.
From S2P Require Import PairRtts.
From S2P Require Import Placement.
From S2P Require Import Outbox.
From S2P Require Import EvidenceHistory.
From S2P Require Import Setup.
From S2P Require Import SetupInv.
From S2P Require Import SetupRun.
From S2P Require Import SetupWitness.
From S2P Require Import Lifecycle.
From S2P Require Import LifecycleOps.
From S2P Require Import LifecycleInv.
From S2P Require Import LifecycleTrack.

Open Scope Z_scope.

(** Everything a queue took in, in order. *)
Definition jobs (q : Queue) : list WebhookJob := q_delivered q ++ option_list (q_delivering q) ++ q_buffer q.

Definition closed_last (l : list WebhookJob) : Prop := forall l1 j l2, l = l1 ++ j :: l2 -> job_kind j = NSessionClosed -> l2 = [].

(** What of a queue is not delivered. *)
Definition outstanding (q : Queue) : Z := Z.of_nat (length (q_buffer q) + length (q_waiting q) + length (option_list (q_delivering q))).
Definition total (m : gmap Z Queue) : Z := map_fold (fun _ q n => outstanding q + n) 0 m.

Lemma total_insert (m : gmap Z Queue) i q : m !! i = None -> total (<[i := q]> m) = outstanding q + total m.
Proof. intros H. unfold total. rewrite map_fold_insert_L; [done| |done]. intros. lia. Qed.

Lemma total_update (m : gmap Z Queue) i q q' : m !! i = Some q -> total (<[i := q']> m) = total m - outstanding q + outstanding q'.
Proof.
  intros H. assert (E : total m = outstanding q + total (base.delete i m)) by (rewrite <- (insert_delete_id m i q H) at 1; by rewrite total_insert by apply lookup_delete_eq).
  rewrite E, <- insert_delete_eq, total_insert by apply lookup_delete_eq. lia.
Qed.

Lemma closed_last_free l : Forall (fun j => job_kind j <> NSessionClosed) l -> closed_last l.
Proof. intros H l1 j l2 -> Hj. apply Forall_app in H as [_ H]. by apply Forall_cons in H as [H _]. Qed.

Lemma closed_last_snoc l j : Forall (fun j => job_kind j <> NSessionClosed) l -> closed_last (l ++ [j]).
Proof.
  intros H l1 x l2 E Hx. destruct (decide (l2 = [])) as [|Hne]; [done|]. exfalso. destruct (exists_last Hne) as (l3 & y & ->).
  rewrite app_comm_cons, app_assoc in E. apply app_inj_tail in E as [-> _]. apply Forall_app in H as [_ H]. by apply Forall_cons in H as [H _].
Qed.

Section queues.
Context (tun : LifecycleTunables).
Context (capacity : 1 <= queue_capacity tun).

Definition of_session (k : string * Z) (j : WebhookJob) : Prop := job_session j = k.
Definition notice_of (k : string * Z) (j : WebhookJob) : Prop := job_kind j <> NSessionClosed /\ job_session j = k.

Record queue_ok (next : Z) (i : Z) (q : Queue) : Prop := mkQueueOk {
  qo_id : i < next;
  qo_cap : q_capacity q = queue_capacity tun;
  qo_waiting : q_waiting q = [];
  qo_room : 0 <= free q;
  qo_last : closed_last (jobs q);
  qo_own : exists k, Forall (of_session k) (jobs q);
}.

Record qok (m : gmap (string * Z) SessionState) (rt : Runtime) : Prop := mkQok {
  qk_queue : forall i q, rt_queues rt !! i = Some q -> queue_ok (rt_next rt) i q;
  qk_live : forall k st, m !! k = Some st -> exists q, rt_queues rt !! ss_queue st = Some q /\ 1 <= free q /\ Forall (notice_of k) (jobs q);
  qk_inj : forall k k' st st', m !! k = Some st -> m !! k' = Some st' -> ss_queue st = ss_queue st' -> k = k';
  qk_pending : pending_webhooks rt = total (rt_queues rt);
}.

Lemma qok_rt m rt rt' : rt_quiet rt rt' -> qok m rt -> qok m rt'.
Proof.
  intros (E1 & E2 & E3 & E4) [H1 H2 H3 H4]. split; rewrite ?E1, ?E3; try done. intros i q Hq. destruct (H1 i q Hq). split; try done. lia.
Qed.

Lemma qok_put m rt k st st' : m !! k = Some st -> ss_queue st' = ss_queue st -> qok m rt -> qok (<[k := st']> m) rt.
Proof.
  intros Hk Hq [H1 H2 H3 H4]. split; [done| | |done].
  - intros k' x [[<- <-]|[_ Hx]]%lookup_insert_Some; [rewrite Hq; by apply H2|by apply H2].
  - intros k1 k2 x y [[<- <-]|[Hn1 Hx]]%lookup_insert_Some [[<- <-]|[Hn2 Hy]]%lookup_insert_Some E; [done| | |by apply (H3 k1 k2 x y)].
    + rewrite Hq in E. by apply (H3 k k2 st y).
    + rewrite Hq in E. by apply (H3 k1 k x st).
Qed.

Lemma qok_delete m rt k : qok m rt -> qok (base.delete k m) rt.
Proof.
  intros [H1 H2 H3 H4]. split; [done| | |done].
  - intros k' st [_ H]%lookup_delete_Some. by apply H2.
  - intros k1 k2 x y [_ Hx]%lookup_delete_Some [_ Hy]%lookup_delete_Some. by apply H3.
Qed.

Lemma qok_open m rt : qok m rt -> qok m (open_queue (queue_capacity tun) rt).2 /\ (forall i q, rt_queues rt !! i = Some q -> i < rt_next rt).
Proof.
  intros [H1 H2 H3 H4]. assert (Hlt : forall i q, rt_queues rt !! i = Some q -> i < rt_next rt) by (intros i q Hq; apply (H1 i q Hq)). split; [|done].
  assert (Hnew : rt_queues rt !! rt_next rt = None) by (destruct (rt_queues rt !! rt_next rt) eqn:E; [apply Hlt in E; lia|done]). split; cbn.
  - intros i q [[<- <-]|[_ Hq]]%lookup_insert_Some.
    + split; try done; cbn; [lia|unfold free; cbn; lia|by apply closed_last_free|exists (""%string, 0); constructor].
    + destruct (H1 i q Hq). split; try done. lia.
  - intros k st Hk. destruct (H2 k st Hk) as (q & Hq & K). exists q. split; [|done]. rewrite lookup_insert_ne; [done|]. apply Hlt in Hq. lia.
  - done.
  - rewrite H4, total_insert by done. done.
Qed.

Lemma qok_new m rt k st : m !! k = None -> ss_queue st = rt_next rt -> qok m rt -> qok (<[k := st]> m) (open_queue (queue_capacity tun) rt).2.
Proof.
  intros Hk Hq H. destruct (qok_open m rt H) as [[K1 K2 K3 K4] Hlt]. destruct H as [_ H2 _ _]. split; [done| | |done].
  - intros k' x [[<- <-]|[_ Hx]]%lookup_insert_Some; [|by apply K2]. eexists. rewrite Hq. cbn. rewrite lookup_insert_eq. split; [done|]. split; [unfold free; cbn; lia|constructor].
  - assert (Hother : forall k' x, m !! k' = Some x -> ss_queue x <> ss_queue st) by (intros k' x Hx E; destruct (H2 k' x Hx) as (q & Hq' & _); apply Hlt in Hq'; lia).
    intros k1 k2 x y [[<- <-]|[Hn1 Hx]]%lookup_insert_Some [[<- <-]|[Hn2 Hy]]%lookup_insert_Some E; [done| | |by apply (K3 k1 k2 x y)].
    + by destruct (Hother k2 y Hy).
    + by destruct (Hother k1 x Hx).
Qed.

Lemma on_queue_lookup id f rt q : rt_queues rt !! id = Some q -> rt_queues (on_queue id f rt) = <[id := f q]> (rt_queues rt).
Proof. intros H. cbn. apply map_eq. intros i. destruct (decide (id = i)) as [<-|]; [by rewrite lookup_alter_eq, lookup_insert_eq, H|by rewrite lookup_alter_ne, lookup_insert_ne]. Qed.

(** Changing one queue, with no session live on it or keeping it fit. *)
Lemma qok_update m rt id q q' pend : rt_queues rt !! id = Some q -> queue_ok (rt_next rt) id q' ->
  (forall k st, m !! k = Some st -> ss_queue st = id -> 1 <= free q' /\ Forall (notice_of k) (jobs q')) ->
  pend = pending_webhooks rt - outstanding q + outstanding q' -> qok m rt ->
  qok m (mkRuntime (rt_tasks rt) (<[id := q']> (rt_queues rt)) (rt_next rt) (next_empty_timer_token rt) pend (dropped_notices rt)).
Proof.
  intros Hq Hq' Hl -> [H1 H2 H3 H4]. split; cbn.
  - intros i x [[<- <-]|[_ Hx]]%lookup_insert_Some; [done|by apply H1].
  - intros k st Hk. destruct (decide (id = ss_queue st)) as [E|E]; [rewrite <- E, lookup_insert_eq; exists q'; split; [done|by apply (Hl k st)]|]. rewrite lookup_insert_ne by done. by apply H2.
  - done.
  - by rewrite H4, (total_update _ _ q).
Qed.

Lemma buffer_jobs job q : jobs (buffer_job job q) = jobs q ++ [job].
Proof. unfold jobs. cbn. by rewrite !app_assoc. Qed.

Lemma qok_push m rt k st job : m !! k = Some st -> notice_of k job -> qok m rt -> qok m (push_ordinary (ss_queue st) job rt).
Proof.
  intros Hk Hj H. unfold push_ordinary. destruct (qk_live _ _ H k st Hk) as (q & Hq & Hf & Hn). rewrite Hq. destruct (Z.leb_spec (free q) 1) as [Hle|Hgt]; [destruct H; by split|].
  assert (Hfree : free (buffer_job job q) = free q - 1) by (unfold free; cbn; rewrite length_app; cbn; lia).
  assert (Hall : Forall (notice_of k) (jobs (buffer_job job q))) by (rewrite buffer_jobs; apply Forall_app; split; [done|apply Forall_singleton; done]).
  assert (Hu : qok m (mkRuntime (rt_tasks rt) (<[ss_queue st := buffer_job job q]> (rt_queues rt)) (rt_next rt) (next_empty_timer_token rt) (pending_webhooks rt + 1) (dropped_notices rt))).
  { eapply qok_update; [exact Hq| | | |done].
    - destruct (qk_queue _ _ H _ _ Hq) as [Q1 Q2 Q3 Q4 Q5 Q6]. split; try done; [lia| |exists k; eapply Forall_impl; [exact Hall|by intros ? []]]. apply closed_last_free. eapply Forall_impl; [exact Hall|by intros ? []].
    - intros k' st' Hk' E. assert (k' = k) as -> by exact (qk_inj _ _ H k' k st' st Hk' Hk E). split; [lia|done].
    - unfold outstanding. cbn. rewrite length_app. cbn. lia. }
  assert (E : on_queue (ss_queue st) (buffer_job job) (set_pending_webhooks (pending_webhooks rt + 1) rt) = mkRuntime (rt_tasks rt) (<[ss_queue st := buffer_job job q]> (rt_queues rt)) (rt_next rt) (next_empty_timer_token rt) (pending_webhooks rt + 1) (dropped_notices rt)).
  { unfold on_queue, set_rt_queues. f_equal. by apply (on_queue_lookup (ss_queue st) (buffer_job job) rt q). }
  by rewrite E.
Qed.

(** Closing: the session's queue takes the terminal job at once, last. *)
Lemma qok_terminal m rt id q k job : (forall k st, m !! k = Some st -> ss_queue st <> id) -> rt_queues rt !! id = Some q -> 1 <= free q -> Forall (notice_of k) (jobs q) -> job_session job = k -> qok m rt ->
  qok m (push_terminal id job rt) /\ rt_queues (push_terminal id job rt) = <[id := buffer_job job q]> (rt_queues rt).
Proof.
  intros Hfree Hq Hf Hn Hj H. unfold push_terminal. rewrite Hq. set (f := fun q : Queue => if 0 <? free q then _ else _). assert (Ef : f q = buffer_job job q) by (unfold f; by replace (0 <? free q) with true by lia).
  assert (E : on_queue id f (set_pending_webhooks (pending_webhooks rt + 1) rt) = mkRuntime (rt_tasks rt) (<[id := buffer_job job q]> (rt_queues rt)) (rt_next rt) (next_empty_timer_token rt) (pending_webhooks rt + 1) (dropped_notices rt)).
  { unfold on_queue, set_rt_queues. f_equal. rewrite <- Ef. by apply (on_queue_lookup id f rt q). }
  rewrite E. split; [|done]. eapply qok_update; [exact Hq| | | |done].
  - destruct (qk_queue _ _ H _ _ Hq) as [Q1 Q2 Q3 Q4 Q5 Q6]. split; try done; [unfold free in *; cbn; rewrite length_app; cbn; lia| |].
    + rewrite buffer_jobs. apply closed_last_snoc. eapply Forall_impl; [exact Hn|by intros ? []].
    + exists k. rewrite buffer_jobs. apply Forall_app. split; [eapply Forall_impl; [exact Hn|by intros ? []]|apply Forall_singleton; done].
  - intros k' st Hk E'. by destruct (Hfree k' st Hk).
  - unfold outstanding. cbn. rewrite length_app. cbn. lia.
Qed.

(** Delivering moves a job along without reordering. *)
Lemma qok_move m rt id q q' pend : rt_queues rt !! id = Some q -> q_capacity q' = q_capacity q -> q_waiting q' = q_waiting q -> jobs q' = jobs q -> free q <= free q' ->
  pend = pending_webhooks rt - outstanding q + outstanding q' -> qok m rt ->
  qok m (mkRuntime (rt_tasks rt) (<[id := q']> (rt_queues rt)) (rt_next rt) (next_empty_timer_token rt) pend (dropped_notices rt)).
Proof.
  intros Hq E1 E2 E3 E4 E5 H. eapply qok_update; [exact Hq| | |done|done].
  - destruct (qk_queue _ _ H _ _ Hq) as [Q1 Q2 Q3 Q4 Q5 Q6]. split; [done|congruence|congruence|lia|by rewrite E3|by rewrite E3].
  - intros k st Hk E. destruct (qk_live _ _ H k st Hk) as (x & Hx & Hf & Hn). rewrite E, Hq in Hx. injection Hx as <-. rewrite E3. split; [lia|done].
Qed.

Lemma qok_drain m rt id : qok m rt -> qok m (drain_recv id rt) /\ qok m (drain_done id rt) /\ qok m (waiting_send id rt).
Proof.
  intros H. destruct (rt_queues rt !! id) as [q|] eqn:Hq.
  2:{ assert (E : forall f, on_queue id f rt = rt) by (intros f; unfold on_queue, set_rt_queues; destruct rt; cbn in *; f_equal; apply map_eq; intros i; destruct (decide (id = i)) as [<-|]; [by rewrite lookup_alter_eq, Hq|by rewrite lookup_alter_ne]).
      unfold drain_recv, drain_done, waiting_send. rewrite !E, Hq. done. }
  assert (Eon : forall f pend, set_pending_webhooks pend (on_queue id f rt) = mkRuntime (rt_tasks rt) (<[id := f q]> (rt_queues rt)) (rt_next rt) (next_empty_timer_token rt) pend (dropped_notices rt)).
  { intros f pend. unfold set_pending_webhooks. f_equal. by apply on_queue_lookup. }
  assert (Eid : forall f, on_queue id f rt = set_pending_webhooks (pending_webhooks rt) (on_queue id f rt)) by done.
  split; [|split].
  - unfold drain_recv. rewrite Eid, Eon. eapply qok_move; [exact Hq| | | | | |done]; (destruct (q_delivering q) eqn:Ed; [done||lia|]); (destruct (q_buffer q) as [|j l] eqn:Eb; [done||lia|]); try done.
    + unfold jobs. cbn. by rewrite Ed, Eb.
    + unfold free. cbn. rewrite Eb. cbn. lia.
    + unfold outstanding. cbn. rewrite Ed, Eb. cbn. lia.
  - unfold drain_done. rewrite Hq. cbn. destruct (q_delivering q) as [j|] eqn:Ed; [|done]. rewrite Eon. eapply qok_move; [exact Hq| | | | | |done]; try done.
    + unfold jobs. cbn. rewrite Ed. by rewrite <- app_assoc.
    + unfold outstanding. cbn. rewrite Ed. cbn. lia.
  - unfold waiting_send. rewrite Eid, Eon. destruct (qk_queue _ _ H _ _ Hq) as [_ _ Q3 _ _ _]. rewrite Q3. eapply qok_move; [exact Hq| | | | | |done]; try done; lia.
Qed.

(** ** Steps *)

Definition Q (c : Lifecycle) : Prop := qok (lc_sessions c) (lc_rt c).

Definition qpreserves (k : string * Z) (f : SessionState -> Runtime -> SessionState * Runtime) : Prop :=
  forall m st rt, m !! k = Some st -> qok m rt -> qok (<[k := (f st rt).1]> m) (f st rt).2.

Lemma same_queue_preserves k f : (forall st rt, ss_queue (f st rt).1 = ss_queue st /\ rt_quiet rt (f st rt).2) -> qpreserves k f.
Proof. intros Hf m st rt Hk H. destruct (Hf st rt) as [H1 H2]. eapply qok_put; [exact Hk|done|]. by eapply qok_rt. Qed.

Lemma quiet_preserves k f : quiet f -> qpreserves k f.
Proof. intros Hf. apply same_queue_preserves. intros st rt. destruct (Hf st rt) as [[= _ _ H1] H2]. done. Qed.

Lemma quiet_from k f g : (forall st, core (g st) = core st) -> quiet f -> qpreserves k (fun st rt => f (g st) rt).
Proof. intros Hg Hf. apply quiet_preserves. intros st rt. eapply quiet_seq; [apply Hg|apply rt_quiet_refl|apply Hf]. Qed.

Lemma q_on_state c k f : qpreserves k f -> Q c -> Q (on_state c k f).
Proof. intros Hf H. unfold on_state. destruct (lc_sessions c !! k) as [st|] eqn:Hk; [|done]. by apply (Hf (lc_sessions c) st (lc_rt c)). Qed.

Lemma q_on_entry c k f : qpreserves k f -> Q c -> Q (on_entry tun c k f).
Proof.
  intros Hf H. unfold on_entry. destruct (lc_sessions c !! k) as [st|] eqn:Hk; [by apply (Hf (lc_sessions c) st (lc_rt c))|].
  destruct (new_state (queue_capacity tun) [] (lc_rt c)) as [st0 rt0] eqn:E0. assert (H0 : qok (<[k := st0]> (lc_sessions c)) rt0).
  { unfold new_state in E0. injection E0 as <- <-. apply (qok_new _ _ k); [done|done|exact H]. }
  specialize (Hf (<[k := st0]> (lc_sessions c)) st0 rt0 (lookup_insert_eq _ _ _) H0). rewrite insert_insert_eq in Hf. exact Hf.
Qed.

Lemma q_fold {A} (key : A -> string * Z) (f : Lifecycle -> A -> SessionState -> Runtime -> SessionState * Runtime) l :
  (forall c x, quiet (f c x)) -> forall c, Q c -> Q (foldl (fun c x => on_state c (key x) (f c x)) c l).
Proof. intros Hf. induction l as [|x l IH]; intros c H; cbn [foldl]; [done|]. apply IH, q_on_state; [apply quiet_preserves, Hf|done]. Qed.

Lemma q_ext c c' : lc_sessions c' = lc_sessions c -> rt_quiet (lc_rt c) (lc_rt c') -> Q c -> Q c'.
Proof. unfold Q. intros -> E. by apply qok_rt. Qed.
Lemma q_same c c' : lc_sessions c' = lc_sessions c -> lc_rt c' = lc_rt c -> Q c -> Q c'.
Proof. unfold Q. by intros -> ->. Qed.

(** A session taken out with its queue closed behind it. *)
Lemma q_remove c k st st' : lc_sessions c !! k = Some st -> ss_queue st' = ss_queue st -> Q c -> Q (remove_and_close c k st') /\
  forall job, session_closed_job (set_lc_sessions (base.delete k (lc_sessions c)) c) k = Some job ->
    exists q, rt_queues (lc_rt c) !! ss_queue st = Some q /\ rt_queues (lc_rt (remove_and_close c k st')) !! ss_queue st = Some (buffer_job job q).
Proof.
  intros Hk Eq H. destruct (qk_live _ _ H k st Hk) as (q & Hq & Hf & Hn). unfold remove_and_close, close_and_retire. set (c1 := set_lc_sessions _ c).
  assert (H1 : qok (base.delete k (lc_sessions c)) (lc_rt c)) by (by apply qok_delete).
  assert (Hfree : forall k' x, base.delete k (lc_sessions c) !! k' = Some x -> ss_queue x <> ss_queue st).
  { intros k' x [Hne Hx]%lookup_delete_Some E. apply Hne. symmetry. exact (qk_inj _ _ H k' k x st Hx Hk E). }
  change (lc_rt c1) with (lc_rt c). split.
  - unfold Q. cbn [lc_sessions lc_rt set_lc_setup set_lc_notices set_lc_rt c1 set_lc_sessions]. eapply qok_rt; [apply abort_timers_quiet|]. destruct (session_closed_job c1 k) as [job|] eqn:Ej; [|done].
    rewrite Eq. eapply (qok_terminal (base.delete k (lc_sessions c)) (lc_rt c) (ss_queue st) q k job); [done|done|done|done| |done]. unfold session_closed_job in Ej. destruct (bool_decide _); [by injection Ej as <-|done].
  - intros job Ej. exists q. split; [done|]. rewrite Ej. cbn [lc_rt set_lc_setup set_lc_notices set_lc_rt]. destruct (abort_timers_quiet st' (push_terminal (ss_queue st') job (lc_rt c))) as (-> & _). rewrite Eq.
    destruct (qok_terminal (base.delete k (lc_sessions c)) (lc_rt c) (ss_queue st) q k job Hfree Hq Hf Hn) as [_ ->]; [|done|by rewrite lookup_insert_eq].
    unfold session_closed_job in Ej. destruct (bool_decide _); [by injection Ej as <-|done].
Qed.

Lemma q_finish c k : Q c -> Q (finish_if_all_closed c k).
Proof. intros H. unfold finish_if_all_closed. destruct (lc_sessions c !! k) as [st|] eqn:Hk; [|done]. destruct (_ || _); [done|]. exact (proj1 (q_remove c k st (set_session_closed_enqueued true st) Hk eq_refl H)). Qed.

Lemma q_put c k st st' : lc_sessions c !! k = Some st -> ss_queue st' = ss_queue st -> Q c -> Q (put_state c k (st', lc_rt c)).
Proof. intros Hk Hc. by intros H; apply (qok_put _ _ k st). Qed.

Lemma q_fire c id : Q c -> Q (fire tun c id).
Proof.
  intros H. unfold fire. destruct (rt_tasks (lc_rt c) !! id) as [t|]; [|done]. destruct (task_awake t); [|done]. set (c1 := set_lc_rt _ c).
  assert (H1 : Q c1) by (by apply (q_ext c); [done|split; [done|]; split; [cbn; lia|done]|]). clearbody c1. destruct (task_kind t) as [k slot|k|k|k|k token].
  - unfold fire_holdout. destruct (lc_sessions c1 !! k) as [st|] eqn:Hk; [|done]. assert (H2 : Q (put_state c1 k (set_holdout_timer None st, lc_rt c1))) by (by eapply q_put).
    destruct (bool_decide _); [done|]. by refine (q_same _ _ _ _ H2).
  - unfold fire_linger. destruct (lc_sessions c1 !! k) as [st|] eqn:Hk; [|done]. assert (H2 : Q (put_state c1 k (set_linger_timer None st, lc_rt c1))) by (by eapply q_put).
    destruct (_ || _); [done|]. destruct (filter _ _); [done|]. by refine (q_same _ _ _ _ H2).
  - unfold fire_webhook_reap. destruct (lc_sessions c1 !! k) as [st|] eqn:Hk; [|done]. destruct (negb _); [done|]. unfold Q. cbn [lc_sessions lc_rt set_lc_setup set_lc_notices set_lc_rt set_lc_sessions].
    eapply qok_rt; [apply abort_timers_quiet|]. by apply qok_delete.
  - unfold fire_never_started. destruct (lc_sessions c1 !! k) as [st|] eqn:Hk; [|done]. destruct (ss_started _); [by eapply q_put|exact (proj1 (q_remove c1 k st (set_never_started_timer None st) Hk eq_refl H1))].
  - unfold fire_empty_session. destruct (lc_sessions c1 !! k) as [st|] eqn:Hk; [|done]. destruct (bool_decide _); [|done]. destruct (_ || _ || _ || _); [by eapply q_put|exact (proj1 (q_remove c1 k st (set_empty_timer None st) Hk eq_refl H1))].
Qed.

Lemma notice_kind_open n : notice_kind n <> NSessionClosed.
Proof. by destruct n. Qed.

Lemma q_handle c n : Q c -> Q (handle_notice tun c n).
Proof.
  intros Ht. unfold handle_notice. set (c1 := match n with Departure _ _ _ _ _ _ => c | _ => _ end). assert (H1 : Q c1) by (unfold c1; destruct n; try done; by apply (q_same c)).
  set (c2 := set_lc_notices _ c1). assert (H2 : Q c2) by (by apply (q_same c1)). set (c3 := match n with Departure _ _ _ _ _ _ => c2 | _ => _ end).
  assert (H3 : Q c3) by (unfold c3; destruct n; try done; destruct (bool_decide _); [apply q_on_entry; [apply quiet_preserves, arm_webhook_quiet|done]|done]).
  destruct (bool_decide _); [|done]. destruct (resolve_notice_prefix c3 n); [|done]. apply q_on_entry; [|done]. intros m st rt Hk H.
  apply (quiet_preserves (notice_session n) _ (arm_webhook_quiet tun (notice_session n) (instant_now c3))); [done|]. eapply qok_push; [exact Hk| |done]. split; [apply notice_kind_open|done].
Qed.

Lemma q_record c n : Q c -> Q (record_notice tun c n).
Proof.
  assert (Hseq : forall k now, quiet (fun st rt => let '(st, rt) := mark_started st rt in let '(st, rt) := reevaluate_reaps tun k now st rt in arm_webhook_reap_if_orphan tun k now st rt)).
  { intros k now st rt. apply (quiet_bind st rt (mark_started st rt)); [apply mark_started_quiet|]. intros st1 rt1. apply (quiet_bind st1 rt1 (reevaluate_reaps tun k now st1 rt1)); [apply reevaluate_reaps_quiet|apply arm_webhook_quiet]. }
  assert (Hone : forall k now, quiet (fun st rt => let '(st, rt) := mark_started st rt in arm_webhook_reap_if_orphan tun k now st rt)).
  { intros k now st rt. apply (quiet_bind st rt (mark_started st rt)); [apply mark_started_quiet|apply arm_webhook_quiet]. }
  intros Ht. destruct n as [k slot kind count fin x|k ord x|k slot x|k slot x|k t x|k slot x|k slot]; cbn [record_notice]; try done.
  - set (c1 := on_departure _ _ _ _ _ _ _). assert (H1 : Q c1); [|by apply (q_same c1)]. apply q_on_entry; [|done].
    refine (quiet_from k _ (fun st => note_accounted slot (match ss_departures st !! slot with Some _ => st | None => _ end)) _ (Hseq k (instant_now c))).
    intros st. rewrite note_accounted_core. by destruct (ss_departures st !! slot).
  - apply q_on_entry; [|done]. refine (quiet_from k _ (note_accounted slot) _ (Hseq k (instant_now c))). apply note_accounted_core.
  - apply q_on_entry; [|done]. by refine (quiet_from k _ (fun st => set_connected_slots _ st) _ (Hone k (instant_now c))).
  - apply q_on_entry; [|done]. by refine (quiet_from k _ (fun st => set_started_at_ms _ st) _ (Hone k (instant_now c))).
  - apply q_on_entry; [|done]. by refine (quiet_from k _ (fun st => set_started_slots _ st) _ (Hone k (instant_now c))).
Qed.

Context {sha : Sha256} {mint : MintToken}.

Lemma register_preserves c k serving players observers : Q c -> Q (register_session tun c k serving players observers).
Proof.
  apply q_on_entry, same_queue_preserves. intros st rt.
  destruct (register_tail_quiet tun k (instant_now c) (registered serving players observers st) rt) as [K1 K2]. cbv beta in K1, K2. apply core_queue in K1. split; [exact K1|exact K2].
Qed.

Lemma on_rehome_preserves c k dead r_new : Q c -> Q (on_rehome c k dead r_new).
Proof.
  apply q_on_state, same_queue_preserves. intros st rt. destruct (dead =? r_new); [split; [done|apply abort_opt_quiet]|]. destruct (negb _); [split; [done|apply rt_quiet_refl]|]. split; [done|apply abort_opt_quiet].
Qed.

Lemma q_rehome c k dead : Q c -> Q (rehome_session c k dead).2.
Proof.
  intros H. unfold rehome_session. destruct (rehome_pick _ _ _ _) as [o|r_new e revs]; [done|]. destruct (rehome_commit _ _ _ _ _ _) as [s|]; [|done]. cbn [snd].
  assert (H1 : Q (on_rehome (set_lc_setup s c) k dead r_new)) by (apply on_rehome_preserves; by apply (q_same c)). by refine (q_same _ _ _ _ H1).
Qed.

Lemma q_step c o c' : Q c -> lc_step tun c o = Some c' -> Q c'.
Proof.
  intros H.
  destruct o as [rq expires hold unix|k|k dead|k relay dep|k relay|h boot|relay gen|relay gen v|n|n|k|relay gen roster complete|p|k slot|k relay gen|k expect cur|relay|p|d wall|id|id| |q|q|q]; cbn [lc_step].
  - unfold create_session. destruct (create_body _ _ _ _ _) as [[o s]|]; cbn [mbind option_bind fmap option_fmap option_map snd]; [|done]. intros [= <-].
    assert (H1 : Q (set_lc_setup s c)) by (by apply (q_same c)). destruct o as [[response ids []|]|]; try done. by apply register_preserves.
  - intros [= <-]. apply q_on_state; [apply quiet_preserves, reset_quiet|done].
  - intros [= <-]. by apply q_rehome.
  - intros [= <-]. by apply (q_same c).
  - intros [= <-]. unfold evict_evidence_session. pose proof (q_rehome c k relay H) as H1. destruct (rehome_session c k relay) as [[| |ep] c1]; [done| |done]. cbn in H1.
    unfold retire_unsupported. destruct (_ && _ && _); [|done]. destruct (lc_sessions c1 !! k) as [st|] eqn:Hk; [exact (proj1 (q_remove c1 k st st Hk eq_refl H1))|].
    destruct (new_state (queue_capacity tun) [] (lc_rt c1)) as [st rt] eqn:En. unfold new_state in En. injection En as <- <-.
    set (st := mkSessionState _ _ _ _ _ _ _ _ _ _ _ _ _ _ _ _ _ _ _ _ _ _). set (c2 := set_lc_sessions (<[k := st]> (lc_sessions c1)) (set_lc_rt (open_queue (queue_capacity tun) (lc_rt c1)).2 c1)).
    assert (H2 : Q c2) by (by apply (qok_new _ _ k)). assert (Hk2 : lc_sessions c2 !! k = Some st) by apply lookup_insert_eq.
    destruct (q_remove c2 k st st Hk2 eq_refl H2) as [K _]. unfold Q in K |- *. unfold remove_and_close in K. cbn [close_and_retire lc_sessions c2 set_lc_sessions set_lc_setup set_lc_notices set_lc_rt lc_rt] in K |- *.
    by rewrite delete_insert_id in K.
  - intros [= <-]. unfold enroll_relay. destruct (try_enroll (registry (lc_setup c)) h) as [[gen g]|]; cbn [mbind option_bind fmap option_fmap option_map snd default]; [|done].
    set (c1 := apply_relay_enrolled tun _ _ gen). assert (H1 : Q c1).
    { unfold c1, apply_relay_enrolled. match goal with |- context [if ?b then _ else _] => destruct b end; [by apply (q_same c)|].
      apply (q_fold fst (fun _ p => reopen tun (hello_id h) gen p.1 _)); [intros; apply reopen_quiet|]. by apply (q_same c). }
    clearbody c1. destruct (note_boot_id _ _ _) as [lin g2]. set (c2 := set_lc_setup (with_registry _ g2) c1). assert (H2 : Q c2) by (by apply (q_same c1)).
    set (c3 := match lin with Continuous => _ | Broken => _ end). assert (H3 : Q c3).
    { unfold c3. destruct lin; [done|]. destruct H2 as [K1 K2 K3 K4]. split; cbn; try done.
      - intros k st. rewrite lookup_fmap. destruct (lc_sessions c1 !! k) as [x|] eqn:Hx; [|done]. cbn. intros [= <-]. destruct (bool_decide _); exact (K2 k x Hx).
      - intros k k' st st'. rewrite !lookup_fmap. destruct (lc_sessions c1 !! k) as [x|] eqn:Hx; [|done]. destruct (lc_sessions c1 !! k') as [y|] eqn:Hy; [|done]. cbn. intros [= <-] [= <-] E.
        apply (K3 k k' x y Hx Hy). by destruct (bool_decide _), (bool_decide _). }
    clearbody c3. match goal with |- context [if ?b then _ else _] => destruct b end; by apply (q_same c3).
  - intros [= <-]. unfold disconnect_relay. destruct (remove_if_current _ _ _) as [[] g]; [|done]. unfold apply_relay_disconnected. cbn [relay_epochs set_lc_setup].
    destruct (relay_epochs c !! relay); [|by apply (q_same c)]. destruct (_ || _); [by apply (q_same c)|].
    apply (q_fold fst (fun _ p => lapse tun relay gen p.1 _)); [intros; apply lapse_quiet|]. by apply (q_same c).
  - intros [= <-]. by apply (q_same c).
  - intros [= <-]. by apply q_record.
  - intros [= <-]. by apply q_handle.
  - intros [= <-]. by apply (q_same c).
  - intros [= <-]. unfold on_relay_heartbeat. destruct (negb _); [done|]. set (occ := sp_session <$> _).
    apply (q_fold (fun y => y) (fun c k => beat_state tun relay gen (bool_decide (k ∈ occ)) complete k (instant_now c))); [|done]. intros c1 k. apply beat_quiet.
  - intros [= <-]. unfold merge_turn_evidence. destruct (sp_forwarded p); [done|]. apply q_on_entry; [|done].
    by refine (quiet_from (sp_session p) _ (fun st => set_forwarded_slots _ st) _ (arm_webhook_quiet tun (sp_session p) (instant_now c))).
  - intros [= <-]. apply q_on_entry; [|done]. by refine (quiet_from k _ (fun st => set_lobby_violation_slots _ st) _ (arm_webhook_quiet tun k (instant_now c))).
  - intros [= <-]. unfold on_session_closed. destruct (negb _); [done|]. destruct (negb _); [done|]. destruct (lc_sessions c !! k) as [st|] eqn:Hk; [|done]. destruct (negb _); [done|]. apply q_finish.
    by apply (quiet_preserves k _ (close_quiet tun relay gen k (instant_now c))).
  - intros [= <-]. by apply (q_same c).
  - intros [= <-]. by apply (q_same c).
  - intros [= <-]. by apply (q_same c).
  - intros [= <-]. by apply (q_same c).
  - intros [= <-]. unfold wake. destruct (rt_tasks (lc_rt c) !! id); [|done]. destruct (_ <=? _); [|done]. apply (q_ext c); [done|split; [done|]; split; [cbn; lia|done]|done].
  - intros [= <-]. by apply q_fire.
  - intros [= <-]. unfold send_next_close. destruct (lc_closes c) as [|[r y] rest]; [done|]. by apply (q_same c).
  - intros [= <-]. by apply qok_drain.
  - intros [= <-]. by apply qok_drain.
  - intros [= <-]. by apply qok_drain.
Qed.

(** ** Where sessions end *)

(** If the step takes the session out, its queue took in [sessionClosed] and nothing else. *)
Definition ends (c c' : Lifecycle) (k : string * Z) (st : SessionState) : Prop :=
  lc_sessions c' !! k = None -> k.1 ∈ notify_tenants c ->
  exists q x, rt_queues (lc_rt c) !! ss_queue st = Some q /\ rt_queues (lc_rt c') !! ss_queue st = Some (buffer_job (mkWebhookJob k NSessionClosed 0 x) q).

Definition keeps (c c' : Lifecycle) : Prop := forall k, is_Some (lc_sessions c !! k) -> is_Some (lc_sessions c' !! k).

Lemma keeps_ends c c' k st : keeps c c' -> lc_sessions c !! k = Some st -> ends c c' k st.
Proof. intros H Hk Hn. destruct (H k ltac:(by eexists)) as [x Hx]. congruence. Qed.

Lemma keeps_same c c' : lc_sessions c' = lc_sessions c -> keeps c c'.
Proof. by intros E k; rewrite E. Qed.

Lemma keeps_sessions_trans c1 c2 c3 : keeps c1 c2 -> keeps c2 c3 -> keeps c1 c3.
Proof. intros H1 H2 k Hk. by apply H2, H1. Qed.

Lemma keeps_put c k p : keeps c (put_state c k p).
Proof. intros k' H. cbn. destruct (decide (k = k')) as [<-|]; [rewrite lookup_insert_eq|rewrite lookup_insert_ne by done]; [by eexists|done]. Qed.

Lemma keeps_on_state c k f : keeps c (on_state c k f).
Proof. unfold on_state. destruct (lc_sessions c !! k); [apply keeps_put|by apply keeps_same]. Qed.

Lemma keeps_on_entry c k f : keeps c (on_entry tun c k f).
Proof. unfold on_entry. destruct (match lc_sessions c !! k with Some st => _ | None => _ end). apply keeps_put. Qed.

Lemma keeps_fold {A} (key : A -> string * Z) (f : Lifecycle -> A -> SessionState -> Runtime -> SessionState * Runtime) l :
  forall c, keeps c (foldl (fun c x => on_state c (key x) (f c x)) c l).
Proof. induction l as [|x l IH]; intros c; cbn [foldl]; [by apply keeps_same|]. eapply keeps_sessions_trans; [apply keeps_on_state|apply IH]. Qed.

(** The end of a session after an update that kept the queues. *)
Lemma ends_after c c1 c' k st st1 : rt_queues (lc_rt c1) = rt_queues (lc_rt c) -> notify_tenants c1 = notify_tenants c -> ss_queue st1 = ss_queue st -> ends c1 c' k st1 -> ends c c' k st.
Proof. intros E1 E2 E3 H Hn Ht. unfold ends in H. rewrite E1, E2, E3 in H. by apply H. Qed.

Lemma ends_remove c k st st' k0 st0 : Q c -> lc_sessions c !! k = Some st -> ss_queue st' = ss_queue st -> lc_sessions c !! k0 = Some st0 -> ends c (remove_and_close c k st') k0 st0.
Proof.
  intros H Hk Eq Hk0 Hn Ht. destruct (decide (k = k0)) as [<-|Hne]; [|cbn in Hn; rewrite lookup_delete_ne in Hn by done; congruence].
  rewrite Hk in Hk0. injection Hk0 as <-. destruct (q_remove c k st st' Hk Eq H) as [_ K].
  destruct (K (mkWebhookJob k NSessionClosed 0 (session_refs (lc_setup c) !! k ≫= external_id))) as (q & K1 & K2); [unfold session_closed_job; by rewrite bool_decide_true|].
  exists q. eexists. by split.
Qed.

Lemma ends_fire c id k st : Q c -> lc_sessions c !! k = Some st -> ss_serving st <> [] -> ends c (fire tun c id) k st.
Proof.
  intros H Hk Hs. unfold fire. destruct (rt_tasks (lc_rt c) !! id) as [t|]; [|by apply keeps_ends; [apply keeps_same|]].
  destruct (task_awake t); [|by apply keeps_ends; [apply keeps_same|]]. set (c1 := set_lc_rt _ c).
  assert (H1 : Q c1) by (by apply (q_ext c); [done|split; [done|]; split; [cbn; lia|done]|]). apply (ends_after c c1 _ k st st); [done|done|done|].
  change (lc_sessions c1 !! k = Some st) in Hk. clearbody c1. destruct (task_kind t) as [k' slot|k'|k'|k'|k' token].
  - apply keeps_ends; [|done]. unfold fire_holdout. destruct (lc_sessions c1 !! k'); [|by apply keeps_same]. destruct (bool_decide _); exact (keeps_put c1 k' (set_holdout_timer None _, lc_rt c1)).
  - apply keeps_ends; [|done]. unfold fire_linger. destruct (lc_sessions c1 !! k'); [|by apply keeps_same]. destruct (_ || _); [apply keeps_put|]. destruct (filter _ _); exact (keeps_put c1 k' (set_linger_timer None _, lc_rt c1)).
  - unfold fire_webhook_reap. destruct (lc_sessions c1 !! k') as [st'|] eqn:Hk'; [|by apply keeps_ends; [apply keeps_same|]]. destruct (bool_decide_reflect (ss_serving st' = [])) as [E|E]; [|by apply keeps_ends; [apply keeps_same|]].
    intros Hn. cbn in Hn. rewrite lookup_delete_ne in Hn; [congruence|]. intros ->. congruence.
  - unfold fire_never_started. destruct (lc_sessions c1 !! k') as [st'|] eqn:Hk'; [|by apply keeps_ends; [apply keeps_same|]]. destruct (ss_started _); [by apply keeps_ends; [apply keeps_put|]|by apply (ends_remove c1 k' st')].
  - unfold fire_empty_session. destruct (lc_sessions c1 !! k') as [st'|] eqn:Hk'; [|by apply keeps_ends; [apply keeps_same|]]. destruct (bool_decide _); [|by apply keeps_ends; [apply keeps_same|]].
    destruct (_ || _ || _ || _); [by apply keeps_ends; [apply keeps_put|]|by apply (ends_remove c1 k' st')].
Qed.

Lemma rehome_keeps c k dead : keeps c (rehome_session c k dead).2 /\ rt_queues (lc_rt (rehome_session c k dead).2) = rt_queues (lc_rt c) /\
  notify_tenants (rehome_session c k dead).2 = notify_tenants c /\
  forall k' st, lc_sessions c !! k' = Some st -> exists st', lc_sessions (rehome_session c k dead).2 !! k' = Some st' /\ ss_queue st' = ss_queue st.
Proof.
  unfold rehome_session. assert (Hsame : keeps c c /\ rt_queues (lc_rt c) = rt_queues (lc_rt c) /\ notify_tenants c = notify_tenants c /\ forall k' st, lc_sessions c !! k' = Some st -> exists st', lc_sessions c !! k' = Some st' /\ ss_queue st' = ss_queue st).
  { split; [by apply keeps_same|]. split; [done|]. split; [done|]. intros k' st Hk. by exists st. }
  destruct (rehome_pick _ _ _ _) as [o|r_new e revs]; [exact Hsame|]. destruct (rehome_commit _ _ _ _ _ _) as [s|]; [|exact Hsame]. cbn [snd]. unfold on_rehome, on_state. cbn [lc_sessions set_lc_setup].
  destruct (lc_sessions c !! k) as [st|] eqn:Hk; [|exact Hsame].
  match goal with |- context [put_state _ k ?p] => set (p1 := p) end.
  assert (Hp : ss_queue p1.1 = ss_queue st /\ rt_queues p1.2 = rt_queues (lc_rt c)).
  { unfold p1. destruct (dead =? r_new); [split; [done|apply abort_opt_quiet]|]. destruct (negb _); [by split|]. split; [done|apply abort_opt_quiet]. }
  clearbody p1. destruct Hp as [P1 P2]. split; [apply (keeps_put c k p1)|]. split; [exact P2|]. split; [done|]. intros k' st' Hk'. cbn.
  destruct (decide (k = k')) as [<-|]; [rewrite lookup_insert_eq|rewrite lookup_insert_ne by done]; [|by exists st']. exists p1.1. split; [done|]. congruence.
Qed.

Lemma ends_step c o c' k st : Q c -> lc_step tun c o = Some c' -> lc_sessions c !! k = Some st -> ss_serving st <> [] -> ends c c' k st.
Proof.
  intros H Hstep Hk Hs. assert (Hkeep : keeps c c' -> ends c c' k st) by (intros K; by apply keeps_ends). revert Hstep.
  destruct o as [rq expires hold unix|k'|k' dead|k' relay dep|k' relay|h boot|relay gen|relay gen v|n|n|k'|relay gen roster complete|p|k' slot|k' relay gen|k' expect cur|relay|p|d wall|id|id| |q|q|q]; cbn [lc_step].
  - unfold create_session. destruct (create_body _ _ _ _ _) as [[o s]|]; cbn [mbind option_bind fmap option_fmap option_map snd]; [|done]. intros [= <-]. apply Hkeep.
    destruct o as [[response ids []|]|]; try by apply keeps_same. apply (keeps_on_entry (set_lc_setup s c)).
  - intros [= <-]. apply Hkeep, keeps_on_state.
  - intros [= <-]. apply Hkeep, rehome_keeps.
  - intros [= <-]. by apply Hkeep, keeps_same.
  - intros [= <-]. unfold evict_evidence_session in *. destruct (rehome_keeps c k' relay) as (K1 & K2 & K3 & K4). pose proof (q_rehome c k' relay H) as HQ.
    destruct (rehome_session c k' relay) as [[| |ep] c1]; cbn in *; [by apply Hkeep| |by apply Hkeep]. destruct (K4 k st Hk) as (st1 & Hk1 & Eq).
    apply (ends_after c c1 _ k st st1 K2 K3 Eq). unfold retire_unsupported. destruct (_ && _ && _); [|by apply keeps_ends; [apply keeps_same|]].
    destruct (lc_sessions c1 !! k') as [st'|] eqn:Hk'; [by apply (ends_remove c1 k' st')|]. apply keeps_ends; [|done]. by apply keeps_same.
  - intros [= <-]. apply Hkeep. unfold enroll_relay. destruct (try_enroll (registry (lc_setup c)) h) as [[gen g]|]; cbn [mbind option_bind fmap option_fmap option_map snd default]; [|by apply keeps_same].
    set (c1 := apply_relay_enrolled tun _ _ gen). assert (H1 : keeps c c1).
    { unfold c1, apply_relay_enrolled. match goal with |- context [if ?b then _ else _] => destruct b end; [by apply keeps_same|].
      match goal with |- keeps c (each_session ?x ?f) => apply (keeps_fold fst (fun _ p => f p.1) _ x) end. }
    clearbody c1. destruct (note_boot_id _ _ _) as [lin g2]. set (c2 := set_lc_setup (with_registry _ g2) c1). set (c3 := match lin with Continuous => _ | Broken => _ end).
    assert (H3 : keeps c c3). { apply (keeps_sessions_trans c c1 c3 H1). unfold c3. destruct lin; [by apply keeps_same|]. intros k0. cbn. rewrite lookup_fmap. by intros [x ->]; eexists. }
    clearbody c3. match goal with |- context [if ?b then _ else _] => destruct b end; exact H3.
  - intros [= <-]. apply Hkeep. unfold disconnect_relay. destruct (remove_if_current _ _ _) as [[] g]; [|by apply keeps_same]. unfold apply_relay_disconnected. cbn [relay_epochs set_lc_setup].
    destruct (relay_epochs c !! relay); [|by apply keeps_same]. destruct (_ || _); [by apply keeps_same|].
    match goal with |- keeps c (each_session ?x ?f) => apply (keeps_fold fst (fun _ p => f p.1) _ x) end.
  - intros [= <-]. by apply Hkeep, keeps_same.
  - intros [= <-]. apply Hkeep. destruct n; cbn [record_notice]; try (by apply keeps_same); apply keeps_on_entry.
  - intros [= <-]. apply Hkeep. unfold handle_notice. set (c1 := match n with Departure _ _ _ _ _ _ => c | _ => _ end). assert (H1 : keeps c c1) by (unfold c1; destruct n; by apply keeps_same).
    set (c2 := set_lc_notices _ c1). assert (H2 : keeps c c2) by exact H1. set (c3 := match n with Departure _ _ _ _ _ _ => c2 | _ => _ end).
    assert (H3 : keeps c c3) by (unfold c3; destruct n; try exact H2; destruct (bool_decide _); [|exact H2]; apply (keeps_sessions_trans _ _ _ H2), keeps_on_entry).
    destruct (bool_decide _); [|done]. destruct (resolve_notice_prefix c3 n); [|done]. apply (keeps_sessions_trans _ _ _ H3), keeps_on_entry.
  - intros [= <-]. by apply Hkeep, keeps_same.
  - intros [= <-]. apply Hkeep. unfold on_relay_heartbeat. destruct (negb _); [by apply keeps_same|]. set (occ := sp_session <$> _).
    apply (keeps_fold (fun y => y) (fun c k => beat_state tun relay gen (bool_decide (k ∈ occ)) complete k (instant_now c))).
  - intros [= <-]. apply Hkeep. unfold merge_turn_evidence. destruct (sp_forwarded p); [by apply keeps_same|apply keeps_on_entry].
  - intros [= <-]. apply Hkeep, keeps_on_entry.
  - intros [= <-]. unfold on_session_closed in *. destruct (negb _); [by apply Hkeep, keeps_same|]. destruct (negb _); [by apply Hkeep, keeps_same|].
    destruct (lc_sessions c !! k') as [st'|] eqn:Hk'; [|by apply Hkeep, keeps_same]. destruct (negb _); [by apply Hkeep, keeps_same|].
    destruct (close_quiet tun relay gen k' (instant_now c) st' (lc_rt c)) as [K1 K2]. destruct (close_state tun relay gen k' (instant_now c) st' (lc_rt c)) as [st1 rt1] eqn:Ec. cbn in K1, K2.
    assert (H1 : Q (put_state c k' (st1, rt1))) by (pose proof (quiet_preserves k' _ (close_quiet tun relay gen k' (instant_now c)) _ _ _ Hk' H) as HQ; by rewrite Ec in HQ).
    set (c1 := put_state c k' (st1, rt1)) in *. assert (Hk1 : exists x, lc_sessions c1 !! k = Some x /\ ss_queue x = ss_queue st).
    { cbn. destruct (decide (k' = k)) as [->|]; [rewrite lookup_insert_eq|rewrite lookup_insert_ne by done]; [|by exists st]. exists st1. split; [done|]. rewrite Hk in Hk'. injection Hk' as <-. by apply core_queue. }
    destruct Hk1 as (x & Hx & Eq). apply (ends_after c c1 _ k st x); [apply K2|done|done|]. unfold finish_if_all_closed.
    destruct (lc_sessions c1 !! k') as [y|] eqn:Hy; [|by apply keeps_ends; [apply keeps_same|]]. destruct (_ || _); [by apply keeps_ends; [apply keeps_same|]|]. by apply (ends_remove c1 k' y).
  - intros [= <-]. by apply Hkeep, keeps_same.
  - intros [= <-]. by apply Hkeep, keeps_same.
  - intros [= <-]. by apply Hkeep, keeps_same.
  - intros [= <-]. by apply Hkeep, keeps_same.
  - intros [= <-]. apply Hkeep. unfold wake. destruct (rt_tasks (lc_rt c) !! id); [|by apply keeps_same]. destruct (_ <=? _); by apply keeps_same.
  - intros [= <-]. by apply ends_fire.
  - intros [= <-]. apply Hkeep. unfold send_next_close. destruct (lc_closes c) as [|[r y] rest]; by apply keeps_same.
  - intros [= <-]. by apply Hkeep, keeps_same.
  - intros [= <-]. by apply Hkeep, keeps_same.
  - intros [= <-]. by apply Hkeep, keeps_same.
Qed.

Lemma q_run ops : forall c c', Q c -> lc_run tun c ops = Some c' -> Q c'.
Proof.
  induction ops as [|o ops IH]; intros c c' H; cbn [lc_run]; [by intros [= <-]|]. destruct (lc_step tun c o) as [c1|] eqn:E; cbn [mbind option_bind]; [|done]. apply IH. by eapply q_step.
Qed.

Lemma q_start s nt : Q (new_lifecycle s nt).
Proof. split; cbn; [intros ? ?|intros ? ?|intros ? ? ? ?|]; rewrite ?lookup_empty; done. Qed.

(** C19 In every state the coordinator reaches, each webhook queue holds one session's
    notices within its capacity, [sessionClosed] at most once and last, and no
    sender waits for room; the count of pending webhooks is what is still to be
    delivered over all queues; and a step that ends a placed session of a tenant
    that takes webhooks appends exactly its [sessionClosed]. *)
Theorem session_closed_last (s : SessionSetup) (nt : gset string) (ops : list LOp) (c : Lifecycle) : lc_run tun (new_lifecycle s nt) ops = Some c ->
  (forall i q, rt_queues (lc_rt c) !! i = Some q ->
     q_waiting q = [] /\ 0 <= free q /\ closed_last (jobs q) /\ exists k, Forall (of_session k) (jobs q)) /\
  pending_webhooks (lc_rt c) = total (rt_queues (lc_rt c)) /\
  (forall o c' k st, lc_step tun c o = Some c' -> lc_sessions c !! k = Some st -> ss_serving st <> [] -> ends c c' k st).
Proof.
  intros E. assert (H : Q c) by (eapply q_run; [apply q_start|exact E]). split; [|split].
  - intros i q Hq. destruct (qk_queue _ _ H i q Hq). done.
  - apply H.
  - intros o c' k st. by apply ends_step.
Qed.

End queues.
