(* ===== verification/LifecycleEmpty.v ===== *)
(** * Reaping empty sessions, and concrete runs

    A session is reaped as empty only when it earned it; then the theorems on the
    lifecycle applied to one run. *)

From Stdlib Require Import ZArith Lia.
From stdpp Require Import gmap sorting list strings.
From S2P Require Import Prelude.
From S2P Require Import Registry.
From S2P Require Import PairRtts.
From S2P Require Import Placement.
From S2P Require Import Outbox.
From S2P Require Import EvidenceHistory.
From S2P Require Import Setup.
From S2P Require Import SetupInv.
From S2P Require Import SetupRun.
From S2P Require Import Lifecycle.
From S2P Require Import LifecycleOps.
From S2P Require Import LifecycleInv.
From S2P Require Import SetupWitness.
From S2P Require Import LifecycleTrack.
From S2P Require Import LifecycleQueues.

Open Scope Z_scope.

(** ** The empty-session reap is earned

    A session that started may end because it stands empty: every relay that
    serves it and has not closed it says so in complete heartbeats, for the whole
    grace.  The heartbeats of a run are its history; a relay's streak is its
    latest unbroken row of complete heartbeats, under one generation and never
    further apart than the freshness bound, in which the session has no slot.  The
    timers, their tokens and the invalidations of the code are shown to enforce
    exactly that reading of the history. *)

(** ** What a history says of a session and a relay *)

Inductive Report : Type := Occupied | Unknown | StandsEmpty (gen at_ns : Z).

Definition occupied_sessions (roster : list SessionPresence) : list (string * Z) := sp_session <$> filter (fun p => sp_slots p <> []) roster.

(** A heartbeat counts for the sessions the relay is assigned and serves. *)
Definition report (c : Lifecycle) (o : LOp) (k : string * Z) (r : Z) : option Report :=
  match o with
  | LBeat relay gen roster complete =>
      if (relay =? r) && epoch_current c relay gen && bool_decide (k ∈ current_keys_for (descriptors (lc_setup c)) relay) &&
         match lc_sessions c !! k with Some st => bool_decide (relay ∈ ss_serving st) | None => false end
      then Some (if bool_decide (k ∈ occupied_sessions roster) then Occupied else if complete then StandsEmpty gen (instant_now c) else Unknown)
      else None
  | _ => None
  end.

(** Latest first. *)
Definition history : Type := list (Lifecycle * LOp).

(** First and last heartbeat of the latest row, and its generation. *)
Fixpoint streak (freshness : Z) (h : history) (k : string * Z) (r : Z) : option (Z * Z * Z) :=
  match h with
  | [] => None
  | (c, o) :: h =>
      match report c o k r with
      | None => streak freshness h k r
      | Some (StandsEmpty gen now) =>
          match streak freshness h k r with
          | Some (first, last, g) => if (g =? gen) && (now - last <=? freshness) then Some (first, now, gen) else Some (now, now, gen)
          | None => Some (now, now, gen)
          end
      | Some _ => None
      end
  end.

(** The history of a run. *)
Fixpoint recorded {sha : Sha256} {mint : MintToken} (tun : LifecycleTunables) (h : history) (c : Lifecycle) (ops : list LOp) : history :=
  match ops with [] => h | o :: ops => match lc_step tun c o with Some c' => recorded tun ((c, o) :: h) c' ops | None => h end end.

(** How often a step can arm the timer at most. *)
Definition arms (c : Lifecycle) (o : LOp) : Z :=
  match o with
  | LBeat relay _ _ _ => Z.of_nat (length (current_keys_for (descriptors (lc_setup c)) relay))
  | LEnroll _ _ | LDisconnect _ _ => Z.of_nat (size (lc_sessions c))
  | LClosed _ _ _ => 1
  | _ => 0
  end.
Definition armings (h : history) : Z := foldr (fun p n => arms p.1 p.2 + n) 0 h.

Lemma armings_cons c o h : armings ((c, o) :: h) = arms c o + armings h.
Proof. done. Qed.

Lemma arms_nonneg c o : 0 <= arms c o.
Proof. destruct o; cbn; lia. Qed.

(** ** Updates of the runtime *)

(** Tasks go, or come asleep with a token of their own. *)
Definition ext (n : Z) (rt rt' : Runtime) : Prop :=
  next_empty_timer_token rt <= next_empty_timer_token rt' <= next_empty_timer_token rt + n /\
  forall id t, rt_tasks rt' !! id = Some t -> rt_tasks rt !! id = Some t \/
    (task_awake t = false /\ forall k tok, task_kind t = TEmpty k tok -> next_empty_timer_token rt <= tok < next_empty_timer_token rt').

Lemma ext_refl rt : ext 0 rt rt.
Proof. split; [lia|]. intros. by left. Qed.

Lemma ext_trans n m rt1 rt2 rt3 : ext n rt1 rt2 -> ext m rt2 rt3 -> ext (n + m) rt1 rt3.
Proof.
  intros [A1 A2] [B1 B2]. split; [lia|]. intros id t Ht. destruct (B2 id t Ht) as [H|[H1 H2]]; [|right; split; [done|intros k tok E; specialize (H2 k tok E); lia]].
  destruct (A2 id t H) as [H'|[H1 H2]]; [by left|]. right. split; [done|]. intros k tok E. specialize (H2 k tok E). lia.
Qed.
Lemma ext_trans0 rt1 rt2 rt3 : ext 0 rt1 rt2 -> ext 0 rt2 rt3 -> ext 0 rt1 rt3.
Proof. intros. by apply (ext_trans 0 0 _ rt2). Qed.
Lemma ext_mono n m rt rt' : n <= m -> ext n rt rt' -> ext m rt rt'.
Proof. intros H [A1 A2]. split; [lia|done]. Qed.

Lemma ext_tasks rt rt' : rt_tasks rt' = rt_tasks rt -> next_empty_timer_token rt' = next_empty_timer_token rt -> ext 0 rt rt'.
Proof. intros E1 E2. split; [lia|]. intros id t. rewrite E1. by left. Qed.

Lemma ext_delete rt id : ext 0 rt (set_rt_tasks (base.delete id (rt_tasks rt)) rt).
Proof. split; [cbn; lia|]. intros i t. cbn. intros [_ Ht]%lookup_delete_Some. by left. Qed.
Lemma ext_abort id rt : ext 0 rt (abort id rt).
Proof. unfold abort. destruct (rt_tasks rt !! id) as [t|]; [destruct (task_awake t)|]; try apply ext_refl. apply ext_delete. Qed.
Lemma ext_abort_opt h rt : ext 0 rt (abort_opt h rt).
Proof. destruct h; [apply ext_abort|apply ext_refl]. Qed.
Lemma ext_abort_timers st rt : ext 0 rt (abort_timers st rt).
Proof. unfold abort_timers. do 4 (eapply ext_trans0; [|apply ext_abort_opt]). apply ext_abort_opt. Qed.

Lemma ext_spawn kind due rt : (forall k tok, kind <> TEmpty k tok) -> ext 0 rt (spawn kind due rt).2.
Proof.
  intros Hk. split; [cbn; lia|]. intros i t. cbn. intros [[<- <-]|[_ Ht]]%lookup_insert_Some; [|by left]. right. split; [done|]. intros k tok E. by destruct (Hk k tok).
Qed.
Lemma ext_abort_spawn h kind due rt : (forall k tok, kind <> TEmpty k tok) -> ext 0 rt (spawn kind due (abort_opt h rt)).2.
Proof. intros Hk. eapply ext_trans0; [apply ext_abort_opt|by apply ext_spawn]. Qed.

Section earned.
Context {sha : Sha256} {mint : MintToken}.
Context (tun : LifecycleTunables).

Local Abbreviation streak_of := (streak (empty_roster_freshness tun)).

(** A session's evidence is its streaks, and its timer outlasts the grace from
    the start of each. *)
Record evok (h : history) (k : string * Z) (st : SessionState) (rt : Runtime) : Prop := mkEvok {
  eo_seen : forall r e, empty_relays st !! r = Some e -> exists s, streak_of h k r = Some (s, last_seen e, ev_generation e);
  eo_token : forall et, empty_timer st = Some et -> et_token et < next_empty_timer_token rt;
  eo_due : forall et id t r e s l g, empty_timer st = Some et -> rt_tasks rt !! id = Some t -> task_kind t = TEmpty k (et_token et) ->
    empty_relays st !! r = Some e -> streak_of h k r = Some (s, l, g) -> s + empty_session_grace tun <= task_due t;
}.

Record rtok (now : Z) (rt : Runtime) : Prop := mkRtok {
  ro_token : forall id t k tok, rt_tasks rt !! id = Some t -> task_kind t = TEmpty k tok -> tok < next_empty_timer_token rt;
  ro_awake : forall id t, rt_tasks rt !! id = Some t -> task_awake t = true -> task_due t <= now;
  ro_next : 0 <= next_empty_timer_token rt;
}.

Lemma rtok_ext n now rt rt' : ext n rt rt' -> rtok now rt -> rtok now rt'.
Proof.
  intros [E1 E2] [H1 H2 H3]. split; [| |lia].
  - intros id t k tok Ht Hk. destruct (E2 id t Ht) as [H|[_ H]]; [specialize (H1 id t k tok H Hk); lia|]. apply H in Hk. lia.
  - intros id t Ht Ha. destruct (E2 id t Ht) as [H|[H _]]; [by apply (H2 id t)|congruence].
Qed.

Lemma evok_ext n h k st rt rt' : ext n rt rt' -> evok h k st rt -> evok h k st rt'.
Proof.
  intros [E1 E2] [H1 H2 H3]. split; [done| |].
  - intros et He. specialize (H2 et He). lia.
  - intros et id t r e s l g He Ht Hk. destruct (E2 id t Ht) as [H|[_ H]]; [by apply (H3 et id t r e s l g)|]. apply H in Hk. specialize (H2 et He). lia.
Qed.

Lemma evok_no_timer h k st rt : (forall r e, empty_relays st !! r = Some e -> exists s, streak_of h k r = Some (s, last_seen e, ev_generation e)) -> empty_timer st = None -> evok h k st rt.
Proof. intros H E. split; [done| |]; rewrite E; by intros. Qed.

Lemma evok_fewer h k st st' rt : (forall r e, empty_relays st' !! r = Some e -> empty_relays st !! r = Some e) -> empty_timer st' = empty_timer st -> evok h k st rt -> evok h k st' rt.
Proof. intros Hr Et [H1 H2 H3]. split; rewrite ?Et; [by eauto|by eauto|]. intros et id t r e s l g He Ht Hk Hx. by apply (H3 et id t r e s l g He Ht Hk), Hr. Qed.

(** ** Updates of a session *)

Definition fine (h : history) (now n : Z) (k : string * Z) (f : SessionState -> Runtime -> SessionState * Runtime) : Prop :=
  forall st rt, rtok now rt -> next_empty_timer_token rt + n < 2 ^ 64 -> evok h k st rt -> evok h k (f st rt).1 (f st rt).2 /\ ext n rt (f st rt).2.

Lemma fine_bind h now n m k f g : 0 <= m -> fine h now n k f -> fine h now m k g -> fine h now (n + m) k (fun st rt => let '(st, rt) := f st rt in g st rt).
Proof.
  intros Hm Hf Hg st rt Hr Hn He. destruct (Hf st rt Hr ltac:(lia) He) as [F1 F2]. destruct (f st rt) as [st1 rt1]. cbn in F1, F2.
  destruct (Hg st1 rt1) as [G1 G2]; [by eapply rtok_ext|destruct F2; lia|done|]. split; [done|by eapply ext_trans].
Qed.
Lemma fine_bind0 h now m k f g : 0 <= m -> fine h now 0 k f -> fine h now m k g -> fine h now m k (fun st rt => let '(st, rt) := f st rt in g st rt).
Proof. apply (fine_bind h now 0 m). Qed.

Lemma fine_from h now n k f g : (forall st, empty_relays (g st) = empty_relays st /\ empty_timer (g st) = empty_timer st) -> fine h now n k f -> fine h now n k (fun st rt => f (g st) rt).
Proof. intros Hg Hf st rt Hr Hn He. destruct (Hg st) as [E1 E2]. apply Hf; [done|done|]. apply (evok_fewer h k st); [by rewrite E1|done|done]. Qed.

(** Neither evidence nor timer changed. *)
Lemma fine_calm h now k f : (forall st rt, empty_relays (f st rt).1 = empty_relays st /\ empty_timer (f st rt).1 = empty_timer st /\ ext 0 rt (f st rt).2) -> fine h now 0 k f.
Proof. intros Hf st rt _ _ He. destruct (Hf st rt) as (E1 & E2 & E3). split; [|done]. eapply evok_ext; [exact E3|]. apply (evok_fewer h k st); [by rewrite E1|done|done]. Qed.

Lemma fine_mark_started h now k : fine h now 0 k mark_started.
Proof. apply fine_calm. intros st rt. split; [done|]. split; [done|apply ext_abort_opt]. Qed.

Lemma fine_arm_webhook h now k : fine h now 0 k (arm_webhook_reap_if_orphan tun k now).
Proof.
  apply fine_calm. intros st rt. unfold arm_webhook_reap_if_orphan. destruct (negb _); [split; [done|]; split; [done|apply ext_refl]|]. split; [done|]. split; [done|by apply ext_abort_spawn].
Qed.

Lemma fine_reaps h now k : fine h now 0 k (reevaluate_reaps tun k now).
Proof.
  apply fine_bind0; [lia| |]; apply fine_calm; intros st rt.
  - unfold reevaluate_holdout. destruct (unaccounted_players st) as [|x [|]]; [by repeat split; try apply ext_abort_opt| |by repeat split; try apply ext_abort_opt].
    destruct (_ <=? _); [|by repeat split; try apply ext_abort_opt]. destruct (holdout_timer st); [split; [done|]; split; [done|apply ext_refl]|split; [done|]; split; [done|by apply ext_spawn]].
  - unfold reevaluate_linger. destruct (_ && _ && _); [|split; [done|]; split; [done|apply ext_abort_opt]].
    destruct (linger_timer st); [split; [done|]; split; [done|apply ext_refl]|split; [done|]; split; [done|by apply ext_spawn]].
Qed.

Lemma fine_invalidate h now k : fine h now 0 k invalidate_empty_timer.
Proof. intros st rt _ _ He. split; [|apply ext_abort_opt]. apply evok_no_timer; [apply He|done]. Qed.

Lemma fine_reset h now k : fine h now 0 k reset_empty_evidence.
Proof. intros st rt _ _ He. split; [|apply ext_abort_opt]. apply evok_no_timer; [|done]. intros r e. cbn. by rewrite lookup_empty. Qed.

Lemma fine_reevaluate h now k : (forall r s l g, streak_of h k r = Some (s, l, g) -> s <= now) -> fine h now 1 k (reevaluate_empty_reap tun k now).
Proof.
  intros Hnow st rt Hr Hn He. unfold reevaluate_empty_reap. destruct (_ && _ && _).
  2:{ destruct (fine_invalidate h now k st rt Hr ltac:(lia) He) as [K1 K2]. split; [done|]. eapply ext_mono; [|exact K2]. lia. }
  destruct (empty_timer st) as [et|] eqn:Et; [split; [done|apply (ext_mono 0); [lia|apply ext_refl]]|]. set (tok := next_empty_timer_token rt).
  assert (Hmod : (tok + 1) mod 2 ^ 64 = tok + 1) by (apply Z.mod_small; pose proof (ro_next _ _ Hr); unfold tok; lia). rewrite Hmod. split.
  - split.
    + intros r e Hre. apply (eo_seen _ _ _ _ He r e Hre).
    + intros et [= <-]. cbn. lia.
    + intros et id t r e s l g [= <-] Ht Hk Hre Hs. cbn in Ht, Hk. apply lookup_insert_Some in Ht as [[_ <-]|[_ Ht]]; [cbn; specialize (Hnow r s l g Hs); lia|].
      pose proof (ro_token _ _ Hr id t k tok Ht Hk). lia.
  - split; [cbn; lia|]. intros id t Ht. cbn in Ht. apply lookup_insert_Some in Ht as [[_ <-]|[_ Ht]]; [|by left]. right. split; [done|]. intros k' tok' [= <- <-]. cbn. lia.
Qed.

(** Evidence dropped, the timer with it, and the policy asked again. *)
Lemma fine_drop h now k g : (forall r s l gen, streak_of h k r = Some (s, l, gen) -> s <= now) ->
  (forall st r e, empty_relays (g st) !! r = Some e -> empty_relays st !! r = Some e) ->
  fine h now 1 k (fun st rt => let '(st, rt) := invalidate_empty_timer (g st) rt in reevaluate_empty_reap tun k now st rt).
Proof.
  intros Hnow Hg. apply (fine_bind0 h now 1 k (fun st rt => invalidate_empty_timer (g st) rt)); [lia| |by apply fine_reevaluate].
  intros st rt _ _ He. split; [|apply ext_abort_opt]. apply evok_no_timer; [|done]. intros r e Hre. by apply (eo_seen _ _ _ _ He), (Hg st).
Qed.

Lemma fine_id h now n k : 0 <= n -> fine h now n k (fun st rt => (st, rt)).
Proof. intros Hn st rt _ _ He. split; [done|]. eapply ext_mono; [exact Hn|apply ext_refl]. Qed.

Lemma fine_if h now n k (b : SessionState -> bool) f g : fine h now n k f -> fine h now n k g -> fine h now n k (fun st rt => if b st then f st rt else g st rt).
Proof. intros Hf Hg st rt. destruct (b st); [apply Hf|apply Hg]. Qed.

(** ** One session of a heartbeat *)

(** Evidence whose streaks both histories agree on. *)
Lemma evok_swap h h' k st rt : (forall r e, empty_relays st !! r = Some e -> streak_of h' k r = streak_of h k r) -> evok h k st rt -> evok h' k st rt.
Proof.
  intros E [H1 H2 H3]. split; [|done|].
  - intros r e Hr. rewrite (E r e Hr). by apply H1.
  - intros et id t r e s l g He Ht Hk Hre Hs. rewrite (E r e Hre) in Hs. by apply (H3 et id t r e s l g).
Qed.

Lemma evok_either h h' k st st' rt relay : (forall r, r <> relay -> streak_of h' k r = streak_of h k r) ->
  (forall r e, empty_relays st' !! r = Some e -> r <> relay /\ empty_relays st !! r = Some e) -> empty_timer st' = empty_timer st ->
  evok h k st rt \/ evok h' k st rt -> evok h' k st' rt.
Proof.
  intros Hne Hsub Et He. assert (K : evok h k st' rt \/ evok h' k st' rt) by (destruct He; [left|right]; by apply (evok_fewer _ k st); [intros r e Hr; by apply Hsub| |]).
  destruct K as [K|K]; [|done]. eapply evok_swap; [|exact K]. intros r e Hr. apply Hne. by apply (Hsub r e).
Qed.

(** What the heartbeat adds to the streak of its own relay. *)
Definition extends (h h' : history) (k : string * Z) (relay gen now : Z) (occ complete : bool) : Prop :=
  streak_of h' k relay =
    if occ then None
    else if complete then
      match streak_of h k relay with
      | Some (first, last, g) => if (g =? gen) && (now - last <=? empty_roster_freshness tun) then Some (first, now, gen) else Some (now, now, gen)
      | None => Some (now, now, gen)
      end
    else None.

Lemma beat_insert h h' k relay gen now st rt : (forall r, r <> relay -> streak_of h' k r = streak_of h k r) -> extends h h' k relay gen now false true ->
  evok h k st rt \/ evok h' k st rt ->
  let st' := set_empty_relays (<[relay := mkEmptyRosterEvidence gen now]> (empty_relays st)) st in
  let kept := match empty_relays st !! relay with Some e => (ev_generation e =? gen) && (since now (last_seen e) <=? empty_roster_freshness tun) | None => false end in
  (forall r e, empty_relays st' !! r = Some e -> exists s, streak_of h' k r = Some (s, last_seen e, ev_generation e)) /\ (kept = true -> evok h' k st' rt).
Proof.
  intros Hne Hx He st' kept. assert (Hseen : forall r e, empty_relays st' !! r = Some e -> exists s, streak_of h' k r = Some (s, last_seen e, ev_generation e)).
  { intros r e. cbn. intros [[<- <-]|[Hr Hre]]%lookup_insert_Some; cbn.
    - rewrite Hx. destruct (streak_of h k relay) as [[[f l] g]|]; [destruct (_ && _)|]; by eexists.
    - destruct He as [He|He]; [rewrite Hne by done|]; by apply (eo_seen _ _ _ _ He). }
  split; [done|]. unfold kept. destruct (empty_relays st !! relay) as [e0|] eqn:E0; [|done]. intros [Hg Hs]%andb_prop. apply Z.eqb_eq in Hg. split; [done| |].
  - intros et Het. destruct He as [He|He]; by apply (eo_token _ _ _ _ He).
  - intros et id t r e s l g Het Ht Hk. cbn. intros [[<- <-]|[Hr Hre]]%lookup_insert_Some Hs'.
    + destruct He as [He|He]; [|by apply (eo_due _ _ _ _ He et id t relay e0 s l g)]. destruct (eo_seen _ _ _ _ He relay e0 E0) as [s0 K0].
      rewrite Hx, K0, Hg, Z.eqb_refl in Hs'. unfold since in Hs. replace (now - last_seen e0 <=? empty_roster_freshness tun) with true in Hs' by lia. cbn in Hs'. injection Hs' as <- <- <-.
      by apply (eo_due _ _ _ _ He et id t relay e0 s0 (last_seen e0) (ev_generation e0)).
    + destruct He as [He|He]; [rewrite Hne in Hs' by done|]; by apply (eo_due _ _ _ _ He et id t r e s l g).
Qed.

Lemma beat_fine h h' k relay gen occ complete now st rt : (forall r, r <> relay -> streak_of h' k r = streak_of h k r) ->
  (if bool_decide (relay ∈ ss_serving st) then extends h h' k relay gen now occ complete else streak_of h' k relay = streak_of h k relay) ->
  (forall r s l g, streak_of h' k r = Some (s, l, g) -> s <= now) -> rtok now rt -> next_empty_timer_token rt + 1 < 2 ^ 64 ->
  evok h k st rt \/ evok h' k st rt ->
  evok h' k (beat_state tun relay gen occ complete k now st rt).1 (beat_state tun relay gen occ complete k now st rt).2 /\ ext 1 rt (beat_state tun relay gen occ complete k now st rt).2.
Proof.
  intros Hne Hx Hnow Hr Hn He. unfold beat_state. destruct (bool_decide (relay ∈ ss_serving st)); cbn [negb].
  2:{ split; [|apply (ext_mono 0); [lia|apply ext_refl]]. destruct He as [He|He]; [|done]. eapply evok_swap; [|exact He]. intros r e _. destruct (decide (r = relay)) as [->|]; [done|by apply Hne]. }
  assert (Hgo : forall (b : bool) st1 rt1, evok h' k st1 rt1 -> ext 0 rt rt1 -> let p := let '(st2, rt2) := if b then invalidate_empty_timer st1 rt1 else (st1, rt1) in reevaluate_empty_reap tun k now st2 rt2 in evok h' k p.1 p.2 /\ ext 1 rt p.2).
  { intros b st1 rt1 H1 E1. assert (Hf : fine h' now 1 k (fun st rt => let '(st, rt) := if b then invalidate_empty_timer st rt else (st, rt) in reevaluate_empty_reap tun k now st rt)).
    { apply (fine_bind0 h' now 1 k (fun st rt => if b then invalidate_empty_timer st rt else (st, rt))); [lia|apply (fine_if h' now 0 k (fun _ => b)); [apply fine_invalidate|by apply fine_id]|by apply fine_reevaluate]. }
    destruct (Hf st1 rt1) as [K1 K2]; [by eapply rtok_ext|destruct E1; lia|done|]. split; [done|]. by apply (ext_trans 0 1 _ rt1). }
  assert (Hdel : forall f, (forall st, empty_relays (f st) = empty_relays st /\ empty_timer (f st) = empty_timer st) -> evok h' k (f (set_empty_relays (base.delete relay (empty_relays st)) st)) rt).
  { intros f Hf. destruct (Hf (set_empty_relays (base.delete relay (empty_relays st)) st)) as [E1 E2]. apply (evok_either h h' k st _ rt relay Hne); [|by rewrite E2|done]. intros r e. rewrite E1. cbn. by intros [? ?]%lookup_delete_Some. }
  destruct occ; [|destruct complete].
  - refine (Hgo _ _ _ _ (ext_abort_opt _ _)). eapply evok_ext; [apply ext_abort_opt|].
    by apply (Hdel (fun st => set_never_started_timer None (set_ss_started true (set_closed_relays _ st)))).
  - destruct (beat_insert h h' k relay gen now st rt Hne Hx He) as [K1 K2]. destruct (match empty_relays st !! relay with Some e => _ | None => _ end) eqn:Ekept; cbn [negb].
    + refine (Hgo false _ _ _ (ext_refl _)). by apply K2.
    + set (st1 := set_empty_relays (<[relay := mkEmptyRosterEvidence gen now]> (empty_relays st)) st) in *. destruct (invalidate_empty_timer st1 rt) as [st2 rt2] eqn:Ei. injection Ei as <- <-.
      refine (Hgo false _ _ _ (ext_abort_opt _ _)). by apply evok_no_timer.
  - refine (Hgo _ _ _ _ (ext_refl _)). by apply (Hdel (fun st => st)).
Qed.

(** ** Steps *)

Definition E (h : history) (c : Lifecycle) : Prop := rtok (instant_now c) (lc_rt c) /\ forall k st, lc_sessions c !! k = Some st -> evok h k st (lc_rt c).

Definition token (c : Lifecycle) : Z := next_empty_timer_token (lc_rt c).

(** The step [c] to [c'] keeps the evidence and issues at most [n] tokens. *)
Definition goes (h : history) (n : Z) (c c' : Lifecycle) : Prop := E h c' /\ ext n (lc_rt c) (lc_rt c') /\ instant_now c' = instant_now c.

Lemma E_ext n h c c' : lc_sessions c' = lc_sessions c -> ext n (lc_rt c) (lc_rt c') -> instant_now c' = instant_now c -> E h c -> goes h n c c'.
Proof.
  intros E1 E2 E3 [H1 H2]. split; [|done]. split; [rewrite E3; by eapply rtok_ext|]. intros k st Hk. rewrite E1 in Hk. eapply evok_ext; [exact E2|by apply H2].
Qed.
Lemma E_same h c c' : lc_sessions c' = lc_sessions c -> lc_rt c' = lc_rt c -> instant_now c' = instant_now c -> E h c -> goes h 0 c c'.
Proof. intros E1 E2 E3. apply E_ext; [done| |done]. rewrite E2. apply ext_refl. Qed.

Lemma goes_trans h n m c1 c2 c3 : goes h n c1 c2 -> (E h c2 -> goes h m c2 c3) -> goes h (n + m) c1 c3.
Proof. intros (A1 & A2 & A3) HB. destruct (HB A1) as (B1 & B2 & B3). split; [done|]. split; [by eapply ext_trans|congruence]. Qed.
Lemma goes_trans0 h c1 c2 c3 : goes h 0 c1 c2 -> (E h c2 -> goes h 0 c2 c3) -> goes h 0 c1 c3.
Proof. apply (goes_trans h 0 0). Qed.
Lemma goes_mono h n m c c' : n <= m -> goes h n c c' -> goes h m c c'.
Proof. intros Hle (A1 & A2 & A3). split; [done|]. split; [by eapply ext_mono|done]. Qed.

Lemma goes_put h n c k p : E h c -> evok h k p.1 p.2 -> ext n (lc_rt c) p.2 -> goes h n c (put_state c k p).
Proof.
  intros [H1 H2] He Hx. split; [|by split]. split; [by eapply rtok_ext|]. intros k' st'. cbn. intros [[<- <-]|[_ Hk]]%lookup_insert_Some; [done|]. eapply evok_ext; [exact Hx|by apply H2].
Qed.

Lemma goes_on_state h n c k f : 0 <= n -> token c + n < 2 ^ 64 -> fine h (instant_now c) n k f -> E h c -> goes h n c (on_state c k f).
Proof.
  intros Hn Ht Hf H. unfold on_state. destruct (lc_sessions c !! k) as [st|] eqn:Hk; [|by apply (goes_mono h 0); [|apply E_same]].
  destruct (Hf st (lc_rt c) (proj1 H) Ht (proj2 H k st Hk)). by apply goes_put.
Qed.

Lemma goes_on_entry h c k f : token c < 2 ^ 64 -> fine h (instant_now c) 0 k f -> E h c -> goes h 0 c (on_entry tun c k f).
Proof.
  intros Ht Hf H. unfold on_entry. destruct (lc_sessions c !! k) as [st|] eqn:Hk.
  { destruct (Hf st (lc_rt c) (proj1 H)) as [K1 K2]; [unfold token in Ht; lia|by apply H|]. by apply goes_put. }
  destruct (new_state (queue_capacity tun) [] (lc_rt c)) as [st0 rt0] eqn:E0. unfold new_state in E0. injection E0 as <- <-. set (st0 := mkSessionState _ _ _ _ _ _ _ _ _ _ _ _ _ _ _ _ _ _ _ _ _ _).
  set (rt0 := set_rt_next _ _). assert (Hx : ext 0 (lc_rt c) rt0) by (by apply ext_tasks).
  destruct (Hf st0 rt0) as [K1 K2]; [eapply rtok_ext; [exact Hx|apply H]|unfold token in Ht; cbn; lia|apply evok_no_timer; [|done]; intros r e; cbn; by rewrite lookup_empty|].
  apply goes_put; [done|done|exact (ext_trans0 _ _ _ Hx K2)].
Qed.

(** Sessions gone, the queues and timers touched. *)
Lemma goes_removed h c c' k : lc_sessions c' = base.delete k (lc_sessions c) -> ext 0 (lc_rt c) (lc_rt c') -> instant_now c' = instant_now c -> E h c -> goes h 0 c c'.
Proof.
  intros E1 E2 E3 [H1 H2]. split; [|done]. split; [rewrite E3; by eapply rtok_ext|]. intros k' st. rewrite E1. intros [_ Hk]%lookup_delete_Some. eapply evok_ext; [exact E2|by apply H2].
Qed.

Lemma ext_terminal id job rt : ext 0 rt (push_terminal id job rt).
Proof. unfold push_terminal. destruct (rt_queues rt !! id); [by apply ext_tasks|apply ext_refl]. Qed.
Lemma ext_ordinary id job rt : ext 0 rt (push_ordinary id job rt).
Proof. unfold push_ordinary. destruct (rt_queues rt !! id); [|apply ext_refl]. destruct (_ <=? _); by apply ext_tasks. Qed.

Lemma close_and_retire_ext c k st : ext 0 (lc_rt c) (lc_rt (close_and_retire c k st)).
Proof.
  unfold close_and_retire. cbn [lc_rt set_lc_setup set_lc_notices set_lc_rt]. eapply ext_trans0; [|apply ext_abort_timers]. destruct (session_closed_job c k); [apply ext_terminal|apply ext_refl].
Qed.

Lemma retire_instant s k : instant_ns (retire_session s k) = instant_ns s.
Proof.
  unfold retire_session, take_session_membership, forget_rehomes. destruct (session_refs _ !! k) as [r|]; cbn [mbind option_bind]; [|done]. destruct (external_id r); [|done].
  match goal with |- context [match ?m with Some _ => _ | None => _ end] => destruct m as [x|] end; [|done]. by destruct (_ =? _).
Qed.

Lemma goes_remove h c k st : E h c -> goes h 0 c (remove_and_close c k st).
Proof.
  apply (goes_removed h c _ k); [done| |apply retire_instant]. exact (close_and_retire_ext (set_lc_sessions (base.delete k (lc_sessions c)) c) k st).
Qed.

Lemma goes_same_put h c k st st' : lc_sessions c !! k = Some st -> empty_relays st' = empty_relays st -> empty_timer st' = empty_timer st \/ empty_timer st' = None -> E h c -> goes h 0 c (put_state c k (st', lc_rt c)).
Proof.
  intros Hk E1 E2 H. apply goes_put; [done| |apply ext_refl]. pose proof (proj2 H k st Hk) as He. destruct E2 as [E2|E2]; [apply (evok_fewer h k st); [by cbn; rewrite E1|done|exact He]|]. apply evok_no_timer; [|done]. cbn. rewrite E1. apply He.
Qed.

Lemma goes_fire h c id : E h c -> goes h 0 c (fire tun c id).
Proof.
  intros H. assert (Hid : goes h 0 c c) by (by apply E_same). unfold fire. destruct (rt_tasks (lc_rt c) !! id) as [t|]; [|done]. destruct (task_awake t); [|done]. set (c1 := set_lc_rt _ c).
  assert (H1 : goes h 0 c c1) by (apply E_ext; [done|apply ext_delete|done|done]). apply (goes_trans0 h c c1); [done|]. clear H1 Hid. clearbody c1. intros H1.
  assert (Hid : goes h 0 c1 c1) by (by apply E_same). destruct (task_kind t) as [k slot|k|k|k|k tok].
  - unfold fire_holdout. destruct (lc_sessions c1 !! k) as [st|] eqn:Hk; [|done]. assert (H2 : goes h 0 c1 (put_state c1 k (set_holdout_timer None st, lc_rt c1))) by (by apply (goes_same_put h c1 k st); try left).
    destruct (bool_decide _); [done|]. apply (goes_trans0 h _ _ _ H2). by apply E_same.
  - unfold fire_linger. destruct (lc_sessions c1 !! k) as [st|] eqn:Hk; [|done]. assert (H2 : goes h 0 c1 (put_state c1 k (set_linger_timer None st, lc_rt c1))) by (by apply (goes_same_put h c1 k st); try left).
    destruct (_ || _); [done|]. destruct (filter _ _); [done|]. apply (goes_trans0 h _ _ _ H2). by apply E_same.
  - unfold fire_webhook_reap. destruct (lc_sessions c1 !! k) as [st|] eqn:Hk; [|done]. destruct (negb _); [done|]. apply (goes_removed h c1 _ k); [done|apply ext_abort_timers|apply retire_instant|done].
  - unfold fire_never_started. destruct (lc_sessions c1 !! k) as [st|] eqn:Hk; [|done]. destruct (ss_started _); [by apply (goes_same_put h c1 k st); try left|by apply goes_remove].
  - unfold fire_empty_session. destruct (lc_sessions c1 !! k) as [st|] eqn:Hk; [|done]. destruct (bool_decide _); [|done]. destruct (_ || _ || _ || _); [by apply (goes_same_put h c1 k st); try right|by apply goes_remove].
Qed.

(** ** Handlers *)

Lemma goes_fold {A} h now (key : A -> string * Z) (f : A -> SessionState -> Runtime -> SessionState * Runtime) l : (forall x, fine h now 1 (key x) (f x)) ->
  forall c, instant_now c = now -> token c + Z.of_nat (length l) < 2 ^ 64 -> E h c -> goes h (Z.of_nat (length l)) c (foldl (fun c x => on_state c (key x) (f x)) c l).
Proof.
  intros Hf. induction l as [|x l IH]; intros c Hnow Ht H; cbn [foldl length] in *; [by apply E_same|]. rewrite Nat2Z.inj_succ in *. replace (Z.succ (Z.of_nat (length l))) with (1 + Z.of_nat (length l)) by lia.
  assert (H1 : goes h 1 c (on_state c (key x) (f x))) by (apply goes_on_state; [lia|lia|rewrite Hnow; apply Hf|done]). apply (goes_trans h 1 _ _ _ _ H1). destruct H1 as (_ & [H1 _] & H2).
  apply IH; [congruence|unfold token in *; lia].
Qed.

Definition timely (h : history) (now : Z) : Prop := forall k r s l g, streak_of h k r = Some (s, l, g) -> s <= l <= now.

Lemma timely_start h now k : timely h now -> forall r s l g, streak_of h k r = Some (s, l, g) -> s <= now.
Proof. intros H r s l g Hs. specialize (H k r s l g Hs). lia. Qed.

Lemma fine_reopen h now relay gen k : timely h now -> fine h now 1 k (reopen tun relay gen k now).
Proof.
  intros Ht. unfold reopen. set (inv := fun st : SessionState => (match empty_relays st !! relay with Some e => ev_generation e <? gen | None => false end) || bool_decide (is_Some (closed_relays st !! relay))).
  apply (fine_if h now 1 k inv); [|intros st rt Hr Hn He; apply (fine_id h now 1 k ltac:(lia) (set_closed_relays (base.delete relay (closed_relays st)) st) rt Hr Hn); by refine (evok_fewer h k st _ rt _ _ He)].
  apply (fine_drop h now k (fun st => set_empty_relays (base.delete relay (empty_relays st)) (set_closed_relays (base.delete relay (closed_relays st)) st))); [by apply timely_start|].
  intros st r e. cbn. by intros [_ ?]%lookup_delete_Some.
Qed.

Lemma fine_lapse h now relay gen k : timely h now -> fine h now 1 k (lapse tun relay gen k now).
Proof.
  intros Ht. unfold lapse. apply (fine_if h now 1 k (fun st => match empty_relays st !! relay with Some e => ev_generation e =? gen | None => false end)); [|by apply fine_id].
  apply (fine_drop h now k (fun st => set_empty_relays (base.delete relay (empty_relays st)) st)); [by apply timely_start|]. intros st r e. cbn. by intros [_ ?]%lookup_delete_Some.
Qed.

Lemma fine_close h now relay gen k : timely h now -> fine h now 1 k (close_state tun relay gen k now).
Proof.
  intros Ht. apply (fine_drop h now k (fun st => set_empty_relays (base.delete relay (empty_relays st)) (set_closed_relays (<[relay := gen]> (closed_relays st)) st))); [by apply timely_start|].
  intros st r e. cbn. by intros [_ ?]%lookup_delete_Some.
Qed.

Lemma fine_register h now k serving players observers : fine h now 0 k (fun st rt =>
  let '(st, rt) := drop_webhook_timer (registered serving players observers st) rt in let '(st, rt) := rearm_never_started tun k now st rt in reset_empty_evidence st rt).
Proof.
  apply (fine_from h now 0 k (fun st rt => let '(st, rt) := drop_webhook_timer st rt in let '(st, rt) := rearm_never_started tun k now st rt in reset_empty_evidence st rt) (registered serving players observers)); [done|].
  apply (fine_bind0 h now 0 k drop_webhook_timer); [lia| |apply (fine_bind0 h now 0 k (rearm_never_started tun k now)); [lia| |apply fine_reset]]; apply fine_calm; intros st rt.
  - unfold drop_webhook_timer. destruct (negb _); (split; [done|]); (split; [done|]); [apply ext_abort_opt|apply ext_refl].
  - unfold rearm_never_started. destruct (ss_started st); (split; [done|]); (split; [done|]); [apply ext_abort_opt|by apply ext_abort_spawn].
Qed.

Lemma fine_rehome h now k dead r_new : fine h now 0 k (fun st rt =>
    if dead =? r_new then
      let '(st, rt) := reset_empty_evidence st rt in
      (set_attestable false (set_closed_relays (base.delete dead (closed_relays st)) st), rt)
    else if negb (bool_decide (dead ∈ ss_serving st)) then (st, rt)
    else
      let '(st, rt) := reset_empty_evidence st rt in
      let st := set_attestable false (set_closed_relays (base.delete r_new (base.delete dead (closed_relays st))) st) in
      (set_ss_serving (if bool_decide (r_new ∈ ss_serving st) then remove_first dead (ss_serving st) else replace_first dead r_new (ss_serving st)) st, rt)).
Proof.
  intros st rt Hr Hn He. destruct (fine_reset h now k st rt Hr Hn He) as [K1 K2]. destruct (dead =? r_new); [|destruct (negb _)].
  - split; [by refine (evok_fewer h k _ _ _ _ _ K1)|exact K2].
  - split; [exact He|apply ext_refl].
  - split; [by refine (evok_fewer h k _ _ _ _ _ K1)|exact K2].
Qed.

Lemma rehome_commit_instant s k dead r_new e revs s' : rehome_commit s k dead r_new e revs = Some s' -> instant_ns s' = instant_ns s.
Proof.
  unfold rehome_commit. destruct (session_relays s !! k) as [l|]; cbn [mbind option_bind]; [|done]. destruct (bool_decide _); [|done]. cbn. destruct (session_refs s !! k); by intros [= <-].
Qed.

Lemma goes_rehome h c k dead : token c < 2 ^ 64 -> E h c -> goes h 0 c (rehome_session c k dead).2.
Proof.
  intros Ht H. unfold rehome_session. destruct (rehome_pick _ _ _ _) as [o|r_new e revs]; [by apply E_same|]. destruct (rehome_commit _ _ _ _ _ _) as [s|] eqn:Es; [|by apply E_same]. cbn [snd].
  apply rehome_commit_instant in Es. assert (H1 : goes h 0 c (set_lc_setup s c)) by (by apply E_same). apply (goes_trans0 h _ _ _ H1). intros H2.
  assert (H3 : goes h 0 (set_lc_setup s c) (on_rehome (set_lc_setup s c) k dead r_new)) by (apply goes_on_state; [lia|unfold token in *; cbn; lia|apply fine_rehome|done]).
  apply (goes_trans0 h _ _ _ H3). by apply E_same.
Qed.

Lemma goes_record h c n : token c < 2 ^ 64 -> E h c -> goes h 0 c (record_notice tun c n).
Proof.
  intros Ht H. set (now := instant_now c).
  assert (Hone : forall k g, (forall st, empty_relays (g st) = empty_relays st /\ empty_timer (g st) = empty_timer st) ->
    fine h now 0 k (fun st rt => let '(st, rt) := mark_started (g st) rt in arm_webhook_reap_if_orphan tun k now st rt)).
  { intros k g Hg. apply (fine_bind0 h now 0 k (fun st rt => mark_started (g st) rt)); [lia|apply (fine_from h now 0 k mark_started g Hg), fine_mark_started|apply fine_arm_webhook]. }
  assert (Hseq : forall k g, (forall st, empty_relays (g st) = empty_relays st /\ empty_timer (g st) = empty_timer st) ->
    fine h now 0 k (fun st rt => let '(st, rt) := mark_started (g st) rt in let '(st, rt) := reevaluate_reaps tun k now st rt in arm_webhook_reap_if_orphan tun k now st rt)).
  { intros k g Hg. apply (fine_bind0 h now 0 k (fun st rt => mark_started (g st) rt)); [lia|apply (fine_from h now 0 k mark_started g Hg), fine_mark_started|].
    apply (fine_bind0 h now 0 k (reevaluate_reaps tun k now)); [lia|apply fine_reaps|apply fine_arm_webhook]. }
  assert (Hacc : forall slot st, empty_relays (note_accounted slot st) = empty_relays st /\ empty_timer (note_accounted slot st) = empty_timer st) by (intros slot st; unfold note_accounted; by destruct (bool_decide _)).
  destruct n as [k slot kind count fin x|k ord x|k slot x|k slot x|k t x|k slot x|k slot]; cbn [record_notice]; try (by apply E_same); try (apply goes_on_entry; [done| |done]).
  - set (c1 := on_departure _ _ _ _ _ _ _). assert (H1 : goes h 0 c c1).
    { apply goes_on_entry; [done| |done]. refine (Hseq k (fun st => note_accounted slot (match ss_departures st !! slot with Some _ => st | None => _ end)) _).
      intros st. destruct (Hacc slot (match ss_departures st !! slot with Some _ => st | None => set_ss_departures (<[slot := mkDepartureSeed kind (if bool_decide (kind = Dropped) && negb (bool_decide (kind = Dropped) && fin) then None else count) (bool_decide (kind = Dropped) && fin)]> (ss_departures st)) st end)) as [K1 K2].
      rewrite K1, K2. by destruct (ss_departures st !! slot). }
    apply (goes_trans0 h _ _ _ H1). apply E_same; [done|done|]. unfold instant_now. cbn. unfold refresh_resumed_descriptors. by destruct (bool_decide _).
  - by apply Hseq.
  - by apply (Hone k (fun st => set_connected_slots _ st)).
  - by apply (Hone k (fun st => set_started_at_ms _ st)).
  - by apply (Hone k (fun st => set_started_slots _ st)).
Qed.

Lemma goes_handle h c n : token c < 2 ^ 64 -> E h c -> goes h 0 c (handle_notice tun c n).
Proof.
  intros Ht H. unfold handle_notice. set (c1 := match n with Departure _ _ _ _ _ _ => c | _ => _ end). assert (H1 : goes h 0 c c1) by (unfold c1; destruct n; by apply E_same).
  set (c2 := set_lc_notices _ c1). assert (H2 : goes h 0 c c2) by (apply (goes_trans0 h _ _ _ H1); by apply E_same). set (c3 := match n with Departure _ _ _ _ _ _ => c2 | _ => _ end).
  assert (Htok : forall x, goes h 0 c x -> token x < 2 ^ 64) by (intros x (_ & [Hx _] & _); unfold token in *; lia).
  assert (H3 : goes h 0 c c3) by (unfold c3; destruct n; try exact H2; destruct (bool_decide _); [|exact H2]; apply (goes_trans0 h _ _ _ H2); apply goes_on_entry; [by apply Htok|apply fine_arm_webhook]).
  destruct (bool_decide _); [|done]. destruct (resolve_notice_prefix c3 n); [|done]. apply (goes_trans0 h _ _ _ H3). apply goes_on_entry; [by apply Htok|]. set (job := mkWebhookJob _ _ _ _).
  apply (fine_bind0 h (instant_now c3) 0 (notice_session n) (fun st rt => (st, push_ordinary (ss_queue st) job rt))); [lia| |apply fine_arm_webhook].
  apply fine_calm. intros st rt. split; [done|]. split; [done|apply ext_ordinary].
Qed.

(** ** Heartbeats *)

Section beat.
Context (h : history) (c0 : Lifecycle) (relay gen : Z) (roster : list SessionPresence) (complete : bool).
Context (current : epoch_current c0 relay gen = true).

Local Abbreviation h' := ((c0, LBeat relay gen roster complete) :: h).
Local Abbreviation keys := (current_keys_for (descriptors (lc_setup c0)) relay).
Local Abbreviation beat k := (beat_state tun relay gen (bool_decide (k ∈ occupied_sessions roster)) complete k (instant_now c0)).

Lemma streak_other k r : r <> relay -> streak_of h' k r = streak_of h k r.
Proof. intros Hr. cbn [streak report]. by replace (relay =? r) with false by lia. Qed.

Lemma streak_silent k : k ∉ keys -> forall r, streak_of h' k r = streak_of h k r.
Proof.
  intros Hk r. destruct (decide (r = relay)) as [->|]; [|by apply streak_other]. cbn [streak report]. rewrite (bool_decide_false (k ∈ keys)) by done. by rewrite andb_false_r.
Qed.

Lemma streak_self k st : k ∈ keys -> ss_serving <$> lc_sessions c0 !! k = Some (ss_serving st) ->
  if bool_decide (relay ∈ ss_serving st) then extends h h' k relay gen (instant_now c0) (bool_decide (k ∈ occupied_sessions roster)) complete else streak_of h' k relay = streak_of h k relay.
Proof.
  intros Hk Hs. unfold extends. cbn [streak report]. rewrite Z.eqb_refl, current, (bool_decide_true (k ∈ keys)) by done. destruct (lc_sessions c0 !! k) as [x|]; [|done]. injection Hs as ->. cbn [andb].
  destruct (bool_decide (relay ∈ ss_serving st)); [|done]. destruct (bool_decide (k ∈ occupied_sessions roster)); [done|]. by destruct complete.
Qed.

Lemma beat_timely : timely h (instant_now c0) -> timely h' (instant_now c0).
Proof.
  intros Ht k r s l g. cbn [streak report]. destruct (_ && _ && _ && _); [|apply Ht]. destruct (bool_decide _); [done|]. destruct complete; [|done].
  destruct (streak_of h k r) as [[[f x] y]|] eqn:Es; [|intros [= <- <- <-]; lia]. specialize (Ht k r f x y Es). destruct (_ && _); intros [= <- <- <-]; lia.
Qed.

Lemma beat_serving k now st rt : ss_serving (beat_state tun relay gen (bool_decide (k ∈ occupied_sessions roster)) complete k now st rt).1 = ss_serving st.
Proof. apply (core_fields _ st), (beat_quiet tun relay gen _ complete k now st rt). Qed.

Lemma beats_fold (Ht : timely h' (instant_now c0)) l : l ⊆ keys -> forall c, lc_setup c = lc_setup c0 ->
  (forall k, ss_serving <$> lc_sessions c !! k = ss_serving <$> lc_sessions c0 !! k) -> rtok (instant_now c0) (lc_rt c) -> token c + Z.of_nat (length l) < 2 ^ 64 ->
  (forall k st, lc_sessions c !! k = Some st -> if decide (k ∈ l) then evok h k st (lc_rt c) \/ evok h' k st (lc_rt c) else evok h' k st (lc_rt c)) ->
  goes h' (Z.of_nat (length l)) c (foldl (fun c k => on_state c k (beat_state tun relay gen (bool_decide (k ∈ occupied_sessions roster)) complete k (instant_now c))) c l).
Proof.
  induction l as [|x l IH]; intros Hl c Es Hsv Hr Hn Hev; cbn [foldl length] in *.
  { apply E_same; [done|done|done|]. split; [unfold instant_now in *; congruence|]. intros k st Hk. specialize (Hev k st Hk). by rewrite decide_False in Hev by set_solver. }
  assert (Hnow : instant_now c = instant_now c0) by (unfold instant_now; by rewrite Es). rewrite Nat2Z.inj_succ in *. replace (Z.succ (Z.of_nat (length l))) with (1 + Z.of_nat (length l)) by lia.
  assert (H1 : ext 1 (lc_rt c) (lc_rt (on_state c x (beat_state tun relay gen (bool_decide (x ∈ occupied_sessions roster)) complete x (instant_now c)))) /\
    forall k st, lc_sessions (on_state c x (beat_state tun relay gen (bool_decide (x ∈ occupied_sessions roster)) complete x (instant_now c))) !! k = Some st ->
      if decide (k = x) then evok h' k st (lc_rt (on_state c x (beat_state tun relay gen (bool_decide (x ∈ occupied_sessions roster)) complete x (instant_now c)))) else lc_sessions c !! k = Some st).
  { unfold on_state. destruct (lc_sessions c !! x) as [st|] eqn:Hx; [|split; [apply (ext_mono 0); [lia|apply ext_refl]|intros k st Hk; destruct (decide (k = x)) as [->|]; [congruence|done]]].
    destruct (beat_fine h h' x relay gen (bool_decide (x ∈ occupied_sessions roster)) complete (instant_now c) st (lc_rt c)) as [K1 K2].
    - intros r. apply streak_other.
    - rewrite Hnow. apply streak_self; [set_solver|]. rewrite <- Hsv, Hx. done.
    - intros r s l' g Hs. rewrite Hnow. specialize (Ht x r s l' g Hs). lia.
    - by rewrite Hnow.
    - unfold token in Hn. lia.
    - specialize (Hev x st Hx). by rewrite decide_True in Hev by set_solver.
    - split; [exact K2|]. cbn. intros k st'. intros [[<- <-]|[Hne Hk]]%lookup_insert_Some; [by rewrite decide_True|by rewrite decide_False]. }
  assert (Hsv1 : forall k, ss_serving <$> lc_sessions (on_state c x (beat_state tun relay gen (bool_decide (x ∈ occupied_sessions roster)) complete x (instant_now c))) !! k = ss_serving <$> lc_sessions c !! k).
  { intros k. unfold on_state. destruct (lc_sessions c !! x) as [st|] eqn:Hx; [|done]. cbn. destruct (decide (x = k)) as [<-|]; [rewrite lookup_insert_eq, Hx; cbn; f_equal; apply beat_serving|by rewrite lookup_insert_ne]. }
  assert (Hset1 : lc_setup (on_state c x (beat_state tun relay gen (bool_decide (x ∈ occupied_sessions roster)) complete x (instant_now c))) = lc_setup c) by apply on_state_setup.
  set (c1 := on_state c x _) in *. clearbody c1. destruct H1 as [H1 H2].
  destruct (IH ltac:(set_solver) c1 ltac:(congruence)) as (K1 & K2 & K3).
  - intros k. by rewrite Hsv1.
  - by eapply rtok_ext.
  - unfold token in *. destruct H1. lia.
  - intros k st Hk. specialize (H2 k st Hk). destruct (decide (k = x)) as [->|Hne].
    + destruct (decide (x ∈ l)); [by right|done].
    + specialize (Hev k st H2). destruct (decide (k ∈ l)) as [Hin|Hin].
      * rewrite decide_True in Hev by set_solver. destruct Hev; [left|right]; by eapply evok_ext.
      * rewrite decide_False in Hev by set_solver. by eapply evok_ext.
  - split; [done|]. split; [by eapply ext_trans|]. unfold instant_now in *. congruence.
Qed.

Lemma goes_beat : timely h (instant_now c0) -> token c0 + Z.of_nat (length keys) < 2 ^ 64 -> E h c0 ->
  goes h' (Z.of_nat (length keys)) c0 (foldl (fun c k => on_state c k (beat_state tun relay gen (bool_decide (k ∈ occupied_sessions roster)) complete k (instant_now c))) c0 keys).
Proof.
  intros Ht Hn [H1 H2]. apply beats_fold; [by apply beat_timely|done|done|done|done|done|]. intros k st Hk. destruct (decide (k ∈ keys)) as [Hin|Hout]; [left; by apply H2|].
  eapply evok_swap; [|by apply H2]. intros r e _. by apply streak_silent.
Qed.

End beat.

(** ** The clock moves with its tick only *)

Lemma create_instant s rq expires hold unix o s' : create_body s rq expires hold unix = Some (o, s') -> instant_ns s' = instant_ns s.
Proof.
  unfold create_body. destruct (cached_create s rq); [by intros [= _ <-]|]. destruct (validate_request rq); [|by intros [= _ <-]].
  destruct (match session_ceiling s with Some c => c <=? live_session_count s | None => false end); [by intros [= _ <-]|].
  assert (Hh : instant_ns (hold_until_ready s rq hold unix).2 = instant_ns s).
  { unfold hold_until_ready. repeat match goal with |- context [match ?m with _ => _ end] => destruct m; try done end. }
  destruct (hold_until_ready s rq hold unix) as [held s1]. cbn in Hh. destruct held; [by intros [= _ <-]|]. destruct (place_by_region _ _ _ _ _) as [[p|e]|]; cbn [mbind option_bind]; [|by intros [= _ <-]|done].
  destruct (tenants s1 !! rq_tenant rq) as [b|]; [|by intros [= _ <-]]. intros [= E]. rewrite <- Hh. unfold commit_create in E. destruct (mint_all _ _ _ _); [|by injection E as _ <-]. injection E as _ <-. by destruct (rq_external_id rq).
Qed.

Lemma evicting_instant s k relay departed : instant_ns (rehome_evicting s k relay departed).2 = instant_ns s.
Proof.
  unfold rehome_evicting, rehome_inner. destruct (rehome_pick _ _ _ _) as [o|r_new e revs]; [done|]. destruct (rehome_commit _ _ _ _ _ _) as [s'|] eqn:Es; [|done]. by apply rehome_commit_instant in Es.
Qed.

Lemma settle_instant s k expect cur : instant_ns (settle_lobby s k expect cur).2 = instant_ns s.
Proof. unfold settle_lobby. destruct (_ || _ || _); [done|]. by destruct (session_refs s !! k). Qed.

(** ** Every step *)

Lemma goes_register h c k serving players observers : token c < 2 ^ 64 -> E h c -> goes h 0 c (register_session tun c k serving players observers).
Proof. intros Ht H. apply goes_on_entry; [done|apply fine_register|done]. Qed.

Lemma goes_evict h c k relay : token c < 2 ^ 64 -> E h c -> goes h 0 c (evict_evidence_session tun c k relay).
Proof.
  intros Ht H. unfold evict_evidence_session. pose proof (goes_rehome h c k relay Ht H) as H1. destruct (rehome_session c k relay) as [[| |ep] c1]; [done| |done]. cbn in H1.
  apply (goes_trans0 h _ _ _ H1). intros H2. unfold retire_unsupported. destruct (_ && _ && _); [|by apply E_same]. destruct (lc_sessions c1 !! k) as [st|]; [by apply goes_remove|].
  destruct (new_state (queue_capacity tun) [] (lc_rt c1)) as [st rt] eqn:En. apply (E_ext 0); [done| |apply retire_instant|done].
  apply (ext_trans0 _ rt); [unfold new_state in En; injection En as _ <-; by apply ext_tasks|exact (close_and_retire_ext (set_lc_rt rt c1) k st)].
Qed.

Lemma goes_sessions h c f : timely h (instant_now c) -> (forall k, fine h (instant_now c) 1 k (f k)) -> token c + Z.of_nat (size (lc_sessions c)) < 2 ^ 64 -> E h c ->
  goes h (Z.of_nat (size (lc_sessions c))) c (each_session c f).
Proof. intros Ht Hf Hn H. unfold each_session. rewrite <- length_map_to_list in *. by apply (goes_fold h (instant_now c) fst (fun p => f p.1)). Qed.

Lemma goes_enroll h c hello boot : timely h (instant_now c) -> token c + Z.of_nat (size (lc_sessions c)) < 2 ^ 64 -> E h c ->
  goes h (Z.of_nat (size (lc_sessions c))) c (default c (snd <$> enroll_relay tun c hello boot)).
Proof.
  intros Ht Hn H. unfold enroll_relay. destruct (try_enroll (registry (lc_setup c)) hello) as [[gen g]|]; cbn [mbind option_bind fmap option_fmap option_map snd default]; [|by apply (goes_mono h 0); [lia|apply E_same]].
  set (c1 := apply_relay_enrolled tun _ _ gen). assert (H1 : goes h (Z.of_nat (size (lc_sessions c))) c c1).
  { unfold c1, apply_relay_enrolled. match goal with |- context [if ?b then _ else _] => destruct b end; [apply (goes_mono h 0); [lia|by apply E_same]|].
    match goal with |- goes _ _ _ (each_session ?x ?f) => assert (K : goes h (Z.of_nat (size (lc_sessions x))) x (each_session x f)) end.
    { apply goes_sessions; [exact Ht|intros k; by apply fine_reopen|exact Hn|exact H]. }
    exact K. }
  clearbody c1. destruct (note_boot_id _ _ _) as [lin g2]. set (c2 := set_lc_setup (with_registry _ g2) c1). set (c3 := match lin with Continuous => _ | Broken => _ end).
  assert (H3 : goes h (Z.of_nat (size (lc_sessions c))) c c3).
  { destruct H1 as ([K1 K2] & K3 & K4). unfold c3. destruct lin; [by split|]. split; [|by split]. split; [done|]. intros k st. cbn. rewrite lookup_fmap. destruct (lc_sessions c1 !! k) as [x|] eqn:Hx; [|done]. cbn. intros [= <-].
    specialize (K2 k x Hx). destruct (bool_decide _); [by refine (evok_fewer h k x _ _ _ _ K2)|done]. }
  clearbody c3. match goal with |- context [if ?b then _ else _] => destruct b end; exact H3.
Qed.

Lemma goes_disconnect h c relay gen : timely h (instant_now c) -> token c + Z.of_nat (size (lc_sessions c)) < 2 ^ 64 -> E h c -> goes h (Z.of_nat (size (lc_sessions c))) c (disconnect_relay tun c relay gen).
Proof.
  intros Ht Hn H. unfold disconnect_relay. destruct (remove_if_current _ _ _) as [[] g]; [|by apply (goes_mono h 0); [lia|apply E_same]].
  unfold apply_relay_disconnected. cbn [relay_epochs set_lc_setup]. destruct (relay_epochs c !! relay); [|by apply (goes_mono h 0); [lia|apply E_same]].
  destruct (_ || _); [by apply (goes_mono h 0); [lia|apply E_same]|].
  match goal with |- goes _ _ _ (each_session ?x ?f) => assert (K : goes h (Z.of_nat (size (lc_sessions x))) x (each_session x f)) end.
  { apply goes_sessions; [exact Ht|intros k; by apply fine_lapse|exact Hn|exact H]. }
  exact K.
Qed.

Lemma goes_closed h c k relay gen : timely h (instant_now c) -> token c + 1 < 2 ^ 64 -> E h c -> goes h 1 c (on_session_closed tun c k relay gen).
Proof.
  intros Ht Hn H. assert (Hid : goes h 1 c c) by (apply (goes_mono h 0); [lia|by apply E_same]). unfold on_session_closed. destruct (negb _); [done|]. destruct (negb _); [done|].
  destruct (lc_sessions c !! k) as [st|] eqn:Hk; [|done]. destruct (negb _); [done|].
  destruct (fine_close h (instant_now c) relay gen k Ht st (lc_rt c) (proj1 H) Hn (proj2 H k st Hk)) as [K1 K2].
  assert (H1 : goes h 1 c (put_state c k (close_state tun relay gen k (instant_now c) st (lc_rt c)))) by (by apply goes_put). set (c1 := put_state _ _ _) in *. clearbody c1.
  apply (goes_trans h 1 0 _ c1 _ H1). intros H2. unfold finish_if_all_closed. destruct (lc_sessions c1 !! k); [|by apply E_same]. destruct (_ || _); [by apply E_same|by apply goes_remove].
Qed.

Record inv (h : history) (c : Lifecycle) : Prop := mkInv {
  iv_ev : E h c;
  iv_time : timely h (instant_now c);
  iv_token : token c <= 1 + armings h;
}.

Lemma inv_goes h c o c' : inv h c -> (forall k r, report c o k r = None) -> goes h (arms c o) c c' -> inv ((c, o) :: h) c'.
Proof.
  intros [I1 I2 I3] Hq ([G1 G2] & [G3 _] & G5). assert (Hs : forall k r, streak_of ((c, o) :: h) k r = streak_of h k r) by (intros k r; cbn; by rewrite Hq). split.
  - split; [done|]. intros k st Hk. eapply evok_swap; [|by apply G2]. intros r e _. apply Hs.
  - intros k r s l g. rewrite Hs, G5. apply I2.
  - rewrite armings_cons. unfold token in *. lia.
Qed.

(** The clock goes forward, or a due task wakes. *)
Lemma inv_later h c o c' now : inv h c -> (forall k r, report c o k r = None) -> lc_sessions c' = lc_sessions c -> instant_now c' = now -> instant_now c <= now -> arms c o = 0 ->
  next_empty_timer_token (lc_rt c') = next_empty_timer_token (lc_rt c) ->
  (forall id t, rt_tasks (lc_rt c') !! id = Some t -> exists t0, rt_tasks (lc_rt c) !! id = Some t0 /\ task_kind t0 = task_kind t /\ task_due t0 = task_due t /\ (task_awake t = true -> task_awake t0 = true \/ task_due t <= now)) ->
  inv ((c, o) :: h) c'.
Proof.
  intros [[I1 I1'] I2 I3] Hq Es Hnow Hle Ha Etok Ht. assert (Hs : forall k r, streak_of ((c, o) :: h) k r = streak_of h k r) by (intros k r; cbn; by rewrite Hq). split.
  - split.
    + split; rewrite ?Etok; [| |apply I1].
      * intros id t k tok H Hk. destruct (Ht id t H) as (t0 & H0 & K1 & K2 & _). apply (ro_token _ _ I1 id t0 k tok H0). congruence.
      * intros id t H Hw. destruct (Ht id t H) as (t0 & H0 & K1 & K2 & K3). rewrite Hnow. destruct (K3 Hw) as [Hw0|]; [|done]. pose proof (ro_awake _ _ I1 id t0 H0 Hw0). lia.
    + intros k st. rewrite Es. intros Hk. destruct (I1' k st Hk) as [A1 A2 A3]. split.
      * intros r e. rewrite Hs. apply A1.
      * rewrite Etok. exact A2.
      * intros et id t r e s l g He H Hkd Hre. rewrite Hs. destruct (Ht id t H) as (t0 & H0 & K1 & K2 & _). rewrite <- K2. apply (A3 et id t0 r e s l g He H0); [congruence|done].
  - intros k r s l g. rewrite Hs, Hnow. intros H. specialize (I2 k r s l g H). lia.
  - rewrite armings_cons. unfold token in *. lia.
Qed.

Lemma inv_step h c o c' : lop_ok o -> 1 + armings ((c, o) :: h) < 2 ^ 64 -> inv h c -> lc_step tun c o = Some c' -> inv ((c, o) :: h) c'.
Proof.
  intros Ho Hn HI. destruct HI as [I1 I2 I3] eqn:EI. clear EI. rewrite armings_cons in Hn. pose proof (arms_nonneg c o) as Ha. assert (Ht : token c + arms c o < 2 ^ 64) by lia.
  destruct o as [rq expires hold unix|k|k dead|k relay dep|k relay|hello boot|relay gen|relay gen v|n|n|k|relay gen roster complete|p|k slot|k relay gen|k expect cur|relay|p|d wall|id|id| |q|q|q];
    cbn [lc_step arms] in *; rewrite ?Z.add_0_r in Ht; [| | | | | | | | | | |intros [= <-]| | | | | | |intros [= <-]|intros [= <-]| | | | |];
    lazymatch goal with |- inv _ _ => idtac | _ => (intros E; apply (inv_goes h c _ _ HI); [done|]; revert E; cbn [arms]) end.
  - unfold create_session. destruct (create_body _ _ _ _ _) as [[o s]|] eqn:Eb; cbn [mbind option_bind fmap option_fmap option_map snd]; [|done]. intros [= <-]. apply create_instant in Eb.
    assert (H1 : goes h 0 c (set_lc_setup s c)) by (by apply E_same). destruct o as [[response ids []|]|]; try exact H1. apply (goes_trans0 h _ _ _ H1). by apply goes_register.
  - intros [= <-]. apply goes_on_state; [lia|lia|apply fine_reset|done].
  - intros [= <-]. by apply goes_rehome.
  - intros [= <-]. apply E_same; [done|done|apply evicting_instant|done].
  - intros [= <-]. by apply goes_evict.
  - intros [= <-]. by apply goes_enroll.
  - intros [= <-]. by apply goes_disconnect.
  - intros [= <-]. by apply E_same.
  - intros [= <-]. by apply goes_record.
  - intros [= <-]. by apply goes_handle.
  - intros [= <-]. apply E_same; [done|done| |done]. unfold instant_now. cbn. unfold refresh_resumed_descriptors. by destruct (bool_decide _).
  - unfold on_relay_heartbeat. destruct (epoch_current c relay gen) eqn:Ec; cbn [negb].
    + destruct (goes_beat h c relay gen roster complete Ec I2 Ht I1) as (G1 & [G2 _] & G3). unfold occupied_sessions in G1, G2, G3. split; [exact G1|rewrite G3; by apply beat_timely|rewrite armings_cons; unfold token in *; cbn [arms]; lia].
    + apply (inv_goes h c _ _ HI); [intros k r; cbn; by rewrite Ec, andb_false_r|]. apply (goes_mono h 0); [cbn; lia|by apply E_same].
  - intros [= <-]. unfold merge_turn_evidence. destruct (sp_forwarded p); [by apply E_same|]. apply goes_on_entry; [done| |done].
    by apply (fine_from h (instant_now c) 0 (sp_session p) (arm_webhook_reap_if_orphan tun (sp_session p) (instant_now c)) (fun st => set_forwarded_slots _ st)); [|apply fine_arm_webhook].
  - intros [= <-]. apply goes_on_entry; [done| |done]. by apply (fine_from h (instant_now c) 0 k (arm_webhook_reap_if_orphan tun k (instant_now c)) (fun st => set_lobby_violation_slots _ st)); [|apply fine_arm_webhook].
  - intros [= <-]. by apply goes_closed.
  - intros [= <-]. apply E_same; [done|done|apply settle_instant|done].
  - intros [= <-]. by apply E_same.
  - intros [= <-]. by apply E_same.
  - cbn in Ho. eapply (inv_later h c _ _ _ HI); [done|done|reflexivity|unfold instant_now; cbn; lia|done|done|]. intros id t H. exists t. split; [done|]. split; [done|]. split; [done|by left].
  - unfold wake. destruct (rt_tasks (lc_rt c) !! id) as [t|] eqn:Et; [|by apply (inv_goes h c _ _ HI); [|apply E_same]]. destruct (Z.leb_spec (task_due t) (instant_now c)) as [Hd|]; [|by apply (inv_goes h c _ _ HI); [|apply E_same]].
    eapply (inv_later h c _ _ _ HI); [done|done|reflexivity|unfold instant_now; cbn; lia|done|done|]. intros i x. cbn. intros [[<- <-]|[_ Hx]]%lookup_insert_Some; [exists t; split; [done|]; split; [done|]; split; [done|by right]|].
    exists x. split; [done|]. split; [done|]. split; [done|by left].
  - intros [= <-]. by apply goes_fire.
  - intros [= <-]. unfold send_next_close. destruct (lc_closes c) as [|[r x] rest]; by apply E_same.
  - intros [= <-]. apply (E_ext 0); [done|by apply ext_tasks|done|done].
  - intros [= <-]. apply (E_ext 0); [done| |done|done]. cbn. unfold drain_done. destruct (rt_queues (lc_rt c) !! q ≫= q_delivering); [by apply ext_tasks|apply ext_refl].
  - intros [= <-]. apply (E_ext 0); [done|by apply ext_tasks|done|done].
Qed.

(** ** The theorem *)

Lemma recorded_more ops : forall h c, armings h <= armings (recorded tun h c ops).
Proof.
  induction ops as [|o ops IH]; intros h c; cbn [recorded]; [done|]. destruct (lc_step tun c o) as [c1|]; [|done]. specialize (IH ((c, o) :: h) c1). rewrite armings_cons in IH. pose proof (arms_nonneg c o). lia.
Qed.

Lemma inv_run ops : forall h c c', Forall lop_ok ops -> 1 + armings (recorded tun h c ops) < 2 ^ 64 -> inv h c -> lc_run tun c ops = Some c' -> inv (recorded tun h c ops) c'.
Proof.
  induction ops as [|o ops IH]; intros h c c' Ho Hn HI; cbn [lc_run recorded] in *; [by intros [= <-]|]. apply Forall_cons in Ho as [Ho1 Ho2]. destruct (lc_step tun c o) as [c1|] eqn:Es; cbn [mbind option_bind]; [|done].
  apply IH; [done|done|]. apply inv_step; [done| |done|done]. pose proof (recorded_more ops ((c, o) :: h) c1). lia.
Qed.

Lemma inv_start s nt : inv [] (new_lifecycle s nt).
Proof.
  split; [split; [split|]| |]; cbn; [intros id t k tok; by rewrite lookup_empty|intros id t; by rewrite lookup_empty|lia|intros k st; by rewrite lookup_empty|by intros k r|done].
Qed.

(** Firing the timer takes the session out only on confirmed evidence. *)
Lemma fire_empty_removes c id t k tok st : rt_tasks (lc_rt c) !! id = Some t -> task_kind t = TEmpty k tok -> lc_sessions c !! k = Some st -> lc_sessions (fire tun c id) !! k = None ->
  task_awake t = true /\ (et_token <$> empty_timer st) = Some tok /\ ss_started st = true /\ all_relays_closed st = false /\
  all_relays_confirmed_empty st (instant_now c) (empty_roster_freshness tun) = true /\ empty_evidence_matches_epochs st (relay_epochs c) = true.
Proof.
  intros Ht Hk Hs. unfold fire. rewrite Ht. destruct (task_awake t); [|congruence]. rewrite Hk. unfold fire_empty_session. cbn [lc_sessions set_lc_rt lc_rt relay_epochs]. rewrite Hs.
  destruct (bool_decide_reflect ((et_token <$> empty_timer st) = Some tok)) as [Et|]; [|cbn; congruence].
  match goal with |- context [if ?b then _ else _] => destruct b eqn:Eb end; [cbn; by rewrite lookup_insert_eq|]. intros _.
  apply orb_false_elim in Eb as [Eb E4]. apply orb_false_elim in Eb as [Eb E3]. apply orb_false_elim in Eb as [E1 E2].
  split; [done|]. split; [done|]. apply negb_false_iff in E1, E3, E4. done.
Qed.

(** C18 In every run of fewer than [2 ^ 64] armings, a session ended by the
    empty-session timer had started, was not closed by all its relays, and each
    relay serving it either closed it or, under the generation it is connected
    with, said in an unbroken row of complete heartbeats that no slot is on it: the
    row began at least the grace ago, has no gap beyond the freshness bound and
    reaches within that bound of now. *)
Theorem empty_reap_is_earned (s : SessionSetup) (nt : gset string) (ops : list LOp) (c c' : Lifecycle) (id : Z) (t : Task) (k : string * Z) (tok : Z) (st : SessionState) :
  lc_run tun (new_lifecycle s nt) ops = Some c -> Forall lop_ok ops -> 1 + armings (recorded tun [] (new_lifecycle s nt) ops) < 2 ^ 64 ->
  rt_tasks (lc_rt c) !! id = Some t -> task_kind t = TEmpty k tok -> lc_sessions c !! k = Some st -> lc_step tun c (LFire id) = Some c' -> lc_sessions c' !! k = None ->
  ss_started st = true /\ all_relays_closed st = false /\
  forall r, r ∈ ss_serving st -> is_Some (closed_relays st !! r) \/
    exists first last gen, streak_of (recorded tun [] (new_lifecycle s nt) ops) k r = Some (first, last, gen) /\
      first + empty_session_grace tun <= instant_now c /\ instant_now c - last <= empty_roster_freshness tun /\ epoch_current c r gen = true.
Proof.
  intros Erun Ho Hn Ht Hk Hs [= <-] Hgone. destruct (inv_run ops [] (new_lifecycle s nt) c Ho Hn (inv_start s nt) Erun) as [[I1 I2] _ _].
  destruct (fire_empty_removes c id t k tok st Ht Hk Hs Hgone) as (F1 & F2 & F3 & F4 & F5 & F6). split; [done|]. split; [done|]. intros r Hr.
  destruct (empty_timer st) as [et|] eqn:Et; [|done]. cbn in F2. injection F2 as <-.
  apply andb_prop in F5 as [_ F5]. rewrite forallb_forall in F5. unfold empty_evidence_matches_epochs in F6. rewrite forallb_forall in F6.
  specialize (F5 r (proj1 (list_elem_of_In _ _) Hr)). specialize (F6 r (proj1 (list_elem_of_In _ _) Hr)).
  destruct (bool_decide_reflect (is_Some (closed_relays st !! r))) as [Hc|Hc]; [by left|]. cbn [orb] in F5, F6. right.
  destruct (empty_relays st !! r) as [e|] eqn:Ee; [|done]. destruct (eo_seen _ _ _ _ (I2 k st Hs) r e Ee) as [first Hst]. exists first, (last_seen e), (ev_generation e). split; [done|].
  pose proof (eo_due _ _ _ _ (I2 k st Hs) et id t r e _ _ _ Et Ht Hk Ee Hst). pose proof (ro_awake _ _ I1 id t Ht F1). unfold since in F5. split; [lia|]. split; [lia|].
  unfold epoch_current. destruct (relay_epochs c !! r) as [p|]; [|done]. apply andb_prop in F6 as [G1 G2]. rewrite G1. cbn. by rewrite Z.eqb_sym, Z.eqb_sym.
Qed.

End earned.

(** ** A session from create to close

    The theorems on the lifecycle applied to one run: two relays serve a session,
    a slot connects, both relays report it closed; or both report it empty for a
    quarter of an hour. *)

Definition closing_start : Lifecycle := new_lifecycle sample_start {["sb"%string]}.
Definition closing_ops : list LOp :=
  [LEnroll (sample_hello 1 "us") (Some 71); LEnroll (sample_hello 2 "eu") (Some 72); LEnroll (sample_hello 3 "ap") (Some 73);
   LCreate sample_request 1000 None 0; LRecord (SlotConnected ("sb"%string, 7) 1 None); LHandle (SlotConnected ("sb"%string, 7) 1 None);
   LClosed ("sb"%string, 7) 1 0].
Definition closing : Lifecycle := default closing_start (@lc_run plain_sha plain_mint default_tunables closing_start closing_ops).

Lemma closing_runs : @lc_run plain_sha plain_mint default_tunables closing_start closing_ops = Some closing.
Proof. vm_compute. reflexivity. Qed.

(** One notice is queued; the second relay's close ends the session. *)
Lemma session_closed_last_witness :
  pending_webhooks (lc_rt closing) = 1 /\
  exists c' q x, @lc_step plain_sha plain_mint default_tunables closing (LClosed ("sb"%string, 7) 2 1) = Some c' /\ lc_sessions c' !! ("sb"%string, 7) = None /\
    rt_queues (lc_rt c') !! 0 = Some (buffer_job (mkWebhookJob ("sb"%string, 7) NSessionClosed 0 x) q).
Proof.
  destruct (@session_closed_last default_tunables ltac:(vm_compute; discriminate) plain_sha plain_mint sample_start {["sb"%string]} closing_ops closing) as (H1 & H2 & H3); [exact closing_runs|].
  split; [rewrite H2; vm_compute; reflexivity|].
  destruct (@lc_step plain_sha plain_mint default_tunables closing (LClosed ("sb"%string, 7) 2 1)) as [c'|] eqn:E; [|vm_compute in E; discriminate].
  destruct (lc_sessions closing !! ("sb"%string, 7)) as [st|] eqn:Es; [|vm_compute in Es; discriminate].
  assert (Hs : ss_serving st <> []) by (vm_compute in Es; injection Es as <-; discriminate).
  assert (Hq : ss_queue st = 0) by (vm_compute in Es; injection Es as <-; reflexivity).
  assert (Hn : lc_sessions c' !! ("sb"%string, 7) = None) by (vm_compute in E; injection E as <-; vm_compute; reflexivity).
  destruct (H3 _ c' _ st E Es Hs Hn) as (q & x & _ & K); [apply (bool_decide_unpack _); vm_compute; exact I|].
  exists c', q, x. rewrite Hq in K. split; [reflexivity|]. split; [exact Hn|exact K].
Defined.

Lemma lifecycle_tracks_setup_witness :
  exists c, @lc_run plain_sha plain_mint default_tunables closing_start (closing_ops ++ [LClosed ("sb"%string, 7) 2 1]) = Some c /\
    session_relays (lc_setup c) !! ("sb"%string, 7) = None.
Proof.
  destruct (@lifecycle_tracks_setup plain_sha plain_mint default_tunables (fun _ _ _ _ _ => ltac:(by eexists)) {["sb" := (1, 8)]} 7 None 60 None true {["sb"%string]}
    (closing_ops ++ [LClosed ("sb"%string, 7) 2 1])) as (c & E & H).
  - lia.
  - vm_compute. reflexivity.
  - by repeat constructor.
  - exists c. split; [exact E|]. rewrite (H ("sb"%string, 7)).
    assert (En : lc_sessions c !! ("sb"%string, 7) = None) by (vm_compute in E; injection E as <-; vm_compute; reflexivity). by rewrite En.
Defined.

(** Half a minute passes and both relays report an empty, complete roster. *)
Definition idle : list LOp := [LTick (secs 30) 0; LBeat 1 0 [] true; LBeat 2 1 [] true].
Definition empty_ops : list LOp :=
  [LEnroll (sample_hello 1 "us") (Some 71); LEnroll (sample_hello 2 "eu") (Some 72); LEnroll (sample_hello 3 "ap") (Some 73);
   LCreate sample_request 1000 None 0; LRecord (SlotConnected ("sb"%string, 7) 1 None)] ++ concat (repeat idle 31) ++ [LWake 2].
Definition emptied : Lifecycle := default closing_start (@lc_run plain_sha plain_mint default_tunables closing_start empty_ops).

Lemma idle_runs : @lc_run plain_sha plain_mint default_tunables closing_start empty_ops = Some emptied.
Proof. vm_compute. reflexivity. Qed.

Lemma empty_reap_is_earned_witness :
  exists c', @lc_step plain_sha plain_mint default_tunables emptied (LFire 2) = Some c' /\ lc_sessions c' !! ("sb"%string, 7) = None /\
    exists first last gen, streak (empty_roster_freshness default_tunables) (@recorded plain_sha plain_mint default_tunables [] closing_start empty_ops) ("sb"%string, 7) 2 = Some (first, last, gen) /\
      first + secs 900 <= instant_now emptied.
Proof.
  destruct (@lc_step plain_sha plain_mint default_tunables emptied (LFire 2)) as [c'|] eqn:E; [|vm_compute in E; discriminate].
  destruct (lc_sessions emptied !! ("sb"%string, 7)) as [st|] eqn:Es; [|vm_compute in Es; discriminate].
  destruct (rt_tasks (lc_rt emptied) !! 2) as [t|] eqn:Et; [|vm_compute in Et; discriminate].
  assert (Hn : lc_sessions c' !! ("sb"%string, 7) = None) by (vm_compute in E; injection E as <-; vm_compute; reflexivity).
  destruct (@empty_reap_is_earned plain_sha plain_mint default_tunables sample_start {["sb"%string]} empty_ops emptied c' 2 t ("sb"%string, 7) 1 st) as (H1 & H2 & H3).
  - exact idle_runs.
  - repeat constructor; cbn; unfold secs; lia.
  - vm_compute. reflexivity.
  - exact Et.
  - vm_compute in Et. injection Et as <-. reflexivity.
  - exact Es.
  - exact E.
  - exact Hn.
  - exists c'. split; [reflexivity|]. split; [exact Hn|]. destruct (H3 2) as [Hc|(f & l & g & K1 & K2 & _)].
    + vm_compute in Es. injection Es as <-. apply (bool_decide_unpack _); vm_compute; exact I.
    + exfalso. vm_compute in Es. injection Es as <-. destruct Hc as [x Hx]. vm_compute in Hx. discriminate.
    + exists f, l, g. split; [exact K1|exact K2].
Defined.
