(* ===== verification/Ledger.v ===== *)
(** * The relay ledger ([coordinator/src/ledger/])

    The identities the coordinator minted for the relays it launches: a one-time
    token that authorizes the first enroll, the certificate each id is bound to,
    the task it runs as and the addresses it is reached at, and the tombstone of a
    retired id.  The store is one SQLite table behind a mutex, so every method is
    one step; rows are kept by their signed row id, and lists the code stores as
    JSON are kept as lists.  A statement the database fails is a [fault] argument
    and changes nothing.  The random token is an argument; the hash is [sha256] of
    the registry. *)

From Stdlib Require Import ZArith Lia.
From stdpp Require Import gmap list strings.
From S2P Require Import Prelude.
From S2P Require Import Registry.

Open Scope Z_scope.

(** SQLite's INTEGER is signed; the code reinterprets. *)
Definition as_i64 (v : Z) : Z := if v <? 2 ^ 63 then v else v - 2 ^ 64.
Definition as_u64 (v : Z) : Z := v mod 2 ^ 64.

Inductive IpAddr : Type := V4 (a : Z) | V6 (a : Z).
#[export] Instance ip_addr_eq : EqDecision IpAddr.
Proof. solve_decision. Defined.
Definition is_ipv4 (ip : IpAddr) : bool := match ip with V4 _ => true | V6 _ => false end.

Record LedgerRow : Type := mkLedgerRow {
  lr_region : option string;
  lr_token_hash : list Z;
  lr_token_expires_at : Z;
  lr_token_consumed_at : option Z;
  lr_cert : option (list Z);
  lr_task_arn : option string;
  lr_expected_ips : option (list IpAddr);
  lr_addrs : option (list string);
  lr_launched_at : Z;
  lr_enrolled_at : option Z;
  lr_retired_at : option Z;
}.

(** [next_rowid] is what AUTOINCREMENT hands out next. *)
Record RelayLedger : Type := mkRelayLedger { rows : gmap Z LedgerRow; next_rowid : Z }.

Definition new_ledger : RelayLedger := mkRelayLedger ∅ 1.
Definition put_row (l : RelayLedger) (id : Z) (r : LedgerRow) : RelayLedger := mkRelayLedger (<[id := r]> (rows l)) (next_rowid l).

Inductive LedgerError : Type := SqliteError | RngError | ClockError.
Record Minted : Type := mkMinted { minted_id : Z; minted_token : string }.
Record ProvisionedTask : Type := mkProvisionedTask { pt_relay : Z; pt_task_arn : option string; pt_region : option string }.

Inductive Authorized : Type := FirstEnroll (cold_start_secs : option Z) | Reenroll.
Record AuthorizedEnroll : Type := mkAuthorizedEnroll { ae_kind : Authorized; ae_addrs : list string }.
Inductive EnrollRefusal : Type :=
| UnknownId | Retired | IpMismatch | FingerprintMismatch | TokenRequired | TokenInvalid | AddrsPending | StorageRefusal (e : LedgerError).

(** ** Digests *)

Definition as_bytes (s : string) : list Z := (fun c => Z.of_nat (Ascii.nat_of_ascii c)) <$> String.list_ascii_of_string s.

Definition constant_time_eq (a b : list Z) : bool :=
  if negb (length a =? length b)%nat then false
  else foldl (fun diff p => Z.lor diff (Z.lxor p.1 p.2)) 0 (zip a b) =? 0.

(** ** Minting and enrolling *)

Section ledger.
Context {sha : Sha256}.

Definition mint_at (l : RelayLedger) (now : Z) (rg : option string) (token_ttl : Z) (random : option string) (fault : bool) :
    result Minted LedgerError * RelayLedger :=
  if now =? u64_max then (Err ClockError, l)
  else
    match random with
    | None => (Err RngError, l)
    | Some token =>
        let expires_at := saturating_add u64_max now token_ttl in
        if fault || (2 ^ 63 <=? next_rowid l) then (Err SqliteError, l)
        else
          let id := next_rowid l in
          (Ok (mkMinted (as_u64 id) token),
           mkRelayLedger (<[id := mkLedgerRow rg (sha256 (as_bytes token)) (as_i64 expires_at) None None None None None (as_i64 now) None None]> (rows l)) (id + 1))
    end.

Definition bind_row (r : LedgerRow) (now : Z) (cert : list Z) : LedgerRow :=
  mkLedgerRow (lr_region r) (lr_token_hash r) (lr_token_expires_at r) (Some (as_i64 now)) (Some cert) (lr_task_arn r) (lr_expected_ips r) (lr_addrs r)
    (lr_launched_at r) (Some (as_i64 now)) (lr_retired_at r).

(** The UPDATE that consumes the token and binds the certificate: the rows it
    affected. *)
Definition consume_and_bind (l : RelayLedger) (now id : Z) (cert presented : list Z) : Z * RelayLedger :=
  match rows l !! id with
  | Some r =>
      if bool_decide (lr_token_consumed_at r = None) && bool_decide (lr_token_hash r = presented) then (1, put_row l id (bind_row r now cert)) else (0, l)
  | None => (0, l)
  end.

(** [read] and [write] are the faults of the SELECT and of the UPDATE. *)
Definition authorize_enroll_at (l : RelayLedger) (now id : Z) (cert : list Z) (token : option string) (peer_ip : option IpAddr) (read write : bool) :
    result AuthorizedEnroll EnrollRefusal * RelayLedger :=
  if read then (Err (StorageRefusal SqliteError), l)
  else
    match rows l !! as_i64 id with
    | None => (Err UnknownId, l)
    | Some row =>
        if bool_decide (is_Some (lr_retired_at row)) then (Err Retired, l)
        else
          let expected := default [] (lr_expected_ips row) in
          if negb (bool_decide (expected = [])) && negb (match peer_ip with Some ip => bool_decide (ip ∈ expected) | None => false end) then (Err IpMismatch, l)
          else
            let addrs := default [] (lr_addrs row) in
            match lr_cert row with
            | Some bound =>
                if negb (constant_time_eq bound cert) then (Err FingerprintMismatch, l)
                else if bool_decide (addrs = []) then (Err AddrsPending, l)
                else (Ok (mkAuthorizedEnroll Reenroll addrs), l)
            | None =>
                match token with
                | None => (Err TokenRequired, l)
                | Some token =>
                    if as_u64 (lr_token_expires_at row) <? now then (Err TokenInvalid, l)
                    else
                      let presented := sha256 (as_bytes token) in
                      if negb (constant_time_eq presented (lr_token_hash row)) then (Err TokenInvalid, l)
                      else if bool_decide (addrs = []) then (Err AddrsPending, l)
                      else if write then (Err (StorageRefusal SqliteError), l)
                      else
                        let '(affected, l) := consume_and_bind l now (as_i64 id) cert presented in
                        if affected =? 1
                        then (Ok (mkAuthorizedEnroll (FirstEnroll (if now =? u64_max then None else Some (saturating_sub now (as_u64 (lr_launched_at row))))) addrs), l)
                        else (Err TokenInvalid, l)
                end
            end
    end.

End ledger.

(** [now] is the clock's answer, [u64_max] when it is unusable. *)
Definition retire (l : RelayLedger) (now id : Z) (fault : bool) : result unit LedgerError * RelayLedger :=
  if fault then (Err SqliteError, l)
  else
    (Ok tt,
     match rows l !! as_i64 id with
     | Some r =>
         if bool_decide (lr_retired_at r = None)
         then put_row l (as_i64 id) (mkLedgerRow (lr_region r) (lr_token_hash r) (lr_token_expires_at r) (lr_token_consumed_at r) (lr_cert r) (lr_task_arn r)
                                       (lr_expected_ips r) (lr_addrs r) (lr_launched_at r) (lr_enrolled_at r) (Some (as_i64 now)))
         else l
     | None => l
     end).

Definition is_retired (l : RelayLedger) (id : Z) (fault : bool) : result bool LedgerError :=
  if fault then Err SqliteError
  else Ok (match rows l !! as_i64 id with Some r => bool_decide (is_Some (lr_retired_at r)) | None => false end).

(** ** Tasks *)

Definition set_task (r : LedgerRow) (task : string) (ips : option (list IpAddr)) (addrs : option (list string)) : LedgerRow :=
  mkLedgerRow (lr_region r) (lr_token_hash r) (lr_token_expires_at r) (lr_token_consumed_at r) (lr_cert r) (Some task) ips addrs
    (lr_launched_at r) (lr_enrolled_at r) (lr_retired_at r).

Definition record_task (l : RelayLedger) (id : Z) (task : string) (ips : list IpAddr) (addrs : list string) (fault : bool) : result unit LedgerError * RelayLedger :=
  if fault then (Err SqliteError, l)
  else (Ok tt, match rows l !! as_i64 id with Some r => put_row l (as_i64 id) (set_task r task (Some ips) (Some addrs)) | None => l end).

Definition record_launch (l : RelayLedger) (id : Z) (task : string) (fault : bool) : result unit LedgerError * RelayLedger :=
  if fault then (Err SqliteError, l)
  else (Ok tt, match rows l !! as_i64 id with Some r => put_row l (as_i64 id) (set_task r task (lr_expected_ips r) (lr_addrs r)) | None => l end).

(** ** Queries *)

Definition row_to_provisioned_task (p : Z * LedgerRow) : ProvisionedTask := mkProvisionedTask (as_u64 p.1) (lr_task_arn p.2) (lr_region p.2).

Definition select {A} (l : RelayLedger) (P : LedgerRow -> bool) (f : Z * LedgerRow -> A) (fault : bool) : result (list A) LedgerError :=
  if fault then Err SqliteError else Ok (f <$> filter (fun p => P p.2 = true) (map_to_list (rows l))).

Definition unretired (r : LedgerRow) : bool := bool_decide (lr_retired_at r = None).
Definition unbound (r : LedgerRow) : bool := bool_decide (lr_cert r = None).

Definition unrecorded_launches (l : RelayLedger) (fault : bool) : result (list (ProvisionedTask * Z)) LedgerError :=
  select l (fun r => unretired r && bool_decide (is_Some (lr_task_arn r)) && bool_decide (lr_addrs r = None))
    (fun p => (row_to_provisioned_task p, as_u64 (lr_launched_at p.2))) fault.

Definition advertised_addrs (l : RelayLedger) (id : Z) (fault : bool) : result (option (list string)) LedgerError :=
  if fault then Err SqliteError else Ok (rows l !! as_i64 id ≫= lr_addrs).

Definition count_launching (l : RelayLedger) (rg : option string) (now : Z) (fault : bool) : result Z LedgerError :=
  if fault then Err SqliteError
  else Ok (Z.of_nat (length (filter (fun p : Z * LedgerRow =>
         unretired p.2 && unbound p.2 && (as_i64 now <=? lr_token_expires_at p.2) && bool_decide (lr_region p.2 = rg) = true) (map_to_list (rows l))))).

Definition expired_launching (l : RelayLedger) (now : Z) (fault : bool) : result (list ProvisionedTask) LedgerError :=
  select l (fun r => unretired r && unbound r && (lr_token_expires_at r <? as_i64 now)) row_to_provisioned_task fault.

Definition bound_unretired (l : RelayLedger) (fault : bool) : result (list ProvisionedTask) LedgerError :=
  select l (fun r => unretired r && negb (unbound r)) row_to_provisioned_task fault.

Definition referenced_task_arns (l : RelayLedger) (fault : bool) : result (list string) LedgerError :=
  if fault then Err SqliteError
  else Ok (omap (fun p : Z * LedgerRow => if unretired p.2 then lr_task_arn p.2 else None) (map_to_list (rows l))).

Definition task_arn (l : RelayLedger) (id : Z) (fault : bool) : result (option string) LedgerError :=
  if fault then Err SqliteError else Ok (rows l !! as_i64 id ≫= lr_task_arn).

(** Keyed by the relay's id. *)
Definition launch_times (l : RelayLedger) (fault : bool) : result (gmap Z Z) LedgerError :=
  if fault then Err SqliteError
  else Ok (list_to_map ((fun p : Z * LedgerRow => (as_u64 p.1, as_u64 (lr_launched_at p.2))) <$> filter (fun p => unretired p.2 = true) (map_to_list (rows l)))).

(** ** The ledger over time *)

Inductive LedgerOp : Type :=
| DbMint (now : Z) (rg : option string) (ttl : Z) (random : option string) (fault : bool)
| DbEnroll (now id : Z) (cert : list Z) (token : option string) (peer : option IpAddr) (read write : bool)
| DbRetire (now id : Z) (fault : bool)
| DbRecordTask (id : Z) (task : string) (ips : list IpAddr) (addrs : list string) (fault : bool)
| DbRecordLaunch (id : Z) (task : string) (fault : bool).

(** Clock readings and lifetimes are unsigned. *)
Definition ledger_op_ok (o : LedgerOp) : Prop := match o with DbMint now _ ttl _ _ => 0 <= now /\ 0 <= ttl | _ => True end.

(** A retirement of the id that the store performed. *)
Definition retires (id : Z) (o : LedgerOp) : Prop := match o with DbRetire _ id' false => as_i64 id' = as_i64 id | _ => False end.

Section over_time.
Context {sha : Sha256}.

Definition ledger_step (l : RelayLedger) (o : LedgerOp) : RelayLedger :=
  match o with
  | DbMint now rg ttl random fault => (mint_at l now rg ttl random fault).2
  | DbEnroll now id cert token peer read write => (authorize_enroll_at l now id cert token peer read write).2
  | DbRetire now id fault => (retire l now id fault).2
  | DbRecordTask id task ips addrs fault => (record_task l id task ips addrs fault).2
  | DbRecordLaunch id task fault => (record_launch l id task fault).2
  end.

Definition ledger_run (l : RelayLedger) (ops : list LedgerOp) : RelayLedger := foldl ledger_step l ops.

Lemma lor_fold_zero l : forall d, foldl (fun diff (p : Z * Z) => Z.lor diff (Z.lxor p.1 p.2)) d l = 0 <-> d = 0 /\ Forall (fun p => p.1 = p.2) l.
Proof.
  induction l as [|p l IH]; intros d; cbn [foldl]; [split; [done|by intros []]|]. rewrite IH, Z.lor_eq_0_iff, Z.lxor_eq_0_iff, Forall_cons. tauto.
Qed.

Lemma constant_time_eq_spec a : forall b, constant_time_eq a b = true <-> a = b.
Proof.
  intros b. unfold constant_time_eq. destruct (Nat.eqb_spec (length a) (length b)) as [El|El]; cbn [negb]; [|split; [done|intros ->; done]].
  rewrite Z.eqb_eq, lor_fold_zero. split; [|intros ->; split; [done|]].
  - intros [_ H]. revert b El H. induction a as [|x a IH]; intros [|y b]; cbn; try done. intros [= El]. rewrite Forall_cons. intros [E H]. cbn in E. subst y. by rewrite (IH b El H).
  - clear El. induction b; cbn; [by constructor|by constructor].
Qed.

Lemma as_i64_round v : 0 <= v <= u64_max -> as_u64 (as_i64 v) = v.
Proof. unfold as_u64, as_i64, u64_max. intros H. destruct (Z.ltb_spec v (2 ^ 63)); [apply Z.mod_small; lia|]. rewrite <- (Z.mod_add _ 1) by lia. replace (v - 2 ^ 64 + 1 * 2 ^ 64) with v by lia. apply Z.mod_small. lia. Qed.

(** What no operation changes of a row: its token, its launch, a certificate once
    bound, a tombstone once set. *)
Record row_grows (r r' : LedgerRow) : Prop := mkRowGrows {
  rg_region : lr_region r' = lr_region r;
  rg_hash : lr_token_hash r' = lr_token_hash r;
  rg_expires : lr_token_expires_at r' = lr_token_expires_at r;
  rg_launched : lr_launched_at r' = lr_launched_at r;
  rg_cert : is_Some (lr_cert r) -> lr_cert r' = lr_cert r;
  rg_retired : is_Some (lr_retired_at r) -> lr_retired_at r' = lr_retired_at r;
}.

#[export] Instance row_grows_po : PreOrder row_grows.
Proof.
  split; [by intros r; split|]. intros a b c [A1 A2 A3 A4 A5 A6] [B1 B2 B3 B4 B5 B6]. split; try congruence; intros H.
  - rewrite <- (A5 H). apply B5. by rewrite (A5 H).
  - rewrite <- (A6 H). apply B6. by rewrite (A6 H).
Qed.

(** Row ids are handed out in order, and a token is spent exactly when its row is
    bound. *)
Record ledger_ok (l : RelayLedger) : Prop := mkLedgerOk {
  lo_ids : forall id, is_Some (rows l !! id) -> 1 <= id < next_rowid l;
  lo_next : 1 <= next_rowid l <= 2 ^ 63;
  lo_spent : forall id r, rows l !! id = Some r -> (lr_token_consumed_at r = None <-> lr_cert r = None);
}.

Lemma new_ledger_ok : ledger_ok new_ledger.
Proof. split; [intros id; cbn; rewrite lookup_empty; by intros []|cbn; lia|intros id r; cbn; by rewrite lookup_empty]. Qed.

Lemma put_row_ok l id r r' : ledger_ok l -> rows l !! id = Some r -> row_grows r r' -> (lr_token_consumed_at r' = None <-> lr_cert r' = None) ->
  ledger_ok (put_row l id r') /\ forall id0 r0, rows l !! id0 = Some r0 -> exists r1, rows (put_row l id r') !! id0 = Some r1 /\ row_grows r0 r1.
Proof.
  intros [H1 H2 H3] Hr Hg Hs. split; [split|].
  - intros id0. cbn. rewrite lookup_insert_is_Some. intros [<-|[_ H]]; apply H1; [by rewrite Hr|done].
  - done.
  - intros id0 r0. cbn. intros [[<- <-]|[_ H]]%lookup_insert_Some; [done|by eapply H3].
  - intros id0 r0 H0. cbn. destruct (decide (id = id0)) as [<-|Hne]; [|exists r0; by rewrite lookup_insert_ne].
    exists r'. rewrite lookup_insert_eq. split; [done|congruence].
Qed.

(** An enroll either leaves the ledger alone or binds an unbound row. *)
Lemma authorize_cases l now id cert token peer read write :
  let r := authorize_enroll_at l now id cert token peer read write in
  (r.2 = l /\ match r.1 with Ok a => exists row, rows l !! as_i64 id = Some row /\ lr_retired_at row = None /\ lr_cert row = Some cert /\ ae_kind a = Reenroll /\
                                      ae_addrs a <> [] /\ lr_addrs row = Some (ae_addrs a)
              | Err _ => True end) \/
  exists a row tok, r.1 = Ok a /\ rows l !! as_i64 id = Some row /\ lr_retired_at row = None /\ lr_cert row = None /\ token = Some tok /\
    lr_token_hash row = sha256 (as_bytes tok) /\ now <= as_u64 (lr_token_expires_at row) /\ lr_token_consumed_at row = None /\
    r.2 = put_row l (as_i64 id) (bind_row row now cert) /\ ae_kind a <> Reenroll /\ ae_addrs a <> [] /\ lr_addrs row = Some (ae_addrs a).
Proof.
  cbn zeta. unfold authorize_enroll_at, consume_and_bind. destruct read; [by left|]. destruct (rows l !! as_i64 id) as [row|] eqn:Er; [|by left].
  case_bool_decide as Hret; [by left|]. assert (Hret' : lr_retired_at row = None) by (by apply eq_None_not_Some). destruct (negb _ && negb _); [by left|].
  destruct (lr_cert row) as [bound|] eqn:Ec.
  - destruct (constant_time_eq bound cert) eqn:Eq; cbn [negb]; [|by left]. apply constant_time_eq_spec in Eq as ->. case_bool_decide as Ha; [by left|]. left. split; [done|].
    exists row. repeat (split; [done|]). cbn. by destruct (lr_addrs row).
  - destruct token as [tok|]; [|by left]. destruct (Z.ltb_spec (as_u64 (lr_token_expires_at row)) now); [by left|].
    destruct (constant_time_eq _ _) eqn:Eq; cbn [negb]; [|by left]. apply constant_time_eq_spec in Eq. case_bool_decide as Ha; [by left|]. destruct write; [by left|].
    case_bool_decide as Hc; cbn [andb]; [|by left]. rewrite bool_decide_eq_true_2 by done. right. eexists _, row, tok. cbn [fst snd Z.eqb]. split; [done|].
    repeat (split; [done|]). cbn. by destruct (lr_addrs row).
Qed.

(** A step keeps the ledger well-formed and every row, as far as rows may change;
    a row that is new was minted. *)
Lemma ledger_step_ok l o : ledger_ok l ->
  ledger_ok (ledger_step l o) /\ forall id r, rows l !! id = Some r -> exists r', rows (ledger_step l o) !! id = Some r' /\ row_grows r r'.
Proof.
  intros Hok. assert (Hsame : ledger_ok l /\ forall id r, rows l !! id = Some r -> exists r', rows l !! id = Some r' /\ row_grows r r') by (split; [done|by intros id r; exists r]).
  destruct o as [now rg ttl random fault|now id cert token peer read write|now id fault|id task ips addrs fault|id task fault]; cbn [ledger_step].
  - unfold mint_at. destruct (_ =? _); [done|]. destruct random as [token|]; [|done]. destruct fault; [done|]. cbn [orb]. destruct (Z.leb_spec (2 ^ 63) (next_rowid l)) as [|Hn]; [done|].
    destruct Hok as [H1 H2 H3]. cbn [snd]. assert (Hfresh : rows l !! next_rowid l = None).
    { destruct (rows l !! next_rowid l) eqn:E; [|done]. destruct (H1 (next_rowid l)); [by rewrite E|lia]. }
    split; [split|]; cbn [rows next_rowid].
    + intros id. rewrite lookup_insert_is_Some. intros [<-|[_ H]]; [lia|]. apply H1 in H. lia.
    + lia.
    + intros id r. intros [[<- <-]|[_ H]]%lookup_insert_Some; [done|by eapply H3].
    + intros id r Hr. exists r. rewrite lookup_insert_ne; [done|congruence].
  - destruct (authorize_cases l now id cert token peer read write) as [[-> _]|(a & row & tok & _ & Hr & _ & Hc & _ & _ & _ & _ & -> & _)]; [done|].
    apply (put_row_ok l _ row); [done|done| |done]. split; try done. cbn. rewrite Hc. by intros [].
  - unfold retire. destruct fault; [done|]. cbn [snd]. destruct (rows l !! as_i64 id) as [r|] eqn:Er; [|done]. case_bool_decide as Hn; [|done].
    apply (put_row_ok l _ r); [done|done| |exact (lo_spent _ Hok (as_i64 id) r Er)]. split; try done. cbn. rewrite Hn. by intros [].
  - unfold record_task. destruct fault; [done|]. cbn [snd]. destruct (rows l !! as_i64 id) as [r|] eqn:Er; [|done].
    apply (put_row_ok l _ r); [done|done|by split|exact (lo_spent _ Hok (as_i64 id) r Er)].
  - unfold record_launch. destruct fault; [done|]. cbn [snd]. destruct (rows l !! as_i64 id) as [r|] eqn:Er; [|done].
    apply (put_row_ok l _ r); [done|done|by split|exact (lo_spent _ Hok (as_i64 id) r Er)].
Qed.

Lemma ledger_run_ok ops : forall l, ledger_ok l ->
  ledger_ok (ledger_run l ops) /\ forall id r, rows l !! id = Some r -> exists r', rows (ledger_run l ops) !! id = Some r' /\ row_grows r r'.
Proof.
  induction ops as [|o ops IH]; intros l Hok; [split; [done|by intros id r; exists r]|]. change (ledger_run l (o :: ops)) with (ledger_run (ledger_step l o) ops).
  destruct (ledger_step_ok l o Hok) as [H1 H2]. destruct (IH _ H1) as [H3 H4]. split; [done|]. intros id r Hr. destruct (H2 id r Hr) as (r1 & E1 & G1).
  destruct (H4 id r1 E1) as (r2 & E2 & G2). exists r2. split; [done|by etrans].
Qed.

Lemma ledger_run_snoc l ops o : ledger_run l (ops ++ [o]) = ledger_step (ledger_run l ops) o.
Proof. unfold ledger_run. by rewrite foldl_app. Qed.

Lemma ledger_reached ops : ledger_ok (ledger_run new_ledger ops).
Proof. apply ledger_run_ok, new_ledger_ok. Qed.

(** Where a row's token and certificate come from. *)
Lemma step_rows l o id r : ledger_ok l -> rows (ledger_step l o) !! id = Some r ->
  (exists r0, rows l !! id = Some r0 /\ (lr_cert r = lr_cert r0 \/
     exists now id' cert tok peer, o = DbEnroll now id' cert (Some tok) peer false false /\ as_i64 id' = id /\ lr_cert r = Some cert /\
       (exists a, (authorize_enroll_at l now id' cert (Some tok) peer false false).1 = Ok a /\ ae_kind a <> Reenroll))) \/
  lr_cert r = None /\ exists now rg ttl tok, o = DbMint now rg ttl (Some tok) false /\ (mint_at l now rg ttl (Some tok) false).1 = Ok (mkMinted (as_u64 id) tok) /\
    lr_token_hash r = sha256 (as_bytes tok) /\ lr_token_expires_at r = as_i64 (saturating_add u64_max now ttl).
Proof.
  intros Hok. assert (Hsame : rows l !! id = Some r -> exists r0, rows l !! id = Some r0 /\ (lr_cert r = lr_cert r0 \/
     exists now id' cert tok peer, o = DbEnroll now id' cert (Some tok) peer false false /\ as_i64 id' = id /\ lr_cert r = Some cert /\
       (exists a, (authorize_enroll_at l now id' cert (Some tok) peer false false).1 = Ok a /\ ae_kind a <> Reenroll))) by (intros H; exists r; split; [done|by left]).
  assert (Hput : forall id0 r0 r1, rows l !! id0 = Some r0 -> rows (put_row l id0 r1) !! id = Some r -> lr_cert r1 = lr_cert r0 -> exists r0, rows l !! id = Some r0 /\ lr_cert r = lr_cert r0).
  { intros id0 r0 r1 H0. cbn. intros [[<- <-]|[_ H]]%lookup_insert_Some Hc; [by exists r0|by exists r]. }
  destruct o as [now rg ttl random fault|now id' cert token peer read write|now id' fault|id' task ips addrs fault|id' task fault]; cbn [ledger_step].
  - unfold mint_at. destruct (now =? u64_max) eqn:En; [by left; auto|]. destruct random as [token|]; [|by left; auto]. destruct fault; [by left; auto|]. cbn [orb].
    destruct (2 ^ 63 <=? next_rowid l) eqn:Ef; [by left; auto|]. cbn [snd rows]. intros [[<- <-]|[_ H]]%lookup_insert_Some; [|by left; auto]. right. split; [done|].
    exists now, rg, ttl, token. split; [done|]. unfold mint_at. rewrite En. cbn [orb]. done.
  - destruct (authorize_cases l now id' cert token peer read write) as [[-> _]|(a & row & tok & Ea & Hr & _ & Hc & -> & _ & _ & _ & -> & Hk & _)]; [by left; auto|].
    cbn [put_row rows]. intros [[<- <-]|[_ H]]%lookup_insert_Some; [|by left; auto]. left. exists row. split; [done|]. right. exists now, id', cert, tok, peer.
    assert (Hf : read = false /\ write = false); [|destruct Hf as [-> ->]; split; [done|]; split; [done|]; split; [done|by exists a]].
    unfold authorize_enroll_at in Ea. destruct read; [done|]. split; [done|]. rewrite Hr, Hc in Ea. destruct (bool_decide _); [done|]. destruct (negb _ && negb _); [done|].
    destruct (_ <? _); [done|]. destruct (negb _); [done|]. destruct (bool_decide _); [done|]. by destruct write.
  - unfold retire. destruct fault; [by left; auto|]. cbn [snd]. destruct (rows l !! as_i64 id') as [r0|] eqn:E; [|by left; auto]. case_bool_decide; [|by left; auto].
    intros H1. destruct (Hput _ _ _ E H1 eq_refl) as (x & Hx & Ex). left. exists x. auto.
  - unfold record_task. destruct fault; [by left; auto|]. cbn [snd]. destruct (rows l !! as_i64 id') as [r0|] eqn:E; [|by left; auto].
    intros H1. destruct (Hput _ _ _ E H1 eq_refl) as (x & Hx & Ex). left. exists x. auto.
  - unfold record_launch. destruct fault; [by left; auto|]. cbn [snd]. destruct (rows l !! as_i64 id') as [r0|] eqn:E; [|by left; auto].
    intros H1. destruct (Hput _ _ _ E H1 eq_refl) as (x & Hx & Ex). left. exists x. auto.
Qed.

Lemma mint_history ops id : forall r, rows (ledger_run new_ledger ops) !! id = Some r ->
  exists ops1 ops2 now rg ttl tok, ops = ops1 ++ DbMint now rg ttl (Some tok) false :: ops2 /\
    (mint_at (ledger_run new_ledger ops1) now rg ttl (Some tok) false).1 = Ok (mkMinted (as_u64 id) tok) /\
    lr_token_hash r = sha256 (as_bytes tok) /\ lr_token_expires_at r = as_i64 (saturating_add u64_max now ttl).
Proof.
  induction ops as [|o ops IH] using rev_ind; intros r; [cbn; by rewrite lookup_empty|]. rewrite ledger_run_snoc. intros Hr.
  destruct (step_rows _ o id r (ledger_reached ops) Hr) as [(r0 & H0 & _)|(_ & now & rg & ttl & tok & -> & Hm & Hh & He)].
  - destruct (IH r0 H0) as (ops1 & ops2 & now & rg & ttl & tok & -> & Hm & Hh & He). destruct (ledger_step_ok _ o (ledger_reached (ops1 ++ DbMint now rg ttl (Some tok) false :: ops2))) as [_ Hg].
    destruct (Hg id r0 H0) as (r' & E' & G). rewrite Hr in E'. injection E' as <-. exists ops1, (ops2 ++ [o]), now, rg, ttl, tok.
    rewrite <- app_assoc, (rg_hash _ _ G), (rg_expires _ _ G). done.
  - exists ops, [], now, rg, ttl, tok. done.
Qed.

Lemma bind_history ops id cert : forall r, rows (ledger_run new_ledger ops) !! id = Some r -> lr_cert r = Some cert ->
  exists ops1 ops2 now id' tok peer a, ops = ops1 ++ DbEnroll now id' cert (Some tok) peer false false :: ops2 /\ as_i64 id' = id /\
    (authorize_enroll_at (ledger_run new_ledger ops1) now id' cert (Some tok) peer false false).1 = Ok a /\ ae_kind a <> Reenroll.
Proof.
  induction ops as [|o ops IH] using rev_ind; intros r; [cbn; by rewrite lookup_empty|]. rewrite ledger_run_snoc. intros Hr Hc.
  destruct (step_rows _ o id r (ledger_reached ops) Hr) as [(r0 & H0 & [E|(now & id' & c & tok & peer & -> & <- & Hc' & a & Ha & Hk)])|(Hn & _)]; [| |congruence].
  - destruct (IH r0 H0) as (ops1 & ops2 & now & id' & tok & peer & a & -> & Hid & Ha & Hk); [congruence|]. exists ops1, (ops2 ++ [o]), now, id', tok, peer, a. by rewrite <- app_assoc.
  - rewrite Hc in Hc'. injection Hc' as <-. exists ops, [], now, id', tok, peer, a. done.
Qed.

(** A bound row answers nothing but its certificate, a retired one nothing. *)
Lemma bound_answers l now id cert cert' token peer read write a r : rows l !! as_i64 id = Some r -> lr_cert r = Some cert ->
  (authorize_enroll_at l now id cert' token peer read write).1 = Ok a ->
  cert' = cert /\ ae_kind a = Reenroll /\ lr_retired_at r = None /\ (authorize_enroll_at l now id cert' token peer read write).2 = l.
Proof.
  intros Hr Hc E. destruct (authorize_cases l now id cert' token peer read write) as [[H2 H]|(a' & row & tok & _ & Hr' & _ & Hn & _)]; [|congruence].
  rewrite E in H. destruct H as (row & Hr' & Hret & Hc' & Hk & _). repeat split; congruence.
Qed.

Lemma retired_stays l ops id : ledger_ok l -> Exists (retires id) ops -> is_Some (rows l !! as_i64 id) ->
  exists r, rows (ledger_run l ops) !! as_i64 id = Some r /\ is_Some (lr_retired_at r).
Proof.
  intros Hok (o & Hin & Ho)%Exists_exists [r Hr]. apply list_elem_of_split in Hin as (ops1 & ops2 & ->). unfold ledger_run. rewrite foldl_app. cbn [foldl].
  fold (ledger_run l ops1). destruct (ledger_run_ok ops1 l Hok) as [H1 G1]. destruct (G1 _ _ Hr) as (r1 & E1 & _). set (l1 := ledger_run l ops1) in *.
  assert (Hs : exists r2, rows (ledger_step l1 o) !! as_i64 id = Some r2 /\ is_Some (lr_retired_at r2)).
  { destruct o as [| |now id' []| |]; try done. cbn in Ho. cbn [ledger_step]. unfold retire. cbn [snd]. rewrite Ho, E1. case_bool_decide as Hn.
    - eexists. cbn. rewrite lookup_insert_eq. split; [done|]. by eexists.
    - exists r1. split; [done|]. by apply not_eq_None_Some. }
  destruct Hs as (r2 & E2 & Hret). destruct (ledger_step_ok l1 o H1) as [H2 _]. destruct (ledger_run_ok ops2 _ H2) as [_ G2]. destruct (G2 _ _ E2) as (r3 & E3 & G). exists r3. split; [done|].
  by rewrite (rg_retired _ _ G Hret).
Qed.

Lemma bound_forever l id cert r : ledger_ok l -> rows l !! as_i64 id = Some r -> lr_cert r = Some cert ->
  forall ops' now' cert' token' peer' read' write', let l2 := ledger_run l ops' in let answer := authorize_enroll_at l2 now' id cert' token' peer' read' write' in
    answer.2 = l2 /\ match answer.1 with Ok a' => cert' = cert /\ ae_kind a' = Reenroll /\ ~ Exists (retires id) ops' | Err _ => True end.
Proof.
  intros Hok Hr Hc ops' now' cert' token' peer' read' write'. cbn zeta. destruct (ledger_run_ok ops' l Hok) as [_ G]. destruct (G _ _ Hr) as (r2 & E2 & Gr).
  assert (Hc2 : lr_cert r2 = Some cert) by (rewrite (rg_cert _ _ Gr); [done|by rewrite Hc]).
  destruct (authorize_cases (ledger_run l ops') now' id cert' token' peer' read' write') as [[H2 _]|(a & row & tok & _ & Hr' & _ & Hn & _)]; [|congruence].
  split; [done|]. destruct (authorize_enroll_at _ _ _ _ _ _ _ _).1 as [a|] eqn:Ea; [|done].
  destruct (bound_answers _ _ _ _ _ _ _ _ _ _ _ E2 Hc2 Ea) as (-> & -> & Hret & _). do 2 (split; [done|]). intros Hex.
  destruct (retired_stays l ops' id Hok Hex) as (r3 & E3 & [t Ht]); [by rewrite Hr|congruence].
Qed.

(** C17 An enroll the ledger authorizes is of an id it minted, at the addresses the
    loop recorded; a first one presents the token minted with the id, in time, and
    a later one the certificate a first one bound.  From then on the id answers to
    that certificate alone, no enroll changes the ledger, and once the id is
    retired every enroll of it is refused. *)
Theorem id_binds_one_certificate (ops : list LedgerOp) (now id : Z) (cert : list Z) (token : option string) (peer : option IpAddr) (read write : bool) (a : AuthorizedEnroll) (l' : RelayLedger) :
  Forall ledger_op_ok ops -> is_u64 id ->
  authorize_enroll_at (ledger_run new_ledger ops) now id cert token peer read write = (Ok a, l') ->
  ae_addrs a <> [] /\ advertised_addrs (ledger_run new_ledger ops) id false = Ok (Some (ae_addrs a)) /\
  match ae_kind a with
  | FirstEnroll _ => exists ops1 ops2 minted_at rg ttl tok presented, ops = ops1 ++ DbMint minted_at rg ttl (Some tok) false :: ops2 /\
      (mint_at (ledger_run new_ledger ops1) minted_at rg ttl (Some tok) false).1 = Ok (mkMinted id tok) /\
      token = Some presented /\ sha256 (as_bytes presented) = sha256 (as_bytes tok) /\ now <= saturating_add u64_max minted_at ttl
  | Reenroll => exists ops1 ops2 bound_at id' tok from a', ops = ops1 ++ DbEnroll bound_at id' cert (Some tok) from false false :: ops2 /\ as_i64 id' = as_i64 id /\
      (authorize_enroll_at (ledger_run new_ledger ops1) bound_at id' cert (Some tok) from false false).1 = Ok a' /\ ae_kind a' <> Reenroll
  end /\
  forall ops' now' cert' token' peer' read' write', let l2 := ledger_run l' ops' in let answer := authorize_enroll_at l2 now' id cert' token' peer' read' write' in
    answer.2 = l2 /\ match answer.1 with Ok a' => cert' = cert /\ ae_kind a' = Reenroll /\ ~ Exists (retires id) ops' | Err _ => True end.
Proof.
  intros Ho Hid E. pose proof (ledger_reached ops) as Hok. set (l := ledger_run new_ledger ops) in *.
  assert (Hok' : ledger_ok l').
  { pose proof (proj1 (ledger_step_ok l (DbEnroll now id cert token peer read write) Hok)) as H. cbn in H. by rewrite E in H. }
  destruct (authorize_cases l now id cert token peer read write) as [[H2 H]|(a' & row & tok & Ea & Hr & _ & Hn & -> & Hh & Hexp & _ & H2 & Hk & Hne & Had)]; rewrite E in *; cbn [fst snd] in *.
  - destruct H as (row & Hr & _ & Hc & Hk & Hne & Had). split; [done|]. split; [unfold advertised_addrs; rewrite Hr; cbn; by rewrite Had|]. rewrite Hk. split.
    + destruct (bind_history ops _ cert row Hr Hc) as (ops1 & ops2 & t & id' & tok & p & a' & H3). by exists ops1, ops2, t, id', tok, p, a'.
    + subst l'. exact (bound_forever l id cert row Hok' Hr Hc).
  - injection Ea as <-. split; [done|]. split; [unfold advertised_addrs; rewrite Hr; cbn; by rewrite Had|]. split.
    + destruct (ae_kind a) as [c|]; [|done]. destruct (mint_history ops _ row Hr) as (ops1 & ops2 & t & rg & ttl & tk & Eo & Hm & Hh' & He). exists ops1, ops2, t, rg, ttl, tk, tok.
      rewrite as_i64_round in Hm by (unfold is_u64 in Hid; lia). split; [done|]. split; [done|]. split; [done|]. split; [congruence|]. rewrite He in Hexp.
      rewrite Eo in Ho. apply Forall_app in Ho as [_ Ho]. apply Forall_cons in Ho as [[H0 H1] _]. rewrite as_i64_round in Hexp; [done|]. unfold saturating_add, u64_max. lia.
    + subst l'. eapply (bound_forever _ id cert (bind_row row now cert)); [done|cbn; by rewrite lookup_insert_eq|done].
Qed.

End over_time.

(** A relay minted, recorded and enrolled; its token does not bind another. *)
Definition sample_mint : list LedgerOp := [DbMint 1000 (Some "us"%string) 300 (Some "token"%string) false; DbRecordTask 1 "task-1" [V4 1] ["203.0.113.1:443"%string] false].

Lemma id_binds_one_certificate_witness :
  let sha : Sha256 := fun bytes => bytes in
  let answer := authorize_enroll_at (ledger_run new_ledger sample_mint) 1001 1 [7] (Some "token"%string) (Some (V4 1)) false false in
  exists a, answer.1 = Ok a /\ ae_kind a = FirstEnroll (Some 1) /\ (authorize_enroll_at answer.2 1002 1 [8] (Some "token"%string) (Some (V4 1)) false false).1 = Err FingerprintMismatch.
Proof.
  intros sha answer. destruct answer as [[a|e] l'] eqn:E; [|vm_compute in E; discriminate]. exists a. split; [done|].
  destruct (@id_binds_one_certificate sha sample_mint 1001 1 [7] (Some "token"%string) (Some (V4 1)) false false a l') as (_ & _ & _ & H).
  - by repeat constructor.
  - done.
  - exact E.
  - specialize (H [] 1002 [8] (Some "token"%string) (Some (V4 1)) false false). cbn zeta in H. destruct H as [_ H].
    split; [vm_compute in E; by injection E as <- _|]. vm_compute in E. injection E as _ <-. reflexivity.
Defined.
