(* ===== verification/Fleet.v ===== *)
(** * Provisioning ([coordinator/src/provision/], [api/control_enroll.rs])

    The reconcile loop that keeps each region's relay count at its demand: one
    tick reads the registry, the sessions, the ledger, the warm demand and the
    backbone table, launches and drains relays, and sweeps what an earlier tick
    left.  The loop shares the coordinator's state with everything else it does,
    so a tick is a program over the fleet's state in which other operations run
    between any two reads and calls of the loop; a section the loop holds the
    assignment lock over is one step, as are the operations of the others.  What
    the substrate answers, which database statements fail, the random tokens, the
    clock of a retirement and what runs meanwhile are the interface [World],
    indexed by the number of the call. *)

From Stdlib Require Import ZArith Lia.
From stdpp Require Import gmap sorting list strings.
From S2P Require Import Prelude.
From S2P Require Import Registry.
From S2P Require Import PairRtts.
From S2P Require Import Placement.
From S2P Require Import Outbox.
From S2P Require Import Setup.
From S2P Require Import SetupRun.
From S2P Require Import Ledger.
From S2P Require Import LifecycleOps.

Open Scope Z_scope.

Definition WARM_TARGET : Z := 1.
Definition PUBLIC_IPV4_WAIT_SECS : Z := 90.
Definition COVERAGE_HOLD_SECS : Z := 300.
Definition COVERAGE_BACKOFF_BASE_SECS : Z := 600.
Definition COVERAGE_BACKOFF_CAP_SECS : Z := 6 * 3600.

Record ProvisionConfig : Type := mkProvisionConfig {
  cfg_regions : list string;
  launch_deadline : Z;
  idle_grace : Z;
  max_relay_age : option Z;
}.

Inductive CoveragePhase : Type := Trying (since : Z) | BackingOff (until : Z).
Record CoverageState : Type := mkCoverageState { covered_count : Z; attempts : Z; phase : CoveragePhase }.

Record LaunchSpec : Type := mkLaunchSpec { ls_relay : Z; ls_token : string; ls_region : option string }.
Inductive TaskState : Type := Starting | Running (expected_ips : list IpAddr) (addrs : list string) | Stopped.

Record EnrolledRelay : Type := mkEnrolledRelay { er_id : Z; er_region : option string; er_generation : Z; er_draining : bool }.

(** ** Coverage demand *)

Definition coverage_backoff_secs (attempts : Z) : Z :=
  let doublings := Z.min (saturating_sub attempts 1) 32 in
  Z.min (Z.min u64_max (COVERAGE_BACKOFF_BASE_SECS * Z.shiftl 1 doublings)) COVERAGE_BACKOFF_CAP_SECS.

Definition covered_pairs (p : PairRttStore) : gset (string * string) :=
  dom (filter (fun x : string * string * PairDirections => is_Some (from_a x.2) \/ is_Some (from_b x.2)) p).

Definition region_pair_coverage (regions : list string) (region : string) (covered : gset (string * string)) : Z * Z :=
  let others := filter (fun other => other <> region) regions in
  (Z.of_nat (length (filter (fun other => canonical_pair region other ∈ covered) others)), Z.of_nat (length others)).

(** One region's bootstrap state over one tick: the demand, the state left and
    whether it is backing off. *)
Definition coverage_demand_of (state : option CoverageState) (have total now : Z) : Z * option CoverageState * bool :=
  if total <=? have then (0, None, false)
  else
    let state := default (mkCoverageState have 0 (Trying now)) state in
    let state := if covered_count state <? have then mkCoverageState have 0 (Trying now) else state in
    match phase state with
    | Trying since =>
        if saturating_sub now since <? COVERAGE_HOLD_SECS then (1, Some state, false)
        else
          let n := attempts state + 1 in
          (0, Some (mkCoverageState (covered_count state) n (BackingOff (saturating_add u64_max now (coverage_backoff_secs n)))), true)
    | BackingOff until =>
        if now <? until then (0, Some state, true)
        else (1, Some (mkCoverageState (covered_count state) (attempts state) (Trying now)), false)
    end.

(** ** Ages *)

Definition wrap64 (z : Z) : Z := z mod 2 ^ 64.

Definition mix (id : Z) : Z :=
  let z := wrap64 (id + 0x9E3779B97F4A7C15) in
  let z := wrap64 (Z.lxor z (Z.shiftr z 30) * 0xBF58476D1CE4E5B9) in
  let z := wrap64 (Z.lxor z (Z.shiftr z 27) * 0x94D049BB133111EB) in
  Z.lxor z (Z.shiftr z 31).

Definition age_limit_secs (max_age id : Z) : Z :=
  let spread := max_age / 6 in
  if spread =? 0 then max_age else max_age - spread / 2 + mix id mod spread.

(** ** Warm demand *)

Definition warm_at (s : SessionSetup) (region : string) (ttl now : Z) : SessionSetup :=
  with_creates s (create_idempotency s) (pending_creates s) (<[region := saturating_add u64_max now ttl]> (warm s)).

Definition target_at (s : SessionSetup) (region : string) (now : Z) : Z :=
  match warm s !! region with Some deadline => if now <? deadline then WARM_TARGET else 0 | None => 0 end.

(** ** The fleet *)

(** What the loop and the rest of the coordinator share, the loop's own memory,
    and the connections the ledger authorized that have not reached the registry.
    [drained], [launches] and [stops] only record: the ids retired at the end of a
    drain, the tasks launched and the tasks asked to stop. *)
Record Fleet : Type := mkFleet {
  fl_setup : SessionSetup;
  fl_ledger : RelayLedger;
  idle_since : gmap Z Z;
  coverage : gmap string CoverageState;
  coverage_status : gmap string bool;
  authorized : list (RelayHello * option Z);
  drained : list Z;
  launches : list (Z * string);
  stops : list string;
  calls : nat;
}.

Definition set_fl_setup (v : SessionSetup) (f : Fleet) : Fleet :=
  mkFleet v (fl_ledger f) (idle_since f) (coverage f) (coverage_status f) (authorized f) (drained f) (launches f) (stops f) (calls f).
Definition set_fl_ledger (v : RelayLedger) (f : Fleet) : Fleet :=
  mkFleet (fl_setup f) v (idle_since f) (coverage f) (coverage_status f) (authorized f) (drained f) (launches f) (stops f) (calls f).
Definition set_idle (v : gmap Z Z) (f : Fleet) : Fleet :=
  mkFleet (fl_setup f) (fl_ledger f) v (coverage f) (coverage_status f) (authorized f) (drained f) (launches f) (stops f) (calls f).
Definition set_coverage (v : gmap string CoverageState) (st : gmap string bool) (f : Fleet) : Fleet :=
  mkFleet (fl_setup f) (fl_ledger f) (idle_since f) v st (authorized f) (drained f) (launches f) (stops f) (calls f).
Definition set_authorized (v : list (RelayHello * option Z)) (f : Fleet) : Fleet :=
  mkFleet (fl_setup f) (fl_ledger f) (idle_since f) (coverage f) (coverage_status f) v (drained f) (launches f) (stops f) (calls f).
Definition note_drained (id : Z) (f : Fleet) : Fleet :=
  mkFleet (fl_setup f) (fl_ledger f) (idle_since f) (coverage f) (coverage_status f) (authorized f) (drained f ++ [id]) (launches f) (stops f) (calls f).
Definition note_launch (id : Z) (task : string) (f : Fleet) : Fleet :=
  mkFleet (fl_setup f) (fl_ledger f) (idle_since f) (coverage f) (coverage_status f) (authorized f) (drained f) (launches f ++ [(id, task)]) (stops f) (calls f).
Definition note_stop (task : string) (f : Fleet) : Fleet :=
  mkFleet (fl_setup f) (fl_ledger f) (idle_since f) (coverage f) (coverage_status f) (authorized f) (drained f) (launches f) (stops f ++ [task]) (calls f).
Definition next_call (f : Fleet) : Fleet :=
  mkFleet (fl_setup f) (fl_ledger f) (idle_since f) (coverage f) (coverage_status f) (authorized f) (drained f) (launches f) (stops f) (S (calls f)).

Definition fl_registry (f : Fleet) : RelayRegistry := registry (fl_setup f).
Definition put_registry (g : RelayRegistry) (f : Fleet) : Fleet := set_fl_setup (with_registry (fl_setup f) g) f.

(** ** What else the coordinator does *)

Inductive FleetOp : Type :=
| FSetup (o : SetupOp)
| FAuthorize (now : Z) (h : RelayHello) (boot : option Z) (peer : option IpAddr) (read write : bool)
| FInsert (i : nat) (fault : bool)
| FDraining (id gen : Z)
| FDisconnect (id gen : Z)
| FWarm (region : string) (ttl now : Z).

(** The hello as the ledger's addresses leave it. *)
Definition with_addrs (h : RelayHello) (primary : string) (addrs : list string) : RelayHello :=
  mkRelayHello (hello_id h) primary (hello_protocol h) (hello_cert h) (hello_min_protocol h) (hello_capabilities h) addrs (hello_region h) (hello_enroll_token h).

Section operations.
Context {sha : Sha256} {mint : MintToken}.

(** The ledger's half of an enroll whose certificate was proven: the connection
    goes on with the recorded addresses, or is closed. *)
Definition authorize (f : Fleet) (now : Z) (h : RelayHello) (boot : option Z) (peer : option IpAddr) (read write : bool) : Fleet :=
  let '(r, l) := authorize_enroll_at (fl_ledger f) now (hello_id h) (cert_fingerprint (hello_cert h)) (hello_enroll_token h) peer read write in
  let f := set_fl_ledger l f in
  match r with
  | Ok a => match ae_addrs a with
            | primary :: _ => set_authorized (authorized f ++ [(with_addrs h primary (ae_addrs a), boot)]) f
            | [] => f
            end
  | Err _ => f
  end.

(** The registry's half, under the assignment lock; the lifecycle's part is
    [enroll_relay]'s. *)
Definition enroll_locked (f : Fleet) (h : RelayHello) (boot : option Z) (fault : bool) : Fleet :=
  match is_retired (fl_ledger f) (hello_id h) fault with
  | Ok false =>
      match try_enroll (fl_registry f) h with
      | None => f
      | Some (gen, g) =>
          let id := hello_id h in
          let f := put_registry g f in
          let f := put_registry (note_boot_id (fl_registry f) id boot).2 f in
          let f := set_fl_setup (restage_periodic (fl_setup f) id) f in
          let e := entry_of_hello h in
          if negb (bool_decide (mismatched (fl_setup f) id e = [])) && negb (relay_finalize_capable e)
          then put_registry (mark_draining (fl_registry f) id gen).2 f else f
      end
  | _ => f
  end.

(** The registry's own changes have operations of their own. *)
Definition setup_only (o : SetupOp) : bool := match o with SRegistry _ => false | _ => true end.

Definition fleet_step (f : Fleet) (o : FleetOp) : Fleet :=
  match o with
  | FSetup o => if setup_only o then set_fl_setup (default (fl_setup f) (setup_step (fl_setup f) o)) f else f
  | FAuthorize now h boot peer read write => authorize f now h boot peer read write
  | FInsert i fault =>
      match authorized f !! i with
      | Some (h, boot) => enroll_locked (set_authorized (base.delete i (authorized f)) f) h boot fault
      | None => f
      end
  | FDraining id gen => put_registry (mark_draining (fl_registry f) id gen).2 f
  | FDisconnect id gen => put_registry (remove_if_current (fl_registry f) id gen).2 f
  | FWarm region ttl now => set_fl_setup (warm_at (fl_setup f) region ttl now) f
  end.

End operations.

(** ** The loop's program *)

Class World : Type := mkWorld {
  p_launch : nat -> LaunchSpec -> option string;
  p_state : nat -> string -> option TaskState;
  p_stop : nat -> string -> bool;
  p_list : nat -> option (list string);
  expects_public_ipv4 : option string -> bool;
  db_fault : nat -> bool;
  random_token : nat -> option string;
  unix_clock : nat -> Z;
  meanwhile : nat -> list FleetOp;
}.

Definition M (A : Type) : Type := Fleet -> A * Fleet.
#[export] Instance M_ret : MRet M := fun A x f => (x, f).
#[export] Instance M_bind : MBind M := fun A B k m f => let '(x, f) := m f in k x f.

Fixpoint for_each {A} (body : A -> M unit) (l : list A) : M unit :=
  match l with [] => mret tt | x :: l => body x ≫= fun _ => for_each body l end.

Definition gets {A} (g : Fleet -> A) : M A := fun f => (g f, f).
Definition act {A} (g : Fleet -> A * Fleet) : M A := g.
Definition modify (h : Fleet -> Fleet) : M unit := fun f => (tt, h f).

Definition enrolled_relays (g : RelayRegistry) : list EnrolledRelay :=
  (fun r => mkEnrolledRelay (relay_id (entry_of r)) (region (entry_of r)) (generation r) (draining r)) <$> (map_to_list (relays g)).*2.

(** A region's relays in a snapshot that are not on their way out. *)
Definition in_region (rg : string) (r : EnrolledRelay) : bool := negb (er_draining r) && bool_decide (er_region r = Some rg).

Section loop.
Context {sha : Sha256} {mint : MintToken} {world : World}.
Context (cfg : ProvisionConfig).

(** The next call of the loop, other operations having run before it; inside the
    assignment lock none do. *)
Definition call : M nat := fun f => (calls f, next_call (foldl fleet_step f (meanwhile (calls f)))).
Definition locked_call : M nat := fun f => (calls f, next_call f).

Definition observe {A} (g : Fleet -> A) : M A := call ≫= fun _ => gets g.
Definition ledger_read {A} (q : RelayLedger -> bool -> A) : M A := call ≫= fun n => gets (fun f => q (fl_ledger f) (db_fault n)).
Definition ledger_write {A E} (q : RelayLedger -> nat -> bool -> result A E * RelayLedger) : M (result A E) :=
  call ≫= fun n => act (fun f => let '(r, l) := q (fl_ledger f) n (db_fault n) in (r, set_fl_ledger l f)).

(** Asks the substrate to stop a task; whether it did. *)
Definition stop_task (task : string) : M bool := call ≫= fun n => modify (note_stop task) ≫= fun _ => mret (p_stop n task).

(** Retires the id and forgets the relay, only when the store did; whether it did. *)
Definition retire_now (n : nat) (id : Z) : M bool := fun f =>
  match retire (fl_ledger f) (unix_clock n) id (db_fault n) with
  | (Ok _, l) => (true, set_fl_setup (forget_relay (fl_setup f) id) (set_fl_ledger l f))
  | (Err _, l) => (false, set_fl_ledger l f)
  end.
Definition retire_relay (id : Z) : M bool := call ≫= fun n => retire_now n id.

(** Only under the assignment lock. *)
Definition tombstone_locked (id : Z) : M bool :=
  n ← locked_call; ok ← retire_now n id;
  if ok : bool then modify (note_drained id) ≫= fun _ => mret true else mret false.

Definition stop_retired (id : Z) : M unit :=
  t ← ledger_read (fun l fault => task_arn l id fault);
  _ ← match t with Ok (Some arn) => stop_task arn | _ => mret false end;
  modify (fun f => set_idle (base.delete id (idle_since f)) f).

(** *** Scaling *)

Definition refresh_idle (enrolled : list EnrolledRelay) (now : Z) : M unit :=
  let present := er_id <$> enrolled in
  _ ← modify (fun f => set_idle (filter (fun p => p.1 ∈ present) (idle_since f)) f);
  for_each (fun r =>
    count ← observe (fun f => session_count_for_relay (fl_setup f) (er_id r));
    modify (fun f =>
      if count =? 0 then (if bool_decide (is_Some (idle_since f !! er_id r)) then f else set_idle (<[er_id r := now]> (idle_since f)) f)
      else set_idle (base.delete (er_id r) (idle_since f)) f)) enrolled.

Definition coverage_demand (rg : string) (covered : gset (string * string)) (now : Z) : M Z := fun f =>
  let '(have, total) := region_pair_coverage (cfg_regions cfg) rg covered in
  let '(demand, state, backing_off) := coverage_demand_of (coverage f !! rg) have total now in
  (demand, set_coverage (partial_alter (fun _ => state) rg (coverage f)) (<[rg := backing_off]> (coverage_status f)) f).

(** The loop of [scale_up]; every round launches or ends it, and [fuel] is the
    number of relays still missing. *)
Fixpoint launch_missing (fuel : nat) (rg : string) (live launching target now : Z) : M unit :=
  match fuel with
  | O => mret tt
  | S fuel =>
      if live + launching <? target then
        minted ← ledger_write (fun l n fault => mint_at l now (Some rg) (launch_deadline cfg) (random_token n) fault);
        match minted with
        | Err _ => mret tt
        | Ok m =>
            n ← call;
            match p_launch n (mkLaunchSpec (minted_id m) (minted_token m) (Some rg)) with
            | Some task =>
                _ ← modify (note_launch (minted_id m) task);
                recorded ← ledger_write (fun l _ fault => record_launch l (minted_id m) task fault);
                match recorded with
                | Ok _ => launch_missing fuel rg live (launching + 1) target now
                | Err _ => _ ← stop_task task; _ ← retire_relay (minted_id m); mret tt
                end
            | None => _ ← retire_relay (minted_id m); mret tt
            end
        end
      else mret tt
  end.

Definition scale_up (rg : string) (live target now : Z) : M unit :=
  launching ← ledger_read (fun l fault => count_launching l (Some rg) now fault);
  match launching with
  | Err _ => mret tt
  | Ok n => launch_missing (Z.to_nat (target - live - n)) rg live n target now
  end.

(** The part of [try_drain_one] under the assignment lock. *)
Definition drain_locked (rg : string) (target id gen : Z) : M bool :=
  room ← gets (fun f => available_in_region (fl_registry f) rg);
  if room <=? target then mret false
  else
    marked ← act (fun f => let '(b, g) := mark_draining (fl_registry f) id gen in (b, put_registry g f));
    if negb marked then mret false
    else
      count ← gets (fun f => session_count_for_relay (fl_setup f) id);
      dead ← (if count =? 0 then tombstone_locked id else mret false);
      if dead : bool then mret true
      else modify (fun f => put_registry (clear_draining (fl_registry f) id gen).2 f) ≫= fun _ => mret false.

Definition try_drain_one (rg : string) (target id gen : Z) : M bool :=
  _ ← call; proceed ← drain_locked rg target id gen;
  if proceed : bool then stop_retired id ≫= fun _ => mret true else mret false.

Definition longest_idle (x y : Z * Z * Z) : Prop := y.2 <= x.2.
#[export] Instance longest_idle_dec x y : Decision (longest_idle x y).
Proof. unfold longest_idle. apply _. Defined.

Definition drain_candidates (idle : gmap Z Z) (rg : string) (enrolled : list EnrolledRelay) (now : Z) : list (Z * Z * Z) :=
  merge_sort longest_idle
    (omap (fun r => since ← idle !! er_id r; let idle := saturating_sub now since in
                    if idle_grace cfg <=? idle then Some (er_id r, er_generation r, idle) else None)
       (filter (fun r => in_region rg r = true) enrolled)).

Fixpoint drain_surplus (rg : string) (candidates : list (Z * Z * Z)) (live target : Z) : M unit :=
  match candidates with
  | [] => mret tt
  | (id, gen, _) :: rest =>
      if live <=? target then mret tt
      else drained ← try_drain_one rg target id gen; drain_surplus rg rest (if drained : bool then live - 1 else live) target
  end.

Definition scale_down (rg : string) (enrolled : list EnrolledRelay) (live target now : Z) : M unit :=
  if live <=? target then mret tt
  else candidates ← gets (fun f => drain_candidates (idle_since f) rg enrolled now); drain_surplus rg candidates live target.

(** *** Max-age retirement *)

Definition aged_relays (enrolled : list EnrolledRelay) (now : Z) : M (list Z) :=
  match max_relay_age cfg with
  | None => mret []
  | Some max_age =>
      launched ← ledger_read launch_times;
      match launched with
      | Err _ => mret []
      | Ok launched =>
          mret (er_id <$> filter (fun r => match launched !! er_id r with
                                           | Some at_ => age_limit_secs max_age (er_id r) <=? saturating_sub now at_
                                           | None => false end = true) enrolled)
      end
  end.

Definition set_er_draining (r : EnrolledRelay) : EnrolledRelay := mkEnrolledRelay (er_id r) (er_region r) (er_generation r) true.

(** The locked part of one relay's retirement: [None] when it is left alone, else
    whether it is idle and its id retired. *)
Definition retire_locked (replacements : list Z) (r : EnrolledRelay) : M (option bool) :=
  usable ← gets (fun f => bool_decide (Exists (fun id => is_available (fl_registry f) id = true) replacements));
  if negb (er_draining r) && negb usable then mret None
  else
    marked ← act (fun f => let '(b, g) := mark_draining (fl_registry f) (er_id r) (er_generation r) in (b, put_registry g f));
    if negb marked then mret None
    else
      count ← gets (fun f => session_count_for_relay (fl_setup f) (er_id r));
      idle ← (if count =? 0 then tombstone_locked (er_id r) else mret false);
      mret (Some idle).

(** The snapshot with the relays it marked shown as draining. *)
Fixpoint retire_each (rg : string) (aged replacements : list Z) (enrolled : list EnrolledRelay) : M (list EnrolledRelay) :=
  match enrolled with
  | [] => mret []
  | r :: rest =>
      r' ← (if negb (bool_decide (er_region r = Some rg)) || negb (bool_decide (er_id r ∈ aged)) then mret r
            else if negb (er_draining r) && bool_decide (replacements = []) then mret r
            else
              _ ← call; idle ← retire_locked replacements r;
              match idle with
              | None => mret r
              | Some idle => _ ← (if idle : bool then stop_retired (er_id r) else mret tt); mret (set_er_draining r)
              end);
      rest' ← retire_each rg aged replacements rest;
      mret (r' :: rest')
  end.

Definition retire_aged (rg : string) (enrolled : list EnrolledRelay) (aged : list Z) : M (list EnrolledRelay) :=
  let replacements := er_id <$> filter (fun r => in_region rg r = true /\ er_id r ∉ aged) enrolled in
  retire_each rg aged replacements enrolled.

(** *** Sweeps *)

Definition poll_launch (now : Z) (p : ProvisionedTask * Z) : M unit :=
  match pt_task_arn p.1 with
  | None => mret tt
  | Some task =>
      n ← call;
      match p_state n task with
      | Some (Running expected_ips addrs) =>
          let missing_ipv4 := expects_public_ipv4 (pt_region p.1) && negb (bool_decide (Exists (fun ip => is_ipv4 ip = true) expected_ips)) in
          if missing_ipv4 && (now <? saturating_add u64_max p.2 PUBLIC_IPV4_WAIT_SECS) then mret tt
          else _ ← ledger_write (fun l _ fault => record_task l (pt_relay p.1) task expected_ips addrs fault); mret tt
      | Some Stopped => _ ← retire_relay (pt_relay p.1); mret tt
      | Some Starting | None => mret tt
      end
  end.

Definition resolve_pending (now : Z) : M unit :=
  launches ← ledger_read unrecorded_launches;
  match launches with Err _ => mret tt | Ok launches => for_each (poll_launch now) launches end.

Definition launch_deadline_sweep (now : Z) : M unit :=
  expired ← ledger_read (fun l fault => expired_launching l now fault);
  match expired with
  | Err _ => mret tt
  | Ok expired =>
      for_each (fun p =>
        _ ← match pt_task_arn p with Some arn => stop_task arn | None => mret false end;
        _ ← retire_relay (pt_relay p);
        modify (fun f => set_idle (base.delete (pt_relay p) (idle_since f)) f)) expired
  end.

(** The locked part of finishing one drain. *)
Definition finish_locked (r : EnrolledRelay) : M bool :=
  ready ← gets (fun f => is_draining_at (fl_registry f) (er_id r) (er_generation r) && (session_count_for_relay (fl_setup f) (er_id r) =? 0));
  if ready : bool then tombstone_locked (er_id r) else mret false.

Definition finish_drains : M unit :=
  bound ← ledger_read bound_unretired;
  match bound with
  | Err _ => mret tt
  | Ok bound =>
      let unretired := pt_relay <$> bound in
      enrolled ← observe (fun f => enrolled_relays (fl_registry f));
      for_each (fun r =>
        if negb (er_draining r) || negb (bool_decide (er_id r ∈ unretired)) then mret tt
        else _ ← call; idle ← finish_locked r; if idle : bool then stop_retired (er_id r) else mret tt) enrolled
  end.

Definition vanished_task_sweep : M unit :=
  bound ← ledger_read bound_unretired;
  match bound with
  | Err _ => mret tt
  | Ok bound =>
      for_each (fun p =>
        enrolled ← observe (fun f => is_enrolled (fl_registry f) (pt_relay p));
        if enrolled : bool then mret tt
        else
          match pt_task_arn p with
          | None => mret tt
          | Some arn =>
              n ← call;
              match p_state n arn with
              | Some Stopped => _ ← retire_relay (pt_relay p); modify (fun f => set_idle (base.delete (pt_relay p) (idle_since f)) f)
              | _ => mret tt
              end
          end) bound
  end.

Definition orphan_sweep : M unit :=
  n ← call;
  match p_list n with
  | None => mret tt
  | Some tasks =>
      accounted ← ledger_read referenced_task_arns;
      match accounted with
      | Err _ => mret tt
      | Ok accounted => for_each (fun task => if bool_decide (task ∈ accounted) then mret tt else _ ← stop_task task; mret tt) tasks
      end
  end.

(** *** A tick *)

Definition count_in_region (rg : string) (except : list Z) (enrolled : list EnrolledRelay) : Z :=
  Z.of_nat (length (filter (fun r => in_region rg r = true /\ er_id r ∉ except) enrolled)).

Fixpoint scale_regions (regions : list string) (enrolled : list EnrolledRelay) (aged : list Z) (covered : gset (string * string)) (now : Z) : M unit :=
  match regions with
  | [] => mret tt
  | rg :: regions =>
      warm_target ← observe (fun f => target_at (fl_setup f) rg now);
      coverage_target ← coverage_demand rg covered now;
      let target := Z.max warm_target coverage_target in
      _ ← scale_up rg (count_in_region rg aged enrolled) target now;
      enrolled ← retire_aged rg enrolled aged;
      _ ← scale_down rg enrolled (count_in_region rg [] enrolled) target now;
      scale_regions regions enrolled aged covered now
  end.

Definition tick (now : Z) : M unit :=
  enrolled ← observe (fun f => enrolled_relays (fl_registry f));
  _ ← refresh_idle enrolled now;
  aged ← aged_relays enrolled now;
  covered ← observe (fun f => covered_pairs (pair_rtts (fl_setup f)));
  _ ← scale_regions (cfg_regions cfg) enrolled aged covered now;
  _ ← resolve_pending now;
  _ ← finish_drains;
  _ ← launch_deadline_sweep now;
  _ ← vanished_task_sweep;
  orphan_sweep.

(** ** The coordinator's life: operations and ticks *)

Inductive FleetAct : Type := Op (o : FleetOp) | Tick (now : Z).

Definition fleet_act (f : Fleet) (a : FleetAct) : Fleet :=
  match a with Op o => fleet_step f o | Tick now => if now =? u64_max then f else (tick now f).2 end.
Definition fleet_run (f : Fleet) (acts : list FleetAct) : Fleet := foldl fleet_act f acts.

End loop.

Definition new_fleet (s : SessionSetup) : Fleet := mkFleet s new_ledger ∅ ∅ ∅ [] [] [] [] 0.
