(* ===== verification/FleetSafe.v ===== *)
(** * What provisioning keeps true

    An invariant of the fleet over every interleaving of the reconcile loop with
    the rest of the coordinator: what is enrolled is what the ledger bound, and a
    relay whose drain the loop completed never serves again.  From it the
    theorems on drains and enrollments, and the mark a spared relay loses. *)

From Stdlib Require Import ZArith Lia.
From stdpp Require Import gmap sorting list strings.
From S2P Require Import Prelude.
From S2P Require Import Registry.
From S2P Require Import PairRtts.
From S2P Require Import Placement.
From S2P Require Import PlacementSound.
From S2P Require Import Outbox.
From S2P Require Import Setup.
From S2P Require Import SetupInv.
From S2P Require Import SetupRun.
From S2P Require Import Ledger.
From S2P Require Import LifecycleOps.
From S2P Require Import Fleet.

Open Scope Z_scope.

(** ** Who may come to serve a session *)

Definition keyed (g : RelayRegistry) : Prop := forall id r, relays g !! id = Some r -> relay_id (entry_of r) = id.

Lemma available_entry g e : keyed g -> e ∈ available_entries g -> is_available g (relay_id e) = true.
Proof.
  intros Hk. unfold available_entries. intros (r & -> & [Hd ([k r'] & -> & Hr%elem_of_map_to_list)%list_elem_of_fmap]%list_elem_of_filter)%list_elem_of_fmap.
  cbn in *. unfold is_available. rewrite (Hk _ _ Hr), Hr. by rewrite Hd.
Qed.

Lemma placed_available {sha : Sha256} g pairs rq session ff p id : keyed g -> place_by_region g pairs rq session ff = Some (Ok p) -> id ∈ relay_ids p -> is_available g id = true.
Proof.
  intros Hk. unfold place_by_region. destruct (candidates g rq) as [|c0 cs] eqn:Ec; [done|]. rewrite <- Ec.
  assert (Hsub : forall e, e ∈ merge_sort by_relay_id (cohort rq (candidates g rq)).2 -> e ∈ available_entries g).
  { intros e. rewrite merge_sort_Permutation. unfold cohort. cbn [snd]. intros He.
    assert (Hc : e ∈ candidates g rq) by (destruct (bool_decide _) in He; destruct (_ && _) in He; rewrite ?list_elem_of_filter in He; naive_solver).
    revert Hc. unfold candidates. cbn zeta. destruct (bool_decide (Exists (fun p => require_evidence p = true) (players rq))); [by intros [_ Hf]%list_elem_of_filter|trivial]. }
  destruct (cohort rq (candidates g rq)) as [[rb cap] entries]. cbn [snd] in Hsub. destruct (head _) as [blind|]; [|done]. cbn [mbind option_bind].
  destruct (slot_relays _ _ _) as [l|]; [|done]. cbn [mbind option_bind]. unfold distill. destruct (max_of _) as [m|]; [|done]. cbn [mbind option_bind].
  destruct (_ !! Z.to_nat _) as [h|]; [|done]. cbn [mbind option_bind]. destruct (find_entry _ h) as [e|]; [|done]. cbn [mbind option_bind].
  destruct (mapM _ _) as [serving|] eqn:Em; [|done]. cbn [mbind option_bind]. intros [= <-]. cbn [relay_ids]. intros Hid.
  apply mapM_Some_1 in Em. apply list_elem_of_lookup in Hid as [i Hi]. destruct (Forall2_lookup_l _ _ _ _ _ Em Hi) as (x & _ & [Hx <-]%find_entry_Some).
  apply available_entry; [done|by apply Hsub].
Qed.

Lemma serving_insert s m k l k' id : session_relays s = <[k := l]> m -> id ∈ serving_relays s k' -> (k' = k /\ id ∈ l) \/ id ∈ default [] (m !! k').
Proof. unfold serving_relays. intros ->. destruct (decide (k = k')) as [<-|Hne]; [rewrite lookup_insert_eq; by left|rewrite lookup_insert_ne by done; by right]. Qed.

Section serving.
Context {sha : Sha256} {mint : MintToken}.

(** No operation adds a relay to a session unless it takes work, and none of
    them touches the registry. *)
Definition adds_available (s s' : SessionSetup) : Prop :=
  registry s' = registry s /\ forall id k, id ∈ serving_relays s' k -> id ∈ serving_relays s k \/ is_available (registry s) id = true.

Lemma adds_refl s : adds_available s s.
Proof. split; [done|by left]. Qed.

Lemma adds_same s s' : registry s' = registry s -> session_relays s' = session_relays s -> adds_available s s'.
Proof. intros E1 E2. split; [done|]. unfold serving_relays. rewrite E2. by left. Qed.

Lemma create_adds s rq expires now unix r : keyed (registry s) -> create_body s rq expires now unix = Some r -> adds_available s r.2.
Proof.
  intros Hk. unfold create_body. destruct (cached_create s rq); [intros [= <-]; apply adds_refl|]. destruct (validate_request rq); [|intros [= <-]; apply adds_refl].
  destruct (match session_ceiling s with Some c => c <=? live_session_count s | None => false end); [intros [= <-]; apply adds_refl|].
  pose proof (hold_core s rq now unix) as Hh. destruct (hold_until_ready s rq now unix) as [held s1]. destruct Hh as ((E1 & _ & E3 & _ & _ & _ & _ & E8) & _).
  assert (Hsame : adds_available s s1) by by apply adds_same.
  destruct held; [by intros [= <-]|]. destruct (place_by_region _ _ _ _ _) as [[p|e]|] eqn:Ep; cbn [mbind option_bind]; [|by intros [= <-]|done].
  destruct (tenants s1 !! rq_tenant rq) as [b|]; [|by intros [= <-]]. intros [= <-]. unfold commit_create.
  assert (Hins : forall s', registry s' = registry s1 -> session_relays s' = <[(rq_tenant rq, next_session s1) := relay_ids p]> (session_relays s1) -> adds_available s s').
  { intros s' Eg Er. split; [by rewrite Eg|]. intros id k Hid. destruct (serving_insert _ _ _ _ _ _ Er Hid) as [[_ Hp]|H]; [|left; unfold serving_relays; by rewrite <- E3].
    right. rewrite <- E1. eapply placed_available; [by rewrite E1|exact Ep|done]. }
  destruct (mint_all _ _ _ _); [destruct (rq_external_id rq)|]; by apply Hins.
Qed.

Lemma rehome_adds s k dead allow dep : keyed (registry s) -> adds_available s (rehome_inner s k dead allow dep).2.
Proof.
  intros Hk. unfold rehome_inner. destruct (rehome_pick s k dead allow) as [o|r_new e revs] eqn:Ep; [apply adds_refl|].
  assert (Hav : is_available (registry s) r_new = true).
  { unfold rehome_pick in Ep. destruct (serving_relays s k); [done|]. destruct (recorded_rehome s k dead); [done|]. destruct (allow && _ && _); [done|]. destruct (negb _); [done|].
    destruct (pick_replacement s k dead) as [x|] eqn:Ex; [|done]. destruct (entry _ x); [|done]. destruct (successor_revisions s k dead); [|done]. injection Ep as -> _ _.
    destruct (pick_replacement_entry s k dead r_new Ex) as (y & Hy & <-). apply available_entry; [done|]. unfold rehome_entries in Hy.
    destruct (match session_refs s !! k with Some r => _ | None => _ end). rewrite merge_sort_Permutation in Hy. by apply list_elem_of_filter in Hy as [_ Hy]. }
  destruct (rehome_commit s k dead r_new e revs) as [s1|] eqn:Ec; [|apply adds_refl]. cbn [snd]. unfold rehome_commit in Ec. destruct (session_relays s !! k) as [l|] eqn:El; [|done].
  cbn [mbind option_bind] in Ec. case_bool_decide as Hd; [|done]. cbn [negb] in Ec.
  assert (Hs1 : registry s1 = registry s /\ session_relays s1 = <[k := swap_member l dead r_new]> (session_relays s)) by (cbn in Ec; destruct (session_refs s !! k); by injection Ec as <-).
  destruct Hs1 as [E1 E2]. split; [exact E1|]. intros id k' Hid. change (id ∈ serving_relays s1 k') in Hid.
  destruct (serving_insert _ _ _ _ _ _ E2 Hid) as [[-> H]|H]; [|by left]. apply swap_member_elem in H as [->|[_ H]]; [by right| |done]. left. unfold serving_relays. by rewrite El.
Qed.

Lemma setup_adds s o s' : keyed (registry s) -> setup_only o = true -> setup_step s o = Some s' -> adds_available s s'.
Proof.
  intros Hk Ho. destruct o as [rq expires now unix|k dead allow dep|k|k expect cur|k dep|o|o|p|wall instant|relay]; cbn [setup_step]; try done.
  - destruct (create_body s rq expires now unix) as [r|] eqn:E; [|done]. intros [= <-]. by eapply create_adds.
  - intros [= <-]. by apply rehome_adds.
  - intros [= <-]. destruct (retire_spec s k) as (E1 & _ & E3 & _). split; [done|]. intros id k' H. left. unfold serving_relays in *. rewrite E1, lookup_delete in H.
    case_decide; [|done]. by apply not_elem_of_nil in H.
  - intros [= <-]. apply adds_same; unfold settle_lobby; destruct (negb _ || _ || _); try done; by destruct (session_refs s !! k).
  - intros [= <-]. unfold refresh_resumed_descriptors. case_bool_decide; [by apply adds_same|apply adds_refl].
  - intros [= <-]. by apply adds_same.
  - intros [= <-]. by apply adds_same.
  - intros [= <-]. by apply adds_same.
  - intros [= <-]. by apply adds_same.
Qed.

End serving.

Lemma session_count_zero s id : session_count_for_relay s id = 0 <-> forall k, id ∉ serving_relays s k.
Proof.
  unfold session_count_for_relay, serving_relays. split.
  - intros H k Hk. destruct (session_relays s !! k) as [l|] eqn:E; [|by apply not_elem_of_nil in Hk]. cbn in Hk.
    assert (Hin : (k, l) ∈ filter (fun p : string * Z * list Z => id ∈ p.2) (map_to_list (session_relays s))) by (apply list_elem_of_filter; split; [done|by apply elem_of_map_to_list]).
    destruct (filter _ _); [by apply not_elem_of_nil in Hin|done].
  - intros H. rewrite filter_none; [done|]. intros [k l] Hin%elem_of_map_to_list Hid. apply (H k). by rewrite Hin.
Qed.

(** ** The ledger under the fleet *)

(** A bound id has addresses. *)
Definition recorded (l : RelayLedger) : Prop := forall id row, rows l !! id = Some row -> is_Some (lr_cert row) -> exists a rest, lr_addrs row = Some (a :: rest).

(** Rows only grow, and addresses once recorded stay. *)
Record keeps (l l' : RelayLedger) : Prop := mkKeeps {
  kp_ok : ledger_ok l';
  kp_rows : forall id r, rows l !! id = Some r -> exists r', rows l' !! id = Some r' /\ row_grows r r' /\ (is_Some (lr_addrs r) -> lr_addrs r' = lr_addrs r);
  kp_recorded : recorded l';
}.

Lemma ledger_keeps_refl l : ledger_ok l -> recorded l -> keeps l l.
Proof. intros H1 H2. split; [done| |done]. intros id r Hr. by exists r. Qed.

Lemma put_row_keeps l id r r' : ledger_ok l -> recorded l -> rows l !! id = Some r -> ledger_ok (put_row l id r') -> row_grows r r' ->
  (is_Some (lr_addrs r) -> lr_addrs r' = lr_addrs r) -> (is_Some (lr_cert r') -> exists a rest, lr_addrs r' = Some (a :: rest)) -> keeps l (put_row l id r').
Proof.
  intros Hok Hrec Hr Hok' Hg Ha Hc. split; [done| |].
  - intros id0 r0 H0. cbn. destruct (decide (id = id0)) as [<-|Hne]; [|exists r0; by rewrite lookup_insert_ne]. exists r'. rewrite lookup_insert_eq. rewrite Hr in H0. by injection H0 as <-.
  - intros id0 r0. cbn. intros [[<- <-]|[_ H]]%lookup_insert_Some; [done|exact (Hrec id0 r0 H)].
Qed.

(** An address set is written only to a row that has none. *)
Definition writes_fresh (l : RelayLedger) (o : LedgerOp) : Prop :=
  match o with DbRecordTask id _ _ _ false => forall r, rows l !! as_i64 id = Some r -> lr_addrs r = None | _ => True end.

Section ledger.
Context {sha : Sha256}.

Lemma step_keeps l o : ledger_ok l -> recorded l -> writes_fresh l o -> keeps l (ledger_step l o).
Proof.
  intros Hok Hrec Hw. pose proof (ledger_keeps_refl l Hok Hrec) as Hsame. pose proof (proj1 (ledger_step_ok l o Hok)) as Hok'.
  destruct o as [now rg ttl random fault|now id cert token peer read write|now id fault|id task ips addrs fault|id task fault]; cbn [ledger_step] in *.
  - unfold mint_at in *. destruct (_ =? _); [done|]. destruct random as [token|]; [|done]. destruct fault; [done|]. cbn [orb] in *. destruct (_ <=? _); [done|]. cbn [snd] in *.
    split; [done| |]; cbn [rows].
    + intros id r Hr. exists r. rewrite lookup_insert_ne; [done|]. intros <-. destruct (lo_ids _ Hok (next_rowid l)); [by rewrite Hr|lia].
    + intros id r. cbn [rows]. intros [[<- <-]|[_ H]]%lookup_insert_Some; [by intros []|exact (Hrec id r H)].
  - destruct (authorize_cases l now id cert token peer read write) as [[-> _]|(a & row & tok & _ & Hr & _ & Hc & _ & _ & _ & _ & E & _ & Hne & Ha)]; [done|].
    rewrite E in *. apply (put_row_keeps l _ row); try done; [by split; [..|cbn; rewrite Hc; intros []|]|]. intros _. cbn. rewrite Ha. destruct (ae_addrs a); [done|by eexists _, _].
  - unfold retire in *. destruct fault; [done|]. cbn [snd] in *. destruct (rows l !! as_i64 id) as [r|] eqn:Er; [|done]. case_bool_decide as Hn; [|done].
    apply (put_row_keeps l _ r); try done; [split; try done; cbn; rewrite Hn; by intros []|]. exact (Hrec _ r Er).
  - unfold record_task in *. destruct fault; [done|]. cbn [snd] in *. destruct (rows l !! as_i64 id) as [r|] eqn:Er; [|done]. pose proof (Hw r Er) as Hn.
    apply (put_row_keeps l _ r); try done; [cbn; rewrite Hn; by intros []|]. cbn. intros Hc. destruct (Hrec _ r Er Hc) as (a & rest & E). congruence.
  - unfold record_launch in *. destruct fault; [done|]. cbn [snd] in *. destruct (rows l !! as_i64 id) as [r|] eqn:Er; [|done].
    apply (put_row_keeps l _ r); try done. exact (Hrec _ r Er).
Qed.

End ledger.

(** The row behind an enrolled relay. *)
Definition bound_to (l : RelayLedger) (id : Z) (fp : list Z) (primary : string) (addrs : list string) : Prop :=
  exists row rest, rows l !! as_i64 id = Some row /\ lr_cert row = Some fp /\ lr_addrs row = Some addrs /\ addrs = primary :: rest.

Definition tombstoned (l : RelayLedger) (id : Z) : Prop := exists row, rows l !! as_i64 id = Some row /\ is_Some (lr_retired_at row).

Lemma bound_keeps l l' id fp p addrs : keeps l l' -> bound_to l id fp p addrs -> bound_to l' id fp p addrs.
Proof.
  intros Hk (row & rest & Hr & Hc & Ha & E). destruct (kp_rows _ _ Hk _ _ Hr) as (r' & Hr' & G & Ga). exists r', rest. split; [done|].
  rewrite (rg_cert _ _ G) by (by rewrite Hc). rewrite Ga by (by rewrite Ha). done.
Qed.

Lemma tombstone_keeps l l' id : keeps l l' -> tombstoned l id -> tombstoned l' id.
Proof. intros Hk (row & Hr & Ht). destruct (kp_rows _ _ Hk _ _ Hr) as (r' & Hr' & G & _). exists r'. split; [done|]. by rewrite (rg_retired _ _ G Ht). Qed.

Lemma tombstoned_retired l id fault : tombstoned l id -> is_retired l id fault <> Ok false.
Proof. intros (row & Hr & Ht). unfold is_retired. destruct fault; [done|]. rewrite Hr, bool_decide_eq_true_2 by done. done. Qed.

(** ** The invariant *)

(** Retired, taking no work, serving no session. *)
Record quiet (f : Fleet) (id : Z) : Prop := mkQuiet {
  qu_retired : tombstoned (fl_ledger f) id;
  qu_unavailable : is_available (fl_registry f) id = false;
  qu_empty : forall k, id ∉ serving_relays (fl_setup f) k;
}.

Section invariant.
Context {sha : Sha256} {mint : MintToken}.

Record fleet_ok (f : Fleet) : Prop := mkFleetOk {
  fo_ledger : ledger_ok (fl_ledger f);
  fo_recorded : recorded (fl_ledger f);
  fo_keyed : keyed (fl_registry f);
  fo_bound : forall id r, relays (fl_registry f) !! id = Some r ->
    bound_to (fl_ledger f) id (fingerprint r) (relay_addr (entry_of r)) (relay_addrs (entry_of r));
  fo_pending : forall h boot, (h, boot) ∈ authorized f -> bound_to (fl_ledger f) (hello_id h) (cert_fingerprint (hello_cert h)) (hello_addr h) (hello_addrs h);
  fo_drained : forall id, id ∈ drained f -> quiet f id;
}.

Lemma ledger_change f l : fleet_ok f -> keeps (fl_ledger f) l -> fleet_ok (set_fl_ledger l f).
Proof.
  intros [H1 H2 H3 H4 H5 H6] Hk. split; cbn.
  - apply Hk.
  - apply Hk.
  - done.
  - intros id r Hr. eapply bound_keeps; [done|by apply H4].
  - intros h boot Hh. eapply bound_keeps; [done|by eapply H5].
  - intros id Hid. destruct (H6 id Hid) as [Q1 Q2 Q3]. split; [by eapply tombstone_keeps|done|done].
Qed.

(** A change of the registry that keeps every entry's identity, and lets no
    drained relay take work. *)
Lemma registry_change f g : fleet_ok f ->
  (forall id r, relays g !! id = Some r -> relay_id (entry_of r) = id /\ bound_to (fl_ledger f) id (fingerprint r) (relay_addr (entry_of r)) (relay_addrs (entry_of r))) ->
  (forall id, id ∈ drained f -> is_available g id = false) -> fleet_ok (put_registry g f).
Proof.
  intros [H1 H2 H3 H4 H5 H6] Hg Hd. split; cbn; try done.
  - intros id r Hr. by apply Hg.
  - intros id r Hr. by apply Hg.
  - intros id Hid. destruct (H6 id Hid) as [Q1 Q2 Q3]. split; [done|by apply Hd|done].
Qed.

Lemma draining_change f id gen v : fleet_ok f -> (v = true \/ id ∉ drained f) -> fleet_ok (put_registry (put_draining (fl_registry f) id gen v).2 f).
Proof.
  intros Hok Hv. apply registry_change; [done| |].
  - intros id' r. unfold put_draining. destruct (relays (fl_registry f) !! id) as [x|] eqn:Ex; [destruct (_ =? _)|]; cbn; try (intros H; split; [by apply (fo_keyed _ Hok)|by apply (fo_bound _ Hok)]).
    intros [[<- <-]|[_ H]]%lookup_insert_Some; cbn; (split; [by apply (fo_keyed _ Hok)|by apply (fo_bound _ Hok)]).
  - intros id' Hid. pose proof (qu_unavailable _ _ (fo_drained _ Hok id' Hid)) as Hu. unfold put_draining. destruct (relays (fl_registry f) !! id) as [x|] eqn:Ex; [|done].
    destruct (_ =? _); [|done]. unfold is_available in *. cbn. destruct (decide (id = id')) as [<-|Hne]; [|by rewrite lookup_insert_ne]. rewrite lookup_insert_eq. cbn.
    destruct Hv as [->|Hv]; done.
Qed.

Lemma remove_change f id gen : fleet_ok f -> fleet_ok (put_registry (remove_if_current (fl_registry f) id gen).2 f).
Proof.
  intros Hok. unfold remove_if_current. destruct (relays (fl_registry f) !! id) as [x|] eqn:Ex; [destruct (_ =? _)|]; cbn [snd]; apply registry_change; try done.
  - intros id' r. cbn. intros [_ H]%lookup_delete_Some. split; [by apply (fo_keyed _ Hok)|by apply (fo_bound _ Hok)].
  - intros id' Hid. pose proof (qu_unavailable _ _ (fo_drained _ Hok id' Hid)) as Hu. unfold is_available in *. cbn. rewrite lookup_delete. by case_decide.
  - intros id' r H. split; [by apply (fo_keyed _ Hok)|by apply (fo_bound _ Hok)].
  - intros id' Hid. by apply (fo_drained _ Hok).
  - intros id' r H. split; [by apply (fo_keyed _ Hok)|by apply (fo_bound _ Hok)].
  - intros id' Hid. by apply (fo_drained _ Hok).
Qed.

(** A change of the setup that adds no relay that takes no work. *)
Lemma setup_change f s : fleet_ok f -> adds_available (fl_setup f) s -> fleet_ok (set_fl_setup s f).
Proof.
  intros [H1 H2 H3 H4 H5 H6] [Eg Ha]. unfold fl_registry in *. split; cbn; unfold fl_registry; cbn; rewrite ?Eg; try done.
  intros id Hid. destruct (H6 id Hid) as [Q1 Q2 Q3]. unfold fl_registry in *. split; cbn; unfold fl_registry; cbn; rewrite ?Eg; try done.
  intros k Hk. destruct (Ha id k Hk) as [H|H]; [by apply (Q3 k)|congruence].
Qed.

Lemma pending_change f l : fleet_ok f -> (forall x, x ∈ l -> x ∈ authorized f) -> fleet_ok (set_authorized l f).
Proof. intros [H1 H2 H3 H4 H5 H6] Hl. split; try done. - intros h boot Hh. by apply (H5 h boot), Hl. - intros id Hid. by destruct (H6 id Hid). Qed.

Lemma authorize_keeps_ok f now h boot peer read write : fleet_ok f -> fleet_ok (authorize f now h boot peer read write).
Proof.
  intros Hok. unfold authorize. set (fp := cert_fingerprint (hello_cert h)).
  pose proof (step_keeps (fl_ledger f) (DbEnroll now (hello_id h) fp (hello_enroll_token h) peer read write) (fo_ledger _ Hok) (fo_recorded _ Hok) I) as Hk. cbn [ledger_step] in Hk.
  pose proof (authorize_cases (fl_ledger f) now (hello_id h) fp (hello_enroll_token h) peer read write) as Hc. cbn zeta in Hc.
  destruct (authorize_enroll_at _ _ _ _ _ _ _ _) as [r l]. cbn [fst snd] in *. pose proof (ledger_change f l Hok Hk) as Hok'. destruct r as [a|e]; [|done]. destruct (ae_addrs a) as [|p rest] eqn:Ea; [done|].
  assert (Hb : bound_to l (hello_id h) fp p (p :: rest)).
  { destruct Hc as [[-> (row & Hr & _ & Hf & _ & _ & Had)]|(a' & row & tok & [= <-] & Hr & _ & _ & _ & _ & _ & _ & -> & _ & _ & Had)].
    - by exists row, rest.
    - rewrite Ea in Had. exists (bind_row row now fp), rest. cbn. by rewrite lookup_insert_eq. }
  destruct Hok' as [H1 H2 H3 H4 H5 H6]. split; try done; cbn.
  - intros h' boot'. rewrite elem_of_app, list_elem_of_singleton. intros [H|[= -> ->]]; [by apply (H5 h' boot')|exact Hb].
  - intros id Hid. by destruct (H6 id Hid).
Qed.

(** An insert puts in what the ledger bound, never under a drained id. *)
Lemma enroll_keeps_ok f h boot fault : fleet_ok f -> bound_to (fl_ledger f) (hello_id h) (cert_fingerprint (hello_cert h)) (hello_addr h) (hello_addrs h) ->
  fleet_ok (enroll_locked f h boot fault).
Proof.
  intros Hok Hb. unfold enroll_locked. destruct (is_retired (fl_ledger f) (hello_id h) fault) as [[]|] eqn:Er; try done.
  assert (Hnd : hello_id h ∉ drained f) by (intros Hd; by apply (tombstoned_retired _ _ fault (qu_retired _ _ (fo_drained _ Hok _ Hd)))).
  destruct (try_enroll (fl_registry f) h) as [[gen g]|] eqn:Et; [|done].
  assert (Hg : g = (insert_locked (fl_registry f) h (cert_fingerprint (hello_cert h))).2).
  { unfold try_enroll in Et. destruct (relays _ !! _); [case_decide|]; try done; by injection Et as _ <-. }
  assert (Hok1 : fleet_ok (put_registry g f)).
  { subst g. apply registry_change; [done| |].
    - intros id r. cbn. intros [[<- <-]|[_ H]]%lookup_insert_Some; [by split|]. split; [by apply (fo_keyed _ Hok)|by apply (fo_bound _ Hok)].
    - intros id Hid. unfold is_available. cbn. rewrite lookup_insert_ne by congruence. by apply (fo_drained _ Hok). }
  set (f1 := put_registry g f) in *.
  assert (Hok2 : fleet_ok (put_registry (note_boot_id (fl_registry f1) (hello_id h) boot).2 f1)).
  { apply registry_change; [done| |]; cbn; [intros id r H; split; [by apply (fo_keyed _ Hok1)|by apply (fo_bound _ Hok1)]|].
    intros id Hid. by apply (fo_drained _ Hok1). }
  set (f2 := put_registry (note_boot_id _ _ _).2 f1) in *.
  assert (Hok3 : fleet_ok (set_fl_setup (restage_periodic (fl_setup f2) (hello_id h)) f2)) by (apply setup_change; [done|by apply adds_same]).
  destruct (negb _ && negb _); [|done]. apply draining_change; [done|by left].
Qed.

Lemma fleet_step_ok f o : fleet_ok f -> fleet_ok (fleet_step f o).
Proof.
  intros Hok. destruct o as [o|now h boot peer read write|i fault|id gen|id gen|rg ttl now]; cbn [fleet_step].
  - destruct (setup_only o) eqn:Eo; [|done]. apply setup_change; [done|]. destruct (setup_step (fl_setup f) o) as [s|] eqn:Es; cbn; [|apply adds_refl].
    eapply setup_adds; [apply (fo_keyed _ Hok)|done|done].
  - by apply authorize_keeps_ok.
  - destruct (authorized f !! i) as [[h boot]|] eqn:Ei; [|done]. apply enroll_keeps_ok.
    + apply pending_change; [done|]. intros x Hx. by eapply list_elem_of_delete_inv.
    + apply (fo_pending _ Hok h boot). by eapply list_elem_of_lookup_2.
  - apply draining_change; [done|by left].
  - by apply remove_change.
  - apply setup_change; [done|by apply adds_same].
Qed.

(** No operation of the others completes a drain, or reads the idle timers. *)
Lemma fleet_step_keeps f o : drained (fleet_step f o) = drained f /\ idle_since (fleet_step f o) = idle_since f.
Proof.
  destruct o as [o|now h boot peer read write|i fault|id gen|id gen|rg ttl now]; cbn [fleet_step]; try done.
  - by destruct (setup_only o).
  - unfold authorize. destruct (authorize_enroll_at _ _ _ _ _ _ _ _) as [[a|] l]; [|done]. by destruct (ae_addrs a).
  - destruct (authorized f !! i) as [[h boot]|]; [|done]. unfold enroll_locked. destruct (is_retired _ _ _) as [[]|]; try done. destruct (try_enroll _ _) as [[gen g]|]; [|done].
    by destruct (negb _ && negb _).
Qed.

Lemma meanwhile_ok ops : forall f, fleet_ok f -> fleet_ok (foldl fleet_step f ops) /\ drained (foldl fleet_step f ops) = drained f /\ idle_since (foldl fleet_step f ops) = idle_since f.
Proof.
  induction ops as [|o ops IH]; intros f Hok; [done|]. cbn [foldl]. destruct (IH _ (fleet_step_ok f o Hok)) as (H1 & H2 & H3). destruct (fleet_step_keeps f o) as [E1 E2].
  rewrite H2, H3. done.
Qed.

End invariant.

(** ** The loop keeps it *)

(** A drained relay whose idle timer still runs would be drained again. *)
Definition hot (f : Fleet) (id : Z) : Prop := id ∈ drained f /\ is_Some (idle_since f !! id).

Section loop.
Context {sha : Sha256} {mint : MintToken} {world : World}.
Context (cfg : ProvisionConfig).

(** Programs that keep the invariant and make no relay hot, and those among them
    that complete no drain. *)
Definition safe {A} (m : M A) : Prop := forall f, fleet_ok f -> fleet_ok (m f).2 /\ forall id, hot (m f).2 id -> hot f id.
Definition plain {A} (m : M A) : Prop :=
  forall f, fleet_ok f -> fleet_ok (m f).2 /\ drained (m f).2 = drained f /\ forall id, is_Some (idle_since (m f).2 !! id) -> is_Some (idle_since f !! id).

Lemma plain_safe {A} (m : M A) : plain m -> safe m.
Proof. intros Hm f Hok. destruct (Hm f Hok) as (H1 & H2 & H3). split; [done|]. intros id [Hd Hi]. split; [by rewrite <- H2|by apply H3]. Qed.

Lemma bind_run {A B} (m : M A) (k : A -> M B) f : (m ≫= k) f = k (m f).1 (m f).2.
Proof. unfold mbind, M_bind. by destruct (m f). Qed.

Lemma plain_ret {A} (x : A) : plain (mret x).
Proof. by intros f Hok. Qed.
Lemma plain_gets {A} (g : Fleet -> A) : plain (gets g).
Proof. by intros f Hok. Qed.
Lemma plain_bind {A B} (m : M A) (k : A -> M B) : plain m -> (forall x, plain (k x)) -> plain (m ≫= k).
Proof.
  intros Hm Hk f Hok. rewrite bind_run. destruct (Hm f Hok) as (H1 & H2 & H3). destruct (Hk (m f).1 _ H1) as (K1 & K2 & K3). split; [done|]. split; [congruence|auto].
Qed.
Lemma safe_bind {A B} (m : M A) (k : A -> M B) : safe m -> (forall x, safe (k x)) -> safe (m ≫= k).
Proof. intros Hm Hk f Hok. rewrite bind_run. destruct (Hm f Hok) as (H1 & H2). destruct (Hk (m f).1 _ H1) as (K1 & K2). split; [done|auto]. Qed.
Lemma plain_for_each {A} (body : A -> M unit) l : (forall x, x ∈ l -> plain (body x)) -> plain (for_each body l).
Proof.
  induction l as [|x l IH]; intros Hb; cbn [for_each]; [apply plain_ret|]. apply plain_bind; [apply Hb; by left|]. intros _. apply IH. intros y Hy. apply Hb. by right.
Qed.
Lemma safe_for_each {A} (body : A -> M unit) l : (forall x, safe (body x)) -> safe (for_each body l).
Proof. intros Hb. induction l as [|x l IH]; cbn [for_each]; [by apply plain_safe, plain_ret|]. by apply safe_bind. Qed.

Lemma call_ok f : fleet_ok f -> fleet_ok (call f).2 /\ drained (call f).2 = drained f /\ idle_since (call f).2 = idle_since f.
Proof.
  intros Hok. unfold call. cbn [snd]. destruct (meanwhile_ok (meanwhile (calls f)) f Hok) as ([H1 H2 H3 H4 H5 H6] & E1 & E2). split; [|done]. split; try done.
  intros id Hid. by destruct (H6 id Hid).
Qed.
Lemma plain_call : plain call.
Proof. intros f Hok. destruct (call_ok f Hok) as (H1 & H2 & H3). split; [done|]. split; [done|]. by rewrite H3. Qed.
Lemma plain_observe {A} (g : Fleet -> A) : plain (observe g).
Proof. apply plain_bind; [apply plain_call|]. intros n. apply plain_gets. Qed.
Lemma plain_ledger_read {A} (q : RelayLedger -> bool -> A) : plain (ledger_read q).
Proof. apply plain_bind; [apply plain_call|]. intros n. apply plain_gets. Qed.

Lemma plain_ledger_write {A E} (q : RelayLedger -> nat -> bool -> result A E * RelayLedger) (o : nat -> bool -> LedgerOp) :
  (forall l n fault, (q l n fault).2 = ledger_step l (o n fault)) -> (forall l n fault, writes_fresh l (o n fault)) -> plain (ledger_write q).
Proof.
  intros Hq Hw. apply plain_bind; [apply plain_call|]. intros n f Hok. unfold act. pose proof (Hq (fl_ledger f) n (db_fault n)) as Eq. destruct (q _ _ _) as [r l]. cbn in *. subst l.
  split; [|done]. apply ledger_change; [done|]. apply step_keeps; [apply Hok|apply Hok|apply Hw].
Qed.

Lemma plain_note_launch id task : plain (modify (note_launch id task)).
Proof. intros f [H1 H2 H3 H4 H5 H6]. split; [|done]. split; try done. intros x Hx. by destruct (H6 x Hx). Qed.
Lemma plain_stop task : plain (stop_task task).
Proof.
  apply plain_bind; [apply plain_call|]. intros n. apply plain_bind; [|intros _; apply plain_ret].
  intros f [H1 H2 H3 H4 H5 H6]. split; [|done]. split; try done. intros x Hx. by destruct (H6 x Hx).
Qed.
Lemma idle_change f i : fleet_ok f -> fleet_ok (set_idle i f).
Proof. intros [H1 H2 H3 H4 H5 H6]. split; try done. intros x Hx. by destruct (H6 x Hx). Qed.
Lemma plain_idle id : plain (modify (fun f => set_idle (base.delete id (idle_since f)) f)).
Proof. intros f Hok. split; [by apply idle_change|]. split; [done|]. intros x. cbn. rewrite lookup_delete_is_Some. by intros []. Qed.

Lemma retire_now_ok n id f : fleet_ok f -> let '(b, f') := retire_now n id f in
  fleet_ok f' /\ drained f' = drained f /\ idle_since f' = idle_since f /\ relays (fl_registry f') = relays (fl_registry f) /\ session_relays (fl_setup f') = session_relays (fl_setup f) /\
  (b = true -> is_Some (rows (fl_ledger f) !! as_i64 id) -> tombstoned (fl_ledger f') id).
Proof.
  intros Hok. unfold retire_now. pose proof (step_keeps (fl_ledger f) (DbRetire (unix_clock n) id (db_fault n)) (fo_ledger _ Hok) (fo_recorded _ Hok) I) as Hk. cbn [ledger_step] in Hk.
  unfold retire in *. destruct (db_fault n); cbn [snd] in Hk; [by split; [apply ledger_change|]|]. pose proof (ledger_change f _ Hok Hk) as Hok'.
  set (l := match rows (fl_ledger f) !! as_i64 id with Some r => _ | None => _ end) in *. split; [|split; [done|split; [done|split; [done|split; [done|]]]]].
  - assert (Hs : fleet_ok (put_registry (forget_boot_id (fl_registry f) id) (set_fl_ledger l f))).
    { apply registry_change; [done| |]; cbn; [intros i r H; split; [by apply (fo_keyed _ Hok')|by apply (fo_bound _ Hok')]|]. intros i Hi. by apply (fo_drained _ Hok'). }
    destruct Hs as [H1 H2 H3 H4 H5 H6]. split; try done. intros x Hx. by destruct (H6 x Hx).
  - intros _ [r Hr]. cbn. unfold l. rewrite Hr. case_bool_decide as Hn.
    + eexists. cbn. rewrite lookup_insert_eq. split; [done|]. by eexists.
    + exists r. split; [done|]. by apply not_eq_None_Some.
Qed.

Lemma plain_retire id : plain (retire_relay id).
Proof.
  apply plain_bind; [apply plain_call|]. intros n f Hok. pose proof (retire_now_ok n id f Hok) as H. destruct (retire_now n id f) as [b f']. destruct H as (H1 & H2 & H3 & _).
  split; [done|]. split; [done|]. cbn. by rewrite H3.
Qed.

Lemma plain_stop_retired id : plain (stop_retired id).
Proof.
  apply plain_bind; [apply plain_ledger_read|]. intros t. apply plain_bind; [destruct t as [[arn|]|]; [apply plain_stop|apply plain_ret|apply plain_ret]|]. intros _. apply plain_idle.
Qed.

Lemma stop_retired_cools id f : idle_since (stop_retired id f).2 !! id = None.
Proof. unfold stop_retired. rewrite !bind_run. unfold modify. cbn [snd]. cbn. apply lookup_delete_eq. Qed.

(** A tombstone set on a relay that takes no work and serves nothing makes it
    quiet. *)
Lemma tombstone_ok id f : fleet_ok f -> is_Some (relays (fl_registry f) !! id) -> is_available (fl_registry f) id = false -> session_count_for_relay (fl_setup f) id = 0 ->
  let '(b, f') := tombstone_locked id f in
  fleet_ok f' /\ idle_since f' = idle_since f /\ drained f' = (if b then drained f ++ [id] else drained f) /\ relays (fl_registry f') = relays (fl_registry f).
Proof.
  intros Hok [r Hr] Hu Hs. unfold tombstone_locked. rewrite !bind_run. cbn [locked_call fst snd]. set (f0 := next_call f).
  assert (Hok0 : fleet_ok f0) by (destruct Hok as [H1 H2 H3 H4 H5 H6]; split; try done; intros x Hx; by destruct (H6 x Hx)).
  pose proof (retire_now_ok (calls f) id f0 Hok0) as H. destruct (retire_now (calls f) id f0) as [b f1]. destruct H as (K1 & K2 & K3 & K4 & K5 & K6). cbn [fst snd].
  destruct b; [|done]. rewrite bind_run. cbn [modify fst snd]. unfold mret, M_ret.
  assert (Hq : quiet f1 id).
  { destruct (fo_bound _ Hok id r Hr) as (row & rest & Hrow & _). split.
    - apply K6; [done|]. cbn. by rewrite Hrow.
    - unfold is_available in *. rewrite K4. exact Hu.
    - intros k. unfold serving_relays. rewrite K5. by apply session_count_zero. }
  split; [|split; [done|split; [cbn; by rewrite K2|done]]]. destruct K1 as [H1 H2 H3 H4 H5 H6]. split; try done. cbn. intros x. rewrite elem_of_app, list_elem_of_singleton.
  intros [Hx| ->]; [by destruct (H6 x Hx)|by destruct Hq].
Qed.

(** A mark that applied left an entry that takes no work. *)
Lemma mark_spec f id gen : fleet_ok f ->
  let f' := put_registry (mark_draining (fl_registry f) id gen).2 f in
  fleet_ok f' /\ idle_since f' = idle_since f /\ drained f' = drained f /\ session_relays (fl_setup f') = session_relays (fl_setup f) /\
  ((mark_draining (fl_registry f) id gen).1 = true -> is_Some (relays (fl_registry f') !! id) /\ is_available (fl_registry f') id = false).
Proof.
  intros Hok f'. split; [apply draining_change; [done|by left]|]. do 3 (split; [done|]). unfold f', mark_draining, put_draining, is_available.
  destruct (relays (fl_registry f) !! id) as [r|] eqn:E; [|done]. destruct (_ =? _); [|done]. intros _. cbn. rewrite lookup_insert_eq. by split.
Qed.

Lemma drain_locked_ok rg target id gen f : fleet_ok f -> id ∉ drained f ->
  let '(b, f') := drain_locked rg target id gen f in
  fleet_ok f' /\ idle_since f' = idle_since f /\ drained f' = (if b then drained f ++ [id] else drained f).
Proof.
  intros Hok Hd. unfold drain_locked. rewrite bind_run. cbn [gets fst snd]. destruct (_ <=? target); [done|]. rewrite bind_run. unfold act.
  pose proof (mark_spec f id gen Hok) as Hm. cbn zeta in Hm. destruct (mark_draining (fl_registry f) id gen) as [marked g]. cbn [fst snd] in *. set (f1 := put_registry g f) in *.
  destruct Hm as (M1 & M2 & M3 & M4 & M5). destruct marked; cbn [negb]; [|done]. destruct (M5 eq_refl) as [M6 M7]. rewrite bind_run. cbn [gets fst snd]. rewrite bind_run.
  assert (Hclear : forall f2, fleet_ok f2 -> idle_since f2 = idle_since f -> drained f2 = drained f ->
    let '(b, f') := (modify (fun f => put_registry (clear_draining (fl_registry f) id gen).2 f) ≫= (fun _ => mret false)) f2 in
    fleet_ok f' /\ idle_since f' = idle_since f /\ drained f' = (if b then drained f ++ [id] else drained f)).
  { intros f2 K1 K2 K3. rewrite bind_run. cbn [modify fst snd]. unfold mret, M_ret. split; [|done]. apply draining_change; [done|right; by rewrite K3]. }
  destruct (Z.eqb_spec (session_count_for_relay (fl_setup f1) id) 0) as [Hs|Hs]; [|by apply Hclear].
  pose proof (tombstone_ok id f1 M1 M6 M7 Hs) as Ht. destruct (tombstone_locked id f1) as [b f2]. destruct Ht as (T1 & T2 & T3 & _). cbn [fst snd]. destruct b.
  - split; [done|]. split; [congruence|]. cbn. by rewrite T3, M3.
  - apply Hclear; [done|congruence|congruence].
Qed.

Lemma try_drain_ok rg target id gen f : fleet_ok f -> id ∉ drained f ->
  let f' := (try_drain_one rg target id gen f).2 in
  fleet_ok f' /\ (forall x, hot f' x -> hot f x) /\ forall x, x ∈ drained f' -> x ∈ drained f \/ x = id.
Proof.
  intros Hok Hd. unfold try_drain_one. rewrite !bind_run. destruct (call_ok f Hok) as (H1 & H2 & H3). set (f1 := (call f).2) in *.
  pose proof (drain_locked_ok rg target id gen f1 H1 ltac:(by rewrite H2)) as Hl. destruct (drain_locked rg target id gen f1) as [b f2]. destruct Hl as (L1 & L2 & L3). cbn [fst snd]. destruct b.
  - rewrite bind_run. change ((mret true : M bool) _) with (true, (stop_retired id f2).2). cbn [snd]. destruct (plain_stop_retired id f2 L1) as (S1 & S2 & S3). split; [done|].
    assert (Hdr : drained (stop_retired id f2).2 = drained f ++ [id]) by congruence. rewrite L2, H3 in S3. split.
    + intros x [Hx Hi]. rewrite Hdr, elem_of_app, list_elem_of_singleton in Hx. destruct Hx as [Hx| ->]; [split; [done|by apply S3]|]. rewrite stop_retired_cools in Hi. by destruct Hi.
    + intros x. rewrite Hdr, elem_of_app, list_elem_of_singleton. done.
  - split; [done|]. split; [|intros x; cbn; rewrite L3, H2; by left]. intros x [Hx Hi]. cbn in *. split; [by rewrite L3, H2 in Hx|by rewrite L2, H3 in Hi].
Qed.

Lemma drain_surplus_ok rg candidates : forall live target f, fleet_ok f -> NoDup candidates.*1.*1 -> (forall c, c ∈ candidates -> c.1.1 ∉ drained f) ->
  let f' := (drain_surplus rg candidates live target f).2 in fleet_ok f' /\ forall x, hot f' x -> hot f x.
Proof.
  induction candidates as [|[[id gen] since] rest IH]; intros live target f Hok Hn Hc; cbn [drain_surplus]; [done|]. destruct (live <=? target); [done|]. rewrite bind_run.
  destruct (try_drain_ok rg target id gen f Hok (Hc _ ltac:(by left))) as (T1 & T2 & T3). rewrite !fmap_cons, NoDup_cons in Hn. destruct Hn as [Hn1 Hn2].
  destruct (IH (if (try_drain_one rg target id gen f).1 then live - 1 else live) target _ T1 Hn2) as (K1 & K2).
  - intros c Hin Hd. destruct (T3 _ Hd) as [H|E]; [by apply (Hc c); [by right|]|]. apply Hn1. cbn. rewrite <- E. apply list_elem_of_fmap. exists c.1. split; [done|]. apply list_elem_of_fmap. by exists c.
  - split; [done|auto].
Qed.

(** The snapshot's relays that a scale-down may pick are not hot. *)
Definition fresh_snapshot (enrolled : list EnrolledRelay) (f : Fleet) : Prop :=
  NoDup (er_id <$> enrolled) /\ forall r, r ∈ enrolled -> er_draining r = false -> ~ hot f (er_id r).

Lemma candidates_elem idle rg enrolled now c : c ∈ drain_candidates cfg idle rg enrolled now ->
  exists r, r ∈ enrolled /\ er_draining r = false /\ er_id r = c.1.1 /\ is_Some (idle !! er_id r).
Proof.
  unfold drain_candidates. rewrite merge_sort_Permutation. intros (r & [Hr Hin]%list_elem_of_filter & E)%list_elem_of_omap. exists r. unfold in_region in Hr.
  destruct (idle !! er_id r) as [since|] eqn:Ei; [|done]. cbn in E. destruct (_ <=? _); [|done]. injection E as <-. destruct (er_draining r); [done|]. by repeat split.
Qed.

Lemma candidates_nodup idle rg enrolled now : NoDup (er_id <$> enrolled) -> NoDup (drain_candidates cfg idle rg enrolled now).*1.*1.
Proof.
  intros Hn. unfold drain_candidates. rewrite merge_sort_Permutation. set (sel := fun r => _).
  assert (Hsub : forall l, NoDup (er_id <$> l) -> NoDup (omap sel l).*1.*1 /\ forall id, id ∈ (omap sel l).*1.*1 -> id ∈ er_id <$> l).
  { intros l. induction l as [|r l IH]; [done|]. rewrite fmap_cons. intros [H1 H2]%NoDup_cons. destruct (IH H2) as [I1 I2]. cbn. destruct (sel r) as [c|] eqn:Es.
    - assert (Ec : c.1.1 = er_id r).
      { unfold sel in Es. destruct (idle !! er_id r); [|done]. cbn in Es. destruct (_ <=? _); [|done]. by injection Es as <-. }
      rewrite !fmap_cons, Ec. split; [apply NoDup_cons; split; [intros H; by apply H1, I2|done]|]. intros id [->|H]%elem_of_cons; [by left|right; by apply I2].
    - split; [done|]. intros id H. right. by apply I2. }
  apply Hsub. eapply sublist_NoDup; [exact Hn|]. apply fmap_sublist, sublist_filter.
Qed.

Lemma scale_down_ok rg enrolled live target now f : fleet_ok f -> fresh_snapshot enrolled f ->
  let f' := (scale_down cfg rg enrolled live target now f).2 in fleet_ok f' /\ forall x, hot f' x -> hot f x.
Proof.
  intros Hok [Hn Hf]. unfold scale_down. destruct (live <=? target); [done|]. rewrite bind_run. cbn [gets fst snd]. apply drain_surplus_ok; [done|by apply candidates_nodup|].
  intros c Hc Hd. destruct (candidates_elem _ _ _ _ _ Hc) as (r & Hr & Hdr & E & Hi). apply (Hf r Hr Hdr). by rewrite E in *.
Qed.

Lemma retire_locked_ok replacements r f : fleet_ok f ->
  let '(b, f') := retire_locked replacements r f in
  fleet_ok f' /\ idle_since f' = idle_since f /\ drained f' = (match b with Some true => drained f ++ [er_id r] | _ => drained f end).
Proof.
  intros Hok. unfold retire_locked. rewrite bind_run. cbn [gets fst snd]. destruct (negb _ && negb _); [done|]. rewrite bind_run. unfold act.
  pose proof (mark_spec f (er_id r) (er_generation r) Hok) as Hm. cbn zeta in Hm. destruct (mark_draining (fl_registry f) (er_id r) (er_generation r)) as [marked g]. cbn [fst snd] in *.
  set (f1 := put_registry g f) in *. destruct Hm as (M1 & M2 & M3 & M4 & M5). destruct marked; cbn [negb]; [|done]. destruct (M5 eq_refl) as [M6 M7]. rewrite bind_run. cbn [gets fst snd]. rewrite bind_run.
  destruct (Z.eqb_spec (session_count_for_relay (fl_setup f1) (er_id r)) 0) as [Hs|Hs]; [|done].
  pose proof (tombstone_ok (er_id r) f1 M1 M6 M7 Hs) as Ht. destruct (tombstone_locked (er_id r) f1) as [b f2]. destruct Ht as (T1 & T2 & T3 & _). cbn [fst snd]. unfold mret, M_ret. destruct b; rewrite T3; done.
Qed.

(** Retiring one relay, when it comes to it. *)
Lemma retire_block_ok replacements r f : fleet_ok f ->
  let p := (call ≫= (fun _ => retire_locked replacements r ≫= (fun idle => match idle with
              | None => mret r
              | Some idle => (if idle : bool then stop_retired (er_id r) else mret tt) ≫= (fun _ => mret (set_er_draining r)) end))) f in
  fleet_ok p.2 /\ (forall x, hot p.2 x -> hot f x) /\ (p.1 = r \/ p.1 = set_er_draining r).
Proof.
  intros Hok p. unfold p. rewrite !bind_run. destruct (call_ok f Hok) as (H1 & H2 & H3). set (f1 := (call f).2) in *.
  pose proof (retire_locked_ok replacements r f1 H1) as Hl. destruct (retire_locked replacements r f1) as [b f2]. destruct Hl as (L1 & L2 & L3). cbn [fst snd].
  assert (Hsame : drained f2 = drained f1 -> forall x, hot f2 x -> hot f x) by (intros E x [Hx Hi]; split; [by rewrite E, H2 in Hx|by rewrite L2, H3 in Hi]).
  destruct b as [[]|]; [|by split; [|split; [apply Hsame|right]]|by split; [|split; [apply Hsame|left]]].
  rewrite bind_run. change ((mret (set_er_draining r) : M EnrolledRelay) (stop_retired (er_id r) f2).2) with (set_er_draining r, (stop_retired (er_id r) f2).2). cbn [fst snd].
  destruct (plain_stop_retired (er_id r) f2 L1) as (S1 & S2 & S3). split; [done|]. split; [|by right]. rewrite L2, H3 in S3. intros x [Hx Hi].
  rewrite S2, L3, H2, elem_of_app, list_elem_of_singleton in Hx. destruct Hx as [Hx| ->]; [split; [done|by apply S3]|]. rewrite stop_retired_cools in Hi. by destruct Hi.
Qed.

Lemma retire_each_ok rg aged replacements enrolled : forall f, fleet_ok f ->
  let p := retire_each rg aged replacements enrolled f in
  fleet_ok p.2 /\ (forall x, hot p.2 x -> hot f x) /\ er_id <$> p.1 = er_id <$> enrolled /\ forall r, r ∈ p.1 -> er_draining r = false -> r ∈ enrolled.
Proof.
  induction enrolled as [|r rest IH]; intros f Hok; cbn [retire_each]; [done|]. cbn zeta. rewrite bind_run.
  set (m := if negb (bool_decide (er_region r = Some rg)) || _ then _ else _).
  assert (Hm : fleet_ok (m f).2 /\ (forall x, hot (m f).2 x -> hot f x) /\ ((m f).1 = r \/ (m f).1 = set_er_draining r)).
  { unfold m. destruct (negb _ || negb _); [split; [done|split; [done|by left]]|]. destruct (negb _ && _); [split; [done|split; [done|by left]]|]. by apply retire_block_ok. }
  destruct (m f) as [r' f1]. cbn [fst snd] in *. destruct Hm as (M1 & M2 & M3). rewrite bind_run. destruct (IH f1 M1) as (I1 & I2 & I3 & I4).
  destruct (retire_each rg aged replacements rest f1) as [rest' f2]. cbn [fst snd] in *. unfold mret, M_ret. cbn [fst snd]. split; [done|]. split; [auto|]. split.
  - rewrite !fmap_cons, I3. f_equal. by destruct M3 as [->| ->].
  - intros x [->|Hx]%elem_of_cons Hdr; [|right; by apply I4]. destruct M3 as [->| ->]; [by left|done].
Qed.

Lemma plain_launch fuel rg now : forall live launching target, plain (launch_missing cfg fuel rg live launching target now).
Proof.
  induction fuel as [|fuel IH]; intros live launching target; cbn [launch_missing]; [apply plain_ret|]. destruct (_ <? target); [|apply plain_ret].
  apply plain_bind; [by apply (plain_ledger_write _ (fun n fault => DbMint now (Some rg) (launch_deadline cfg) (random_token n) fault))|]. intros [m|e]; [|apply plain_ret].
  apply plain_bind; [apply plain_call|]. intros n. destruct (p_launch n _) as [task|].
  - apply plain_bind; [apply plain_note_launch|]. intros _. apply plain_bind; [by apply (plain_ledger_write _ (fun n fault => DbRecordLaunch (minted_id m) task fault))|]. intros [u|e].
    + apply IH.
    + apply plain_bind; [apply plain_stop|]. intros _. apply plain_bind; [apply plain_retire|]. intros _. apply plain_ret.
  - apply plain_bind; [apply plain_retire|]. intros _. apply plain_ret.
Qed.

Lemma plain_scale_up rg live target now : plain (scale_up cfg rg live target now).
Proof. apply plain_bind; [apply plain_ledger_read|]. intros [n|e]; [apply plain_launch|apply plain_ret]. Qed.

(** Nothing but the loop's own writes gives a row addresses. *)
Definition unrecorded (f : Fleet) (id : Z) : Prop := rows (fl_ledger f) !! as_i64 id ≫= lr_addrs = None.

Lemma fleet_step_addrs f o id : unrecorded f id -> unrecorded (fleet_step f o) id.
Proof.
  unfold unrecorded. destruct o as [o|now h boot peer read write|i fault|id' gen|id' gen|rg ttl now]; cbn [fleet_step]; try done.
  - by destruct (setup_only o).
  - unfold authorize. pose proof (authorize_cases (fl_ledger f) now (hello_id h) (cert_fingerprint (hello_cert h)) (hello_enroll_token h) peer read write) as Hc. cbn zeta in Hc.
    destruct (authorize_enroll_at _ _ _ _ _ _ _ _) as [r l]. cbn [fst snd] in *. intros Hu.
    assert (Hl : rows l !! as_i64 id ≫= lr_addrs = None).
    { destruct Hc as [[-> _]|(a & row & tok & _ & Hr & _ & _ & _ & _ & _ & _ & -> & _)]; [done|]. cbn. destruct (decide (as_i64 (hello_id h) = as_i64 id)) as [E|E]; [|by rewrite lookup_insert_ne].
      rewrite E, lookup_insert_eq. cbn. by rewrite <- E, Hr in Hu. }
    destruct r as [a|]; [|done]. by destruct (ae_addrs a).
  - destruct (authorized f !! i) as [[h boot]|]; [|done]. unfold enroll_locked. destruct (is_retired _ _ _) as [[]|]; try done. destruct (try_enroll _ _) as [[gen g]|]; [|done]. by destruct (negb _ && negb _).
Qed.

Lemma call_addrs f id : unrecorded f id -> unrecorded (call f).2 id.
Proof.
  unfold call. cbn [snd]. change (unrecorded (next_call ?x) id) with (unrecorded x id). generalize (meanwhile (calls f)). intros ops. revert f.
  induction ops as [|o ops IH]; intros f Hu; [done|]. by apply IH, fleet_step_addrs.
Qed.

Lemma retire_addrs f id id' : unrecorded f id -> unrecorded (retire_relay id' f).2 id.
Proof.
  intros Hu. unfold retire_relay. rewrite bind_run. apply call_addrs in Hu. revert Hu. generalize (call f).2 (call f).1. intros f1 n. unfold retire_now, retire, unrecorded.
  destruct (db_fault n); [done|]. cbn. destruct (rows (fl_ledger f1) !! as_i64 id') as [r|] eqn:Er; [|done]. case_bool_decide; [|done]. cbn. intros Hu.
  destruct (decide (as_i64 id' = as_i64 id)) as [E|E]; [|by rewrite lookup_insert_ne]. rewrite E, lookup_insert_eq. cbn. by rewrite <- E, Er in Hu.
Qed.

Lemma poll_ok now p f : fleet_ok f -> unrecorded f (pt_relay p.1) ->
  let f' := (poll_launch now p f).2 in
  fleet_ok f' /\ drained f' = drained f /\ (forall id, is_Some (idle_since f' !! id) -> is_Some (idle_since f !! id)) /\
  forall id, as_i64 id <> as_i64 (pt_relay p.1) -> unrecorded f id -> unrecorded f' id.
Proof.
  intros Hok Hu. unfold poll_launch. destruct (pt_task_arn p.1) as [task|]; [|done]. cbn zeta. rewrite bind_run. destruct (call_ok f Hok) as (H1 & H2 & H3).
  pose proof (call_addrs f) as Hc. set (f1 := (call f).2) in *. set (n := (call f).1) in *.
  assert (Hsame : fleet_ok f1 /\ drained f1 = drained f /\ (forall id, is_Some (idle_since f1 !! id) -> is_Some (idle_since f !! id)) /\
    forall id, as_i64 id <> as_i64 (pt_relay p.1) -> unrecorded f id -> unrecorded f1 id) by (split; [done|]; split; [done|]; split; [by rewrite H3|]; auto).
  destruct (p_state n task) as [[|ips addrs|]|]; try done.
  - destruct (_ && _ && _); [done|]. rewrite bind_run. unfold mret, M_ret. cbn [snd]. unfold ledger_write. rewrite bind_run. destruct (call_ok f1 H1) as (K1 & K2 & K3).
    pose proof (call_addrs f1) as Hc1. set (f2 := (call f1).2) in *. generalize (call f1).1. intros n2. clearbody f2. unfold act.
    pose proof (step_keeps (fl_ledger f2) (DbRecordTask (pt_relay p.1) task ips addrs (db_fault n2)) (fo_ledger _ K1) (fo_recorded _ K1)) as Hk. cbn [ledger_step] in Hk.
    assert (Hw : writes_fresh (fl_ledger f2) (DbRecordTask (pt_relay p.1) task ips addrs (db_fault n2))).
    { unfold writes_fresh. destruct (db_fault n2); [done|]. intros r Hr. pose proof (Hc1 _ (Hc _ Hu)) as Hu2. unfold unrecorded in Hu2. by rewrite Hr in Hu2. }
    specialize (Hk Hw). destruct (record_task _ _ _ _ _ _) as [r l] eqn:Er. cbn [snd] in *. split; [by apply ledger_change|]. split; [change (drained f2 = drained f); congruence|]. split; [change (forall id, is_Some (idle_since f2 !! id) -> is_Some (idle_since f !! id)); by rewrite K3, H3|].
    intros id Hne Hid. pose proof (Hc1 _ (Hc _ Hid)) as Hid2. change (rows l !! as_i64 id ≫= lr_addrs = None). unfold unrecorded in Hid2. unfold record_task in Er. destruct (db_fault n2); [by injection Er as _ <-|]. injection Er as _ <-.
    destruct (rows (fl_ledger f2) !! as_i64 (pt_relay p.1)); [|exact Hid2]. unfold put_row. cbn [rows]. by rewrite lookup_insert_ne.
  - rewrite bind_run. unfold mret, M_ret. cbn [snd]. destruct (plain_retire (pt_relay p.1) f1 H1) as (K1 & K2 & K3). split; [done|]. split; [congruence|]. split; [by rewrite H3 in K3|].
    intros id _ Hid. by apply retire_addrs, Hc.
Qed.

Lemma as_u64_round id : 1 <= id < 2 ^ 63 -> as_i64 (as_u64 id) = id.
Proof. intros H. unfold as_u64. rewrite Z.mod_small by lia. unfold as_i64. destruct (Z.ltb_spec id (2 ^ 63)); lia. Qed.

Lemma plain_resolve now : plain (resolve_pending now).
Proof.
  intros f Hok. unfold resolve_pending. rewrite bind_run. unfold ledger_read. rewrite bind_run. destruct (call_ok f Hok) as (H1 & H2 & H3). set (f1 := (call f).2) in *. cbn [gets fst snd].
  generalize (call f).1. intros n. clearbody f1. unfold unrecorded_launches, select. destruct (db_fault n); [split; [done|]; split; [done|]; cbn; by rewrite H3|]. set (l := filter _ (map_to_list (rows (fl_ledger f1)))).
  assert (Hl : NoDup l.*1 /\ forall p, p ∈ l -> rows (fl_ledger f1) !! p.1 = Some p.2 /\ lr_addrs p.2 = None).
  { split; [eapply sublist_NoDup; [apply (NoDup_fst_map_to_list (rows (fl_ledger f1)))|apply fmap_sublist, sublist_filter]|].
    intros [id r] [Hp Hin%elem_of_map_to_list]%list_elem_of_filter. split; [done|]. cbn in *. by destruct (unretired r), (bool_decide _), (bool_decide_reflect (lr_addrs r = None)). }
  assert (Hgo : forall l' f', fleet_ok f' -> NoDup l'.*1 -> (forall p, p ∈ l' -> as_i64 (as_u64 p.1) = p.1 /\ unrecorded f' (as_u64 p.1)) ->
    let f2 := (for_each (poll_launch now) ((fun p => (row_to_provisioned_task p, as_u64 (lr_launched_at p.2))) <$> l') f').2 in
    fleet_ok f2 /\ drained f2 = drained f' /\ forall id, is_Some (idle_since f2 !! id) -> is_Some (idle_since f' !! id)).
  { intros l'. induction l' as [|p l' IH]; intros f' K1 K2 K3; [done|]. rewrite !fmap_cons in *. cbn [for_each]. cbn zeta. rewrite bind_run. apply NoDup_cons in K2 as [K2 K4].
    destruct (K3 p ltac:(by left)) as [Ep Hp]. destruct (poll_ok now (row_to_provisioned_task p, as_u64 (lr_launched_at p.2)) f' K1 Hp) as (P1 & P2 & P3 & P4).
    destruct (IH _ P1 K4) as (Q1 & Q2 & Q3); [|split; [done|split; [congruence|auto]]]. intros q Hq. destruct (K3 q ltac:(by right)) as [Eq Hu]. split; [done|]. apply P4; [|done].
    cbn. rewrite Eq, Ep. intros E. apply K2. rewrite <- E. apply list_elem_of_fmap. by exists q. }
  destruct (Hgo l f1 H1 (proj1 Hl)) as (G1 & G2 & G3).
  - intros p Hp. destruct (proj2 Hl p Hp) as [Hr Ha]. assert (Er : as_i64 (as_u64 p.1) = p.1).
    { apply as_u64_round. destruct (lo_ids _ (fo_ledger _ H1) p.1) as [B1 B2]; [by rewrite Hr|]. pose proof (lo_next _ (fo_ledger _ H1)). lia. }
    split; [done|]. unfold unrecorded. rewrite Er, Hr. done.
  - cbn [fst snd] in *. rewrite <- H2, <- H3. done.
Qed.

Lemma plain_deadline now : plain (launch_deadline_sweep now).
Proof.
  apply plain_bind; [apply plain_ledger_read|]. intros [expired|e]; [|apply plain_ret]. apply plain_for_each. intros p _.
  apply plain_bind; [destruct (pt_task_arn p); [apply plain_stop|apply plain_ret]|]. intros _. apply plain_bind; [apply plain_retire|]. intros _. apply plain_idle.
Qed.

Lemma plain_vanished : plain vanished_task_sweep.
Proof.
  apply plain_bind; [apply plain_ledger_read|]. intros [bound|e]; [|apply plain_ret]. apply plain_for_each. intros p _. apply plain_bind; [apply plain_observe|]. intros [].
  { apply plain_ret. }
  destruct (pt_task_arn p) as [arn|]; [|apply plain_ret]. apply plain_bind; [apply plain_call|]. intros n. destruct (p_state n arn) as [[]|]; try apply plain_ret.
  apply plain_bind; [apply plain_retire|]. intros _. apply plain_idle.
Qed.

Lemma plain_orphan : plain orphan_sweep.
Proof.
  apply plain_bind; [apply plain_call|]. intros n. destruct (p_list n) as [tasks|]; [|apply plain_ret]. apply plain_bind; [apply plain_ledger_read|]. intros [accounted|e]; [|apply plain_ret].
  apply plain_for_each. intros t _. destruct (bool_decide _); [apply plain_ret|]. apply plain_bind; [apply plain_stop|]. intros _. apply plain_ret.
Qed.

Lemma finish_locked_ok r f : fleet_ok f ->
  let '(b, f') := finish_locked r f in fleet_ok f' /\ idle_since f' = idle_since f /\ drained f' = (if b then drained f ++ [er_id r] else drained f).
Proof.
  intros Hok. unfold finish_locked. rewrite bind_run. cbn [gets fst snd]. destruct (is_draining_at (fl_registry f) (er_id r) (er_generation r)) eqn:Ed; cbn [andb]; [|done].
  destruct (Z.eqb_spec (session_count_for_relay (fl_setup f) (er_id r)) 0) as [Hs|Hs]; [|done]. unfold is_draining_at in Ed. destruct (relays (fl_registry f) !! er_id r) as [x|] eqn:Ex; [|done].
  pose proof (tombstone_ok (er_id r) f Hok) as Ht. rewrite Ex in Ht. unfold is_available in Ht. rewrite Ex in Ht. destruct (draining x); [|by rewrite andb_false_r in Ed].
  specialize (Ht ltac:(by eexists) eq_refl Hs). destruct (tombstone_locked (er_id r) f) as [b f']. by destruct Ht as (T1 & T2 & T3 & _).
Qed.

Lemma safe_finish : safe finish_drains.
Proof.
  apply safe_bind; [apply plain_safe, plain_ledger_read|]. intros [bound|e]; [|apply plain_safe, plain_ret]. apply safe_bind; [apply plain_safe, plain_observe|]. intros enrolled.
  apply safe_for_each. intros r. destruct (negb _ || negb _); [apply plain_safe, plain_ret|]. intros f Hok. rewrite !bind_run. destruct (call_ok f Hok) as (H1 & H2 & H3). set (f1 := (call f).2) in *. clearbody f1.
  pose proof (finish_locked_ok r f1 H1) as Hl. destruct (finish_locked r f1) as [b f2]. destruct Hl as (L1 & L2 & L3). cbn [fst snd]. destruct b.
  - destruct (plain_stop_retired (er_id r) f2 L1) as (S1 & S2 & S3). split; [done|]. rewrite L2, H3 in S3. intros x [Hx Hi]. rewrite S2, L3, H2, elem_of_app, list_elem_of_singleton in Hx.
    destruct Hx as [Hx| ->]; [split; [done|by apply S3]|]. rewrite stop_retired_cools in Hi. by destruct Hi.
  - split; [done|]. intros x [Hx Hi]. cbn in *. split; [by rewrite L3, H2 in Hx|by rewrite L2, H3 in Hi].
Qed.

Lemma plain_coverage rg covered now : plain (coverage_demand cfg rg covered now).
Proof.
  intros f [H1 H2 H3 H4 H5 H6]. unfold coverage_demand. destruct (region_pair_coverage _ _ _) as [have total]. destruct (coverage_demand_of _ _ _ _) as [[d s] b].
  split; [|done]. split; try done. intros x Hx. by destruct (H6 x Hx).
Qed.

Lemma scale_regions_ok regions aged covered now : forall enrolled f, fleet_ok f -> fresh_snapshot enrolled f ->
  let f' := (scale_regions cfg regions enrolled aged covered now f).2 in fleet_ok f'.
Proof.
  induction regions as [|rg regions IH]; intros enrolled f Hok Hf; [done|]. cbn [scale_regions]. cbn zeta. rewrite bind_run.
  assert (Hkeep : forall A (m : M A) g, safe m -> fleet_ok g -> fresh_snapshot enrolled g -> fleet_ok (m g).2 /\ fresh_snapshot enrolled (m g).2).
  { intros A m g Hm K1 [K2 K3]. destruct (Hm g K1) as [M1 M2]. split; [done|]. split; [done|]. intros r Hr Hd Hh. by apply (K3 r Hr Hd), M2. }
  destruct (Hkeep _ _ f (plain_safe _ (plain_observe (fun f => target_at (fl_setup f) rg now))) Hok Hf) as [K1 K2]. destruct (observe _ f) as [wt f1]. cbn [fst snd] in *. rewrite bind_run.
  destruct (Hkeep _ _ f1 (plain_safe _ (plain_coverage rg covered now)) K1 K2) as [K3 K4]. destruct (coverage_demand cfg rg covered now f1) as [ct f2]. cbn [fst snd] in *. rewrite bind_run.
  destruct (Hkeep _ _ f2 (plain_safe _ (plain_scale_up rg (count_in_region rg aged enrolled) (Z.max wt ct) now)) K3 K4) as [K5 K6].
  destruct (scale_up cfg rg _ _ now f2) as [u f3]. cbn [fst snd] in *. rewrite bind_run.
  destruct (retire_each_ok rg aged (er_id <$> filter (fun r => in_region rg r = true /\ er_id r ∉ aged) enrolled) enrolled f3 K5) as (R1 & R2 & R3 & R4).
  change (retire_aged rg enrolled aged f3) with (retire_each rg aged (er_id <$> filter (fun r => in_region rg r = true /\ er_id r ∉ aged) enrolled) enrolled f3). destruct (retire_each rg aged _ enrolled f3) as [enrolled' f4]. cbn [fst snd] in *. rewrite bind_run.
  assert (Hf4 : fresh_snapshot enrolled' f4).
  { destruct K6 as [N1 N2]. split; [by rewrite R3|]. intros r Hr Hd Hh. by apply (N2 r (R4 r Hr Hd) Hd), R2. }
  destruct (scale_down_ok rg enrolled' (count_in_region rg [] enrolled') (Z.max wt ct) now f4 R1 Hf4) as [S1 S2].
  apply IH; [done|]. destruct Hf4 as [N1 N2]. split; [done|]. intros r Hr Hd Hh. by apply (N2 r Hr Hd), S2.
Qed.

(** The timers of a fresh snapshot start; no drain completes. *)
Lemma refresh_ok enrolled now f : fleet_ok f -> fleet_ok (refresh_idle enrolled now f).2 /\ drained (refresh_idle enrolled now f).2 = drained f.
Proof.
  intros Hok. unfold refresh_idle. rewrite bind_run. cbn [modify fst snd]. set (f1 := set_idle _ f).
  assert (H1 : fleet_ok f1 /\ drained f1 = drained f) by (split; [by apply idle_change|done]). destruct H1 as [H1 E1]. rewrite <- E1. clearbody f1. clear Hok E1 f. revert f1 H1.
  induction enrolled as [|r rest IH]; intros f Hok; [done|]. cbn [for_each]. rewrite !bind_run. destruct (plain_observe (fun f => session_count_for_relay (fl_setup f) (er_id r)) f Hok) as (K1 & K2 & _).
  destruct (observe _ f) as [count f1]. cbn [fst snd modify] in *. set (f2 := if count =? 0 then _ else _).
  assert (H2 : fleet_ok f2 /\ drained f2 = drained f1).
  { unfold f2. destruct (count =? 0); [destruct (bool_decide _)|]; (split; [|done]); [done|by apply idle_change|by apply idle_change]. }
  destruct H2 as [H2 E2]. destruct (IH f2 H2) as [I1 I2]. split; [done|congruence].
Qed.

Lemma enrolled_fresh g : keyed g -> NoDup (er_id <$> enrolled_relays g) /\ forall r, r ∈ enrolled_relays g -> er_draining r = false -> is_available g (er_id r) = true.
Proof.
  intros Hk. unfold enrolled_relays. split.
  - rewrite <- list_fmap_compose. unfold compose. cbn. rewrite <- list_fmap_compose.
    erewrite (list_fmap_ext _ fst); [apply NoDup_fst_map_to_list|]. intros i [id r] Hi%list_elem_of_lookup_2%elem_of_map_to_list. cbn. by apply Hk.
  - intros r (x & -> & ([id y] & -> & Hy%elem_of_map_to_list)%list_elem_of_fmap)%list_elem_of_fmap. cbn. intros Hd. unfold is_available. rewrite (Hk _ _ Hy), Hy. by rewrite Hd.
Qed.

Lemma tick_ok now f : fleet_ok f -> fleet_ok (tick cfg now f).2.
Proof.
  intros Hok. unfold tick. rewrite bind_run. destruct (call_ok f Hok) as (H1 & _). destruct (observe _ f) as [enrolled f1] eqn:Eo. cbn [fst snd].
  unfold observe in Eo. rewrite bind_run in Eo. injection Eo as Ee Ef. change (next_call (foldl fleet_step f (meanwhile (calls f)))) with (call f).2 in *. rewrite Ef in *. clear Ef f Hok.
  destruct (enrolled_fresh (fl_registry f1) (fo_keyed _ H1)) as [N1 N2]. rewrite Ee in *.
  assert (Hnd : forall r, r ∈ enrolled -> er_draining r = false -> er_id r ∉ drained f1).
  { intros r Hr Hd Hin. pose proof (qu_unavailable _ _ (fo_drained _ H1 _ Hin)) as Hu. rewrite (N2 r Hr Hd) in Hu. done. }
  rewrite bind_run. destruct (refresh_ok enrolled now f1 H1) as [R1 R2]. destruct (refresh_idle enrolled now f1) as [u f2]. cbn [fst snd] in *. rewrite bind_run.
  assert (Ha : plain (aged_relays cfg enrolled now)).
  { unfold aged_relays. destruct (max_relay_age cfg); [|apply plain_ret]. apply plain_bind; [apply plain_ledger_read|]. intros []; apply plain_ret. }
  destruct (Ha f2 R1) as (A1 & A2 & _). destruct (aged_relays cfg enrolled now f2) as [aged f3]. cbn [fst snd] in *. rewrite bind_run.
  destruct (plain_observe (fun f => covered_pairs (pair_rtts (fl_setup f))) f3 A1) as (O1 & O2 & _). destruct (observe _ f3) as [covered f4]. cbn [fst snd] in *. rewrite bind_run.
  assert (S1 : fleet_ok (scale_regions cfg (cfg_regions cfg) enrolled aged covered now f4).2).
  { apply scale_regions_ok; [done|]. split; [done|]. intros r Hr Hd [Hin _]. apply (Hnd r Hr Hd). congruence. }
  destruct (scale_regions _ _ _ _ _ _ f4) as [u' f5]. cbn [fst snd] in *.
  assert (Hrest : safe (resolve_pending now ≫= (fun _ => finish_drains ≫= (fun _ => launch_deadline_sweep now ≫= (fun _ => vanished_task_sweep ≫= (fun _ => orphan_sweep)))))).
  { apply safe_bind; [apply plain_safe, plain_resolve|]. intros _. apply safe_bind; [apply safe_finish|]. intros _. apply safe_bind; [apply plain_safe, plain_deadline|]. intros _.
    apply safe_bind; [apply plain_safe, plain_vanished|]. intros _. apply plain_safe, plain_orphan. }
  exact (proj1 (Hrest f5 S1)).
Qed.

Lemma fleet_run_ok acts : forall f, fleet_ok f -> fleet_ok (fleet_run cfg f acts).
Proof.
  induction acts as [|a acts IH]; intros f Hok; [done|]. change (fleet_run cfg f (a :: acts)) with (fleet_run cfg (fleet_act cfg f a) acts). apply IH. destruct a as [o|now]; cbn [fleet_act].
  - by apply fleet_step_ok.
  - destruct (_ =? _); [done|by apply tick_ok].
Qed.

Lemma new_fleet_ok s : relays (registry s) = ∅ -> fleet_ok (new_fleet s).
Proof.
  intros Hr. split.
  - apply new_ledger_ok.
  - intros id row. change (rows (fl_ledger (new_fleet s))) with (∅ : gmap Z LedgerRow). by rewrite lookup_empty.
  - intros id r. change (fl_registry (new_fleet s)) with (registry s). by rewrite Hr, lookup_empty.
  - intros id r. change (fl_registry (new_fleet s)) with (registry s). by rewrite Hr, lookup_empty.
  - intros h boot H. by apply not_elem_of_nil in H.
  - intros id H. by apply not_elem_of_nil in H.
Qed.

(** ** The record of completed drains only grows *)

Definition mono {A} (m : M A) : Prop := forall f x, x ∈ drained f -> x ∈ drained (m f).2.

Lemma mono_bind {A B} (m : M A) (k : A -> M B) : mono m -> (forall x, mono (k x)) -> mono (m ≫= k).
Proof. intros Hm Hk f x Hx. rewrite bind_run. by apply Hk, Hm. Qed.
Lemma mono_for_each {A} (body : A -> M unit) l : (forall x, mono (body x)) -> mono (for_each body l).
Proof. intros Hb. induction l as [|y l IH]; cbn [for_each]; [by intros f x Hx|]. by apply mono_bind. Qed.
Lemma mono_meanwhile ops : forall f, drained (foldl fleet_step f ops) = drained f.
Proof. induction ops as [|o ops IH]; intros f; [done|]. cbn [foldl]. rewrite IH. apply fleet_step_keeps. Qed.
Lemma mono_call : mono call.
Proof. intros f x Hx. unfold call. cbn. by rewrite mono_meanwhile. Qed.
Lemma mono_retire_now n id : mono (retire_now n id).
Proof. intros f x Hx. unfold retire_now. by destruct (retire _ _ _ _) as [[] l]. Qed.
Lemma mono_drained id : mono (modify (note_drained id)).
Proof. intros f x Hx. cbn. apply elem_of_app. by left. Qed.
Lemma mono_act {A} (g : RelayLedger -> A * RelayLedger) : mono (act (fun f => let '(r, l) := g (fl_ledger f) in (r, set_fl_ledger l f))).
Proof. intros f x Hx. unfold act. by destruct (g (fl_ledger f)). Qed.
Lemma mono_mark id gen : mono (act (fun f => let '(b, g) := mark_draining (fl_registry f) id gen in (b, put_registry g f))).
Proof. intros f x Hx. unfold act. by destruct (mark_draining _ _ _). Qed.
Lemma mono_coverage rg covered now : mono (coverage_demand cfg rg covered now).
Proof. intros f x Hx. unfold coverage_demand. destruct (region_pair_coverage _ _ _) as [have total]. by destruct (coverage_demand_of _ _ _ _) as [[d s] b]. Qed.

(** Follows a program down to its steps. *)
Ltac mono :=
  repeat first
    [ apply mono_bind; [|intros ?] | apply mono_for_each; intros ? | apply mono_call | apply mono_retire_now | apply mono_drained | apply mono_act | apply mono_mark | apply mono_coverage
    | solve [let H := fresh in intros ? ? H; exact H]
    | match goal with |- mono (match ?x with _ => _ end) => destruct x end ].

Lemma mono_ledger_write {A E} (q : RelayLedger -> nat -> bool -> result A E * RelayLedger) : mono (ledger_write q).
Proof. unfold ledger_write. apply mono_bind; [apply mono_call|]. intros n. apply (mono_act (fun l => q l n (db_fault n))). Qed.
Lemma mono_stop_retired id : mono (stop_retired id).
Proof. unfold stop_retired, ledger_read, stop_task. mono. Qed.
Lemma mono_retire id : mono (retire_relay id).
Proof. unfold retire_relay. mono. Qed.
Lemma mono_tombstone id : mono (tombstone_locked id).
Proof. unfold tombstone_locked, locked_call. mono. Qed.
Lemma mono_launch fuel rg now : forall live launching target, mono (launch_missing cfg fuel rg live launching target now).
Proof.
  induction fuel as [|fuel IH]; intros live launching target; cbn [launch_missing]; [by intros f x Hx|]. destruct (_ <? target); [|by intros f x Hx].
  apply mono_bind; [apply mono_ledger_write|]. intros [m|e]; [|by intros f x Hx]. apply mono_bind; [apply mono_call|]. intros n. destruct (p_launch n _); [|unfold retire_relay; mono].
  apply mono_bind; [by intros f x Hx|]. intros _. apply mono_bind; [apply mono_ledger_write|]. intros [u|e]; [apply IH|]. unfold stop_task, retire_relay. mono.
Qed.
Lemma mono_drain_surplus rg candidates : forall live target, mono (drain_surplus rg candidates live target).
Proof.
  induction candidates as [|[[id gen] i] rest IH]; intros live target; cbn [drain_surplus]; [by intros f x Hx|]. destruct (_ <=? _); [by intros f x Hx|].
  apply mono_bind; [|intros b; apply IH]. unfold try_drain_one, drain_locked. mono; first [apply mono_tombstone|apply mono_stop_retired].
Qed.
Lemma mono_retire_each rg aged replacements enrolled : mono (retire_each rg aged replacements enrolled).
Proof.
  induction enrolled as [|r rest IH]; cbn [retire_each]; [by intros f x Hx|]. apply mono_bind; [|intros r'; apply mono_bind; [exact IH|by intros l f x Hx]].
  unfold retire_locked. mono; first [apply mono_tombstone|apply mono_stop_retired].
Qed.
Lemma mono_scale regions aged covered now : forall enrolled, mono (scale_regions cfg regions enrolled aged covered now).
Proof.
  induction regions as [|rg regions IH]; intros enrolled; cbn [scale_regions]; [by intros f x Hx|]. unfold observe, scale_up, ledger_read, retire_aged, scale_down.
  mono; first [apply mono_launch|apply mono_retire_each|apply mono_drain_surplus|apply IH].
Qed.
Lemma mono_tick now : mono (tick cfg now).
Proof.
  unfold tick, observe, refresh_idle, aged_relays, ledger_read, resolve_pending, poll_launch, finish_drains, finish_locked, launch_deadline_sweep, vanished_task_sweep, orphan_sweep, observe, ledger_read, stop_task.
  mono; first [apply mono_scale|apply mono_ledger_write|apply mono_retire|apply mono_tombstone|apply mono_stop_retired|intros f y Hy; cbn; by repeat case_match|intros f y Hy; unfold act; by case_match].
Qed.

Lemma fleet_run_drained acts : forall f x, x ∈ drained f -> x ∈ drained (fleet_run cfg f acts).
Proof.
  induction acts as [|a acts IH]; intros f x Hx; [done|]. change (fleet_run cfg f (a :: acts)) with (fleet_run cfg (fleet_act cfg f a) acts). apply IH. destruct a as [o|now]; cbn [fleet_act].
  - by rewrite (proj1 (fleet_step_keeps f o)).
  - destruct (_ =? _); [done|by apply mono_tick].
Qed.

(** ** Theorems *)

(** C16 Once the loop completed a relay's drain, under whatever else the coordinator
    did meanwhile, nothing brings it back: whatever follows, its id is retired, it
    takes no work, no session names it, the ledger refuses every enroll of it, and
    a connection the ledger had already let through is turned away at the
    registry. *)
Theorem drained_relay_never_serves (s : SessionSetup) (acts acts' : list FleetAct) (id : Z) :
  relays (registry s) = ∅ -> id ∈ drained (fleet_run cfg (new_fleet s) acts) ->
  let f := fleet_run cfg (fleet_run cfg (new_fleet s) acts) acts' in
  is_retired (fl_ledger f) id false = Ok true /\ is_available (fl_registry f) id = false /\ session_count_for_relay (fl_setup f) id = 0 /\
  (forall now cert token peer read write, exists e, authorize_enroll_at (fl_ledger f) now id cert token peer read write = (Err e, fl_ledger f)) /\
  (forall h boot fault, hello_id h = id -> enroll_locked f h boot fault = f).
Proof.
  intros Hs Hd f. assert (Hok : fleet_ok f) by (apply fleet_run_ok, fleet_run_ok; by apply new_fleet_ok).
  destruct (fo_drained _ Hok id (fleet_run_drained acts' _ id Hd)) as [(row & Hr & Ht) Hu He].
  split; [unfold is_retired; by rewrite Hr, bool_decide_eq_true_2 by done|]. split; [done|]. split; [by apply session_count_zero|]. split.
  - intros now cert token peer read write. unfold authorize_enroll_at. destruct read; [by eexists|]. rewrite Hr, bool_decide_eq_true_2 by done. by eexists.
  - intros h boot fault E. unfold enroll_locked. pose proof (tombstoned_retired (fl_ledger f) (hello_id h) fault) as H. rewrite E in *.
    destruct (is_retired (fl_ledger f) id fault) as [[]|]; try done. exfalso. apply H; [|done]. by exists row.
Qed.

(** C22 What is enrolled is what the ledger bound: a relay in the registry holds the
    certificate its id is bound to, is advertised at the addresses the loop
    recorded for its task and no others, and no enroll under another certificate
    is authorized while it is there. *)
Theorem enrolled_relays_are_bound (s : SessionSetup) (acts : list FleetAct) (id : Z) (r : Registered) :
  relays (registry s) = ∅ -> let f := fleet_run cfg (new_fleet s) acts in
  relays (fl_registry f) !! id = Some r ->
  advertised_addrs (fl_ledger f) id false = Ok (Some (relay_addrs (entry_of r))) /\ head (relay_addrs (entry_of r)) = Some (relay_addr (entry_of r)) /\
  forall now cert token peer read write a, (authorize_enroll_at (fl_ledger f) now id cert token peer read write).1 = Ok a ->
    cert = fingerprint r /\ ae_kind a = Reenroll /\ ae_addrs a = relay_addrs (entry_of r).
Proof.
  intros Hs f Hr. assert (Hok : fleet_ok f) by (apply fleet_run_ok; by apply new_fleet_ok).
  destruct (fo_bound _ Hok id r Hr) as (row & rest & Hrow & Hc & Ha & E). split; [unfold advertised_addrs; rewrite Hrow; cbn; by rewrite Ha|]. split; [by rewrite E|].
  intros now cert token peer read write a Hau. destruct (bound_answers _ _ _ _ _ _ _ _ _ _ _ Hrow Hc Hau) as (-> & Hk & _ & _). split; [done|]. split; [done|].
  destruct (authorize_cases (fl_ledger f) now id (fingerprint r) token peer read write) as [[_ H]|(a' & row' & tok & _ & Hr' & _ & Hn & _)]; [|congruence].
  rewrite Hau in H. destruct H as (row' & Hr' & _ & _ & _ & _ & Ha'). congruence.
Qed.

(** A draining mark takes at most one relay from a region. *)
Lemma mark_count g id gen rg : available_in_region g rg <= available_in_region (mark_draining g id gen).2 rg + 1.
Proof.
  unfold mark_draining, put_draining. destruct (relays g !! id) as [r|] eqn:Er; [|cbn; lia]. destruct (_ =? _); [|cbn; lia]. unfold available_in_region. cbn [snd relays set_relays].
  set (P := fun r : Registered => draining r = false /\ region (entry_of r) = Some rg). set (m := base.delete id (relays g)).
  assert (H1 : (map_to_list (relays g)).*2 ≡ₚ r :: (map_to_list m).*2) by (unfold m; by rewrite <- (map_to_list_delete (relays g) id r) by done).
  assert (H2 : (map_to_list (<[id := set_draining r true]> (relays g))).*2 ≡ₚ set_draining r true :: (map_to_list m).*2).
  { unfold m. rewrite <- (insert_delete_eq (relays g)). rewrite map_to_list_insert by apply lookup_delete_eq. done. }
  rewrite H1, H2, !filter_cons. destruct (decide (P r)), (decide (P (set_draining r true))); cbn [length]; lia.
Qed.

(** C23 No drain leaves a region short.  A scale-down that completes a relay's drain
    found more relays taking work in the region than its target and leaves at
    least that many, and the relay served no session; an age retirement that turns
    a relay away from new work leaves a replacement that takes it. *)
Theorem drain_leaves_region_served (f : Fleet) :
  fleet_ok f ->
  (forall rg target id gen, id ∉ drained f -> (drain_locked rg target id gen f).1 = true ->
     let f' := (drain_locked rg target id gen f).2 in
     target < available_in_region (fl_registry f) rg /\ target <= available_in_region (fl_registry f') rg /\
     session_count_for_relay (fl_setup f) id = 0 /\ quiet f' id) /\
  (forall replacements r, er_draining r = false -> er_id r ∉ replacements -> is_Some (retire_locked replacements r f).1 ->
     exists id, id ∈ replacements /\ is_available (fl_registry (retire_locked replacements r f).2) id = true).
Proof.
  intros Hok. split.
  - intros rg target id gen Hd. pose proof (drain_locked_ok rg target id gen f Hok Hd) as Hl. unfold drain_locked in *. rewrite bind_run in *. cbn [gets fst snd] in *.
    destruct (Z.leb_spec (available_in_region (fl_registry f) rg) target) as [|Hroom]; [done|]. rewrite bind_run in *. unfold act in *.
    pose proof (mark_spec f id gen Hok) as Hm. cbn zeta in Hm. pose proof (mark_count (fl_registry f) id gen rg) as Hcount. destruct (mark_draining (fl_registry f) id gen) as [marked g]. cbn [fst snd] in *.
    set (f1 := put_registry g f) in *. destruct Hm as (M1 & _ & _ & M4 & M5). destruct marked; cbn [negb] in *; [|done]. destruct (M5 eq_refl) as [M6 M7]. rewrite bind_run in *. cbn [gets fst snd] in *. rewrite bind_run in *.
    destruct (Z.eqb_spec (session_count_for_relay (fl_setup f1) id) 0) as [Hs|Hs]; [|done]. pose proof (tombstone_ok id f1 M1 M6 M7 Hs) as Ht. destruct (tombstone_locked id f1) as [b f2].
    destruct Ht as (T1 & T2 & T3 & T4). cbn [fst snd] in *. destruct b; [|done]. intros _. cbn zeta in *. destruct Hl as (L1 & _ & L3). split; [done|]. split.
    + unfold available_in_region in *. cbn [mret M_ret snd]. rewrite T4. change (relays (fl_registry f1)) with (relays g). lia.
    + split; [unfold session_count_for_relay in *; by rewrite M4 in Hs|]. apply (fo_drained _ L1). rewrite L3. apply elem_of_app. right. by apply list_elem_of_singleton.
  - intros replacements r Hr Hne. unfold retire_locked. rewrite bind_run. cbn [gets fst snd]. rewrite Hr. cbn [negb andb]. case_bool_decide as Hu; cbn [negb]; [|by intros []].
    apply Exists_exists in Hu as (id & Hid & Hav). rewrite bind_run. unfold act. pose proof (mark_spec f (er_id r) (er_generation r) Hok) as Hm. cbn zeta in Hm.
    assert (Hstay : is_available (mark_draining (fl_registry f) (er_id r) (er_generation r)).2 id = true).
    { unfold mark_draining, put_draining. destruct (relays (fl_registry f) !! er_id r) as [x|] eqn:Ex; [|done]. destruct (_ =? _); [|done]. unfold is_available in *. cbn. rewrite lookup_insert_ne; [done|congruence]. }
    destruct (mark_draining (fl_registry f) (er_id r) (er_generation r)) as [marked g]. cbn [fst snd] in *. set (f1 := put_registry g f) in *. destruct Hm as (M1 & _ & _ & _ & M5).
    destruct marked; cbn [negb]; [|by intros []]. destruct (M5 eq_refl) as [M6 M7]. rewrite bind_run. cbn [gets fst snd]. rewrite bind_run. unfold mret, M_ret. cbn [fst snd]. intros _. exists id. split; [done|].
    destruct (Z.eqb_spec (session_count_for_relay (fl_setup f1) (er_id r)) 0) as [Hs|Hs]; [|exact Hstay]. pose proof (tombstone_ok (er_id r) f1 M1 M6 M7 Hs) as Ht.
    destruct (tombstone_locked (er_id r) f1) as [b f2]. destruct Ht as (_ & _ & _ & T4). cbn [snd]. unfold is_available in *. rewrite T4. exact Hstay.
Qed.

(** C25 Sparing a relay withdraws a mark that is not the loop's: when a relay the loop
    was about to drain asked to drain itself and still serves a session, the loop
    lets it take new sessions again. *)
Theorem spared_relay_loses_its_own_mark (f : Fleet) (rg : string) (target id : Z) (r : Registered) :
  relays (fl_registry f) !! id = Some r -> draining r = true -> target < available_in_region (fl_registry f) rg -> 0 < session_count_for_relay (fl_setup f) id ->
  is_available (fl_registry f) id = false /\
  (drain_locked rg target id (generation r) f).1 = false /\ is_available (fl_registry (drain_locked rg target id (generation r) f).2) id = true.
Proof.
  intros Hr Hd Hroom Hs. split; [unfold is_available; by rewrite Hr, Hd|]. unfold drain_locked. rewrite bind_run. cbn [gets fst snd].
  destruct (Z.leb_spec (available_in_region (fl_registry f) rg) target) as [|_]; [lia|]. rewrite bind_run. unfold act, mark_draining, put_draining. rewrite Hr, Z.eqb_refl. cbn [fst snd negb].
  rewrite bind_run. cbn [gets fst snd]. rewrite bind_run. change (session_count_for_relay (fl_setup (put_registry _ f)) id) with (session_count_for_relay (fl_setup f) id).
  destruct (Z.eqb_spec (session_count_for_relay (fl_setup f) id) 0) as [|_]; [lia|]. unfold mret, M_ret. cbn [fst snd]. split; [done|].
  rewrite bind_run. unfold modify. cbn [fst snd]. set (f1 := put_registry _ f). assert (Hr1 : relays (fl_registry f1) !! id = Some (set_draining r true)) by (cbn; by rewrite lookup_insert_eq).
  clearbody f1. unfold is_available, clear_draining, put_draining. rewrite Hr1. cbn [generation set_draining]. rewrite Z.eqb_refl. cbn. by rewrite lookup_insert_eq.
Qed.

End loop.
