(* ===== verification/FleetLaws.v ===== *)
(** * The laws of a tick's parts

    How many relays a scale-up launches and what becomes of every task it
    launched, how old a relay gets before it is retired, how often a region that
    cannot be measured is tried; and the runs that witness the theorems on
    provisioning. *)

From Stdlib Require Import ZArith Lia.
From stdpp Require Import gmap sorting list strings.
From S2P Require Import Prelude.
From S2P Require Import Registry.
From S2P Require Import PairRtts.
From S2P Require Import Placement.
From S2P Require Import Outbox.
From S2P Require Import Setup.
From S2P Require Import SetupRun.
From S2P Require Import SetupWitness.
From S2P Require Import Ledger.
From S2P Require Import Fleet.
From S2P Require Import FleetSafe.

Open Scope Z_scope.

(** ** Ages *)

(** The age a relay is retired at lies within a twelfth of the configured one. *)
Theorem age_limit_near (max_age id : Z) : 0 <= max_age -> Z.abs (12 * (age_limit_secs max_age id - max_age)) <= max_age.
Proof.
  intros H. unfold age_limit_secs. pose proof (Z.div_mod max_age 6 ltac:(lia)). pose proof (Z.mod_pos_bound max_age 6 ltac:(lia)). destruct (Z.eqb_spec (max_age / 6) 0) as [|Hne]; [lia|].
  set (spread := max_age / 6) in *. pose proof (Z.mod_pos_bound (mix id) spread ltac:(lia)). pose proof (Z.div_mod spread 2 ltac:(lia)). pose proof (Z.mod_pos_bound spread 2 ltac:(lia)). lia.
Qed.

(** ** Coverage *)

(** A region's state over ticks at the given times, none of its pairs gaining a
    value: the state and the last tick's demand. *)
Fixpoint coverage_ticks (state : option CoverageState) (have total : Z) (demand : Z) (times : list Z) : option CoverageState * Z :=
  match times with
  | [] => (state, demand)
  | t :: times => let '(d, st, _) := coverage_demand_of state have total t in coverage_ticks st have total d times
  end.

(** The least time from the start of the first window to the start of the one
    after [n] failed attempts. *)
Fixpoint retry_time (n : nat) : Z := match n with O => 0 | S n => retry_time n + COVERAGE_HOLD_SECS + coverage_backoff_secs (Z.of_nat (S n)) end.

Lemma backoff_bounds n : 1 <= n -> COVERAGE_BACKOFF_BASE_SECS <= coverage_backoff_secs n <= COVERAGE_BACKOFF_CAP_SECS.
Proof.
  intros H. unfold coverage_backoff_secs, saturating_sub. assert (Hp : 1 <= Z.shiftl 1 (Z.min (Z.max 0 (n - 1)) 32)).
  { rewrite Z.shiftl_mul_pow2 by lia. pose proof (Z.pow_pos_nonneg 2 (Z.min (Z.max 0 (n - 1)) 32)). lia. }
  unfold COVERAGE_BACKOFF_BASE_SECS, COVERAGE_BACKOFF_CAP_SECS, u64_max. lia.
Qed.

Lemma backoff_doubles n : 1 <= n -> coverage_backoff_secs (n + 1) = Z.min (2 * coverage_backoff_secs n) COVERAGE_BACKOFF_CAP_SECS.
Proof.
  intros H. unfold coverage_backoff_secs, saturating_sub. replace (Z.max 0 (n + 1 - 1)) with n by lia. replace (Z.max 0 (n - 1)) with (n - 1) by lia.
  rewrite !Z.shiftl_mul_pow2 by lia. unfold COVERAGE_BACKOFF_BASE_SECS, COVERAGE_BACKOFF_CAP_SECS, u64_max.
  destruct (Z.le_gt_cases n 32) as [Hn|Hn].
  - replace (Z.min n 32) with n by lia. replace (Z.min (n - 1) 32) with (n - 1) by lia. replace (2 ^ n) with (2 * 2 ^ (n - 1)) by (rewrite <- Z.pow_succ_r by lia; f_equal; lia).
    pose proof (Z.pow_pos_nonneg 2 (n - 1) ltac:(lia) ltac:(lia)). pose proof (Z.pow_le_mono_r 2 (n - 1) 31 ltac:(lia) ltac:(lia)). change (2 ^ 31) with 2147483648 in *. lia.
  - replace (Z.min n 32) with 32 by lia. replace (Z.min (n - 1) 32) with 32 by lia. change (2 ^ 32) with 4294967296. lia.
Qed.

(** Where the cycle of an unmeasured region stands at time [now]. *)
Definition cycle_ok (t0 have now : Z) (s : CoverageState) (demand : Z) : Prop :=
  covered_count s = have /\ 0 <= attempts s /\
  match phase s with
  | Trying since => demand = 1 /\ t0 + retry_time (Z.to_nat (attempts s)) <= since <= now
  | BackingOff until => demand = 0 /\ 1 <= attempts s /\ now < until <= now + coverage_backoff_secs (attempts s) /\ t0 + retry_time (Z.to_nat (attempts s)) <= until
  end.

Lemma cycle_step t0 have total now t s d : have < total -> cycle_ok t0 have now s d -> now <= t < 2 ^ 63 ->
  exists s', coverage_demand_of (Some s) have total t = (match phase s' with Trying _ => 1 | BackingOff _ => 0 end, Some s', match phase s' with Trying _ => false | BackingOff _ => true end) /\
    cycle_ok t0 have t s' (match phase s' with Trying _ => 1 | BackingOff _ => 0 end).
Proof.
  intros Hh (Hc & H0 & Hp) Ht. unfold coverage_demand_of. destruct (Z.leb_spec total have); [lia|]. change (default ?x (Some s)) with s. rewrite Hc, Z.ltb_irrefl.
  destruct s as [c n [since|until]]; cbn [covered_count attempts phase] in *.
  - destruct Hp as (_ & Hp1 & Hp2). unfold saturating_sub. destruct (Z.ltb_spec (Z.max 0 (t - since)) COVERAGE_HOLD_SECS) as [Hw|Hw].
    + exists (mkCoverageState c n (Trying since)). split; [done|]. split; [done|]. split; [done|]. split; [done|]. cbn -[retry_time]. lia.
    + pose proof (backoff_bounds (n + 1) ltac:(lia)) as Hb. exists (mkCoverageState c (n + 1) (BackingOff (saturating_add u64_max t (coverage_backoff_secs (n + 1))))). split; [done|]. unfold cycle_ok. cbn [covered_count attempts phase]. split; [done|]. split; [lia|]. split; [done|]. split; [lia|].
      unfold saturating_add. unfold COVERAGE_BACKOFF_BASE_SECS, COVERAGE_BACKOFF_CAP_SECS, COVERAGE_HOLD_SECS, u64_max in *.
      replace (Z.to_nat (n + 1)) with (S (Z.to_nat n)) by lia. cbn [retry_time]. replace (Z.of_nat (S (Z.to_nat n))) with (n + 1) by lia. unfold COVERAGE_HOLD_SECS. split; lia.
  - destruct Hp as (_ & Hn & Hu & Hr). destruct (Z.ltb_spec t until) as [Hw|Hw].
    + exists (mkCoverageState c n (BackingOff until)). split; [done|]. unfold cycle_ok. cbn [covered_count attempts phase]. split; [done|]. split; [done|]. split; [done|]. split; [done|]. split; [lia|done].
    + exists (mkCoverageState c n (Trying t)). split; [done|]. unfold cycle_ok. cbn [covered_count attempts phase]. split; [done|]. split; [done|]. split; [done|lia].
Qed.

(** A region whose measurements never arrive is tried ever more rarely and never
    given up.  After any ticks, each failed attempt held its window and waited out
    its backoff, the pauses doubling from ten minutes to six hours; while the loop
    asks for a relay the window is open, while it does not the pause ends no later
    than the backoff allows, and a tick after that asks again. *)
Theorem coverage_retries_back_off (have total t0 : Z) (times : list Z) :
  have < total -> 0 <= t0 -> StronglySorted Z.le (t0 :: times) -> Forall (fun t => t < 2 ^ 63) (t0 :: times) ->
  exists s, let now := default t0 (last times) in
    let '(state, demand) := coverage_ticks None have total 0 (t0 :: times) in
    state = Some s /\ cycle_ok t0 have now s demand /\
    (forall n, 1 <= n -> coverage_backoff_secs (n + 1) = Z.min (2 * coverage_backoff_secs n) COVERAGE_BACKOFF_CAP_SECS) /\ coverage_backoff_secs 1 = 600 /\
    forall until t, phase s = BackingOff until -> until <= t -> (coverage_demand_of state have total t).1.1 = 1.
Proof.
  intros Hh Ht0 Hs Hb. set (s0 := mkCoverageState have 0 (Trying t0)).
  assert (E0 : coverage_demand_of None have total t0 = (1, Some s0, false)).
  { unfold coverage_demand_of. destruct (Z.leb_spec total have); [lia|]. cbn. rewrite Z.ltb_irrefl. cbn. unfold saturating_sub. destruct (Z.ltb_spec (Z.max 0 (t0 - t0)) COVERAGE_HOLD_SECS) as [|H1]; [done|unfold COVERAGE_HOLD_SECS in H1; lia]. }
  assert (Hgo : forall times now s d, cycle_ok t0 have now s d -> StronglySorted Z.le (now :: times) -> Forall (fun t => t < 2 ^ 63) times ->
    exists s', (coverage_ticks (Some s) have total d times).1 = Some s' /\ cycle_ok t0 have (default now (last times)) s' (coverage_ticks (Some s) have total d times).2).
  { clear times Hs Hb. intros times. induction times as [|t times IH]; intros now s d Hc Hs Hb; [by exists s|]. apply StronglySorted_inv in Hs as [Hs Hle]. apply Forall_cons in Hle as [Hle _]. apply Forall_cons in Hb as [Hb1 Hb2].
    cbn [coverage_ticks]. destruct (cycle_step t0 have total now t s d Hh Hc ltac:(lia)) as (s1 & -> & Hc1). destruct (IH t s1 _ Hc1 Hs Hb2) as (s2 & E2 & Hc2). exists s2. split; [done|].
    replace (default now (last (t :: times))) with (default t (last times)); [done|]. destruct times as [|x xs]; [done|]. change (last (t :: x :: xs)) with (last (x :: xs)). destruct (last (x :: xs)) eqn:El; [done|by apply last_None in El]. }
  assert (Hc0 : cycle_ok t0 have t0 s0 1) by (split; [done|]; split; [cbn; lia|]; split; [done|]; change (t0 + 0 <= t0 <= t0); lia).
  destruct (Hgo times t0 s0 1 Hc0 Hs) as (s & Es & Hc); [by apply Forall_cons in Hb as [_ Hb]|]. exists s. cbn zeta. cbn [coverage_ticks]. rewrite E0.
  destruct (coverage_ticks (Some s0) have total 1 times) as [state demand]. cbn [fst snd] in *. subst state. split; [done|]. split; [done|]. split; [by intros n Hn; apply backoff_doubles|]. split; [done|].
  intros u t Hp Hu. unfold coverage_demand_of. destruct (Z.leb_spec total have); [lia|]. destruct Hc as (Hc & _). change (default ?x (Some s)) with s. rewrite Hc, Z.ltb_irrefl, Hp. destruct (Z.ltb_spec t u); [lia|done].
Qed.

(** ** Launches *)

Definition task_of (f : Fleet) (id : Z) : option (option string) := lr_task_arn <$> rows (fl_ledger f) !! id.

(** Steps that launch nothing, mint nothing and leave every row its task. *)
Record settled (f f' : Fleet) : Prop := mkSettled {
  se_launches : launches f' = launches f;
  se_stops : forall t, t ∈ stops f -> t ∈ stops f';
  se_next : next_rowid (fl_ledger f') = next_rowid (fl_ledger f);
  se_tasks : forall id, task_of f' id = task_of f id;
}.

#[export] Instance settled_po : PreOrder settled.
Proof. split; [by intros f; split|]. intros a b c [A1 A2 A3 A4] [B1 B2 B3 B4]. split; [congruence|auto|congruence|]. intros id. by rewrite B4. Qed.

Lemma put_row_task l id r r' : rows l !! id = Some r -> lr_task_arn r' = lr_task_arn r -> forall i, lr_task_arn <$> rows (put_row l id r') !! i = lr_task_arn <$> rows l !! i.
Proof. intros Hr E i. cbn. destruct (decide (id = i)) as [<-|Hne]; [rewrite lookup_insert_eq, Hr; cbn; by rewrite E|by rewrite lookup_insert_ne]. Qed.

Section launches.
Context {sha : Sha256} {mint : MintToken} {world : World}.
Context (cfg : ProvisionConfig).

Lemma settled_step f o : settled f (fleet_step f o).
Proof.
  destruct o as [o|now h boot peer read write|i fault|id gen|id gen|rg ttl now]; cbn [fleet_step]; try done.
  - by destruct (setup_only o).
  - unfold authorize. pose proof (authorize_cases (fl_ledger f) now (hello_id h) (cert_fingerprint (hello_cert h)) (hello_enroll_token h) peer read write) as Hc. cbn zeta in Hc.
    destruct (authorize_enroll_at _ _ _ _ _ _ _ _) as [r l]. cbn [fst snd] in Hc.
    assert (Hl : next_rowid l = next_rowid (fl_ledger f) /\ forall i, lr_task_arn <$> rows l !! i = lr_task_arn <$> rows (fl_ledger f) !! i).
    { destruct Hc as [[-> _]|(a & row & tok & _ & Hr & _ & _ & _ & _ & _ & _ & -> & _)]; [done|]. split; [done|]. by apply put_row_task with row. }
    destruct Hl as [L1 L2]. destruct r as [a|]; [destruct (ae_addrs a)|]; by split.
  - destruct (authorized f !! i) as [[h boot]|]; [|done]. unfold enroll_locked. destruct (is_retired _ _ _) as [[]|]; try by split. destruct (try_enroll _ _) as [[gen g]|]; [|by split]. destruct (negb _ && negb _); by split.
Qed.

Lemma settled_call f : settled f (call f).2.
Proof.
  unfold call. cbn [snd]. transitivity (foldl fleet_step f (meanwhile (calls f))); [|by split]. generalize (meanwhile (calls f)). intros ops. revert f.
  induction ops as [|o ops IH]; intros f; [done|]. cbn [foldl]. transitivity (fleet_step f o); [apply settled_step|apply IH].
Qed.

Lemma settled_stop task f : settled f (stop_task task f).2 /\ task ∈ stops (stop_task task f).2.
Proof.
  unfold stop_task. rewrite !bind_run. cbn [fst snd mret M_ret modify]. split; [|cbn; apply elem_of_app; right; by apply list_elem_of_singleton].
  transitivity (call f).2; [apply settled_call|]. split; try done. intros t Ht. cbn. apply elem_of_app. by left.
Qed.

Lemma settled_retire id f : settled f (retire_relay id f).2.
Proof.
  unfold retire_relay. rewrite bind_run. transitivity (call f).2; [apply settled_call|]. generalize (call f).1 (call f).2. intros n g. unfold retire_now, retire. destruct (db_fault n); [by split|]. cbn [snd].
  destruct (rows (fl_ledger g) !! as_i64 id) as [r|] eqn:Er; [|by split]. case_bool_decide; [|by split]. split; try done. intros i. by apply put_row_task with r.
Qed.

(** The substrate, the store and the clock all work. *)
Definition healthy (now : Z) : Prop :=
  (forall n, db_fault n = false) /\ (forall n, is_Some (random_token n)) /\ (forall n spec, is_Some (p_launch n spec)) /\ now <> u64_max.

(** What a run of launches leaves: what it launched, at most what was missing, each
    task recorded on its id or asked to stop. *)
Definition launched_ok (missing : nat) (now : Z) (f f' : Fleet) : Prop :=
  exists l, launches f' = launches f ++ l /\ (length l <= missing)%nat /\
    (healthy now -> next_rowid (fl_ledger f) + Z.of_nat missing <= 2 ^ 63 -> length l = missing) /\
    (forall t, t ∈ stops f -> t ∈ stops f') /\
    (forall id, is_Some (task_of f id) -> task_of f' id = task_of f id) /\
    forall id task, (id, task) ∈ l -> task ∈ stops f' \/ task_of f' (as_i64 id) = Some (Some task).

Lemma launched_none missing now f f' : settled f f' -> (healthy now -> next_rowid (fl_ledger f) + Z.of_nat missing <= 2 ^ 63 -> missing = O) -> launched_ok missing now f f'.
Proof.
  intros [S1 S2 S3 S4] Hm. exists []. rewrite app_nil_r. split; [done|]. split; [cbn; lia|]. split; [intros H1 H2; by rewrite (Hm H1 H2)|]. split; [done|]. split; [by intros id _|].
  intros id task H. by apply not_elem_of_nil in H.
Qed.

Lemma ledger_write_run {A E} (q : RelayLedger -> nat -> bool -> result A E * RelayLedger) f :
  ledger_write q f = (let '(r, l) := q (fl_ledger (call f).2) (calls f) (db_fault (calls f)) in (r, set_fl_ledger l (call f).2)).
Proof. unfold ledger_write. by rewrite bind_run. Qed.

Lemma mint_cases l now rg ttl random fault :
  match mint_at l now rg ttl random fault with
  | (Ok m, l') => next_rowid l < 2 ^ 63 /\ minted_id m = as_u64 (next_rowid l) /\ exists row, lr_task_arn row = None /\ l' = mkRelayLedger (<[next_rowid l := row]> (rows l)) (next_rowid l + 1)
  | (Err _, l') => l' = l /\ (now = u64_max \/ random = None \/ fault = true \/ 2 ^ 63 <= next_rowid l)
  end.
Proof.
  unfold mint_at. destruct (Z.eqb_spec now u64_max); [by split; [|left]|]. destruct random as [token|]; [|by split; [|right; left]]. destruct fault; [by split; [|right; right; left]|]. cbn [orb].
  destruct (Z.leb_spec (2 ^ 63) (next_rowid l)); [by split; [|right; right; right]|].
  split; [done|]. split; [done|]. eexists. split; [|reflexivity]. done.
Qed.

Lemma launch_missing_ok fuel rg now : forall live launching target f, fleet_ok f -> fuel = Z.to_nat (target - live - launching) ->
  launched_ok fuel now f (launch_missing cfg fuel rg live launching target now f).2.
Proof.
  induction fuel as [|fuel IH]; intros live launching target f Hok Hfuel; cbn [launch_missing]; [by apply launched_none|]. destruct (Z.ltb_spec (live + launching) target); [|lia].
  rewrite bind_run, ledger_write_run. pose proof (settled_call f) as S1. destruct (call_ok f Hok) as (Hok1 & _). set (f1 := (call f).2) in *. generalize (calls f). intros n1. clearbody f1.
  pose proof (mint_cases (fl_ledger f1) now (Some rg) (launch_deadline cfg) (random_token n1) (db_fault n1)) as Hm.
  pose proof (step_keeps (fl_ledger f1) (DbMint now (Some rg) (launch_deadline cfg) (random_token n1) (db_fault n1)) (fo_ledger _ Hok1) (fo_recorded _ Hok1) I) as Hk. cbn [ledger_step] in Hk.
  destruct (mint_at (fl_ledger f1) now (Some rg) (launch_deadline cfg) (random_token n1) (db_fault n1)) as [[m|e] l1]; cbn [fst snd] in *.
  2:{ destruct Hm as [-> Hm]. apply launched_none; [transitivity f1; [done|split; [reflexivity|tauto|reflexivity|reflexivity]]|]. intros (H1 & H2 & _ & H4) Hn. rewrite H1 in Hm. destruct (H2 n1) as [tok Htok]. rewrite Htok, (se_next _ _ S1) in Hm. exfalso. destruct Hm as [|[|[|]]]; [done|done|done|lia]. }
  destruct Hm as (Hlt & Hid & row & Hrow & ->). set (next := next_rowid (fl_ledger f1)) in *. set (f2 := set_fl_ledger _ f1). pose proof (ledger_change f1 _ Hok1 Hk : fleet_ok f2) as Hok2.
  pose proof (lo_next _ (fo_ledger _ Hok1)) as Hpos. fold next in Hpos.
  assert (Hid' : as_i64 (minted_id m) = next) by (rewrite Hid; apply as_u64_round; lia).
  assert (Hfresh : task_of f next = None).
  { rewrite <- (se_tasks _ _ S1). unfold task_of. destruct (rows (fl_ledger f1) !! next) eqn:E; [|done]. destruct (lo_ids _ (fo_ledger _ Hok1) next); [by rewrite E|unfold next in *; lia]. }
  assert (Hold : forall i, is_Some (task_of f i) -> task_of f2 i = task_of f i).
  { intros i Hs. rewrite <- (se_tasks _ _ S1). unfold task_of, f2. cbn. rewrite lookup_insert_ne; [done|]. intros <-. rewrite Hfresh in Hs. by destruct Hs. }
  assert (Hnew : task_of f2 next = Some None) by (unfold task_of, f2; cbn; rewrite lookup_insert_eq; cbn; by rewrite Hrow).
  assert (E2 : launches f2 = launches f /\ (forall t, t ∈ stops f -> t ∈ stops f2) /\ next_rowid (fl_ledger f2) = next_rowid (fl_ledger f) + 1).
  { split; [apply S1|]. split; [apply S1|]. cbn. unfold next. by rewrite (se_next _ _ S1). }
  destruct E2 as (E2 & E3 & E4). clearbody f2. clear Hk Hok1 S1 Hlt. rewrite bind_run.
  pose proof (settled_call f2) as S3. destruct (call_ok f2 Hok2) as (Hok3 & _). set (f3 := (call f2).2) in *. generalize (call f2).1. intros n2. clearbody f3.
  destruct (p_launch n2 _) as [task|] eqn:Ep.
  2:{ rewrite bind_run. cbn [mret M_ret snd]. pose proof (settled_retire (minted_id m) f3) as S4. pose proof (transitivity S3 S4) as S5. set (f4 := (retire_relay (minted_id m) f3).2) in *. clearbody f4.
      exists []. rewrite app_nil_r. split; [rewrite (se_launches _ _ S5); done|]. split; [cbn; lia|]. split; [intros (_ & _ & H3 & _); destruct (H3 n2 (mkLaunchSpec (minted_id m) (minted_token m) (Some rg))); congruence|].
      split; [intros t Ht; by apply S5, E3|]. split; [intros i Hi; rewrite (se_tasks _ _ S5); by apply Hold|]. intros id t Ht. by apply not_elem_of_nil in Ht. }
  rewrite bind_run. cbn [modify fst snd]. set (f4 := note_launch (minted_id m) task f3).
  assert (Hok4 : fleet_ok f4) by apply (plain_note_launch (minted_id m) task f3 Hok3).
  assert (E5 : launches f4 = launches f ++ [(minted_id m, task)]) by (cbn; by rewrite (se_launches _ _ S3), E2).
  assert (E6 : forall t, t ∈ stops f -> t ∈ stops f4) by (intros t Ht; by apply S3, E3).
  assert (E7 : forall i, task_of f4 i = task_of f2 i) by (intros i; apply (se_tasks _ _ S3)).
  assert (E8 : next_rowid (fl_ledger f4) = next_rowid (fl_ledger f) + 1) by (change (next_rowid (fl_ledger f3) = next_rowid (fl_ledger f) + 1); by rewrite (se_next _ _ S3)).
  clearbody f4. rewrite bind_run, ledger_write_run. pose proof (settled_call f4) as S5. destruct (call_ok f4 Hok4) as (Hok5 & _). set (f5 := (call f4).2) in *. generalize (calls f4). intros n3. clearbody f5.
  pose proof (step_keeps (fl_ledger f5) (DbRecordLaunch (minted_id m) task (db_fault n3)) (fo_ledger _ Hok5) (fo_recorded _ Hok5) I) as Hk. cbn [ledger_step] in Hk. unfold record_launch in *.
  destruct (db_fault n3) eqn:Edb; cbn [fst snd] in *.
  - rewrite bind_run. set (f6 := set_fl_ledger (fl_ledger f5) f5). assert (S6 : settled f4 f6) by (transitivity f5; [done|by split]). clearbody f6.
    destruct (settled_stop task f6) as [S7 Hstop]. set (f7 := (stop_task task f6).2) in *. clearbody f7. rewrite bind_run. cbn [mret M_ret snd]. pose proof (settled_retire (minted_id m) f7) as S8.
    set (f8 := (retire_relay (minted_id m) f7).2) in *. clearbody f8. pose proof (transitivity S6 (transitivity S7 S8)) as S9. exists [(minted_id m, task)].
    split; [by rewrite (se_launches _ _ S9)|]. split; [cbn; lia|]. split; [intros (H1 & _); by rewrite H1 in Edb|]. split; [intros t Ht; by apply S9, E6|].
    split; [intros i Hi; rewrite (se_tasks _ _ S9), E7; by apply Hold|]. intros id t [= -> ->]%list_elem_of_singleton. left. by apply S8.
  - rewrite Hid' in *. assert (Hrow5 : task_of f5 next = Some None) by (by rewrite (se_tasks _ _ S5), E7). unfold task_of in Hrow5. destruct (rows (fl_ledger f5) !! next) as [r5|] eqn:Er5; [|done].
    set (f6 := set_fl_ledger _ f5). pose proof (ledger_change f5 _ Hok5 Hk : fleet_ok f6) as Hok6.
    assert (Hnew6 : task_of f6 next = Some (Some task)) by (unfold task_of, f6; cbn; by rewrite lookup_insert_eq).
    assert (Hold6 : forall i, i <> next -> task_of f6 i = task_of f2 i) by (intros i Hi; rewrite <- E7, <- (se_tasks _ _ S5); unfold task_of, f6; cbn; by rewrite lookup_insert_ne).
    assert (E9 : launches f6 = launches f ++ [(minted_id m, task)] /\ (forall t, t ∈ stops f -> t ∈ stops f6) /\ next_rowid (fl_ledger f6) = next_rowid (fl_ledger f) + 1).
    { split; [change (launches f5 = launches f ++ [(minted_id m, task)]); by rewrite (se_launches _ _ S5)|]. split; [intros t Ht; apply (se_stops _ _ S5); by apply E6|].
      change (next_rowid (fl_ledger f5) = next_rowid (fl_ledger f) + 1). by rewrite (se_next _ _ S5). }
    destruct E9 as (E9 & E10 & E11). clearbody f6. destruct (IH live (launching + 1) target f6 Hok6 ltac:(lia)) as (l & L1 & L2 & L3 & L4 & L5 & L6).
    exists ((minted_id m, task) :: l). split; [by rewrite L1, E9, <- app_assoc|]. split; [cbn; lia|]. split; [intros H1 H2; cbn; f_equal; apply L3; [done|lia]|]. split; [auto|]. split.
    + intros i Hi. assert (i <> next) by (intros ->; rewrite Hfresh in Hi; by destruct Hi). rewrite L5; [|rewrite Hold6, Hold; done]. by rewrite Hold6, Hold.
    + intros id t [[= -> ->]|Hin]%elem_of_cons; [|by apply L6]. right. rewrite Hid', L5; [done|by rewrite Hnew6].
Qed.


End launches.

(** ** Concrete runs *)

Definition us_hello (id : Z) : RelayHello := mkRelayHello id "127.0.0.1:1" 1 [id; id] None [] [] (Some "us") (Some "token").
Definition us_request : SessionRequest := mkSessionRequest false [] "sb" [sample_player 0 "us"] None None false None.
Definition us_config : ProvisionConfig := mkProvisionConfig ["us"] 300 5 None.

(** A substrate on which everything works, and what runs meanwhile. *)
Definition quiet_world (ops : nat -> list FleetOp) : World :=
  mkWorld (fun n spec => Some (match ls_relay spec with 1 => "task-1" | 2 => "task-2" | _ => "task-3" end)%string) (fun n task => Some (Running [V4 1] ["203.0.113.1:443"%string]))
    (fun n task => true) (fun n => Some []) (fun rg => false) (fun n => false) (fun n => Some "token"%string) (fun n => 5000) ops.

Definition us_run (ops : nat -> list FleetOp) (acts : list FleetAct) : Fleet := @fleet_run plain_sha plain_mint (quiet_world ops) us_config (new_fleet sample_start) acts.
Definition nothing (n : nat) : list FleetOp := [].

(** A relay launched on demand enrolls; once the demand lapsed, it is drained. *)
Definition enrolls (now id : Z) : list FleetAct := [Op (FAuthorize now (us_hello id) None (Some (V4 1)) false false); Op (FInsert 0 false)].
Definition one_life : list FleetAct := [Op (FWarm "us" 100 1000); Tick 1000] ++ enrolls 1001 1 ++ [Tick 1200; Tick 1300].

(** Three relays, each launched while the ones before were cut off. *)
Definition three_relays : list FleetAct :=
  [Op (FWarm "us" 100 1000); Tick 1000] ++ enrolls 1001 1 ++ [Op (FDisconnect 1 0); Tick 1010] ++ enrolls 1011 2 ++ [Op (FDisconnect 2 1); Tick 1020] ++
  enrolls 1021 3 ++ enrolls 1022 1 ++ enrolls 1023 2 ++ [Tick 1200].

Lemma sample_start_empty : relays (registry sample_start) = ∅.
Proof. reflexivity. Qed.

Lemma drained_relay_never_serves_witness :
  let f := us_run nothing (one_life ++ [Op (FAuthorize 1400 (us_hello 1) None (Some (V4 1)) false false); Op (FSetup (SCreate us_request 9999 None 0)); Tick 1500]) in
  is_retired (fl_ledger f) 1 false = Ok true /\ is_available (fl_registry f) 1 = false /\ session_count_for_relay (fl_setup f) 1 = 0.
Proof.
  assert (H : 1 ∈ drained (us_run nothing one_life)) by (vm_compute; by left).
  destruct (@drained_relay_never_serves plain_sha plain_mint (quiet_world nothing) us_config sample_start one_life
    [Op (FAuthorize 1400 (us_hello 1) None (Some (V4 1)) false false); Op (FSetup (SCreate us_request 9999 None 0)); Tick 1500] 1 sample_start_empty H) as (H1 & H2 & H3 & _).
  cbn zeta. unfold us_run, fleet_run. rewrite foldl_app. exact (conj H1 (conj H2 H3)).
Defined.

Lemma enrolled_relays_are_bound_witness :
  exists r, relays (fl_registry (us_run nothing three_relays)) !! 2 = Some r /\ relay_addr (entry_of r) = "203.0.113.1:443"%string /\
    advertised_addrs (fl_ledger (us_run nothing three_relays)) 2 false = Ok (Some (relay_addrs (entry_of r))).
Proof.
  destruct (relays (fl_registry (us_run nothing three_relays)) !! 2) as [r|] eqn:E; [|vm_compute in E; discriminate]. exists r. split; [done|].
  destruct (@enrolled_relays_are_bound plain_sha plain_mint (quiet_world nothing) us_config sample_start three_relays 2 r sample_start_empty E) as (H1 & H2 & _).
  split; [vm_compute in E; injection E as <-; reflexivity|exact H1].
Defined.

Lemma drain_leaves_region_served_witness :
  let f := us_run nothing three_relays in let f' := (@drain_locked (quiet_world nothing) "us" 1 2 4 f).2 in
  available_in_region (fl_registry f) "us" = 3 /\ 1 <= available_in_region (fl_registry f') "us" /\ quiet f' 2.
Proof.
  assert (Hok : @fleet_ok plain_sha (us_run nothing three_relays)) by
    (unfold us_run; exact (@fleet_run_ok plain_sha plain_mint (quiet_world nothing) us_config three_relays (new_fleet sample_start) (@new_fleet_ok plain_sha sample_start sample_start_empty))).
  destruct (@drain_leaves_region_served plain_sha (quiet_world nothing) (us_run nothing three_relays) Hok) as [H _].
  destruct (H "us"%string 1 2 4) as (_ & H2 & _ & H4); [vm_compute; by intros ?%elem_of_nil|vm_compute; reflexivity|]. split; [vm_compute; reflexivity|]. exact (conj H2 H4).
Defined.

(** A session lands on the relay the loop picked, and the relay asks to drain,
    both before the loop takes the lock. *)
Definition raced : Fleet := us_run nothing (three_relays ++ [Op (FSetup (SCreate us_request 9999 None 0)); Op (FDraining 1 3)]).

Lemma spared_relay_loses_its_own_mark_witness :
  is_available (fl_registry raced) 1 = false /\ is_available (fl_registry (@drain_locked (quiet_world nothing) "us" 0 1 3 raced).2) 1 = true.
Proof.
  destruct (relays (fl_registry raced) !! 1) as [r|] eqn:E; [|vm_compute in E; discriminate].
  assert (Hg : generation r = 3 /\ draining r = true) by (vm_compute in E; injection E as <-; done). destruct Hg as [Hg Hd].
  destruct (@spared_relay_loses_its_own_mark (quiet_world nothing) raced "us" 0 1 r E Hd) as (H1 & _ & H3); [vm_compute; reflexivity|vm_compute; reflexivity|].
  rewrite Hg in H3. exact (conj H1 H3).
Defined.

(** The same race inside a tick: in the end the relay that asked to drain is the
    only one taking work, and the next session goes to it. *)
Example spared_relay_takes_the_next_session :
  let ops n := if (n =? 77)%nat then [FSetup (SCreate us_request 9999 None 0); FDraining 1 3] else [] in
  let f := us_run ops (three_relays ++ [Tick 1300]) in
  drained f = [3; 2] /\ available_entries (fl_registry f) = omap (fun r => Some (entry_of r)) (option_list (relays (fl_registry f) !! 1)) /\
  serving_relays (fl_setup (@fleet_step plain_sha plain_mint f (FSetup (SCreate us_request 9999 None 0)))) ("sb", 8) = [1].
Proof. vm_compute. done. Qed.


Lemma coverage_retries_back_off_witness :
  exists s, coverage_ticks None 0 1 0 [1000; 1300; 1500; 1900; 2200] = (Some s, 0) /\ attempts s = 2 /\ phase s = BackingOff 3400.
Proof.
  destruct (coverage_retries_back_off 0 1 1000 [1300; 1500; 1900; 2200]) as (s & H); [lia|lia|repeat constructor; lia|repeat constructor; lia|].
  cbv zeta in H. destruct (coverage_ticks None 0 1 0 [1000; 1300; 1500; 1900; 2200]) as [st d] eqn:E. destruct H as (-> & _). exists s. vm_compute in E. injection E as <- <-. done.
Defined.
